(* ===== verification/_CoqProject ===== *)
-Q . S2P
Prelude.v
BTree.v
Async.v
Ic.v
Clients.v
CyclesProbe.v
Quiet.v
TimerGuard.v
MemoPolicy.v
DisburserLogic.v
DisburserState.v
DisburserPayout.v
DisburserTick.v
Accounts.v
FaucetState.v
FaucetLogic.v
FaucetTransfer.v
FaucetSkip.v
FaucetIndex.v
FaucetPayout.v
FaucetTick.v
RelayState.v
RelayLogic.v
RelaySplitter.v
SplitterProtocol.v
RewardBudget.v
RewardHistory.v
RelayTransfer.v
RelayJob.v
RelayAccounting.v
RelayDrive.v
RewardSplitter.v
RewardTokenHistory.v
RewardProvenance.v
RewardSweep.v
RewardAttribution.v
RewardPot.v
RewardPayout.v
RewardRun.v
RelayTick.v
SnsRewards.v
SnsRewardsIndex.v
SnsRewardsRun.v
HistorianTypes.v
HistorianKeys.v
HistorianState.v
HistorianDurable.v
HistorianTracking.v
HistorianRanking.v
HistorianCommitments.v
HistorianIndexer.v
HistorianWalk.v
HistorianIndexed.v
HistorianRoutes.v
HistorianReturns.v
HistorianIndexRun.v
HistorianRoutesRun.v
HistorianProbe.v
HistorianDiscovery.v
HistorianTick.v
HistorianFrame.v
HistorianStays.v
HistorianTickRun.v
RelaySetup.v
RelaySetupKeys.v
RelayFactory.v
RelayFactoryProtocol.v
RelayFactoryRun.v
HistorianLifecycle.v
HistorianUpgrade.v
HistorianReadModel.v
HistorianPages.v
HistorianHashes.v
HistorianPoke.v
RelayLifecycle.v
FaucetDurable.v
