(* ===== verification/Prelude.v ===== *)
(** * Jupiter Faucet Suite: verification library (root file)

    The suite is a set of Internet Computer canisters.  The disburser owns an
    NNS neuron: it disburses its maturity and splits the arriving ICP between a
    base recipient and two bonus recipients.  The faucet turns every transfer of
    the disburser into a payout round: it replays the staking history of the
    neuron's account in the ICP Index, weighs the commitments declared by
    transfer memos, and pays each its share of the pot as cycles, as ICP or as a
    neuron stake; the rest goes to the relay.  The relay keeps the suite's
    canisters supplied with cycles: it probes their balances, tops them up through
    the CMC, splits what arrives on its numbered subaccounts, commits to the
    faucet on behalf of its default account, passes the surplus on, and once a
    week divides the SNS tokens that the commitments earned among those who
    funded them.  The SNS rewards canister scans the neurons of the SNS and says
    who owns an account, for that division.  The historian reads the same
    accounts for the public: it indexes the commitments and the routed transfers,
    discovers and probes canisters, ranks them, answers queries, and sells
    relays - a paid setup becomes a relay canister of its own.  All of them can
    lose remote services at every [await] and can be upgraded; the disburser and
    the faucet hand control to a rescue controller when they cannot pay.

    ** The model

    A handler is a function in the monad of [Async.v]: an environment answers
    the inter-canister calls, says what the other messages of the canister do to
    its state while a call is outstanding, and gives the time.  [trap] is a Rust
    panic, [out_of_fuel] a loop bound that was too small; [wp e m Q w] says that
    the run of [m] returns, and then [Q].  The trace of a run lists the calls
    with the state that was committed with each.  A canister's state is a
    [Record] with the fields of the Rust structs; [Heap] adds its thread-local
    cells and its timers.  Machine integers are [Z]; saturating, checked and
    wrapping operations are written out below.

    What is not in the repository is a parameter: principals and their texts
    and the equality of accounts ([Ic.PrincipalSpec], [Ic.AccountSpec]), the
    hash of account identifiers ([Accounts.HashSpec]), texts that only reach
    error messages ([Clients.TextSpec]), the Event Horizon canister
    ([MemoPolicy.EventHorizon]), Candid and hexadecimal codecs
    ([RewardHistory.CandidSpec]), the digest, the embedded wasm and the Candid
    arguments of the relay factory ([RelaySetup.FactorySpec]), the fixed
    identities of the probes ([CyclesProbe.ProbeIds]) and the canisters that a
    build binds ([HistorianLifecycle.BuildSpec], [RelayLifecycle.RelayBuild]),
    the replies and interleavings ([Async.env]).  Each has a concrete instance in
    the witnesses.

    ** The files

    - [Prelude], [Async], [Quiet]: integers, byte lists, counting; the monad, [wp],
      [wp_step], traces and relies; code that keeps a property of the world.
    - [Ic], [Accounts], [Clients], [TimerGuard]: [crates/ic-clients] - principals
      and accounts, subaccounts and account identifiers, the classification of
      the replies of the ledger, governance, CMC, index and management canisters
      ([ledger.rs], [governance.rs], [cmc.rs], [index.rs], [management.rs],
      [canister_info.rs]), the lease guards.
    - [MemoPolicy]: [crates/memo-policy], the memo directives.
    - [DisburserLogic], [DisburserState], [DisburserPayout], [DisburserTick]:
      [canisters/disburser] - the split and the payout plan ([logic.rs],
      [policy.rs]), state, lifecycle and lease ([state.rs], [lib.rs]),
      [process_payout] ([payout_plan.rs]), main tick, retry, rescue and poke
      ([tick.rs], [rescue.rs], [poke.rs]).
    - [FaucetState], [FaucetLogic]: [canisters/faucet] state, upgrade arguments
      and lifecycle ([state.rs], [transfer_dispatch.rs], [lib.rs]); commitments,
      weights, shares and accounting ([logic.rs]).
    - [FaucetTransfer]: one staged transfer, from staging to settlement
      ([cmc_notify.rs], [cmc_notify_transfer.rs]).
    - [FaucetSkip]: the cache of excluded history ([state.rs], [scan.rs]).
    - [FaucetIndex]: page validation, index health and the end of a job
      ([index_health.rs], [policy.rs], [cmc_notify.rs]).
    - [FaucetPayout]: funding discovery, the denominator pass, the payout pass,
      the remainder and the driver loop ([route_accounting.rs],
      [neuron_staking.rs]).
    - [FaucetTick]: main guard, main tick, retry, rescue and poke ([tick.rs],
      [rescue.rs], [poke.rs]).
    - [BTree]: the ordered maps and sets of the Rust library.
    - [CyclesProbe]: [ic-clients/cycles_probe.rs] and the relay's client of it:
      the routes to a canister's cycles and the probe under a policy.
    - [RelayState], [RelayLogic]: [canisters/relay] state, splitter journal and
      reward cell ([state.rs], [splitter_state.rs], [reward_state.rs]); burn,
      top-up, surplus, splitter and commitment plans ([logic.rs]).
    - [RelaySplitter], [SplitterProtocol]: the guards, the ledger fee and the
      two-leg driver ([guards.rs], [ledger_fee.rs], [splitter.rs]); the system of
      drivers, calls in flight and the ledger, and its abstract specification.
    - [RelayTransfer], [RelayJob], [RelayTick]: one staged transfer and the end of
      a job ([transfer.rs], [clients/cmc.rs]); the job from the probe to its
      completion; the main tick, the funding pipeline, pokes and timers
      ([tick.rs], [poke.rs]).
    - [RelayAccounting], [RelayDrive]: the accounting invariant of a job, and the
      runs of the drivers that keep it.
    - [RewardBudget], [RewardHistory], [RewardSplitter], [RewardTokenHistory],
      [RewardSweep]: the reward sweep - the work budget ([reward_budget.rs]),
      backward account histories ([reward_history.rs]), the replay of splitters
      ([reward_splitter.rs]), the age of the pot ([reward_token_history.rs]),
      attribution, allocation and the pinned payout ([reward_sweep.rs]).
    - [RewardProvenance], [RewardAttribution], [RewardPot], [RewardPayout],
      [RewardRun]: what the parts of the sweep promise, and one run of it.
    - [FaucetDurable], [RelayLifecycle]: the stable cell of the faucet with its
      batches ([state.rs]); the arguments, installation and upgrade of the relay
      ([lib.rs]); the admission of pokes in both.
    - [SnsRewards]: [canisters/sns-rewards] - owner selection, the two owner slots
      and the stable cell, the scan and its timer, the queries, the lifecycle;
      [SnsRewardsIndex], [SnsRewardsRun]: the published index, and the runs of the
      tick that builds it.
    - [HistorianTypes], [HistorianKeys], [HistorianState]: [canisters/historian]
      data, the keys of the stable maps with their bytes, the stable maps, scoped
      persistence and restoration ([state/]); [HistorianDurable]: what survives.
    - [HistorianTracking], [HistorianRanking]: tracked canisters, histories, the
      ranked summaries and the plan of the probes ([lifecycle.rs],
      [cycles_probe_planning.rs]).
    - [HistorianCommitments], [HistorianIndexer]: what a transaction declares, its
      application to the state, the fenced lease and the two-cursor walk of the
      staking account ([logic.rs], [commitment_*.rs]); [HistorianWalk],
      [HistorianIndexed], [HistorianIndexRun]: the walk as an abstract machine, the
      totals as functions of what it covers, and runs of the indexer.
    - [HistorianRoutes], [HistorianRoutesRun]: the same for the output and rewards
      routes ([route_transfer_indexer*.rs]); [HistorianReturns]: what a state needs
      for a run of either indexer to return under every reply.
    - [HistorianProbe], [HistorianDiscovery], [HistorianTick]: probes and the sweep,
      the discovery of SNSes, the main lease, the tick and the endowment poke
      ([cycles_probe.rs], [sns_discovery.rs], [tick.rs], [endowment_poke.rs]);
      [HistorianFrame], [HistorianStays], [HistorianTickRun]: what each phase
      leaves alone, and runs of the whole tick.
    - [HistorianLifecycle], [HistorianUpgrade]: the configuration, the normalization
      of a state, [init] and [post_upgrade] ([normalization.rs], [lifecycle.rs],
      [api.rs]), and what they keep.
    - [HistorianReadModel], [HistorianPages], [HistorianHashes], [HistorianPoke]: the
      queries ([read_model.rs]) and what a client can rely on; the cache of module
      hashes; pokes and the timer that follows them.
    - [RelaySetup], [RelaySetupKeys], [RelayFactory]: the relay factory of the
      historian - canonical sets, the setup key and the prices ([relay_setup/]),
      the journal, the admission limiter and the creation workflow
      ([relay_setup.rs], [admission.rs]); [RelayFactoryProtocol],
      [RelayFactoryRun]: the journal as a protocol, and the handler that runs it.

    ** The theorems

    - Payout runs: [DisburserPayout.process_payout_returns] and
      [FaucetPayout.process_payout_returns_safe] say that a run returns under
      every reply and interleaving and what it may do;
      [DisburserPayout.process_payout_completes] is the liveness side;
      [FaucetPayout.payout_debits_are_recorded] and
      [FaucetTransfer.no_debit_is_definite] are the reasons why no share is
      paid twice.
    - Scheduling: [DisburserTick.main_tick_outcomes],
      [FaucetTick.faucet_main_tick_outcomes], the lease protocol
      ([DisburserState.at_most_one_current]), the one-shot retry, pokes and the
      controller updates of both canisters.
    - Accounting: conservation and bounds of the split, of the plan and of the
      faucet's shares; invariants of the plan and of the active job.
    - History: [FaucetIndex.validate_history_page_exact] and
      [FaucetIndex.history_pass_descending]; the cache never excludes a record
      that was not observed; the oldest open funding transfer is selected, opens
      one round and is closed by it.
    - Relay splitters: [SplitterProtocol.splitter_refines_spec] refines the
      interleaved drivers to a protocol that pays each leg at most once;
      [RelaySplitter.drive_active_job_returns] bounds a driver.
    - Relay jobs: [RelayDrive.started_job_accounts] and
      [RelayDrive.relay_job_returns] follow the balance of a job from its plan
      through the state committed with each of its calls to its end; [RelayLogic.proportional_is_largest_remainder] and
      [RelayLogic.surplus_plan_within_balance] are about the plans;
      [CyclesProbe.probe_cycles_confined] about what a probe may call.
    - Relay rewards: [RewardRun.reward_run_safe] is one run;
      [RewardAttribution.commitment_fully_attributed],
      [RewardPot.pot_cutoffs_fifo], [RewardHistory.authoritative_history_replays]
      and [RewardSplitter.proportional_allocations_exact] say that attribution
      neither loses nor invents funds; [RewardPayout.reward_allocations_fair] and
      [RewardPayout.pinned_drive_safe] are about the payout.
    - SNS rewards: [SnsRewardsIndex.published_index_exact] and
      [SnsRewardsIndex.snapshot_answers_stable] are about what is published,
      [SnsRewardsRun.sns_tick_refines_steps] and [SnsRewardsRun.scan_completes]
      about the ticks that get there.
    - Historian accounting: [HistorianIndexRun.commitments_indexed_once] and
      [HistorianRoutesRun.routed_totals_exact] say that a run returns under every
      reply and, for an index that serves newest first and forgets nothing, that
      every total is that of the transactions which the cursors cover, each counted
      once, and every retained sample that of one of them;
      [HistorianTickRun.historian_tick_keeps_books] and
      [HistorianUpgrade.upgrade_keeps_books] carry this through whole ticks, pokes
      and upgrades, [HistorianUpgrade.installation_in_order] starts it, and
      [HistorianTickRun.phases_supervised] keeps the other phases out of it.
    - Historian storage: [HistorianDurable.no_update_lost],
      [HistorianKeys.route_key_storable], [HistorianRanking.summary_ranking_maintained].
    - Historian queries: [HistorianPages.historian_pages_complete],
      [HistorianPages.endowment_status_exact], [HistorianPages.prefix_search_exact],
      [HistorianHashes.module_hashes_vouched]; the poke that keeps them fresh:
      [HistorianPoke.pokes_coalesced_none_lost].
    - Relay factory: [RelayFactoryProtocol.setup_paid_created_funded_once] is about
      every interleaving of the operations of the journal,
      [RelayFactoryRun.factory_run_refines_journal] says that a request does only
      such operations, of its own key, under every reply and interleaving, and that
      each of its calls that moves value was journalled first,
      [RelayFactoryProtocol.upgrade_reconciles_journal] what an upgrade makes of
      the journal; [RelaySetupKeys.configuration_key_canonical] and
      [RelaySetupKeys.funded_setup_covers_relay] are about the key and the price.
    - Restarts: [RelayLifecycle.relay_restart_exact],
      [FaucetDurable.faucet_state_survives].
    - Lifecycle, encodings and memo round trips.
    - Three lemmas record places where the code does not do what it means to:
      [CyclesProbe.relay_probe_ignores_configured_root],
      [RelayDrive.disabled_surplus_drops_failed_topup] and
      [HistorianUpgrade.ConcreteUpgrade.stale_registry_entry_survives].

    ** Bounds

    The plan of the disburser is executed with one unit of fuel per pending
    transfer and one to end.  [FaucetTransfer.drive_loop] takes at most two
    rounds (a transfer and its raw fallback).  The payout driver gets
    [FaucetPayout.payout_fuel] = 66 rounds: one for a transfer left pending, one
    per page or cached jump of its budget of 64, one to end.  Funding discovery
    reads at most 128 pages.  A splitter driver needs five rounds
    ([RelaySplitter.rounds_left]).  The job loop of the relay gets the rounds that
    [RelayDrive.rounds_needed] counts: two per planned transfer.  The loops of the
    reward sweep get [RewardSplitter.loop_fuel] = 66 rounds, as every round but two
    is charged as a call and [RewardBudget.MAX_CALLS] is 64.  The claim counter of
    the splitter journal is assumed below 2^63.  The run marker is assumed below 2^63, so that
    its increment does not overflow within the lifetime of a canister.  The loops of
    the historian take the page budget of a run, the length of a slice or the
    rest of a list as their measure, and end on it as the code does.  The theorems
    of a run assume that the other messages of the canister keep the
    invariant and, while the lease of the run is stored, leave its plan or job
    alone: only the holder of the lease writes them.

    ** Not modelled

    The debug API and code under [cfg(test)], log lines, Candid encoding (with the
    rejection of obsolete upgrade fields, which reads the encoding), the ingress
    filters ([inspect_message]), the byte layout of stable memory other than the
    keys of the historian's maps, and the timer service beyond the list of set
    timers.  Handlers are modelled on the heap, which is stored at every await:
    the stable cells and their batches are in [FaucetDurable] (the disburser's is
    the same without batches) and, for the scoped maps of the historian, in
    [HistorianState]; a trap after an await keeps what was committed.  The
    frontend serves certified assets over HTTP and the lifeline logs its balance:
    neither keeps state that a payment depends on.  Generated type declarations,
    build support, development tools and test mocks are left out. *)

From stdpp Require Export base numbers list list_numbers option gmap sets strings.
From coqutil Require Export Datatypes.RecordSettersUsingExistingGetters.
From Stdlib Require Export Lia.

#[global] Open Scope Z_scope.

(** ** Machine integers

    A Rust [u64]/[u128] value is a [Z]; [u64 x] states that [x] is in range.
    The saturating, checked and truncating operations are written out. *)

Abbreviation u64_max := 18446744073709551615 (only parsing).
Abbreviation u64_mod := 18446744073709551616 (only parsing).
Abbreviation u128_max := 340282366920938463463374607431768211455 (only parsing).

Definition u64 (x : Z) : Prop := 0 <= x <= u64_max.
Definition u128 (x : Z) : Prop := 0 <= x <= u128_max.

Definition sat_add (a b : Z) : Z := Z.min (a + b) u64_max.
Definition sat_sub (a b : Z) : Z := Z.max 0 (a - b).
Definition sat_mul (a b : Z) : Z := Z.min (a * b) u64_max.
Definition sat_add128 (a b : Z) : Z := Z.min (a + b) u128_max.
Definition sat_mul128 (a b : Z) : Z := Z.min (a * b) u128_max.
Definition checked_add (a b : Z) : option Z :=
  if a + b <=? u64_max then Some (a + b) else None.
Definition checked_sub (a b : Z) : option Z :=
  if b <=? a then Some (a - b) else None.
Definition checked_mul (a b : Z) : option Z :=
  if a * b <=? u64_max then Some (a * b) else None.
Definition checked_mul128 (a b : Z) : option Z :=
  if a * b <=? u128_max then Some (a * b) else None.
(** [x as u64] from a wider unsigned type. *)
Definition as_u64 (x : Z) : Z := x mod u64_mod.
(** [u128::div_ceil] *)
Definition div_ceil (a b : Z) : Z := if a mod b =? 0 then a / b else a / b + 1.

#[export] Instance u64_dec x : Decision (u64 x).
Proof. unfold u64. apply _. Defined.

Create HintDb jupiter.
Create Rewrite HintDb jupiter_rw.

(** Case analysis on the comparisons a Rust guard was translated to. *)
Ltac zify_bool :=
  repeat match goal with
  | H : (_ <=? _) = true |- _ => apply Z.leb_le in H
  | H : (_ <=? _) = false |- _ => apply Z.leb_gt in H
  | H : (_ <? _) = true |- _ => apply Z.ltb_lt in H
  | H : (_ <? _) = false |- _ => apply Z.ltb_ge in H
  | H : (_ =? _) = true |- _ => apply Z.eqb_eq in H
  | H : (_ =? _) = false |- _ => apply Z.eqb_neq in H
  | H : negb _ = true |- _ => apply negb_true_iff in H
  | H : negb _ = false |- _ => apply negb_false_iff in H
  | H : (_ && _) = true |- _ => apply andb_true_iff in H; destruct H
  | H : (_ || _) = false |- _ => apply orb_false_iff in H; destruct H
  end.

Ltac u64_unfold :=
  unfold u64, u128, sat_add, sat_sub, sat_mul, sat_add128, sat_mul128, as_u64 in *.

(** Arithmetic over machine integers once every guard is a [Z] (in)equality. *)
Ltac ulia := zify_bool; u64_unfold; lia.
Ltac unia := zify_bool; u64_unfold; nia.

(** Splits the first conditional or match of the goal, remembering the branch. *)
Ltac split_match :=
  match goal with
  | |- context [match ?x with _ => _ end] =>
      lazymatch x with context [match _ with _ => _ end] => fail | _ => destruct x eqn:? end
  end.
Ltac split_match_in H :=
  match type of H with
  | context [match ?x with _ => _ end] =>
      lazymatch x with context [match _ with _ => _ end] => fail | _ => destruct x eqn:? end
  end.

(** ** Shared arithmetic lemmas *)

Lemma checked_add_Some a b c :
  checked_add a b = Some c <-> c = a + b /\ a + b <= u64_max.
Proof.
  unfold checked_add. case_match; zify_bool; (split; [intros [=]|intros [-> ?]]); try f_equal; lia.
Qed.

Lemma checked_sub_Some a b c :
  checked_sub a b = Some c <-> c = a - b /\ b <= a.
Proof.
  unfold checked_sub. case_match; zify_bool; (split; [intros [=]|intros [-> ?]]); try f_equal; lia.
Qed.

Lemma checked_mul_Some a b c :
  checked_mul a b = Some c <-> c = a * b /\ a * b <= u64_max.
Proof.
  unfold checked_mul. case_match; zify_bool; (split; [intros [=]|intros [-> ?]]); try f_equal; lia.
Qed.

Lemma as_u64_small x : u64 x -> as_u64 x = x.
Proof. intros []. unfold as_u64. apply Z.mod_small. lia. Qed.

Lemma div_ceil_spec a b : 0 < b -> 0 <= a -> a <= b * div_ceil a b < a + b.
Proof.
  intros Hb Ha. unfold div_ceil.
  pose proof (Z.div_mod a b ltac:(lia)). pose proof (Z.mod_pos_bound a b Hb).
  case_match; ulia.
Qed.

Lemma mul_div_bounds a b c : 0 < c -> 0 <= a * b ->
  c * (a * b / c) <= a * b < c * (a * b / c) + c.
Proof.
  intros Hc _. pose proof (Z.div_mod (a * b) c ltac:(lia)).
  pose proof (Z.mod_pos_bound (a * b) c Hc). lia.
Qed.

(** ** Results, options and bytes *)

Inductive result (T E : Type) := Ok (t : T) | Err (e : E).
Arguments Ok {T E} t.
Arguments Err {T E} e.

#[export] Instance result_eq_dec {T E} `{EqDecision T, EqDecision E} : EqDecision (result T E).
Proof. solve_decision. Defined.

(** [Option::unwrap_or] and [Option::is_some_and]. *)
Definition unwrap_or {A} (o : option A) (d : A) : A := default d o.
Definition is_some {A} (o : option A) : bool :=
  match o with Some _ => true | None => false end.
Definition is_none {A} (o : option A) : bool :=
  match o with Some _ => false | None => true end.
Definition is_some_and {A} (o : option A) (f : A -> bool) : bool :=
  match o with Some a => f a | None => false end.

(** [bool::then_some]. *)
Definition then_some {A} (b : bool) (a : A) : option A := if b then Some a else None.

(** A byte is a [Z] in [0, 256). *)
Definition byte_ok (b : Z) : Prop := 0 <= b < 256.

(** [n] big-endian bytes of [x] ([to_be_bytes] for [n = 8]). *)
Fixpoint be_bytes (n : nat) (x : Z) : list Z :=
  match n with
  | O => []
  | S k => be_bytes k (x / 256) ++ [x mod 256]
  end.
Definition from_be (bs : list Z) : Z := fold_left (fun acc b => acc * 256 + b) bs 0.
Definition to_be_bytes (x : Z) : list Z := be_bytes 8 x.
Definition to_le_bytes (x : Z) : list Z := reverse (be_bytes 8 x).

Lemma length_be_bytes n x : length (be_bytes n x) = n.
Proof. revert x; induction n as [|n IH]; intros x; cbn; [done|]. rewrite length_app, IH. cbn. lia. Qed.

Lemma be_bytes_ok n x : Forall byte_ok (be_bytes n x).
Proof.
  revert x; induction n as [|n IH]; intros x; cbn; [constructor|].
  apply Forall_app; split; [apply IH|]. constructor; [|constructor].
  unfold byte_ok. apply Z.mod_pos_bound. lia.
Qed.

Lemma from_be_snoc l b : from_be (l ++ [b]) = from_be l * 256 + b.
Proof. unfold from_be. by rewrite fold_left_app. Qed.

Lemma from_be_bytes n x : 0 <= x < 256 ^ Z.of_nat n -> from_be (be_bytes n x) = x.
Proof.
  revert x; induction n as [|n IH]; intros x Hx; cbn [be_bytes].
  - cbn in Hx. unfold from_be. cbn. lia.
  - rewrite from_be_snoc, IH.
    + pose proof (Z.div_mod x 256 ltac:(lia)). lia.
    + rewrite Nat2Z.inj_succ, Z.pow_succ_r in Hx by lia.
      split; [apply Z.div_pos; lia|]. apply Z.div_lt_upper_bound; lia.
Qed.

Lemma be_bytes_inj n x y :
  0 <= x < 256 ^ Z.of_nat n -> 0 <= y < 256 ^ Z.of_nat n ->
  be_bytes n x = be_bytes n y -> x = y.
Proof. intros Hx Hy E. rewrite <- (from_be_bytes n x), <- (from_be_bytes n y) by done. by rewrite E. Qed.

Lemma be_from_bytes l : Forall byte_ok l -> be_bytes (length l) (from_be l) = l.
Proof.
  induction l as [|b l IH] using rev_ind; intros Hl; [done|].
  apply Forall_app in Hl as [Hl Hb]. inversion_clear Hb as [|? ? Hbb _].
  rewrite from_be_snoc, length_app. cbn [length].
  replace (length l + 1)%nat with (S (length l)) by lia. cbn [be_bytes].
  unfold byte_ok in Hbb.
  rewrite (Z.add_comm (from_be l * 256)), Z.div_add, Z.div_small, Z.add_0_l by lia.
  rewrite Z.mod_add, Z.mod_small by lia. by rewrite IH.
Qed.

Lemma from_be_bound l : Forall byte_ok l -> 0 <= from_be l < 256 ^ Z.of_nat (length l).
Proof.
  induction l as [|b l IH] using rev_ind; intros Hl; [cbn; lia|].
  apply Forall_app in Hl as [Hl Hb]. inversion_clear Hb as [|? ? Hbb _].
  rewrite from_be_snoc, length_app. cbn [length].
  replace (Z.of_nat (length l + 1)) with (Z.succ (Z.of_nat (length l))) by lia.
  rewrite Z.pow_succ_r by lia. unfold byte_ok in Hbb. specialize (IH Hl). lia.
Qed.

(** Sum of a list of integers. *)
Definition sumZ (l : list Z) : Z := foldr Z.add 0 l.

Lemma sumZ_nil : sumZ [] = 0.
Proof. done. Qed.

Lemma sumZ_cons a l : sumZ (a :: l) = a + sumZ l.
Proof. done. Qed.

Lemma sumZ_app l1 l2 : sumZ (l1 ++ l2) = sumZ l1 + sumZ l2.
Proof. unfold sumZ. induction l1 as [|a l1 IH]; cbn; [done|]. rewrite IH. lia. Qed.

Lemma sumZ_map_ge {A} (f : A -> Z) l x :
  Forall (fun a => 0 <= f a) l -> x ∈ l -> f x <= sumZ (map f l).
Proof.
  intros Hpos Hin. induction Hin as [x l|x y l Hin IH]; cbn [map]; rewrite sumZ_cons;
    apply Forall_cons in Hpos as [Hx Hpos].
  - assert (0 <= sumZ (map f l)); [|lia]. clear -Hpos. unfold sumZ. induction Hpos; cbn; lia.
  - specialize (IH Hpos). lia.
Qed.

Lemma sumZ_nonneg l : Forall (fun x => 0 <= x) l -> 0 <= sumZ l.
Proof. unfold sumZ. induction 1; cbn; lia. Qed.

Lemma sumZ_submseteq {A} (f : A -> Z) l k :
  Forall (fun a => 0 <= f a) k -> l ⊆+ k -> sumZ (map f l) <= sumZ (map f k).
Proof.
  intros Hpos Hsub. apply submseteq_Permutation in Hsub as [k' Hk].
  assert (forall l1 l2, l1 ≡ₚ l2 -> sumZ (map f l1) = sumZ (map f l2)) as Hperm.
  { intros l1 l2 H. unfold sumZ. induction H; cbn; lia. }
  rewrite (Hperm _ _ Hk), map_app, sumZ_app. rewrite Hk in Hpos.
  apply Forall_app in Hpos as [_ Hpos].
  assert (0 <= sumZ (map f k')) by (apply sumZ_nonneg, Forall_map, Hpos). lia.
Qed.
#[export] Hint Rewrite sumZ_nil sumZ_cons sumZ_app : jupiter_rw.
#[global] Arguments sumZ : simpl never.

(** The bytes of an ASCII string literal. *)
Definition bytes_of_string (s : string) : list Z :=
  map (fun a => Z.of_N (Ascii.N_of_ascii a)) (String.list_ascii_of_string s).

(** ** ASCII text, as [str] methods on the bytes of an ASCII [&str] *)

(** [char::is_whitespace] and [u8::is_ascii_whitespace] (which excludes the
    vertical tab). *)
Definition is_whitespace (b : Z) : bool := ((9 <=? b) && (b <=? 13)) || (b =? 32).
Definition is_ascii_whitespace (b : Z) : bool :=
  ((9 <=? b) && (b <=? 10)) || ((12 <=? b) && (b <=? 13)) || (b =? 32).
Definition is_ascii_digit (b : Z) : bool := (48 <=? b) && (b <=? 57).
Definition is_ascii (bs : list Z) : bool := forallb (fun b => b <? 128) bs.

Fixpoint trim_start (bs : list Z) : list Z :=
  match bs with
  | [] => []
  | b :: bs' => if is_whitespace b then trim_start bs' else bs
  end.
Definition trim (bs : list Z) : list Z := reverse (trim_start (reverse (trim_start bs))).

(** [str::split_once(c)] *)
Fixpoint split_once (c : Z) (bs : list Z) : option (list Z * list Z) :=
  match bs with
  | [] => None
  | b :: bs' =>
      if b =? c then Some ([], bs')
      else match split_once c bs' with
           | Some (l, r) => Some (b :: l, r)
           | None => None
           end
  end.

(** [str::parse::<u64>()], [None] for an error. *)
Fixpoint parse_u64_digits (acc : Z) (bs : list Z) : option Z :=
  match bs with
  | [] => Some acc
  | b :: bs' =>
      if is_ascii_digit b then
        match checked_mul acc 10 with
        | Some a => match checked_add a (b - 48) with
                    | Some a' => parse_u64_digits a' bs'
                    | None => None
                    end
        | None => None
        end
      else None
  end.
Definition parse_u64 (bs : list Z) : option Z :=
  match bs with
  | [] => None
  | b :: bs' =>
      if b =? 43 then (if bool_decide (bs' = []) then None else parse_u64_digits 0 bs')
      else parse_u64_digits 0 bs
  end.

(** [str::strip_prefix] *)
Fixpoint strip_prefix (pre bs : list Z) : option (list Z) :=
  match pre, bs with
  | [], _ => Some bs
  | p :: pre', b :: bs' => if p =? b then strip_prefix pre' bs' else None
  | _ :: _, [] => None
  end.

(** [u64::to_string()] *)
Fixpoint dec_text (fuel : nat) (x : Z) : list Z :=
  match fuel with
  | O => []
  | S k => (if x / 10 =? 0 then [] else dec_text k (x / 10)) ++ [48 + x mod 10]
  end.
Definition u64_to_string (x : Z) : list Z := dec_text 20 x.

Lemma parse_u64_digits_app acc l b :
  is_ascii_digit b = true ->
  parse_u64_digits acc (l ++ [b]) =
  match parse_u64_digits acc l with
  | Some v => if v * 10 + (b - 48) <=? u64_max then Some (v * 10 + (b - 48)) else None
  | None => None
  end.
Proof.
  intros Hb. revert acc. induction l as [|c l IH]; intros acc; cbn.
  - rewrite Hb. unfold checked_mul, checked_add, is_ascii_digit in *.
    repeat case_match; simplify_eq; zify_bool; first [done | f_equal; lia | exfalso; lia].
  - destruct (is_ascii_digit c), (checked_mul acc 10) as [z|]; try done.
    destruct (checked_add z (c - 48)); [apply IH|done].
Qed.

Lemma dec_text_digits n x : 0 <= x -> Forall (fun b => is_ascii_digit b = true) (dec_text n x).
Proof.
  revert x; induction n as [|n IH]; intros x Hx; cbn; [constructor|].
  apply Forall_app; split.
  - case_match; [constructor|]. apply IH. apply Z.div_pos; lia.
  - constructor; [|constructor]. unfold is_ascii_digit.
    pose proof (Z.mod_pos_bound x 10). apply andb_true_iff. split; apply Z.leb_le; lia.
Qed.

Lemma dec_text_parse n x :
  0 <= x < 10 ^ Z.of_nat n -> (0 < n)%nat -> x <= u64_max ->
  parse_u64_digits 0 (dec_text n x) = Some x.
Proof.
  revert x; induction n as [|n IH]; intros x Hx Hn Hmax; [lia|]. cbn [dec_text].
  rewrite Nat2Z.inj_succ, Z.pow_succ_r in Hx by lia.
  pose proof (Z.div_mod x 10 ltac:(lia)) as Hdm. pose proof (Z.mod_pos_bound x 10 ltac:(lia)).
  rewrite parse_u64_digits_app by
    (unfold is_ascii_digit; apply andb_true_iff; split; apply Z.leb_le; lia).
  destruct (x / 10 =? 0) eqn:?; zify_bool.
  - cbn [parse_u64_digits]. rewrite (proj2 (Z.leb_le _ _)) by lia. f_equal. lia.
  - assert (0 < x / 10 < 10 ^ Z.of_nat n).
    { pose proof (Z.div_pos x 10 ltac:(lia) ltac:(lia)). split; [lia|]. apply Z.div_lt_upper_bound; lia. }
    rewrite IH; [|lia| |lia].
    + rewrite (proj2 (Z.leb_le _ _)) by lia. f_equal. lia.
    + destruct n; [cbn in *; lia|lia].
Qed.

Lemma dec_text_nonempty n x : (0 < n)%nat -> dec_text n x <> [].
Proof. destruct n; [lia|]. cbn. intros _ H. by apply app_eq_nil in H as [_ ?]. Qed.

Lemma length_dec_text n x : (length (dec_text n x) <= n)%nat.
Proof.
  revert x; induction n as [|n IH]; intros x; cbn; [lia|]. rewrite length_app. cbn.
  case_match; cbn; [lia|]. specialize (IH (x / 10)). lia.
Qed.

Lemma strip_prefix_Some pre l s : strip_prefix pre l = Some s <-> l = pre ++ s.
Proof.
  revert l; induction pre as [|p pre IH]; intros [|b l]; cbn; try naive_solver.
  case_match; zify_bool; [rewrite IH|]; naive_solver.
Qed.

Lemma parse_u64_digit_text l :
  Forall (fun b => is_ascii_digit b = true) l -> l <> [] -> parse_u64 l = parse_u64_digits 0 l.
Proof.
  intros H Hne. destruct l as [|b l]; [done|]. inversion_clear H as [|? ? Hb _].
  unfold parse_u64. destruct (b =? 43) eqn:E; [|done].
  unfold is_ascii_digit in Hb. zify_bool. lia.
Qed.

(** [Iterator::position] *)
Fixpoint position {A} (f : A -> bool) (l : list A) : option nat :=
  match l with
  | [] => None
  | a :: l' => if f a then Some O else S <$> position f l'
  end.

Lemma position_Some {A} (f : A -> bool) l i :
  position f l = Some i ->
  exists a, l !! i = Some a /\ f a = true /\
  forall j b, (j < i)%nat -> l !! j = Some b -> f b = false.
Proof.
  revert i; induction l as [|a l IH]; intros i; cbn; [done|].
  destruct (f a) eqn:E.
  - intros [= <-]. exists a. repeat split; [done|]. intros. lia.
  - destruct (position f l) as [i'|] eqn:Hp; [|done]. intros [= <-].
    destruct (IH i' eq_refl) as (b & Hb & Hf & Hmin).
    exists b. repeat split; [done|done|]. intros [|j] c Hj Hc; cbn in Hc; [naive_solver|].
    apply (Hmin j); [lia|done].
Qed.

Lemma position_None {A} (f : A -> bool) l :
  position f l = None <-> Forall (fun a => f a = false) l.
Proof.
  induction l as [|a l IH]; cbn; [by split|]. rewrite Forall_cons.
  destruct (f a) eqn:E; [naive_solver|]. rewrite fmap_None. naive_solver.
Qed.

(** The number of elements that satisfy a test. *)
Fixpoint count {A} (f : A -> bool) (l : list A) : nat :=
  match l with [] => O | a :: l' => ((if f a then 1 else 0) + count f l')%nat end.

Lemma count_le_length {A} (f : A -> bool) l : (count f l <= length l)%nat.
Proof. induction l as [|a l IH]; cbn; [lia|]. destruct (f a); lia. Qed.

Lemma count_alter {A} (f : A -> bool) (g : A -> A) l i a :
  l !! i = Some a -> f a = true -> f (g a) = false -> count f l = S (count f (alter g i l)).
Proof.
  revert i; induction l as [|c l IH]; intros [|i]; cbn; try done.
  - intros [= ->] -> ->. lia.
  - intros Hl Ha Hb. rewrite (IH i) by done. destruct (f c); reflexivity.
Qed.

Lemma count_map {A} (f : A -> bool) l k : map f l = map f k -> count f l = count f k.
Proof.
  revert k; induction l as [|t l IH]; intros [|u k]; cbn; try done.
  intros [= -> H]. by rewrite (IH k).
Qed.

Lemma count_app {A} (f : A -> bool) l k : count f (l ++ k) = (count f l + count f k)%nat.
Proof. induction l as [|a l IH]; cbn; [done|]. rewrite IH. lia. Qed.

Lemma count_elem {A} (f : A -> bool) l a : a ∈ l -> f a = true -> (1 <= count f l)%nat.
Proof. intros Hin Hf. induction Hin as [a l|a b l Hin IH]; cbn; [rewrite Hf; lia|]. specialize (IH Hf). lia. Qed.

Lemma count_mono {A} (f g : A -> bool) l :
  Forall (fun a => f a = true -> g a = true) l -> (count f l <= count g l)%nat.
Proof.
  induction 1 as [|a l Ha Hl IH]; cbn; [lia|].
  destruct (f a); [rewrite Ha by done|destruct (g a)]; lia.
Qed.

Lemma count_zero {A} (f : A -> bool) l : Forall (fun a => f a = false) l -> count f l = 0%nat.
Proof. induction 1 as [|a l Ha Hl IH]; cbn; [done|]. by rewrite Ha. Qed.

(** ** Bounded loops *)

(** At most [2 ^ k] rounds of a loop that ends with [inr]. *)
Fixpoint iterate {S R} (step : S -> S + R) (k : nat) (s : S) : S + R :=
  match k with
  | O => step s
  | Datatypes.S k => match iterate step k s with inl s' => iterate step k s' | inr r => inr r end
  end.

Lemma iterate_ind {S R} (step : S -> S + R) (I : S -> Prop) (Q : R -> Prop) k s :
  (forall s, I s -> match step s with inl s' => I s' | inr r => Q r end) -> I s ->
  match iterate step k s with inl s' => I s' | inr r => Q r end.
Proof.
  intros Hstep. revert s. induction k as [|k IH]; intros s Hs; cbn; [by apply Hstep|].
  specialize (IH s Hs) as Hk. destruct (iterate step k s); [by apply IH|done].
Qed.

(** A loop whose rounds decrease a measure below [2 ^ k] ends. *)
Lemma iterate_done {S R} (step : S -> S + R) (I : S -> Prop) (m : S -> Z) k s :
  (forall s, I s -> match step s with inl s' => I s' /\ 0 <= m s' < m s | inr _ => True end) ->
  I s -> 0 <= m s < 2 ^ Z.of_nat k -> exists r, iterate step k s = inr r.
Proof.
  intros Hstep Hs Hm.
  assert (forall k s, I s -> match iterate step k s with
    | inl s' => I s' /\ 0 <= m s' <= m s - 2 ^ Z.of_nat k | inr _ => True end) as H.
  { clear k s Hs Hm. induction k as [|k IH]; intros s Hs.
    - specialize (Hstep s Hs). cbn. destruct (step s); [|done]. split; [apply Hstep|]. lia.
    - specialize (IH s Hs) as H1. cbn [iterate]. destruct (iterate step k s) as [s1|]; [|done].
      specialize (IH s1 (proj1 H1)). destruct (iterate step k s1); [|done].
      rewrite Nat2Z.inj_succ, Z.pow_succ_r by lia. split; [apply IH|]. lia. }
  specialize (H k s Hs). destruct (iterate step k s) as [s'|r]; [lia|eauto].
Qed.

Lemma iterate_one {S R} (step : S -> S + R) k s r : step s = inr r -> iterate step k s = inr r.
Proof. intros Hs. induction k as [|k IH]; cbn; [done|]. by rewrite IH. Qed.

Lemma iterate_two {S R} (step : S -> S + R) k s s' r :
  step s = inl s' -> step s' = inr r -> iterate step (Datatypes.S k) s = inr r.
Proof.
  intros H1 H2. induction k as [|k IH]; [cbn; by rewrite H1|].
  change (match iterate step (Datatypes.S k) s with
          | inl s'' => iterate step (Datatypes.S k) s'' | inr r' => inr r' end = inr r).
  by rewrite IH.
Qed.
