(* ===== verification/BTree.v ===== *)
(** * [BTreeMap] and [BTreeSet]

    The ordered maps of the Rust standard library as association lists in the
    strict order of their keys: iteration is the order of the list.  The order
    of a key type is a parameter ([Ord]); its laws are those of a strict total
    order. *)

From Stdlib Require Import Sorted.
From S2P Require Import Prelude.

Class OrdSpec (K : Type) := ltb : K -> K -> bool.
Class OrdLaws (K : Type) `{OrdSpec K} : Prop := {
  ltb_irrefl : forall a, ltb a a = false;
  ltb_trans : forall a b c, ltb a b = true -> ltb b c = true -> ltb a c = true;
  ltb_total : forall a b, ltb a b = true \/ a = b \/ ltb b a = true;
}.

#[export] Instance Z_ord : OrdSpec Z := Z.ltb.
#[export] Instance Z_ord_laws : OrdLaws Z.
Proof. split; unfold ltb, Z_ord; intros; zify_bool; rewrite ?Z.ltb_lt, ?Z.ltb_ge; lia. Qed.

(** Sorted lists in sequence: the last element of the first is below the second. *)
Lemma sorted_app_last {A} (R : A -> A -> Prop) (l k : list A) :
  (forall x y z, R x y -> R y z -> R x z) ->
  StronglySorted R l -> StronglySorted R k -> (forall x, last l = Some x -> Forall (R x) k) ->
  StronglySorted R (l ++ k).
Proof.
  intros Ht Hl Hk Hp. induction Hl as [|x l Hl IH Hx]; [done|]. cbn. constructor.
  - apply IH. intros z Hlast. apply Hp. destruct l; [done|]. exact Hlast.
  - apply Forall_app. split; [done|]. destruct l as [|y l]; [by apply Hp|].
    destruct (last_is_Some (y :: l)) as [_ [z Hz]]; [done|].
    assert (Forall (R z) k) as Hzk by (apply Hp; exact Hz).
    apply last_Some_elem_of in Hz. rewrite Forall_forall in Hx. specialize (Hx _ Hz).
    eapply Forall_impl; [exact Hzk|]. cbn. eauto.
Qed.

Section btree.
Context {K V : Type} `{EqDecision K} `{OrdSpec K}.

Definition btree_map : Type := list (K * V).

Fixpoint btree_get (k : K) (m : btree_map) : option V :=
  match m with
  | [] => None
  | (k', v) :: m' => if decide (k = k') then Some v else btree_get k m'
  end.

Fixpoint btree_insert (k : K) (v : V) (m : btree_map) : btree_map :=
  match m with
  | [] => [(k, v)]
  | (k', v') :: m' =>
      if decide (k = k') then (k, v) :: m'
      else if ltb k k' then (k, v) :: m
      else (k', v') :: btree_insert k v m'
  end.

Definition btree_remove (k : K) (m : btree_map) : btree_map :=
  List.filter (fun kv => negb (bool_decide (kv.1 = k))) m.

(** [BTreeMap::retain], on the keys *)
Definition btree_retain (f : K -> bool) (m : btree_map) : btree_map :=
  List.filter (fun kv => f kv.1) m.

Definition btree_keys (m : btree_map) : list K := map fst m.
Definition contains_key (k : K) (m : btree_map) : bool := is_some (btree_get k m).

(** [extend] and [collect] from an iterator of pairs *)
Definition btree_extend (kvs : list (K * V)) (m : btree_map) : btree_map :=
  fold_left (fun m kv => btree_insert kv.1 kv.2 m) kvs m.

Definition key_lt (a b : K * V) : Prop := ltb a.1 b.1 = true.
Definition btree_wf (m : btree_map) : Prop := StronglySorted key_lt m.

Lemma btree_get_insert k v m : btree_get k (btree_insert k v m) = Some v.
Proof.
  induction m as [|[k' v'] m IH]; cbn; [by rewrite decide_True|].
  repeat case_decide; subst; cbn; repeat case_match; try done; cbn; by repeat case_decide.
Qed.

Lemma btree_get_insert_ne k k' v m : k <> k' -> btree_get k' (btree_insert k v m) = btree_get k' m.
Proof.
  intros Hne. induction m as [|[q w] m IH]; cbn; [by rewrite decide_False by congruence|].
  destruct (decide (k = q)) as [<-|]; cbn.
  - by rewrite !decide_False by congruence.
  - destruct (ltb k q); cbn; [by rewrite (decide_False (P:=k' = k)) by congruence|].
    by rewrite IH.
Qed.

Lemma btree_get_remove k m : btree_get k (btree_remove k m) = None.
Proof.
  unfold btree_remove. induction m as [|[q w] m IH]; cbn; [done|]. case_bool_decide; cbn; [done|].
  by rewrite decide_False by congruence.
Qed.

Lemma btree_get_remove_ne k k' m : k <> k' -> btree_get k' (btree_remove k m) = btree_get k' m.
Proof.
  intros Hne. unfold btree_remove. induction m as [|[q w] m IH]; cbn; [done|].
  case_bool_decide; cbn; [by rewrite decide_False by congruence|]. by rewrite IH.
Qed.

Lemma btree_get_retain f k m :
  btree_get k (btree_retain f m) = if f k then btree_get k m else None.
Proof.
  unfold btree_retain. induction m as [|[q w] m IH]; cbn; [by destruct (f k)|].
  destruct (f q) eqn:Hq; cbn; case_decide; subst; rewrite ?IH, ?Hq; done.
Qed.

Lemma btree_get_elem k v m : btree_get k m = Some v -> (k, v) ∈ m.
Proof.
  induction m as [|[q w] m IH]; cbn; [done|].
  case_decide; subst; [intros [= <-]; left|intros Hg; right; by apply IH].
Qed.

Lemma elem_insert kv k v m : kv ∈ btree_insert k v m -> kv = (k, v) \/ kv ∈ m.
Proof.
  induction m as [|[q w] m IH]; cbn; [set_solver|].
  repeat case_match; set_solver.
Qed.

End btree.

Arguments btree_map : clear implicits.

(** A set is a map to [unit]; [BTreeSet::insert] says whether the element is new. *)
Section set.
Context {K : Type} `{EqDecision K} `{OrdSpec K}.

Definition btree_set : Type := list K.
Fixpoint set_insert (k : K) (s : btree_set) : btree_set :=
  match s with
  | [] => [k]
  | k' :: s' => if decide (k = k') then s
                else if ltb k k' then k :: s else k' :: set_insert k s'
  end.
Definition set_contains (k : K) (s : btree_set) : bool := bool_decide (k ∈ s).
Definition set_of_list (l : list K) : btree_set := fold_left (fun s k => set_insert k s) l [].

Lemma elem_of_set_insert k x s : x ∈ set_insert k s <-> x = k \/ x ∈ s.
Proof.
  induction s as [|q s IH]; cbn; [set_solver|].
  case_decide; subst; [set_solver|]. destruct (ltb k q); set_solver.
Qed.

Lemma elem_of_set_fold x l s : x ∈ fold_left (fun s k => set_insert k s) l s <-> x ∈ l \/ x ∈ s.
Proof.
  revert s; induction l as [|k l IH]; intros s; cbn; [set_solver|].
  rewrite IH, elem_of_set_insert. set_solver.
Qed.

Lemma elem_of_set_of_list x l : x ∈ set_of_list l <-> x ∈ l.
Proof. unfold set_of_list. rewrite elem_of_set_fold. set_solver. Qed.

End set.

Arguments btree_set : clear implicits.

(** ** Under the laws of the order *)

Section wf.
Context {K V : Type} `{EqDecision K} `{L : OrdLaws K}.

Lemma btree_insert_wf k (v : V) m : btree_wf m -> btree_wf (btree_insert k v m).
Proof.
  unfold btree_wf. induction 1 as [|[q w] m Hm IH Hall]; cbn; [repeat constructor|].
  destruct (decide (k = q)) as [<-|Hne]; [by constructor|].
  destruct (ltb k q) eqn:Hlt.
  - repeat constructor; [done|done|done|]. eapply Forall_impl; [exact Hall|].
    intros [r x] Hr. unfold key_lt in *. cbn in *. eauto using ltb_trans.
  - constructor; [done|]. apply Forall_forall. intros kv [->|Hin]%elem_insert.
    + unfold key_lt; cbn. destruct (ltb_total k q) as [?|[?|?]]; congruence.
    + by eapply Forall_forall in Hall.
Qed.

Lemma filter_wf (f : K * V -> bool) m : btree_wf m -> btree_wf (List.filter f m).
Proof.
  unfold btree_wf. induction 1 as [|kv m Hm IH Hall]; cbn; [constructor|].
  destruct (f kv); [|done]. constructor; [done|].
  apply Forall_forall. intros x Hx. apply list_elem_of_In, filter_In in Hx as [Hx _].
  apply list_elem_of_In in Hx. by eapply Forall_forall in Hall.
Qed.

Lemma btree_wf_NoDup (m : btree_map K V) : btree_wf m -> NoDup (btree_keys m).
Proof.
  unfold btree_wf. induction 1 as [|[q w] m Hm IH Hall]; cbn; constructor; [|done].
  intros Hq. apply (list_elem_of_fmap_1 fst m q) in Hq as ([r x] & -> & Hin). cbn in *.
  eapply Forall_forall in Hall; [|exact Hin]. unfold key_lt in Hall. cbn in Hall.
  by rewrite ltb_irrefl in Hall.
Qed.

Lemma btree_wf_get k (v : V) m : btree_wf m -> (k, v) ∈ m -> btree_get k m = Some v.
Proof.
  unfold btree_wf. induction 1 as [|[q w] m Hm IH Hall]; cbn; [by intros ?%elem_of_nil|].
  intros [[= -> ->]|Hin]%elem_of_cons; [by rewrite decide_True|].
  rewrite decide_False; [by apply IH|]. intros ->. eapply Forall_forall in Hall; [|exact Hin].
  unfold key_lt in Hall. cbn in Hall. by rewrite ltb_irrefl in Hall.
Qed.

Lemma set_insert_sorted k (s : btree_set K) :
  StronglySorted (fun a b => ltb a b = true) s ->
  StronglySorted (fun a b => ltb a b = true) (set_insert k s).
Proof.
  induction 1 as [|q s Hs IH Hall]; cbn; [repeat constructor|].
  destruct (decide (k = q)) as [<-|Hne]; [by constructor|].
  destruct (ltb k q) eqn:Hlt.
  - repeat constructor; [done|done|done|]. eapply Forall_impl; [exact Hall|]. eauto using ltb_trans.
  - constructor; [done|]. apply Forall_forall. intros x [->|Hin]%elem_of_set_insert.
    + destruct (ltb_total k q) as [?|[?|?]]; congruence.
    + by eapply Forall_forall in Hall.
Qed.

Lemma set_of_list_sorted (l : list K) :
  StronglySorted (fun a b => ltb a b = true) (set_of_list l).
Proof.
  unfold set_of_list. assert (StronglySorted (fun a b : K => ltb a b = true) []) as H0 by constructor.
  revert H0. generalize (@nil K). induction l as [|k l IH]; intros s Hs; cbn; [done|].
  by apply IH, set_insert_sorted.
Qed.

Lemma sorted_set_NoDup (s : btree_set K) : StronglySorted (fun a b => ltb a b = true) s -> NoDup s.
Proof.
  induction 1 as [|q s Hs IH Hall]; constructor; [|done]. intros Hin.
  eapply Forall_forall in Hall; [|exact Hin]. by rewrite ltb_irrefl in Hall.
Qed.

Lemma set_of_list_NoDup (l : list K) : NoDup (set_of_list l).
Proof. apply sorted_set_NoDup, set_of_list_sorted. Qed.

(** A set built by insertions: its order and its elements. *)
Lemma set_fold_sorted (l : list K) (s : btree_set K) :
  StronglySorted (fun a b => ltb a b = true) s ->
  StronglySorted (fun a b => ltb a b = true) (fold_left (fun s k => set_insert k s) l s).
Proof. revert s. induction l as [|k l IH]; intros s Hs; cbn; [done|]. by apply IH, set_insert_sorted. Qed.

End wf.

(** ** Byte strings in lexicographic order, the order of [[u8; 32]] *)

Fixpoint bytes_ltb (a b : list Z) : bool :=
  match a, b with
  | _, [] => false
  | [], _ :: _ => true
  | x :: a', y :: b' => (x <? y) || ((x =? y) && bytes_ltb a' b')
  end.
#[export] Instance bytes_ord : OrdSpec (list Z) := bytes_ltb.

#[export] Instance bytes_ord_laws : OrdLaws (list Z).
Proof.
  unfold ltb, bytes_ord. split.
  - induction a as [|x a IH]; cbn; [done|]. by rewrite Z.ltb_irrefl, Z.eqb_refl.
  - induction a as [|x a IH]; intros [|y b] [|z c]; cbn; try done.
    rewrite !orb_true_iff, !andb_true_iff, !Z.ltb_lt, !Z.eqb_eq.
    intros [?|[? ?]] [?|[? ?]]; [left; lia..|right; split; [lia|eauto]].
  - induction a as [|x a IH]; intros [|y b]; cbn; auto.
    rewrite !orb_true_iff, !andb_true_iff, !Z.ltb_lt, !Z.eqb_eq.
    destruct (Z.lt_trichotomy x y) as [|[->|]]; auto. destruct (IH b) as [?|[->|?]]; auto.
Qed.

(** A weight per key, and its sum. *)
Section weights.
Context {K : Type} `{EqDecision K} `{OrdSpec K}.
Definition btree_values {V} (m : btree_map K V) : list V := map snd m.

(** [add_checked(entry(k).or_default(), amount)] *)
Definition btree_add_checked (k : K) (amount : Z) (m : btree_map K Z) : option (btree_map K Z) :=
  v ← checked_add (default 0 (btree_get k m)) amount;
  Some (btree_insert k v m).

Definition total_of (m : btree_map K Z) : Z := sumZ (btree_values m).

End weights.

Section weight_sums.
Context {K : Type} `{EqDecision K} `{L : OrdLaws K}.

Lemma btree_get_below k k' (v : Z) (m : btree_map K Z) :
  btree_wf ((k', v) :: m) -> ltb k k' = true -> btree_get k m = None.
Proof.
  intros Hwf Hlt. apply StronglySorted_inv in Hwf as [_ Hall].
  destruct (btree_get k m) as [w|] eqn:Hg; [|done]. apply btree_get_elem in Hg.
  eapply Forall_forall in Hall; [|exact Hg]. unfold key_lt in Hall. cbn in Hall.
  pose proof (ltb_trans _ _ _ Hlt Hall). by rewrite ltb_irrefl in *.
Qed.

Lemma total_of_insert k v (m : btree_map K Z) :
  btree_wf m -> total_of (btree_insert k v m) = total_of m - default 0 (btree_get k m) + v.
Proof.
  unfold total_of, btree_values. induction m as [|[q w] m IH]; intros Hwf; [cbn; unfold sumZ; cbn; lia|].
  cbn [btree_insert btree_get]. case_decide; cbn [map snd]; rewrite ?sumZ_cons; [cbn; lia|].
  destruct (ltb k q) eqn:Hlt; cbn [map snd]; rewrite !sumZ_cons.
  - rewrite (btree_get_below k q w m); [cbn; lia|done|done].
  - rewrite IH by (by apply StronglySorted_inv in Hwf as [? _]). lia.
Qed.

Lemma total_of_remove k (m : btree_map K Z) :
  btree_wf m -> total_of (btree_remove k m) = total_of m - default 0 (btree_get k m).
Proof.
  unfold total_of, btree_values, btree_remove. induction m as [|[q w] m IH]; intros Hwf; [cbn; unfold sumZ; cbn; lia|].
  pose proof (proj1 (StronglySorted_inv Hwf)) as Hm. cbn [List.filter btree_get fst]. case_bool_decide as Eq; cbn [negb].
  - subst q. rewrite decide_True by done. cbn [map snd]. rewrite sumZ_cons, IH by done.
    destruct (btree_get k m) as [v|] eqn:Hg; cbn; [|lia]. exfalso.
    apply btree_get_elem in Hg. apply StronglySorted_inv in Hwf as [_ Hall].
    eapply Forall_forall in Hall; [|exact Hg]. unfold key_lt in Hall. cbn in Hall. by rewrite ltb_irrefl in Hall.
  - rewrite decide_False by congruence. cbn [map snd]. rewrite !sumZ_cons, IH by done. lia.
Qed.

Lemma btree_add_checked_total k amount (m m' : btree_map K Z) :
  btree_wf m -> btree_add_checked k amount m = Some m' ->
  btree_wf m' /\ total_of m' = total_of m + amount.
Proof.
  intros Hwf. unfold btree_add_checked. destruct (checked_add _ _) as [v|] eqn:E; [|done].
  intros [= <-]. apply checked_add_Some in E as [-> _]. split; [by apply btree_insert_wf|].
  rewrite total_of_insert by done. lia.
Qed.

(** Weights stay non-negative. *)
Lemma btree_add_checked_nonneg k amount (m m' : btree_map K Z) :
  0 <= amount -> Forall (fun kv => 0 <= kv.2) m -> btree_add_checked k amount m = Some m' ->
  Forall (fun kv => 0 <= kv.2) m'.
Proof.
  intros Ha Hm. unfold btree_add_checked. destruct (checked_add _ _) as [v|] eqn:E; [|done].
  intros [= <-]. apply checked_add_Some in E as [-> _].
  assert (0 <= default 0 (btree_get k m)) as Hd.
  { destruct (btree_get k m) as [w|] eqn:Hg; cbn; [|lia]. apply btree_get_elem in Hg.
    eapply Forall_forall in Hm; [|exact Hg]. exact Hm. }
  apply Forall_forall. intros kv [->|Hin]%elem_insert; [cbn; lia|]. by eapply Forall_forall in Hm.
Qed.

End weight_sums.
