(* ===== verification/Async.v ===== *)
(** * The execution model of an asynchronous canister handler

    A canister runs one message at a time; an [await] on an inter-canister
    call commits the state reached so far, lets any other message of the
    canister run, and resumes with the callee's response.  A handler is a
    function of an environment (the responses, what the other messages do to
    the state while a call is outstanding, and the clock) and of the current
    world (the canister state and the calls dispatched so far, each with the
    state that was committed with it).

    [trap] is a Rust panic; [out_of_fuel] marks a loop whose bound was too
    small, so a result that is [Returned] is also a termination result. *)

From S2P Require Import Prelude.

Section async.
Context {St : Type} {Call : Type -> Type}.

(** The [n]-th call of the run is answered by [env_reply n]; while it is
    outstanding the other messages of the canister apply [env_interleave n];
    [env_clock n] is the value of [ic_cdk::api::time] after [n] calls. *)
Record env := Env {
  env_reply : nat -> forall A, Call A -> A;
  env_interleave : nat -> St -> St;
  env_clock : nat -> Z;
}.

Inductive event := | Dispatch {A : Type} (c : Call A) (committed : St).

(** Newest event first. *)
Record world := World { w_state : St; w_trace : list event }.

Inductive outcome (A : Type) := Returned (a : A) | Trapped | OutOfFuel.
Arguments Returned {A} a.
Arguments Trapped {A}.
Arguments OutOfFuel {A}.

Definition async (A : Type) : Type := env -> world -> outcome A * world.

#[global] Instance async_ret : MRet async := fun A a _ w => (Returned a, w).
#[global] Instance async_bind : MBind async := fun A B f m e w =>
  match m e w with
  | (Returned a, w') => f a e w'
  | (Trapped, w') => (Trapped, w')
  | (OutOfFuel, w') => (OutOfFuel, w')
  end.
Definition trap {A} : async A := fun _ w => (Trapped, w).
Definition out_of_fuel {A} : async A := fun _ w => (OutOfFuel, w).

(** [with_state] / [with_state_mut] of the canisters: an atomic read or
    read-modify-write of the heap state. *)
Definition with_state {A} (f : St -> A) : async A := fun _ w => (Returned (f (w_state w)), w).
Definition with_state_mut {A} (f : St -> A * St) : async A := fun _ w =>
  (Returned (f (w_state w)).1, World (f (w_state w)).2 (w_trace w)).
Definition modify (f : St -> St) : async unit := fun _ w =>
  (Returned tt, World (f (w_state w)) (w_trace w)).
Definition now : async Z := fun e w => (Returned (env_clock e (length (w_trace w))), w).
(** [call(..).await] *)
Definition await {A} (c : Call A) : async A := fun e w =>
  (Returned (env_reply e (length (w_trace w)) A c),
   World (env_interleave e (length (w_trace w)) (w_state w))
         (Dispatch c (w_state w) :: w_trace w)).

(** [wp e m Q w]: the run of [m] from [w] returns, without trap and within
    its fuel, in a world that satisfies [Q]. *)
Definition wp {A} (e : env) (m : async A) (Q : A -> world -> Prop) (w : world) : Prop :=
  match m e w with (Returned a, w') => Q a w' | _ => False end.

(** [wlp]: as [wp], for code that may trap. *)
Definition wlp {A} (e : env) (m : async A) (Q : A -> world -> Prop) (w : world) : Prop :=
  match m e w with (Returned a, w') => Q a w' | (Trapped, _) => True | _ => False end.

(** Every interleaving of the run is a step of [R]. *)
Definition rely (R : St -> St -> Prop) (e : env) : Prop :=
  forall n s, R s (env_interleave e n s).

Lemma wp_ret {A} e (a : A) (Q : A -> world -> Prop) w : Q a w -> wp e (mret a) Q w.
Proof. done. Qed.

Lemma wp_bind {A B} e (m : async A) (f : A -> async B) Q w :
  wp e m (fun a w' => wp e (f a) Q w') w -> wp e (m ≫= f) Q w.
Proof. unfold wp, mbind, async_bind. by destruct (m e w) as [[a| |] w']. Qed.

Lemma wp_with_state {A} e (f : St -> A) (Q : A -> world -> Prop) w :
  Q (f (w_state w)) w -> wp e (with_state f) Q w.
Proof. done. Qed.

Lemma wp_with_state_mut {A} e (f : St -> A * St) (Q : A -> world -> Prop) w :
  Q (f (w_state w)).1 (World (f (w_state w)).2 (w_trace w)) -> wp e (with_state_mut f) Q w.
Proof. done. Qed.

Lemma wp_modify e (f : St -> St) (Q : unit -> world -> Prop) w :
  Q tt (World (f (w_state w)) (w_trace w)) -> wp e (modify f) Q w.
Proof. done. Qed.

Lemma wp_now e (Q : Z -> world -> Prop) w :
  Q (env_clock e (length (w_trace w))) w -> wp e now Q w.
Proof. done. Qed.

Lemma wp_await {A} e (c : Call A) (Q : A -> world -> Prop) w :
  (forall a s, a = env_reply e (length (w_trace w)) A c ->
     s = env_interleave e (length (w_trace w)) (w_state w) ->
     Q a (World s (Dispatch c (w_state w) :: w_trace w))) ->
  wp e (await c) Q w.
Proof. intros H. apply H; reflexivity. Qed.

Lemma wp_mono {A} e (m : async A) (Q Q' : A -> world -> Prop) w :
  wp e m Q w -> (forall a w', Q a w' -> Q' a w') -> wp e m Q' w.
Proof. unfold wp. destruct (m e w) as [[a| |] w']; auto. Qed.

Lemma wp_conj {A} e (m : async A) (Q Q' : A -> world -> Prop) w :
  wp e m Q w -> wp e m Q' w -> wp e m (fun a w' => Q a w' /\ Q' a w') w.
Proof. unfold wp. destruct (m e w) as [[a| |] w']; auto. Qed.

(** From the run of a handler to its specification and back. *)
Lemma wp_run {A} e (m : async A) (Q : A -> world -> Prop) w a w' :
  m e w = (Returned a, w') -> wp e m Q w -> Q a w'.
Proof. unfold wp. by intros ->. Qed.

Lemma wp_returns {A} e (m : async A) Q w :
  wp e m Q w -> exists a w', m e w = (Returned a, w') /\ Q a w'.
Proof. unfold wp. destruct (m e w) as [[a| |] w']; eauto; done. Qed.

Lemma wlp_bind {A B} e (m : async A) (f : A -> async B) Q w :
  wlp e m (fun a w' => wlp e (f a) Q w') w -> wlp e (m ≫= f) Q w.
Proof. unfold wlp, mbind, async_bind. by destruct (m e w) as [[a| |] w']. Qed.

Lemma wp_wlp {A} e (m : async A) Q w : wp e m Q w -> wlp e m Q w.
Proof. unfold wp, wlp. by destruct (m e w) as [[a| |] w']. Qed.

Lemma wlp_mono {A} e (m : async A) (Q Q' : A -> world -> Prop) w :
  wlp e m Q w -> (forall a w', Q a w' -> Q' a w') -> wlp e m Q' w.
Proof. unfold wlp. destruct (m e w) as [[a| |] w']; auto. Qed.

(** A state predicate that the handler maintains at every commit point: in
    the current state and in the state committed with each dispatched call. *)
Definition committed (P : St -> Prop) (w : world) : Prop :=
  P (w_state w) /\ Forall (fun ev => match ev with Dispatch _ s => P s end) (w_trace w).

Lemma committed_update P w s : committed P w -> P s -> committed P (World s (w_trace w)).
Proof. by intros [_ H] Hs. Qed.

Lemma committed_await P e n {A} (c : Call A) w :
  (forall s, P s -> P (env_interleave e n s)) -> committed P w ->
  committed P (World (env_interleave e n (w_state w)) (Dispatch c (w_state w) :: w_trace w)).
Proof. intros Hr [Hs Ht]. split; cbn; [auto|]. by constructor. Qed.

(** A predicate on the calls dispatched by a run that starts with the trace
    [base]. *)
Definition traced (P : event -> Prop) (base : list event) (w : world) : Prop :=
  exists new, w_trace w = new ++ base /\ Forall P new.

Lemma traced_refl P w : traced P (w_trace w) w.
Proof. by exists []. Qed.

Lemma traced_cons P base ev s s' t :
  P ev -> traced P base (World s t) -> traced P base (World s' (ev :: t)).
Proof. intros Hp (new & Ht & Hall). exists (ev :: new). cbn in *. subst. by split; [|constructor]. Qed.

Lemma traced_state P base s s' t : traced P base (World s t) -> traced P base (World s' t).
Proof. done. Qed.

Lemma traced_trans P b1 w1 w2 :
  traced P b1 w1 -> traced P (w_trace w1) w2 -> traced P b1 w2.
Proof.
  intros (n1 & E1 & H1) (n2 & E2 & H2). exists (n2 ++ n1).
  rewrite E2, E1, app_assoc. split; [done|]. by apply Forall_app.
Qed.

End async.

Arguments env : clear implicits.
Arguments world : clear implicits.
Arguments event : clear implicits.
Arguments async : clear implicits.
Arguments Returned {A} a.
Arguments Trapped {A}.
Arguments OutOfFuel {A}.

#[export] Hint Resolve traced_refl : jupiter.

(** One step of symbolic execution. *)
Ltac wp_step :=
  lazymatch goal with
  | |- wp _ (mret _) _ _ => apply wp_ret
  | |- wp _ (_ ≫= _) _ _ => apply wp_bind
  | |- wp _ (with_state _) _ _ => apply wp_with_state
  | |- wp _ (with_state_mut _) _ _ => apply wp_with_state_mut
  | |- wp _ (modify _) _ _ => apply wp_modify
  | |- wp _ now _ _ => apply wp_now
  | |- wp _ (await _) _ _ => apply wp_await; intros ? ? ? ?
  | |- wp _ (if ?b then _ else _) _ _ => destruct b eqn:?
  | |- wp _ (match ?x with _ => _ end) _ _ => destruct x eqn:?
  end; cbn beta.
