(* ===== verification/Ic.v ===== *)
(** * Internet Computer and ICRC-1 interfaces

    [Principal] and [Account] come from the [candid] and [icrc_ledger_types]
    crates.  What the suite relies on is a class: a type with decidable
    equality, the two reserved principals, the textual encoding, and the
    crates' own equality on accounts (which identifies the default account
    with the all-zero subaccount, so it is coarser than equality of the
    fields).  The clients of the class quantify over every instance. *)

From S2P Require Import Prelude.

Class PrincipalSpec := {
  Principal : Type;
  Principal_eq_dec :: EqDecision Principal;
  anonymous : Principal;
  management_canister : Principal;
  (** [Principal::from_text(..).ok()] and [to_text], on the bytes of the text *)
  principal_from_text : list Z -> option Principal;
  principal_to_text : Principal -> list Z;
  principal_as_slice : Principal -> list Z;
}.

Record Account `{PrincipalSpec} := MkAccount {
  owner : Principal;
  subaccount : option (list Z);
}.

Class AccountSpec `{P : PrincipalSpec} := {
  account_eqb : Account -> Account -> bool;
}.

(** The documented behaviour of the crate's [PartialEq] for [Account]. *)
Class AccountLaws `{A : AccountSpec} : Prop := {
  account_eqb_refl : forall a, account_eqb a a = true;
  account_eqb_owner : forall a b, account_eqb a b = true -> owner a = owner b;
}.
#[export] Hint Resolve account_eqb_refl : jupiter.

(** ICRC-1 [TransferArg] and [TransferError]; amounts are naturals. *)
Record TransferArg `{PrincipalSpec} := MkTransferArg {
  from_subaccount : option (list Z);
  to : Account;
  fee : option Z;
  created_at_time : option Z;
  memo : option (list Z);
  amount : Z;
}.

Inductive TransferError :=
| BadFee (expected_fee : Z)
| BadBurn (min_burn_amount : Z)
| InsufficientFunds (balance : Z)
| TooOld
| CreatedInFuture (ledger_time : Z)
| TemporarilyUnavailable
| Duplicate (duplicate_of : Z)
| GenericError (error_code : Z) (message : string).

(** A call that failed in transport or decoding: [ClientError::{Call,Convert}]. *)
Inductive ClientError := CallFailed (message : string) | Convert (message : string).

(** A concrete instance, used by the witnesses: principals are numbers, the
    text of a principal is the letter [p] followed by its decimal digits (and
    the one published text the suite embeds is the principal 1000). *)
Module Concrete.

Definition digit_value (b : Z) : option Z :=
  if (48 <=? b) && (b <=? 57) then Some (b - 48) else None.
Fixpoint digits_value (acc : Z) (bs : list Z) : option Z :=
  match bs with
  | [] => Some acc
  | b :: bs' =>
      match digit_value b with
      | Some d => digits_value (acc * 10 + d) bs'
      | None => None
      end
  end.
Definition from_text (bs : list Z) : option Z :=
  if decide (bs = bytes_of_string "eo6ei-gaaaa-aaaar-qchra-cai"%string) then Some 1000
  else match bs with 112 :: d :: ds => digits_value 0 (d :: ds) | _ => None end.

#[export] Instance concrete_principal : PrincipalSpec := {
  Principal := Z;
  anonymous := 4;
  management_canister := 0;
  principal_from_text := from_text;
  principal_to_text := fun p => [112; 48 + p];
  principal_as_slice := fun p => [p];
}.

Definition effective_subaccount (a : Account) : list Z :=
  default (replicate 32 0) (subaccount a).

#[export] Instance concrete_account : AccountSpec := {
  account_eqb := fun a b =>
    bool_decide (owner a = owner b) &&
    bool_decide (effective_subaccount a = effective_subaccount b);
}.

#[export] Instance concrete_account_laws : AccountLaws.
Proof.
  split.
  - intros a. cbn. by rewrite !bool_decide_eq_true_2.
  - intros a b [H _]%andb_true_iff. cbn in *. by apply bool_decide_eq_true in H.
Qed.

End Concrete.

(** ** Principals in the order of their texts *)

Section text_order.
Context `{P : PrincipalSpec}.

(** Lexicographic order of texts, [sort_by_key(to_text)] and [Vec::dedup]. *)
Fixpoint bytes_leb (a b : list Z) : bool :=
  match a, b with
  | [], _ => true
  | _ :: _, [] => false
  | x :: a', y :: b' => (x <? y) || ((x =? y) && bytes_leb a' b')
  end.
Fixpoint insert_by_text (p : Principal) (l : list Principal) : list Principal :=
  match l with
  | [] => [p]
  | q :: l' => if bytes_leb (principal_to_text p) (principal_to_text q) then p :: l
               else q :: insert_by_text p l'
  end.
Definition sort_by_text (l : list Principal) : list Principal := foldr insert_by_text [] l.
Fixpoint dedup (l : list Principal) : list Principal :=
  match l with
  | p :: ((q :: _) as l') => if bool_decide (p = q) then dedup l' else p :: dedup l'
  | _ => l
  end.

Lemma insert_singleton (p q : Principal) :
  insert_by_text p [q] = [p; q] \/ insert_by_text p [q] = [q; p].
Proof. cbn. destruct (bytes_leb _ _); auto. Qed.

(** Sorting and deduplicating the at most two desired controllers. *)
Lemma normalize_two (p q : Principal) :
  let l := dedup (sort_by_text [p; q]) in NoDup l /\ forall x, x ∈ l <-> x = p \/ x = q.
Proof.
  cbn zeta. change (sort_by_text [p; q]) with (insert_by_text p [q]).
  destruct (insert_singleton p q) as [-> | ->]; cbn;
    case_bool_decide; subst; (split; [repeat constructor; set_solver|set_solver]).
Qed.

End text_order.
