(* ===== verification/Clients.v ===== *)
(** * The inter-canister clients of [crates/ic-clients] and of the canisters

    [SuiteCall] is the list of remote methods the modelled canisters call,
    each with the type of its decoded reply; a call that is not delivered or
    whose reply does not decode is a [TransportError].  The client functions
    classify the replies into the error types the canisters branch on. *)

From S2P Require Import Prelude Async Ic.

Inductive TransportError := NotDelivered (debug : string) | Undecodable (debug : string).

Inductive RejectedCall :=
| Rejected (raw_reject_code : Z) (debug : string)
| NotSent (debug : string).

(** The fields of the NNS [Neuron] that the suite reads. *)
Record MaturityDisbursement := MkMaturityDisbursement {
  timestamp_of_disbursement_seconds : option Z;
  disbursement_amount_e8s : option Z;
}.
Record Neuron := MkNeuron {
  aging_since_timestamp_seconds : Z;
  maturity_disbursements_in_progress : option (list MaturityDisbursement);
}.

Record GovernanceError := MkGovernanceError { error_message : string; error_type : Z }.

Inductive GovCommand `{PrincipalSpec} :=
| DisburseMaturity (percentage_to_disburse : Z) (to_owner : Principal)
    (to_subaccount : option (list Z))
| RefreshVotingPower
| ClaimOrRefresh.

(** [manage_neuron_response::Command] *)
Inductive GovResponse :=
| RespError (e : GovernanceError)
| RespDisburseMaturity (amount_disbursed_e8s : option Z)
| RespRefreshVotingPower
| RespClaimOrRefresh
| RespConfigure
| RespRegisterVote
| RespMakeProposal (proposal_id : option Z).

Inductive NotifyError :=
| NotifyRefunded (reason : string) (block_index : option Z)
| NotifyProcessing
| NotifyTransactionTooOld (block : Z)
| NotifyInvalidTransaction (message : string)
| NotifyOther (error_code : Z) (message : string).

(** The texts produced by other crates: [Display] of [candid::Nat], and the
    derived [Debug] of a governance response and of a text. *)
Class TextSpec := {
  nat_to_string : Z -> string;
  display_i32 : Z -> string;
  debug_response : option GovResponse -> string;
  debug_text : string -> string;
}.

(** The fields of a [list_neurons] full neuron that the clients read. *)
Record PublicNeuron := MkPublicNeuron { public_id : option Z; public_account : list Z }.

(** ICP index types; amounts and timestamps as decoded. *)
Inductive IndexOperation :=
| IndexTransfer (from_ to_ : list Z) (amount fee : Z) (spender : option (list Z))
| IndexMint (to_ : list Z) (amount : Z)
| IndexBurn (from_ : list Z) (amount : Z) (spender : option (list Z))
| IndexApprove (from_ spender : list Z) (allowance fee : Z)
    (expires_at expected_allowance : option Z).
#[export] Instance IndexOperation_eq_dec : EqDecision IndexOperation.
Proof. solve_decision. Defined.

Record IndexTransaction := MkIndexTransaction {
  tx_memo : Z;
  tx_icrc1_memo : option (list Z);
  tx_operation : IndexOperation;
  tx_timestamp : option Z;
  tx_created_at_time : option Z;
}.
Record IndexTransactionWithId := MkTxWithId { tx_id : Z; transaction : IndexTransaction }.
Record IndexPage := MkIndexPage {
  page_balance : Z;
  oldest_tx_id : option Z;
  transactions : list IndexTransactionWithId;
}.

Inductive LogVisibility `{PrincipalSpec} :=
| LogControllers | LogPublic | LogAllowedViewers (viewers : list Principal).
Record UpdateSettingsArgs `{PrincipalSpec} := MkUpdateSettings {
  settings_canister_id : Principal;
  settings_controllers : option (list Principal);
  settings_log_visibility : option LogVisibility;
  settings_status_visibility : option LogVisibility;
}.

(** [blackhole::BlackholeCanisterStatus]: the fields that are read; the metrics are the
    heap and the stable memory. *)
Record BlackholeCanisterStatus := MkBlackholeStatus {
  bs_memory_size : option Z; bs_memory_metrics : option (Z * Z) }.

(** The exchange rate canister's reply ([xrc.rs]). *)
Record ExchangeRate := MkExchangeRate { xr_rate : Z; xr_decimals : Z; xr_timestamp : Z }.
Inductive ExchangeRateError :=
| AnonymousPrincipalNotAllowed | CryptoBaseAssetNotFound | CryptoQuoteAssetNotFound | StablecoinRateTooFewRates
| StablecoinRateZeroRate | ForexAssetsNotFound | ForexBaseAssetNotFound | ForexQuoteAssetNotFound | ForexInvalidTimestamp
| RateLimited | NotEnoughCycles | NotEnoughStablecoinRates | StablecoinRateNotFound | InconsistentRatesReceived
| FailedToAcceptCycles | Pending | OtherExchangeRateError (code : Z) (description : string).

(** [cmc::IcpXdrConversionRate] *)
Record IcpXdrConversionRate := MkRate {
  rate_timestamp_seconds : Z;
  xdr_permyriad_per_icp : Z;
}.

(** [management::CreateCanisterArgs] and [InstallCodeArgs]; the only install mode
    is [install]. *)
Record CanisterSettings `{PrincipalSpec} := MkCanisterSettings {
  new_controllers : option (list Principal);
  new_log_visibility : option LogVisibility;
  new_status_visibility : option LogVisibility;
}.
Record InstallCodeArgs `{PrincipalSpec} := MkInstallCode {
  install_canister_id : Principal;
  wasm_module : list Z;
  install_arg : list Z;
}.

(** [management::CanisterStatusResult] and the [sns.rs] replies. *)
Inductive CanisterStatusKind := Running | Stopping | Stopped.
#[export] Instance CanisterStatusKind_eq_dec : EqDecision CanisterStatusKind.
Proof. solve_decision. Defined.
Record CanisterStatusResult `{PrincipalSpec} := MkCanisterStatus {
  status_kind : CanisterStatusKind;
  status_cycles : Z;
  status_module_hash : option (list Z);
  status_controllers : list Principal;
  status_log_visibility : LogVisibility;
  status_visibility : LogVisibility;
}.
Record DeployedSns `{PrincipalSpec} := MkDeployedSns {
  root_canister_id : option Principal;
  sns_governance_canister_id : option Principal;
  sns_ledger_canister_id : option Principal;
  swap_canister_id : option Principal;
  index_canister_id : option Principal;
}.
Record ListSnsCanistersResponse `{PrincipalSpec} := MkSnsCanisters {
  sns_root : option Principal;
  sns_governance : option Principal;
  sns_ledger : option Principal;
  sns_swap : option Principal;
  sns_index : option Principal;
  sns_dapps : list Principal;
  sns_archives : list Principal;
  sns_extensions : option (list Principal);
}.

(** ICRC-3 [Transaction] of an ICRC index page: the fields that are read. *)
Record IcrcMint `{PrincipalSpec} := MkIcrcMint {
  mint_amount : Z; mint_to : Account; mint_fee : option Z }.
Record IcrcTransferRecord `{PrincipalSpec} := MkIcrcTransferRecord {
  transfer_amount : Z; transfer_from : Account; transfer_to : Account;
  transfer_spender : option Account; transfer_fee : option Z }.
Record IcrcTransaction `{PrincipalSpec} := MkIcrcTransaction {
  kind : string;
  mint : option IcrcMint;
  burn : option Account;
  icrc_transfer : option IcrcTransferRecord;
  approve : option Account;
  fee_collector : bool;
  authorized_mint : option (Z * Account);
  authorized_burn : option Account;
  icrc_timestamp : Z;
}.
Record TransactionWithId `{PrincipalSpec} := MkIcrcTxWithId {
  icrc_id : Z; icrc_transaction : IcrcTransaction }.
Record GetAccountTransactionsResponse `{PrincipalSpec} := MkIcrcPage {
  icrc_balance : Z;
  icrc_transactions : list TransactionWithId;
  icrc_oldest_tx_id : option Z;
}.

(** The queries of the SNS rewards canister. *)
Record RelayRewardContext `{PrincipalSpec} := MkRewardContext {
  ctx_sns_root_canister_id : Principal;
  ctx_sns_governance_canister_id : Principal;
  ctx_sns_ledger_canister_id : Principal;
  snapshot_id : Z;
  scan_started_at_timestamp_nanos : Z;
  scan_completed_at_timestamp_nanos : Z;
}.
Inductive ResolveDefaultIcpAccountsResult `{PrincipalSpec} :=
| Resolved (owners : list (option Principal))
| SnapshotChanged
| TooManyAccounts
| InvalidAccountIdentifier (index : Z).

(** SNS governance [Neuron]s, of which the owner scan reads these fields. *)
Record NeuronPermission `{PrincipalSpec} := MkNeuronPermission {
  permission_principal : option Principal;
  permission_type : list Z;
}.
Record SnsNeuron `{PrincipalSpec} := MkSnsNeuron {
  neuron_id_bytes : option (list Z);
  permissions : list NeuronPermission;
  cached_neuron_stake_e8s : Z;
  neuron_fees_e8s : Z;
}.

Inductive SuiteCall `{PrincipalSpec} : Type -> Type :=
| IcrcFee (ledger : Principal) : SuiteCall (result Z TransportError)
| IcrcBalanceOf (ledger : Principal) (a : Account) : SuiteCall (result Z TransportError)
| IcrcTransfer (ledger : Principal) (arg : TransferArg) :
    SuiteCall (result (result Z TransferError) TransportError)
| GetFullNeuron (gov : Principal) (neuron_id : Z) :
    SuiteCall (result (result Neuron GovernanceError) TransportError)
| ManageNeuron (gov : Principal) (neuron_id : Z) (command : GovCommand) :
    SuiteCall (result (option GovResponse) TransportError)
| UpdateSettings (arg : UpdateSettingsArgs) : SuiteCall (result unit TransportError)
| CanisterInfo (canister : Principal) : SuiteCall (result unit RejectedCall)
| NotifyTopUp (cmc canister : Principal) (block_index : Z) :
    SuiteCall (result (result Z NotifyError) TransportError)
| ListNeurons (gov : Principal) (neuron_id : Z) :
    SuiteCall (result (list PublicNeuron) TransportError)
| GetTransactions (index : Principal) (account_identifier : list Z) (start : option Z)
    (max_results : Z) : SuiteCall (result (result IndexPage string) TransportError)
| GetIcpXdrConversionRate (cmc : Principal) : SuiteCall (result IcpXdrConversionRate TransportError)
| CanisterStatus (target : Principal) : SuiteCall (result CanisterStatusResult TransportError)
| CanisterInfoControllers (target : Principal) : SuiteCall (result (list Principal) TransportError)
| BlackholeStatus (probe target : Principal) : SuiteCall (result Z TransportError)
| RootStatus (root target : Principal) : SuiteCall (result Z TransportError)
| SnsSwapStatus (swap : Principal) : SuiteCall (result Z TransportError)
| ListDeployedSnses (sns_wasm : Principal) : SuiteCall (result (list DeployedSns) TransportError)
| ListSnsCanisters (root : Principal) : SuiteCall (result ListSnsCanistersResponse TransportError)
| QueryChainLength (ledger : Principal) : SuiteCall (result Z TransportError)
| IndexStatus (index : Principal) : SuiteCall (result Z TransportError)
| IcrcIndexLedgerId (index : Principal) : SuiteCall (result Principal TransportError)
| GetAccountTransactions (index : Principal) (a : Account) (start : option Z) (max_results : Z) :
    SuiteCall (result (result GetAccountTransactionsResponse string) TransportError)
| GetRelayRewardContext (sns_rewards : Principal) :
    SuiteCall (result (option RelayRewardContext) TransportError)
| ResolveDefaultIcpAccounts (sns_rewards : Principal) (snapshot : Z) (accounts : list (list Z)) :
    SuiteCall (result ResolveDefaultIcpAccountsResult TransportError)
| ListSnsNeurons (governance : Principal) (start_page_at : option (list Z)) :
    SuiteCall (result (list SnsNeuron) TransportError)
| CreateCanister (settings : option CanisterSettings) (cycles_to_attach : Z) :
    SuiteCall (result Principal TransportError)
| InstallCode (arg : InstallCodeArgs) : SuiteCall (result unit TransportError)
| RefreshNeuronBySubaccount (gov : Principal) (subaccount : list Z) :
    SuiteCall (result (option GovResponse) TransportError)
| GetExchangeRate (xrc : Principal) (base quote : string) (cycles_to_attach : Z) :
    SuiteCall (result (result ExchangeRate ExchangeRateError) TransportError)
| CanisterInfoHash (canister : Principal) : SuiteCall (result (option (list Z) * list Principal) TransportError)
| MemoryStatus (via target : Principal) : SuiteCall (result BlackholeCanisterStatus TransportError).

Definition transport_text (e : TransportError) : string :=
  match e with NotDelivered d => d | Undecodable d => d end.

Section clients.
Context `{P : PrincipalSpec} `{T : TextSpec} {St : Type}.
Local Abbreviation async := (async St SuiteCall).

(** ** [IcrcLedgerCanister] *)

Definition nat_to_u64 (n : Z) : result Z ClientError :=
  if n <=? u64_max then Ok n else Err (Convert ("Nat does not fit u64: " ++ nat_to_string n)).

Definition ledger_fee (ledger : Principal) : async (result Z ClientError) :=
  r ← await (IcrcFee ledger);
  mret match r with Ok n => Ok n | Err e => Err (CallFailed (transport_text e)) end.

Definition fee_e8s (ledger : Principal) : async (result Z ClientError) :=
  r ← ledger_fee ledger;
  mret match r with Ok n => nat_to_u64 n | Err e => Err e end.

Definition balance_of (ledger : Principal) (a : Account) : async (result Z ClientError) :=
  r ← await (IcrcBalanceOf ledger a);
  mret match r with Ok n => Ok n | Err e => Err (CallFailed (transport_text e)) end.

Definition balance_of_e8s (ledger : Principal) (a : Account) : async (result Z ClientError) :=
  r ← balance_of ledger a;
  mret match r with Ok n => nat_to_u64 n | Err e => Err e end.

Definition transfer (ledger : Principal) (arg : TransferArg) :
    async (result (result Z TransferError) ClientError) :=
  r ← await (IcrcTransfer ledger arg);
  mret match r with Ok res => Ok res | Err e => Err (CallFailed (transport_text e)) end.

(** ** The NNS governance client of the disburser *)

Definition call_error (e : TransportError) : GovernanceError :=
  match e with
  | NotDelivered d => MkGovernanceError ("call failed: " ++ d) (-1)
  | Undecodable d => MkGovernanceError ("decode failed: " ++ d) (-1)
  end.
Definition unexpected_response (r : option GovResponse) : GovernanceError :=
  MkGovernanceError
    ("unexpected manage_neuron response: " ++ debug_response r) (-2).

Definition get_full_neuron (gov : Principal) (neuron_id : Z) :
    async (result Neuron GovernanceError) :=
  r ← await (GetFullNeuron gov neuron_id);
  mret match r with Err e => Err (call_error e) | Ok res => res end.

Definition disburse_maturity_to_account (gov : Principal) (neuron_id percentage : Z)
    (to_owner : Principal) (to_subaccount : option (list Z)) :
    async (result (option Z) GovernanceError) :=
  r ← await (ManageNeuron gov neuron_id (DisburseMaturity percentage to_owner to_subaccount));
  mret match r with
       | Err e => Err (call_error e)
       | Ok (Some (RespDisburseMaturity amount)) => Ok amount
       | Ok (Some (RespError e)) => Err e
       | Ok other => Err (unexpected_response other)
       end.

Definition refresh_voting_power (gov : Principal) (neuron_id : Z) :
    async (result unit GovernanceError) :=
  r ← await (ManageNeuron gov neuron_id RefreshVotingPower);
  mret match r with
       | Err e => Err (call_error e)
       | Ok (Some RespRefreshVotingPower) => Ok tt
       | Ok (Some (RespError e)) => Err e
       | Ok other => Err (unexpected_response other)
       end.

Definition claim_or_refresh_neuron (gov : Principal) (neuron_id : Z) :
    async (result unit GovernanceError) :=
  r ← await (ManageNeuron gov neuron_id ClaimOrRefresh);
  mret match r with
       | Err e => Err (call_error e)
       | Ok (Some RespClaimOrRefresh) => Ok tt
       | Ok (Some (RespError e)) => Err e
       | Ok other => Err (unexpected_response other)
       end.

(** ** The governance client shared by the faucet and the relay *)

Definition staking_subaccount_from_list_neurons_response (neuron_id : Z)
    (full_neurons : list PublicNeuron) : result (list Z) ClientError :=
  match List.find (fun n => bool_decide (public_id n = Some neuron_id)) full_neurons with
  | None => Err (CallFailed ("list_neurons returned no public full neuron for "
                             ++ nat_to_string neuron_id))
  | Some n =>
      if negb (Nat.eqb (length (public_account n)) 32)
      then Err (Convert ("list_neurons returned " ++ nat_to_string (Z.of_nat (length (public_account n)))
                         ++ "-byte staking subaccount"))
      else Ok (public_account n)
  end.

Definition classify_claim_or_refresh_response (command : option GovResponse) :
    result unit ClientError :=
  match command with
  | Some RespClaimOrRefresh => Ok tt
  | Some (RespError e) =>
      Err (CallFailed ("claim_or_refresh failed: type=" ++ display_i32 (error_type e)
                       ++ " message=" ++ error_message e))
  | None => Err (CallFailed "claim_or_refresh returned no command")
  | other => Err (CallFailed ("unexpected claim_or_refresh response: " ++ debug_response other))
  end.

Definition neuron_staking_subaccount (gov : Principal) (neuron_id : Z) :
    async (result (list Z) ClientError) :=
  r ← await (ListNeurons gov neuron_id);
  mret match r with
       | Err (NotDelivered d) => Err (CallFailed ("list_neurons transport failed: " ++ d))
       | Err (Undecodable d) => Err (CallFailed ("decode list_neurons failed: " ++ d))
       | Ok decoded => staking_subaccount_from_list_neurons_response neuron_id decoded
       end.

Definition claim_or_refresh (gov : Principal) (neuron_id : Z) : async (result unit ClientError) :=
  r ← await (ManageNeuron gov neuron_id ClaimOrRefresh);
  mret match r with
       | Err (NotDelivered d) => Err (CallFailed ("claim_or_refresh transport failed: " ++ d))
       | Err (Undecodable d) =>
           Err (CallFailed ("decode manage_neuron ClaimOrRefresh failed: " ++ d))
       | Ok command => classify_claim_or_refresh_response command
       end.

(** ** The ICP index and canister existence *)

Definition get_account_identifier_transactions (index : Principal) (account_identifier : list Z)
    (start : option Z) (max_results : Z) : async (result IndexPage ClientError) :=
  r ← await (GetTransactions index account_identifier start max_results);
  mret match r with
       | Err (NotDelivered d) => Err (CallFailed d)
       | Err (Undecodable d) =>
           Err (CallFailed ("decode get_account_identifier_transactions failed: " ++ d))
       | Ok (Ok page) => Ok page
       | Ok (Err message) => Err (CallFailed message)
       end.

(** [RejectCode::DestinationInvalid] is 3. *)
Definition definitely_not_a_canister (e : RejectedCall) : bool :=
  match e with Rejected raw _ => raw =? 3 | NotSent _ => false end.

Definition canister_exists (canister : Principal) : async (result bool ClientError) :=
  r ← await (CanisterInfo canister);
  mret match r with
       | Ok _ => Ok true
       | Err err =>
           if definitely_not_a_canister err then Ok false
           else Err (CallFailed ("canister_info failed: "
                  ++ match err with Rejected _ d => d | NotSent d => d end))
       end.

(** ** The cycles minting canister *)

Inductive NotifyRetryableError := RetryProcessing | RetryOther (error_code : Z) (message : string).
Inductive NotifyTerminalError :=
| TerminalRefunded (reason : string) (block_index : option Z)
| TerminalTransactionTooOld (block : Z)
| TerminalInvalidTransaction (message : string).
Inductive NotifyTopUpError :=
| Retryable (e : NotifyRetryableError)
| Terminal (e : NotifyTerminalError)
| NotifyTransport (message : string)
| NotifyDecode (message : string)
| NotifyConvert (message : string).

Definition nat_to_u128 (n : Z) : result Z string :=
  if n <=? u128_max then Ok n else Err ("Nat does not fit u128: " ++ nat_to_string n)%string.

Definition classify_notify_top_up_result (r : result Z NotifyError) : result Z NotifyTopUpError :=
  match r with
  | Ok cycles =>
      match nat_to_u128 cycles with Ok c => Ok c | Err m => Err (NotifyConvert m) end
  | Err NotifyProcessing => Err (Retryable RetryProcessing)
  | Err (NotifyRefunded reason block) => Err (Terminal (TerminalRefunded reason block))
  | Err (NotifyTransactionTooOld block) => Err (Terminal (TerminalTransactionTooOld block))
  | Err (NotifyInvalidTransaction m) => Err (Terminal (TerminalInvalidTransaction m))
  | Err (NotifyOther code m) => Err (Retryable (RetryOther code m))
  end.

Definition notify_top_up (cmc canister : Principal) (block_index : Z) :
    async (result Z NotifyTopUpError) :=
  r ← await (NotifyTopUp cmc canister block_index);
  mret match r with
       | Err (NotDelivered d) => Err (NotifyTransport d)
       | Err (Undecodable d) => Err (NotifyDecode d)
       | Ok res => classify_notify_top_up_result res
       end.

Definition get_icp_xdr_conversion_rate (cmc : Principal) :
    async (result IcpXdrConversionRate ClientError) :=
  r ← await (GetIcpXdrConversionRate cmc);
  mret match r with
       | Ok rate => Ok rate
       | Err (NotDelivered d) => Err (CallFailed d)
       | Err (Undecodable d) => Err (Convert d)
       end.

(** ** The clients of the reward sweep *)

Definition chain_length (ledger : Principal) : async (result Z ClientError) :=
  r ← await (QueryChainLength ledger);
  mret match r with
       | Ok n => Ok n
       | Err (NotDelivered d) => Err (CallFailed d)
       | Err (Undecodable d) => Err (CallFailed ("decode query_blocks chain length failed: " ++ d))
       end.

(** [IcpIndexCanister::status], of which [num_blocks_synced] is read. *)
Definition index_status (index : Principal) : async (result Z ClientError) :=
  r ← await (IndexStatus index);
  mret match r with
       | Ok n => Ok n
       | Err (NotDelivered d) => Err (CallFailed d)
       | Err (Undecodable d) => Err (CallFailed ("decode status failed: " ++ d))
       end.

Definition ledger_id (index : Principal) : async (result Principal ClientError) :=
  r ← await (IcrcIndexLedgerId index);
  mret match r with
       | Ok p => Ok p
       | Err (NotDelivered d) => Err (CallFailed ("ledger_id failed: " ++ d))
       | Err (Undecodable d) => Err (CallFailed ("decode ledger_id failed: " ++ d))
       end.

Definition get_account_transactions (index : Principal) (a : Account) (start : option Z)
    (max_results : Z) : async (result GetAccountTransactionsResponse ClientError) :=
  r ← await (GetAccountTransactions index a start max_results);
  mret match r with
       | Err (NotDelivered d) => Err (CallFailed ("get_account_transactions failed: " ++ d))
       | Err (Undecodable d) => Err (CallFailed ("decode get_account_transactions failed: " ++ d))
       | Ok (Ok page) => Ok page
       | Ok (Err message) => Err (CallFailed message)
       end.

Definition list_sns_canisters (root : Principal) :
    async (result ListSnsCanistersResponse ClientError) :=
  r ← await (ListSnsCanisters root);
  mret match r with
       | Ok v => Ok v
       | Err (NotDelivered d) => Err (CallFailed ("list_sns_canisters failed: " ++ d))
       | Err (Undecodable d) => Err (CallFailed ("decode list_sns_canisters failed: " ++ d))
       end.

(** ** [XrcCanister] *)

Definition XRC_CALL_CYCLES : Z := 1000000000.
(** The derived [Debug]. *)
Definition debug_exchange_rate_error (e : ExchangeRateError) : string :=
  match e with
  | AnonymousPrincipalNotAllowed => "AnonymousPrincipalNotAllowed"
  | CryptoBaseAssetNotFound => "CryptoBaseAssetNotFound"
  | CryptoQuoteAssetNotFound => "CryptoQuoteAssetNotFound"
  | StablecoinRateTooFewRates => "StablecoinRateTooFewRates"
  | StablecoinRateZeroRate => "StablecoinRateZeroRate"
  | ForexAssetsNotFound => "ForexAssetsNotFound"
  | ForexBaseAssetNotFound => "ForexBaseAssetNotFound"
  | ForexQuoteAssetNotFound => "ForexQuoteAssetNotFound"
  | ForexInvalidTimestamp => "ForexInvalidTimestamp"
  | RateLimited => "RateLimited"
  | NotEnoughCycles => "NotEnoughCycles"
  | NotEnoughStablecoinRates => "NotEnoughStablecoinRates"
  | StablecoinRateNotFound => "StablecoinRateNotFound"
  | InconsistentRatesReceived => "InconsistentRatesReceived"
  | FailedToAcceptCycles => "FailedToAcceptCycles"
  | Pending => "Pending"
  | OtherExchangeRateError code description =>
      "Other { code: " ++ nat_to_string code ++ ", description: " ++ debug_text description ++ " }"
  end.
Definition get_icp_xdr_rate (xrc : Principal) : async (result ExchangeRate ClientError) :=
  r ← await (GetExchangeRate xrc "ICP" "XDR" XRC_CALL_CYCLES);
  mret match r with
       | Err (NotDelivered d) => Err (CallFailed ("XRC get_exchange_rate rejected: " ++ d))
       | Err (Undecodable d) => Err (CallFailed ("XRC get_exchange_rate decode failed: " ++ d))
       | Ok (Ok rate) => Ok rate
       | Ok (Err e) => Err (CallFailed ("XRC get_exchange_rate returned error: " ++ debug_exchange_rate_error e))
       end.

(** ** The management canister *)

Definition update_settings (arg : UpdateSettingsArgs) : async (result unit TransportError) :=
  await (UpdateSettings arg).
Definition create_canister (settings : option CanisterSettings) (cycles_to_attach : Z) :
    async (result Principal TransportError) :=
  await (CreateCanister settings cycles_to_attach).
Definition install_code (arg : InstallCodeArgs) : async (result unit TransportError) :=
  await (InstallCode arg).
Definition canister_status (canister : Principal) : async (result CanisterStatusResult TransportError) :=
  await (CanisterStatus canister).

End clients.

(** ** Rules: one dispatched call and the classified reply *)

Section rules.
Context `{P : PrincipalSpec} `{T : TextSpec} {St : Type} (e : env St SuiteCall).
Implicit Types w : world St SuiteCall.

(** A client call: whatever the classified reply, the world after it. *)
Definition after_call {X} (c : SuiteCall X) w : world St SuiteCall :=
  World (env_interleave e (length (w_trace w)) (w_state w)) (Dispatch c (w_state w) :: w_trace w).

Lemma wp_balance_of_e8s ledger a Q w :
  (forall r, Q r (after_call (IcrcBalanceOf ledger a) w)) -> wp e (balance_of_e8s ledger a) Q w.
Proof. intros H. apply H. Qed.

Lemma wp_fee_e8s ledger Q w :
  (forall r, Q r (after_call (IcrcFee ledger) w)) -> wp e (fee_e8s ledger) Q w.
Proof. intros H. apply H. Qed.

Lemma wp_transfer ledger arg Q w :
  (forall r, Q r (after_call (IcrcTransfer ledger arg) w)) -> wp e (transfer ledger arg) Q w.
Proof. intros H. apply H. Qed.

Lemma wp_get_full_neuron gov n Q w :
  (forall r, Q r (after_call (GetFullNeuron gov n) w)) -> wp e (get_full_neuron gov n) Q w.
Proof. intros H. apply H. Qed.

Lemma wp_get_full_neuron_reply gov n Q w :
  (forall r, (forall neuron, r = Ok neuron ->
       env_reply e (length (w_trace w)) _ (GetFullNeuron gov n) = Ok (Ok neuron)) ->
     Q r (after_call (GetFullNeuron gov n) w)) ->
  wp e (get_full_neuron gov n) Q w.
Proof.
  intros H. apply H. intros neuron. destruct (env_reply _ _ _ _) as [[m|er]|er]; by intros [= ->].
Qed.

Lemma wp_disburse_maturity gov n pct o sub Q w :
  (forall r, Q r (after_call (ManageNeuron gov n (DisburseMaturity pct o sub)) w)) ->
  wp e (disburse_maturity_to_account gov n pct o sub) Q w.
Proof. intros H. apply H. Qed.

Lemma wp_refresh_voting_power gov n Q w :
  (forall r, Q r (after_call (ManageNeuron gov n RefreshVotingPower) w)) ->
  wp e (refresh_voting_power gov n) Q w.
Proof. intros H. apply H. Qed.

Lemma wp_claim_or_refresh_neuron gov n Q w :
  (forall r, Q r (after_call (ManageNeuron gov n ClaimOrRefresh) w)) ->
  wp e (claim_or_refresh_neuron gov n) Q w.
Proof. intros H. apply H. Qed.

Lemma wp_notify_top_up cmc c b Q w :
  (forall r, Q r (after_call (NotifyTopUp cmc c b) w)) -> wp e (notify_top_up cmc c b) Q w.
Proof. intros H. apply H. Qed.

Lemma wp_neuron_staking_subaccount gov n Q w :
  (forall r, Q r (after_call (ListNeurons gov n) w)) -> wp e (neuron_staking_subaccount gov n) Q w.
Proof. intros H. apply H. Qed.

Lemma wp_claim_or_refresh gov n Q w :
  (forall r, Q r (after_call (ManageNeuron gov n ClaimOrRefresh) w)) ->
  wp e (claim_or_refresh gov n) Q w.
Proof. intros H. apply H. Qed.

Lemma wp_get_transactions index acct start n Q w :
  (forall r, Q r (after_call (GetTransactions index acct start n) w)) ->
  wp e (get_account_identifier_transactions index acct start n) Q w.
Proof. intros H. apply H. Qed.

Lemma wp_get_icp_xdr_conversion_rate cmc Q w :
  (forall r, Q r (after_call (GetIcpXdrConversionRate cmc) w)) ->
  wp e (get_icp_xdr_conversion_rate cmc) Q w.
Proof. intros H. apply H. Qed.

Lemma wp_canister_exists c Q w :
  (forall r, Q r (after_call (CanisterInfo c) w)) -> wp e (canister_exists c) Q w.
Proof. intros H. apply H. Qed.

Lemma wp_update_settings arg Q w :
  (forall r, Q r (after_call (UpdateSettings arg) w)) -> wp e (update_settings arg) Q w.
Proof. intros H. apply H. Qed.

Lemma committed_call (I : St -> Prop) {X} (c : SuiteCall X) w :
  (forall n s, I s -> I (env_interleave e n s)) -> committed I w -> committed I (after_call c w).
Proof. intros Hr [Hs Ht]. split; cbn; [auto|]. by constructor. Qed.

End rules.

Module ConcreteTexts.
#[export] Instance concrete_texts : TextSpec := {
  nat_to_string := fun n => String.string_of_list_ascii
    (map (fun b => Ascii.ascii_of_N (Z.to_N b)) (u64_to_string n));
  display_i32 := fun _ => "i32"%string;
  debug_response := fun _ => "response"%string;
  debug_text := fun s => s;
}.
(** Replies of well-behaved remote canisters: a balance, a fee, accepted
    transfers and governance commands, a neuron without disbursements. *)
Definition reply_ok `{PrincipalSpec} (balance fee : Z) {X} (c : SuiteCall X) : X :=
  match c with
  | IcrcFee _ => Ok fee
  | IcrcBalanceOf _ _ => Ok balance
  | IcrcTransfer _ _ => Ok (Ok 7)
  | GetFullNeuron _ _ => Ok (Ok (MkNeuron 100 None))
  | ManageNeuron _ _ (DisburseMaturity _ _ _) => Ok (Some (RespDisburseMaturity (Some 5)))
  | ManageNeuron _ _ RefreshVotingPower => Ok (Some RespRefreshVotingPower)
  | ManageNeuron _ _ ClaimOrRefresh => Ok (Some RespClaimOrRefresh)
  | UpdateSettings _ => Ok tt
  | CanisterInfo _ => Ok tt
  | ListNeurons _ n => Ok [MkPublicNeuron (Some n) (replicate 32 1)]
  | NotifyTopUp _ _ _ => Ok (Ok 1000)
  | GetTransactions _ _ _ _ => Ok (Ok (MkIndexPage 0 None []))
  | GetIcpXdrConversionRate _ => Ok (MkRate 0 50000)
  | CanisterStatus _ => Ok (MkCanisterStatus _ Running 5000 None [] LogPublic LogPublic)
  | CanisterInfoControllers _ => Ok []
  | BlackholeStatus _ _ => Ok 5000
  | RootStatus _ _ => Ok 5000
  | SnsSwapStatus _ => Ok 5000
  | ListDeployedSnses _ => Ok []
  | ListSnsCanisters _ => Ok (MkSnsCanisters _ None None None None None [] [] None)
  | QueryChainLength _ => Ok 100
  | IndexStatus _ => Ok 100
  | IcrcIndexLedgerId index => Ok index
  | GetAccountTransactions _ _ _ _ => Ok (Ok (MkIcrcPage _ 0 [] None))
  | GetRelayRewardContext _ => Ok None
  | ResolveDefaultIcpAccounts _ _ accounts => Ok (Resolved (map (fun _ => None) accounts))
  | ListSnsNeurons _ _ => Ok []
  | CreateCanister _ _ => Ok anonymous
  | InstallCode _ => Ok tt
  | RefreshNeuronBySubaccount _ _ => Ok (Some RespClaimOrRefresh)
  | GetExchangeRate _ _ _ _ => Ok (Ok (MkExchangeRate 350000000 8 1700000000))
  | CanisterInfoHash _ => Ok (Some [1], [])
  | MemoryStatus _ _ => Ok (MkBlackholeStatus (Some 9) (Some (5, 4)))
  end.

(** No other message runs while a call is outstanding. *)
Definition quiet_env `{PrincipalSpec} {St} (clock balance fee : Z) : env St SuiteCall := {|
  env_reply := fun _ X c => reply_ok balance fee c;
  env_interleave := fun _ s => s;
  env_clock := fun _ => clock;
|}.

End ConcreteTexts.
