(* ===== verification/CyclesProbe.v ===== *)
(** * Cycles probes: [crates/ic-clients/src/cycles_probe.rs] and
    [canisters/relay/src/scheduler/cycles_probe.rs]

    The trait [CyclesProbeClient] is a class; [IcCyclesProbeClient] and the
    relay's [RelayCyclesProbeClient] are its implementations.  A probe tries the
    routes of its policy in order, each at most once, and never writes the
    state of the canister. *)

From S2P Require Import Prelude BTree Async Ic Clients.

Class ProbeIds `{PrincipalSpec} := {
  thirteen_node_blackhole_canister_id : Principal;
  fiduciary_blackhole_canister_id : Principal;
  nns_root_id : Principal;
}.

Inductive CyclesProbeRoute `{PrincipalSpec} :=
| DirectCanisterStatus
| Blackhole (blackhole_id : Principal)
| NnsRoot
| SnsRoot (root : Principal)
| SnsSwap (root swap : Principal).
#[export] Instance CyclesProbeRoute_eq_dec `{P : PrincipalSpec} : EqDecision CyclesProbeRoute.
Proof. pose proof (@Principal_eq_dec P). solve_decision. Defined.

Inductive CyclesProbeAudience := CurrentCaller | AnyCanister.
#[export] Instance CyclesProbeAudience_eq_dec : EqDecision CyclesProbeAudience.
Proof. solve_decision. Defined.

Inductive CyclesProbePolicy `{PrincipalSpec} := FixedBlackhole (fixed_id : Principal) | Auto.

Record DirectCanisterStatusObservation `{PrincipalSpec} := MkObservation {
  obs_cycles : Z;
  obs_status_visibility : LogVisibility;
  obs_controllers : list Principal;
}.

Record CyclesProbeSuccess `{PrincipalSpec} := MkSuccess { cycles : Z; route : option CyclesProbeRoute }.
Record CyclesProbeFailure `{PrincipalSpec} := MkFailure {
  message : string;
  failed_routes : list CyclesProbeRoute;
}.

(** [Display] of [ClientError] *)
Definition show_error (e : ClientError) : string :=
  match e with
  | CallFailed m => "inter-canister call failed: " ++ m
  | Convert m => "conversion error: " ++ m
  end.

Class CyclesProbeClient `{PrincipalSpec} (St : Type) := {
  configured_sns_root : option Principal;
  self_cycles : Principal -> async St SuiteCall (option Z);
  direct_canister_status : Principal ->
    async St SuiteCall (result DirectCanisterStatusObservation ClientError);
  blackhole_cycles : Principal -> Principal -> async St SuiteCall (result Z ClientError);
  nns_root_cycles : Principal -> async St SuiteCall (result Z ClientError);
  list_deployed_snses : async St SuiteCall (result (list DeployedSns) ClientError);
  canister_info_controllers : Principal -> async St SuiteCall (result (list Principal) ClientError);
  list_sns_canisters : Principal -> async St SuiteCall (result ListSnsCanistersResponse ClientError);
  sns_root_cycles : Principal -> Principal -> async St SuiteCall (result Z ClientError);
  sns_swap_cycles : Principal -> async St SuiteCall (result Z ClientError);
}.

Section clients.
Context `{P : PrincipalSpec} `{T : TextSpec} {St : Type}.
Local Abbreviation async := (async St SuiteCall).

Definition nat_to_u128 (n : Z) : result Z ClientError :=
  if n <=? u128_max then Ok n
  else Err (Convert ("Nat does not fit u128: " ++ nat_to_string n)).

(** [map_err] of the two failures of a call *)
Definition labelled {X} (failed undecoded : string) (r : result X TransportError) :
    result X ClientError :=
  match r with
  | Ok x => Ok x
  | Err (NotDelivered d) => Err (CallFailed (failed ++ d))
  | Err (Undecodable d) => Err (CallFailed (undecoded ++ d))
  end.
Definition cycles_of (r : result Z ClientError) : result Z ClientError :=
  match r with Ok n => nat_to_u128 n | Err e => Err e end.

Definition direct_observation_from_status (status : CanisterStatusResult) :
    result DirectCanisterStatusObservation ClientError :=
  match nat_to_u128 (status_cycles status) with
  | Err e => Err e
  | Ok c => Ok {| obs_cycles := c; obs_status_visibility := status_visibility status;
                  obs_controllers := status_controllers status |}
  end.

(** [IcCyclesProbeClient]; [self_balance] is [canister_cycle_balance]. *)
Definition IcCyclesProbeClient `{I : !ProbeIds} (root : option Principal) (sns_wasm self_id : Principal)
    (self_balance : Z) : CyclesProbeClient St := {|
  configured_sns_root := root;
  self_cycles := fun target => mret (then_some (bool_decide (target = self_id)) self_balance);
  direct_canister_status := fun target =>
    r ← await (CanisterStatus target);
    mret match labelled "direct canister_status failed: " "direct canister_status failed: " r with
         | Ok status => direct_observation_from_status status
         | Err e => Err e
         end;
  blackhole_cycles := fun probe target =>
    r ← await (BlackholeStatus probe target);
    mret (cycles_of (labelled "blackhole canister_status failed: "
                              "decode blackhole canister_status failed: " r));
  nns_root_cycles := fun target =>
    r ← await (RootStatus nns_root_id target);
    mret (cycles_of (labelled "nns root canister_status failed: "
                              "decode nns root canister_status failed: " r));
  list_deployed_snses :=
    r ← await (ListDeployedSnses sns_wasm);
    mret (labelled "list_deployed_snses failed: " "decode list_deployed_snses failed: " r);
  canister_info_controllers := fun target =>
    r ← await (CanisterInfoControllers target);
    mret (labelled "canister_info failed: " "canister_info failed: " r);
  list_sns_canisters := fun root =>
    r ← await (ListSnsCanisters root);
    mret (labelled "list_sns_canisters failed: " "decode list_sns_canisters failed: " r);
  sns_root_cycles := fun root target =>
    r ← await (RootStatus root target);
    mret (cycles_of (labelled "sns root canister_status failed: "
                              "decode sns root canister_status failed: " r));
  sns_swap_cycles := fun swap =>
    r ← await (SnsSwapStatus swap);
    mret (cycles_of (labelled "sns swap get_canister_status failed: "
                              "decode sns swap get_canister_status failed: " r));
|}.

(** [RelayCyclesProbeClient] does not override [configured_sns_root], whose
    default in the trait is [None]. *)
Definition RelayCyclesProbeClient (inner : CyclesProbeClient St) (self_canister_id : Principal)
    (own_cycles : Z) : CyclesProbeClient St := {|
  configured_sns_root := None;
  self_cycles := fun target => mret (then_some (bool_decide (target = self_canister_id)) own_cycles);
  direct_canister_status := @direct_canister_status _ _ inner;
  blackhole_cycles := @blackhole_cycles _ _ inner;
  nns_root_cycles := @nns_root_cycles _ _ inner;
  list_deployed_snses := @list_deployed_snses _ _ inner;
  canister_info_controllers := @canister_info_controllers _ _ inner;
  list_sns_canisters := @list_sns_canisters _ _ inner;
  sns_root_cycles := @sns_root_cycles _ _ inner;
  sns_swap_cycles := @sns_swap_cycles _ _ inner;
|}.

End clients.

Section probe.
Context `{P : PrincipalSpec} `{O : !OrdSpec Principal} `{I : !ProbeIds} {St : Type}.
Context {C : CyclesProbeClient St}.
Local Abbreviation async := (async St SuiteCall).
#[local] Existing Instance Principal_eq_dec.

Record ProbeState := MkProbe {
  attempted_routes : list CyclesProbeRoute;
  attempted_set : list CyclesProbeRoute;
  errors : list string;
  known_controllers : option (btree_set Principal);
}.
Definition ProbeState_default : ProbeState := MkProbe [] [] [] None.
Definition CyclesProbeResult : Type := result CyclesProbeSuccess CyclesProbeFailure.

Definition push_error (m : string) (s : ProbeState) : ProbeState :=
  s <| errors ::= (fun l => l ++ [m]) |>.

Definition failure (m : string) (s : ProbeState) : CyclesProbeResult :=
  Err {| message := match errors s with
                    | [] => m
                    | l => m ++ "; previous errors: " ++ String.concat "; " l
                    end;
         failed_routes := attempted_routes s |}.

Definition status_visibility_label (v : LogVisibility) : string :=
  match v with
  | LogControllers => "controllers"
  | LogPublic => "public"
  | LogAllowedViewers _ => "allowed_viewers"
  end.
Definition is_public (v : LogVisibility) : bool :=
  match v with LogPublic => true | _ => false end.

Definition observed (r : CyclesProbeRoute) (res : result Z ClientError) :
    result (option CyclesProbeSuccess) ClientError :=
  match res with Ok c => Ok (Some (MkSuccess _ c (Some r))) | Err e => Err e end.

Definition execute_route (s : ProbeState) (target : Principal) (r : CyclesProbeRoute)
    (audience : CyclesProbeAudience) :
    async (ProbeState * result (option CyclesProbeSuccess) ClientError) :=
  if bool_decide (r ∈ attempted_set s) then mret (s, Ok None)
  else
    let s := s <| attempted_set ::= cons r |> <| attempted_routes ::= (fun l => l ++ [r]) |> in
    match r with
    | DirectCanisterStatus =>
        res ← direct_canister_status target;
        mret match res with
             | Err e => (s, Err e)
             | Ok o =>
                 let s := s <| known_controllers := Some (set_of_list (obs_controllers o)) |> in
                 if bool_decide (audience = AnyCanister) && negb (is_public (obs_status_visibility o))
                 then (push_error ("direct canister_status succeeded but status visibility `"
                          ++ status_visibility_label (obs_status_visibility o)
                          ++ "` is not reusable by any canister")%string s, Ok None)
                 else (s, observed r (Ok (obs_cycles o)))
             end
    | Blackhole id => res ← blackhole_cycles id target; mret (s, observed r res)
    | NnsRoot => res ← nns_root_cycles target; mret (s, observed r res)
    | SnsRoot root => res ← sns_root_cycles root target; mret (s, observed r res)
    | SnsSwap _ swap => res ← sns_swap_cycles swap; mret (s, observed r res)
    end.

(** [match execute_route(..).await]: the success returns from the probe. *)
Definition try_route (s : ProbeState) (target : Principal) (r : CyclesProbeRoute)
    (audience : CyclesProbeAudience) (skipped : ProbeState -> async CyclesProbeResult)
    (failed : ProbeState -> ClientError -> async CyclesProbeResult) : async CyclesProbeResult :=
  res ← execute_route s target r audience;
  match res with
  | (_, Ok (Some success)) => mret (Ok success)
  | (s, Ok None) => skipped s
  | (s, Err e) => failed s e
  end.
(** .. with the error pushed to the list. *)
Definition try_logged (label : string) (s : ProbeState) (target : Principal)
    (r : CyclesProbeRoute) (audience : CyclesProbeAudience)
    (k : ProbeState -> async CyclesProbeResult) : async CyclesProbeResult :=
  try_route s target r audience k (fun s e => k (push_error (label ++ show_error e) s)).

Definition contains (o : option Principal) (l : list (option Principal)) : bool :=
  bool_decide (o ∈ l).

Definition framework_route_from_deployed_sns (target : Principal) (sns : DeployedSns) :
    option CyclesProbeRoute :=
  match root_canister_id sns with
  | None => None
  | Some root =>
      if contains (Some target) [Some root; sns_governance_canister_id sns;
                                 sns_ledger_canister_id sns; index_canister_id sns]
      then Some (SnsRoot root)
      else if bool_decide (swap_canister_id sns = Some target) then Some (SnsSwap root target)
      else None
  end.

Definition route_from_list_sns_canisters (candidate_root target : Principal)
    (list : ListSnsCanistersResponse) : option CyclesProbeRoute :=
  if negb (bool_decide (sns_root list = Some candidate_root)) then None
  else if contains (Some target) [sns_root list; sns_governance list; sns_ledger list; sns_index list]
  then Some (SnsRoot candidate_root)
  else if bool_decide (sns_swap list = Some target) then Some (SnsSwap candidate_root target)
  else if bool_decide (target ∈ sns_dapps list) || bool_decide (target ∈ sns_archives list)
          || bool_decide (target ∈ default [] (sns_extensions list))
  then Some (SnsRoot candidate_root)
  else None.

(** The loop over the deployed instances: the first framework route, or every
    root seen. *)
Fixpoint framework_route (target : Principal) (roots : btree_set Principal)
    (instances : list DeployedSns) : CyclesProbeRoute + btree_set Principal :=
  match instances with
  | [] => inr roots
  | sns :: rest =>
      match root_canister_id sns with
      | None => framework_route target roots rest
      | Some root =>
          match framework_route_from_deployed_sns target sns with
          | Some r => inl r
          | None => framework_route target (set_insert root roots) rest
          end
      end
  end.

Definition text_of (p : Principal) : string :=
  String.string_of_list_ascii (map (fun b => Ascii.ascii_of_N (Z.to_N b)) (principal_to_text p)).

Fixpoint query_roots (target : Principal) (roots : list Principal) (errs : list string) :
    async (result (option CyclesProbeRoute) ClientError) :=
  match roots with
  | [] => mret (match errs with
                | [] => Ok None
                | _ => Err (CallFailed ("failed to query candidate SNS roots: "
                                        ++ String.concat "; " errs))
                end)
  | root :: rest =>
      res ← list_sns_canisters root;
      match res with
      | Err e => query_roots target rest (errs ++ [(text_of root ++ ": " ++ show_error e)%string])
      | Ok list =>
          match route_from_list_sns_canisters root target list with
          | Some r => mret (Ok (Some r))
          | None => query_roots target rest errs
          end
      end
  end.

(** The explicitly configured root, when its live membership claims the target. *)
Definition configured_route (target : Principal) : async (option CyclesProbeRoute) :=
  match configured_sns_root with
  | None => mret None
  | Some root =>
      res ← list_sns_canisters root;
      mret match res with
           | Ok list =>
               if is_some (sns_governance list) && is_some (sns_ledger list)
                  && bool_decide (sns_root list = Some root)
               then route_from_list_sns_canisters root target list else None
           | Err _ => None
           end
  end.

(** The SNS-W registry: framework canisters, then the controlling roots. *)
Definition registered_route (target : Principal) (controllers : option (btree_set Principal)) :
    async (result (option CyclesProbeRoute) ClientError) :=
  deployed ← list_deployed_snses;
  match deployed with
  | Err e => mret (Err e)
  | Ok instances =>
      match framework_route target [] instances with
      | inl r => mret (Ok (Some r))
      | inr roots =>
          query_roots target
            (set_of_list (List.filter (fun c => set_contains c roots) (default [] controllers))) []
      end
  end.

Definition discover_sns_route (target : Principal) (controllers : option (btree_set Principal)) :
    async (result (option CyclesProbeRoute) ClientError) :=
  r ← configured_route target;
  match r with
  | Some r => mret (Ok (Some r))
  | None => registered_route target controllers
  end.

Definition ordered_production_blackhole_canister_ids : list Principal :=
  [thirteen_node_blackhole_canister_id; fiduciary_blackhole_canister_id].
Definition is_production_blackhole_canister_id (p : Principal) : bool :=
  bool_decide (p ∈ ordered_production_blackhole_canister_ids).

Fixpoint try_blackholes (target : Principal) (audience : CyclesProbeAudience)
    (controllers : btree_set Principal) (ids : list Principal) (s : ProbeState)
    (k : ProbeState -> async CyclesProbeResult) : async CyclesProbeResult :=
  match ids with
  | [] => k s
  | id :: rest =>
      if negb (set_contains id controllers) then try_blackholes target audience controllers rest s k
      else try_logged ("blackhole " ++ text_of id ++ " failed: ") s target (Blackhole id) audience
             (fun s => try_blackholes target audience controllers rest s k)
  end.

Definition discover_controllers (s : ProbeState) (target : Principal) :
    async (ProbeState * option (btree_set Principal)) :=
  match known_controllers s with
  | Some c => mret (s, Some c)
  | None =>
      res ← canister_info_controllers target;
      mret match res with
           | Ok c => (s, Some (set_of_list c))
           | Err e => (push_error ("canister_info controller discovery failed: " ++ show_error e) s,
                       None)
           end
  end.

(** From the discovery of the SNS route to the end. *)
Definition probe_sns (s : ProbeState) (target : Principal) (audience : CyclesProbeAudience)
    (controllers : option (btree_set Principal)) : async CyclesProbeResult :=
  r ← discover_sns_route target controllers;
  match r with
  | Ok (Some r) =>
      try_route s target r audience
        (fun s => mret (failure "no cycles probe route could observe target" s))
        (fun s e => mret (failure ("SNS route probe failed after discovery: " ++ show_error e) s))
  | Ok None => mret (failure "no cycles probe route could observe target" s)
  | Err e => mret (failure ("SNS route discovery failed: " ++ show_error e) s)
  end.

(** The blackholes and the NNS root among the controllers, then the SNS route. *)
Definition probe_controllers (s : ProbeState) (target : Principal) (audience : CyclesProbeAudience)
    (controllers : option (btree_set Principal)) : async CyclesProbeResult :=
  match controllers with
  | None => probe_sns s target audience controllers
  | Some c =>
      try_blackholes target audience c ordered_production_blackhole_canister_ids s (fun s =>
        if set_contains nns_root_id c
        then try_logged "NNS root route failed: " s target NnsRoot audience
               (fun s => probe_sns s target audience controllers)
        else probe_sns s target audience controllers)
  end.

(** From the discovery of the controllers to the end. *)
Definition probe_discovered (s : ProbeState) (target : Principal) (audience : CyclesProbeAudience) :
    async CyclesProbeResult :=
  sc ← discover_controllers s target;
  probe_controllers sc.1 target audience sc.2.

Definition is_auto (policy : CyclesProbePolicy) : bool :=
  match policy with Auto => true | FixedBlackhole _ => false end.

(** From the match on the policy to the end. *)
Definition probe_policy (s : ProbeState) (policy : CyclesProbePolicy) (target : Principal)
    (cached_route : option CyclesProbeRoute) (audience : CyclesProbeAudience) :
    async CyclesProbeResult :=
  match policy with
  | FixedBlackhole id =>
      try_route s target (Blackhole id) audience
        (fun s => mret (failure "fixed blackhole route was already attempted" s))
        (fun s e => mret (failure ("fixed blackhole probe failed: " ++ show_error e) s))
  | Auto =>
      match cached_route with
      | Some r => try_logged "cached route failed: " s target r audience
                    (fun s => probe_discovered s target audience)
      | None => probe_discovered s target audience
      end
  end.

(** From the canonical NNS root status to the end. *)
Definition probe_nns_root (s : ProbeState) (policy : CyclesProbePolicy) (target : Principal)
    (cached_route : option CyclesProbeRoute) (audience : CyclesProbeAudience) :
    async CyclesProbeResult :=
  if is_auto policy && bool_decide (target = nns_root_id)
  then try_logged "canonical NNS root self-status failed: " s target NnsRoot audience
         (fun s => probe_policy s policy target cached_route audience)
  else probe_policy s policy target cached_route audience.

(** From the canonical blackhole self-status to the end. *)
Definition probe_canonical (s : ProbeState) (policy : CyclesProbePolicy) (target : Principal)
    (cached_route : option CyclesProbeRoute) (audience : CyclesProbeAudience) :
    async CyclesProbeResult :=
  if is_production_blackhole_canister_id target
  then try_route s target (Blackhole target) audience
         (fun s => probe_nns_root s policy target cached_route audience)
         (fun s e =>
            let m := ("canonical blackhole self-status failed: " ++ show_error e)%string in
            match policy with
            | FixedBlackhole _ => mret (failure m s)
            | Auto => probe_nns_root (push_error m s) policy target cached_route audience
            end)
  else probe_nns_root s policy target cached_route audience.

Definition probe_cycles_for_audience (policy : CyclesProbePolicy) (target : Principal)
    (cached_route : option CyclesProbeRoute) (audience : CyclesProbeAudience) :
    async CyclesProbeResult :=
  let s := ProbeState_default in
  own ← (match audience with
         | CurrentCaller => self_cycles target
         | AnyCanister => mret None
         end);
  match own with
  | Some c => mret (Ok (MkSuccess _ c None))
  | None =>
      if is_auto policy
      then try_logged "direct route failed: " s target DirectCanisterStatus audience
             (fun s => probe_canonical s policy target cached_route audience)
      else probe_canonical s policy target cached_route audience
  end.

Definition probe_cycles (policy : CyclesProbePolicy) (target : Principal)
    (cached_route : option CyclesProbeRoute) : async CyclesProbeResult :=
  probe_cycles_for_audience policy target cached_route CurrentCaller.

End probe.

(** ** What the probe relies on: a status method is one query *)

Class ProbeClientLaws `{P : PrincipalSpec} `{I : !ProbeIds} {St : Type} (C : CyclesProbeClient St)
    (e : env St SuiteCall) : Prop := {
  wp_self_cycles : forall t Q w, (forall r, Q r w) -> wp e (self_cycles t) Q w;
  wp_direct_canister_status : forall t Q w,
    (forall r, Q r (after_call e (CanisterStatus t) w)) -> wp e (direct_canister_status t) Q w;
  wp_blackhole_cycles : forall p t Q w,
    (forall r, Q r (after_call e (BlackholeStatus p t) w)) -> wp e (blackhole_cycles p t) Q w;
  wp_nns_root_cycles : forall t Q w,
    (forall r, Q r (after_call e (RootStatus nns_root_id t) w)) -> wp e (nns_root_cycles t) Q w;
  wp_list_deployed_snses : forall Q w,
    (forall r wasm, Q r (after_call e (ListDeployedSnses wasm) w)) -> wp e list_deployed_snses Q w;
  wp_canister_info_controllers : forall t Q w,
    (forall r, Q r (after_call e (CanisterInfoControllers t) w)) ->
    wp e (canister_info_controllers t) Q w;
  wp_list_sns_canisters : forall root Q w,
    (forall r, Q r (after_call e (ListSnsCanisters root) w)) -> wp e (list_sns_canisters root) Q w;
  wp_sns_root_cycles : forall root t Q w,
    (forall r, Q r (after_call e (RootStatus root t) w)) -> wp e (sns_root_cycles root t) Q w;
  wp_sns_swap_cycles : forall swap Q w,
    (forall r, Q r (after_call e (SnsSwapStatus swap) w)) -> wp e (sns_swap_cycles swap) Q w;
}.

#[export] Instance ic_probe_laws `{P : PrincipalSpec} `{I : !ProbeIds} `{T : TextSpec} {St}
    (e : env St SuiteCall) root wasm self balance :
  ProbeClientLaws (IcCyclesProbeClient root wasm self balance) e.
Proof. split; cbn; intros * HQ; repeat wp_step; subst; apply HQ. Qed.

#[export] Instance relay_probe_laws `{P : PrincipalSpec} `{I : !ProbeIds} {St}
    (e : env St SuiteCall) (inner : CyclesProbeClient St) self balance :
  ProbeClientLaws inner e -> ProbeClientLaws (RelayCyclesProbeClient inner self balance) e.
Proof.
  intros L. split; cbn; intros * HQ; [apply HQ|by apply wp_direct_canister_status
    |by apply wp_blackhole_cycles|by apply wp_nns_root_cycles|by apply wp_list_deployed_snses
    |by apply wp_canister_info_controllers|by apply wp_list_sns_canisters
    |by apply wp_sns_root_cycles|by apply wp_sns_swap_cycles].
Qed.

(** ** The run of a probe *)

Section run.
Context `{P : PrincipalSpec} `{O : !OrdSpec Principal} `{I : !ProbeIds} {St : Type}.
Context {C : CyclesProbeClient St} (e : env St SuiteCall) {LC : ProbeClientLaws C e}.
Context (policy : CyclesProbePolicy) (target : Principal) (audience : CyclesProbeAudience).
Implicit Types w : world St SuiteCall.
#[local] Existing Instance Principal_eq_dec.

(** The event is the status query of the route. *)
Definition queries (r : CyclesProbeRoute) (ev : event St SuiteCall) : Prop :=
  match ev with
  | Dispatch c _ =>
      match r, c with
      | DirectCanisterStatus, CanisterStatus t => t = target
      | Blackhole id, BlackholeStatus p t => p = id /\ t = target
      | NnsRoot, RootStatus ro t => ro = nns_root_id /\ t = target
      | SnsRoot ro', RootStatus ro t => ro = ro' /\ t = target
      | SnsSwap _ sw, SnsSwapStatus s => s = sw
      | _, _ => False
      end
  end.

(** The calls a probe may make: with a fixed blackhole, its status query and the
    self status of a canonical blackhole; otherwise read-only queries. *)
Definition probe_event (ev : event St SuiteCall) : Prop :=
  match policy with
  | FixedBlackhole id =>
      queries (Blackhole id) ev \/
      is_production_blackhole_canister_id target = true /\ queries (Blackhole target) ev
  | Auto =>
      (exists r, queries r ev) \/
      match ev with
      | Dispatch c _ =>
          match c with
          | CanisterInfoControllers t => t = target
          | ListDeployedSnses _ | ListSnsCanisters _ => True
          | _ => False
          end
      end
  end.

Definition probing w0 w : Prop :=
  traced probe_event (w_trace w0) w /\
  forall J : St -> Prop, (forall n s, J s -> J (env_interleave e n s)) -> committed J w0 -> committed J w.

Definition probe_post w0 (res : CyclesProbeResult) w : Prop :=
  probing w0 w /\
  match res with
  | Ok s =>
      match route s with
      | None => audience = CurrentCaller /\ w = w0
      | Some r => exists ev rest, w_trace w = ev :: rest /\ queries r ev
      end
  | Err f => NoDup (failed_routes f)
  end.

Definition distinct (s : ProbeState) : Prop :=
  NoDup (attempted_routes s) /\ forall r, r ∈ attempted_set s <-> r ∈ attempted_routes s.

Lemma probing_refl w : probing w w.
Proof. split; [apply traced_refl|auto]. Qed.

Lemma probing_call w0 w {X} (c : SuiteCall X) :
  probing w0 w -> probe_event (Dispatch c (w_state w)) -> probing w0 (after_call e c w).
Proof.
  intros [Ht Hc] He. split.
  - apply (traced_cons _ _ _ (w_state w)); [done|]. by destruct w.
  - intros J Hr Hw. apply (committed_call e); auto.
Qed.

Lemma distinct_attempt s r :
  distinct s -> r ∉ attempted_set s ->
  distinct (s <| attempted_set ::= cons r |> <| attempted_routes ::= (fun l => l ++ [r]) |>).
Proof.
  intros [Hnd Heq] Hr. split; cbn.
  - apply NoDup_app. repeat split; [done| |apply NoDup_singleton]. set_solver.
  - intros x. set_solver.
Qed.

Lemma distinct_known s c : distinct s -> distinct (s <| known_controllers := c |>).
Proof. done. Qed.
Lemma distinct_error s m : distinct s -> distinct (push_error m s).
Proof. done. Qed.

(** The routes a policy allows. *)
Definition route_allowed (r : CyclesProbeRoute) : Prop :=
  match policy with
  | FixedBlackhole id =>
      r = Blackhole id \/ is_production_blackhole_canister_id target = true /\ r = Blackhole target
  | Auto => True
  end.

Lemma route_event r ev : route_allowed r -> queries r ev -> probe_event ev.
Proof. unfold route_allowed, probe_event. destruct policy; [|eauto]. intros [->|[? ->]]; auto. Qed.

Lemma wp_execute_route w0 s r Q w :
  distinct s -> probing w0 w -> route_allowed r ->
  (forall s', distinct s' -> Q (s', Ok None) w) ->
  (forall s' res w', distinct s' -> probing w0 w' ->
     (forall x, res = Ok (Some x) -> route x = Some r /\
        exists ev rest, w_trace w' = ev :: rest /\ queries r ev) -> Q (s', res) w') ->
  wp e (execute_route s target r audience) Q w.
Proof.
  intros Hs Hw Hal Hskip Hrun. unfold execute_route.
  case_bool_decide as Hin; [by wp_step; apply Hskip|].
  apply (distinct_attempt s r) in Hin; [|done].
  assert (forall X (c : SuiteCall X) s' res, queries r (Dispatch c (w_state w)) -> distinct s' ->
    (forall x, res = Ok (Some x) -> route x = Some r) -> Q (s', res) (after_call e c w)) as Hdone.
  { intros X c s' res Hq Hd Hx. apply Hrun; [done| |].
    - apply probing_call; [done|]. by eapply route_event.
    - intros x Hx'. split; [auto|]. by eexists _, _. }
  cbn zeta.
  destruct r; wp_step; [apply wp_direct_canister_status|apply wp_blackhole_cycles
    |apply wp_nns_root_cycles|apply wp_sns_root_cycles|apply wp_sns_swap_cycles]; intros res;
    apply wp_ret;
    try (apply Hdone; [done|done|]; intros x; unfold observed; destruct res; by intros [= <-]).
  destruct res as [o|er]; [|by apply Hdone]. cbn zeta beta iota.
  case_match; apply Hdone; try done. cbn. by intros x [= <-].
Qed.

Lemma wp_try_route w0 s r skipped failed w :
  distinct s -> probing w0 w -> route_allowed r ->
  (forall s' w', distinct s' -> probing w0 w' -> wp e (skipped s') (probe_post w0) w') ->
  (forall s' er w', distinct s' -> probing w0 w' -> wp e (failed s' er) (probe_post w0) w') ->
  wp e (try_route s target r audience skipped failed) (probe_post w0) w.
Proof.
  intros Hs Hw Hal Hskip Hfail. unfold try_route. wp_step.
  apply (wp_execute_route w0); [done|done|done|auto|].
  intros s' [[x|]|er] w' Hs' Hw' Hx; auto.
  destruct (Hx x eq_refl) as [Hr Hev]. wp_step. split; [done|]. by rewrite Hr.
Qed.

Lemma wp_try_logged w0 label s r k w :
  distinct s -> probing w0 w -> route_allowed r ->
  (forall s' w', distinct s' -> probing w0 w' -> wp e (k s') (probe_post w0) w') ->
  wp e (try_logged label s target r audience k) (probe_post w0) w.
Proof. intros Hs Hw Hal Hk. by apply wp_try_route; auto. Qed.

Lemma wp_failure w0 m s w :
  distinct s -> probing w0 w -> wp e (mret (failure m s)) (probe_post w0) w.
Proof. intros [Hn _] Hw. wp_step. by split. Qed.

Hint Resolve wp_failure distinct_error : jupiter.

Section auto.
Context (Hauto : policy = Auto).

Lemma allowed_auto r : route_allowed r.
Proof using Hauto. unfold route_allowed. by rewrite Hauto. Qed.

Lemma probing_discovery w0 w {X} (c : SuiteCall X) :
  probing w0 w ->
  match c with
  | CanisterInfoControllers t => t = target
  | ListDeployedSnses _ | ListSnsCanisters _ => True
  | _ => False
  end -> probing w0 (after_call e c w).
Proof using Hauto.
  intros Hw Hc. apply probing_call; [done|]. unfold probe_event. rewrite Hauto. by right.
Qed.

Lemma wp_query_roots w0 roots errs Q w :
  probing w0 w -> (forall r w', probing w0 w' -> Q r w') ->
  wp e (query_roots target roots errs) Q w.
Proof using Hauto LC.
  intros Hw HQ. revert errs w Hw. induction roots as [|root roots IH]; intros errs w Hw; cbn [query_roots].
  - by wp_step; apply HQ.
  - wp_step. apply wp_list_sns_canisters. intros res.
    assert (probing w0 (after_call e (ListSnsCanisters root) w)) by (by apply probing_discovery).
    destruct res; [|by apply IH]. destruct (route_from_list_sns_canisters _ _ _); [|by apply IH].
    by wp_step; apply HQ.
Qed.

Lemma wp_discover_sns_route w0 controllers Q w :
  probing w0 w -> (forall r w', probing w0 w' -> Q r w') ->
  wp e (discover_sns_route target controllers) Q w.
Proof using Hauto LC.
  intros Hw HQ. unfold discover_sns_route. wp_step.
  assert (forall r w', probing w0 w' -> wp e (match r with
    | Some r => mret (Ok (Some r))
    | None => registered_route target controllers
    end) Q w') as Hrest.
  { intros [r|] w' Hw'; [by wp_step; apply HQ|]. unfold registered_route. wp_step.
    apply wp_list_deployed_snses. intros res wasm.
    assert (probing w0 (after_call e (ListDeployedSnses wasm) w')) by (by apply probing_discovery).
    destruct res as [instances|er]; [|by wp_step; apply HQ].
    destruct (framework_route _ _ _); [by wp_step; apply HQ|]. by apply (wp_query_roots w0). }
  unfold configured_route. destruct configured_sns_root; [|wp_step; by apply (Hrest None)].
  wp_step. apply wp_list_sns_canisters. intros res. wp_step. apply Hrest.
  by apply probing_discovery.
Qed.

Lemma wp_probe_sns w0 s controllers w :
  distinct s -> probing w0 w -> wp e (probe_sns s target audience controllers) (probe_post w0) w.
Proof using Hauto LC.
  intros Hs Hw. unfold probe_sns. wp_step. apply (wp_discover_sns_route w0); [done|].
  intros [[r|]|er] w' Hw'; [|eauto with jupiter..].
  apply wp_try_route; eauto with jupiter. apply allowed_auto.
Qed.

Lemma wp_probe_controllers w0 s controllers w :
  distinct s -> probing w0 w ->
  wp e (probe_controllers s target audience controllers) (probe_post w0) w.
Proof using Hauto LC.
  intros Hs Hw. unfold probe_controllers. destruct controllers as [c|]; [|by apply wp_probe_sns].
  revert s w Hs Hw. induction ordered_production_blackhole_canister_ids as [|id ids IH];
    intros s w Hs Hw; cbn [try_blackholes].
  - destruct (set_contains _ _); [|by apply wp_probe_sns].
    apply wp_try_logged; auto using allowed_auto, wp_probe_sns.
  - destruct (negb _); [by apply IH|]. apply wp_try_logged; auto using allowed_auto.
Qed.

Lemma wp_probe_discovered w0 s w :
  distinct s -> probing w0 w -> wp e (probe_discovered s target audience) (probe_post w0) w.
Proof using Hauto LC.
  intros Hs Hw. unfold probe_discovered. wp_step. unfold discover_controllers.
  destruct (known_controllers s); [wp_step; by apply wp_probe_controllers|].
  wp_step. apply wp_canister_info_controllers. intros res. wp_step.
  destruct res; apply wp_probe_controllers; try done; by apply probing_discovery.
Qed.

End auto.

Lemma wp_probe_policy w0 s cached w :
  distinct s -> probing w0 w -> wp e (probe_policy s policy target cached audience) (probe_post w0) w.
Proof using LC.
  intros Hs Hw. unfold probe_policy. destruct policy as [id|] eqn:Hp.
  - apply wp_try_route; eauto with jupiter. unfold route_allowed. rewrite Hp. by left.
  - destruct cached; [|by apply wp_probe_discovered].
    apply wp_try_logged; auto using allowed_auto, wp_probe_discovered.
Qed.

Lemma wp_probe_canonical w0 s cached w :
  distinct s -> probing w0 w -> wp e (probe_canonical s policy target cached audience) (probe_post w0) w.
Proof using LC.
  intros Hs Hw.
  assert (forall s w, distinct s -> probing w0 w ->
    wp e (probe_nns_root s policy target cached audience) (probe_post w0) w) as Hroot.
  { clear s w Hs Hw. intros s w Hs Hw. unfold probe_nns_root.
    destruct (is_auto policy && _) eqn:Ha; [|by apply wp_probe_policy].
    apply wp_try_logged; auto using wp_probe_policy.
    apply allowed_auto. destruct policy; [done|reflexivity]. }
  unfold probe_canonical. destruct (is_production_blackhole_canister_id target) eqn:Hprod; [|auto].
  apply wp_try_route; auto.
  - unfold route_allowed. destruct policy; auto.
  - intros s' er w' Hs' Hw'. cbn zeta. destruct policy; [by apply wp_failure|auto with jupiter].
Qed.

(** Every probe returns, stays within the calls of its policy, and reports a
    success only for the route it queried last. *)
Lemma wp_probe_cycles cached w :
  wp e (probe_cycles_for_audience policy target cached audience) (probe_post w) w.
Proof using LC.
  unfold probe_cycles_for_audience. cbn zeta. wp_step.
  assert (wp e (if is_auto policy
    then try_logged "direct route failed: " ProbeState_default target DirectCanisterStatus audience
           (fun s => probe_canonical s policy target cached audience)
    else probe_canonical ProbeState_default policy target cached audience) (probe_post w) w) as Hrest.
  { assert (distinct ProbeState_default) by (split; [constructor|done]).
    destruct (is_auto policy) eqn:Ha; [|auto using wp_probe_canonical, probing_refl].
    apply wp_try_logged; auto using wp_probe_canonical, probing_refl.
    apply allowed_auto. destruct policy; [done|reflexivity]. }
  destruct audience eqn:Haud; rewrite <- Haud in *; [|by wp_step].
  apply wp_self_cycles. intros [c|]; [|done].
  wp_step. split; [apply probing_refl|]. done.
Qed.

End run.

(** A cycles probe always returns, whatever the replies, and keeps to its
    policy: under a fixed blackhole it calls nothing but the status method of
    that blackhole (or, for a canonical blackhole, of the target itself), and
    under the automatic policy only read-only status and discovery queries about
    the target.  Only other messages change the state meanwhile.  A success is
    either the canister's own balance without any call, or was observed through
    the route whose query is the last call; a failure lists each attempted
    route once. *)
Theorem probe_cycles_confined `{P : PrincipalSpec} `{O : !OrdSpec Principal} `{I : !ProbeIds}
    {St} (C : CyclesProbeClient St) (e : env St SuiteCall) (L : ProbeClientLaws C e)
    (policy : CyclesProbePolicy) (target : Principal) (cached : option CyclesProbeRoute)
    (audience : CyclesProbeAudience) (w : world St SuiteCall) :
  exists res w', probe_cycles_for_audience policy target cached audience e w = (Returned res, w') /\
    traced (probe_event policy target) (w_trace w) w' /\
    (forall J : St -> Prop, (forall n s, J s -> J (env_interleave e n s)) ->
       committed J w -> committed J w') /\
    match res with
    | Ok s =>
        match route s with
        | None => audience = CurrentCaller /\ w' = w
        | Some r => exists ev rest, w_trace w' = ev :: rest /\ queries target r ev
        end
    | Err f => NoDup (failed_routes f)
    end.
Proof.
  destruct (wp_returns _ _ _ _ (wp_probe_cycles e policy target audience cached w))
    as (res & w' & Hrun & [Ht HJ] & Hres).
  by exists res, w'.
Qed.

(** The relay's wrapper hides the configured SNS root of the client it wraps:
    two clients that differ only in that root are the same relay client. *)
Lemma relay_probe_ignores_configured_root `{P : PrincipalSpec} `{I : !ProbeIds} `{T : TextSpec} {St}
    (root root' : option Principal) (wasm self self_id : Principal) (balance own : Z) :
  RelayCyclesProbeClient (St:=St) (IcCyclesProbeClient root wasm self balance) self_id own =
  RelayCyclesProbeClient (IcCyclesProbeClient root' wasm self balance) self_id own.
Proof. reflexivity. Qed.

Section witness.
Import Concrete ConcreteTexts.
#[local] Instance concrete_ids : ProbeIds := {|
  thirteen_node_blackhole_canister_id := 100;
  fiduciary_blackhole_canister_id := 101;
  nns_root_id := 102;
|}.

Definition relay_client : CyclesProbeClient (H:=concrete_principal) unit :=
  RelayCyclesProbeClient (IcCyclesProbeClient None 103 7 5) 7 5.

(** The automatic probe of another canister succeeds directly. *)
Example probe_direct :
  (probe_cycles (C:=relay_client) Auto 8 None (quiet_env 0 0 0) (World tt [])).1 =
  Returned (Ok (MkSuccess _ 5000 (Some DirectCanisterStatus))).
Proof. reflexivity. Qed.

Lemma probe_cycles_confined_witness :
  exists res w', probe_cycles_for_audience (C:=relay_client) (FixedBlackhole 9) 8 None CurrentCaller
    (quiet_env 0 0 0) (World tt []) = (Returned res, w').
Proof.
  refine (match probe_cycles_confined relay_client (quiet_env 0 0 0) _ (FixedBlackhole 9) 8 None
                  CurrentCaller (World tt []) with
          | ex_intro _ res (ex_intro _ w' H) => ex_intro _ res (ex_intro _ w' (proj1 H)) end).
Defined.
End witness.
