(* ===== verification/Quiet.v ===== *)
(** * Code that keeps a property of the world

    The structural rules, a tactic that applies them, and the cycles probe: it keeps
    whatever each of its calls keeps. *)

From S2P Require Import Prelude BTree Async Ic Clients CyclesProbe.

(** ** The rules *)

Section keeps.
Context {St : Type} {Call : Type -> Type} (e : env St Call) (I : world St Call -> Prop).

Definition keeps {A} (m : async St Call A) : Prop := forall w, I w -> wp e m (fun _ w' => I w') w.

Lemma quiet_ret {A} (a : A) : keeps (mret a).
Proof. intros w Hw. by apply wp_ret. Qed.

Lemma keeps_bind {A B} (m : async St Call A) (f : A -> async St Call B) :
  keeps m -> (forall a, keeps (f a)) -> keeps (m ≫= f).
Proof. intros Hm Hf w Hw. apply wp_bind. eapply wp_mono; [by apply Hm|]. intros a w' Hw'. by apply Hf. Qed.

Lemma keeps_with_state {A} (f : St -> A) : keeps (with_state f).
Proof. intros w Hw. by apply wp_with_state. Qed.

Lemma keeps_now : keeps now.
Proof. intros w Hw. by apply wp_now. Qed.

End keeps.

Create HintDb keeps.
#[export] Hint Resolve quiet_ret keeps_with_state keeps_now : keeps.

(** One step through the code. *)
Ltac keeps_step :=
  lazymatch goal with
  | |- forall _, _ => intros ?
  | |- keeps _ _ (_ ≫= _) => first [solve [auto 2 with keeps nocore] | apply keeps_bind]
  | |- keeps _ _ (if ?b then _ else _) => destruct b eqn:?
  | |- keeps _ _ (match ?x with _ => _ end) => destruct x eqn:?
  | |- keeps _ _ _ => first [assumption | solve [auto with keeps]]
  end.
Ltac keeps := repeat keeps_step.

(** ** Probing *)

Section probing.
Context `{P : PrincipalSpec} `{O : !OrdSpec Principal} `{Ids : !ProbeIds} {St : Type}.
Context (e : env St SuiteCall) (I : world St SuiteCall -> Prop) (C : CyclesProbeClient St).

Class QuietProbe : Prop := {
  quiet_self : forall target, keeps e I (self_cycles target);
  quiet_status : forall target, keeps e I (direct_canister_status target);
  quiet_blackhole : forall probe target, keeps e I (blackhole_cycles probe target);
  quiet_nns_root : forall target, keeps e I (nns_root_cycles target);
  quiet_snses : keeps e I list_deployed_snses;
  quiet_controllers : forall target, keeps e I (canister_info_controllers target);
  quiet_canisters : forall root, keeps e I (CyclesProbe.list_sns_canisters root);
  quiet_sns_root : forall root target, keeps e I (sns_root_cycles root target);
  quiet_swap : forall swap, keeps e I (sns_swap_cycles swap);
}.

Context {Q : QuietProbe}.
#[local] Hint Resolve quiet_self quiet_status quiet_blackhole quiet_nns_root quiet_snses quiet_controllers
  quiet_canisters quiet_sns_root quiet_swap : keeps.

Lemma keeps_execute_route s target r audience : keeps e I (execute_route (C:=C) s target r audience).
Proof using Q. unfold execute_route. keeps. Qed.

Lemma keeps_try_route s target r audience skipped failed :
  (forall s, keeps e I (skipped s)) -> (forall s er, keeps e I (failed s er)) ->
  keeps e I (try_route (C:=C) s target r audience skipped failed).
Proof using Q. intros Hs Hf. unfold try_route. apply keeps_bind; [apply keeps_execute_route|]. keeps. Qed.

Lemma keeps_try_logged label s target r audience k :
  (forall s, keeps e I (k s)) -> keeps e I (try_logged (C:=C) label s target r audience k).
Proof using Q. intros Hk. unfold try_logged. by apply keeps_try_route; intros. Qed.

Lemma keeps_query_roots target roots : forall errs, keeps e I (query_roots (C:=C) target roots errs).
Proof using Q. induction roots as [|root roots IH]; intros errs; cbn [query_roots]; keeps; apply IH. Qed.

#[local] Hint Resolve keeps_execute_route keeps_query_roots : keeps.

Lemma keeps_discover_sns_route target controllers : keeps e I (discover_sns_route (C:=C) target controllers).
Proof using Q. unfold discover_sns_route, configured_route, registered_route. keeps. Qed.

Lemma keeps_try_blackholes target audience controllers ids : forall s k, (forall s, keeps e I (k s)) ->
  keeps e I (try_blackholes (C:=C) target audience controllers ids s k).
Proof using Q.
  induction ids as [|id ids IH]; intros s k Hk; cbn [try_blackholes]; [apply Hk|]. destruct (negb _); [by apply IH|].
  apply keeps_try_logged. intros s'. by apply IH.
Qed.

Lemma keeps_probe_sns s target audience controllers : keeps e I (probe_sns (C:=C) s target audience controllers).
Proof using Q.
  unfold probe_sns. apply keeps_bind; [apply keeps_discover_sns_route|]. intros r. destruct r as [[route|]|er]; keeps.
  apply keeps_try_route; keeps.
Qed.

Lemma keeps_probe_discovered s target audience : keeps e I (probe_discovered (C:=C) s target audience).
Proof using Q.
  unfold probe_discovered, discover_controllers. apply keeps_bind; [keeps|]. intros [s' controllers].
  unfold probe_controllers. cbn [fst snd]. destruct controllers as [c|]; [|apply keeps_probe_sns]. apply keeps_try_blackholes.
  intros s1. destruct (set_contains _ _); [|apply keeps_probe_sns]. apply keeps_try_logged. intros s2. apply keeps_probe_sns.
Qed.

Lemma keeps_probe_nns_root s policy target cached_route audience :
  keeps e I (probe_nns_root (C:=C) s policy target cached_route audience).
Proof using Q.
  assert (forall s, keeps e I (probe_policy (C:=C) s policy target cached_route audience)) as Hp.
  { intros s1. unfold probe_policy. destruct policy; [apply keeps_try_route; keeps|].
    destruct cached_route; [apply keeps_try_logged; intros s2|]; apply keeps_probe_discovered. }
  unfold probe_nns_root. destruct (_ && _); [apply keeps_try_logged; intros s1|]; apply Hp.
Qed.

Lemma keeps_probe policy target cached_route audience :
  keeps e I (probe_cycles_for_audience (C:=C) policy target cached_route audience).
Proof using Q.
  assert (forall s, keeps e I (probe_canonical (C:=C) s policy target cached_route audience)) as Hc.
  { intros s. unfold probe_canonical. destruct (is_production_blackhole_canister_id _); [|apply keeps_probe_nns_root].
    apply keeps_try_route; intros; [apply keeps_probe_nns_root|]. destruct policy; [keeps|apply keeps_probe_nns_root]. }
  unfold probe_cycles_for_audience. apply keeps_bind; [destruct audience; keeps|]. intros own.
  destruct own; [keeps|]. destruct (is_auto policy); [apply keeps_try_logged; intros s|]; apply Hc.
Qed.

End probing.
