(* ===== verification/TimerGuard.v ===== *)
(** * The timer lease guards of [crates/ic-clients/src/timer_guard.rs]

    A lease is an expiry timestamp stored in the canister state; the guard
    object remembers the expiry it installed.  The fenced guard adds an
    ownership generation. *)

From S2P Require Import Prelude.

Inductive LeaseFinish := Released | Unchanged.
#[export] Instance LeaseFinish_eq_dec : EqDecision LeaseFinish.
Proof. solve_decision. Defined.

Module Timer.

Record TimerLeaseGuard := MkGuard { active : bool; lease_expires_at_ts : Z }.

Definition acquire (now_secs lease_seconds : Z) (current : option Z) : option TimerLeaseGuard :=
  if now_secs <? default 0 current then None
  else Some {| active := true; lease_expires_at_ts := sat_add now_secs lease_seconds |}.

Definition is_active (g : TimerLeaseGuard) : bool := active g.

Definition release (g : TimerLeaseGuard) (current : option Z) : LeaseFinish * TimerLeaseGuard :=
  if negb (active g) then (Unchanged, g)
  else
    let g' := g <| active := false |> in
    if decide (current = Some (lease_expires_at_ts g)) then (Released, g') else (Unchanged, g').

Definition finish (g : TimerLeaseGuard) (current : option Z) : LeaseFinish :=
  (release g current).1.

End Timer.

Module Fenced.

Record FencedTimerLeaseGuard := MkFenced {
  active : bool; lease_expires_at_ts : Z; generation : Z }.

Definition acquire (now_secs lease_seconds : Z) (current : option Z)
    (current_generation : Z) (preempt_unexpired : bool) : option FencedTimerLeaseGuard :=
  if negb preempt_unexpired && (now_secs <? default 0 current) then None
  else
    match checked_add current_generation 1 with
    | Some g => Some {| active := true;
                        lease_expires_at_ts := sat_add now_secs lease_seconds;
                        generation := g |}
    | None => None
    end.

Definition owns (g : FencedTimerLeaseGuard) (current : option Z) (current_generation : Z) : bool :=
  active g && bool_decide (current = Some (lease_expires_at_ts g))
  && (current_generation =? generation g).

Definition release (g : FencedTimerLeaseGuard) (current : option Z) (current_generation : Z) :
    LeaseFinish * FencedTimerLeaseGuard :=
  if negb (active g) then (Unchanged, g)
  else
    let o := owns g current current_generation in
    let g' := g <| active := false |> in
    if o then (Released, g') else (Unchanged, g').

End Fenced.

(** ** Lemmas *)

Lemma timer_acquire_Some now lease cur g :
  Timer.acquire now lease cur = Some g ->
  default 0 cur <= now /\
  g = {| Timer.active := true; Timer.lease_expires_at_ts := sat_add now lease |}.
Proof. unfold Timer.acquire. case_match; intros [=]; subst. zify_bool. auto. Qed.

Lemma timer_release_active g cur :
  Timer.active (Timer.release g cur).2 = false.
Proof. unfold Timer.release. destruct g as [[] ts]; cbn; repeat case_match; done. Qed.

Lemma timer_release_Released g cur :
  (Timer.release g cur).1 = Released <->
  Timer.active g = true /\ cur = Some (Timer.lease_expires_at_ts g).
Proof. unfold Timer.release. destruct g as [[] ts]; cbn; repeat case_match; cbn; naive_solver. Qed.
