(* ===== verification/MemoPolicy.v ===== *)
(** * The memo directive policy of [crates/memo-policy]

    A staking transfer declares its target in an ASCII memo.  Memos and the
    pieces of their text are byte lists. *)

From S2P Require Import Prelude Ic.

Definition MAX_TARGET_CANISTER_MEMO_BYTES : Z := 32.
Definition MAX_NEURON_ID_MEMO_BYTES : Z := 20.

Definition EVENT_HORIZON_CANISTER_ID : list Z := bytes_of_string "eo6ei-gaaaa-aaaar-qchra-cai".

(** The embedded text of the Event Horizon canister decodes
    ([Principal::from_text(..).expect(..)] in the code). *)
Class EventHorizon `{PrincipalSpec} := {
  event_horizon : Principal;
  event_horizon_text : principal_from_text EVENT_HORIZON_CANISTER_ID = Some event_horizon;
}.

Section directive.
Context `{P : PrincipalSpec, EH : !EventHorizon}.

Inductive MemoDirective :=
| TopUp (canister_id : Principal)
| RawIcp (canister_id : Principal) (destination_subaccount : option (list Z)) (memo : list Z)
| NeuronStake (neuron_id : Z) (memo : option (list Z)).

#[global] Instance MemoDirective_eq_dec : EqDecision MemoDirective.
Proof. solve_decision. Defined.

(** Inserts ['-'] (45) before every fifth character, except the first. *)
Fixpoint insert_separators (idx : nat) (text : list Z) : list Z :=
  match text with
  | [] => []
  | ch :: text' =>
      (if (0 <? Z.of_nat idx) && (Z.of_nat idx mod 5 =? 0) then [45] else [])
      ++ ch :: insert_separators (S idx) text'
  end.

Definition principal_text_with_group_separators (text : list Z) : list Z :=
  if existsb (Z.eqb 45) text then text else insert_separators 0 text.

Definition parse_declared_principal_text (text : list Z) : option Principal :=
  let trimmed := trim text in
  if bool_decide (trimmed = []) || (MAX_TARGET_CANISTER_MEMO_BYTES <? Z.of_nat (length trimmed))
  then None
  else
    match principal_from_text (principal_text_with_group_separators trimmed) with
    | None => None
    | Some principal =>
        if bool_decide (principal = anonymous) || bool_decide (principal = management_canister)
        then None else Some principal
    end.

Definition parse_neuron_id_text (text : list Z) : option Z :=
  if bool_decide (text = []) || (MAX_NEURON_ID_MEMO_BYTES <? Z.of_nat (length text)) then None
  else if negb (forallb is_ascii_digit text) then None
  else
    match parse_u64 text with
    | None => None
    | Some neuron_id => then_some (negb (neuron_id =? 0)) neuron_id
    end.

Definition numbered_subaccount (number : Z) : option (list Z) :=
  if number =? 0 then None else Some (replicate 24 0 ++ to_be_bytes number).

Definition numbered_subaccount_number (subaccount : list Z) : result (option Z) unit :=
  if existsb (fun byte => negb (byte =? 0)) (take 24 subaccount) then Err tt
  else
    let number := from_be (drop 24 subaccount) in
    Ok (then_some (negb (number =? 0)) number).

Definition parse_numbered_subaccount_text (text : list Z) : option (option (list Z)) :=
  if bool_decide (text = []) || negb (forallb is_ascii_digit text) then None
  else match parse_u64 text with
       | None => None
       | Some n => Some (numbered_subaccount n)
       end.

Definition parse_raw_destination_text (text : list Z) : option (Principal * option (list Z)) :=
  let destination := trim text in
  match split_once 58 destination with
  | Some (owner_text, number_text) =>
      if bool_decide (owner_text = []) || bool_decide (number_text = [])
         || existsb (Z.eqb 58) number_text || existsb is_ascii_whitespace destination
      then None
      else match parse_declared_principal_text owner_text,
                 parse_numbered_subaccount_text number_text with
           | Some p, Some s => Some (p, s)
           | _, _ => None
           end
  | None =>
      match parse_declared_principal_text destination with
      | Some p => Some (p, None)
      | None => None
      end
  end.

Definition parse_memo_directive (memo : list Z) : option MemoDirective :=
  if bool_decide (memo = []) || (MAX_TARGET_CANISTER_MEMO_BYTES <? Z.of_nat (length memo))
     || negb (is_ascii memo)
  then None
  else
    match strip_prefix (bytes_of_string "E.") memo with
    | Some suffix =>
        if bool_decide (suffix = []) then None
        else Some (RawIcp event_horizon None suffix)
    | None =>
        let trimmed := trim memo in
        if bool_decide (trimmed = []) then None
        else
          match split_once 46 memo with
          | Some (declared_canister, raw_memo) =>
              match parse_neuron_id_text (trim declared_canister) with
              | Some neuron_id => Some (NeuronStake neuron_id (Some raw_memo))
              | None =>
                  match parse_raw_destination_text declared_canister with
                  | Some (canister_id, destination_subaccount) =>
                      Some (RawIcp canister_id destination_subaccount raw_memo)
                  | None => None
                  end
              end
          | None =>
              match parse_neuron_id_text trimmed with
              | Some neuron_id => Some (NeuronStake neuron_id None)
              | None =>
                  match parse_declared_principal_text memo with
                  | Some canister_id => Some (TopUp canister_id)
                  | None => None
                  end
              end
          end
    end.

Definition parse_target_canister_principal_from_memo (memo : list Z) : option Principal :=
  match parse_memo_directive memo with
  | Some (TopUp canister_id) => Some canister_id
  | Some (RawIcp canister_id _ _) => Some canister_id
  | Some (NeuronStake _ _) => None
  | None => None
  end.

(** What a well-formed directive is: the target is never a reserved
    principal, a destination subaccount is a numbered one, a neuron id is a
    non-zero u64. *)
Definition directive_ok (d : MemoDirective) : Prop :=
  match d with
  | TopUp c => c <> anonymous /\ c <> management_canister
  | RawIcp c s m =>
      (c = event_horizon \/ (c <> anonymous /\ c <> management_canister)) /\
      (forall s', s = Some s' -> exists n, 0 < n <= u64_max /\ numbered_subaccount n = Some s') /\
      Z.of_nat (length m) < MAX_TARGET_CANISTER_MEMO_BYTES
  | NeuronStake n m =>
      0 < n <= u64_max /\
      (forall m', m = Some m' -> Z.of_nat (length m') < MAX_TARGET_CANISTER_MEMO_BYTES)
  end.

(** ** Lemmas *)

Lemma parse_u64_digits_bound acc l v :
  0 <= acc <= u64_max -> parse_u64_digits acc l = Some v -> 0 <= v <= u64_max.
Proof.
  revert acc; induction l as [|b l IH]; intros acc Hacc; cbn; [by intros [= <-]|].
  destruct (is_ascii_digit b) eqn:Hb; [|done].
  unfold is_ascii_digit in Hb. zify_bool.
  destruct (checked_mul acc 10) as [a|] eqn:H1; [|done].
  destruct (checked_add a (b - 48)) as [a'|] eqn:H2; [|done].
  apply checked_mul_Some in H1. apply checked_add_Some in H2. apply IH. lia.
Qed.

Lemma parse_u64_bound l v : parse_u64 l = Some v -> 0 <= v <= u64_max.
Proof.
  unfold parse_u64. intros H.
  assert (forall l', parse_u64_digits 0 l' = Some v -> 0 <= v <= u64_max) as Hd
    by (intros l'; apply parse_u64_digits_bound; lia).
  repeat case_match; try done; eauto.
Qed.

Lemma parse_declared_principal_ok text p :
  parse_declared_principal_text text = Some p -> p <> anonymous /\ p <> management_canister.
Proof.
  unfold parse_declared_principal_text. intros H. repeat case_match; try done.
  simplify_eq. rewrite orb_false_iff, !bool_decide_eq_false in *. naive_solver.
Qed.

Lemma parse_neuron_id_ok text n : parse_neuron_id_text text = Some n -> 0 < n <= u64_max.
Proof.
  unfold parse_neuron_id_text, then_some. intros H. repeat case_match; try done; simplify_eq.
  zify_bool. match goal with H : parse_u64 _ = Some _ |- _ => apply parse_u64_bound in H end. lia.
Qed.

Lemma parse_numbered_ok text s :
  parse_numbered_subaccount_text text = Some (Some s) ->
  exists n, 0 < n <= u64_max /\ numbered_subaccount n = Some s.
Proof.
  unfold parse_numbered_subaccount_text. intros H. repeat case_match; try done; simplify_eq.
  match goal with H : parse_u64 _ = Some ?n |- _ => apply parse_u64_bound in H; exists n end.
  split; [|done]. unfold numbered_subaccount in *. case_match; [done|]. zify_bool. lia.
Qed.

Lemma parse_raw_destination_ok text p s :
  parse_raw_destination_text text = Some (p, s) ->
  (p <> anonymous /\ p <> management_canister) /\
  (forall s', s = Some s' -> exists n, 0 < n <= u64_max /\ numbered_subaccount n = Some s').
Proof.
  unfold parse_raw_destination_text. intros H. repeat case_match; try done; simplify_eq;
    (split; [by eapply parse_declared_principal_ok|]); intros s' ?; simplify_eq.
  by eapply parse_numbered_ok.
Qed.

Lemma split_once_length c l a b :
  split_once c l = Some (a, b) -> l = a ++ c :: b.
Proof.
  revert a; induction l as [|x l IH]; intros a; cbn; [done|].
  case_match; zify_bool; [intros [= <- <-]; by subst|].
  destruct (split_once c l) as [[a' b']|]; [|done]. intros [= <- <-]. cbn. f_equal. by apply IH.
Qed.


Lemma split_once_app c l r : Forall (fun b => b <> c) l -> split_once c (l ++ c :: r) = Some (l, r).
Proof.
  induction 1 as [|b l Hb _ IH]; cbn; [by rewrite Z.eqb_refl|].
  rewrite (proj2 (Z.eqb_neq b c) Hb). by rewrite IH.
Qed.

Lemma split_once_none c l : Forall (fun b => b <> c) l -> split_once c l = None.
Proof.
  induction 1 as [|b l Hb _ IH]; cbn; [done|]. rewrite (proj2 (Z.eqb_neq b c) Hb). by rewrite IH.
Qed.

Lemma trim_start_id l : Forall (fun b => is_whitespace b = false) l -> trim_start l = l.
Proof. intros H. destruct H as [|b l Hb _]; cbn; [done|]. by rewrite Hb. Qed.

Lemma trim_id l : Forall (fun b => is_whitespace b = false) l -> trim l = l.
Proof.
  intros H. unfold trim. rewrite (trim_start_id l) by done.
  rewrite trim_start_id by by apply Forall_reverse. apply reverse_involutive.
Qed.

Lemma digits_not_whitespace l :
  Forall (fun b => is_ascii_digit b = true) l -> Forall (fun b => is_whitespace b = false) l.
Proof.
  intros H. eapply Forall_impl; [exact H|]. intros b Hb. unfold is_ascii_digit, is_whitespace in *. zify_bool.
  apply orb_false_iff; split; [apply andb_false_iff|]; [right; apply Z.leb_gt|apply Z.eqb_neq]; lia.
Qed.

Lemma digits_not c l :
  (c < 48 \/ 57 < c) -> Forall (fun b => is_ascii_digit b = true) l -> Forall (fun b => b <> c) l.
Proof. intros Hc H. eapply Forall_impl; [exact H|]. intros b Hb. unfold is_ascii_digit in Hb. zify_bool. lia. Qed.

Lemma digits_ascii l : Forall (fun b => is_ascii_digit b = true) l -> is_ascii l = true.
Proof.
  intros H. unfold is_ascii. apply forallb_forall. intros b Hb%list_elem_of_In.
  rewrite Forall_forall in H. specialize (H b Hb). unfold is_ascii_digit in H. zify_bool.
  apply Z.ltb_lt. lia.
Qed.

Lemma is_ascii_app a b : is_ascii (a ++ b) = is_ascii a && is_ascii b.
Proof. unfold is_ascii. apply forallb_app. Qed.

Lemma forallb_digits l : Forall (fun b => is_ascii_digit b = true) l -> forallb is_ascii_digit l = true.
Proof. intros H. apply forallb_forall. intros b Hb%list_elem_of_In. by rewrite Forall_forall in H; apply H. Qed.

Lemma parse_neuron_id_decimal n :
  0 < n <= u64_max -> parse_neuron_id_text (u64_to_string n) = Some n.
Proof.
  intros Hn. unfold parse_neuron_id_text, u64_to_string.
  pose proof (dec_text_digits 20 n ltac:(lia)) as Hd.
  rewrite bool_decide_eq_false_2 by (apply dec_text_nonempty; lia).
  rewrite (proj2 (Z.ltb_ge _ _)) by (pose proof (length_dec_text 20 n); unfold MAX_NEURON_ID_MEMO_BYTES; lia).
  rewrite forallb_digits by done. cbn [orb negb].
  rewrite parse_u64_digit_text by (done || (apply dec_text_nonempty; lia)).
  rewrite dec_text_parse by (cbn; lia). unfold then_some.
  by rewrite (proj2 (Z.eqb_neq n 0)) by lia.
Qed.

(** A digit string never reads as the [E.] alias. *)
Lemma digits_no_alias l r :
  Forall (fun b => is_ascii_digit b = true) l -> l <> [] ->
  strip_prefix (bytes_of_string "E.") (l ++ r) = None.
Proof.
  intros H Hne. destruct H as [|b l Hb _]; [done|]. unfold is_ascii_digit in Hb. zify_bool.
  change (bytes_of_string "E.") with [69; 46]. cbn [app strip_prefix].
  by rewrite (proj2 (Z.eqb_neq 69 b)) by lia.
Qed.

(** The guards of [parse_memo_directive] hold. *)
Lemma memo_guard_false memo :
  memo <> [] -> Z.of_nat (length memo) <= 32 -> is_ascii memo = true ->
  bool_decide (memo = []) || (MAX_TARGET_CANISTER_MEMO_BYTES <? Z.of_nat (length memo))
  || negb (is_ascii memo) = false.
Proof.
  intros Hne Hl Ha. rewrite Ha, bool_decide_eq_false_2 by done. cbn.
  rewrite orb_false_r. apply Z.ltb_ge. unfold MAX_TARGET_CANISTER_MEMO_BYTES. lia.
Qed.

Lemma trim_start_first b l : is_whitespace b = false -> trim_start (b :: l) = b :: l.
Proof. intros H. cbn. by rewrite H. Qed.

Lemma trim_nonempty b l : is_whitespace b = false -> trim (b :: l) <> [].
Proof.
  intros H. unfold trim. rewrite trim_start_first by done. intros E.
  apply (f_equal reverse) in E. rewrite reverse_involutive, reverse_nil in E.
  rewrite reverse_cons in E. clear -E H.
  induction (reverse l) as [|c r IH]; cbn in E; [by rewrite H in E|].
  destruct (is_whitespace c); [by apply IH|done].
Qed.

(** ** Properties *)

(** The numbered-subaccount encoding round-trips: every non-zero u64 is
    encoded as 32 bytes that decode to it, number zero is the default account,
    and every 32-byte subaccount that decodes is the encoding of its number. *)
Theorem numbered_subaccount_roundtrip :
  (forall number, u64 number ->
     match numbered_subaccount number with
     | None => number = 0
     | Some s => length s = 32%nat /\ Forall byte_ok s /\
                 numbered_subaccount_number s = Ok (Some number)
     end) /\
  (forall s o, length s = 32%nat -> Forall byte_ok s ->
     numbered_subaccount_number s = Ok o ->
     match o with
     | None => s = replicate 32 0
     | Some n => u64 n /\ numbered_subaccount n = Some s
     end).
Proof.
  split.
  - intros n Hn. unfold numbered_subaccount. destruct (n =? 0) eqn:?; zify_bool; [done|].
    split; [by rewrite length_app, length_replicate; unfold to_be_bytes; rewrite length_be_bytes|].
    split; [apply Forall_app; split; [apply Forall_replicate; unfold byte_ok; lia|apply be_bytes_ok]|].
    unfold numbered_subaccount_number. rewrite take_app_length', drop_app_length' by done.
    cbn [existsb replicate Z.eqb negb orb].
    unfold to_be_bytes. rewrite from_be_bytes by ulia. unfold then_some.
    by rewrite (proj2 (Z.eqb_neq n 0)).
  - intros s o Hl Hb H. unfold numbered_subaccount_number in H. case_match; [done|].
    assert (take 24 s = replicate 24 0) as Ht.
    { apply list_eq_same_length with 24%nat; [by rewrite length_replicate|by rewrite length_take; lia|].
      intros i x y Hi Hx Hy. apply lookup_replicate in Hy as [-> _].
      destruct (decide (x = 0)) as [|Hne]; [done|]. exfalso.
      apply not_true_iff_false in H0. apply H0, existsb_exists. exists x. split.
      - apply list_elem_of_In. by eapply list_elem_of_lookup_2.
      - apply negb_true_iff. by apply Z.eqb_neq. }
    assert (length (drop 24 s) = 8%nat) as Hd by (rewrite length_drop; lia).
    assert (Forall byte_ok (drop 24 s)) as Hdb by by apply Forall_drop.
    pose proof (be_from_bytes (drop 24 s) Hdb) as Hr. rewrite Hd in Hr.
    pose proof (from_be_bound _ Hdb) as Hbd. rewrite Hd in Hbd. cbn in Hbd.
    destruct (from_be (drop 24 s) =? 0) eqn:Hz; cbn in H; simplify_eq; zify_bool.
    + rewrite <- (take_drop 24 s), Ht, <- Hr. by rewrite Hz.
    + split; [ulia|]. unfold numbered_subaccount.
      rewrite (proj2 (Z.eqb_neq _ _)) by done. unfold to_be_bytes.
      by rewrite Hr, <- Ht, take_drop.
Qed.

(** every accepted memo is a non-empty ASCII memo of at most 32 bytes and
    gives a well-formed directive: no reserved principal can be a target, a
    neuron id is a non-zero u64, a destination subaccount is a numbered one,
    and the embedded transfer memo is shorter than the declaration. *)
Theorem parse_memo_directive_ok memo d :
  parse_memo_directive memo = Some d ->
  directive_ok d /\ memo <> [] /\ Z.of_nat (length memo) <= 32 /\ is_ascii memo = true.
Proof.
  unfold parse_memo_directive. intros H.
  destruct (_ || negb (is_ascii memo)) eqn:G; [done|].
  rewrite !orb_false_iff, bool_decide_eq_false, negb_false_iff in G.
  destruct G as [[Hne Hl] Ha]. apply Z.ltb_ge in Hl. unfold MAX_TARGET_CANISTER_MEMO_BYTES in *.
  split; [|done].
  destruct (strip_prefix _ memo) as [suffix|] eqn:Hs.
  - apply strip_prefix_Some in Hs. case_bool_decide; [done|]. simplify_eq. cbn in *.
    unfold MAX_TARGET_CANISTER_MEMO_BYTES. repeat split; [by left|done|lia].
  - case_bool_decide; [done|].
    destruct (split_once 46 memo) as [[dc raw]|] eqn:Hd.
    + apply split_once_length in Hd. assert (Z.of_nat (length raw) < 32).
      { rewrite Hd, length_app in Hl. cbn in Hl. lia. }
      destruct (parse_neuron_id_text (trim dc)) as [n|] eqn:Hn.
      * apply parse_neuron_id_ok in Hn. simplify_eq. split; [done|]. by intros m' [= <-].
      * destruct (parse_raw_destination_text dc) as [[c sub]|] eqn:Hr; [|done].
        apply parse_raw_destination_ok in Hr as [Hc Hsub]. simplify_eq.
        repeat split; [by right|done|done].
    + destruct (parse_neuron_id_text (trim memo)) as [n|] eqn:Hn.
      * apply parse_neuron_id_ok in Hn. simplify_eq. by split.
      * destruct (parse_declared_principal_text memo) as [c|] eqn:Hc; [|done].
        simplify_eq. by apply parse_declared_principal_ok in Hc.
Qed.

(** printing a neuron id in decimal, alone or followed by a dot and a
    transfer memo, and parsing it back gives the neuron directive with the
    memo bytes preserved verbatim. *)
Theorem parse_memo_directive_neuron_roundtrip n m :
  0 < n <= u64_max -> is_ascii m = true ->
  Z.of_nat (length (u64_to_string n)) + 1 + Z.of_nat (length m) <= 32 ->
  parse_memo_directive (u64_to_string n) = Some (NeuronStake n None) /\
  parse_memo_directive (u64_to_string n ++ 46 :: m) = Some (NeuronStake n (Some m)).
Proof.
  intros Hn Hm Hl. pose proof (dec_text_digits 20 n ltac:(lia)) as Hd.
  assert (u64_to_string n <> []) as Hne by (apply dec_text_nonempty; lia).
  fold (u64_to_string n) in Hd.
  pose proof (digits_ascii _ Hd) as Ha. pose proof (trim_id _ (digits_not_whitespace _ Hd)) as Ht.
  pose proof (parse_neuron_id_decimal n Hn) as Hp.
  split; unfold parse_memo_directive; rewrite memo_guard_false.
  - rewrite <- (app_nil_r (u64_to_string n)) at 1. rewrite digits_no_alias by done.
    rewrite Ht, bool_decide_eq_false_2 by done.
    rewrite split_once_none by (apply digits_not; [lia|done]). by rewrite Hp.
  - done.
  - lia.
  - done.
  - rewrite digits_no_alias by done.
    rewrite bool_decide_eq_false_2.
    + rewrite split_once_app by (apply digits_not; [lia|done]). by rewrite Ht, Hp.
    + destruct (u64_to_string n) as [|b l]; [done|]. cbn [app].
      apply trim_nonempty. by apply digits_not_whitespace, Forall_inv in Hd.
  - by destruct (u64_to_string n).
  - rewrite length_app. cbn [length]. lia.
  - rewrite is_ascii_app, Ha. exact Hm.
Qed.

(** the [E.] alias is decided before every other form: it routes raw ICP
    to Event Horizon's default account with the suffix preserved exactly, and
    is rejected exactly when the suffix is empty or the memo is too long. *)
Theorem parse_memo_directive_alias suffix :
  is_ascii suffix = true ->
  parse_memo_directive (bytes_of_string "E." ++ suffix) =
  (if bool_decide (suffix = []) || (30 <? Z.of_nat (length suffix)) then None
   else Some (RawIcp event_horizon None suffix)).
Proof.
  intros Ha. unfold parse_memo_directive.
  rewrite (proj2 (strip_prefix_Some _ _ suffix) eq_refl).
  rewrite is_ascii_app, Ha, length_app, bool_decide_eq_false_2 by done.
  change (length (bytes_of_string "E.")) with 2%nat. change (is_ascii (bytes_of_string "E.")) with true.
  cbn [andb negb orb]. rewrite orb_false_r. unfold MAX_TARGET_CANISTER_MEMO_BYTES.
  replace (32 <? Z.of_nat (2 + length suffix)) with (30 <? Z.of_nat (length suffix))
    by (apply eq_true_iff_eq; rewrite !Z.ltb_lt; lia).
  destruct (30 <? Z.of_nat (length suffix)); [by rewrite orb_true_r|].
  rewrite orb_false_r. by case_bool_decide.
Qed.

End directive.

(** ** Witnesses *)

Section witnesses.
Import Concrete.

#[local] Instance concrete_event_horizon : EventHorizon := {
  event_horizon := 1000;
  event_horizon_text := eq_refl;
}.

Lemma parse_memo_directive_ok_witness :
  directive_ok (TopUp (P := concrete_principal) 7) /\ bytes_of_string "p7" <> [] /\
  Z.of_nat (length (bytes_of_string "p7")) <= 32 /\ is_ascii (bytes_of_string "p7") = true.
Proof. apply (parse_memo_directive_ok (bytes_of_string "p7") (TopUp (P := concrete_principal) 7)). reflexivity. Defined.

Lemma parse_memo_directive_neuron_roundtrip_witness :
  parse_memo_directive (u64_to_string 42) = Some (NeuronStake (P := concrete_principal) 42 None) /\
  parse_memo_directive (u64_to_string 42 ++ 46 :: bytes_of_string "vault.memo") =
    Some (NeuronStake (P := concrete_principal) 42 (Some (bytes_of_string "vault.memo"))).
Proof.
  apply (parse_memo_directive_neuron_roundtrip 42 (bytes_of_string "vault.memo"));
    [lia|reflexivity|by vm_compute].
Defined.

Lemma parse_memo_directive_alias_witness :
  parse_memo_directive (bytes_of_string "E." ++ bytes_of_string "suffix:1") =
  Some (RawIcp (P := concrete_principal) 1000 None (bytes_of_string "suffix:1")).
Proof.
  etransitivity; [apply (parse_memo_directive_alias (bytes_of_string "suffix:1")); reflexivity|].
  vm_compute. reflexivity.
Defined.

End witnesses.
