(* ===== verification/DisburserLogic.v ===== *)
(** * Disburser: payout mathematics and the rescue policy

    [canisters/disburser/src/logic.rs] (the gross split by neuron age and the
    payout planner) and [policy.rs] (the controller windows). *)

From S2P Require Import Prelude Ic.

Module Logic.

Definition SECS_PER_DAY : Z := 86400.
Definition SECS_PER_YEAR : Z := 365 * SECS_PER_DAY.
Definition MAX_AGE_FOR_BONUS_SECS : Z := 4 * SECS_PER_YEAR.
Definition BONUS_RECIPIENT_1_PCT : Z := 95.

Record GrossSplit := MkGrossSplit {
  base_e8s : Z;
  bonus_recipient_1_e8s : Z;
  bonus_recipient_2_e8s : Z;
}.

Definition age_multiplier_fraction (age_seconds : Z) : Z * Z :=
  let den := 16 * SECS_PER_YEAR in
  let bonus_secs := Z.min age_seconds MAX_AGE_FOR_BONUS_SECS in
  (den + bonus_secs, den).

Definition compute_gross_split (total_e8s age_seconds : Z) : GrossSplit :=
  if total_e8s =? 0 then MkGrossSplit 0 0 0
  else
    let '(num, den) := age_multiplier_fraction age_seconds in
    let base := as_u64 (total_e8s * den / num) in
    let bonus := sat_sub total_e8s base in
    let bonus1 := as_u64 (div_ceil (bonus * BONUS_RECIPIENT_1_PCT) 100) in
    let bonus2 := sat_sub bonus bonus1 in
    {| base_e8s := base; bonus_recipient_1_e8s := bonus1; bonus_recipient_2_e8s := bonus2 |}.

(** Memo layout (16 bytes): payout id, transfer index. *)
Definition build_memo (payout_id transfer_index : Z) : list Z :=
  to_be_bytes payout_id ++ to_be_bytes transfer_index.

Record Planned `{PrincipalSpec} := MkPlanned {
  p_to : Account;
  p_gross_share_e8s : Z;
  p_amount_e8s : Z;
  p_memo : list Z;
  p_created_at_time_nanos : Z;
}.

Section plan.
Context `{P : PrincipalSpec}.

(** The [push] closure of the planner, on the vector and the next index. *)
Definition push (payout_id created_at_base_nanos fee_e8s : Z)
    (acc : list Planned * Z) (dest : Account) (share : Z) : list Planned * Z :=
  let '(out, idx) := acc in
  if share <=? fee_e8s then (out, idx)
  else
    (out ++ [{| p_to := dest;
                p_gross_share_e8s := share;
                p_amount_e8s := share - fee_e8s;
                p_memo := build_memo payout_id idx;
                p_created_at_time_nanos := sat_add created_at_base_nanos idx |}],
     idx + 1).

Definition plan_payout_transfers
    (payout_id created_at_base_nanos staging_balance_e8s fee_e8s age_seconds : Z)
    (normal_to bonus1_to bonus2_to : Account) : GrossSplit * list Planned :=
  let gross := compute_gross_split staging_balance_e8s age_seconds in
  let step := push payout_id created_at_base_nanos fee_e8s in
  let acc := step ([], 0) normal_to (base_e8s gross) in
  let acc := step acc bonus1_to (bonus_recipient_1_e8s gross) in
  let acc := step acc bonus2_to (bonus_recipient_2_e8s gross) in
  (gross, acc.1).

End plan.
End Logic.

Module Policy.

Definition SECS_PER_DAY : Z := 86400.
Definition HEALTHY_WINDOW_SECS : Z := 7 * SECS_PER_DAY.
Definition BROKEN_WINDOW_SECS : Z := 14 * SECS_PER_DAY.
Definition BOOTSTRAP_RESCUE_WINDOW_SECS : Z := 14 * SECS_PER_DAY.

Definition desired_controllers `{PrincipalSpec} (now_secs : Z)
    (last_successful_transfer_ts : option Z) (self_id rescue_controller : Principal)
    : option (list Principal) :=
  match last_successful_transfer_ts with
  | None => None
  | Some last =>
      let age := sat_sub now_secs last in
      if age <=? HEALTHY_WINDOW_SECS then Some [self_id]
      else if BROKEN_WINDOW_SECS <? age then Some [rescue_controller; self_id]
      else None
  end.

Definition bootstrap_rescue_due (now_secs : Z)
    (autonomous_rescue_armed_since_ts last_successful_transfer_ts : option Z) : bool :=
  is_none last_successful_transfer_ts &&
  match autonomous_rescue_armed_since_ts with
  | Some armed_at => BOOTSTRAP_RESCUE_WINDOW_SECS <? sat_sub now_secs armed_at
  | None => false
  end.

End Policy.

Import Logic.

(** ** Lemmas on the split *)

Lemma age_multiplier_bounds age : 0 <= age ->
  let '(num, den) := age_multiplier_fraction age in
  0 < den /\ den <= num /\ 4 * num <= 5 * den.
Proof. intros H. cbn. unfold MAX_AGE_FOR_BONUS_SECS, SECS_PER_YEAR, SECS_PER_DAY. lia. Qed.

(** The three shares, without the casts and saturations, which never act on
    machine-width arguments. *)
Lemma compute_gross_split_unfold total age :
  u64 total -> 0 <= age ->
  let '(num, den) := age_multiplier_fraction age in
  let base := total * den / num in
  let bonus := total - base in
  let bonus1 := div_ceil (bonus * 95) 100 in
  compute_gross_split total age = MkGrossSplit base bonus1 (bonus - bonus1) /\
  0 <= base <= total /\ 0 <= bonus1 <= bonus.
Proof.
  intros Ht Ha. pose proof (age_multiplier_bounds age Ha) as Hb.
  unfold compute_gross_split. destruct (age_multiplier_fraction age) as [num den] eqn:E.
  destruct Hb as (Hd & Hdn & _). cbn zeta.
  assert (0 <= total * den / num <= total) as Hbase.
  { split; [apply Z.div_pos; ulia|]. apply Z.div_le_upper_bound; unia. }
  set (base := total * den / num) in *.
  pose proof (div_ceil_spec ((total - base) * 95) 100 ltac:(lia) ltac:(lia)) as Hc.
  set (b1 := div_ceil ((total - base) * 95) 100) in *.
  split; [|lia].
  destruct (total =? 0) eqn:E0; zify_bool.
  - assert (base = 0) by lia. assert (b1 = 0) by lia. f_equal; lia.
  - unfold BONUS_RECIPIENT_1_PCT.
    assert (as_u64 base = base) as -> by (apply as_u64_small; ulia).
    assert (sat_sub total base = total - base) as -> by ulia.
    fold b1. assert (as_u64 b1 = b1) as -> by (apply as_u64_small; ulia).
    f_equal. ulia.
Qed.

Lemma compute_gross_split_sum total age :
  u64 total -> 0 <= age ->
  let s := compute_gross_split total age in
  0 <= base_e8s s /\ 0 <= bonus_recipient_1_e8s s /\ 0 <= bonus_recipient_2_e8s s /\
  base_e8s s + bonus_recipient_1_e8s s + bonus_recipient_2_e8s s = total.
Proof.
  intros Ht Ha. pose proof (compute_gross_split_unfold total age Ht Ha) as H.
  destruct (age_multiplier_fraction age). destruct H as (-> & ? & ?). cbn. lia.
Qed.

(** The gross split of a staging balance conserves every e8: the three
    shares are machine integers that add up to the balance, the bonus part is
    at most one fifth of the balance (plus the rounding unit), and recipient 1
    gets its 95 percent of the bonus rounded up. *)
Theorem compute_gross_split_conserves (total age : Z) (Ht : u64 total) (Ha : u64 age) :
  let s := compute_gross_split total age in
  let bonus := total - base_e8s s in
  u64 (base_e8s s) /\ u64 (bonus_recipient_1_e8s s) /\ u64 (bonus_recipient_2_e8s s) /\
  base_e8s s + bonus_recipient_1_e8s s + bonus_recipient_2_e8s s = total /\
  5 * bonus < total + 5 /\
  95 * bonus <= 100 * bonus_recipient_1_e8s s < 95 * bonus + 100.
Proof.
  pose proof (compute_gross_split_unfold total age Ht ltac:(ulia)) as Hs.
  pose proof (age_multiplier_bounds age ltac:(ulia)) as Hm.
  destruct (age_multiplier_fraction age) as [num den]. cbn zeta in Hs.
  destruct Hs as (-> & Hb & Hb1). cbn.
  pose proof (mul_div_bounds total den num ltac:(lia) ltac:(unia)).
  pose proof (div_ceil_spec ((total - total * den / num) * 95) 100 ltac:(lia) ltac:(lia)).
  repeat split; try ulia. nia.
Qed.

Lemma compute_gross_split_conserves_witness :
  u64 1000 /\ u64 126144000 /\
  let s := compute_gross_split 1000 126144000 in
  base_e8s s + bonus_recipient_1_e8s s + bonus_recipient_2_e8s s = 1000.
Proof.
  split; [vm_compute; split; discriminate|]. split; [vm_compute; split; discriminate|].
  apply (compute_gross_split_conserves 1000 126144000); vm_compute; split; discriminate.
Defined.

(** An older neuron never pays a larger base share, and the age bonus
    saturates at four years. *)
Theorem compute_gross_split_age (total a b : Z) (Ht : u64 total) (Ha : 0 <= a) (Hab : a <= b) :
  base_e8s (compute_gross_split total b) <= base_e8s (compute_gross_split total a) /\
  (MAX_AGE_FOR_BONUS_SECS <= a -> compute_gross_split total b = compute_gross_split total a).
Proof.
  split.
  - pose proof (compute_gross_split_unfold total a Ht Ha) as Hsa.
    pose proof (compute_gross_split_unfold total b Ht ltac:(lia)) as Hsb.
    unfold age_multiplier_fraction in *. cbn zeta in *.
    destruct Hsa as (-> & _), Hsb as (-> & _). cbn [base_e8s].
    assert (0 < 16 * SECS_PER_YEAR) by (vm_compute; reflexivity).
    apply Z.div_le_compat_l; [unia|].
    unfold MAX_AGE_FOR_BONUS_SECS, SECS_PER_YEAR, SECS_PER_DAY in *. lia.
  - intros Hm. unfold compute_gross_split, age_multiplier_fraction.
    rewrite !Z.min_r by lia. reflexivity.
Qed.

Lemma compute_gross_split_age_witness :
  u64 1000 /\ base_e8s (compute_gross_split 1000 126144000) <= base_e8s (compute_gross_split 1000 5).
Proof.
  split; [vm_compute; split; discriminate|].
  apply (compute_gross_split_age 1000 5 126144000); vm_compute; try split; discriminate.
Defined.

(** ** Lemmas on the planner *)

Lemma build_memo_inj pid idx pid' idx' :
  u64 pid -> u64 idx -> u64 pid' -> u64 idx' ->
  build_memo pid idx = build_memo pid' idx' -> pid = pid' /\ idx = idx'.
Proof.
  intros H1 H2 H3 H4 E. unfold build_memo, to_be_bytes in E.
  apply app_inj_1 in E as [E1 E2]; [|by rewrite !length_be_bytes].
  split; eapply (be_bytes_inj 8); eauto; cbn; ulia.
Qed.

#[global] Arguments build_memo : simpl never.

Section planner.
Context `{P : PrincipalSpec}.

(** A planned transfer of payout [pid] at index [i]. *)
Definition planned_ok (pid base fee : Z) (i : nat) (p : Planned) : Prop :=
  fee < p_gross_share_e8s p /\ p_amount_e8s p = p_gross_share_e8s p - fee /\
  p_memo p = build_memo pid (Z.of_nat i) /\
  p_created_at_time_nanos p = sat_add base (Z.of_nat i).

Definition plan_ok (pid base fee : Z) (acc : list Planned * Z) : Prop :=
  acc.2 = Z.of_nat (length acc.1) /\ forall i p, acc.1 !! i = Some p -> planned_ok pid base fee i p.

Lemma push_spec pid base fee acc dest share :
  plan_ok pid base fee acc ->
  let acc' := push pid base fee acc dest share in
  plan_ok pid base fee acc' /\
  sumZ (map p_gross_share_e8s acc'.1) =
    sumZ (map p_gross_share_e8s acc.1) + (if share <=? fee then 0 else share) /\
  map p_to acc'.1 = map p_to acc.1 ++ (if share <=? fee then [] else [dest]).
Proof.
  destruct acc as [out idx]. intros [Hidx Hall]. cbn in Hidx, Hall. cbn.
  destruct (share <=? fee) eqn:E; zify_bool; cbn.
  - rewrite app_nil_r. split; [done|]. split; [lia|done].
  - rewrite !map_app, sumZ_app. cbn [map p_gross_share_e8s p_to].
    rewrite sumZ_cons, sumZ_nil. split; [|split; [lia|done]]. split; cbn [fst snd].
    + rewrite length_app. cbn. lia.
    + intros i p. rewrite lookup_app_Some. intros [Hi | [Hge Hi]]; [by apply Hall|].
      apply list_lookup_singleton_Some in Hi as [Hi <-].
      assert (idx = Z.of_nat i) as -> by lia. unfold planned_ok. cbn.
      split; [lia|]. done.
Qed.

Lemma plan_ok_nil pid base fee : plan_ok pid base fee ([], 0).
Proof. split; [done|]. intros i p. cbn. by rewrite lookup_nil. Qed.

(** The payouts the planner makes and those it leaves in staging. *)
Lemma plan_payout_transfers_spec pid base bal fee age n b1 b2 :
  let '(gross, planned) := plan_payout_transfers pid base bal fee age n b1 b2 in
  let keep s := if s <=? fee then 0 else s in
  let sent s (a : Account) := if s <=? fee then [] else [a] in
  gross = compute_gross_split bal age /\
  (forall i p, planned !! i = Some p -> planned_ok pid base fee i p) /\
  sumZ (map p_gross_share_e8s planned) =
    keep (base_e8s gross) + keep (bonus_recipient_1_e8s gross)
    + keep (bonus_recipient_2_e8s gross) /\
  map p_to planned =
    sent (base_e8s gross) n ++ sent (bonus_recipient_1_e8s gross) b1
    ++ sent (bonus_recipient_2_e8s gross) b2.
Proof.
  unfold plan_payout_transfers. set (g := compute_gross_split bal age). cbn zeta.
  destruct (push_spec pid base fee ([], 0) n (base_e8s g) (plan_ok_nil _ _ _)) as (H1 & S1 & T1).
  set (acc1 := push _ _ _ ([], 0) _ _) in *.
  destruct (push_spec pid base fee acc1 b1 (bonus_recipient_1_e8s g) H1) as (H2 & S2 & T2).
  set (acc2 := push _ _ _ acc1 _ _) in *.
  destruct (push_spec pid base fee acc2 b2 (bonus_recipient_2_e8s g) H2) as (H3 & S3 & T3).
  set (acc3 := push _ _ _ acc2 _ _) in *.
  split; [done|]. split; [apply H3|]. split.
  - rewrite S3, S2, S1. cbn [fst map]. rewrite sumZ_nil. repeat case_match; lia.
  - rewrite T3, T2, T1. cbn. by rewrite app_assoc.
Qed.

(** A payout plan moves at most the staging balance: every planned
    transfer has a positive amount equal to its gross share less the fee,
    amounts and fees together never exceed the balance, and what is left in
    staging is exactly the shares that do not cover the fee. *)
Theorem plan_payout_transfers_bounded (pid base bal fee age : Z) (n b1 b2 : Account)
    (Hbal : u64 bal) (Hfee : u64 fee) (Hage : u64 age) :
  let '(gross, planned) := plan_payout_transfers pid base bal fee age n b1 b2 in
  let left s := if s <=? fee then s else 0 in
  Forall (fun p => 0 < p_amount_e8s p /\ u64 (p_amount_e8s p)) planned /\
  sumZ (map p_amount_e8s planned) + fee * Z.of_nat (length planned)
    + (left (base_e8s gross) + left (bonus_recipient_1_e8s gross)
       + left (bonus_recipient_2_e8s gross)) = bal.
Proof.
  pose proof (plan_payout_transfers_spec pid base bal fee age n b1 b2) as Hs.
  destruct (plan_payout_transfers pid base bal fee age n b1 b2) as [g pl].
  destruct Hs as (-> & Hall & Hsum & _). cbn zeta in *.
  pose proof (compute_gross_split_sum bal age Hbal ltac:(ulia)) as Hg. cbn zeta in Hg.
  assert (sumZ (map p_gross_share_e8s pl)
          = sumZ (map p_amount_e8s pl) + fee * Z.of_nat (length pl)) as Hnet.
  { clear Hsum. assert (forall p, p ∈ pl -> p_amount_e8s p = p_gross_share_e8s p - fee) as Hp.
    { intros p [i Hi]%list_elem_of_lookup. apply (Hall i p Hi). }
    clear Hall. induction pl as [|p pl IH]; [cbn; lia|].
    pose proof (Hp p ltac:(left)). cbn [map length]. rewrite !sumZ_cons, IH; [lia|].
    intros q Hq. apply Hp. by right. }
  split.
  - apply Forall_lookup. intros i p Hi. destruct (Hall i p Hi) as (Hlt & Ha & _).
    assert (p_gross_share_e8s p <= sumZ (map p_gross_share_e8s pl)) as Hle.
    { apply (sumZ_map_ge p_gross_share_e8s); [|by eapply list_elem_of_lookup_2].
      apply Forall_lookup. intros j q Hq. destruct (Hall j q Hq). ulia. }
    rewrite Hsum in Hle. repeat case_match; ulia.
  - rewrite <- Hnet, Hsum. repeat case_match; ulia.
Qed.

(** The transfers of a plan have pairwise distinct ledger identities:
    distinct transfer indices of the same or of different payouts have
    distinct memos, and index [i] is stamped [i] nanoseconds after the base. *)
Theorem plan_payout_transfers_identities (pid pid' base base' bal bal' fee fee' age age' : Z)
    (n b1 b2 : Account) (i j : nat) (p q : Planned)
    (Hpid : u64 pid) (Hpid' : u64 pid')
    (Hp : (plan_payout_transfers pid base bal fee age n b1 b2).2 !! i = Some p)
    (Hq : (plan_payout_transfers pid' base' bal' fee' age' n b1 b2).2 !! j = Some q) :
  (p_memo p = p_memo q <-> pid = pid' /\ i = j) /\
  p_created_at_time_nanos p = sat_add base (Z.of_nat i).
Proof.
  pose proof (plan_payout_transfers_spec pid base bal fee age n b1 b2) as Hs.
  pose proof (plan_payout_transfers_spec pid' base' bal' fee' age' n b1 b2) as Hs'.
  destruct (plan_payout_transfers pid base bal fee age n b1 b2) as [g pl].
  destruct (plan_payout_transfers pid' base' bal' fee' age' n b1 b2) as [g' pl'].
  destruct Hs as (_ & Hall & _ & Ht), Hs' as (_ & Hall' & _ & Ht'). cbn in Hp, Hq.
  destruct (Hall i p Hp) as (_ & _ & Hm & Hc), (Hall' j q Hq) as (_ & _ & Hm' & _).
  assert (forall k (r : Planned) l s, l !! k = Some r ->
            map p_to l = s -> (length s <= 3)%nat -> u64 (Z.of_nat k)) as Hsmall.
  { intros k r l s Hk <- Hlen. apply lookup_lt_Some in Hk. rewrite length_map in Hlen.
    split; lia. }
  assert (u64 (Z.of_nat i)) by (eapply Hsmall; eauto; repeat case_match; cbn; lia).
  assert (u64 (Z.of_nat j)) by (eapply Hsmall; eauto; repeat case_match; cbn; lia).
  split; [|done]. rewrite Hm, Hm'. split.
  - intros E. apply build_memo_inj in E as [-> E]; try done. split; [done|lia].
  - by intros [-> ->].
Qed.

End planner.

Section planner_witness.
Import Concrete.
Let acct (k : Z) : Account (H:=concrete_principal) := MkAccount concrete_principal k None.

Lemma plan_payout_transfers_bounded_witness :
  sumZ (map p_amount_e8s (plan_payout_transfers (P:=concrete_principal) 1 5 1000000 10000 126144000
     (acct 1) (acct 2) (acct 3)).2) + 10000 * 2
  + (0 + 0 + bonus_recipient_2_e8s (compute_gross_split 1000000 126144000)) = 1000000.
Proof.
  refine (proj2 (plan_payout_transfers_bounded (P:=concrete_principal) 1 5 1000000 10000 126144000
     (acct 1) (acct 2) (acct 3) _ _ _)); vm_compute; split; discriminate.
Defined.

Lemma plan_payout_transfers_identities_witness :
  exists p q,
  (plan_payout_transfers (P:=concrete_principal) 1 5 1000000 10000 0 (acct 1) (acct 2) (acct 3)).2 !! 0%nat
     = Some p /\
  (plan_payout_transfers (P:=concrete_principal) 2 9 1000000 10000 0 (acct 1) (acct 2) (acct 3)).2 !! 0%nat
     = Some q /\ (p_memo p = p_memo q <-> 1 = 2 /\ 0%nat = 0%nat).
Proof.
  eexists _, _. split; [reflexivity|]. split; [reflexivity|].
  refine (proj1 (plan_payout_transfers_identities (P:=concrete_principal) 1 2 5 9 1000000 1000000
    10000 10000 0 0 (acct 1) (acct 2) (acct 3) 0 0 _ _ _ _ eq_refl eq_refl));
    vm_compute; split; discriminate.
Defined.

End planner_witness.

(** ** The rescue windows *)

(** The controller policy is a function of the time since the last
    successful transfer: within seven days only the canister itself, after
    fourteen days exactly the rescue controller and itself, no change in
    between or before any success; and a policy answer never drops the
    canister's own control. *)
Theorem desired_controllers_windows `{PrincipalSpec} (now : Z) (last : option Z)
    (self_id rescue : Principal) :
  (Policy.desired_controllers now last self_id rescue = Some [self_id] <->
     exists t, last = Some t /\ now - t <= 7 * 86400) /\
  (Policy.desired_controllers now last self_id rescue = Some [rescue; self_id] <->
     exists t, last = Some t /\ 14 * 86400 < now - t) /\
  (forall l, Policy.desired_controllers now last self_id rescue = Some l ->
     self_id ∈ l /\ Policy.bootstrap_rescue_due now (Some 0) last = false).
Proof.
  unfold Policy.desired_controllers, Policy.bootstrap_rescue_due,
    Policy.HEALTHY_WINDOW_SECS, Policy.BROKEN_WINDOW_SECS, Policy.SECS_PER_DAY.
  destruct last as [t|]; cbn; [|naive_solver].
  destruct (sat_sub now t <=? 7 * 86400) eqn:E1.
  - zify_bool. repeat split; try (intros [=]; eexists; split; [done|ulia]); try done.
    + intros (? & [=<-] & ?). exfalso. ulia.
    + injection H0 as <-. set_solver.
  - destruct (14 * 86400 <? sat_sub now t) eqn:E2; zify_bool;
      (repeat split; try (intros [=]; eexists; split; [done|ulia]); try done);
      try (intros (? & [=<-] & ?); exfalso; ulia).
    injection H0 as <-. set_solver.
Qed.
