(* ===== verification/DisburserState.v ===== *)
(** * Disburser: state, lifecycle and the main lease

    [canisters/disburser/src/state.rs], [lib.rs] and [MainGuard] of
    [scheduler/tick.rs].  [Heap] is the canister's memory: the persisted
    [State] (every [with_state_mut] writes the stable cell, so the stable
    copy is the heap copy), the thread-local cells, and the timers that have
    been set. *)

From S2P Require Import Prelude Async Ic Clients TimerGuard.

Section state.
Context `{A : AccountSpec}.

Record Config := MkConfig {
  neuron_id : Z;
  normal_recipient : Account;
  age_bonus_recipient_1 : Account;
  age_bonus_recipient_2 : Account;
  ledger_canister_id : Principal;
  governance_canister_id : Principal;
  rescue_controller : Principal;
  autonomous_rescue_armed : option bool;
  main_interval_seconds : Z;
  rescue_interval_seconds : Z;
}.

Inductive TransferStatus := Pending | Sent (block_index : string).

Record PlannedTransfer := MkPlannedTransfer {
  pt_to : Account;
  gross_share_e8s : Z;
  amount_e8s : Z;
  created_at_time_nanos : Z;
  pt_memo : list Z;
  status : TransferStatus;
}.

Record PayoutPlan := MkPayoutPlan {
  plan_id : Z;
  fee_e8s : Z;
  created_at_base_nanos : Z;
  transfers : list PlannedTransfer;
}.

Inductive ForcedRescueReason := BootstrapNoSuccess.

Record State := MkState {
  config : Config;
  prev_age_seconds : Z;
  last_successful_transfer_ts : option Z;
  last_rescue_check_ts : Z;
  rescue_triggered : bool;
  autonomous_rescue_armed_since_ts : option Z;
  forced_rescue_reason : option ForcedRescueReason;
  main_lock_state_ts : option Z;
  payout_nonce : Z;
  payout_plan : option PayoutPlan;
  last_main_run_ts : Z;
}.

Definition State_new (cfg : Config) (now_secs : Z) : State := {|
  config := cfg;
  prev_age_seconds := 0;
  last_successful_transfer_ts := None;
  last_rescue_check_ts := 0;
  rescue_triggered := false;
  autonomous_rescue_armed_since_ts :=
    then_some (default false (autonomous_rescue_armed cfg)) now_secs;
  forced_rescue_reason := None;
  main_lock_state_ts := Some 0;
  payout_nonce := 1;
  payout_plan := None;
  last_main_run_ts := sat_sub now_secs (10 * 365 * 24 * 60 * 60);
|}.

Record PokeRuntimeState := MkPoke {
  due_at_ns : option Z;
  timer_pending : bool;
  next_attempt_allowed_at_ns : Z;
}.

(** The callbacks handed to [ic_cdk_timers]. *)
Inductive TimerTask :=
| MainInterval (seconds : Z)
| RescueInterval (seconds : Z)
| ResumeMain (delay_seconds : Z)
| RescueReconcile (delay_seconds : Z)
| MainRetry (reservation delay_seconds : Z)
| DeferredPoke (delay_ns : Z).

Record Heap := MkHeap {
  st : State;
  scheduled_main_retry_pending : option Z;
  main_run_marker : Z;
  poke_runtime : PokeRuntimeState;
  timers : list TimerTask;
}.

(** Derived [PartialEq]; the accounts are compared by their crate's equality. *)
Definition TransferStatus_eqb (a b : TransferStatus) : bool :=
  match a, b with
  | Pending, Pending => true
  | Sent x, Sent y => bool_decide (x = y)
  | _, _ => false
  end.
Definition PlannedTransfer_eqb (a b : PlannedTransfer) : bool :=
  account_eqb (pt_to a) (pt_to b) && (gross_share_e8s a =? gross_share_e8s b)
  && (amount_e8s a =? amount_e8s b) && (created_at_time_nanos a =? created_at_time_nanos b)
  && bool_decide (pt_memo a = pt_memo b) && TransferStatus_eqb (status a) (status b).
Fixpoint list_eqb {X} (eqb : X -> X -> bool) (l k : list X) : bool :=
  match l, k with
  | [], [] => true
  | x :: l', y :: k' => eqb x y && list_eqb eqb l' k'
  | _, _ => false
  end.
Definition PayoutPlan_eqb (a b : PayoutPlan) : bool :=
  (plan_id a =? plan_id b) && (fee_e8s a =? fee_e8s b)
  && (created_at_base_nanos a =? created_at_base_nanos b)
  && list_eqb PlannedTransfer_eqb (transfers a) (transfers b).
Definition plan_opt_eqb (a b : option PayoutPlan) : bool :=
  match a, b with
  | None, None => true
  | Some x, Some y => PayoutPlan_eqb x y
  | _, _ => false
  end.

(** ** Lifecycle ([lib.rs]) *)

Record InitArgs := MkInitArgs {
  i_neuron_id : Z;
  i_normal_recipient : Account;
  i_age_bonus_recipient_1 : Account;
  i_age_bonus_recipient_2 : Account;
  i_ledger_canister_id : option Principal;
  i_governance_canister_id : option Principal;
  i_rescue_controller : Principal;
  i_autonomous_rescue_armed : option bool;
  i_main_interval_seconds : option Z;
  i_rescue_interval_seconds : option Z;
}.
Record UpgradeArgs := MkUpgradeArgs {
  u_autonomous_rescue_armed : option bool;
  u_clear_forced_rescue : option bool;
}.
Record PostUpgradeActions := MkActions { schedule_immediate_controller_reconcile : bool }.

Definition staging_account (self_id : Principal) : Account := MkAccount _ self_id None.

(** [false] when one of the assertions of the source panics. *)
Definition validate_config (self_id : Principal) (cfg : Config) : bool :=
  let non_anonymous p := negb (bool_decide (p = anonymous)) in
  let distinct a b := negb (account_eqb a b) in
  let staging := staging_account self_id in
  negb (neuron_id cfg =? 0)
  && non_anonymous (ledger_canister_id cfg)
  && non_anonymous (governance_canister_id cfg)
  && non_anonymous (rescue_controller cfg)
  && negb (bool_decide (rescue_controller cfg = self_id))
  && (0 <? main_interval_seconds cfg)
  && (0 <? rescue_interval_seconds cfg)
  && non_anonymous (owner (normal_recipient cfg))
  && non_anonymous (owner (age_bonus_recipient_1 cfg))
  && non_anonymous (owner (age_bonus_recipient_2 cfg))
  && distinct (normal_recipient cfg) staging
  && distinct (age_bonus_recipient_1 cfg) staging
  && distinct (age_bonus_recipient_2 cfg) staging
  && distinct (normal_recipient cfg) (age_bonus_recipient_1 cfg)
  && distinct (normal_recipient cfg) (age_bonus_recipient_2 cfg)
  && distinct (age_bonus_recipient_1 cfg) (age_bonus_recipient_2 cfg).

(** The freshly installed canister: its thread-local cells have their initial
    values and no timer is set. *)
Definition fresh_heap (s : State) : Heap := {|
  st := s;
  scheduled_main_retry_pending := None;
  main_run_marker := 0;
  poke_runtime := MkPoke None false 0;
  timers := [];
|}.

Definition install_timers (h : Heap) : Heap :=
  let c := config (st h) in
  h <| timers ::= (fun ts => ts ++
    [MainInterval (Z.max (main_interval_seconds c) 60);
     RescueInterval (Z.max (rescue_interval_seconds c) 60)]) |>.

Definition schedule_immediate_resume_if_needed (h : Heap) : Heap :=
  if is_some (payout_plan (st h)) then h <| timers ::= (fun ts => ts ++ [ResumeMain 1]) |> else h.

Definition schedule_immediate_rescue_reconcile (h : Heap) : Heap :=
  h <| timers ::= (fun ts => ts ++ [RescueReconcile 1]) |>.

(** [None] is a trap: the message has no effect. *)
Definition init (mainnet_ledger_id mainnet_governance_id self_id : Principal)
    (now_nanos : Z) (args : InitArgs) : option Heap :=
  let now_secs := now_nanos / 1000000000 in
  let cfg := {|
    neuron_id := i_neuron_id args;
    normal_recipient := i_normal_recipient args;
    age_bonus_recipient_1 := i_age_bonus_recipient_1 args;
    age_bonus_recipient_2 := i_age_bonus_recipient_2 args;
    ledger_canister_id := default mainnet_ledger_id (i_ledger_canister_id args);
    governance_canister_id := default mainnet_governance_id (i_governance_canister_id args);
    rescue_controller := i_rescue_controller args;
    autonomous_rescue_armed := i_autonomous_rescue_armed args;
    main_interval_seconds := default 86400 (i_main_interval_seconds args);
    rescue_interval_seconds := default 86400 (i_rescue_interval_seconds args) |} in
  if validate_config self_id cfg
  then Some (install_timers (fresh_heap (State_new cfg now_secs)))
  else None.

(** The two guarded blocks of [apply_upgrade_args_to_state]. *)
Definition apply_armed (s : State) (armed : bool) (now_secs : Z) : State :=
  let s := s <| config ::= (fun c => c <| autonomous_rescue_armed := Some armed |>) |>
             <| autonomous_rescue_armed_since_ts := if armed then Some now_secs else None |> in
  if armed then s else s <| rescue_triggered := false |>.

Definition apply_clear_forced_rescue (s : State) (now_secs : Z) : State * PostUpgradeActions :=
  let s := s <| forced_rescue_reason := None |> in
  if default false (autonomous_rescue_armed (config s))
  then (s <| autonomous_rescue_armed_since_ts := Some now_secs |> <| rescue_triggered := true |>,
        MkActions true)
  else (s <| autonomous_rescue_armed_since_ts := None |> <| rescue_triggered := false |>,
        MkActions false).

Definition apply_upgrade_args_to_state (self_id : Principal) (s : State)
    (args : option UpgradeArgs) (now_secs : Z) : option (State * PostUpgradeActions) :=
  let '(s, actions) :=
    match args with
    | None => (s, MkActions false)
    | Some a =>
        let s := match u_autonomous_rescue_armed a with
                 | Some armed => apply_armed s armed now_secs
                 | None => s
                 end in
        if default false (u_clear_forced_rescue a)
        then apply_clear_forced_rescue s now_secs
        else (s, MkActions false)
    end in
  if validate_config self_id (config s)
  then Some (s <| main_lock_state_ts := Some 0 |>, actions)
  else None.

(** The stable cell is [None] before the first [init]. *)
Definition post_upgrade (self_id : Principal) (stable : option State) (now_nanos : Z)
    (args : option UpgradeArgs) : option Heap :=
  match stable with
  | None => None
  | Some s =>
      match apply_upgrade_args_to_state self_id s args (now_nanos / 1000000000) with
      | None => None
      | Some (s', actions) =>
          let h := schedule_immediate_resume_if_needed (install_timers (fresh_heap s')) in
          Some (if schedule_immediate_controller_reconcile actions
                then schedule_immediate_rescue_reconcile h else h)
      end
  end.

(** ** The Event Horizon entry point *)

Inductive EventHorizonPokeTarget := Subaccount (n : Z) | NeuronNonce (n : Z).
Record EventHorizonPokeMatch := MkMatch {
  subject : Principal;
  target : EventHorizonPokeTarget;
  first_block_index : Z;
  max_amount : Z;
}.

Definition EVENT_HORIZON_CALLER_WHITELIST : list (list Z) := [[0; 0; 0; 0; 2; 48; 17; 226; 1; 1]].

Definition event_horizon_caller_is_whitelisted (caller : Principal) : bool :=
  existsb (fun allowed => bool_decide (principal_as_slice caller = allowed))
    EVENT_HORIZON_CALLER_WHITELIST.

Definition guard_event_horizon_caller (caller : Principal) : result unit string :=
  if event_horizon_caller_is_whitelisted caller then Ok tt
  else Err "caller is not Event Horizon"%string.

Definition has_relevant_event_horizon_match (matches : list EventHorizonPokeMatch)
    (self : Principal) : bool :=
  existsb (fun item => bool_decide (subject item = self)
                       && match target item with Subaccount 0 => true | _ => false end) matches.

(** ** The main lease ([MainGuard] of [scheduler/tick.rs]) *)

Definition MAIN_TICK_LEASE_SECONDS : Z := 15 * 60.

Record MainGuard := MkMainGuard { inner : Timer.TimerLeaseGuard }.

Local Abbreviation async := (async Heap SuiteCall).

(** The expiry test of [is_current] at time [now_secs] in state [s]. *)
Definition guard_current (g : MainGuard) (now_secs : Z) (s : State) : bool :=
  Timer.is_active (inner g)
  && (now_secs <? Timer.lease_expires_at_ts (inner g))
  && bool_decide (main_lock_state_ts s = Some (Timer.lease_expires_at_ts (inner g))).

Definition is_current (g : MainGuard) : async bool :=
  t ← now;
  with_state (fun h => guard_current g (t / 1000000000) (st h)).

Definition acquire_state (now_secs : Z) (s : State) : option MainGuard * State :=
  match Timer.acquire now_secs MAIN_TICK_LEASE_SECONDS (main_lock_state_ts s) with
  | None => (None, s)
  | Some i =>
      (Some (MkMainGuard i), s <| main_lock_state_ts := Some (Timer.lease_expires_at_ts i) |>)
  end.

Definition acquire (now_secs : Z) : async (option MainGuard) :=
  with_state_mut (fun h =>
    let '(g, s) := acquire_state now_secs (st h) in (g, h <| st := s |>)).

(** [release], which [Drop] calls; the guard object is gone afterwards. *)
Definition release_state (g : MainGuard) (s : State) : State :=
  if negb (Timer.is_active (inner g)) then s
  else
    match (Timer.release (inner g) (main_lock_state_ts s)).1 with
    | Released => s <| main_lock_state_ts := Some 0 |>
    | Unchanged => s
    end.

Definition drop_guard (g : MainGuard) : async unit :=
  modify (fun h => h <| st ::= release_state g |>).

End state.


(** ** The lease protocol *)

Section lease.
Context `{A : AccountSpec}.

(** The canister clock (in seconds), its state, and the guard objects that
    are alive in suspended handlers. *)
Record LeaseWorld := LW { lw_clock : Z; lw_state : State; lw_guards : list MainGuard }.

(** Time passes; a handler acquires or drops a guard ([finish] also drops it);
    other code leaves the lock alone; an upgrade ends every suspended handler. *)
Inductive lease_step : LeaseWorld -> LeaseWorld -> Prop :=
| lease_tick c c' s gs : c <= c' -> lease_step (LW c s gs) (LW c' s gs)
| lease_acquire c s gs g s' :
    acquire_state c s = (Some g, s') -> lease_step (LW c s gs) (LW c s' (g :: gs))
| lease_drop c s g l1 l2 :
    lease_step (LW c s (l1 ++ g :: l2)) (LW c (release_state g s) (l1 ++ l2))
| lease_other c s s' gs :
    main_lock_state_ts s' = main_lock_state_ts s -> lease_step (LW c s gs) (LW c s' gs)
| lease_upgrade c s gs self_id args s' actions :
    apply_upgrade_args_to_state self_id s args c = Some (s', actions) ->
    lease_step (LW c s gs) (LW c s' []).

Definition expiry (g : MainGuard) : Z := Timer.lease_expires_at_ts (inner g).
Definition unexpired (c : Z) (g : MainGuard) : bool := c <? expiry g.

(** An unexpired guard owns the stored lock, and there is at most one. *)
Definition lease_inv (lw : LeaseWorld) : Prop :=
  Forall (fun g => unexpired (lw_clock lw) g = true ->
            main_lock_state_ts (lw_state lw) = Some (expiry g)) (lw_guards lw) /\
  (count (unexpired (lw_clock lw)) (lw_guards lw) <= 1)%nat.

Lemma acquire_state_Some c s g s' :
  acquire_state c s = (Some g, s') ->
  default 0 (main_lock_state_ts s) <= c /\
  g = MkMainGuard (Timer.MkGuard true (sat_add c MAIN_TICK_LEASE_SECONDS)) /\
  s' = s <| main_lock_state_ts := Some (expiry g) |>.
Proof.
  unfold acquire_state. destruct (Timer.acquire _ _ _) as [i|] eqn:E; [|done].
  intros [= <- <-]. apply timer_acquire_Some in E as [? ->]. done.
Qed.

Lemma release_state_lock g s :
  main_lock_state_ts (release_state g s) = main_lock_state_ts s \/
  main_lock_state_ts s = Some (expiry g).
Proof.
  unfold release_state. destruct (Timer.is_active (inner g)) eqn:Ha; cbn; [|by left].
  destruct (Timer.release _ _).1 eqn:E; [|by left].
  apply timer_release_Released in E as [_ E]. by right.
Qed.

Lemma lease_inv_acquire c s gs g s' :
  lease_inv (LW c s gs) -> acquire_state c s = (Some g, s') -> lease_inv (LW c s' (g :: gs)).
Proof.
  intros [Hown Hone] (Hc & _ & ->)%acquire_state_Some. cbn in *.
  assert (Forall (fun g => unexpired c g = false) gs) as Hexp.
  { eapply Forall_impl; [exact Hown|]. cbn. intros g' Hg.
    destruct (unexpired c g') eqn:E; [|done]. rewrite (Hg eq_refl) in Hc. cbn in Hc.
    unfold unexpired in E. zify_bool. lia. }
  split; cbn.
  - constructor; [done|]. eapply Forall_impl; [exact Hexp|]. cbn. by intros g' ->.
  - rewrite (count_zero _ gs) by done. destruct (unexpired c g); lia.
Qed.

Lemma lease_inv_drop c s g l1 l2 :
  lease_inv (LW c s (l1 ++ g :: l2)) -> lease_inv (LW c (release_state g s) (l1 ++ l2)).
Proof.
  intros [Hown Hone]. cbn in *. rewrite count_app in Hone. cbn in Hone.
  assert (forall g', g' ∈ l1 ++ l2 -> unexpired c g' = true ->
            main_lock_state_ts s = Some (expiry g')) as Hown'.
  { intros g' Hg'. rewrite Forall_forall in Hown. apply Hown. set_solver. }
  split; cbn; [|rewrite count_app; lia]. apply Forall_forall. intros g' Hin Hu.
  specialize (Hown' g' Hin Hu). destruct (release_state_lock g s) as [->|Hl]; [done|].
  exfalso. rewrite Hl in Hown'. injection Hown' as Hg.
  assert (unexpired c g = true) as Hgu by (unfold unexpired; by rewrite Hg).
  pose proof (count_elem _ _ _ Hin Hu) as Hpos. rewrite count_app in Hpos.
  rewrite Hgu in Hone. lia.
Qed.

Lemma lease_inv_step lw lw' : lease_inv lw -> lease_step lw lw' -> lease_inv lw'.
Proof.
  intros Hinv Hstep. destruct Hstep as [c c' s gs Hc|c s gs g s' Ha|c s g l1 l2|c s s' gs E|].
  - destruct Hinv as [Hown Hone]. cbn in *.
    assert (forall g, unexpired c' g = true -> unexpired c g = true) as Hm
      by (unfold unexpired; intros g ?; apply Z.ltb_lt; ulia).
    split; cbn; [eapply Forall_impl; [exact Hown|]; cbn; auto|].
    etrans; [apply (count_mono _ (unexpired c))|done]. apply Forall_true. auto.
  - by eapply lease_inv_acquire.
  - by apply lease_inv_drop.
  - destruct Hinv. split; cbn in *; [by rewrite E|done].
  - split; cbn; [constructor|lia].
Qed.

(** Mutual exclusion of the main lease: in every reachable state, from
    any stored lock value and however long handlers stay suspended, at most
    one of the live guards is current. *)
Theorem at_most_one_current (c0 : Z) (s0 : State) (lw : LeaseWorld)
    (Hreach : rtc lease_step (LW c0 s0 []) lw) :
  (count (fun g => guard_current g (lw_clock lw) (lw_state lw)) (lw_guards lw) <= 1)%nat.
Proof.
  assert (lease_inv lw) as [_ Hone].
  { revert Hreach. apply (rtc_ind_r lease_inv); [|eauto using lease_inv_step].
    split; cbn; [constructor|lia]. }
  etrans; [apply (count_mono _ (unexpired (lw_clock lw)))|done].
  apply Forall_true. intros g. unfold guard_current, unexpired, expiry. intros H.
  zify_bool. by apply Z.ltb_lt.
Qed.

(** A guard whose lease has run out or been taken over cannot disturb its
    successor: dropping it leaves the successor current. *)
Theorem stale_drop_preserves_current (c c' : Z) (s s' : State) (g g' : MainGuard)
    (Hg : expiry g <= c) (Hacq : acquire_state c s = (Some g', s'))
    (Hc : c <= c' < expiry g') :
  guard_current g' c' (release_state g s') = true.
Proof.
  destruct (acquire_state_Some _ _ _ _ Hacq) as (_ & Hg' & Hs').
  assert (main_lock_state_ts (release_state g s') = Some (expiry g')) as Hl.
  { destruct (release_state_lock g s') as [->|E]; [by rewrite Hs'|].
    rewrite Hs' in E. cbn in E. injection E as E. lia. }
  unfold guard_current. rewrite Hl, bool_decide_eq_true_2 by done. fold (expiry g').
  rewrite (proj2 (Z.ltb_lt _ _)) by lia. by rewrite Hg'.
Qed.

End lease.

(** ** Lifecycle *)

Section lifecycle.
Context `{A : AccountSpec}.

Lemma validate_config_armed self_id cfg b :
  validate_config self_id (cfg <| autonomous_rescue_armed := b |>) = validate_config self_id cfg.
Proof. done. Qed.

(** An upgrade of a canister with a valid configuration never traps and
    never touches the payout: plan, nonce, age snapshot and success time are
    those of the stable state, the main lease is free, the pending plan is
    resumed iff there is one, and the armed flag and forced-rescue latch
    change exactly as the arguments say. *)
Theorem post_upgrade_preserves_payout (self_id : Principal) (s : State) (now : Z)
    (args : option UpgradeArgs) (Hvalid : validate_config self_id (config s) = true) :
  exists h, post_upgrade self_id (Some s) now args = Some h /\
    payout_plan (st h) = payout_plan s /\ payout_nonce (st h) = payout_nonce s /\
    prev_age_seconds (st h) = prev_age_seconds s /\
    last_successful_transfer_ts (st h) = last_successful_transfer_ts s /\
    main_lock_state_ts (st h) = Some 0 /\
    validate_config self_id (config (st h)) = true /\
    (ResumeMain 1 ∈ timers h <-> is_some (payout_plan s) = true) /\
    let cleared := is_some_and args (fun a => default false (u_clear_forced_rescue a)) in
    autonomous_rescue_armed (config (st h)) =
      match args with
      | Some a => match u_autonomous_rescue_armed a with
                  | Some b => Some b | None => autonomous_rescue_armed (config s) end
      | None => autonomous_rescue_armed (config s)
      end /\
    forced_rescue_reason (st h) = (if cleared then None else forced_rescue_reason s) /\
    (RescueReconcile 1 ∈ timers h <->
       cleared = true /\ default false (autonomous_rescue_armed (config (st h))) = true).
Proof.
  unfold post_upgrade, apply_upgrade_args_to_state, schedule_immediate_resume_if_needed,
    apply_clear_forced_rescue, apply_armed.
  assert (forall b, validate_config self_id ((config s) <| autonomous_rescue_armed := b |>) = true)
    as Hv by (intros b; by rewrite validate_config_armed).
  destruct args as [[armed clear]|]; [destruct armed as [[]|], clear as [[]|]|]; cbn -[validate_config];
    rewrite ?Hv, ?Hvalid; try (destruct (default false (autonomous_rescue_armed (config s))) eqn:Hd);
    cbn -[validate_config]; rewrite ?Hv, ?Hvalid; cbn -[validate_config];
    (destruct (payout_plan s) eqn:Hp); cbn -[validate_config];
    (eexists; split; [reflexivity|]); cbn -[validate_config]; rewrite ?Hp, ?Hd;
    (repeat split; try done; try set_solver).
Qed.

(** The canister is installed exactly with the valid configurations, and a
    valid configuration never pays its own staging account nor two recipients
    that the ledger would confuse; main and rescue timers run at least 60
    seconds apart. *)
Theorem init_valid (lid gid self_id : Principal) (now : Z) (args : InitArgs) (h : Heap)
    (Hinit : init lid gid self_id now args = Some h) :
  let c := config (st h) in
  let recipients := [normal_recipient c; age_bonus_recipient_1 c; age_bonus_recipient_2 c] in
  Forall (fun r => account_eqb r (staging_account self_id) = false /\ owner r <> anonymous)
    recipients /\
  (forall i j r r', (i < j)%nat -> recipients !! i = Some r -> recipients !! j = Some r' ->
     account_eqb r r' = false) /\
  rescue_controller c <> self_id /\ payout_plan (st h) = None /\ payout_nonce (st h) = 1 /\
  exists m r, timers h = [MainInterval m; RescueInterval r] /\ 60 <= m /\ 60 <= r.
Proof.
  unfold init in Hinit. destruct (validate_config _ _) eqn:Hv; [|done].
  injection Hinit as <-. unfold validate_config in Hv.
  repeat match goal with
  | H : (_ && _) = true |- _ => apply andb_true_iff in H as [H ?]
  | H : negb _ = true |- _ => apply negb_true_iff in H
  | H : bool_decide _ = false |- _ => apply bool_decide_eq_false in H
  end. cbn in *.
  split; [repeat constructor; done|]. split.
  - intros [|[|[|i]]] [|[|[|j]]] r r' Hij; cbn; intros [=] [=]; subst; done || lia.
  - repeat split; try done. eexists _, _. split; [reflexivity|]. lia.
Qed.

(** Only the whitelisted Event Horizon principal passes the poke guard,
    and a notification is relevant exactly when it names this canister's
    default subaccount. *)
Theorem event_horizon_admission (caller self : Principal) (ms : list EventHorizonPokeMatch) :
  (guard_event_horizon_caller caller = Ok tt <->
     principal_as_slice caller = [0; 0; 0; 0; 2; 48; 17; 226; 1; 1]) /\
  (has_relevant_event_horizon_match ms self = true <->
     exists m, m ∈ ms /\ subject m = self /\ target m = Subaccount 0).
Proof.
  split.
  - unfold guard_event_horizon_caller, event_horizon_caller_is_whitelisted. cbn.
    destruct (bool_decide _) eqn:E; cbn.
    + by apply bool_decide_eq_true in E.
    + apply bool_decide_eq_false in E. naive_solver.
  - unfold has_relevant_event_horizon_match. rewrite existsb_exists.
    split; intros (m & Hm); exists m; rewrite list_elem_of_In in *.
    + destruct Hm as (? & [Hs Ht]%andb_true_iff). apply bool_decide_eq_true in Hs.
      destruct (target m) as [[]|]; done.
    + destruct Hm as (? & ? & ->). split; [done|]. by rewrite bool_decide_eq_true_2.
Qed.

End lifecycle.

(** A concrete canister, for the witnesses: canister 9 with recipients 1, 2
    and 3, ledger 5, governance 6 and rescue controller 7; its lease is held
    until second 900. *)
Module ConcreteDisburser.
Import Concrete.

Definition account (k : Z) : Account (H:=concrete_principal) := MkAccount concrete_principal k None.
Definition cfg : Config (P:=concrete_principal) := {|
  neuron_id := 42;
  normal_recipient := account 1;
  age_bonus_recipient_1 := account 2;
  age_bonus_recipient_2 := account 3;
  ledger_canister_id := 5 : Principal (PrincipalSpec:=concrete_principal);
  governance_canister_id := 6 : Principal (PrincipalSpec:=concrete_principal);
  rescue_controller := 7 : Principal (PrincipalSpec:=concrete_principal);
  autonomous_rescue_armed := Some true;
  main_interval_seconds := 86400;
  rescue_interval_seconds := 86400;
|}.
Definition state : State (P:=concrete_principal) := State_new cfg 0.
Definition heap : Heap (P:=concrete_principal) := fresh_heap state.
Definition leased : Heap (P:=concrete_principal) :=
  heap <| st ::= fun s => s <| main_lock_state_ts := Some 900 |> |>.
Definition guard : MainGuard := MkMainGuard (Timer.MkGuard true 900).

End ConcreteDisburser.

Section witnesses.
Import Concrete ConcreteDisburser.
Local Abbreviation PS := concrete_principal.

Lemma at_most_one_current_witness : exists lw,
  rtc (lease_step (A:=concrete_account)) (LW 5 state []) lw /\ length (lw_guards lw) = 1%nat /\
  (count (fun g => guard_current g (lw_clock lw) (lw_state lw)) (lw_guards lw) <= 1)%nat.
Proof.
  eexists.
  assert (rtc (lease_step (A:=concrete_account)) (LW 5 state []) _) as H
    by (eapply rtc_l; [apply lease_acquire; vm_compute; reflexivity|apply rtc_refl]).
  split; [exact H|]. split; [reflexivity|].
  apply (at_most_one_current (A:=concrete_account) 5 state). exact H.
Defined.

Lemma stale_drop_preserves_current_witness : exists g' s',
  acquire_state (P:=PS) 1000 (st leased) = (Some g', s') /\
  guard_current g' 1200 (release_state guard s') = true.
Proof.
  eexists _, _. split; [vm_compute; reflexivity|].
  refine (stale_drop_preserves_current (P:=PS) 1000 1200 (st leased) _ guard _ _ _ _);
    [vm_compute; discriminate|reflexivity|vm_compute; split; [discriminate|reflexivity]].
Defined.

Lemma post_upgrade_preserves_payout_witness : exists h,
  post_upgrade (A:=concrete_account) (9 : Principal (PrincipalSpec:=PS)) (Some state) 5
    (Some (MkUpgradeArgs (Some true) (Some true))) = Some h /\ payout_nonce (st h) = 1.
Proof.
  destruct (post_upgrade_preserves_payout (A:=concrete_account)
    (9 : Principal (PrincipalSpec:=PS)) state 5
    (Some (MkUpgradeArgs (Some true) (Some true))) eq_refl) as (h & E & _ & Hn & _).
  exists h. split; [exact E|exact Hn].
Defined.

Definition witness_args : InitArgs (P:=PS) := MkInitArgs (P:=PS) 42 (account 1) (account 2) (account 3)
  None None (7 : Principal (PrincipalSpec:=PS)) (Some true) None None.

Lemma init_valid_witness : exists h,
  init (A:=concrete_account) (5 : Principal (PrincipalSpec:=PS)) (6 : Principal (PrincipalSpec:=PS))
    (9 : Principal (PrincipalSpec:=PS)) 7000000000 witness_args = Some h /\
  payout_plan (st h) = None.
Proof.
  eexists. split; [reflexivity|].
  refine (proj1 (proj2 (proj2 (proj2 (init_valid (A:=concrete_account)
    (5 : Principal (PrincipalSpec:=PS)) (6 : Principal (PrincipalSpec:=PS))
    (9 : Principal (PrincipalSpec:=PS)) 7000000000 witness_args _ eq_refl))))).
Defined.

End witnesses.
