(* ===== verification/DisburserPayout.v ===== *)
(** * Disburser: the payout state machine

    [process_payout] of [canisters/disburser/src/scheduler/payout_plan.rs]:
    the payout plan is persisted before the first transfer, each transfer is
    dispatched with the identity recorded in the plan, and its outcome is
    written back only into that plan. *)

From S2P Require Import Prelude Async Ic Clients TimerGuard DisburserLogic DisburserState.

Section payout.
Context `{A : AccountSpec} `{T : TextSpec}.
Context (self_id : Principal).
Local Abbreviation async := (async Heap SuiteCall).

(** [should_clear_payout_plan_on_transfer_error] of [scheduler/logging.rs]. *)
Definition should_clear_payout_plan_on_transfer_error (err : TransferError) : bool :=
  match err with
  | TemporarilyUnavailable => false
  | Duplicate _ => false
  | BadFee _ | BadBurn _ | InsufficientFunds _ | TooOld | CreatedInFuture _
  | GenericError _ _ => true
  end.

Definition payout_generation_matches (expected_nonce : Z) (expected_plan : option PayoutPlan)
    : async bool :=
  with_state (fun h => (payout_nonce (st h) =? expected_nonce)
                       && plan_opt_eqb (payout_plan (st h)) expected_plan).

(** [st.payout_plan.as_ref() == Some(&plan)] *)
Definition plan_is (plan : PayoutPlan) (s : State) : bool :=
  plan_opt_eqb (payout_plan s) (Some plan).

Definition to_planned_transfer (p : Logic.Planned) : PlannedTransfer := {|
  pt_to := Logic.p_to p;
  gross_share_e8s := Logic.p_gross_share_e8s p;
  amount_e8s := Logic.p_amount_e8s p;
  created_at_time_nanos := Logic.p_created_at_time_nanos p;
  pt_memo := Logic.p_memo p;
  status := Pending;
|}.

(** The installation closure: at most once per nonce. *)
Definition install_plan (expected_nonce fee now_nanos : Z) (ts : list PlannedTransfer)
    (s : State) : bool * State :=
  if (payout_nonce s =? expected_nonce) && is_none (payout_plan s) then
    (true,
     s <| payout_nonce := sat_add (payout_nonce s) 1 |>
       <| payout_plan := Some {| plan_id := expected_nonce; fee_e8s := fee;
                                 created_at_base_nanos := now_nanos; transfers := ts |} |>)
  else (false, s).

(** [if st.payout_plan == Some(&plan) { st.payout_plan = None }] *)
Definition clear_plan (plan : PayoutPlan) (s : State) : State :=
  if plan_is plan s then s <| payout_plan := None |> else s.

(** The success closure: the [i]-th transfer of the stored plan becomes [Sent]. *)
Definition mark_sent (plan : PayoutPlan) (i : nat) (block_index : string) (now_secs : Z)
    (s : State) : State :=
  if plan_is plan s then
    s <| payout_plan ::= (fun o => p ← o;
           Some (p <| transfers ::= alter (fun t => t <| status := Sent block_index |>) i |>)) |>
      <| last_successful_transfer_ts := Some now_secs |>
  else s.

Definition is_pending (t : PlannedTransfer) : bool :=
  match status t with Pending => true | Sent _ => false end.

Definition transfer_arg (plan : PayoutPlan) (t : PlannedTransfer) : TransferArg := {|
  from_subaccount := None;
  to := pt_to t;
  fee := Some (fee_e8s plan);
  created_at_time := Some (created_at_time_nanos t);
  memo := Some (pt_memo t);
  amount := amount_e8s t;
|}.

(** The execution loop. *)
Fixpoint execute_plan (fuel : nat) (cfg : Config) (now_secs : Z) (guard : MainGuard) : async bool :=
  match fuel with
  | O => out_of_fuel
  | S fuel' =>
      cur ← is_current guard;
      if negb cur then mret false
      else
        plan_opt ← with_state (fun h => payout_plan (st h));
        match plan_opt with
        | None => mret true
        | Some plan =>
            match position is_pending (transfers plan) with
            | None => modify (fun h => h <| st ::= clear_plan plan |>) ;; mret true
            | Some i =>
                match transfers plan !! i with
                | None => trap
                | Some t =>
                    r ← transfer (ledger_canister_id cfg) (transfer_arg plan t);
                    match r with
                    | Err _ => mret false
                    | Ok res =>
                        same ← with_state (fun h => plan_is plan (st h));
                        if negb same then mret false
                        else
                          match res with
                          | Ok block | Err (Duplicate block) =>
                              modify (fun h =>
                                h <| st ::= mark_sent plan i (nat_to_string block) now_secs |>) ;;
                              execute_plan fuel' cfg now_secs guard
                          | Err err =>
                              cur ← is_current guard;
                              if cur && should_clear_payout_plan_on_transfer_error err then
                                modify (fun h => h <| st ::= clear_plan plan |>) ;; mret false
                              else mret false
                          end
                    end
                end
            end
        end
  end.

(** One round per pending transfer and one to close the plan. *)
Definition execution_fuel (s : State) : nat :=
  match payout_plan s with
  | Some p => S (count is_pending (transfers p))
  | None => 1
  end.

Definition execute (cfg : Config) (now_secs : Z) (guard : MainGuard) : async bool :=
  fuel ← with_state (fun h => execution_fuel (st h));
  execute_plan fuel cfg now_secs guard.

(** The planning stage: [false] when the caller returns [false]. *)
Definition create_plan (cfg : Config) (now_nanos : Z) (guard : MainGuard)
    (expected_nonce balance prev_age : Z) : async bool :=
  r ← Clients.fee_e8s (ledger_canister_id cfg);
  match r with
  | Err _ => mret false
  | Ok fee =>
      cur ← is_current guard;
      same ← payout_generation_matches expected_nonce None;
      if negb cur || negb same then mret false
      else
        let planned := (Logic.plan_payout_transfers expected_nonce now_nanos balance fee prev_age
          (normal_recipient cfg) (age_bonus_recipient_1 cfg) (age_bonus_recipient_2 cfg)).2 in
        with_state_mut (fun h =>
          let '(installed, s) :=
            install_plan expected_nonce fee now_nanos (map to_planned_transfer planned) (st h) in
          (installed, h <| st := s |>))
  end.

Definition process_payout (cfg : Config) (now_nanos now_secs : Z) (guard : MainGuard) : async bool :=
  cur ← is_current guard;
  if negb cur then mret false
  else
    let staging := staging_account self_id in
    snapshot ← with_state (fun h =>
      (payout_nonce (st h), payout_plan (st h), prev_age_seconds (st h)));
    let '(expected_nonce, expected_plan, prev_age) := snapshot in
    b ← balance_of_e8s (ledger_canister_id cfg) staging;
    match b with
    | Err _ => mret false
    | Ok balance =>
        cur ← is_current guard;
        same ← payout_generation_matches expected_nonce expected_plan;
        if negb cur || negb same then mret false
        else if (balance =? 0) && is_none expected_plan then mret true
        else
          ready ← (if is_none expected_plan
                   then create_plan cfg now_nanos guard expected_nonce balance prev_age
                   else mret true);
          if negb ready then mret false else execute cfg now_secs guard
    end.

End payout.

(** ** Lemmas on plans and their equality *)

Section lemmas.
Context `{A : AccountSpec} {L : AccountLaws} `{T : TextSpec}.
Implicit Types (s : State) (p q plan : PayoutPlan).

Lemma list_eqb_refl {X} (f : X -> X -> bool) l : (forall x, f x x = true) -> list_eqb f l l = true.
Proof. intros H. induction l as [|x l IH]; cbn; [done|]. by rewrite H, IH. Qed.

Lemma PayoutPlan_eqb_refl p : PayoutPlan_eqb p p = true.
Proof.
  unfold PayoutPlan_eqb. rewrite !Z.eqb_refl. apply list_eqb_refl. intros t.
  unfold PlannedTransfer_eqb. rewrite account_eqb_refl, !Z.eqb_refl, bool_decide_eq_true_2 by done.
  cbn. destruct (status t); cbn; [done|]. by rewrite bool_decide_eq_true_2.
Qed.

Lemma plan_is_refl p s : payout_plan s = Some p -> plan_is p s = true.
Proof. unfold plan_is. intros ->. apply PayoutPlan_eqb_refl. Qed.

Lemma plan_is_Some p s : plan_is p s = true ->
  exists q, payout_plan s = Some q /\ PayoutPlan_eqb q p = true.
Proof. unfold plan_is. destruct (payout_plan s) as [q|]; cbn; [eauto|done]. Qed.

Lemma transfer_eqb_pending (t u : PlannedTransfer) :
  PlannedTransfer_eqb t u = true -> is_pending t = is_pending u.
Proof.
  unfold PlannedTransfer_eqb, is_pending. intros H. zify_bool.
  by destruct (status t), (status u).
Qed.

(** Equal plans have their pending transfers at the same positions. *)
Lemma eqb_pending (l k : list PlannedTransfer) :
  list_eqb PlannedTransfer_eqb l k = true -> map is_pending l = map is_pending k.
Proof.
  revert k; induction l as [|t l IH]; intros [|u k]; cbn; try done.
  intros [H1 H2]%andb_true_iff. by rewrite (transfer_eqb_pending t u), (IH k).
Qed.

(** What [mark_sent] does to the plan it was computed from. *)
Lemma mark_sent_plan p i t b now s :
  payout_plan s = Some p -> transfers p !! i = Some t -> is_pending t = true ->
  exists p', payout_plan (mark_sent p i b now s) = Some p' /\
    plan_id p' = plan_id p /\ fee_e8s p' = fee_e8s p /\
    created_at_base_nanos p' = created_at_base_nanos p /\
    transfers p' = alter (fun t => t <| status := Sent b |>) i (transfers p) /\
    S (count is_pending (transfers p')) = count is_pending (transfers p).
Proof.
  intros Hp Ht Hpend. unfold mark_sent. rewrite (plan_is_refl p) by done. cbn. rewrite Hp. cbn.
  eexists. repeat split. cbn. symmetry. by eapply count_alter.
Qed.

Lemma clear_plan_own p s : payout_plan s = Some p -> payout_plan (clear_plan p s) = None.
Proof. intros Hp. unfold clear_plan. by rewrite (plan_is_refl p). Qed.

(** The plan a persisted-identity check compares with has as many pending
    transfers as the stored one. *)
Lemma plan_is_pending p s : plan_is p s = true ->
  exists q, payout_plan s = Some q /\
    map is_pending (transfers q) = map is_pending (transfers p) /\ fee_e8s q = fee_e8s p.
Proof.
  intros (q & Hq & E)%plan_is_Some. exists q. split; [done|].
  unfold PayoutPlan_eqb in E. zify_bool. split; [by apply eqb_pending|done].
Qed.

Lemma mark_sent_fuel p i b now s t :
  plan_is p s = true -> transfers p !! i = Some t -> is_pending t = true ->
  (execution_fuel (mark_sent p i b now s) <= count is_pending (transfers p))%nat.
Proof.
  intros Hp Ht Hpend. pose proof Hp as (q & Hq & Hmap & _)%plan_is_pending.
  assert (exists u, transfers q !! i = Some u /\ is_pending u = true) as (u & Hu & Hup).
  { assert (map is_pending (transfers q) !! i = Some true) as H.
    { rewrite Hmap, list_lookup_fmap, Ht. cbn. by rewrite Hpend. }
    rewrite list_lookup_fmap in H. destruct (transfers q !! i) as [u|]; [|done].
    exists u. split; [done|]. by injection H. }
  unfold mark_sent, execution_fuel. rewrite Hp. cbn. rewrite Hq. cbn.
  rewrite (count_map _ _ _ (eq_sym Hmap)).
  rewrite (count_alter is_pending (fun t => t <| status := Sent b |>) (transfers q) i u) by done. lia.
Qed.

End lemmas.

(** ** The specification of the state machine *)

Section spec.
Context `{A : AccountSpec} {L : AccountLaws} `{T : TextSpec}.
Context (self_id : Principal) (e : env Heap SuiteCall) (cfg : Config) (now_secs : Z)
        (guard : MainGuard).
(** A heap invariant kept by the other messages and by the three updates. *)
Context (I : Heap -> Prop).
Hypothesis I_rely : forall n h, I h -> I (env_interleave e n h).
Hypothesis I_mark : forall h p i b, I h -> I (h <| st ::= mark_sent p i b now_secs |>).
Hypothesis I_clear : forall h p, I h -> I (h <| st ::= clear_plan p |>).

(** The lease of the run is the stored one. *)
Definition lease_held (h : Heap) : Prop :=
  main_lock_state_ts (st h) = Some (Timer.lease_expires_at_ts (inner guard)).

(** A transfer call that carries the identity of the first pending transfer
    of the plan that is persisted when the call is made. *)
Definition own_transfer (ev : event Heap SuiteCall) : Prop :=
  exists h plan i t,
    ev = Dispatch (IcrcTransfer (ledger_canister_id cfg) (transfer_arg plan t)) h /\
    payout_plan (st h) = Some plan /\ position is_pending (transfers plan) = Some i /\
    transfers plan !! i = Some t /\ lease_held h.

Definition payout_event (ev : event Heap SuiteCall) : Prop :=
  own_transfer ev \/
  exists h, ev = Dispatch (IcrcBalanceOf (ledger_canister_id cfg) (staging_account self_id)) h \/
            ev = Dispatch (IcrcFee (ledger_canister_id cfg)) h.

Definition run_post (P : event Heap SuiteCall -> Prop) (w : world Heap SuiteCall)
    (b : bool) (w' : world Heap SuiteCall) : Prop :=
  committed I w' /\ (b = true -> payout_plan (st (w_state w')) = None) /\ traced P (w_trace w) w'.

Lemma wp_is_current (Q : bool -> world Heap SuiteCall -> Prop) w :
  (forall b, (b = true -> lease_held (w_state w)) -> Q b w) -> wp e (is_current guard) Q w.
Proof.
  intros H. unfold is_current. wp_step. wp_step. wp_step. apply H.
  unfold guard_current. intros Hc. zify_bool. by apply bool_decide_eq_true in H1.
Qed.

Lemma execute_plan_spec fuel w :
  committed I w -> (execution_fuel (st (w_state w)) <= fuel)%nat ->
  wp e (execute_plan fuel cfg now_secs guard) (run_post own_transfer w) w.
Proof.
  revert w; induction fuel as [|fuel IH]; intros w Hw Hfuel.
  { unfold execution_fuel in Hfuel. destruct (payout_plan _); lia. }
  assert (forall b (w0 : world Heap SuiteCall), committed I w0 -> b = false ->
            traced own_transfer (w_trace w) w0 -> run_post own_transfer w b w0) as Hstop.
  { intros b w0 H0 -> Ht. split; [done|]. by split. }
  cbn [execute_plan]. wp_step. apply wp_is_current. intros cur Hcur.
  destruct cur; cbn [negb]; [|wp_step; auto with jupiter]. specialize (Hcur eq_refl).
  wp_step. wp_step. destruct (payout_plan (st (w_state w))) as [plan|] eqn:Hplan.
  2: { wp_step. split; [done|]. split; [done|]. apply traced_refl. }
  destruct (position is_pending (transfers plan)) as [i|] eqn:Hpos.
  2: { wp_step. wp_step. wp_step. split; [|split].
       - apply committed_update; [done|]. apply I_clear, Hw.
       - intros _. cbn. by apply clear_plan_own.
       - by exists []. }
  pose proof (position_Some _ _ _ Hpos) as (t & Ht & Hpend & _). rewrite Ht.
  wp_step. apply wp_transfer. intros r.
  set (w1 := after_call e _ w).
  assert (committed I w1) as Hw1 by (by apply committed_call).
  assert (traced own_transfer (w_trace w) w1) as Ht1.
  { exists [Dispatch (IcrcTransfer (ledger_canister_id cfg) (transfer_arg plan t)) (w_state w)].
    split; [done|]. constructor; [|constructor]. by exists (w_state w), plan, i, t. }
  destruct r as [res|err]; [|wp_step; auto].
  wp_step. wp_step. destruct (plan_is plan (st (w_state w1))) eqn:Hsame; cbn [negb]; [|wp_step; auto].
  assert (forall b, wp e (modify (fun h => h <| st ::= mark_sent plan i b now_secs |>) ;;
                          execute_plan fuel cfg now_secs guard) (run_post own_transfer w) w1) as Hgo.
  { intros b. wp_step. wp_step. eapply wp_mono; [apply IH|].
    - apply committed_update; [done|]. apply I_mark, Hw1.
    - cbn. pose proof (mark_sent_fuel plan i b now_secs _ t Hsame Ht Hpend) as Hf.
      assert (execution_fuel (st (w_state w)) = S (count is_pending (transfers plan))) as Hw0
        by (unfold execution_fuel; by rewrite Hplan).
      rewrite Hw0 in Hfuel. etrans; [exact Hf|lia].
    - intros b' w' (Hc & Hn & Htr). split; [done|]. split; [done|].
      by eapply traced_trans. }
  assert (forall err, wp e (cur ← is_current guard;
      if cur && should_clear_payout_plan_on_transfer_error err
      then modify (fun h => h <| st ::= clear_plan plan |>) ;; mret false else mret false)
      (run_post own_transfer w) w1) as Hfail.
  { intros err. wp_step. apply wp_is_current. intros b _. wp_step; [|wp_step; auto].
    wp_step. wp_step. wp_step. apply Hstop; [|done|done].
    apply committed_update; [done|]. apply I_clear, Hw1. }
  destruct res as [block|[]]; auto.
Qed.


Hypothesis I_install : forall h nonce fee base bal age, I h ->
  I (h <| st := (install_plan nonce fee base
       (map to_planned_transfer (Logic.plan_payout_transfers nonce base bal fee age
          (normal_recipient cfg) (age_bonus_recipient_1 cfg) (age_bonus_recipient_2 cfg)).2)
       (st h)).2 |>).

Lemma run_post_weaken (Q Q' : event Heap SuiteCall -> Prop) w w1 b w' :
  (forall ev, Q ev -> Q' ev) -> traced Q' (w_trace w) w1 -> run_post Q w1 b w' -> run_post Q' w b w'.
Proof.
  intros HQ Ht (Hc & Hb & new & E & Hn). split; [done|]. split; [done|].
  eapply traced_trans; [done|]. exists new. split; [done|]. by eapply Forall_impl.
Qed.

Lemma create_plan_spec now_nanos nonce bal age w :
  committed I w ->
  wp e (create_plan cfg now_nanos guard nonce bal age)
    (fun _ w' => committed I w' /\ traced payout_event (w_trace w) w') w.
Proof.
  intros Hw. unfold create_plan. wp_step. apply wp_fee_e8s. intros r.
  set (w1 := after_call e _ w).
  assert (committed I w1) as Hw1 by (by apply committed_call).
  assert (traced payout_event (w_trace w) w1) as Ht1.
  { eexists [_]. split; [done|]. constructor; [|constructor]. right. eauto. }
  destruct r as [fee|err]; [|by wp_step].
  wp_step. apply wp_is_current. intros cur _. wp_step. apply wp_with_state.
  wp_step; [by wp_step|]. wp_step.
  pose proof (I_install (w_state w1) nonce fee now_nanos bal age ltac:(apply Hw1)) as Hi.
  destruct (install_plan _ _ _ _ _) as [b s]. cbn in Hi |- *. split; [|done].
  by apply (committed_update _ w1).
Qed.

Lemma process_payout_spec now_nanos w :
  committed I w ->
  wp e (process_payout self_id cfg now_nanos now_secs guard) (run_post payout_event w) w.
Proof.
  intros Hw. unfold process_payout.
  assert (forall w0, committed I w0 -> traced payout_event (w_trace w) w0 ->
            run_post payout_event w false w0) as Hstop by (intros w0 ? ?; split; [done|by split]).
  wp_step. apply wp_is_current. intros cur _. wp_step; [wp_step; auto with jupiter|].
  wp_step. apply wp_with_state. cbn beta iota.
  set (nonce := payout_nonce _). set (plan := payout_plan _). set (age := prev_age_seconds _).
  wp_step. apply wp_balance_of_e8s. intros r. set (w1 := after_call e _ w).
  assert (committed I w1) as Hw1 by (by apply committed_call).
  assert (traced payout_event (w_trace w) w1) as Ht1.
  { eexists [_]. split; [done|]. constructor; [|constructor]. right. eauto. }
  destruct r as [bal|err]; [|wp_step; auto].
  wp_step. apply wp_is_current. intros cur1 _. wp_step. apply wp_with_state.
  wp_step; [wp_step; auto|]. wp_step.
  { wp_step. split; [done|]. split; [|done]. intros _. zify_bool.
    unfold plan_opt_eqb in *. destruct plan; [done|]. by destruct (payout_plan _). }
  wp_step. apply (wp_mono _ _ (fun _ w' => committed I w' /\ traced payout_event (w_trace w1) w')).
  { destruct (is_none plan); [by apply create_plan_spec|]. wp_step. auto with jupiter. }
  intros ready w2 [Hw2 Ht2]. pose proof (traced_trans _ _ _ _ Ht1 Ht2) as Ht.
  wp_step; [wp_step; auto|]. unfold execute. wp_step. wp_step.
  eapply wp_mono; [by apply execute_plan_spec|]. intros b w'.
  apply run_post_weaken; [by left|done].
Qed.

End spec.

(** ** The plan invariant *)

Section invariant.
Context `{A : AccountSpec} {L : AccountLaws} `{T : TextSpec}.

(** Every entry of a persisted plan has the ledger identity that its position
    determines, and the id of the plan is a nonce that was consumed. *)
Definition plan_wf (s : State) : Prop :=
  match payout_plan s with
  | None => True
  | Some p =>
      (plan_id p < payout_nonce s \/ payout_nonce s = u64_max) /\
      forall i t, transfers p !! i = Some t ->
        pt_memo t = Logic.build_memo (plan_id p) (Z.of_nat i) /\
        created_at_time_nanos t = sat_add (created_at_base_nanos p) (Z.of_nat i) /\
        amount_e8s t = gross_share_e8s t - fee_e8s p /\ 0 < amount_e8s t
  end.

Lemma plan_wf_clear s p : plan_wf s -> plan_wf (clear_plan p s).
Proof. unfold clear_plan. by destruct (plan_is p s). Qed.

Lemma plan_wf_mark s p i b now : plan_wf s -> plan_wf (mark_sent p i b now s).
Proof.
  unfold mark_sent. destruct (plan_is p s); [|done]. unfold plan_wf. cbn.
  destruct (payout_plan s) as [q|]; cbn; [|done]. intros [Hid Hall]. split; [done|].
  intros j t. rewrite list_lookup_alter. case_decide; [|apply Hall]. subst.
  intros (u & Hu & ->)%fmap_Some. apply (Hall _ _ Hu).
Qed.

Lemma plan_wf_install cfg s nonce fee base bal age :
  plan_wf s ->
  plan_wf (install_plan nonce fee base
    (map to_planned_transfer (Logic.plan_payout_transfers nonce base bal fee age
       (normal_recipient cfg) (age_bonus_recipient_1 cfg) (age_bonus_recipient_2 cfg)).2) s).2.
Proof.
  intros Hs. unfold install_plan. destruct (_ && _) eqn:E; [|done]. zify_bool. subst nonce.
  pose proof (plan_payout_transfers_spec (payout_nonce s) base bal fee age (normal_recipient cfg)
    (age_bonus_recipient_1 cfg) (age_bonus_recipient_2 cfg)) as Hp.
  destruct (Logic.plan_payout_transfers _ _ _ _ _ _ _ _) as [g pl]. destruct Hp as (_ & Hall & _).
  unfold plan_wf. cbn. unfold const. split; [ulia|]. intros i t. rewrite list_lookup_fmap.
  intros (p & Hi & ->)%fmap_Some. destruct (Hall i p Hi) as (? & Ha & ? & ?). cbn.
  repeat split; try done. lia.
Qed.

(** C1: [process_payout] always returns, whatever the replies of the ledger,
    the clock and the messages that run while it waits: within one round per
    pending transfer.  The only calls it makes are the balance and fee queries
    and transfers that carry the identity of the first pending entry of the
    plan persisted at that moment, under the lease of the run; and when it
    reports success no payout plan is left. *)
Theorem process_payout_returns (self_id : Principal) (e : env Heap SuiteCall) (cfg : Config)
    (now_nanos now_secs : Z) (guard : MainGuard) (w : world Heap SuiteCall) :
  exists b w',
    process_payout self_id cfg now_nanos now_secs guard e w = (Returned b, w') /\
    (b = true -> payout_plan (st (w_state w')) = None) /\
    traced (payout_event self_id cfg guard) (w_trace w) w'.
Proof.
  pose proof (process_payout_spec self_id e cfg now_secs guard (fun _ => True)
    ltac:(done) ltac:(done) ltac:(done) ltac:(done) now_nanos w) as H.
  destruct (wp_returns _ _ _ _ (H ltac:(by split; [|apply Forall_true; intros []])))
    as (b & w' & E & _ & Hb & Ht).
  exists b, w'. auto.
Qed.

(** Every state that [process_payout] commits, at each of its calls and
    at its end, has a well-formed payout plan: positive net amounts and the
    memo and creation time that the plan id and the position determine, so a
    retry presents the ledger with the identity it deduplicates. *)
Theorem process_payout_plan_wf (self_id : Principal) (e : env Heap SuiteCall) (cfg : Config)
    (now_nanos now_secs : Z) (guard : MainGuard) (w : world Heap SuiteCall)
    (He : forall n h, plan_wf (st h) -> plan_wf (st (env_interleave e n h)))
    (Hw : committed (fun h => plan_wf (st h)) w) :
  committed (fun h => plan_wf (st h))
    (process_payout self_id cfg now_nanos now_secs guard e w).2.
Proof.
  pose proof (process_payout_spec self_id e cfg now_secs guard (fun h => plan_wf (st h)) He
    (fun h p i b => plan_wf_mark (st h) p i b now_secs) (fun h p => plan_wf_clear (st h) p)
    (fun h nonce fee base bal age => plan_wf_install cfg (st h) nonce fee base bal age)
    now_nanos w Hw) as H.
  apply wp_returns in H as (b & w' & -> & Hc & _). exact Hc.
Qed.

End invariant.

(** ** Progress when nothing interferes *)

Section progress.
Context `{A : AccountSpec} {L : AccountLaws} `{T : TextSpec}.
Context (self_id : Principal) (e : env Heap SuiteCall) (cfg : Config) (now_secs : Z)
        (guard : MainGuard).

(** No other message runs during the calls, the lease does not expire, and
    the ledger accepts (or deduplicates) every transfer. *)
Record cooperative := {
  coop_interleave : forall n h, env_interleave e n h = h;
  coop_clock : forall n, env_clock e n / 1000000000 < Timer.lease_expires_at_ts (inner guard);
  coop_transfer : forall n ledger arg, exists block,
    env_reply e n _ (IcrcTransfer ledger arg) = Ok (Ok block) \/
    env_reply e n _ (IcrcTransfer ledger arg) = Ok (Err (Duplicate block));
}.

(** The transfers among the dispatched calls. *)
Definition ev_transfer (ev : event Heap SuiteCall) : option TransferArg :=
  match ev with
  | Dispatch c _ => match c with IcrcTransfer _ arg => Some arg | _ => None end
  end.
Definition sent_args (w : world Heap SuiteCall) : list TransferArg :=
  omap ev_transfer (w_trace w).

(** The run holds the lease and has not released it. *)
Definition holds (w : world Heap SuiteCall) : Prop :=
  Timer.active (inner guard) = true /\ lease_held guard (w_state w).

Lemma wp_is_current_coop (Q : bool -> world Heap SuiteCall -> Prop) w :
  cooperative -> holds w -> Q true w -> wp e (is_current guard) Q w.
Proof.
  intros Hc [Ha Hl] HQ. unfold is_current. wp_step. wp_step. wp_step.
  unfold guard_current, Timer.is_active. rewrite Ha, Hl. cbn.
  rewrite bool_decide_eq_true_2 by done.
  pose proof (coop_clock Hc (length (w_trace w))) as Ht. by rewrite (proj2 (Z.ltb_lt _ _)).
Qed.

Lemma filter_alter_first (l : list PlannedTransfer) i t b :
  position is_pending l = Some i -> l !! i = Some t ->
  List.filter is_pending l =
    t :: List.filter is_pending (alter (fun t => t <| status := Sent b |>) i l).
Proof.
  revert i; induction l as [|u l IH]; intros i; cbn; [done|].
  destruct (is_pending u) eqn:E.
  - intros [= <-] [= ->]. cbn. reflexivity.
  - destruct (position is_pending l) as [j|] eqn:Hj; [|done]. intros [= <-]. cbn.
    intros Ht. rewrite E. by apply IH.
Qed.

Lemma filter_planned l :
  List.filter is_pending (map to_planned_transfer l) = map to_planned_transfer l.
Proof. induction l as [|p l IH]; cbn; [done|]. by rewrite IH. Qed.

Lemma execute_plan_completes fuel w plan :
  cooperative -> holds w -> payout_plan (st (w_state w)) = Some plan ->
  (count is_pending (transfers plan) < fuel)%nat ->
  wp e (execute_plan fuel cfg now_secs guard)
    (fun b w' => b = true /\ payout_plan (st (w_state w')) = None /\
       payout_nonce (st (w_state w')) = payout_nonce (st (w_state w)) /\
       sent_args w' =
         reverse (map (transfer_arg plan) (List.filter is_pending (transfers plan)))
         ++ sent_args w) w.
Proof.
  intros Hc. revert w plan. induction fuel as [|fuel IH]; intros w plan Hh Hplan Hf; [lia|].
  cbn [execute_plan]. wp_step. apply wp_is_current_coop; [done..|]. cbn [negb].
  wp_step. wp_step. rewrite Hplan.
  destruct (position is_pending (transfers plan)) as [i|] eqn:Hpos.
  2: { wp_step. wp_step. wp_step. cbn. split; [done|]. rewrite clear_plan_own by done.
       unfold clear_plan. rewrite (plan_is_refl plan) by done. cbn.
       apply position_None in Hpos. assert (List.filter is_pending (transfers plan) = []) as ->.
       { clear -Hpos. induction Hpos as [|t l Ht Hl IH]; cbn; [done|]. by rewrite Ht. }
       done. }
  pose proof (position_Some _ _ _ Hpos) as (t & Ht & Hpend & _). rewrite Ht.
  wp_step. unfold transfer. wp_step. apply wp_await. intros r s -> ->. wp_step.
  rewrite (coop_interleave Hc).
  destruct (mark_sent_plan plan i t "" now_secs (st (w_state w)) Hplan Ht Hpend) as (p0 & _).
  assert (forall b, wp e (modify (fun h => h <| st ::= mark_sent plan i b now_secs |>) ;;
      execute_plan fuel cfg now_secs guard)
    (fun b w' => b = true /\ payout_plan (st (w_state w')) = None /\
       payout_nonce (st (w_state w')) = payout_nonce (st (w_state w)) /\
       sent_args w' =
         reverse (map (transfer_arg plan) (List.filter is_pending (transfers plan)))
         ++ sent_args w)
    (World (w_state w) (Dispatch (IcrcTransfer (ledger_canister_id cfg) (transfer_arg plan t))
       (w_state w) :: w_trace w))) as Hgo.
  { intros b. destruct (mark_sent_plan plan i t b now_secs (st (w_state w)) Hplan Ht Hpend)
      as (p' & Hp' & _ & Hfee & _ & Htr & Hcnt).
    wp_step. wp_step. eapply wp_mono; [apply (IH _ p')|]; [|done|lia|].
    - destruct Hh as [? Hl]. split; [done|]. unfold lease_held, mark_sent in *. cbn in *.
      by case_match.
    - intros b' w' (-> & ? & Hn & Hs). rewrite Hn, Hs, Htr. split; [done|]. split; [done|]. split.
      + unfold mark_sent. cbn. by case_match.
      + rewrite (filter_alter_first (transfers plan) i t b) by done. cbn [map].
        rewrite reverse_cons, <- app_assoc.
        assert (map (transfer_arg p') = map (transfer_arg plan)) as ->; [|done].
        unfold transfer_arg. by rewrite Hfee. }
  destruct (coop_transfer Hc (length (w_trace w)) (ledger_canister_id cfg) (transfer_arg plan t))
    as (block & [-> | ->]); wp_step; apply wp_with_state;
    cbn [w_state]; rewrite (plan_is_refl plan) by done; cbn [negb]; apply Hgo.
Qed.

(** C27: When no other message interferes, the lease does not expire and the
    ledger answers, [process_payout] with no plan pays the staging balance out
    in one run: it returns [true], dispatches exactly the planned transfers,
    in order, consumes one nonce and leaves no plan behind. *)
Theorem process_payout_completes (now_nanos bal fee : Z) (w : world Heap SuiteCall)
    (Hc : cooperative) (Hh : holds w)
    (Hnone : payout_plan (st (w_state w)) = None) (Hbal : 0 < bal <= u64_max)
    (Hfee : 0 <= fee <= u64_max)
    (Hrb : forall n ledger a, env_reply e n _ (IcrcBalanceOf ledger a) = Ok bal)
    (Hrf : forall n ledger, env_reply e n _ (IcrcFee ledger) = Ok fee) :
  let s := st (w_state w) in
  let planned := (Logic.plan_payout_transfers (payout_nonce s) now_nanos bal fee
    (prev_age_seconds s) (normal_recipient cfg) (age_bonus_recipient_1 cfg)
    (age_bonus_recipient_2 cfg)).2 in
  let plan := MkPayoutPlan (payout_nonce s) fee now_nanos (map to_planned_transfer planned) in
  exists w', process_payout self_id cfg now_nanos now_secs guard e w = (Returned true, w') /\
    payout_plan (st (w_state w')) = None /\
    payout_nonce (st (w_state w')) = sat_add (payout_nonce s) 1 /\
    sent_args w' = reverse (map (transfer_arg plan) (map to_planned_transfer planned))
                   ++ sent_args w.
Proof.
  intros s planned plan.
  assert (wp e (process_payout self_id cfg now_nanos now_secs guard) (fun b w' => b = true /\
    payout_plan (st (w_state w')) = None /\
    payout_nonce (st (w_state w')) = sat_add (payout_nonce s) 1 /\
    sent_args w' = reverse (map (transfer_arg plan) (map to_planned_transfer planned))
                   ++ sent_args w) w) as H.
  2: { apply wp_returns in H as (b & w' & E & -> & ?). by exists w'. }
  unfold process_payout. wp_step. apply wp_is_current_coop; [done..|]. cbn [negb].
  wp_step. apply wp_with_state. cbn beta iota. wp_step. unfold balance_of_e8s, balance_of.
  do 2 wp_step. apply wp_await. intros r s1 -> ->. rewrite (coop_interleave Hc), Hrb.
  wp_step. wp_step. unfold nat_to_u64. rewrite (proj2 (Z.leb_le bal _)) by lia.
  wp_step. apply wp_is_current_coop; [done..|]. wp_step. apply wp_with_state. cbn [w_state].
  rewrite Hnone, Z.eqb_refl. cbn [plan_opt_eqb andb negb orb is_none].
  rewrite (proj2 (Z.eqb_neq bal 0)) by lia. cbn [andb].
  wp_step. unfold create_plan, Clients.fee_e8s, ledger_fee. do 3 wp_step.
  apply wp_await. intros r s1 -> ->. rewrite (coop_interleave Hc), Hrf.
  wp_step. wp_step. unfold nat_to_u64. rewrite (proj2 (Z.leb_le fee _)) by lia.
  wp_step. apply wp_is_current_coop; [done..|]. wp_step. apply wp_with_state. cbn [w_state].
  rewrite Hnone, Z.eqb_refl. cbn [plan_opt_eqb andb negb orb is_none].
  wp_step. unfold install_plan. cbn [w_state]. rewrite Hnone, Z.eqb_refl. cbn [is_none andb fst snd negb w_state w_trace].
  unfold execute. wp_step. wp_step.
  eapply wp_mono; [apply (execute_plan_completes _ _ plan Hc)|]; [exact Hh|done| |].
  { exact (Nat.lt_succ_diag_r _). }
  intros b w' (-> & Hp & Hn & Hs). split; [done|]. split; [done|]. split; [exact Hn|].
  rewrite Hs. unfold plan at 2. cbn [transfers]. by rewrite filter_planned.
Qed.

End progress.

(** ** Witnesses *)

Section witnesses.
Import Concrete ConcreteTexts ConcreteDisburser.
Let self : Principal (PrincipalSpec:=concrete_principal) := 9.
Let env0 : env (Heap (P:=concrete_principal)) SuiteCall := quiet_env 5 1000000 10000.
Let world0 : world (Heap (P:=concrete_principal)) SuiteCall := World leased [].

Lemma process_payout_returns_witness : exists b w',
  process_payout (A:=concrete_account) self cfg 5 0 guard env0 world0 = (Returned b, w').
Proof.
  destruct (process_payout_returns (A:=concrete_account) self env0 cfg 5 0 guard world0)
    as (b & w' & E & _).
  by exists b, w'.
Defined.

Lemma process_payout_plan_wf_witness :
  committed (fun h => plan_wf (st h))
    (process_payout (A:=concrete_account) self cfg 5 0 guard env0 world0).2.
Proof.
  apply (process_payout_plan_wf (A:=concrete_account)).
  - intros n h H. exact H.
  - split; [exact Logic.I|constructor].
Defined.

Lemma process_payout_completes_witness : exists w',
  process_payout (A:=concrete_account) self cfg 5 0 guard env0 world0 = (Returned true, w') /\
  payout_plan (st (w_state w')) = None.
Proof.
  destruct (process_payout_completes (A:=concrete_account) self env0 cfg 0 guard 5 1000000 10000
    world0) as (w' & E & Hp & _).
  - constructor; [done|vm_compute; done|]. intros n l a. exists 7. left. reflexivity.
  - split; reflexivity.
  - reflexivity.
  - lia.
  - lia.
  - reflexivity.
  - reflexivity.
  - exists w'. split; [exact E|exact Hp].
Defined.

End witnesses.
