(* ===== verification/DisburserTick.v ===== *)
(** * Disburser: main tick, retry, rescue tick and poke

    [canisters/disburser/src/scheduler/]: [tick.rs], [rescue.rs] and
    [poke.rs].  Log lines are not modelled: the error codes of [finish] only
    reach the log. *)

From S2P Require Import Prelude Async Ic Clients TimerGuard DisburserLogic.
From S2P Require Import DisburserState DisburserPayout.

Section tick.
Context `{A : AccountSpec} `{T : TextSpec}.
Context (self_id : Principal).
Local Abbreviation async := (async Heap SuiteCall).

Definition SCHEDULED_MAIN_RETRY_SECONDS : Z := 60.
Inductive MainTickOutcome := Completed | MainGuardBusy | Deferred (remaining : Z).

(** ** The run marker and the one-shot retry *)

(** [None] when the marker is exhausted: the message traps. *)
Definition advance_marker (h : Heap) : option Heap :=
  match checked_add (main_run_marker h) 1 with
  | Some m => Some (h <| main_run_marker := m |> <| scheduled_main_retry_pending := None |>)
  | None => None
  end.

Definition advance_main_run_marker : async unit :=
  h ← with_state (fun h => advance_marker h);
  match h with
  | Some h' => modify (fun _ => h')
  | None => trap
  end.

Definition reserve_scheduled_main_retry (h : Heap) : option Z * Heap :=
  let marker := main_run_marker h in
  if bool_decide (scheduled_main_retry_pending h = Some marker) then (None, h)
  else (Some marker, h <| scheduled_main_retry_pending := Some marker |>).

Definition schedule_scheduled_main_retry (reservation retry_after_seconds : Z) : async unit :=
  modify (fun h => h <| timers ::= (fun ts => ts ++ [MainRetry reservation retry_after_seconds]) |>).

Definition run_scheduled_main_tick (run : async MainTickOutcome) : async MainTickOutcome :=
  marker ← with_state main_run_marker;
  outcome ← run;
  let retry_after_seconds :=
    match outcome with
    | Completed => None
    | MainGuardBusy => Some SCHEDULED_MAIN_RETRY_SECONDS
    | Deferred remaining => Some remaining
    end in
  match retry_after_seconds with
  | None => mret outcome
  | Some delay =>
      same ← with_state (fun h => main_run_marker h =? marker);
      if negb (same : bool) then mret outcome
      else
        reservation ← with_state_mut reserve_scheduled_main_retry;
        match reservation with
        | Some r => schedule_scheduled_main_retry r delay ;; mret outcome
        | None => mret outcome
        end
  end.

(** The callback of a retry timer consumes its own reservation only. *)
Definition consume_reservation (reservation : Z) (h : Heap) : bool * Heap :=
  if bool_decide (scheduled_main_retry_pending h = Some reservation)
  then (true, h <| scheduled_main_retry_pending := None |>)
  else (false, h).

Definition run_scheduled_main_retry (reservation : Z) (run : async MainTickOutcome) : async unit :=
  owns ← with_state_mut (consume_reservation reservation);
  marker ← with_state main_run_marker;
  if (owns : bool) && (marker =? reservation)
  then run_scheduled_main_tick run ;; mret tt
  else mret tt.

(** ** The main tick *)

(** [MainGuard::finish], the [Drop] at its end included. *)
Definition finish (guard : MainGuard) (now_secs : Z) : async unit :=
  cur ← is_current guard;
  if negb cur then drop_guard guard
  else
    lock ← with_state (fun h => main_lock_state_ts (st h));
    match (Timer.release (inner guard) lock).1 with
    | Released =>
        advance_main_run_marker ;;
        modify (fun h => h <| st ::= (fun s =>
          s <| last_main_run_ts := now_secs |> <| main_lock_state_ts := Some 0 |>) |>)
    | Unchanged => mret tt
    end.

Definition maturity_in_flight (neuron : Neuron) : bool :=
  match maturity_disbursements_in_progress neuron with
  | Some (_ :: _) => true
  | _ => false
  end.

(** The payout stage and the new disbursement; [false] when the lease is
    found lost and the tick returns without [finish]. *)
Definition payout_and_disburse (cfg : Config) (now_nanos now_secs : Z) (guard : MainGuard)
    (neuron : Neuron) : async bool :=
  payout_ok ← process_payout self_id cfg now_nanos now_secs guard;
  if negb payout_ok then mret true
  else
    cur ← is_current guard;
    if negb cur then mret false
    else
      let age_seconds := sat_sub now_secs (aging_since_timestamp_seconds neuron) in
      modify (fun h => h <| st ::= (fun s => s <| prev_age_seconds := age_seconds |>) |>) ;;
      disburse_maturity_to_account (governance_canister_id cfg) (neuron_id cfg) 100 self_id None ;;
      mret true.

Definition main_tick_body (cfg : Config) (now_nanos now_secs : Z) (guard : MainGuard)
    : async MainTickOutcome :=
  claim_or_refresh_neuron (governance_canister_id cfg) (neuron_id cfg) ;;
  cur ← is_current guard;
  if negb cur then drop_guard guard ;; mret Completed
  else
    refresh_voting_power (governance_canister_id cfg) (neuron_id cfg) ;;
    cur ← is_current guard;
    if negb cur then drop_guard guard ;; mret Completed
    else
      r ← get_full_neuron (governance_canister_id cfg) (neuron_id cfg);
      match r with
      | Err _ => finish guard now_secs ;; mret Completed
      | Ok neuron =>
          cur ← is_current guard;
          if negb cur then drop_guard guard ;; mret Completed
          else
            to_finish ← (if maturity_in_flight neuron then mret true
                         else payout_and_disburse cfg now_nanos now_secs guard neuron);
            (if to_finish : bool then finish guard now_secs else drop_guard guard) ;;
            mret Completed
      end.

(** Duplicate suppression: the seconds until the next admissible run. *)
Definition main_tick_remaining (now_secs : Z) (s : State) : Z :=
  sat_sub (sat_add (last_main_run_ts s) (sat_sub (main_interval_seconds (config s)) 60)) now_secs.

Definition run_main_tick_with_clients (force : bool) (now_nanos now_secs : Z) (cfg : Config)
    : async MainTickOutcome :=
  g ← acquire now_secs;
  match g with
  | None => mret MainGuardBusy
  | Some guard =>
      remaining ← with_state (fun h => main_tick_remaining now_secs (st h));
      if negb force && (0 <? remaining)
      then drop_guard guard ;; mret (Deferred remaining)
      else advance_main_run_marker ;; main_tick_body cfg now_nanos now_secs guard
  end.

Definition main_tick (force : bool) : async MainTickOutcome :=
  now_nanos ← now;
  cfg ← with_state (fun h => config (st h));
  run_main_tick_with_clients force now_nanos (now_nanos / 1000000000) cfg.

Definition scheduled_main_tick : async MainTickOutcome :=
  run_scheduled_main_tick (main_tick false).

Definition run_poke_with_clients (now_nanos now_secs : Z) (cfg : Config) : async unit :=
  g ← acquire now_secs;
  match g with
  | None => mret tt
  | Some guard =>
      r ← get_full_neuron (governance_canister_id cfg) (neuron_id cfg);
      match r with
      | Err _ => drop_guard guard
      | Ok neuron =>
          cur ← is_current guard;
          if negb cur then drop_guard guard
          else
            (if maturity_in_flight neuron then mret true
             else process_payout self_id cfg now_nanos now_secs guard) ;;
            drop_guard guard
      end
  end.

(** ** The rescue tick *)

Definition controller_update_settings (controllers : list Principal) : UpdateSettingsArgs := {|
  settings_canister_id := self_id;
  settings_controllers := Some controllers;
  settings_log_visibility := Some LogPublic;
  settings_status_visibility := Some LogPublic;
|}.

Definition desired_controllers_for_rescue_state (now_secs : Z) (last_xfer_opt : option Z)
    (rescue_controller : Principal) (forced : option ForcedRescueReason)
    (rescue_triggered : bool) : option (list Principal) :=
  if is_some forced then Some [rescue_controller; self_id]
  else if rescue_triggered && is_none last_xfer_opt then Some [self_id]
  else Policy.desired_controllers now_secs last_xfer_opt self_id rescue_controller.

Definition latch_bootstrap_rescue (now_secs : Z) (s : State) : State :=
  if is_none (forced_rescue_reason s)
     && Policy.bootstrap_rescue_due now_secs (autonomous_rescue_armed_since_ts s)
          (last_successful_transfer_ts s)
  then s <| forced_rescue_reason := Some BootstrapNoSuccess |> else s.

(** The controllers that a rescue tick requests in state [s], if any. *)
Definition rescue_request (now_secs : Z) (s : State) : option (list Principal) :=
  if negb (default false (autonomous_rescue_armed (config s))) then None
  else (fun l => dedup (sort_by_text l)) <$>
    desired_controllers_for_rescue_state now_secs (last_successful_transfer_ts s)
      (rescue_controller (config s)) (forced_rescue_reason s) (rescue_triggered s).

Definition rescue_tick : async unit :=
  t ← now;
  let now_secs := t / 1000000000 in
  modify (fun h => h <| st ::= latch_bootstrap_rescue now_secs |>) ;;
  s ← with_state st;
  match rescue_request now_secs s with
  | None => mret tt
  | Some desired =>
      let rescue_active := bool_decide (rescue_controller (config s) ∈ desired) in
      r ← update_settings (controller_update_settings desired);
      match r with
      | Err _ => mret tt
      | Ok _ =>
          modify (fun h => h <| st ::= (fun s =>
            s <| rescue_triggered := rescue_active |> <| last_rescue_check_ts := now_secs |>) |>)
      end
  end.

(** ** Event Horizon pokes *)

Definition EVENT_HORIZON_POKE_INTERVAL_SECONDS : Z := 10.
Definition NANOS_PER_SECOND : Z := 1000000000.
Inductive DeferredTimerAction := Stop | Reschedule (delay_ns : Z) | Attempt.

Definition record_hint (now_ns : Z) (r : PokeRuntimeState) : bool * PokeRuntimeState :=
  (negb (timer_pending r),
   r <| due_at_ns := Some (sat_add now_ns (EVENT_HORIZON_POKE_INTERVAL_SECONDS * NANOS_PER_SECOND)) |>
     <| timer_pending := true |>).

Definition admit_attempt (now_ns : Z) (r : PokeRuntimeState) : bool * PokeRuntimeState :=
  if now_ns <? next_attempt_allowed_at_ns r then (false, r)
  else (true, r <| next_attempt_allowed_at_ns :=
                 sat_add now_ns (EVENT_HORIZON_POKE_INTERVAL_SECONDS * NANOS_PER_SECOND) |>).

Definition deferred_timer_action (now_ns : Z) (r : PokeRuntimeState)
    : DeferredTimerAction * PokeRuntimeState :=
  match due_at_ns r with
  | Some due =>
      if now_ns <? due then (Reschedule (due - now_ns), r)
      else (Attempt, r <| due_at_ns := None |> <| timer_pending := false |>)
  | None => (Stop, r <| timer_pending := false |>)
  end.

Definition with_poke {X} (f : PokeRuntimeState -> X * PokeRuntimeState) : async X :=
  with_state_mut (fun h => let '(x, r) := f (poke_runtime h) in (x, h <| poke_runtime := r |>)).

Definition schedule_deferred (delay_ns : Z) : async unit :=
  modify (fun h => h <| timers ::= (fun ts => ts ++ [DeferredPoke delay_ns]) |>).

Definition run_worker : async unit :=
  now_nanos ← now;
  cfg ← with_state (fun h => config (st h));
  run_poke_with_clients now_nanos (now_nanos / NANOS_PER_SECOND) cfg.

(** The callback of a [DeferredPoke] timer. *)
Definition deferred_callback : async unit :=
  t ← now;
  action ← with_poke (deferred_timer_action t);
  match action with
  | Stop => mret tt
  | Reschedule remaining => schedule_deferred remaining
  | Attempt =>
      admitted ← with_poke (admit_attempt t);
      if admitted : bool then run_worker else mret tt
  end.

Definition handle_event_horizon_poke : async unit :=
  now_ns ← now;
  should_schedule ← with_poke (record_hint now_ns);
  (if should_schedule : bool
   then schedule_deferred (EVENT_HORIZON_POKE_INTERVAL_SECONDS * NANOS_PER_SECOND)
   else mret tt) ;;
  admitted ← with_poke (admit_attempt now_ns);
  if admitted : bool then run_worker else mret tt.

End tick.

(** ** The specification of the main tick *)

Section main_spec.
Context `{A : AccountSpec} {L : AccountLaws} `{T : TextSpec}.
Context (self_id : Principal) (e : env Heap SuiteCall) (cfg : Config) (now_secs : Z)
        (guard : MainGuard).

(** The run marker is far from its maximum: fewer than 2^63 runs. *)
Definition marker_bounded (h : Heap) : Prop := main_run_marker h <= 2 ^ 63.
Hypothesis marker_rely : forall n h, marker_bounded (env_interleave e n h).
Hypothesis guard_active : Timer.active (inner guard) = true.
Hypothesis guard_expiry : expiry guard <> 0.

(** A maturity disbursement: the last neuron read of the run showed none in
    flight, the payout is settled, the age snapshot that the next payout will
    split by is already persisted, and the run holds the lease. *)
Definition disburse_event (ev : event Heap SuiteCall) : Prop :=
  exists h n neuron,
    ev = Dispatch (ManageNeuron (governance_canister_id cfg) (neuron_id cfg)
                     (DisburseMaturity 100 self_id None)) h /\
    env_reply e n _ (GetFullNeuron (governance_canister_id cfg) (neuron_id cfg)) = Ok (Ok neuron) /\
    maturity_in_flight neuron = false /\ payout_plan (st h) = None /\
    prev_age_seconds (st h) = sat_sub now_secs (aging_since_timestamp_seconds neuron) /\
    lease_held guard h.

Definition maintenance_event (ev : event Heap SuiteCall) : Prop :=
  exists h,
    ev = Dispatch (GetFullNeuron (governance_canister_id cfg) (neuron_id cfg)) h \/
    ev = Dispatch (ManageNeuron (governance_canister_id cfg) (neuron_id cfg) ClaimOrRefresh) h \/
    ev = Dispatch (ManageNeuron (governance_canister_id cfg) (neuron_id cfg) RefreshVotingPower) h.

Definition main_event (ev : event Heap SuiteCall) : Prop :=
  payout_event self_id cfg guard ev \/ disburse_event ev \/ maintenance_event ev.

(** The run's own lease does not outlive it. *)
Definition lease_gone (h : Heap) : Prop := ~ lease_held guard h.

Definition main_post (w : world Heap SuiteCall) {X} (_ : X) (w' : world Heap SuiteCall) : Prop :=
  lease_gone (w_state w') /\ traced main_event (w_trace w) w'.

Lemma release_state_gone s :
  main_lock_state_ts (release_state guard s) <> Some (expiry guard).
Proof.
  unfold release_state, Timer.is_active. rewrite guard_active. cbn.
  destruct (Timer.release _ _).1 eqn:E; [cbn; intros [= Hz]; by apply guard_expiry|]. intros Hl.
  assert ((Timer.release (inner guard) (main_lock_state_ts s)).1 = Released); [|congruence].
  by apply timer_release_Released.
Qed.

Lemma wp_drop_guard w0 w :
  traced main_event (w_trace w0) w -> wp e (drop_guard guard) (main_post w0) w.
Proof.
  intros Ht. unfold drop_guard. wp_step. split; [apply release_state_gone|exact Ht].
Qed.

Lemma wp_finish w0 w :
  marker_bounded (w_state w) -> traced main_event (w_trace w0) w ->
  wp e (finish guard now_secs) (main_post w0) w.
Proof.
  intros Hm Ht. unfold finish. wp_step. apply wp_is_current. intros cur Hcur.
  destruct cur; cbn [negb]; [|by apply wp_drop_guard]. specialize (Hcur eq_refl).
  wp_step. wp_step.
  destruct (Timer.release _ _).1 eqn:E.
  - wp_step. unfold advance_main_run_marker. wp_step. wp_step.
    unfold advance_marker. destruct (checked_add _ _) as [m|] eqn:Em.
    + wp_step. wp_step. split; [|exact Ht]. unfold lease_gone, lease_held. cbn.
      intros [= Hz]. by apply guard_expiry.
    + exfalso. unfold checked_add in Em. unfold marker_bounded in Hm. case_match; [done|ulia].
  - exfalso. assert ((Timer.release (inner guard) (main_lock_state_ts (st (w_state w)))).1
      = Released); [|congruence]. by apply timer_release_Released.
Qed.

Lemma main_post_weaken w w1 {X} (x : X) w' :
  traced main_event (w_trace w) w1 -> main_post w1 x w' -> main_post w x w'.
Proof. intros Ht [Hg Ht']. split; [done|]. by eapply traced_trans. Qed.

Lemma traced_maintenance w0 w {X} (c : SuiteCall X) :
  traced main_event (w_trace w0) w -> maintenance_event (Dispatch c (w_state w)) ->
  traced main_event (w_trace w0) (after_call e c w).
Proof. intros (l & E & Hl) Hc. exists (Dispatch c (w_state w) :: l). cbn. rewrite E.
  split; [done|]. constructor; [by right; right|done]. Qed.

Lemma payout_and_disburse_spec now_nanos neuron n w :
  committed marker_bounded w ->
  env_reply e n _ (GetFullNeuron (governance_canister_id cfg) (neuron_id cfg)) = Ok (Ok neuron) ->
  maturity_in_flight neuron = false ->
  wp e (payout_and_disburse self_id cfg now_nanos now_secs guard neuron)
    (fun _ w' => marker_bounded (w_state w') /\ traced main_event (w_trace w) w') w.
Proof.
  intros Hw Hn Hfl. unfold payout_and_disburse. wp_step.
  eapply wp_mono; [apply (process_payout_spec self_id e cfg now_secs guard marker_bounded)|].
  - intros. apply marker_rely.
  - intros h p i b H. exact H.
  - intros h p H. exact H.
  - intros h nonce fee base bal age H. exact H.
  - exact Hw.
  - intros ok w1 ([Hm _] & Hnone & Ht). assert (traced main_event (w_trace w) w1) as Ht1.
    { destruct Ht as (l & El & Hl). exists l. split; [done|]. eapply Forall_impl; [done|].
      intros ev H. by left. }
    destruct ok; cbn [negb]; [|by wp_step]. specialize (Hnone eq_refl).
    wp_step. apply wp_is_current. intros cur Hcur. destruct cur; cbn [negb]; [|by wp_step].
    specialize (Hcur eq_refl). wp_step. wp_step. wp_step. apply wp_disburse_maturity. intros r.
    wp_step. split; [apply marker_rely|]. destruct Ht1 as (l & El & Hl).
    eexists (_ :: l). cbn. rewrite El. split; [done|]. constructor; [|done].
    right; left. eexists _, n, neuron. repeat split; try done.
Qed.

Lemma main_tick_body_spec now_nanos w :
  committed marker_bounded w ->
  wp e (main_tick_body self_id cfg now_nanos now_secs guard)
    (fun out w' => out = Completed /\ main_post w out w') w.
Proof.
  intros Hw. unfold main_tick_body.
  assert (forall w1, marker_bounded (w_state w1) -> traced main_event (w_trace w) w1 ->
    wp e (finish guard now_secs ;; mret Completed)
      (fun out w' => out = Completed /\ main_post w out w') w1) as Hfin.
  { intros w1 Hm Ht. wp_step. eapply wp_mono; [by apply wp_finish|].
    intros u w' H. wp_step. by split. }
  assert (forall w1, traced main_event (w_trace w) w1 ->
    wp e (drop_guard guard ;; mret Completed)
      (fun out w' => out = Completed /\ main_post w out w') w1) as Hdrop.
  { intros w1 Ht. wp_step. eapply wp_mono; [by apply wp_drop_guard|].
    intros u w' H. wp_step. by split. }
  assert (forall n h, marker_bounded h -> marker_bounded (env_interleave e n h)) as Hr by auto.
  wp_step. apply wp_claim_or_refresh_neuron. intros _. set (w1 := after_call e _ w).
  assert (traced main_event (w_trace w) w1) as Ht1
    by (apply traced_maintenance; [apply traced_refl|eexists; eauto]).
  assert (committed marker_bounded w1) as Hw1 by (by apply committed_call).
  wp_step. apply wp_is_current. intros cur1 _. wp_step; [by apply Hdrop|].
  wp_step. apply wp_refresh_voting_power. intros _. set (w2 := after_call e _ w1).
  assert (traced main_event (w_trace w) w2) as Ht2
    by (apply traced_maintenance; [done|eexists; eauto]).
  assert (committed marker_bounded w2) as Hw2 by (by apply committed_call).
  wp_step. apply wp_is_current. intros cur2 _. wp_step; [by apply Hdrop|].
  wp_step. apply wp_get_full_neuron_reply. intros r Hrep. set (w3 := after_call e _ w2).
  assert (traced main_event (w_trace w) w3) as Ht3
    by (apply traced_maintenance; [done|eexists; eauto]).
  assert (committed marker_bounded w3) as Hw3 by (by apply committed_call).
  destruct r as [neuron|er]; [|apply Hfin; [apply Hw3|done]]. specialize (Hrep _ eq_refl).
  wp_step. apply wp_is_current. intros cur3 _. wp_step; [by apply Hdrop|].
  wp_step. apply (wp_mono _ _ (fun _ w' => marker_bounded (w_state w')
                                           /\ traced main_event (w_trace w3) w')).
  { destruct (maturity_in_flight neuron) eqn:Hfl.
    - wp_step. split; [apply Hw3|apply traced_refl].
    - eapply payout_and_disburse_spec; eauto. }
  intros fin w4 [Hm4 Ht4]. pose proof (traced_trans _ _ _ _ Ht3 Ht4). destruct fin; auto.
Qed.

End main_spec.

Section main_theorems.
Context `{A : AccountSpec} {L : AccountLaws} `{T : TextSpec}.

(** The guard that an admission at [now_secs] creates. *)
Definition guard_at (now_secs : Z) : MainGuard :=
  MkMainGuard (Timer.MkGuard true (sat_add now_secs MAIN_TICK_LEASE_SECONDS)).

Lemma guard_at_expiry now_secs : 0 <= now_secs -> expiry (guard_at now_secs) <> 0.
Proof. intros H. cbn. unfold MAIN_TICK_LEASE_SECONDS. ulia. Qed.

Lemma acquire_state_cases now_secs s :
  acquire_state now_secs s =
  if now_secs <? default 0 (main_lock_state_ts s) then (None, s)
  else (Some (guard_at now_secs), s <| main_lock_state_ts := Some (expiry (guard_at now_secs)) |>).
Proof. unfold acquire_state, Timer.acquire. by destruct (_ <? _). Qed.

Lemma release_acquired now_secs s :
  release_state (guard_at now_secs)
    (s <| main_lock_state_ts := Some (expiry (guard_at now_secs)) |>)
  = s <| main_lock_state_ts := Some 0 |>.
Proof.
  unfold release_state. set (s' := s <| main_lock_state_ts := Some (expiry _) |>).
  assert ((Timer.release (inner (guard_at now_secs)) (main_lock_state_ts s')).1 = Released) as ->
    by (by apply timer_release_Released).
  by destruct s.
Qed.

(** The run from the admission on. *)
Lemma admitted_run (self_id : Principal) (e : env Heap SuiteCall) cfg now_nanos now_secs h :
  0 <= now_secs -> (forall n h, marker_bounded (env_interleave e n h)) ->
  main_run_marker h < 2 ^ 63 ->
  wp e (advance_main_run_marker ;; main_tick_body self_id cfg now_nanos now_secs (guard_at now_secs))
    (fun out w' => out = Completed /\
       main_post self_id e cfg now_secs (guard_at now_secs) (World h []) out w') (World h []).
Proof.
  intros Hnow He Hlt. wp_step. unfold advance_main_run_marker. wp_step. wp_step.
  unfold advance_marker. cbn [w_state].
  destruct (checked_add _ _) as [m|] eqn:Em.
  2: { exfalso. unfold checked_add in Em. case_match; [done|]. ulia. }
  apply checked_add_Some in Em as [-> _]. wp_step.
  eapply wp_mono; [apply main_tick_body_spec|]; [done|done|by apply guard_at_expiry| |].
  - split; [|constructor]. unfold marker_bounded. cbn. unfold const. lia.
  - intros out w' H. exact H.
Qed.

Lemma wp_acquire (e : env Heap SuiteCall) now_secs (Q : option MainGuard -> world Heap SuiteCall -> Prop) w :
  (now_secs < default 0 (main_lock_state_ts (st (w_state w))) -> Q None w) ->
  (default 0 (main_lock_state_ts (st (w_state w))) <= now_secs ->
   Q (Some (guard_at now_secs))
     (World ((w_state w) <| st ::= fun s =>
               s <| main_lock_state_ts := Some (expiry (guard_at now_secs)) |> |>) (w_trace w))) ->
  wp e (acquire now_secs) Q w.
Proof.
  intros HN HS. unfold acquire. wp_step. rewrite acquire_state_cases.
  destruct (_ <? _) eqn:E; zify_bool; [|by apply HS].
  destruct w as [[] ]. by apply HN.
Qed.

(** C24: The main tick always returns.  It is busy exactly when another lease
    is unexpired, and then changes nothing; it is deferred, without a call and
    with the lease given back, exactly when it is not forced and the previous
    run is too recent; otherwise every call it makes is maintenance, a payout
    call of its plan, or a maturity disbursement made with nothing in flight,
    no payout left, the age snapshot persisted and the lease held; and its
    lease never outlives it. *)
Theorem main_tick_outcomes (self_id : Principal) (e : env Heap SuiteCall) (cfg : Config)
    (force : bool) (now_nanos now_secs : Z) (h : Heap) (Hnow : 0 <= now_secs)
    (Hlt : main_run_marker h < 2 ^ 63)
    (He : forall n h, marker_bounded (env_interleave e n h)) :
  let busy := now_secs <? default 0 (main_lock_state_ts (st h)) in
  let remaining := main_tick_remaining now_secs (st h) in
  exists out w',
    run_main_tick_with_clients self_id force now_nanos now_secs cfg e (World h [])
      = (Returned out, w') /\
    match out with
    | MainGuardBusy => busy = true /\ w' = World h []
    | Deferred r =>
        busy = false /\ force = false /\ r = remaining /\ 0 < r /\
        w' = World (h <| st ::= fun s => s <| main_lock_state_ts := Some 0 |> |>) []
    | Completed =>
        busy = false /\ (force = true \/ remaining = 0) /\
        traced (main_event self_id e cfg now_secs (guard_at now_secs)) [] w' /\
        ~ lease_held (guard_at now_secs) (w_state w')
    end.
Proof.
  intros busy remaining.
  match goal with |- exists out w', _ = _ /\ @?Q out w' => set (Post := Q) end.
  assert (wp e (run_main_tick_with_clients self_id force now_nanos now_secs cfg) Post (World h []))
    as H; [|apply wp_returns in H as (out & w' & ? & ?); eauto].
  unfold run_main_tick_with_clients. wp_step. apply wp_acquire; cbn [w_state w_trace]; intros Hl.
  { wp_step. split; [by apply Z.ltb_lt|done]. }
  assert (busy = false) as Hb by (by apply Z.ltb_ge). set (h1 := h <| st ::= _ |>).
  wp_step. wp_step. change (main_tick_remaining now_secs (st (w_state (World h1 [])))) with remaining.
  destruct (negb force && (0 <? remaining)) eqn:Hd.
  - unfold drop_guard. wp_step. wp_step. wp_step. zify_bool. destruct force; [done|].
    repeat (split; [done|]). cbn. f_equal. unfold h1. destruct h as [s r m pk ts].
    exact (f_equal (fun s => MkHeap s r m pk ts) (release_acquired now_secs s)).
  - eapply wp_mono; [by apply (admitted_run self_id e cfg now_nanos now_secs h1)|].
    intros out w' (-> & Hg & Ht). split; [done|]. split; [|by split].
    destruct force; [by left|right]. cbn in Hd. unfold remaining, main_tick_remaining in *.
    zify_bool. ulia.
Qed.

End main_theorems.

(** ** The one-shot retry *)

Section retry.
Context `{A : AccountSpec}.

(** The cells of the heap and the reservations of the retry timers that have
    been set and have not fired. *)
Inductive retry_step : Heap * list Z -> Heap * list Z -> Prop :=
| retry_reserve h h' r o :
    reserve_scheduled_main_retry h = (Some r, h') -> retry_step (h, o) (h', r :: o)
| retry_fire h r o1 o2 :
    retry_step (h, o1 ++ r :: o2) ((consume_reservation r h).2, o1 ++ o2)
| retry_advance h h' o : advance_marker h = Some h' -> retry_step (h, o) (h', o)
| retry_other h h' o :
    main_run_marker h' = main_run_marker h ->
    scheduled_main_retry_pending h' = scheduled_main_retry_pending h ->
    retry_step (h, o) (h', o).

(** The callback of reservation [r] would run a main tick in heap [h]. *)
Definition retry_live (h : Heap) (r : Z) : bool :=
  (consume_reservation r h).1 && (main_run_marker h =? r).

Definition retry_inv (x : Heap * list Z) : Prop :=
  let '(h, o) := x in
  Forall (fun r => r <= main_run_marker h) o /\
  count (fun r => main_run_marker h =? r) o =
    (if bool_decide (scheduled_main_retry_pending h = Some (main_run_marker h)) then 1 else 0)%nat.

Lemma retry_inv_fire h r o1 o2 :
  retry_inv (h, o1 ++ r :: o2) -> retry_inv ((consume_reservation r h).2, o1 ++ o2).
Proof.
  intros [Hle Hc]. rewrite count_app in Hc. cbn in Hc.
  apply Forall_app in Hle as [Hle1 Hle2]. apply Forall_cons in Hle2 as [_ Hle2].
  assert (Forall (fun r => r <= main_run_marker h) (o1 ++ o2)) as Hle by (by apply Forall_app).
  unfold consume_reservation.
  destruct (decide (scheduled_main_retry_pending h = Some r)) as [Hp|Hp];
    [rewrite (bool_decide_eq_true_2 _ Hp)|rewrite (bool_decide_eq_false_2 _ Hp)];
    unfold retry_inv; cbn; unfold const; (split; [done|]); rewrite count_app.
  - rewrite Hp in Hc. destruct (main_run_marker h =? r) eqn:E; zify_bool.
    + subst r. rewrite bool_decide_eq_true_2 in Hc by done. case_bool_decide; [done|]. lia.
    + rewrite bool_decide_eq_false_2 in Hc by (intros [=]; lia). case_bool_decide; [done|]. lia.
  - destruct (main_run_marker h =? r) eqn:E; zify_bool.
    + subst r. rewrite bool_decide_eq_false_2 in Hc by done. lia.
    + exact Hc.
Qed.

Lemma retry_inv_step x y : retry_inv x -> retry_step x y -> retry_inv y.
Proof.
  intros Hinv Hstep.
  destruct Hstep as [h h' r o Hr|h r o1 o2|h h' o Ha|h h' o Em Ep].
  - unfold reserve_scheduled_main_retry in Hr. case_bool_decide as Hp; [done|].
    injection Hr as <- <-. destruct Hinv as [Hle Hc]. cbn in *.
    rewrite bool_decide_eq_false_2 in Hc by done. split; cbn.
    + constructor; [lia|done].
    + rewrite Z.eqb_refl, bool_decide_eq_true_2 by done. lia.
  - by apply retry_inv_fire.
  - unfold advance_marker in Ha. destruct (checked_add _ _) as [m|] eqn:Em; [|done].
    apply checked_add_Some in Em as [-> _]. injection Ha as <-. destruct Hinv as [Hle Hc].
    split; cbn; unfold const.
    + eapply Forall_impl; [exact Hle|]. cbn. lia.
    + rewrite bool_decide_eq_false_2 by done. apply count_zero.
      eapply Forall_impl; [exact Hle|]. cbn. intros r Hr. apply Z.eqb_neq. lia.
  - unfold retry_inv in *. by rewrite Em, Ep.
Qed.

(** However ticks, retries and reservations interleave, at most one of
    the retry callbacks that are still set can start a main tick. *)
Theorem at_most_one_retry (s : State) (h : Heap) (o : list Z)
    (Hreach : rtc retry_step (fresh_heap s, []) (h, o)) :
  (count (retry_live h) o <= 1)%nat.
Proof.
  assert (retry_inv (h, o)) as [_ Hc].
  { revert Hreach. apply (rtc_ind_r retry_inv); [|eauto using retry_inv_step].
    split; cbn; [constructor|]. by rewrite bool_decide_eq_false_2 by done. }
  etrans; [apply (count_mono _ (fun r => main_run_marker h =? r))|].
  - apply Forall_true. unfold retry_live. intros r H. zify_bool. by apply Z.eqb_eq.
  - rewrite Hc. case_bool_decide; lia.
Qed.

End retry.

(** ** The rescue tick *)

Section rescue.
Context `{A : AccountSpec} `{T : TextSpec}.
Context (self_id : Principal).

Lemma rescue_request_controllers now_secs s l :
  rescue_request self_id now_secs s = Some l ->
  autonomous_rescue_armed (config s) = Some true /\ NoDup l /\ self_id ∈ l /\
  (forall x, x ∈ l -> x = self_id \/ x = rescue_controller (config s)).
Proof.
  unfold rescue_request.
  destruct (autonomous_rescue_armed (config s)) as [[]|]; cbn; [|done..].
  intros (d & Hd & ->)%fmap_Some. split; [done|].
  assert (d = [self_id] \/ d = [rescue_controller (config s); self_id]) as [-> | ->].
  { unfold desired_controllers_for_rescue_state, Policy.desired_controllers in Hd.
    repeat case_match; simplify_eq; auto. }
  - cbn. split; [apply NoDup_singleton|]. set_solver.
  - destruct (normalize_two (rescue_controller (config s)) self_id) as [Hnd Hin].
    split; [done|]. split; [apply Hin; by right|]. intros x. rewrite Hin. tauto.
Qed.

(** A rescue tick always returns.  It asks the management canister for new
    controllers at most once and only when autonomous rescue is armed; the
    requested set is duplicate-free, contains the canister itself, adds at most
    the rescue controller and keeps the canister publicly observable; and the
    rescue flags are written only after the update succeeded. *)
Theorem rescue_tick_controllers (e : env Heap SuiteCall) (w : world Heap SuiteCall) :
  let now_secs := env_clock e (length (w_trace w)) / 1000000000 in
  let h := (w_state w) <| st ::= latch_bootstrap_rescue now_secs |> in
  exists w', rescue_tick self_id e w = (Returned tt, w') /\
  match rescue_request self_id now_secs (st h) with
  | None => w' = World h (w_trace w)
  | Some l =>
      autonomous_rescue_armed (config (st h)) = Some true /\ NoDup l /\ self_id ∈ l /\
      (forall x, x ∈ l -> x = self_id \/ x = rescue_controller (config (st h))) /\
      w_trace w' = Dispatch (UpdateSettings (MkUpdateSettings _ self_id (Some l)
                      (Some LogPublic) (Some LogPublic))) h :: w_trace w /\
      let h' := env_interleave e (length (w_trace w)) h in
      w_state w' = h' \/
      w_state w' = h' <| st ::= fun s =>
        s <| rescue_triggered := bool_decide (rescue_controller (config (st h)) ∈ l) |>
          <| last_rescue_check_ts := now_secs |> |>
  end.
Proof.
  intros now_secs h. 
  match goal with |- exists w', _ = _ /\ @?Q w' => set (Post := fun (_ : unit) w' => Q w') end.
  assert (wp e (rescue_tick self_id) Post w) as H.
  2: { apply wp_returns in H as ([] & w' & ? & ?). eauto. }
  unfold rescue_tick. do 2 wp_step. fold now_secs. do 2 wp_step. fold h. wp_step. wp_step.
  cbn [w_state]. subst Post.
  destruct (rescue_request self_id now_secs (st h)) as [l|] eqn:Hr; [|by wp_step].
  apply rescue_request_controllers in Hr as (Ha & Hnd & Hself & Hsub).
  wp_step. unfold update_settings. apply wp_await. intros r s -> ->. cbn beta.
  destruct (env_reply _ _ _ _) as [[]|err]; wp_step; (repeat (split; [done|])); cbn; auto.
Qed.

End rescue.

(** ** Pokes *)

Section poke.

Definition POKE_NS : Z := EVENT_HORIZON_POKE_INTERVAL_SECONDS * NANOS_PER_SECOND.

(** The clock, the poke cell, the number of deferred timers that are set and
    the times of the admitted attempts, newest first. *)
Record PokeWorld := PW {
  pw_clock : Z; pw_runtime : PokeRuntimeState; pw_timers : nat; pw_attempts : list Z }.

Definition log_attempt (t : Z) (admitted : bool) (l : list Z) : list Z :=
  if admitted then t :: l else l.

(** [handle_event_horizon_poke] and the timer callback, up to the worker. *)
Definition hint_effect (t : Z) (r : PokeRuntimeState) (n : nat) (l : list Z) : PokeWorld :=
  let '(s, r1) := record_hint t r in
  let '(a, r2) := admit_attempt t r1 in
  PW t r2 (if s then S n else n) (log_attempt t a l).
Definition fire_effect (t : Z) (r : PokeRuntimeState) (n : nat) (l : list Z) : PokeWorld :=
  let '(action, r1) := deferred_timer_action t r in
  let '(a, r2) := match action with Attempt => admit_attempt t r1 | _ => (false, r1) end in
  PW t r2 (match action with Reschedule _ => S n | _ => n end) (log_attempt t a l).

Inductive poke_step : PokeWorld -> PokeWorld -> Prop :=
| poke_hint c t r n l :
    c <= t -> t + POKE_NS <= u64_max -> poke_step (PW c r n l) (hint_effect t r n l)
| poke_fire c t r n l :
    c <= t -> t + POKE_NS <= u64_max -> poke_step (PW c r (S n) l) (fire_effect t r n l).

Definition spaced (l : list Z) : Prop :=
  forall i a b, l !! i = Some a -> l !! S i = Some b -> b + POKE_NS <= a.

Definition poke_inv (w : PokeWorld) : Prop :=
  let r := pw_runtime w in
  pw_timers w = (if timer_pending r then 1 else 0)%nat /\
  timer_pending r = is_some (due_at_ns r) /\
  (forall d, due_at_ns r = Some d -> next_attempt_allowed_at_ns r <= d) /\
  spaced (pw_attempts w) /\
  next_attempt_allowed_at_ns r = match pw_attempts w with [] => 0 | a :: _ => a + POKE_NS end /\
  next_attempt_allowed_at_ns r <= pw_clock w + POKE_NS.

Lemma spaced_cons t l :
  spaced l -> match l with [] => True | a :: _ => a + POKE_NS <= t end -> spaced (t :: l).
Proof.
  intros Hl Ht [|i] a b; cbn; [|by apply Hl]. intros [= <-]. destruct l as [|x l]; [done|].
  by intros [= <-].
Qed.

Lemma poke_step_clock w w' : poke_step w w' -> pw_clock w <= pw_clock w'.
Proof.
  destruct 1; [unfold hint_effect|unfold fire_effect];
    repeat (case_match; simplify_eq); cbn; done.
Qed.

Lemma poke_inv_init : poke_inv (PW 0 (MkPoke None false 0) 0 []).
Proof. repeat split; cbn; try done; intros; by simplify_eq. Qed.

Lemma poke_inv_step w w' : 0 <= pw_clock w -> poke_inv w -> poke_step w w' -> poke_inv w'.
Proof.
  assert (HP : POKE_NS = 10000000000) by done.
  intros Hc0 (Hn & Hp & Hd & Hs & Hnext & Hnc) Hstep. revert Hc0 Hn Hp Hd Hs Hnext Hnc.
  destruct Hstep as [c t r n l Hc Ht|c t r n l Hc Ht]; cbn [pw_clock pw_runtime pw_timers pw_attempts];
    intros Hc0 Hn Hp Hd Hs Hnext Hnc; destruct r as [due pend next]; cbn in Hn, Hp, Hd, Hnext, Hnc.
  - unfold hint_effect, record_hint, admit_attempt. cbn. fold POKE_NS. unfold const.
    assert (sat_add t POKE_NS = t + POKE_NS) as -> by ulia.
    destruct (t <? next) eqn:E; zify_bool; unfold poke_inv; cbn.
    + split; [by destruct pend; subst|]. split; [done|].
      split; [intros d [= <-]; lia|]. split; [done|]. split; [done|lia].
    + split; [by destruct pend; subst|]. split; [done|].
      split; [intros d [= <-]; lia|]. split; [|split; lia].
      apply spaced_cons; [done|]. destruct l; [done|lia].
  - unfold fire_effect, deferred_timer_action, admit_attempt. destruct due as [d|]; cbn in Hp |- *.
    2: { subst pend. done. }
    specialize (Hd d eq_refl). subst pend. destruct (t <? d) eqn:E; zify_bool; cbn; fold POKE_NS;
      unfold const, poke_inv.
    + cbn. split; [done|]. split; [done|]. split; [intros ? [= <-]; lia|].
      split; [done|]. split; [done|lia].
    + assert (t <? next = false) as -> by (apply Z.ltb_ge; lia). cbn.
      assert (sat_add t POKE_NS = t + POKE_NS) as -> by ulia.
      split; [lia|]. split; [done|]. split; [done|]. split; [|split; lia].
      apply spaced_cons; [done|]. destruct l; [done|lia].
Qed.

(** Pokes are rate limited and never lost: in every reachable state the
    admitted attempts are at least ten seconds apart, at most one deferred
    timer is set, a recorded hint has one, and when it fires as an attempt the
    attempt is admitted. *)
Theorem poke_rate_limit (w : PokeWorld)
    (Hreach : rtc poke_step (PW 0 (MkPoke None false 0) 0 []) w) :
  spaced (pw_attempts w) /\ (pw_timers w <= 1)%nat /\
  (due_at_ns (pw_runtime w) <> None -> pw_timers w = 1%nat) /\
  forall t r, pw_clock w <= t ->
    deferred_timer_action t (pw_runtime w) = (Attempt, r) -> (admit_attempt t r).1 = true.
Proof.
  assert (poke_inv w /\ 0 <= pw_clock w) as [(Hn & Hp & Hd & Hs & _) _].
  { revert Hreach. apply (rtc_ind_r (fun w => poke_inv w /\ 0 <= pw_clock w)).
    - split; [apply poke_inv_init|done].
    - intros y z _ Hstep [Hi Hc]. split; [by eapply poke_inv_step|].
      pose proof (poke_step_clock _ _ Hstep). lia. }
  split; [done|]. rewrite Hn, Hp. destruct (pw_runtime w) as [due pend next]. cbn in *.
  split; [by destruct due; cbn; lia|]. split; [by destruct due|].
  intros t r _. unfold deferred_timer_action, admit_attempt. cbn.
  destruct due as [d|]; [|done]. destruct (t <? d) eqn:E; [done|]. intros [= <-]. cbn.
  specialize (Hd d eq_refl). zify_bool. by rewrite (proj2 (Z.ltb_ge _ _)) by lia.
Qed.

End poke.

(** ** Witnesses *)

Section witnesses.
Import Concrete ConcreteTexts ConcreteDisburser.
Let self : Principal (PrincipalSpec:=concrete_principal) := 9.

Lemma main_tick_outcomes_witness : exists out w',
  run_main_tick_with_clients (A:=concrete_account) self true 5 86400 cfg
    (Env (fun _ X c => reply_ok 1000000 10000 c) (fun _ _ => heap) (fun _ => 86400000000000))
    (World heap []) = (Returned out, w').
Proof.
  destruct (main_tick_outcomes (A:=concrete_account) self
    (Env (fun _ X c => reply_ok 1000000 10000 c) (fun _ _ => heap) (fun _ => 86400000000000))
    cfg true 5 86400 heap) as (out & w' & E & _).
  - lia.
  - vm_compute. reflexivity.
  - intros n h. vm_compute. discriminate.
  - exists out, w'. exact E.
Defined.

Lemma at_most_one_retry_witness : exists h,
  rtc (retry_step (P:=concrete_principal)) (fresh_heap state, []) (h, [0]) /\
  (count (retry_live h) [0%Z] <= 1)%nat.
Proof.
  eexists.
  assert (rtc (retry_step (P:=concrete_principal)) (fresh_heap state, []) (_, [0])) as H
    by (eapply rtc_l; [apply retry_reserve; vm_compute; reflexivity|apply rtc_refl]).
  split; [exact H|]. exact (at_most_one_retry state _ _ H).
Defined.

Lemma poke_rate_limit_witness :
  rtc poke_step (PW 0 (MkPoke None false 0) 0 []) (hint_effect 5 (MkPoke None false 0) 0 []) /\
  (pw_timers (hint_effect 5 (MkPoke None false 0) 0 []) <= 1)%nat.
Proof.
  assert (rtc poke_step (PW 0 (MkPoke None false 0) 0 [])
            (hint_effect 5 (MkPoke None false 0) 0 [])) as H
    by (eapply rtc_l; [apply (poke_hint 0 5); vm_compute; discriminate|apply rtc_refl]).
  split; [exact H|]. exact (proj1 (proj2 (poke_rate_limit _ H))).
Defined.

End witnesses.
