(* ===== verification/Accounts.v ===== *)
(** * Ledger account encodings: [crates/ic-clients/src/account.rs] and
    [account_identifier.rs]

    SHA-224, CRC-32 and hexadecimal text come from other crates. *)

From S2P Require Import Prelude Ic.

Class HashSpec := {
  sha224 : list Z -> list Z;
  crc32 : list Z -> Z;
  hex_encode : list Z -> list Z;
}.

Section accounts.
Context `{P : PrincipalSpec} `{H : HashSpec}.

Definition principal_to_subaccount (principal : Principal) : list Z :=
  let bytes := principal_as_slice principal in
  let len := Nat.min (length bytes) 31 in
  Z.of_nat (length bytes) mod 256 :: take len bytes ++ replicate (31 - len) 0.

Definition account_identifier_bytes (o : Principal) (sub : option (list Z)) : list Z :=
  let sub := default (replicate 32 0) sub in
  let hash := sha224 (bytes_of_string (String.String (Ascii.ascii_of_N 10) "account-id")
                      ++ principal_as_slice o ++ sub) in
  be_bytes 4 (crc32 hash) ++ hash.

Definition account_identifier_text (o : Principal) (sub : option (list Z)) : list Z :=
  hex_encode (account_identifier_bytes o sub).

Definition account_identifier_text_for_account (a : Account) : list Z :=
  account_identifier_text (owner a) (subaccount a).

End accounts.

Section theorems.
Context `{P : PrincipalSpec}.

Lemma length_principal_to_subaccount p : length (principal_to_subaccount p) = 32%nat.
Proof.
  unfold principal_to_subaccount. cbn. rewrite length_app, length_take, length_replicate. lia.
Qed.

(** The deposit subaccount of a principal is 32 bytes and determines the
    principal's bytes: principals of at most 31 bytes never share one. *)
Theorem principal_to_subaccount_injective (p q : Principal)
    (Hp : (length (principal_as_slice p) <= 31)%nat)
    (Hq : (length (principal_as_slice q) <= 31)%nat) :
  length (principal_to_subaccount p) = 32%nat /\
  (principal_to_subaccount p = principal_to_subaccount q <->
     principal_as_slice p = principal_as_slice q).
Proof.
  split; [apply length_principal_to_subaccount|]. unfold principal_to_subaccount.
  rewrite !Nat.min_l by lia. rewrite !firstn_all2 by lia.
  split; [|by intros ->]. intros E. injection E as El Eb.
  rewrite !Z.mod_small in El by lia. apply Nat2Z.inj in El.
  by apply app_inj_1 in Eb as [Eb _].
Qed.

End theorems.

Module ConcreteHash.
#[export] Instance concrete_hash : HashSpec := {
  sha224 := fun l => take 28 (l ++ replicate 28 0);
  crc32 := fun l => sumZ l;
  hex_encode := fun l => l;
}.
End ConcreteHash.

Lemma principal_to_subaccount_injective_witness :
  length (principal_to_subaccount (P:=Concrete.concrete_principal) 5) = 32%nat.
Proof.
  refine (proj1 (principal_to_subaccount_injective (P:=Concrete.concrete_principal) 5 6 _ _));
    cbn; lia.
Defined.
