(* ===== verification/FaucetState.v ===== *)
(** * Faucet: state, dispatch provenance and lifecycle

    [canisters/faucet/src/state.rs], [state/transfer_dispatch.rs] and
    [lib.rs].  The heap holds the persisted [State], the dispatch record of
    stable memory 2, the skip-range map of stable memory 1 (its entries in
    ascending key order) and the thread-local cells. *)

From S2P Require Import Prelude Async Ic Clients.

Section state.
Context `{A : AccountSpec}.

Record Config := MkConfig {
  staking_account : Account;
  payout_subaccount : option (list Z);
  ledger_canister_id : Principal;
  index_canister_id : Principal;
  cmc_canister_id : Principal;
  governance_canister_id : option Principal;
  funding_source_account : Account;
  rescue_controller : Principal;
  autonomous_rescue_armed : option bool;
  expected_first_staking_tx_id : option Z;
  main_interval_seconds : Z;
  rescue_interval_seconds : Z;
  min_tx_e8s : Z;
  stake_recognition_delay_seconds : option Z;
}.

Inductive TransferKind :=
| Beneficiary | CyclesTopUpRawFallback | RawIcp | NeuronStake | RemainderToRelay.
#[global] Instance TransferKind_eq_dec : EqDecision TransferKind.
Proof. solve_decision. Defined.

Definition is_beneficiary_payout (k : TransferKind) : bool :=
  match k with
  | Beneficiary | CyclesTopUpRawFallback | RawIcp | NeuronStake => true
  | RemainderToRelay => false
  end.
Definition requires_cmc_notify (k : TransferKind) : bool :=
  match k with Beneficiary => true | _ => false end.

Record PendingNotification := MkPendingNotification {
  kind : TransferKind;
  beneficiary : Principal;
  gross_share_e8s : Z;
  amount_e8s : Z;
  block_index : Z;
  pn_next_start : option Z;
  transfer_memo : option (list Z);
  destination_subaccount : option (list Z);
  neuron_id : option Z;
}.
#[global] Instance PendingNotification_eq_dec : EqDecision PendingNotification.
Proof. pose proof Principal_eq_dec. solve_decision. Defined.

Inductive PendingTransferPhase := AwaitingTransfer | TransferAccepted.
#[global] Instance PendingTransferPhase_eq_dec : EqDecision PendingTransferPhase.
Proof. solve_decision. Defined.

Record PendingTransfer := MkPendingTransfer {
  notification : PendingNotification;
  created_at_time_nanos : Z;
  phase : PendingTransferPhase;
}.
#[global] Instance PendingTransfer_eq_dec : EqDecision PendingTransfer.
Proof. solve_decision. Defined.

Inductive ForcedRescueReason :=
| BootstrapNoSuccess | IndexAnchorMissing | IndexLatestInvariantBroken | IndexLatestUnreadable
| CmcZeroSuccessRuns | AccountingInvariantBroken | FundingTrancheBalanceMismatch
| FundingDiscoveryUnreadable.
#[global] Instance ForcedRescueReason_eq_dec : EqDecision ForcedRescueReason.
Proof. solve_decision. Defined.

Record Summary := MkSummary {
  s_pot_start_e8s : Z;
  s_pot_remaining_e8s : Z;
  s_denom_staking_balance_e8s : Z;
  s_effective_denom_staking_balance_e8s : option Z;
  s_funding_tx_id : option Z;
  s_funding_amount_e8s : option Z;
  s_round_end_latest_tx_id : option Z;
  s_round_end_time_nanos : option Z;
  s_last_processed_funding_tx_id : option Z;
  s_topped_up_count : Z;
  s_topped_up_sum_e8s : Z;
  s_topped_up_min_e8s : option Z;
  s_topped_up_max_e8s : option Z;
  s_failed_topups : Z;
  s_ambiguous_topups : Z;
  s_ignored_under_threshold : Z;
  s_ignored_bad_memo : Z;
  s_remainder_to_relay_e8s : Z;
}.

Record FundingTrancheState := MkTranche {
  tranche_tx_id : Z;
  tranche_timestamp_nanos : Z;
  tranche_amount_e8s : Z;
}.
#[global] Instance FundingTrancheState_eq_dec : EqDecision FundingTrancheState.
Proof. solve_decision. Defined.

Record FundingScanState := MkFundingScan {
  anchor_last_processed_funding_tx_id : option Z;
  cursor : option Z;
  candidate : option FundingTrancheState;
}.
#[global] Instance FundingScanState_eq_dec : EqDecision FundingScanState.
Proof. solve_decision. Defined.

Record ActivePayoutJob := MkJob {
  job_id : Z;
  fee_e8s : Z;
  pot_start_e8s : Z;
  denom_staking_balance_e8s : Z;
  next_start : option Z;
  scan_complete : bool;
  ignored_under_threshold : Z;
  ignored_bad_memo : Z;
  gross_outflow_e8s : Z;
  topped_up_count : Z;
  topped_up_sum_e8s : Z;
  topped_up_min_e8s : option Z;
  topped_up_max_e8s : option Z;
  failed_topups : Z;
  ambiguous_topups : Z;
  remainder_to_relay_e8s : Z;
  pending_transfer : option PendingTransfer;
  skip_candidate_start_tx_id : option Z;
  skip_candidate_end_tx_id : option Z;
  skip_candidate_tx_count : Z;
  next_created_at_time_nanos : Z;
  observed_oldest_tx_id : option Z;
  observed_latest_tx_id : option Z;
  cmc_attempt_count : option Z;
  cmc_success_count : option Z;
  cmc_attempted_beneficiaries : option (list Principal);
  round_start_time_nanos : option Z;
  round_start_latest_tx_id : option Z;
  round_end_time_nanos : option Z;
  round_end_latest_tx_id : option Z;
  effective_denom_staking_balance_e8s : option Z;
  effective_denom_scan_complete_flag : option bool;
  funding_tx_id : option Z;
  funding_tx_timestamp_nanos : option Z;
  funding_amount_e8s : option Z;
}.

Definition ActivePayoutJob_new (id fee pot_start denom created_at : Z) : ActivePayoutJob := {|
  job_id := id; fee_e8s := fee; pot_start_e8s := pot_start; denom_staking_balance_e8s := denom;
  next_start := None; scan_complete := false;
  ignored_under_threshold := 0; ignored_bad_memo := 0; gross_outflow_e8s := 0;
  topped_up_count := 0; topped_up_sum_e8s := 0;
  topped_up_min_e8s := None; topped_up_max_e8s := None;
  failed_topups := 0; ambiguous_topups := 0; remainder_to_relay_e8s := 0;
  pending_transfer := None;
  skip_candidate_start_tx_id := None; skip_candidate_end_tx_id := None;
  skip_candidate_tx_count := 0;
  next_created_at_time_nanos := created_at;
  observed_oldest_tx_id := None; observed_latest_tx_id := None;
  cmc_attempt_count := Some 0; cmc_success_count := Some 0;
  cmc_attempted_beneficiaries := Some [];
  round_start_time_nanos := None; round_start_latest_tx_id := None;
  round_end_time_nanos := None; round_end_latest_tx_id := None;
  effective_denom_staking_balance_e8s := None; effective_denom_scan_complete_flag := None;
  funding_tx_id := None; funding_tx_timestamp_nanos := None; funding_amount_e8s := None;
|}.

Definition configure_round_accounting (start_time start_latest : option Z) (end_time : Z)
    (end_latest : option Z) (effective_denom : Z) (scan_done : bool) (j : ActivePayoutJob)
    : ActivePayoutJob :=
  j <| round_start_time_nanos := start_time |>
    <| round_start_latest_tx_id := start_latest |>
    <| round_end_time_nanos := Some end_time |>
    <| round_end_latest_tx_id := end_latest |>
    <| effective_denom_staking_balance_e8s := Some effective_denom |>
    <| effective_denom_scan_complete_flag := Some scan_done |>.

Definition configure_funding_tranche (tx_id timestamp_nanos amount : Z) (j : ActivePayoutJob)
    : ActivePayoutJob :=
  j <| funding_tx_id := Some tx_id |>
    <| funding_tx_timestamp_nanos := Some timestamp_nanos |>
    <| funding_amount_e8s := Some amount |>.

Record State := MkState {
  config : Config;
  last_summary : option Summary;
  last_successful_transfer_ts : option Z;
  last_rescue_check_ts : Z;
  rescue_triggered : bool;
  autonomous_rescue_armed_since_ts : option Z;
  forced_rescue_reason : option ForcedRescueReason;
  skip_range_invariant_fault : option bool;
  consecutive_index_anchor_failures : option Z;
  consecutive_index_latest_invariant_failures : option Z;
  consecutive_index_latest_unreadable_failures : option Z;
  consecutive_cmc_zero_success_runs : option Z;
  last_observed_staking_balance_e8s : option Z;
  last_observed_latest_tx_id : option Z;
  main_lock_state_ts : option Z;
  payout_nonce : Z;
  active_payout_job : option ActivePayoutJob;
  last_main_run_ts : Z;
  current_round_start_time_nanos : option Z;
  current_round_start_latest_tx_id : option Z;
  last_processed_funding_tx_id : option Z;
  active_funding_scan : option FundingScanState;
}.

Definition State_new (cfg : Config) (now_secs : Z) : State := {|
  config := cfg;
  last_summary := None;
  last_successful_transfer_ts := None;
  last_rescue_check_ts := 0;
  rescue_triggered := false;
  autonomous_rescue_armed_since_ts :=
    then_some (default false (autonomous_rescue_armed cfg)) now_secs;
  forced_rescue_reason := None;
  skip_range_invariant_fault := Some false;
  consecutive_index_anchor_failures := Some 0;
  consecutive_index_latest_invariant_failures := Some 0;
  consecutive_index_latest_unreadable_failures := Some 0;
  consecutive_cmc_zero_success_runs := Some 0;
  last_observed_staking_balance_e8s := None;
  last_observed_latest_tx_id := None;
  main_lock_state_ts := Some 0;
  payout_nonce := 1;
  active_payout_job := None;
  last_main_run_ts := sat_sub now_secs (10 * 365 * 24 * 60 * 60);
  current_round_start_time_nanos := None;
  current_round_start_latest_tx_id := None;
  last_processed_funding_tx_id := None;
  active_funding_scan := None;
|}.

(** ** Dispatch provenance ([state/transfer_dispatch.rs]) *)

Record DispatchRecord := MkDispatch {
  dispatch_job_id : Z;
  dispatch_pending : PendingTransfer;
  dispatched : bool;
}.

Inductive TimerTask :=
| MainInterval (seconds : Z)
| RescueInterval (seconds : Z)
| RescueReconcile (delay_seconds : Z)
| MainRetry (reservation delay_seconds : Z)
| DeferredPoke (delay_ns : Z)
| PokeWorker.

(** The thread-local cells of [poke.rs]. *)
Record PokeRuntimeState := MkPoke {
  due_at_ns : option Z;
  timer_pending : bool;
  next_attempt_allowed_at_ns : Z;
}.

Record Heap := MkHeap {
  st : State;
  dispatch : option DispatchRecord;
  skip_ranges : list (Z * Z);
  last_anchor_failure : option Z;
  last_latest_failure : option Z;
  scheduled_main_retry_pending : option Z;
  main_run_marker : Z;
  poke_runtime : PokeRuntimeState;
  timers : list TimerTask;
}.

Definition pending_transfer_may_have_dispatched (id : Z) (p : PendingTransfer) (h : Heap) : bool :=
  match dispatch h with
  | Some r => if (dispatch_job_id r =? id) && bool_decide (dispatch_pending r = p)
              then dispatched r else true
  | None => true
  end.

Definition set_pending_transfer_dispatch (id : Z) (p : PendingTransfer) (d : bool) (h : Heap)
    : Heap := h <| dispatch := Some (MkDispatch id p d) |>.

Definition clear_pending_transfer_dispatch (h : Heap) : Heap := h <| dispatch := None |>.

Definition latch_forced_rescue_reason (reason : ForcedRescueReason) (s : State) : State :=
  if is_none (forced_rescue_reason s) then s <| forced_rescue_reason := Some reason |> else s.

Definition latch_skip_range_invariant_fault (s : State) : State :=
  s <| skip_range_invariant_fault := Some true |>.

(** ** Lifecycle ([lib.rs]) *)

Definition MIN_MIN_TX_E8S : Z := 10000000.

(** [false] when one of the assertions panics. *)
Definition validate_config (self_id : Principal) (cfg : Config) : bool :=
  let non_anonymous p := negb (bool_decide (p = anonymous)) in
  let distinct a b := negb (account_eqb a b) in
  let payout := MkAccount _ self_id (payout_subaccount cfg) in
  non_anonymous (owner (staking_account cfg))
  && non_anonymous (ledger_canister_id cfg)
  && non_anonymous (index_canister_id cfg)
  && non_anonymous (cmc_canister_id cfg)
  && match governance_canister_id cfg with Some g => non_anonymous g | None => false end
  && non_anonymous (owner (funding_source_account cfg))
  && non_anonymous (rescue_controller cfg)
  && negb (bool_decide (rescue_controller cfg = self_id))
  && distinct (staking_account cfg) payout
  && distinct (funding_source_account cfg) payout
  && distinct (funding_source_account cfg) (staking_account cfg)
  && (0 <? main_interval_seconds cfg)
  && (0 <? rescue_interval_seconds cfg)
  && (0 <? default (24 * 60 * 60) (stake_recognition_delay_seconds cfg))
  && (MIN_MIN_TX_E8S <=? min_tx_e8s cfg).

(** [None] stands for the error, which [init] turns into a trap. *)
Definition decode_subaccount_opt (v : option (list Z)) : option (option (list Z)) :=
  match v with
  | None => Some None
  | Some bytes => if negb (Nat.eqb (length bytes) 32) then None else Some (Some bytes)
  end.

Record InitArgs := MkInitArgs {
  i_staking_account : Account;
  i_payout_subaccount : option (list Z);
  i_ledger_canister_id : option Principal;
  i_index_canister_id : option Principal;
  i_cmc_canister_id : option Principal;
  i_governance_canister_id : option Principal;
  i_funding_source_account : Account;
  i_rescue_controller : Principal;
  i_autonomous_rescue_armed : option bool;
  i_expected_first_staking_tx_id : option Z;
  i_main_interval_seconds : option Z;
  i_rescue_interval_seconds : option Z;
  i_min_tx_e8s : option Z;
  i_stake_recognition_delay_seconds : option Z;
}.

Record UpgradeArgs := MkUpgradeArgs {
  u_autonomous_rescue_armed : option bool;
  u_clear_forced_rescue : option bool;
  u_last_processed_funding_tx_id : option Z;
  u_main_interval_seconds : option Z;
  u_rescue_interval_seconds : option Z;
  u_min_tx_e8s : option Z;
  u_stake_recognition_delay_seconds : option Z;
}.

Definition apply_armed (now_secs : Z) (o : option bool) (s : State) : State :=
  match o with
  | None => s
  | Some armed =>
      let s := s <| config ::= (fun c => c <| autonomous_rescue_armed := Some armed |>) |>
                 <| autonomous_rescue_armed_since_ts := if armed then Some now_secs else None |> in
      if armed then s else s <| rescue_triggered := false |>
  end.

Definition apply_clear_forced_rescue (o : option bool) (s : State) : State * bool :=
  if default false o then
    (s <| forced_rescue_reason := None |>
       <| skip_range_invariant_fault := Some false |>
       <| consecutive_index_anchor_failures := Some 0 |>
       <| consecutive_index_latest_invariant_failures := Some 0 |>
       <| consecutive_index_latest_unreadable_failures := Some 0 |>
       <| consecutive_cmc_zero_success_runs := Some 0 |>,
     default false (autonomous_rescue_armed (config s)))
  else (s, false).

(** The funding cursor may only move forward; [None] is the assertion. *)
Definition apply_last_processed (o : option Z) (s : State) : option State :=
  match o with
  | None => Some s
  | Some new =>
      if is_some_and (last_processed_funding_tx_id s) (fun old => new <? old) then None
      else if bool_decide (last_processed_funding_tx_id s = Some new) then Some s
      else Some (s <| last_processed_funding_tx_id := Some new |> <| active_funding_scan := None |>)
  end.

Definition apply_checked (ok : Z -> bool) (set : Z -> Config -> Config) (o : option Z) (s : State)
    : option State :=
  match o with
  | None => Some s
  | Some v => if ok v then Some (s <| config ::= set v |>) else None
  end.

(** The new state and whether a controller reconciliation is scheduled. *)
Definition apply_upgrade_args_to_state (self_id : Principal) (args : option UpgradeArgs)
    (now_secs : Z) (s : State) : option (State * bool) :=
  applied ←
    match args with
    | None => Some (s, false)
    | Some a =>
        let s := apply_armed now_secs (u_autonomous_rescue_armed a) s in
        let '(s, reconcile) := apply_clear_forced_rescue (u_clear_forced_rescue a) s in
        s ← apply_last_processed (u_last_processed_funding_tx_id a) s;
        s ← apply_checked (fun v => 0 <? v) (fun v c => c <| main_interval_seconds := v |>)
              (u_main_interval_seconds a) s;
        s ← apply_checked (fun v => 0 <? v) (fun v c => c <| rescue_interval_seconds := v |>)
              (u_rescue_interval_seconds a) s;
        s ← apply_checked (fun v => MIN_MIN_TX_E8S <=? v) (fun v c => c <| min_tx_e8s := v |>)
              (u_min_tx_e8s a) s;
        s ← apply_checked (fun v => 0 <? v)
              (fun v c => c <| stake_recognition_delay_seconds := Some v |>)
              (u_stake_recognition_delay_seconds a) s;
        Some (s, reconcile)
    end;
  let '(s, reconcile) := applied in
  if validate_config self_id (config s)
  then Some (s <| main_lock_state_ts := Some 0 |>, reconcile) else None.

Definition validate_upgrade_quiescence (s : State) : bool := is_none (active_payout_job s).

Definition install_timers (h : Heap) : Heap :=
  let c := config (st h) in
  h <| timers ::= (fun ts => ts ++
    [MainInterval (Z.max (main_interval_seconds c) 60);
     RescueInterval (Z.max (rescue_interval_seconds c) 60)]) |>.

Definition fresh_heap (s : State) (d : option DispatchRecord) : Heap := {|
  st := s; dispatch := d; skip_ranges := [];
  last_anchor_failure := None; last_latest_failure := None;
  scheduled_main_retry_pending := None; main_run_marker := 0;
  poke_runtime := MkPoke None false 0; timers := [] |}.

Definition init (mainnet_ledger mainnet_index mainnet_cmc mainnet_governance self_id : Principal)
    (now_nanos : Z) (args : InitArgs) : option Heap :=
  sub ← decode_subaccount_opt (i_payout_subaccount args);
  let cfg := {|
    staking_account := i_staking_account args;
    payout_subaccount := sub;
    ledger_canister_id := default mainnet_ledger (i_ledger_canister_id args);
    index_canister_id := default mainnet_index (i_index_canister_id args);
    cmc_canister_id := default mainnet_cmc (i_cmc_canister_id args);
    governance_canister_id := Some (default mainnet_governance (i_governance_canister_id args));
    funding_source_account := i_funding_source_account args;
    rescue_controller := i_rescue_controller args;
    autonomous_rescue_armed := i_autonomous_rescue_armed args;
    expected_first_staking_tx_id := i_expected_first_staking_tx_id args;
    main_interval_seconds := default (24 * 60 * 60) (i_main_interval_seconds args);
    rescue_interval_seconds := default (24 * 60 * 60) (i_rescue_interval_seconds args);
    min_tx_e8s := default 100000000 (i_min_tx_e8s args);
    stake_recognition_delay_seconds :=
      Some (default (24 * 60 * 60) (i_stake_recognition_delay_seconds args)) |} in
  if validate_config self_id cfg
  then Some (install_timers (fresh_heap (State_new cfg (now_nanos / 1000000000)) None))
  else None.

(** The heap after an upgrade: the dispatch record is stable, the skip ranges
    are cleared, the thread-local cells are fresh; [None] is a trap. *)
Definition post_upgrade (self_id : Principal) (stable : option State)
    (stable_dispatch : option DispatchRecord) (now_nanos : Z) (args : option UpgradeArgs)
    : option Heap :=
  s ← stable;
  if negb (validate_upgrade_quiescence s) then None
  else
    r ← apply_upgrade_args_to_state self_id args (now_nanos / 1000000000) s;
    let '(s', reconcile) := r in
    let h := install_timers (fresh_heap s' stable_dispatch) in
    Some (if reconcile : bool
          then h <| timers ::= (fun ts => ts ++ [RescueReconcile 1]) |> else h).

(** ** Main lease tokens ([MainLeaseToken] of [scheduler/tick.rs]) *)

Definition MainLeaseToken : Type := option Z.
Definition capture (h : Heap) : MainLeaseToken := main_lock_state_ts (st h).
Definition is_current_in (lease : MainLeaseToken) (s : State) : bool :=
  bool_decide (main_lock_state_ts s = lease).

End state.

(** ** Lifecycle theorems *)

Section lifecycle.
Context `{A : AccountSpec}.

Lemma apply_armed_frame now o s :
  active_payout_job (apply_armed now o s) = active_payout_job s /\
  payout_nonce (apply_armed now o s) = payout_nonce s /\
  last_processed_funding_tx_id (apply_armed now o s) = last_processed_funding_tx_id s.
Proof. destruct o as [[]|]; done. Qed.

Lemma apply_clear_frame o s :
  active_payout_job (apply_clear_forced_rescue o s).1 = active_payout_job s /\
  payout_nonce (apply_clear_forced_rescue o s).1 = payout_nonce s /\
  last_processed_funding_tx_id (apply_clear_forced_rescue o s).1 = last_processed_funding_tx_id s.
Proof. unfold apply_clear_forced_rescue. by destruct (default false o). Qed.

Lemma apply_checked_frame ok set_ o s s' :
  apply_checked ok set_ o s = Some s' ->
  active_payout_job s' = active_payout_job s /\ payout_nonce s' = payout_nonce s /\
  last_processed_funding_tx_id s' = last_processed_funding_tx_id s.
Proof. destruct o as [v|]; cbn; [destruct (ok v); [|done]|]; by intros [= <-]. Qed.

(** The funding cursor of [s'] is at or after the cursor of [s]. *)
Definition cursor_le (s s' : State) : Prop :=
  match last_processed_funding_tx_id s, last_processed_funding_tx_id s' with
  | Some a, Some b => a <= b
  | Some _, None => False
  | None, _ => True
  end.

Lemma apply_last_processed_frame o s s' :
  apply_last_processed o s = Some s' ->
  active_payout_job s' = active_payout_job s /\ payout_nonce s' = payout_nonce s /\ cursor_le s s'.
Proof.
  unfold apply_last_processed, cursor_le. destruct o as [new|]; [|intros [= <-]; by case_match].
  destruct (is_some_and _ _) eqn:E; [done|]. destruct (bool_decide _) eqn:D; intros [= <-].
  - by case_match.
  - cbn. destruct (last_processed_funding_tx_id s) as [old|]; [|done].
    cbn in *. unfold const. zify_bool. done.
Qed.

Lemma apply_upgrade_args_frame self_id args now s s' r :
  apply_upgrade_args_to_state self_id args now s = Some (s', r) ->
  active_payout_job s' = active_payout_job s /\ payout_nonce s' = payout_nonce s /\
  cursor_le s s' /\ validate_config self_id (config s') = true /\ main_lock_state_ts s' = Some 0.
Proof.
  unfold apply_upgrade_args_to_state. intros ([s1 r1] & H1 & H2)%bind_Some.
  destruct (validate_config self_id (config s1)) eqn:Hv; [|done]. injection H2 as <- <-.
  enough (active_payout_job s1 = active_payout_job s /\ payout_nonce s1 = payout_nonce s /\
          cursor_le s s1) as (? & ? & ?) by done. clear Hv.
  destruct args as [a|].
  2: { injection H1 as <- _. unfold cursor_le. repeat split; try done. by case_match. }
  destruct (apply_armed_frame now (u_autonomous_rescue_armed a) s) as (A1 & A2 & A3).
  set (sa := apply_armed _ _ s) in *.
  destruct (apply_clear_frame (u_clear_forced_rescue a) sa) as (B1 & B2 & B3).
  destruct (apply_clear_forced_rescue _ sa) as [sb rb]. cbn [fst] in *.
  apply bind_Some in H1 as (sc & (C1 & C2 & C3)%apply_last_processed_frame & H1).
  apply bind_Some in H1 as (sd & (D1 & D2 & D3)%apply_checked_frame & H1).
  apply bind_Some in H1 as (se & (E1 & E2 & E3)%apply_checked_frame & H1).
  apply bind_Some in H1 as (sf & (F1 & F2 & F3)%apply_checked_frame & H1).
  apply bind_Some in H1 as (sg & (G1 & G2 & G3)%apply_checked_frame & H1).
  injection H1 as <- _.
  unfold cursor_le in *. rewrite G1, G2, G3, F1, F2, F3, E1, E2, E3, D1, D2, D3.
  rewrite B3, A3 in C3. split; [congruence|]. split; [congruence|done].
Qed.

(** An upgrade that does not trap starts without an active payout job,
    keeps the payout nonce and the dispatch record, never moves the funding
    cursor backwards, resets the skip ranges and the lease, and leaves a valid
    configuration; with an active job it traps. *)
Theorem faucet_upgrade_keeps_cursor self_id s d now args :
  (active_payout_job s <> None -> post_upgrade self_id (Some s) d now args = None) /\
  (forall h, post_upgrade self_id (Some s) d now args = Some h ->
     active_payout_job (st h) = None /\ payout_nonce (st h) = payout_nonce s /\
     dispatch h = d /\ skip_ranges h = [] /\ main_lock_state_ts (st h) = Some 0 /\
     cursor_le s (st h) /\ validate_config self_id (config (st h)) = true).
Proof.
  unfold post_upgrade, validate_upgrade_quiescence. cbn [mbind option_bind]. split.
  { destruct (active_payout_job s); [done|naive_solver]. }
  intros h. destruct (active_payout_job s) as [j|] eqn:Hj; cbn [is_none negb]; [done|].
  intros ([s' r] & Happ & Hh)%bind_Some. injection Hh as <-.
  apply apply_upgrade_args_frame in Happ as (H1 & H2 & H3 & H4 & H5). rewrite Hj in H1.
  by destruct r.
Qed.

(** Initialisation either traps or yields a canister with a valid
    configuration whose thresholds and intervals are positive, no job, a
    closed funding cursor and both timers installed at a minute or more. *)
Theorem faucet_init_valid ledger index cmc gov self_id now args h
    (Hi : init ledger index cmc gov self_id now args = Some h) :
  validate_config self_id (config (st h)) = true /\
  MIN_MIN_TX_E8S <= min_tx_e8s (config (st h)) /\
  0 < main_interval_seconds (config (st h)) /\ 0 < rescue_interval_seconds (config (st h)) /\
  (forall sub, payout_subaccount (config (st h)) = Some sub -> length sub = 32%nat) /\
  active_payout_job (st h) = None /\ last_processed_funding_tx_id (st h) = None /\
  exists m r, timers h = [MainInterval m; RescueInterval r] /\ 60 <= m /\ 60 <= r.
Proof.
  unfold init in Hi. apply bind_Some in Hi as (sub & Hsub & Hi).
  destruct (validate_config _ _) eqn:Hv; [|done]. injection Hi as <-. cbn -[Z.max].
  split; [exact Hv|].
  unfold validate_config in Hv. rewrite !andb_true_iff in Hv. cbn in Hv.
  destruct Hv as [[[[Hv H1] H2] _] H4]. zify_bool.
  split; [done|]. split; [done|]. split; [done|].
  split; [|split; [done|split; [done|eexists _, _; split; [reflexivity|lia]]]].
  intros b ->. destruct (i_payout_subaccount args) as [bs|]; cbn in Hsub; [|done].
  destruct (Nat.eqb (length bs) 32) eqn:E; cbn in Hsub; [|done]. injection Hsub as <-.
  by apply Nat.eqb_eq in E.
Qed.

End lifecycle.

(** A concrete canister, for the witnesses: canister 9, staking account 1,
    funding source 2, ledger 5, index 6, minting canister 8, governance 3 and
    rescue controller 7, with a payout job that has one staged top-up. *)
Module ConcreteFaucet.
Import Concrete.

Definition principal (k : Z) : Principal (PrincipalSpec:=concrete_principal) := k.
Definition account (k : Z) : Account (H:=concrete_principal) := MkAccount concrete_principal k None.
Definition cfg : Config (P:=concrete_principal) := {|
  staking_account := account 1;
  payout_subaccount := None;
  ledger_canister_id := principal 5;
  index_canister_id := principal 6;
  cmc_canister_id := principal 8;
  governance_canister_id := Some (principal 3);
  funding_source_account := account 2;
  rescue_controller := principal 7;
  autonomous_rescue_armed := Some true;
  expected_first_staking_tx_id := Some 10;
  main_interval_seconds := 86400;
  rescue_interval_seconds := 86400;
  min_tx_e8s := 100000000;
  stake_recognition_delay_seconds := Some 86400;
|}.
Definition state : State (P:=concrete_principal) := State_new cfg 0.
Definition heap : Heap (P:=concrete_principal) := fresh_heap state None.
Definition top_up : PendingNotification (P:=concrete_principal) := {|
  kind := Beneficiary; beneficiary := principal 33; gross_share_e8s := 500000;
  amount_e8s := 490000; block_index := 0; pn_next_start := None; transfer_memo := None;
  destination_subaccount := None; neuron_id := None |}.
Definition staged : PendingTransfer (P:=concrete_principal) :=
  MkPendingTransfer top_up 1000 AwaitingTransfer.
Definition job : ActivePayoutJob (P:=concrete_principal) :=
  (ActivePayoutJob_new 1 10000 1000000 5000000 1001) <| pending_transfer := Some staged |>.
Definition busy : Heap (P:=concrete_principal) :=
  heap <| st ::= fun s => s <| active_payout_job := Some job |> <| main_lock_state_ts := Some 900 |> |>
       <| dispatch := Some (MkDispatch 1 staged false) |>.

End ConcreteFaucet.

Section witnesses.
Import Concrete ConcreteFaucet.

Lemma faucet_upgrade_keeps_cursor_witness : exists h,
  post_upgrade (A:=concrete_account) (principal 9) (Some state) None 5
    (Some (MkUpgradeArgs None None (Some 77) None None None None)) = Some h /\
  cursor_le state (st h).
Proof.
  eexists. split; [vm_compute; reflexivity|].
  refine (proj1 (proj2 (proj2 (proj2 (proj2 (proj2 (proj2
    (faucet_upgrade_keeps_cursor (A:=concrete_account) (principal 9) state None 5
      (Some (MkUpgradeArgs None None (Some 77) None None None None))) _ _))))))).
  vm_compute. reflexivity.
Defined.

Definition witness_args : InitArgs (P:=concrete_principal) :=
  MkInitArgs (P:=concrete_principal) (account 1) None None None None None (account 2)
    (principal 7) None (Some 10) None None None None.

Lemma faucet_init_valid_witness : exists h,
  init (A:=concrete_account) (principal 5) (principal 6) (principal 8) (principal 3) (principal 9)
    7000000000 witness_args = Some h /\ active_payout_job (st h) = None.
Proof.
  eexists. split; [reflexivity|].
  refine (proj1 (proj2 (proj2 (proj2 (proj2 (proj2 (faucet_init_valid (A:=concrete_account) (principal 5)
    (principal 6) (principal 8) (principal 3) (principal 9) 7000000000 witness_args _ eq_refl))))))).
Defined.

End witnesses.
