(* ===== verification/FaucetLogic.v ===== *)
(** * Faucet: commitment classification and share mathematics

    [canisters/faucet/src/logic.rs]. *)

From S2P Require Import Prelude Ic Clients Accounts MemoPolicy FaucetState.

Section logic.
Context `{A : AccountSpec} `{H : HashSpec} {EH : EventHorizon}.

Definition MEMO_TOP_UP_CANISTER_U64 : Z := 1347768404.

Record Commitment := MkCommitment { c_amount_e8s : Z; memo_bytes : option (list Z) }.

Inductive PayoutTarget :=
| CyclesTopUpTarget (canister_id : Principal)
| RawIcpTarget (canister_id : Principal) (destination_subaccount : option (list Z))
    (memo : list Z)
| NeuronStakeTarget (neuron_id : Z) (memo : option (list Z)).

Inductive CommitmentValidity :=
| IgnoreUnderThreshold | IgnoreBadMemo | Valid (target : PayoutTarget).

Definition parse_payout_target_from_memo (memo : list Z) : option PayoutTarget :=
  match parse_memo_directive memo with
  | None => None
  | Some (TopUp c) => Some (CyclesTopUpTarget c)
  | Some (MemoPolicy.RawIcp c sub m) => Some (RawIcpTarget c sub m)
  | Some (MemoPolicy.NeuronStake n m) => Some (NeuronStakeTarget n m)
  end.

Definition memo_bytes_from_index_tx (tx : IndexTransactionWithId)
    (staking_account_identifier : list Z) : option Commitment :=
  match tx_operation (transaction tx) with
  | IndexTransfer _ to_ amount _ _ =>
      if bool_decide (to_ = staking_account_identifier) then
        Some {| c_amount_e8s := amount;
                memo_bytes := match tx_icrc1_memo (transaction tx) with
                              | Some (b :: m) => Some (b :: m)
                              | _ => None
                              end |}
      else None
  | _ => None
  end.

Definition cmc_deposit_account (cmc_id canister_id : Principal) : Account :=
  MkAccount _ cmc_id (Some (principal_to_subaccount canister_id)).

Definition compute_raw_share_e8s (amount pot_start denom : Z) : Z :=
  if (pot_start =? 0) || (denom =? 0) then 0
  else Z.min (sat_mul128 amount pot_start / denom) u64_max.

Definition classify_commitment (min_tx : Z) (c : Commitment) : CommitmentValidity :=
  if c_amount_e8s c <? min_tx then IgnoreUnderThreshold
  else
    match memo_bytes c with
    | Some (b :: m) =>
        match parse_payout_target_from_memo (b :: m) with
        | Some target => Valid target
        | None => IgnoreBadMemo
        end
    | _ => IgnoreBadMemo
    end.

Definition index_tx_timestamp_nanos (tx : IndexTransactionWithId) : option Z :=
  match tx_timestamp (transaction tx) with
  | Some t => Some t
  | None => tx_created_at_time (transaction tx)
  end.

Definition conservative_effective_timestamp_nanos (ts delay_seconds : Z) : Z :=
  sat_add ts (sat_mul delay_seconds 1000000000).

Definition compute_weighted_amount_e8s (raw start end_ effective : Z) : Z :=
  if (raw =? 0) || (end_ <=? start) then 0
  else if effective <=? start then raw
  else if end_ <=? effective then 0
  else
    let duration := end_ - start in
    let participating := end_ - effective in
    Z.min (sat_mul128 raw participating / duration) u64_max.

Definition effective_commitment_timestamp_nanos (ts : option Z) (round_end delay : Z) : Z :=
  conservative_effective_timestamp_nanos (default round_end ts) delay.

Definition commitment_amount_for_payout_e8s (c : Commitment) (tx_id_ : Z) (ts : option Z)
    (round_start round_end_latest : option Z) (round_end delay : Z) : option Z :=
  if is_some_and round_end_latest (fun e => e <? tx_id_) then None
  else
    match round_start with
    | None =>
        let recognized :=
          is_some_and ts (fun t => conservative_effective_timestamp_nanos t delay <=? round_end) in
        Some (if recognized then c_amount_e8s c else 0)
    | Some start =>
        if round_end <=? start then Some 0
        else
          let effective := effective_commitment_timestamp_nanos ts round_end delay in
          Some (compute_weighted_amount_e8s (c_amount_e8s c) start round_end effective)
    end.

(** [genesis_round_amount_for_commitment_e8s] and its caller in
    [scheduler/route_accounting.rs]. *)
Definition genesis_round_amount_for_commitment_e8s (c : Commitment) (tx_id_ : Z) (ts : option Z)
    (round_end_latest : option Z) (round_end delay : Z) : option Z :=
  if is_some_and round_end_latest (fun e => e <? tx_id_) then None
  else
    let recognized :=
      is_some_and ts (fun t => conservative_effective_timestamp_nanos t delay <=? round_end) in
    Some (if recognized then c_amount_e8s c else 0).

Definition commitment_amount_for_job_payout_e8s (job : ActivePayoutJob) (c : Commitment)
    (tx_id_ : Z) (ts : option Z) (now_nanos delay : Z) : option Z :=
  let round_end := default now_nanos (round_end_time_nanos job) in
  if is_none (round_start_time_nanos job) && is_none (round_start_latest_tx_id job)
  then genesis_round_amount_for_commitment_e8s c tx_id_ ts (round_end_latest_tx_id job)
         round_end delay
  else commitment_amount_for_payout_e8s c tx_id_ ts (round_start_time_nanos job)
         (round_end_latest_tx_id job) round_end delay.

Definition record_ledger_accepted_transfer (p : PendingNotification) (job : ActivePayoutJob)
    : ActivePayoutJob :=
  job <| gross_outflow_e8s := sat_add (gross_outflow_e8s job) (gross_share_e8s p) |>.

Definition apply_notified_transfer (p : PendingNotification) (job : ActivePayoutJob)
    : ActivePayoutJob :=
  match kind p with
  | Beneficiary | CyclesTopUpRawFallback | RawIcp | NeuronStake =>
      job <| topped_up_count := sat_add (topped_up_count job) 1 |>
          <| topped_up_sum_e8s := sat_add (topped_up_sum_e8s job) (amount_e8s p) |>
          <| topped_up_min_e8s := Some (match topped_up_min_e8s job with
                                        | Some prev => Z.min prev (amount_e8s p)
                                        | None => amount_e8s p end) |>
          <| topped_up_max_e8s := Some (match topped_up_max_e8s job with
                                        | Some prev => Z.max prev (amount_e8s p)
                                        | None => amount_e8s p end) |>
  | RemainderToRelay => job <| remainder_to_relay_e8s := amount_e8s p |>
  end.

Definition summary_from_job (job : ActivePayoutJob) : Summary := {|
  s_pot_start_e8s := pot_start_e8s job;
  s_pot_remaining_e8s := sat_sub (pot_start_e8s job) (gross_outflow_e8s job);
  s_denom_staking_balance_e8s := denom_staking_balance_e8s job;
  s_effective_denom_staking_balance_e8s := effective_denom_staking_balance_e8s job;
  s_funding_tx_id := funding_tx_id job;
  s_funding_amount_e8s := funding_amount_e8s job;
  s_round_end_latest_tx_id := round_end_latest_tx_id job;
  s_round_end_time_nanos := round_end_time_nanos job;
  s_last_processed_funding_tx_id := funding_tx_id job;
  s_topped_up_count := topped_up_count job;
  s_topped_up_sum_e8s := topped_up_sum_e8s job;
  s_topped_up_min_e8s := topped_up_min_e8s job;
  s_topped_up_max_e8s := topped_up_max_e8s job;
  s_failed_topups := failed_topups job;
  s_ambiguous_topups := ambiguous_topups job;
  s_ignored_under_threshold := ignored_under_threshold job;
  s_ignored_bad_memo := ignored_bad_memo job;
  s_remainder_to_relay_e8s := remainder_to_relay_e8s job;
|}.

End logic.

(** ** Lemmas on shares *)

Lemma sat_mul128_u64 a b : u64 a -> u64 b -> sat_mul128 a b = a * b.
Proof. intros Ha Hb. unfold sat_mul128, u64 in *. apply Z.min_l. nia. Qed.

Lemma compute_raw_share_bounds a pot denom :
  u64 a -> u64 pot -> 0 < denom -> a <= denom ->
  0 <= compute_raw_share_e8s a pot denom /\ denom * compute_raw_share_e8s a pot denom <= a * pot.
Proof.
  intros Ha Hp Hd Hle. unfold compute_raw_share_e8s.
  destruct ((pot =? 0) || (denom =? 0)) eqn:E.
  { apply orb_true_iff in E as [E|E]; zify_bool; subst; ulia. }
  rewrite sat_mul128_u64 by done.
  pose proof (mul_div_bounds a pot denom Hd ltac:(unia)) as Hb.
  assert (0 <= a * pot / denom) by (apply Z.div_pos; unia).
  assert (a * pot / denom <= pot) by (apply Z.div_le_upper_bound; unia).
  rewrite Z.min_l by ulia. lia.
Qed.

(** The shares paid out of one pot never exceed it: for commitments whose
    weighted amounts add up to at most the denominator, the raw shares add up
    to at most the pot; each is the exact floor of amount * pot / denominator. *)
Theorem raw_shares_within_pot (amounts : list Z) (pot denom : Z)
    (Ha : Forall u64 amounts) (Hp : u64 pot) (Hd : 0 < denom) (Hsum : sumZ amounts <= denom) :
  sumZ (map (fun a => compute_raw_share_e8s a pot denom) amounts) <= pot /\
  Forall (fun a => compute_raw_share_e8s a pot denom = a * pot / denom) amounts.
Proof.
  assert (Forall (fun a => a <= denom) amounts) as Hle.
  { apply Forall_forall. intros a Hin. etrans; [|exact Hsum].
    rewrite <- (map_id amounts). apply (sumZ_map_ge (fun x => x)); [|done].
    eapply Forall_impl; [exact Ha|]. cbn. intros x []. done. }
  split.
  - assert (denom * sumZ (map (fun a => compute_raw_share_e8s a pot denom) amounts)
            <= sumZ amounts * pot) as H.
    { clear Hsum. induction amounts as [|a l IH]; cbn [map]; rewrite ?sumZ_nil, ?sumZ_cons; [lia|].
      inversion Ha; inversion Hle; subst.
      pose proof (compute_raw_share_bounds a pot denom ltac:(done) Hp Hd ltac:(done)).
      specialize (IH ltac:(done) ltac:(done)). lia. }
    destruct Hp. nia.
  - apply Forall_forall. intros a Hin. rewrite Forall_forall in Ha, Hle.
    specialize (Ha a Hin). specialize (Hle a Hin). unfold compute_raw_share_e8s.
    destruct ((pot =? 0) || (denom =? 0)) eqn:E.
    + apply orb_true_iff in E as [E|E]; zify_bool; [|lia]. by subst; rewrite Z.mul_0_r, Z.div_0_l by lia.
    + rewrite sat_mul128_u64 by done. apply Z.min_l.
      transitivity pot; [|ulia]. apply Z.div_le_upper_bound; unia.
Qed.

Lemma raw_shares_within_pot_witness :
  sumZ (map (fun a => compute_raw_share_e8s a 100 9) [4; 5]) <= 100.
Proof.
  apply (raw_shares_within_pot [4; 5] 100 9).
  - apply Forall_cons. split; [unfold u64; lia|]. apply Forall_cons. split; [unfold u64; lia|].
    apply Forall_nil. exact Logic.I.
  - unfold u64; lia.
  - lia.
  - vm_compute. discriminate.
Defined.

(** A commitment's weight is at most its amount and never grows with a
    later effective time or a longer recognition delay; a commitment recognised
    before the round counts fully, one recognised after it counts nothing. *)
Theorem weighted_amount_antitone (raw start end_ e1 e2 : Z)
    (Hr : u64 raw) (Hs : u64 start) (He : u64 end_) (H1 : u64 e1) (H12 : e1 <= e2) :
  0 <= compute_weighted_amount_e8s raw start end_ e2
    <= compute_weighted_amount_e8s raw start end_ e1 /\
  compute_weighted_amount_e8s raw start end_ e1 <= raw /\
  (start < end_ -> e1 <= start -> compute_weighted_amount_e8s raw start end_ e1 = raw) /\
  (end_ <= e1 -> start < e1 -> compute_weighted_amount_e8s raw start end_ e1 = 0).
Proof.
  assert (forall e, start < e -> e < end_ -> start < end_ ->
    Z.min (sat_mul128 raw (end_ - e) / (end_ - start)) u64_max = raw * (end_ - e) / (end_ - start) /\
    0 <= raw * (end_ - e) / (end_ - start) <= raw) as Hw.
  { intros e Hse Hee Hlt. rewrite sat_mul128_u64 by ulia.
    assert (0 <= raw * (end_ - e) / (end_ - start)) by (apply Z.div_pos; unia).
    assert (raw * (end_ - e) / (end_ - start) <= raw) by (apply Z.div_le_upper_bound; unia).
    rewrite Z.min_l by ulia. lia. }
  unfold compute_weighted_amount_e8s.
  destruct ((raw =? 0) || (end_ <=? start)) eqn:E0.
  { apply orb_true_iff in E0 as [E|E]; zify_bool; ulia. }
  zify_bool. cbn zeta.
  destruct (e1 <=? start) eqn:E1, (e2 <=? start) eqn:E2, (end_ <=? e1) eqn:E3,
    (end_ <=? e2) eqn:E4; zify_bool; try ulia;
    try (pose proof (Hw e1 ltac:(lia) ltac:(lia) ltac:(lia)) as [-> ?]);
    try (pose proof (Hw e2 ltac:(lia) ltac:(lia) ltac:(lia)) as [-> ?]); try ulia.
  repeat split; try lia. apply Z.div_le_mono; unia.
Qed.

Lemma weighted_amount_antitone_witness :
  compute_weighted_amount_e8s 100 10 20 15 <= compute_weighted_amount_e8s 100 10 20 12.
Proof.
  apply (weighted_amount_antitone 100 10 20 12 15); unfold u64; lia.
Defined.
