(* ===== verification/FaucetTransfer.v ===== *)
(** * Faucet: the pending-transfer state machine

    [canisters/faucet/src/scheduler/cmc_notify.rs] and
    [cmc_notify_transfer.rs]: one ledger identity is staged in the job before
    it is dispatched, dispatched at most twice, settled by the CMC
    notification, and replaced by a raw fallback at most once. *)

From S2P Require Import Prelude Async Ic Clients Accounts MemoPolicy FaucetState FaucetLogic.

Section transfer.
Context `{A : AccountSpec} `{H : HashSpec} `{T : TextSpec}.
Local Abbreviation async := (async Heap SuiteCall).

Definition LEDGER_CREATED_AT_MAX_AGE_NANOS : Z := 24 * 60 * 60 * 1000000000.
Definition LEDGER_CREATED_AT_MAX_FUTURE_SKEW_NANOS : Z := 60 * 1000000000.
Definition MAX_CMC_DIAGNOSTIC_WITNESSES : nat := 16.

Definition created_at_time_is_valid_for_ledger (created_at now_nanos : Z) : bool :=
  let not_too_old := sat_sub now_nanos created_at <=? LEDGER_CREATED_AT_MAX_AGE_NANOS in
  let not_too_far_in_future :=
    created_at <=? sat_add now_nanos LEDGER_CREATED_AT_MAX_FUTURE_SKEW_NANOS in
  not_too_old && not_too_far_in_future.

Definition upd_job (f : ActivePayoutJob -> ActivePayoutJob) (h : Heap) : Heap :=
  h <| st ::= (fun s => s <| active_payout_job ::= option_map f |>) |>.

(** [job.id == job_id && job.pending_transfer.as_ref() == Some(expected)] *)
Definition job_matches (id : Z) (p : PendingTransfer) (j : ActivePayoutJob) : bool :=
  (job_id j =? id) && bool_decide (pending_transfer j = Some p).
Definition pending_transfer_matches (id : Z) (p : PendingTransfer) (h : Heap) : bool :=
  is_some_and (active_payout_job (st h)) (job_matches id p).

(** ** [cmc_notify.rs] *)

(** [None] when there is no active job: the [expect] panics. *)
Definition allocate_created_at_time_nanos (now_nanos : Z) (h : Heap) : option (Z * Heap) :=
  match active_payout_job (st h) with
  | None => None
  | Some job =>
      let t := if created_at_time_is_valid_for_ledger (next_created_at_time_nanos job) now_nanos
               then next_created_at_time_nanos job else now_nanos in
      Some (t, upd_job (fun j => j <| next_created_at_time_nanos := sat_add t 1 |>) h)
  end.

Definition increment_cmc_attempts (id : Z) (p : PendingTransfer) (h : Heap) : Heap :=
  if negb (requires_cmc_notify (kind (notification p))) then h
  else if pending_transfer_matches id p h then
    upd_job (fun j => j <| cmc_attempt_count :=
                          Some (sat_add (default 0 (cmc_attempt_count j)) 1) |>) h
  else h.

Definition note_witness (b : Principal) (j : ActivePayoutJob) : ActivePayoutJob :=
  if 0 <? default 0 (cmc_success_count j)
  then j <| cmc_attempted_beneficiaries := Some [] |>
  else
    let l := take MAX_CMC_DIAGNOSTIC_WITNESSES (default [] (cmc_attempted_beneficiaries j)) in
    let fresh := Nat.ltb (length l) MAX_CMC_DIAGNOSTIC_WITNESSES
                 && negb (existsb (fun q => bool_decide (q = b)) l) in
    j <| cmc_attempted_beneficiaries := Some (if fresh then l ++ [b] else l) |>.

Definition note_attempted_beneficiary (id : Z) (p : PendingTransfer) (h : Heap) : Heap :=
  if negb (requires_cmc_notify (kind (notification p))) then h
  else if pending_transfer_matches id p h
  then upd_job (note_witness (beneficiary (notification p))) h else h.

Definition current_pending_transfer (h : Heap) : option (Z * PendingTransfer) :=
  match active_payout_job (st h) with
  | Some job => match pending_transfer job with Some p => Some (job_id job, p) | None => None end
  | None => None
  end.

Definition stage_pending_transfer (pending : PendingNotification) (created_at : Z) (h : Heap)
    : Heap :=
  match active_payout_job (st h) with
  | None => h
  | Some job =>
      let staged := MkPendingTransfer pending created_at AwaitingTransfer in
      upd_job (fun j => j <| pending_transfer := Some staged |>)
        (set_pending_transfer_dispatch (job_id job) staged false h)
  end.

Definition mark_pending_transfer_accepted (id : Z) (p : PendingTransfer) (block : Z) (h : Heap)
    : option PendingTransfer * Heap :=
  if pending_transfer_matches id p h then
    let accepted := p <| notification ::= (fun n => n <| block_index := block |>) |>
                      <| phase := TransferAccepted |> in
    (Some accepted,
     upd_job (fun j => record_ledger_accepted_transfer (notification accepted)
                         (j <| pending_transfer := Some accepted |>)) h)
  else (None, h).

Inductive PendingTransferTerminalStatus := Failed | Ambiguous.

Definition note_terminal (status : PendingTransferTerminalStatus) (p : PendingTransfer)
    (j : ActivePayoutJob) : ActivePayoutJob :=
  if is_beneficiary_payout (kind (notification p)) then
    match status with
    | Failed => j <| failed_topups := sat_add (failed_topups j) 1 |>
    | Ambiguous => j <| ambiguous_topups := sat_add (ambiguous_topups j) 1 |>
    end
  else j.

Definition clear_pending_transfer (id : Z) (p : PendingTransfer)
    (status : PendingTransferTerminalStatus) (h : Heap) : Heap :=
  if pending_transfer_matches id p h then
    clear_pending_transfer_dispatch
      (upd_job (fun j => (note_terminal status p j) <| pending_transfer := None |>) h)
  else h.

Inductive TransferAttemptOutcome :=
| AttemptAccepted (block : Z)
| AttemptDefiniteNoDebit (retryable : bool)
| AttemptUncertain
| AttemptAcceptedWithUnusableBlockIndex.

Definition classify_block (block : Z) : TransferAttemptOutcome :=
  if block <=? u64_max then AttemptAccepted block else AttemptAcceptedWithUnusableBlockIndex.

Definition classify_transfer (r : result (result Z TransferError) ClientError)
    : TransferAttemptOutcome :=
  match r with
  | Err _ => AttemptUncertain
  | Ok (Ok block) => classify_block block
  | Ok (Err (Duplicate duplicate_of)) => classify_block duplicate_of
  | Ok (Err TemporarilyUnavailable) => AttemptDefiniteNoDebit true
  | Ok (Err _) => AttemptDefiniteNoDebit false
  end.

Definition transfer_once (ledger : Principal) (arg : TransferArg) : async TransferAttemptOutcome :=
  r ← transfer ledger arg;
  mret (classify_transfer r).

Inductive NotifyAttemptOutcome := NotifySucceeded | NotifyFailed (e : NotifyTopUpError).

Definition notify_once (cmc_id : Principal) (id : Z) (p : PendingTransfer)
    : async NotifyAttemptOutcome :=
  modify (note_attempted_beneficiary id p) ;;
  modify (increment_cmc_attempts id p) ;;
  r ← notify_top_up cmc_id (beneficiary (notification p)) (block_index (notification p));
  mret match r with Ok _ => NotifySucceeded | Err e => NotifyFailed e end.

Definition complete_job (p : PendingNotification) (j : ActivePayoutJob) : ActivePayoutJob :=
  let j := if requires_cmc_notify (kind p)
           then j <| cmc_success_count := Some (sat_add (default 0 (cmc_success_count j)) 1) |>
                  <| cmc_attempted_beneficiaries := Some [] |>
           else j in
  (apply_notified_transfer p j) <| pending_transfer := None |>.

Definition record_completed_transfer (id : Z) (p : PendingTransfer) (now_secs : Z) (h : Heap)
    : Heap :=
  if pending_transfer_matches id p h then
    let h := if requires_cmc_notify (kind (notification p))
             then h <| st ::= (fun s => s <| last_successful_transfer_ts := Some now_secs |>) |>
             else h in
    clear_pending_transfer_dispatch (upd_job (complete_job (notification p)) h)
  else h.

(** ** [cmc_notify_transfer.rs] *)

Definition transfer_arg (to_ : Account) (amount_ fee_ created_at : Z) (memo_ : list Z) (h : Heap)
    : TransferArg := {|
  from_subaccount := payout_subaccount (config (st h));
  to := to_;
  fee := Some fee_;
  created_at_time := Some created_at;
  memo := Some memo_;
  amount := amount_;
|}.

(** [None]: a neuron stake without its subaccount panics. *)
Definition deposit_account_for_pending (cmc_id : Principal) (p : PendingNotification)
    : option Account :=
  match kind p with
  | RawIcp => Some (MkAccount _ (beneficiary p) (destination_subaccount p))
  | CyclesTopUpRawFallback | RemainderToRelay => Some (MkAccount _ (beneficiary p) None)
  | NeuronStake =>
      match destination_subaccount p with
      | Some sub => Some (MkAccount _ (beneficiary p) (Some sub))
      | None => None
      end
  | Beneficiary => Some (cmc_deposit_account cmc_id (beneficiary p))
  end.

Definition transfer_memo_for_pending (p : PendingNotification) : list Z :=
  match kind p with
  | CyclesTopUpRawFallback | RemainderToRelay => []
  | Beneficiary | NeuronStake => default (to_le_bytes MEMO_TOP_UP_CANISTER_U64) (transfer_memo p)
  | RawIcp => default [] (transfer_memo p)
  end.

Inductive TransferIdentityOutcome :=
| IdentityAccepted (block : Z) | IdentityDefiniteNoDebit | IdentityUncertain
| IdentityAcceptedWithUnusableBlockIndex | IdentityStale.

Definition set_dispatch_started (id : Z) (p : PendingTransfer) (lease : MainLeaseToken)
    (started : bool) (h : Heap) : bool * Heap :=
  if is_current_in lease (st h) && pending_transfer_matches id p h
  then (true, set_pending_transfer_dispatch id p started h)
  else (false, h).

(** One attempt per argument; the flag tells whether it is the last one. *)
Fixpoint transfer_attempts (ledger : Principal) (id : Z) (p : PendingTransfer)
    (lease : MainLeaseToken) (args : list TransferArg) : async TransferIdentityOutcome :=
  match args with
  | [] => mret IdentityUncertain
  | arg :: rest =>
      prior_uncertainty ← with_state (pending_transfer_may_have_dispatched id p);
      started ← with_state_mut (set_dispatch_started id p lease true);
      if negb started then mret IdentityStale
      else
        outcome ← transfer_once ledger arg;
        current ← with_state (fun h => is_current_in lease (st h) && pending_transfer_matches id p h);
        if negb current then mret IdentityStale
        else
          match outcome with
          | AttemptAccepted block => mret (IdentityAccepted block)
          | AttemptAcceptedWithUnusableBlockIndex => mret IdentityAcceptedWithUnusableBlockIndex
          | AttemptDefiniteNoDebit retryable =>
              cleared ← (if prior_uncertainty : bool then mret true
                         else with_state_mut (set_dispatch_started id p lease false));
              if negb cleared then mret IdentityStale
              else if negb retryable || bool_decide (rest = []) then
                mret (if prior_uncertainty : bool then IdentityUncertain else IdentityDefiniteNoDebit)
              else transfer_attempts ledger id p lease rest
          | AttemptUncertain => transfer_attempts ledger id p lease rest
          end
  end.

Definition transfer_identity_with_one_retry (ledger : Principal) (id : Z) (p : PendingTransfer)
    (first_arg second_arg : TransferArg) : async TransferIdentityOutcome :=
  lease ← with_state capture;
  transfer_attempts ledger id p lease [first_arg; second_arg].

(** The chosen time and the job with its next creation time advanced. *)
Definition fresh_transition_created_at_time (now_nanos previous : Z) (job : ActivePayoutJob)
    : option (Z * ActivePayoutJob) :=
  let t := if created_at_time_is_valid_for_ledger (next_created_at_time_nanos job) now_nanos
           then next_created_at_time_nanos job else now_nanos in
  t ← (if t =? previous then checked_add t 1 else Some t);
  if negb (created_at_time_is_valid_for_ledger t now_nanos) then None
  else
    next ← checked_add t 1;
    Some (t, job <| next_created_at_time_nanos := next |>).

(** [Ok b] as in the source; [Err tt] when no fresh creation time exists. *)
Definition stage_raw_fallback_after_definite_rejection (id : Z) (p : PendingTransfer)
    (now_nanos : Z) (h : Heap) : result bool unit * Heap :=
  match active_payout_job (st h) with
  | None => (Ok false, h)
  | Some job =>
      if negb (job_matches id p job) then (Ok false, h)
      else if negb (bool_decide (phase p = AwaitingTransfer)
                    && bool_decide (kind (notification p) = Beneficiary)) then (Ok false, h)
      else
        match fresh_transition_created_at_time now_nanos (created_at_time_nanos p) job with
        | None => (Err tt, h)
        | Some (t, job') =>
            let n := (notification p) <| kind := CyclesTopUpRawFallback |> <| block_index := 0 |>
                       <| transfer_memo := Some [] |> <| destination_subaccount := None |>
                       <| neuron_id := None |> in
            let staged := MkPendingTransfer n t AwaitingTransfer in
            (Ok true,
             upd_job (fun _ => job' <| pending_transfer := Some staged |>)
               (set_pending_transfer_dispatch (job_id job) staged false h))
        end
  end.

Inductive RefundFallbackTransition := Staged | BelowFee | InvariantBroken.

(** The refund that the CMC credits and the outflow that it releases. *)
Definition refund_amounts (n : PendingNotification) (fee_ : Z) (job : ActivePayoutJob)
    : option (Z * Z) :=
  original ← checked_sub (gross_share_e8s n) fee_;
  if negb (original =? amount_e8s n) then None
  else
    cmc_fee ← checked_mul fee_ 2;
    after_fee ← checked_sub original fee_;
    refund ← checked_sub after_fee cmc_fee;
    released ← checked_sub (gross_outflow_e8s job) refund;
    Some (refund, released).

Definition transition_refunded_beneficiary_to_raw_fallback (id : Z) (p : PendingTransfer)
    (fee_ now_nanos : Z) (h : Heap) : RefundFallbackTransition * Heap :=
  match active_payout_job (st h) with
  | None => (InvariantBroken, h)
  | Some job =>
      let accepted := notification p in
      if negb (job_matches id p job) then (InvariantBroken, h)
      else if negb (bool_decide (phase p = TransferAccepted)
                    && bool_decide (kind accepted = Beneficiary)) then (InvariantBroken, h)
      else
        match refund_amounts accepted fee_ job with
        | None => (InvariantBroken, h)
        | Some (refund, released) =>
            if refund <=? fee_ then
              (BelowFee, upd_job (fun j => j <| gross_outflow_e8s := released |>) h)
            else
              match fresh_transition_created_at_time now_nanos (created_at_time_nanos p) job with
              | None => (InvariantBroken, h)
              | Some (t, job') =>
                  match checked_sub refund fee_ with
                  | None =>
                      (InvariantBroken, upd_job (fun _ => job') h)
                  | Some raw_amount =>
                      let staged := MkPendingTransfer {|
                        kind := CyclesTopUpRawFallback;
                        beneficiary := beneficiary accepted;
                        gross_share_e8s := refund;
                        amount_e8s := raw_amount;
                        block_index := 0;
                        pn_next_start := pn_next_start accepted;
                        transfer_memo := Some [];
                        destination_subaccount := None;
                        neuron_id := None |} t AwaitingTransfer in
                      (Staged,
                       upd_job (fun _ => job' <| gross_outflow_e8s := released |>
                                              <| pending_transfer := Some staged |>)
                         (set_pending_transfer_dispatch (job_id job) staged false h))
                  end
              end
        end
  end.

(** [true] when the accounting would overflow the pot. *)
Definition record_accepted_transfer_with_unusable_block_index (id : Z) (p : PendingTransfer)
    (h : Heap) : bool * Heap :=
  match active_payout_job (st h) with
  | None => (false, h)
  | Some job =>
      if negb (job_matches id p job) then (false, h)
      else
        match checked_add (gross_outflow_e8s job) (gross_share_e8s (notification p)) with
        | Some total =>
            if total <=? pot_start_e8s job then
              (false, clear_pending_transfer_dispatch (upd_job (fun j =>
                 (note_terminal Ambiguous p (j <| gross_outflow_e8s := total |>))
                   <| pending_transfer := None |>) h))
            else (true, h)
        | None => (true, h)
        end
  end.

Inductive AmbiguousPendingGrossReservation := NotApplicable | Reserved | ReservationBroken.

Definition reserve_ambiguous_awaiting_transfer_gross (id : Z) (p : PendingTransfer) (h : Heap)
    : AmbiguousPendingGrossReservation * Heap :=
  match active_payout_job (st h) with
  | None => (NotApplicable, h)
  | Some job =>
      if negb (job_matches id p job) || negb (bool_decide (phase p = AwaitingTransfer))
      then (NotApplicable, h)
      else
        match checked_add (gross_outflow_e8s job) (gross_share_e8s (notification p)) with
        | Some total =>
            if total <=? pot_start_e8s job
            then (Reserved, upd_job (fun j => j <| gross_outflow_e8s := total |>) h)
            else (ReservationBroken, h)
        | None => (ReservationBroken, h)
        end
  end.

Definition latch (reason : ForcedRescueReason) : async unit :=
  modify (fun h => h <| st ::= latch_forced_rescue_reason reason |>).

Definition reserve_then_clear_ambiguous_awaiting_transfer (id : Z) (p : PendingTransfer)
    : async bool :=
  r ← with_state_mut (reserve_ambiguous_awaiting_transfer_gross id p);
  match r with
  | ReservationBroken => latch AccountingInvariantBroken ;; mret false
  | _ => modify (clear_pending_transfer id p Ambiguous) ;; mret true
  end.

Definition is_proven_refund_with_block (o : NotifyAttemptOutcome) : bool :=
  match o with
  | NotifyFailed (Terminal (TerminalRefunded _ (Some _))) => true
  | _ => false
  end.
Definition is_terminal_notify_error (o : NotifyAttemptOutcome) : bool :=
  match o with NotifyFailed (Terminal _) => true | _ => false end.

(** How one stage of the driver loop ends: the loop returns, starts over, or
    goes on with the accepted transfer. *)
Inductive Stage := Return (b : bool) | Again | Proceed (accepted : PendingTransfer).

Definition awaiting_stage (ledger cmc_id : Principal) (fee_ now_nanos : Z)
    (may_fall_back : bool) (id : Z) (staged : PendingTransfer) : async Stage :=
  if negb (created_at_time_is_valid_for_ledger (created_at_time_nanos staged) now_nanos)
  then b ← reserve_then_clear_ambiguous_awaiting_transfer id staged; mret (Return b)
  else
    match deposit_account_for_pending cmc_id (notification staged) with
    | None => trap
    | Some to_ =>
        let memo_ := transfer_memo_for_pending (notification staged) in
        arg ← with_state (transfer_arg to_ (amount_e8s (notification staged)) fee_
                            (created_at_time_nanos staged) memo_);
        outcome ← transfer_identity_with_one_retry ledger id staged arg arg;
        match outcome with
        | IdentityAccepted block =>
            accepted ← with_state_mut (mark_pending_transfer_accepted id staged block);
            match accepted with
            | Some p => mret (Proceed p)
            | None => mret (Return false)
            end
        | IdentityDefiniteNoDebit =>
            fallback ←
              (if may_fall_back && bool_decide (kind (notification staged) = Beneficiary)
               then with_state_mut (stage_raw_fallback_after_definite_rejection id staged now_nanos)
               else mret (Ok false));
            match fallback with
            | Ok true => mret Again
            | Ok false => modify (clear_pending_transfer id staged Failed) ;; mret (Return true)
            | Err _ =>
                latch AccountingInvariantBroken ;;
                modify (clear_pending_transfer id staged Failed) ;; mret (Return true)
            end
        | IdentityUncertain =>
            b ← reserve_then_clear_ambiguous_awaiting_transfer id staged; mret (Return b)
        | IdentityAcceptedWithUnusableBlockIndex =>
            broken ← with_state_mut (record_accepted_transfer_with_unusable_block_index id staged);
            if broken : bool then latch AccountingInvariantBroken ;; mret (Return false)
            else mret (Return true)
        | IdentityStale => mret (Return false)
        end
    end.

(** The refund branch of a notification reply. *)
Definition refund_stage (id : Z) (accepted : PendingTransfer) (fee_ now_nanos : Z) : async Stage :=
  r ← with_state_mut (transition_refunded_beneficiary_to_raw_fallback id accepted fee_ now_nanos);
  match r with
  | Staged => mret Again
  | BelowFee => modify (clear_pending_transfer id accepted Failed) ;; mret (Return true)
  | InvariantBroken =>
      latch AccountingInvariantBroken ;;
      modify (clear_pending_transfer id accepted Ambiguous) ;; mret (Return true)
  end.

Definition is_refunded_beneficiary (accepted : PendingTransfer) (o : NotifyAttemptOutcome) : bool :=
  bool_decide (kind (notification accepted) = Beneficiary) && is_proven_refund_with_block o.

Definition still_owned (lease : MainLeaseToken) (id : Z) (p : PendingTransfer) : async bool :=
  with_state (fun h => is_current_in lease (st h) && pending_transfer_matches id p h).

Definition notify_stage (cmc_id : Principal) (fee_ now_nanos now_secs : Z)
    (lease : MainLeaseToken) (id : Z) (accepted : PendingTransfer) : async Stage :=
  first_notify ← notify_once cmc_id id accepted;
  owned ← still_owned lease id accepted;
  if negb owned then mret (Return false)
  else
    match first_notify with
    | NotifySucceeded => modify (record_completed_transfer id accepted now_secs) ;; mret (Return true)
    | NotifyFailed _ =>
        if is_refunded_beneficiary accepted first_notify
        then refund_stage id accepted fee_ now_nanos
        else
          second_notify ← notify_once cmc_id id accepted;
          owned ← still_owned lease id accepted;
          if negb owned then mret (Return false)
          else
            match second_notify with
            | NotifySucceeded =>
                modify (record_completed_transfer id accepted now_secs) ;; mret (Return true)
            | NotifyFailed _ =>
                if is_refunded_beneficiary accepted second_notify
                then refund_stage id accepted fee_ now_nanos
                else
                  let status := if is_terminal_notify_error first_notify
                                   && is_terminal_notify_error second_notify
                                then Failed else Ambiguous in
                  modify (clear_pending_transfer id accepted status) ;; mret (Return true)
            end
    end.

(** Transfers that need no notification; a neuron stake is claimed first. *)
Definition settle_stage (governance : Principal) (now_secs : Z) (lease : MainLeaseToken) (id : Z)
    (accepted : PendingTransfer) : async Stage :=
  owned ←
    match kind (notification accepted), neuron_id (notification accepted) with
    | NeuronStake, Some n =>
        claim_or_refresh governance n ;; still_owned lease id accepted
    | _, _ => mret true
    end;
  if negb (owned : bool) then mret (Return false)
  else modify (record_completed_transfer id accepted now_secs) ;; mret (Return true).

Fixpoint drive_loop (fuel : nat) (ledger cmc_id governance : Principal)
    (fee_ now_nanos now_secs : Z) (lease : MainLeaseToken) (may_fall_back : bool) : async bool :=
  match fuel with
  | O => out_of_fuel
  | S fuel' =>
      pending ← with_state current_pending_transfer;
      match pending with
      | None => mret true
      | Some (id, staged) =>
          s ← match phase staged with
              | AwaitingTransfer =>
                  awaiting_stage ledger cmc_id fee_ now_nanos may_fall_back id staged
              | TransferAccepted => mret (Proceed staged)
              end;
          s ← match s with
              | Proceed accepted =>
                  if negb (requires_cmc_notify (kind (notification accepted)))
                  then settle_stage governance now_secs lease id accepted
                  else notify_stage cmc_id fee_ now_nanos now_secs lease id accepted
              | other => mret other
              end;
          match s with
          | Return b => mret b
          | _ => drive_loop fuel' ledger cmc_id governance fee_ now_nanos now_secs lease false
          end
      end
  end.

(** At most one fallback, hence two rounds. *)
Definition drive_pending_transfer (ledger cmc_id governance : Principal)
    (fee_ now_nanos now_secs : Z) : async bool :=
  lease ← with_state capture;
  drive_loop 2 ledger cmc_id governance fee_ now_nanos now_secs lease true.

Definition send_and_notify (ledger cmc_id governance : Principal) (pending : PendingNotification)
    (fee_ now_nanos now_secs : Z) : async bool :=
  broken ← with_state (fun h =>
    is_some_and (active_payout_job (st h)) (fun job =>
      match checked_add (gross_outflow_e8s job) (gross_share_e8s pending) with
      | Some total => pot_start_e8s job <? total
      | None => true
      end));
  if (broken : bool) then latch AccountingInvariantBroken ;; mret false
  else
    allocated ← with_state (allocate_created_at_time_nanos now_nanos);
    match allocated with
    | None => trap
    | Some (created_at, h') =>
        modify (fun _ => h') ;;
        modify (stage_pending_transfer pending created_at) ;;
        drive_pending_transfer ledger cmc_id governance fee_ now_nanos now_secs
    end.

End transfer.

(** ** The accounting invariant *)

Section invariant.
Context `{A : AccountSpec} `{H : HashSpec} `{T : TextSpec}.

(** A staged transfer still fits the pot; a neuron stake carries its
    subaccount; the scan cursor stands at the record the transfer pays. *)
Definition pending_ok (j : ActivePayoutJob) (p : PendingTransfer) : Prop :=
  0 <= gross_share_e8s (notification p) /\
  (phase p = AwaitingTransfer ->
     gross_outflow_e8s j + gross_share_e8s (notification p) <= pot_start_e8s j) /\
  (kind (notification p) = NeuronStake -> destination_subaccount (notification p) <> None) /\
  (forall i, pn_next_start (notification p) = Some i -> next_start j = Some i).

Definition job_ok (j : ActivePayoutJob) : Prop :=
  0 <= gross_outflow_e8s j <= pot_start_e8s j /\ pot_start_e8s j <= u64_max /\
  match pending_transfer j with Some p => pending_ok j p | None => True end.

(** The gross outflow of the active job never exceeds its pot. *)
Definition job_inv (h : Heap) : Prop :=
  match active_payout_job (st h) with Some j => job_ok j | None => True end.

Lemma job_inv_upd f h :
  job_inv h -> (forall j, active_payout_job (st h) = Some j -> job_ok j -> job_ok (f j)) ->
  job_inv (upd_job f h).
Proof.
  unfold job_inv, upd_job. cbn. destruct (active_payout_job (st h)) as [j|]; cbn; [|done].
  intros Hj Hf. by apply Hf.
Qed.

Lemma job_matches_true id p j :
  job_matches id p j = true <-> job_id j = id /\ pending_transfer j = Some p.
Proof. unfold job_matches. by rewrite andb_true_iff, Z.eqb_eq, bool_decide_eq_true. Qed.

Lemma pending_matches_iff id p h :
  pending_transfer_matches id p h = true <->
  exists j, active_payout_job (st h) = Some j /\ job_id j = id /\ pending_transfer j = Some p.
Proof.
  unfold pending_transfer_matches, is_some_and.
  destruct (active_payout_job (st h)) as [j|]; [|naive_solver].
  rewrite job_matches_true. naive_solver.
Qed.

Lemma current_matches h id p :
  current_pending_transfer h = Some (id, p) <-> pending_transfer_matches id p h = true.
Proof.
  rewrite pending_matches_iff. unfold current_pending_transfer.
  destruct (active_payout_job (st h)) as [j|]; [|naive_solver].
  destruct (pending_transfer j) as [q|] eqn:E; naive_solver.
Qed.

(** Changes of a job that only touch counters keep the invariant. *)
Lemma job_ok_frame (j j' : ActivePayoutJob) :
  gross_outflow_e8s j' = gross_outflow_e8s j -> pot_start_e8s j' = pot_start_e8s j ->
  (pending_transfer j' = pending_transfer j /\ next_start j' = next_start j \/
   pending_transfer j' = None) -> job_ok j -> job_ok j'.
Proof.
  unfold job_ok, pending_ok. intros -> -> [[-> ->] | ->]; tauto.
Qed.

Ltac job_frame j :=
  apply (job_ok_frame j); [reflexivity|reflexivity|first [left; split; reflexivity|right; reflexivity]|assumption].

Lemma job_inv_note_attempted id p h : job_inv h -> job_inv (note_attempted_beneficiary id p h).
Proof.
  intros Hh. unfold note_attempted_beneficiary. repeat case_match; try done.
  apply job_inv_upd; [done|]. unfold note_witness. intros j _ Hj. case_match; job_frame j.
Qed.

Lemma job_inv_increment id p h : job_inv h -> job_inv (increment_cmc_attempts id p h).
Proof.
  intros Hh. unfold increment_cmc_attempts. repeat case_match; try done.
  apply job_inv_upd; [done|]. intros j _ Hj. job_frame j.
Qed.

Lemma job_inv_clear id p status h : job_inv h -> job_inv (clear_pending_transfer id p status h).
Proof.
  intros Hh. unfold clear_pending_transfer. case_match; [|done].
  apply (job_inv_upd (fun j => (note_terminal status p j) <| pending_transfer := None |>) h); [done|].
  intros j _ Hj. unfold note_terminal. destruct (is_beneficiary_payout _), status;
    job_frame j.
Qed.

Lemma job_inv_complete id p now h : job_inv h -> job_inv (record_completed_transfer id p now h).
Proof.
  intros Hh. unfold record_completed_transfer. case_match; [|done].
  set (h' := if requires_cmc_notify _ then _ else h).
  apply (job_inv_upd (complete_job (notification p)) h').
  - subst h'. by destruct (requires_cmc_notify _).
  - intros j _ Hj. unfold complete_job, apply_notified_transfer.
    destruct (requires_cmc_notify _), (kind _); job_frame j.
Qed.

Lemma job_inv_dispatch id p b h : job_inv h -> job_inv (set_pending_transfer_dispatch id p b h).
Proof. done. Qed.

Lemma job_inv_set_started id p l b h : job_inv h -> job_inv (set_dispatch_started id p l b h).2.
Proof. unfold set_dispatch_started. by case_match. Qed.

Lemma job_inv_latch r h : job_inv h -> job_inv (h <| st ::= latch_forced_rescue_reason r |>).
Proof. unfold job_inv, latch_forced_rescue_reason. cbn. by destruct (is_none _). Qed.

Lemma job_inv_mark id p block h :
  job_inv h -> (phase p = AwaitingTransfer) ->
  job_inv (mark_pending_transfer_accepted id p block h).2.
Proof.
  intros Hh Hph. unfold mark_pending_transfer_accepted. case_match eqn:Hm; [|done]. cbn [snd].
  apply pending_matches_iff in Hm as (j0 & Hj0 & _ & Hp0). apply job_inv_upd; [done|].
  intros j Hj Hok. rewrite Hj0 in Hj. injection Hj as <-.
  unfold job_ok in Hok. rewrite Hp0 in Hok. destruct Hok as (Hg & Hpot & Hs & Hfit & Hn).
  specialize (Hfit Hph). unfold job_ok, pending_ok. cbn. unfold const.
  split; [ulia|]. split; [done|]. split; [done|]. split; [done|]. exact Hn.
Qed.

Lemma fresh_created_frame now prev (j j' : ActivePayoutJob) t :
  fresh_transition_created_at_time now prev j = Some (t, j') ->
  gross_outflow_e8s j' = gross_outflow_e8s j /\ pot_start_e8s j' = pot_start_e8s j /\
  (pending_transfer j' = pending_transfer j /\ next_start j' = next_start j) /\ t <> prev /\
  created_at_time_is_valid_for_ledger t now = true.
Proof.
  unfold fresh_transition_created_at_time. set (t0 := if created_at_time_is_valid_for_ledger _ _ then _ else _).
  destruct (t0 =? prev) eqn:E; cbn [mbind option_bind].
  - destruct (checked_add t0 1) as [t1|] eqn:E1; cbn; [|done].
    destruct (created_at_time_is_valid_for_ledger t1 now) eqn:Hv; cbn; [|done].
    destruct (checked_add t1 1); cbn; [|done]. intros [= <- <-].
    apply checked_add_Some in E1. zify_bool. repeat split; try done. lia.
  - destruct (created_at_time_is_valid_for_ledger t0 now) eqn:Hv; cbn; [|done].
    destruct (checked_add t0 1); cbn; [|done]. intros [= <- <-]. zify_bool. done.
Qed.

Lemma fresh_created_id now prev (j j' : ActivePayoutJob) t :
  fresh_transition_created_at_time now prev j = Some (t, j') -> job_id j' = job_id j.
Proof.
  unfold fresh_transition_created_at_time.
  intros (t1 & _ & H1)%bind_Some. destruct (negb _); [done|].
  apply bind_Some in H1 as (n & _ & [= <- <-]). done.
Qed.

Lemma job_inv_stage_fallback id p now h :
  job_inv h -> job_inv (stage_raw_fallback_after_definite_rejection id p now h).2.
Proof.
  intros Hh. unfold stage_raw_fallback_after_definite_rejection.
  destruct (active_payout_job (st h)) as [j|] eqn:Hj; [|done].
  destruct (job_matches id p j) eqn:Hm; cbn [negb]; [|done].
  destruct (bool_decide (phase p = _) && _) eqn:Hk; cbn [negb]; [|done].
  destruct (fresh_transition_created_at_time _ _ j) as [[t j']|] eqn:Hf; [|done]. cbn [snd].
  apply fresh_created_frame in Hf as (Hg & Hpot & (_ & Hcur) & _).
  apply job_matches_true in Hm as [_ Hp]. apply andb_true_iff in Hk as [Hph _].
  apply bool_decide_eq_true in Hph.
  unfold job_inv in *. rewrite Hj in Hh. cbn. rewrite Hj. cbn. unfold const.
  unfold job_ok in *. rewrite Hp in Hh. destruct Hh as (Hr & Hu & Hs & Hfit & _ & Hc). specialize (Hfit Hph).
  cbn. unfold const. rewrite Hg, Hpot. split; [done|]. split; [done|].
  unfold pending_ok. cbn. unfold const. rewrite Hg, Hpot, Hcur. done.
Qed.

Lemma refund_amounts_Some n fee_ j refund released :
  refund_amounts n fee_ j = Some (refund, released) ->
  refund = amount_e8s n - 3 * fee_ /\ gross_share_e8s n = amount_e8s n + fee_ /\
  released = gross_outflow_e8s j - refund /\ 0 <= refund <= gross_outflow_e8s j.
Proof.
  unfold refund_amounts. 
  destruct (checked_sub (gross_share_e8s n) fee_) as [o|] eqn:E1; cbn; [|done].
  destruct (o =? amount_e8s n) eqn:E2; cbn; [|done].
  destruct (checked_mul fee_ 2) as [m|] eqn:E3; cbn; [|done].
  destruct (checked_sub o fee_) as [a|] eqn:E4; cbn; [|done].
  destruct (checked_sub a m) as [r|] eqn:E5; cbn; [|done].
  destruct (checked_sub (gross_outflow_e8s j) r) as [g|] eqn:E6; cbn; [|done].
  intros [= <- <-].
  apply checked_sub_Some in E1, E4, E5, E6. apply checked_mul_Some in E3. zify_bool. lia.
Qed.

Lemma job_inv_refund id p fee_ now h :
  0 <= fee_ -> job_inv h ->
  job_inv (transition_refunded_beneficiary_to_raw_fallback id p fee_ now h).2.
Proof.
  intros Hfee Hh. unfold transition_refunded_beneficiary_to_raw_fallback.
  destruct (active_payout_job (st h)) as [j|] eqn:Hj; [|done].
  destruct (job_matches id p j) eqn:Hm; cbn [negb]; [|done].
  destruct (bool_decide (phase p = _) && _) eqn:Hk; cbn [negb]; [|done].
  destruct (refund_amounts _ _ _) as [[refund released]|] eqn:Hr; [|done].
  apply refund_amounts_Some in Hr as (Href & Hgs & Hrel & H0).
  apply job_matches_true in Hm as [_ Hp]. apply andb_true_iff in Hk as [Hph _].
  apply bool_decide_eq_true in Hph.
  assert (job_ok j) as Hok by (unfold job_inv in Hh; by rewrite Hj in Hh).
  unfold job_ok in Hok. rewrite Hp in Hok. destruct Hok as (Hr & Hu & Hs & _ & Hn).
  destruct (refund <=? fee_) eqn:Hlow.
  { apply job_inv_upd; [done|]. intros j0 Hj0 _. rewrite Hj in Hj0. injection Hj0 as <-.
    unfold job_ok, pending_ok. cbn. rewrite Hp. unfold const.
    split; [lia|]. split; [done|]. split; [done|]. split; [by rewrite Hph|exact Hn]. }
  destruct (fresh_transition_created_at_time _ _ j) as [[t j']|] eqn:Hf; [|done].
  apply fresh_created_frame in Hf as (Hg & Hpot & [Hpe Hcur] & _).
  assert (job_ok j') as Hok' by (by eapply job_ok_frame; [exact Hg|exact Hpot|left; by split|]; unfold job_inv in Hh; rewrite Hj in Hh).
  destruct (checked_sub refund fee_) as [raw|]; cbn [snd].
  2: { apply job_inv_upd; [done|]. done. }
  apply job_inv_upd; [done|]. intros j0 _ _. unfold job_ok, pending_ok. cbn. unfold const.
  rewrite Hpot, Hcur. split; [lia|]. split; [done|]. split; [lia|]. split; [lia|]. split; [done|apply Hn].
Qed.

Lemma job_inv_unusable id p h :
  job_inv h -> job_inv (record_accepted_transfer_with_unusable_block_index id p h).2.
Proof.
  intros Hh. unfold record_accepted_transfer_with_unusable_block_index.
  destruct (active_payout_job (st h)) as [j|] eqn:Hj; [|done].
  destruct (job_matches id p j) eqn:Hm; cbn [negb]; [|done].
  destruct (checked_add _ _) as [total|] eqn:Ht; [|done].
  destruct (total <=? pot_start_e8s j) eqn:Hle; [|done]. cbn [snd].
  apply (job_inv_upd (fun j => (note_terminal Ambiguous p (j <| gross_outflow_e8s := total |>))
                                <| pending_transfer := None |>) h); [done|].
  intros j0 Hj0 Hok. rewrite Hj in Hj0. injection Hj0 as <-.
  apply job_matches_true in Hm as [_ Hp]. unfold job_ok in Hok. rewrite Hp in Hok.
  destruct Hok as (Hr & Hu & Hs & _). apply checked_add_Some in Ht as [-> _]. zify_bool.
  unfold note_terminal. destruct (is_beneficiary_payout _); unfold job_ok; cbn; unfold const; lia.
Qed.

Lemma job_inv_reserve id p h :
  job_inv h ->
  let r := reserve_ambiguous_awaiting_transfer_gross id p h in
  r.1 <> ReservationBroken /\ job_inv (clear_pending_transfer id p Ambiguous r.2).
Proof.
  intros Hh. unfold reserve_ambiguous_awaiting_transfer_gross.
  destruct (active_payout_job (st h)) as [j|] eqn:Hj; [|by split; [|apply job_inv_clear]].
  destruct (negb (job_matches id p j) || _) eqn:Hm; [by split; [|apply job_inv_clear]|].
  apply orb_false_iff in Hm as [Hm Hph]. apply negb_false_iff in Hm, Hph.
  apply bool_decide_eq_true in Hph. pose proof Hm as [_ Hp]%job_matches_true.
  assert (job_ok j) as Hok by (unfold job_inv in Hh; by rewrite Hj in Hh).
  unfold job_ok in Hok. rewrite Hp in Hok. destruct Hok as (Hr & Hu & Hs & Hfit & _).
  specialize (Hfit Hph).
  unfold checked_add. rewrite (proj2 (Z.leb_le _ _)) by lia. rewrite (proj2 (Z.leb_le _ _)) by lia.
  split; [done|]. cbn [snd]. unfold clear_pending_transfer, pending_transfer_matches.
  set (h' := upd_job _ h). assert (active_payout_job (st h') =
    Some (j <| gross_outflow_e8s := gross_outflow_e8s j + gross_share_e8s (notification p) |>)) as Hj'
    by (cbn; by rewrite Hj).
  rewrite Hj'. cbn [is_some_and].
  assert (job_matches id p (j <| gross_outflow_e8s := gross_outflow_e8s j
            + gross_share_e8s (notification p) |>) = true) as -> by exact Hm.
  unfold job_inv, clear_pending_transfer_dispatch, upd_job. cbn. rewrite Hj. cbn.
  unfold note_terminal. destruct (is_beneficiary_payout _); unfold job_ok; cbn; unfold const; lia.
Qed.

(** What the transfer machine leaves alone: the configuration, the skip ranges,
    the lease, the funding scan and cursor, the run marker, and the scan and accounting parameters of the job. *)
Definition job_scan (j : ActivePayoutJob) :=
  (job_id j, next_start j, scan_complete j,
   (skip_candidate_start_tx_id j, skip_candidate_end_tx_id j, skip_candidate_tx_count j),
   (effective_denom_scan_complete_flag j, effective_denom_staking_balance_e8s j,
    denom_staking_balance_e8s j, pot_start_e8s j, fee_e8s j),
   (funding_tx_id j, round_end_latest_tx_id j)).

Definition transfer_frame (h h' : Heap) : Prop :=
  config (st h') = config (st h) /\ skip_ranges h' = skip_ranges h /\
  main_lock_state_ts (st h') = main_lock_state_ts (st h) /\
  active_funding_scan (st h') = active_funding_scan (st h) /\
  last_processed_funding_tx_id (st h') = last_processed_funding_tx_id (st h) /\
  main_run_marker h' = main_run_marker h /\
  option_map job_scan (active_payout_job (st h')) = option_map job_scan (active_payout_job (st h)).

(** A step of the transfer machine. *)
Definition stepped (h h' : Heap) : Prop := job_inv h' /\ transfer_frame h h'.

Lemma frame_upd f h :
  (forall j, active_payout_job (st h) = Some j -> job_scan (f j) = job_scan j) ->
  transfer_frame h (upd_job f h).
Proof.
  intros Hf. unfold transfer_frame, upd_job. cbn.
  destruct (active_payout_job (st h)) as [j|]; cbn; [|done]. by rewrite Hf.
Qed.

Lemma frame_trans h1 h2 h3 : transfer_frame h1 h2 -> transfer_frame h2 h3 -> transfer_frame h1 h3.
Proof. unfold transfer_frame. intros (-> & -> & -> & -> & -> & -> & ->) (-> & -> & -> & -> & -> & -> & ->). done. Qed.

Lemma note_terminal_scan status p j : job_scan (note_terminal status p j) = job_scan j.
Proof. unfold note_terminal. by destruct (is_beneficiary_payout _), status. Qed.

Lemma fresh_created_scan now prev (j j' : ActivePayoutJob) t :
  fresh_transition_created_at_time now prev j = Some (t, j') -> job_scan j' = job_scan j.
Proof.
  unfold fresh_transition_created_at_time.
  intros (t1 & _ & H1)%bind_Some. destruct (negb _); [done|].
  apply bind_Some in H1 as (n & _ & [= <- <-]). done.
Qed.

Lemma step_note_attempted id p h : job_inv h -> stepped h (note_attempted_beneficiary id p h).
Proof.
  intros Hh. split; [by apply job_inv_note_attempted|]. unfold note_attempted_beneficiary.
  destruct (negb _); [done|]. destruct (pending_transfer_matches id p h); [|done].
  apply frame_upd. intros j _. unfold note_witness. by destruct (0 <? _).
Qed.

Lemma step_increment id p h : job_inv h -> stepped h (increment_cmc_attempts id p h).
Proof.
  intros Hh. split; [by apply job_inv_increment|]. unfold increment_cmc_attempts.
  destruct (negb _); [done|]. destruct (pending_transfer_matches id p h); [|done].
  by apply frame_upd.
Qed.

Lemma frame_clear id p status h : transfer_frame h (clear_pending_transfer id p status h).
Proof.
  unfold clear_pending_transfer. destruct (pending_transfer_matches id p h); [|done].
  apply (frame_upd (fun j => (note_terminal status p j) <| pending_transfer := None |>)).
  intros j _. apply (note_terminal_scan status p j).
Qed.

Lemma step_clear id p status h : job_inv h -> stepped h (clear_pending_transfer id p status h).
Proof. intros Hh. split; [by apply job_inv_clear|apply frame_clear]. Qed.

Lemma step_complete id p now h : job_inv h -> stepped h (record_completed_transfer id p now h).
Proof.
  intros Hh. split; [by apply job_inv_complete|]. unfold record_completed_transfer.
  destruct (pending_transfer_matches id p h); [|done].
  set (h' := if requires_cmc_notify _ then _ else h).
  apply (frame_trans _ h'); [by subst h'; destruct (requires_cmc_notify _)|].
  apply (frame_upd (complete_job (notification p)) h'). intros j _.
  unfold complete_job, apply_notified_transfer. by destruct (requires_cmc_notify _), (kind _).
Qed.

Lemma step_set_started id p l b h : job_inv h -> stepped h (set_dispatch_started id p l b h).2.
Proof. intros Hh. split; [by apply job_inv_set_started|]. unfold set_dispatch_started. by case_match. Qed.

Lemma step_latch r h : job_inv h -> stepped h (h <| st ::= latch_forced_rescue_reason r |>).
Proof.
  intros Hh. split; [by apply job_inv_latch|]. unfold latch_forced_rescue_reason.
  unfold transfer_frame. cbn. by destruct (is_none _).
Qed.

Lemma step_mark id p block h :
  job_inv h -> phase p = AwaitingTransfer ->
  stepped h (mark_pending_transfer_accepted id p block h).2.
Proof.
  intros Hh Hp. split; [by apply job_inv_mark|]. unfold mark_pending_transfer_accepted.
  destruct (pending_transfer_matches id p h); [|done]. by apply frame_upd.
Qed.

Lemma step_stage_fallback id p now h :
  job_inv h -> stepped h (stage_raw_fallback_after_definite_rejection id p now h).2.
Proof.
  intros Hh. split; [by apply job_inv_stage_fallback|].
  unfold stage_raw_fallback_after_definite_rejection.
  destruct (active_payout_job (st h)) as [j|] eqn:Hj; [|done].
  destruct (negb (job_matches id p j)); [done|]. destruct (negb (_ && _)); [done|].
  destruct (fresh_transition_created_at_time _ _ j) as [[t j']|] eqn:Hf; [|done].
  apply fresh_created_scan in Hf. cbn [snd].
  apply (frame_upd _ (set_pending_transfer_dispatch _ _ _ h)). intros j0 Hj0. cbn in Hj0.
  rewrite Hj in Hj0. injection Hj0 as <-. exact Hf.
Qed.

Lemma step_refund id p fee_ now h :
  0 <= fee_ -> job_inv h ->
  stepped h (transition_refunded_beneficiary_to_raw_fallback id p fee_ now h).2.
Proof.
  intros Hfee Hh. split; [by apply job_inv_refund|].
  unfold transition_refunded_beneficiary_to_raw_fallback.
  destruct (active_payout_job (st h)) as [j|] eqn:Hj; [|done].
  destruct (negb (job_matches id p j)); [done|]. destruct (negb (_ && _)); [done|].
  destruct (refund_amounts _ _ j) as [[refund released]|]; [|done].
  destruct (refund <=? fee_); [by apply frame_upd|].
  destruct (fresh_transition_created_at_time _ _ j) as [[t j']|] eqn:Hf; [|done].
  apply fresh_created_scan in Hf.
  destruct (checked_sub refund fee_); cbn [snd];
    [apply (frame_upd _ (set_pending_transfer_dispatch _ _ _ h))|apply frame_upd];
    intros j0 Hj0; cbn in Hj0; rewrite Hj in Hj0; injection Hj0 as <-; exact Hf.
Qed.

Lemma step_unusable id p h :
  job_inv h -> stepped h (record_accepted_transfer_with_unusable_block_index id p h).2.
Proof.
  intros Hh. split; [by apply job_inv_unusable|].
  unfold record_accepted_transfer_with_unusable_block_index.
  destruct (active_payout_job (st h)) as [j|] eqn:Hj; [|done].
  destruct (negb (job_matches id p j)); [done|].
  destruct (checked_add _ _) as [total|]; [|done]. destruct (total <=? _); [|done].
  apply (frame_upd (fun j => (note_terminal Ambiguous p (j <| gross_outflow_e8s := total |>))
                                <| pending_transfer := None |>) h).
  intros j0 _. unfold note_terminal. by destruct (is_beneficiary_payout _).
Qed.

Lemma step_reserve id p h :
  job_inv h ->
  let r := reserve_ambiguous_awaiting_transfer_gross id p h in
  r.1 <> ReservationBroken /\ stepped h (clear_pending_transfer id p Ambiguous r.2).
Proof.
  intros Hh. pose proof (job_inv_reserve id p h Hh) as [H1 H2]. split; [done|]. split; [done|].
  apply (frame_trans _ (reserve_ambiguous_awaiting_transfer_gross id p h).2); [|apply frame_clear].
  unfold reserve_ambiguous_awaiting_transfer_gross.
  destruct (active_payout_job (st h)) as [j|]; [|done]. destruct (_ || _); [done|].
  destruct (checked_add _ _) as [total|]; [|done]. destruct (total <=? _); [|done].
  by apply frame_upd.
Qed.

End invariant.

(** ** The specification of the driver *)

Section spec.
Context `{A : AccountSpec} `{H : HashSpec} `{T : TextSpec}.
Context (e : env Heap SuiteCall) (ledger cmc_id governance : Principal)
        (fee_ now_nanos now_secs : Z).
Hypothesis fee_nonneg : 0 <= fee_.
(** An invariant that holds whenever the accounting does and only the machine
    has moved. *)
Context (I : Heap -> Prop).
Hypothesis I_job : forall h, I h -> job_inv h.
Hypothesis I_step : forall h h', I h -> stepped h h' -> I h'.
Hypothesis rely_inv : forall n h, I h -> I (env_interleave e n h).
(** What the callers want of the committed states. *)
Context (C : Heap -> Prop).
Hypothesis I_commit : forall h, I h -> C h.

Definition safe (w : world Heap SuiteCall) : Prop :=
  I (w_state w) /\ Forall (fun ev => match ev with Dispatch _ s => C s end) (w_trace w).

(** A transfer that is dispatched carries the identity of the pending transfer
    of the job, whose creation time the ledger accepts; the dispatch record
    committed with the call already marks that identity as possibly debited. *)
Definition staged_transfer (ev : event Heap SuiteCall) : Prop :=
  exists h h0 id p to_,
    ev = Dispatch (IcrcTransfer ledger
           (transfer_arg to_ (amount_e8s (notification p)) fee_ (created_at_time_nanos p)
              (transfer_memo_for_pending (notification p)) h0)) h /\
    current_pending_transfer h = Some (id, p) /\ phase p = AwaitingTransfer /\
    deposit_account_for_pending cmc_id (notification p) = Some to_ /\
    created_at_time_is_valid_for_ledger (created_at_time_nanos p) now_nanos = true /\
    dispatch h = Some (MkDispatch id p true).

(** A notification is only sent for an accepted transfer of the job, with the
    block the ledger reported. *)
Definition settlement_call (ev : event Heap SuiteCall) : Prop :=
  exists h id p,
    current_pending_transfer h = Some (id, p) /\ phase p = TransferAccepted /\
    (ev = Dispatch (NotifyTopUp cmc_id (beneficiary (notification p))
                      (block_index (notification p))) h \/
     exists n, neuron_id (notification p) = Some n /\
               ev = Dispatch (ManageNeuron governance n ClaimOrRefresh) h).

Definition transfer_event (ev : event Heap SuiteCall) : Prop :=
  staged_transfer ev \/ settlement_call ev.

Definition good (w0 w : world Heap SuiteCall) : Prop :=
  safe w /\ traced transfer_event (w_trace w0) w.

Lemma good_refl w : safe w -> good w w.
Proof. split; [done|]. by exists []. Qed.

Lemma good_inv w0 w : good w0 w -> job_inv (w_state w).
Proof. intros [[H1 _] _]. by apply I_job. Qed.

Lemma good_modify w0 w f : (forall h, job_inv h -> stepped h (f h)) -> good w0 w ->
  good w0 (World (f (w_state w)) (w_trace w)).
Proof.
  intros Hf [Hc Ht]. split; [|done]. split; [|apply Hc].
  eapply I_step; [apply Hc|]. apply Hf, I_job, Hc.
Qed.

Lemma good_state w0 w h : stepped (w_state w) h -> good w0 w -> good w0 (World h (w_trace w)).
Proof.
  intros Hh [Hc Ht]. split; [|done]. split; [|apply Hc].
  eapply I_step; [apply Hc|exact Hh].
Qed.

Lemma good_call w0 w {X} (c : SuiteCall X) :
  transfer_event (Dispatch c (w_state w)) -> good w0 w -> good w0 (after_call e c w).
Proof.
  intros Hev [Hc (l & El & Hl)]. split; [split; cbn; [apply rely_inv, Hc|constructor; [apply I_commit|]; apply Hc]|].
  exists (Dispatch c (w_state w) :: l). cbn. rewrite El. split; [done|]. by constructor.
Qed.

Lemma set_started_true id p lease b h h' :
  set_dispatch_started id p lease b h = (true, h') ->
  current_pending_transfer h' = Some (id, p) /\ dispatch h' = Some (MkDispatch id p b) /\
  (job_inv h -> stepped h h').
Proof.
  unfold set_dispatch_started. destruct (_ && _) eqn:E; [|done]. intros [= <-].
  apply andb_true_iff in E as [_ E]. apply current_matches in E. done.
Qed.

Lemma transfer_attempts_spec w0 id p lease to_ args w :
  phase p = AwaitingTransfer ->
  deposit_account_for_pending cmc_id (notification p) = Some to_ ->
  created_at_time_is_valid_for_ledger (created_at_time_nanos p) now_nanos = true ->
  Forall (fun arg => exists h0, arg = transfer_arg to_ (amount_e8s (notification p)) fee_
      (created_at_time_nanos p) (transfer_memo_for_pending (notification p)) h0) args ->
  good w0 w -> (args = [] -> pending_transfer_matches id p (w_state w) = true) ->
  wp e (transfer_attempts ledger id p lease args)
    (fun r w' => good w0 w' /\
       (r <> IdentityStale -> pending_transfer_matches id p (w_state w') = true)) w.
Proof.
  intros Hph Hto Hvalid Hargs. revert w.
  induction Hargs as [|arg rest [h0 ->] _ IH]; intros w Hw Hnil.
  { cbn [transfer_attempts]. wp_step. split; [done|]. auto. }
  assert (forall r w1, good w0 w1 -> r = IdentityStale \/ pending_transfer_matches id p (w_state w1) = true ->
    good w0 w1 /\ (r <> IdentityStale ->
          pending_transfer_matches id p (w_state w1) = true)) as Hend by naive_solver.
  cbn [transfer_attempts]. wp_step. wp_step.
  set (prior := pending_transfer_may_have_dispatched _ _ _).
  wp_step. wp_step. destruct (set_dispatch_started id p lease true (w_state w)) as [started h1] eqn:Es.
  cbn [fst snd]. destruct started; cbn [negb].
  2: { wp_step. apply Hend; [|auto]. unfold set_dispatch_started in Es. case_match; [done|].
       injection Es as <-. by destruct w. }
  apply set_started_true in Es as (Hcur & Hd & Hi).
  wp_step. unfold transfer_once. wp_step. apply wp_transfer. intros r. wp_step.
  set (w1 := after_call e _ _).
  assert (good w0 w1) as Hw1.
  { apply good_call; [|apply good_state; [by eapply Hi, good_inv|done]].
    left. exists h1, h0, id, p, to_. done. }
  wp_step. wp_step. destruct (_ && _) eqn:Eown; cbn [negb]; [|wp_step; apply Hend; auto].
  apply andb_true_iff in Eown as [_ Hm].
  destruct (classify_transfer r) as [block|retryable| |].
  - wp_step. split; [done|]. auto.
  - wp_step.
    assert (wp e (if prior then mret true else with_state_mut (set_dispatch_started id p lease false))
      (fun b w2 => good w0 w2 /\ (b = true -> pending_transfer_matches id p (w_state w2) = true)) w1)
      as Hclear.
    { destruct prior; [by wp_step|]. wp_step.
      destruct (set_dispatch_started id p lease false (w_state w1)) as [b h2] eqn:E2.
      cbn [fst snd]. split.
      - apply (good_state _ w1); [|done].
        pose proof (step_set_started id p lease false (w_state w1)) as Hs.
        rewrite E2 in Hs. by eapply Hs, good_inv.
      - intros ->. by apply set_started_true in E2 as (?%current_matches & _). }
    eapply wp_mono; [exact Hclear|]. intros b w2 [Hw2 Hm2].
    destruct b; cbn [negb]; [|wp_step; apply Hend; auto].
    wp_step; [|apply IH; auto]. wp_step. apply Hend; auto.
  - apply IH; auto.
  - wp_step. apply Hend; auto.
Qed.

Lemma wp_modify_good w0 (f : Heap -> Heap) Q w :
  (forall h, job_inv h -> stepped h (f h)) -> good w0 w ->
  (good w0 (World (f (w_state w)) (w_trace w)) -> Q tt (World (f (w_state w)) (w_trace w))) ->
  wp e (modify f) Q w.
Proof. intros Hf Hw HQ. wp_step. apply HQ. by apply good_modify. Qed.

(** Nothing is left pending. *)
Definition cleared (w : world Heap SuiteCall) : Prop := current_pending_transfer (w_state w) = None.

Lemma clear_cleared id p status h t :
  pending_transfer_matches id p h = true ->
  cleared (World (clear_pending_transfer id p status h) t).
Proof.
  intros Hm. unfold clear_pending_transfer. rewrite Hm.
  apply pending_matches_iff in Hm as (j & Hj & _). unfold cleared, current_pending_transfer.
  cbn. by rewrite Hj.
Qed.

Lemma complete_cleared id p now h t :
  pending_transfer_matches id p h = true ->
  cleared (World (record_completed_transfer id p now h) t).
Proof.
  intros Hm. unfold record_completed_transfer. rewrite Hm.
  apply pending_matches_iff in Hm as (j & Hj & _). unfold cleared, current_pending_transfer.
  destruct (requires_cmc_notify _); cbn; by rewrite Hj.
Qed.

Lemma unusable_cleared id p h h' t :
  pending_transfer_matches id p h = true ->
  record_accepted_transfer_with_unusable_block_index id p h = (false, h') -> cleared (World h' t).
Proof.
  intros (j & Hj & Hid & Hp)%pending_matches_iff.
  unfold record_accepted_transfer_with_unusable_block_index. rewrite Hj.
  rewrite (proj2 (job_matches_true id p j)) by done. cbn [negb].
  destruct (checked_add _ _) as [total|]; [|done]. destruct (total <=? _); [|done].
  intros [= <-]. unfold cleared, current_pending_transfer. cbn. by rewrite Hj.
Qed.

Lemma reserve_matches id p h :
  pending_transfer_matches id p h = true ->
  pending_transfer_matches id p (reserve_ambiguous_awaiting_transfer_gross id p h).2 = true.
Proof.
  intros Hm. unfold reserve_ambiguous_awaiting_transfer_gross.
  destruct (active_payout_job (st h)) as [j|] eqn:Hj; [|done].
  destruct (_ || _); [done|]. destruct (checked_add _ _) as [total|]; [|done].
  destruct (total <=? _); [|done]. cbn [snd].
  apply pending_matches_iff in Hm as (j0 & Hj0 & Hid & Hp). apply pending_matches_iff.
  cbn. rewrite Hj. cbn. rewrite Hj in Hj0. injection Hj0 as <-. by eexists.
Qed.

Lemma latch_matches r id p h :
  pending_transfer_matches id p (h <| st ::= latch_forced_rescue_reason r |>)
  = pending_transfer_matches id p h.
Proof.
  unfold pending_transfer_matches, latch_forced_rescue_reason. cbn. by destruct (is_none _).
Qed.

Lemma wp_reserve_clear w0 id p w :
  good w0 w -> pending_transfer_matches id p (w_state w) = true ->
  wp e (reserve_then_clear_ambiguous_awaiting_transfer id p)
    (fun b w' => good w0 w' /\ (b = true -> cleared w')) w.
Proof.
  intros Hw Hm. unfold reserve_then_clear_ambiguous_awaiting_transfer. wp_step. wp_step.
  pose proof (step_reserve id p (w_state w) ltac:(by eapply good_inv)) as [Hne Hinv].
  pose proof (reserve_matches id p (w_state w) Hm) as Hm'.
  destruct (reserve_ambiguous_awaiting_transfer_gross id p (w_state w)) as [r h]. cbn [fst snd] in *.
  assert (good w0 (World (clear_pending_transfer id p Ambiguous h) (w_trace w)))
    by (by apply (good_state _ w)).
  assert (cleared (World (clear_pending_transfer id p Ambiguous h) (w_trace w)))
    by (by apply clear_cleared).
  destruct r; [| |done]; do 2 wp_step; by wp_step.
Qed.

(** A raw fallback waits for its transfer. *)
Definition fallback_pending (h : Heap) : Prop :=
  exists id p, current_pending_transfer h = Some (id, p) /\
    kind (notification p) = CyclesTopUpRawFallback /\ phase p = AwaitingTransfer.

Lemma stage_fallback_true id p h h' :
  stage_raw_fallback_after_definite_rejection id p now_nanos h = (Ok true, h') ->
  fallback_pending h'.
Proof.
  unfold stage_raw_fallback_after_definite_rejection.
  destruct (active_payout_job (st h)) as [j|] eqn:Hj; [|done].
  destruct (negb (job_matches id p j)); [done|]. destruct (negb (_ && _)); [done|].
  destruct (fresh_transition_created_at_time _ _ j) as [[t j']|]; [|done]. intros [= <-].
  unfold fallback_pending, current_pending_transfer. cbn. rewrite Hj. cbn. by eexists _, _.
Qed.

Lemma stage_fallback_other id p h r h' :
  stage_raw_fallback_after_definite_rejection id p now_nanos h = (r, h') -> r <> Ok true -> h' = h.
Proof.
  unfold stage_raw_fallback_after_definite_rejection.
  destruct (active_payout_job (st h)) as [j|]; [|naive_solver].
  destruct (negb (job_matches id p j)); [naive_solver|]. destruct (negb (_ && _)); [naive_solver|].
  destruct (fresh_transition_created_at_time _ _ j) as [[t j']|]; naive_solver.
Qed.

Lemma refund_matches id p h r h' :
  transition_refunded_beneficiary_to_raw_fallback id p fee_ now_nanos h = (r, h') -> r <> Staged ->
  pending_transfer_matches id p h = true -> pending_transfer_matches id p h' = true.
Proof.
  intros E Hr (j & Hj & Hid & Hp)%pending_matches_iff.
  unfold transition_refunded_beneficiary_to_raw_fallback in E. rewrite Hj in E.
  assert (forall h1 j1, active_payout_job (st h1) = Some j1 -> job_id j1 = id ->
    pending_transfer j1 = Some p -> pending_transfer_matches id p h1 = true) as Hm.
  { intros. apply pending_matches_iff. eauto. }
  destruct (negb (job_matches id p j)); [injection E as _ <-; by eapply Hm|].
  destruct (negb (_ && _)); [injection E as _ <-; by eapply Hm|].
  destruct (refund_amounts _ _ j) as [[refund released]|]; [|injection E as _ <-; by eapply Hm].
  destruct (refund <=? fee_).
  { injection E as _ <-. eapply Hm; [cbn; by rewrite Hj|done|done]. }
  destruct (fresh_transition_created_at_time _ _ j) as [[t j']|] eqn:Hf;
    [|injection E as _ <-; by eapply Hm].
  pose proof (fresh_created_frame _ _ _ _ _ Hf) as (_ & _ & [Hpe _] & _).
  pose proof (fresh_created_id _ _ _ _ _ Hf) as Hjid.
  destruct (checked_sub refund fee_); injection E as <- <-; [done|].
  eapply Hm; [cbn; by rewrite Hj|congruence|congruence].
Qed.

Lemma refund_staged id p h h' :
  transition_refunded_beneficiary_to_raw_fallback id p fee_ now_nanos h = (Staged, h') ->
  fallback_pending h'.
Proof.
  unfold transition_refunded_beneficiary_to_raw_fallback.
  destruct (active_payout_job (st h)) as [j|] eqn:Hj; [|done].
  destruct (negb (job_matches id p j)); [done|]. destruct (negb (_ && _)); [done|].
  destruct (refund_amounts _ _ j) as [[refund released]|]; [|done].
  destruct (refund <=? fee_); [done|].
  destruct (fresh_transition_created_at_time _ _ j) as [[t j']|]; [|done].
  destruct (checked_sub refund fee_); [|done]. intros [= <-].
  unfold fallback_pending, current_pending_transfer. cbn. rewrite Hj. cbn. by eexists _, _.
Qed.

Lemma mark_accepted_Some id p block h :
  pending_transfer_matches id p h = true ->
  exists acc h', mark_pending_transfer_accepted id p block h = (Some acc, h') /\
    kind (notification acc) = kind (notification p) /\ phase acc = TransferAccepted /\
    current_pending_transfer h' = Some (id, acc).
Proof.
  intros Hm. unfold mark_pending_transfer_accepted. rewrite Hm.
  eexists _, _. split; [reflexivity|]. split; [done|]. split; [done|].
  apply pending_matches_iff in Hm as (j & Hj & <- & _).
  unfold current_pending_transfer. cbn. by rewrite Hj.
Qed.

(** What a stage promises about the next one. *)
Definition stage_post (w0 : world Heap SuiteCall) (may_fall_back : bool) (id : Z)
    (staged : PendingTransfer) (s : Stage) (w' : world Heap SuiteCall) : Prop :=
  good w0 w' /\
  match s with
  | Return b => b = true -> cleared w'
  | Again => may_fall_back = true /\ fallback_pending (w_state w')
  | Proceed acc =>
      kind (notification acc) = kind (notification staged) /\ phase acc = TransferAccepted /\
      current_pending_transfer (w_state w') = Some (id, acc)
  end.

Lemma awaiting_stage_spec w0 mfb id staged w :
  good w0 w -> current_pending_transfer (w_state w) = Some (id, staged) ->
  phase staged = AwaitingTransfer ->
  wp e (awaiting_stage ledger cmc_id fee_ now_nanos mfb id staged) (stage_post w0 mfb id staged) w.
Proof.
  intros Hw Hcur Hph. unfold awaiting_stage.
  assert (forall w1, good w0 w1 -> pending_transfer_matches id staged (w_state w1) = true ->
    wp e (b ← reserve_then_clear_ambiguous_awaiting_transfer id staged; mret (Return b))
      (stage_post w0 mfb id staged) w1) as Hres.
  { intros w1 Hw1 Hm1. wp_step. eapply wp_mono; [by apply wp_reserve_clear|].
    intros b w' Hw'. by wp_step. }
  destruct (created_at_time_is_valid_for_ledger _ _) eqn:Hvalid; cbn [negb];
    [|apply Hres; [done|by apply current_matches]].
  pose proof (good_inv _ _ Hw) as Hinv. unfold job_inv in Hinv.
  pose proof Hcur as (j & Hj & _ & Hp)%current_matches%pending_matches_iff.
  rewrite Hj in Hinv. unfold job_ok in Hinv. rewrite Hp in Hinv.
  destruct Hinv as (_ & _ & _ & _ & Hsub).
  destruct (deposit_account_for_pending cmc_id (notification staged)) as [to_|] eqn:Hto.
  2: { exfalso. unfold deposit_account_for_pending in Hto.
       destruct (kind (notification staged)); try done. destruct (destination_subaccount _); [done|].
       by apply Hsub. }
  wp_step. wp_step. wp_step. unfold transfer_identity_with_one_retry. wp_step. wp_step.
  eapply wp_mono; [eapply transfer_attempts_spec; [done..| |exact Hw|done]|].
  { apply Forall_cons. split; [eauto|]. apply Forall_cons. split; [eauto|constructor]. }
  intros outcome w1 [Hw1 Hm]. destruct outcome as [block| | | |]; [..|by wp_step].
  - wp_step. wp_step. destruct (mark_accepted_Some id staged block (w_state w1)) as
      (acc & h' & E & Hk & Ha & Hc); [by apply Hm|].
    pose proof (step_mark id staged block (w_state w1) ltac:(by eapply good_inv) Hph) as Hi.
    rewrite E in Hi |- *. cbn [fst snd] in *. wp_step. split; [by apply (good_state _ w1)|done].
  - wp_step. 
    assert (wp e (if mfb && bool_decide (kind (notification staged) = Beneficiary)
       then with_state_mut (stage_raw_fallback_after_definite_rejection id staged now_nanos)
       else mret (Ok false))
      (fun r w2 => good w0 w2 /\ (r = Ok true -> mfb = true /\ fallback_pending (w_state w2)) /\
         (r <> Ok true -> pending_transfer_matches id staged (w_state w2) = true)) w1) as Hf.
    { wp_step; [|wp_step; split; [done|split; [done|intros _; by apply Hm]]]. wp_step. apply andb_true_iff in Heqb as [-> _].
      pose proof (step_stage_fallback id staged now_nanos (w_state w1) ltac:(by eapply good_inv)) as Hi.
      destruct (stage_raw_fallback_after_definite_rejection _ _ _ _) as [r h2] eqn:E. cbn in *.
      split; [by apply (good_state _ w1)|]. split.
      - intros ->. split; [done|]. by eapply stage_fallback_true.
      - intros Hne. rewrite (stage_fallback_other _ _ _ _ _ E Hne). by apply Hm. }
    eapply wp_mono; [exact Hf|]. intros r w2 (Hw2 & Hr & Hother). destruct r as [[]|[]].
    + wp_step. split; [done|]. by apply Hr.
    + wp_step. eapply wp_modify_good; [intros; by apply step_clear|exact Hw2|].
      intros Hg. wp_step. split; [done|]. intros _. by apply clear_cleared, Hother.
    + wp_step. unfold latch. eapply wp_modify_good; [intros; by apply step_latch|exact Hw2|].
      intros Hg. wp_step. eapply wp_modify_good; [intros; by apply step_clear|exact Hg|].
      intros Hg'. wp_step. split; [done|]. intros _. apply clear_cleared. cbn [w_state].
      rewrite latch_matches. by apply Hother.
  - apply Hres; [done|by apply Hm].
  - wp_step. wp_step. pose proof (step_unusable id staged (w_state w1) ltac:(by eapply good_inv)) as Hi.
    destruct (record_accepted_transfer_with_unusable_block_index _ _ _) as [broken h2] eqn:Eu.
    cbn in *.
    assert (good w0 (World h2 (w_trace w1))) as Hg by (by apply (good_state _ w1)).
    destruct broken.
    + wp_step. unfold latch. eapply wp_modify_good; [intros; by apply step_latch|exact Hg|].
      intros Hg'. by wp_step.
    + wp_step. split; [done|]. intros _. eapply unusable_cleared; [|exact Eu]. by apply Hm.
Qed.

Lemma current_note_attempted id p h :
  current_pending_transfer (note_attempted_beneficiary id p h) = current_pending_transfer h.
Proof.
  unfold note_attempted_beneficiary, current_pending_transfer, upd_job.
  destruct (negb _); [done|]. destruct (pending_transfer_matches id p h); [|done].
  cbn. destruct (active_payout_job (st h)) as [j|]; cbn; [|done].
  unfold note_witness. by destruct (0 <? _).
Qed.

Lemma current_increment id p h :
  current_pending_transfer (increment_cmc_attempts id p h) = current_pending_transfer h.
Proof.
  unfold increment_cmc_attempts, current_pending_transfer, upd_job.
  destruct (negb _); [done|]. destruct (pending_transfer_matches id p h); [|done].
  cbn. by destruct (active_payout_job (st h)).
Qed.

Lemma wp_notify_once w0 id p Q w :
  good w0 w -> current_pending_transfer (w_state w) = Some (id, p) -> phase p = TransferAccepted ->
  (forall o w', good w0 w' -> Q o w') ->
  wp e (notify_once cmc_id id p) Q w.
Proof.
  intros Hw Hcur Hph HQ. unfold notify_once. wp_step.
  eapply wp_modify_good; [intros; by apply step_note_attempted|exact Hw|]. intros Hw1.
  wp_step. eapply wp_modify_good; [intros; by apply step_increment|exact Hw1|]. intros Hw2.
  wp_step. apply wp_notify_top_up. intros r. wp_step. apply HQ. apply good_call; [|exact Hw2].
  right. eexists _, id, p. cbn [w_state w_trace] in *.
  rewrite current_increment, current_note_attempted. split; [done|]. split; [done|]. by left.
Qed.

(** The stages that follow an accepted transfer. *)
Definition settled_post (w0 : world Heap SuiteCall) (may_fall_back : bool) (s : Stage)
    (w' : world Heap SuiteCall) : Prop :=
  good w0 w' /\
  match s with
  | Return b => b = true -> cleared w'
  | Again => may_fall_back = true /\ fallback_pending (w_state w')
  | Proceed _ => False
  end.

Lemma refund_stage_spec w0 id p w :
  good w0 w -> pending_transfer_matches id p (w_state w) = true ->
  wp e (refund_stage id p fee_ now_nanos) (settled_post w0 true) w.
Proof.
  intros Hw Hm. unfold refund_stage. wp_step. wp_step.
  pose proof (step_refund id p fee_ now_nanos (w_state w) fee_nonneg ltac:(by eapply good_inv)) as Hi.
  destruct (transition_refunded_beneficiary_to_raw_fallback _ _ _ _ _) as [r h] eqn:E.
  cbn [fst snd] in *. assert (good w0 (World h (w_trace w))) as Hg by (by apply (good_state _ w)).
  destruct r.
  - wp_step. split; [done|]. split; [done|]. by eapply refund_staged.
  - pose proof (refund_matches _ _ _ _ _ E ltac:(done) Hm) as Hm'.
    wp_step. eapply wp_modify_good; [intros; by apply step_clear|exact Hg|].
    intros ?. wp_step. split; [done|]. intros _. by apply clear_cleared.
  - pose proof (refund_matches _ _ _ _ _ E ltac:(done) Hm) as Hm'.
    wp_step. unfold latch. eapply wp_modify_good; [intros; by apply step_latch|exact Hg|].
    intros Hg1. wp_step. eapply wp_modify_good; [intros; by apply step_clear|exact Hg1|].
    intros ?. wp_step. split; [done|]. intros _. apply clear_cleared. cbn [w_state].
    by rewrite latch_matches.
Qed.

Lemma wp_complete w0 mfb id p w :
  good w0 w -> pending_transfer_matches id p (w_state w) = true ->
  wp e (modify (record_completed_transfer id p now_secs) ;; mret (Return true))
    (settled_post w0 mfb) w.
Proof.
  intros Hw Hm. wp_step. eapply wp_modify_good; [intros; by apply step_complete|exact Hw|].
  intros ?. wp_step. split; [done|]. intros _. by apply complete_cleared.
Qed.

Lemma notify_stage_spec w0 lease id p w :
  good w0 w -> current_pending_transfer (w_state w) = Some (id, p) -> phase p = TransferAccepted ->
  wp e (notify_stage cmc_id fee_ now_nanos now_secs lease id p) (settled_post w0 true) w.
Proof.
  intros Hw Hcur Hph. unfold notify_stage. wp_step.
  eapply wp_notify_once; [done..|]. intros o1 w1 Hw1. wp_step. unfold still_owned. wp_step.
  destruct (is_current_in _ _ && _) eqn:Hown; cbn [negb]; [|wp_step; by split].
  apply andb_true_iff in Hown as [_ Hm1]. pose proof (proj2 (current_matches _ _ _) Hm1) as Hcur1.
  destruct o1 as [|e1]; [by apply wp_complete|].
  destruct (is_refunded_beneficiary _ _); [by apply refund_stage_spec|]. wp_step.
  eapply wp_notify_once; [done..|]. intros o2 w2 Hw2. wp_step. wp_step.
  destruct (is_current_in lease (st (w_state w2)) && _) eqn:Hown2; cbn [negb]; [|wp_step; by split].
  apply andb_true_iff in Hown2 as [_ Hm2].
  destruct o2 as [|e2]; [by apply wp_complete|].
  destruct (is_refunded_beneficiary _ _); [by apply refund_stage_spec|]. cbv zeta. wp_step.
  eapply wp_modify_good; [intros; by apply step_clear|exact Hw2|].
  intros ?. wp_step. split; [done|]. intros _. by apply clear_cleared.
Qed.

Lemma settle_stage_spec w0 lease id p w :
  good w0 w -> current_pending_transfer (w_state w) = Some (id, p) -> phase p = TransferAccepted ->
  wp e (settle_stage governance now_secs lease id p) (settled_post w0 false) w.
Proof.
  intros Hw Hcur Hph. unfold settle_stage. wp_step.
  assert (wp e (match kind (notification p), neuron_id (notification p) with
    | NeuronStake, Some n => claim_or_refresh governance n ;; still_owned lease id p
    | _, _ => mret true end) (fun b w' => good w0 w' /\
      (b = true -> pending_transfer_matches id p (w_state w') = true)) w) as Hclaim.
  { assert (pending_transfer_matches id p (w_state w) = true) as Hm by by apply current_matches.
    destruct (kind (notification p)); try by wp_step.
    destruct (neuron_id (notification p)) as [n|] eqn:Hn; [|by wp_step].
    wp_step. apply wp_claim_or_refresh. intros r. unfold still_owned. wp_step.
    split; [|by intros [_ ?]%andb_true_iff].
    apply good_call; [|done]. right. eexists _, id, p. split; [done|]. split; [done|]. right.
    by exists n. }
  eapply wp_mono; [exact Hclaim|]. intros owned w1 [Hw1 Hm1].
  destruct owned; cbn [negb]; [apply wp_complete; auto|wp_step; by split].
Qed.

(** Only a first round whose fallback is still available starts over. *)
Lemma drive_loop_spec fuel w0 lease (mfb : bool) w :
  (if mfb then (1 < fuel)%nat else (0 < fuel)%nat /\
     forall id p, current_pending_transfer (w_state w) = Some (id, p) ->
       kind (notification p) = CyclesTopUpRawFallback) ->
  good w0 w ->
  wp e (drive_loop fuel ledger cmc_id governance fee_ now_nanos now_secs lease mfb)
    (fun b w' => good w0 w' /\ (b = true -> cleared w')) w.
Proof.
  revert mfb w. induction fuel as [|fuel IH]; intros mfb w Hfuel Hw; [destruct mfb; lia|].
  cbn [drive_loop]. wp_step. wp_step.
  destruct (current_pending_transfer (w_state w)) as [[id p]|] eqn:Hcur; [|by wp_step].
  wp_step. eapply (wp_mono _ _ (fun s w1 => good w0 w1 /\ match s with
      | Return b => b = true -> cleared w1
      | Again => mfb = true /\ fallback_pending (w_state w1)
      | Proceed acc => kind (notification acc) = kind (notification p) /\
          phase acc = TransferAccepted /\ current_pending_transfer (w_state w1) = Some (id, acc)
      end)).
  { destruct (phase p) eqn:Hph; [|by wp_step].
    by apply (awaiting_stage_spec w0 mfb id p w Hw). }
  intros s w1 [Hw1 Hs]. wp_step.
  eapply (wp_mono _ _ (fun s w2 => good w0 w2 /\ match s with
      | Return b => b = true -> cleared w2 | Proceed _ => False
      | Again => mfb = true /\ fallback_pending (w_state w2) end)).
  { destruct s as [b| |acc]; [by wp_step..|]. destruct Hs as (Hk & Hph & Hc).
    destruct (requires_cmc_notify _) eqn:Hreq; cbn [negb].
    - eapply wp_mono; [by apply (notify_stage_spec w0)|]. intros s w2 [Hg Hs]. split; [done|].
      destruct s; [done| |done]. destruct mfb; [by destruct Hs|].
      destruct Hfuel as [_ Hkind]. rewrite Hk, (Hkind id p) in Hreq by done. done.
    - eapply wp_mono; [by apply (settle_stage_spec w0)|]. intros s w2 [Hg Hs]. split; [done|].
      destruct s; [done| |done]. by destruct Hs. }
  intros s2 w2 [Hw2 Hs2]. destruct s2 as [b| |acc]; [by wp_step| |done].
  destruct Hs2 as [-> (id' & p' & Hcur' & Hk' & _)]. apply IH; [|done]. split; [lia|].
  intros id2 p2 E2. rewrite Hcur' in E2. by injection E2 as <- <-.
Qed.

Lemma drive_pending_transfer_spec w :
  safe w ->
  wp e (drive_pending_transfer ledger cmc_id governance fee_ now_nanos now_secs)
    (fun b w' => good w w' /\ (b = true -> cleared w')) w.
Proof.
  intros Hc. unfold drive_pending_transfer. wp_step. wp_step.
  apply drive_loop_spec; [lia|]. by apply good_refl.
Qed.

Lemma allocate_frame h t h' :
  allocate_created_at_time_nanos now_nanos h = Some (t, h') ->
  exists j, active_payout_job (st h) = Some j /\
    h' = upd_job (fun j => j <| next_created_at_time_nanos := sat_add t 1 |>) h.
Proof.
  unfold allocate_created_at_time_nanos. destruct (active_payout_job (st h)) as [j|]; [|done].
  intros [= <- <-]. by exists j.
Qed.

Lemma send_and_notify_spec pending w :
  safe w -> active_payout_job (st (w_state w)) <> None ->
  0 <= gross_share_e8s pending ->
  (kind pending = NeuronStake -> destination_subaccount pending <> None) ->
  (forall j i, active_payout_job (st (w_state w)) = Some j -> pn_next_start pending = Some i ->
     next_start j = Some i) ->
  wp e (send_and_notify ledger cmc_id governance pending fee_ now_nanos now_secs)
    (fun b w' => good w w' /\ (b = true -> cleared w')) w.
Proof.
  intros Hc Hjob Hg0 Hsub Hcur. unfold send_and_notify. wp_step. wp_step.
  destruct (is_some_and _ _) eqn:Hfit.
  { wp_step. unfold latch. eapply wp_modify_good; [intros; by apply step_latch|by apply good_refl|].
    intros ?. wp_step. by split. }
  wp_step. wp_step.
  destruct (allocate_created_at_time_nanos now_nanos (w_state w)) as [[t h']|] eqn:Ha.
  2: { exfalso. unfold allocate_created_at_time_nanos in Ha.
       by destruct (active_payout_job (st (w_state w))). }
  apply allocate_frame in Ha as (j & Hj & ->). rewrite Hj in Hfit. cbn in Hfit.
  destruct (checked_add _ _) as [total|] eqn:Ht; [|done]. apply checked_add_Some in Ht as [-> _].
  apply Z.ltb_ge in Hfit.
  assert (job_ok j) as Hok by (destruct Hc as [Hc%I_job _]; unfold job_inv in Hc; by rewrite Hj in Hc).
  wp_step. wp_step. wp_step. wp_step.
  eapply wp_mono; [apply drive_pending_transfer_spec|].
  - split; [|apply Hc]. cbn [w_state]. eapply I_step; [apply Hc|]. split.
    2: { unfold transfer_frame, stage_pending_transfer, upd_job. cbn. rewrite Hj. cbn. by rewrite Hj. }
    unfold job_inv, stage_pending_transfer, upd_job. cbn. rewrite Hj. cbn.
    rewrite Hj. cbn. unfold const. destruct Hok as (Hr & Hu & _).
    split; [done|]. split; [done|]. unfold pending_ok. cbn. unfold const.
    split; [done|]. split; [done|]. split; [done|]. intros i Hi. by apply Hcur.
  - intros b w' [[H1 H2] H3]. split; [by split|done].
Qed.

(** The ledger definitely rejected the transfer that was the [n]-th call. *)
Definition rejected (args : list TransferArg) (n : nat) : Prop :=
  exists arg err, In arg args /\
    env_reply e n (result (result Z TransferError) TransportError) (IcrcTransfer ledger arg) = Ok (Err err) /\ forall d, err <> Duplicate d.

(** The other messages of the canister leave the dispatch record of a pending
    transfer alone while its run keeps the lease. *)
Definition keeps_dispatch (lease : MainLeaseToken) (id : Z) (p : PendingTransfer) : Prop :=
  forall n h, is_current_in lease (st (env_interleave e n h)) = true ->
    pending_transfer_matches id p (env_interleave e n h) = true ->
    dispatch (env_interleave e n h) = dispatch h.

Lemma may_have_recorded id p b h :
  dispatch h = Some (MkDispatch id p b) -> pending_transfer_may_have_dispatched id p h = b.
Proof.
  intros E. unfold pending_transfer_may_have_dispatched. rewrite E. cbn.
  by rewrite Z.eqb_refl, bool_decide_true.
Qed.

Lemma wp_transfer_once arg (Q : _ -> world Heap SuiteCall -> Prop) w :
  (forall o, (forall b, o = AttemptDefiniteNoDebit b -> rejected [arg] (length (w_trace w))) ->
     Q o (after_call e (IcrcTransfer ledger arg) w)) ->
  wp e (transfer_once ledger arg) Q w.
Proof.
  intros HQ. unfold transfer_once, transfer. wp_step. wp_step. wp_step. wp_step. wp_step.
  unfold after_call in HQ. subst. apply HQ. intros b Hb. exists arg.
  destruct (env_reply e _ _ _) as [[block|err]|t] eqn:E; cbn in Hb.
  - unfold classify_block in Hb. by destruct (block <=? u64_max).
  - exists err. split; [by left|]. split; [done|]. intros d ->. cbn in Hb.
    unfold classify_block in Hb. by destruct (d <=? u64_max).
  - done.
Qed.

Lemma rejected_mono arg rest n : rejected [arg] n -> rejected (arg :: rest) n.
Proof. intros (a & err & [->|[]] & H1 & H2). exists a, err. split; [by left|done]. Qed.
Lemma rejected_cons arg rest n : rejected rest n -> rejected (arg :: rest) n.
Proof. intros (a & err & Hin & Hr). exists a, err. split; [by right|done]. Qed.

Lemma transfer_attempts_no_debit id p lease args w :
  keeps_dispatch lease id p ->
  wp e (transfer_attempts ledger id p lease args) (fun r w' =>
    (length (w_trace w) <= length (w_trace w'))%nat /\
    (r = IdentityDefiniteNoDebit ->
       pending_transfer_may_have_dispatched id p (w_state w) = false /\
       pending_transfer_may_have_dispatched id p (w_state w') = false /\
       pending_transfer_matches id p (w_state w') = true /\
       forall n, (length (w_trace w) <= n < length (w_trace w'))%nat -> rejected args n)) w.
Proof.
  intros Hk. revert w. induction args as [|arg rest IH]; intros w;
    [cbn [transfer_attempts]; by wp_step|].
  cbn [transfer_attempts]. wp_step. wp_step. wp_step. wp_step.
  set (prior := pending_transfer_may_have_dispatched id p (w_state w)).
  destruct (set_dispatch_started id p lease true (w_state w)) as [started h1] eqn:Es.
  cbn [fst snd]. destruct started; cbn [negb]; [|wp_step; by split].
  apply set_started_true in Es as (_ & Hd & _).
  wp_step. apply wp_transfer_once. intros o Ho. wp_step. wp_step.
  set (w1 := after_call e _ _). cbn [w_trace w_state] in *.
  assert (length (w_trace w1) = S (length (w_trace w))) as Hlen by done.
  destruct (is_current_in lease (st (w_state w1)) && _) eqn:Hown; cbn [negb];
    [|wp_step; split; [lia|done]].
  apply andb_true_iff in Hown as [Hcur Hm].
  assert (pending_transfer_may_have_dispatched id p (w_state w1) = true) as Hmay.
  { apply may_have_recorded. rewrite <- Hd. apply (Hk _ _ Hcur Hm). }
  assert (forall w2, pending_transfer_may_have_dispatched id p (w_state w2) = true ->
    length (w_trace w2) = S (length (w_trace w)) ->
    wp e (transfer_attempts ledger id p lease rest) (fun r w' =>
      (length (w_trace w) <= length (w_trace w'))%nat /\ r <> IdentityDefiniteNoDebit) w2) as Hlater.
  { intros w2 Hmay2 Hlen2. eapply wp_mono; [apply IH|]. intros r w' [Hl Hr]. split; [lia|].
    intros ->. by destruct (Hr eq_refl) as [Hr' _]; rewrite Hmay2 in Hr'. }
  destruct o as [block|retryable| |]; [wp_step; split; [lia|done]| | |wp_step; split; [lia|done]].
  2: { eapply wp_mono; [by apply Hlater|]. intros r w' [Hl Hr]. by split. }
  specialize (Ho _ eq_refl). wp_step. destruct prior eqn:Hprior.
  - wp_step. cbn [negb]. wp_step; [wp_step; split; [lia|done]|].
    eapply wp_mono; [by apply Hlater|]. intros r w' [Hl Hr]. by split.
  - wp_step. destruct (set_dispatch_started id p lease false (w_state w1)) as [b h2] eqn:E2.
    cbn [fst snd]. destruct b; cbn [negb]; [|wp_step; cbn [w_trace]; split; [lia|done]].
    apply set_started_true in E2 as (Hc2%current_matches & Hd2 & _).
    pose proof (may_have_recorded _ _ _ _ Hd2) as Hmay2.
    assert (forall n, (length (w_trace w) <= n < S (length (w_trace w)))%nat ->
      rejected (arg :: rest) n) as Hfirst.
    { intros n Hn. replace n with (length (w_trace w)) by lia. by apply rejected_mono. }
    wp_step.
    + wp_step. cbn [w_state w_trace]. split; [lia|]. intros _.
      split; [done|]. split; [done|]. split; [done|]. intros n Hn. apply Hfirst. lia.
    + eapply wp_mono; [apply IH|]. cbn [w_state w_trace]. intros r w' [Hl Hr]. split; [lia|].
      intros E. specialize (Hr E) as (_ & H1 & H2 & H3).
      split; [done|]. split; [done|]. split; [done|].
      intros n Hn. destruct (decide (n = length (w_trace w))) as [->|].
      * apply Hfirst. lia.
      * apply rejected_cons, H3. lia.
Qed.

End spec.

Section theorems.
Context `{A : AccountSpec} `{H : HashSpec} `{T : TextSpec}.

(** C4: Driving the staged transfer returns without trap under every reply
    and every interleaving that keeps the accounting invariant; every transfer
    it dispatches is the staged identity, whose dispatch record is committed
    with the call as possibly debited and whose creation time the ledger still
    accepts; notifications follow accepted transfers only; and the gross
    outflow of the job stays within its pot at every commit point.  When it
    returns [true] nothing is left pending. *)
Theorem drive_pending_transfer_safe (e : env Heap SuiteCall) ledger cmc_id governance
    fee_ now_nanos now_secs w
    (Hfee : 0 <= fee_) (Hrely : forall n h, job_inv h -> job_inv (env_interleave e n h))
    (Hw : committed job_inv w) :
  exists b w',
    drive_pending_transfer ledger cmc_id governance fee_ now_nanos now_secs e w = (Returned b, w') /\
    committed job_inv w' /\
    traced (transfer_event ledger cmc_id governance fee_ now_nanos) (w_trace w) w' /\
    (b = true -> current_pending_transfer (w_state w') = None).
Proof.
  by apply (wp_returns e _ (fun b w' =>
      committed job_inv w' /\
      traced (transfer_event ledger cmc_id governance fee_ now_nanos) (w_trace w) w' /\
      (b = true -> current_pending_transfer (w_state w') = None))),
    (wp_mono _ _ _ _ _ (drive_pending_transfer_spec e ledger cmc_id governance fee_ now_nanos
       now_secs Hfee job_inv (fun h Hh => Hh) (fun h h' _ Hs => proj1 Hs) Hrely job_inv (fun h Hh => Hh) w Hw)); intros b w' [[? ?] ?].
Qed.

(** Paying one share never overdraws the pot: with an active job whose
    accounting is in order, [send_and_notify] returns, keeps the invariant at
    every commit point, dispatches staged identities only, and leaves nothing
    pending when it returns [true]. *)
Theorem send_and_notify_safe (e : env Heap SuiteCall) ledger cmc_id governance pending
    fee_ now_nanos now_secs w
    (Hfee : 0 <= fee_) (Hrely : forall n h, job_inv h -> job_inv (env_interleave e n h))
    (Hw : committed job_inv w) (Hjob : active_payout_job (st (w_state w)) <> None)
    (Hshare : 0 <= gross_share_e8s pending)
    (Hsub : kind pending = NeuronStake -> destination_subaccount pending <> None)
    (Hcur : forall j i, active_payout_job (st (w_state w)) = Some j ->
       pn_next_start pending = Some i -> next_start j = Some i) :
  exists b w',
    send_and_notify ledger cmc_id governance pending fee_ now_nanos now_secs e w = (Returned b, w') /\
    committed job_inv w' /\
    traced (transfer_event ledger cmc_id governance fee_ now_nanos) (w_trace w) w' /\
    (b = true -> current_pending_transfer (w_state w') = None).
Proof.
  by apply (wp_returns e _ (fun b w' =>
      committed job_inv w' /\
      traced (transfer_event ledger cmc_id governance fee_ now_nanos) (w_trace w) w' /\
      (b = true -> current_pending_transfer (w_state w') = None))),
    (wp_mono _ _ _ _ _ (send_and_notify_spec e ledger cmc_id governance fee_ now_nanos
       now_secs Hfee job_inv (fun h Hh => Hh) (fun h h' _ Hs => proj1 Hs) Hrely job_inv (fun h Hh => Hh) pending w Hw Hjob Hshare Hsub Hcur)); intros b w' [[? ?] ?].
Qed.

(** C5: A transfer identity is given up as not debited only when no earlier
    attempt of it may have debited and the ledger definitely rejected every
    attempt of this run; the staged transfer and its cleared dispatch record
    are then still in place.  Hence the raw fallback that may follow never
    pays a share twice. *)
Theorem no_debit_is_definite (e : env Heap SuiteCall) ledger id p arg1 arg2 w w'
    (Hrely : keeps_dispatch e (main_lock_state_ts (st (w_state w))) id p)
    (Hrun : transfer_identity_with_one_retry ledger id p arg1 arg2 e w
            = (Returned IdentityDefiniteNoDebit, w')) :
  pending_transfer_may_have_dispatched id p (w_state w) = false /\
  pending_transfer_may_have_dispatched id p (w_state w') = false /\
  pending_transfer_matches id p (w_state w') = true /\
  forall n, (length (w_trace w) <= n < length (w_trace w'))%nat ->
    rejected e ledger [arg1; arg2] n.
Proof.
  eapply wp_run in Hrun as Hr; [|unfold transfer_identity_with_one_retry; do 2 wp_step;
    by apply transfer_attempts_no_debit].
  by apply Hr.
Qed.

(** The accepted path, without interleaving. *)
Lemma wp_attempts_accepted (e : env Heap SuiteCall) ledger id p arg block rest Q w :
  pending_transfer_matches id p (w_state w) = true ->
  (forall n h, env_interleave e n h = h) ->
  (forall n arg,
     env_reply e n (result (result Z TransferError) TransportError) (IcrcTransfer ledger arg) = Ok (Ok block) \/
     env_reply e n (result (result Z TransferError) TransportError) (IcrcTransfer ledger arg) = Ok (Err (Duplicate block))) ->
  block <= u64_max ->
  (let h := set_pending_transfer_dispatch id p true (w_state w) in
   Q (IdentityAccepted block) (World h (Dispatch (IcrcTransfer ledger arg) h :: w_trace w))) ->
  wp e (transfer_attempts ledger id p (capture (w_state w)) (arg :: rest)) Q w.
Proof.
  intros Hm Hq Hl Hb HQ. cbn [transfer_attempts]. do 4 wp_step.
  assert (is_current_in (capture (w_state w)) (st (w_state w)) = true) as Hlease
    by (by apply bool_decide_eq_true).
  assert (set_dispatch_started id p (capture (w_state w)) true (w_state w)
    = (true, set_pending_transfer_dispatch id p true (w_state w))) as ->
    by (unfold set_dispatch_started; by rewrite Hlease, Hm).
  cbn [fst snd negb]. wp_step. unfold transfer_once, transfer. do 5 wp_step. subst. cbn [w_state w_trace]. rewrite Hq.
  assert (classify_transfer match env_reply e (length (w_trace w))
     (result (result Z TransferError) TransportError) (IcrcTransfer ledger arg) with
     | Ok res => Ok res | Err t => Err (CallFailed (transport_text t)) end = AttemptAccepted block) as ->.
  { destruct (Hl (length (w_trace w)) arg) as [-> | ->]; cbn; unfold classify_block;
      by rewrite (proj2 (Z.leb_le _ _)). }
  do 2 wp_step. cbn [w_state]. 
  assert (is_current_in (capture (w_state w)) (st (set_pending_transfer_dispatch id p true (w_state w)))
    && pending_transfer_matches id p (set_pending_transfer_dispatch id p true (w_state w)) = true) as ->
    by (by apply andb_true_iff).
  cbn [negb]. wp_step. exact HQ.
Qed.

Lemma attempted_job id p h j :
  active_payout_job (st h) = Some j -> pending_transfer_matches id p h = true ->
  requires_cmc_notify (kind (notification p)) = true ->
  exists bs n, active_payout_job (st (increment_cmc_attempts id p (note_attempted_beneficiary id p h)))
    = Some (j <| cmc_attempted_beneficiaries := bs |> <| cmc_attempt_count := n |>).
Proof.
  intros Hj Hm Hr. unfold increment_cmc_attempts.
  assert (pending_transfer_matches id p (note_attempted_beneficiary id p h) = true) as ->
    by (apply current_matches; rewrite current_note_attempted; by apply current_matches).
  rewrite Hr. unfold note_attempted_beneficiary. rewrite Hr, Hm. cbn. rewrite Hj. cbn.
  unfold note_witness. destruct (0 <? default 0 (cmc_success_count j)); by eexists _, _.
Qed.

Lemma wp_notify_success (e : env Heap SuiteCall) cmc_id fee_ now_nanos now_secs lease id p cycles
    Q w :
  is_current_in lease (st (w_state w)) = true ->
  pending_transfer_matches id p (w_state w) = true ->
  (forall n h, env_interleave e n h = h) -> cycles <= u128_max ->
  (forall n, env_reply e n (result (result Z NotifyError) TransportError)
     (NotifyTopUp cmc_id (beneficiary (notification p)) (block_index (notification p)))
     = Ok (Ok cycles)) ->
  (let h := increment_cmc_attempts id p (note_attempted_beneficiary id p (w_state w)) in
   Q (Return true) (World (record_completed_transfer id p now_secs h)
     (Dispatch (NotifyTopUp cmc_id (beneficiary (notification p)) (block_index (notification p))) h
      :: w_trace w))) ->
  wp e (notify_stage cmc_id fee_ now_nanos now_secs lease id p) Q w.
Proof.
  intros Hlease Hm Hq Hc Hr HQ. unfold notify_stage, notify_once, notify_top_up, still_owned. wp_step.
  do 7 wp_step. subst. cbn [w_state w_trace]. rewrite Hr, Hq.
  set (h := increment_cmc_attempts id p (note_attempted_beneficiary id p (w_state w))) in *.
  cbn [classify_notify_top_up_result]. unfold nat_to_u128 at 1. rewrite (proj2 (Z.leb_le _ _)) by done.
  do 4 wp_step. cbn [w_state].
  assert (is_current_in lease (st h) && pending_transfer_matches id p h = true) as ->.
  { apply andb_true_iff. split.
    - rewrite <- Hlease. unfold is_current_in, h, increment_cmc_attempts, note_attempted_beneficiary.
      repeat case_match; done.
    - apply current_matches. unfold h. rewrite current_increment, current_note_attempted.
      by apply current_matches. }
  cbn [negb]. do 3 wp_step. exact HQ.
Qed.

(** When the ledger accepts the staged top-up (or reports the block of
    its duplicate) and the minting canister confirms the notification, the
    share is counted exactly once: one transfer and one notification for the
    reported block are dispatched, the gross outflow grows by the gross share,
    the topped-up count and sum by one and by the amount, and nothing is left
    pending. *)
Theorem top_up_success (e : env Heap SuiteCall) ledger cmc_id governance fee_ now_nanos now_secs
    w j p block cycles
    (Hj : active_payout_job (st (w_state w)) = Some j) (Hp : pending_transfer j = Some p)
    (Hk : kind (notification p) = Beneficiary) (Hph : phase p = AwaitingTransfer)
    (Hvalid : created_at_time_is_valid_for_ledger (created_at_time_nanos p) now_nanos = true)
    (Hblock : block <= u64_max)
    (Hquiet : forall n h, env_interleave e n h = h)
    (Hledger : forall n arg,
       env_reply e n (result (result Z TransferError) TransportError) (IcrcTransfer ledger arg) = Ok (Ok block) \/
       env_reply e n (result (result Z TransferError) TransportError) (IcrcTransfer ledger arg) = Ok (Err (Duplicate block)))
    (Hcycles : 0 <= cycles <= u128_max)
    (Hcmc : forall n, env_reply e n (result (result Z NotifyError) TransportError)
       (NotifyTopUp cmc_id (beneficiary (notification p)) block) = Ok (Ok cycles)) :
  exists w' j' arg h1 h2,
    drive_pending_transfer ledger cmc_id governance fee_ now_nanos now_secs e w
      = (Returned true, w') /\
    w_trace w' = Dispatch (NotifyTopUp cmc_id (beneficiary (notification p)) block) h2
                 :: Dispatch (IcrcTransfer ledger arg) h1 :: w_trace w /\
    to arg = cmc_deposit_account cmc_id (beneficiary (notification p)) /\
    amount arg = amount_e8s (notification p) /\ fee arg = Some fee_ /\
    active_payout_job (st (w_state w')) = Some j' /\ pending_transfer j' = None /\
    gross_outflow_e8s j' = sat_add (gross_outflow_e8s j) (gross_share_e8s (notification p)) /\
    topped_up_count j' = sat_add (topped_up_count j) 1 /\
    topped_up_sum_e8s j' = sat_add (topped_up_sum_e8s j) (amount_e8s (notification p)) /\
    cmc_success_count j' = Some (sat_add (default 0 (cmc_success_count j)) 1) /\
    failed_topups j' = failed_topups j /\ ambiguous_topups j' = ambiguous_topups j /\
    last_successful_transfer_ts (st (w_state w')) = Some now_secs /\
    dispatch (w_state w') = None.
Proof.
  enough (wp e (drive_pending_transfer ledger cmc_id governance fee_ now_nanos now_secs)
    (fun b w' => b = true /\ exists j' arg h1 h2,
      w_trace w' = Dispatch (NotifyTopUp cmc_id (beneficiary (notification p)) block) h2
                 :: Dispatch (IcrcTransfer ledger arg) h1 :: w_trace w /\
    to arg = cmc_deposit_account cmc_id (beneficiary (notification p)) /\
    amount arg = amount_e8s (notification p) /\ fee arg = Some fee_ /\
    active_payout_job (st (w_state w')) = Some j' /\ pending_transfer j' = None /\
    gross_outflow_e8s j' = sat_add (gross_outflow_e8s j) (gross_share_e8s (notification p)) /\
    topped_up_count j' = sat_add (topped_up_count j) 1 /\
    topped_up_sum_e8s j' = sat_add (topped_up_sum_e8s j) (amount_e8s (notification p)) /\
    cmc_success_count j' = Some (sat_add (default 0 (cmc_success_count j)) 1) /\
    failed_topups j' = failed_topups j /\ ambiguous_topups j' = ambiguous_topups j /\
    last_successful_transfer_ts (st (w_state w')) = Some now_secs /\
    dispatch (w_state w') = None) w) as Hwp.
  { apply wp_returns in Hwp as (b & w' & E & -> & j' & arg & h1 & h2 & Hrest).
    by exists w', j', arg, h1, h2. }
  assert (forall h j, active_payout_job (st h) = Some j -> pending_transfer j = Some p ->
    pending_transfer_matches (job_id j) p h = true) as Hmatch.
  { intros h j0 E1 E2. apply pending_matches_iff. by exists j0. }
  unfold drive_pending_transfer. wp_step. wp_step. cbn [drive_loop]. wp_step. wp_step.
  rewrite (proj2 (current_matches _ (job_id j) p)) by (by apply Hmatch).
  rewrite Hph. wp_step. unfold awaiting_stage at 1. rewrite Hvalid. cbn [negb].
  unfold deposit_account_for_pending at 1. rewrite Hk.
  wp_step. wp_step. wp_step. unfold transfer_identity_with_one_retry at 1. wp_step. wp_step.
  apply (wp_attempts_accepted e _ _ _ _ block); [by apply Hmatch|done..|].
  cbv zeta. do 2 wp_step. cbn [w_state].
  set (h1 := set_pending_transfer_dispatch _ _ _ _).
  destruct (mark_pending_transfer_accepted (job_id j) p block h1) as [r h2] eqn:E.
  unfold mark_pending_transfer_accepted in E. rewrite (Hmatch _ j) in E by done.
  set (acc := p <| notification ::= _ |> <| phase := _ |>) in E.
  assert (kind (notification acc) = Beneficiary) as Hacc by exact Hk.
  injection E as <- Eh2. cbn [fst snd]. wp_step. wp_step. rewrite Hacc. cbn [requires_cmc_notify negb].
  assert (active_payout_job (st h2) = Some (record_ledger_accepted_transfer (notification acc)
    (j <| pending_transfer := Some acc |>))) as Hj2 by (rewrite <- Eh2; cbn; by rewrite Hj).
  assert (pending_transfer_matches (job_id j) acc h2 = true) as Hm2
    by (apply pending_matches_iff; eexists; split; [exact Hj2|done]).
  apply (wp_notify_success e cmc_id fee_ now_nanos now_secs _ _ _ cycles);
    [rewrite <- Eh2; by apply bool_decide_eq_true|exact Hm2|done|apply Hcycles|exact Hcmc|].
  cbv beta iota zeta. wp_step. split; [done|]. cbn [w_state w_trace].
  set (h3 := increment_cmc_attempts _ _ _).
  destruct (attempted_job (job_id j) acc h2 _ Hj2 Hm2) as (bs & n & Hj3); [by rewrite Hacc|].
  assert (pending_transfer_matches (job_id j) acc h3 = true) as Hm3.
  { apply current_matches. unfold h3. rewrite current_increment, current_note_attempted.
    by apply current_matches. }
  unfold record_completed_transfer. rewrite Hm3, Hacc. cbn [requires_cmc_notify].
  eexists _, _, _, _. split; [reflexivity|].
  split; [done|]. split; [done|]. split; [done|]. cbn.
  fold h3 in Hj3. rewrite Hj3. cbn [option_map]. split; [reflexivity|].
  unfold complete_job, apply_notified_transfer, record_ledger_accepted_transfer. cbn. rewrite Hk. done.
Qed.

End theorems.

(** ** Witnesses *)

Section witnesses.
Import Concrete ConcreteTexts ConcreteHash ConcreteFaucet.
Let env0 : env (Heap (P:=concrete_principal)) SuiteCall := quiet_env 5 1000000 10000.
Let world0 : world (Heap (P:=concrete_principal)) SuiteCall := World busy [].

Lemma busy_inv : committed (job_inv (P:=concrete_principal)) world0.
Proof.
  split; [|constructor]. unfold job_inv, job_ok, pending_ok. cbn.
  split; [lia|]. split; [lia|]. split; [lia|]. split; [lia|]. split; [done|done].
Qed.

Lemma drive_pending_transfer_safe_witness : exists b w',
  drive_pending_transfer (principal 5) (principal 8) (principal 3) 10000 2000 0 env0 world0
    = (Returned b, w').
Proof.
  destruct (drive_pending_transfer_safe env0 (principal 5) (principal 8) (principal 3) 10000 2000 0
    world0) as (b & w' & E & _); [lia|intros n h Hh; exact Hh|exact busy_inv|].
  by exists b, w'.
Defined.

Lemma send_and_notify_safe_witness : exists b w',
  send_and_notify (principal 5) (principal 8) (principal 3) top_up 10000 2000 0 env0 world0
    = (Returned b, w').
Proof.
  destruct (send_and_notify_safe env0 (principal 5) (principal 8) (principal 3) top_up 10000 2000 0
    world0) as (b & w' & E & _); [lia|intros n h Hh; exact Hh|exact busy_inv|done|cbn; lia|done|done|].
  by exists b, w'.
Defined.

(** A ledger that rejects every transfer. *)
Let env_reject : env (Heap (P:=concrete_principal)) SuiteCall := {|
  env_reply := fun _ X c =>
    match c in SuiteCall X return X -> X with
    | IcrcTransfer _ _ => fun _ => Ok (Err (InsufficientFunds 0))
    | _ => fun r => r
    end (reply_ok 1000000 10000 c);
  env_interleave := fun _ s => s;
  env_clock := fun _ => 5;
|}.
Let arg0 : TransferArg := transfer_arg (account 33) 490000 10000 1000 [] busy.

Lemma no_debit_is_definite_witness : exists w',
  transfer_identity_with_one_retry (principal 5) 1 staged arg0 arg0 env_reject world0
    = (Returned IdentityDefiniteNoDebit, w') /\
  pending_transfer_may_have_dispatched 1 staged (w_state w') = false.
Proof.
  eexists. split; [vm_compute; reflexivity|].
  refine (proj1 (proj2 (no_debit_is_definite env_reject (principal 5) 1 staged arg0 arg0 world0 _
    _ _))); [intros n h _ _; reflexivity|vm_compute; reflexivity].
Defined.

Lemma top_up_success_witness : exists w' j',
  drive_pending_transfer (principal 5) (principal 8) (principal 3) 10000 2000 44 env0 world0
    = (Returned true, w') /\
  active_payout_job (st (w_state w')) = Some j' /\ topped_up_count j' = 1.
Proof.
  destruct (top_up_success env0 (principal 5) (principal 8) (principal 3) 10000 2000 44
    world0 job staged 7 1000) as (w' & j' & _ & _ & _ & E & _ & _ & _ & _ & Hj & _ & _ & Hc & _);
    [reflexivity|reflexivity|reflexivity|reflexivity|reflexivity|lia|reflexivity| |lia|reflexivity|].
  { intros n a. left. reflexivity. }
  exists w', j'. split; [exact E|]. split; [exact Hj|exact Hc].
Defined.

End witnesses.
