(* ===== verification/FaucetSkip.v ===== *)
(** * Faucet: the skip-range cache and the scan cursor

    [canisters/faucet/src/state.rs] (the stable map of skip ranges) and
    [scheduler/scan.rs].  The map is the list of its entries in ascending key
    order; an entry [(low, high)] says that the inclusive interval of block
    ids holds no eligible commitment. *)

From Stdlib Require Import Sorted.
From S2P Require Import Prelude Async Ic Clients FaucetState FaucetTransfer.

(** ** The ordered map *)

Abbreviation SkipRange := (Z * Z)%type.

Inductive SkipRangeInsertError := InvalidRange.

(** [StableBTreeMap::insert] and [StableBTreeMap::remove]. *)
Fixpoint map_insert (low high : Z) (m : list SkipRange) : list SkipRange :=
  match m with
  | [] => [(low, high)]
  | (l, h) :: m' =>
      if low <? l then (low, high) :: (l, h) :: m'
      else if low =? l then (low, high) :: m'
      else (l, h) :: map_insert low high m'
  end.
Definition map_remove (key : Z) (m : list SkipRange) : list SkipRange :=
  filter (fun r : SkipRange => r.1 <> key) m.

(** [map.range(..=k).next_back()] and [map.range((Excluded(k), Unbounded))]. *)
Definition range_last_upto (k : Z) (m : list SkipRange) : option SkipRange :=
  last (filter (fun r : SkipRange => r.1 <= k) m).
Definition range_after (k : Z) (m : list SkipRange) : list SkipRange :=
  filter (fun r : SkipRange => k < r.1) m.

Definition skip_range_containing (id : Z) (m : list SkipRange)
    : result (option SkipRange) SkipRangeInsertError :=
  match range_last_upto id m with
  | None => Ok None
  | Some (low, high) =>
      if high <? low then Err InvalidRange
      else Ok (then_some (id <=? high) (low, high))
  end.

(** The successors that the new interval touches: the extended high end and
    the keys to remove, or [None] when a third entry would be absorbed. *)
Fixpoint absorb (successors : list SkipRange) (end_ : Z) (removed : list Z)
    : result (option (Z * list Z)) SkipRangeInsertError :=
  match successors with
  | [] => Ok (Some (end_, removed))
  | (low, high) :: rest =>
      if high <? low then Err InvalidRange
      else if sat_add end_ 1 <? low then Ok (Some (end_, removed))
      else if Nat.eqb (length removed) 2 then Ok None
      else absorb rest (Z.max end_ high) (removed ++ [low])
  end.

Definition finish_insert (start end_ : Z) (removed : list Z) (m : list SkipRange)
    : result (list SkipRange) SkipRangeInsertError :=
  match absorb (take 3 (range_after start m)) end_ removed with
  | Err e => Err e
  | Ok None => Ok m
  | Ok (Some (end_', removed')) =>
      Ok (map_insert start end_' (foldr map_remove m removed'))
  end.

Definition insert_skip_range (start end_ : Z) (m : list SkipRange)
    : result (list SkipRange) SkipRangeInsertError :=
  if end_ <? start then Err InvalidRange
  else
    match range_last_upto start m with
    | None => finish_insert start end_ [] m
    | Some (low, high) =>
        if high <? low then Err InvalidRange
        else if end_ <=? high then Ok m
        else if start <=? sat_add high 1 then finish_insert low (Z.max end_ high) [low] m
        else finish_insert start end_ [] m
    end.

(** ** Learning barren spans *)

Definition MIN_SKIP_RANGE_TX_COUNT : Z := 10000.

Record LocalSkipCandidate := MkCandidate {
  start_tx_id : option Z;
  end_tx_id : option Z;
  tx_count : Z;
}.
Definition LocalSkipCandidate_default : LocalSkipCandidate := MkCandidate None None 0.

Definition note_skippable (id : Z) (c : LocalSkipCandidate) : LocalSkipCandidate :=
  if tx_count c =? 0 then MkCandidate (Some id) (Some id) 1
  else MkCandidate (start_tx_id c) (Some id) (sat_add (tx_count c) 1).

(** The learned range, if the span is long enough; the outer [None] is an
    [expect] on a missing end point.  The candidate is reset in every case. *)
Definition finish_span (c : LocalSkipCandidate) : option (option SkipRange) :=
  if MIN_SKIP_RANGE_TX_COUNT <=? tx_count c then
    low ← end_tx_id c;
    high ← start_tx_id c;
    Some (Some (low, high))
  else Some None.

Definition record_completed_skip_range (c : LocalSkipCandidate) (pending : list SkipRange)
    : option (LocalSkipCandidate * list SkipRange) :=
  r ← finish_span c;
  Some (LocalSkipCandidate_default, match r with Some range => pending ++ [range] | None => pending end).

(** The ranges before a failing one stay inserted. *)
Fixpoint persist_new_skip_ranges (pending : list SkipRange) (m : list SkipRange)
    : result unit SkipRangeInsertError * list SkipRange :=
  match pending with
  | [] => (Ok tt, m)
  | (low, high) :: rest =>
      match insert_skip_range low high m with
      | Err e => (Err e, m)
      | Ok m' => persist_new_skip_ranges rest m'
      end
  end.

Section scan.
Context `{A : AccountSpec}.

Definition effective_denom_scan_complete (job : ActivePayoutJob) : bool :=
  default true (effective_denom_scan_complete_flag job).

Definition from_job (job : ActivePayoutJob) : LocalSkipCandidate :=
  MkCandidate (skip_candidate_start_tx_id job) (skip_candidate_end_tx_id job)
    (skip_candidate_tx_count job).

Definition set_candidate (c : LocalSkipCandidate) (job : ActivePayoutJob) : ActivePayoutJob :=
  job <| skip_candidate_start_tx_id := start_tx_id c |>
      <| skip_candidate_end_tx_id := end_tx_id c |>
      <| skip_candidate_tx_count := tx_count c |>.

(** The job after a jump to the low end of the cached range. *)
Definition jump_to (low : Z) (complete : bool) (active : ActivePayoutJob) : ActivePayoutJob :=
  let active := (set_candidate LocalSkipCandidate_default active) <| next_start := Some low |> in
  if complete then
    if effective_denom_scan_complete active then active <| scan_complete := true |>
    else active <| effective_denom_scan_complete_flag := Some true |> <| next_start := None |>
  else active.

Definition same_scan (job active : ActivePayoutJob) : bool :=
  (job_id active =? job_id job)
  && bool_decide (next_start active = next_start job)
  && bool_decide (effective_denom_scan_complete_flag active = effective_denom_scan_complete_flag job)
  && Bool.eqb (scan_complete active) (scan_complete job)
  && is_none (pending_transfer active).

(** [None] is the panic of [finish_span]. *)
Definition skip_cached_history (job : ActivePayoutJob) (lease : MainLeaseToken) (h : Heap)
    : option (result bool SkipRangeInsertError * Heap) :=
  match observed_oldest_tx_id job, next_start job ≫= (fun id => checked_sub id 1) with
  | Some oldest, Some unread =>
      match skip_range_containing unread (skip_ranges h) with
      | Err e => Some (Err e, h)
      | Ok None => Some (Ok false, h)
      | Ok (Some (low, _)) =>
          if low <? oldest then Some (Err InvalidRange, h)
          else
            let complete := low =? oldest in
            match active_payout_job (st h) with
            | Some active =>
                if is_current_in lease (st h) && same_scan job active then
                  learned ← (if effective_denom_scan_complete active then Some None
                             else finish_span (from_job active));
                  match (match learned with
                         | Some (lo, hi) => insert_skip_range lo hi (skip_ranges h)
                         | None => Ok (skip_ranges h)
                         end) with
                  | Err e => Some (Err e, h)
                  | Ok ranges =>
                      Some (Ok true, upd_job (jump_to low complete) (h <| skip_ranges := ranges |>))
                  end
                else Some (Ok false, h)
            | None => Some (Ok false, h)
            end
      end
  | _, _ => Some (Ok false, h)
  end.

Definition flush_scan_progress (under bad : Z) (next : option Z) (c : LocalSkipCandidate)
    (lease : MainLeaseToken) (id : Z) (expected_cursor : option Z) (h : Heap) : Heap :=
  if (under =? 0) && (bad =? 0) && is_none next && (tx_count c =? 0) then h
  else if is_current_in lease (st h)
          && is_some_and (active_payout_job (st h)) (fun j =>
               (job_id j =? id) && bool_decide (next_start j = expected_cursor)) then
    upd_job (fun j =>
      let j := j <| ignored_under_threshold := sat_add (ignored_under_threshold j) under |>
                 <| ignored_bad_memo := sat_add (ignored_bad_memo j) bad |> in
      let j := match next with Some n => j <| next_start := Some n |> | None => j end in
      set_candidate c j) h
  else h.

End scan.

(** ** The invariant of the cache *)

(** [a] ends before [b] starts, with at least one block id between them. *)
Definition gap (a b : SkipRange) : Prop := a.2 + 1 < b.1.
Definition range_ok (r : SkipRange) : Prop := 0 <= r.1 <= r.2 /\ r.2 <= u64_max.
Definition ranges_ok (m : list SkipRange) : Prop := Forall range_ok m /\ StronglySorted gap m.
(** The block ids that the cache excludes. *)
Definition covers (m : list SkipRange) (x : Z) : Prop := Exists (fun r : SkipRange => r.1 <= x <= r.2) m.

Lemma ranges_ok_app a b :
  ranges_ok (a ++ b) <->
  ranges_ok a /\ ranges_ok b /\ forall r s, In r a -> In s b -> gap r s.
Proof.
  unfold ranges_ok. rewrite Forall_app. induction a as [|r a IH]; cbn.
  - split; [|tauto]. intros [[_ H1] H2]. repeat split; auto using SSorted_nil; done.
  - split.
    + intros [[H1 H2] H3]. inversion_clear H3 as [|? ? Hs Hf]. inversion_clear H1 as [|? ? Hr Ha].
      apply Forall_app in Hf as [Hf1 Hf2].
      destruct IH as [IH _]. destruct IH as ([_ Ha'] & Hb & Hg); [done|].
      split; [split; [by constructor|by constructor]|]. split; [done|].
      intros x y [<-|Hx] Hy; [|by apply Hg]. rewrite List.Forall_forall in Hf2. by apply Hf2.
    + intros ([Hra Hsa] & [Hb Hsb] & Hg). inversion_clear Hsa as [|? ? Hs Hf].
      inversion_clear Hra as [|? ? Hr Ha].
      destruct IH as [_ IH]. destruct IH as [_ IH]; [by repeat split; auto|].
      split; [split; [by constructor|done]|]. constructor; [done|]. apply Forall_app. split; [done|].
      apply List.Forall_forall. auto.
Qed.

Lemma ranges_ok_singleton r : ranges_ok [r] <-> range_ok r.
Proof.
  unfold ranges_ok. rewrite Forall_singleton. split; [tauto|]. intros Hr. split; [done|].
  repeat constructor.
Qed.

Lemma ranges_ok_keys m r s : ranges_ok m -> In r m -> In s m -> r.1 <= s.1 -> r = s \/ r.2 + 1 < s.1.
Proof.
  intros Hok [a (b & ->)]%in_split. apply ranges_ok_app in Hok as (Ha & Hb & Hab).
  change (r :: b) with ([r] ++ b) in Hb, Hab.
  apply ranges_ok_app in Hb as (Hr & Hb & Hrb). apply ranges_ok_singleton in Hr.
  rewrite in_app_iff. intros [Hs|[->|Hs]] Hle; [|by left|].
  - exfalso. specialize (Hab s r Hs ltac:(by left)). destruct Ha as [Ha _].
    rewrite List.Forall_forall in Ha. specialize (Ha s Hs). unfold gap, range_ok in *. lia.
  - right. exact (Hrb r s ltac:(by left) Hs).
Qed.

(** An ordered map is its entries up to a key followed by the others. *)
Lemma ranges_split k m :
  ranges_ok m -> m = filter (fun r : SkipRange => r.1 <= k) m ++ range_after k m.
Proof.
  unfold range_after. induction m as [|r m IH]; [done|]. intros Hok.
  change (r :: m) with ([r] ++ m) in Hok. apply ranges_ok_app in Hok as (Hr & Hm & Hg).
  specialize (IH Hm). apply ranges_ok_singleton in Hr. rewrite !filter_cons.
  destruct (decide (r.1 <= k)) as [Hle|Hgt].
  - rewrite decide_False by lia. cbn. by f_equal.
  - rewrite decide_True by lia.
    assert (filter (fun r : SkipRange => r.1 <= k) m = []) as Hnil.
    { destruct (filter (fun r : SkipRange => r.1 <= k) m) as [|s l] eqn:E; [done|]. exfalso.
      assert (s ∈ filter (fun r : SkipRange => r.1 <= k) m) as [Hk Hs]%list_elem_of_filter by (rewrite E; left).
      apply list_elem_of_In in Hs. specialize (Hg r s ltac:(by left) Hs).
      unfold gap, range_ok in *. lia. }
    rewrite Hnil in IH |- *. cbn in *. by f_equal.
Qed.

Lemma range_last_upto_Some k m r :
  ranges_ok m -> range_last_upto k m = Some r ->
  exists a, m = a ++ r :: range_after k m /\ r.1 <= k.
Proof.
  intros Hok Hl. unfold range_last_upto in Hl. apply last_Some in Hl as [a Ha].
  exists a. pose proof (ranges_split k m Hok) as Hs. rewrite Ha, <- app_assoc in Hs.
  split; [exact Hs|].
  assert (r ∈ filter (fun r : SkipRange => r.1 <= k) m) as [Hr _]%list_elem_of_filter; [|done].
  rewrite Ha. set_solver.
Qed.

Lemma range_last_upto_None k m :
  ranges_ok m -> range_last_upto k m = None -> m = range_after k m.
Proof.
  intros Hok Hl. unfold range_last_upto in Hl. apply last_None in Hl.
  pose proof (ranges_split k m Hok) as Hs. by rewrite Hl in Hs.
Qed.

Lemma range_after_gt k m r : In r (range_after k m) -> k < r.1.
Proof. unfold range_after. rewrite <- list_elem_of_In, list_elem_of_filter. tauto. Qed.

Lemma map_insert_between a k v b :
  (forall r, In r a -> r.1 < k) -> (forall r, In r b -> k < r.1) ->
  map_insert k v (a ++ b) = a ++ (k, v) :: b.
Proof.
  induction a as [|[l h] a IH]; intros Ha Hb.
  - destruct b as [|[l h] b]; [done|]. cbn. specialize (Hb (l, h) ltac:(by left)). cbn in Hb.
    by rewrite (proj2 (Z.ltb_lt _ _)).
  - cbn. specialize (Ha (l, h) ltac:(by left)) as Hl. cbn in Hl.
    rewrite (proj2 (Z.ltb_ge _ _)), (proj2 (Z.eqb_neq _ _)) by lia.
    f_equal. apply IH; [|done]. intros r Hr. apply Ha. by right.
Qed.

Lemma map_remove_id k m : (forall r, In r m -> r.1 <> k) -> map_remove k m = m.
Proof.
  unfold map_remove. induction m as [|r m IH]; intros Hm; [done|].
  rewrite filter_cons_True by (apply Hm; by left). f_equal. apply IH. intros s Hs. apply Hm. by right.
Qed.

Lemma remove_touched a touched b :
  ranges_ok (a ++ touched ++ b) -> foldr map_remove (a ++ touched ++ b) (map fst touched) = a ++ b.
Proof.
  revert a. induction touched as [|r t IH]; intros a Hok; [done|].
  cbn in *. replace (a ++ r :: t ++ b) with ((a ++ [r]) ++ t ++ b) in * by by rewrite <- app_assoc.
  rewrite IH by done. apply ranges_ok_app in Hok as (Har & Htb & Hg).
  apply ranges_ok_app in Htb as (_ & Hb & _).
  apply ranges_ok_app in Har as (Ha & Hr & Hga). pose proof (proj1 (ranges_ok_singleton r) Hr) as Hr'.
  unfold map_remove. rewrite !filter_app, filter_cons_False by tauto. cbn [filter list_filter].
  rewrite ?app_nil_r. f_equal; apply map_remove_id.
  - intros s Hs. specialize (Hga s r Hs ltac:(by left)). destruct Ha as [Ha _].
    rewrite List.Forall_forall in Ha. specialize (Ha s Hs). unfold gap, range_ok in *. lia.
  - intros s Hs. specialize (Hg r s ltac:(apply in_app_iff; right; by left)
      ltac:(apply in_app_iff; by right)). unfold gap, range_ok in *. lia.
Qed.

Lemma absorb_spec suf n end_ removed :
  ranges_ok suf -> u64 end_ -> (length removed <= 2)%nat -> (3 <= n + length removed)%nat ->
  match absorb (take n suf) end_ removed with
  | Err _ => False
  | Ok None => True
  | Ok (Some (end', removed')) =>
      exists touched rest, suf = touched ++ rest /\ removed' = removed ++ map fst touched /\
        end_ <= end' <= u64_max /\ (forall r, In r rest -> end' + 1 < r.1) /\
        (forall x, end_ < x <= end' -> covers touched x) /\ (forall r, In r touched -> r.2 <= end')
  end.
Proof.
  revert n end_ removed. induction suf as [|[l h] suf IH]; intros n end_ removed Hok He Hl Hn.
  { rewrite take_nil. cbn. exists [], []. cbn. rewrite app_nil_r.
    split; [done|]. split; [done|]. split; [unfold u64 in He; lia|]. split; [done|].
    split; [lia|done]. }
  destruct n as [|n]; [lia|]. cbn [take firstn absorb].
  change ((l, h) :: suf) with ([(l, h)] ++ suf) in Hok. apply ranges_ok_app in Hok as (Hr & Hsuf & Hg).
  apply ranges_ok_singleton in Hr. unfold range_ok in Hr. cbn in Hr.
  rewrite (proj2 (Z.ltb_ge h l)) by lia.
  destruct (sat_add end_ 1 <? l) eqn:Ht.
  { exists [], ((l, h) :: suf). cbn [map app]. rewrite app_nil_r. zify_bool. unfold sat_add, u64 in *.
    split; [done|]. split; [done|]. split; [lia|]. split; [|split; [lia|done]].
    intros r [<-|Hr']; cbn; [lia|].
    specialize (Hg (l, h) r ltac:(by left) Hr'). unfold gap in Hg. cbn in Hg. lia. }
  destruct (Nat.eqb (length removed) 2) eqn:E2; [done|]. apply Nat.eqb_neq in E2.
  specialize (IH n (Z.max end_ h) (removed ++ [l]) Hsuf). rewrite length_app in IH. cbn [length] in IH.
  specialize (IH ltac:(unfold u64 in *; lia) ltac:(lia) ltac:(lia)).
  destruct (absorb _ _ _) as [[[end' removed']|]|]; [|done|done].
  destruct IH as (t & rest & -> & -> & Hb & Hrest & Hcov & Hin).
  exists ((l, h) :: t), rest. split; [done|]. split; [by rewrite <- app_assoc|].
  split; [lia|]. split; [done|]. split.
  - intros x Hx. destruct (decide (x <= h)) as [Hxh|Hxh].
    + left. cbn. zify_bool. unfold sat_add, u64 in *. lia.
    + right. apply Hcov. lia.
  - intros r [<-|Hr']; [cbn; lia|by apply Hin].
Qed.

Lemma covers_app a b x : covers (a ++ b) x <-> covers a x \/ covers b x.
Proof. apply Exists_app. Qed.
Lemma covers_cons r b x : covers (r :: b) x <-> r.1 <= x <= r.2 \/ covers b x.
Proof. apply Exists_cons. Qed.

(** What an insertion promises about the new map. *)
Definition inserted (start end_ : Z) (m m' : list SkipRange) : Prop :=
  ranges_ok m' /\ (length m' <= S (length m))%nat /\
  (m' = m \/ forall x, covers m' x <-> covers m x \/ start <= x <= end_).

Lemma finish_insert_spec a merged m start end_ :
  ranges_ok m -> m = a ++ option_list merged ++ range_after start m ->
  0 <= start <= end_ -> end_ <= u64_max ->
  (forall r, In r a -> r.2 + 1 < start) ->
  (forall r, merged = Some r -> r.1 = start /\ r.2 <= end_) ->
  exists m', finish_insert start end_ (map fst (option_list merged)) m = Ok m' /\
    inserted start end_ m m'.
Proof.
  intros Hok Hm Hse Hu Ha Hmg. unfold finish_insert.
  assert (Hok' := Hok). rewrite Hm in Hok'.
  apply ranges_ok_app in Hok' as (Hoka & Hokms & Hga).
  apply ranges_ok_app in Hokms as (Hokm & Hoks & Hgm).
  pose proof (absorb_spec (range_after start m) 3 end_ (map fst (option_list merged)) Hoks) as Hab.
  destruct (absorb _ _ _) as [[[end' removed']|]|].
  2: { exists m. split; [done|]. split; [done|]. split; [lia|by left]. }
  2: { exfalso. apply Hab; [unfold u64; lia|destruct merged; cbn; lia..]. }
  destruct Hab as (t & rest & Hsuf & -> & He' & Hrest & Hcov & Hin);
    [unfold u64; lia|destruct merged; cbn; lia..|].
  cbv beta iota. rewrite <- map_app. rewrite Hsuf in Hm, Hga, Hgm, Hoks.
  match goal with |- context [foldr map_remove m ?l] =>
    assert (foldr map_remove m l = a ++ rest) as -> end.
  { rewrite Hm, (app_assoc (option_list merged)). apply remove_touched. rewrite <- app_assoc. rewrite Hm in Hok. exact Hok. }
  assert (forall r, In r a -> range_ok r) as Hra.
  { destruct Hoka as [Hf _]. by rewrite List.Forall_forall in Hf. }
  assert (forall r, In r rest -> start < r.1) as Hrs.
  { intros r Hr. specialize (Hrest r Hr). lia. }
  rewrite map_insert_between; [|intros r Hr; specialize (Ha r Hr); specialize (Hra r Hr);
    unfold range_ok in Hra; lia|done].
  eexists. split; [reflexivity|].
  apply ranges_ok_app in Hoks as (Hokt & Hokr & Hgt).
  split; [|split].
  - apply ranges_ok_app. split; [done|]. split.
    + change ((start, end') :: rest) with ([(start, end')] ++ rest). apply ranges_ok_app.
      split; [apply ranges_ok_singleton; split; cbn; lia|]. split; [done|].
      intros r s [<-|[]] Hs. by apply Hrest.
    + intros r s Hr [<-|Hs]; [by apply Ha|]. apply Hga; [done|].
      apply in_app_iff. right. apply in_app_iff. by right.
  - rewrite Hm, !length_app. cbn. rewrite ?length_app. lia.
  - right. intros x. rewrite Hm, !covers_app, covers_cons. cbn.
    assert (covers (option_list merged) x -> start <= x <= end') as H1.
    { destruct merged as [r|]; cbn; [|intros Hx; inversion Hx].
      intros [Hx|Hx]%covers_cons; [|inversion Hx]. specialize (Hmg r eq_refl). lia. }
    assert (covers t x -> start <= x <= end') as H2.
    { intros (r & Hr & Hx)%Exists_exists. apply list_elem_of_In in Hr. specialize (Hin r Hr).
      assert (start < r.1); [|lia]. apply (range_after_gt start m). rewrite Hsuf.
      apply in_app_iff. by left. }
    specialize (Hcov x). split.
    + intros [Hx|[Hx|Hx]]; [tauto| |tauto].
      destruct (decide (x <= end_)); [right; lia|]. left. right. right. left. apply Hcov. lia.
    + intros [[Hx|[Hx|[Hx|Hx]]]|Hx]; [tauto| | |tauto|right; left; lia].
      * right. left. by apply H1.
      * right. left. by apply H2.
Qed.

Lemma ranges_after_eq a l h k m :
  ranges_ok m -> m = a ++ (l, h) :: range_after k m -> l <= k -> range_after l m = range_after k m.
Proof.
  intros Hok Hm Hle. rewrite Hm at 1. rewrite Hm in Hok. apply ranges_ok_app in Hok as (Ha & _ & Hg).
  unfold range_after at 1. rewrite filter_app, filter_cons_False by (cbn; lia).
  assert (filter (fun r : SkipRange => l < r.1) a = []) as ->.
  { destruct (filter _ a) as [|s t] eqn:E; [done|]. exfalso.
    assert (s ∈ filter (fun r : SkipRange => l < r.1) a) as [Hk Hs]%list_elem_of_filter
      by (rewrite E; left).
    apply list_elem_of_In in Hs. specialize (Hg s (l, h) Hs ltac:(by left)). destruct Ha as [Ha _].
    rewrite List.Forall_forall in Ha. specialize (Ha s Hs). unfold gap, range_ok in *. cbn in *. lia. }
  cbn. unfold range_after. rewrite list_filter_filter. apply list_filter_iff. intros r. lia.
Qed.

(** Inserting an exclusion interval never fails on a well-formed cache
    and keeps it ordered, disjoint and non-adjacent; it adds at most one entry;
    and the cache then excludes either exactly the old block ids and those of
    the interval, or exactly the old ones: no id is ever invented. *)
Lemma insert_skip_range_spec (start end_ : Z) (m : list SkipRange)
    (Hok : ranges_ok m) (Hse : 0 <= start <= end_) (Hu : end_ <= u64_max) :
  exists m', insert_skip_range start end_ m = Ok m' /\ inserted start end_ m m'.
Proof.
  unfold insert_skip_range. rewrite (proj2 (Z.ltb_ge _ _)) by lia.
  assert (forall a r, m = a ++ r :: range_after start m -> forall s, In s a -> s.2 + 1 < r.1) as Hpre.
  { intros a r Hm s Hs. rewrite Hm in Hok. apply ranges_ok_app in Hok as (_ & _ & Hg).
    apply (Hg s r Hs). by left. }
  destruct (range_last_upto start m) as [[l h]|] eqn:Hl.
  2: { apply (finish_insert_spec [] None); [done|by apply range_last_upto_None|lia|lia|done|done]. }
  destruct (range_last_upto_Some start m (l, h) Hok Hl) as (a & Hm & Hle). cbn in Hle.
  assert (range_ok (l, h)) as Hr.
  { destruct Hok as [Hf _]. rewrite List.Forall_forall in Hf. apply Hf. rewrite Hm.
    apply in_app_iff. right. by left. }
  unfold range_ok in Hr. cbn in Hr. rewrite (proj2 (Z.ltb_ge h l)) by lia.
  destruct (end_ <=? h) eqn:Hh.
  { exists m. split; [done|]. split; [done|]. split; [lia|by left]. }
  destruct (start <=? sat_add h 1) eqn:Ht; zify_bool; unfold sat_add in Ht.
  - rewrite Z.max_l by lia.
    assert (range_after l m = range_after start m) as Hra.
    { apply ranges_after_eq with a h; [done|done|lia]. }
    destruct (finish_insert_spec a (Some (l, h)) m l end_) as (m' & E & Hi1 & Hi2 & Hi3);
      [done|by rewrite Hra|lia|lia|by apply (Hpre a (l, h))|intros ? [= <-]; cbn; lia|].
    exists m'. split; [exact E|]. split; [done|]. split; [done|].
    destruct Hi3 as [?|Hc]; [by left|]. right. intros x. rewrite Hc.
    split; [|intros [?|?]; [by left|right; lia]].
    intros [?|Hx]; [by left|]. destruct (decide (start <= x)); [right; lia|]. left.
    rewrite Hm. apply covers_app. right. apply covers_cons. left. cbn. lia.
  - apply (finish_insert_spec (a ++ [(l, h)]) None); [done|by rewrite <- app_assoc|lia|lia| |done].
    intros r [Hr'|[<-|[]]]%in_app_iff; [|cbn; lia].
    specialize (Hpre a (l, h) Hm r Hr'). cbn in Hpre. lia.
Qed.

(** A lookup in a well-formed cache never fails and returns an interval
    exactly when the cache excludes the id; the interval is the one entry that
    holds it. *)
Lemma skip_range_containing_spec (id : Z) (m : list SkipRange) (Hok : ranges_ok m) :
  (covers m id /\ exists r, skip_range_containing id m = Ok (Some r) /\ In r m /\ r.1 <= id <= r.2) \/
  (~ covers m id /\ skip_range_containing id m = Ok None).
Proof.
  unfold skip_range_containing. destruct (range_last_upto id m) as [[l h]|] eqn:Hl.
  - destruct (range_last_upto_Some id m (l, h) Hok Hl) as (a & Hm & Hle). cbn in Hle.
    assert (In (l, h) m) as Hin by (rewrite Hm; apply in_app_iff; right; by left).
    assert (range_ok (l, h)) as Hr.
    { destruct Hok as [Hf _]. rewrite List.Forall_forall in Hf. by apply Hf. }
    unfold range_ok in Hr. cbn in Hr. rewrite (proj2 (Z.ltb_ge h l)) by lia.
    destruct (id <=? h) eqn:Hh; zify_bool.
    + left. split; [|by exists (l, h)]. apply Exists_exists. exists (l, h).
      split; [by apply list_elem_of_In|done].
    + right. split; [|done]. intros (r & Hr1%list_elem_of_In & Hr2)%Exists_exists.
      rewrite Hm in Hr1. apply in_app_iff in Hr1 as [Hr1|[<-|Hr1]]; [|cbn in *; lia|].
      * rewrite Hm in Hok. apply ranges_ok_app in Hok as (_ & _ & Hg).
        specialize (Hg r (l, h) Hr1 ltac:(by left)). unfold gap in Hg. cbn in Hg. lia.
      * apply range_after_gt in Hr1. lia.
  - right. split; [|done]. apply range_last_upto_None in Hl; [|done].
    intros (r & Hr1%list_elem_of_In & Hr2)%Exists_exists. rewrite Hl in Hr1.
    apply range_after_gt in Hr1. lia.
Qed.

Lemma persist_new_skip_ranges_spec (pending m : list SkipRange) :
  ranges_ok m -> Forall range_ok pending ->
  exists m', persist_new_skip_ranges pending m = (Ok tt, m') /\ ranges_ok m' /\
    (forall x, covers m x -> covers m' x) /\
    (forall x, covers m' x -> covers m x \/ covers pending x).
Proof.
  intros Hok Hp. revert m Hok. induction Hp as [|[low high] pending [Hr1 Hr2] _ IH]; intros m Hok.
  { exists m. split; [done|]. split; [done|]. split; [done|]. by left. }
  cbn in Hr1, Hr2. destruct (insert_skip_range_spec low high m Hok Hr1 Hr2) as (m1 & E1 & Hok1 & _ & Hc).
  cbn [persist_new_skip_ranges]. rewrite E1. destruct (IH m1 Hok1) as (m' & E & Hm' & H1 & H2).
  exists m'. split; [done|]. split; [done|].
  assert (forall x, covers m x -> covers m1 x) as Hin by (destruct Hc as [->|Hc]; [done|intros x; rewrite Hc; tauto]).
  split; [auto|]. intros x [Hx|Hx]%H2; [|right; by right].
  destruct Hc as [->|Hc]; [by left|]. apply Hc in Hx as [Hx|Hx]; [by left|]. right. by left.
Qed.

(** Persisting the learned spans into a well-formed cache succeeds and
    leaves it well-formed; every id excluded before stays excluded; and a lookup
    then answers with an interval only for an id that the cache excluded before
    or that a learned span holds: no exclusion is ever invented. *)
Theorem persist_new_skip_ranges_sound (pending m : list SkipRange)
    (Hok : ranges_ok m) (Hp : Forall range_ok pending) :
  exists m', persist_new_skip_ranges pending m = (Ok tt, m') /\ ranges_ok m' /\
    (forall x, covers m x -> covers m' x) /\
    (forall x, exists o, skip_range_containing x m' = Ok o /\
       (o <> None -> covers m x \/ covers pending x)).
Proof.
  destruct (persist_new_skip_ranges_spec pending m Hok Hp) as (m' & E & Hm' & H1 & H2).
  exists m'. split; [done|]. split; [done|]. split; [done|]. intros x.
  destruct (skip_range_containing_spec x m' Hm') as [[Hc (r & -> & _)]|[_ ->]];
    eexists; (split; [reflexivity|]); [intros _; by apply H2|done].
Qed.

Lemma persist_new_skip_ranges_sound_witness : exists m',
  persist_new_skip_ranges [(20, 30); (31, 40)] [(5, 9)] = (Ok tt, m') /\ ranges_ok m'.
Proof.
  destruct (persist_new_skip_ranges_sound [(20, 30); (31, 40)] [(5, 9)]) as (m' & E & Hok & _).
  - split; [|repeat constructor]. apply Forall_singleton. unfold range_ok. cbn. lia.
  - repeat apply Forall_cons_2; [unfold range_ok; cbn; lia..|]. apply Forall_nil_2.
  - exists m'. split; [exact E|exact Hok].
Defined.

Section cursor.
Context `{A : AccountSpec}.

(** A span that has been counted has its end points, in descending order. *)
Definition candidate_ok (c : LocalSkipCandidate) : Prop :=
  0 <= tx_count c /\
  (0 < tx_count c -> exists low high, end_tx_id c = Some low /\ start_tx_id c = Some high /\
                     0 <= low <= high /\ high <= u64_max).

Lemma finish_span_ok c :
  candidate_ok c -> exists r, finish_span c = Some r /\
    forall low high, r = Some (low, high) ->
      MIN_SKIP_RANGE_TX_COUNT <= tx_count c /\ 0 <= low <= high /\ high <= u64_max.
Proof.
  intros [_ Hc]. unfold finish_span. destruct (_ <=? _) eqn:E; [|by exists None].
  zify_bool. destruct Hc as (low & high & -> & -> & H1 & H2); [unfold MIN_SKIP_RANGE_TX_COUNT in E; lia|].
  cbn. eexists. split; [reflexivity|]. intros ? ? [= <- <-]. done.
Qed.

(** The two outcomes of a cached jump. *)
Lemma skip_cached_history_cases (job : ActivePayoutJob) (lease : MainLeaseToken) (h : Heap) :
  ranges_ok (skip_ranges h) ->
  (forall j, active_payout_job (st h) = Some j -> candidate_ok (from_job j)) ->
  (exists r, skip_cached_history job lease h = Some (r, h) /\ r <> Ok true) \/
  exists cursor low high oldest j ranges,
    skip_cached_history job lease h
      = Some (Ok true, upd_job (jump_to low (low =? oldest)) (h <| skip_ranges := ranges |>)) /\
    next_start job = Some cursor /\ observed_oldest_tx_id job = Some oldest /\
    active_payout_job (st h) = Some j /\ is_current_in lease (st h) = true /\ same_scan job j = true /\
    ranges_ok ranges /\ In (low, high) (skip_ranges h) /\ oldest <= low /\ low <= cursor - 1 <= high.
Proof.
  intros Hok Hc. unfold skip_cached_history.
  destruct (observed_oldest_tx_id job) as [oldest|]; [|left; by eexists].
  destruct (next_start job) as [cursor|]; cbn [mbind option_bind]; [|left; by eexists].
  destruct (checked_sub cursor 1) as [unread|] eqn:Hu; [|left; by eexists].
  apply checked_sub_Some in Hu as [-> Hu].
  destruct (skip_range_containing_spec (cursor - 1) (skip_ranges h) Hok) as
    [[Hcov ([low high] & -> & Hin & Hr)]|[_ ->]]; [|left; by eexists]. cbn in Hr.
  destruct (low <? oldest) eqn:Hold; [left; by eexists|]. zify_bool.
  destruct (active_payout_job (st h)) as [j|] eqn:Hj; [|left; by eexists].
  destruct (is_current_in lease (st h) && same_scan job j) eqn:Hs; [|left; by eexists].
  apply andb_true_iff in Hs as [Hlease Hs]. right.
  assert (exists learned, (if effective_denom_scan_complete j then Some None
      else finish_span (from_job j)) = Some learned /\
    exists ranges, match learned with Some (lo, hi) => insert_skip_range lo hi (skip_ranges h)
      | None => Ok (skip_ranges h) end = Ok ranges /\ ranges_ok ranges) as (learned & -> & ranges & Er & Hra).
  { destruct (effective_denom_scan_complete j); [exists None; eauto|].
    destruct (finish_span_ok _ (Hc j eq_refl)) as (r & -> & Hrok). exists r. split; [done|].
    destruct r as [[lo hi]|]; [|eauto]. destruct (Hrok lo hi eq_refl) as (_ & Hlo & Hhi).
    destruct (insert_skip_range_spec lo hi (skip_ranges h) Hok Hlo Hhi) as (m' & ? & ? & _). eauto. }
  cbn [mbind option_bind]. rewrite Er. exists cursor, low, high, oldest, j, ranges.
  repeat split; auto; try lia; apply Hra.
Qed.

(** A cached jump only crosses excluded history.  With a well-formed
    cache and candidate the jump never panics; a jump that happens moves the
    cursor down to the low end of one cached interval, at or above the oldest
    known record, such that the cache excludes every id it skips; it ends the
    current pass exactly when that end is the oldest record; and it changes
    nothing of the job's payout accounting.  Every other outcome leaves the
    state as it was. *)
Theorem skip_cached_history_sound (job : ActivePayoutJob) (lease : MainLeaseToken) (h : Heap)
    (Hok : ranges_ok (skip_ranges h))
    (Hc : forall j, active_payout_job (st h) = Some j -> candidate_ok (from_job j)) :
  exists r h', skip_cached_history job lease h = Some (r, h') /\
    ranges_ok (skip_ranges h') /\
    (r <> Ok true -> h' = h) /\
    (r = Ok true -> exists cursor low oldest j j',
       next_start job = Some cursor /\ observed_oldest_tx_id job = Some oldest /\
       oldest <= low < cursor /\ (forall x, low <= x < cursor -> covers (skip_ranges h) x) /\
       active_payout_job (st h) = Some j /\ active_payout_job (st h') = Some j' /\
       is_current_in lease (st h) = true /\ pending_transfer j = None /\
       gross_outflow_e8s j' = gross_outflow_e8s j /\ pot_start_e8s j' = pot_start_e8s j /\
       pending_transfer j' = None /\ skip_candidate_tx_count j' = 0 /\
       (oldest < low -> next_start j' = Some low /\ scan_complete j' = scan_complete j /\
          effective_denom_scan_complete j' = effective_denom_scan_complete j) /\
       (oldest = low -> if effective_denom_scan_complete j
                        then scan_complete j' = true
                        else effective_denom_scan_complete j' = true /\ next_start j' = None)).
Proof.
  destruct (skip_cached_history_cases job lease h Hok Hc) as
    [(r & E & Hr)|(cursor & low & high & oldest & j & ranges & E & Hn & Ho & Hj & Hl & Hs & Hra & Hin & Hlo & Hcu)];
    [by exists r, h|].
  assert (pending_transfer j = None) as Hpe.
  { unfold same_scan in Hs. apply andb_true_iff in Hs as [_ Hs]. by destruct (pending_transfer j). }
  eexists _, _. split; [exact E|]. split; [exact Hra|]. split; [done|]. intros _.
  exists cursor, low, oldest, j, (jump_to low (low =? oldest) j).
  split; [done|]. split; [done|]. split; [lia|]. split.
  { intros x Hx. apply Exists_exists. exists (low, high). cbn. split; [by apply list_elem_of_In|lia]. }
  split; [done|]. split; [cbn; by rewrite Hj|]. split; [done|]. split; [done|].
  unfold jump_to, effective_denom_scan_complete. cbn. unfold const.
  destruct (low =? oldest) eqn:El; zify_bool;
    destruct (default true (effective_denom_scan_complete_flag j)) eqn:Ef; cbn; unfold const;
    repeat split; try done; try lia; by rewrite ?Ef.
Qed.

End cursor.

Section witnesses.
Import Concrete ConcreteFaucet.

Definition scanning : ActivePayoutJob (P:=concrete_principal) :=
  (ActivePayoutJob_new 1 10000 1000000 5000000 1001)
    <| observed_oldest_tx_id := Some 10 |> <| next_start := Some 50 |>.
Definition cached : Heap (P:=concrete_principal) :=
  heap <| st ::= fun s => s <| active_payout_job := Some scanning |> |> <| skip_ranges := [(20, 60)] |>.

Lemma skip_cached_history_sound_witness : exists h',
  skip_cached_history scanning (Some 0) cached = Some (Ok true, h') /\ ranges_ok (skip_ranges h').
Proof.
  destruct (skip_cached_history_sound scanning (Some 0) cached) as (r & h' & E & Hok & _).
  - split; [|repeat constructor]. apply Forall_singleton. unfold range_ok. cbn. lia.
  - intros j [= <-]. split; cbn; [lia|]. intros ?. lia.
  - exists h'. split; [|exact Hok]. rewrite E. vm_compute in E. injection E as <- _. reflexivity.
Defined.

End witnesses.
