(* ===== verification/FaucetIndex.v ===== *)
(** * Faucet: index health

    [canisters/faucet/src/scheduler/index_health.rs] and [policy.rs]: how
    pages of the ledger index are validated and how sustained failures latch a
    rescue reason. *)

From Stdlib Require Import Sorted.
From S2P Require Import Prelude Async Ic Clients Accounts MemoPolicy FaucetState FaucetLogic FaucetTransfer FaucetSkip.

Definition PAGE_SIZE : Z := 500.

Module Policy.
Definition SECS_PER_DAY : Z := 86400.
Definition HEALTHY_WINDOW_SECS : Z := 7 * SECS_PER_DAY.
Definition BROKEN_WINDOW_SECS : Z := 14 * SECS_PER_DAY.
Definition BOOTSTRAP_RESCUE_WINDOW_SECS : Z := 14 * SECS_PER_DAY.

Definition desired_controllers `{PrincipalSpec} (now_secs : Z) (last : option Z)
    (self_id rescue_controller : Principal) : option (list Principal) :=
  last ← last;
  let age := sat_sub now_secs last in
  if age <=? HEALTHY_WINDOW_SECS then Some [self_id]
  else if BROKEN_WINDOW_SECS <? age then Some [rescue_controller; self_id]
  else None.

Definition bootstrap_rescue_due (now_secs : Z) (armed_since last : option Z) : bool :=
  is_none last
  && is_some_and armed_since (fun armed_at => BOOTSTRAP_RESCUE_WINDOW_SECS <? sat_sub now_secs armed_at).
End Policy.

(** [Option<u64>] in the derived order: [None] comes first. *)
Definition option_ltb (a b : option Z) : bool :=
  match a, b with
  | None, Some _ => true
  | Some x, Some y => x <? y
  | _, None => false
  end.

Section health.
Context `{A : AccountSpec} `{H : HashSpec} `{T : TextSpec}.
Local Abbreviation async := (async Heap SuiteCall).

Inductive LatestScan :=
| Read (balance_e8s : Z) (latest_tx_id : option Z)
| Unreadable
| InvariantBroken.

(** The new value of the cell and whether the failure counts. *)
Definition count_sustained_failure (last : option Z) (failures now_secs min_gap : Z)
    : bool * option Z :=
  if failures =? 0 then (true, Some now_secs)
  else
    match last with
    | Some previous =>
        if min_gap <=? sat_sub now_secs previous then (true, Some now_secs) else (false, last)
    | None => (false, Some now_secs)
    end.

Definition min_gap_seconds (h : Heap) : Z := Z.max (main_interval_seconds (config (st h))) 60.

Definition count_latest_failure (now_secs : Z) (h : Heap) : bool * Heap :=
  let failures := Z.max (default 0 (consecutive_index_latest_invariant_failures (st h)))
                        (default 0 (consecutive_index_latest_unreadable_failures (st h))) in
  let r := count_sustained_failure (last_latest_failure h) failures now_secs (min_gap_seconds h) in
  (r.1, h <| last_latest_failure := r.2 |>).

Definition sat_add_u8 (a b : Z) : Z := Z.min (a + b) 255.

Definition latch_after_two (failures : Z) (reason : ForcedRescueReason) (s : State) : State :=
  if (2 <=? failures) && is_none (forced_rescue_reason s)
  then s <| forced_rescue_reason := Some reason |> else s.

Definition record_latest_unreadable_failure (now_secs : Z) (h : Heap) : Heap :=
  let '(counts, h) := count_latest_failure now_secs h in
  if negb counts then h
  else
    let n := sat_add_u8 (default 0 (consecutive_index_latest_unreadable_failures (st h))) 1 in
    h <| st ::= (fun s => latch_after_two n IndexLatestUnreadable
           (s <| consecutive_index_latest_invariant_failures := Some 0 |>
              <| consecutive_index_latest_unreadable_failures := Some n |>)) |>.

Definition record_latest_invariant_failure (now_secs : Z) (h : Heap) : Heap :=
  let '(counts, h) := count_latest_failure now_secs h in
  if negb counts then h
  else
    let n := sat_add_u8 (default 0 (consecutive_index_latest_invariant_failures (st h))) 1 in
    h <| st ::= (fun s => latch_after_two n IndexLatestInvariantBroken
           (s <| consecutive_index_latest_unreadable_failures := Some 0 |>
              <| consecutive_index_latest_invariant_failures := Some n |>)) |>.

Fixpoint windows_descending (txs : list IndexTransactionWithId) : bool :=
  match txs with
  | a :: (b :: _) as rest => negb (tx_id a <=? tx_id b) && windows_descending rest
  | _ => true
  end.

Definition validate_history_page (response : IndexPage) (cursor expected_oldest : option Z)
    : option bool :=
  let oldest := oldest_tx_id response in
  let txs := transactions response in
  if is_some_and expected_oldest (fun id => negb (bool_decide (oldest = Some id)))
     || (PAGE_SIZE <? Z.of_nat (length txs))
     || negb (windows_descending txs)
     || is_some_and (head txs) (fun tx => is_some_and cursor (fun id => id <=? tx_id tx))
     || existsb (fun tx => match oldest with None => true | Some id => tx_id tx <? id end) txs
  then None
  else
    match txs with
    | [] =>
        match cursor, oldest with
        | None, None => Some true
        | Some c, Some o => then_some (c =? o) true
        | _, _ => None
        end
    | _ => Some (bool_decide (option_map tx_id (last txs) = oldest))
    end.

Definition index_page_latest_tx_id (txs : list IndexTransactionWithId) : option Z :=
  option_map tx_id (head txs).

Definition latest_of_page (start : option Z) (resp : IndexPage) : LatestScan :=
  let valid :=
    match transactions resp with
    | [] =>
        is_none (oldest_tx_id resp)
        || match start, oldest_tx_id resp with
           | Some cursor, Some oldest => cursor <=? oldest
           | _, _ => false
           end
    | _ => negb (is_none (validate_history_page resp start None))
    end in
  if negb valid then InvariantBroken
  else Read (page_balance resp) (index_page_latest_tx_id (transactions resp)).

Definition scan_latest_observation (index : Principal) (staking_id : list Z) (start : option Z)
    : async LatestScan :=
  resp ← get_account_identifier_transactions index staking_id start PAGE_SIZE;
  mret match resp with Ok resp => latest_of_page start resp | Err _ => Unreadable end.

Definition apply_anchor_observation (observed_oldest : option Z) (now_secs : Z) (h : Heap) : Heap :=
  match expected_first_staking_tx_id (config (st h)) with
  | None => h
  | Some expected_first =>
      if bool_decide (observed_oldest = Some expected_first)
      then h <| st ::= (fun s => s <| consecutive_index_anchor_failures := Some 0 |>) |>
             <| last_anchor_failure := None |>
      else
        let failures := default 0 (consecutive_index_anchor_failures (st h)) in
        let r := count_sustained_failure (last_anchor_failure h) failures now_secs
                   (min_gap_seconds h) in
        let h := h <| last_anchor_failure := r.2 |> in
        if negb r.1 then h
        else
          let n := sat_add_u8 failures 1 in
          h <| st ::= (fun s => latch_after_two n IndexAnchorMissing
                 (s <| consecutive_index_anchor_failures := Some n |>)) |>
  end.

Definition apply_latest_observation (latest_scan : LatestScan) (now_secs : Z) (h : Heap) : Heap :=
  match latest_scan with
  | Unreadable => record_latest_unreadable_failure now_secs h
  | InvariantBroken => record_latest_invariant_failure now_secs h
  | Read balance latest =>
      let previous_tip := last_observed_latest_tx_id (st h) in
      if negb (is_none (last_observed_staking_balance_e8s (st h))) && option_ltb latest previous_tip
      then h
      else if is_some_and (last_observed_staking_balance_e8s (st h)) (fun b => negb (b =? balance))
              && bool_decide (latest = previous_tip)
      then record_latest_invariant_failure now_secs h
      else h <| st ::= (fun s => s <| last_observed_staking_balance_e8s := Some balance |>
                                   <| last_observed_latest_tx_id := latest |>
                                   <| consecutive_index_latest_invariant_failures := Some 0 |>
                                   <| consecutive_index_latest_unreadable_failures := Some 0 |>) |>
             <| last_latest_failure := None |>
  end.

Definition apply_cmc_run_result (attempts successes : Z) (counts : bool) (s : State) : State :=
  if attempts =? 0 then s
  else if 0 <? successes then s <| consecutive_cmc_zero_success_runs := Some 0 |>
  else if negb counts then s
  else
    let n := sat_add_u8 (default 0 (consecutive_cmc_zero_success_runs s)) 1 in
    latch_after_two n CmcZeroSuccessRuns (s <| consecutive_cmc_zero_success_runs := Some n |>).

(** [if lease.is_current_in(st) { f(st) }] *)
Definition under_lease (lease : MainLeaseToken) (f : Heap -> Heap) : async unit :=
  modify (fun h => if is_current_in lease (st h) then f h else h).

Definition observe_latest (index : Principal) (staking_id : list Z) (lease : MainLeaseToken)
    (now_secs : Z) : async unit :=
  latest ← scan_latest_observation index staking_id None;
  under_lease lease (apply_latest_observation latest now_secs).

Definition probe_index_health_with_lease (index : Principal) (staking_id : list Z)
    (denom_balance : Z) (lease : MainLeaseToken) (now_secs : Z) : async unit :=
  prev_balance ← with_state (fun h => last_observed_staking_balance_e8s (st h));
  first_page ← get_account_identifier_transactions index staking_id None 1;
  match first_page with
  | Err _ => under_lease lease (apply_latest_observation Unreadable now_secs)
  | Ok first_page =>
      current ← with_state (fun h => is_current_in lease (st h));
      if negb current then mret tt
      else
        under_lease lease (apply_anchor_observation (oldest_tx_id first_page) now_secs) ;;
        if bool_decide (prev_balance = Some denom_balance) then mret tt
        else observe_latest index staking_id lease now_secs
  end.

Definition refresh_index_latest_health_after_payout_with_lease (index : Principal)
    (staking_id : list Z) (denom_balance : Z) (lease : MainLeaseToken) (now_secs : Z)
    : async unit :=
  prev_balance ← with_state (fun h => last_observed_staking_balance_e8s (st h));
  if bool_decide (prev_balance = Some denom_balance) then mret tt
  else observe_latest index staking_id lease now_secs.

(** Whether one of the witnesses is an existing canister. *)
Fixpoint any_canister_exists (witnesses : list Principal) : async bool :=
  match witnesses with
  | [] => mret false
  | b :: rest =>
      exists_ ← canister_exists b;
      match exists_ with Ok true => mret true | _ => any_canister_exists rest end
  end.

Definition zero_success_run_counts_toward_rescue (job : ActivePayoutJob) : async bool :=
  if (default 0 (cmc_attempt_count job) =? 0) || (0 <? default 0 (cmc_success_count job))
  then mret false
  else any_canister_exists
         (take MAX_CMC_DIAGNOSTIC_WITNESSES (default [] (cmc_attempted_beneficiaries job))).

Definition apply_job_health_observations (job : ActivePayoutJob) (counts : bool) (now_secs : Z)
    (h : Heap) : Heap :=
  (apply_anchor_observation (observed_oldest_tx_id job) now_secs h)
    <| st ::= apply_cmc_run_result (default 0 (cmc_attempt_count job))
                (default 0 (cmc_success_count job)) counts |>.

Definition maybe_latch_bootstrap_rescue (now_secs : Z) (h : Heap) : Heap :=
  if is_none (forced_rescue_reason (st h))
     && Policy.bootstrap_rescue_due now_secs (autonomous_rescue_armed_since_ts (st h))
          (last_successful_transfer_ts (st h))
  then h <| st ::= (fun s => s <| forced_rescue_reason := Some BootstrapNoSuccess |>) |>
  else h.

(** [note_index_page_with_lease] of [cmc_notify.rs]. *)
Definition note_index_page_with_lease (resp : IndexPage) (lease : MainLeaseToken) (id : Z)
    (expected_cursor : option Z) (h : Heap) : Heap :=
  if is_current_in lease (st h)
     && is_some_and (active_payout_job (st h)) (fun j =>
          (job_id j =? id) && bool_decide (next_start j = expected_cursor)) then
    upd_job (fun j =>
      let j := if is_none (observed_oldest_tx_id j)
               then j <| observed_oldest_tx_id := oldest_tx_id resp |> else j in
      match index_page_latest_tx_id (transactions resp) with
      | Some latest =>
          j <| observed_latest_tx_id := Some (match observed_latest_tx_id j with
                                              | Some o => Z.max o latest
                                              | None => latest end) |>
      | None => j
      end) h
  else h.

(** [finalize_completed_job] of [cmc_notify.rs]. *)
Definition finalize_state (job : ActivePayoutJob) (counts : bool) (now_secs : Z) (h : Heap) : Heap :=
  let h := h <| st ::= (fun s => s <| active_payout_job := None |>) |> in
  let h := apply_job_health_observations job counts now_secs h in
  h <| st ::= (fun s =>
    let s := match round_end_time_nanos job with
             | Some t => s <| current_round_start_time_nanos := Some t |>
                           <| current_round_start_latest_tx_id :=
                                match round_end_latest_tx_id job with
                                | Some l => Some l
                                | None => observed_latest_tx_id job
                                end |>
             | None => s
             end in
    let s := match funding_tx_id job with
             | Some id => s <| last_processed_funding_tx_id := Some id |>
             | None => s
             end in
    s <| last_summary := Some (FaucetLogic.summary_from_job job) |>) |>.

Definition owns_job (lease : MainLeaseToken) (id : Z) (h : Heap) : bool :=
  is_current_in lease (st h)
  && is_some_and (active_payout_job (st h)) (fun j => job_id j =? id).

Definition finalize_completed_job (lease : MainLeaseToken) (expected_job_id now_secs : Z)
    : async bool :=
  job ← with_state (fun h => if owns_job lease expected_job_id h then active_payout_job (st h) else None);
  match job with
  | None => mret false
  | Some job =>
      counts ← zero_success_run_counts_toward_rescue job;
      with_state_mut (fun h =>
        if owns_job lease expected_job_id h
        then (true, finalize_state job counts now_secs h) else (false, h))
  end.

End health.

(** ** Pages of the index *)

Section pages.
Context `{A : AccountSpec} `{H : HashSpec} `{T : TextSpec}.

Definition ids (resp : IndexPage) : list Z := map tx_id (transactions resp).
Definition descending (l : list Z) : Prop := StronglySorted (fun a b => b < a) l.

(** A page of a history in strictly descending order that lies below the
    cursor and at or above the oldest record. *)
Record page_valid (resp : IndexPage) (cursor expected_oldest : option Z) : Prop := {
  pv_anchor : forall e, expected_oldest = Some e -> oldest_tx_id resp = Some e;
  pv_size : Z.of_nat (length (ids resp)) <= PAGE_SIZE;
  pv_descending : descending (ids resp);
  pv_below : forall i c, In i (ids resp) -> cursor = Some c -> i < c;
  pv_above : forall i, In i (ids resp) -> exists o, oldest_tx_id resp = Some o /\ o <= i;
  pv_empty : ids resp = [] -> cursor = oldest_tx_id resp;
}.

(** The page reaches the oldest record. *)
Definition page_exhausts (resp : IndexPage) : Prop :=
  ids resp = [] \/ last (ids resp) = oldest_tx_id resp.

Lemma windows_descending_spec txs :
  windows_descending txs = true <-> descending (map tx_id txs).
Proof.
  unfold descending. induction txs as [|a [|b rest] IH]; cbn [windows_descending map].
  - split; [constructor|done].
  - split; [repeat constructor|done].
  - rewrite andb_true_iff, IH, negb_true_iff, Z.leb_gt. cbn [map]. split.
    + intros [Hab Hs]. constructor; [done|]. constructor; [done|].
      inversion_clear Hs as [|? ? _ Hf]. eapply Forall_impl; [exact Hf|]. cbn. lia.
    + intros Hs. inversion_clear Hs as [|? ? Hs' Hf]. inversion_clear Hf. done.
Qed.

Lemma descending_below (l : list Z) c :
  descending l -> (forall i, head l = Some i -> i < c) -> forall i, In i l -> i < c.
Proof.
  destruct l as [|a l]; [done|]. intros Hd Hh i [<-|Hi]; [by apply Hh|].
  inversion_clear Hd as [|? ? _ Hf]. rewrite List.Forall_forall in Hf. specialize (Hf i Hi).
  specialize (Hh a eq_refl). lia.
Qed.

Lemma is_some_and_false {X} (o : option X) (f : X -> bool) :
  is_some_and o f = false <-> forall x, o = Some x -> f x = false.
Proof. destruct o as [x|]; cbn; [|done]. split; [by intros ? ? [= <-]|auto]. Qed.

Lemma last_ids resp : last (ids resp) = option_map tx_id (last (transactions resp)).
Proof.
  unfold ids. induction (transactions resp) as [|a [|b l] IH]; [done|done|]. cbn [map] in *.
  rewrite !last_cons_cons. exact IH.
Qed.

(** The rejection test of [validate_history_page]. *)
Lemma page_checks resp cursor expected :
  is_some_and expected (fun id => negb (bool_decide (oldest_tx_id resp = Some id)))
     || (PAGE_SIZE <? Z.of_nat (length (transactions resp)))
     || negb (windows_descending (transactions resp))
     || is_some_and (head (transactions resp)) (fun tx => is_some_and cursor (fun id => id <=? tx_id tx))
     || existsb (fun tx => match oldest_tx_id resp with None => true | Some id => tx_id tx <? id end)
          (transactions resp) = false <->
  (forall e, expected = Some e -> oldest_tx_id resp = Some e) /\
  Z.of_nat (length (ids resp)) <= PAGE_SIZE /\ descending (ids resp) /\
  (forall i c, In i (ids resp) -> cursor = Some c -> i < c) /\
  (forall i, In i (ids resp) -> exists o, oldest_tx_id resp = Some o /\ o <= i).
Proof.
  rewrite !orb_false_iff, !is_some_and_false, negb_false_iff, windows_descending_spec.
  fold (ids resp). replace (length (transactions resp)) with (length (ids resp))
    by (unfold ids; by rewrite length_map).
  assert (forall B C D E F G : Prop, (B <-> C) -> (D <-> E) -> (F <-> G) -> 
    (B /\ D) /\ F <-> C /\ E /\ G) as Hand by tauto.
  assert ((forall e, expected = Some e -> negb (bool_decide (oldest_tx_id resp = Some e)) = false) <->
    (forall e, expected = Some e -> oldest_tx_id resp = Some e)) as ->.
  { split; intros Hh e He; specialize (Hh e He).
    - by apply negb_false_iff, bool_decide_eq_true in Hh.
    - apply negb_false_iff. by apply bool_decide_eq_true. }
  rewrite Z.ltb_ge.
  assert (existsb (fun tx => match oldest_tx_id resp with None => true | Some id => tx_id tx <? id end)
    (transactions resp) = false <->
    (forall i, In i (ids resp) -> exists o, oldest_tx_id resp = Some o /\ o <= i)) as ->.
  { rewrite <- not_true_iff_false, existsb_exists. unfold ids. split.
    - intros Hn i (tx & <- & Htx)%in_map_iff. destruct (oldest_tx_id resp) as [o|].
      + exists o. split; [done|]. apply Z.le_ngt. intros Hlt. apply Hn. exists tx.
        split; [done|]. by apply Z.ltb_lt.
      + exfalso. apply Hn. by exists tx.
    - intros Hall (tx & Htx & Ht). destruct (Hall (tx_id tx)) as (o & Ho & Hle);
        [by apply in_map|]. rewrite Ho in Ht. apply Z.ltb_lt in Ht. lia. }
  split; [|intros (H1 & H2 & H3 & H4 & H5); repeat split; try done].
  - intros [[[[H1 H2] H3] H4] H5]. repeat split; try done. intros i c Hi Hc.
    apply (descending_below (ids resp)); [done| |done]. intros x Hx. unfold ids in Hx.
    destruct (transactions resp) as [|tx l]; [done|]. cbn in Hx. injection Hx as <-.
    specialize (H4 tx eq_refl). rewrite is_some_and_false in H4. specialize (H4 c Hc).
    by apply Z.leb_gt in H4.
  - intros tx Htx. apply is_some_and_false. intros c Hc. apply Z.leb_gt. apply H4; [|done].
    unfold ids. destruct (transactions resp) as [|tx' l]; [done|]. injection Htx as ->. by left.
Qed.

Lemma validate_page_spec resp cursor expected b :
  validate_history_page resp cursor expected = Some b <->
  page_valid resp cursor expected /\ (b = true <-> page_exhausts resp).
Proof.
  pose proof (page_checks resp cursor expected) as Hchk. unfold validate_history_page.
  destruct (_ || _).
  { split; [done|]. intros [[H1 H2 H3 H4 H5 _] _]. by destruct Hchk as [_ Hc]; discriminate Hc. }
  destruct Hchk as [Hc _]. destruct Hc as (H1 & H2 & H3 & H4 & H5); [done|].
  pose proof (last_ids resp) as Hlast. unfold page_exhausts. rewrite Hlast. unfold ids in *.
  destruct (transactions resp) as [|tx l] eqn:Htx.
  - assert (page_valid resp cursor expected <-> cursor = oldest_tx_id resp) as ->.
    { split; [intros []; unfold ids in *; rewrite Htx in *; auto|]. intros Hco.
      constructor; unfold ids; rewrite ?Htx; auto. }
    cbn. destruct cursor as [c|], (oldest_tx_id resp) as [o|]; try naive_solver.
    destruct (c =? o) eqn:E; cbn; zify_bool; [naive_solver|]. split; [done|].
    intros [[= ->] _]. done.
  - assert (page_valid resp cursor expected <-> True) as ->.
    { split; [done|]. intros _. constructor; unfold ids; rewrite ?Htx; auto. done. }
    split.
    + intros [= <-]. split; [done|]. rewrite bool_decide_eq_true. naive_solver.
    + intros [_ Hb]. f_equal. destruct b.
      * apply bool_decide_eq_true. destruct Hb as [Hb _]. by destruct Hb.
      * apply bool_decide_eq_false. intros E. destruct Hb as [_ Hb]. discriminate Hb. by right.
Qed.

(** A page is accepted exactly when it is a valid page of the history,
    and it is reported as exhausting the history exactly when it reaches the
    oldest record: a short page alone proves nothing. *)
Theorem validate_history_page_exact resp cursor expected b :
  validate_history_page resp cursor expected = Some b <->
  page_valid resp cursor expected /\ (b = true <-> page_exhausts resp).
Proof. apply validate_page_spec. Qed.
(** The pages that a pass reads, each from the last id of its predecessor. *)
Fixpoint pass_accepted (pages : list IndexPage) (cursor expected : option Z) : bool :=
  match pages with
  | [] => true
  | p :: rest =>
      match validate_history_page p cursor expected with
      | None => false
      | Some true => match rest with [] => true | _ => false end
      | Some false => pass_accepted rest (last (ids p)) expected
      end
  end.

Lemma descending_app a b :
  descending a -> descending b -> (forall i j, In i a -> In j b -> j < i) -> descending (a ++ b).
Proof.
  induction a as [|x a IH]; intros Ha Hb Hab; [done|]. inversion_clear Ha as [|? ? Hs Hf].
  cbn. constructor.
  - apply IH; [done|done|]. intros i j Hi. apply Hab. by right.
  - apply Forall_app. split; [done|]. apply List.Forall_forall. intros j. apply Hab. by left.
Qed.

Lemma last_min (l : list Z) c i : descending l -> last l = Some c -> In i l -> c <= i.
Proof.
  intros Hd [l' ->]%last_Some Hi. apply in_app_iff in Hi as [Hi|[<-|[]]]; [|lia].
  induction l' as [|x l' IH]; [done|]. inversion_clear Hd as [|? ? Hs Hf].
  destruct Hi as [<-|Hi]; [|by apply IH]. apply Forall_app in Hf as [_ Hf].
  inversion_clear Hf. lia.
Qed.

(** The pages of a complete pass list the history in strictly descending
    order, so no record is read twice; every record is at or above the oldest
    one; and a pass whose pages are not all read yet continues strictly below
    its last record. *)
Theorem history_pass_descending pages cursor expected
    (Hp : pass_accepted pages cursor expected = true) :
  descending (concat (map ids pages)) /\
  (forall i c, In i (concat (map ids pages)) -> cursor = Some c -> i < c) /\
  (forall i e, In i (concat (map ids pages)) -> expected = Some e -> e <= i).
Proof.
  revert cursor Hp. induction pages as [|p rest IH]; intros cursor Hp.
  { cbn. split; [constructor|]. split; [done|done]. }
  cbn [pass_accepted map concat] in *.
  destruct (validate_history_page p cursor expected) as [b|] eqn:Hv; [|done].
  apply validate_page_spec in Hv as [[H1 H2 H3 H4 H5 H6] Hb].
  assert (forall i e, In i (ids p) -> expected = Some e -> e <= i) as He.
  { intros i e Hi Hee. destruct (H5 i Hi) as (o & Ho & Hle). specialize (H1 e Hee). congruence. }
  destruct b.
  { destruct rest; [|done]. cbn. by rewrite app_nil_r. }
  destruct (last (ids p)) as [l|] eqn:Hl.
  2: { apply last_None in Hl. destruct Hb as [_ Hb]. discriminate Hb. by left. }
  destruct (IH _ Hp) as (Hd & Hbelow & Habove).
  assert (In l (ids p)) as Hlin.
  { apply last_Some in Hl as [l' ->]. apply in_app_iff. right. by left. }
  split; [|split].
  - apply descending_app; [done|done|]. intros i j Hi Hj. specialize (Hbelow j l Hj eq_refl).
    pose proof (last_min _ _ _ H3 Hl Hi). lia.
  - intros i c [Hi|Hi]%in_app_iff Hc; [by eapply H4|]. specialize (Hbelow i l Hi eq_refl).
    specialize (H4 l c Hlin Hc). lia.
  - intros i e [Hi|Hi]%in_app_iff Hee; [by eapply He|by eapply Habove].
Qed.

End pages.

(** ** Sustained failures *)

Section anchor.
Context `{A : AccountSpec}.

(** A run of anchor observations: the oldest record the index reported and the
    time of the observation. *)
Definition observe_anchor (h : Heap) (o : option Z * Z) : Heap := apply_anchor_observation o.1 o.2 h.
Definition anchor_run (h : Heap) (os : list (option Z * Z)) : Heap := foldl observe_anchor h os.

(** Two failed observations at least [gap] seconds apart with no success in
    between. *)
Definition sustained_outage (expected gap : Z) (os : list (option Z * Z)) : Prop :=
  exists pre o1 mid o2 suf, os = pre ++ o1 :: mid ++ o2 :: suf /\
    o1.1 <> Some expected /\ o2.1 <> Some expected /\
    Forall (fun o => o.1 <> Some expected) mid /\ gap <= sat_sub o2.2 o1.2.

(** The failure counter and its cell, as the observations so far leave them. *)
Definition anchor_inv (h0 : Heap) (expected : Z) (os : list (option Z * Z)) (h : Heap) : Prop :=
  config (st h) = config (st h0) /\
  match forced_rescue_reason (st h) with
  | Some r => r = IndexAnchorMissing /\ sustained_outage expected (min_gap_seconds h0) os
  | None =>
      default 0 (consecutive_index_anchor_failures (st h)) = 0 \/
      (default 0 (consecutive_index_anchor_failures (st h)) = 1 /\
       exists pre o1 mid, os = pre ++ o1 :: mid /\ o1.1 <> Some expected /\
         Forall (fun o => o.1 <> Some expected) mid /\ last_anchor_failure h = Some o1.2)
  end.

Lemma sustained_snoc expected gap os o :
  sustained_outage expected gap os -> sustained_outage expected gap (os ++ [o]).
Proof.
  intros (pre & o1 & mid & o2 & suf & -> & H). exists pre, o1, mid, o2, (suf ++ [o]).
  split; [|done]. rewrite <- app_assoc. cbn. by rewrite <- app_assoc.
Qed.

Lemma anchor_inv_step h0 expected os h o :
  expected_first_staking_tx_id (config (st h0)) = Some expected ->
  anchor_inv h0 expected os h -> anchor_inv h0 expected (os ++ [o]) (observe_anchor h o).
Proof.
  intros He [Hcfg Hinv]. unfold observe_anchor, apply_anchor_observation.
  assert (min_gap_seconds h = min_gap_seconds h0) as Hgap by (unfold min_gap_seconds; by rewrite Hcfg).
  rewrite Hcfg, He. destruct (bool_decide (o.1 = Some expected)) eqn:Ho.
  { split; [done|]. cbn. destruct (forced_rescue_reason (st h)) as [r|]; [|by left].
    destruct Hinv as [-> Hs]. split; [done|by apply sustained_snoc]. }
  apply bool_decide_eq_false in Ho. rewrite Hgap. unfold count_sustained_failure.
  set (n := default 0 (consecutive_index_anchor_failures (st h))) in *.
  assert (forall s, forced_rescue_reason s = forced_rescue_reason (st h) ->
    forall k, forced_rescue_reason (st h) <> None ->
    forced_rescue_reason (latch_after_two k IndexAnchorMissing s) = forced_rescue_reason (st h)) as Hkeep.
  { intros s Hs k Hk. unfold latch_after_two. rewrite Hs. by destruct (2 <=? k), (forced_rescue_reason (st h)). }
  destruct (forced_rescue_reason (st h)) as [r|] eqn:Hr.
  { destruct Hinv as [-> Hs]. apply (sustained_snoc _ _ _ o) in Hs.
    assert (forall c d, anchor_inv h0 expected (os ++ [o])
      ((h <| last_anchor_failure := c |>) <| st ::= fun s => latch_after_two d IndexAnchorMissing
         (s <| consecutive_index_anchor_failures := Some d |>) |>)) as Hall.
    { intros c d. unfold anchor_inv, latch_after_two. cbn. rewrite Hr, andb_false_r. cbn.
      unfold const. split; [done|]. by rewrite Hr. }
    assert (forall c, anchor_inv h0 expected (os ++ [o]) (h <| last_anchor_failure := c |>)) as Hall'.
    { intros c. split; [done|]. cbn. by rewrite Hr. }
    destruct (n =? 0); [apply Hall|]. destruct (last_anchor_failure h) as [p|]; [|apply Hall'].
    destruct (_ <=? _); [apply Hall|apply Hall']. }
  destruct (n =? 0) eqn:Hn.
  { cbn [fst snd negb]. zify_bool. rewrite Hn. split; [done|]. cbn. unfold const, latch_after_two.
    cbn. rewrite Hr. change (sat_add_u8 0 1) with 1. cbn. rewrite Hr.
    right. split; [done|]. exists os, o, []. split; [done|]. split; [done|].
    split; [constructor|done]. }
  zify_bool. destruct Hinv as [?|(H1 & pre & o1 & mid & -> & Ho1 & Hmid & Hlast)]; [done|].
  rewrite Hlast. destruct (min_gap_seconds h0 <=? sat_sub o.2 o1.2) eqn:Hg; cbn [fst snd negb].
  - rewrite H1. change (sat_add_u8 1 1) with 2. unfold anchor_inv, latch_after_two. cbn.
    unfold const. rewrite Hr. cbn. split; [done|].
    split; [done|]. zify_bool. exists pre, o1, mid, o, []. split; [|done].
    by rewrite <- app_assoc.
  - split; [done|]. cbn. rewrite Hr. right. split; [done|]. exists pre, o1, (mid ++ [o]).
    split; [by rewrite <- app_assoc|]. split; [done|]. split; [|done]. apply Forall_app. auto.
Qed.

(** The anchor rescue needs a sustained outage: a run of observations
    latches it only when two observations that miss the expected first staking
    record are at least one main interval (and a minute) apart without a
    matching one in between, so a burst of pokes never latches it; no other
    reason is latched by the anchor; and two such observations in a row do
    latch it. *)
Theorem anchor_rescue_needs_sustained_outage (h0 : Heap) (expected : Z) (os : list (option Z * Z))
    (He : expected_first_staking_tx_id (config (st h0)) = Some expected)
    (Hr : forced_rescue_reason (st h0) = None)
    (Hn : default 0 (consecutive_index_anchor_failures (st h0)) = 0) :
  let h := anchor_run h0 os in
  (forced_rescue_reason (st h) = None \/
   forced_rescue_reason (st h) = Some IndexAnchorMissing /\
     sustained_outage expected (min_gap_seconds h0) os) /\
  (forall o1 o2, os = [o1; o2] -> o1.1 <> Some expected -> o2.1 <> Some expected ->
     min_gap_seconds h0 <= sat_sub o2.2 o1.2 ->
     forced_rescue_reason (st h) = Some IndexAnchorMissing).
Proof.
  cbn zeta. split.
  - assert (anchor_inv h0 expected os (anchor_run h0 os)) as [_ Hinv].
    { unfold anchor_run. induction os as [|o os IH] using rev_ind.
      - split; [done|]. cbn. rewrite Hr. by left.
      - rewrite foldl_snoc. by apply anchor_inv_step. }
    destruct (forced_rescue_reason (st (anchor_run h0 os))) as [r|]; [right|by left].
    by destruct Hinv as [-> Hs].
  - intros o1 o2 -> H1 H2 Hg. cbn [anchor_run foldl].
    assert (config (st (observe_anchor h0 o1)) = config (st h0) /\
      forced_rescue_reason (st (observe_anchor h0 o1)) = None /\
      consecutive_index_anchor_failures (st (observe_anchor h0 o1)) = Some 1 /\
      last_anchor_failure (observe_anchor h0 o1) = Some o1.2) as (Hc & Hf & Hk & Hl).
    { unfold observe_anchor, apply_anchor_observation.
      rewrite He, bool_decide_false by done. rewrite Hn. cbn. change (sat_add_u8 0 1) with 1.
      unfold const, latch_after_two. cbn. by rewrite Hr. }
    set (h1 := observe_anchor h0 o1) in *. unfold anchor_run. cbn [foldl]. fold h1.
    unfold observe_anchor, apply_anchor_observation.
    rewrite Hc, He, bool_decide_false by done. rewrite Hk, Hl. unfold count_sustained_failure. cbn [default Z.eqb].
    unfold min_gap_seconds in *. rewrite Hc, (proj2 (Z.leb_le _ _)) by done. cbn [fst snd negb].
    change (sat_add_u8 1 1) with 2. unfold latch_after_two. cbn. by rewrite Hf.
Qed.

End anchor.

Section witnesses.
Import Concrete ConcreteFaucet.

Lemma history_pass_descending_witness :
  descending (concat (map ids [MkIndexPage 5 None []])).
Proof.
  refine (proj1 (history_pass_descending [MkIndexPage 5 None []] None None _)). reflexivity.
Defined.

Lemma anchor_rescue_needs_sustained_outage_witness :
  forced_rescue_reason (st (anchor_run (P:=concrete_principal) heap [(None, 5); (None, 90000)]))
    = Some IndexAnchorMissing.
Proof.
  refine (proj2 (anchor_rescue_needs_sustained_outage (P:=concrete_principal) heap 10
    [(None, 5); (None, 90000)] _ _ _) (None, 5) (None, 90000) _ _ _ _);
    first [reflexivity|discriminate].
Defined.

End witnesses.
