(* ===== verification/FaucetPayout.v ===== *)
(** * Faucet: funding discovery and the payout driver

    [canisters/faucet/src/scheduler/neuron_staking.rs] and
    [route_accounting.rs]: one funding transfer becomes one payout job, whose
    denominator pass and payout pass read the staking history page by page.
    The driver is bounded by its page budget; [payout_fuel] covers it. *)

From S2P Require Import Prelude Async Ic Clients Accounts MemoPolicy FaucetState FaucetLogic.
From S2P Require Import FaucetTransfer FaucetSkip FaucetIndex.

Definition MAX_INDEX_PAGES_PER_PAYOUT_TICK : Z := 64.
Definition MAX_FUNDING_SCAN_PAGES_PER_TICK : nat := 128.
Definition DEFAULT_STAKE_RECOGNITION_DELAY_SECONDS : Z := 24 * 60 * 60.

(** ** The job of a funding tranche ([neuron_staking.rs]) *)

Section job.
Context `{A : AccountSpec}.

Definition recognition_delay_seconds (h : Heap) : Z :=
  default DEFAULT_STAKE_RECOGNITION_DELAY_SECONDS (stake_recognition_delay_seconds (config (st h))).

Definition effective_denom_e8s (job : ActivePayoutJob) : Z :=
  default (denom_staking_balance_e8s job) (effective_denom_staking_balance_e8s job).

Definition new_job (now_nanos fee_ pot_start denom round_end_time : Z)
    (round_end_latest : option Z) (tranche : option FundingTrancheState) (s : State)
    : ActivePayoutJob :=
  let job := ActivePayoutJob_new (payout_nonce s) fee_ pot_start denom now_nanos in
  let job := match tranche with
             | Some t => configure_funding_tranche (tranche_tx_id t) (tranche_timestamp_nanos t)
                           (tranche_amount_e8s t) job
             | None => job
             end in
  match current_round_start_time_nanos s with
  | Some start => configure_round_accounting (Some start) (current_round_start_latest_tx_id s)
                    round_end_time round_end_latest 0 false job
  | None => configure_round_accounting None None round_end_time round_end_latest 0 false job
  end.

Definition ensure_active_job_with_boundary (now_nanos fee_ pot_start denom round_end_time : Z)
    (round_end_latest : option Z) (tranche : option FundingTrancheState) (h : Heap) : Heap :=
  match active_payout_job (st h) with
  | Some _ => h
  | None =>
      h <| st ::= (fun s =>
        s <| payout_nonce := sat_add (payout_nonce s) 1 |>
          <| active_payout_job := Some (new_job now_nanos fee_ pot_start denom round_end_time
                                          round_end_latest tranche s) |>) |>
  end.

End job.

(** ** Funding discovery *)

Inductive FundingDiscoveryUnreadableReason :=
| IndexReadFailed | QualifyingFundingTransferMissingTimestamp.
Inductive FundingDiscovery :=
| Found (tranche : FundingTrancheState) | InProgress | Empty
| UnreadableFunding (reason : FundingDiscoveryUnreadableReason).

Section funding.
Context `{A : AccountSpec} `{H : HashSpec} `{T : TextSpec}.
Local Abbreviation async := (async Heap SuiteCall).

(** The scan over one page: the updated candidate and whether a processed
    transfer was reached; [None] when a qualifying transfer has no time. *)
Fixpoint funding_page (payout_id source_id : list Z) (last_processed : option Z) (fee_ : Z)
    (txs : list IndexTransactionWithId) (best : option FundingTrancheState)
    : option (option FundingTrancheState * bool) :=
  match txs with
  | [] => Some (best, false)
  | tx :: rest =>
      if is_some_and last_processed (fun l => tx_id tx <=? l) then Some (best, true)
      else
        match tx_operation (transaction tx) with
        | IndexTransfer from to_ amount _ _ =>
            if bool_decide (from = source_id) && bool_decide (to_ = payout_id) && (fee_ <? amount)
            then
              match index_tx_timestamp_nanos tx with
              | None => None
              | Some t =>
                  let tranche := MkTranche (tx_id tx) t amount in
                  let better := match best with
                                | None => true
                                | Some old => tranche_tx_id tranche <? tranche_tx_id old
                                end in
                  funding_page payout_id source_id last_processed fee_ rest
                    (if better then Some tranche else best)
              end
            else funding_page payout_id source_id last_processed fee_ rest best
        | _ => funding_page payout_id source_id last_processed fee_ rest best
        end
  end.

Definition begin_funding_scan (lease : MainLeaseToken) (last_processed : option Z) (h : Heap)
    : option FundingScanState * Heap :=
  if negb (is_current_in lease (st h))
     || negb (bool_decide (last_processed_funding_tx_id (st h) = last_processed))
     || negb (is_none (active_payout_job (st h)))
  then (None, h)
  else
    let reset := match active_funding_scan (st h) with
                 | Some scan => negb (bool_decide (anchor_last_processed_funding_tx_id scan
                                                   = last_processed))
                 | None => true
                 end in
    let h := if reset
             then h <| st ::= (fun s => s <| active_funding_scan :=
                                          Some (MkFundingScan last_processed None None) |>) |>
             else h in
    (active_funding_scan (st h), h).

Definition owns_scan (lease : MainLeaseToken) (last_processed : option Z)
    (expected : FundingScanState) (h : Heap) : bool :=
  is_current_in lease (st h)
  && bool_decide (last_processed_funding_tx_id (st h) = last_processed)
  && is_none (active_payout_job (st h))
  && bool_decide (active_funding_scan (st h) = Some expected).

Definition apply_scan (lease : MainLeaseToken) (last_processed : option Z)
    (expected : FundingScanState) (next : option FundingScanState) (h : Heap) : bool * Heap :=
  if owns_scan lease last_processed expected h
  then (true, h <| st ::= (fun s => s <| active_funding_scan := next |>) |>) else (false, h).

Fixpoint discover_pages (pages : nat) (index : Principal) (payout_id source_id : list Z)
    (last_processed : option Z) (fee_ : Z) (lease : MainLeaseToken) (scan : FundingScanState)
    (observed_oldest : option Z) : async (option FundingDiscovery) :=
  match pages with
  | O => mret (Some InProgress)
  | S pages' =>
      owned ← with_state (owns_scan lease last_processed scan);
      if negb owned then mret None
      else
        response ← get_account_identifier_transactions index payout_id (cursor scan) PAGE_SIZE;
        owned ← with_state (owns_scan lease last_processed scan);
        if negb owned then mret None
        else
          match response with
          | Err _ => mret (Some (UnreadableFunding IndexReadFailed))
          | Ok resp =>
              if negb (is_none (candidate scan)) && is_none (oldest_tx_id resp)
              then mret (Some (UnreadableFunding IndexReadFailed))
              else
                match validate_history_page resp (cursor scan) observed_oldest with
                | None => mret (Some (UnreadableFunding IndexReadFailed))
                | Some exhausted =>
                    match funding_page payout_id source_id last_processed fee_
                            (transactions resp) (candidate scan) with
                    | None => mret (Some (UnreadableFunding
                                            QualifyingFundingTransferMissingTimestamp))
                    | Some (best, reached_processed) =>
                        let next_scan := MkFundingScan (anchor_last_processed_funding_tx_id scan)
                          (match option_map tx_id (last (transactions resp)) with
                           | Some i => Some i
                           | None => cursor scan
                           end) best in
                        let complete := exhausted || reached_processed in
                        applied ← with_state_mut (apply_scan lease last_processed scan
                                    (if complete then None else Some next_scan));
                        if negb applied then mret None
                        else if complete then
                          mret (Some (match best with Some t => Found t | None => Empty end))
                        else discover_pages pages' index payout_id source_id last_processed fee_
                               lease next_scan (oldest_tx_id resp)
                    end
                end
          end
  end.

Definition discover_oldest_unprocessed_funding_tranche_with_lease (index : Principal)
    (payout_id source_id : list Z) (last_processed : option Z) (fee_ : Z) (lease : MainLeaseToken)
    : async (option FundingDiscovery) :=
  current ← with_state (fun h => is_current_in lease (st h));
  if negb current then mret None
  else
    scan ← with_state_mut (begin_funding_scan lease last_processed);
    match scan with
    | None => mret None
    | Some scan => discover_pages MAX_FUNDING_SCAN_PAGES_PER_TICK index payout_id source_id
                     last_processed fee_ lease scan None
    end.

End funding.

(** ** The payout driver *)

Section payout.
Context `{A : AccountSpec} `{H : HashSpec} `{T : TextSpec} {EH : EventHorizon}.
Context (self_id relay_id : Principal).
Local Abbreviation async := (async Heap SuiteCall).

Definition payout_account (h : Heap) : Account := MkAccount _ self_id (payout_subaccount (config (st h))).

(** How a step of the driver ends: the driver returns, or loops with the
    pages scanned so far. *)
Inductive Flow := Finish (b : bool) | Loop (pages_scanned : Z).

Definition latch_skip_range_invariant_rescue : async unit :=
  modify (fun h => h <| st ::= latch_skip_range_invariant_fault |>).

(** *** The denominator pass *)

Record DenomScan := MkDenomScan {
  ds_candidate : LocalSkipCandidate;
  ds_ranges : list SkipRange;
  ds_delta : Z;
}.

(** [CacheFault]: the lookup failed; [Overflow]: the denominator overflows;
    [Panicked]: [finish_span]'s [expect]. *)
Inductive DenomOutcome := Scanned (d : DenomScan) | CacheFault | Overflow | Panicked.

Definition complete_span (d : DenomScan) : DenomOutcome :=
  match record_completed_skip_range (ds_candidate d) (ds_ranges d) with
  | Some (c, ranges) => Scanned (MkDenomScan c ranges (ds_delta d))
  | None => Panicked
  end.

Definition denom_tx (job : ActivePayoutJob) (staking_id : list Z) (min_tx delay now_nanos : Z)
    (ranges : list SkipRange) (tx : IndexTransactionWithId) (d : DenomScan) : DenomOutcome :=
  if is_some_and (round_end_latest_tx_id job) (fun e => e <? tx_id tx) then complete_span d
  else
    match skip_range_containing (tx_id tx) ranges with
    | Err _ => CacheFault
    | Ok (Some _) => complete_span d
    | Ok None =>
        let skippable := Scanned (d <| ds_candidate ::= note_skippable (tx_id tx) |>) in
        match memo_bytes_from_index_tx tx staking_id with
        | None => skippable
        | Some commitment =>
            match classify_commitment min_tx commitment with
            | Valid _ =>
                match complete_span d with
                | Scanned d =>
                    let weighted := default 0 (commitment_amount_for_job_payout_e8s job commitment
                      (tx_id tx) (index_tx_timestamp_nanos tx) now_nanos delay) in
                    match checked_add (ds_delta d) weighted with
                    | Some next => Scanned (d <| ds_delta := next |>)
                    | None => Overflow
                    end
                | other => other
                end
            | _ => skippable
            end
        end
    end.

Fixpoint denom_page (job : ActivePayoutJob) (staking_id : list Z) (min_tx delay now_nanos : Z)
    (ranges : list SkipRange) (txs : list IndexTransactionWithId) (d : DenomScan) : DenomOutcome :=
  match txs with
  | [] => Scanned d
  | tx :: rest =>
      match denom_tx job staking_id min_tx delay now_nanos ranges tx d with
      | Scanned d => denom_page job staking_id min_tx delay now_nanos ranges rest d
      | other => other
      end
  end.

Definition denom_current (lease : MainLeaseToken) (job : ActivePayoutJob) (h : Heap) : bool :=
  is_current_in lease (st h)
  && is_some_and (active_payout_job (st h)) (fun active =>
       (job_id active =? job_id job) && bool_decide (next_start active = next_start job)
       && bool_decide (effective_denom_scan_complete_flag active = Some false)).

Definition denom_commit (resp : IndexPage) (denominator : Z) (c : LocalSkipCandidate)
    (complete : bool) (active : ActivePayoutJob) : ActivePayoutJob :=
  let active := (set_candidate c active)
    <| effective_denom_staking_balance_e8s := Some denominator |>
    <| observed_oldest_tx_id := oldest_tx_id resp |> in
  let active := match head (transactions resp) with
                | Some tx => active <| observed_latest_tx_id :=
                    Some (Z.max (default (tx_id tx) (observed_latest_tx_id active)) (tx_id tx)) |>
                | None => active
                end in
  if complete then
    (set_candidate LocalSkipCandidate_default active)
      <| effective_denom_scan_complete_flag := Some true |> <| next_start := None |>
  else
    match option_map tx_id (last (transactions resp)) with
    | Some n => active <| next_start := Some n |>
    | None => active
    end.

(** The page once it is read, validated and owned. *)
Definition denom_apply (job : ActivePayoutJob) (staking_id : list Z) (now_nanos pages : Z)
    (lease : MainLeaseToken) (resp : IndexPage) (complete : bool) : async Flow :=
  min_tx ← with_state (fun h => min_tx_e8s (config (st h)));
  delay ← with_state recognition_delay_seconds;
  ranges ← with_state skip_ranges;
  match denom_page job staking_id min_tx delay now_nanos ranges (transactions resp)
          (MkDenomScan (from_job job) [] 0) with
  | CacheFault => latch_skip_range_invariant_rescue ;; mret (Finish true)
  | Overflow => mret (Finish false)
  | Panicked => trap
  | Scanned d =>
      match checked_add (default 0 (effective_denom_staking_balance_e8s job)) (ds_delta d) with
      | None => mret (Finish false)
      | Some denominator =>
          match (if complete then complete_span d else Scanned d) with
          | Scanned d =>
              persisted ← with_state_mut (fun h =>
                let r := persist_new_skip_ranges (ds_ranges d) (skip_ranges h) in
                (r.1, h <| skip_ranges := r.2 |>));
              match persisted with
              | Err _ => latch_skip_range_invariant_rescue ;; mret (Finish true)
              | Ok _ =>
                  modify (fun h =>
                    if denom_current lease job h
                    then upd_job (denom_commit resp denominator (ds_candidate d) complete) h else h) ;;
                  if negb complete && (MAX_INDEX_PAGES_PER_PAYOUT_TICK <=? pages)
                  then mret (Finish true) else mret (Loop pages)
              end
          | _ => trap
          end
      end
  end.

Definition denom_stage (job : ActivePayoutJob) (index : Principal) (staking_id : list Z)
    (now_nanos now_secs pages : Z) (lease : MainLeaseToken) : async Flow :=
  r ← get_account_identifier_transactions index staking_id (next_start job) PAGE_SIZE;
  match r with
  | Err _ => mret (Finish false)
  | Ok resp =>
      current ← with_state (denom_current lease job);
      if negb current then mret (Finish true)
      else
        expected_oldest ← with_state (fun h => expected_first_staking_tx_id (config (st h)));
        if is_some_and expected_oldest (fun id => negb (bool_decide (oldest_tx_id resp = Some id)))
        then
          modify (fun h => if denom_current lease job h
                           then apply_anchor_observation (oldest_tx_id resp) now_secs h else h) ;;
          mret (Finish true)
        else
          match validate_history_page resp (next_start job)
                  (match observed_oldest_tx_id job with Some o => Some o | None => expected_oldest end) with
          | None => mret (Finish false)
          | Some complete =>
              denom_apply job staking_id now_nanos (sat_add pages 1) lease resp complete
          end
  end.

(** *** The payout pass *)

(** The local progress of one page. *)
Record PageScan := MkPageScan {
  ps_under : Z;
  ps_bad : Z;
  ps_next : option Z;
  ps_persisted : option Z;
}.
Inductive PageFlow := PageReturn | PageNext (s : PageScan).

(** The transfer for a payout target; a neuron stake needs the neuron's
    subaccount first. *)
Inductive Resolution := Pay (p : PendingNotification) | SkipTarget | Abandon.

Definition neuron_staking_subaccount_retry_once (governance : Principal) (n : Z)
    : async (result (list Z) ClientError) :=
  r ← neuron_staking_subaccount governance n;
  match r with
  | Ok sub => mret (Ok sub)
  | Err _ => neuron_staking_subaccount governance n
  end.

Definition pending_for (k : TransferKind) (b : Principal) (gross fee_ id : Z)
    (memo sub : option (list Z)) (n : option Z) : PendingNotification := {|
  kind := k; beneficiary := b; gross_share_e8s := gross; amount_e8s := sat_sub gross fee_;
  block_index := 0; pn_next_start := Some id; transfer_memo := memo;
  destination_subaccount := sub; neuron_id := n |}.

Definition at_cursor (lease : MainLeaseToken) (id : Z) (cursor : option Z) (h : Heap) : bool :=
  is_current_in lease (st h)
  && is_some_and (active_payout_job (st h)) (fun j =>
       (job_id j =? id) && bool_decide (next_start j = cursor)).

Definition scanning_at_cursor (lease : MainLeaseToken) (id : Z) (cursor : option Z) (h : Heap) : bool :=
  is_current_in lease (st h)
  && is_some_and (active_payout_job (st h)) (fun j =>
       (job_id j =? id) && bool_decide (next_start j = cursor) && negb (scan_complete j)).

Definition note_failed_target (lease : MainLeaseToken) (id : Z) (h : Heap) : Heap :=
  if owns_job lease id h
  then upd_job (fun j => j <| failed_topups := sat_add (failed_topups j) 1 |>) h else h.

Definition resolve_target (cfg : Config) (governance : Principal) (lease : MainLeaseToken)
    (id : Z) (s : PageScan) (gross fee_ tx : Z) (target : PayoutTarget) : async Resolution :=
  match target with
  | CyclesTopUpTarget c => mret (Pay (pending_for Beneficiary c gross fee_ tx None None None))
  | RawIcpTarget c sub memo => mret (Pay (pending_for RawIcp c gross fee_ tx (Some memo) sub None))
  | NeuronStakeTarget n memo =>
      r ← neuron_staking_subaccount_retry_once governance n;
      current ← with_state (scanning_at_cursor lease id (ps_persisted s));
      if negb current then mret Abandon
      else
        match r with
        | Err _ => modify (note_failed_target lease id) ;; mret SkipTarget
        | Ok sub =>
            owned ← with_state (owns_job lease id);
            if negb owned then mret Abandon
            else
              match governance_canister_id cfg with
              | None => trap
              | Some g => mret (Pay (pending_for NeuronStake g gross fee_ tx memo (Some sub) (Some n)))
              end
        end
  end.

(** Pay one commitment: persist the cursor, then send. *)
Definition pay_commitment (cfg : Config) (ledger governance : Principal) (lease : MainLeaseToken)
    (id now_nanos now_secs fee_ : Z) (s : PageScan) (p : PendingNotification) : async PageFlow :=
  modify (flush_scan_progress (ps_under s) (ps_bad s) (ps_next s) LocalSkipCandidate_default
            lease id (ps_persisted s)) ;;
  let s := MkPageScan 0 0 (ps_next s)
             (match ps_next s with Some n => Some n | None => ps_persisted s end) in
  current ← with_state (at_cursor lease id (ps_next s));
  if negb current then mret PageReturn
  else
    sent ← send_and_notify ledger (cmc_canister_id cfg) governance p fee_ now_nanos now_secs;
    if negb sent then mret PageReturn
    else
      current ← with_state (scanning_at_cursor lease id (ps_persisted s));
      if negb current then mret PageReturn else mret (PageNext s).

Definition pay_valid (cfg : Config) (ledger governance : Principal) (lease : MainLeaseToken)
    (id now_nanos now_secs : Z) (tx : IndexTransactionWithId) (s : PageScan)
    (j : ActivePayoutJob) (commitment : Commitment) (target : PayoutTarget) : async PageFlow :=
  delay ← with_state recognition_delay_seconds;
  let amount := default 0 (commitment_amount_for_job_payout_e8s j commitment (tx_id tx)
                             (index_tx_timestamp_nanos tx) now_nanos delay) in
  let gross := compute_raw_share_e8s amount (pot_start_e8s j) (effective_denom_e8s j) in
  if gross <=? fee_e8s j then mret (PageNext s)
  else if pot_start_e8s j <? sat_add (gross_outflow_e8s j) gross
  then latch AccountingInvariantBroken ;; mret PageReturn
  else
    r ← resolve_target cfg governance lease id s gross (fee_e8s j) (tx_id tx) target;
    match r with
    | Abandon => mret PageReturn
    | SkipTarget => mret (PageNext s)
    | Pay p => pay_commitment cfg ledger governance lease id now_nanos now_secs (fee_e8s j) s p
    end.

Definition payout_tx (cfg : Config) (ledger governance : Principal) (lease : MainLeaseToken)
    (job : ActivePayoutJob) (staking_id : list Z) (now_nanos now_secs : Z)
    (tx : IndexTransactionWithId) (s : PageScan) : async PageFlow :=
  let s := s <| ps_next := Some (tx_id tx) |> in
  if is_some_and (round_end_latest_tx_id job) (fun e => e <? tx_id tx) then mret (PageNext s)
  else
    lookup ← with_state (fun h => skip_range_containing (tx_id tx) (skip_ranges h));
    match lookup with
    | Err _ => latch_skip_range_invariant_rescue ;; mret PageReturn
    | Ok (Some _) => mret (PageNext s)
    | Ok None =>
        match memo_bytes_from_index_tx tx staking_id with
        | None => mret (PageNext s)
        | Some commitment =>
            snapshot ← with_state (fun h => (active_payout_job (st h), min_tx_e8s (config (st h))));
            match snapshot.1 with
            | None => trap
            | Some j =>
                match classify_commitment snapshot.2 commitment with
                | IgnoreUnderThreshold => mret (PageNext (s <| ps_under ::= fun n => sat_add n 1 |>))
                | IgnoreBadMemo => mret (PageNext (s <| ps_bad ::= fun n => sat_add n 1 |>))
                | Valid target => pay_valid cfg ledger governance lease (job_id job) now_nanos
                                    now_secs tx s j commitment target
                end
            end
        end
    end.

Fixpoint payout_txs (cfg : Config) (ledger governance : Principal) (lease : MainLeaseToken)
    (job : ActivePayoutJob) (staking_id : list Z) (now_nanos now_secs : Z)
    (txs : list IndexTransactionWithId) (s : PageScan) : async PageFlow :=
  match txs with
  | [] => mret (PageNext s)
  | tx :: rest =>
      r ← payout_tx cfg ledger governance lease job staking_id now_nanos now_secs tx s;
      match r with
      | PageReturn => mret PageReturn
      | PageNext s => payout_txs cfg ledger governance lease job staking_id now_nanos now_secs rest s
      end
  end.

Definition finish_page (lease : MainLeaseToken) (id : Z) (s : PageScan) (complete : bool)
    (last_id : option Z) (h : Heap) : Heap :=
  if at_cursor lease id (ps_persisted s) h then
    upd_job (fun active =>
      let active := active
        <| ignored_under_threshold := sat_add (ignored_under_threshold active) (ps_under s) |>
        <| ignored_bad_memo := sat_add (ignored_bad_memo active) (ps_bad s) |> in
      let active := match ps_next s with
                    | Some n => active <| next_start := Some n |> | None => active end in
      let active := set_candidate LocalSkipCandidate_default active in
      if complete then active <| scan_complete := true |>
      else active <| next_start := last_id |>) h
  else h.

Definition payout_page_current (lease : MainLeaseToken) (job : ActivePayoutJob) (h : Heap) : bool :=
  is_current_in lease (st h)
  && is_some_and (active_payout_job (st h)) (fun active =>
       (job_id active =? job_id job) && bool_decide (next_start active = next_start job)
       && negb (scan_complete active) && effective_denom_scan_complete active).

Definition payout_stage (cfg : Config) (job : ActivePayoutJob) (ledger index governance : Principal)
    (staking_id : list Z) (now_nanos now_secs pages : Z) (lease : MainLeaseToken) : async Flow :=
  r ← get_account_identifier_transactions index staking_id (next_start job) PAGE_SIZE;
  match r with
  | Err _ => mret (Finish false)
  | Ok resp =>
      current ← with_state (payout_page_current lease job);
      if negb current then mret (Finish true)
      else
        let pages := sat_add pages 1 in
        expected_oldest ← with_state (fun h => expected_first_staking_tx_id (config (st h)));
        match validate_history_page resp (next_start job)
                (match observed_oldest_tx_id job with Some o => Some o | None => expected_oldest end) with
        | None =>
            modify (fun h => if scanning_at_cursor lease (job_id job) (next_start job) h
                             then record_latest_invariant_failure now_secs h else h) ;;
            mret (Finish false)
        | Some complete =>
            let last_id := match option_map tx_id (last (transactions resp)) with
                           | Some i => Some i | None => next_start job end in
            modify (note_index_page_with_lease resp lease (job_id job) (next_start job)) ;;
            flow ← payout_txs cfg ledger governance lease job staking_id now_nanos now_secs
                     (transactions resp) (MkPageScan 0 0 (next_start job) (next_start job));
            match flow with
            | PageReturn => mret (Finish true)
            | PageNext s =>
                modify (finish_page lease (job_id job) s complete last_id) ;;
                owned ← with_state (owns_job lease (job_id job));
                if negb owned then mret (Finish true)
                else if negb complete && (MAX_INDEX_PAGES_PER_PAYOUT_TICK <=? pages)
                then mret (Finish true) else mret (Loop pages)
            end
        end
  end.

(** *** The remainder and the end of a job *)

Definition remainder_pending (job : ActivePayoutJob) (gross amount_ : Z) : PendingNotification := {|
  kind := RemainderToRelay; beneficiary := relay_id; gross_share_e8s := gross;
  amount_e8s := amount_; block_index := 0; pn_next_start := None; transfer_memo := Some [];
  destination_subaccount := None; neuron_id := None |}.

Definition finish_stage (cfg : Config) (job : ActivePayoutJob) (ledger index governance : Principal)
    (staking_id : list Z) (now_nanos now_secs : Z) (lease : MainLeaseToken) : async Flow :=
  match checked_sub (pot_start_e8s job) (gross_outflow_e8s job) with
  | None => trap
  | Some remainder =>
      sent ← (if (fee_e8s job <? remainder) && (remainder_to_relay_e8s job =? 0) then
                match checked_sub remainder (fee_e8s job) with
                | None => trap
                | Some amount_ =>
                    send_and_notify ledger (cmc_canister_id cfg) governance
                      (remainder_pending job remainder amount_) (fee_e8s job) now_nanos now_secs
                end
              else mret true);
      if negb (sent : bool) then mret (Finish true)
      else
        finalized ← finalize_completed_job lease (job_id job) now_secs;
        if negb finalized then mret (Finish true)
        else
          balance ← balance_of_e8s ledger (staking_account cfg);
          match balance with
          | Ok balance =>
              current ← with_state (fun h => is_current_in lease (st h));
              if negb current then mret (Finish true)
              else
                refresh_index_latest_health_after_payout_with_lease index staking_id balance lease
                  now_secs ;;
                under_lease lease (maybe_latch_bootstrap_rescue now_secs) ;; mret (Finish true)
          | Err _ => under_lease lease (maybe_latch_bootstrap_rescue now_secs) ;; mret (Finish true)
          end
  end.

(** *** Starting a job *)

Definition same_round (lease : MainLeaseToken) (last_processed : option Z) (nonce : Z) (h : Heap)
    : bool :=
  is_current_in lease (st h)
  && bool_decide (last_processed_funding_tx_id (st h) = last_processed)
  && (payout_nonce (st h) =? nonce) && is_none (active_payout_job (st h)).

Definition probe_and_return (index : Principal) (staking_id : list Z) (denom : Z)
    (lease : MainLeaseToken) (now_secs : Z) : async Flow :=
  probe_index_health_with_lease index staking_id denom lease now_secs ;;
  under_lease lease (maybe_latch_bootstrap_rescue now_secs) ;; mret (Finish true).

(** The balance covers the tranche, after a second reading if need be; the
    inner [Finish] is the early return. *)
Definition check_balance (ledger : Principal) (lease : MainLeaseToken) (last_processed : option Z)
    (nonce balance : Z) (tranche : FundingTrancheState) : async (option Flow) :=
  if balance <? tranche_amount_e8s tranche then
    account ← with_state payout_account;
    current_balance ← balance_of_e8s ledger account;
    same ← with_state (same_round lease last_processed nonce);
    if negb same then mret (Some (Finish true))
    else
      match current_balance with
      | Err _ => mret (Some (Finish false))
      | Ok current_balance =>
          if current_balance <? tranche_amount_e8s tranche
          then latch FundingTrancheBalanceMismatch ;; mret (Some (Finish true))
          else mret None
      end
  else mret None.

Definition start_from_tranche (ledger : Principal) (lease : MainLeaseToken)
    (last_processed : option Z) (nonce balance fee_ denom now_nanos : Z)
    (tranche : FundingTrancheState) : async Flow :=
  early ← check_balance ledger lease last_processed nonce balance tranche;
  match early with
  | Some flow => mret flow
  | None =>
      same ← with_state (same_round lease last_processed nonce);
      if negb same then mret (Finish true)
      else
        modify (ensure_active_job_with_boundary now_nanos fee_ (tranche_amount_e8s tranche) denom
                  (tranche_timestamp_nanos tranche) (Some (tranche_tx_id tranche)) (Some tranche)) ;;
        mret (Loop 0)
  end.

Definition start_job (cfg : Config) (ledger index : Principal) (staking_id : list Z)
    (now_nanos now_secs : Z) (lease : MainLeaseToken) : async Flow :=
  fee_ ← Clients.fee_e8s ledger;
  match fee_ with
  | Err _ => mret (Finish false)
  | Ok fee_ =>
      current ← with_state (fun h => is_current_in lease (st h));
      if negb current then mret (Finish true)
      else
        account ← with_state payout_account;
        balance ← balance_of_e8s ledger account;
        match balance with
        | Err _ => mret (Finish false)
        | Ok balance =>
            current ← with_state (fun h => is_current_in lease (st h));
            if negb current then mret (Finish true)
            else
              denom ← balance_of_e8s ledger (staking_account cfg);
              match denom with
              | Err _ => mret (Finish false)
              | Ok denom =>
                  current ← with_state (fun h => is_current_in lease (st h));
                  if negb current then mret (Finish true)
                  else if (balance <=? fee_) || (denom =? 0)
                  then probe_and_return index staking_id denom lease now_secs
                  else
                    payout ← with_state payout_account;
                    round ← with_state (fun h => (last_processed_funding_tx_id (st h),
                                                  payout_nonce (st h)));
                    found ← discover_oldest_unprocessed_funding_tranche_with_lease index
                      (account_identifier_text_for_account payout)
                      (account_identifier_text_for_account (funding_source_account cfg))
                      round.1 fee_ lease;
                    match found with
                    | None => mret (Finish true)
                    | Some (Found tranche) =>
                        start_from_tranche ledger lease round.1 round.2 balance fee_ denom
                          now_nanos tranche
                    | Some InProgress | Some Empty =>
                        probe_and_return index staking_id denom lease now_secs
                    | Some (UnreadableFunding IndexReadFailed) => mret (Finish false)
                    | Some (UnreadableFunding QualifyingFundingTransferMissingTimestamp) =>
                        latch FundingDiscoveryUnreadable ;; mret (Finish true)
                    end
              end
        end
  end.

(** *** The driver loop *)

(** The stages for a job without a pending transfer. *)
Definition job_step (cfg : Config) (job : ActivePayoutJob) (ledger index governance : Principal)
    (staking_id : list Z) (now_nanos now_secs pages : Z) (lease : MainLeaseToken) : async Flow :=
  let stages :=
    if negb (effective_denom_scan_complete job)
    then denom_stage job index staking_id now_nanos now_secs pages lease
    else if scan_complete job
    then finish_stage cfg job ledger index governance staking_id now_nanos now_secs lease
    else payout_stage cfg job ledger index governance staking_id now_nanos now_secs pages lease in
  if scan_complete job then stages
  else if MAX_INDEX_PAGES_PER_PAYOUT_TICK <=? pages then mret (Finish true)
  else
    jumped ← with_state (skip_cached_history job lease);
    match jumped with
    | None => trap
    | Some (r, h') =>
        modify (fun _ => h') ;;
        match r with
        | Ok true => mret (Loop (pages + 1))
        | Ok false => stages
        | Err _ => latch_skip_range_invariant_rescue ;; mret (Finish true)
        end
    end.

Definition driver_step (cfg : Config) (ledger index governance : Principal) (staking_id : list Z)
    (now_nanos now_secs pages : Z) (lease : MainLeaseToken) : async Flow :=
  current ← with_state (fun h => is_current_in lease (st h));
  if negb current then mret (Finish true)
  else
    job ← with_state (fun h => active_payout_job (st h));
    match job with
    | None => modify (maybe_latch_bootstrap_rescue now_secs) ;; mret (Finish true)
    | Some job =>
        if is_none (pending_transfer job)
        then job_step cfg job ledger index governance staking_id now_nanos now_secs pages lease
        else
          driven ← drive_pending_transfer ledger (cmc_canister_id cfg) governance (fee_e8s job)
                     now_nanos now_secs;
          if negb driven then mret (Finish true) else mret (Loop pages)
    end.

Fixpoint driver_loop (fuel : nat) (cfg : Config) (ledger index governance : Principal)
    (staking_id : list Z) (now_nanos now_secs pages : Z) (lease : MainLeaseToken) : async bool :=
  match fuel with
  | O => out_of_fuel
  | S fuel' =>
      flow ← driver_step cfg ledger index governance staking_id now_nanos now_secs pages lease;
      match flow with
      | Finish b => mret b
      | Loop pages => driver_loop fuel' cfg ledger index governance staking_id now_nanos now_secs
                        pages lease
      end
  end.

(** One round for a transfer left pending, one per page or jump, one to end. *)
Definition payout_fuel : nat := 66.

Definition process_payout_with_lease (ledger index governance : Principal)
    (now_nanos now_secs : Z) (lease : MainLeaseToken) : async bool :=
  current ← with_state (fun h => is_current_in lease (st h));
  if negb current then mret true
  else
    cfg ← with_state (fun h => config (st h));
    let staking_id := account_identifier_text_for_account (staking_account cfg) in
    idle ← with_state (fun h => is_none (active_payout_job (st h)));
    flow ← (if (idle : bool) then start_job cfg ledger index staking_id now_nanos now_secs lease
            else mret (Loop 0));
    match flow with
    | Finish b => mret b
    | Loop pages => driver_loop payout_fuel cfg ledger index governance staking_id now_nanos
                      now_secs pages lease
    end.

End payout.

(** ** The invariant of the faucet *)

Section invariant.
Context `{A : AccountSpec} `{H : HashSpec} `{T : TextSpec}.

(** The scan state of a job: a counted span ends at or above the cursor, and
    the payout pass starts after the denominator pass. *)
Definition scan_ok (j : ActivePayoutJob) : Prop :=
  0 <= fee_e8s j /\ candidate_ok (from_job j) /\
  (0 < skip_candidate_tx_count j ->
     exists c i, next_start j = Some c /\ skip_candidate_end_tx_id j = Some i /\ c <= i) /\
  (scan_complete j = true -> effective_denom_scan_complete j = true).

(** A funding transfer after the processed ones. *)
Definition unprocessed (last_processed : option Z) (id : Z) : Prop :=
  forall l, last_processed = Some l -> l < id.
Definition tranche_ok (last_processed : option Z) (t : FundingTrancheState) : Prop :=
  u64 (tranche_amount_e8s t) /\ unprocessed last_processed (tranche_tx_id t).

Record faucet_inv (h : Heap) : Prop := {
  fi_job : job_inv h;
  fi_ranges : ranges_ok (skip_ranges h);
  fi_scan : forall j, active_payout_job (st h) = Some j -> scan_ok j;
  fi_governance : governance_canister_id (config (st h)) <> None;
  fi_funding : forall s t, active_funding_scan (st h) = Some s -> candidate s = Some t ->
    tranche_ok (anchor_last_processed_funding_tx_id s) t;
  fi_unprocessed : forall j i, active_payout_job (st h) = Some j -> funding_tx_id j = Some i ->
    unprocessed (last_processed_funding_tx_id (st h)) i;
  fi_marker : main_run_marker h <= 2 ^ 63;
}.

Lemma scan_ok_frame j j' : job_scan j' = job_scan j -> scan_ok j -> scan_ok j'.
Proof.
  unfold job_scan. intros E. injection E as E1 E2 E3 E4 E5 E6 E7 E8 E9 E10 E11 E12 E13.
  unfold scan_ok, candidate_ok, from_job, effective_denom_scan_complete. cbn.
  by rewrite E2, E3, E4, E5, E6, E7, E11.
Qed.

Lemma faucet_inv_step h h' : faucet_inv h -> stepped h h' -> faucet_inv h'.
Proof.
  intros [H1 H2 H3 H4 H5 H6 H7] [Hj (Hc & Hr & _ & Hf & Hp & Hm & Hs)].
  constructor; [done|by rewrite Hr| |by rewrite Hc|by rewrite Hf| |by rewrite Hm].
  - intros j' Hj'. rewrite Hj' in Hs. destruct (active_payout_job (st h)) as [j|]; [|done].
    injection Hs as Hs. eapply scan_ok_frame; [|by apply H3]. unfold job_scan. congruence.
  - intros j' i Hj' Hi. rewrite Hp. rewrite Hj' in Hs.
    destruct (active_payout_job (st h)) as [j|]; [|done].
    injection Hs as Hs. apply (H6 j); [done|congruence].
Qed.

(** A change of the job alone. *)
Lemma faucet_inv_upd f h :
  faucet_inv h ->
  (forall j, active_payout_job (st h) = Some j -> job_ok j -> scan_ok j -> job_ok (f j) /\ scan_ok (f j)) ->
  (forall j, funding_tx_id (f j) = funding_tx_id j) ->
  faucet_inv (upd_job f h).
Proof.
  intros [H1 H2 H3 H4 H5 H6 H7] Hf Hid. constructor; [|done| |done|done| |done].
  - apply job_inv_upd; [done|]. intros j Hj Hok. apply Hf; auto.
  - intros j'. cbn. destruct (active_payout_job (st h)) as [j|] eqn:Hj; [|done]. cbn.
    intros [= <-]. apply Hf; auto. unfold job_inv in H1. by rewrite Hj in H1.
  - intros j' i. cbn. destruct (active_payout_job (st h)) as [j|] eqn:Hj; [|done]. cbn.
    intros [= <-]. rewrite Hid. by apply H6.
Qed.


Lemma latch_after_two_frame n r s :
  active_payout_job (latch_after_two n r s) = active_payout_job s /\
  config (latch_after_two n r s) = config s /\
  main_lock_state_ts (latch_after_two n r s) = main_lock_state_ts s /\
  active_funding_scan (latch_after_two n r s) = active_funding_scan s /\
  last_processed_funding_tx_id (latch_after_two n r s) = last_processed_funding_tx_id s.
Proof. unfold latch_after_two. by destruct (_ && _). Qed.

(** Health bookkeeping: the job, the ranges, the configuration and the lease
    stay as they are. *)
Definition bookkeeping (h h' : Heap) : Prop :=
  active_payout_job (st h') = active_payout_job (st h) /\ skip_ranges h' = skip_ranges h /\
  config (st h') = config (st h) /\ main_lock_state_ts (st h') = main_lock_state_ts (st h) /\
  active_funding_scan (st h') = active_funding_scan (st h) /\
  last_processed_funding_tx_id (st h') = last_processed_funding_tx_id (st h) /\
  main_run_marker h' = main_run_marker h.

Lemma bookkeeping_anchor o t h : bookkeeping h (apply_anchor_observation o t h).
Proof.
  unfold bookkeeping, apply_anchor_observation. destruct (expected_first_staking_tx_id _); [|done].
  destruct (bool_decide _); [done|]. destruct (count_sustained_failure _ _ _ _) as [[] c]; [|done].
  cbn. match goal with |- context [latch_after_two ?n ?r ?s] =>
    destruct (latch_after_two_frame n r s) as (-> & -> & -> & -> & ->) end. done.
Qed.

Lemma bookkeeping_invariant_failure t h : bookkeeping h (record_latest_invariant_failure t h).
Proof.
  unfold bookkeeping, record_latest_invariant_failure, count_latest_failure.
  destruct (count_sustained_failure _ _ _ _) as [[] c]; [|done].
  cbn. match goal with |- context [latch_after_two ?n ?r ?s] =>
    destruct (latch_after_two_frame n r s) as (-> & -> & -> & -> & ->) end. done.
Qed.

Lemma bookkeeping_unreadable_failure t h : bookkeeping h (record_latest_unreadable_failure t h).
Proof.
  unfold bookkeeping, record_latest_unreadable_failure, count_latest_failure.
  destruct (count_sustained_failure _ _ _ _) as [[] c]; [|done].
  cbn. match goal with |- context [latch_after_two ?n ?r ?s] =>
    destruct (latch_after_two_frame n r s) as (-> & -> & -> & -> & ->) end. done.
Qed.

Lemma bookkeeping_latest l t h : bookkeeping h (apply_latest_observation l t h).
Proof.
  unfold apply_latest_observation.
  destruct l as [balance latest| |];
    [|apply bookkeeping_unreadable_failure|apply bookkeeping_invariant_failure].
  destruct (_ && _); [done|]. destruct (_ && _); [apply bookkeeping_invariant_failure|done].
Qed.

Lemma bookkeeping_bootstrap t h : bookkeeping h (maybe_latch_bootstrap_rescue t h).
Proof. unfold bookkeeping, maybe_latch_bootstrap_rescue. by destruct (_ && _). Qed.

Lemma bookkeeping_inv h h' : bookkeeping h h' -> faucet_inv h -> faucet_inv h'.
Proof.
  intros (Hj & Hr & Hc & _ & Hf & Hp & Hm) [H1 H2 H3 H4 H5 H6 H7]. constructor.
  - unfold job_inv in *. by rewrite Hj.
  - by rewrite Hr.
  - rewrite Hj. exact H3.
  - by rewrite Hc.
  - by rewrite Hf.
  - rewrite Hj, Hp. exact H6.
  - by rewrite Hm.
Qed.

Lemma apply_cmc_frame attempts successes counts s :
  let s' := apply_cmc_run_result attempts successes counts s in
  active_payout_job s' = active_payout_job s /\ config s' = config s /\
  active_funding_scan s' = active_funding_scan s.
Proof.
  cbv zeta. unfold apply_cmc_run_result. destruct (_ =? 0); [done|]. destruct (0 <? _); [done|].
  destruct (negb counts); [done|]. cbv zeta.
  match goal with |- context [latch_after_two ?n ?r ?s] =>
    destruct (latch_after_two_frame n r s) as (-> & -> & _ & -> & _) end. done.
Qed.

Lemma finalize_state_frame job counts now_secs h :
  let h' := finalize_state job counts now_secs h in
  active_payout_job (st h') = None /\ skip_ranges h' = skip_ranges h /\
  config (st h') = config (st h) /\ active_funding_scan (st h') = active_funding_scan (st h) /\
  main_run_marker h' = main_run_marker h.
Proof.
  cbv zeta. unfold finalize_state, apply_job_health_observations.
  set (h0 := h <| st ::= _ |>).
  destruct (bookkeeping_anchor (observed_oldest_tx_id job) now_secs h0) as (Bj & Br & Bc & _ & Bf & _ & Bm).
  set (h1 := apply_anchor_observation _ _ h0) in *.
  destruct (apply_cmc_frame (default 0 (cmc_attempt_count job)) (default 0 (cmc_success_count job))
    counts (st h1)) as (C1 & C2 & C3).
  cbn. destruct (round_end_time_nanos job), (funding_tx_id job); cbn;
    rewrite C1, C2, C3, Bj, Br, Bc, Bf, Bm; done.
Qed.

End invariant.

(** ** Running the payout *)

Section rules.
Context `{A : AccountSpec} `{H : HashSpec} `{T : TextSpec}.
Context (e : env Heap SuiteCall) (ledger cmc_id governance : Principal) (now_nanos now_secs : Z).

(** Calls that move no funds. *)
Definition read_event (ev : event Heap SuiteCall) : Prop :=
  (exists l h, ev = Dispatch (IcrcFee l) h) \/
  (exists l a h, ev = Dispatch (IcrcBalanceOf l a) h) \/
  (exists i a s n h, ev = Dispatch (GetTransactions i a s n) h) \/
  (exists g n h, ev = Dispatch (ListNeurons g n) h) \/
  (exists c h, ev = Dispatch (CanisterInfo c) h).

(** Every other call of the payout is a transfer event of the staged job. *)
Definition payout_event (ev : event Heap SuiteCall) : Prop :=
  read_event ev \/
  exists fee_, 0 <= fee_ /\ transfer_event ledger cmc_id governance fee_ now_nanos ev.

Context (I : Heap -> Prop).
Hypothesis I_inv : forall h, I h -> faucet_inv h.
Hypothesis I_stepped : forall h h', I h -> stepped h h' -> I h'.
Hypothesis I_book : forall h h', I h -> bookkeeping h h' -> I h'.
Hypothesis I_rely : forall n h, I h -> I (env_interleave e n h).

Definition commits (w : world Heap SuiteCall) : Prop :=
  Forall (fun ev => match ev with Dispatch _ s => faucet_inv s end) (w_trace w).

Definition fine (w0 w : world Heap SuiteCall) : Prop :=
  I (w_state w) /\ commits w /\ traced payout_event (w_trace w0) w.

Lemma wp_modify_fine w0 (f : Heap -> Heap) (Q : unit -> world Heap SuiteCall -> Prop) w :
  I (f (w_state w)) -> fine w0 w ->
  (fine w0 (World (f (w_state w)) (w_trace w)) -> Q tt (World (f (w_state w)) (w_trace w))) ->
  wp e (modify f) Q w.
Proof. intros Hf (H1 & H2 & H3) HQ. wp_step. apply HQ. by split. Qed.

Lemma wp_book w0 (f : Heap -> Heap) (Q : unit -> world Heap SuiteCall -> Prop) w :
  (forall h, bookkeeping h (f h)) -> fine w0 w ->
  (fine w0 (World (f (w_state w)) (w_trace w)) -> Q tt (World (f (w_state w)) (w_trace w))) ->
  wp e (modify f) Q w.
Proof. intros Hf Hw. apply wp_modify_fine; [|done]. eapply I_book; [apply Hw|apply Hf]. Qed.

Lemma fine_read w0 w {X} (c : SuiteCall X) :
  read_event (Dispatch c (w_state w)) -> fine w0 w -> fine w0 (after_call e c w).
Proof.
  intros Hev (H1 & H2 & (l & El & Hl)). split; [by apply I_rely|]. split.
  - constructor; [by apply I_inv|done].
  - exists (Dispatch c (w_state w) :: l). cbn. rewrite El. split; [done|]. constructor; [by left|done].
Qed.

Lemma traced_payout fee_ base w :
  0 <= fee_ -> traced (transfer_event ledger cmc_id governance fee_ now_nanos) base w ->
  traced payout_event base w.
Proof.
  intros Hf (l & El & Hl). exists l. split; [done|]. eapply Forall_impl; [exact Hl|].
  intros ev Hev. right. by exists fee_.
Qed.

Lemma wp_drive w0 fee_ w :
  0 <= fee_ -> fine w0 w ->
  wp e (drive_pending_transfer ledger cmc_id governance fee_ now_nanos now_secs)
    (fun b w' => fine w0 w' /\ (b = true -> cleared w')) w.
Proof.
  intros Hf (H1 & H2 & H3).
  eapply wp_mono; [apply (drive_pending_transfer_spec e ledger cmc_id governance fee_ now_nanos
    now_secs Hf I (fun h Hh => fi_job h (I_inv h Hh)) I_stepped I_rely faucet_inv I_inv); by split|].
  intros b w' [[[Hi Hc] Ht] Hb]. split; [|done]. split; [done|]. split; [done|].
  eapply traced_trans; [exact H3|by eapply traced_payout].
Qed.

Lemma wp_send w0 fee_ p w :
  0 <= fee_ -> fine w0 w -> active_payout_job (st (w_state w)) <> None ->
  0 <= gross_share_e8s p -> (kind p = NeuronStake -> destination_subaccount p <> None) ->
  (forall j i, active_payout_job (st (w_state w)) = Some j -> pn_next_start p = Some i ->
     next_start j = Some i) ->
  wp e (send_and_notify ledger cmc_id governance p fee_ now_nanos now_secs)
    (fun b w' => fine w0 w' /\ (b = true -> cleared w')) w.
Proof.
  intros Hf (H1 & H2 & H3) Hj Hg Hsub Hcur.
  eapply wp_mono; [apply (send_and_notify_spec e ledger cmc_id governance fee_ now_nanos
    now_secs Hf I (fun h Hh => fi_job h (I_inv h Hh)) I_stepped I_rely faucet_inv I_inv);
    [by split|done..]|].
  intros b w' [[[Hi Hc] Ht] Hb]. split; [|done]. split; [done|]. split; [done|].
  eapply traced_trans; [exact H3|by apply (traced_payout fee_)].
Qed.

Lemma bookkeeping_latch r h : bookkeeping h (h <| st ::= latch_forced_rescue_reason r |>).
Proof. unfold bookkeeping, latch_forced_rescue_reason. cbn. by destruct (is_none _). Qed.

Lemma bookkeeping_refl h : bookkeeping h h.
Proof. done. Qed.

Lemma wp_under_lease w0 lease (f : Heap -> Heap) Q w :
  (forall h, bookkeeping h (f h)) -> fine w0 w -> (forall w', fine w0 w' -> Q tt w') ->
  wp e (under_lease lease f) Q w.
Proof.
  intros Hf Hw HQ. unfold under_lease. eapply wp_book; [|exact Hw|auto].
  intros h. cbn. by destruct (is_current_in lease (st h)).
Qed.

Lemma wp_observe w0 index staking_id lease Q w :
  fine w0 w -> (forall w', fine w0 w' -> Q tt w') ->
  wp e (observe_latest index staking_id lease now_secs) Q w.
Proof.
  intros Hw HQ. unfold observe_latest, scan_latest_observation. wp_step. wp_step.
  apply wp_get_transactions. intros r. wp_step.
  eapply wp_under_lease; [intros h; apply bookkeeping_latest| |exact HQ].
  apply fine_read; [|done]. right; right; left. by repeat eexists.
Qed.

Lemma wp_probe w0 index staking_id denom lease Q w :
  fine w0 w -> (forall w', fine w0 w' -> Q tt w') ->
  wp e (probe_index_health_with_lease index staking_id denom lease now_secs) Q w.
Proof.
  intros Hw HQ. unfold probe_index_health_with_lease. wp_step. wp_step. wp_step.
  apply wp_get_transactions. intros r.
  match goal with |- wp _ _ _ ?w => assert (fine w0 w) as Hw1 end.
  { apply fine_read; [|done]. right; right; left. by repeat eexists. }
  destruct r as [page|err].
  - wp_step. wp_step. wp_step; [wp_step; auto|]. wp_step.
    eapply wp_under_lease; [intros h; apply bookkeeping_anchor|exact Hw1|]. intros w2 Hw2.
    wp_step; [wp_step; auto|]. by apply (wp_observe w0).
  - eapply wp_under_lease; [intros h; apply bookkeeping_latest|exact Hw1|exact HQ].
Qed.

Lemma wp_refresh_health w0 index staking_id denom lease Q w :
  fine w0 w -> (forall w', fine w0 w' -> Q tt w') ->
  wp e (refresh_index_latest_health_after_payout_with_lease index staking_id denom lease now_secs) Q w.
Proof.
  intros Hw HQ. unfold refresh_index_latest_health_after_payout_with_lease. wp_step. wp_step.
  wp_step; [wp_step; auto|]. by apply (wp_observe w0).
Qed.

End rules.

Section start.
Context `{A : AccountSpec} `{H : HashSpec} `{T : TextSpec} {EH : EventHorizon}.
Context (e : env Heap SuiteCall) (self_id ledger index governance : Principal)
        (now_nanos now_secs : Z) (cfg : Config) (lease : MainLeaseToken).
Local Abbreviation fine := (fine ledger (cmc_canister_id cfg) governance now_nanos faucet_inv).

(** Ids and amounts of an index page are [u64], fees are naturals. *)
Definition tx_u64 (tx : IndexTransactionWithId) : Prop :=
  u64 (tx_id tx) /\
  match tx_operation (transaction tx) with IndexTransfer _ _ amount _ _ => u64 amount | _ => True end.

Definition well_typed_replies : Prop :=
  (forall n l f, env_reply e n (result Z TransportError) (IcrcFee l) = Ok f -> 0 <= f) /\
  (forall n i a s k page,
     env_reply e n (result (result IndexPage string) TransportError) (GetTransactions i a s k)
       = Ok (Ok page) -> Forall tx_u64 (transactions page)).

Hypothesis typed : well_typed_replies.
Hypothesis rely_inv : forall n h, faucet_inv h -> faucet_inv (env_interleave e n h).

Lemma wp_page acct start k Q w :
  (forall r, (forall page, r = Ok page -> Forall tx_u64 (transactions page)) ->
     Q r (after_call e (GetTransactions index acct start k) w)) ->
  wp e (get_account_identifier_transactions index acct start k) Q w.
Proof.
  intros HQ. unfold get_account_identifier_transactions. wp_step. wp_step. wp_step.
  subst. apply HQ. intros page Hp. destruct typed as [_ Ht].
  destruct (env_reply e _ _ _) as [[p|m]|[d|d]] eqn:E; try done. injection Hp as ->.
  by eapply Ht.
Qed.

Lemma wp_fee Q w :
  (forall r, (forall f, r = Ok f -> 0 <= f) -> Q r (after_call e (IcrcFee ledger) w)) ->
  wp e (Clients.fee_e8s ledger) Q w.
Proof.
  intros HQ. unfold Clients.fee_e8s, ledger_fee. do 3 wp_step. wp_step. wp_step. subst. apply HQ.
  intros f Hf. destruct typed as [Ht _].
  destruct (env_reply e _ _ _) as [n|t] eqn:E; [|done].
  specialize (Ht _ _ _ E). cbn in Hf. unfold nat_to_u64 in Hf.
  destruct (n <=? u64_max); [|done]. by injection Hf as <-.
Qed.

Lemma fine_call w0 w {X} (c : SuiteCall X) :
  read_event (Dispatch c (w_state w)) -> fine w0 w -> fine w0 (after_call e c w).
Proof. apply fine_read; [done|exact rely_inv]. Qed.

Lemma read_page acct start k h : read_event (Dispatch (GetTransactions index acct start k) h).
Proof. right; right; left. by repeat eexists. Qed.
Lemma read_balance a h : read_event (Dispatch (IcrcBalanceOf ledger a) h).
Proof. right; left. by repeat eexists. Qed.
Lemma read_fee h : read_event (Dispatch (IcrcFee ledger) h).
Proof. left. by repeat eexists. Qed.

Lemma fine_state w0 w h : faucet_inv h -> fine w0 w -> fine w0 (World h (w_trace w)).
Proof. intros Hh (_ & H2 & H3). by split. Qed.

Definition candidate_fine (last_processed : option Z) (o : option FundingTrancheState) : Prop :=
  forall t, o = Some t -> tranche_ok last_processed t.

Lemma funding_page_fine payout_id source_id last_processed fee_ txs best r b :
  Forall tx_u64 txs -> candidate_fine last_processed best ->
  funding_page payout_id source_id last_processed fee_ txs best = Some (r, b) ->
  candidate_fine last_processed r.
Proof.
  intros Htxs. revert best. induction Htxs as [|tx rest Htx _ IH]; intros best Hb E.
  { by injection E as <- _. }
  cbn [funding_page] in E. destruct (is_some_and _ _) eqn:Hlast; [by injection E as <- _|].
  destruct Htx as [_ Ha].
  destruct (tx_operation (transaction tx)) as [from to_ amount f sp|to_ a|from a sp|from sp a f x y];
    try by eapply IH.
  destruct (_ && _); [|by eapply IH].
  destruct (index_tx_timestamp_nanos tx) as [t|]; [|done].
  eapply IH; [|exact E]. destruct (match best with Some _ => _ | None => _ end); [|done].
  intros t' [= <-]. split; [done|]. intros l ->. cbn in Hlast. zify_bool. cbn. lia.
Qed.

Lemma faucet_inv_scan h o :
  faucet_inv h ->
  (forall s, o = Some s -> candidate_fine (anchor_last_processed_funding_tx_id s) (candidate s)) ->
  faucet_inv (h <| st ::= fun s => s <| active_funding_scan := o |> |>).
Proof.
  intros [H1 H2 H3 H4 H5 H6 H7] Ho. constructor; [done..| |done|done]. cbn. unfold const.
  intros s t Hs. by apply Ho.
Qed.

Lemma discover_pages_spec w0 pages payout_id source_id last_processed fee_ scan oldest w :
  fine w0 w -> anchor_last_processed_funding_tx_id scan = last_processed ->
  candidate_fine last_processed (candidate scan) ->
  wp e (discover_pages pages index payout_id source_id last_processed fee_ lease scan oldest)
    (fun r w' => fine w0 w' /\ forall t, r = Some (Found t) -> tranche_ok last_processed t) w.
Proof.
  revert scan oldest w. induction pages as [|pages IH]; intros scan oldest w Hw Ha Hs;
    cbn [discover_pages]; [by wp_step|].
  wp_step. wp_step. wp_step; [by wp_step|]. wp_step. apply wp_page. intros r Hr.
  assert (fine w0 (after_call e (GetTransactions index payout_id (cursor scan) PAGE_SIZE) w)) as Hw1
    by (apply fine_call; [apply read_page|done]).
  set (w1 := after_call _ _ _) in *. clearbody w1.
  wp_step. wp_step. wp_step; [by wp_step|]. destruct r as [resp|err]; [|by wp_step].
  specialize (Hr resp eq_refl). wp_step; [by wp_step|].
  destruct (validate_history_page _ _ _) as [exhausted|]; [|by wp_step].
  destruct (funding_page _ _ _ _ _ _) as [[best reached]|] eqn:Ef; [|by wp_step].
  assert (candidate_fine last_processed best) as Hbest by by eapply funding_page_fine.
  cbv zeta. wp_step. wp_step. unfold apply_scan.
  destruct (owns_scan lease last_processed scan (w_state w1)); cbn [fst snd negb].
  2: { wp_step. split; [|done]. by destruct w1. }
  assert (fine w0 (World ((w_state w1) <| st ::= fun s => s <| active_funding_scan :=
      if exhausted || reached then None else Some (MkFundingScan
        (anchor_last_processed_funding_tx_id scan)
        (match option_map tx_id (last (transactions resp)) with Some i => Some i | None => cursor scan end)
        best) |> |>) (w_trace w1))) as Hw2.
  { apply fine_state; [|done]. apply faucet_inv_scan; [apply Hw1|].
    intros s. destruct (exhausted || reached); [done|]. intros [= <-]. cbn. by rewrite Ha. }
  destruct (exhausted || reached).
  - wp_step. split; [done|]. destruct best as [t|]; [|done]. intros t' [= <-]. by apply Hbest.
  - by apply IH.
Qed.

Lemma wp_discover w0 payout_id source_id last_processed fee_ w :
  fine w0 w ->
  wp e (discover_oldest_unprocessed_funding_tranche_with_lease index payout_id source_id
          last_processed fee_ lease)
    (fun r w' => fine w0 w' /\ forall t, r = Some (Found t) -> tranche_ok last_processed t) w.
Proof.
  intros Hw. unfold discover_oldest_unprocessed_funding_tranche_with_lease.
  wp_step. wp_step. wp_step; [by wp_step|]. wp_step. wp_step.
  unfold begin_funding_scan. destruct (_ || _ || _); cbn [fst snd]; [wp_step; split; [|done]; by destruct w|].
  set (reset := match active_funding_scan (st (w_state w)) with Some _ => _ | None => _ end).
  set (h := if reset then _ else w_state w). cbn [fst snd].
  assert (faucet_inv h) as Hh.
  { subst h. destruct reset; [|apply Hw]. apply faucet_inv_scan; [apply Hw|]. by intros s [= <-]. }
  assert (fine w0 (World h (w_trace w))) as Hw1 by by apply fine_state.
  destruct (active_funding_scan (st h)) as [scan|] eqn:Es; [|by wp_step].
  assert (anchor_last_processed_funding_tx_id scan = last_processed) as Ha.
  { subst h reset. destruct (active_funding_scan (st (w_state w))) as [s|] eqn:Es0.
    - destruct (bool_decide_reflect (anchor_last_processed_funding_tx_id s = last_processed));
        cbn in Es; [rewrite Es0 in Es; by injection Es as <-|by injection Es as <-].
    - by injection Es as <-. }
  apply discover_pages_spec; [done|done|]. intros t Ht. rewrite <- Ha. by eapply (fi_funding h).
Qed.


Definition start_post (w0 : world Heap SuiteCall) (flow : Flow) (w' : world Heap SuiteCall) : Prop :=
  fine w0 w' /\ match flow with Loop p => p = 0 | Finish _ => True end.

Lemma wp_probe_and_return w0 staking_id denom w :
  fine w0 w -> wp e (probe_and_return index staking_id denom lease now_secs) (start_post w0) w.
Proof.
  intros Hw. unfold probe_and_return. wp_step.
  eapply (wp_probe e ledger _ governance now_nanos now_secs faucet_inv);
    [done|intros; by eapply bookkeeping_inv|exact rely_inv|exact Hw|].
  intros w1 Hw1. wp_step.
  eapply (wp_under_lease e ledger _ governance now_nanos faucet_inv);
    [intros; by eapply bookkeeping_inv|intros; apply bookkeeping_bootstrap|exact Hw1|].
  intros w2 Hw2. wp_step. by split.
Qed.

Lemma new_job_ok fee_ denom tranche h :
  0 <= fee_ -> tranche_ok (last_processed_funding_tx_id (st h)) tranche -> faucet_inv h ->
  faucet_inv (ensure_active_job_with_boundary now_nanos fee_ (tranche_amount_e8s tranche) denom
    (tranche_timestamp_nanos tranche) (Some (tranche_tx_id tranche)) (Some tranche) h).
Proof.
  intros Hf [Hu Hnew] [H1 H2 H3 H4 H5 H6 H7]. unfold ensure_active_job_with_boundary.
  destruct (active_payout_job (st h)) as [j|] eqn:Hj; [constructor; auto; by rewrite Hj|].
  constructor; [|done| |done|done| |done].
  - unfold job_inv. cbn. unfold job_ok, new_job.
    destruct (current_round_start_time_nanos (st h)); cbn; unfold u64 in Hu; lia.
  - cbn. unfold const. intros j [= <-]. unfold scan_ok, candidate_ok, new_job.
    destruct (current_round_start_time_nanos (st h)); cbn; repeat split; try done; lia.
  - cbn. unfold const. intros j i [= <-]. unfold new_job.
    destruct (current_round_start_time_nanos (st h)); cbn; unfold const; intros [= <-]; exact Hnew.
Qed.

Lemma wp_check_balance w0 last_processed nonce balance tranche w :
  fine w0 w ->
  wp e (check_balance self_id ledger lease last_processed nonce balance tranche)
    (fun early w' => fine w0 w' /\ match early with Some (Loop _) => False | _ => True end) w.
Proof.
  intros Hw. unfold check_balance. wp_step; [|by wp_step]. wp_step. wp_step. wp_step.
  apply wp_balance_of_e8s. intros r.
  match goal with |- wp _ _ _ ?w => assert (fine w0 w) as Hw1; [|set (w1 := w) in *; clearbody w1] end.
  { apply fine_call; [apply read_balance|done]. }
  wp_step. wp_step. wp_step; [by wp_step|]. destruct r as [current|err]; [|by wp_step].
  wp_step; [|by wp_step]. wp_step. unfold latch.
  eapply (wp_book e ledger _ governance now_nanos faucet_inv);
    [intros; by eapply bookkeeping_inv|intros; apply bookkeeping_latch|exact Hw1|].
  intros Hw2. by wp_step.
Qed.

Lemma wp_start_from_tranche w0 last_processed nonce balance fee_ denom tranche w :
  fine w0 w -> 0 <= fee_ -> tranche_ok last_processed tranche ->
  wp e (start_from_tranche self_id ledger lease last_processed nonce balance fee_ denom now_nanos
          tranche) (start_post w0) w.
Proof.
  intros Hw Hf Hu. unfold start_from_tranche. wp_step.
  eapply wp_mono; [by apply wp_check_balance|]. intros early w1 [Hw1 He].
  destruct early as [[b|p]|]; [by wp_step|done|].
  wp_step. wp_step. wp_step; [by wp_step|]. apply negb_false_iff in Heqb. unfold same_round in Heqb.
  rewrite !andb_true_iff, bool_decide_eq_true in Heqb. destruct Heqb as [[[_ Hlast] _] _]. wp_step.
  eapply (wp_modify_fine e ledger _ governance now_nanos faucet_inv);
    [apply new_job_ok; [done|by rewrite Hlast|apply Hw1]|exact Hw1|].
  intros Hw2. by wp_step.
Qed.

Lemma wp_start_job w0 staking_id w :
  fine w0 w ->
  wp e (start_job self_id cfg ledger index staking_id now_nanos now_secs lease) (start_post w0) w.
Proof.
  intros Hw. unfold start_job. wp_step. apply wp_fee. intros fee_ Hfee.
  match goal with |- wp _ _ _ ?w => assert (fine w0 w) as Hw1; [|set (w1 := w) in *; clearbody w1] end.
  { apply fine_call; [apply read_fee|done]. }
  destruct fee_ as [fee_|]; [|by wp_step]. specialize (Hfee fee_ eq_refl).
  wp_step. wp_step. wp_step; [by wp_step|]. wp_step. wp_step. wp_step.
  apply wp_balance_of_e8s. intros balance.
  match goal with |- wp _ _ _ ?w => assert (fine w0 w) as Hw2; [|set (w2 := w) in *; clearbody w2] end.
  { apply fine_call; [apply read_balance|done]. }
  destruct balance as [balance|]; [|by wp_step].
  wp_step. wp_step. wp_step; [by wp_step|]. wp_step.
  apply wp_balance_of_e8s. intros denom.
  match goal with |- wp _ _ _ ?w => assert (fine w0 w) as Hw3; [|set (w3 := w) in *; clearbody w3] end.
  { apply fine_call; [apply read_balance|done]. }
  destruct denom as [denom|]; [|by wp_step].
  wp_step. wp_step. wp_step; [by wp_step|]. wp_step; [by apply wp_probe_and_return|].
  do 5 wp_step. eapply wp_mono; [by apply wp_discover|]. intros found w4 [Hw4 Hu].
  destruct found as [[tranche| | |[|]]|]; [|by apply wp_probe_and_return..|by wp_step| |by wp_step].
  - apply wp_start_from_tranche; [done|done|by apply Hu].
  - wp_step. unfold latch.
    eapply (wp_book e ledger _ governance now_nanos faucet_inv);
      [intros; by eapply bookkeeping_inv|intros; apply bookkeeping_latch|exact Hw4|].
    intros Hw5. by wp_step.
Qed.


(** *** The denominator pass *)

(** A candidate for a scan that continues below [bound]. *)
Definition cand_inv (c : LocalSkipCandidate) (bound : option Z) : Prop :=
  candidate_ok c /\
  (0 < tx_count c -> exists i b, end_tx_id c = Some i /\ bound = Some b /\ b <= i).

Definition denom_inv (d : DenomScan) (bound : option Z) : Prop :=
  cand_inv (ds_candidate d) bound /\ Forall range_ok (ds_ranges d).

Lemma cand_default bound : cand_inv LocalSkipCandidate_default bound.
Proof. split; [split|]; cbn; lia. Qed.

Lemma complete_span_ok d bound bound' :
  denom_inv d bound -> exists d', complete_span d = Scanned d' /\ denom_inv d' bound' /\
    ds_candidate d' = LocalSkipCandidate_default.
Proof.
  intros [[Hc _] Hr]. unfold complete_span, record_completed_skip_range.
  destruct (finish_span_ok _ Hc) as (r & -> & Hok). cbn [mbind option_bind].
  eexists. split; [reflexivity|]. split; [|done]. split; [apply cand_default|]. cbn.
  destruct r as [[lo hi]|]; [|done]. apply Forall_app. split; [done|]. apply Forall_singleton.
  destruct (Hok lo hi eq_refl) as (_ & H1 & H2). split; [exact H1|exact H2].
Qed.

Lemma note_skippable_ok id c bound :
  u64 id -> (forall b, bound = Some b -> id < b) -> cand_inv c bound ->
  cand_inv (note_skippable id c) (Some id).
Proof.
  intros Hu Hb [[Hn Hc] Hi]. unfold note_skippable. destruct (tx_count c =? 0) eqn:E; zify_bool.
  - split; [split; cbn; [lia|]|cbn; intros _; exists id, id; done].
    intros _. exists id, id. unfold u64 in Hu. split; [done|]. split; [done|]. lia.
  - destruct Hc as (lo & hi & El & Eh & H1 & H2); [lia|].
    destruct Hi as (i & b & Ei & -> & Hbi); [lia|]. specialize (Hb b eq_refl).
    rewrite El in Ei. injection Ei as <-. unfold u64 in Hu.
    split; [split; cbn; [unfold sat_add; lia|]|cbn; intros _; exists id, id; done].
    intros _. exists id, hi. split; [done|]. split; [done|]. lia.
Qed.

Lemma denom_tx_ok job staking_id min_tx delay ranges tx d bound :
  u64 (tx_id tx) -> (forall b, bound = Some b -> tx_id tx < b) -> denom_inv d bound ->
  match denom_tx job staking_id min_tx delay now_nanos ranges tx d with
  | Scanned d' => denom_inv d' (Some (tx_id tx))
  | Panicked => False
  | _ => True
  end.
Proof.
  intros Hu Hb Hd. unfold denom_tx.
  destruct (complete_span_ok d bound (Some (tx_id tx)) Hd) as (d' & Hspan & Hd' & _).
  assert (denom_inv (d <| ds_candidate ::= note_skippable (tx_id tx) |>) (Some (tx_id tx))) as Hnote.
  { destruct Hd as [Hc Hr]. split; [by eapply note_skippable_ok|done]. }
  destruct (is_some_and _ _); [by rewrite Hspan|].
  destruct (skip_range_containing _ _) as [[r|]|]; [by rewrite Hspan| |done].
  destruct (memo_bytes_from_index_tx _ _) as [c|]; [|done].
  destruct (classify_commitment _ _) as [| |target]; [done|done|]. rewrite Hspan.
  by destruct (checked_add _ _).
Qed.

Lemma denom_page_ok job staking_id min_tx delay ranges txs d bound :
  Forall (fun tx => u64 (tx_id tx)) txs -> descending (map tx_id txs) ->
  (forall i b, In i (map tx_id txs) -> bound = Some b -> i < b) -> denom_inv d bound ->
  match denom_page job staking_id min_tx delay now_nanos ranges txs d with
  | Scanned d' => denom_inv d' (match last (map tx_id txs) with Some i => Some i | None => bound end)
  | Panicked => False
  | _ => True
  end.
Proof.
  intros Hu. revert d bound. induction Hu as [|tx rest Htx _ IH]; intros d bound Hdesc Hb Hd; [done|].
  cbn [denom_page]. pose proof (denom_tx_ok job staking_id min_tx delay ranges tx d bound Htx
    ltac:(intros b Eb; apply Hb; [by left|done]) Hd) as Ht.
  destruct (denom_tx _ _ _ _ _ _ _ _) as [d'| | |]; try done.
  cbn [map] in Hdesc. inversion_clear Hdesc as [|? ? Hs Hf]. rewrite List.Forall_forall in Hf.
  specialize (IH d' (Some (tx_id tx)) Hs ltac:(intros i b Hi [= <-]; by apply Hf) Ht).
  cbn [map]. rewrite last_cons. destruct (last (map tx_id rest)); exact IH.
Qed.

Hypothesis rely_lease : forall n h,
  is_current_in lease (st (env_interleave e n h)) = true ->
  is_current_in lease (st h) = true /\
  active_payout_job (st (env_interleave e n h)) = active_payout_job (st h).

(** While the run holds the lease nothing is left pending. *)
Definition settled (h : Heap) : Prop :=
  is_current_in lease (st h) = true ->
  forall j, active_payout_job (st h) = Some j -> pending_transfer j = None.

Lemma settled_call w {X} (c : SuiteCall X) :
  settled (w_state w) -> settled (w_state (after_call e c w)).
Proof. intros Hs Hl j Hj. cbn in Hl, Hj. apply rely_lease in Hl as [Hl E]. rewrite E in Hj. auto. Qed.

Lemma denom_commit_ok job resp denominator c complete h :
  faucet_inv h -> settled h -> cand_inv c (match last (map tx_id (transactions resp)) with
                              | Some i => Some i | None => next_start job end) ->
  (complete = true -> c = LocalSkipCandidate_default) ->
  faucet_inv (if denom_current lease job h
              then upd_job (denom_commit resp denominator c complete) h else h).
Proof.
  intros Hh Hset [Hc Hi] Hdone. destruct (denom_current lease job h) eqn:Hcur; [|done].
  unfold denom_current in Hcur. apply andb_true_iff in Hcur as [Hlease Hcur].
  apply faucet_inv_upd; [done| |].
  2: { intros j. unfold denom_commit. destruct c. by destruct (head (transactions resp)), complete,
         (option_map tx_id (last (transactions resp))). }
  intros j Hj Hjob (Hfee & _ & _ & Hphase).
  pose proof (Hset Hlease j Hj) as Hnone. rewrite Hj in Hcur. cbn in Hcur. rewrite !andb_true_iff, !bool_decide_eq_true in Hcur.
  destruct Hcur as [[_ Hnext] Hflag].
  assert (scan_complete j = false) as Hsc.
  { destruct (scan_complete j); [|done]. specialize (Hphase eq_refl).
    unfold effective_denom_scan_complete in Hphase. by rewrite Hflag in Hphase. }
  unfold denom_commit.
  set (j1 := (set_candidate c j) <| effective_denom_staking_balance_e8s := Some denominator |>
               <| observed_oldest_tx_id := oldest_tx_id resp |>).
  set (j2 := match head (transactions resp) with Some _ => _ | None => j1 end).
  assert (gross_outflow_e8s j2 = gross_outflow_e8s j /\ pot_start_e8s j2 = pot_start_e8s j /\
    pending_transfer j2 = None /\ fee_e8s j2 = fee_e8s j /\
    next_start j2 = next_start j /\ scan_complete j2 = false /\ from_job j2 = c /\
    effective_denom_scan_complete_flag j2 = Some false) as (E1 & E2 & E3 & E4 & E5 & E6 & E7 & E8).
  { subst j2 j1. rewrite <- Hnone. destruct c. destruct (head (transactions resp)); done. }
  clearbody j2. clear j1.
  assert (skip_candidate_tx_count j2 = tx_count c /\ skip_candidate_end_tx_id j2 = end_tx_id c)
    as [E9 E10] by (by rewrite <- E7).
  assert (last (map tx_id (transactions resp)) = option_map tx_id (last (transactions resp))) as El
    by apply (last_ids resp). rewrite El in Hi.
  destruct complete.
  - split; [by apply (job_ok_frame j); [..|right|]|]. unfold scan_ok, candidate_ok. cbn. unfold const.
    rewrite E4. repeat split; try done; lia.
  - destruct (option_map tx_id (last (transactions resp))) as [n|].
    + split; [by apply (job_ok_frame j); [..|right|]|].
      split; [by cbn; rewrite E4|]. split; [change (candidate_ok (from_job j2)); by rewrite E7|].
      split; [|change (scan_complete j2 = true -> effective_denom_scan_complete j2 = true); by rewrite E6].
      change (0 < skip_candidate_tx_count j2 -> exists c i,
        Some n = Some c /\ skip_candidate_end_tx_id j2 = Some i /\ c <= i).
      rewrite E9, E10. intros Hpos. destruct (Hi Hpos) as (i & b & -> & [= <-] & Hle). by exists n, i.
    + split; [by apply (job_ok_frame j); [..|right|]|]. unfold scan_ok.
      rewrite E4, E7, E9, E10, E6, E5, Hnext. split; [done|]. split; [done|]. split; [|done].
      intros Hpos. destruct (Hi Hpos) as (i & b & -> & -> & Hle). by exists b, i.
Qed.


Definition loop_post (w0 : world Heap SuiteCall) (pages : Z) (flow : Flow) (w' : world Heap SuiteCall)
    : Prop :=
  fine w0 w' /\
  match flow with Loop p => p = pages /\ settled (w_state w') | Finish _ => True end.

Lemma wp_fault w0 pages w :
  fine w0 w ->
  wp e (latch_skip_range_invariant_rescue ;; mret (Finish true)) (loop_post w0 pages) w.
Proof.
  intros Hw. unfold latch_skip_range_invariant_rescue. wp_step.
  eapply (wp_book e ledger _ governance now_nanos faucet_inv);
    [intros; by eapply bookkeeping_inv|done|exact Hw|].
  intros Hw1. by wp_step.
Qed.

Lemma faucet_inv_ranges h m :
  faucet_inv h -> ranges_ok m -> faucet_inv (h <| skip_ranges := m |>).
Proof. intros [H1 H2 H3 H4 H5 H6 H7] Hm. by constructor. Qed.

Lemma denom_settled job resp denominator c complete h :
  settled h -> settled (if denom_current lease job h
                        then upd_job (denom_commit resp denominator c complete) h else h).
Proof.
  intros Hs. destruct (denom_current lease job h); [|done]. intros Hl j Hj. cbn in Hl, Hj.
  destruct (active_payout_job (st h)) as [j0|] eqn:Hj0; [|done]. cbn in Hj. injection Hj as <-.
  specialize (Hs Hl j0 Hj0). unfold denom_commit.
  destruct (head (transactions resp)), complete, (option_map tx_id (last (transactions resp)));
    exact Hs.
Qed.

Lemma wp_denom_apply w0 job staking_id pages resp complete w :
  fine w0 w -> settled (w_state w) -> scan_ok job ->
  Forall tx_u64 (transactions resp) -> descending (ids resp) ->
  (forall i b, In i (ids resp) -> next_start job = Some b -> i < b) ->
  wp e (denom_apply job staking_id now_nanos pages lease resp complete) (loop_post w0 pages) w.
Proof.
  intros Hw Hset (_ & Hcand & Habove & _) Hu Hd Hb. unfold denom_apply. do 6 wp_step.
  assert (denom_inv (MkDenomScan (from_job job) [] 0) (next_start job)) as Hinit.
  { split; [split; [done|]|constructor]. intros Hpos.
    destruct (Habove Hpos) as (c & i & ? & ? & ?). by exists i, c. }
  match goal with |- context [denom_page job staking_id ?m ?d now_nanos ?r _ _] =>
    pose proof (denom_page_ok job staking_id m d r (transactions resp) _ (next_start job)
      ltac:(eapply Forall_impl; [exact Hu|]; by intros tx [? _]) Hd Hb Hinit) as Hp;
    destruct (denom_page job staking_id m d now_nanos r _ _) as [d1| | |] end.
  2: by apply wp_fault. 2: by wp_step. 2: done.
  destruct (checked_add _ _) as [denominator|]; [|by wp_step].
  assert (exists d2, (if complete then complete_span d1 else Scanned d1) = Scanned d2 /\
    denom_inv d2 (match last (map tx_id (transactions resp)) with
                  | Some i => Some i | None => next_start job end) /\
    (complete = true -> ds_candidate d2 = LocalSkipCandidate_default)) as (d2 & -> & [Hc2 Hr2] & Hdone).
  { destruct complete; [|by exists d1]. destruct (complete_span_ok d1 _
      (match last (map tx_id (transactions resp)) with Some i => Some i | None => next_start job end) Hp)
      as (d2 & -> & ? & ?). by exists d2. }
  wp_step. wp_step.
  destruct (persist_new_skip_ranges_spec (ds_ranges d2) (skip_ranges (w_state w))
    ltac:(apply (fi_ranges _ (proj1 Hw))) Hr2) as (m' & Ep & Hm' & _).
  rewrite Ep. cbn [fst snd]. wp_step.
  assert (fine w0 (World ((w_state w) <| skip_ranges := m' |>) (w_trace w))) as Hw1.
  { apply fine_state; [|done]. by apply faucet_inv_ranges; [apply Hw|]. }
  eapply (wp_modify_fine e ledger _ governance now_nanos faucet_inv);
    [apply denom_commit_ok; [apply Hw1|exact Hset|exact Hc2|exact Hdone]|exact Hw1|].
  intros Hw2. wp_step; [by wp_step|]. wp_step. split; [done|]. split; [done|].
  apply denom_settled. exact Hset.
Qed.

Lemma wp_denom_stage w0 job staking_id pages w :
  fine w0 w -> settled (w_state w) -> active_payout_job (st (w_state w)) = Some job ->
  0 <= pages < MAX_INDEX_PAGES_PER_PAYOUT_TICK ->
  wp e (denom_stage job index staking_id now_nanos now_secs pages lease) (loop_post w0 (pages + 1)) w.
Proof.
  intros Hw Hset Hj Hpages. unfold denom_stage. wp_step. apply wp_page. intros r Hr.
  pose proof (fi_scan _ (proj1 Hw) job Hj) as Hscan.
  match goal with |- wp _ _ _ ?w => assert (fine w0 w) as Hw1; [|assert (settled (w_state w)) as Hset1;
    [by apply settled_call|set (w1 := w) in *; clearbody w1]] end.
  { apply fine_call; [apply read_page|done]. }
  destruct r as [resp|]; [|by wp_step]. specialize (Hr resp eq_refl).
  wp_step. wp_step. wp_step; [by wp_step|]. wp_step. wp_step. wp_step.
  - wp_step. eapply (wp_book e ledger _ governance now_nanos faucet_inv);
      [intros; by eapply bookkeeping_inv| |exact Hw1|].
    { intros h. cbn. destruct (denom_current lease job h); [apply bookkeeping_anchor|done]. }
    intros Hw2. by wp_step.
  - destruct (validate_history_page _ _ _) as [complete|] eqn:Hv; [|by wp_step].
    apply validate_page_spec in Hv as [[_ _ Hd Hb _ _] _].
    replace (sat_add pages 1) with (pages + 1) by (unfold sat_add, MAX_INDEX_PAGES_PER_PAYOUT_TICK in *; lia).
    by apply wp_denom_apply.
Qed.


(** *** The end of a job *)

Lemma wp_any_exists w0 l Q w :
  fine w0 w -> (forall b w', fine w0 w' -> Q b w') -> wp e (any_canister_exists l) Q w.
Proof.
  intros Hw HQ. revert w Hw. induction l as [|c l IH]; intros w Hw; cbn [any_canister_exists];
    [wp_step; auto|].
  wp_step. apply wp_canister_exists. intros r.
  assert (fine w0 (after_call e (CanisterInfo c) w)) as Hw1.
  { apply fine_call; [|done]. right; right; right; right. by repeat eexists. }
  destruct r as [[]|]; [wp_step; auto|by apply IH..].
Qed.

Lemma finalize_state_ok job counts h : faucet_inv h -> faucet_inv (finalize_state job counts now_secs h).
Proof.
  intros [H1 H2 H3 H4 H5 _ H7].
  destruct (finalize_state_frame job counts now_secs h) as (Ej & Er & Ec & Ef & Em).
  constructor; [unfold job_inv; by rewrite Ej|by rewrite Er|by rewrite Ej|by rewrite Ec| |by rewrite Ej|by rewrite Em].
  by rewrite Ef.
Qed.

Lemma wp_finalize w0 id Q w :
  fine w0 w -> (forall b w', fine w0 w' -> Q b w') ->
  wp e (finalize_completed_job lease id now_secs) Q w.
Proof.
  intros Hw HQ. unfold finalize_completed_job. wp_step. wp_step.
  match goal with |- context [match ?o with Some _ => _ | None => _ end] => destruct o as [job|] end;
    [|wp_step; auto].
  wp_step. unfold zero_success_run_counts_toward_rescue.
  assert (forall counts w1, fine w0 w1 -> wp e (with_state_mut (fun h =>
      if owns_job lease id h then (true, finalize_state job counts now_secs h) else (false, h))) Q w1) as Hfin.
  { intros counts w1 Hw1. wp_step. apply HQ. destruct (owns_job lease id (w_state w1)); cbn [fst snd].
    - apply fine_state; [|done]. apply finalize_state_ok, Hw1.
    - by apply fine_state; [apply Hw1|]. }
  wp_step; [wp_step; by apply Hfin|]. apply (wp_any_exists w0); [done|]. intros b w1 Hw1. by apply Hfin.
Qed.

Definition end_post (w0 : world Heap SuiteCall) (flow : Flow) (w' : world Heap SuiteCall) : Prop :=
  fine w0 w' /\ match flow with Loop _ => False | Finish _ => True end.

Lemma wp_finish_stage w0 relay_id job staking_id w :
  fine w0 w -> active_payout_job (st (w_state w)) = Some job ->
  wp e (finish_stage relay_id cfg job ledger index governance staking_id now_nanos now_secs lease)
    (end_post w0) w.
Proof.
  intros Hw Hj. unfold finish_stage.
  pose proof (fi_scan _ (proj1 Hw) job Hj) as (Hfee & _).
  pose proof (fi_job _ (proj1 Hw)) as Hinv. unfold job_inv in Hinv. rewrite Hj in Hinv.
  destruct Hinv as (Hr & Hu & _). unfold checked_sub at 1. rewrite (proj2 (Z.leb_le _ _)) by lia.
  assert (forall w1, fine w0 w1 -> wp e (under_lease lease (maybe_latch_bootstrap_rescue now_secs) ;;
    mret (Finish true)) (end_post w0) w1) as Hend.
  { intros w1 Hw1. wp_step. eapply (wp_under_lease e ledger _ governance now_nanos faucet_inv);
      [intros; by eapply bookkeeping_inv|intros; apply bookkeeping_bootstrap|exact Hw1|].
    intros w2 Hw2. by wp_step. }
  wp_step. eapply (wp_mono _ _ (fun _ w' => fine w0 w')).
  { wp_step; [|by wp_step]. apply andb_true_iff in Heqb as [Hgt _]. zify_bool.
    unfold checked_sub. rewrite (proj2 (Z.leb_le _ _)) by lia.
    eapply wp_mono; [apply (wp_send e ledger (cmc_canister_id cfg) governance now_nanos now_secs
      faucet_inv ltac:(done) ltac:(intros; by eapply faucet_inv_step) rely_inv w0);
      [done|done|by rewrite Hj|cbn; lia|done|done]|].
    by intros b w' [? _]. }
  intros sent w1 Hw1. wp_step; [by wp_step|]. wp_step.
  apply (wp_finalize w0); [done|]. intros finalized w2 Hw2. wp_step; [by wp_step|]. wp_step.
  apply wp_balance_of_e8s. intros r.
  match goal with |- wp _ _ _ ?w => assert (fine w0 w) as Hw3; [|set (w3 := w) in *; clearbody w3] end.
  { apply fine_call; [apply read_balance|done]. }
  destruct r as [balance|]; [|by apply Hend].
  wp_step. wp_step. wp_step; [by wp_step|]. wp_step.
  eapply (wp_refresh_health e ledger _ governance now_nanos now_secs faucet_inv);
    [done|intros; by eapply bookkeeping_inv|exact rely_inv|exact Hw3|].
  intros w4 Hw4. by apply Hend.
Qed.


(** *** The payout pass *)

(** While the run holds the lease, the denominator pass is over. *)
Definition payout_inv (h : Heap) : Prop :=
  faucet_inv h /\
  (is_current_in lease (st h) = true ->
   forall j, active_payout_job (st h) = Some j -> effective_denom_scan_complete j = true).

Lemma payout_inv_faucet h : payout_inv h -> faucet_inv h.
Proof. by intros []. Qed.

Lemma payout_inv_rely n h : payout_inv h -> payout_inv (env_interleave e n h).
Proof.
  intros [H1 H2]. split; [by apply rely_inv|]. intros Hl j Hj.
  apply rely_lease in Hl as [Hl E]. rewrite E in Hj. auto.
Qed.

Lemma payout_inv_stepped h h' : payout_inv h -> stepped h h' -> payout_inv h'.
Proof.
  intros [H1 H2] Hs. split; [by eapply faucet_inv_step|].
  destruct Hs as [_ (_ & _ & El & _ & _ & _ & Es)]. intros Hl j' Hj'.
  unfold is_current_in in *. rewrite El in Hl. rewrite Hj' in Es.
  destruct (active_payout_job (st h)) as [j|] eqn:Hj; [|done]. injection Es as Es.
  specialize (H2 Hl j eq_refl). unfold effective_denom_scan_complete in *. congruence.
Qed.

Lemma payout_inv_book h h' : payout_inv h -> bookkeeping h h' -> payout_inv h'.
Proof.
  intros [H1 H2] Hb. split; [by eapply bookkeeping_inv|]. destruct Hb as (Ej & _ & _ & El & _).
  unfold is_current_in in *. rewrite El, Ej. exact H2.
Qed.

Lemma payout_inv_upd f h :
  payout_inv h ->
  (forall j, gross_outflow_e8s (f j) = gross_outflow_e8s j /\ pot_start_e8s (f j) = pot_start_e8s j /\
     pending_transfer (f j) = pending_transfer j /\ funding_tx_id (f j) = funding_tx_id j /\
     effective_denom_scan_complete_flag (f j) = effective_denom_scan_complete_flag j) ->
  (forall j, active_payout_job (st h) = Some j ->
     next_start (f j) = next_start j \/ pending_transfer j = None) ->
  (forall j, active_payout_job (st h) = Some j -> scan_ok j -> scan_ok (f j)) ->
  payout_inv (upd_job f h).
Proof.
  intros [H1 H2] Hf Hn Hs. split.
  - apply faucet_inv_upd; [done| |intros j; apply Hf]. intros j Hj Hok Hscan. split; [|by apply Hs].
    destruct (Hf j) as (E1 & E2 & E3 & _). apply (job_ok_frame j); [done..| |done].
    destruct (Hn j Hj) as [E|E]; [by left|right; congruence].
  - intros Hl j'. cbn in *. destruct (active_payout_job (st h)) as [j|]; [|done]. cbn.
    intros [= <-]. destruct (Hf j) as (_ & _ & _ & _ & E4). specialize (H2 Hl j eq_refl).
    unfold effective_denom_scan_complete in *. by rewrite E4.
Qed.

Local Abbreviation finep := (FaucetPayout.fine ledger (cmc_canister_id cfg) governance now_nanos payout_inv).

Definition present (h : Heap) : Prop := active_payout_job (st h) <> None.

Lemma finep_call w0 w {X} (c : SuiteCall X) :
  read_event (Dispatch c (w_state w)) -> finep w0 w -> finep w0 (after_call e c w).
Proof. apply fine_read; [apply payout_inv_faucet|exact payout_inv_rely]. Qed.

Lemma settled_upd f h :
  settled h -> (forall j, pending_transfer (f j) = pending_transfer j) -> settled (upd_job f h).
Proof.
  intros Hs Hf Hl j'. cbn in *. destruct (active_payout_job (st h)) as [j|] eqn:Hj; [|done].
  cbn. intros [= <-]. rewrite Hf. by apply Hs.
Qed.

Lemma present_upd f h : present h -> present (upd_job f h).
Proof. unfold present. cbn. by destruct (active_payout_job (st h)). Qed.

Lemma cleared_settled w : cleared w -> settled (w_state w).
Proof.
  unfold cleared, current_pending_transfer. intros Hc _ j Hj. rewrite Hj in Hc.
  by destruct (pending_transfer j).
Qed.

Lemma at_cursor_present id c h : at_cursor lease id c h = true -> present h.
Proof.
  unfold at_cursor, present. intros [_ Hc]%andb_true_iff.
  by destruct (active_payout_job (st h)).
Qed.

Lemma at_cursor_next id c h j i :
  at_cursor lease id c h = true -> active_payout_job (st h) = Some j -> c = Some i ->
  next_start j = Some i.
Proof.
  unfold at_cursor. intros [_ Hc]%andb_true_iff Hj ->. rewrite Hj in Hc. cbn in Hc.
  by apply andb_true_iff in Hc as [_ Hc%bool_decide_eq_true].
Qed.

Lemma scanning_present id c h : scanning_at_cursor lease id c h = true -> present h.
Proof.
  unfold scanning_at_cursor, present. intros [_ Hc]%andb_true_iff.
  by destruct (active_payout_job (st h)).
Qed.

(** The job with a page's counters, at a cursor and with no open span. *)
Lemma scan_ok_progress j under bad next complete :
  scan_ok j -> (complete = true -> effective_denom_scan_complete j = true) ->
  scan_ok ((set_candidate LocalSkipCandidate_default
      (j <| ignored_under_threshold := under |> <| ignored_bad_memo := bad |>))
    <| next_start := next |> <| scan_complete := complete |>).
Proof.
  intros (Hf & _ & _ & Hp) Hc. unfold scan_ok, candidate_ok. cbn. unfold const.
  repeat split; try done; lia.
Qed.

Lemma flush_ok under bad next id cursor h :
  payout_inv h -> settled h ->
  payout_inv (flush_scan_progress under bad next LocalSkipCandidate_default lease id cursor h).
Proof.
  intros Hh Hset. unfold flush_scan_progress. destruct (_ && _ && _ && _); [done|].
  destruct (_ && _) eqn:Hcur; [|done]. apply andb_true_iff in Hcur as [Hlease _].
  apply payout_inv_upd; [done| | |].
  - intros j. by destruct next.
  - intros j Hj. right. by apply Hset.
  - intros j _ Hj. destruct next as [n|].
    + eapply scan_ok_frame; [|apply (scan_ok_progress j 0 0 (Some n) (scan_complete j) Hj); apply Hj].
      done.
    + eapply scan_ok_frame; [|apply (scan_ok_progress j 0 0 (next_start j) (scan_complete j) Hj); apply Hj].
      done.
Qed.

Lemma flush_settled under bad next id cursor h :
  settled h -> settled (flush_scan_progress under bad next LocalSkipCandidate_default lease id cursor h).
Proof.
  intros Hh. unfold flush_scan_progress. destruct (_ && _ && _ && _); [done|].
  destruct (_ && _); [|done]. apply settled_upd; [done|]. intros j. by destruct next.
Qed.


(** What a transaction of the payout pass leaves behind. *)
Definition page_post (w0 : world Heap SuiteCall) (r : PageFlow) (w' : world Heap SuiteCall) : Prop :=
  finep w0 w' /\ match r with PageNext _ => settled (w_state w') /\ present (w_state w') | PageReturn => True end.

Lemma wp_bookp w0 (f : Heap -> Heap) (Q : unit -> world Heap SuiteCall -> Prop) w :
  (forall h, bookkeeping h (f h)) -> finep w0 w ->
  (finep w0 (World (f (w_state w)) (w_trace w)) -> Q tt (World (f (w_state w)) (w_trace w))) ->
  wp e (modify f) Q w.
Proof. apply wp_book. exact payout_inv_book. Qed.

Lemma wp_fault_page w0 r w :
  finep w0 w -> wp e (latch r ;; mret PageReturn) (page_post w0) w.
Proof.
  intros Hw. wp_step. eapply wp_bookp; [intros; apply bookkeeping_latch|exact Hw|].
  intros Hw1. by wp_step.
Qed.

Lemma note_failed_ok id h : payout_inv h -> payout_inv (note_failed_target lease id h).
Proof.
  intros Hh. unfold note_failed_target. destruct (owns_job lease id h); [|done].
  apply payout_inv_upd; [done|done|by left|]. intros j _ Hj. by eapply scan_ok_frame.
Qed.

Lemma note_failed_settled id h : settled h -> settled (note_failed_target lease id h).
Proof.
  intros Hh. unfold note_failed_target. destruct (owns_job lease id h); [|done]. by apply settled_upd.
Qed.

Lemma note_failed_present id h : present h -> present (note_failed_target lease id h).
Proof.
  intros Hh. unfold note_failed_target. destruct (owns_job lease id h); [|done]. by apply present_upd.
Qed.

Lemma wp_neuron_subaccount w0 n (Q : result (list Z) ClientError -> world Heap SuiteCall -> Prop) w :
  finep w0 w -> settled (w_state w) ->
  (forall r w', finep w0 w' -> settled (w_state w') -> Q r w') ->
  wp e (neuron_staking_subaccount_retry_once governance n) Q w.
Proof.
  intros Hw Hs HQ. unfold neuron_staking_subaccount_retry_once.
  assert (forall w, finep w0 w -> settled (w_state w) ->
    finep w0 (after_call e (ListNeurons governance n) w) /\
    settled (w_state (after_call e (ListNeurons governance n) w))) as Hcall.
  { intros w1 H1 H2. split; [|by apply settled_call]. apply finep_call; [|done].
    right; right; right; left. by repeat eexists. }
  wp_step. apply wp_neuron_staking_subaccount. intros r. destruct (Hcall w Hw Hs) as [Hw1 Hs1].
  destruct r as [sub|err]; [wp_step; by apply HQ|].
  apply wp_neuron_staking_subaccount. intros r2. by destruct (Hcall _ Hw1 Hs1); apply HQ.
Qed.

(** A resolved transfer has a non-negative gross share and, for a stake, its
    destination; the loop goes on only while the job is there and settled. *)
Lemma wp_resolve w0 id s gross fee_ tx target w :
  finep w0 w -> settled (w_state w) -> present (w_state w) ->
  governance_canister_id cfg <> None -> 0 <= gross ->
  wp e (resolve_target cfg governance lease id s gross fee_ tx target)
    (fun r w' => finep w0 w' /\
       match r with
       | Pay p => settled (w_state w') /\ 0 <= gross_share_e8s p /\ pn_next_start p = Some tx /\
                  (kind p = NeuronStake -> destination_subaccount p <> None)
       | SkipTarget => settled (w_state w') /\ present (w_state w')
       | Abandon => True
       end) w.
Proof.
  intros Hw Hs Hp Hgov Hg. unfold resolve_target. destruct target as [c|c sub memo|n memo].
  1,2: by wp_step.
  wp_step. apply (wp_neuron_subaccount w0); [done..|]. intros r w1 Hw1 Hs1.
  wp_step. wp_step. wp_step; [by wp_step|].
  apply negb_false_iff, scanning_present in Heqb.
  destruct r as [sub|err].
  - wp_step. wp_step. wp_step; [by wp_step|].
    destruct (governance_canister_id cfg) as [g|]; [|done]. by wp_step.
  - wp_step. eapply (wp_modify_fine e ledger _ governance now_nanos payout_inv);
      [apply note_failed_ok, Hw1|exact Hw1|].
    intros Hw2. wp_step. split; [done|].
    split; [by apply note_failed_settled|by apply note_failed_present].
Qed.

Lemma wp_pay_commitment w0 id fee_ s p w :
  finep w0 w -> settled (w_state w) -> 0 <= fee_ -> 0 <= gross_share_e8s p ->
  (kind p = NeuronStake -> destination_subaccount p <> None) -> pn_next_start p = ps_next s ->
  wp e (pay_commitment cfg ledger governance lease id now_nanos now_secs fee_ s p) (page_post w0) w.
Proof.
  intros Hw Hs Hf Hg Hsub Hpn. unfold pay_commitment. wp_step.
  eapply (wp_modify_fine e ledger _ governance now_nanos payout_inv);
    [by apply flush_ok; [apply Hw|]|exact Hw|].
  intros Hw1. cbv zeta. wp_step. wp_step. wp_step; [by wp_step|].
  apply negb_false_iff in Heqb. wp_step.
  eapply wp_mono; [apply (wp_send e ledger (cmc_canister_id cfg) governance now_nanos now_secs
    payout_inv payout_inv_faucet payout_inv_stepped payout_inv_rely w0); try done;
    [by eapply at_cursor_present|]|].
  { intros j i Hj Hi. rewrite Hpn in Hi. by eapply at_cursor_next. }
  intros sent w2 [Hw2 Hc]. wp_step; [by wp_step|].
  apply negb_false_iff in Heqb0. specialize (Hc Heqb0).
  wp_step. wp_step. wp_step; [by wp_step|]. wp_step. split; [done|].
  split; [by apply cleared_settled|]. apply negb_false_iff in Heqb1. by eapply scanning_present.
Qed.

Lemma wp_pay_valid w0 id tx s j commitment target w :
  finep w0 w -> settled (w_state w) -> active_payout_job (st (w_state w)) = Some j ->
  governance_canister_id cfg <> None -> ps_next s = Some (tx_id tx) ->
  wp e (pay_valid cfg ledger governance lease id now_nanos now_secs tx s j commitment target)
    (page_post w0) w.
Proof.
  intros Hw Hs Hj Hgov Hnext. unfold pay_valid. wp_step. wp_step. cbv zeta.
  assert (0 <= fee_e8s j) as Hf by by apply (fi_scan _ (payout_inv_faucet _ (proj1 Hw)) j Hj).
  assert (present (w_state w)) as Hp by by unfold present; rewrite Hj.
  match goal with |- context [?g <=? fee_e8s j] => set (gross := g); destruct (Z.leb_spec gross (fee_e8s j)) end;
    [by wp_step|].
  wp_step; [by apply wp_fault_page|]. wp_step.
  eapply wp_mono; [apply wp_resolve; [exact Hw|done|done|done|lia]|].
  intros r w1 [Hw1 Hr]. destruct r as [p| |]; [|by wp_step..].
  destruct Hr as (Hs1 & Hg & Hpn & Hsub). apply wp_pay_commitment; try done. by rewrite Hpn.
Qed.

Lemma wp_payout_tx w0 job staking_id tx s w :
  finep w0 w -> settled (w_state w) -> present (w_state w) -> governance_canister_id cfg <> None ->
  wp e (payout_tx cfg ledger governance lease job staking_id now_nanos now_secs tx s) (page_post w0) w.
Proof.
  intros Hw Hs Hp Hgov. unfold payout_tx. cbv zeta. wp_step; [by wp_step|].
  wp_step. wp_step. destruct (skip_range_containing _ _) as [[r|]|err].
  - by wp_step.
  - destruct (memo_bytes_from_index_tx _ _) as [c|]; [|by wp_step].
    wp_step. wp_step. cbn [fst snd]. destruct (active_payout_job (st (w_state w))) as [j|] eqn:Hj; [|done].
    destruct (classify_commitment _ _) as [| |target]; [by wp_step..|]. by apply wp_pay_valid.
  - unfold latch_skip_range_invariant_rescue. wp_step.
    eapply wp_bookp; [done|exact Hw|]. intros Hw1. by wp_step.
Qed.

Lemma wp_payout_txs w0 job staking_id txs s w :
  finep w0 w -> settled (w_state w) -> present (w_state w) -> governance_canister_id cfg <> None ->
  wp e (payout_txs cfg ledger governance lease job staking_id now_nanos now_secs txs s) (page_post w0) w.
Proof.
  intros Hw Hs Hp Hgov. revert s w Hw Hs Hp.
  induction txs as [|tx rest IH]; intros s w Hw Hs Hp; cbn [payout_txs]; [by wp_step|].
  wp_step. eapply wp_mono; [by apply wp_payout_tx|]. intros [|s'] w1 [Hw1 Hr]; [by wp_step|].
  destruct Hr. by apply IH.
Qed.

Lemma note_page_ok resp id cursor h :
  payout_inv h -> payout_inv (note_index_page_with_lease resp lease id cursor h).
Proof.
  intros Hh. unfold note_index_page_with_lease. destruct (_ && _); [|done].
  apply payout_inv_upd; [done| | |].
  - intros j. by destruct (is_none _), (index_page_latest_tx_id _).
  - intros j _. left. by destruct (is_none _), (index_page_latest_tx_id _).
  - intros j _ Hj. eapply scan_ok_frame; [|exact Hj].
    by destruct (is_none _), (index_page_latest_tx_id _).
Qed.

Lemma note_page_settled resp id cursor h :
  settled h -> settled (note_index_page_with_lease resp lease id cursor h).
Proof.
  intros Hh. unfold note_index_page_with_lease. destruct (_ && _); [|done].
  apply settled_upd; [done|]. intros j. by destruct (is_none _), (index_page_latest_tx_id _).
Qed.

Lemma note_page_present resp id cursor h :
  present h -> present (note_index_page_with_lease resp lease id cursor h).
Proof.
  intros Hh. unfold note_index_page_with_lease. destruct (_ && _); [|done]. by apply present_upd.
Qed.

Lemma finish_page_ok id s complete last_id h :
  payout_inv h -> settled h -> payout_inv (finish_page lease id s complete last_id h).
Proof.
  intros Hh Hset. unfold finish_page. destruct (at_cursor _ _ _ _) eqn:Hcur; [|done].
  unfold at_cursor in Hcur. apply andb_true_iff in Hcur as [Hl _].
  apply payout_inv_upd; [done| | |].
  - intros j. by destruct (ps_next s), complete.
  - intros j Hj. right. by apply Hset.
  - intros j Hj Hscan. pose proof (proj2 Hh Hl j Hj) as Hphase.
    eapply scan_ok_frame; [|apply (scan_ok_progress j 0 0
      (if complete then match ps_next s with Some n => Some n | None => next_start j end else last_id)
      (if complete then true else scan_complete j) Hscan); by destruct complete].
    by destruct (ps_next s), complete.
Qed.

Lemma finish_page_settled id s complete last_id h :
  settled h -> settled (finish_page lease id s complete last_id h).
Proof.
  intros Hh. unfold finish_page. destruct (at_cursor _ _ _ _); [|done].
  apply settled_upd; [done|]. intros j. by destruct (ps_next s), complete.
Qed.

Lemma finep_fine w0 w : finep w0 w -> fine w0 w.
Proof. intros (H1 & H2 & H3). split; [apply H1|by split]. Qed.

Lemma payout_current_present job h : payout_page_current lease job h = true -> present h.
Proof.
  unfold payout_page_current, present. intros [_ Hc]%andb_true_iff.
  by destruct (active_payout_job (st h)).
Qed.

Lemma wp_payout_stage w0 job staking_id pages w :
  fine w0 w -> settled (w_state w) -> active_payout_job (st (w_state w)) = Some job ->
  effective_denom_scan_complete job = true -> governance_canister_id cfg <> None ->
  0 <= pages < MAX_INDEX_PAGES_PER_PAYOUT_TICK ->
  wp e (payout_stage cfg job ledger index governance staking_id now_nanos now_secs pages lease)
    (loop_post w0 (pages + 1)) w.
Proof.
  intros Hw Hset Hj Hphase Hgov Hpages. unfold payout_stage. wp_step. apply wp_page. intros r _.
  assert (finep w0 w) as Hwp.
  { destruct Hw as (H1 & H2 & H3). split; [|by split]. split; [done|].
    intros _ j. rewrite Hj. by intros [= <-]. }
  match goal with |- wp _ _ _ ?w => assert (finep w0 w) as Hw1; [|assert (settled (w_state w)) as Hset1;
    [by apply settled_call|set (w1 := w) in *; clearbody w1]] end.
  { apply finep_call; [apply read_page|done]. }
  pose proof (finep_fine _ _ Hw1) as Hf1.
  destruct r as [resp|]; [|by wp_step]. wp_step. wp_step. wp_step; [by wp_step|].
  apply negb_false_iff, payout_current_present in Heqb. cbv zeta. wp_step. wp_step.
  replace (sat_add pages 1) with (pages + 1) by (unfold sat_add, MAX_INDEX_PAGES_PER_PAYOUT_TICK in *; lia).
  destruct (validate_history_page _ _ _) as [complete|].
  - wp_step. eapply (wp_modify_fine e ledger _ governance now_nanos payout_inv);
      [apply note_page_ok, Hw1|exact Hw1|].
    intros Hw2. wp_step. eapply wp_mono; [apply wp_payout_txs; [exact Hw2|..|done];
      [by apply note_page_settled|by apply note_page_present]|].
    intros [|s] w3 [Hw3 Hr]; [wp_step; split; [by apply finep_fine|done]|]. destruct Hr as [Hs3 _].
    wp_step. eapply (wp_modify_fine e ledger _ governance now_nanos payout_inv);
      [by apply finish_page_ok; [apply Hw3|]|exact Hw3|].
    intros Hw4. pose proof (finep_fine _ _ Hw4) as Hf4. wp_step. wp_step. wp_step; [by wp_step|].
    wp_step; [by wp_step|]. wp_step. split; [done|]. split; [done|]. by apply finish_page_settled.
  - wp_step. eapply wp_bookp; [|exact Hw1|].
    { intros h. cbn. destruct (scanning_at_cursor _ _ _ _); [apply bookkeeping_invariant_failure|done]. }
    intros Hw2. wp_step. split; [by apply finep_fine|done].
Qed.

(** *** The driver *)

Lemma jump_ok low complete ranges h :
  faucet_inv h -> ranges_ok ranges -> settled h -> is_current_in lease (st h) = true ->
  faucet_inv (upd_job (jump_to low complete) (h <| skip_ranges := ranges |>)) /\
  settled (upd_job (jump_to low complete) (h <| skip_ranges := ranges |>)).
Proof.
  intros Hh Hr Hs Hlease. split.
  - apply faucet_inv_upd; [by apply faucet_inv_ranges| |].
    2: { intros j. unfold jump_to. cbn. unfold const. destruct complete; [by case_match|done]. }
    intros j Hj Hjob (Hf & _ & _ & Hp). specialize (Hs Hlease j Hj).
    unfold jump_to, effective_denom_scan_complete in *. split.
    + apply (job_ok_frame j); [| |right; rewrite <- Hs|done]; cbn; unfold const;
        by destruct complete, (default true (effective_denom_scan_complete_flag j)).
    + unfold scan_ok, candidate_ok, effective_denom_scan_complete.
      destruct complete, (default true (effective_denom_scan_complete_flag j)) eqn:Ef; cbn; unfold const;
        rewrite ?Ef; cbn; unfold const; rewrite ?Ef; repeat split; try done; try lia.
  - apply settled_upd; [exact Hs|]. intros j. unfold jump_to.
    cbn. unfold const. destruct complete; [by case_match|done].
Qed.

(** A round that goes on advances the page count, within the budget. *)
Definition round_post (w0 : world Heap SuiteCall) (pages : Z) (flow : Flow) (w' : world Heap SuiteCall)
    : Prop :=
  loop_post w0 (pages + 1) flow w' /\
  match flow with Loop _ => pages < MAX_INDEX_PAGES_PER_PAYOUT_TICK | Finish _ => True end.

Lemma wp_job_step w0 relay_id job staking_id pages w :
  fine w0 w -> settled (w_state w) -> active_payout_job (st (w_state w)) = Some job ->
  governance_canister_id cfg <> None -> 0 <= pages ->
  wp e (job_step relay_id cfg job ledger index governance staking_id now_nanos now_secs pages lease)
    (round_post w0 pages) w.
Proof.
  intros Hw Hset Hj Hgov Hpages. unfold job_step.
  pose proof (fi_scan _ (proj1 Hw) job Hj) as Hscan. cbv zeta.
  destruct (scan_complete job) eqn:Hsc.
  { destruct Hscan as (_ & _ & _ & ->); [|done]. cbn [negb].
    eapply wp_mono; [by apply (wp_finish_stage w0 relay_id job staking_id)|].
    by intros [b|p] w1 [H1 H2]. }
  destruct (Z.leb_spec MAX_INDEX_PAGES_PER_PAYOUT_TICK pages) as [|Hlt]; [by wp_step|].
  wp_step. wp_step.
  destruct (skip_cached_history_cases job lease (w_state w)) as
    [(r & E & Hr)|(? & low & ? & oldest & j & ranges & E & _ & _ & _ & Hl & _ & Hra & _)];
    [apply (fi_ranges _ (proj1 Hw))|intros j Hj'; by apply (fi_scan _ (proj1 Hw))| |]; rewrite E; wp_step; wp_step.
  - assert (World (w_state w) (w_trace w) = w) as -> by by destruct w.
    destruct r as [[]|err]; [done| |].
    + eapply wp_mono with (Q := loop_post w0 (pages + 1)); [|intros [] ? ?; by split].
      destruct (effective_denom_scan_complete job) eqn:Hd; cbn [negb];
        [by apply wp_payout_stage|by apply wp_denom_stage].
    + eapply wp_mono; [by apply (wp_fault w0 (pages + 1))|]. intros [] ? ?; by split.
  - destruct (jump_ok low (low =? oldest) ranges (w_state w) (proj1 Hw) Hra Hset Hl) as [H1 H2].
    wp_step. split; [|done]. split; [by apply fine_state|done].
Qed.

(** A round settles what was pending, or advances the page count. *)
Lemma wp_driver_step w0 relay_id staking_id pages w :
  fine w0 w -> governance_canister_id cfg <> None -> 0 <= pages ->
  wp e (driver_step relay_id cfg ledger index governance staking_id now_nanos now_secs pages lease)
    (fun flow w' => fine w0 w' /\
       match flow with
       | Finish _ => True
       | Loop p => settled (w_state w') /\
           (p = pages + 1 /\ pages < MAX_INDEX_PAGES_PER_PAYOUT_TICK \/
            p = pages /\ ~ settled (w_state w))
       end) w.
Proof.
  intros Hw Hgov Hpages. unfold driver_step. wp_step. wp_step. wp_step; [by wp_step|].
  apply negb_false_iff in Heqb. wp_step. wp_step.
  destruct (active_payout_job (st (w_state w))) as [job|] eqn:Hj.
  2: { wp_step. eapply (wp_book e ledger _ governance now_nanos faucet_inv);
         [intros; by eapply bookkeeping_inv|intros; apply bookkeeping_bootstrap|exact Hw|].
       intros Hw1. by wp_step. }
  destruct (pending_transfer job) as [p|] eqn:Hp; cbn [is_none].
  - wp_step. eapply wp_mono; [apply (wp_drive e ledger (cmc_canister_id cfg) governance now_nanos now_secs
      faucet_inv ltac:(done) ltac:(intros; by eapply faucet_inv_step) rely_inv w0);
      [by apply (fi_scan _ (proj1 Hw) job)|done]|].
    intros driven w1 [Hw1 Hc]. wp_step; [by wp_step|]. wp_step. apply negb_false_iff in Heqb0.
    split; [done|]. split; [by apply cleared_settled, Hc|]. right. split; [done|].
    intros Hset. specialize (Hset Heqb job Hj). by rewrite Hp in Hset.
  - assert (settled (w_state w)) as Hset by (intros _ j; rewrite Hj; by intros [= <-]).
    eapply wp_mono; [by apply (wp_job_step w0)|].
    intros [b|p] w1 [[H1 H2] H3]; [done|]. destruct H2 as [-> Hs]. split; [done|]. split; [done|]. by left.
Qed.

Lemma wp_driver_loop w0 relay_id staking_id fuel pages w :
  fine w0 w -> governance_canister_id cfg <> None -> 0 <= pages <= MAX_INDEX_PAGES_PER_PAYOUT_TICK ->
  MAX_INDEX_PAGES_PER_PAYOUT_TICK - pages + 2 <= Z.of_nat fuel \/
    settled (w_state w) /\ MAX_INDEX_PAGES_PER_PAYOUT_TICK - pages + 1 <= Z.of_nat fuel ->
  wp e (driver_loop relay_id fuel cfg ledger index governance staking_id now_nanos now_secs pages lease)
    (fun _ w' => fine w0 w') w.
Proof.
  intros Hw Hgov. revert pages w Hw.
  induction fuel as [|fuel IH]; intros pages w Hw Hpages Hfuel; [lia|].
  cbn [driver_loop]. wp_step. eapply wp_mono; [apply wp_driver_step; [exact Hw|done|lia]|].
  intros [b|p] w1 [Hw1 Hp]; [by wp_step|]. destruct Hp as [Hs Hp].
  apply IH; [done| |right]; destruct Hp as [[-> Hlt]|[-> Hns]]; [lia|lia| |];
    split; try done; destruct Hfuel as [|[? ?]]; try done; lia.
Qed.

End start.

Section run.
Context `{A : AccountSpec} `{H : HashSpec} `{T : TextSpec} {EH : EventHorizon}.
Context (e : env Heap SuiteCall) (self_id relay_id ledger index governance : Principal)
        (now_nanos now_secs : Z) (lease : MainLeaseToken).

(** What the faucet's other messages do while a call is outstanding: they
    keep the invariant, and as long as the lease of the run is current they
    leave its job alone. *)
Definition lease_rely : Prop :=
  (forall n h, faucet_inv h -> faucet_inv (env_interleave e n h)) /\
  (forall n h, is_current_in lease (st (env_interleave e n h)) = true ->
     is_current_in lease (st h) = true /\
     active_payout_job (st (env_interleave e n h)) = active_payout_job (st h)).

Lemma faucet_payout_spec w :
  well_typed_replies e -> lease_rely -> faucet_inv (w_state w) -> commits w ->
  wp e (process_payout_with_lease self_id relay_id ledger index governance now_nanos now_secs lease)
    (fun _ w' => fine ledger (cmc_canister_id (config (st (w_state w)))) governance now_nanos
                   faucet_inv w w') w.
Proof.
  intros Htyped [Hr Hl] Hinv Hcommits. set (cfg := config (st (w_state w))).
  assert (fine ledger (cmc_canister_id cfg) governance now_nanos faucet_inv w w) as Hw.
  { split; [done|]. split; [done|]. apply traced_refl. }
  assert (governance_canister_id cfg <> None) as Hgov by apply (fi_governance _ Hinv).
  unfold process_payout_with_lease. wp_step. wp_step. wp_step; [by wp_step|].
  do 5 wp_step. fold cfg.
  eapply wp_mono with (Q := start_post ledger governance now_nanos cfg w).
  - destruct (is_none _); [by apply wp_start_job|wp_step; by split].
  - intros [b|p] w1 [Hw1 Hp]; [by wp_step|]. subst p.
    apply wp_driver_loop; [done..|by cbv|left; by cbv].
Qed.

(** C2: A payout run is safe and terminates.  Whatever the ledger, the index,
    governance and the CMC answer (within their types) and whatever other
    messages do under [lease_rely], [process_payout_with_lease] returns: it
    neither panics nor exceeds its page budget.  The faucet invariant (gross
    outflow within the pot, an ordered cache of disjoint ranges, a scan cursor
    that matches the open span and the staged transfer, the payout pass after
    the denominator pass, funding transfers newer than the processed one)
    holds at the end and in every state committed with a call, and every call
    dispatched is a read or a transfer event of the staged job. *)
Theorem process_payout_returns_safe (w : world Heap SuiteCall) (Htyped : well_typed_replies e)
    (Hrely : lease_rely) (Hinv : faucet_inv (w_state w)) (Hcommits : commits w) :
  exists b w',
    process_payout_with_lease self_id relay_id ledger index governance now_nanos now_secs lease e w
      = (Returned b, w') /\
    faucet_inv (w_state w') /\ commits w' /\
    traced (payout_event ledger (cmc_canister_id (config (st (w_state w)))) governance now_nanos)
      (w_trace w) w'.
Proof.
  destruct (wp_returns _ _ _ _ (faucet_payout_spec w Htyped Hrely Hinv Hcommits))
    as (b & w' & E & H1 & H2 & H3). by exists b, w'.
Qed.

(** The ledger transfer of a call. *)
Definition debit_of (ev : event Heap SuiteCall) : option (TransferArg * Heap) :=
  match ev with
  | Dispatch c h => match c with IcrcTransfer _ arg => Some (arg, h) | _ => None end
  end.

Lemma payout_event_debit cmc_id ev arg h :
  payout_event ledger cmc_id governance now_nanos ev -> debit_of ev = Some (arg, h) ->
  exists j p, active_payout_job (st h) = Some j /\ pending_transfer j = Some p /\
    phase p = AwaitingTransfer /\
    amount arg = amount_e8s (notification p) /\
    created_at_time arg = Some (created_at_time_nanos p) /\
    dispatch h = Some (MkDispatch (job_id j) p true).
Proof.
  intros [[(?&?&->)|[(?&?&?&->)|[(?&?&?&?&?&->)|[(?&?&?&->)|(?&?&->)]]]]|(fee_ & _ & [Ht|Hs])]; try done.
  - destruct Ht as (h1 & h0 & id & p & to_ & -> & Hc & Hph & _ & _ & Hd). cbn. intros [= <- <-].
    apply current_matches, pending_matches_iff in Hc as (j & Hj & <- & Hp). by exists j, p.
  - by destruct Hs as (h1 & id & p & _ & _ & [->|(n & _ & ->)]).
Qed.

(** C3: No debit runs ahead of its bookkeeping.  In every state committed
    with a ledger transfer of a payout run, the job has staged exactly that
    transfer (amount and creation time, hence its ledger identity) and marked
    it as possibly debited; its gross share still fits the pot; the scan
    cursor already stands at the record it pays, so that no later page (whose
    ids lie below the cursor) contains that record again; and the job's funding
    transfer is newer than every processed one. *)
Theorem payout_debits_are_recorded (w : world Heap SuiteCall) (Htyped : well_typed_replies e)
    (Hrely : lease_rely) (Hinv : faucet_inv (w_state w)) (Hcommits : commits w) :
  exists b w' new,
    process_payout_with_lease self_id relay_id ledger index governance now_nanos now_secs lease e w
      = (Returned b, w') /\ w_trace w' = new ++ w_trace w /\
    forall ev arg h, In ev new -> debit_of ev = Some (arg, h) ->
      exists j p, active_payout_job (st h) = Some j /\ pending_transfer j = Some p /\
        amount arg = amount_e8s (notification p) /\
        created_at_time arg = Some (created_at_time_nanos p) /\
        dispatch h = Some (MkDispatch (job_id j) p true) /\
        gross_outflow_e8s j + gross_share_e8s (notification p) <= pot_start_e8s j /\
        (forall i, pn_next_start (notification p) = Some i -> next_start j = Some i) /\
        (forall i, funding_tx_id j = Some i -> unprocessed (last_processed_funding_tx_id (st h)) i).
Proof.
  destruct (wp_returns _ _ _ _ (faucet_payout_spec w Htyped Hrely Hinv Hcommits))
    as (b & w' & E & _ & Hc & new & Ht & Hnew).
  exists b, w', new. split; [done|]. split; [done|]. intros ev arg h Hin Hev.
  unfold commits in Hc. rewrite List.Forall_forall in Hnew, Hc.
  destruct (payout_event_debit _ _ _ _ (Hnew ev Hin) Hev) as (j & p & Hj & Hp & Hph & Ha & Ht' & Hd).
  assert (faucet_inv h) as Hh.
  { specialize (Hc ev ltac:(rewrite Ht; apply in_or_app; by left)).
    destruct ev as [X c s]. cbn in Hev. destruct c; try done. by injection Hev as _ <-. }
  pose proof (fi_job _ Hh) as Hok. unfold job_inv in Hok. rewrite Hj in Hok.
  destruct Hok as (_ & _ & Hok). rewrite Hp in Hok. destruct Hok as (_ & Hfit & _ & Hcur).
  exists j, p. repeat (split; [by auto|]). intros i Hi. by apply (fi_unprocessed _ Hh j).
Qed.

End run.

(** ** From a funding transfer to a finished job *)

Section tranche.
Context `{A : AccountSpec} `{H : HashSpec} `{T : TextSpec}.
Context (payout_id source_id : list Z) (last_processed : option Z) (fee_ : Z).

(** A transfer from the funding source to the payout account that exceeds the
    ledger fee. *)
Definition qualifies (tx : IndexTransactionWithId) : Prop :=
  match tx_operation (transaction tx) with
  | IndexTransfer from to_ amount _ _ => from = source_id /\ to_ = payout_id /\ fee_ < amount
  | _ => False
  end.

Definition tranche_of (tx : IndexTransactionWithId) (t : FundingTrancheState) : Prop :=
  tranche_tx_id t = tx_id tx /\ index_tx_timestamp_nanos tx = Some (tranche_timestamp_nanos t) /\
  match tx_operation (transaction tx) with
  | IndexTransfer _ _ amount _ _ => tranche_amount_e8s t = amount | _ => False end.

(** The candidate is at or below [id]. *)
Definition at_or_below (best : option FundingTrancheState) (id : Z) : Prop :=
  exists t, best = Some t /\ tranche_tx_id t <= id.

Lemma funding_page_tx tx rest best r :
  funding_page payout_id source_id last_processed fee_ (tx :: rest) best = Some r ->
  unprocessed last_processed (tx_id tx) ->
  exists best1, funding_page payout_id source_id last_processed fee_ rest best1 = Some r /\
    (forall id, at_or_below best id -> at_or_below best1 id) /\
    (qualifies tx -> at_or_below best1 (tx_id tx)) /\
    (forall t, best1 = Some t -> best = Some t \/ qualifies tx /\ tranche_of tx t).
Proof.
  intros E Hun. cbn [funding_page] in E. destruct (is_some_and last_processed _) eqn:Hl.
  { destruct last_processed as [l|]; [|done]. cbn in Hl. specialize (Hun l eq_refl). zify_bool. lia. }
  assert ((qualifies tx -> False) ->
    funding_page payout_id source_id last_processed fee_ rest best = Some r -> exists best1,
    funding_page payout_id source_id last_processed fee_ rest best1 = Some r /\
    (forall id, at_or_below best id -> at_or_below best1 id) /\
    (qualifies tx -> at_or_below best1 (tx_id tx)) /\
    (forall t, best1 = Some t -> best = Some t \/ qualifies tx /\ tranche_of tx t)) as Hskip.
  { intros Hno E1. exists best. split; [done|]. split; [done|]. split; [by intros ?%Hno|]. by left. }
  unfold qualifies, tranche_of in *.
  destruct (tx_operation (transaction tx)) as [from to_ amount f sp|to_ a|from a sp|from sp a f x y];
    try by apply Hskip.
  destruct (bool_decide_reflect (from = source_id)) as [Hs|Hs]; [|apply Hskip; [by intros []|exact E]].
  destruct (bool_decide_reflect (to_ = payout_id)) as [Hp|Hp]; [|apply Hskip; [by intros (_&?&_)|exact E]].
  destruct (Z.ltb_spec fee_ amount) as [Hfee|]; [|apply Hskip; [intros (_&_&?); lia|exact E]].
  cbn [andb] in E. destruct (index_tx_timestamp_nanos tx) as [time|] eqn:Et; [|done].
  eexists. split; [exact E|]. destruct best as [old|]; cbn [tranche_tx_id].
  - destruct (Z.ltb_spec (tx_id tx) (tranche_tx_id old)).
    + split; [|split]; [|intros _; by eexists|intros t [= <-]; by right].
      intros id (t & [= <-] & Hle). eexists. split; [done|]. cbn. lia.
    + split; [done|]. split; [intros _; by exists old|]. by left.
  - split; [by intros id (t & ? & _)|]. split; [intros _; by eexists|]. intros t [= <-]. by right.
Qed.

(** The scan of a page selects the oldest unprocessed funding transfer.
    On a descending page that is readable, the updated candidate is at or below
    the old one and every qualifying transfer newer than the processed one; it
    is the old candidate or such a transfer of the page, with its time and
    amount; and the scan is reported to reach processed history exactly when
    the page contains a record that is not newer. *)
Theorem funding_page_selects_oldest txs best best' reached
    (Hdesc : descending (map tx_id txs))
    (Hrun : funding_page payout_id source_id last_processed fee_ txs best = Some (best', reached)) :
  (forall id, at_or_below best id -> at_or_below best' id) /\
  (forall tx, In tx txs -> unprocessed last_processed (tx_id tx) -> qualifies tx ->
     at_or_below best' (tx_id tx)) /\
  (forall t, best' = Some t -> best = Some t \/
     exists tx, In tx txs /\ unprocessed last_processed (tx_id tx) /\ qualifies tx /\ tranche_of tx t) /\
  (reached = true <-> exists tx, In tx txs /\ ~ unprocessed last_processed (tx_id tx)).
Proof.
  revert best Hrun. induction txs as [|tx rest IH]; intros best Hrun.
  { injection Hrun as -> <-. split; [done|]. split; [done|]. split; [by left|].
    split; [done|]. by intros (? & [] & _). }
  cbn [map] in Hdesc. inversion_clear Hdesc as [|? ? Hs Hf]. rewrite List.Forall_forall in Hf.
  destruct (is_some_and last_processed (fun l => tx_id tx <=? l)) eqn:Hl.
  - cbn [funding_page] in Hrun. rewrite Hl in Hrun. injection Hrun as -> <-.
    destruct last_processed as [l|]; [|done]. cbn in Hl. zify_bool.
    assert (forall tx', In tx' (tx :: rest) -> ~ unprocessed (Some l) (tx_id tx')) as Hold.
    { intros tx' Hin Hun. specialize (Hun l eq_refl). destruct Hin as [<-|Hin]; [lia|].
      specialize (Hf (tx_id tx') (in_map tx_id _ _ Hin)). cbn in Hf. lia. }
    split; [done|]. split; [intros tx' Hin Hun; by destruct (Hold tx' Hin)|]. split; [by left|].
    split; [|done]. intros _. exists tx. split; [by left|]. apply Hold. by left.
  - assert (unprocessed last_processed (tx_id tx)) as Hun
      by (intros l ->; cbn in Hl; zify_bool; lia).
    destruct (funding_page_tx _ _ _ _ Hrun Hun) as (best1 & E1 & Hkeep & Hq & Hsrc).
    destruct (IH Hs best1 E1) as (I1 & I2 & I3 & I4).
    split; [auto|]. split; [|split].
    + intros tx' [<-|Hin]; auto.
    + intros t Ht. destruct (I3 t Ht) as [Hb|(tx' & Hin & Hr)]; [|right; exists tx'; by split; [right|]].
      destruct (Hsrc t Hb) as [?|[Hq' Hof]]; [by left|]. right. exists tx. by split; [left|].
    + rewrite I4. split; intros (tx' & Hin & Hn); exists tx'; (split; [|done]); [by right|].
      destruct Hin as [<-|Hin]; [by destruct Hn|done].
Qed.

(** A funding transfer opens exactly one payout round.  With no job active,
    the new job takes the next nonce, its pot is the transferred amount, its
    boundary is the transfer itself (id and time) and the round continues from
    the end of the last one; nothing is paid, staged or scanned yet, and the
    denominator starts at zero.  With a job active nothing changes. *)
Theorem tranche_opens_round now_nanos denom (tranche : FundingTrancheState) (h : Heap) :
  let h' := ensure_active_job_with_boundary now_nanos fee_ (tranche_amount_e8s tranche) denom
              (tranche_timestamp_nanos tranche) (Some (tranche_tx_id tranche)) (Some tranche) h in
  match active_payout_job (st h) with
  | Some _ => h' = h
  | None => exists j, active_payout_job (st h') = Some j /\
      job_id j = payout_nonce (st h) /\ payout_nonce (st h') = sat_add (payout_nonce (st h)) 1 /\
      pot_start_e8s j = tranche_amount_e8s tranche /\ fee_e8s j = fee_ /\
      funding_tx_id j = Some (tranche_tx_id tranche) /\
      round_end_latest_tx_id j = Some (tranche_tx_id tranche) /\
      round_end_time_nanos j = Some (tranche_timestamp_nanos tranche) /\
      round_start_time_nanos j = current_round_start_time_nanos (st h) /\
      (current_round_start_time_nanos (st h) <> None ->
         round_start_latest_tx_id j = current_round_start_latest_tx_id (st h)) /\
      gross_outflow_e8s j = 0 /\ pending_transfer j = None /\ next_start j = None /\
      scan_complete j = false /\ effective_denom_scan_complete j = false /\
      effective_denom_e8s j = 0 /\
      last_processed_funding_tx_id (st h') = last_processed_funding_tx_id (st h) /\
      skip_ranges h' = skip_ranges h
  end.
Proof.
  cbv zeta. unfold ensure_active_job_with_boundary.
  destruct (active_payout_job (st h)) as [j|]; [done|]. eexists. split; [reflexivity|].
  unfold new_job. by destruct (current_round_start_time_nanos (st h)) eqn:E; rewrite <- ?E.
Qed.

(** Finishing a job closes its funding transfer for good: no job is left,
    the transfer becomes the last processed one and is newer than the one
    before, the next round starts where this one ended, the summary of the job
    is kept, and the cache, the configuration and the nonce stay. *)
Theorem finalize_closes_tranche (job : ActivePayoutJob) (counts : bool) (now_secs i : Z) (h : Heap)
    (Hinv : faucet_inv h) (Hjob : active_payout_job (st h) = Some job)
    (Hid : funding_tx_id job = Some i) :
  let h' := finalize_state job counts now_secs h in
  active_payout_job (st h') = None /\
  last_processed_funding_tx_id (st h') = Some i /\
  unprocessed (last_processed_funding_tx_id (st h)) i /\
  (forall t, round_end_time_nanos job = Some t -> current_round_start_time_nanos (st h') = Some t) /\
  last_summary (st h') = Some (summary_from_job job) /\
  skip_ranges h' = skip_ranges h /\ config (st h') = config (st h).
Proof.
  pose proof (fi_unprocessed _ Hinv job i Hjob Hid) as Hun.
  destruct (finalize_state_frame job counts now_secs h) as (E1 & E2 & E3 & _). cbv zeta.
  split; [done|]. split; [|split; [done|]; split; [|split; [|by split]]];
    unfold finalize_state; cbn; rewrite ?Hid; cbn; unfold const; try done.
  by intros t ->.
Qed.

End tranche.

(** ** Witnesses *)

Section witnesses.
Import Concrete ConcreteTexts ConcreteHash ConcreteFaucet.
Let env0 : env (Heap (P:=concrete_principal)) SuiteCall := quiet_env 5 1000000 10000.
Let world0 : world (Heap (P:=concrete_principal)) SuiteCall := World busy [].

Lemma busy_faucet_inv : faucet_inv (P:=concrete_principal) busy.
Proof.
  constructor; [|split; constructor| |done|done| |cbn; lia].
  - unfold job_inv, job_ok, pending_ok. cbn.
    split; [lia|]. split; [lia|]. split; [lia|]. split; [lia|]. by split.
  - intros j [= <-]. unfold scan_ok, candidate_ok. cbn. repeat split; try done; lia.
  - by intros j i [= <-].
Qed.

Lemma quiet_typed : well_typed_replies env0.
Proof.
  split.
  - intros n l f Hf. injection Hf as <-. lia.
  - intros n i a s k page Hp. injection Hp as <-. constructor.
Qed.

Lemma quiet_rely lease : lease_rely env0 lease.
Proof. split; [intros n h Hh; exact Hh|]. intros n h Hh. split; [exact Hh|reflexivity]. Qed.

#[local] Instance concrete_event_horizon : EventHorizon := {
  event_horizon := 1000;
  event_horizon_text := eq_refl;
}.

Lemma process_payout_returns_safe_witness : exists b w',
  process_payout_with_lease (principal 9) (principal 11) (principal 5) (principal 6) (principal 3)
    2000 0 (Some 900) env0 world0 = (Returned b, w') /\ faucet_inv (w_state w').
Proof.
  destruct (process_payout_returns_safe env0 (principal 9) (principal 11) (principal 5) (principal 6)
    (principal 3) 2000 0 (Some 900) world0 quiet_typed (quiet_rely _) busy_faucet_inv)
    as (b & w' & E & Hinv & _); [constructor|]. exists b, w'. split; [exact E|exact Hinv].
Defined.

Lemma payout_debits_are_recorded_witness : exists b w' new,
  process_payout_with_lease (principal 9) (principal 11) (principal 5) (principal 6) (principal 3)
    2000 0 (Some 900) env0 world0 = (Returned b, w') /\ w_trace w' = new ++ w_trace world0.
Proof.
  destruct (payout_debits_are_recorded env0 (principal 9) (principal 11) (principal 5) (principal 6)
    (principal 3) 2000 0 (Some 900) world0 quiet_typed (quiet_rely _) busy_faucet_inv)
    as (b & w' & new & E & Ht & _); [constructor|].
  exists b, w', new. split; [exact E|exact Ht].
Defined.

Definition funding_tx (id amount : Z) : IndexTransactionWithId :=
  MkTxWithId id (MkIndexTransaction 0 None (IndexTransfer [1] [2] amount 10000 None) (Some (id * 1000)) None).

(** Three funding transfers; 40 is processed, 50 is the oldest open one. *)
Lemma funding_page_selects_oldest_witness :
  at_or_below (Some (MkTranche 50 50000 300000)) 60.
Proof.
  refine (proj1 (proj2 (funding_page_selects_oldest [2] [1] (Some 40) 10000
    [funding_tx 60 500000; funding_tx 50 300000; funding_tx 40 900000] None
    (Some (MkTranche 50 50000 300000)) true _ _)) (funding_tx 60 500000) _ _ _).
  - repeat constructor.
  - reflexivity.
  - left. reflexivity.
  - intros l [= <-]. reflexivity.
  - repeat split.
Defined.

Definition finished_job : ActivePayoutJob (P:=concrete_principal) :=
  job <| pending_transfer := None |> <| funding_tx_id := Some 50 |>.
Definition finished : Heap (P:=concrete_principal) :=
  busy <| st ::= fun s => s <| active_payout_job := Some finished_job |>
                            <| last_processed_funding_tx_id := Some 40 |> |>.

Lemma finalize_closes_tranche_witness :
  last_processed_funding_tx_id (st (finalize_state finished_job false 7 finished)) = Some 50.
Proof.
  refine (proj1 (proj2 (finalize_closes_tranche finished_job false 7 50 finished _ eq_refl eq_refl))).
  constructor; [|split; constructor| |done|done| |cbn; lia].
  - unfold job_inv, job_ok. cbn. split; [lia|]. split; [lia|]. done.
  - intros j [= <-]. unfold scan_ok, candidate_ok. cbn. repeat split; try done; lia.
  - intros j i [= <-] [= <-] l [= <-]. reflexivity.
Defined.

End witnesses.
