(* ===== verification/FaucetTick.v ===== *)
(** * Faucet: main tick, retry, rescue tick and poke

    [canisters/faucet/src/scheduler/]: [tick.rs], [rescue.rs] and [poke.rs].
    Log lines are not modelled: the error codes of [finish] only reach the log. *)

From S2P Require Import Prelude Async Ic Clients TimerGuard Accounts MemoPolicy FaucetState FaucetLogic.
From S2P Require Import FaucetTransfer FaucetSkip FaucetIndex FaucetPayout.

Section tick.
Context `{A : AccountSpec} `{H : HashSpec} `{T : TextSpec} {EH : EventHorizon}.
Context (self_id relay_id : Principal).
Local Abbreviation async := (async Heap SuiteCall).

Definition MAIN_TICK_LEASE_SECONDS : Z := 15 * 60.
Definition SCHEDULED_MAIN_RETRY_SECONDS : Z := 60.
Inductive MainTickOutcome := Completed | MainGuardBusy | Deferred (remaining : Z).

(** ** The main guard *)

Record MainGuard := MkMainGuard { inner : Timer.TimerLeaseGuard }.

Definition acquire (now_secs : Z) (h : Heap) : option MainGuard * Heap :=
  match Timer.acquire now_secs MAIN_TICK_LEASE_SECONDS (main_lock_state_ts (st h)) with
  | None => (None, h)
  | Some i =>
      (Some (MkMainGuard i),
       h <| st ::= (fun s => s <| main_lock_state_ts := Some (Timer.lease_expires_at_ts i) |>) |>)
  end.

Definition lease_token (g : MainGuard) : MainLeaseToken := Some (Timer.lease_expires_at_ts (inner g)).

(** [release], which [Drop] calls. *)
Definition release (g : MainGuard) (h : Heap) : Heap :=
  if negb (Timer.is_active (inner g)) then h
  else
    match (Timer.release (inner g) (main_lock_state_ts (st h))).1 with
    | Released => h <| st ::= (fun s => s <| main_lock_state_ts := Some 0 |>) |>
    | Unchanged => h
    end.

(** ** The run marker and the one-shot retry *)

(** [None] when the marker is exhausted: the message traps. *)
Definition advance_marker (h : Heap) : option Heap :=
  match checked_add (main_run_marker h) 1 with
  | Some m => Some (h <| main_run_marker := m |> <| scheduled_main_retry_pending := None |>)
  | None => None
  end.

Definition or_trap (f : Heap -> option Heap) : async unit :=
  h ← with_state f;
  match h with Some h' => modify (fun _ => h') | None => trap end.

Definition advance_main_run_marker : async unit := or_trap advance_marker.

(** [MainGuard::finish]; the guard is inactive at the [Drop] at its end. *)
Definition finish_state (g : MainGuard) (now_secs : Z) (h : Heap) : option Heap :=
  match (Timer.release (inner g) (main_lock_state_ts (st h))).1 with
  | Released =>
      h ← advance_marker h;
      Some (h <| st ::= (fun s => s <| last_main_run_ts := now_secs |>
                                    <| main_lock_state_ts := Some 0 |>) |>)
  | Unchanged => Some h
  end.
Definition finish (g : MainGuard) (now_secs : Z) : async unit := or_trap (finish_state g now_secs).

Definition reserve_scheduled_main_retry (h : Heap) : option Z * Heap :=
  let marker := main_run_marker h in
  if bool_decide (scheduled_main_retry_pending h = Some marker) then (None, h)
  else (Some marker, h <| scheduled_main_retry_pending := Some marker |>).

Definition schedule_scheduled_main_retry (reservation retry_after_seconds : Z) : async unit :=
  modify (fun h => h <| timers ::= (fun ts => ts ++ [MainRetry reservation retry_after_seconds]) |>).

Definition retry_after (outcome : MainTickOutcome) : option Z :=
  match outcome with
  | Completed => None
  | MainGuardBusy => Some SCHEDULED_MAIN_RETRY_SECONDS
  | Deferred remaining => Some remaining
  end.

Definition run_scheduled_main_tick (run : async MainTickOutcome) : async MainTickOutcome :=
  marker ← with_state main_run_marker;
  outcome ← run;
  match retry_after outcome with
  | None => mret outcome
  | Some delay =>
      same ← with_state (fun h => main_run_marker h =? marker);
      if negb (same : bool) then mret outcome
      else
        reservation ← with_state_mut reserve_scheduled_main_retry;
        match reservation with
        | Some r => schedule_scheduled_main_retry r delay ;; mret outcome
        | None => mret outcome
        end
  end.

Definition consume_reservation (reservation : Z) (h : Heap) : bool * Heap :=
  if bool_decide (scheduled_main_retry_pending h = Some reservation)
  then (true, h <| scheduled_main_retry_pending := None |>)
  else (false, h).

Definition run_scheduled_main_retry (reservation : Z) (run : async MainTickOutcome) : async unit :=
  owns ← with_state_mut (consume_reservation reservation);
  marker ← with_state main_run_marker;
  if (owns : bool) && (marker =? reservation)
  then run_scheduled_main_tick run ;; mret tt
  else mret tt.

(** ** Rescue *)

Definition desired_rescue_controllers (now_secs : Z) (autonomous_rescue_armed_ : bool)
    (last_xfer_opt : option Z) (rescue_controller_ : Principal)
    (forced_reason_present skip_range_fault : bool) : option (list Principal) :=
  if negb autonomous_rescue_armed_ then None
  else
    desired ← (if forced_reason_present || skip_range_fault then Some [rescue_controller_; self_id]
               else Policy.desired_controllers now_secs last_xfer_opt self_id rescue_controller_);
    Some (dedup (sort_by_text desired)).

Definition controller_update_settings (controllers : list Principal) : UpdateSettingsArgs := {|
  settings_canister_id := self_id;
  settings_controllers := Some controllers;
  settings_log_visibility := Some LogPublic;
  settings_status_visibility := Some LogPublic;
|}.

(** The controllers that state [s] calls for. *)
Definition rescue_request (now_secs : Z) (s : State) : option (list Principal) :=
  desired_rescue_controllers now_secs (default false (autonomous_rescue_armed (config s)))
    (last_successful_transfer_ts s) (rescue_controller (config s))
    (is_some (forced_rescue_reason s)) (default false (skip_range_invariant_fault s)).

Definition record_rescue (now_secs : Z) (lease : option MainLeaseToken) (rescue_active : bool)
    (h : Heap) : Heap :=
  if is_some_and lease (fun lease => negb (is_current_in lease (st h))) then h
  else h <| st ::= (fun s => s <| last_rescue_check_ts := now_secs |>
                               <| rescue_triggered := rescue_active |>) |>.

Definition attempt_rescue_with_optional_main_lease (now_secs : Z) (lease : option MainLeaseToken)
    : async unit :=
  modify (maybe_latch_bootstrap_rescue now_secs) ;;
  s ← with_state st;
  match rescue_request now_secs s with
  | None => mret tt
  | Some desired =>
      let rescue_active := bool_decide (rescue_controller (config s) ∈ desired) in
      r ← update_settings (controller_update_settings desired);
      match r with
      | Err _ => mret tt
      | Ok _ => modify (record_rescue now_secs lease rescue_active)
      end
  end.

Definition attempt_rescue (now_secs : Z) : async unit :=
  attempt_rescue_with_optional_main_lease now_secs None.
Definition attempt_rescue_with_main_lease (now_secs : Z) (lease : MainLeaseToken) : async unit :=
  attempt_rescue_with_optional_main_lease now_secs (Some lease).

(** ** The main tick *)

Definition main_tick_remaining (now_secs : Z) (s : State) : Z :=
  sat_sub (sat_add (last_main_run_ts s) (sat_sub (main_interval_seconds (config s)) 60)) now_secs.

Definition run_main_tick_with_clients (force : bool) (now_nanos now_secs : Z)
    (ledger index governance : Principal) : async MainTickOutcome :=
  g ← with_state_mut (acquire now_secs);
  match g with
  | None => mret MainGuardBusy
  | Some guard =>
      let lease := lease_token guard in
      remaining ← with_state (fun h => main_tick_remaining now_secs (st h));
      if negb force && (0 <? remaining)
      then modify (release guard) ;; mret (Deferred remaining)
      else
        advance_main_run_marker ;;
        ok ← process_payout_with_lease self_id relay_id ledger index governance now_nanos now_secs lease;
        current ← with_state (fun h => is_current_in lease (st h));
        (if (ok : bool) && current then attempt_rescue_with_main_lease now_secs lease else mret tt) ;;
        finish guard now_secs ;; mret Completed
  end.

Definition main_tick (force : bool) : async MainTickOutcome :=
  now_nanos ← now;
  cfg ← with_state (fun h => config (st h));
  match governance_canister_id cfg with
  | None => trap
  | Some governance =>
      run_main_tick_with_clients force now_nanos (now_nanos / 1000000000)
        (ledger_canister_id cfg) (index_canister_id cfg) governance
  end.

Definition scheduled_main_tick : async MainTickOutcome :=
  run_scheduled_main_tick (main_tick false).

(** [rescue_tick]: reconcile the controllers, then resume an unfinished job. *)
Definition rescue_tick : async unit :=
  t ← now;
  attempt_rescue (t / 1000000000) ;;
  has_active_job ← with_state (fun h => negb (is_none (active_payout_job (st h))));
  if has_active_job : bool then main_tick true ;; mret tt else mret tt.

(** ** Event Horizon pokes *)

Definition EVENT_HORIZON_POKE_INTERVAL_SECONDS : Z := 10.
Definition NANOS_PER_SECOND : Z := 1000000000.
Inductive DeferredTimerAction := Stop | Reschedule (delay_ns : Z) | Attempt.

Definition record_hint (now_ns : Z) (r : PokeRuntimeState) : bool * PokeRuntimeState :=
  if timer_pending r then (false, r)
  else (true, r <| due_at_ns := Some (sat_add now_ns
                     (EVENT_HORIZON_POKE_INTERVAL_SECONDS * NANOS_PER_SECOND)) |>
                <| timer_pending := true |>).

Definition admit_attempt (now_ns : Z) (r : PokeRuntimeState) : bool * PokeRuntimeState :=
  if now_ns <? next_attempt_allowed_at_ns r then (false, r)
  else (true, r <| next_attempt_allowed_at_ns :=
                 sat_add now_ns (EVENT_HORIZON_POKE_INTERVAL_SECONDS * NANOS_PER_SECOND) |>).

Definition deferred_timer_action (now_ns : Z) (r : PokeRuntimeState)
    : DeferredTimerAction * PokeRuntimeState :=
  match due_at_ns r with
  | Some due =>
      if now_ns <? due then (Reschedule (due - now_ns), r)
      else (Attempt, r <| due_at_ns := None |> <| timer_pending := false |>)
  | None => (Stop, r <| timer_pending := false |>)
  end.

Definition run_worker_with_clients (now_nanos now_secs : Z) (ledger index governance : Principal)
    : async unit :=
  g ← with_state_mut (acquire now_secs);
  match g with
  | None => mret tt
  | Some guard =>
      process_payout_with_lease self_id relay_id ledger index governance now_nanos now_secs
        (lease_token guard) ;;
      modify (release guard)
  end.

Definition run_worker : async unit :=
  now_nanos ← now;
  cfg ← with_state (fun h => config (st h));
  match governance_canister_id cfg with
  | None => trap
  | Some governance =>
      run_worker_with_clients now_nanos (now_nanos / NANOS_PER_SECOND)
        (ledger_canister_id cfg) (index_canister_id cfg) governance
  end.

Definition with_poke {X} (f : PokeRuntimeState -> X * PokeRuntimeState) : async X :=
  with_state_mut (fun h => let '(x, r) := f (poke_runtime h) in (x, h <| poke_runtime := r |>)).

Definition set_timer (t : TimerTask) : async unit :=
  modify (fun h => h <| timers ::= (fun ts => ts ++ [t]) |>).

(** The callback of a [DeferredPoke] timer; that of a [PokeWorker] is
    [run_worker]. *)
Definition deferred_callback : async unit :=
  t ← now;
  action ← with_poke (deferred_timer_action t);
  match action with
  | Stop => mret tt
  | Reschedule remaining => set_timer (DeferredPoke remaining)
  | Attempt =>
      t ← now;
      admitted ← with_poke (admit_attempt t);
      if admitted : bool then run_worker else mret tt
  end.

Definition handle_event_horizon_poke : async unit :=
  now_ns ← now;
  should_schedule ← with_poke (record_hint now_ns);
  (if should_schedule : bool
   then set_timer (DeferredPoke (EVENT_HORIZON_POKE_INTERVAL_SECONDS * NANOS_PER_SECOND))
   else mret tt) ;;
  admitted ← with_poke (admit_attempt now_ns);
  if admitted : bool then set_timer PokeWorker else mret tt.

End tick.

(** ** The main tick *)

Section main_spec.
Context `{A : AccountSpec} `{H : HashSpec} `{T : TextSpec} {EH : EventHorizon}.
Context (self_id relay_id : Principal) (e : env Heap SuiteCall)
        (ledger index governance cmc_id : Principal) (now_nanos now_secs : Z).

(** The controller update of a tick: what the state calls for, under the lease. *)
Definition rescue_event (lease : MainLeaseToken) (ev : event Heap SuiteCall) : Prop :=
  exists h l, ev = Dispatch (UpdateSettings (controller_update_settings self_id l)) h /\
    rescue_request self_id now_secs (st h) = Some l /\ is_current_in lease (st h) = true.

Definition tick_event (lease : MainLeaseToken) (ev : event Heap SuiteCall) : Prop :=
  payout_event ledger cmc_id governance now_nanos ev \/ rescue_event lease ev.

Definition tick_fine (lease : MainLeaseToken) (w0 w : world Heap SuiteCall) : Prop :=
  faucet_inv (w_state w) /\ commits w /\ traced (tick_event lease) (w_trace w0) w.

(** Changes that the invariant does not look at. *)
Lemma faucet_inv_same h h' :
  active_payout_job (st h') = active_payout_job (st h) -> skip_ranges h' = skip_ranges h ->
  config (st h') = config (st h) -> active_funding_scan (st h') = active_funding_scan (st h) ->
  last_processed_funding_tx_id (st h') = last_processed_funding_tx_id (st h) ->
  main_run_marker h' <= 2 ^ 63 -> faucet_inv h -> faucet_inv h'.
Proof.
  intros E1 E2 E3 E4 E5 Hm [H1 H2 H3 H4 H5 H6 _].
  constructor; [unfold job_inv; by rewrite E1|by rewrite E2|by rewrite E1|by rewrite E3|by rewrite E4| |done].
  rewrite E1, E5. exact H6.
Qed.

Lemma wp_attempt_rescue lease w0 w :
  (forall n h, faucet_inv h -> faucet_inv (env_interleave e n h)) ->
  tick_fine lease w0 w -> is_current_in lease (st (w_state w)) = true ->
  wp e (attempt_rescue_with_main_lease self_id now_secs lease) (fun _ w' => tick_fine lease w0 w') w.
Proof.
  intros Hrely (Hi & Hc & Ht) Hl. unfold attempt_rescue_with_main_lease, attempt_rescue_with_optional_main_lease.
  wp_step. wp_step. wp_step. wp_step.
  pose proof (bookkeeping_bootstrap now_secs (w_state w)) as Hb.
  pose proof (bookkeeping_inv _ _ Hb Hi) as Hi1. destruct Hb as (_ & _ & _ & El & _).
  set (h1 := maybe_latch_bootstrap_rescue now_secs (w_state w)) in *.
  cbn [w_state].
  destruct (rescue_request self_id now_secs (st h1)) as [l|] eqn:Hr; [|wp_step; exact (conj Hi1 (conj Hc Ht))].
  cbv zeta. wp_step. apply wp_update_settings. intros r.
  assert (tick_fine lease w0 (after_call e (UpdateSettings (controller_update_settings self_id l))
    (World h1 (w_trace w)))) as Hw2.
  { split; [by apply Hrely|]. split; [by constructor|].
    apply (traced_cons _ _ _ (w_state w)); [|exact Ht]. right. exists h1, l. split; [done|]. split; [done|].
    unfold is_current_in in *. by rewrite El. }
  destruct r as [[]|err]; [|by wp_step]. wp_step. destruct Hw2 as (H1 & H2 & H3).
  split; [|by split]. cbn [w_state]. unfold record_rescue.
  destruct (is_some_and _ _); [done|]. eapply faucet_inv_same; [..|exact H1]; try done. apply H1.
Qed.

(** The guard that the run acquires. *)
Definition run_guard : MainGuard :=
  MkMainGuard {| Timer.active := true;
                 Timer.lease_expires_at_ts := sat_add now_secs MAIN_TICK_LEASE_SECONDS |}.

Lemma acquire_cases h :
  (acquire now_secs h = (None, h) /\ now_secs < default 0 (main_lock_state_ts (st h))) \/
  (acquire now_secs h
     = (Some run_guard, h <| st ::= fun s => s <| main_lock_state_ts := lease_token run_guard |> |>) /\
   default 0 (main_lock_state_ts (st h)) <= now_secs).
Proof.
  unfold acquire. destruct (Timer.acquire _ _ _) as [g|] eqn:E.
  - apply timer_acquire_Some in E as [Hle ->]. by right.
  - left. split; [done|]. unfold Timer.acquire in E. case_match; [|done]. by zify_bool.
Qed.

Lemma wp_or_trap f (Q : unit -> world Heap SuiteCall -> Prop) w h :
  f (w_state w) = Some h -> Q tt (World h (w_trace w)) -> wp e (or_trap f) Q w.
Proof. intros E HQ. unfold or_trap. wp_step. wp_step. rewrite E. by wp_step. Qed.

Lemma advance_bounded h :
  main_run_marker h <= 2 ^ 63 ->
  advance_marker h = Some (h <| main_run_marker := main_run_marker h + 1 |>
                             <| scheduled_main_retry_pending := None |>).
Proof.
  intros Hm. unfold advance_marker, checked_add. by rewrite (proj2 (Z.leb_le _ _)) by ulia.
Qed.

Lemma finish_bounded h :
  main_run_marker h <= 2 ^ 63 -> exists h', finish_state run_guard now_secs h = Some h'.
Proof.
  intros Hm. unfold finish_state. destruct (Timer.release _ _).1; [|by eexists].
  rewrite advance_bounded by done. by eexists.
Qed.

(** The run from the acquired lease. *)
Lemma admitted_run_spec w :
  well_typed_replies e -> lease_rely e (lease_token run_guard) -> faucet_inv (w_state w) -> commits w ->
  main_run_marker (w_state w) < 2 ^ 63 -> cmc_id = cmc_canister_id (config (st (w_state w))) ->
  wp e (advance_main_run_marker ;;
        ok ← process_payout_with_lease self_id relay_id ledger index governance now_nanos now_secs
               (lease_token run_guard);
        current ← with_state (fun h => is_current_in (lease_token run_guard) (st h));
        (if (ok : bool) && current
         then attempt_rescue_with_main_lease self_id now_secs (lease_token run_guard) else mret tt) ;;
        finish run_guard now_secs ;; mret Completed)
    (fun out w' => out = Completed /\ commits w' /\
       traced (tick_event (lease_token run_guard)) (w_trace w) w' /\
       exists h, faucet_inv h /\ finish_state run_guard now_secs h = Some (w_state w')) w.
Proof.
  intros Htyped Hrely Hinv Hcom Hm Hcmc. wp_step.
  eapply wp_or_trap; [apply advance_bounded; lia|]. wp_step.
  set (w1 := World _ _).
  assert (faucet_inv (w_state w1)) as Hinv1
    by (eapply faucet_inv_same; [..|exact Hinv]; try done; cbn; unfold const; lia).
  eapply wp_mono; [by apply (faucet_payout_spec e self_id relay_id ledger index governance now_nanos
    now_secs (lease_token run_guard) w1)|].
  intros ok w2 (Hi2 & Hc2 & Ht2). wp_step. wp_step. wp_step.
  assert (tick_fine (lease_token run_guard) w w2) as Hw2.
  { split; [done|]. split; [done|]. destruct Ht2 as (new & Et & Hnew). exists new. split; [done|].
    eapply Forall_impl; [exact Hnew|]. intros ev Hev. left. by rewrite Hcmc. }
  eapply wp_mono with (Q := fun _ w' => tick_fine (lease_token run_guard) w w').
  { wp_step; [|by wp_step]. apply andb_true_iff in Heqb as [_ Hl].
    apply wp_attempt_rescue; [apply Hrely|done|done]. }
  intros [] w3 (Hi3 & Hc3 & Ht3). destruct (finish_bounded (w_state w3) (fi_marker _ Hi3)) as (h4 & E4).
  wp_step. eapply wp_or_trap; [exact E4|]. wp_step. split; [done|]. split; [done|]. split; [done|].
  by exists (w_state w3).
Qed.

End main_spec.

Section theorems.
Context `{A : AccountSpec} `{H : HashSpec} `{T : TextSpec} {EH : EventHorizon}.
Context (self_id relay_id : Principal) (e : env Heap SuiteCall) (now_nanos now_secs : Z).

(** C34: Every main tick ends in one of three ways.  It is busy, and changes
    nothing, exactly when an unexpired lease is stored; an unforced tick before
    the next interval is deferred by the remaining time and releases the lease;
    every other tick runs to completion under its lease without a panic: the
    payout invariant holds in every state committed with a call, every call is
    a read, a transfer event of the staged job, or - with the lease still
    current - the controller update that the state calls for, and the tick ends
    by [finish] in a state where the invariant holds.  Afterwards the tick's
    own lease is gone. *)
Theorem faucet_main_tick_outcomes (force : bool) (ledger index governance : Principal)
    (w : world Heap SuiteCall) (Hnow : 0 <= now_secs) (Htyped : well_typed_replies e)
    (Hrely : lease_rely e (lease_token (run_guard now_secs)))
    (Hinv : faucet_inv (w_state w)) (Hcommits : commits w) (Hmarker : main_run_marker (w_state w) < 2 ^ 63) :
  let h := w_state w in
  let remaining := main_tick_remaining now_secs (st h) in
  exists out w',
    run_main_tick_with_clients self_id relay_id force now_nanos now_secs ledger index governance e w
      = (Returned out, w') /\
    match out with
    | MainGuardBusy => w' = w /\ now_secs < default 0 (main_lock_state_ts (st h))
    | Deferred r => force = false /\ r = remaining /\ 0 < r /\
        default 0 (main_lock_state_ts (st h)) <= now_secs /\
        w' = World (h <| st ::= fun s => s <| main_lock_state_ts := Some 0 |> |>) (w_trace w)
    | Completed => (force = true \/ remaining <= 0) /\
        default 0 (main_lock_state_ts (st h)) <= now_secs /\ commits w' /\
        traced (tick_event self_id ledger governance (cmc_canister_id (config (st h))) now_nanos now_secs
                  (lease_token (run_guard now_secs))) (w_trace w) w' /\
        (exists h1, faucet_inv h1 /\ finish_state (run_guard now_secs) now_secs h1 = Some (w_state w')) /\
        is_current_in (lease_token (run_guard now_secs)) (st (w_state w')) = false
    end.
Proof.
  intros h remaining. apply wp_returns with (Q := fun out w' => match out with
    | MainGuardBusy => _ | Deferred r => _ | Completed => _ end).
  unfold run_main_tick_with_clients. wp_step. wp_step.
  destruct (acquire_cases now_secs (w_state w)) as [[-> Hlt]|[-> Hle]]; cbn [fst snd].
  { wp_step. split; [by destruct w|done]. }
  cbv zeta. wp_step. wp_step. cbn [w_state w_trace]. fold h.
  set (h1 := h <| st ::= fun s => s <| main_lock_state_ts := lease_token (run_guard now_secs) |> |>).
  assert (main_tick_remaining now_secs (st h1) = remaining) as -> by done.
  destruct (negb force && (0 <? remaining)) eqn:Hd.
  - wp_step. wp_step. wp_step. apply andb_true_iff in Hd as [Hf Hpos]. apply negb_true_iff in Hf.
    zify_bool. split; [done|]. split; [done|]. split; [done|]. split; [done|].
    unfold release. cbn. unfold Timer.release. cbn. by rewrite decide_True by done.
  - eapply wp_mono; [apply (admitted_run_spec self_id relay_id e ledger index governance
      (cmc_canister_id (config (st h))) now_nanos now_secs (World h1 (w_trace w)))|].
    + done.
    + done.
    + eapply faucet_inv_same; [..|exact Hinv]; try done. apply Hinv.
    + done.
    + done.
    + done.
    + intros out w' (-> & Hc & Ht & h2 & Hi2 & E2).
      split; [destruct force; [by left|right]; cbn in Hd; by zify_bool|].
      split; [done|]. split; [done|]. split; [done|]. split; [by exists h2|].
      unfold finish_state in E2. unfold is_current_in, lease_token in *.
      destruct (Timer.release _ _).1 eqn:Er.
      * apply bind_Some in E2 as (h3 & _ & [= <-]). cbn. unfold const.
        apply bool_decide_eq_false. intros [= E]. unfold MAIN_TICK_LEASE_SECONDS in E. ulia.
      * injection E2 as <-. apply bool_decide_eq_false. intros El.
        assert ((Timer.release (inner (run_guard now_secs)) (main_lock_state_ts (st h2))).1 = Released);
          [|congruence].
        by apply timer_release_Released.
Qed.

Lemma faucet_request_controllers s l :
  rescue_request self_id now_secs s = Some l ->
  autonomous_rescue_armed (config s) = Some true /\ NoDup l /\ self_id ∈ l /\
  (forall x, x ∈ l -> x = self_id \/ x = rescue_controller (config s)) /\
  (forced_rescue_reason s <> None \/ skip_range_invariant_fault s = Some true ->
     rescue_controller (config s) ∈ l).
Proof.
  unfold rescue_request, desired_rescue_controllers.
  destruct (autonomous_rescue_armed (config s)) as [[]|]; cbn [default negb]; [|done..].
  intros (d & Hd & [= <-])%bind_Some. split; [done|].
  destruct (normalize_two (rescue_controller (config s)) self_id) as [Hnd Hin].
  destruct (is_some (forced_rescue_reason s) || default false (skip_range_invariant_fault s)) eqn:Hf.
  - injection Hd as <-. split; [done|]. split; [apply Hin; by right|].
    split; [intros x; rewrite Hin; tauto|]. intros _. apply Hin. by left.
  - assert (d = [self_id] \/ d = [rescue_controller (config s); self_id]) as Hd'.
    { unfold Policy.desired_controllers in Hd. destruct (last_successful_transfer_ts s); [|done].
      cbn [mbind option_bind] in Hd.
      destruct (_ <=? _); [injection Hd as <-; by left|].
      destruct (_ <? _); [injection Hd as <-; by right|done]. }
    assert (forced_rescue_reason s <> None \/ skip_range_invariant_fault s = Some true -> False) as Hno.
    { apply orb_false_iff in Hf as [Hf1 Hf2]. intros [Hr|Hr]; [|by rewrite Hr in Hf2].
      by destruct (forced_rescue_reason s). }
    destruct Hd' as [-> | ->]; [cbn; split; [apply NoDup_singleton|]; set_solver|].
    split; [done|]. split; [apply Hin; by right|]. split; [intros x; rewrite Hin; tauto|]. by intros ?%Hno.
Qed.

(** A rescue attempt always returns.  It asks the management canister for
    new controllers at most once and only when autonomous rescue is armed; the
    requested set is duplicate-free, contains the canister itself, adds at most
    the rescue controller, and does so whenever a rescue reason or a cache
    fault is latched; the canister stays publicly observable; and the rescue
    flags are written only after the update succeeded and, for a main tick,
    while its lease is still current. *)
Theorem faucet_rescue_controllers (lease : option MainLeaseToken) (w : world Heap SuiteCall) :
  let h := maybe_latch_bootstrap_rescue now_secs (w_state w) in
  exists w', attempt_rescue_with_optional_main_lease self_id now_secs lease e w = (Returned tt, w') /\
  match rescue_request self_id now_secs (st h) with
  | None => w' = World h (w_trace w)
  | Some l =>
      autonomous_rescue_armed (config (st h)) = Some true /\ NoDup l /\ self_id ∈ l /\
      (forall x, x ∈ l -> x = self_id \/ x = rescue_controller (config (st h))) /\
      (forced_rescue_reason (st h) <> None \/ skip_range_invariant_fault (st h) = Some true ->
         rescue_controller (config (st h)) ∈ l) /\
      w_trace w' = Dispatch (UpdateSettings (MkUpdateSettings _ self_id (Some l)
                      (Some LogPublic) (Some LogPublic))) h :: w_trace w /\
      let h' := env_interleave e (length (w_trace w)) h in
      w_state w' = h' \/
      w_state w' = record_rescue now_secs lease (bool_decide (rescue_controller (config (st h)) ∈ l)) h'
  end.
Proof.
  intros h.
  match goal with |- exists w', _ = _ /\ @?Q w' => set (Post := fun (_ : unit) w' => Q w') end.
  assert (wp e (attempt_rescue_with_optional_main_lease self_id now_secs lease) Post w) as Hrun.
  2: { apply wp_returns in Hrun as ([] & w' & ? & ?). eauto. }
  unfold attempt_rescue_with_optional_main_lease. do 4 wp_step. fold h. cbn [w_state]. subst Post.
  destruct (rescue_request self_id now_secs (st h)) as [l|] eqn:Hr; [|by wp_step].
  apply faucet_request_controllers in Hr as (Ha & Hnd & Hself & Hsub & Hforce).
  cbv zeta. wp_step. unfold update_settings. apply wp_await. intros r s -> ->. cbn beta.
  destruct (env_reply _ _ _ _) as [[]|err]; wp_step; (repeat (split; [done|])); cbn; auto.
Qed.

End theorems.

(** ** Witnesses *)

Section witnesses.
Import Concrete ConcreteTexts ConcreteHash ConcreteFaucet.
Let env0 : env (Heap (P:=concrete_principal)) SuiteCall := quiet_env 5 1000000 10000.

#[local] Instance concrete_event_horizon : EventHorizon := {
  event_horizon := 1000;
  event_horizon_text := eq_refl;
}.

(** A stored job whose lease has expired. *)
Definition resumed : Heap (P:=concrete_principal) :=
  busy <| st ::= fun s => s <| main_lock_state_ts := Some 900 |> |>.

Lemma faucet_main_tick_outcomes_witness : exists out w',
  run_main_tick_with_clients (principal 9) (principal 11) true 2000 1000 (principal 5) (principal 6)
    (principal 3) env0 (World resumed []) = (Returned out, w').
Proof.
  destruct (faucet_main_tick_outcomes (principal 9) (principal 11) env0 2000 1000 true (principal 5)
    (principal 6) (principal 3) (World resumed [])) as (out & w' & E & _).
  - lia.
  - exact quiet_typed.
  - exact (quiet_rely _).
  - exact busy_faucet_inv.
  - constructor.
  - reflexivity.
  - exists out, w'. exact E.
Defined.

End witnesses.
