(* ===== verification/RelayState.v ===== *)
(** * Relay: state ([canisters/relay/src/state.rs], [splitter_state.rs], the
    cells of [scheduler/tick.rs] and [scheduler/poke.rs])

    [Heap] holds the state record, the splitter journal and the reward state (the stable cells, whose
    [Uninitialized] value reads as the default state), the one-shot retry flag,
    the poke runtime and the timers that were set. *)

From S2P Require Import Prelude BTree Async Ic Clients CyclesProbe TimerGuard.

Abbreviation u32_max := 4294967295 (only parsing).
Abbreviation u128_mod := 340282366920938463463374607431768211456 (only parsing).
Definition sat_add32 (a b : Z) : Z := Z.min (a + b) u32_max.
(** [Iterator::sum] on [u64] and [u128] (release arithmetic wraps) and [as u32]. *)
Definition sum_u64 (l : list Z) : Z := sumZ l mod u64_mod.
Definition sum_u128 (l : list Z) : Z := sumZ l mod u128_mod.
Definition as_u32 (x : Z) : Z := x mod 4294967296.

Section types.
Context `{P : PrincipalSpec}.
#[local] Existing Instance Principal_eq_dec.

Inductive SurplusTarget := SurplusCanister (canister : Principal) | SurplusNeuron (neuron : Z).
#[global] Instance SurplusTarget_eq_dec : EqDecision SurplusTarget.
Proof. solve_decision. Defined.

#[global] Instance Account_eq_dec : EqDecision Account.
Proof. solve_decision. Defined.

Record SurplusRecipient := MkRecipient {
  target : SurplusTarget;
  recipient_memo : option (list Z);
}.

Record Config := MkConfig {
  managed_canisters : list Principal;
  ledger_canister_id : Principal;
  cmc_canister_id : Principal;
  governance_canister_id : Principal;
  sns_rewards_canister_id : Principal;
  icp_index_canister_id : Principal;
  cycles_probe_policy : CyclesProbePolicy;
  main_interval_seconds : Z;
  max_transfers_per_tick : option Z;
  surplus_recipients : list SurplusRecipient;
}.

Inductive RelayMode := BaselineOnly | TopUpThenSurplus | Degraded | NoFunds.

Inductive CyclesSampleSource :=
| SelfCanister | DirectStatus | BlackholeStatusSource | NnsRootStatus | SnsRootStatus | SnsSwapSource.

Record CyclesSnapshot := MkSnapshot {
  snap_cycles : Z;
  snap_timestamp_nanos : Z;
  snap_source : CyclesSampleSource;
}.

Record ProbeFailure := MkProbeFailure {
  pf_canister_id : Principal;
  pf_error : string;
  pf_consecutive_failures : Z;
}.

Inductive TargetProbeClassification :=
| Observable
| TransientProbeFailure (consecutive_failures : Z)
| UnavailableAfterConsecutiveFailures (consecutive_failures : Z).

Record TargetProbeStatus := MkProbeStatus {
  tps_canister_id : Principal;
  tps_consecutive_probe_failures : Z;
  tps_classification : TargetProbeClassification;
  tps_skipped_reason : option string;
}.

Record CanisterBurnSample := MkBurnSample {
  cb_canister_id : Principal;
  cb_previous_cycles : option Z;
  cb_current_cycles : Z;
  cb_relay_minted_cycles : Z;
  cb_burn_cycles : Z;
  cb_carried_deficit_cycles : Z;
  cb_target_topup_cycles : Z;
  cb_gross_share_e8s : Z;
  cb_amount_e8s : Z;
  cb_sent_topup_e8s : Z;
  cb_actual_minted_cycles : Z;
  cb_remaining_deficit_cycles : Z;
  cb_skipped_reason : option string;
}.

Record ConversionEstimate := MkEstimate { cycles_per_e8 : Z; ce_timestamp_nanos : Z }.

Record SurplusTransferSample := MkSurplusSample {
  sx_target : SurplusTarget;
  sx_account : Account;
  sx_gross_share_e8s : Z;
  sx_amount_e8s : Z;
  sx_memo_len : option Z;
  sx_skipped_reason : option string;
}.

Record RelaySummary := MkSummary {
  rs_mode : RelayMode;
  rs_started_at_ts_nanos : Z;
  rs_completed_at_ts_nanos : option Z;
  rs_default_account_balance_start_e8s : Z;
  rs_fee_e8s : Z;
  rs_managed_canister_count : Z;
  rs_min_cycles_balance : option Z;
  rs_total_burn_cycles : Z;
  rs_total_target_topup_cycles : Z;
  rs_total_actual_minted_cycles : Z;
  rs_total_carried_deficit_cycles : Z;
  rs_total_remaining_deficit_cycles : Z;
  rs_deficit_canister_count : Z;
  rs_transfer_count : Z;
  rs_ledger_transfer_count : Z;
  rs_ledger_sent_e8s : Z;
  rs_ledger_fees_e8s : Z;
  rs_cmc_notify_success_count : Z;
  rs_cmc_notify_failed_count : Z;
  rs_cmc_notify_ambiguous_count : Z;
  rs_planned_retained_e8s : Z;
  rs_known_unspent_e8s : Z;
  rs_ambiguous_e8s : Z;
  rs_failed_transfers : Z;
  rs_ambiguous_transfers : Z;
  rs_partial_tick_count : Z;
  rs_probe_failures : list ProbeFailure;
  rs_target_probe_statuses : list TargetProbeStatus;
  rs_canisters : list CanisterBurnSample;
  rs_conversion_estimate_used : option ConversionEstimate;
  rs_surplus_e8s_before_fees : Z;
  rs_surplus_transfers : list SurplusTransferSample;
  rs_skipped_surplus_reason : option string;
  rs_surplus_allowed_despite_unavailable_targets : bool;
}.

Definition RelaySummary_started (mode : RelayMode) (started_at managed_canister_count : Z) :
    RelaySummary := {|
  rs_mode := mode;
  rs_started_at_ts_nanos := started_at;
  rs_completed_at_ts_nanos := None;
  rs_default_account_balance_start_e8s := 0;
  rs_fee_e8s := 0;
  rs_managed_canister_count := managed_canister_count;
  rs_min_cycles_balance := None;
  rs_total_burn_cycles := 0;
  rs_total_target_topup_cycles := 0;
  rs_total_actual_minted_cycles := 0;
  rs_total_carried_deficit_cycles := 0;
  rs_total_remaining_deficit_cycles := 0;
  rs_deficit_canister_count := 0;
  rs_transfer_count := 0;
  rs_ledger_transfer_count := 0;
  rs_ledger_sent_e8s := 0;
  rs_ledger_fees_e8s := 0;
  rs_cmc_notify_success_count := 0;
  rs_cmc_notify_failed_count := 0;
  rs_cmc_notify_ambiguous_count := 0;
  rs_planned_retained_e8s := 0;
  rs_known_unspent_e8s := 0;
  rs_ambiguous_e8s := 0;
  rs_failed_transfers := 0;
  rs_ambiguous_transfers := 0;
  rs_partial_tick_count := 0;
  rs_probe_failures := [];
  rs_target_probe_statuses := [];
  rs_canisters := [];
  rs_conversion_estimate_used := None;
  rs_surplus_e8s_before_fees := 0;
  rs_surplus_transfers := [];
  rs_skipped_surplus_reason := None;
  rs_surplus_allowed_despite_unavailable_targets := false;
|}.

Definition refresh_canister_totals (s : RelaySummary) : RelaySummary :=
  let total f := sum_u128 (map f (rs_canisters s)) in
  s <| rs_total_target_topup_cycles := total cb_target_topup_cycles |>
    <| rs_total_actual_minted_cycles := total cb_actual_minted_cycles |>
    <| rs_total_carried_deficit_cycles := total cb_carried_deficit_cycles |>
    <| rs_total_remaining_deficit_cycles := total cb_remaining_deficit_cycles |>
    <| rs_deficit_canister_count :=
         as_u32 (Z.of_nat (count (fun c => 0 <? cb_remaining_deficit_cycles c) (rs_canisters s))) |>.

Inductive PendingTransferKind :=
| CmcTopUp (canister : Principal)
| SurplusIcp (surplus_target : SurplusTarget) (account : Account) (surplus_memo : option (list Z))
| FaucetCommitment (neuron_id : Z) (account : Account) (source_subaccount : list Z) (memo_bytes : list Z).
#[global] Instance PendingTransferKind_eq_dec : EqDecision PendingTransferKind.
Proof. solve_decision. Defined.

Inductive PendingTransferPhase := AwaitingTransfer | TransferAccepted (block_index : Z).
#[global] Instance PendingTransferPhase_eq_dec : EqDecision PendingTransferPhase.
Proof. solve_decision. Defined.

Record PendingTransfer := MkPending {
  pt_kind : PendingTransferKind;
  pt_gross_share_e8s : Z;
  pt_amount_e8s : Z;
  pt_created_at_time_nanos : Z;
  pt_phase : PendingTransferPhase;
}.
#[global] Instance PendingTransfer_eq_dec : EqDecision PendingTransfer.
Proof. solve_decision. Defined.

(** The only [ActiveRelayMode] is [TopUpThenSurplus]. *)
Record ActiveRelayJob := MkJob {
  j_id : Z;
  j_started_at_ts_nanos : Z;
  j_fee_e8s : Z;
  j_balance_start_e8s : Z;
  j_current_cycles : btree_map Principal CyclesSnapshot;
  j_canisters : list CanisterBurnSample;
  j_surplus_transfers : list SurplusTransferSample;
  j_surplus_memos : list (option (list Z));
  j_surplus_phase_planned : bool;
  j_pending_transfer : option PendingTransfer;
  j_next_transfer_index : Z;
  j_surplus_transfer_index : Z;
  j_next_created_at_time_nanos : Z;
  j_summary : RelaySummary;
}.

Record PendingFaucetCommitmentTransfer := MkFaucetCommitment {
  fc_transfer : PendingTransfer;
  fc_fee_e8s : Z;
  fc_balance_start_e8s : Z;
}.
#[global] Instance PendingFaucetCommitmentTransfer_eq_dec : EqDecision PendingFaucetCommitmentTransfer.
Proof. solve_decision. Defined.

Record State := MkState {
  config : Config;
  last_main_run_ts : Z;
  main_lock_state_ts : option Z;
  splitter_lock_state_ts : option Z;
  splitter_main_continuation_requested : bool;
  splitter_main_continuation_timer_pending : bool;
  last_completed_cycles : btree_map Principal CyclesSnapshot;
  relay_minted_cycles_since_sample : btree_map Principal Z;
  recovery_deficit_cycles : btree_map Principal Z;
  consecutive_probe_failures : btree_map Principal Z;
  cached_cycles_probe_routes : btree_map Principal CyclesProbeRoute;
  conversion_estimate : option ConversionEstimate;
  last_known_ledger_fee_e8s : option Z;
  active_job : option ActiveRelayJob;
  active_faucet_commitment_transfer : option PendingFaucetCommitmentTransfer;
  last_summary : option RelaySummary;
  next_job_id : Z;
}.

Definition State_new (cfg : Config) (now_secs : Z) : State := {|
  config := cfg;
  last_main_run_ts := sat_sub now_secs (10 * 365 * 24 * 60 * 60);
  main_lock_state_ts := Some 0;
  splitter_lock_state_ts := Some 0;
  splitter_main_continuation_requested := false;
  splitter_main_continuation_timer_pending := false;
  last_completed_cycles := [];
  relay_minted_cycles_since_sample := [];
  recovery_deficit_cycles := [];
  consecutive_probe_failures := [];
  cached_cycles_probe_routes := [];
  conversion_estimate := None;
  last_known_ledger_fee_e8s := None;
  active_job := None;
  active_faucet_commitment_transfer := None;
  last_summary := None;
  next_job_id := 1;
|}.

(** ** The splitter journal *)

Inductive SplitterDestination := DefaultDestination | SubaccountOneDestination.
#[global] Instance SplitterDestination_eq_dec : EqDecision SplitterDestination.
Proof. solve_decision. Defined.

Record SplitterLegPlan := MkLegPlan {
  lp_destination : SplitterDestination;
  lp_gross_share_e8s : Z;
  lp_amount_e8s : Z;
  lp_fee_e8s : Z;
  lp_created_at_time_nanos : Z;
}.
#[global] Instance SplitterLegPlan_eq_dec : EqDecision SplitterLegPlan.
Proof. solve_decision. Defined.

Record SplitterPlan := MkSplitterPlan {
  splitter_number : Z;
  percentage_to_default : Z;
  source_subaccount : list Z;
  sp_balance_start_e8s : Z;
  plan_default_leg : SplitterLegPlan;
  plan_subaccount_one_leg : SplitterLegPlan;
}.
#[global] Instance SplitterPlan_eq_dec : EqDecision SplitterPlan.
Proof. solve_decision. Defined.

Inductive SplitterLeg := LegDefaultAccount | LegSubaccountOne.
#[global] Instance SplitterLeg_eq_dec : EqDecision SplitterLeg.
Proof. solve_decision. Defined.

Inductive SplitterLegStatus :=
| Ready
| WaitingForFunds (observed_balance_e8s : Z)
| WaitingForFeasibleFee (expected_fee_e8s : Z)
| Accepted (block_index : Z).
#[global] Instance SplitterLegStatus_eq_dec : EqDecision SplitterLegStatus.
Proof. solve_decision. Defined.

Record SplitterLegProgress := MkLegProgress {
  status : SplitterLegStatus;
  attempt_started : bool;
  uncertain_attempt_seen : bool;
}.
#[global] Instance SplitterLegProgress_eq_dec : EqDecision SplitterLegProgress.
Proof. solve_decision. Defined.
Definition SplitterLegProgress_default : SplitterLegProgress := MkLegProgress Ready false false.

Record ActiveSplitterJob := MkSplitterJob {
  pinned_ledger_canister_id : Principal;
  plan : SplitterPlan;
  default_leg : SplitterLegProgress;
  subaccount_one_leg : SplitterLegProgress;
  driver_revision : Z;
}.
#[global] Instance ActiveSplitterJob_eq_dec : EqDecision ActiveSplitterJob.
Proof. solve_decision. Defined.

Definition ActiveSplitterJob_new (ledger : Principal) (p : SplitterPlan) : ActiveSplitterJob :=
  MkSplitterJob ledger p SplitterLegProgress_default SplitterLegProgress_default 0.

Record QuarantinedSplitterJob := MkQuarantined {
  quarantined_job : ActiveSplitterJob;
  blocked_leg : SplitterLeg;
  quarantined_at_nanos : Z;
  reason : string;
}.

Record SplitterState := MkSplitterState {
  active_splitter_job : option ActiveSplitterJob;
  quarantined_jobs : btree_map Z QuarantinedSplitterJob;
  next_driver_revision : Z;
}.
Definition SplitterState_default : SplitterState := MkSplitterState None [] 0.

(** ** The reward state ([reward_state.rs]) *)

Record PendingRewardRecipient := MkRewardRecipient {
  recipient : Account;
  reward_amount : Z;
  reward_recipient_memo : list Z;
  reward_created_at_time_nanos : Z;
}.
#[global] Instance PendingRewardRecipient_eq_dec : EqDecision PendingRewardRecipient.
Proof. solve_decision. Defined.

Record PendingRewardPayout := MkRewardPayout {
  reward_ledger_canister_id : Principal;
  attribution_commitment_tx_id : Z;
  reward_fee : Z;
  recipients : list PendingRewardRecipient;
  next_recipient_index : Z;
}.
#[global] Instance PendingRewardPayout_eq_dec : EqDecision PendingRewardPayout.
Proof. solve_decision. Defined.

Record RewardState := MkRewardState {
  last_sweep_attempt_timestamp_seconds : Z;
  pending_payout : option PendingRewardPayout;
}.
Definition RewardState_default : RewardState := MkRewardState 0 None.

(** The assertions of [set]. *)
Definition reward_state_valid (s : RewardState) : bool :=
  match pending_payout s with
  | Some p => negb (Nat.eqb (length (recipients p)) 0)
              && (next_recipient_index p <? Z.of_nat (length (recipients p)))
  | None => true
  end.

(** ** The heap *)

Record PokeRuntimeState := MkPoke {
  due_at_ns : option Z;
  timer_pending : bool;
  next_attempt_allowed_at_ns : Z;
}.

Inductive TimerTask :=
| MainInterval (seconds : Z)
| SplitterRetryInterval (seconds : Z)
| StartupMainTick (delay_seconds : Z)
| MainRetry (delay_seconds : Z)
| SplitterContinuation (delay_seconds : Z)
| NeuronRefresh (neuron_id : Z)
| DeferredPoke (delay_ns : Z)
| RewardContinuation (delay_seconds : Z) (guard : Timer.TimerLeaseGuard).

Record Heap := MkHeap {
  st : State;
  splitter : SplitterState;
  reward : RewardState;
  scheduled_main_retry_pending : bool;
  poke_runtime : PokeRuntimeState;
  timers : list TimerTask;
}.

Definition upd (f : State -> State) (h : Heap) : Heap := h <| st ::= f |>.
Definition set_timer (t : TimerTask) (h : Heap) : Heap := h <| timers ::= cons t |>.

(** ** Operations on the journal ([splitter_state.rs]) *)

Definition get_active_job (h : Heap) : option ActiveSplitterJob := active_splitter_job (splitter h).

Definition set_active_job (job : ActiveSplitterJob) (h : Heap) : Heap :=
  h <| splitter ::= (fun s => s <| active_splitter_job := Some job |>) |>.

Definition clear_active_job (h : Heap) : Heap :=
  h <| splitter ::= (fun s => s <| active_splitter_job := None |>) |>.

Definition mark_started (leg : SplitterLeg) (job : ActiveSplitterJob) : ActiveSplitterJob :=
  match leg with
  | LegDefaultAccount => job <| default_leg ::= (fun p => p <| attempt_started := true |>) |>
  | LegSubaccountOne => job <| subaccount_one_leg ::= (fun p => p <| attempt_started := true |>) |>
  end.

(** [None] is the panic of an exhausted revision; [Some None] a lost claim. *)
Definition claim_active_job (expected : ActiveSplitterJob) (mark : option SplitterLeg) (h : Heap) :
    option (option ActiveSplitterJob * Heap) :=
  if negb (bool_decide (get_active_job h = Some expected)) then Some (None, h)
  else
    match checked_add (next_driver_revision (splitter h)) 1 with
    | None => None
    | Some revision =>
        let job := expected <| driver_revision := revision |> in
        let job := match mark with Some leg => mark_started leg job | None => job end in
        Some (Some job,
              h <| splitter ::= (fun s => s <| next_driver_revision := revision |>
                                            <| active_splitter_job := Some job |>) |>)
    end.

Definition active_job_if_claim_matches (claimed : ActiveSplitterJob) (h : Heap) :
    option ActiveSplitterJob :=
  match get_active_job h with
  | Some active => then_some (bool_decide (active = claimed)) active
  | None => None
  end.

Definition is_quarantined (number : Z) (h : Heap) : bool :=
  contains_key number (quarantined_jobs (splitter h)).

Definition quarantine_active_job (leg : SplitterLeg) (at_nanos : Z) (why : string) (h : Heap) :
    option QuarantinedSplitterJob * Heap :=
  match get_active_job h with
  | None => (None, h)
  | Some job =>
      let q := MkQuarantined job leg at_nanos why in
      (Some q, h <| splitter ::= (fun s => s <| active_splitter_job := None |>
                   <| quarantined_jobs ::= btree_insert (splitter_number (plan job)) q |>) |>)
  end.

(** *** [reward_state.rs]; the cell that is [Uninitialized] reads as the default *)

(** [mutate]: the panic of [set] when the result is not valid. *)
Definition reward_mutate {R} (f : RewardState -> R * RewardState) : async Heap SuiteCall R :=
  r ← with_state (fun h => f (reward h));
  if reward_state_valid r.2 then modify (fun h => h <| reward := r.2 |>);; mret r.1
  else trap.

Definition pending_recipient_count (s : RewardState) : Z :=
  match pending_payout s with Some p => Z.of_nat (length (recipients p)) | None => 0 end.

Definition scheduler_status (s : RewardState) : Z * option Principal :=
  (last_sweep_attempt_timestamp_seconds s, reward_ledger_canister_id <$> pending_payout s).

(** *** The splitter journal of a configuration *)

(** [false] stands for the error. *)
Definition validate_active_ledger (ledger : Principal) (s : SplitterState) : bool :=
  match active_splitter_job s with
  | None => true
  | Some active => bool_decide (pinned_ledger_canister_id active = ledger)
  end.

End types.
