(* ===== verification/RelayLogic.v ===== *)
(** * Relay: planning ([canisters/relay/src/logic.rs])

    Burn samples, the top-up and surplus allocation, the splitter plan and the
    faucet commitment plan.  Amounts are e8s as [Z] with the saturating
    operations of the code. *)

From Stdlib Require Import Sorted.
From S2P Require Import Prelude BTree Async Ic Clients Accounts MemoPolicy CyclesProbe RelayState.

Definition MEMO_TOP_UP_CANISTER_U64 : Z := 1347768404.
Definition TOPUP_HEADROOM_NUMERATOR : Z := 101.
Definition TOPUP_HEADROOM_DENOMINATOR : Z := 100.
Definition CONVERSION_ESTIMATE_MAX_AGE_NANOS : Z := 14 * 24 * 60 * 60 * 1000000000.
Definition MIN_RAW_ICP_RECIPIENT_AMOUNT_E8S : Z := 100000000.
Definition SPLITTER_PERCENTAGES : list Z := [10; 20; 30; 40; 50; 60; 70; 80; 90].
(** [jupiter_memo_policy::MAX_RELAY_SURPLUS_MEMO_BYTES] *)
Definition MAX_RELAY_SURPLUS_MEMO_BYTES : Z := 32.
Definition faucet_neuron_id : Z := 11614578985374291210.
Definition SKIP_REASON_ZERO_BURN : string := "zero_burn".
Definition SKIP_REASON_GROSS_SHARE_DOES_NOT_EXCEED_FEE : string := "gross_share_does_not_exceed_fee".
Definition SKIP_REASON_INSUFFICIENT_BALANCE_FOR_TOPUPS : string := "insufficient_balance_for_topups".
Definition SKIP_REASON_NO_POSITIVE_BURN : string := "no_positive_burn".
Definition SKIP_REASON_NO_RAW_ICP_RECIPIENTS : string := "no_raw_icp_recipients".
Definition SKIP_REASON_MISSING_CONVERSION_ESTIMATE : string := "missing_conversion_estimate".
Definition SKIP_REASON_NO_SURPLUS_RECIPIENTS : string := "no_surplus_recipients".
Definition SKIP_REASON_NO_SURPLUS : string := "no_surplus".
Definition SKIP_REASON_RAW_ICP_SHARE_BELOW_1_ICP : string := "raw_icp_share_below_1_icp".
Definition SKIP_REASON_UNRECOVERED_CYCLE_DEFICIT : string := "unrecovered_cycle_deficit".
Definition SKIP_REASON_TRANSIENT_PROBE_FAILURE : string := "transient_probe_failure".
Definition SKIP_REASON_TARGET_UNAVAILABLE : string :=
  "target_unavailable_after_consecutive_probe_failures".
Definition TARGET_UNAVAILABLE_FAILURE_THRESHOLD : Z := 3.
Definition ALL_CYCLES_BATCH_BELOW_FEE_EFFICIENT_THRESHOLD : string :=
  "all_cycles_batch_below_fee_efficient_threshold".
Definition BOOTSTRAP_CYCLES_PER_E8 : Z := 100000.

(** ** Cycle arithmetic *)

Definition compute_burn (previous relay_minted_cycles current : Z) : Z :=
  sat_sub (sat_add128 previous relay_minted_cycles) current.

Definition ceil_div (numerator denominator : Z) : Z :=
  if numerator =? 0 then 0 else sat_add128 numerator (denominator - 1) / denominator.

Definition target_topup_cycles (burn_cycles : Z) : Z :=
  ceil_div (sat_mul128 burn_cycles TOPUP_HEADROOM_NUMERATOR) TOPUP_HEADROOM_DENOMINATOR.

Definition topup_net_e8s (target_cycles : Z) (estimate : ConversionEstimate) : Z :=
  if (target_cycles =? 0) || (cycles_per_e8 estimate =? 0) then 0
  else Z.min (ceil_div target_cycles (cycles_per_e8 estimate)) u64_max.

Definition conversion_estimate_is_usable (estimate : ConversionEstimate) (now_nanos : Z) : bool :=
  (0 <? cycles_per_e8 estimate)
  && (sat_sub now_nanos (ce_timestamp_nanos estimate) <=? CONVERSION_ESTIMATE_MAX_AGE_NANOS).

Definition conversion_estimate_from_cmc_rate (xdr_permyriad_per_icp timestamp_seconds : Z) :
    result ConversionEstimate string :=
  if xdr_permyriad_per_icp =? 0
  then Err "CMC ICP/XDR conversion rate produced zero cycles per e8"%string
  else
    match checked_mul timestamp_seconds 1000000000 with
    | None => Err "timestamp seconds to nanoseconds overflows u64"%string
    | Some t => Ok {| cycles_per_e8 := xdr_permyriad_per_icp; ce_timestamp_nanos := t |}
    end.

Definition classify_target_probe (observed : bool) (consecutive_failures : Z) :
    TargetProbeClassification :=
  if observed then Observable
  else if TARGET_UNAVAILABLE_FAILURE_THRESHOLD <=? consecutive_failures
  then UnavailableAfterConsecutiveFailures consecutive_failures
  else TransientProbeFailure consecutive_failures.

(** ** The proportional allocation *)

Definition proportional_share (total available gross : Z) : Z * Z :=
  if gross =? 0 then (0, 0)
  else
    let product := sat_mul128 available gross in
    (as_u64 (Z.min (product / total) gross), product mod total).

(** [order.sort_by]: descending remainder, then ascending index. *)
Definition before (a b : nat * Z) : bool :=
  (b.2 <? a.2) || ((a.2 =? b.2) && (a.1 <=? b.1)%nat).
Fixpoint insert_order (x : nat * Z) (l : list (nat * Z)) : list (nat * Z) :=
  match l with
  | [] => [x]
  | y :: l' => if before x y then x :: l else y :: insert_order x l'
  end.
Definition sort_order (l : list (nat * Z)) : list (nat * Z) := foldr insert_order [] l.

Definition fold_sat (l : list Z) : Z := fold_left sat_add l 0.

(** One pass of the [for] loop, with its [break]: allocations, used, advanced. *)
Fixpoint remainder_pass (desired : list Z) (available : Z) (order : list nat)
    (s : list Z * Z * bool) : list Z * Z * bool :=
  match order with
  | [] => s
  | i :: rest =>
      let '(alloc, used, advanced) := s in
      if available <=? used then s
      else if nth i alloc 0 <? nth i desired 0
      then remainder_pass desired available rest (alter (fun a => sat_add a 1) i alloc,
                                                   sat_add used 1, true)
      else remainder_pass desired available rest s
  end.

(** The [while] loop: [inr] when it ends. *)
Definition remainder_step (desired : list Z) (available : Z) (order : list nat)
    (s : list Z * Z) : (list Z * Z) + list Z :=
  if s.2 <? available then
    let '(alloc, used, advanced) := remainder_pass desired available order (s.1, s.2, false) in
    if advanced then inl (alloc, used) else inr alloc
  else inr s.1.

Definition enumerate_from {X} (start : nat) (l : list X) : list (nat * X) :=
  zip (seq start (length l)) l.

Definition proportional_order (total available : Z) (desired : list Z) : list nat :=
  map fst (sort_order (enumerate_from 0
    (map (fun g => (proportional_share total available g).2) desired))).

Definition proportional_topup_gross_allocations (desired : list Z) (total available : Z) :
    option (list Z) :=
  let shares := map (fun g => (proportional_share total available g).1) desired in
  match iterate (remainder_step desired available (proportional_order total available desired)) 64
          (shares, fold_sat shares) with
  | inr alloc => Some alloc
  | inl _ => None
  end.

(** ** Plans *)

Section logic.
Context `{P : PrincipalSpec} `{O : !OrdSpec Principal}.
#[local] Existing Instance Principal_eq_dec.

Record BurnPlan := MkBurnPlan {
  bp_canister_id : Principal;
  bp_previous_cycles : option Z;
  bp_current_cycles : Z;
  bp_relay_minted_cycles : Z;
  bp_burn_cycles : Z;
  bp_carried_deficit_cycles : Z;
  bp_target_topup_cycles : Z;
  bp_gross_share_e8s : Z;
  bp_amount_e8s : Z;
  bp_actual_minted_cycles : Z;
  bp_remaining_deficit_cycles : Z;
  bp_skipped_reason : option string;
}.

Record AllocationPlan := MkAllocation {
  topups : list BurnPlan;
  topup_phase_fully_funded : bool;
  skipped_surplus_reason : option string;
}.

Record ResolvedSurplusRecipient := MkResolved {
  resolved_target : SurplusTarget;
  resolved_account : Account;
  resolved_memo : option (list Z);
}.

Definition skip (why : string) (p : BurnPlan) : BurnPlan := p <| bp_skipped_reason := Some why |>.

Definition burn_plan (previous : btree_map Principal CyclesSnapshot)
    (relay_minted recovery_deficits : btree_map Principal Z) (use_headroom_target : bool)
    (entry : Principal * CyclesSnapshot) : BurnPlan :=
  let '(canister_id, snapshot) := entry in
  let previous_cycles := snap_cycles <$> btree_get canister_id previous in
  let minted := default 0 (btree_get canister_id relay_minted) in
  let burn := match previous_cycles with
              | Some prev => compute_burn prev minted (snap_cycles snapshot)
              | None => 0
              end in
  let carried := default 0 (btree_get canister_id recovery_deficits) in
  let new_target := if use_headroom_target then target_topup_cycles burn else burn in
  {| bp_canister_id := canister_id;
     bp_previous_cycles := previous_cycles;
     bp_current_cycles := snap_cycles snapshot;
     bp_relay_minted_cycles := minted;
     bp_burn_cycles := burn;
     bp_carried_deficit_cycles := carried;
     bp_target_topup_cycles := sat_add128 carried new_target;
     bp_gross_share_e8s := 0;
     bp_amount_e8s := 0;
     bp_actual_minted_cycles := 0;
     bp_remaining_deficit_cycles := sat_add128 carried new_target;
     bp_skipped_reason := None |}.

Definition burn_plans (current previous : btree_map Principal CyclesSnapshot)
    (relay_minted recovery_deficits : btree_map Principal Z) (use_headroom_target : bool) :
    list BurnPlan :=
  map (burn_plan previous relay_minted recovery_deficits use_headroom_target) current.

Definition desired_topup (fee_e8s : Z) (estimate : ConversionEstimate) (p : BurnPlan) :
    BurnPlan * Z :=
  let net := topup_net_e8s (bp_target_topup_cycles p) estimate in
  if net =? 0 then
    ((if bp_target_topup_cycles p =? 0 then skip SKIP_REASON_ZERO_BURN p else p), 0)
  else
    let gross := sat_add net fee_e8s in
    if gross <=? fee_e8s then (skip SKIP_REASON_GROSS_SHARE_DOES_NOT_EXCEED_FEE p, 0)
    else (p, gross).

Definition assign_share (fee_e8s gross : Z) (p : BurnPlan) : BurnPlan :=
  p <| bp_gross_share_e8s := gross |> <| bp_amount_e8s := gross - fee_e8s |>.

Definition fund_fully (fee_e8s : Z) (p : BurnPlan) (gross : Z) : BurnPlan :=
  if 0 <? gross then assign_share fee_e8s gross p else p.
Definition fund_partly (fee_e8s : Z) (p : BurnPlan) (gross : Z) : BurnPlan :=
  if fee_e8s <? gross then assign_share fee_e8s gross p
  else if is_none (bp_skipped_reason p)
  then skip SKIP_REASON_GROSS_SHARE_DOES_NOT_EXCEED_FEE p else p.
Definition mark_unfunded (p : BurnPlan) (desired : Z) : BurnPlan :=
  if (0 <? desired) && (bp_amount_e8s p =? 0) && is_none (bp_skipped_reason p)
  then skip SKIP_REASON_INSUFFICIENT_BALANCE_FOR_TOPUPS p else p.

Definition usable_estimate (conversion_estimate : option ConversionEstimate) (now_nanos : Z) :
    option ConversionEstimate :=
  match conversion_estimate with
  | Some e => then_some (conversion_estimate_is_usable e now_nanos) e
  | None => None
  end.

(** Every burn plan with the gross amount it asks for. *)
Definition asked_topups (current previous : btree_map Principal CyclesSnapshot)
    (relay_minted recovery_deficits : btree_map Principal Z) (fee_e8s : Z)
    (conversion_estimate : option ConversionEstimate) (now_nanos : Z) : list (BurnPlan * Z) :=
  let estimate := default {| cycles_per_e8 := BOOTSTRAP_CYCLES_PER_E8; ce_timestamp_nanos := now_nanos |}
                    (usable_estimate conversion_estimate now_nanos) in
  map (desired_topup fee_e8s estimate)
    (burn_plans current previous relay_minted recovery_deficits true).

Definition build_allocation_plan (current previous : btree_map Principal CyclesSnapshot)
    (relay_minted recovery_deficits : btree_map Principal Z) (available_balance_e8s fee_e8s : Z)
    (conversion_estimate : option ConversionEstimate) (now_nanos : Z) : AllocationPlan :=
  let asked := asked_topups current previous relay_minted recovery_deficits fee_e8s
                 conversion_estimate now_nanos in
  let topups := map fst asked in
  let desired := map snd asked in
  let total := fold_sat desired in
  let fully_funded := total <=? available_balance_e8s in
  let topups :=
    if fully_funded then zip_with (fund_fully fee_e8s) topups desired
    else if 0 <? total then
      zip_with (fund_partly fee_e8s) topups
        (default [] (proportional_topup_gross_allocations desired total available_balance_e8s))
    else topups in
  {| topups := if fully_funded then topups else zip_with mark_unfunded topups desired;
     topup_phase_fully_funded := fully_funded;
     skipped_surplus_reason :=
       if fully_funded then None else Some SKIP_REASON_INSUFFICIENT_BALANCE_FOR_TOPUPS |}.

Definition spend_share (available fee total : Z) (p : BurnPlan) : BurnPlan :=
  if bp_target_topup_cycles p =? 0 then skip SKIP_REASON_ZERO_BURN p
  else
    let gross := as_u64 (Z.min (sat_mul128 available (bp_target_topup_cycles p) / total) u64_max) in
    let p := p <| bp_gross_share_e8s := gross |> in
    if (gross <? sat_mul128 fee 2) || (gross <=? fee)
    then skip ALL_CYCLES_BATCH_BELOW_FEE_EFFICIENT_THRESHOLD p
    else p <| bp_amount_e8s := gross - fee |>.

Definition build_spend_all_cycles_plan (current previous : btree_map Principal CyclesSnapshot)
    (relay_minted recovery_deficits : btree_map Principal Z) (available_balance_e8s fee_e8s : Z) :
    AllocationPlan :=
  let plans := burn_plans current previous relay_minted recovery_deficits false in
  let total := sum_u128 (map bp_target_topup_cycles
                 (List.filter (fun p => 0 <? bp_target_topup_cycles p) plans)) in
  if total =? 0 then
    {| topups := map (skip SKIP_REASON_NO_POSITIVE_BURN) plans;
       topup_phase_fully_funded := true;
       skipped_surplus_reason := Some SKIP_REASON_NO_POSITIVE_BURN |}
  else
    let topups := map (spend_share available_balance_e8s fee_e8s total) plans in
    {| topups := topups;
       topup_phase_fully_funded := true;
       skipped_surplus_reason :=
         Some (if existsb (fun p => 0 <? bp_amount_e8s p) topups
               then SKIP_REASON_NO_RAW_ICP_RECIPIENTS
               else ALL_CYCLES_BATCH_BELOW_FEE_EFFICIENT_THRESHOLD) |}.

(** ** Surplus *)

(** [usize as u64] of a length; a Vec never has 2^64 elements. *)
Definition allocate_equal_surplus_shares (recipients : list ResolvedSurplusRecipient)
    (available_balance_e8s fee_e8s : Z) : list SurplusTransferSample :=
  match recipients with
  | [] => []
  | _ =>
      let gross := available_balance_e8s / as_u64 (Z.of_nat (length recipients)) in
      let '(amount, why) :=
        if gross <=? fee_e8s then (0, Some SKIP_REASON_GROSS_SHARE_DOES_NOT_EXCEED_FEE)
        else
          let candidate := gross - fee_e8s in
          if candidate <? MIN_RAW_ICP_RECIPIENT_AMOUNT_E8S
          then (0, Some SKIP_REASON_RAW_ICP_SHARE_BELOW_1_ICP)
          else (candidate, None) in
      map (fun r =>
        {| sx_target := resolved_target r;
           sx_account := resolved_account r;
           sx_gross_share_e8s := gross;
           sx_amount_e8s := amount;
           sx_memo_len := (fun m => as_u32 (Z.of_nat (length m))) <$> resolved_memo r;
           sx_skipped_reason := why |}) recipients
  end.

(** [Iterator::find_map] *)
Fixpoint find_map {X Y} (f : X -> option Y) (l : list X) : option Y :=
  match l with
  | [] => None
  | x :: l' => match f x with Some y => Some y | None => find_map f l' end
  end.

Definition build_surplus_plan (recipients : list ResolvedSurplusRecipient)
    (available_balance_e8s fee_e8s : Z) (conversion_estimate : option ConversionEstimate)
    (now_nanos : Z) : list SurplusTransferSample * Z * option string :=
  match usable_estimate conversion_estimate now_nanos with
  | None => ([], 0, Some SKIP_REASON_MISSING_CONVERSION_ESTIMATE)
  | Some _ =>
      let surplus := allocate_equal_surplus_shares recipients available_balance_e8s fee_e8s in
      let why :=
        match recipients with
        | [] => Some SKIP_REASON_NO_SURPLUS_RECIPIENTS
        | _ =>
            if available_balance_e8s =? 0 then Some SKIP_REASON_NO_SURPLUS
            else if forallb (fun p => sx_amount_e8s p =? 0) surplus then
              match find_map sx_skipped_reason surplus with
              | Some r => Some r
              | None => Some SKIP_REASON_GROSS_SHARE_DOES_NOT_EXCEED_FEE
              end
            else None
        end in
      (surplus, available_balance_e8s, why)
  end.

Definition resolve_canister_surplus_recipient (r : SurplusRecipient) :
    option ResolvedSurplusRecipient :=
  match target r with
  | SurplusCanister c => Some {| resolved_target := target r; resolved_account := MkAccount _ c None;
                                 resolved_memo := recipient_memo r |}
  | SurplusNeuron _ => None
  end.

(** [BTreeSet<Account>]: equality of accounts; [false] stands for the error. *)
Fixpoint distinct_accounts `{!AccountSpec} (seen : list Account) (l : list ResolvedSurplusRecipient) :
    bool :=
  match l with
  | [] => true
  | r :: l' => if existsb (account_eqb (resolved_account r)) seen then false
               else distinct_accounts (resolved_account r :: seen) l'
  end.
Definition reject_duplicate_resolved_destinations `{!AccountSpec} (l : list ResolvedSurplusRecipient) :
    bool := distinct_accounts [] l.

Definition burn_sample (p : BurnPlan) : CanisterBurnSample := {|
  cb_canister_id := bp_canister_id p;
  cb_previous_cycles := bp_previous_cycles p;
  cb_current_cycles := bp_current_cycles p;
  cb_relay_minted_cycles := bp_relay_minted_cycles p;
  cb_burn_cycles := bp_burn_cycles p;
  cb_carried_deficit_cycles := bp_carried_deficit_cycles p;
  cb_target_topup_cycles := bp_target_topup_cycles p;
  cb_gross_share_e8s := bp_gross_share_e8s p;
  cb_amount_e8s := bp_amount_e8s p;
  cb_sent_topup_e8s := 0;
  cb_actual_minted_cycles := bp_actual_minted_cycles p;
  cb_remaining_deficit_cycles := bp_remaining_deficit_cycles p;
  cb_skipped_reason := bp_skipped_reason p;
|}.

(** ** Accounts and the splitter plan *)

Definition cmc_deposit_account (cmc_id canister_id : Principal) : Account :=
  MkAccount _ cmc_id (Some (principal_to_subaccount canister_id)).
Definition default_account (self_id : Principal) : Account := MkAccount _ self_id None.
Definition relay_numbered_subaccount (number : Z) : list Z := replicate 31 0 ++ [number].
Definition relay_subaccount_one : list Z := relay_numbered_subaccount 1.
Definition relay_subaccount_one_account (self_id : Principal) : Account :=
  MkAccount _ self_id (Some relay_subaccount_one).
Definition splitter_percentage (number : Z) : option Z :=
  List.find (fun c => c =? number) SPLITTER_PERCENTAGES.
Definition splitter_source_account (relay_id : Principal) (number : Z) : option Account :=
  match splitter_percentage number with
  | Some _ => Some (MkAccount _ relay_id (Some (relay_numbered_subaccount number)))
  | None => None
  end.
Definition splitter_destination_account (relay_id : Principal) (d : SplitterDestination) : Account :=
  match d with
  | DefaultDestination => default_account relay_id
  | SubaccountOneDestination => relay_subaccount_one_account relay_id
  end.

Definition build_splitter_plan (number balance fee now_nanos : Z) : result SplitterPlan string :=
  match splitter_percentage number with
  | None => Err "splitter_not_protocol_defined"%string
  | Some percentage =>
      if balance =? 0 then Err "splitter_no_funds"%string
      else if (balance <=? fee) || (balance - fee <? MIN_RAW_ICP_RECIPIENT_AMOUNT_E8S)
      then Err "splitter_below_1_icp_net"%string
      else
        match checked_mul128 balance percentage with
        | None => Err "splitter_share_overflow"%string
        | Some product =>
            let default_gross := product / 100 in
            if negb (default_gross <=? u64_max) then Err "splitter_share_overflow"%string
            else
              match checked_sub balance default_gross with
              | None => Err "splitter_share_underflow"%string
              | Some subaccount_one_gross =>
                  if (default_gross <=? fee) || (subaccount_one_gross <=? fee)
                  then Err "splitter_share_does_not_exceed_fee"%string
                  else
                    match checked_add now_nanos 1 with
                    | None => Err "splitter_created_at_overflow"%string
                    | Some second_created_at =>
                        Ok {| splitter_number := number;
                              percentage_to_default := percentage;
                              source_subaccount := relay_numbered_subaccount number;
                              sp_balance_start_e8s := balance;
                              plan_default_leg := MkLegPlan DefaultDestination default_gross
                                                    (default_gross - fee) fee now_nanos;
                              plan_subaccount_one_leg :=
                                MkLegPlan SubaccountOneDestination subaccount_one_gross
                                  (subaccount_one_gross - fee) fee second_created_at |}
                    end
              end
        end
  end.

(** ** The faucet commitment *)

Record FaucetCommitmentPlan := MkCommitmentPlan {
  cp_source_account : Account;
  cp_destination_account : Account;
  cp_balance_start_e8s : Z;
  cp_fee_e8s : Z;
  cp_amount_e8s : Z;
  cp_memo : list Z;
}.

(** The text of the principal without dashes, then [.Relay]; [None] is the error. *)
Definition relay_faucet_commitment_memo (self_id : Principal) : option (list Z) :=
  let memo := List.filter (fun b => negb (b =? 45)) (principal_to_text self_id)
              ++ bytes_of_string ".Relay" in
  if negb (is_ascii memo) then None
  else if 32 <? Z.of_nat (length memo) then None
  else Some memo.

Definition build_faucet_commitment_plan (relay_id governance_id : Principal)
    (staking_subaccount : list Z) (balance fee : Z) : result FaucetCommitmentPlan string :=
  if balance =? 0 then Err "subaccount_1_no_funds"%string
  else if balance <=? fee then Err "subaccount_1_below_1_icp_net"%string
  else
    let amount := balance - fee in
    if amount <? MIN_RAW_ICP_RECIPIENT_AMOUNT_E8S then Err "subaccount_1_below_1_icp_net"%string
    else
      match relay_faucet_commitment_memo relay_id with
      | None => Err "subaccount_1_memo_invalid"%string
      | Some memo =>
          Ok {| cp_source_account := relay_subaccount_one_account relay_id;
                cp_destination_account := MkAccount _ governance_id (Some staking_subaccount);
                cp_balance_start_e8s := balance;
                cp_fee_e8s := fee;
                cp_amount_e8s := amount;
                cp_memo := memo |}
      end.

(** ** Configuration *)

Definition effective_managed_canisters (configured : list Principal) (self_id : Principal) :
    list Principal := set_insert self_id (set_of_list configured).

Definition validate_canister_principal (p : Principal) : bool :=
  negb (bool_decide (p = anonymous)) && negb (bool_decide (p = management_canister)).

Fixpoint no_duplicates {X} `{EqDecision X} (l : list X) : bool :=
  match l with [] => true | x :: l' => negb (bool_decide (x ∈ l')) && no_duplicates l' end.

(** [false] stands for the error; the checks are independent of each other. *)
Definition valid_recipient (r : SurplusRecipient) : bool :=
  match target r with
  | SurplusCanister c => validate_canister_principal c
  | SurplusNeuron n => negb (n =? 0)
  end
  && match recipient_memo r with
     | Some m => Z.of_nat (length m) <=? MAX_RELAY_SURPLUS_MEMO_BYTES
     | None => true
     end.

Definition validate_config (cfg : Config) : bool :=
  validate_canister_principal (ledger_canister_id cfg)
  && validate_canister_principal (cmc_canister_id cfg)
  && validate_canister_principal (governance_canister_id cfg)
  && match cycles_probe_policy cfg with
     | FixedBlackhole id => validate_canister_principal id
     | Auto => true
     end
  && validate_canister_principal (sns_rewards_canister_id cfg)
  && validate_canister_principal (icp_index_canister_id cfg)
  && negb (bool_decide (max_transfers_per_tick cfg = Some 0))
  && forallb validate_canister_principal (managed_canisters cfg)
  && no_duplicates (managed_canisters cfg)
  && forallb valid_recipient (surplus_recipients cfg)
  && no_duplicates (map target (surplus_recipients cfg))
  && negb (main_interval_seconds cfg <? 60).

End logic.

(** ** The proportional allocation is the method of largest remainders *)

Section remainders.
Implicit Types (desired alloc : list Z) (order : list nat).

(** Positions of an order to be raised by one. *)
Definition bump (order : list nat) (alloc : list Z) : list Z :=
  fold_left (fun a i => alter (fun x => x + 1) i a) order alloc.

(** The reference: every target gets the floor of its share, and the first [d]
    targets in the order of their remainders one more. *)
Definition largest_remainder (desired : list Z) (total available : Z) : list Z :=
  let floors := map (fun g => available * g / total) desired in
  let chosen := take (Z.to_nat (available - sumZ floors)) (proportional_order total available desired) in
  imap (fun i q => q + (if bool_decide (i ∈ chosen) then 1 else 0)) floors.

Lemma length_bump order alloc : length (bump order alloc) = length alloc.
Proof.
  revert alloc; induction order as [|i order IH]; intros alloc; cbn; [done|].
  unfold bump in IH. by rewrite IH, length_alter.
Qed.

Lemma sumZ_alter_succ i alloc :
  (i < length alloc)%nat -> sumZ (alter (fun x => x + 1) i alloc) = sumZ alloc + 1.
Proof.
  revert i; induction alloc as [|a alloc IH]; intros [|i] Hi; cbn in *; try lia;
    rewrite !sumZ_cons; [lia|]. rewrite IH by lia. lia.
Qed.

Lemma sumZ_bump order alloc :
  Forall (fun i => (i < length alloc)%nat) order ->
  sumZ (bump order alloc) = sumZ alloc + Z.of_nat (length order).
Proof.
  revert alloc; induction order as [|i order IH]; intros alloc Hi; cbn; [lia|].
  apply Forall_cons in Hi as [Hi Hrest]. unfold bump in IH. rewrite IH.
  - rewrite sumZ_alter_succ by done. lia.
  - by rewrite length_alter.
Qed.

Lemma lookup_bump order alloc j :
  NoDup order ->
  bump order alloc !! j = (fun x => x + (if bool_decide (j ∈ order) then 1 else 0)) <$> alloc !! j.
Proof.
  revert alloc; induction order as [|i order IH]; intros alloc Hnd; cbn.
  - rewrite bool_decide_eq_false_2 by set_solver. destruct (alloc !! j); cbn; [apply (f_equal Some); lia|done].
  - inversion_clear Hnd as [|? ? Hi Hnd']. unfold bump in IH. rewrite IH by done.
    destruct (decide (i = j)) as [<-|Hne].
    + rewrite list_lookup_alter_eq, (bool_decide_eq_false_2 (i ∈ order)) by done.
      rewrite (bool_decide_eq_true_2 (i ∈ i :: order)) by set_solver.
      destruct (alloc !! i); cbn; [apply (f_equal Some); lia|done].
    + rewrite list_lookup_alter_ne by done. f_equal.
      assert (bool_decide (j ∈ i :: order) = bool_decide (j ∈ order)) as ->; [|done].
      apply bool_decide_ext. set_solver.
Qed.

Lemma bump_imap order alloc :
  NoDup order ->
  bump order alloc = imap (fun i q => q + (if bool_decide (i ∈ order) then 1 else 0)) alloc.
Proof.
  intros Hnd. apply list_eq. intros j. rewrite lookup_bump by done.
  rewrite list_lookup_imap. by destruct (alloc !! j).
Qed.

(** One pass serves the first [available - used] entries of the order. *)
Lemma remainder_pass_spec desired available order alloc used adv :
  let d := Z.to_nat (available - used) in
  available <= u64_max -> 0 <= used <= available -> Forall (fun g => g <= u64_max) desired ->
  (d <= length order)%nat -> NoDup order ->
  Forall (fun i => (i < length alloc)%nat /\ nth i alloc 0 < nth i desired 0) (take d order) ->
  length alloc = length desired ->
  remainder_pass desired available order (alloc, used, adv) =
  (bump (take d order) alloc, available, adv || (used <? available)).
Proof.
  intros d Ha. subst d. revert alloc used adv.
  induction order as [|i order IH]; intros alloc used adv Hu Hd Hle Hnd Hlt Hlen; cbn [remainder_pass].
  - cbn in Hle. assert (used = available) as -> by lia.
    rewrite Z.ltb_irrefl, orb_false_r. by rewrite Z.sub_diag.
  - destruct (available <=? used) eqn:Hfull; zify_bool.
    { assert (used = available) as -> by lia.
      by rewrite Z.ltb_irrefl, orb_false_r, Z.sub_diag. }
    replace (Z.to_nat (available - used)) with (S (Z.to_nat (available - (used + 1)))) in * by lia.
    cbn [take] in *. apply Forall_cons in Hlt as [[Hi Hlti] Hrest].
    inversion_clear Hnd as [|? ? Hni Hnd']. rewrite (proj2 (Z.ltb_lt _ _)) by done.
    assert (nth i alloc 0 < u64_max) as Hmax.
    { eapply Z.lt_le_trans; [done|].
      destruct (nth_lookup_or_length desired i 0) as [Hl|]; [|lia].
      exact (Forall_lookup_1 _ _ _ _ Hd Hl). }
    assert (alter (fun a => sat_add a 1) i alloc = alter (fun x => x + 1) i alloc) as ->.
    { apply list_eq. intros j. destruct (decide (i = j)) as [<-|].
      - rewrite !list_lookup_alter_eq. destruct (alloc !! i) as [x|] eqn:Hx; [|done]. cbn. f_equal.
        apply (nth_lookup_Some _ _ 0) in Hx. unfold sat_add. lia.
      - by rewrite !list_lookup_alter_ne. }
    replace (sat_add used 1) with (used + 1) by (unfold sat_add; lia).
    cbn in Hle. rewrite IH; try done; try lia.
    + cbn. rewrite (proj2 (Z.ltb_lt used available)) by lia. by rewrite orb_true_r.
    + rewrite Forall_forall in Hrest |- *. intros j Hj. destruct (Hrest j Hj) as [Hjl Hjlt].
      rewrite length_alter. split; [done|].
      assert (j <> i) by (intros ->; apply elem_of_take in Hj as (k & Hk & _);
                          apply list_elem_of_lookup_2 in Hk; done).
      assert (nth j (alter (fun x => x + 1) i alloc) 0 = nth j alloc 0) as ->; [|done].
      rewrite !nth_lookup. by rewrite list_lookup_alter_ne.
    + by rewrite length_alter.
Qed.

(** *** The order of the remainders *)

Definition descending (l : list (nat * Z)) : Prop := StronglySorted (fun a b => b.2 <= a.2) l.

Lemma insert_order_perm x l : insert_order x l ≡ₚ x :: l.
Proof.
  induction l as [|y l IH]; cbn; [done|]. case_match; [done|]. rewrite IH. by rewrite Permutation_swap.
Qed.

Lemma sort_order_perm l : sort_order l ≡ₚ l.
Proof. induction l as [|x l IH]; cbn; [done|]. by rewrite insert_order_perm, IH. Qed.

Lemma insert_order_descending x l : descending l -> descending (insert_order x l).
Proof.
  unfold descending. induction 1 as [|y l Hl IH Hall]; cbn; [repeat constructor|].
  unfold before. destruct (_ || _) eqn:Hb.
  - assert (y.2 <= x.2).
    { apply orb_true_iff in Hb as [Hb|Hb]; zify_bool; lia. }
    repeat constructor; [done|done|done|].
    eapply Forall_impl; [exact Hall|]. cbn. intros; lia.
  - zify_bool. constructor; [done|]. rewrite Forall_forall. intros z Hz.
    rewrite insert_order_perm in Hz. apply elem_of_cons in Hz as [->|Hz]; [done|].
    rewrite Forall_forall in Hall. by apply Hall.
Qed.

Lemma sort_order_descending l : descending (sort_order l).
Proof. induction l as [|x l IH]; cbn; [constructor|]. by apply insert_order_descending. Qed.

Lemma take_descending_positive n l :
  descending l -> (n <= count (fun x : nat * Z => 0 <? x.2)%Z l)%nat ->
  Forall (fun x => 0 < x.2) (take n l).
Proof.
  intros Hl. revert n. induction Hl as [|x l Hl IH Hall]; intros [|n] Hn; cbn in *;
    [constructor|constructor|constructor|].
  destruct (0 <? x.2) eqn:Hx; zify_bool.
  - constructor; [done|]. apply IH. lia.
  - rewrite count_zero in Hn; [lia|]. eapply Forall_impl; [exact Hall|]. cbn.
    intros y Hy. apply Z.ltb_ge. lia.
Qed.

Lemma count_perm {X} (f : X -> bool) l k : l ≡ₚ k -> count f l = count f k.
Proof. induction 1; cbn; try lia. Qed.

Lemma count_fmap {X Y} (f : Y -> bool) (g : X -> Y) l : count f (map g l) = count (fun x => f (g x)) l.
Proof. induction l as [|x l IH]; cbn; [done|]. by rewrite IH. Qed.

Lemma map_snd_enumerate {X} n (l : list X) : map snd (enumerate_from n l) = l.
Proof. revert n; induction l as [|x l IH]; intros n; cbn; [done|]. f_equal. apply IH. Qed.
Lemma map_fst_enumerate {X} n (l : list X) : map fst (enumerate_from n l) = seq n (length l).
Proof. revert n; induction l as [|x l IH]; intros n; cbn; [done|]. f_equal. apply IH. Qed.
Lemma elem_enumerate {X} n (l : list X) i x :
  (i, x) ∈ enumerate_from n l -> (n <= i)%nat /\ l !! (i - n)%nat = Some x.
Proof.
  revert n; induction l as [|y l IH]; intros n; cbn; [set_solver|].
  intros [[= -> ->]|Hin]%elem_of_cons; [by rewrite Nat.sub_diag|].
  destruct (IH (S n) Hin) as [Hle Hx]. split; [lia|].
  by replace (i - n)%nat with (S (i - S n)) by lia.
Qed.

(** *** The arithmetic of the shares *)

Lemma fold_sat_small (l : list Z) acc :
  Forall (fun q => 0 <= q) l -> 0 <= acc -> acc + sumZ l <= u64_max ->
  fold_left sat_add l acc = acc + sumZ l.
Proof.
  intros Hl. revert acc. induction Hl as [|q l Hq Hl IH]; intros acc Hacc Hle; cbn [fold_left];
    rewrite ?sumZ_nil, ?sumZ_cons in *; [lia|].
  pose proof (sumZ_nonneg l Hl). unfold sat_add. rewrite Z.min_l by lia.
  fold sat_add. rewrite IH by lia. lia.
Qed.

Section shares.
Context (desired : list Z) (available : Z).
Context (Hd : Forall u64 desired) (Htot : sumZ desired <= u64_max)
        (Ha : 0 <= available < sumZ desired).
Let total := sumZ desired.
Let floors := map (fun g => available * g / total) desired.
Let rems := map (fun g => available * g mod total) desired.
Let d := available - sumZ floors.

Lemma share_floor g : g ∈ desired ->
  proportional_share total available g = (available * g / total, available * g mod total).
Proof using All.
  intros Hg. rewrite Forall_forall in Hd. specialize (Hd g Hg) as [Hg0 Hg1].
  unfold total in *. unfold proportional_share.
  destruct (g =? 0) eqn:E; zify_bool; [subst; by rewrite Z.mul_0_r, Z.div_0_l, Z.mod_0_l by lia|].
  assert (sat_mul128 available g = available * g) as ->.
  { unfold sat_mul128. apply Z.min_l. nia. }
  assert (available * g / sumZ desired < g) by (apply Z.div_lt_upper_bound; nia).
  assert (0 <= available * g / sumZ desired) by (apply Z.div_pos; nia).
  cbn zeta. rewrite Z.min_l by lia. by rewrite as_u64_small by (unfold u64; lia).
Qed.

Lemma shares_are_floors : map (fun g => (proportional_share total available g).1) desired = floors.
Proof using All. apply map_ext_in. intros g Hg%list_elem_of_In. by rewrite share_floor. Qed.
Lemma remainders_are_rems : map (fun g => (proportional_share total available g).2) desired = rems.
Proof using All. apply map_ext_in. intros g Hg%list_elem_of_In. by rewrite share_floor. Qed.

Lemma floors_and_rems l :
  total * sumZ (map (fun g => available * g / total) l) + sumZ (map (fun g => available * g mod total) l)
  = available * sumZ l.
Proof using All.
  induction l as [|g l IH]; cbn [map]; rewrite ?sumZ_nil, ?sumZ_cons; [lia|].
  pose proof (Z.div_mod (available * g) total ltac:(unfold total in *; lia)). lia.
Qed.

Lemma rems_bound l :
  0 <= sumZ (map (fun g => available * g mod total) l) <=
  (total - 1) * Z.of_nat (count (fun r => 0 <? r) (map (fun g => available * g mod total) l)).
Proof using All.
  induction l as [|g l IH]; cbn [map count]; rewrite ?sumZ_nil, ?sumZ_cons; [lia|].
  pose proof (Z.mod_pos_bound (available * g) total ltac:(unfold total in *; lia)).
  destruct (0 <? available * g mod total) eqn:E; zify_bool; lia.
Qed.

(** The floors leave less than one e8 per target with a remainder. *)
Lemma deficit_bound : 0 <= d <= Z.of_nat (count (fun r => 0 <? r) rems).
Proof using All.
  unfold d in *. pose proof (floors_and_rems desired) as E. pose proof (rems_bound desired) as B.
  fold floors rems in E, B. fold total in E. assert (0 < total) by (unfold total in *; lia). nia.
Qed.

Lemma floors_nonneg : Forall (fun q => 0 <= q) floors.
Proof using All.
  unfold floors in *. apply Forall_map. eapply Forall_impl; [exact Hd|]. cbn.
  intros g [Hg _]. apply Z.div_pos; [nia|unfold total in *; lia].
Qed.

Let order := proportional_order total available desired.
Let ranked := sort_order (enumerate_from 0 rems).

Lemma order_eq : order = map fst ranked.
Proof using All. unfold order, ranked in *. unfold proportional_order. by rewrite remainders_are_rems. Qed.

Lemma order_perm : order ≡ₚ seq 0 (length desired).
Proof using All.
  rewrite order_eq. unfold ranked in *.
  rewrite (Permutation_map fst (sort_order_perm (enumerate_from 0 rems))), map_fst_enumerate.
  unfold rems in *. by rewrite length_map.
Qed.

Lemma chosen_short :
  Forall (fun i => (i < length floors)%nat /\ nth i floors 0 < nth i desired 0)
    (take (Z.to_nat d) order).
Proof using All.
  rewrite order_eq. rewrite firstn_map. apply Forall_map.
  pose proof (take_descending_positive (Z.to_nat d) ranked (sort_order_descending _)) as Hpos.
  rewrite Forall_forall in Hpos |- *. intros [i r] Hin.
  assert ((i, r) ∈ enumerate_from 0 rems) as He.
  { rewrite <- (sort_order_perm (enumerate_from 0 rems)).
    apply elem_of_take in Hin as (k & Hk & _). by apply list_elem_of_lookup_2 in Hk. }
  apply elem_enumerate in He as [_ Hr]. rewrite Nat.sub_0_r in Hr.
  assert (0 < r).
  { refine (Hpos _ (i, r) Hin). unfold ranked in *. rewrite (count_perm _ _ _ (sort_order_perm _)).
    rewrite <- (count_fmap (fun r => 0 <? r) snd), map_snd_enumerate. pose proof deficit_bound. lia. }
  unfold rems in *. cbn [fst]. rewrite list_lookup_fmap in Hr.
  destruct (desired !! i) as [g|] eqn:Hg; [|done]. injection Hr as <-.
  split; [unfold floors in *; rewrite length_map; by apply lookup_lt_Some in Hg|].
  rewrite (nth_lookup_Some _ _ _ _ Hg).
  rewrite (nth_lookup_Some _ _ 0 (available * g / total)).
  2:{ unfold floors in *. by rewrite list_lookup_fmap, Hg. }
  apply Z.div_lt_upper_bound; [unfold total in *; lia|].
  assert (0 <= g) by (eapply (Forall_lookup_1 _ _ _ _ Hd) in Hg; apply Hg).
  unfold total in *. destruct (decide (g = 0)) as [->|]; [|nia].
  rewrite Z.mul_0_r, Z.mod_0_l in * by lia. lia.
Qed.

Lemma proportional_bump :
  proportional_topup_gross_allocations desired total available =
  Some (bump (take (Z.to_nat d) order) floors).
Proof using All.
  unfold proportional_topup_gross_allocations. fold order.
  pose proof deficit_bound as Hdef. pose proof floors_nonneg as Hfl.
  rewrite shares_are_floors. unfold fold_sat. rewrite fold_sat_small; [|done|lia|].
  2:{ unfold d in *. pose proof order_perm as Hp. lia. }
  rewrite Z.add_0_l.
  assert (length floors = length desired) as Hlen by (unfold floors in *; by rewrite length_map).
  pose proof order_perm as Hperm.
  assert (remainder_pass desired available order (floors, sumZ floors, false) =
    (bump (take (Z.to_nat d) order) floors, available, sumZ floors <? available)) as Hpass.
  { pose proof (sumZ_nonneg floors Hfl).
    rewrite (remainder_pass_spec desired available order floors (sumZ floors) false); try done; try lia.
    - eapply Forall_impl; [exact Hd|]. by intros ? [].
    - rewrite Hperm, length_seq. fold d. pose proof (count_le_length (fun r => 0 <? r) rems) as Hc.
      unfold rems in *. rewrite length_map in Hc. lia.
    - rewrite Hperm. apply NoDup_seq.
    - apply chosen_short. }
  destruct (sumZ floors <? available) eqn:E.
  - erewrite iterate_two; [done| |].
    + unfold remainder_step. cbn [fst snd]. rewrite E, Hpass. done.
    + unfold remainder_step. cbn [fst snd]. by rewrite Z.ltb_irrefl.
  - erewrite iterate_one; [|unfold remainder_step; cbn [fst snd]; by rewrite E].
    zify_bool. assert (d = 0) as -> by lia. done.
Qed.

Lemma sumZ_allocation : sumZ (bump (take (Z.to_nat d) order) floors) = available.
Proof using All.
  rewrite sumZ_bump.
  - pose proof deficit_bound as Hdef. rewrite length_take, order_perm, length_seq.
    pose proof (count_le_length (fun r => 0 <? r) rems) as Hc. unfold rems in *. rewrite length_map in Hc.
    unfold d in *. lia.
  - eapply Forall_impl; [exact chosen_short|]. by intros ? [].
Qed.

Lemma allocation_bounds :
  Forall2 (fun a g => 0 <= a <= g) (bump (take (Z.to_nat d) order) floors) desired.
Proof using All.
  assert (NoDup (take (Z.to_nat d) order)) as Hnd.
  { eapply sublist_NoDup; [|apply sublist_take]. rewrite order_perm. apply NoDup_seq. }
  apply Forall2_same_length_lookup_2.
  { rewrite length_bump. unfold floors in *. by rewrite length_map. }
  intros i a g Hi Hg. rewrite lookup_bump in Hi by done. unfold floors in *.
  rewrite list_lookup_fmap, Hg in Hi. cbn in Hi. injection Hi as <-.
  assert (u64 g) as [Hg0 _] by exact (Forall_lookup_1 _ _ _ _ Hd Hg).
  assert (0 <= available * g / total) by (apply Z.div_pos; [nia|unfold total in *; lia]).
  case_bool_decide as Hin.
  - pose proof chosen_short as Hs. rewrite Forall_forall in Hs. destruct (Hs i Hin) as [_ Hlt].
    rewrite (nth_lookup_Some _ _ _ _ Hg) in Hlt.
    rewrite (nth_lookup_Some floors i 0 (available * g / total)) in Hlt; [lia|].
    unfold floors. by rewrite list_lookup_fmap, Hg.
  - assert (available * g / total <= g); [|lia].
    apply Z.div_le_upper_bound; unfold total in *; nia.
Qed.

End shares.

End remainders.

(** C38: The proportional allocation of a balance that does not cover the
    requests is the method of largest remainders: every target gets the floor of
    its proportional share and, in the order of their remainders, the first
    targets one e8 more until the balance is used up exactly; no target gets
    more than it asked for. *)
Theorem proportional_is_largest_remainder (desired : list Z) (available : Z)
    (Hd : Forall u64 desired) (Htot : sumZ desired <= u64_max) (Ha : 0 <= available < sumZ desired) :
  let reference := largest_remainder desired (sumZ desired) available in
  proportional_topup_gross_allocations desired (sumZ desired) available = Some reference /\
  sumZ reference = available /\
  Forall2 (fun a g => 0 <= a <= g) reference desired.
Proof.
  cbn zeta.
  assert (NoDup (take (Z.to_nat (available - sumZ (map (fun g => available * g / sumZ desired) desired)))
                   (proportional_order (sumZ desired) available desired))) as Hnd.
  { eapply sublist_NoDup; [|apply sublist_take]. rewrite order_perm by done. apply NoDup_seq. }
  unfold largest_remainder. cbn zeta. rewrite <- bump_imap by done.
  split; [by apply proportional_bump|]. split; [by apply sumZ_allocation|by apply allocation_bounds].
Qed.

Lemma proportional_is_largest_remainder_witness :
  proportional_topup_gross_allocations [50; 30; 20] (sumZ [50; 30; 20]) 11 =
    Some (largest_remainder [50; 30; 20] (sumZ [50; 30; 20]) 11) /\
  largest_remainder [50; 30; 20] (sumZ [50; 30; 20]) 11 = [6; 3; 2].
Proof.
  split; [|reflexivity].
  exact (proj1 (proportional_is_largest_remainder [50; 30; 20] 11
    ltac:(repeat constructor; cbn; lia) ltac:(by vm_compute) ltac:(split; by vm_compute))).
Defined.

(** The loop that hands out the remainders ends on every input, also when
    the requests overflow their sum: the allocation is defined. *)
Theorem proportional_returns (desired : list Z) (total available : Z)
    (Ha : u64 available) (Hd : Forall u64 desired) :
  exists alloc, proportional_topup_gross_allocations desired total available = Some alloc.
Proof.
  unfold proportional_topup_gross_allocations.
  set (order := proportional_order total available desired). clearbody order.
  set (shares := map _ desired).
  assert (0 <= fold_sat shares) as Hs.
  { assert (Forall (fun q => 0 <= q) shares) as Hq.
    { apply Forall_map, Forall_true. intros g. unfold proportional_share.
      destruct (g =? 0); cbn; [lia|]. unfold as_u64. apply Z.mod_pos_bound. lia. }
    unfold fold_sat. assert (0 <= 0) as Hacc by lia. revert Hacc. generalize 0 at 2 4.
    induction Hq as [|q l Hq Hl IH]; intros acc Hacc; cbn [fold_left]; [done|].
    apply IH. unfold sat_add. lia. }
  clearbody shares.
  assert (forall ord alloc used adv, 0 <= used ->
    let '(_, used', adv') := remainder_pass desired available ord (alloc, used, adv) in
    used <= used' /\ (adv' = true -> adv = true \/ used < used') /\ (used <= available -> used' <= available))
    as Hpass.
  { induction ord as [|i ord IH]; intros alloc used adv Hu; cbn [remainder_pass]; [naive_solver lia|].
    destruct (available <=? used) eqn:E; [naive_solver lia|]. zify_bool.
    destruct (_ <? _); [|by apply IH].
    assert (sat_add used 1 = used + 1) as -> by (destruct Ha; unfold sat_add; lia).
    specialize (IH (alter (fun a => sat_add a 1) i alloc) (used + 1) true ltac:(lia)).
    destruct (remainder_pass _ _ _ _) as [[? used'] adv']. naive_solver lia. }
  destruct (iterate_done (remainder_step desired available order)
    (fun s => 0 <= s.2) (fun s => Z.max 0 (available - s.2)) 64 (shares, fold_sat shares))
    as [r ->]; [|done|destruct Ha; cbn [snd]; lia|eauto].
  intros [alloc used] Hu. cbn [snd] in *. unfold remainder_step. cbn [fst snd].
  destruct (used <? available) eqn:E; [|done]. zify_bool.
  specialize (Hpass order alloc used false Hu).
  destruct (remainder_pass _ _ _ _) as [[alloc' used'] adv']. destruct adv'; [|done]. cbn.
  naive_solver lia.
Qed.

Lemma proportional_returns_witness :
  exists alloc, proportional_topup_gross_allocations [u64_max; u64_max] u64_max 5 = Some alloc.
Proof. apply proportional_returns; [unfold u64; lia|repeat constructor; unfold u64; lia]. Defined.

(** ** The plans stay within the balance *)

Section plans.
Context `{P : PrincipalSpec} `{O : !OrdSpec Principal}.

(** What the payable shares of a plan take from the account. *)
Definition payable_gross (l : list BurnPlan) : Z :=
  sumZ (map (fun p => if 0 <? bp_amount_e8s p then bp_gross_share_e8s p else 0) l).
(** A share is skipped, or pays its gross amount less the fee. *)
Definition share_ok (fee : Z) (p : BurnPlan) : Prop :=
  bp_amount_e8s p = 0 \/ 0 < bp_amount_e8s p /\ bp_gross_share_e8s p = bp_amount_e8s p + fee.

Lemma payable_cons p l :
  payable_gross (p :: l) = (if 0 <? bp_amount_e8s p then bp_gross_share_e8s p else 0) + payable_gross l.
Proof. unfold payable_gross. cbn [map]. by rewrite sumZ_cons. Qed.

Lemma topup_net_bounds t est : 0 <= t -> 0 <= cycles_per_e8 est -> u64 (topup_net_e8s t est).
Proof.
  intros Ht Hc. unfold topup_net_e8s, ceil_div.
  destruct (t =? 0) eqn:E1, (cycles_per_e8 est =? 0) eqn:E2; cbn [orb]; zify_bool; try (unfold u64; lia).
  pose proof (Z.div_pos (sat_add128 t (cycles_per_e8 est - 1)) (cycles_per_e8 est)).
  u64_unfold. lia.
Qed.

(** A fresh plan that asks for nothing, or for more than the fee. *)
Definition asked_ok (fee : Z) (pg : BurnPlan * Z) : Prop :=
  bp_amount_e8s pg.1 = 0 /\ u64 pg.2 /\ (0 < pg.2 -> fee < pg.2).

Lemma desired_topup_ok fee est p :
  0 <= bp_target_topup_cycles p -> 0 <= cycles_per_e8 est -> u64 fee -> bp_amount_e8s p = 0 ->
  asked_ok fee (desired_topup fee est p) /\
  bp_canister_id (desired_topup fee est p).1 = bp_canister_id p.
Proof.
  intros Ht Hc Hf Hp. pose proof (topup_net_bounds _ est Ht Hc) as Hn.
  unfold asked_ok, desired_topup. cbn zeta.
  repeat case_match; cbn; u64_unfold; zify_bool; repeat split; try done; lia.
Qed.

Lemma fund_fully_ok fee p g : asked_ok fee (p, g) ->
  share_ok fee (fund_fully fee p g) /\
  (if 0 <? bp_amount_e8s (fund_fully fee p g) then bp_gross_share_e8s (fund_fully fee p g) else 0) = g.
Proof.
  intros (Hp & [Hg _] & Hlt). cbn in *. unfold share_ok, fund_fully.
  destruct (0 <? g) eqn:E; zify_bool; cbn -[Z.ltb].
  - unfold const. specialize (Hlt E). rewrite (proj2 (Z.ltb_lt 0 (g - fee))) by lia. lia.
  - rewrite Hp. cbn. split; [by left|lia].
Qed.

Lemma fund_partly_ok fee p a : bp_amount_e8s p = 0 -> 0 <= fee -> 0 <= a ->
  share_ok fee (fund_partly fee p a) /\
  (if 0 <? bp_amount_e8s (fund_partly fee p a) then bp_gross_share_e8s (fund_partly fee p a) else 0) <= a.
Proof.
  intros Hp Hf Ha. unfold share_ok, fund_partly. destruct (fee <? a) eqn:E; zify_bool; cbn -[Z.ltb].
  - unfold const. rewrite (proj2 (Z.ltb_lt 0 (a - fee))) by lia. lia.
  - destruct (is_none _); cbn -[Z.ltb]; rewrite Hp; cbn; (split; [by left|lia]).
Qed.

Lemma zip_fund_fully fee asked :
  Forall (asked_ok fee) asked ->
  let l := zip_with (fund_fully fee) (map fst asked) (map snd asked) in
  Forall (share_ok fee) l /\ payable_gross l = sumZ (map snd asked) /\
  map bp_canister_id l = map (fun pg => bp_canister_id pg.1) asked.
Proof.
  cbn zeta. induction 1 as [|[p g] asked Hpg _ (IH1 & IH2 & IH3)]; cbn [map zip_with fst snd]; [done|].
  destruct (fund_fully_ok fee p g Hpg) as [H1 H2]. rewrite payable_cons, IH2, sumZ_cons, H2, IH3.
  repeat split; [by constructor|]. f_equal. unfold fund_fully. by destruct (0 <? g).
Qed.

Lemma zip_fund_partly fee asked alloc :
  0 <= fee -> Forall (asked_ok fee) asked -> Forall2 (fun a g => 0 <= a <= g) alloc (map snd asked) ->
  let l := zip_with (fund_partly fee) (map fst asked) alloc in
  Forall (share_ok fee) l /\ payable_gross l <= sumZ alloc /\
  map bp_canister_id l = map (fun pg => bp_canister_id pg.1) asked.
Proof.
  intros Hf Hok. revert alloc. induction Hok as [|[p g] asked Hpg _ IH]; intros alloc H2; cbn [map] in *.
  - inversion_clear H2. by split; [constructor|].
  - inversion_clear H2 as [|a ? alloc' ? Ha Hrest]. destruct (IH alloc' Hrest) as (IH1 & IH2 & IH3).
    cbn zeta in *. cbn [zip_with map fst snd]. destruct Hpg as (Hp & _). cbn in *.
    destruct (fund_partly_ok fee p a Hp Hf ltac:(lia)) as [H1 H3].
    rewrite payable_cons, sumZ_cons, IH3. repeat split; [by constructor|lia|].
    f_equal. unfold fund_partly. by repeat case_match.
Qed.

Lemma zip_mark_unfunded fee (l : list BurnPlan) (desired : list Z) :
  length l = length desired -> Forall (share_ok fee) l ->
  Forall (share_ok fee) (zip_with mark_unfunded l desired) /\
  payable_gross (zip_with mark_unfunded l desired) = payable_gross l /\
  map bp_canister_id (zip_with mark_unfunded l desired) = map bp_canister_id l.
Proof.
  intros Hlen Hl. revert desired Hlen.
  induction Hl as [|p l Hp Hl IH]; intros [|g desired] Hlen; cbn in Hlen; try lia;
    cbn [zip_with map]; [done|].
  destruct (IH desired ltac:(lia)) as (IH1 & IH2 & IH3). rewrite !payable_cons, IH2, IH3.
  assert (bp_amount_e8s (mark_unfunded p g) = bp_amount_e8s p /\
          bp_gross_share_e8s (mark_unfunded p g) = bp_gross_share_e8s p /\
          bp_canister_id (mark_unfunded p g) = bp_canister_id p) as (E1 & E2 & ->)
    by (unfold mark_unfunded; by case_match).
  rewrite E1, E2. split; [|done]. constructor; [|done]. unfold share_ok in *. by rewrite E1, E2.
Qed.

Context (current previous : btree_map Principal CyclesSnapshot).
Context (relay_minted recovery_deficits : btree_map Principal Z).
Context (available fee now_nanos : Z) (conversion_estimate : option ConversionEstimate).

Lemma burn_target_nonneg headroom :
  Forall (fun kv => 0 <= kv.2) recovery_deficits ->
  Forall (fun p => 0 <= bp_target_topup_cycles p /\ bp_amount_e8s p = 0)
    (burn_plans current previous relay_minted recovery_deficits headroom).
Proof using Type.
  intros Hr. apply Forall_map, Forall_true. intros [c s]. split; [|done].
  unfold burn_plan. cbn [bp_target_topup_cycles].
  assert (0 <= default 0 (btree_get c recovery_deficits)).
  { destruct (btree_get c recovery_deficits) as [x|] eqn:E; cbn; [|lia].
    apply btree_get_elem in E. rewrite Forall_forall in Hr. by apply (Hr (c, x)). }
  assert (0 <= (match snap_cycles <$> btree_get c previous with
    | Some prev => compute_burn prev (default 0 (btree_get c relay_minted)) (snap_cycles s)
    | None => 0 end)) as Hburn by (case_match; unfold compute_burn; ulia).
  revert Hburn. generalize (match snap_cycles <$> btree_get c previous with
    | Some prev => compute_burn prev (default 0 (btree_get c relay_minted)) (snap_cycles s)
    | None => 0 end). intros burn Hburn.
  unfold sat_add128. destruct headroom; [|lia]. unfold target_topup_cycles, ceil_div.
  case_match; [lia|]. apply Z.min_glb; [|lia]. apply Z.add_nonneg_nonneg; [done|].
  apply Z.div_pos; [|done]. unfold sat_add128, sat_mul128, TOPUP_HEADROOM_NUMERATOR, TOPUP_HEADROOM_DENOMINATOR. lia.
Qed.

Lemma asked_topups_ok :
  u64 fee -> Forall (fun kv => 0 <= kv.2) recovery_deficits ->
  Forall (asked_ok fee)
    (asked_topups current previous relay_minted recovery_deficits fee conversion_estimate now_nanos) /\
  map (fun pg => bp_canister_id pg.1)
    (asked_topups current previous relay_minted recovery_deficits fee conversion_estimate now_nanos)
  = btree_keys current.
Proof using Type.
  intros Hf Hr. unfold asked_topups. cbn zeta.
  assert (0 <= cycles_per_e8 (default {| cycles_per_e8 := BOOTSTRAP_CYCLES_PER_E8;
    ce_timestamp_nanos := now_nanos |} (usable_estimate conversion_estimate now_nanos))) as Hc.
  { unfold usable_estimate, conversion_estimate_is_usable, then_some.
    repeat case_match; cbn; simplify_eq; zify_bool; unfold BOOTSTRAP_CYCLES_PER_E8; lia. }
  pose proof (burn_target_nonneg true Hr) as Hb. split.
  - apply Forall_map. eapply Forall_impl; [exact Hb|]. cbn. intros p [Ht Hp]. by apply desired_topup_ok.
  - rewrite map_map. unfold btree_keys, burn_plans. rewrite map_map. apply map_ext.
    intros [c s]. rewrite Forall_forall in Hb.
    unfold desired_topup. cbn zeta. by repeat case_match.
Qed.

Lemma allocation_within_balance :
  u64 available -> u64 fee -> Forall (fun kv => 0 <= kv.2) recovery_deficits ->
  let desired := map snd (asked_topups current previous relay_minted recovery_deficits fee
                            conversion_estimate now_nanos) in
  sumZ desired <= u64_max ->
  let plan := build_allocation_plan current previous relay_minted recovery_deficits available fee
                conversion_estimate now_nanos in
  payable_gross (topups plan) <= available /\
  Forall (share_ok fee) (topups plan) /\
  map bp_canister_id (topups plan) = btree_keys current /\
  topup_phase_fully_funded plan = (sumZ desired <=? available) /\
  (sumZ desired <= available -> payable_gross (topups plan) = sumZ desired).
Proof using Type.
  intros Ha Hf Hr. cbn zeta. destruct (asked_topups_ok Hf Hr) as [Hok Hids].
  unfold build_allocation_plan. set (asked := asked_topups _ _ _ _ _ _ _) in *. clearbody asked.
  intros Htot. cbn zeta. cbn [topups topup_phase_fully_funded].
  assert (Forall u64 (map snd asked)) as Hu.
  { apply Forall_map. eapply Forall_impl; [exact Hok|]. by intros pg (_ & ? & _). }
  assert (fold_sat (map snd asked) = sumZ (map snd asked)) as ->.
  { unfold fold_sat. rewrite (fold_sat_small); [lia| |lia|lia].
    eapply Forall_impl; [exact Hu|]. by intros ? []. }
  destruct (sumZ (map snd asked) <=? available) eqn:E; zify_bool.
  - destruct (zip_fund_fully fee asked Hok) as (H1 & H2 & H3). rewrite H2, H3. auto.
  - rewrite (proj2 (Z.ltb_lt 0 _)) by (destruct Ha; lia).
    rewrite (proportional_bump (map snd asked) available Hu Htot) by (destruct Ha; lia).
    cbn [default from_option].
    pose proof (sumZ_allocation (map snd asked) available Hu Htot ltac:(destruct Ha; lia)) as Hsum.
    pose proof (allocation_bounds (map snd asked) available Hu Htot ltac:(destruct Ha; lia)) as Hb.
    destruct (zip_fund_partly fee asked _ ltac:(apply Hf) Hok Hb) as (H1 & H2 & H3).
    rewrite Hsum in H2.
    pose proof (Forall2_length _ _ _ Hb) as Hlen. rewrite !length_map in Hlen.
    destruct (fun Hl => zip_mark_unfunded fee _ (map snd asked) Hl H1) as (G1 & G2 & G3).
    { rewrite length_zip_with, Hlen, !length_map. lia. }
    unfold id. rewrite G2, G3, H3. repeat split; auto; lia.
Qed.

End plans.

Section spend_all.
Context `{P : PrincipalSpec} `{O : !OrdSpec Principal}.

Lemma sumZ_filter_positive (l : list BurnPlan) :
  Forall (fun p => 0 <= bp_target_topup_cycles p) l ->
  sumZ (map bp_target_topup_cycles (List.filter (fun p => 0 <? bp_target_topup_cycles p) l)) =
  sumZ (map bp_target_topup_cycles l).
Proof.
  induction 1 as [|p l Hp _ IH]; cbn; [done|].
  destruct (0 <? _) eqn:E; cbn [map]; rewrite ?sumZ_cons, IH; zify_bool; lia.
Qed.

Lemma spend_share_ok available fee total p :
  u64 available -> 0 <= fee -> 0 < total -> 0 <= bp_target_topup_cycles p -> bp_amount_e8s p = 0 ->
  share_ok fee (spend_share available fee total p) /\
  total * (if 0 <? bp_amount_e8s (spend_share available fee total p)
           then bp_gross_share_e8s (spend_share available fee total p) else 0)
  <= available * bp_target_topup_cycles p /\
  bp_canister_id (spend_share available fee total p) = bp_canister_id p.
Proof.
  intros [Ha _] Hf Ht Hn Hp. unfold spend_share, share_ok.
  assert (0 <= available * bp_target_topup_cycles p) by nia.
  destruct (bp_target_topup_cycles p =? 0) eqn:E0; cbn -[Z.ltb]; [rewrite Hp; cbn; repeat split; [by left|lia]|].
  set (gross := as_u64 _).
  assert (0 <= gross /\ total * gross <= available * bp_target_topup_cycles p) as [Hg Hle].
  { subst gross. pose proof (Z.div_pos (sat_mul128 available (bp_target_topup_cycles p)) total).
    pose proof (Z.mul_div_le (sat_mul128 available (bp_target_topup_cycles p)) total Ht).
    rewrite as_u64_small by (unfold u64, sat_mul128 in *; lia). unfold sat_mul128 in *. nia. }
  clearbody gross. destruct (_ || _) eqn:Eb; cbn -[Z.ltb]; unfold const; [rewrite Hp; cbn; repeat split; [by left|lia]|].
  zify_bool. rewrite (proj2 (Z.ltb_lt 0 (gross - fee))) by lia. repeat split; [right; lia|lia].
Qed.

Context (current previous : btree_map Principal CyclesSnapshot).
Context (relay_minted recovery_deficits : btree_map Principal Z).

Lemma spend_all_within (available fee : Z) (Ha : u64 available) (Hf : u64 fee)
    (Hr : Forall (fun kv => 0 <= kv.2) recovery_deficits)
    (Hsum : sumZ (map bp_target_topup_cycles
              (burn_plans current previous relay_minted recovery_deficits false)) <= u128_max) :
  let plan := build_spend_all_cycles_plan current previous relay_minted recovery_deficits
                available fee in
  payable_gross (topups plan) <= available /\
  Forall (share_ok fee) (topups plan) /\
  map bp_canister_id (topups plan) = btree_keys current.
Proof.
  cbn zeta. unfold build_spend_all_cycles_plan. cbn zeta.
  pose proof (burn_target_nonneg current previous relay_minted recovery_deficits false Hr) as Hb.
  assert (map bp_canister_id (burn_plans current previous relay_minted recovery_deficits false)
          = btree_keys current) as Hids.
  { unfold burn_plans, btree_keys. rewrite map_map. apply map_ext. by intros [c s]. }
  set (plans := burn_plans _ _ _ _ _) in *. clearbody plans.
  assert (Forall (fun p => 0 <= bp_target_topup_cycles p) plans) as Hn.
  { eapply Forall_impl; [exact Hb|]. by intros ? []. }
  unfold sum_u128. rewrite (sumZ_filter_positive plans Hn).
  remember (sumZ (map bp_target_topup_cycles plans)) as total eqn:Htotal.
  assert (0 <= total) as Ht by (subst total; by apply sumZ_nonneg, Forall_map).
  rewrite Z.mod_small by lia. destruct (total =? 0) eqn:E; cbn [topups].
  - split; [|split].
    + unfold payable_gross. rewrite map_map. destruct Ha as [Ha _].
      replace (sumZ _) with 0; [done|]. symmetry. clear -Hb.
      induction Hb as [|p l [_ Hp] _ IH]; cbn [map]; rewrite ?sumZ_nil, ?sumZ_cons, ?IH; [done|].
      cbn. by rewrite Hp.
    + apply Forall_map. eapply Forall_impl; [exact Hb|]. intros p [_ Hp]. by left.
    + by rewrite map_map.
  - zify_bool. assert (0 < total) as Hpos by lia.
    assert (Forall (fun p => share_ok fee (spend_share available fee total p) /\
      total * (if 0 <? bp_amount_e8s (spend_share available fee total p)
               then bp_gross_share_e8s (spend_share available fee total p) else 0)
      <= available * bp_target_topup_cycles p /\
      bp_canister_id (spend_share available fee total p) = bp_canister_id p) plans) as Hall.
    { eapply Forall_impl; [exact Hb|]. cbn. intros p [Hp1 Hp2].
      destruct Hf. by apply spend_share_ok. }
    split; [|split].
    + assert (total * payable_gross (map (spend_share available fee total) plans)
              <= available * sumZ (map bp_target_topup_cycles plans)) as Hle.
      { clear -Hall. induction Hall as [|p l (_ & Hp & _) _ IH]; cbn [map].
        - unfold payable_gross. cbn [map]. rewrite !sumZ_nil. lia.
        - rewrite payable_cons, sumZ_cons, !Z.mul_add_distr_l. lia. }
      rewrite <- Htotal in Hle. nia.
    + apply Forall_map. eapply Forall_impl; [exact Hall|]. cbn. by intros ? [? _].
    + rewrite <- Hids, map_map. apply map_ext_in. intros p Hp%list_elem_of_In.
      rewrite Forall_forall in Hall. by apply Hall.
Qed.

(** Without surplus recipients the whole balance goes to the managed
    canisters in proportion to the cycles they burned: the payable gross shares
    never exceed the balance, each pays its gross amount less the fee, and the
    samples are the managed canisters in their order.  (The burned cycles of
    all canisters together are below 2^128.) *)
Theorem spend_all_within_balance (available fee : Z) (Ha : u64 available) (Hf : u64 fee)
    (Hr : Forall (fun kv => 0 <= kv.2) recovery_deficits)
    (Hsum : sumZ (map bp_target_topup_cycles
              (burn_plans current previous relay_minted recovery_deficits false)) <= u128_max) :
  let plan := build_spend_all_cycles_plan current previous relay_minted recovery_deficits
                available fee in
  payable_gross (topups plan) <= available /\
  Forall (share_ok fee) (topups plan) /\
  map bp_canister_id (topups plan) = btree_keys current.
Proof. by apply spend_all_within. Qed.

(** The top-up plan never spends more than the default account holds:
    every payable share is its gross amount, the gross amounts add up to at most
    the balance, and to exactly what the managed canisters ask for when the
    balance covers it (the phase is then reported as fully funded).  Targets
    keep the order of the managed canisters.  (The requests add up to less than
    2^64 e8s; beyond that their saturated total hides the excess.) *)
Theorem allocation_plan_within_balance (available fee now_nanos : Z)
    (conversion_estimate : option ConversionEstimate) (Ha : u64 available) (Hf : u64 fee)
    (Hr : Forall (fun kv => 0 <= kv.2) recovery_deficits) :
  let desired := map snd (asked_topups current previous relay_minted recovery_deficits fee
                            conversion_estimate now_nanos) in
  sumZ desired <= u64_max ->
  let plan := build_allocation_plan current previous relay_minted recovery_deficits available fee
                conversion_estimate now_nanos in
  payable_gross (topups plan) <= available /\
  Forall (share_ok fee) (topups plan) /\
  map bp_canister_id (topups plan) = btree_keys current /\
  topup_phase_fully_funded plan = (sumZ desired <=? available) /\
  (sumZ desired <= available -> payable_gross (topups plan) = sumZ desired).
Proof. by apply allocation_within_balance. Qed.

End spend_all.

Section surplus.
Context `{P : PrincipalSpec}.

(** What the payable surplus transfers take from the account. *)
Definition surplus_gross (l : list SurplusTransferSample) : Z :=
  sumZ (map (fun p => if 0 <? sx_amount_e8s p then sx_gross_share_e8s p else 0) l).

Lemma sumZ_map_const {X} (f : X -> Z) (c : Z) l :
  (forall x, f x = c) -> sumZ (map f l) = Z.of_nat (length l) * c.
Proof.
  intros Hf. induction l as [|x l IH]; cbn [map length]; rewrite ?sumZ_nil, ?sumZ_cons, ?IH, ?Hf; lia.
Qed.

Lemma surplus_within_balance recipients available fee :
  0 <= available -> 0 <= fee -> Z.of_nat (length recipients) <= u64_max ->
  let surplus := allocate_equal_surplus_shares recipients available fee in
  0 <= surplus_gross surplus <= available /\
  length surplus = length recipients /\
  Forall (fun p => sx_amount_e8s p = 0 \/ MIN_RAW_ICP_RECIPIENT_AMOUNT_E8S <= sx_amount_e8s p /\
                   sx_gross_share_e8s p = sx_amount_e8s p + fee) surplus.
Proof.
  intros Ha Hf Hlen. cbn zeta. unfold allocate_equal_surplus_shares.
  destruct recipients as [|r rest] eqn:Hrs; [by repeat split|]. rewrite <- Hrs in *.
  rewrite as_u64_small by (unfold u64; lia).
  assert (0 < Z.of_nat (length recipients)) as Hn by (rewrite Hrs; cbn; lia).
  set (gross := available / Z.of_nat (length recipients)).
  pose proof (Z.mul_div_le available _ Hn) as Hle. fold gross in Hle.
  assert (0 <= gross) by (apply Z.div_pos; lia). clearbody gross. clear Hrs.
  assert (forall amount why, (amount = 0 \/ MIN_RAW_ICP_RECIPIENT_AMOUNT_E8S <= amount /\ gross = amount + fee) ->
    let l := map (fun r => {| sx_target := resolved_target r; sx_account := resolved_account r;
      sx_gross_share_e8s := gross; sx_amount_e8s := amount;
      sx_memo_len := (fun m => as_u32 (Z.of_nat (length m))) <$> resolved_memo r;
      sx_skipped_reason := why |}) recipients in
    0 <= surplus_gross l <= available /\ length l = length recipients /\
    Forall (fun p => sx_amount_e8s p = 0 \/ MIN_RAW_ICP_RECIPIENT_AMOUNT_E8S <= sx_amount_e8s p /\
                     sx_gross_share_e8s p = sx_amount_e8s p + fee) l) as Hgoal.
  { intros amount why Hamount. cbn zeta. split; [|split].
    - unfold surplus_gross. rewrite map_map. cbn -[Z.ltb].
      rewrite (sumZ_map_const _ (if 0 <? amount then gross else 0)) by done.
      destruct (0 <? amount); nia.
    - by rewrite length_map.
    - by apply Forall_map, Forall_true. }
  cbn zeta. destruct (gross <=? fee) eqn:E1; [apply Hgoal; by left|].
  destruct (_ <? MIN_RAW_ICP_RECIPIENT_AMOUNT_E8S) eqn:E2; apply Hgoal; zify_bool; [by left|right; lia].
Qed.

(** The surplus plan splits the retained balance equally: all recipients
    get the same gross share, at least 1 ICP net of the fee or nothing at all,
    and the shares never exceed the balance; without a usable conversion
    estimate nothing is planned. *)
Theorem surplus_plan_within_balance (recipients : list ResolvedSurplusRecipient)
    (available fee now_nanos : Z) (estimate : option ConversionEstimate)
    (Ha : 0 <= available) (Hf : 0 <= fee) (Hlen : Z.of_nat (length recipients) <= u64_max) :
  let '(surplus, before_fees, why) :=
    build_surplus_plan recipients available fee estimate now_nanos in
  0 <= surplus_gross surplus <= available /\
  Forall (fun p => sx_amount_e8s p = 0 \/ MIN_RAW_ICP_RECIPIENT_AMOUNT_E8S <= sx_amount_e8s p /\
                   sx_gross_share_e8s p = sx_amount_e8s p + fee) surplus /\
  (usable_estimate estimate now_nanos = None -> surplus = []) /\
  (surplus_gross surplus <> 0 -> why = None).
Proof.
  unfold build_surplus_plan. destruct (usable_estimate estimate now_nanos); [|by repeat split].
  destruct (surplus_within_balance recipients available fee Ha Hf Hlen) as (Hg & _ & Hall).
  cbn zeta. split; [done|]. split; [done|]. split; [done|]. intros Hpos.
  destruct recipients as [|r rest] eqn:Hrs; [done|]. rewrite <- Hrs in *.
  destruct (available =? 0) eqn:E; zify_bool; [lia|].
  destruct (forallb _ _) eqn:Eall; [|done]. exfalso. apply Hpos.
  clear -Eall. induction (allocate_equal_surplus_shares recipients available fee) as [|p l IH]; [done|].
  cbn in Eall. apply andb_true_iff in Eall as [Ep El]. zify_bool.
  unfold surplus_gross in *. cbn [map]. by rewrite sumZ_cons, Ep, (IH El).
Qed.
End surplus.

Section witnesses.
Import Concrete.
Local Abbreviation snapshot c := (MkSnapshot c 0 SelfCanister).

Definition current0 : btree_map (Principal (PrincipalSpec:=concrete_principal)) CyclesSnapshot :=
  [(7, snapshot 400000000); (8, snapshot 900000000)].
Definition previous0 : btree_map (Principal (PrincipalSpec:=concrete_principal)) CyclesSnapshot :=
  [(7, snapshot 900000000); (8, snapshot 1000000000)].

Lemma spend_all_within_balance_witness :
  payable_gross (topups (build_spend_all_cycles_plan current0 previous0 [] [] 1000000 10)) <= 1000000
  /\ map bp_amount_e8s (topups (build_spend_all_cycles_plan current0 previous0 [] [] 1000000 10))
     = [833323; 166656].
Proof.
  split; [|reflexivity].
  exact (proj1 (spend_all_within_balance current0 previous0 [] [] 1000000 10
    ltac:(unfold u64; lia) ltac:(unfold u64; lia) ltac:(constructor) ltac:(by vm_compute))).
Defined.

Lemma allocation_plan_within_balance_witness :
  payable_gross (topups (build_allocation_plan current0 previous0 [] [] 3000 10 None 5)) <= 3000 /\
  map bp_amount_e8s (topups (build_allocation_plan current0 previous0 [] [] 3000 10 None 5))
  = [2487; 493].
Proof.
  split; [|reflexivity].
  exact (proj1 (allocation_plan_within_balance current0 previous0 [] [] 3000 10 5 None
    ltac:(unfold u64; lia) ltac:(unfold u64; lia) ltac:(constructor) ltac:(by vm_compute))).
Defined.

Lemma surplus_plan_within_balance_witness :
  let r := {| resolved_target := SurplusNeuron 5; resolved_account := MkAccount _ 8 None;
              resolved_memo := None |} in
  0 <= surplus_gross (build_surplus_plan [r; r] 500000000 10000 (Some (MkEstimate 5 0)) 7).1.1 <= 500000000.
Proof.
  cbn zeta.
  exact (proj1 (surplus_plan_within_balance (P:=concrete_principal)
    [{| resolved_target := SurplusNeuron 5; resolved_account := MkAccount _ 8 None; resolved_memo := None |};
     {| resolved_target := SurplusNeuron 5; resolved_account := MkAccount _ 8 None; resolved_memo := None |}]
    500000000 10000 7 (Some (MkEstimate 5 0)) ltac:(lia) ltac:(lia) ltac:(cbn; lia))).
Defined.
End witnesses.
