(* ===== verification/RelaySplitter.v ===== *)
(** * Relay: lease guards, ledger fee and the splitter driver

    [canisters/relay/src/scheduler/]: [guards.rs], [ledger_fee.rs] and
    [splitter.rs], with the main-continuation timer of [tick.rs] the splitter
    schedules.  One round of [drive_active_job] is an atomic step up to an
    await, the call, and the atomic step after it: [before_await] and
    [after_balance], [after_fee], [after_transfer].  Log lines and the debug
    injections (disabled without [debug_api]) are not modelled. *)

From S2P Require Import Prelude BTree Async Ic Clients TimerGuard CyclesProbe RelayState RelayLogic.

Section splitter.
Context `{P : PrincipalSpec} `{T : TextSpec}.
Context (relay_id : Principal).
#[local] Existing Instance Principal_eq_dec.
Local Abbreviation async := (async Heap SuiteCall).

Definition MAIN_TICK_LEASE_SECONDS : Z := 30 * 60.
Definition SPLITTER_LEASE_SECONDS : Z := 30 * 60.
Definition SPLITTER_RETRY_INTERVAL_SECONDS : Z := 60 * 60.
Definition LEDGER_CREATED_AT_VALID_WINDOW_NANOS : Z := 24 * 60 * 60 * 1000000000.
Definition ICP_LEDGER_FEE_BOOTSTRAP_FALLBACK_E8S : Z := 10000.
Definition SPLITTER_MAIN_CONTINUATION_DELAY_SECONDS : Z := 1.

(** ** The guards *)

Record MainGuard := MkMainGuard { main_inner : Timer.TimerLeaseGuard }.
Record SplitterGuard := MkSplitterGuard { splitter_inner : Timer.TimerLeaseGuard }.
(** [MainLeaseToken] holds the expiry. *)
Definition MainLeaseToken : Type := Z.

Definition lease_is_current (lease : MainLeaseToken) (s : State) : bool :=
  bool_decide (main_lock_state_ts s = Some lease).

Definition main_acquire (now_secs : Z) (h : Heap) : option MainGuard * Heap :=
  match Timer.acquire now_secs MAIN_TICK_LEASE_SECONDS (main_lock_state_ts (st h)) with
  | None => (None, h)
  | Some i => (Some (MkMainGuard i),
               upd (fun s => s <| main_lock_state_ts := Some (Timer.lease_expires_at_ts i) |>) h)
  end.

Definition main_lease_token (g : MainGuard) : MainLeaseToken :=
  Timer.lease_expires_at_ts (main_inner g).

Definition main_is_current (g : MainGuard) (h : Heap) : bool :=
  Timer.is_active (main_inner g) && lease_is_current (main_lease_token g) (st h).

(** [finish]; the guard is inactive when it is dropped. *)
Definition main_finish (g : MainGuard) (now_secs : Z) (h : Heap) : Heap :=
  match (Timer.release (main_inner g) (main_lock_state_ts (st h))).1 with
  | Released => upd (fun s => s <| last_main_run_ts := now_secs |> <| main_lock_state_ts := Some 0 |>) h
  | Unchanged => h
  end.

Definition record_core_progress (g : MainGuard) (now_secs : Z) (h : Heap) : Heap :=
  if main_is_current g h then upd (fun s => s <| last_main_run_ts := now_secs |>) h else h.

(** [release], called by [release_without_finishing] and by [Drop]. *)
Definition main_release (g : MainGuard) (h : Heap) : Heap :=
  if negb (Timer.is_active (main_inner g)) then h
  else
    match (Timer.release (main_inner g) (main_lock_state_ts (st h))).1 with
    | Released => upd (fun s => s <| main_lock_state_ts := Some 0 |>) h
    | Unchanged => h
    end.

Definition splitter_acquire (now_secs : Z) (h : Heap) : option SplitterGuard * Heap :=
  match Timer.acquire now_secs SPLITTER_LEASE_SECONDS (splitter_lock_state_ts (st h)) with
  | None => (None, h)
  | Some i => (Some (MkSplitterGuard i),
               upd (fun s => s <| splitter_lock_state_ts := Some (Timer.lease_expires_at_ts i) |>) h)
  end.

Definition splitter_is_current (g : SplitterGuard) (h : Heap) : bool :=
  Timer.is_active (splitter_inner g) &&
  bool_decide (splitter_lock_state_ts (st h) = Some (Timer.lease_expires_at_ts (splitter_inner g))).

(** [release], called by [Drop]. *)
Definition splitter_release (g : SplitterGuard) (h : Heap) : Heap :=
  if negb (Timer.is_active (splitter_inner g)) then h
  else
    match (Timer.release (splitter_inner g) (splitter_lock_state_ts (st h))).1 with
    | Released => upd (fun s => s <| splitter_lock_state_ts := Some 0 |>) h
    | Unchanged => h
    end.

(** ** The ledger fee *)

(** The state update and the fee after the ledger's reply. *)
Definition fee_resolved (reply : result Z ClientError) (h : Heap) : Z * Heap :=
  match reply with
  | Ok fee => (fee, upd (fun s => s <| last_known_ledger_fee_e8s := Some fee |>) h)
  | Err _ => (default ICP_LEDGER_FEE_BOOTSTRAP_FALLBACK_E8S (last_known_ledger_fee_e8s (st h)), h)
  end.

Definition resolve_icp_ledger_fee_e8s (ledger : Principal) : async Z :=
  r ← fee_e8s ledger;
  with_state_mut (fee_resolved r).

Definition record_bad_fee (expected_fee : Z) (h : Heap) : Heap :=
  if expected_fee <=? u64_max
  then upd (fun s => s <| last_known_ledger_fee_e8s := Some expected_fee |>) h else h.

(** ** The continuation timer of the main tick ([tick.rs]) *)

Definition request_splitter_main_continuation (h : Heap) : Heap :=
  upd (fun s => s <| splitter_main_continuation_requested := true |>) h.

Definition clear_splitter_main_continuation_request (h : Heap) : Heap :=
  upd (fun s => s <| splitter_main_continuation_requested := false |>
                  <| splitter_main_continuation_timer_pending := false |>) h.

Definition schedule_splitter_main_continuation_after (delay_seconds : Z) (h : Heap) : Heap :=
  if negb (splitter_main_continuation_requested (st h))
     || splitter_main_continuation_timer_pending (st h)
  then h
  else set_timer (SplitterContinuation delay_seconds)
         (upd (fun s => s <| splitter_main_continuation_timer_pending := true |>) h).

Definition schedule_splitter_main_continuation_if_requested (h : Heap) : Heap :=
  schedule_splitter_main_continuation_after SPLITTER_MAIN_CONTINUATION_DELAY_SECONDS h.

(** ** The legs of a job *)

Inductive DriveResult := DriveCompleted | ClearedPreSpend | DriveUnresolved | DriveQuarantined | Stale.
Inductive MainStageResult := StageReady | GuardBusy | StageUnresolved | StageQuarantined.

Inductive TransferOutcome :=
| OutcomeAccepted (block_index : Z)
| OutcomeBadFee (expected_fee : Z)
| OutcomeInsufficientFunds (balance : Z)
| DefinitiveRejection (e : TransferError)
| TransportUncertain (e : ClientError).

Definition classify_transfer (r : result (result Z TransferError) ClientError) : TransferOutcome :=
  match r with
  | Ok (Ok block_index) => OutcomeAccepted block_index
  | Ok (Err (Duplicate duplicate_of)) => OutcomeAccepted duplicate_of
  | Ok (Err (BadFee expected_fee)) => OutcomeBadFee expected_fee
  | Ok (Err (InsufficientFunds balance)) => OutcomeInsufficientFunds balance
  | Ok (Err e) => DefinitiveRejection e
  | Err e => TransportUncertain e
  end.

Definition leg_plan (job : ActiveSplitterJob) (leg : SplitterLeg) : SplitterLegPlan :=
  match leg with
  | LegDefaultAccount => plan_default_leg (plan job)
  | LegSubaccountOne => plan_subaccount_one_leg (plan job)
  end.
Definition set_leg_plan (leg : SplitterLeg) (p : SplitterLegPlan) (job : ActiveSplitterJob) :
    ActiveSplitterJob :=
  match leg with
  | LegDefaultAccount => job <| plan ::= (fun sp => sp <| plan_default_leg := p |>) |>
  | LegSubaccountOne => job <| plan ::= (fun sp => sp <| plan_subaccount_one_leg := p |>) |>
  end.
Definition leg_progress (job : ActiveSplitterJob) (leg : SplitterLeg) : SplitterLegProgress :=
  match leg with
  | LegDefaultAccount => default_leg job
  | LegSubaccountOne => subaccount_one_leg job
  end.
(** [leg_progress_mut], applied *)
Definition set_leg_progress (leg : SplitterLeg) (p : SplitterLegProgress) (job : ActiveSplitterJob) :
    ActiveSplitterJob :=
  match leg with
  | LegDefaultAccount => job <| default_leg := p |>
  | LegSubaccountOne => job <| subaccount_one_leg := p |>
  end.

Definition is_accepted (s : SplitterLegStatus) : bool :=
  match s with Accepted _ => true | _ => false end.

Definition current_leg (job : ActiveSplitterJob) : option SplitterLeg :=
  if negb (is_accepted (status (default_leg job))) then Some LegDefaultAccount
  else if negb (is_accepted (status (subaccount_one_leg job))) then Some LegSubaccountOne
  else None.

Definition splitter_transfer_arg (job : ActiveSplitterJob) (leg : SplitterLeg) : TransferArg :=
  let p := leg_plan job leg in
  {| from_subaccount := Some (source_subaccount (plan job));
     to := splitter_destination_account relay_id (lp_destination p);
     amount := lp_amount_e8s p;
     fee := Some (lp_fee_e8s p);
     memo := None;
     created_at_time := Some (lp_created_at_time_nanos p) |}.

Definition active_plan_is_valid (job : ActiveSplitterJob) : bool :=
  match splitter_percentage (splitter_number (plan job)) with
  | None => false
  | Some percentage =>
      let d := plan_default_leg (plan job) in
      let s := plan_subaccount_one_leg (plan job) in
      (percentage =? percentage_to_default (plan job))
      && bool_decide (source_subaccount (plan job) = relay_numbered_subaccount (splitter_number (plan job)))
      && bool_decide (lp_destination d = DefaultDestination)
      && bool_decide (lp_destination s = SubaccountOneDestination)
      && (lp_gross_share_e8s d =? sp_balance_start_e8s (plan job) * percentage / 100)
      && bool_decide (checked_add (lp_gross_share_e8s d) (lp_gross_share_e8s s)
                      = Some (sp_balance_start_e8s (plan job)))
      && bool_decide (checked_add (lp_amount_e8s d) (lp_fee_e8s d) = Some (lp_gross_share_e8s d))
      && bool_decide (checked_add (lp_amount_e8s s) (lp_fee_e8s s) = Some (lp_gross_share_e8s s))
      && (lp_fee_e8s d <? lp_gross_share_e8s d)
      && (lp_fee_e8s s <? lp_gross_share_e8s s)
      && negb (lp_created_at_time_nanos d =? lp_created_at_time_nanos s)
  end.

Definition fresh_created_at (previous now_nanos : Z) : option Z :=
  (fun minimum => Z.max now_nanos minimum) <$> checked_add previous 1.

(** [None] stands for [false]; the callers check that the fee is below the gross share. *)
Definition repin_leg (leg : SplitterLeg) (fee_e8s now_nanos : Z) (job : ActiveSplitterJob) :
    option ActiveSplitterJob :=
  let p := leg_plan job leg in
  match fresh_created_at (lp_created_at_time_nanos p) now_nanos with
  | None => None
  | Some created_at =>
      let p := p <| lp_fee_e8s := fee_e8s |>
                 <| lp_amount_e8s := lp_gross_share_e8s p - fee_e8s |>
                 <| lp_created_at_time_nanos := created_at |> in
      Some (set_leg_progress leg SplitterLegProgress_default (set_leg_plan leg p job))
  end.

Definition quarantine (leg : SplitterLeg) (now_nanos : Z) (why : string) (h : Heap) : Heap :=
  (quarantine_active_job leg now_nanos why h).2.

Definition created_at_time_is_valid (created_at now_nanos : Z) : bool :=
  sat_sub now_nanos created_at <=? LEDGER_CREATED_AT_VALID_WINDOW_NANOS.

(** ** One round of [drive_active_job] *)

(** The call a round awaits, with the claimed job. *)
Inductive DriverCall :=
| AwaitBalance (claimed : ActiveSplitterJob) (leg : SplitterLeg)
| AwaitFee (claimed : ActiveSplitterJob) (leg : SplitterLeg)
| AwaitTransfer (claimed : ActiveSplitterJob) (leg : SplitterLeg) (had_prior : bool).

Inductive Round := Finish (r : DriveResult) | Again.
Inductive Opening := Closed (r : Round) | Awaiting (c : DriverCall).

Definition TIMESTAMP_OVERFLOW : string := "replacement transfer timestamp overflow".

(** Repin, store and go round again, or quarantine on overflow. *)
Definition repin_or_quarantine (leg : SplitterLeg) (fee_e8s now_nanos : Z) (job : ActiveSplitterJob)
    (stored : Round) (h : Heap) : Round * Heap :=
  match repin_leg leg fee_e8s now_nanos job with
  | None => (Finish DriveQuarantined, quarantine leg now_nanos TIMESTAMP_OVERFLOW h)
  | Some job => (stored, set_active_job job h)
  end.

(** [claim_active_job], with its panic as [None] and a lost claim as [Stale]. *)
Definition claim_for (job : ActiveSplitterJob) (mark : option SplitterLeg)
    (call : ActiveSplitterJob -> DriverCall) (h : Heap) : option (Opening * Heap) :=
  match claim_active_job job mark h with
  | None => None
  | Some (None, h) => Some (Closed (Finish Stale), h)
  | Some (Some claimed, h) => Some (Awaiting (call claimed), h)
  end.

(** The transfer of a [Ready] leg, up to its await. *)
Definition open_transfer (now_nanos : Z) (leg : SplitterLeg) (job : ActiveSplitterJob) (h : Heap) :
    option (Opening * Heap) :=
  let progress := leg_progress job leg in
  let had_prior := attempt_started progress || uncertain_attempt_seen progress in
  if negb (created_at_time_is_valid (lp_created_at_time_nanos (leg_plan job leg)) now_nanos) then
    if had_prior
    then Some (Closed (Finish DriveQuarantined),
               quarantine leg now_nanos
                 "expired transfer identity after a potentially accepted attempt" h)
    else
      match leg with
      | LegDefaultAccount => Some (Closed (Finish ClearedPreSpend), clear_active_job h)
      | LegSubaccountOne =>
          let '(r, h) := repin_or_quarantine leg (lp_fee_e8s (leg_plan job leg)) now_nanos job Again h in
          Some (Closed r, h)
      end
  else claim_for job (Some leg) (fun claimed => AwaitTransfer claimed leg had_prior) h.

(** From the head of the loop to the await; [None] is a panic. *)
Definition before_await (now_nanos : Z) (h : Heap) : option (Opening * Heap) :=
  match get_active_job h with
  | None => Some (Closed (Finish DriveCompleted), h)
  | Some job =>
      let leg0 := default LegDefaultAccount (current_leg job) in
      if negb (bool_decide (pinned_ledger_canister_id job = ledger_canister_id (config (st h))))
      then Some (Closed (Finish DriveQuarantined),
                 quarantine leg0 now_nanos "pinned ledger differs from runtime config" h)
      else if negb (active_plan_is_valid job)
      then Some (Closed (Finish DriveQuarantined),
                 quarantine leg0 now_nanos "stable splitter plan invariant failed" h)
      else
        match current_leg job with
        | None => Some (Closed (Finish DriveCompleted), clear_active_job h)
        | Some leg =>
            match status (leg_progress job leg) with
            | Accepted _ => None
            | WaitingForFunds _ => claim_for job None (fun claimed => AwaitBalance claimed leg) h
            | WaitingForFeasibleFee _ => claim_for job None (fun claimed => AwaitFee claimed leg) h
            | Ready => open_transfer now_nanos leg job h
            end
        end
  end.

Definition guard_lost (guard : option SplitterGuard) (h : Heap) : bool :=
  is_some_and guard (fun g => negb (splitter_is_current g h)).

(** After an await: stale when the lease or the claim is lost. *)
Definition reclaimed (guard : option SplitterGuard) (claimed : ActiveSplitterJob)
    (k : ActiveSplitterJob -> Heap -> Round * Heap) (h : Heap) : Round * Heap :=
  if guard_lost guard h then (Finish Stale, h)
  else
    match active_job_if_claim_matches claimed h with
    | None => (Finish Stale, h)
    | Some job => k job h
    end.

Definition after_balance (now_nanos : Z) (guard : option SplitterGuard) (claimed : ActiveSplitterJob)
    (leg : SplitterLeg) (reply : result Z ClientError) : Heap -> Round * Heap :=
  reclaimed guard claimed (fun job h =>
    match reply with
    | Err _ => (Finish DriveUnresolved, h)
    | Ok balance =>
        if balance <? lp_gross_share_e8s (leg_plan job leg)
        then (Finish DriveUnresolved,
              set_active_job (set_leg_progress leg
                ((leg_progress job leg) <| status := WaitingForFunds balance |>) job) h)
        else repin_or_quarantine leg (lp_fee_e8s (leg_plan job leg)) now_nanos job Again h
    end).

(** [fee] is the result of [resolve_icp_ledger_fee_e8s]. *)
Definition after_fee (now_nanos : Z) (guard : option SplitterGuard) (claimed : ActiveSplitterJob)
    (leg : SplitterLeg) (fee : Z) : Heap -> Round * Heap :=
  reclaimed guard claimed (fun job h =>
    if lp_gross_share_e8s (leg_plan job leg) <=? fee
    then (Finish DriveUnresolved,
          set_active_job (set_leg_progress leg
            ((leg_progress job leg) <| status := WaitingForFeasibleFee fee |>) job) h)
    else repin_or_quarantine leg fee now_nanos job Again h).

(** A definitive reply after an earlier attempt that may have been accepted. *)
Definition keep_uncertain (leg : SplitterLeg) (job : ActiveSplitterJob) (h : Heap) : Round * Heap :=
  (Finish DriveUnresolved,
   set_active_job (set_leg_progress leg
     ((leg_progress job leg) <| uncertain_attempt_seen := true |>) job) h).

Definition bad_fee_second_leg (now_nanos : Z) (job : ActiveSplitterJob) (expected_fee : Z) (h : Heap) :
    Round * Heap :=
  let leg := LegSubaccountOne in
  if (expected_fee <=? u64_max) && (expected_fee <? lp_gross_share_e8s (leg_plan job leg))
  then repin_or_quarantine leg expected_fee now_nanos job (Finish DriveUnresolved) h
  else (Finish DriveUnresolved,
        set_active_job (set_leg_progress leg
          (MkLegProgress (WaitingForFeasibleFee expected_fee) false false) job) h).

Definition after_transfer (now_nanos : Z) (guard : option SplitterGuard) (claimed : ActiveSplitterJob)
    (leg : SplitterLeg) (had_prior : bool) (outcome : TransferOutcome) : Heap -> Round * Heap :=
  reclaimed guard claimed (fun job h =>
    let p := leg_progress job leg in
    match outcome with
    | OutcomeAccepted block =>
        (Again, set_active_job (set_leg_progress leg (p <| status := Accepted block |>) job) h)
    | TransportUncertain _ => keep_uncertain leg job h
    | OutcomeBadFee expected_fee =>
        let h := record_bad_fee expected_fee h in
        if had_prior then keep_uncertain leg job h
        else match leg with
             | LegDefaultAccount => (Finish ClearedPreSpend, clear_active_job h)
             | LegSubaccountOne => bad_fee_second_leg now_nanos job expected_fee h
             end
    | OutcomeInsufficientFunds balance =>
        if had_prior then keep_uncertain leg job h
        else match leg with
             | LegDefaultAccount => (Finish ClearedPreSpend, clear_active_job h)
             | LegSubaccountOne =>
                 (Finish DriveUnresolved,
                  set_active_job (set_leg_progress leg
                    (MkLegProgress (WaitingForFunds (Z.min balance u64_max)) false false) job) h)
             end
    | DefinitiveRejection _ =>
        if had_prior then keep_uncertain leg job h
        else match leg with
             | LegDefaultAccount => (Finish ClearedPreSpend, clear_active_job h)
             | LegSubaccountOne =>
                 repin_or_quarantine leg (lp_fee_e8s (leg_plan job leg)) now_nanos job
                   (Finish DriveUnresolved) h
             end
    end).

Definition transfer_once (ledger : Principal) (arg : TransferArg) : async TransferOutcome :=
  r ← transfer ledger arg;
  mret (classify_transfer r).

(** The call and the step after it. *)
Definition perform (ledger : Principal) (now_nanos : Z) (guard : option SplitterGuard)
    (c : DriverCall) : async Round :=
  match c with
  | AwaitBalance claimed leg =>
      r ← balance_of_e8s ledger (MkAccount _ relay_id (Some (source_subaccount (plan claimed))));
      with_state_mut (after_balance now_nanos guard claimed leg r)
  | AwaitFee claimed leg =>
      fee ← resolve_icp_ledger_fee_e8s ledger;
      with_state_mut (after_fee now_nanos guard claimed leg fee)
  | AwaitTransfer claimed leg had_prior =>
      outcome ← transfer_once ledger (splitter_transfer_arg claimed leg);
      with_state_mut (after_transfer now_nanos guard claimed leg had_prior outcome)
  end.

Fixpoint drive_loop (ledger : Principal) (now_nanos : Z) (guard : option SplitterGuard) (fuel : nat) :
    async DriveResult :=
  match fuel with
  | O => out_of_fuel
  | S fuel =>
      o ← with_state (before_await now_nanos);
      match o with
      | None => trap
      | Some (opening, h) =>
          modify (fun _ => h);;
          r ← match opening with
              | Closed r => mret r
              | Awaiting c => perform ledger now_nanos guard c
              end;
          match r with
          | Finish r => mret r
          | Again => drive_loop ledger now_nanos guard fuel
          end
      end
  end.

(** Two rounds per leg and one to end. *)
Definition drive_active_job (ledger : Principal) (now_nanos : Z) (guard : option SplitterGuard) :
    async DriveResult := drive_loop ledger now_nanos guard 5.

(** ** The drivers *)

Definition retry_active_splitter_with_client (ledger : Principal) (now_nanos now_secs : Z) :
    async (option DriveResult) :=
  active ← with_state get_active_job;
  match active with
  | None => mret None
  | Some _ =>
      g ← with_state_mut (splitter_acquire now_secs);
      match g with
      | None => mret None
      | Some guard =>
          r ← drive_active_job ledger now_nanos (Some guard);
          modify (splitter_release guard);;
          match r with
          | DriveCompleted | DriveQuarantined =>
              modify schedule_splitter_main_continuation_if_requested
          | _ => mret tt
          end;;
          mret (Some r)
      end
  end.

(** [None] when the stage goes on. *)
Definition stage_of (r : DriveResult) : option MainStageResult :=
  match r with
  | DriveCompleted => None
  | ClearedPreSpend => Some StageReady
  | DriveUnresolved => Some StageUnresolved
  | Stale => Some GuardBusy
  | DriveQuarantined => Some StageQuarantined
  end.

(** One splitter of the loop; [None] when the loop continues. *)
Definition process_splitter (ledger pinned : Principal) (now_nanos fee_e8s : Z) (guard : SplitterGuard)
    (number : Z) : async (option MainStageResult) :=
  balance ← balance_of_e8s ledger (MkAccount _ relay_id (Some (relay_numbered_subaccount number)));
  match balance with
  | Err _ => mret None
  | Ok balance =>
      current ← with_state (splitter_is_current guard);
      if negb (current : bool) then mret (Some GuardBusy)
      else
        match build_splitter_plan number balance fee_e8s now_nanos with
        | Err _ => mret None
        | Ok p =>
            modify (set_active_job (ActiveSplitterJob_new pinned p));;
            r ← drive_active_job ledger now_nanos (Some guard);
            mret (stage_of r)
        end
  end.

Fixpoint process_splitters (ledger pinned : Principal) (now_nanos fee_e8s : Z) (guard : SplitterGuard)
    (resumed : option Z) (numbers : list Z) : async MainStageResult :=
  match numbers with
  | [] => mret StageReady
  | number :: rest =>
      quarantined ← with_state (is_quarantined number);
      if bool_decide (resumed = Some number) || (quarantined : bool)
      then process_splitters ledger pinned now_nanos fee_e8s guard resumed rest
      else
        r ← process_splitter ledger pinned now_nanos fee_e8s guard number;
        match r with
        | Some r => mret r
        | None => process_splitters ledger pinned now_nanos fee_e8s guard resumed rest
        end
  end.

(** The fresh plans, after a resumed job. *)
Definition plan_splitters (ledger : Principal) (now_nanos : Z) (guard : SplitterGuard)
    (resumed : option Z) : async MainStageResult :=
  fee ← resolve_icp_ledger_fee_e8s ledger;
  current ← with_state (splitter_is_current guard);
  if negb (current : bool) then mret GuardBusy
  else
    pinned ← with_state (fun h => ledger_canister_id (config (st h)));
    process_splitters ledger pinned now_nanos fee guard resumed SPLITTER_PERCENTAGES.

Definition process_main_stage (ledger : Principal) (now_nanos now_secs : Z) : async MainStageResult :=
  g ← with_state_mut (splitter_acquire now_secs);
  match g with
  | None => mret GuardBusy
  | Some guard =>
      active ← with_state get_active_job;
      r ← match active with
          | None => plan_splitters ledger now_nanos guard None
          | Some job =>
              r ← drive_active_job ledger now_nanos (Some guard);
              match stage_of r with
              | Some r => mret r
              | None => plan_splitters ledger now_nanos guard (Some (splitter_number (plan job)))
              end
          end;
      modify (splitter_release guard);;
      mret r
  end.

(** ** Termination of [drive_active_job] *)

Definition leg_rounds (now_nanos : Z) (job : ActiveSplitterJob) (leg : SplitterLeg) : nat :=
  match status (leg_progress job leg) with
  | Accepted _ => 0
  | Ready =>
      if created_at_time_is_valid (lp_created_at_time_nanos (leg_plan job leg)) now_nanos then 1 else 2
  | _ => 2
  end.

(** The rounds that are left, the last one included. *)
Definition rounds_left (now_nanos : Z) (h : Heap) : nat :=
  match get_active_job h with
  | Some job => 1 + leg_rounds now_nanos job LegDefaultAccount + leg_rounds now_nanos job LegSubaccountOne
  | None => 1
  end.

Lemma rounds_left_5 now_nanos h : (rounds_left now_nanos h <= 5)%nat.
Proof using Type. unfold rounds_left, leg_rounds. repeat case_match; lia. Qed.

Lemma leg_rounds_total now_nanos (job job' : ActiveSplitterJob) leg n :
  (forall leg', leg' <> leg -> leg_rounds now_nanos job' leg' = leg_rounds now_nanos job leg') ->
  (leg_rounds now_nanos job' leg < leg_rounds now_nanos job leg)%nat ->
  (1 + leg_rounds now_nanos job LegDefaultAccount + leg_rounds now_nanos job LegSubaccountOne <= S n)%nat ->
  (1 + leg_rounds now_nanos job' LegDefaultAccount + leg_rounds now_nanos job' LegSubaccountOne <= n)%nat.
Proof using Type.
  intros Ho Hl. destruct leg.
  - rewrite (Ho LegSubaccountOne) by done. lia.
  - rewrite (Ho LegDefaultAccount) by done. lia.
Qed.

(** A repinned leg is valid, so one round is left for it. *)
Lemma repin_rounds leg fee now_nanos job job' leg' :
  repin_leg leg fee now_nanos job = Some job' ->
  leg_rounds now_nanos job' leg' = if decide (leg' = leg) then 1%nat else leg_rounds now_nanos job leg'.
Proof using Type.
  unfold repin_leg, fresh_created_at. destruct (checked_add _ 1) as [m|]; [|done]. cbn. intros [= <-].
  unfold leg_rounds. destruct (decide (leg' = leg)) as [->|Hne]; [|by destruct leg, leg'].
  assert (created_at_time_is_valid (Z.max now_nanos m) now_nanos = true) as Hv.
  { unfold created_at_time_is_valid, sat_sub, LEDGER_CREATED_AT_VALID_WINDOW_NANOS. apply Z.leb_le. lia. }
  destruct leg; cbn; unfold const; cbn; by rewrite Hv.
Qed.

Lemma repin_or_quarantine_rounds leg fee now_nanos job stored h r h' n :
  get_active_job h = Some job ->
  repin_or_quarantine leg fee now_nanos job stored h = (r, h') -> r = Again ->
  (2 <= leg_rounds now_nanos job leg)%nat -> (rounds_left now_nanos h <= S n)%nat ->
  (rounds_left now_nanos h' <= n)%nat /\
  next_driver_revision (splitter h') = next_driver_revision (splitter h).
Proof using Type.
  intros Ha. unfold repin_or_quarantine, rounds_left. rewrite Ha.
  destruct (repin_leg _ _ _ _) as [job'|] eqn:E; intros [= <- <-] Hr Hl Hn; [|done]. split; [|done].
  change (get_active_job (set_active_job job' h)) with (Some job'). cbn match.
  pose proof (repin_rounds _ _ _ _ _ leg E) as Hl'. rewrite decide_True in Hl' by done.
  eapply (leg_rounds_total _ job); [|rewrite Hl'; lia|exact Hn].
  intros leg' Hne. rewrite (repin_rounds _ _ _ _ _ leg' E). by rewrite decide_False.
Qed.

Definition claimed_job (c : DriverCall) : ActiveSplitterJob :=
  match c with AwaitBalance j _ | AwaitFee j _ | AwaitTransfer j _ _ => j end.

(** What a round that awaits [c] has stored before. *)
Definition opened (now_nanos : Z) (h : Heap) (c : DriverCall) : Prop :=
  let job := claimed_job c in
  get_active_job h = Some job /\ driver_revision job = next_driver_revision (splitter h) /\
  match c with
  | AwaitBalance _ leg | AwaitFee _ leg =>
      current_leg job = Some leg /\ leg_rounds now_nanos job leg = 2%nat
  | AwaitTransfer _ leg _ =>
      current_leg job = Some leg /\ status (leg_progress job leg) = Ready /\
      leg_rounds now_nanos job leg = 1%nat /\ attempt_started (leg_progress job leg) = true
  end.

Lemma mark_leg_rounds now_nanos job leg leg' :
  leg_rounds now_nanos (mark_started leg job) leg' = leg_rounds now_nanos job leg'.
Proof using Type. by destruct leg, leg'. Qed.

Lemma claim_for_opens now_nanos job mark leg call h n :
  get_active_job h = Some job -> next_driver_revision (splitter h) + 1 <= u64_max ->
  current_leg job = Some leg ->
  match mark with
  | Some leg' => leg' = leg /\ status (leg_progress job leg) = Ready /\
                 leg_rounds now_nanos job leg = 1%nat /\
                 exists prior, call = (fun j => AwaitTransfer j leg prior)
  | None => leg_rounds now_nanos job leg = 2%nat /\
            (call = (fun j => AwaitBalance j leg) \/ call = (fun j => AwaitFee j leg))
  end ->
  (rounds_left now_nanos h <= S n)%nat ->
  exists c h', claim_for job mark call h = Some (Awaiting c, h') /\ opened now_nanos h' c /\
    (rounds_left now_nanos h' <= S n)%nat /\
    next_driver_revision (splitter h') = next_driver_revision (splitter h) + 1.
Proof using Type.
  intros Ha Hnext Hcur Hmark. unfold claim_for, claim_active_job, rounds_left.
  rewrite Ha, bool_decide_eq_true_2 by done. cbn [negb]. unfold checked_add.
  rewrite (proj2 (Z.leb_le _ _) Hnext). destruct mark as [leg'|].
  - destruct Hmark as (-> & Hst & Hr & prior & ->). intros Hn. eexists _, _. split; [done|].
    change (get_active_job (h <| splitter ::= _ |>)) with
      (Some (mark_started leg (job <| driver_revision := next_driver_revision (splitter h) + 1 |>))).
    split; [|split; [by rewrite !mark_leg_rounds|done]].
    split; [done|]. split; [by destruct leg|]. split; [by unfold current_leg in *; destruct leg|].
    split; [by destruct leg|]. split; [destruct leg; exact Hr|by destruct leg].
  - destruct Hmark as (Hr & [-> | ->]); intros Hn; eexists _, _; by repeat (split; [done|]).
Qed.

Definition round_effect (now_nanos : Z) (n : nat) (h : Heap) (x : Round * Heap) : Prop :=
  next_driver_revision (splitter x.2) = next_driver_revision (splitter h) /\
  (x.1 = Again -> (rounds_left now_nanos x.2 <= n)%nat).

Lemma repin_effect leg fee now_nanos job stored h n :
  get_active_job h = Some job -> (2 <= leg_rounds now_nanos job leg)%nat ->
  (rounds_left now_nanos h <= S n)%nat ->
  round_effect now_nanos n h (repin_or_quarantine leg fee now_nanos job stored h).
Proof using Type.
  intros Ha Hl Hn. destruct (repin_or_quarantine _ _ _ _ _ _) as [r h'] eqn:E. split; cbn [fst snd].
  - unfold repin_or_quarantine in E. destruct (repin_leg _ _ _ _); injection E as <- <-; [done|].
    unfold quarantine, quarantine_active_job. by rewrite Ha.
  - intros Hr. by eapply repin_or_quarantine_rounds.
Qed.

Lemma quarantine_effect leg now_nanos why h n :
  round_effect now_nanos n h (Finish DriveQuarantined, quarantine leg now_nanos why h).
Proof using Type. split; [|done]. unfold quarantine, quarantine_active_job. by case_match. Qed.

Lemma before_await_rounds now_nanos h n :
  next_driver_revision (splitter h) + 1 <= u64_max -> (rounds_left now_nanos h <= S n)%nat ->
  exists o h', before_await now_nanos h = Some (o, h') /\
    match o with
    | Closed r => round_effect now_nanos n h (r, h')
    | Awaiting c => opened now_nanos h' c /\ (rounds_left now_nanos h' <= S n)%nat /\
                    next_driver_revision (splitter h') = next_driver_revision (splitter h) + 1
    end.
Proof using Type.
  intros Hnext Hn. unfold before_await.
  destruct (get_active_job h) as [job|] eqn:Ha; [|by eexists _, _].
  cbn zeta. destruct (negb (bool_decide _)); [eexists _, _; split; [done|apply quarantine_effect]|].
  destruct (negb (active_plan_is_valid job)); [eexists _, _; split; [done|apply quarantine_effect]|].
  destruct (current_leg job) as [leg|] eqn:Hcur; [|by eexists _, _].
  destruct (status (leg_progress job leg)) eqn:Hst.
  - unfold open_transfer. cbn zeta.
    destruct (created_at_time_is_valid (lp_created_at_time_nanos (leg_plan job leg)) now_nanos) eqn:Hv;
      cbn [negb].
    + destruct (claim_for_opens now_nanos job (Some leg) leg (fun claimed => AwaitTransfer claimed leg
        (attempt_started (leg_progress job leg) || uncertain_attempt_seen (leg_progress job leg))) h n)
        as (c & h' & E & Hc); try done; [|by exists (Awaiting c), h'].
      split; [done|]. split; [done|]. split; [unfold leg_rounds; by rewrite Hst, Hv|eauto].
    + destruct (_ || _); [eexists _, _; split; [done|apply quarantine_effect]|].
      destruct leg; [by eexists _, _|].
      lazymatch goal with |- context [repin_or_quarantine ?l ?f ?t ?j ?s ?h0] =>
        pose proof (repin_effect l f t j s h0 n Ha) as He;
        destruct (repin_or_quarantine l f t j s h0) as [r h'] eqn:E end.
      eexists _, _. split; [done|]. apply He; [|done]. unfold leg_rounds. by rewrite Hst, Hv.
  - destruct (claim_for_opens now_nanos job None leg (fun claimed => AwaitBalance claimed leg) h n)
      as (c & h' & E & Hc); try done; [|by exists (Awaiting c), h'].
    split; [unfold leg_rounds; by rewrite Hst|by left].
  - destruct (claim_for_opens now_nanos job None leg (fun claimed => AwaitFee claimed leg) h n)
      as (c & h' & E & Hc); try done; [|by exists (Awaiting c), h'].
    split; [unfold leg_rounds; by rewrite Hst|by right].
  - exfalso. unfold current_leg in Hcur. repeat case_match; simplify_eq; cbn in *; by rewrite Hst in *.
Qed.

(** The write-ahead rule: a transfer is sent by the claim that is stored, with
    its attempt marked. *)
Definition written_ahead (ledger : Principal) (ev : event Heap SuiteCall) : Prop :=
  match ev with
  | Dispatch c h =>
      match c with
      | IcrcBalanceOf l a =>
          l = ledger /\ exists job, get_active_job h = Some job /\
            a = MkAccount _ relay_id (Some (source_subaccount (plan job)))
      | IcrcFee l => l = ledger
      | IcrcTransfer l arg =>
          l = ledger /\ exists job leg, get_active_job h = Some job /\
            current_leg job = Some leg /\ arg = splitter_transfer_arg job leg /\
            attempt_started (leg_progress job leg) = true /\ status (leg_progress job leg) = Ready /\
            driver_revision job = next_driver_revision (splitter h)
      | _ => False
      end
  end.

Lemma keep_uncertain_effect leg now_nanos job h n :
  round_effect now_nanos n h (keep_uncertain leg job h).
Proof using Type. by split. Qed.

(** [f]: an update of the state made before the answer is handled. *)
Lemma reclaimed_effect now_nanos n guard claimed k h h0 :
  next_driver_revision (splitter h0) = next_driver_revision (splitter h) ->
  (get_active_job h = Some claimed -> round_effect now_nanos n h0 (k claimed h)) ->
  round_effect now_nanos n h0 (reclaimed guard claimed k h).
Proof using Type.
  intros Hh Hk. unfold reclaimed, active_job_if_claim_matches.
  destruct (guard_lost _ _); [by split|]. destruct (get_active_job h) as [job|]; [|by split].
  unfold then_some. case_bool_decide as E; [|by split]. subst. by apply Hk.
Qed.

Lemma after_read_effect now_nanos n guard claimed leg reply h (h' : Heap) :
  opened now_nanos h' (AwaitBalance claimed leg) -> (rounds_left now_nanos h' <= S n)%nat ->
  round_effect now_nanos n h (after_balance now_nanos guard claimed leg reply h).
Proof using Type.
  intros (Ha' & _ & _ & Hl) Hn. apply reclaimed_effect; [done|]. intros Ha.
  assert (rounds_left now_nanos h <= S n)%nat by (unfold rounds_left in *; by rewrite Ha' in Hn; rewrite Ha).
  destruct reply as [balance|e]; [|by split]. destruct (balance <? _); [by split|].
  apply repin_effect; try done. cbn in Hl. lia.
Qed.

Lemma after_fee_effect now_nanos n guard claimed leg reply h (h' : Heap) :
  opened now_nanos h' (AwaitFee claimed leg) -> (rounds_left now_nanos h' <= S n)%nat ->
  let '(fee, h0) := fee_resolved reply h in
  round_effect now_nanos n h (after_fee now_nanos guard claimed leg fee h0).
Proof using Type.
  intros (Ha' & _ & _ & Hl) Hn. destruct (fee_resolved reply h) as [fee h0] eqn:E.
  assert (splitter h0 = splitter h) as Hs by (destruct reply; injection E as <- <-; done).
  apply reclaimed_effect; [by rewrite Hs|]. intros Ha.
  assert (rounds_left now_nanos h0 <= S n)%nat by (unfold rounds_left in *; by rewrite Ha' in Hn; rewrite Ha).
  assert (forall x, round_effect now_nanos n h0 x -> round_effect now_nanos n h x) as Hw
    by (unfold round_effect; by rewrite Hs).
  apply Hw. destruct (_ <=? fee); [by split|]. apply repin_effect; try done. cbn in Hl. lia.
Qed.

Lemma after_transfer_effect now_nanos n guard claimed leg prior outcome h (h' : Heap) :
  opened now_nanos h' (AwaitTransfer claimed leg prior) -> (rounds_left now_nanos h' <= S n)%nat ->
  round_effect now_nanos n h (after_transfer now_nanos guard claimed leg prior outcome h).
Proof using Type.
  intros (Ha' & _ & _ & Hst & Hl & _) Hn. cbn [claimed_job] in *. apply reclaimed_effect; [done|]. intros Ha.
  unfold rounds_left in Hn. rewrite Ha' in Hn.
  destruct outcome as [block|expected|balance|e|e].
  - split; [done|]. intros _. cbn [snd]. unfold rounds_left.
    change (get_active_job (set_active_job ?j h)) with (Some j). cbn match.
    eapply (leg_rounds_total _ claimed _ leg); [| |exact Hn].
    + intros leg' Hne. by destruct leg, leg'.
    + rewrite Hl. unfold leg_rounds. destruct leg; cbn; lia.
  - set (h1 := record_bad_fee expected h). assert (splitter h1 = splitter h) as Hs
      by (unfold h1, record_bad_fee; by destruct (expected <=? u64_max)).
    assert (forall x, round_effect now_nanos n h1 x -> round_effect now_nanos n h x) as Hw
      by (unfold round_effect; by rewrite Hs).
    apply Hw. cbv zeta. destruct prior; [apply keep_uncertain_effect|]. destruct leg; [by split|].
    unfold bad_fee_second_leg. cbn zeta. destruct (_ && _); [|by split].
    unfold repin_or_quarantine. destruct (repin_leg _ _ _ _); [by split|]. split; [|done].
    unfold quarantine, quarantine_active_job. by case_match.
  - cbv zeta. destruct prior; [apply keep_uncertain_effect|]. by destruct leg; split.
  - cbv zeta. destruct prior; [apply keep_uncertain_effect|]. destruct leg; [by split|].
    unfold repin_or_quarantine. destruct (repin_leg _ _ _ _); [by split|]. split; [|done].
    unfold quarantine, quarantine_active_job. by case_match.
  - apply keep_uncertain_effect.
Qed.

(** The claims made are assumed to be fewer than 2^63, apart from those of
    this run. *)
Definition revision_bound (k : Z) (h : Heap) : Prop := next_driver_revision (splitter h) <= 2 ^ 63 + k.
Definition bounded_claims (h h' : Heap) : Prop :=
  forall k, 0 <= k -> revision_bound k h -> revision_bound k h'.

Lemma bound_kept k h h' :
  revision_bound k h -> next_driver_revision (splitter h') = next_driver_revision (splitter h) ->
  revision_bound k h'.
Proof using Type. unfold revision_bound. by intros ? ->. Qed.

Lemma perform_returns e ledger now_nanos guard c n base k w :
  rely bounded_claims e -> 0 <= k -> revision_bound k (w_state w) ->
  opened now_nanos (w_state w) c -> (rounds_left now_nanos (w_state w) <= S n)%nat ->
  traced (written_ahead ledger) base w ->
  wp e (perform ledger now_nanos guard c)
    (fun r w' => revision_bound k (w_state w') /\ traced (written_ahead ledger) base w' /\
                 (r = Again -> (rounds_left now_nanos (w_state w') <= n)%nat)) w.
Proof using Type.
  intros Hrely Hk Hb Ho Hn Ht. pose proof Ho as (Ha & Hrev & Hc). destruct c as [job leg|job leg|job leg prior].
  - unfold perform. wp_step. apply wp_balance_of_e8s. intros r. wp_step.
    set (h1 := w_state (after_call e _ w)). destruct (after_read_effect now_nanos n guard job leg r h1 _ Ho Hn) as [He Hr].
    split; [by apply (bound_kept k h1); [apply Hrely|]|]. split; [|done].
    apply (traced_cons _ _ _ (w_state w)); [|by destruct w]. split; [done|]. by exists job.
  - unfold perform, resolve_icp_ledger_fee_e8s. wp_step. wp_step. apply wp_fee_e8s. intros r. wp_step. wp_step.
    set (h1 := w_state (after_call e (IcrcFee ledger) w)). pose proof (after_fee_effect now_nanos n guard job leg r h1 _ Ho Hn) as He.
    destruct (fee_resolved r h1) as [fee h0].
    destruct He as [He Hr]. split; [by apply (bound_kept k h1); [apply Hrely|]|]. split; [|done].
    apply (traced_cons _ _ _ (w_state w)); [|by destruct w]. done.
  - unfold perform, transfer_once. wp_step. wp_step. apply wp_transfer. intros r. wp_step. wp_step.
    set (h1 := w_state (after_call e _ w)).
    destruct (after_transfer_effect now_nanos n guard job leg prior (classify_transfer r) h1 _ Ho Hn) as [He Hr].
    split; [by apply (bound_kept k h1); [apply Hrely|]|]. split; [|done].
    apply (traced_cons _ _ _ (w_state w)); [|by destruct w]. split; [done|]. destruct Hc as (Hcur & Hst & _ & Hatt).
    by exists job, leg.
Qed.

Lemma drive_loop_returns e ledger now_nanos guard base n k w :
  rely bounded_claims e -> 0 <= k -> k + Z.of_nat n <= 5 -> revision_bound k (w_state w) ->
  (rounds_left now_nanos (w_state w) <= n)%nat -> traced (written_ahead ledger) base w ->
  wp e (drive_loop ledger now_nanos guard n)
    (fun _ w' => revision_bound 5 (w_state w') /\ traced (written_ahead ledger) base w') w.
Proof using Type.
  intros Hrely. revert k w. induction n as [|n IH]; intros k w Hk Hkn Hb Hn Ht.
  { unfold rounds_left in Hn. case_match; lia. }
  cbn [drive_loop]. wp_step. wp_step. unfold revision_bound in Hb.
  destruct (before_await_rounds now_nanos (w_state w) n) as (o & h & -> & Ho); [lia|done|].
  wp_step. wp_step. wp_step. destruct o as [r|c].
  - destruct Ho as [He Hr]. cbn [fst snd] in *. wp_step.
    assert (revision_bound k h) as Hb' by by apply (bound_kept k (w_state w)).
    destruct r as [r|]; [wp_step; split; [unfold revision_bound in *; cbn; lia|done]|].
    apply (IH k); auto. lia.
  - destruct Ho as (Ho & Hn' & He). eapply wp_mono.
    + apply (perform_returns e ledger now_nanos guard c n base (k + 1)); try done; [lia|].
      unfold revision_bound. cbn. lia.
    + intros r w' (Hb' & Ht' & Hr). destruct r.
      * wp_step. split; [unfold revision_bound in *; lia|done].
      * apply (IH (k + 1)); auto; lia.
Qed.

(** whatever the ledger answers and whatever the other messages do to the
    journal while a call is out, [drive_active_job] returns: five rounds are
    enough for any stored job, whatever its state, as long as fewer than 2^63
    claims were ever made.  It reads the balance of the splitter's own account
    and the ledger's fee, and it sends a transfer only as the current claim on
    the current leg, with the attempt already marked in the stored journal. *)
Theorem drive_active_job_returns e ledger now_nanos guard w :
  rely bounded_claims e -> revision_bound 0 (w_state w) ->
  exists r w', drive_active_job ledger now_nanos guard e w = (Returned r, w') /\
    revision_bound 5 (w_state w') /\ traced (written_ahead ledger) (w_trace w) w'.
Proof using Type.
  intros Hrely Hb. destruct (wp_returns e (drive_active_job ledger now_nanos guard)
    (fun _ w' => revision_bound 5 (w_state w') /\ traced (written_ahead ledger) (w_trace w) w') w)
    as (r & w' & E & H).
  - apply (drive_loop_returns _ _ _ _ _ _ 0); try done; [apply rounds_left_5|by apply traced_refl].
  - by exists r, w'.
Qed.

(** What a plan that was built satisfies. *)
Lemma build_splitter_plan_Ok number balance fee now p :
  build_splitter_plan number balance fee now = Ok p ->
  exists percentage, splitter_percentage number = Some percentage /\
    splitter_number p = number /\ percentage_to_default p = percentage /\
    source_subaccount p = relay_numbered_subaccount number /\ sp_balance_start_e8s p = balance /\
    let gross := balance * percentage / 100 in
    plan_default_leg p = MkLegPlan DefaultDestination gross (gross - fee) fee now /\
    plan_subaccount_one_leg p =
      MkLegPlan SubaccountOneDestination (balance - gross) (balance - gross - fee) fee (now + 1) /\
    fee < gross /\ fee < balance - gross /\ now + 1 <= u64_max.
Proof using Type.
  unfold build_splitter_plan. destruct (splitter_percentage number) as [pct|] eqn:Ep; [|done].
  destruct (balance =? 0); [done|]. destruct (_ || _); [done|].
  destruct (checked_mul128 balance pct) as [product|] eqn:Em; [|done].
  unfold checked_mul128 in Em. destruct (_ <=? u128_max); [|done]. injection Em as <-.
  destruct (negb _); [done|].
  destruct (checked_sub balance _) as [sub|] eqn:Es; [|done].
  unfold checked_sub in Es. destruct (_ <=? balance); [|done]. injection Es as <-.
  destruct (_ || _) eqn:Ef; [done|]. apply orb_false_iff in Ef as [Ef1 Ef2].
  destruct (checked_add now 1) as [created|] eqn:Ea; [|done]. apply checked_add_Some in Ea as [-> Hn].
  intros [= <-]. exists pct. cbn. repeat (split; [done|]). split; [lia|]. lia.
Qed.

(** a plan that was built passes the invariant that every round checks on
    the stored job, so a new job is never quarantined for its plan. *)
Theorem built_plan_is_valid number balance fee now ledger p :
  u64 balance -> 0 <= fee ->
  build_splitter_plan number balance fee now = Ok p ->
  active_plan_is_valid (ActiveSplitterJob_new ledger p) = true.
Proof using Type.
  intros Hb Hf (pct & Hp & En & Epct & Es & Eb & Ed & E1 & H1 & H2 & H3)%build_splitter_plan_Ok.
  unfold active_plan_is_valid. cbn [plan ActiveSplitterJob_new]. rewrite En, Hp, Epct, Es, Eb, Ed, E1.
  cbn [lp_destination lp_gross_share_e8s lp_amount_e8s lp_fee_e8s lp_created_at_time_nanos].
  rewrite !bool_decide_eq_true_2; try done; [|unfold checked_add, u64 in *; case_match; zify_bool; f_equal; lia..].
  rewrite !andb_true_iff, negb_true_iff. zify_bool. lia.
Qed.

End splitter.

(** ** Witnesses *)

(** A relay with ledger 5 whose journal holds a new job of splitter 20 on
    5 ICP; the relay is principal 9. *)
Module ConcreteRelay.
Import Concrete.
Local Abbreviation PS := concrete_principal.

Definition cfg0 : Config (P:=PS) := {|
  managed_canisters := []; ledger_canister_id := 5 : Principal (PrincipalSpec:=PS);
  cmc_canister_id := 6 : Principal (PrincipalSpec:=PS);
  governance_canister_id := 7 : Principal (PrincipalSpec:=PS);
  sns_rewards_canister_id := 8 : Principal (PrincipalSpec:=PS);
  icp_index_canister_id := 10 : Principal (PrincipalSpec:=PS);
  cycles_probe_policy := Auto; main_interval_seconds := 86400; max_transfers_per_tick := None;
  surplus_recipients := [] |}.

Definition plan0 : SplitterPlan :=
  match build_splitter_plan 20 500000000 10000 1000 with
  | Ok p => p
  | Err _ => MkSplitterPlan 0 0 [] 0 (MkLegPlan DefaultDestination 0 0 0 0)
               (MkLegPlan DefaultDestination 0 0 0 0)
  end.

Definition heap0 : Heap (P:=PS) :=
  MkHeap (State_new cfg0 0)
    (MkSplitterState (Some (ActiveSplitterJob_new (5 : Principal (PrincipalSpec:=PS)) plan0)) [] 3)
    RewardState_default false (MkPoke None false 0) [].
End ConcreteRelay.

Section witnesses.
Import Concrete ConcreteTexts ConcreteRelay.
Local Abbreviation PS := concrete_principal.

Lemma drive_active_job_returns_witness :
  exists w', drive_active_job (P:=PS) 9 5 1000 None (quiet_env 600000000 1000 10000) (World heap0 [])
             = (Returned DriveCompleted, w') /\ length (w_trace w') = 2%nat /\
    traced (written_ahead (P:=PS) 9 5) [] w'.
Proof.
  destruct (drive_active_job_returns (P:=PS) 9 (quiet_env 600000000 1000 10000) 5 1000 None (World heap0 [])
              ltac:(by intros n h k) ltac:(by vm_compute)) as (r & w' & E & _ & Ht).
  exists (drive_active_job (P:=PS) 9 5 1000 None (quiet_env 600000000 1000 10000) (World heap0 [])).2.
  split; [by vm_compute|]. split; [by vm_compute|]. rewrite E. exact Ht.
Defined.

Lemma built_plan_is_valid_witness :
  active_plan_is_valid (ActiveSplitterJob_new (5 : Principal (PrincipalSpec:=PS)) plan0) = true.
Proof.
  exact (built_plan_is_valid (P:=PS) 20 500000000 10000 1000 5 plan0 ltac:(unfold u64; lia) ltac:(lia)
           ltac:(by vm_compute)).
Defined.
End witnesses.
