(* ===== verification/SplitterProtocol.v ===== *)
(** * The splitter protocol against a ledger

    Any number of drivers of the splitter journal run at once: a lease can
    expire while its driver still waits for a reply, an upgrade drops every
    driver, a transfer whose reply was lost may execute later.  [sys_step] is
    the system of the journal, the calls in flight and the ledger; its atomic
    steps are the ones [RelaySplitter.drive_loop] is made of ([before_await] and
    the [after_*] functions).  It refines [spec_step], in which each leg of a
    job is paid at most once, and a job ends as completed only with both legs
    paid and as cleared only with none paid. *)

From S2P Require Import Prelude BTree Async Ic Clients TimerGuard CyclesProbe RelayState RelayLogic RelaySplitter.

Section protocol.
Context `{P : PrincipalSpec}.
Context (relay_id : Principal).
#[local] Existing Instance Principal_eq_dec.

#[global] Instance TransferArg_eq_dec : EqDecision TransferArg.
Proof. solve_decision. Defined.

(** ** The specification *)

Inductive SpecState :=
| Open (default_paid subaccount_one_paid : bool)
| Completed
| Cleared
| Quarantined (default_paid subaccount_one_paid : bool).

Inductive spec_step : SpecState -> SpecState -> Prop :=
| SpecPayDefault : spec_step (Open false false) (Open true false)
| SpecPaySubaccountOne : spec_step (Open true false) (Open true true)
| SpecComplete : spec_step (Open true true) Completed
| SpecClear : spec_step (Open false false) Cleared
| SpecQuarantine d s : spec_step (Open d s) (Quarantined d s)
| SpecLateDefault s : spec_step (Quarantined false s) (Quarantined true s)
| SpecLateSubaccountOne d : spec_step (Quarantined d false) (Quarantined d true).

(** ** The system *)

(** A driver that waits for a reply: its call, its guard and its clock. *)
Record Flight := MkFlight { fl_call : DriverCall; fl_guard : option SplitterGuard; fl_now : Z }.

(** [ledger_pending] are the transfers sent and not yet processed by the
    ledger, [ledger_executed] the executed ones; [ended] is the result with
    which the job left the journal. *)
Record Sys := MkSys {
  heap : Heap;
  flights : list Flight;
  ledger_pending : list TransferArg;
  ledger_executed : list TransferArg;
  ended : option DriveResult;
}.

Definition end_of (r : Round) (h h' : Heap) (e : option DriveResult) : option DriveResult :=
  match get_active_job h, get_active_job h', r with
  | Some _, None, Finish r => Some r
  | _, _, _ => e
  end.

Definition close (r : Round) (h : Heap) (s : Sys) : Sys :=
  s <| heap := h |> <| ended := end_of r (heap s) h (ended s) |>.

Definition launch (c : DriverCall) (guard : option SplitterGuard) (now : Z) (h : Heap) (s : Sys) : Sys :=
  s <| heap := h |> <| flights ::= cons (MkFlight c guard now) |>
    <| ledger_pending ::= (fun l =>
         match c with
         | AwaitTransfer job leg _ => splitter_transfer_arg relay_id job leg :: l
         | _ => l
         end) |>.

(** What the ledger's answer says about the transfer: an accepted (or
    duplicate) one was executed, a rejected one was processed and will not be,
    a lost reply says nothing. *)
Inductive ledger_answer (a : TransferArg) : TransferOutcome -> Sys -> Sys -> Prop :=
| AnswerAccepted block s : a ∈ ledger_executed s -> ledger_answer a (OutcomeAccepted block) s s
| AnswerLost e s : ledger_answer a (TransportUncertain e) s s
| AnswerRejected o s p1 p2 :
    match o with OutcomeBadFee _ | OutcomeInsufficientFunds _ | DefinitiveRejection _ => True
            | _ => False end ->
    ledger_pending s = p1 ++ a :: p2 ->
    ledger_answer a o s (s <| ledger_pending := p1 ++ p2 |>).

Inductive sys_step : Sys -> Sys -> Prop :=
| StepClosed s now r h :
    before_await now (heap s) = Some (Closed r, h) -> sys_step s (close r h s)
| StepLaunch s now guard c h :
    before_await now (heap s) = Some (Awaiting c, h) -> sys_step s (launch c guard now h s)
| StepBalance s f1 f2 job leg guard now reply r h :
    flights s = f1 ++ MkFlight (AwaitBalance job leg) guard now :: f2 ->
    after_balance now guard job leg reply (heap s) = (r, h) ->
    sys_step s (close r h (s <| flights := f1 ++ f2 |>))
| StepFee s f1 f2 job leg guard now reply r h :
    flights s = f1 ++ MkFlight (AwaitFee job leg) guard now :: f2 ->
    (let '(fee, h0) := fee_resolved reply (heap s) in after_fee now guard job leg fee h0) = (r, h) ->
    sys_step s (close r h (s <| flights := f1 ++ f2 |>))
| StepTransfer s s' f1 f2 job leg prior guard now outcome r h :
    flights s = f1 ++ MkFlight (AwaitTransfer job leg prior) guard now :: f2 ->
    get_active_job (heap s) = Some job ->
    ledger_answer (splitter_transfer_arg relay_id job leg) outcome s s' ->
    after_transfer now guard job leg prior outcome (heap s) = (r, h) ->
    sys_step s (close r h (s' <| flights := f1 ++ f2 |>))
(** A driver whose claim is lost gets any answer; its transfer stays pending,
    which allows no fewer executions than the ledger does. *)
| StepStale s f1 f2 job leg prior guard now outcome r h :
    flights s = f1 ++ MkFlight (AwaitTransfer job leg prior) guard now :: f2 ->
    get_active_job (heap s) <> Some job ->
    after_transfer now guard job leg prior outcome (heap s) = (r, h) ->
    sys_step s (close r h (s <| flights := f1 ++ f2 |>))
(** The ledger executes a pending transfer, never the same twice. *)
| StepExecute s a p1 p2 :
    ledger_pending s = p1 ++ a :: p2 -> a ∉ ledger_executed s ->
    sys_step s (s <| ledger_pending := p1 ++ p2 |> <| ledger_executed ::= cons a |>)
(** A driver is dropped by a trap or an upgrade. *)
| StepDrop s f1 f f2 :
    flights s = f1 ++ f :: f2 -> sys_step s (s <| flights := f1 ++ f2 |>)
(** Other messages, and an upgrade, keep the journal. *)
| StepOther s h : splitter h = splitter (heap s) -> sys_step s (s <| heap := h |>).

(** ** The invariant *)

Definition arg (job : ActiveSplitterJob) (leg : SplitterLeg) : TransferArg :=
  splitter_transfer_arg relay_id job leg.
Definition sent (s : Sys) : list TransferArg := ledger_pending s ++ ledger_executed s.

Definition waiting (st : SplitterLegStatus) : Prop :=
  match st with WaitingForFunds _ | WaitingForFeasibleFee _ => True | _ => False end.
Definition started (p : SplitterLegProgress) : bool :=
  attempt_started p || uncertain_attempt_seen p || is_accepted (status p).

Definition leg_destination (leg : SplitterLeg) : SplitterDestination :=
  match leg with LegDefaultAccount => DefaultDestination | LegSubaccountOne => SubaccountOneDestination end.

Definition leg_plan_of (p : SplitterPlan) (leg : SplitterLeg) : SplitterLegPlan :=
  match leg with LegDefaultAccount => plan_default_leg p | LegSubaccountOne => plan_subaccount_one_leg p end.

Context (p0 : SplitterPlan).

(** A repinned leg keeps its destination and its gross share. *)
Definition job_ok (job : ActiveSplitterJob) : Prop :=
  source_subaccount (plan job) = source_subaccount p0 /\
  forall leg, lp_destination (leg_plan job leg) = leg_destination leg /\
              lp_gross_share_e8s (leg_plan job leg) = lp_gross_share_e8s (leg_plan_of p0 leg) /\
              lp_amount_e8s (leg_plan job leg) + lp_fee_e8s (leg_plan job leg)
              = lp_gross_share_e8s (leg_plan job leg).

Definition occurrences (a : TransferArg) (l : list TransferArg) : nat :=
  count (fun b => bool_decide (b = a)) l.

Definition facts (job : ActiveSplitterJob) (s : Sys) : Prop :=
  job_ok job /\ (forall a, a ∈ sent s -> exists leg, a = arg job leg) /\ NoDup (ledger_executed s).

Definition legs_ok (job : ActiveSplitterJob) (s : Sys) : Prop :=
  (forall leg, arg job leg ∈ sent s ->
     started (leg_progress job leg) = true /\ ~ waiting (status (leg_progress job leg))) /\
  (forall leg, is_accepted (status (leg_progress job leg)) = true -> arg job leg ∈ ledger_executed s) /\
  (is_accepted (status (default_leg job)) = false -> arg job LegSubaccountOne ∉ sent s).

(** The call of the driver that holds the current claim. *)
Definition call_ok (job : ActiveSplitterJob) (s : Sys) (c : DriverCall) : Prop :=
  driver_revision (claimed_job c) = driver_revision job ->
  claimed_job c = job /\
  match c with
  | AwaitBalance _ leg | AwaitFee _ leg =>
      current_leg job = Some leg /\ waiting (status (leg_progress job leg))
  | AwaitTransfer _ leg prior =>
      current_leg job = Some leg /\ attempt_started (leg_progress job leg) = true /\
      (prior = false -> occurrences (arg job leg) (sent s) = 1%nat)
  end.

Definition revision_of (f : Flight) : Z := driver_revision (claimed_job (fl_call f)).

Definition fenced (job : ActiveSplitterJob) (s : Sys) : Prop :=
  let next := next_driver_revision (splitter (heap s)) in
  driver_revision job <= next /\ Forall (fun f => revision_of f <= next) (flights s) /\
  NoDup (map revision_of (flights s)).

Definition live (job : ActiveSplitterJob) (s : Sys) : Prop :=
  get_active_job (heap s) = Some job /\ fenced job s /\ legs_ok job s /\
  Forall (fun f => call_ok job s (fl_call f)) (flights s).

Definition settled (job : ActiveSplitterJob) (s : Sys) (r : DriveResult) : Prop :=
  get_active_job (heap s) = None /\
  match r with
  | DriveCompleted => forall leg, arg job leg ∈ ledger_executed s
  | ClearedPreSpend => sent s = []
  | DriveQuarantined => True
  | _ => False
  end.

Definition Inv (s : Sys) : Prop :=
  exists job, facts job s /\
    match ended s with None => live job s | Some r => settled job s r end.

Definition paid (leg : SplitterLeg) (s : Sys) : bool :=
  existsb (fun a => bool_decide (to a = splitter_destination_account relay_id (leg_destination leg)))
    (ledger_executed s).

Definition abstraction (s : Sys) : SpecState :=
  match ended s with
  | None => Open (paid LegDefaultAccount s) (paid LegSubaccountOne s)
  | Some DriveCompleted => Completed
  | Some ClearedPreSpend => Cleared
  | Some _ => Quarantined (paid LegDefaultAccount s) (paid LegSubaccountOne s)
  end.

(** ** Arguments of the legs *)

Lemma arg_to job leg : job_ok job ->
  to (arg job leg) = splitter_destination_account relay_id (leg_destination leg).
Proof using Type. intros [_ Hl]. unfold arg, splitter_transfer_arg. cbn. by rewrite (proj1 (Hl leg)). Qed.

Lemma arg_inj job leg leg' : job_ok job -> arg job leg = arg job leg' -> leg = leg'.
Proof using Type.
  intros Hok E. apply (f_equal to) in E. rewrite !arg_to in E by done.
  by destruct leg, leg'.
Qed.

Lemma arg_plan job job' leg : plan job' = plan job -> arg job' leg = arg job leg.
Proof using Type. intros E. unfold arg, splitter_transfer_arg, leg_plan. by rewrite E. Qed.

Lemma occurrences_not_in a l : occurrences a l = 0%nat <-> a ∉ l.
Proof using Type.
  unfold occurrences. induction l as [|b l IH]; cbn; [set_solver|]. case_bool_decide; set_solver.
Qed.

Lemma occurrences_app a l k : occurrences a (l ++ k) = (occurrences a l + occurrences a k)%nat.
Proof using Type. apply count_app. Qed.

Lemma occurrences_cons a b l :
  occurrences a (b :: l) = ((if bool_decide (b = a) then 1 else 0) + occurrences a l)%nat.
Proof using Type. done. Qed.

Lemma paid_spec job leg s : facts job s -> (paid leg s = true <-> arg job leg ∈ ledger_executed s).
Proof using Type.
  intros (Hok & Hsent & _). unfold paid. rewrite existsb_exists. split.
  - intros (a & Ha & Hto). apply list_elem_of_In in Ha. apply bool_decide_eq_true in Hto.
    destruct (Hsent a) as [leg' ->]; [unfold sent; set_solver|].
    rewrite arg_to in Hto by done. by destruct leg, leg'.
  - intros Hin. exists (arg job leg). split; [by apply list_elem_of_In|].
    by apply bool_decide_eq_true, arg_to.
Qed.

Lemma current_leg_Some job leg :
  current_leg job = Some leg ->
  is_accepted (status (leg_progress job leg)) = false /\
  (leg = LegSubaccountOne -> is_accepted (status (default_leg job)) = true).
Proof using Type. unfold current_leg. repeat case_match; intros [= <-]; rewrite ?negb_true_iff, ?negb_false_iff in *; done. Qed.

Lemma current_leg_None job leg :
  current_leg job = None -> is_accepted (status (leg_progress job leg)) = true.
Proof using Type. unfold current_leg. repeat case_match; rewrite ?negb_false_iff in *; by destruct leg. Qed.

(** ** Preservation *)

Lemma sent_facts job s s' :
  facts job s -> sent s' ⊆ sent s -> NoDup (ledger_executed s') -> facts job s'.
Proof using Type. intros (Hok & Hs & _) Hsub Hnd. split; [done|]. split; [|done]. intros a Ha. by apply Hs, Hsub. Qed.

Lemma legs_shrink job s s' :
  legs_ok job s -> sent s' ⊆ sent s -> ledger_executed s ⊆ ledger_executed s' -> legs_ok job s'.
Proof using Type.
  intros (H1 & H2 & H3) Hsub Hex. split; [|split].
  - intros leg Hin. by apply H1, Hsub.
  - intros leg Hacc. by apply Hex, H2.
  - intros Hacc Hin. by apply H3, Hsub.
Qed.

Lemma fenced_update job job' s s' :
  fenced job s -> driver_revision job' = driver_revision job ->
  next_driver_revision (splitter (heap s')) = next_driver_revision (splitter (heap s)) ->
  sublist (flights s') (flights s) -> fenced job' s'.
Proof using Type.
  intros (H1 & H2 & H3) Hrev Hnext Hsub. unfold fenced. cbn zeta in *. rewrite Hrev, Hnext.
  split; [done|]. split.
  { rewrite Forall_forall in H2 |- *. intros f Hf. apply H2. by eapply elem_of_sublist. }
  apply (sublist_NoDup _ (map revision_of (flights s))); [done|].
  clear -Hsub. induction Hsub; cbn; by constructor.
Qed.

Definition unclaimed (job : ActiveSplitterJob) (s : Sys) : Prop :=
  Forall (fun f => revision_of f <> driver_revision job) (flights s).

Lemma unclaimed_call_ok job job' s s' :
  unclaimed job s -> driver_revision job' = driver_revision job ->
  Forall (fun f => call_ok job' s' (fl_call f)) (flights s).
Proof using Type.
  intros Hu Hrev. eapply Forall_impl; [exact Hu|]. intros f Hf Hc. exfalso. apply Hf.
  unfold revision_of. congruence.
Qed.

(** Once its driver has answered, no other flight holds the claim. *)
Lemma answered_unclaimed job s f1 f f2 :
  fenced job s -> flights s = f1 ++ f :: f2 -> revision_of f = driver_revision job ->
  unclaimed job (s <| flights := f1 ++ f2 |>).
Proof using Type.
  intros (_ & _ & Hnd) Hf Hc. rewrite Hf, map_app in Hnd. cbn [map] in Hnd.
  apply NoDup_app in Hnd as (_ & Hd & Hnd2). apply NoDup_cons in Hnd2 as [Hni _].
  unfold unclaimed. cbn. unfold const. rewrite Forall_forall, <- Hc. intros g Hg E.
  apply elem_of_app in Hg as [Hg|Hg].
  - apply (Hd (revision_of g)); [by apply (list_elem_of_fmap_2 revision_of)|]. rewrite E. by left.
  - apply Hni. rewrite <- E. by apply (list_elem_of_fmap_2 revision_of).
Qed.

(** A leg that is ready and was never attempted has no driver in flight. *)
Lemma ready_unclaimed job s leg :
  live job s -> current_leg job = Some leg -> status (leg_progress job leg) = Ready ->
  attempt_started (leg_progress job leg) = false -> unclaimed job s.
Proof using Type.
  intros (_ & _ & _ & Hfl) Hcur Hr Ha. eapply Forall_impl; [exact Hfl|]. intros f Hf E.
  destruct (Hf E) as (_ & Hc). destruct (fl_call f); destruct Hc as (Hcur' & Hc);
    rewrite Hcur in Hcur'; injection Hcur' as <-.
  - by rewrite Hr in Hc.
  - by rewrite Hr in Hc.
  - by rewrite Ha in Hc; destruct Hc.
Qed.

Lemma close_live s job' r h' :
  ended s = None -> get_active_job h' = Some job' -> facts job' s ->
  live job' (s <| heap := h' |>) ->
  Inv (close r h' s) /\ abstraction (close r h' s) = abstraction s.
Proof using Type.
  intros He Ha Hf Hl.
  assert (ended (close r h' s) = None) as He'.
  { unfold close. cbn. unfold end_of. rewrite Ha. by case_match. }
  split; [exists job'; rewrite He'; split; [exact Hf|exact Hl]|].
  unfold abstraction. rewrite He', He. reflexivity.
Qed.

Lemma close_settled s job r h' :
  ended s = None -> get_active_job (heap s) = Some job -> get_active_job h' = None -> facts job s ->
  match r with
  | DriveCompleted => forall leg, arg job leg ∈ ledger_executed s
  | ClearedPreSpend => sent s = []
  | DriveQuarantined => True
  | _ => False
  end ->
  Inv (close (Finish r) h' s) /\ spec_step (abstraction s) (abstraction (close (Finish r) h' s)).
Proof using Type.
  intros He Ha Hn Hf Hr.
  assert (ended (close (Finish r) h' s) = Some r) as He'.
  { unfold close. cbn. unfold end_of. by rewrite Ha, Hn. }
  split; [exists job; rewrite He'; split; [exact Hf|by split]|].
  unfold abstraction. rewrite He', He.
  change (paid LegDefaultAccount (close (Finish r) h' s)) with (paid LegDefaultAccount s).
  change (paid LegSubaccountOne (close (Finish r) h' s)) with (paid LegSubaccountOne s).
  destruct r; try done; try constructor.
  - rewrite !(proj2 (paid_spec job _ s Hf)) by done. constructor.
  - assert (ledger_executed s = []) as Hex by (unfold sent in Hr; by apply app_eq_nil in Hr as [_ ?]).
    unfold paid. rewrite Hex. constructor.
Qed.

Definition progress (s s' : Sys) : Prop :=
  Inv s' /\ (abstraction s' = abstraction s \/ spec_step (abstraction s) (abstraction s')).

Lemma progress_live s job' r h' :
  ended s = None -> get_active_job h' = Some job' -> facts job' s ->
  live job' (s <| heap := h' |>) -> progress s (close r h' s).
Proof using Type. intros He Ha Hf Hl. destruct (close_live s job' r h' He Ha Hf Hl). split; auto. Qed.

Lemma progress_settled s job r h' :
  ended s = None -> get_active_job (heap s) = Some job -> get_active_job h' = None -> facts job s ->
  match r with
  | DriveCompleted => forall leg, arg job leg ∈ ledger_executed s
  | ClearedPreSpend => sent s = []
  | DriveQuarantined => True
  | _ => False
  end -> progress s (close (Finish r) h' s).
Proof using Type.
  intros He Ha Hn Hf Hr. destruct (close_settled s job r h' He Ha Hn Hf Hr). split; auto.
Qed.

Lemma quarantine_active leg now why h job :
  get_active_job h = Some job ->
  get_active_job (quarantine leg now why h) = None.
Proof using Type. intros Ha. unfold quarantine, quarantine_active_job. by rewrite Ha. Qed.

(** A leg is repinned only while none of its transfers was sent. *)
Lemma repin_spec leg fee now job job' s :
  facts job s -> arg job leg ∉ sent s -> repin_leg leg fee now job = Some job' ->
  facts job' s /\ driver_revision job' = driver_revision job /\
  leg_progress job' leg = SplitterLegProgress_default /\ arg job' leg ∉ sent s /\
  forall leg', leg' <> leg ->
    arg job' leg' = arg job leg' /\ leg_progress job' leg' = leg_progress job leg'.
Proof using Type.
  intros (Hok & Hs & Hnd) Hni. unfold repin_leg.
  destruct (fresh_created_at _ _) as [created|]; [|done]. cbn zeta. intros [= E].
  assert (forall leg', leg' <> leg ->
    arg job' leg' = arg job leg' /\ leg_progress job' leg' = leg_progress job leg') as Harg
    by (intros leg' Hne; rewrite <- E; by destruct leg, leg').
  assert (driver_revision job' = driver_revision job /\
          leg_progress job' leg = SplitterLegProgress_default) as [Hrev Hprog]
    by (rewrite <- E; by destruct leg).
  assert (job_ok job') as Hok'.
  { destruct Hok as [Hsrc Hl]. rewrite <- E. split; [by destruct leg|].
    intros leg'. destruct (Hl leg') as (Hd & Hg & Ha).
    destruct (decide (leg' = leg)) as [->|Hne].
    * destruct leg; cbn in *; unfold const in *; cbn in *; repeat split; auto; lia.
    * destruct leg, leg'; try done; cbn in *; auto. }
  assert (arg job' leg ∉ sent s) as Hni'.
  { intros Hin. destruct (Hs _ Hin) as [leg' E']. pose proof (f_equal to E') as Et.
    rewrite !arg_to in Et by done. assert (leg' = leg) as -> by (by destruct leg, leg').
    rewrite E' in Hin. done. }
  split; [|by auto]. split; [done|]. split; [|done].
  intros a Ha. destruct (Hs a Ha) as [leg' ->]. exists leg'.
  destruct (decide (leg' = leg)) as [->|Hne]; [done|]. symmetry. by apply Harg.
Qed.

Lemma stored_live s job job' r h :
  ended s = None -> get_active_job (heap s) = Some job -> splitter h = splitter (heap s) ->
  fenced job s -> unclaimed job s -> driver_revision job' = driver_revision job ->
  facts job' s -> legs_ok job' s -> progress s (close r (set_active_job job' h) s).
Proof using Type.
  intros He Ha Hh Hfen Hu Hrev Hf Hlegs.
  apply (progress_live s job'); [done| |done|].
  - unfold get_active_job, set_active_job. cbn. done.
  - split; [done|]. split; [|split; [done|]].
    + apply (fenced_update job job' s); try done. cbn. unfold const. by rewrite Hh.
    + by apply (unclaimed_call_ok job).
Qed.

Lemma repin_or_quarantine_progress s job leg fee now stored r h h' :
  ended s = None -> get_active_job (heap s) = Some job -> splitter h = splitter (heap s) ->
  fenced job s -> unclaimed job s -> facts job s -> legs_ok job s ->
  arg job leg ∉ sent s -> is_accepted (status (leg_progress job leg)) = false ->
  repin_or_quarantine leg fee now job stored h = (r, h') -> progress s (close r h' s).
Proof using Type.
  intros He Ha Hh Hfen Hu Hf Hlegs Hni Hacc. unfold repin_or_quarantine.
  destruct (repin_leg _ _ _ _) as [job'|] eqn:E; intros [= <- <-].
  - destruct (repin_spec _ _ _ _ _ _ Hf Hni E) as (Hf' & Hrev & Hp & Hni' & Ho).
    apply (stored_live s job); try done. destruct Hlegs as (H1 & H2 & H3).
    split; [|split].
    + intros leg' Hin. destruct (decide (leg' = leg)) as [->|Hne]; [done|].
      destruct (Ho leg' Hne) as [Ea Ep]. rewrite Ep. apply H1. by rewrite <- Ea.
    + intros leg' Hin. destruct (decide (leg' = leg)) as [->|Hne]; [by rewrite Hp in Hin|].
      destruct (Ho leg' Hne) as [Ea Ep]. rewrite Ep in Hin. rewrite Ea. by apply H2.
    + intros Hd. destruct leg.
      * rewrite (proj1 (Ho LegSubaccountOne ltac:(done))). by apply H3.
      * done.
  - apply (progress_settled s job); try done. apply (quarantine_active _ _ _ _ job).
    unfold get_active_job. by rewrite Hh.
Qed.

(** *** The opening of a round *)

Lemma claim_for_spec job mark call h o h' :
  get_active_job h = Some job -> claim_for job mark call h = Some (o, h') ->
  let job1 := job <| driver_revision := next_driver_revision (splitter h) + 1 |> in
  let job1 := match mark with Some leg => mark_started leg job1 | None => job1 end in
  o = Awaiting (call job1) /\ get_active_job h' = Some job1 /\
  next_driver_revision (splitter h') = next_driver_revision (splitter h) + 1.
Proof using Type.
  intros Ha. unfold claim_for, claim_active_job. rewrite Ha, bool_decide_eq_true_2 by done.
  destruct (checked_add _ _) as [rev|] eqn:E; [|done]. apply checked_add_Some in E as [-> _].
  cbn. by intros [= <- <-].
Qed.

Lemma launch_live s job job1 c guard now h1 :
  live job s -> facts job1 s -> (forall a, a ∈ sent (launch c guard now h1 s) -> exists leg, a = arg job1 leg) ->
  ended s = None -> get_active_job h1 = Some job1 ->
  driver_revision job1 = next_driver_revision (splitter (heap s)) + 1 ->
  next_driver_revision (splitter h1) = next_driver_revision (splitter (heap s)) + 1 ->
  claimed_job c = job1 ->
  legs_ok job1 (launch c guard now h1 s) -> call_ok job1 (launch c guard now h1 s) c ->
  progress s (launch c guard now h1 s).
Proof using Type.
  intros (Ha & (Hr & Hfl & Hnd) & _ & _) Hf Hsent He Ha1 Hrev Hnext Hc Hlegs Hcall.
  split.
  - exists job1. change (ended (launch c guard now h1 s)) with (ended s). rewrite He.
    split; [split; [apply Hf|split; [done|apply Hf]]|].
    split; [done|]. split; [|split; [done|]].
    + unfold fenced. cbn [flights heap launch]. cbn. unfold const. rewrite Hnext, Hrev.
      assert (revision_of (MkFlight c guard now) = next_driver_revision (splitter (heap s)) + 1) as E
        by (unfold revision_of; cbn; by rewrite Hc).
      split; [lia|]. split.
      * constructor; [lia|]. eapply Forall_impl; [exact Hfl|]. cbn. lia.
      * constructor; [|done]. rewrite E. intros Hin. apply (list_elem_of_fmap_1 revision_of) in Hin as (f & Hf' & Hin).
        rewrite Forall_forall in Hfl. specialize (Hfl f Hin). lia.
    + constructor; [done|]. rewrite Forall_forall in Hfl |- *. intros f Hin Hclaim. exfalso.
      specialize (Hfl f Hin). unfold revision_of in Hfl. lia.
  - left. unfold abstraction. change (ended (launch c guard now h1 s)) with (ended s). by rewrite He.
Qed.

Lemma mark_started_progress leg job leg' :
  leg_progress (mark_started leg job) leg' =
  if decide (leg' = leg) then (leg_progress job leg) <| attempt_started := true |> else leg_progress job leg'.
Proof using Type. by destruct leg, leg'. Qed.

Lemma mark_started_current leg job leg' :
  current_leg (mark_started leg job) = Some leg' <-> current_leg job = Some leg'.
Proof using Type. unfold current_leg. by destruct leg. Qed.

Lemma facts_same_plan job job1 s : plan job1 = plan job -> facts job s -> facts job1 s.
Proof using Type.
  intros E ((Hsrc & Hl) & Hs & Hnd). split; [|split; [|done]].
  - unfold job_ok, leg_plan in *. by rewrite E.
  - intros a Ha. destruct (Hs a Ha) as [leg ->]. exists leg. symmetry. by apply arg_plan.
Qed.

(** A claim before a read only advances the revision. *)
Lemma launch_read s job now guard h o h' leg (call : ActiveSplitterJob -> DriverCall) :
  facts job s -> live job s -> ended s = None -> heap s = h ->
  current_leg job = Some leg -> waiting (status (leg_progress job leg)) ->
  (forall j, call j = AwaitBalance j leg) \/ (forall j, call j = AwaitFee j leg) ->
  claim_for job None call h = Some (o, h') ->
  match o with Closed r => progress s (close r h' s) | Awaiting c => progress s (launch c guard now h' s) end.
Proof using Type.
  intros Hf Hl He <- Hcur Hw Hcall Hclaim. pose proof Hl as (Ha & Hfen & Hlegs & Hfl).
  destruct (claim_for_spec _ _ _ _ _ _ Ha Hclaim) as (-> & Ha1 & Hnext). cbn zeta in *.
  set (job1 := job <| driver_revision := _ |>) in *.
  assert (sent (launch (call job1) guard now h' s) = sent s) as Hsent
    by (by destruct Hcall as [-> | ->]).
  assert (facts job1 s) as Hf1 by (by apply (facts_same_plan job)).
  eapply launch_live; eauto.
  - rewrite Hsent. apply Hf1.
  - by destruct Hcall as [-> | ->].
  - destruct Hlegs as (H1 & H2 & H3). unfold legs_ok. rewrite Hsent. by split; [|split].
  - intros _. split; [by destruct Hcall as [-> | ->]|]. by destruct Hcall as [-> | ->].
Qed.

Lemma launch_transfer s job now guard h o h' leg :
  facts job s -> live job s -> ended s = None -> heap s = h ->
  current_leg job = Some leg -> status (leg_progress job leg) = Ready ->
  claim_for job (Some leg) (fun claimed => AwaitTransfer claimed leg
    (attempt_started (leg_progress job leg) || uncertain_attempt_seen (leg_progress job leg))) h = Some (o, h') ->
  match o with Closed r => progress s (close r h' s) | Awaiting c => progress s (launch c guard now h' s) end.
Proof using Type.
  intros Hf Hl He <- Hcur Hready Hclaim. pose proof Hl as (Ha & Hfen & Hlegs & Hfl).
  destruct (claim_for_spec _ _ _ _ _ _ Ha Hclaim) as (-> & Ha1 & Hnext). cbn zeta in *.
  set (job0 := job <| driver_revision := _ |>) in *. set (job1 := mark_started leg job0) in *.
  set (prior := _ || _). destruct Hlegs as (H1 & H2 & H3).
  assert (plan job1 = plan job) as Hplan by (by destruct leg).
  assert (facts job1 s) as Hf1 by (by apply (facts_same_plan job)).
  assert (forall leg', arg job1 leg' = arg job leg') as Harg by (intros; by apply arg_plan).
  assert (sent (launch (AwaitTransfer job1 leg prior) guard now h' s) = arg job leg :: sent s) as Hsent.
  { unfold sent. cbn. f_equal. apply Harg. }
  assert (forall leg', leg' <> leg -> arg job leg' <> arg job leg) as Hne.
  { intros leg' Hn E. apply Hn. by apply (arg_inj job) in E; [|apply Hf]. }
  assert (forall leg', leg_progress job1 leg' =
    if decide (leg' = leg) then (leg_progress job leg) <| attempt_started := true |> else leg_progress job leg')
    as Hprog by (intros; unfold job1; rewrite mark_started_progress; by destruct leg').
  eapply launch_live; eauto.
  - rewrite Hsent. intros a [->|Hin]%elem_of_cons; [by exists leg|]. by apply Hf1.
  - by destruct leg.
  - split; [|split].
    + intros leg'. rewrite Hsent, Harg, Hprog. case_decide as Hd.
      * intros _. subst leg'. unfold started, const. cbn. rewrite Hready. split; [done|by intros []].
      * intros [E|Hin]%elem_of_cons; [by apply Hne in E|]. by apply H1.
    + intros leg'. rewrite Hprog, Harg. case_decide as Hd.
      * subst leg'. cbn. by rewrite Hready.
      * by apply H2.
    + intros Hacc. rewrite Hsent, Harg.
      assert (is_accepted (status (default_leg job)) = false) as Hacc'.
      { rewrite <- Hacc. unfold job1. by destruct leg. }
      apply current_leg_Some in Hcur as [_ Hsub].
      assert (leg = LegDefaultAccount) as -> by (destruct leg; [done|rewrite Hsub in Hacc' by done; done]).
      intros [E|Hin]%elem_of_cons; [by apply Hne in E|]. by apply (H3 Hacc').
  - intros _. split; [done|]. split; [by apply mark_started_current|].
    split; [rewrite Hprog, decide_True by done; done|]. intros Hprior.
    rewrite Hsent, Harg, occurrences_cons, bool_decide_eq_true_2 by done.
    rewrite (proj2 (occurrences_not_in _ _)); [done|]. intros Hin.
    apply H1 in Hin as [Hst _]. unfold started in Hst. unfold prior in Hprior.
    rewrite Hready in Hst. cbn in Hst. by rewrite orb_false_r, Hprior in Hst.
Qed.

(** The default leg comes first: with none of its transfers sent, none was. *)
Lemma nothing_sent job s :
  facts job s -> legs_ok job s -> is_accepted (status (default_leg job)) = false ->
  arg job LegDefaultAccount ∉ sent s -> sent s = [].
Proof using Type.
  intros (_ & Hs & _) (_ & _ & H3) Hacc Hni. destruct (sent s) as [|a l] eqn:E; [done|]. exfalso.
  destruct (Hs a) as [leg ->]; [by left|]. destruct leg.
  - by apply Hni; left.
  - by apply (H3 Hacc); left.
Qed.

Lemma open_transfer_progress s job now guard o h' leg :
  facts job s -> live job s -> ended s = None ->
  current_leg job = Some leg -> status (leg_progress job leg) = Ready ->
  open_transfer now leg job (heap s) = Some (o, h') ->
  match o with Closed r => progress s (close r h' s) | Awaiting c => progress s (launch c guard now h' s) end.
Proof using Type.
  intros Hf Hl He Hcur Hready. pose proof Hl as (Ha & Hfen & Hlegs & _).
  destruct (current_leg_Some _ _ Hcur) as [Hacc _]. unfold open_transfer. cbn zeta.
  destruct (negb (created_at_time_is_valid _ _)); [|by apply launch_transfer].
  destruct (attempt_started _ || _) eqn:Hprior.
  { intros [= <- <-]. apply (progress_settled s job); try done. by apply (quarantine_active _ _ _ _ job). }
  assert (arg job leg ∉ sent s) as Hni.
  { intros Hin. apply Hlegs in Hin as [Hst _]. unfold started in Hst. by rewrite Hprior, Hacc in Hst. }
  apply orb_false_iff in Hprior as [Hatt _]. destruct leg.
  - intros [= <- <-]. apply (progress_settled s job); try done. by apply (nothing_sent job).
  - destruct (repin_or_quarantine _ _ _ _ _ _) as [r h] eqn:E. intros [= <- <-].
    eapply (repin_or_quarantine_progress s job LegSubaccountOne); eauto. by eapply ready_unclaimed.
Qed.

Lemma open_progress s job now guard o h' :
  facts job s -> live job s -> ended s = None -> before_await now (heap s) = Some (o, h') ->
  match o with Closed r => progress s (close r h' s) | Awaiting c => progress s (launch c guard now h' s) end.
Proof using Type.
  intros Hf Hl He. pose proof Hl as (Ha & Hfen & Hlegs & _). unfold before_await. rewrite Ha. cbn zeta.
  destruct (negb (bool_decide _)).
  { intros [= <- <-]. apply (progress_settled s job); try done. by apply (quarantine_active _ _ _ _ job). }
  destruct (negb (active_plan_is_valid _)).
  { intros [= <- <-]. apply (progress_settled s job); try done. by apply (quarantine_active _ _ _ _ job). }
  destruct (current_leg job) as [leg|] eqn:Hcur.
  - destruct (status (leg_progress job leg)) eqn:Hst; [| | |done].
    + by apply open_transfer_progress.
    + intros Hc. apply (launch_read s job now guard (heap s) o h' leg
        (fun claimed => AwaitBalance claimed leg)); try done; [by rewrite Hst|by left].
    + intros Hc. apply (launch_read s job now guard (heap s) o h' leg
        (fun claimed => AwaitFee claimed leg)); try done; [by rewrite Hst|by right].
  - intros [= <- <-]. apply (progress_settled s job); try done.
    intros leg. apply Hlegs. by apply current_leg_None.
Qed.

(** *** The answers *)

(** An answer is dropped, or it meets the job its driver claimed. *)
Lemma reclaimed_cases guard claimed k h r h' :
  reclaimed guard claimed k h = (r, h') ->
  (r = Finish Stale /\ h' = h) \/ (get_active_job h = Some claimed /\ k claimed h = (r, h')).
Proof using Type.
  unfold reclaimed, active_job_if_claim_matches.
  destruct (guard_lost _ _); [intros [= <- <-]; by left|].
  destruct (get_active_job h) as [job|] eqn:Ha; [|intros [= <- <-]; by left].
  cbn. case_bool_decide as E; [|intros [= <- <-]; by left]. intros Hk. right.
  by subst.
Qed.

Lemma set_progress_legs_ok job leg p s :
  legs_ok job s -> is_accepted (status (leg_progress job leg)) = false ->
  (arg job leg ∈ sent s -> started p = true /\ ~ waiting (status p)) ->
  (is_accepted (status p) = true -> arg job leg ∈ ledger_executed s) ->
  legs_ok (set_leg_progress leg p job) s.
Proof using Type.
  intros (H1 & H2 & H3) Hacc Hs He.
  assert (forall leg', arg (set_leg_progress leg p job) leg' = arg job leg') as Harg
    by (intros; apply arg_plan; by destruct leg).
  assert (forall leg', leg_progress (set_leg_progress leg p job) leg' =
    if decide (leg' = leg) then p else leg_progress job leg') as Hp by (by destruct leg; intros []).
  split; [|split].
  - intros leg'. rewrite Harg, Hp. case_decide; [by subst|apply H1].
  - intros leg'. rewrite Harg, Hp. case_decide; [by subst|apply H2].
  - rewrite Harg. intros Hd. apply H3. by destruct leg.
Qed.

(** The state in which a driver's answer is handled: its flight is gone, its
    claim is the active job, on which [leg] is the current leg. *)
Definition answering (job : ActiveSplitterJob) (leg : SplitterLeg) (s : Sys) : Prop :=
  ended s = None /\ get_active_job (heap s) = Some job /\ current_leg job = Some leg /\
  facts job s /\ fenced job s /\ unclaimed job s /\ legs_ok job s.

Lemma answering_progress job leg p s r h :
  answering job leg s -> splitter h = splitter (heap s) ->
  (arg job leg ∈ sent s -> started p = true /\ ~ waiting (status p)) ->
  (is_accepted (status p) = true -> arg job leg ∈ ledger_executed s) ->
  progress s (close r (set_active_job (set_leg_progress leg p job) h) s).
Proof using Type.
  intros (He & Ha & Hcur & Hf & Hfen & Hu & Hlegs) Hh Hs Hacc.
  apply (stored_live s job); try done.
  - by destruct leg.
  - apply (facts_same_plan job); [by destruct leg|done].
  - apply set_progress_legs_ok; try done. by apply current_leg_Some.
Qed.

Lemma answering_repin job leg s fee now stored r h h' :
  answering job leg s -> splitter h = splitter (heap s) -> arg job leg ∉ sent s ->
  repin_or_quarantine leg fee now job stored h = (r, h') -> progress s (close r h' s).
Proof using Type.
  intros (He & Ha & Hcur & Hf & Hfen & Hu & Hlegs) Hh Hni.
  apply (repin_or_quarantine_progress s job leg); try done. by apply current_leg_Some.
Qed.

Lemma answering_clear job s h :
  answering job LegDefaultAccount s -> arg job LegDefaultAccount ∉ sent s ->
  progress s (close (Finish ClearedPreSpend) (clear_active_job h) s).
Proof using Type.
  intros (He & Ha & Hcur & Hf & Hfen & Hu & Hlegs) Hni.
  apply (progress_settled s job); try done. apply (nothing_sent job); try done.
  by apply (current_leg_Some job LegDefaultAccount).
Qed.

Lemma answering_keep job leg s r h h' :
  answering job leg s -> splitter h = splitter (heap s) -> keep_uncertain leg job h = (r, h') ->
  progress s (close r h' s).
Proof using Type.
  intros Hans Hh [= <- <-]. pose proof Hans as (_ & _ & Hcur & _ & _ & _ & H1 & _).
  apply answering_progress; try done.
  - intros Hin. destruct (H1 _ Hin) as [_ Hw]. unfold started. cbn. unfold const.
    by rewrite orb_true_r.
  - cbn. unfold const. by rewrite (proj1 (current_leg_Some _ _ Hcur)).
Qed.

Lemma after_balance_progress job leg s now guard reply r h' :
  answering job leg s -> arg job leg ∉ sent s ->
  after_balance now guard job leg reply (heap s) = (r, h') ->
  r = Finish Stale /\ h' = heap s \/ r = Finish DriveUnresolved /\ h' = heap s \/ progress s (close r h' s).
Proof using Type.
  intros Hans Hni [[-> ->]|[_ Hk]]%reclaimed_cases; [by left|]. right.
  destruct reply as [balance|e]; [|injection Hk as <- <-; by left]. right.
  destruct (balance <? _).
  - injection Hk as <- <-. by apply answering_progress.
  - by apply (answering_repin _ _ _ _ _ _ _ _ _ Hans eq_refl Hni Hk).
Qed.

Lemma after_fee_progress job leg s now guard fee h r h' :
  answering job leg s -> arg job leg ∉ sent s -> splitter h = splitter (heap s) ->
  after_fee now guard job leg fee h = (r, h') ->
  r = Finish Stale /\ h' = h \/ progress s (close r h' s).
Proof using Type.
  intros Hans Hni Hh [[-> ->]|[_ Hk]]%reclaimed_cases; [by left|]. right.
  destruct (_ <=? fee).
  - injection Hk as <- <-. by apply answering_progress.
  - by apply (answering_repin _ _ _ _ _ _ _ _ _ Hans Hh Hni Hk).
Qed.

(** [s]: after the ledger's answer. *)
Lemma after_transfer_progress job leg prior s now guard outcome r h' :
  answering job leg s ->
  match outcome with
  | OutcomeAccepted _ => arg job leg ∈ ledger_executed s
  | TransportUncertain _ => True
  | _ => prior = false -> arg job leg ∉ sent s
  end ->
  after_transfer now guard job leg prior outcome (heap s) = (r, h') ->
  r = Finish Stale /\ h' = heap s \/ progress s (close r h' s).
Proof using Type.
  intros Hans Hout [[-> ->]|[_ Hk]]%reclaimed_cases; [by left|]. right.
  destruct outcome as [block|expected|balance|e|e].
  - injection Hk as <- <-. apply answering_progress; try done.
    intros _. split; [|by intros []]. unfold started. cbn. unfold const. by rewrite orb_true_r.
  - set (h := record_bad_fee expected (heap s)) in Hk.
    assert (splitter h = splitter (heap s)) as Hh by (unfold h, record_bad_fee; by destruct (expected <=? u64_max)).
    destruct prior; [by apply (answering_keep _ _ _ _ _ _ Hans Hh Hk)|]. specialize (Hout eq_refl).
    destruct leg; [injection Hk as <- <-; by apply (answering_clear job)|].
    unfold bad_fee_second_leg in Hk. cbn zeta in Hk. destruct (_ && _).
    + by apply (answering_repin _ _ _ _ _ _ _ _ _ Hans Hh Hout Hk).
    + injection Hk as <- <-. by apply (answering_progress job LegSubaccountOne).
  - destruct prior; [by apply (answering_keep _ _ _ _ _ _ Hans eq_refl Hk)|]. specialize (Hout eq_refl).
    destruct leg; [injection Hk as <- <-; by apply (answering_clear job)|].
    injection Hk as <- <-. by apply (answering_progress job LegSubaccountOne).
  - destruct prior; [by apply (answering_keep _ _ _ _ _ _ Hans eq_refl Hk)|]. specialize (Hout eq_refl).
    destruct leg; [injection Hk as <- <-; by apply (answering_clear job)|].
    by apply (answering_repin _ _ _ _ _ _ _ _ _ Hans eq_refl Hout Hk).
  - by apply (answering_keep _ _ _ _ _ _ Hans eq_refl Hk).
Qed.

(** *** Steps *)

(** A step that keeps the journal and executes nothing. *)
Lemma quiet_progress s s1 r h :
  Inv s -> ended s1 = ended s -> heap s1 = heap s -> ledger_executed s1 = ledger_executed s ->
  sent s1 ⊆ sent s -> sublist (flights s1) (flights s) -> splitter h = splitter (heap s) ->
  (forall job, live job s -> sent s1 = sent s \/ unclaimed job s1) ->
  progress s (close r h s1).
Proof using Type.
  intros (job & Hf & Hi) He Hh Hex Hsub Hfl Hs Hcalls.
  assert (ended (close r h s1) = ended s) as He'.
  { unfold close. cbn. unfold end_of, get_active_job. rewrite Hh, Hs. by destruct (active_splitter_job _). }
  split.
  - exists job. split; [apply (sent_facts job s); try done; cbn; rewrite Hex; apply Hf|].
    rewrite He'. destruct (ended s) as [r0|] eqn:Ers.
    + destruct Hi as [Hn Hr]. split; [cbn; unfold const, get_active_job in *; by rewrite Hs|].
      destruct r0; try done; cbn in *.
      * by rewrite Hex.
      * change (sent s1 = []). rewrite Hr in Hsub. by apply list_nil_subseteq in Hsub.
    + pose proof (Hcalls job Hi) as Hc. destruct Hi as (Ha & Hfen & Hlegs & Hcs).
      split; [cbn; unfold const, get_active_job in *; by rewrite Hs|].
      split; [apply (fenced_update job job s); try done; cbn; unfold const; by rewrite Hs|].
      split; [apply (legs_shrink job s); try done; cbn; by rewrite Hex|].
      destruct Hc as [Hc|Hc]; [|by apply (unclaimed_call_ok job)].
      rewrite Forall_forall in Hcs |- *. intros f Hin. specialize (Hcs f (elem_of_sublist _ _ _ Hin Hfl)).
      unfold call_ok in *. change (sent (close r h s1)) with (sent s1). by rewrite Hc.
  - left. unfold abstraction. rewrite He'.
    assert (forall leg, paid leg (close r h s1) = paid leg s) as Hp by (intros; unfold paid; cbn; by rewrite Hex).
    by rewrite !Hp.
Qed.

Lemma removed_sublist {A} (l l1 l2 : list A) x : l = l1 ++ x :: l2 -> sublist (l1 ++ l2) l.
Proof using Type. intros ->. apply sublist_app; [done|]. by constructor. Qed.

(** The driver of a flight meets its own job, or its answer is dropped. *)
Lemma flight_answering s f1 f f2 leg job :
  Inv s -> flights s = f1 ++ f :: f2 -> get_active_job (heap s) = Some (claimed_job (fl_call f)) ->
  claimed_job (fl_call f) = job ->
  match fl_call f with AwaitBalance _ l | AwaitFee _ l | AwaitTransfer _ l _ => l = leg end ->
  facts job s /\ live job s /\ answering job leg (s <| flights := f1 ++ f2 |>).
Proof using Type.
  intros (job' & Hf & Hi) Hfl Ha Hc Hleg. rewrite Hc in Ha.
  destruct (ended s) as [r|] eqn:He; [destruct Hi as [Hn _]; congruence|].
  pose proof Hi as (Ha' & Hfen & Hlegs & Hcs). rewrite Ha in Ha'. injection Ha' as <-.
  split; [done|]. split; [done|]. rewrite Hfl, Forall_app, Forall_cons in Hcs. destruct Hcs as (_ & Hcall & _).
  destruct (Hcall ltac:(by rewrite Hc)) as [_ Hcur].
  split; [done|]. split; [done|]. split; [destruct (fl_call f); subst leg; by destruct Hcur|].
  split; [done|]. split.
  - apply (fenced_update job job s); try done. cbn. by eapply removed_sublist.
  - split; [|done]. apply (answered_unclaimed job s f1 f f2); try done. unfold revision_of. by rewrite Hc.
Qed.

Lemma waiting_not_sent job leg s : legs_ok job s -> waiting (status (leg_progress job leg)) -> arg job leg ∉ sent s.
Proof using Type. intros (H1 & _) Hw Hin. by apply (H1 leg Hin). Qed.

Lemma open_step_progress s now guard o h' :
  Inv s -> before_await now (heap s) = Some (o, h') ->
  match o with Closed r => progress s (close r h' s) | Awaiting c => progress s (launch c guard now h' s) end.
Proof using Type.
  intros Hi Hb. pose proof Hi as (job & Hf & Hj). destruct (ended s) as [r0|] eqn:He.
  - destruct Hj as [Hn _]. unfold before_await in Hb. rewrite Hn in Hb. injection Hb as <- <-.
    apply quiet_progress; try done. by left.
  - by eapply open_progress.
Qed.

Lemma quiet_answer s f1 f f2 r h :
  Inv s -> flights s = f1 ++ f :: f2 -> splitter h = splitter (heap s) ->
  progress s (close r h (s <| flights := f1 ++ f2 |>)).
Proof using Type.
  intros Hi Hfl Hh. apply quiet_progress; try done; [cbn; by eapply removed_sublist|by left].
Qed.

(** The flight's claim is waiting when it reads. *)
Lemma read_not_sent s f1 f2 c guard now job leg :
  Inv s -> flights s = f1 ++ MkFlight c guard now :: f2 -> get_active_job (heap s) = Some job ->
  c = AwaitBalance job leg \/ c = AwaitFee job leg ->
  answering job leg (s <| flights := f1 ++ f2 |>) /\ arg job leg ∉ sent s.
Proof using Type.
  intros Hi Hfl Ha Hc.
  destruct (flight_answering s f1 (MkFlight c guard now) f2 leg job) as (_ & Hl & Hans); try done;
    try (by destruct Hc; subst c).
  split; [done|]. destruct Hl as (_ & _ & Hlegs & Hcs).
  rewrite Hfl, Forall_app, Forall_cons in Hcs. destruct Hcs as (_ & Hcall & _).
  apply waiting_not_sent; [done|]. destruct Hc; subst c; by apply Hcall.
Qed.

Lemma step_balance s f1 f2 job leg guard now reply r h :
  Inv s -> flights s = f1 ++ MkFlight (AwaitBalance job leg) guard now :: f2 ->
  after_balance now guard job leg reply (heap s) = (r, h) ->
  progress s (close r h (s <| flights := f1 ++ f2 |>)).
Proof using Type.
  intros Hi Hfl Hb. pose proof (quiet_answer s f1 _ f2 r (heap s) Hi Hfl eq_refl) as Hq.
  destruct (decide (get_active_job (heap s) = Some job)) as [Ha|Ha].
  - destruct (read_not_sent _ _ _ _ _ _ job leg Hi Hfl Ha ltac:(by left)) as [Hans Hni].
    destruct (after_balance_progress job leg (s <| flights := f1 ++ f2 |>) now guard reply r h
                Hans Hni Hb) as [[-> ->]|[[-> ->]|Hp]]; done.
  - destruct (reclaimed_cases _ _ _ _ _ _ Hb) as [[-> ->]|[? _]]; done.
Qed.

Lemma step_fee s f1 f2 job leg guard now reply r h :
  Inv s -> flights s = f1 ++ MkFlight (AwaitFee job leg) guard now :: f2 ->
  (let '(fee, h0) := fee_resolved reply (heap s) in after_fee now guard job leg fee h0) = (r, h) ->
  progress s (close r h (s <| flights := f1 ++ f2 |>)).
Proof using Type.
  intros Hi Hfl Hb. destruct (fee_resolved reply (heap s)) as [fee h0] eqn:E.
  assert (splitter h0 = splitter (heap s)) as Hh by (destruct reply; injection E as <- <-; done).
  pose proof (quiet_answer s f1 _ f2 r h0 Hi Hfl Hh) as Hq.
  destruct (decide (get_active_job (heap s) = Some job)) as [Ha|Ha].
  - destruct (read_not_sent _ _ _ _ _ _ job leg Hi Hfl Ha ltac:(by right)) as [Hans Hni].
    by destruct (after_fee_progress job leg (s <| flights := f1 ++ f2 |>) now guard fee h0 r h
                Hans Hni Hh Hb) as [[-> ->]|Hp].
  - destruct (reclaimed_cases _ _ _ _ _ _ Hb) as [[-> ->]|[? _]]; [done|].
    unfold get_active_job in *. congruence.
Qed.

Lemma step_stale s f1 f2 job leg prior guard now outcome r h :
  Inv s -> flights s = f1 ++ MkFlight (AwaitTransfer job leg prior) guard now :: f2 ->
  get_active_job (heap s) <> Some job ->
  after_transfer now guard job leg prior outcome (heap s) = (r, h) ->
  progress s (close r h (s <| flights := f1 ++ f2 |>)).
Proof using Type.
  intros Hi Hfl Ha [[-> ->]|[? _]]%reclaimed_cases; [|done]. by eapply quiet_answer.
Qed.

(** What a ledger's answer leaves of the transfers. *)
Lemma answer_effect a o s s' :
  ledger_answer a o s s' ->
  exists l, s' = s <| ledger_pending := l |> /\ sublist l (ledger_pending s) /\
    match o with
    | OutcomeAccepted _ => a ∈ ledger_executed s
    | TransportUncertain _ => True
    | _ => occurrences a (sent s) = 1%nat -> a ∉ sent s'
    end.
Proof using Type.
  intros [block s0 Hin|e s0|o0 s0 p1 p2 Ho Hp].
  - exists (ledger_pending s0). by destruct s0.
  - exists (ledger_pending s0). by destruct s0.
  - exists (p1 ++ p2). split; [done|]. split; [by eapply removed_sublist|].
    assert (occurrences a (sent s0) = 1%nat -> a ∉ sent (s0 <| ledger_pending := p1 ++ p2 |>)) as Hocc.
    { unfold sent. rewrite Hp. cbn. unfold const. rewrite <- occurrences_not_in, !occurrences_app, occurrences_cons.
      rewrite bool_decide_eq_true_2 by done. lia. }
    by destruct o0.
Qed.

Lemma step_transfer s s' f1 f2 job leg prior guard now outcome r h :
  Inv s -> flights s = f1 ++ MkFlight (AwaitTransfer job leg prior) guard now :: f2 ->
  get_active_job (heap s) = Some job ->
  ledger_answer (arg job leg) outcome s s' ->
  after_transfer now guard job leg prior outcome (heap s) = (r, h) ->
  progress s (close r h (s' <| flights := f1 ++ f2 |>)).
Proof using Type.
  intros Hi Hfl Ha (l & -> & Hsub & Hout)%answer_effect Hk.
  set (s1 := s <| ledger_pending := l |> <| flights := f1 ++ f2 |>).
  destruct (flight_answering s f1 _ f2 leg job Hi Hfl Ha eq_refl eq_refl)
    as (Hf & Hl & He & _ & Hcur & _ & Hfen & Hu & _).
  assert (sent s1 ⊆ sent s) as Hss.
  { unfold sent. cbn. unfold const. intros a [Hin|Hin]%elem_of_app; apply elem_of_app; [left|by right].
    by eapply elem_of_sublist. }
  pose proof Hl as (_ & _ & Hlegs & Hcs). rewrite Hfl, Forall_app, Forall_cons in Hcs.
  destruct Hcs as (_ & Hcall & _). destruct (Hcall eq_refl) as (_ & _ & _ & Hone).
  assert (answering job leg s1) as Hans.
  { repeat (split; [done|]). split; [apply (sent_facts job s); [done..|apply Hf]|].
    split; [done|]. split; [done|]. by apply (legs_shrink job s). }
  destruct (after_transfer_progress job leg prior s1 now guard outcome r h) as [[-> ->]|Hp]; try done.
  - by destruct outcome; try done; intros Hp; apply Hout, Hone.
  - apply (quiet_progress s s1); try done; [cbn; by eapply removed_sublist|].
    intros job' (Ha' & _). right. by simplify_eq.
Qed.

Lemma step_execute s a p1 p2 :
  Inv s -> ledger_pending s = p1 ++ a :: p2 -> a ∉ ledger_executed s ->
  progress s (s <| ledger_pending := p1 ++ p2 |> <| ledger_executed ::= cons a |>).
Proof using Type.
  intros (job & Hf & Hj) Hp Hni. set (s1 := s <| ledger_pending := _ |> <| ledger_executed ::= _ |>).
  assert (a ∈ sent s) as Ha by (unfold sent; rewrite Hp; set_solver).
  assert (sent s1 ⊆ sent s) as Hss by (unfold sent; rewrite Hp; cbn; unfold const; set_solver).
  assert (ledger_executed s ⊆ ledger_executed s1) as Hex by (cbn; set_solver).
  assert (facts job s1) as Hf1.
  { apply (sent_facts job s); [done..|]. cbn. apply NoDup_cons. split; [done|apply Hf]. }
  assert (forall b, occurrences b (sent s1) = occurrences b (sent s)) as Hocc.
  { intros b. change (sent s1) with ((p1 ++ p2) ++ a :: ledger_executed s). unfold sent. rewrite Hp.
    rewrite !occurrences_app, !occurrences_cons. lia. }
  destruct Hf as (Hok & Hs & Hnd). destruct (Hs a Ha) as [leg ->].
  assert (forall leg', paid leg' s1 = bool_decide (leg' = leg) || paid leg' s) as Hpaid.
  { intros leg'. unfold paid. change (ledger_executed s1) with (arg job leg :: ledger_executed s).
    cbn [existsb]. rewrite (arg_to job) by done. f_equal. apply bool_decide_ext.
    split; [intros E; by destruct leg, leg'|by intros ->]. }
  assert (paid leg s = false) as Hunpaid.
  { apply not_true_iff_false. by rewrite (paid_spec job). }
  destruct (ended s) as [r|] eqn:He.
  - destruct Hj as [Hn Hr]. split.
    + exists job. split; [done|]. change (ended s1) with (ended s). rewrite He. split; [done|].
      destruct r; try done; [by intros leg'; apply Hex|]. exfalso. rewrite Hr in Ha. by apply elem_of_nil in Ha.
    + unfold abstraction. change (ended s1) with (ended s). rewrite He. destruct r; try done.
      * exfalso. by apply Hni.
      * exfalso. rewrite Hr in Ha. by apply elem_of_nil in Ha.
      * right. rewrite !Hpaid. destruct leg; rewrite Hunpaid; constructor.
  - destruct Hj as (Hact & Hfen & Hlegs & Hcs). split.
    + exists job. split; [done|]. change (ended s1) with (ended s). rewrite He.
      split; [done|]. split; [done|]. split; [by apply (legs_shrink job s)|].
      eapply Forall_impl; [exact Hcs|]. intros f Hc E. specialize (Hc E).
      destruct (fl_call f); try done. by rewrite Hocc.
    + unfold abstraction. change (ended s1) with (ended s). rewrite He. right. rewrite !Hpaid.
      destruct leg; rewrite Hunpaid; cbn.
      * assert (paid LegSubaccountOne s = false) as ->; [|constructor].
        apply not_true_iff_false. rewrite (paid_spec job) by done. intros Hin.
        destruct Hlegs as (H1 & H2 & H3). destruct (is_accepted (status (default_leg job))) eqn:Eacc.
        -- apply Hni. by apply (H2 LegDefaultAccount).
        -- apply (H3 eq_refl). unfold sent. set_solver.
      * assert (paid LegDefaultAccount s = true) as ->; [|constructor].
        apply (paid_spec job); [done|]. destruct Hlegs as (H1 & H2 & H3).
        destruct (is_accepted (status (default_leg job))) eqn:Eacc; [by apply (H2 LegDefaultAccount)|].
        by destruct (H3 eq_refl).
Qed.

Lemma close_again s h : close Again h s = s <| heap := h |>.
Proof using Type.
  unfold close, end_of. by destruct (get_active_job (heap s)), (get_active_job h), s.
Qed.

Lemma step_progress s s' : Inv s -> sys_step s s' -> progress s s'.
Proof using Type.
  intros Hi Hs. destruct Hs.
  - by apply (open_step_progress s now None (Closed r) h).
  - by apply (open_step_progress s now guard (Awaiting c) h).
  - by eapply step_balance.
  - by eapply step_fee.
  - by eapply step_transfer.
  - by eapply step_stale.
  - by apply step_execute.
  - assert (s <| flights := f1 ++ f2 |> = close Again (heap s) (s <| flights := f1 ++ f2 |>)) as ->
      by (rewrite close_again; by destruct s).
    by eapply quiet_answer.
  - rewrite <- (close_again s h). apply quiet_progress; try done. by left.
Qed.

Lemma steps_progress s s' :
  Inv s -> rtc (sys_step) s s' -> Inv s' /\ rtc spec_step (abstraction s) (abstraction s').
Proof using Type.
  intros Hi Hr. induction Hr as [|s s1 s' Hs _ IH]; [done|].
  destruct (step_progress _ _ Hi Hs) as (Hi1 & Habs). destruct (IH Hi1) as [Hi' Hr']. split; [done|].
  destruct Habs as [<-|Hstep]; [done|]. by eapply rtc_l.
Qed.

(** A job that was just stored: no transfer of it yet, and the drivers still in
    flight hold revisions that were handed out. *)
Definition just_stored (ledger : Principal) (s : Sys) : Prop :=
  get_active_job (heap s) = Some (ActiveSplitterJob_new ledger p0) /\
  ledger_pending s = [] /\ ledger_executed s = [] /\ ended s = None /\
  0 <= next_driver_revision (splitter (heap s)) /\
  Forall (fun f => 0 < revision_of f <= next_driver_revision (splitter (heap s))) (flights s) /\
  NoDup (map revision_of (flights s)).

End protocol.

(** ** The protocol of a built plan *)

Section built.
Context `{P : PrincipalSpec}.
Context (relay_id : Principal).
#[local] Existing Instance Principal_eq_dec.

Lemma just_stored_inv number balance fee now p0 ledger s :
  build_splitter_plan number balance fee now = Ok p0 -> just_stored p0 ledger s -> Inv relay_id p0 s.
Proof using Type.
  intros (pct & _ & _ & _ & _ & _ & Hd & Hs & _)%build_splitter_plan_Ok (Ha & Hp & He & Hn & H0 & Hf & Hnd).
  exists (ActiveSplitterJob_new ledger p0). unfold facts, sent. rewrite Hp, He, Hn. split.
  - split; [split; [done|]|split; [by intros a Ha'%elem_of_nil|constructor]].
    intros []; unfold leg_plan, leg_plan_of; cbn; rewrite ?Hd, ?Hs; cbn; repeat split; lia.
  - split; [done|]. split; [|split].
    + unfold fenced. cbn zeta. split; [cbn; lia|]. split; [|done].
      eapply Forall_impl; [exact Hf|]. cbn. lia.
    + split; [|split]; [|by intros []|]; unfold sent; rewrite Hp, He; set_solver.
    + eapply Forall_impl; [exact Hf|]. intros f Hr E. unfold revision_of in Hr. rewrite E in Hr. cbn in Hr. lia.
Qed.

Definition debit (a : TransferArg) : Z := amount a + default 0 (fee a).

Lemma debit_arg p0 job leg :
  job_ok p0 job -> debit (arg relay_id job leg) = lp_gross_share_e8s (leg_plan_of p0 leg).
Proof using Type. intros [_ Hl]. destruct (Hl leg) as (_ & Hg & Ha). unfold debit. cbn. lia. Qed.

(** C6: however drivers interleave, are dropped, lose their lease, time or
    replies, and whenever the ledger executes what was sent, a splitter job
    behaves as its specification: each leg is paid at most once, the default
    account first; the job completes only with both legs paid and is cleared
    only with none; an executed transfer takes its leg's gross share, fee
    included, so that a job never takes more than the balance it was planned
    on. *)
Theorem splitter_refines_spec number balance fee now p0 ledger s0 s :
  0 <= balance -> 0 <= fee ->
  build_splitter_plan number balance fee now = Ok p0 -> just_stored p0 ledger s0 ->
  rtc (sys_step relay_id) s0 s ->
  rtc spec_step (Open false false) (abstraction relay_id s) /\
  (forall a, a ∈ ledger_executed s -> exists leg,
     to a = splitter_destination_account relay_id (leg_destination leg) /\
     debit a = lp_gross_share_e8s (leg_plan_of p0 leg)) /\
  sumZ (map debit (ledger_executed s)) <= balance /\
  (ended s = Some DriveCompleted -> sumZ (map debit (ledger_executed s)) = balance) /\
  (ended s = Some ClearedPreSpend -> ledger_executed s = [] /\ ledger_pending s = []).
Proof using Type.
  intros Hb Hf Hplan H0 Hr. pose proof (just_stored_inv _ _ _ _ _ _ _ Hplan H0) as Hi0.
  destruct (steps_progress relay_id p0 s0 s Hi0 Hr) as [(job & (Hok & Hs & Hnd) & Hj) Habs].
  apply build_splitter_plan_Ok in Hplan as (pct & _ & _ & _ & _ & _ & Hd & Hsub & H1 & H2 & _).
  destruct H0 as (_ & _ & He0 & Hn0 & _).
  assert (abstraction relay_id s0 = Open false false) as E0
    by (unfold abstraction, paid; by rewrite Hn0, He0).
  set (legs := [arg relay_id job LegDefaultAccount; arg relay_id job LegSubaccountOne]).
  assert (sumZ (map debit legs) = balance) as Hsum.
  { cbn [legs map]. rewrite !sumZ_cons, !(debit_arg p0) by done. cbn [leg_plan_of]. rewrite Hd, Hsub. cbn.
    change (sumZ []) with 0. lia. }
  assert (Forall (fun a => 0 <= debit a) legs) as Hpos.
  { repeat constructor; rewrite (debit_arg p0) by done; cbn [leg_plan_of]; rewrite ?Hd, ?Hsub; cbn; lia. }
  assert (forall a, a ∈ ledger_executed s -> exists leg, a = arg relay_id job leg) as Hex
    by (intros a Ha; apply Hs; unfold sent; set_solver).
  assert (ledger_executed s ⊆+ legs) as Hincl.
  { apply NoDup_submseteq; [done|]. intros a Ha. destruct (Hex a Ha) as [[] ->]; set_solver. }
  rewrite <- E0. split; [done|]. split; [|split; [|split]].
  - intros a Ha. destruct (Hex a Ha) as [leg ->]. exists leg. by rewrite (arg_to relay_id p0), (debit_arg p0).
  - rewrite <- Hsum. by apply sumZ_submseteq.
  - intros E. rewrite E in Hj. destruct Hj as [_ Hall]. rewrite <- Hsum.
    apply Z.le_antisymm; apply sumZ_submseteq; try done.
    + apply Forall_forall. intros a Ha. destruct (Hex a Ha) as [leg ->]. rewrite Forall_forall in Hpos.
      apply Hpos. destruct leg; set_solver.
    + apply NoDup_submseteq; [|unfold legs; set_solver]. repeat constructor; [|set_solver].
      intros Heq%list_elem_of_singleton. by apply (arg_inj relay_id p0) in Heq.
  - intros E. rewrite E in Hj. destruct Hj as [_ Hall]. unfold sent in Hall. by apply app_eq_nil in Hall as [-> ->].
Qed.

End built.

(** ** Concrete runs *)

Section witnesses.
Import Concrete ConcreteRelay.
Local Abbreviation PS := concrete_principal.

Inductive Event := Opens (now : Z) | Executes | Answers (block : Z) | Drops.

(** The first driver and the first transfer of a system. *)
Definition simulate (self : Principal (PrincipalSpec:=PS)) (s : Sys) (e : Event) : option Sys :=
  match e with
  | Opens now =>
      match before_await now (heap s) with
      | Some (Closed r, h) => Some (close r h s)
      | Some (Awaiting c, h) => Some (launch self c None now h s)
      | None => None
      end
  | Executes =>
      match ledger_pending s with
      | a :: rest =>
          if bool_decide (a ∈ ledger_executed s) then None
          else Some (s <| ledger_pending := [] ++ rest |> <| ledger_executed ::= cons a |>)
      | [] => None
      end
  | Answers block =>
      match flights s with
      | MkFlight (AwaitTransfer job leg prior) guard now :: rest =>
          if bool_decide (get_active_job (heap s) = Some job)
             && bool_decide (splitter_transfer_arg self job leg ∈ ledger_executed s)
          then let '(r, h) := after_transfer now guard job leg prior (OutcomeAccepted block) (heap s) in
               Some (close r h (s <| flights := [] ++ rest |>))
          else None
      | _ => None
      end
  | Drops =>
      match flights s with _ :: rest => Some (s <| flights := [] ++ rest |>) | [] => None end
  end.

Fixpoint run (self : Principal (PrincipalSpec:=PS)) (s : Sys) (es : list Event) : option Sys :=
  match es with
  | [] => Some s
  | e :: es => match simulate self s e with Some s => run self s es | None => None end
  end.

Lemma simulate_step self s e s' : simulate self s e = Some s' -> sys_step self s s'.
Proof.
  destruct e as [now| |block|]; cbn [simulate].
  - destruct (before_await now (heap s)) as [[[r|c] h]|] eqn:E; intros [= <-].
    + by eapply StepClosed.
    + by eapply StepLaunch.
  - destruct (ledger_pending s) as [|a rest] eqn:E; [done|].
    case_bool_decide; [done|]. intros [= <-]. by apply (StepExecute self s a [] rest).
  - destruct (flights s) as [|[[| |job leg prior] guard now] rest] eqn:E; try done.
    case_bool_decide; [|done]. case_bool_decide; [|done]. cbn [andb].
    destruct (after_transfer _ _ _ _ _ _ _) as [r h] eqn:Ea. intros [= <-].
    by eapply (StepTransfer self s s [] rest); [..|constructor|].
  - destruct (flights s) as [|f rest] eqn:E; [done|]. intros [= <-]. by apply (StepDrop self s [] f).
Qed.

Lemma run_steps self es s s' : run self s es = Some s' -> rtc (sys_step self) s s'.
Proof.
  revert s. induction es as [|e es IH]; intros s; cbn; [by intros [= <-]|].
  destruct (simulate self s e) as [s1|] eqn:E; [|done]. intros H.
  eapply rtc_l; [by eapply simulate_step|by apply IH].
Qed.

Definition sys0 : Sys (P:=PS) :=
  MkSys heap0 [] [] [] None.

(** The default leg is sent and paid; the second leg is sent, its driver is
    dropped before the reply and the transfer executes; a second driver sends
    the same transfer and gets its block as a duplicate. *)
Definition events0 : list Event :=
  [Opens 1000; Executes; Answers 1; Opens 2000; Drops; Executes; Opens 3000; Answers 2; Opens 3000].

Definition sys1 : Sys (P:=PS) := default sys0 (run 9 sys0 events0).

Lemma sys0_just_stored : just_stored plan0 (5 : Principal (PrincipalSpec:=PS)) sys0.
Proof.
  split; [done|]. split; [done|]. split; [done|]. split; [done|]. split; [by vm_compute|].
  split; constructor.
Qed.

Lemma sys1_reached : rtc (sys_step 9) sys0 sys1.
Proof. apply (run_steps 9 events0). by vm_compute. Qed.

Lemma plan0_built : build_splitter_plan 20 500000000 10000 1000 = Ok plan0.
Proof. by vm_compute. Qed.

Lemma splitter_refines_spec_witness :
  abstraction 9 sys1 = Completed /\ rtc spec_step (Open false false) (abstraction 9 sys1) /\
  map amount (ledger_executed sys1) = [399990000; 99990000].
Proof.
  split; [by vm_compute|]. split; [|by vm_compute].
  exact (proj1 (splitter_refines_spec 9 20 500000000 10000 1000 plan0 5 sys0 sys1
    ltac:(lia) ltac:(lia) plan0_built sys0_just_stored sys1_reached)).
Defined.
End witnesses.
