(* ===== verification/RewardBudget.v ===== *)
(** * Relay rewards: the work budget ([scheduler/reward_budget.rs])

    One allowance of calls, retained records and bytes, and work units is shared
    by all parts of a reward attempt; it is valid until a deadline and while the
    main lease is stored.  Code without an [await] charges it in the monad
    [metered], in which the validity is a constant (neither the clock nor the
    lease changes within a message); code with calls runs in the monad [attempt].
    Both stop at the first error, as [?] does in the source. *)

From S2P Require Import Prelude BTree Async Ic Clients CyclesProbe TimerGuard RelayState RelayLogic RelaySplitter.

Definition MAX_CALLS : Z := 64.
Definition MAX_RECORDS : Z := 16384.
Definition MAX_HISTORY_BYTES : Z := 8 * 1024 * 1024.
Definition MAX_WORK : Z := 2000000.
Definition ATTEMPT_SECONDS : Z := 120.
Definition EXHAUSTED : string := "reward_work_budget_exhausted".
Definition EXPIRED : string := "reward_attempt_expired_or_stale".

Record Usage := MkUsage { calls : Z; records : Z; bytes : Z; work_units : Z }.
Definition Usage_default : Usage := MkUsage 0 0 0 0.

(** The shared counters are passed along; the rest of a budget is constant. *)
Record WorkBudget := MkBudget { budget_lease : MainLeaseToken; deadline_nanos : Z }.
Definition budget_new (now_nanos : Z) (lease : MainLeaseToken) : WorkBudget :=
  MkBudget lease (sat_add now_nanos (ATTEMPT_SECONDS * 1000000000)).

(** [charge] after [check]; the counters are 32-bit [usize]. *)
Definition charge (live : bool) (c r b w : Z) (u : Usage) : result unit string * Usage :=
  if negb live then (Err EXPIRED, u)
  else
    let next := MkUsage (sat_add32 (calls u) c) (sat_add32 (records u) r)
                        (sat_add32 (bytes u) b) (sat_add32 (work_units u) w) in
    if (MAX_CALLS <? calls next) || (MAX_RECORDS <? records next)
       || (MAX_HISTORY_BYTES <? bytes next) || (MAX_WORK <? work_units next)
    then (Err EXHAUSTED, u) else (Ok tt, next).

(** ** Code without calls *)

Definition metered (A : Type) : Type := bool -> Usage -> result A string * Usage.
#[export] Instance metered_ret : MRet metered := fun A a _ u => (Ok a, u).
#[export] Instance metered_bind : MBind metered := fun A B f m live u =>
  match m live u with
  | (Ok a, u') => f a live u'
  | (Err e, u') => (Err e, u')
  end.
Definition fail {A} (e : string) : metered A := fun _ u => (Err e, u).
Definition work (units : Z) : metered unit := fun live => charge live 0 0 0 units.
Definition retain (rs bs : Z) : metered unit := fun live => charge live 0 rs bs rs.
Definition checked {A} (o : option A) (e : string) : metered A :=
  match o with Some a => mret a | None => fail e end.

(** [match m { Ok(a) => k(a), Err(e) => on_error(e) }] *)
Definition handle {A B} (m : metered A) (on_error : string -> metered B) (k : A -> metered B) : metered B :=
  fun live u =>
    match m live u with
    | (Ok a, u') => k a live u'
    | (Err e, u') => on_error e live u'
    end.

(** A loop over a list with an accumulator. *)
Fixpoint fold_metered {A S} (f : A -> S -> metered S) (l : list A) (s : S) : metered S :=
  match l with
  | [] => mret s
  | a :: l' => s' ← f a s; fold_metered f l' s'
  end.

(** ** Code with calls *)

Section attempt.
Context `{P : PrincipalSpec}.
Local Abbreviation async := (async Heap SuiteCall).

Definition check_at (b : WorkBudget) (now_nanos : Z) (h : Heap) : bool :=
  negb ((deadline_nanos b <=? now_nanos) || negb (lease_is_current (budget_lease b) (st h))).

Definition attempt (A : Type) : Type := WorkBudget -> Usage -> async (result A string * Usage).
#[export] Instance attempt_ret : MRet attempt := fun A a _ u => mret (Ok a, u).
#[export] Instance attempt_bind : MBind attempt := fun A B f m b u =>
  r ← m b u;
  match r with
  | (Ok a, u') => f a b u'
  | (Err e, u') => mret (Err e, u')
  end.

Definition throw {A} (e : string) : attempt A := fun _ u => mret (Err e, u).
Definition lift {A} (m : async A) : attempt A := fun _ u => a ← m; mret (Ok a, u).
(** Validity at this point of the run. *)
Definition check (b : WorkBudget) : async bool := t ← now; with_state (check_at b t).
Definition meter {A} (m : metered A) : attempt A := fun b u =>
  live ← check b;
  mret (m live u).
(** [budget.call]: the attempted call is charged, and the reply is used only if
    the attempt is still valid. *)
Definition call {A} (m : async A) : attempt A := fun b u =>
  live ← check b;
  match charge live 1 0 0 0 u with
  | (Err e, u') => mret (Err e, u')
  | (Ok _, u') =>
      a ← m;
      live ← check b;
      mret (if live : bool then Ok a else Err EXPIRED, u')
  end.
(** [budget.call(..).await?.map_err(|_| e)?] *)
Definition call_or {A} (m : async (result A ClientError)) (e : string) : attempt A :=
  r ← call m;
  match r with Ok a => mret a | Err _ => throw e end.

End attempt.

(** ** The allowance is never exceeded *)

Definition usage_ok (u : Usage) : Prop :=
  0 <= calls u <= MAX_CALLS /\ 0 <= records u <= MAX_RECORDS /\
  0 <= bytes u <= MAX_HISTORY_BYTES /\ 0 <= work_units u <= MAX_WORK.
(** Nothing that was spent is given back. *)
Definition usage_le (u u' : Usage) : Prop :=
  calls u <= calls u' /\ records u <= records u' /\ bytes u <= bytes u' /\ work_units u <= work_units u'.

Lemma usage_default_ok : usage_ok Usage_default.
Proof. unfold usage_ok, MAX_CALLS, MAX_RECORDS, MAX_HISTORY_BYTES, MAX_WORK. cbn. lia. Qed.

#[export] Instance usage_le_preorder : PreOrder usage_le.
Proof. split; unfold usage_le; repeat intro; lia. Qed.

Lemma charge_ok live c r b w u res u' :
  0 <= c -> 0 <= r -> 0 <= b -> 0 <= w -> usage_ok u -> charge live c r b w u = (res, u') ->
  usage_ok u' /\ usage_le u u' /\
  match res with
  | Ok _ => live = true /\ calls u' = calls u + c /\ work_units u' = work_units u + w
  | Err _ => u' = u
  end.
Proof.
  intros Hc Hr Hb Hw Hu. unfold charge. destruct live; cbn [negb]; [|by intros [= <- <-]].
  destruct (_ || _) eqn:E; intros [= <- <-]; [done|].
  rewrite !orb_false_iff in E. destruct E as [[[E1 E2] E3] E4]. zify_bool. cbn [calls records bytes work_units] in *.
  unfold usage_ok, usage_le, sat_add32, MAX_CALLS, MAX_RECORDS, MAX_HISTORY_BYTES, MAX_WORK in *.
  cbn [calls records bytes work_units]. lia.
Qed.

(** A computation of [metered] that only spends. *)
Definition spends {A} (m : metered A) : Prop :=
  forall live u, usage_ok u -> usage_ok (m live u).2 /\ usage_le u (m live u).2.

Lemma spends_ret {A} (a : A) : spends (mret a).
Proof. by intros live u Hu. Qed.
Lemma spends_fail {A} e : spends (@fail A e).
Proof. by intros live u Hu. Qed.
Lemma spends_bind {A B} (m : metered A) (f : A -> metered B) :
  spends m -> (forall a, spends (f a)) -> spends (m ≫= f).
Proof.
  intros Hm Hf live u Hu. unfold mbind, metered_bind. destruct (Hm live u Hu) as [H1 H2].
  destruct (m live u) as [[a|e] u']; [|done]. cbn in *.
  destruct (Hf a live u' H1) as [H3 H4]. split; [done|]. by etrans.
Qed.
Lemma spends_handle {A B} (m : metered A) (g : string -> metered B) (k : A -> metered B) :
  spends m -> (forall e, spends (g e)) -> (forall a, spends (k a)) -> spends (handle m g k).
Proof.
  intros Hm Hg Hk live u Hu. unfold handle. destruct (Hm live u Hu) as [H1 H2].
  destruct (m live u) as [[a|e] u']; cbn in *;
    [destruct (Hk a live u' H1)|destruct (Hg e live u' H1)]; (split; [done|by etrans]).
Qed.
Lemma spends_work n : 0 <= n -> spends (work n).
Proof.
  intros Hn live u Hu. unfold work. destruct (charge _ _ _ _ _ _) as [r u'] eqn:E.
  apply charge_ok in E; [|done..]. tauto.
Qed.
Lemma spends_retain r b : 0 <= r -> 0 <= b -> spends (retain r b).
Proof.
  intros Hr Hb live u Hu. unfold retain. destruct (charge _ _ _ _ _ _) as [x u'] eqn:E.
  apply charge_ok in E; [|done..]. tauto.
Qed.
Lemma spends_checked {A} (o : option A) e : spends (checked o e).
Proof. destruct o; [apply spends_ret|apply spends_fail]. Qed.
Lemma spends_fold {A S} (f : A -> S -> metered S) l s :
  (forall a s, spends (f a s)) -> spends (fold_metered f l s).
Proof.
  intros Hf. revert s. induction l as [|a l IH]; intros s; [apply spends_ret|]. cbn.
  by apply spends_bind.
Qed.
#[export] Hint Resolve spends_ret spends_fail spends_bind spends_handle spends_work spends_retain spends_checked
  spends_fold : jupiter.

(** One step of a proof that a computation only spends. *)
Ltac spends_step :=
  lazymatch goal with
  | |- spends (mret _) => apply spends_ret
  | |- spends (fail _) => apply spends_fail
  | |- spends (checked _ _) => apply spends_checked
  | |- spends (work _) => apply spends_work
  | |- spends (handle _ _ _) => apply spends_handle; [|intros|intros]
  | |- spends (fold_metered _ _ _) => apply spends_fold; intros
  | |- spends (_ ≫= _) => apply spends_bind; [|intros]
  | |- spends (if ?b then _ else _) => destruct b
  | |- spends (match ?x with _ => _ end) => destruct x
  end.

(** The result of a computation that succeeds. *)
Lemma metered_bind_ok {A B} (m : metered A) (f : A -> metered B) live u b u' :
  (m ≫= f) live u = (Ok b, u') ->
  exists a u1, m live u = (Ok a, u1) /\ f a live u1 = (Ok b, u').
Proof.
  unfold mbind, metered_bind. destruct (m live u) as [[a|e] u1]; [eauto|done].
Qed.

(** The runs of an attempt that succeeds. *)
Section inversion.
Context `{P : PrincipalSpec}.
Implicit Types w : world Heap SuiteCall.

Lemma attempt_bind_ok {A B} (m : attempt A) (f : A -> attempt B) b u e w y u' w' :
  (m ≫= f) b u e w = (Returned (Ok y, u'), w') ->
  exists x u1 w1, m b u e w = (Returned (Ok x, u1), w1) /\ f x b u1 e w1 = (Returned (Ok y, u'), w').
Proof.
  unfold mbind at 1, attempt_bind, mbind, async_bind.
  destruct (m b u e w) as [[[[x|err] u1]| |] w1]; try done. eauto.
Qed.

Lemma meter_ok {A} (m : metered A) b u e w a u' w' :
  meter m b u e w = (Returned (Ok a, u'), w') -> w' = w /\ exists live, m live u = (Ok a, u').
Proof. unfold meter. cbn. intros [= Hm <-]. split; [done|]. eauto. Qed.

End inversion.

Section rules.
Context `{P : PrincipalSpec} (e : env Heap SuiteCall) (b : WorkBudget).
Implicit Types w : world Heap SuiteCall.

(** [awp m u Q w]: the attempt [m] returns, and [Q] holds of the outcome. *)
Definition awp {X} (m : attempt X) (u : Usage) (Q : result X string -> Usage -> world Heap SuiteCall -> Prop)
    (w : world Heap SuiteCall) : Prop :=
  wp e (m b u) (fun r w' => Q r.1 r.2 w') w.

Lemma awp_ret {X} (x : X) u Q w : Q (Ok x) u w -> awp (mret x) u Q w.
Proof. done. Qed.

Lemma awp_throw {X} err u (Q : result X string -> _) w : Q (Err err) u w -> awp (throw err) u Q w.
Proof. done. Qed.

Lemma awp_bind {X Y} (m : attempt X) (f : X -> attempt Y) u Q w :
  awp m u (fun r u' w' => match r with Ok x => awp (f x) u' Q w' | Err err => Q (Err err) u' w' end) w ->
  awp (m ≫= f) u Q w.
Proof.
  unfold awp. intros H. unfold mbind at 1, attempt_bind. apply wp_bind. eapply wp_mono; [exact H|].
  intros [[x|err] u'] w'; cbn; [done|]. intros HQ. by apply wp_ret.
Qed.

Lemma awp_lift {X} (m : async Heap SuiteCall X) u Q w :
  wp e m (fun x w' => Q (Ok x) u w') w -> awp (lift m) u Q w.
Proof. intros H. apply wp_bind. eapply wp_mono; [exact H|]. intros x w' HQ. by apply wp_ret. Qed.

Lemma wp_check Q w :
  (forall live, live = check_at b (env_clock e (length (w_trace w))) (w_state w) -> Q live w) ->
  wp e (check b) Q w.
Proof. intros H. by apply H. Qed.

Lemma awp_meter {X} (m : metered X) u Q w :
  (forall live, Q (m live u).1 (m live u).2 w) -> awp (meter m) u Q w.
Proof. intros H. apply wp_bind, wp_check. intros live _. apply wp_ret, H. Qed.

(** A call: it is refused, or charged and dispatched. *)
Lemma awp_call {X} (m : async Heap SuiteCall X) u Q w :
  usage_ok u ->
  (forall err, Q (Err err) u w) ->
  (forall u', usage_ok u' -> usage_le u u' -> calls u' = calls u + 1 ->
     lease_is_current (budget_lease b) (st (w_state w)) = true ->
     wp e m (fun x w' => forall r,
       (r = Err EXPIRED \/ r = Ok x /\ lease_is_current (budget_lease b) (st (w_state w')) = true) ->
       Q r u' w') w) ->
  awp (call m) u Q w.
Proof.
  intros Hu Hno Hyes. apply wp_bind, wp_check. intros live Hlive.
  destruct (charge live 1 0 0 0 u) as [r u'] eqn:E. apply charge_ok in E; try lia; [|done].
  destruct E as (Hu' & Hle & E), r as [[]|err]; [|subst; apply wp_ret, Hno].
  destruct E as (-> & Hcalls & _). apply wp_bind.
  symmetry in Hlive. unfold check_at in Hlive. apply negb_true_iff, orb_false_iff in Hlive as [_ Hl].
  apply negb_false_iff in Hl.
  eapply wp_mono; [by apply Hyes|]. intros x w' HQ. apply wp_bind, wp_check. intros live' Hlive'.
  apply wp_ret. cbn. destruct live'; apply HQ; [|by left]. right. split; [done|].
  symmetry in Hlive'. unfold check_at in Hlive'. apply negb_true_iff, orb_false_iff in Hlive' as [_ Hl'].
  by apply negb_false_iff in Hl'.
Qed.

Lemma awp_mono {X} (m : attempt X) u (Q Q' : result X string -> Usage -> world Heap SuiteCall -> Prop) w :
  awp m u Q w -> (forall r u' w', Q r u' w' -> Q' r u' w') -> awp m u Q' w.
Proof. intros H HQ. eapply wp_mono; [exact H|]. intros [r u'] w'. apply HQ. Qed.

End rules.

(** ** Attempts that keep an invariant

    [attempts u m R]: from a usage within the allowance the attempt returns, keeps
    the invariant of the heap at every commit point, dispatches no more calls than
    it is charged for, and a success satisfies [R]. *)

Section attempts.
Context `{P : PrincipalSpec} (e : env Heap SuiteCall).
Context (Inv : Heap -> Prop) (ev_ok : event Heap SuiteCall -> Prop).
Hypothesis rely_inv : forall n h, Inv h -> Inv (env_interleave e n h).
Implicit Types w : world Heap SuiteCall.

Record run_ok (u : Usage) (w : world Heap SuiteCall) (u' : Usage) (w' : world Heap SuiteCall) : Prop := {
  run_usage : usage_ok u';
  run_spent : usage_le u u';
  run_calls : Z.of_nat (length (w_trace w')) - Z.of_nat (length (w_trace w)) <= calls u' - calls u;
  run_inv : Inv (w_state w');
  run_events : traced ev_ok (w_trace w) w';
}.

Lemma run_ok_refl u w : usage_ok u -> Inv (w_state w) -> run_ok u w u w.
Proof using Type. intros Hu Hi. constructor; try done; [lia|apply traced_refl]. Qed.

Lemma run_ok_trans u1 w1 u2 w2 u3 w3 : run_ok u1 w1 u2 w2 -> run_ok u2 w2 u3 w3 -> run_ok u1 w1 u3 w3.
Proof using Type.
  intros [A1 B1 C1 D1 E1] [A2 B2 C2 D2 E2]. constructor; try done; [by etrans|lia|by eapply traced_trans].
Qed.

Definition attempts {X} (u : Usage) (m : attempt X) (R : X -> Usage -> Prop) : Prop :=
  forall b w, usage_ok u -> Inv (w_state w) ->
  awp e b m u (fun r u' w' => run_ok u w u' w' /\ forall x, r = Ok x -> R x u') w.

Lemma attempts_mono {X} u (m : attempt X) (R R' : X -> Usage -> Prop) :
  attempts u m R -> (forall x u', R x u' -> R' x u') -> attempts u m R'.
Proof using Type.
  intros Hm HR b w Hu Hi. eapply awp_mono; [by apply Hm|]. intros r u' w' [Hr Hx]. split; [done|].
  intros x ->. by apply HR, Hx.
Qed.

Lemma attempts_ret {X} u (x : X) (R : X -> Usage -> Prop) : R x u -> attempts u (mret x) R.
Proof using Type.
  intros HR b w Hu Hi. apply awp_ret. split; [by apply run_ok_refl|]. by intros ? [= <-].
Qed.

Lemma attempts_throw {X} u err (R : X -> Usage -> Prop) : attempts u (throw err) R.
Proof using Type. intros b w Hu Hi. apply awp_throw. split; [by apply run_ok_refl|done]. Qed.

Lemma attempts_bind {X Y} u (m : attempt X) (f : X -> attempt Y) R R' :
  attempts u m R -> (forall x u', usage_ok u' -> usage_le u u' -> R x u' -> attempts u' (f x) R') ->
  attempts u (m ≫= f) R'.
Proof using Type.
  intros Hm Hf b w Hu Hi. apply awp_bind. eapply awp_mono; [by apply Hm|].
  intros [x|err] u' w' [Hr Hx]; [|by split].
  pose proof Hr as [A1 B1 C1 D1 E1]. specialize (Hx _ eq_refl).
  eapply awp_mono; [by apply (Hf x u' A1 B1 Hx)|]. intros r u2 w2 [Hr2 Hx2]. split; [|done].
  by eapply run_ok_trans.
Qed.

Lemma attempts_meter {X} u (m : metered X) (R : X -> Usage -> Prop) :
  spends m -> (forall live x u', m live u = (Ok x, u') -> R x u') -> attempts u (meter m) R.
Proof using Type.
  intros Hs HR b w Hu Hi. apply awp_meter. intros live. destruct (Hs live u Hu) as [H1 H2].
  destruct (m live u) as [r u'] eqn:E. cbn in *. split.
  - constructor; try done; [|apply traced_refl]. destruct H2. lia.
  - intros x ->. by eapply HR.
Qed.

(** A call of one client function: at most one dispatch. *)
Definition one_call {X} (m : async Heap SuiteCall X) (RX : X -> Prop) : Prop :=
  forall w, Inv (w_state w) ->
  wp e m (fun x w' => Z.of_nat (length (w_trace w')) <= Z.of_nat (length (w_trace w)) + 1 /\
                      Inv (w_state w') /\ traced ev_ok (w_trace w) w' /\ RX x) w.

Lemma attempts_call {X} u (m : async Heap SuiteCall X) RX :
  one_call m RX -> attempts u (call m) (fun x u' => RX x /\ calls u' = calls u + 1).
Proof using Type.
  intros Hm b w Hu Hi. apply awp_call; [done| |].
  - intros err. split; [by apply run_ok_refl|done].
  - intros u' Hu' Hle Hc _. eapply wp_mono; [by apply Hm|]. intros x w' (Hl & Hi' & Ht & HR) r Hr. split.
    + constructor; try done. lia.
    + intros y ->. destruct Hr as [?|[[= ->] _]]; [done|by split].
Qed.

Lemma attempts_call_or {X} u (m : async Heap SuiteCall (result X ClientError)) err (RX : X -> Prop) :
  one_call m (fun r => forall x, r = Ok x -> RX x) ->
  attempts u (call_or m err) (fun x u' => RX x /\ calls u' = calls u + 1).
Proof using Type.
  intros Hm. eapply attempts_bind; [by apply attempts_call|].
  intros [x|ce] u' Hu' Hle [HR Hc]; [|apply attempts_throw]. apply attempts_ret. split; [by apply HR|done].
Qed.

(** A single dispatch. *)
Lemma one_call_await {X} (c : SuiteCall X) :
  (forall h, ev_ok (Dispatch c h)) -> one_call (await c) (fun r => exists n, r = env_reply e n X c).
Proof using rely_inv.
  intros Hev [s0 t0] Hi. apply wp_await. intros a s -> ->. split; [cbn; lia|]. split; [by apply rely_inv|].
  split; [by apply (traced_cons _ _ _ s0); [|apply traced_refl]|]. by eexists.
Qed.

Lemma one_call_map {X Y} (m : async Heap SuiteCall X) (f : X -> Y) RX (RY : Y -> Prop) :
  one_call m RX -> (forall x, RX x -> RY (f x)) -> one_call (x ← m; mret (f x)) RY.
Proof using Type.
  intros Hm HR w Hi. apply wp_bind. eapply wp_mono; [by apply Hm|]. intros x w' (Hl & Hi' & Ht & Hx).
  apply wp_ret. eauto.
Qed.

End attempts.
