(* ===== verification/RewardHistory.v ===== *)
(** * Relay rewards: backward account histories ([scheduler/reward_history.rs])

    One backward read of an account's history through the ICP index.  Every page
    is checked and its transactions are inverted, so the balance before the
    oldest collected transaction is known; a prefix of the collected (newest
    first) transactions whose opening balance is zero is authoritative. *)

From stdpp Require Import sorting.
From S2P Require Import Prelude BTree Async Ic Clients CyclesProbe TimerGuard RelayState RelayLogic RelaySplitter RewardBudget.

Definition ICP_HISTORY_PAGE_SIZE : Z := 1000.

(** [candid::encode_one]: the bytes of a value, or its error; [hex::decode]; the
    names that [icrc_ledger_types] gives to the kinds of transactions. *)
Class CandidSpec `{PrincipalSpec} := {
  TRANSACTION_MINT : string;
  TRANSACTION_TRANSFER : string;
  TRANSACTION_AUTHORIZED_MINT : string;
  encode_index_page : IndexPage -> option (list Z);
  encode_icrc_page : GetAccountTransactionsResponse -> option (list Z);
  hex_decode : list Z -> option (list Z);
}.

Inductive HistoricalReconstruction (A : Type) :=
| Complete (a : A) | NeedOlderHistory | Malformed (error : string).
Arguments Complete {A} a.
Arguments NeedOlderHistory {A}.
Arguments Malformed {A} error.

(** The errors of a reconstruction are its [Malformed] results. *)
Definition reconstruction {A} (m : metered (HistoricalReconstruction A)) :
    metered (HistoricalReconstruction A) := fun live u =>
  match m live u with
  | (Ok r, u') => (Ok r, u')
  | (Err e, u') => (Ok (Malformed e), u')
  end.

(** The budget is passed to [extend] instead of being stored. *)
Record BackwardHistory := MkBackward {
  account_identifier : list Z;
  next_start : option Z;
  seen_starts : btree_set Z;
  collected : list IndexTransactionWithId;
  previous_tx_id : option Z;
  current_balance_e8s : option Z;
  balance_before_oldest_e8s : option Z;
  authoritative_len : nat;
  exhausted : bool;
}.

Definition backward_history (account : list Z) : BackwardHistory :=
  MkBackward account None [] [] None None None 0 false.

Definition authoritative_transactions (h : BackwardHistory) : list IndexTransactionWithId :=
  take (authoritative_len h) (collected h).
Definition authoritative (h : BackwardHistory) : bool :=
  negb (Nat.eqb (authoritative_len h) 0) || (exhausted h && Nat.eqb (length (collected h)) 0).

Definition add_e8s (balance_after value : Z) : result Z string :=
  match checked_add balance_after value with
  | Some b => Ok b | None => Err "history_balance_overflow"%string end.
Definition subtract_e8s (balance_after value : Z) : result Z string :=
  match checked_sub balance_after value with
  | Some b => Ok b | None => Err "history_balance_underflow"%string end.

Definition invert_account_transaction (account : list Z) (balance_after : Z)
    (entry : IndexTransactionWithId) : result Z string :=
  match tx_operation (transaction entry) with
  | IndexTransfer from to amount fee _ =>
      match bool_decide (from = account), bool_decide (to = account) with
      | true, true => add_e8s balance_after fee
      | true, false =>
          match checked_add amount fee with
          | Some gross => add_e8s balance_after gross
          | None => Err "history_balance_overflow"%string
          end
      | false, true => subtract_e8s balance_after amount
      | false, false => Ok balance_after
      end
  | IndexMint to amount =>
      if bool_decide (to = account) then subtract_e8s balance_after amount else Ok balance_after
  | IndexBurn from amount _ =>
      if bool_decide (from = account) then add_e8s balance_after amount else Ok balance_after
  | IndexApprove from _ _ fee _ _ =>
      if bool_decide (from = account) then add_e8s balance_after fee else Ok balance_after
  end.

Definition require_zero_opening_balance (h : BackwardHistory) : metered unit :=
  if bool_decide (balance_before_oldest_e8s h = Some 0) then mret tt
  else fail "history_nonzero_opening_balance".

Definition exhaust (h : BackwardHistory) : BackwardHistory :=
  h <| exhausted := true |> <| authoritative_len := length (collected h) |>.

(** One transaction of a page.  The second error is the panic of an [expect]:
    the balance is known once a page is replayed. *)
Definition replay_transaction (requested_start : option Z) (tx : IndexTransactionWithId)
    (h : BackwardHistory) : metered BackwardHistory :=
  work 1;;
  if is_some_and requested_start (fun start => start <=? tx_id tx)
     || is_some_and (previous_tx_id h) (fun previous => previous <=? tx_id tx)
  then fail "history_pagination_non_progressing"
  else
    match balance_before_oldest_e8s h with
    | None => fail "balance initialized before page replay"
    | Some balance_after =>
        match invert_account_transaction (account_identifier h) balance_after tx with
        | Err e => fail e
        | Ok balance_before =>
            let h := h <| previous_tx_id := Some (tx_id tx) |>
                       <| balance_before_oldest_e8s := Some balance_before |>
                       <| collected ::= (fun l => l ++ [tx]) |> in
            mret (if balance_before =? 0 then h <| authoritative_len := length (collected h) |> else h)
        end
    end.

(** The balance that every page must report. *)
Definition note_balance (balance : Z) (h : BackwardHistory) : metered BackwardHistory :=
  match current_balance_e8s h with
  | Some b => if b =? balance then mret h else fail "history_balance_changed_during_pagination"
  | None => mret (h <| current_balance_e8s := Some balance |>
                    <| balance_before_oldest_e8s := Some balance |>)
  end.

(** After the page's transactions. *)
Definition finish_page (requested_start oldest : option Z) (oldest_in_page : Z) (h : BackwardHistory) :
    metered BackwardHistory :=
  if is_some_and oldest (fun o => oldest_in_page <? o) then fail "history_pagination_inconsistent_oldest"
  else if bool_decide (oldest = Some oldest_in_page) then
    require_zero_opening_balance h;; mret (exhaust h)
  else if bool_decide (requested_start = Some oldest_in_page)
          || set_contains oldest_in_page (seen_starts h)
  then fail "history_pagination_non_progressing"
  else mret (h <| seen_starts ::= set_insert oldest_in_page |> <| next_start := Some oldest_in_page |>).

Section history.
Context `{P : PrincipalSpec} `{T : TextSpec} `{C : !CandidSpec}.

Definition absorb_page (page : IndexPage) (h : BackwardHistory) : metered BackwardHistory :=
  let requested_start := next_start h in
  let txs := transactions page in
  if ICP_HISTORY_PAGE_SIZE <? Z.of_nat (length txs) then fail "history_oversized_page"
  else
    match encode_index_page page with
    | None => fail "history_encoding_failed"
    | Some encoded =>
        retain (Z.of_nat (length txs)) (Z.of_nat (length encoded));;
        h ← note_balance (page_balance page) h;
        match last txs with
        | None => require_zero_opening_balance h;; mret (exhaust h)
        | Some oldest =>
            h ← fold_metered (replay_transaction requested_start) txs h;
            finish_page requested_start (oldest_tx_id page) (tx_id oldest) h
        end
    end.

Definition extend (index : Principal) (h : BackwardHistory) : attempt BackwardHistory :=
  if exhausted h then mret h
  else
    page ← call_or (get_account_identifier_transactions index (account_identifier h) (next_start h)
                      ICP_HISTORY_PAGE_SIZE) "history_read_failed";
    meter (absorb_page page h).

End history.

(** ** The collected history replays forward *)

(** What a transaction does to the balance of an account. *)
Definition account_delta (account : list Z) (entry : IndexTransactionWithId) : Z :=
  match tx_operation (transaction entry) with
  | IndexTransfer from to amount fee _ =>
      (if bool_decide (to = account) then amount else 0)
      - (if bool_decide (from = account) then amount + fee else 0)
  | IndexMint to amount => if bool_decide (to = account) then amount else 0
  | IndexBurn from amount _ => if bool_decide (from = account) then - amount else 0
  | IndexApprove from _ _ fee _ _ => if bool_decide (from = account) then - fee else 0
  end.
Definition deltas (account : list Z) (txs : list IndexTransactionWithId) : Z :=
  sumZ (map (account_delta account) txs).

Lemma invert_delta account after entry before :
  invert_account_transaction account after entry = Ok before ->
  after = before + account_delta account entry.
Proof.
  unfold invert_account_transaction, account_delta, add_e8s, subtract_e8s.
  destruct (tx_operation _); repeat case_bool_decide; repeat case_match; intros [=]; subst;
    rewrite ?checked_add_Some, ?checked_sub_Some in *; lia.
Qed.

(** What is known of a history at any time of its read. *)
Record history_ok (h : BackwardHistory) : Prop := {
  ok_descending : StronglySorted (fun a b => tx_id b < tx_id a) (collected h);
  ok_previous : previous_tx_id h = tx_id <$> last (collected h);
  ok_balance : match current_balance_e8s h with
    | None => collected h = [] /\ balance_before_oldest_e8s h = None /\ exhausted h = false
    | Some reported => exists opening, balance_before_oldest_e8s h = Some opening /\
        opening + deltas (account_identifier h) (collected h) = reported
    end;
  ok_authoritative : (authoritative_len h <= length (collected h))%nat /\
    (authoritative_len h <> 0%nat -> exists reported, current_balance_e8s h = Some reported /\
       deltas (account_identifier h) (authoritative_transactions h) = reported);
  ok_exhausted : exhausted h = true ->
    balance_before_oldest_e8s h = Some 0 /\ authoritative_len h = length (collected h);
}.

(** [h'] continues the read of [h]. *)
Definition continues (h h' : BackwardHistory) : Prop :=
  account_identifier h' = account_identifier h /\ (exists more, collected h' = collected h ++ more) /\
  (forall b, current_balance_e8s h = Some b -> current_balance_e8s h' = Some b).

#[export] Instance continues_preorder : PreOrder continues.
Proof.
  split.
  - intros h. split; [done|]. split; [|done]. exists []. by rewrite app_nil_r.
  - intros h1 h2 h3 (A1 & [l1 L1] & B1) (A2 & [l2 L2] & B2). split; [congruence|]. split; [|auto].
    exists (l1 ++ l2). by rewrite L2, L1, app_assoc.
Qed.

Lemma deltas_snoc account txs tx : deltas account (txs ++ [tx]) = deltas account txs + account_delta account tx.
Proof. unfold deltas. rewrite map_app, sumZ_app. cbn [map]. rewrite sumZ_cons. unfold sumZ at 2. cbn. lia. Qed.

Lemma descending_snoc txs tx :
  StronglySorted (fun a b => tx_id b < tx_id a) txs ->
  (forall p, last txs = Some p -> tx_id tx < tx_id p) ->
  StronglySorted (fun a b => tx_id b < tx_id a) (txs ++ [tx]).
Proof.
  induction 1 as [|a l Hs IH Hall]; intros Hlast; cbn [app]; [repeat constructor|].
  assert (forall p, last l = Some p -> tx_id tx < tx_id p) as Hl.
  { intros p Hp. apply Hlast. destruct l; [done|exact Hp]. }
  constructor; [by apply IH|]. apply Forall_app. split; [done|]. constructor; [|constructor].
  destruct l as [|b l]; [by apply Hlast|].
  destruct (last (b :: l)) as [p|] eqn:Ep; [|by apply last_None in Ep].
  pose proof (Hl p eq_refl). apply last_Some_elem_of in Ep.
  eapply Forall_forall in Hall; [|exact Ep]. cbn in Hall. lia.
Qed.

(** A page's transactions are appended one by one. *)
Lemma replay_transaction_ok start tx h h' live u u' :
  history_ok h -> exhausted h = false -> current_balance_e8s h <> None ->
  replay_transaction start tx h live u = (Ok h', u') ->
  history_ok h' /\ continues h h' /\ exhausted h' = false /\ next_start h' = next_start h /\
  current_balance_e8s h' <> None /\ collected h' = collected h ++ [tx].
Proof.
  intros H He Hb Hr. unfold replay_transaction in Hr.
  apply metered_bind_ok in Hr as ([] & u1 & _ & Hr). destruct (_ || _) eqn:Ep; [done|].
  apply orb_false_iff in Ep as [_ Ep]. destruct (balance_before_oldest_e8s h) as [after|] eqn:Ea; [|done].
  destruct (invert_account_transaction _ _ _) as [before|] eqn:Ei; [|done]. apply invert_delta in Ei.
  destruct H. destruct (current_balance_e8s h) as [reported|] eqn:Er; [|done].
  destruct ok_balance0 as (opening & Eo & Hsum). rewrite Ea in Eo. injection Eo as <-.
  assert (StronglySorted (fun a b => tx_id b < tx_id a) (collected h ++ [tx])) as Hsorted.
  { apply descending_snoc; [done|]. intros p Hp. rewrite ok_previous0, Hp in Ep. cbn in Ep. zify_bool. lia. }
  assert (before + deltas (account_identifier h) (collected h ++ [tx]) = reported) as Hsum'
    by (rewrite deltas_snoc; lia).
  destruct (before =? 0) eqn:E0; injection Hr as <- <-.
  - zify_bool. subst before. split; [|split; [|cbn; unfold const; by rewrite Er]].
    + constructor; cbn; unfold const; rewrite ?He, ?Er; try done.
      * by rewrite last_snoc.
      * eauto.
      * split; [done|]. intros _. exists reported. split; [done|]. unfold authoritative_transactions. cbn.
        unfold const. rewrite take_ge by done. lia.
    + split; [done|]. cbn. split; [by eexists|done].
  - split; [|split; [|cbn; unfold const; by rewrite Er]].
    + constructor; cbn; unfold const; rewrite ?He, ?Er; try done.
      * by rewrite last_snoc.
      * eauto.
      * destruct ok_authoritative0 as [Hl Ha]. rewrite length_app. split; [cbn; lia|]. intros Hn.
        destruct (Ha Hn) as (r & Er' & Hd). exists r. split; [done|]. rewrite <- Hd.
        unfold authoritative_transactions. cbn. by rewrite take_app_le.
    + split; [done|]. cbn. split; [by eexists|done].
Qed.

Lemma replay_page_ok start txs h h' live u u' :
  history_ok h -> exhausted h = false -> current_balance_e8s h <> None ->
  fold_metered (replay_transaction start) txs h live u = (Ok h', u') ->
  history_ok h' /\ continues h h' /\ exhausted h' = false /\ next_start h' = next_start h.
Proof.
  revert h u. induction txs as [|tx txs IH]; intros h u H He Hb Hr; cbn [fold_metered] in Hr.
  { injection Hr as <- <-. split; [done|]. by split. }
  apply metered_bind_ok in Hr as (h1 & u1 & Hr1 & Hr2).
  destruct (replay_transaction_ok _ _ _ _ _ _ _ H He Hb Hr1) as (H1 & C1 & E1 & N1 & B1 & _).
  destruct (IH _ _ H1 E1 B1 Hr2) as (H2 & C2 & E2 & N2).
  split; [done|]. split; [by etrans|]. split; [done|congruence].
Qed.

Lemma exhaust_ok h : history_ok h -> balance_before_oldest_e8s h = Some 0 ->
  history_ok (exhaust h) /\ continues h (exhaust h).
Proof.
  intros H H0. destruct H. split.
  - constructor; cbn; unfold const; try done.
    + destruct (current_balance_e8s h); [done|]. destruct ok_balance0 as (_ & Hn & _). congruence.
    + split; [done|]. intros _. destruct (current_balance_e8s h) as [reported|].
      * exists reported. split; [done|]. destruct ok_balance0 as (opening & Eo & Hsum).
        unfold authoritative_transactions. cbn. unfold const. rewrite take_ge by done.
        rewrite H0 in Eo. injection Eo as <-. lia.
      * destruct ok_balance0 as (_ & Hn & _). congruence.
  - split; [done|]. cbn. split; [|done]. exists []. by rewrite app_nil_r.
Qed.

Lemma require_zero_ok h live u u' :
  require_zero_opening_balance h live u = (Ok tt, u') -> balance_before_oldest_e8s h = Some 0.
Proof. unfold require_zero_opening_balance. by case_bool_decide. Qed.

Lemma note_balance_ok balance h h' live u u' :
  history_ok h -> exhausted h = false -> note_balance balance h live u = (Ok h', u') ->
  history_ok h' /\ continues h h' /\ exhausted h' = false /\ current_balance_e8s h' = Some balance.
Proof.
  intros H He. unfold note_balance. destruct (current_balance_e8s h) as [b|] eqn:Eb.
  - destruct (Z.eqb_spec b balance); [|done]. intros [= <- <-]. subst. by split; [|split].
  - intros [= <- <-]. destruct H. rewrite Eb in ok_balance0. destruct ok_balance0 as (Hc & Hn & _).
    split; [|split; [|done]].
    + constructor; cbn; unfold const; try done.
      * exists balance. rewrite Hc. split; [done|]. unfold deltas, sumZ. cbn. lia.
      * rewrite Hc in *. cbn in *. split; [lia|]. lia.
      * intros Hx. congruence.
    + split; [done|]. cbn. split; [exists []; by rewrite app_nil_r|]. congruence.
Qed.

Lemma finish_history_page_ok start oldest id h h' live u u' :
  history_ok h -> finish_page start oldest id h live u = (Ok h', u') ->
  history_ok h' /\ continues h h'.
Proof.
  intros H. unfold finish_page. destruct (is_some_and _ _); [done|].
  case_bool_decide.
  - intros Hr. apply metered_bind_ok in Hr as ([] & u1 & Hz & [= <- <-]).
    apply require_zero_ok in Hz. by apply exhaust_ok.
  - destruct (_ || _); [done|]. intros [= <- <-]. destruct H. split; [by constructor|].
    split; [done|]. cbn. split; [exists []; by rewrite app_nil_r|done].
Qed.

Section theorems.
Context `{P : PrincipalSpec} `{T : TextSpec} `{C : !CandidSpec}.

Lemma absorb_page_ok page h h' live u u' :
  history_ok h -> exhausted h = false -> absorb_page page h live u = (Ok h', u') ->
  history_ok h' /\ continues h h'.
Proof using Type.
  intros H He. unfold absorb_page. destruct (_ <? _); [done|]. destruct (encode_index_page page); [|done].
  intros Hr. apply metered_bind_ok in Hr as ([] & u1 & _ & Hr).
  apply metered_bind_ok in Hr as (h1 & u2 & Hb & Hr).
  destruct (note_balance_ok _ _ _ _ _ _ H He Hb) as (H1 & C1 & E1 & B1).
  destruct (last (transactions page)) as [oldest|].
  - apply metered_bind_ok in Hr as (h2 & u3 & Hp & Hr).
    destruct (replay_page_ok _ _ _ _ _ _ _ H1 E1 ltac:(by rewrite B1) Hp) as (H2 & C2 & E2 & N2).
    destruct (finish_history_page_ok _ _ _ _ _ _ _ _ H2 Hr) as [H3 C3]. split; [done|]. etrans; [done|]. by etrans.
  - apply metered_bind_ok in Hr as ([] & u3 & Hz & [= <- <-]). apply require_zero_ok in Hz.
    destruct (exhaust_ok _ H1 Hz) as [H3 C3]. split; [done|]. by etrans.
Qed.

Lemma backward_history_ok account : history_ok (backward_history account).
Proof using Type. constructor; cbn; try done. constructor. Qed.

(** The histories that a read of an account can reach. *)
Inductive read_history (account : list Z) : BackwardHistory -> Prop :=
| read_new : read_history account (backward_history account)
| read_more h h' index b u u' e w w' :
    read_history account h -> extend index h b u e w = (Returned (Ok h', u'), w') ->
    read_history account h'.

Lemma extend_ok index h h' b u u' e (w w' : world Heap SuiteCall) :
  history_ok h -> extend index h b u e w = (Returned (Ok h', u'), w') -> history_ok h' /\ continues h h'.
Proof using Type.
  intros H. unfold extend. destruct (exhausted h) eqn:He; [by intros [= <- _ _]|].
  intros (page & u1 & w1 & _ & (_ & live & Hp)%meter_ok)%attempt_bind_ok. by eapply absorb_page_ok.
Qed.

Lemma read_history_ok account h : read_history account h -> history_ok h /\ account_identifier h = account.
Proof using Type.
  induction 1 as [|h h' index b u u' e w w' _ [IH Ha] Hr]; [split; [apply backward_history_ok|done]|].
  destruct (extend_ok _ _ _ _ _ _ _ _ _ IH Hr) as [H (E & _)]. by rewrite E.
Qed.

(** Whatever pages the index returns, an authoritative history is the
    account's own story: its transactions have strictly decreasing ids, and
    applying them oldest first to an empty account gives the balance that every
    page of the read reported. *)
Theorem authoritative_history_replays (account : list Z) (h : BackwardHistory) :
  read_history account h -> authoritative h = true ->
  StronglySorted (fun a b => tx_id b < tx_id a) (authoritative_transactions h) /\
  exists reported, current_balance_e8s h = Some reported /\
    fold_left (fun balance tx => balance + account_delta account tx) (reverse (authoritative_transactions h)) 0
    = reported.
Proof using Type.
  intros (H & <-)%read_history_ok Ha. destruct H. split.
  - rewrite <- (take_drop (authoritative_len h) (collected h)) in ok_descending0.
    by eapply StronglySorted_app_1_l.
  - assert (forall txs acc, fold_left (fun balance tx => balance + account_delta (account_identifier h) tx)
              (reverse txs) acc = acc + deltas (account_identifier h) txs) as Hfold.
    { intros txs. induction txs as [|tx txs IH] using rev_ind; intros acc; [unfold deltas, sumZ; cbn; lia|].
      rewrite reverse_snoc. cbn [fold_left]. rewrite IH, deltas_snoc. lia. }
    destruct ok_authoritative0 as [Hl Haut]. unfold authoritative in Ha. apply orb_true_iff in Ha as [Ha|Ha].
    + apply negb_true_iff, Nat.eqb_neq in Ha. destruct (Haut Ha) as (r & Er & Hd).
      exists r. split; [done|]. by rewrite Hfold, Hd.
    + apply andb_true_iff in Ha as [He Hn]. apply Nat.eqb_eq in Hn. destruct (ok_exhausted0 He) as [H0 _].
      apply length_zero_iff_nil in Hn. rewrite Hn in *. destruct (current_balance_e8s h) as [r|].
      * exists r. split; [done|]. destruct ok_balance0 as (opening & Eo & Hs). rewrite H0 in Eo.
        injection Eo as <-. rewrite Hfold. unfold authoritative_transactions. rewrite Hn, take_nil. lia.
      * destruct ok_balance0 as (_ & Hb & _). congruence.
Qed.

End theorems.

Module ConcreteCandid.
Import Concrete ConcreteTexts ConcreteRelay.
#[export] Instance concrete_candid : CandidSpec (H:=concrete_principal) := {
  TRANSACTION_MINT := "1mint";
  TRANSACTION_TRANSFER := "1xfer";
  TRANSACTION_AUTHORIZED_MINT := "107mint";
  encode_index_page := fun page => Some (map tx_id (transactions page));
  encode_icrc_page := fun _ => Some [];
  hex_decode := Some;
}.

(** An account [1] that was credited from [source] and committed everything. *)
Definition page0 (source : list Z) : IndexPage :=
  MkIndexPage 0 (Some 1)
    [MkTxWithId 2 (MkIndexTransaction 0 (Some [3]) (IndexTransfer [1] [2] 100000000 10000 None) (Some 200) None);
     MkTxWithId 1 (MkIndexTransaction 0 None (IndexTransfer source [1] 100010000 10000 None) (Some 100) None)].

(** The index answers with [page0], the owner resolver with [owner]. *)
Definition reward_reply (source : list Z) (owner : option Z) {X} (c : SuiteCall X) : X :=
  match c in SuiteCall Y return Y -> Y with
  | GetTransactions _ _ _ _ => fun _ => Ok (Ok (page0 source))
  | ResolveDefaultIcpAccounts _ _ accounts => fun _ => Ok (Resolved (map (fun _ => owner) accounts))
  | _ => fun r => r
  end (reply_ok 0 10000 c).
Definition reward_env (source : list Z) (owner : option Z) : env Heap SuiteCall := {|
  env_reply := fun _ X c => reward_reply source owner c;
  env_interleave := fun _ h => h;
  env_clock := fun _ => 1000;
|}.
End ConcreteCandid.

(** ** The read as a part of an attempt *)

Section reads.
Context `{P : PrincipalSpec} `{T : TextSpec} `{C : !CandidSpec}.
Context (e : env Heap SuiteCall) (Inv : Heap -> Prop) (ev_ok : event Heap SuiteCall -> Prop).
Hypothesis rely_inv : forall n h, Inv h -> Inv (env_interleave e n h).
(** What the index's replies say of a transaction. *)
Context (tx_ok : IndexTransactionWithId -> Prop).
Hypothesis reads_ok : forall index account start n h, ev_ok (Dispatch (GetTransactions index account start n) h).
Hypothesis typed : forall n index account start k page,
  env_reply e n _ (GetTransactions index account start k) = Ok (Ok page) -> Forall tx_ok (transactions page).

Lemma replay_transaction_collected start tx h h' live u u' :
  replay_transaction start tx h live u = (Ok h', u') -> collected h' = collected h ++ [tx].
Proof.
  intros ([] & u1 & _ & Hr)%metered_bind_ok. destruct (_ || _); [done|].
  destruct (balance_before_oldest_e8s h); [|done]. destruct (invert_account_transaction _ _ _) as [b|]; [|done].
  cbn zeta in Hr. by destruct (b =? 0); injection Hr as <- <-.
Qed.

Lemma replay_page_collected start txs h h' live u u' :
  fold_metered (replay_transaction start) txs h live u = (Ok h', u') -> collected h' = collected h ++ txs.
Proof.
  revert h u. induction txs as [|tx txs IH]; intros h u Hr; cbn [fold_metered] in Hr.
  { injection Hr as <- <-. by rewrite app_nil_r. }
  apply metered_bind_ok in Hr as (h1 & u1 & H1 & H2). apply replay_transaction_collected in H1.
  apply IH in H2. by rewrite H2, H1, <- app_assoc.
Qed.

Lemma absorb_page_collected page h h' live u u' :
  absorb_page page h live u = (Ok h', u') -> collected h' = collected h ++ transactions page.
Proof using Type.
  unfold absorb_page. destruct (_ <? _); [done|]. destruct (encode_index_page page); [|done].
  intros ([] & u1 & _ & (h1 & u2 & Hb & Hr)%metered_bind_ok)%metered_bind_ok.
  assert (collected h1 = collected h) as <-.
  { unfold note_balance in Hb. destruct (current_balance_e8s h); [destruct (_ =? _); [|done]|];
      by injection Hb as <- <-. }
  destruct (last (transactions page)) eqn:El.
  - apply metered_bind_ok in Hr as (h2 & u3 & Hp & Hf). apply replay_page_collected in Hp. rewrite <- Hp.
    unfold finish_page in Hf. destruct (is_some_and _ _); [done|]. destruct (bool_decide (oldest_tx_id page = _)).
    + apply metered_bind_ok in Hf as ([] & u4 & _ & Hf). by injection Hf as <- <-.
    + destruct (_ || _); [done|]. by injection Hf as <- <-.
  - apply metered_bind_ok in Hr as ([] & u3 & _ & [= <- <-]). apply last_None in El.
    by rewrite El, app_nil_r.
Qed.

Lemma absorb_page_spends page h : spends (absorb_page page h).
Proof using Type.
  unfold absorb_page, note_balance, finish_page, replay_transaction, require_zero_opening_balance.
  repeat first [spends_step | apply spends_retain]; lia.
Qed.

Lemma one_page index account start n :
  one_call e Inv ev_ok (get_account_identifier_transactions index account start n)
    (fun r => forall page, r = Ok page -> Forall tx_ok (transactions page)).
Proof using rely_inv reads_ok typed.
  unfold get_account_identifier_transactions.
  eapply one_call_map; [apply one_call_await; [done|apply reads_ok]|].
  intros r [k ->] page Hp. destruct (env_reply e k _ _) as [[p|m]|[d|d]] eqn:E; try done.
  injection Hp as ->. by eapply typed.
Qed.

(** Every page but none is charged as a call. *)
Lemma attempts_extend u index h :
  history_ok h -> Forall tx_ok (collected h) -> exhausted h = false ->
  attempts e Inv ev_ok u (extend index h) (fun h' u' =>
    history_ok h' /\ continues h h' /\ Forall tx_ok (collected h') /\ calls u + 1 <= calls u').
Proof using rely_inv reads_ok typed.
  intros H Hc He. unfold extend. rewrite He.
  eapply attempts_bind; [apply attempts_call_or, one_page|].
  intros page u1 Hu1 Hle [Hp Hcalls]. apply attempts_meter; [apply absorb_page_spends|].
  intros live h' u' Hr. pose proof (absorb_page_spends page h live u1 Hu1) as [_ [Hcu _]]. rewrite Hr in Hcu.
  cbn in Hcu. destruct (absorb_page_ok _ _ _ _ _ _ H He Hr) as [H' C'].
  apply absorb_page_collected in Hr. split; [done|]. split; [done|]. split; [|lia].
  rewrite Hr. by apply Forall_app.
Qed.

End reads.

(** ** Witness *)

Section witness.
Import Concrete ConcreteTexts ConcreteRelay ConcreteCandid.

Let live_heap : Heap (P:=concrete_principal) := heap0 <| st ::= fun s => s <| main_lock_state_ts := Some 900 |> |>.
Let read0 := extend (10 : Principal (PrincipalSpec:=concrete_principal)) (backward_history [1]) (budget_new 1000 900)
  Usage_default (reward_env [4] None) (World live_heap []).
Let history0 : BackwardHistory :=
  match read0.1 with Returned (Ok h, _) => h | _ => backward_history [1] end.

Lemma authoritative_history_replays_witness :
  length (authoritative_transactions history0) = 2%nat /\
  StronglySorted (fun a b => tx_id b < tx_id a) (authoritative_transactions history0).
Proof.
  split; [by vm_compute|].
  refine (proj1 (authoritative_history_replays [1] history0 _ _)); [|by vm_compute].
  apply (read_more [1] (backward_history [1]) history0 (10 : Principal (PrincipalSpec:=concrete_principal))
    (budget_new 1000 900) Usage_default (match read0.1 with Returned (_, u) => u | _ => Usage_default end)
    (reward_env [4] None) (World live_heap []) read0.2 (read_new [1])). by vm_compute.
Defined.
End witness.
