(* ===== verification/RelayTransfer.v ===== *)
(** * Relay: the drivers of one staged transfer

    [canisters/relay/src/scheduler/transfer.rs] with [clients/cmc.rs], and the
    end of a job, which a changed ledger fee also brings about ([tick.rs]).  A
    job stages one transfer at a time; [drive_pending_transfer] sends it at most
    twice with the same identity, records its acceptance, and notifies the CMC
    at most twice.  Log lines, error texts that are only logged and the debug
    injections (disabled without [debug_api]) are not modelled. *)

From S2P Require Import Prelude BTree Async Ic Clients TimerGuard CyclesProbe RelayState RelayLogic RelaySplitter.

(** [iter_mut().find(..)], updated. *)
Fixpoint update_first {X} (sel : X -> bool) (f : X -> X) (l : list X) : list X :=
  match l with
  | [] => []
  | x :: l => if sel x then f x :: l else x :: update_first sel f l
  end.

Section job_end.
Context `{P : PrincipalSpec} `{O : !OrdSpec Principal}.
#[local] Existing Instance Principal_eq_dec.

Definition retain_effective_targets (effective : btree_set Principal) (s : State) : State :=
  s <| last_completed_cycles ::= btree_retain (fun c => set_contains c effective) |>
    <| relay_minted_cycles_since_sample ::= btree_retain (fun c => set_contains c effective) |>
    <| recovery_deficit_cycles ::= btree_retain (fun c => set_contains c effective) |>.

Definition retain_current_effective_targets (summary : RelaySummary) (s : State) : State :=
  let effective := set_of_list (map tps_canister_id (rs_target_probe_statuses summary)) in
  if bool_decide (effective = []) then s else retain_effective_targets effective s.

Definition persist_recovery_deficits_from_samples (samples : list CanisterBurnSample) (s : State) : State :=
  s <| recovery_deficit_cycles ::= fun m =>
         fold_left (fun m sample =>
           if 0 <? cb_remaining_deficit_cycles sample
           then btree_insert (cb_canister_id sample) (cb_remaining_deficit_cycles sample) m
           else btree_remove (cb_canister_id sample) m) samples m |>.

Definition settle_sample (sample : CanisterBurnSample) : CanisterBurnSample :=
  sample <| cb_remaining_deficit_cycles :=
    sat_sub (cb_target_topup_cycles sample) (cb_actual_minted_cycles sample) |>.

Definition find_sample (id : Principal) (l : list CanisterBurnSample) : option CanisterBurnSample :=
  List.find (fun s => bool_decide (cb_canister_id s = id)) l.

(** The job's samples, the ones of its summary, and the state it leaves. *)
Definition completed_summary (now_nanos : Z) (canisters : list CanisterBurnSample) (s : RelaySummary) :
    RelaySummary :=
  refresh_canister_totals
    (s <| rs_canisters ::= map (fun c =>
            match find_sample (cb_canister_id c) canisters with
            | Some sample =>
                c <| cb_actual_minted_cycles := cb_actual_minted_cycles sample |>
                  <| cb_remaining_deficit_cycles := cb_remaining_deficit_cycles sample |>
                  <| cb_sent_topup_e8s := cb_sent_topup_e8s sample |>
            | None => c
            end) |>
       <| rs_completed_at_ts_nanos := Some now_nanos |>).

Definition complete_job (now_nanos : Z) (h : Heap) : Heap :=
  upd (fun s =>
    match active_job s with
    | None => s
    | Some job =>
        let canisters := map settle_sample (j_canisters job) in
        let summary := completed_summary now_nanos canisters (j_summary job) in
        let s := retain_current_effective_targets summary (s <| active_job := None |>) in
        let s := s <| last_completed_cycles ::= btree_extend (j_current_cycles job) |> in
        (persist_recovery_deficits_from_samples canisters s) <| last_summary := Some summary |>
    end) h.

(** The planned transfers after [index] that were not skipped. *)
Definition remaining_gross {X} (amount gross : X -> Z) (index : Z) (l : list X) : Z :=
  fold_sat (map gross (List.filter (fun x => 0 <? amount x) (skipn (Z.to_nat index) l))).

Definition stop_active_job_for_ledger_fee_change (now_nanos : Z) (h : Heap) : Heap :=
  match active_job (st h) with
  | None => h
  | Some job =>
      let topups := remaining_gross cb_amount_e8s cb_gross_share_e8s (j_next_transfer_index job)
                      (j_canisters job) in
      let surplus := remaining_gross sx_amount_e8s sx_gross_share_e8s (j_surplus_transfer_index job)
                       (j_surplus_transfers job) in
      let job := job <| j_summary ::= fun s =>
        s <| rs_known_unspent_e8s := sat_add (sat_add (rs_known_unspent_e8s s) topups) surplus |>
          <| rs_skipped_surplus_reason := Some "ledger_fee_changed"%string |> |> in
      complete_job now_nanos (upd (fun s => s <| active_job := Some job |>) h)
  end.

End job_end.

Module Transfer.
Section transfer.
Context `{P : PrincipalSpec} `{O : !OrdSpec Principal} `{A : !AccountSpec} `{T : TextSpec}.
#[local] Existing Instance Principal_eq_dec.
Local Abbreviation async := (async Heap SuiteCall).

(** ** Attempts *)

Inductive TransferAttemptOutcome :=
| AttemptAccepted (block_index : Z) | ImmediateRetryable | AttemptBadFee (expected_fee : Z) | AttemptFailed.

Inductive NotifyAttemptOutcome := Succeeded (minted : Z) | NotifyRetryable | NotifyTerminal.

Definition block_index_to_u64 (block : Z) : option Z := if block <=? u64_max then Some block else None.

Definition transfer_arg (from_subaccount : option (list Z)) (to : Account)
    (amount_e8s fee_e8s created_at_time_nanos : Z) (memo : option (list Z)) : TransferArg :=
  {| from_subaccount := from_subaccount; to := to; fee := Some fee_e8s;
     created_at_time := Some created_at_time_nanos; memo := memo; amount := amount_e8s |}.

Definition destination_for_pending (cmc_id : Principal) (p : PendingTransfer) : Account :=
  match pt_kind p with
  | CmcTopUp canister_id => cmc_deposit_account cmc_id canister_id
  | SurplusIcp _ account _ => account
  | FaucetCommitment _ account _ _ => account
  end.

Definition from_subaccount_for_pending (p : PendingTransfer) : option (list Z) :=
  match pt_kind p with
  | CmcTopUp _ | SurplusIcp _ _ _ => None
  | FaucetCommitment _ _ source _ => Some source
  end.

Definition memo_for_pending (p : PendingTransfer) : option (list Z) :=
  match pt_kind p with
  | CmcTopUp _ => Some (to_le_bytes MEMO_TOP_UP_CANISTER_U64)
  | SurplusIcp _ _ memo => memo
  | FaucetCommitment _ _ _ memo => Some memo
  end.

Definition attempt_outcome (r : result (result Z TransferError) ClientError) : TransferAttemptOutcome :=
  let accepted block :=
    match block_index_to_u64 block with Some b => AttemptAccepted b | None => ImmediateRetryable end in
  match r with
  | Ok (Ok block) => accepted block
  | Ok (Err (Duplicate block)) => accepted block
  | Ok (Err (TemporarilyUnavailable | CreatedInFuture _ | GenericError _ _)) => ImmediateRetryable
  | Ok (Err (BadFee expected_fee)) => AttemptBadFee expected_fee
  | Ok (Err (BadBurn _ | InsufficientFunds _ | TooOld)) => AttemptFailed
  | Err _ => ImmediateRetryable
  end.

Definition transfer_once (ledger : Principal) (arg : TransferArg) : async TransferAttemptOutcome :=
  r ← transfer ledger arg;
  mret (attempt_outcome r).

(** [map_notify_top_up_error] and the match of [notify_once]: terminal errors
    are the CMC's refund, stale block and invalid transaction. *)
Inductive NotifyClientError := RetryableNotify | TerminalNotify | NotifyCall | NotifyConversion.

Definition map_notify_top_up_error (e : NotifyTopUpError) : NotifyClientError :=
  match e with
  | Retryable _ => RetryableNotify
  | Terminal _ => TerminalNotify
  | NotifyTransport _ => NotifyCall
  | NotifyDecode _ => NotifyCall
  | Clients.NotifyConvert _ => NotifyConversion
  end.

Definition notify_once (cmc canister : Principal) (block_index : Z) : async NotifyAttemptOutcome :=
  r ← notify_top_up cmc canister block_index;
  mret match r with
       | Ok cycles => Succeeded cycles
       | Err e =>
           match map_notify_top_up_error e with
           | TerminalNotify => NotifyTerminal
           | RetryableNotify | NotifyCall | NotifyConversion => NotifyRetryable
           end
       end.

(** ** The staged transfer of the job *)

(** The derived [PartialEq], on the accounts' own equality. *)
Definition kind_eqb (a b : PendingTransferKind) : bool :=
  match a, b with
  | CmcTopUp c, CmcTopUp c' => bool_decide (c = c')
  | SurplusIcp t acct m, SurplusIcp t' acct' m' =>
      bool_decide (t = t') && account_eqb acct acct' && bool_decide (m = m')
  | FaucetCommitment n acct s m, FaucetCommitment n' acct' s' m' =>
      (n =? n') && account_eqb acct acct' && bool_decide (s = s') && bool_decide (m = m')
  | _, _ => false
  end.

Definition pending_eqb (a b : PendingTransfer) : bool :=
  kind_eqb (pt_kind a) (pt_kind b) && (pt_gross_share_e8s a =? pt_gross_share_e8s b)
  && (pt_amount_e8s a =? pt_amount_e8s b)
  && (pt_created_at_time_nanos a =? pt_created_at_time_nanos b)
  && bool_decide (pt_phase a = pt_phase b).

Definition job_matches (job_id : Z) (expected : PendingTransfer) (job : ActiveRelayJob) : bool :=
  (j_id job =? job_id) && is_some_and (j_pending_transfer job) (fun p => pending_eqb p expected).

Definition pending_matches (job_id : Z) (expected : PendingTransfer) (h : Heap) : bool :=
  is_some_and (active_job (st h)) (job_matches job_id expected).

(** The job that still stages [expected], updated; otherwise nothing. *)
Definition with_matching_job (job_id : Z) (expected : PendingTransfer)
    (f : PendingTransfer -> ActiveRelayJob -> ActiveRelayJob) (h : Heap) : Heap :=
  match active_job (st h) with
  | Some job =>
      match j_pending_transfer job with
      | Some pending =>
          if job_matches job_id expected job
          then upd (fun s => s <| active_job := Some (f pending job) |>) h else h
      | None => h
      end
  | None => h
  end.

(** The staged transfer leaves the job, and the summary counts it. *)
Definition take_pending (count : PendingTransfer -> RelaySummary -> RelaySummary)
    (p : PendingTransfer) (job : ActiveRelayJob) : ActiveRelayJob :=
  job <| j_pending_transfer := None |>
      <| j_summary ::= fun s => refresh_canister_totals (count p s) |>.

Definition count_failed (s : RelaySummary) : RelaySummary :=
  s <| rs_failed_transfers := sat_add32 (rs_failed_transfers s) 1 |>.
Definition count_ambiguous (p : PendingTransfer) (s : RelaySummary) : RelaySummary :=
  s <| rs_ambiguous_transfers := sat_add32 (rs_ambiguous_transfers s) 1 |>
    <| rs_ambiguous_e8s := sat_add (rs_ambiguous_e8s s) (pt_gross_share_e8s p) |>.

Definition mark_pending_failed (job_id : Z) (expected : PendingTransfer) : Heap -> Heap :=
  with_matching_job job_id expected (take_pending (fun p s =>
    (count_failed s) <| rs_known_unspent_e8s := sat_add (rs_known_unspent_e8s s) (pt_gross_share_e8s p) |>)).

Definition mark_pending_failed_after_acceptance (job_id : Z) (expected : PendingTransfer) : Heap -> Heap :=
  with_matching_job job_id expected (take_pending (fun _ s =>
    (count_failed s) <| rs_cmc_notify_failed_count := sat_add32 (rs_cmc_notify_failed_count s) 1 |>)).

Definition mark_pending_ambiguous (job_id : Z) (expected : PendingTransfer) : Heap -> Heap :=
  with_matching_job job_id expected (take_pending count_ambiguous).

Definition mark_pending_ambiguous_after_acceptance (job_id : Z) (expected : PendingTransfer) : Heap -> Heap :=
  with_matching_job job_id expected (take_pending (fun p s =>
    (count_ambiguous p s)
      <| rs_cmc_notify_ambiguous_count := sat_add32 (rs_cmc_notify_ambiguous_count s) 1 |>)).

Definition is_sample (id : Principal) (s : CanisterBurnSample) : bool := bool_decide (cb_canister_id s = id).

Definition count_sent (amount_e8s : Z) (s : CanisterBurnSample) : CanisterBurnSample :=
  s <| cb_sent_topup_e8s := sat_add (cb_sent_topup_e8s s) amount_e8s |>.

(** The updates of [mark_pending_ledger_accepted] to the job. *)
Definition accept_pending (block_index : Z) (p : PendingTransfer) (job : ActiveRelayJob) : ActiveRelayJob :=
  let job := job <| j_pending_transfer := Some (p <| pt_phase := TransferAccepted block_index |>) |> in
  let job :=
    match pt_kind p with
    | CmcTopUp canister_id =>
        let count := update_first (is_sample canister_id) (count_sent (pt_amount_e8s p)) in
        job <| j_canisters ::= count |>
            <| j_summary ::= fun s => refresh_canister_totals (s <| rs_canisters ::= count |>) |>
    | _ => job
    end in
  job <| j_summary ::= fun s =>
    s <| rs_transfer_count := sat_add32 (rs_transfer_count s) 1 |>
      <| rs_ledger_transfer_count := sat_add32 (rs_ledger_transfer_count s) 1 |>
      <| rs_ledger_sent_e8s := sat_add (rs_ledger_sent_e8s s) (pt_amount_e8s p) |>
      <| rs_ledger_fees_e8s := sat_add (rs_ledger_fees_e8s s) (j_fee_e8s job) |> |>.

Definition mark_pending_ledger_accepted (job_id : Z) (expected : PendingTransfer) (block_index : Z)
    (h : Heap) : option PendingTransfer * Heap :=
  if pending_matches job_id expected h
  then let h := with_matching_job job_id expected (accept_pending block_index) h in
       (active_job (st h) ≫= j_pending_transfer, h)
  else (None, h).

Definition count_minted (minted : Z) (s : CanisterBurnSample) : CanisterBurnSample :=
  settle_sample (s <| cb_actual_minted_cycles := sat_add128 (cb_actual_minted_cycles s) minted |>).

Definition count_notified (notified : bool) (s : RelaySummary) : RelaySummary :=
  if notified then s <| rs_cmc_notify_success_count := sat_add32 (rs_cmc_notify_success_count s) 1 |>
  else s.

(** The canister and the minted cycles; the transferred amount is unused. *)
Definition complete_pending (notified : bool) (minted : option (Principal * Z)) (_ : PendingTransfer)
    (job : ActiveRelayJob) : ActiveRelayJob :=
  let job := job <| j_pending_transfer := None |> <| j_summary ::= count_notified notified |> in
  match minted with
  | Some (canister_id, cycles) =>
      let count := update_first (is_sample canister_id) (count_minted cycles) in
      job <| j_canisters ::= count |>
          <| j_summary ::= fun s => refresh_canister_totals (s <| rs_canisters ::= count |>) |>
  | None => job
  end.

Definition mark_pending_completed (job_id : Z) (expected : PendingTransfer) (notified : bool)
    (minted : option (Principal * Z)) (h : Heap) : Heap :=
  if pending_matches job_id expected h then
    let h := with_matching_job job_id expected (complete_pending notified minted) h in
    match minted with
    | Some (canister_id, cycles) =>
        upd (fun s => s <| relay_minted_cycles_since_sample ::= fun m =>
          btree_insert canister_id (sat_add128 (default 0 (btree_get canister_id m)) cycles) m |>) h
    | None => h
    end
  else h.

(** ** [drive_pending_transfer] *)

(** The step after the answer to an attempt: [inl] is the result, [inr] the
    accepted block. *)
Definition after_first_attempt (job_id : Z) (staged : PendingTransfer) (now_nanos : Z)
    (o : TransferAttemptOutcome) (h : Heap) : (bool + option Z) * Heap :=
  match o with
  | AttemptAccepted b => (inr (Some b), h)
  | ImmediateRetryable =>
      if pending_matches job_id staged h then (inr None, h) else (inl false, h)
  | AttemptBadFee expected_fee =>
      if negb (pending_matches job_id staged h) then (inl false, h)
      else (inl true, stop_active_job_for_ledger_fee_change now_nanos
                        (mark_pending_failed job_id staged (record_bad_fee expected_fee h)))
  | AttemptFailed =>
      if negb (pending_matches job_id staged h) then (inl false, h)
      else (inl true, mark_pending_failed job_id staged h)
  end.

Definition after_second_attempt (job_id : Z) (staged : PendingTransfer) (now_nanos : Z)
    (o : TransferAttemptOutcome) (h : Heap) : (bool + Z) * Heap :=
  match o with
  | AttemptAccepted b => (inr b, h)
  | AttemptBadFee expected_fee =>
      if negb (pending_matches job_id staged h) then (inl false, h)
      else (inl true, stop_active_job_for_ledger_fee_change now_nanos
                        (mark_pending_ambiguous job_id staged (record_bad_fee expected_fee h)))
  | ImmediateRetryable | AttemptFailed =>
      if negb (pending_matches job_id staged h) then (inl false, h)
      else (inl true, mark_pending_ambiguous job_id staged h)
  end.

(** The attempts: [inl] is the result, [inr] the accepted block. *)
Definition attempt_transfer (ledger : Principal) (arg : TransferArg) (job_id : Z)
    (staged : PendingTransfer) (now_nanos : Z) : async (bool + Z) :=
  o ← transfer_once ledger arg;
  r ← with_state_mut (after_first_attempt job_id staged now_nanos o);
  match r with
  | inl b => mret (inl b)
  | inr (Some block) => mret (inr block)
  | inr None =>
      o ← transfer_once ledger arg;
      with_state_mut (after_second_attempt job_id staged now_nanos o)
  end.

(** The transfer of a staged job transfer: [inr] is the accepted record. *)
Definition send_staged (ledger : Principal) (arg : TransferArg) (job_id : Z)
    (staged : PendingTransfer) (now_nanos : Z) : async (bool + PendingTransfer) :=
  r ← attempt_transfer ledger arg job_id staged now_nanos;
  match r with
  | inl b => mret (inl b)
  | inr block =>
      a ← with_state_mut (mark_pending_ledger_accepted job_id staged block);
      mret match a with Some accepted => inr accepted | None => inl false end
  end.

(** The second notification, after [first]. *)
Definition after_second_notify (job_id : Z) (accepted : PendingTransfer) (canister : Principal)
    (first second : NotifyAttemptOutcome) (h : Heap) : bool * Heap :=
  if negb (pending_matches job_id accepted h) then (false, h)
  else
    (true,
     match second with
     | Succeeded minted => mark_pending_completed job_id accepted true (Some (canister, minted)) h
     | NotifyTerminal =>
         match first with
         | NotifyTerminal => mark_pending_failed_after_acceptance job_id accepted h
         | _ => mark_pending_ambiguous_after_acceptance job_id accepted h
         end
     | NotifyRetryable => mark_pending_ambiguous_after_acceptance job_id accepted h
     end).

Definition notify_accepted (cmc canister : Principal) (job_id : Z) (accepted : PendingTransfer)
    (block_index : Z) : async bool :=
  first ← notify_once cmc canister block_index;
  matches ← with_state (pending_matches job_id accepted);
  if negb (matches : bool) then mret false
  else
    match first with
    | Succeeded minted =>
        modify (mark_pending_completed job_id accepted true (Some (canister, minted)));;
        mret true
    | NotifyRetryable | NotifyTerminal =>
        second ← notify_once cmc canister block_index;
        with_state_mut (after_second_notify job_id accepted canister first second)
    end.

(** A raw ICP transfer is complete; a neuron's stake is refreshed by a timer. *)
Definition complete_raw (job_id : Z) (accepted : PendingTransfer) (h : Heap) : Heap :=
  let h := mark_pending_completed job_id accepted false None h in
  match pt_kind accepted with
  | SurplusIcp (SurplusNeuron neuron_id) _ _ => set_timer (NeuronRefresh neuron_id) h
  | _ => h
  end.

Definition settle_accepted (cmc : Principal) (job_id : Z) (accepted : PendingTransfer) : async bool :=
  match pt_phase accepted with
  | AwaitingTransfer => mret false
  | TransferAccepted block_index =>
      match pt_kind accepted with
      | CmcTopUp canister => notify_accepted cmc canister job_id accepted block_index
      | _ => modify (complete_raw job_id accepted);; mret true
      end
  end.

Definition staged_transfer (h : Heap) : option (Z * Z * PendingTransfer) :=
  match active_job (st h) with
  | Some job =>
      match j_pending_transfer job with
      | Some pending => Some (j_id job, j_fee_e8s job, pending)
      | None => None
      end
  | None => None
  end.

Definition staged_arg (cmc_id : Principal) (fee_e8s : Z) (staged : PendingTransfer) : TransferArg :=
  transfer_arg (from_subaccount_for_pending staged) (destination_for_pending cmc_id staged)
    (pt_amount_e8s staged) fee_e8s (pt_created_at_time_nanos staged) (memo_for_pending staged).

Definition drive_pending_transfer (ledger cmc cmc_id : Principal) (now_nanos : Z) : async bool :=
  s ← with_state staged_transfer;
  match s with
  | None => mret true
  | Some (job_id, planned_fee_e8s, staged) =>
      match pt_phase staged with
      | AwaitingTransfer =>
          if negb (created_at_time_is_valid (pt_created_at_time_nanos staged) now_nanos) then
            modify (mark_pending_ambiguous job_id staged);; mret true
          else
            r ← send_staged ledger (staged_arg cmc_id planned_fee_e8s staged) job_id staged now_nanos;
            match r with
            | inl b => mret b
            | inr accepted => settle_accepted cmc job_id accepted
            end
      | TransferAccepted _ => settle_accepted cmc job_id staged
      end
  end.

(** ** The faucet commitment *)

Definition commitment_eqb (a b : PendingFaucetCommitmentTransfer) : bool :=
  pending_eqb (fc_transfer a) (fc_transfer b) && (fc_fee_e8s a =? fc_fee_e8s b)
  && (fc_balance_start_e8s a =? fc_balance_start_e8s b).

Definition faucet_commitment_matches (expected : PendingFaucetCommitmentTransfer) (h : Heap) : bool :=
  is_some_and (active_faucet_commitment_transfer (st h)) (fun c => commitment_eqb c expected).

Definition mark_faucet_commitment_ledger_accepted (expected : PendingFaucetCommitmentTransfer)
    (block_index : Z) (h : Heap) : option PendingFaucetCommitmentTransfer * Heap :=
  match active_faucet_commitment_transfer (st h) with
  | Some active =>
      if commitment_eqb active expected
      then let active := active <| fc_transfer ::= fun p => p <| pt_phase := TransferAccepted block_index |> |> in
           (Some active, upd (fun s => s <| active_faucet_commitment_transfer := Some active |>) h)
      else (None, h)
  | None => (None, h)
  end.

(** [mark_faucet_commitment_completed], [_failed] and [_ambiguous]: they differ
    in the log line. *)
Definition clear_faucet_commitment (expected : PendingFaucetCommitmentTransfer) (h : Heap) : Heap :=
  if faucet_commitment_matches expected h
  then upd (fun s => s <| active_faucet_commitment_transfer := None |>) h else h.

Definition after_first_commitment (staged : PendingFaucetCommitmentTransfer)
    (o : TransferAttemptOutcome) (h : Heap) : (bool + option Z) * Heap :=
  match o with
  | AttemptAccepted b => (inr (Some b), h)
  | ImmediateRetryable =>
      if faucet_commitment_matches staged h then (inr None, h) else (inl false, h)
  | AttemptBadFee expected_fee =>
      if negb (faucet_commitment_matches staged h) then (inl false, h)
      else (inl true, clear_faucet_commitment staged (record_bad_fee expected_fee h))
  | AttemptFailed =>
      if negb (faucet_commitment_matches staged h) then (inl false, h)
      else (inl true, clear_faucet_commitment staged h)
  end.

Definition after_second_commitment (staged : PendingFaucetCommitmentTransfer)
    (o : TransferAttemptOutcome) (h : Heap) : (bool + Z) * Heap :=
  match o with
  | AttemptAccepted b => (inr b, h)
  | AttemptBadFee expected_fee =>
      if negb (faucet_commitment_matches staged h) then (inl false, h)
      else (inl true, clear_faucet_commitment staged (record_bad_fee expected_fee h))
  | ImmediateRetryable | AttemptFailed =>
      if negb (faucet_commitment_matches staged h) then (inl false, h)
      else (inl true, clear_faucet_commitment staged h)
  end.

Definition send_commitment (ledger : Principal) (staged : PendingFaucetCommitmentTransfer) :
    async (bool + PendingFaucetCommitmentTransfer) :=
  let arg := staged_arg management_canister (fc_fee_e8s staged) (fc_transfer staged) in
  o ← transfer_once ledger arg;
  r ← with_state_mut (after_first_commitment staged o);
  r ← match r with
      | inl b => mret (inl b)
      | inr (Some block) => mret (inr block)
      | inr None =>
          o ← transfer_once ledger arg;
          with_state_mut (after_second_commitment staged o)
      end;
  match r with
  | inl b => mret (inl b)
  | inr block =>
      a ← with_state_mut (mark_faucet_commitment_ledger_accepted staged block);
      mret match a with Some accepted => inr accepted | None => inl false end
  end.

(** Acceptance settles the commitment; the stake is refreshed by a timer. *)
Definition settle_commitment (accepted : PendingFaucetCommitmentTransfer) (h : Heap) : Heap :=
  match pt_kind (fc_transfer accepted) with
  | FaucetCommitment neuron_id _ _ _ =>
      set_timer (NeuronRefresh neuron_id) (clear_faucet_commitment accepted h)
  | _ => h
  end.

Definition drive_pending_faucet_commitment_transfer (ledger : Principal) (now_nanos : Z) : async bool :=
  staged ← with_state (fun h => active_faucet_commitment_transfer (st h));
  match staged with
  | None => mret true
  | Some staged =>
      match pt_phase (fc_transfer staged) with
      | AwaitingTransfer =>
          if negb (created_at_time_is_valid (pt_created_at_time_nanos (fc_transfer staged)) now_nanos)
          then modify (clear_faucet_commitment staged);; mret true
          else
            r ← send_commitment ledger staged;
            match r with
            | inl b => mret b
            | inr accepted => modify (settle_commitment accepted);; mret true
            end
      | TransferAccepted _ => modify (settle_commitment staged);; mret true
      end
  end.

(** The callback of the refresh timer. *)
Definition refresh_neuron (neuron_id : Z) : async unit :=
  governance ← with_state (fun h => governance_canister_id (config (st h)));
  claim_or_refresh governance neuron_id;;
  mret tt.

End transfer.
End Transfer.
