(* ===== verification/RelayJob.v ===== *)
(** * Relay: the top-up and surplus job

    [canisters/relay/src/scheduler/tick.rs], from the probe of the managed
    canisters to the completed job, and the batch probe of
    [scheduler/cycles_probe.rs].  A job freezes its plan when it starts: the
    top-ups, later the raw ICP surplus.  [drive_active_job] stages and drives one
    transfer at a time until the job is done, its budget of transfers for the
    tick is used, or the main lease is lost.  Log lines are not modelled. *)

From S2P Require Import Prelude BTree Async Ic Clients TimerGuard CyclesProbe RelayState RelayLogic RelaySplitter RelayTransfer.

Section job.
Context `{P : PrincipalSpec} `{O : !OrdSpec Principal} `{I : !ProbeIds} `{A : !AccountSpec} `{T : TextSpec}.
#[local] Existing Instance Principal_eq_dec.
Local Abbreviation async := (async Heap SuiteCall).

(** ** The batch probe *)

Definition sample_source_from_route (r : option CyclesProbeRoute) : CyclesSampleSource :=
  match r with
  | None => SelfCanister
  | Some DirectCanisterStatus => DirectStatus
  | Some (Blackhole _) => BlackholeStatusSource
  | Some NnsRoot => NnsRootStatus
  | Some (SnsRoot _) => SnsRootStatus
  | Some (SnsSwap _ _) => SnsSwapSource
  end.

Record RelayProbeBatch := MkBatch {
  snapshots : btree_map Principal CyclesSnapshot;
  failures : list (Principal * string);
  route_updates : btree_map Principal (option CyclesProbeRoute);
}.

Definition record_probe (now_nanos : Z) (canister : Principal)
    (r : result CyclesProbeSuccess CyclesProbeFailure) (b : RelayProbeBatch) : RelayProbeBatch :=
  match r with
  | Ok success =>
      b <| snapshots ::= btree_insert canister
             (MkSnapshot (cycles success) now_nanos (sample_source_from_route (route success))) |>
        <| route_updates ::= btree_insert canister (route success) |>
  | Err e =>
      b <| failures ::= (fun l => l ++ [(canister, message e)]) |>
        <| route_updates ::= btree_insert canister None |>
  end.

Fixpoint probe_batch {C : CyclesProbeClient Heap} (policy : CyclesProbePolicy)
    (cached : btree_map Principal CyclesProbeRoute) (now_nanos : Z) (canisters : list Principal)
    (b : RelayProbeBatch) : async RelayProbeBatch :=
  match canisters with
  | [] => mret b
  | canister :: rest =>
      let cached_route := match policy with
                          | Auto => btree_get canister cached
                          | FixedBlackhole _ => None
                          end in
      r ← probe_cycles policy canister cached_route;
      probe_batch policy cached now_nanos rest (record_probe now_nanos canister r b)
  end.

Definition probe_cycles_batch (C : CyclesProbeClient Heap) (canisters : list Principal)
    (policy : CyclesProbePolicy) (cached : btree_map Principal CyclesProbeRoute) (now_nanos : Z) :
    async RelayProbeBatch := probe_batch policy cached now_nanos canisters (MkBatch [] [] []).

(** ** The start of a job *)

Definition job_generation_matches (expected_next_job_id : Z) (lease : MainLeaseToken) (h : Heap) : bool :=
  lease_is_current lease (st h) && is_none (active_job (st h))
  && (next_job_id (st h) =? expected_next_job_id).

Definition store_route (policy : CyclesProbePolicy) (u : Principal * option CyclesProbeRoute)
    (m : btree_map Principal CyclesProbeRoute) : btree_map Principal CyclesProbeRoute :=
  match u.2, policy with
  | Some route, Auto => btree_insert u.1 route m
  | _, _ => btree_remove u.1 m
  end.

Definition store_routes (policy : CyclesProbePolicy) (b : RelayProbeBatch) (h : Heap) : Heap :=
  upd (fun s => s <| cached_cycles_probe_routes ::= fun m =>
         fold_left (fun m u => store_route policy u m) (route_updates b) m |>) h.

Record ProbeUpdate := MkProbeUpdate {
  statuses : list TargetProbeStatus;
  update_failures : list ProbeFailure;
}.

Definition probe_status (current : btree_map Principal CyclesSnapshot) (canister : Principal)
    (m : btree_map Principal Z) : TargetProbeStatus :=
  let observed := contains_key canister current in
  let next := if observed then 0 else sat_add32 (default 0 (btree_get canister m)) 1 in
  let classification := classify_target_probe observed next in
  MkProbeStatus canister next classification
    match classification with
    | Observable => None
    | TransientProbeFailure _ => Some SKIP_REASON_TRANSIENT_PROBE_FAILURE
    | UnavailableAfterConsecutiveFailures _ => Some SKIP_REASON_TARGET_UNAVAILABLE
    end.

Fixpoint probe_statuses (current : btree_map Principal CyclesSnapshot) (managed : list Principal)
    (m : btree_map Principal Z) : list TargetProbeStatus * btree_map Principal Z :=
  match managed with
  | [] => ([], m)
  | canister :: rest =>
      let s := probe_status current canister m in
      let '(l, m) := probe_statuses current rest
                       (btree_insert canister (tps_consecutive_probe_failures s) m) in
      (s :: l, m)
  end.

Definition update_consecutive_probe_failures (managed : list Principal)
    (current : btree_map Principal CyclesSnapshot) (probe_failures : list (Principal * string))
    (h : Heap) : ProbeUpdate * Heap :=
  let by_canister := btree_extend probe_failures [] in
  let m := btree_retain (fun c => bool_decide (c ∈ managed)) (consecutive_probe_failures (st h)) in
  let '(l, m) := probe_statuses current managed m in
  (MkProbeUpdate l
     (omap (fun s =>
        (fun error => MkProbeFailure (tps_canister_id s) error (tps_consecutive_probe_failures s))
          <$> btree_get (tps_canister_id s) by_canister) l),
   upd (fun s => s <| consecutive_probe_failures := m |>) h).

Definition is_transient (s : TargetProbeStatus) : bool :=
  match tps_classification s with TransientProbeFailure _ => true | _ => false end.
Definition is_unavailable (s : TargetProbeStatus) : bool :=
  match tps_classification s with UnavailableAfterConsecutiveFailures _ => true | _ => false end.

Definition min_cycles (current : btree_map Principal CyclesSnapshot) : option Z :=
  match map (fun kv => snap_cycles kv.2) current with
  | [] => None
  | c :: l => Some (fold_left Z.min l c)
  end.

(** The summary of a run that starts no job. *)
Definition idle_summary (mode : RelayMode) (now_nanos : Z) (managed : list Principal)
    (current : btree_map Principal CyclesSnapshot) (why : string) (u : ProbeUpdate) : RelaySummary :=
  (RelaySummary_started mode now_nanos (as_u32 (Z.of_nat (length managed))))
    <| rs_completed_at_ts_nanos := Some now_nanos |>
    <| rs_min_cycles_balance := min_cycles current |>
    <| rs_probe_failures := update_failures u |>
    <| rs_target_probe_statuses := statuses u |>
    <| rs_skipped_surplus_reason := Some why |>.

Definition complete_baseline_sample (current : btree_map Principal CyclesSnapshot)
    (managed : list Principal) (summary : RelaySummary) (s : State) : State :=
  let s := retain_effective_targets (set_of_list managed) s in
  let s := fold_left (fun s kv =>
    if contains_key kv.1 (last_completed_cycles s) then s
    else s <| last_completed_cycles ::= btree_insert kv.1 kv.2 |>
           <| relay_minted_cycles_since_sample ::= btree_remove kv.1 |>) current s in
  s <| last_summary := Some summary |>.

Definition complete_no_funds_sample (current : btree_map Principal CyclesSnapshot)
    (managed : list Principal) (summary : RelaySummary) (s : State) : State :=
  let s := retain_effective_targets (set_of_list managed) s in
  let s := fold_left (fun s kv =>
    s <| last_completed_cycles ::= btree_insert kv.1 kv.2 |>
      <| relay_minted_cycles_since_sample ::= btree_remove kv.1 |>) current s in
  (persist_recovery_deficits_from_samples (rs_canisters summary) s) <| last_summary := Some summary |>.

Definition retained_e8s (balance : Z) (canisters : list CanisterBurnSample)
    (surplus : list SurplusTransferSample) : Z :=
  let topup_gross := sum_u64 (map cb_gross_share_e8s
                       (List.filter (fun s => 0 <? cb_amount_e8s s) canisters)) in
  let surplus_gross := sum_u64 (map sx_gross_share_e8s
                         (List.filter (fun s => 0 <? sx_amount_e8s s) surplus)) in
  sat_sub balance (sat_add topup_gross surplus_gross).

(** With raw ICP recipients the measured plan, otherwise everything is spent on
    cycles. *)
Definition plan_allocation (has_raw_icp_recipients : bool) (s : State)
    (current : btree_map Principal CyclesSnapshot) (balance fee : Z)
    (estimate : option ConversionEstimate) (now_nanos : Z) : AllocationPlan :=
  if has_raw_icp_recipients
  then build_allocation_plan current (last_completed_cycles s) (relay_minted_cycles_since_sample s)
         (recovery_deficit_cycles s) balance fee estimate now_nanos
  else build_spend_all_cycles_plan current (last_completed_cycles s)
         (relay_minted_cycles_since_sample s) (recovery_deficit_cycles s) balance fee.

Definition build_no_funds_summary (now_nanos : Z) (managed : list Principal) (balance fee : Z)
    (has_raw_icp_recipients : bool) (current : btree_map Principal CyclesSnapshot) (s : State) :
    RelaySummary :=
  let allocation := plan_allocation has_raw_icp_recipients s current balance fee None now_nanos in
  let canisters := map burn_sample (topups allocation) in
  (refresh_canister_totals
    ((RelaySummary_started NoFunds now_nanos (as_u32 (Z.of_nat (length managed))))
       <| rs_completed_at_ts_nanos := Some now_nanos |>
       <| rs_default_account_balance_start_e8s := balance |>
       <| rs_fee_e8s := fee |>
       <| rs_min_cycles_balance := min_cycles current |>
       <| rs_skipped_surplus_reason := Some "no_surplus"%string |>
       <| rs_canisters := canisters |>
       <| rs_total_burn_cycles := sum_u128 (map cb_burn_cycles canisters) |>))
    <| rs_planned_retained_e8s := balance |>
    <| rs_known_unspent_e8s := balance |>.

(** The job that a plan starts. *)
Definition new_job (id now_nanos : Z) (managed : list Principal) (balance fee : Z)
    (has_raw_icp_recipients : bool) (estimate : option ConversionEstimate)
    (current : btree_map Principal CyclesSnapshot) (u : ProbeUpdate) (allocation : AllocationPlan) :
    ActiveRelayJob :=
  let canisters := map burn_sample (topups allocation) in
  let retained := retained_e8s balance canisters [] in
  let summary :=
    (refresh_canister_totals
      ((RelaySummary_started TopUpThenSurplus now_nanos (as_u32 (Z.of_nat (length managed))))
         <| rs_default_account_balance_start_e8s := balance |>
         <| rs_fee_e8s := fee |>
         <| rs_min_cycles_balance := min_cycles current |>
         <| rs_total_burn_cycles := sum_u128 (map cb_burn_cycles canisters) |>
         <| rs_canisters := canisters |>
         <| rs_probe_failures := update_failures u |>
         <| rs_target_probe_statuses := statuses u |>))
      <| rs_conversion_estimate_used := if has_raw_icp_recipients then estimate else None |>
      <| rs_skipped_surplus_reason := skipped_surplus_reason allocation |>
      <| rs_planned_retained_e8s := retained |>
      <| rs_known_unspent_e8s := retained |>
      <| rs_surplus_allowed_despite_unavailable_targets := existsb is_unavailable (statuses u) |> in
  {| j_id := id;
     j_started_at_ts_nanos := now_nanos;
     j_fee_e8s := fee;
     j_balance_start_e8s := balance;
     j_current_cycles := current;
     j_canisters := canisters;
     j_surplus_transfers := [];
     j_surplus_memos := [];
     j_surplus_phase_planned := negb has_raw_icp_recipients || negb (topup_phase_fully_funded allocation);
     j_pending_transfer := None;
     j_next_transfer_index := 0;
     j_surplus_transfer_index := 0;
     j_next_created_at_time_nanos := now_nanos;
     j_summary := summary |}.

(** The observed targets' minted cycles are consumed by the job. *)
Definition consume_minted (current : btree_map Principal CyclesSnapshot) (h : Heap) : Heap :=
  upd (fun s => s <| relay_minted_cycles_since_sample ::= fun m =>
         fold_left (fun m c => btree_remove c m) (btree_keys current) m |>) h.

Definition store_job (lease : MainLeaseToken) (expected_next_job_id : Z) (job : ActiveRelayJob)
    (h : Heap) : Heap :=
  if job_generation_matches expected_next_job_id lease h
  then upd (fun s => s <| next_job_id := sat_add (next_job_id s) 1 |> <| active_job := Some job |>) h
  else h.

Definition store_estimate (lease : MainLeaseToken) (r : result IcpXdrConversionRate ClientError)
    (h : Heap) : Heap :=
  match r with
  | Ok rate =>
      match conversion_estimate_from_cmc_rate (xdr_permyriad_per_icp rate) (rate_timestamp_seconds rate) with
      | Ok estimate =>
          if lease_is_current lease (st h)
          then upd (fun s => s <| conversion_estimate := Some estimate |>) h else h
      | Err _ => h
      end
  | Err _ => h
  end.

Definition refresh_conversion_estimate_from_cmc (cmc : Principal) (lease : MainLeaseToken) : async unit :=
  r ← get_icp_xdr_conversion_rate cmc;
  modify (store_estimate lease r).

Definition refresh_conversion_estimate_if_needed_with_lease (has_raw_icp_recipients : bool)
    (cmc : Principal) (lease : MainLeaseToken) : async unit :=
  if has_raw_icp_recipients then refresh_conversion_estimate_from_cmc cmc lease else mret tt.

(** From the balance read on. *)
Definition start_funded_job (ledger cmc self_id : Principal) (now_nanos : Z) (lease : MainLeaseToken)
    (cfg : Config) (expected_next_job_id : Z) (managed : list Principal)
    (current : btree_map Principal CyclesSnapshot) (u : ProbeUpdate) : async unit :=
  balance ← balance_of_e8s ledger (default_account self_id);
  match balance with
  | Err e =>
      let summary := idle_summary Degraded now_nanos managed current "ledger_balance_read_failed" u in
      modify (upd (fun s => s <| last_summary := Some (summary <| rs_probe_failures ::= cons
        (MkProbeFailure (ledger_canister_id cfg) ("balance read failed: " ++ show_error e)%string 0) |>) |>))
  | Ok balance =>
      matches ← with_state (job_generation_matches expected_next_job_id lease);
      if negb (matches : bool) then mret tt
      else
        fee ← resolve_icp_ledger_fee_e8s ledger;
        matches ← with_state (job_generation_matches expected_next_job_id lease);
        if negb (matches : bool) then mret tt
        else
          let has_raw_icp_recipients := negb (Nat.eqb (length (surplus_recipients cfg)) 0) in
          if balance =? 0 then
            modify (fun h =>
              let summary :=
                (build_no_funds_summary now_nanos managed balance fee has_raw_icp_recipients current (st h))
                  <| rs_probe_failures := update_failures u |>
                  <| rs_target_probe_statuses := statuses u |>
                  <| rs_surplus_allowed_despite_unavailable_targets := existsb is_unavailable (statuses u) |> in
              upd (complete_no_funds_sample current managed summary) h)
          else
            refresh_conversion_estimate_if_needed_with_lease has_raw_icp_recipients cmc lease;;
            matches ← with_state (job_generation_matches expected_next_job_id lease);
            if negb (matches : bool) then mret tt
            else
              modify (fun h =>
                let estimate := conversion_estimate (st h) in
                let allocation := plan_allocation has_raw_icp_recipients (st h) current balance fee
                                    estimate now_nanos in
                store_job lease expected_next_job_id
                  (new_job expected_next_job_id now_nanos managed balance fee has_raw_icp_recipients
                     estimate current u allocation)
                  (consume_minted current h))
  end.

(** After the probe, in one step: [None] when the run ends there. *)
Definition observe (policy : CyclesProbePolicy) (now_nanos : Z) (managed : list Principal)
    (b : RelayProbeBatch) (h : Heap) : option ProbeUpdate * Heap :=
  let h := store_routes policy b h in
  let '(u, h) := update_consecutive_probe_failures managed (snapshots b) (failures b) h in
  if existsb is_transient (statuses u) then
    (None, upd (fun s => s <| last_summary := Some
       (idle_summary Degraded now_nanos managed (snapshots b) SKIP_REASON_TRANSIENT_PROBE_FAILURE u) |>) h)
  else if negb (forallb (fun c => contains_key c (last_completed_cycles (st h))) (btree_keys (snapshots b)))
  then
    (None, upd (complete_baseline_sample (snapshots b) managed
       (idle_summary BaselineOnly now_nanos managed (snapshots b) "missing_previous_sample" u)) h)
  else (Some u, h).

Definition start_job_with_self_with_lease (C : CyclesProbeClient Heap) (ledger cmc self_id : Principal)
    (self_balance now_nanos : Z) (lease : MainLeaseToken) : async unit :=
  s ← with_state st;
  if negb (is_none (active_job s)) then mret tt
  else
    let cfg := config s in
    let managed := effective_managed_canisters (managed_canisters cfg) self_id in
    let cached := btree_extend (omap (fun t => (fun r => (t, r)) <$> btree_get t (cached_cycles_probe_routes s))
                                  managed) [] in
    b ← probe_cycles_batch (RelayCyclesProbeClient C self_id self_balance) managed
          (cycles_probe_policy cfg) cached now_nanos;
    matches ← with_state (job_generation_matches (next_job_id s) lease);
    if negb (matches : bool) then mret tt
    else
      u ← with_state_mut (observe (cycles_probe_policy cfg) now_nanos managed b);
      match u with
      | None => mret tt
      | Some u =>
          start_funded_job ledger cmc self_id now_nanos lease cfg (next_job_id s) managed (snapshots b) u
      end.

(** ** The surplus phase *)

Definition surplus_allowed_after_topups (job : ActiveRelayJob) : result unit string :=
  let s := j_summary job in
  if negb (rs_failed_transfers s =? 0) then Err "topup_transfer_failed"%string
  else if negb (rs_ambiguous_transfers s =? 0) then Err "topup_transfer_ambiguous"%string
  else if negb (rs_cmc_notify_failed_count s =? 0) then Err "cmc_notify_failed"%string
  else if negb (rs_cmc_notify_ambiguous_count s =? 0) then Err "cmc_notify_ambiguous"%string
  else if existsb (fun c => 0 <? cb_remaining_deficit_cycles c) (j_canisters job)
  then Err SKIP_REASON_UNRECOVERED_CYCLE_DEFICIT
  else Ok tt.

Definition topup_phase_done_and_surplus_unplanned (h : Heap) : bool :=
  match active_job (st h) with
  | Some job =>
      (Z.of_nat (length (j_canisters job)) <=? j_next_transfer_index job)
      && negb (j_surplus_phase_planned job)
  | None => false
  end.

(** The job [expected_job_id] while its surplus is unplanned, under the lease. *)
Definition with_unplanned_job (lease : MainLeaseToken) (expected_job_id : Z)
    (f : ActiveRelayJob -> ActiveRelayJob) (h : Heap) : Heap :=
  if negb (lease_is_current lease (st h)) then h
  else
    match active_job (st h) with
    | Some job =>
        if (j_id job =? expected_job_id) && negb (j_surplus_phase_planned job)
        then upd (fun s => s <| active_job := Some (f job) |>) h else h
    | None => h
    end.

Definition plan_surplus (surplus : list SurplusTransferSample) (memos : list (option (list Z)))
    (before_fees : Z) (why : option string) (job : ActiveRelayJob) : ActiveRelayJob :=
  let retained := retained_e8s (j_balance_start_e8s job) (j_canisters job) surplus in
  job <| j_surplus_transfers := surplus |>
      <| j_surplus_memos := memos |>
      <| j_surplus_transfer_index := 0 |>
      <| j_surplus_phase_planned := true |>
      <| j_summary ::= fun s => refresh_canister_totals
           (s <| rs_surplus_e8s_before_fees := before_fees |>
              <| rs_surplus_transfers := surplus |>
              <| rs_skipped_surplus_reason := why |>
              <| rs_planned_retained_e8s := retained |>
              <| rs_known_unspent_e8s := retained |>) |>.

Definition disable_surplus (expected_job_id : Z) (lease : MainLeaseToken) (why : string) : Heap -> Heap :=
  with_unplanned_job lease expected_job_id (plan_surplus [] [] 0 (Some why)).

(** [None] stands for the error. *)
Fixpoint resolve_recipients (governance governance_id : Principal) (l : list SurplusRecipient) :
    async (option (list ResolvedSurplusRecipient)) :=
  match l with
  | [] => mret (Some [])
  | r :: rest =>
      match target r with
      | SurplusCanister _ =>
          tail ← resolve_recipients governance governance_id rest;
          mret match tail, resolve_canister_surplus_recipient r with
               | Some tail, Some candidate => Some (candidate :: tail)
               | _, _ => tail
               end
      | SurplusNeuron neuron_id =>
          sub ← neuron_staking_subaccount governance neuron_id;
          match sub with
          | Err _ => mret None
          | Ok sub =>
              tail ← resolve_recipients governance governance_id rest;
              mret ((fun tail => {| resolved_target := target r;
                                    resolved_account := MkAccount _ governance_id (Some sub);
                                    resolved_memo := recipient_memo r |} :: tail) <$> tail)
          end
      end
  end.

Definition resolve_surplus_recipients (cfg : Config) (governance : Principal) :
    async (option (list ResolvedSurplusRecipient)) :=
  r ← resolve_recipients governance (governance_canister_id cfg) (surplus_recipients cfg);
  mret match r with
       | Some l => if reject_duplicate_resolved_destinations l then Some l else None
       | None => None
       end.

Definition plan_surplus_phase (now_nanos : Z) (governance : Principal) (lease : MainLeaseToken) :
    async unit :=
  s ← with_state st;
  match active_job s with
  | None => mret tt
  | Some job =>
      if j_surplus_phase_planned job then mret tt
      else
        match surplus_allowed_after_topups job with
        | Err why => modify (disable_surplus (j_id job) lease why)
        | Ok _ =>
            r ← resolve_surplus_recipients (config s) governance;
            match r with
            | None => modify (disable_surplus (j_id job) lease "recipient_resolution_failed")
            | Some recipients =>
                modify (fun h =>
                  let '(surplus, before_fees, why) :=
                    build_surplus_plan recipients (rs_known_unspent_e8s (j_summary job)) (j_fee_e8s job)
                      (conversion_estimate (st h)) now_nanos in
                  with_unplanned_job lease (j_id job)
                    (plan_surplus surplus (map resolved_memo recipients) before_fees why) h)
            end
        end
  end.

(** ** The next transfer *)

Inductive TransferPlanStep := Planned | Paused | Done.

(** The first sample from [index] on with a positive amount, with its index,
    and the index after it. *)
Fixpoint next_payable {X} (amount : X -> Z) (index : Z) (l : list X) : Z * option (Z * X) :=
  match l with
  | [] => (index, None)
  | x :: rest =>
      if amount x =? 0 then next_payable amount (sat_add32 index 1) rest
      else (sat_add32 index 1, Some (index, x))
  end.

Definition next_created_at (job : ActiveRelayJob) (now_nanos : Z) : Z * ActiveRelayJob :=
  let created_at := Z.max (j_next_created_at_time_nanos job) now_nanos in
  (created_at, job <| j_next_created_at_time_nanos := sat_add created_at 1 |>).

Definition stage (kind : PendingTransferKind) (gross amount now_nanos : Z) (job : ActiveRelayJob) :
    ActiveRelayJob :=
  let '(created_at, job) := next_created_at job now_nanos in
  job <| j_pending_transfer := Some (MkPending kind gross amount created_at AwaitingTransfer) |>.

(** [next_topup_pending] and [next_surplus_pending]: whether a transfer was staged. *)
Definition next_topup_pending (now_nanos : Z) (job : ActiveRelayJob) : bool * ActiveRelayJob :=
  let '(index, found) := next_payable cb_amount_e8s (j_next_transfer_index job)
                           (skipn (Z.to_nat (j_next_transfer_index job)) (j_canisters job)) in
  let job := job <| j_next_transfer_index := index |> in
  match found with
  | None => (false, job)
  | Some (_, sample) =>
      (true, stage (CmcTopUp (cb_canister_id sample)) (cb_gross_share_e8s sample)
               (cb_amount_e8s sample) now_nanos job)
  end.

Definition cancel_surplus (why : string) (job : ActiveRelayJob) : ActiveRelayJob :=
  job <| j_surplus_transfers := [] |>
      <| j_surplus_memos := [] |>
      <| j_surplus_transfer_index := 0 |>
      <| j_summary ::= fun s =>
           s <| rs_surplus_transfers := [] |>
             <| rs_surplus_e8s_before_fees := 0 |>
             <| rs_skipped_surplus_reason := Some why |> |>.

Definition next_surplus_pending (now_nanos : Z) (job : ActiveRelayJob) : bool * ActiveRelayJob :=
  if Nat.eqb (length (j_surplus_transfers job)) 0 then (false, job)
  else
    match surplus_allowed_after_topups job with
    | Err why => (false, cancel_surplus why job)
    | Ok _ =>
        let '(index, found) := next_payable sx_amount_e8s (j_surplus_transfer_index job)
          (skipn (Z.to_nat (j_surplus_transfer_index job)) (j_surplus_transfers job)) in
        let job := job <| j_surplus_transfer_index := index |> in
        match found with
        | None => (false, job)
        | Some (i, plan) =>
            let memo := default None (j_surplus_memos job !! Z.to_nat i) in
            (true, stage (SurplusIcp (sx_target plan) (sx_account plan) memo) (sx_gross_share_e8s plan)
                     (sx_amount_e8s plan) now_nanos job)
        end
    end.

Definition remains {X} (amount : X -> Z) (index : Z) (l : list X) : bool :=
  existsb (fun x => 0 <? amount x) (skipn (Z.to_nat index) l).

(** The step, the transfers started and the job. *)
Definition plan_next_transfer (max_transfers_this_tick : option Z) (started now_nanos : Z)
    (job : ActiveRelayJob) : TransferPlanStep * Z * ActiveRelayJob :=
  if negb (remains cb_amount_e8s (j_next_transfer_index job) (j_canisters job))
     && negb (remains sx_amount_e8s (j_surplus_transfer_index job) (j_surplus_transfers job))
  then
    (Done, started,
     job <| j_next_transfer_index := as_u32 (Z.of_nat (length (j_canisters job))) |>
         <| j_surplus_transfer_index := as_u32 (Z.of_nat (length (j_surplus_transfers job))) |>)
  else if is_some_and max_transfers_this_tick (fun limit => limit <=? started)
  then
    (Paused, started,
     job <| j_summary ::= fun s => s <| rs_partial_tick_count := sat_add32 (rs_partial_tick_count s) 1 |> |>)
  else
    let '(staged, job) := next_topup_pending now_nanos job in
    if staged then (Planned, sat_add32 started 1, job)
    else
      let '(staged, job) := next_surplus_pending now_nanos job in
      if staged then (Planned, sat_add32 started 1, job) else (Done, started, job).

Definition plan_step (max_transfers_this_tick : option Z) (started now_nanos : Z) (h : Heap) :
    option (TransferPlanStep * Z) * Heap :=
  match active_job (st h) with
  | None => (None, h)
  | Some job =>
      let '(step, started, job) := plan_next_transfer max_transfers_this_tick started now_nanos job in
      (Some (step, started), upd (fun s => s <| active_job := Some job |>) h)
  end.

(** ** [drive_active_job] *)

(** What a round does next. *)
Inductive Focus := Stop | DrivePending | PlanSurplus | PlanTransfer.

Definition focus (lease : MainLeaseToken) (h : Heap) : Focus :=
  if negb (lease_is_current lease (st h)) then Stop
  else
    match active_job (st h) with
    | None => Stop
    | Some job =>
        if is_some (j_pending_transfer job) then DrivePending
        else if topup_phase_done_and_surplus_unplanned h then PlanSurplus else PlanTransfer
    end.

Section drive.
Context (ledger cmc governance : Principal) (now_nanos : Z) (lease : MainLeaseToken).
Context (max_transfers_this_tick : option Z).

Fixpoint drive_rounds (fuel : nat) (started : Z) : async bool :=
  match fuel with
  | 0%nat => out_of_fuel
  | S fuel =>
      f ← with_state (focus lease);
      match f with
      | Stop => mret true
      | DrivePending =>
          cmc_id ← with_state (fun h => cmc_canister_id (config (st h)));
          ok ← Transfer.drive_pending_transfer ledger cmc cmc_id now_nanos;
          if negb (ok : bool) then mret false else drive_rounds fuel started
      | PlanSurplus =>
          plan_surplus_phase now_nanos governance lease;;
          drive_rounds fuel started
      | PlanTransfer =>
          t ← now;
          step ← with_state_mut (plan_step max_transfers_this_tick started t);
          match step with
          | None => trap
          | Some (Planned, started) => drive_rounds fuel started
          | Some (Paused, _) => mret true
          | Some (Done, started) =>
              unplanned ← with_state topup_phase_done_and_surplus_unplanned;
              if unplanned : bool then drive_rounds fuel started
              else
                current ← with_state (fun h => lease_is_current lease (st h));
                if negb (current : bool) then mret true
                else modify (complete_job now_nanos);; mret true
          end
      end
  end.

End drive.

(** Two rounds for each planned transfer, one for the one that is staged, one
    to plan the surplus, one that finds the top-ups done, and one to end. *)
Definition drive_fuel (h : Heap) : nat :=
  match active_job (st h) with
  | None => 1
  | Some job => 2 * (length (j_canisters job)
                     + Nat.max (length (j_surplus_transfers job)) (length (surplus_recipients (config (st h))))) + 4
  end.

Definition drive_active_job (ledger cmc governance : Principal) (now_nanos : Z) (lease : MainLeaseToken) :
    async bool :=
  h ← with_state id;
  drive_rounds ledger cmc governance now_nanos lease (max_transfers_per_tick (config (st h)))
    (drive_fuel h) 0.

End job.
