(* ===== verification/RelayAccounting.v ===== *)
(** * Relay: the accounting of a job

    [job_ok] says that what a job has debited, has in flight, has still planned
    and reports as unspent adds up to at most the balance it started with.  Every
    operation on the job of [RelayTransfer] and [RelayJob] preserves it, so the
    relay never plans, sends or reports more than it had. *)

From S2P Require Import Prelude BTree Async Ic Clients TimerGuard CyclesProbe RelayState RelayLogic RelaySplitter RelayTransfer RelayJob.

(** ** Gross amounts of planned transfers *)

Section gross.
Context {X : Type} (amount gross : X -> Z).

(** What the payable transfers of a plan take from the account. *)
Definition gross_of (l : list X) : Z := sumZ (map (fun x => if 0 <? amount x then gross x else 0) l).

(** A transfer is skipped, or takes its amount and the fee. *)
Definition share_fits (fee : Z) (x : X) : Prop :=
  amount x = 0 \/ 0 < amount x /\ gross x = amount x + fee.

Lemma gross_of_cons x l : gross_of (x :: l) = (if 0 <? amount x then gross x else 0) + gross_of l.
Proof using Type. unfold gross_of. cbn [map]. by rewrite sumZ_cons. Qed.

Lemma gross_of_app l k : gross_of (l ++ k) = gross_of l + gross_of k.
Proof using Type. unfold gross_of. by rewrite map_app, sumZ_app. Qed.

Lemma gross_of_filter l : sumZ (map gross (List.filter (fun x => 0 <? amount x) l)) = gross_of l.
Proof using Type.
  induction l as [|x l IH]; [done|]. rewrite gross_of_cons, <- IH. cbn [List.filter].
  destruct (0 <? amount x); cbn [map]; rewrite ?sumZ_cons; lia.
Qed.

Context (fee : Z) (Hfee : 0 <= fee).

Lemma gross_of_nonneg l : Forall (share_fits fee) l -> 0 <= gross_of l.
Proof using Hfee.
  induction 1 as [|x l Hx _ IH]; [unfold gross_of; cbn [map]; by rewrite sumZ_nil|]. rewrite gross_of_cons.
  destruct (0 <? amount x) eqn:E; zify_bool; destruct Hx; lia.
Qed.

Lemma gross_of_skipn i l : Forall (share_fits fee) l -> 0 <= gross_of (skipn i l) <= gross_of l.
Proof using Hfee.
  intros Hl. rewrite <- (take_drop i l) in Hl. apply Forall_app in Hl as [H1 H2].
  assert (gross_of l = gross_of (take i l) + gross_of (drop i l)) as -> by (by rewrite <- gross_of_app, take_drop).
  pose proof (gross_of_nonneg _ H1). pose proof (gross_of_nonneg _ H2). lia.
Qed.

Lemma gross_of_zero l : Forall (share_fits fee) l ->
  existsb (fun x => 0 <? amount x) l = false -> gross_of l = 0.
Proof using Type.
  induction 1 as [|x l Hx _ IH]; [by unfold gross_of|]. cbn [existsb]. rewrite gross_of_cons.
  intros [E1 E2]%orb_false_iff. rewrite E1, IH; done.
Qed.

(** The search for the next transfer skips only transfers that take nothing. *)
Lemma next_payable_spec index l index' found :
  Forall (share_fits fee) l -> 0 <= index -> index + Z.of_nat (length l) <= u32_max ->
  next_payable amount index l = (index', found) ->
  match found with
  | None => gross_of l = 0 /\ index' = index + Z.of_nat (length l)
  | Some (i, x) => exists skipped rest, l = skipped ++ x :: rest /\
      gross_of skipped = 0 /\ i = index + Z.of_nat (length skipped) /\ index' = i + 1 /\
      0 < amount x /\ gross x = amount x + fee
  end.
Proof using Type.
  intros Hl. revert index. induction Hl as [|x l Hx Hl IH]; intros index Hi Hlen; cbn [next_payable].
  - intros [= <- <-]. cbn [length]. split; [done|lia].
  - cbn [length] in Hlen. destruct (amount x =? 0) eqn:E; zify_bool.
    + unfold sat_add32. rewrite Z.min_l by lia. intros Hn. specialize (IH (index + 1) ltac:(lia) ltac:(lia) Hn).
      assert ((if 0 <? amount x then gross x else 0) = 0) as Hz
        by (destruct (0 <? amount x) eqn:E'; zify_bool; lia).
      destruct found as [[i y]|].
      * destruct IH as (skipped & rest & -> & Hg & -> & -> & Hy). exists (x :: skipped), rest.
        rewrite gross_of_cons, Hz. cbn [length]. split; [done|]. split; [lia|]. split; [lia|]. split; [lia|done].
      * rewrite gross_of_cons, Hz. cbn [length]. lia.
    + intros [= <- <-]. exists [], l. cbn [length app]. split; [done|]. split; [done|].
      split; [lia|]. split; [unfold sat_add32; lia|]. destruct Hx; lia.
Qed.

(** Counters of samples that keep the plan. *)
Lemma gross_of_update (sel : X -> bool) (f : X -> X) l :
  (forall x, amount (f x) = amount x /\ gross (f x) = gross x) ->
  gross_of (update_first sel f l) = gross_of l /\
  (Forall (share_fits fee) l -> Forall (share_fits fee) (update_first sel f l)) /\
  length (update_first sel f l) = length l /\
  forall i, gross_of (skipn i (update_first sel f l)) = gross_of (skipn i l).
Proof using Type.
  intros Hf. induction l as [|x l (IH1 & IH2 & IH3 & IH4)]; [done|]. cbn [update_first].
  destruct (Hf x) as [Ea Eg]. destruct (sel x).
  - rewrite !gross_of_cons, Ea, Eg. split; [done|]. split; [|split; [done|]].
    + intros [Hx Hl]%Forall_cons. apply Forall_cons. split; [|done]. unfold share_fits. by rewrite Ea, Eg.
    + intros [|i]; [|done]. cbn [skipn]. by rewrite !gross_of_cons, Ea, Eg.
  - rewrite !gross_of_cons, IH1. split; [done|]. split; [|split; [cbn; by rewrite IH3|]].
    + intros [Hx Hl]%Forall_cons. apply Forall_cons. auto.
    + intros [|i]; [|apply IH4]. cbn [skipn]. by rewrite !gross_of_cons, IH1.
Qed.

End gross.

Section accounting.
Context `{P : PrincipalSpec} `{O : !OrdSpec Principal} `{A : !AccountSpec}.
#[local] Existing Instance Principal_eq_dec.

Abbreviation topup_gross := (gross_of cb_amount_e8s cb_gross_share_e8s).
Abbreviation surplus_gross_of := (gross_of sx_amount_e8s sx_gross_share_e8s).

Definition topups_left (job : ActiveRelayJob) : Z :=
  topup_gross (skipn (Z.to_nat (j_next_transfer_index job)) (j_canisters job)).
Definition surplus_left (job : ActiveRelayJob) : Z :=
  surplus_gross_of (skipn (Z.to_nat (j_surplus_transfer_index job)) (j_surplus_transfers job)).
(** Debits the ledger accepted, with their fees. *)
Definition debited (job : ActiveRelayJob) : Z :=
  rs_ledger_sent_e8s (j_summary job) + rs_ledger_fees_e8s (j_summary job).
(** The transfer that is staged and not yet accepted. *)
Definition awaiting (job : ActiveRelayJob) : Z :=
  match j_pending_transfer job with
  | Some p => if bool_decide (pt_phase p = AwaitingTransfer) then pt_gross_share_e8s p else 0
  | None => 0
  end.
Definition unspent (job : ActiveRelayJob) : Z := rs_known_unspent_e8s (j_summary job).

Definition pending_ok (fee : Z) (p : PendingTransfer) : Prop :=
  0 <= pt_amount_e8s p /\ pt_gross_share_e8s p = pt_amount_e8s p + fee.

Record job_ok (job : ActiveRelayJob) : Prop := {
  ok_balance : u64 (j_balance_start_e8s job);
  ok_fee : 0 <= j_fee_e8s job;
  ok_topups : Forall (share_fits cb_amount_e8s cb_gross_share_e8s (j_fee_e8s job)) (j_canisters job);
  ok_surplus : Forall (share_fits sx_amount_e8s sx_gross_share_e8s (j_fee_e8s job)) (j_surplus_transfers job);
  ok_lengths : Z.of_nat (length (j_canisters job)) <= u32_max /\
               Z.of_nat (length (j_surplus_transfers job)) <= u32_max;
  ok_index : 0 <= j_next_transfer_index job <= Z.of_nat (length (j_canisters job));
  ok_surplus_index : 0 <= j_surplus_transfer_index job <= Z.of_nat (length (j_surplus_transfers job));
  ok_pending : match j_pending_transfer job with Some p => pending_ok (j_fee_e8s job) p | None => True end;
  ok_counters : 0 <= rs_ledger_sent_e8s (j_summary job) /\ 0 <= rs_ledger_fees_e8s (j_summary job) /\
                0 <= unspent job /\ 0 <= rs_failed_transfers (j_summary job);
  ok_planned : topup_gross (j_canisters job) + surplus_gross_of (j_surplus_transfers job)
               <= j_balance_start_e8s job;
  ok_spent : debited job + awaiting job + topups_left job + surplus_left job + unspent job
             <= j_balance_start_e8s job;
  ok_unplanned : j_surplus_phase_planned job = false ->
    j_surplus_transfers job = [] /\
    debited job + awaiting job + topups_left job <= topup_gross (j_canisters job) /\
    (rs_failed_transfers (j_summary job) = 0 ->
     unspent job <= j_balance_start_e8s job - topup_gross (j_canisters job));
}.

(** The gross amounts that are left are bounded by what was planned. *)
Lemma left_bounds job : job_ok job ->
  0 <= topups_left job <= topup_gross (j_canisters job) /\
  0 <= surplus_left job <= surplus_gross_of (j_surplus_transfers job) /\ 0 <= awaiting job.
Proof using Type.
  intros H. destruct H. split; [by eapply gross_of_skipn|]. split; [by eapply gross_of_skipn|].
  unfold awaiting, pending_ok in *. destruct (j_pending_transfer job); [|lia]. case_bool_decide; lia.
Qed.

Lemma retained_spec balance canisters surplus :
  u64 balance -> 0 <= topup_gross canisters -> 0 <= surplus_gross_of surplus ->
  topup_gross canisters + surplus_gross_of surplus <= balance ->
  retained_e8s balance canisters surplus = balance - (topup_gross canisters + surplus_gross_of surplus).
Proof using Type.
  intros Hb H1 H2 H3. unfold retained_e8s, sum_u64. rewrite !gross_of_filter.
  unfold u64 in Hb. rewrite !Z.mod_small by lia. ulia.
Qed.

(** ** The drivers of a transfer *)

(** A job as [mark_pending_ambiguous] and its variants leave it: the staged
    transfer is gone and at most its gross amount is reported as unspent, once
    it is counted as failed. *)
Lemma taken_ok job f p :
  job_ok job -> j_pending_transfer job = Some p ->
  (forall s, rs_ledger_sent_e8s (f p s) = rs_ledger_sent_e8s s /\
             rs_ledger_fees_e8s (f p s) = rs_ledger_fees_e8s s) ->
  (forall s, 0 <= rs_failed_transfers s -> 0 <= rs_failed_transfers (f p s)) ->
  (let s := j_summary job in
   rs_known_unspent_e8s (f p s) = rs_known_unspent_e8s s /\
   (rs_failed_transfers (f p s) = 0 -> rs_failed_transfers s = 0) \/
   rs_known_unspent_e8s (f p s) = sat_add (rs_known_unspent_e8s s) (pt_gross_share_e8s p) /\
   pt_phase p = AwaitingTransfer /\ rs_failed_transfers (f p s) <> 0) ->
  job_ok (Transfer.take_pending f p job).
Proof using Type.
  intros H Hp Hd Hfailed Hu. pose proof (left_bounds _ H) as (Hl1 & Hl2 & Ha). destruct H.
  destruct (Hd (j_summary job)) as [Hd1 Hd2]. specialize (Hfailed (j_summary job)).
  unfold awaiting, pending_ok, debited, unspent in *. rewrite Hp in *.
  assert (0 <= pt_gross_share_e8s p) by lia.
  assert (0 <= rs_known_unspent_e8s (f p (j_summary job)) <=
    (if bool_decide (pt_phase p = AwaitingTransfer) then pt_gross_share_e8s p else 0) + unspent job)
    as [Hu0 Hu1].
  { destruct Hu as [[-> _]|(-> & -> & _)]; [unfold unspent; lia|]. unfold unspent.
    rewrite bool_decide_eq_true_2 by done. ulia. }
  unfold unspent in *.
  constructor; cbn; unfold const; try done; unfold debited, awaiting, unspent, topups_left, surplus_left in *;
    cbn; unfold const; try rewrite Hd1, Hd2; try lia.
  intros Hpl. destruct (ok_unplanned0 Hpl) as (Hs & Hle & Hf). split; [done|]. split; [lia|].
  intros Hf0. destruct Hu as [[-> Hff]|(_ & _ & Hff)]; [|done]. by apply Hf, Hff.
Qed.

(** ** The state *)

Definition state_ok (h : Heap) : Prop := forall job, active_job (st h) = Some job -> job_ok job.

Lemma with_matching_job_ok id p f h :
  (forall pending job, job_ok job -> j_pending_transfer job = Some pending -> job_ok (f pending job)) ->
  state_ok h -> state_ok (Transfer.with_matching_job id p f h).
Proof using Type.
  intros Hf Hh. unfold Transfer.with_matching_job. destruct (active_job (st h)) as [job|] eqn:Ha; [|done].
  destruct (j_pending_transfer job) as [pending|] eqn:Hp; [|done].
  destruct (Transfer.job_matches id p job); [|done]. intros job'. cbn. unfold const. intros [= <-].
  apply Hf; [by apply Hh|done].
Qed.

(** [sat_add32] of a counter does not come back to zero. *)
Lemma sat_add32_pos x : 0 <= x -> 0 < sat_add32 x 1.
Proof using Type. unfold sat_add32. lia. Qed.

Lemma mark_pending_failed_ok id p h :
  pt_phase p = AwaitingTransfer -> state_ok h -> state_ok (Transfer.mark_pending_failed id p h).
Proof using Type.
  intros Hph Hh. unfold Transfer.mark_pending_failed, Transfer.with_matching_job.
  destruct (active_job (st h)) as [job|] eqn:Ha; [|done].
  destruct (j_pending_transfer job) as [pending|] eqn:Hp; [|done].
  destruct (Transfer.job_matches id p job) eqn:Hm; [|done]. intros job'. cbn. unfold const. intros [= <-].
  unfold Transfer.job_matches, Transfer.pending_eqb in Hm. rewrite Hp in Hm. cbn in Hm.
  rewrite !andb_true_iff, !bool_decide_eq_true in Hm. destruct Hm as (_ & (_ & Hphase)).
  apply taken_ok; [by apply Hh|done|done| |].
  - intros s Hs. cbn. unfold const. pose proof (sat_add32_pos _ Hs). lia.
  - right. cbn. unfold const. split; [done|]. split; [congruence|].
    pose proof (sat_add32_pos _ (proj2 (proj2 (proj2 (ok_counters _ (Hh _ Ha)))))). lia.
Qed.

Lemma mark_pending_ambiguous_ok id p h : state_ok h -> state_ok (Transfer.mark_pending_ambiguous id p h).
Proof using Type.
  apply with_matching_job_ok. intros pending job Hj Hp. apply taken_ok; try done. by left.
Qed.

Lemma mark_pending_ambiguous_after_acceptance_ok id p h :
  state_ok h -> state_ok (Transfer.mark_pending_ambiguous_after_acceptance id p h).
Proof using Type.
  apply with_matching_job_ok. intros pending job Hj Hp. apply taken_ok; try done. by left.
Qed.

Lemma mark_pending_failed_after_acceptance_ok id p h :
  state_ok h -> state_ok (Transfer.mark_pending_failed_after_acceptance id p h).
Proof using Type.
  apply with_matching_job_ok. intros pending job Hj Hp. apply taken_ok; try done.
  - intros s Hs. cbn. unfold const. pose proof (sat_add32_pos _ Hs). lia.
  - left. split; [done|]. cbn. unfold const.
    pose proof (sat_add32_pos _ (proj2 (proj2 (proj2 (ok_counters _ Hj))))). lia.
Qed.

(** [job'] has the plan of [job]; only counters of its samples differ. *)
Definition same_plan (sel : CanisterBurnSample -> bool) (f : CanisterBurnSample -> CanisterBurnSample)
    (job job' : ActiveRelayJob) : Prop :=
  j_canisters job' = update_first sel f (j_canisters job) /\
  (j_balance_start_e8s job', j_fee_e8s job', j_surplus_transfers job', j_next_transfer_index job',
   j_surplus_transfer_index job', j_surplus_phase_planned job')
  = (j_balance_start_e8s job, j_fee_e8s job, j_surplus_transfers job, j_next_transfer_index job,
     j_surplus_transfer_index job, j_surplus_phase_planned job) /\
  rs_known_unspent_e8s (j_summary job') = rs_known_unspent_e8s (j_summary job) /\
  rs_failed_transfers (j_summary job') = rs_failed_transfers (j_summary job).

(** Samples counted by [update_first] keep the plan. *)
Lemma counted_ok sel f job job' :
  job_ok job -> same_plan sel f job job' ->
  (forall c, cb_amount_e8s (f c) = cb_amount_e8s c /\ cb_gross_share_e8s (f c) = cb_gross_share_e8s c) ->
  match j_pending_transfer job' with Some p => pending_ok (j_fee_e8s job) p | None => True end ->
  0 <= rs_ledger_sent_e8s (j_summary job') /\ 0 <= rs_ledger_fees_e8s (j_summary job') ->
  debited job' + awaiting job' <= debited job + awaiting job ->
  job_ok job'.
Proof using Type.
  intros H (Ec & [= Eb Ef Es Ei Esi Ep] & Eu & Efail) Hf Hp Hc Hd.
  destruct (gross_of_update cb_amount_e8s cb_gross_share_e8s (j_fee_e8s job) sel f
    (j_canisters job) Hf) as (G1 & G2 & G3 & G4).
  destruct H. unfold unspent, topups_left, surplus_left in *.
  constructor; unfold unspent, topups_left, surplus_left in *;
    rewrite ?Ec, ?Eb, ?Ef, ?Es, ?Ei, ?Esi, ?Ep, ?Eu, ?Efail, ?G1, ?G3, ?G4; auto; try lia.
  intros Hpl. destruct (ok_unplanned0 Hpl) as (? & ? & ?). split; [done|]. split; [lia|done].
Qed.

Lemma update_first_none {X} (f : X -> X) l : update_first (fun _ => false) f l = l.
Proof using Type. induction l as [|x l IH]; cbn; [done|by rewrite IH]. Qed.

Lemma accept_pending_ok block pending job :
  job_ok job -> j_pending_transfer job = Some pending -> pt_phase pending = AwaitingTransfer ->
  job_ok (Transfer.accept_pending block pending job).
Proof using Type.
  intros H Hp Hph. pose proof (left_bounds _ H) as (Hl1 & Hl2 & Ha). pose proof H as H0.
  set (sel := match pt_kind pending with CmcTopUp c => Transfer.is_sample c | _ => fun _ => false end).
  set (job' := Transfer.accept_pending block pending job).
  assert (same_plan sel (Transfer.count_sent (pt_amount_e8s pending)) job job') as Hs.
  { unfold same_plan, job', sel, Transfer.accept_pending.
    destruct (pt_kind pending); (split; [|split; [|split]]); rewrite ?update_first_none; reflexivity. }
  assert (j_pending_transfer job' = Some (pending <| pt_phase := TransferAccepted block |>)) as Ep
    by (unfold job', Transfer.accept_pending; destruct (pt_kind pending); reflexivity).
  destruct H. unfold awaiting, pending_ok, debited, unspent, u64 in *. rewrite Hp in *.
  rewrite bool_decide_eq_true_2 in * by done.
  assert (rs_ledger_sent_e8s (j_summary job') = rs_ledger_sent_e8s (j_summary job) + pt_amount_e8s pending /\
          rs_ledger_fees_e8s (j_summary job') = rs_ledger_fees_e8s (j_summary job) + j_fee_e8s job) as (E1 & E2).
  { assert (sat_add (rs_ledger_sent_e8s (j_summary job)) (pt_amount_e8s pending)
            = rs_ledger_sent_e8s (j_summary job) + pt_amount_e8s pending) as <- by (unfold sat_add; lia).
    assert (sat_add (rs_ledger_fees_e8s (j_summary job)) (j_fee_e8s job)
            = rs_ledger_fees_e8s (j_summary job) + j_fee_e8s job) as <- by (unfold sat_add; lia).
    unfold job', Transfer.accept_pending. destruct (pt_kind pending); split; reflexivity. }
  apply (counted_ok sel (Transfer.count_sent (pt_amount_e8s pending)) job); [done|done|done| |lia|].
  - rewrite Ep. unfold pending_ok. by cbn.
  - unfold debited, awaiting. rewrite Ep, Hp, E1, E2. cbn. unfold const.
    rewrite (bool_decide_eq_false_2 (TransferAccepted block = AwaitingTransfer)) by done.
    rewrite (bool_decide_eq_true_2 _ Hph). lia.
Qed.

Lemma complete_pending_ok id expected notified minted h :
  state_ok h -> state_ok (Transfer.with_matching_job id expected (Transfer.complete_pending notified minted) h).
Proof using Type.
  apply with_matching_job_ok. intros pending job Hj Hp.
    pose proof (left_bounds _ Hj) as (_ & _ & Ha). pose proof (ok_counters _ Hj) as Hc.
    set (sel := match minted with Some (c, _) => Transfer.is_sample c | None => fun _ => false end).
    set (f := Transfer.count_minted match minted with Some (_, m) => m | None => 0 end).
    lazymatch goal with |- job_ok ?j => set (job' := j) end.
    assert (same_plan sel f job job') as Hs.
    { unfold same_plan, job', sel, f. destruct minted as [[c m]|], notified;
        (split; [|split; [|split]]); rewrite ?update_first_none; reflexivity. }
    assert (j_pending_transfer job' = None /\
            rs_ledger_sent_e8s (j_summary job') = rs_ledger_sent_e8s (j_summary job) /\
            rs_ledger_fees_e8s (j_summary job') = rs_ledger_fees_e8s (j_summary job)) as (Ep & E1 & E2)
      by (unfold job'; destruct minted as [[c m]|], notified; (split; [|split]); reflexivity).
    apply (counted_ok sel f job); [done|done|done| |lia|].
    - by rewrite Ep.
    - unfold debited, awaiting in *. rewrite Ep, E1, E2. lia.
Qed.

Lemma matches_phase id expected job pending :
  j_pending_transfer job = Some pending -> Transfer.job_matches id expected job = true ->
  pt_phase pending = pt_phase expected.
Proof using Type.
  intros Hp. unfold Transfer.job_matches, Transfer.pending_eqb. rewrite Hp. cbn.
  rewrite !andb_true_iff, !bool_decide_eq_true. by intros (_ & _ & ?).
Qed.

Lemma mark_pending_ledger_accepted_ok id expected block h :
  pt_phase expected = AwaitingTransfer ->
  state_ok h -> state_ok (Transfer.mark_pending_ledger_accepted id expected block h).2.
Proof using Type.
  intros Hph Hh. unfold Transfer.mark_pending_ledger_accepted. destruct (Transfer.pending_matches _ _ _); [|done].
  cbn [snd]. unfold Transfer.with_matching_job. destruct (active_job (st h)) as [job|] eqn:Ha; [|done].
  destruct (j_pending_transfer job) as [pending|] eqn:Hp; [|done].
  destruct (Transfer.job_matches id expected job) eqn:Hm; [|done]. intros job'. cbn. unfold const. intros [= <-].
  apply accept_pending_ok; [by apply Hh|done|]. by rewrite (matches_phase _ _ _ _ Hp Hm).
Qed.

(** ** The plan of the surplus *)

Lemma plan_surplus_ok surplus memos before why job :
  job_ok job -> j_surplus_phase_planned job = false -> j_pending_transfer job = None ->
  Forall (share_fits sx_amount_e8s sx_gross_share_e8s (j_fee_e8s job)) surplus ->
  Z.of_nat (length surplus) <= u32_max ->
  topup_gross (j_canisters job) + surplus_gross_of surplus <= j_balance_start_e8s job ->
  job_ok (plan_surplus surplus memos before why job).
Proof using Type.
  intros H Hpl Hp Hs Hlen Hle. pose proof (left_bounds _ H) as (Hl1 & Hl2 & Ha). destruct H.
  destruct (ok_unplanned0 Hpl) as (_ & Hd & _).
  pose proof (gross_of_nonneg _ _ _ ok_fee0 _ Hs) as Hsn.
  pose proof (retained_spec _ (j_canisters job) surplus ok_balance0 ltac:(lia) Hsn Hle) as Hr.
  set (job' := plan_surplus surplus memos before why job).
  assert (unspent job' = retained_e8s (j_balance_start_e8s job) (j_canisters job) surplus /\
          debited job' = debited job /\ awaiting job' = awaiting job /\
          topups_left job' = topups_left job /\ surplus_left job' = surplus_gross_of surplus)
    as (Eu & Ed & Ew & Et & Es) by (repeat split; reflexivity).
  constructor; try done.
  - by destruct ok_lengths0.
  - split; [apply Z.le_refl|]. apply Nat2Z.is_nonneg.
  - rewrite Eu, Hr. split; [apply ok_counters0|]. split; [apply ok_counters0|]. split; [lia|apply ok_counters0].
  - change (j_balance_start_e8s job') with (j_balance_start_e8s job). rewrite Eu, Ed, Ew, Et, Es, Hr. lia.
Qed.

Lemma cancel_surplus_ok why job :
  job_ok job -> job_ok (cancel_surplus why job).
Proof using Type.
  intros H. pose proof (left_bounds _ H) as (Hl1 & Hl2 & Ha). destruct H.
  unfold awaiting, debited, unspent, topups_left, surplus_left in *.
  constructor; unfold awaiting, debited, unspent, topups_left, surplus_left; cbn; unfold const;
    try done; try lia; try (by constructor).
  - change (surplus_gross_of []) with 0. lia.
  - lazymatch goal with |- context [surplus_gross_of ?l] => change (surplus_gross_of l) with 0 end. lia.
  - intros Hpl. destruct (ok_unplanned0 Hpl) as (_ & ? & ?). by split.
Qed.

(** ** The next transfer *)

Lemma gross_of_split {X} (amount gross : X -> Z) i (l skipped : list X) x rest :
  skipn i l = skipped ++ x :: rest -> gross_of amount gross skipped = 0 ->
  gross_of amount gross (skipn i l) =
    (if 0 <? amount x then gross x else 0) + gross_of amount gross (skipn (S (i + length skipped)) l).
Proof using Type.
  intros E Hz. replace (S (i + length skipped)) with (S (length skipped) + i)%nat by lia.
  rewrite <- skipn_skipn, E, gross_of_app, gross_of_cons, Hz.
  replace (skipped ++ x :: rest) with ((skipped ++ [x]) ++ rest) by (by rewrite <- app_assoc).
  rewrite drop_app_length' by (rewrite length_app; cbn; lia). lia.
Qed.

(** The search from an index of a plan: what is left after it. *)
Lemma next_payable_left {X} (amount gross : X -> Z) fee index (l : list X) index' found :
  0 <= fee -> Forall (share_fits amount gross fee) l -> 0 <= index <= Z.of_nat (length l) ->
  Z.of_nat (length l) <= u32_max ->
  next_payable amount index (skipn (Z.to_nat index) l) = (index', found) ->
  index <= index' <= Z.of_nat (length l) /\
  match found with
  | None => index' = Z.of_nat (length l) /\ gross_of amount gross (skipn (Z.to_nat index) l) = 0 /\
            gross_of amount gross (skipn (Z.to_nat index') l) = 0
  | Some (_, x) => index < index' /\ 0 < amount x /\ gross x = amount x + fee /\
      gross_of amount gross (skipn (Z.to_nat index) l)
      = gross x + gross_of amount gross (skipn (Z.to_nat index') l)
  end.
Proof using Type.
  intros Hfee Hl Hi Hlen E.
  assert (Z.of_nat (length (skipn (Z.to_nat index) l)) = Z.of_nat (length l) - index) as Hd
    by (rewrite length_drop; lia).
  pose proof (next_payable_spec amount gross fee index _ _ _ (Forall_drop _ (Z.to_nat index) _ Hl)
    ltac:(lia) ltac:(lia) E) as Hspec.
  destruct found as [[i x]|].
  - destruct Hspec as (skipped & rest & Hs & Hz & -> & -> & Ha & Hg).
    rewrite Hs, length_app in Hd. cbn [length] in Hd. split; [lia|]. split; [lia|]. split; [done|]. split; [done|].
    rewrite (gross_of_split amount gross _ l skipped x rest Hs Hz), (proj2 (Z.ltb_lt _ _) Ha).
    replace (Z.to_nat (index + Z.of_nat (length skipped) + 1)) with (S (Z.to_nat index + length skipped)) by lia.
    done.
  - destruct Hspec as [Hz ->]. split; [lia|]. split; [lia|]. split; [done|].
    rewrite drop_ge by lia. done.
Qed.

(** A transfer is staged: its gross amount moves from the plan into flight. *)
Lemma next_topup_ok now_nanos job staged job' :
  job_ok job -> j_pending_transfer job = None -> next_topup_pending now_nanos job = (staged, job') ->
  job_ok job' /\ (staged = false -> topups_left job' = 0 /\ j_pending_transfer job' = None).
Proof using Type.
  intros H Hp. unfold next_topup_pending. pose proof (left_bounds _ H) as (Hl1 & Hl2 & Ha). destruct H.
  destruct (next_payable _ _ _) as [index' found] eqn:E.
  apply (next_payable_left _ cb_gross_share_e8s (j_fee_e8s job)) in E as [Hi Hspec]; try done;
    [|by destruct ok_lengths0].
  unfold awaiting, debited, unspent, topups_left, surplus_left in *. rewrite Hp in *.
  destruct found as [[i sample]|]; intros [= <- <-]; (split; [|done || intros _]).
  - destruct Hspec as (_ & Hpos & Hg & Hleft). rewrite Hleft in *.
    constructor; unfold awaiting, debited, unspent, topups_left, surplus_left; cbn; unfold const; try done; try lia.
    + unfold pending_ok. cbn. lia.
    + rewrite bool_decide_eq_true_2 by done. lia.
    + rewrite bool_decide_eq_true_2 by done. intros Hpl. destruct (ok_unplanned0 Hpl) as (? & ? & ?).
      split; [done|]. split; [lia|done].
  - destruct Hspec as (_ & H0 & H1). constructor; unfold awaiting, debited, unspent, topups_left, surplus_left;
      cbn; unfold const; rewrite ?Hp, ?H1, ?H0 in *; try done; try lia.
  - destruct Hspec as (_ & H0 & H1). split; [exact H1|done].
Qed.

Lemma next_surplus_ok now_nanos job staged job' :
  job_ok job -> j_pending_transfer job = None -> next_surplus_pending now_nanos job = (staged, job') ->
  job_ok job'.
Proof using Type.
  intros H Hp. unfold next_surplus_pending. destruct (Nat.eqb _ 0); [by intros [= _ <-]|].
  destruct (surplus_allowed_after_topups job) as [u|why]; [|intros [= _ <-]; by apply cancel_surplus_ok].
  pose proof (left_bounds _ H) as (Hl1 & Hl2 & Ha). destruct H.
  destruct (next_payable _ _ _) as [index' found] eqn:E.
  apply (next_payable_left _ sx_gross_share_e8s (j_fee_e8s job)) in E as [Hi Hspec]; try done;
    [|by destruct ok_lengths0].
  unfold awaiting, debited, unspent, topups_left, surplus_left in *. rewrite Hp in *.
  destruct found as [[i sample]|]; intros [= <- <-].
  - destruct Hspec as (_ & Hpos & Hg & Hleft). rewrite Hleft in *.
    constructor; unfold awaiting, debited, unspent, topups_left, surplus_left; cbn; unfold const; try done; try lia.
    + unfold pending_ok. cbn. lia.
    + rewrite bool_decide_eq_true_2 by done. lia.
    + intros Hpl. destruct (ok_unplanned0 Hpl) as (Hnil & _). exfalso.
      rewrite Hnil, !drop_nil in Hleft. change (surplus_gross_of []) with 0 in Hleft. lia.
  - destruct Hspec as (_ & H0 & H1). constructor; unfold awaiting, debited, unspent, topups_left, surplus_left;
      cbn; unfold const; rewrite ?Hp, ?H1, ?H0 in *; try done; try lia.
Qed.

Lemma plan_next_ok limit started now_nanos job step started' job' :
  job_ok job -> j_pending_transfer job = None ->
  plan_next_transfer limit started now_nanos job = (step, started', job') -> job_ok job'.
Proof using Type.
  intros H Hp. unfold plan_next_transfer. pose proof (left_bounds _ H) as (Hl1 & Hl2 & Ha).
  destruct (negb _ && negb _) eqn:Er.
  { intros [= _ _ <-]. destruct H. unfold remains in Er.
    apply andb_true_iff in Er as [E1%negb_true_iff E2%negb_true_iff].
    apply (gross_of_zero cb_amount_e8s cb_gross_share_e8s (j_fee_e8s job)) in E1; [|by apply Forall_drop].
    apply (gross_of_zero sx_amount_e8s sx_gross_share_e8s (j_fee_e8s job)) in E2; [|by apply Forall_drop].
    unfold awaiting, debited, unspent, topups_left, surplus_left in *. rewrite Hp, E1, E2 in *.
    assert (forall n, n <= u32_max -> 0 <= n -> as_u32 n = n) as Hu32
      by (intros n ? ?; unfold as_u32; apply Z.mod_small; lia).
    constructor; unfold awaiting, debited, unspent, topups_left, surplus_left; cbn; unfold const;
      rewrite ?Hu32, ?Hp by lia; rewrite ?drop_ge by lia; try done; try lia;
      change (topup_gross []) with 0; change (surplus_gross_of []) with 0; lia. }
  destruct (is_some_and limit _).
  { intros [= _ _ <-]. destruct H. by constructor. }
  destruct (next_topup_pending now_nanos job) as [staged job1] eqn:E1.
  destruct (next_topup_ok _ _ _ _ H Hp E1) as [H1 Hn]. destruct staged; [by intros [= _ _ <-]|].
  destruct (next_surplus_pending now_nanos job1) as [staged job2] eqn:E2.
  pose proof (next_surplus_ok _ _ _ _ H1 (proj2 (Hn eq_refl)) E2) as H2.
  by destruct staged; intros [= _ _ <-].
Qed.

(** ** The start and the end of a job *)

Lemma relay_new_job_ok id now_nanos managed balance fee raw estimate current u allocation :
  u64 balance -> 0 <= fee -> Forall (share_ok fee) (topups allocation) ->
  payable_gross (topups allocation) <= balance -> Z.of_nat (length (topups allocation)) <= u32_max ->
  job_ok (new_job id now_nanos managed balance fee raw estimate current u allocation).
Proof using Type.
  intros Hb Hf Hs Hle Hlen. set (job := new_job _ _ _ _ _ _ _ _ _ _).
  assert (Forall (share_fits cb_amount_e8s cb_gross_share_e8s fee) (j_canisters job)) as Hs'
    by (apply Forall_map; exact Hs).
  assert (topup_gross (j_canisters job) = payable_gross (topups allocation)) as Hg
    by (unfold gross_of; cbn [j_canisters job new_job]; by rewrite map_map).
  pose proof (gross_of_nonneg _ _ _ Hf _ Hs') as Hn.
  assert (unspent job = balance - topup_gross (j_canisters job)) as Hu.
  { change (unspent job) with (retained_e8s balance (j_canisters job) []).
    rewrite retained_spec; try done; change (surplus_gross_of []) with 0; lia. }
  constructor; try done.
  - split; [|done]. cbn [j_canisters job new_job]. by rewrite length_map.
  - cbn. lia.
  - rewrite Hu. cbn [j_summary]. unfold u64 in Hb. split; [done|]. split; [done|]. split; [lia|done].
  - change (j_surplus_transfers job) with (@nil SurplusTransferSample).
    change (surplus_gross_of []) with 0. change (j_balance_start_e8s job) with balance. lia.
  - change (debited job) with 0. change (awaiting job) with 0. change (surplus_left job) with 0.
    change (topups_left job) with (topup_gross (j_canisters job)).
    change (j_balance_start_e8s job) with balance. lia.
  - intros _. split; [done|]. change (debited job) with 0. change (awaiting job) with 0.
    change (topups_left job) with (topup_gross (j_canisters job)).
    change (j_balance_start_e8s job) with balance. split; [lia|]. intros _. lia.
Qed.

Lemma complete_job_ok now_nanos h : state_ok (complete_job now_nanos h).
Proof using Type.
  intros job. unfold complete_job, upd. cbn. destruct (active_job (st h)) as [j|] eqn:Ha; [|by rewrite Ha].
  cbn zeta. unfold persist_recovery_deficits_from_samples, retain_current_effective_targets.
  cbn. by case_bool_decide.
Qed.

Lemma stop_active_job_ok now_nanos h : state_ok (stop_active_job_for_ledger_fee_change now_nanos h).
Proof using Type.
  unfold stop_active_job_for_ledger_fee_change. destruct (active_job (st h)) eqn:Ha; [apply complete_job_ok|].
  intros job. by rewrite Ha.
Qed.

End accounting.
