(* ===== verification/RelayDrive.v ===== *)
(** * Relay: runs of the transfer driver and of the job loop

    [drive_pending_transfer] and [drive_active_job] under every reply of the
    ledger, the CMC and governance, and under other messages that leave the job
    alone while the main lease of the run is stored. *)

From S2P Require Import Prelude BTree Async Ic Clients TimerGuard CyclesProbe RelayState RelayLogic RelaySplitter RelayTransfer RelayJob RelayAccounting.

Section drive.
Context `{P : PrincipalSpec} `{O : !OrdSpec Principal} `{A : !AccountSpec} `{L : !AccountLaws} `{T : TextSpec}.
Context (ledger cmc governance : Principal) (lease : MainLeaseToken).
#[local] Existing Instance Principal_eq_dec.
Implicit Types w : world Heap SuiteCall.

(** Other messages keep the accounting and the configuration; a lost lease is
    not regained, and while it is stored they leave the job alone. *)
Definition relay_rely (h h' : Heap) : Prop :=
  (state_ok h -> state_ok h') /\ config (st h') = config (st h) /\
  (lease_is_current lease (st h') = true ->
   lease_is_current lease (st h) = true /\ active_job (st h') = active_job (st h)).

(** What the job has debited, stages, still plans and reports as unspent is
    within the balance it started with. *)
Definition within_balance (h : Heap) : Prop :=
  forall job, active_job (st h) = Some job ->
    debited job + awaiting job + topups_left job + surplus_left job + unspent job
    <= j_balance_start_e8s job.

Lemma state_ok_within h : state_ok h -> within_balance h.
Proof using Type. intros Hok job Ha. apply (ok_spent _ (Hok _ Ha)). Qed.

(** The calls of the loop, each with the state committed at it: the job is
    within its balance, a transfer is the one the job stages, and the CMC is
    notified of an accepted top-up. *)
Definition relay_event (ev : event Heap SuiteCall) : Prop :=
  match ev with
  | Dispatch c h =>
      within_balance h /\
      match c with
      | IcrcTransfer l arg =>
          l = ledger /\ exists id fee staged,
            Transfer.pending_matches id staged h = true /\ pt_phase staged = AwaitingTransfer /\
            pending_ok fee staged /\
            arg = Transfer.staged_arg (cmc_canister_id (config (st h))) fee staged
      | NotifyTopUp c canister block =>
          c = cmc /\ exists id accepted,
            Transfer.pending_matches id accepted h = true /\ pt_kind accepted = CmcTopUp canister /\
            pt_phase accepted = TransferAccepted block
      | ListNeurons gov _ => gov = governance
      | _ => False
      end
  end.

(** What is left of the job, without the staged transfer. *)
Definition left_of (job : ActiveRelayJob) : list Z * bool :=
  ([Z.of_nat (length (j_canisters job)); j_next_transfer_index job;
    Z.of_nat (length (j_surplus_transfers job)); j_surplus_transfer_index job],
   j_surplus_phase_planned job).

(** A step of the run from [h] to [h']: it does not create the lease, and while
    that is stored the job keeps what is left of it, or it is over. *)
Definition run_step (ends : bool) (h h' : Heap) : Prop :=
  (state_ok h -> state_ok h') /\ config (st h') = config (st h) /\
  (lease_is_current lease (st h') = true ->
   lease_is_current lease (st h) = true /\
   match active_job (st h') with
   | None => ends = true \/ active_job (st h) = None
   | Some job' => exists job, active_job (st h) = Some job /\ left_of job' = left_of job
   end).

(** The staged transfer is settled: the job is over or stages nothing. *)
Definition nothing_staged (h : Heap) : Prop :=
  lease_is_current lease (st h) = true ->
  match active_job (st h) with None => True | Some job => j_pending_transfer job = None end.

Lemma run_step_refl ends h : run_step ends h h.
Proof using Type. split; [done|]. split; [done|]. intros Hl. split; [done|]. destruct (active_job (st h)); eauto. Qed.

Lemma run_step_trans ends h1 h2 h3 : run_step ends h1 h2 -> run_step ends h2 h3 -> run_step ends h1 h3.
Proof using Type.
  intros (S1 & C1 & J1) (S2 & C2 & J2). split; [auto|]. split; [congruence|]. intros Hl.
  destruct (J2 Hl) as [Hl2 J2']. destruct (J1 Hl2) as [Hl1 J1']. split; [done|].
  destruct (active_job (st h3)) as [j3|].
  - destruct J2' as (j2 & E2 & Hj2). rewrite E2 in J1'. destruct J1' as (j1 & E1 & Hj1).
    exists j1. split; [done|congruence].
  - destruct J2' as [?|E2]; [by left|]. rewrite E2 in J1'. destruct J1'; auto.
Qed.

Lemma run_step_rely ends h h' : relay_rely h h' -> run_step ends h h'.
Proof using Type.
  intros (S & C & J). split; [done|]. split; [done|]. intros Hl. destruct (J Hl) as [? E]. split; [done|].
  rewrite E. destruct (active_job (st h)); eauto.
Qed.

Lemma kind_eqb_refl k : Transfer.kind_eqb k k = true.
Proof using L.
  destruct k; cbn; rewrite ?account_eqb_refl, ?Z.eqb_refl, ?bool_decide_eq_true_2; done.
Qed.

Lemma pending_eqb_refl p : Transfer.pending_eqb p p = true.
Proof using L.
  unfold Transfer.pending_eqb. by rewrite kind_eqb_refl, !Z.eqb_refl, bool_decide_eq_true_2.
Qed.

Lemma pending_matches_staged h job p :
  active_job (st h) = Some job -> j_pending_transfer job = Some p ->
  Transfer.pending_matches (j_id job) p h = true.
Proof using L.
  intros Ha Hp. unfold Transfer.pending_matches, Transfer.job_matches. rewrite Ha. cbn.
  by rewrite Z.eqb_refl, Hp; cbn; rewrite pending_eqb_refl.
Qed.

Lemma pending_matches_inv id p h :
  Transfer.pending_matches id p h = true ->
  exists job q, active_job (st h) = Some job /\ j_pending_transfer job = Some q /\
    Transfer.job_matches id p job = true.
Proof using Type.
  unfold Transfer.pending_matches. destruct (active_job (st h)) as [job|]; [|done]. cbn.
  intros Hm. pose proof Hm as Hm'. unfold Transfer.job_matches in Hm'.
  destruct (j_pending_transfer job) as [q|] eqn:E; [by exists job, q|]. by rewrite andb_comm in Hm'.
Qed.

(** Updates of the journal. *)
Lemma with_matching_run_step ends id p f h :
  (state_ok h -> state_ok (Transfer.with_matching_job id p f h)) ->
  (forall q job, left_of (f q job) = left_of job) ->
  run_step ends h (Transfer.with_matching_job id p f h).
Proof using Type.
  intros Hok Hf. split; [done|].
  pose proof (proj2 (run_step_refl ends h)) as Hrefl. unfold Transfer.with_matching_job.
  destruct (active_job (st h)) as [job|] eqn:Ha; [|by rewrite Ha].
  destruct (j_pending_transfer job) as [q|] eqn:Hq; [|by rewrite Ha].
  destruct (Transfer.job_matches id p job) eqn:Hm; [|by rewrite Ha].
  split; [done|]. cbn. unfold const. intros Hl. split; [done|]. by exists job.
Qed.

Lemma with_matching_settles id p f h :
  Transfer.pending_matches id p h = true -> (forall q job, j_pending_transfer (f q job) = None) ->
  nothing_staged (Transfer.with_matching_job id p f h).
Proof using Type.
  intros (job & q & Ha & Hq & Hm)%pending_matches_inv Hf _. unfold Transfer.with_matching_job.
  rewrite Ha, Hq, Hm. cbn. unfold const. apply Hf.
Qed.

Lemma stop_active_job_none now_nanos h : active_job (st (stop_active_job_for_ledger_fee_change now_nanos h)) = None.
Proof using Type.
  unfold stop_active_job_for_ledger_fee_change. destruct (active_job (st h)) eqn:Ha; [|done].
  unfold complete_job, upd. cbn. unfold const. cbn zeta.
  unfold persist_recovery_deficits_from_samples, retain_current_effective_targets. cbn. by case_bool_decide.
Qed.

Lemma complete_job_keeps now_nanos h :
  config (st (complete_job now_nanos h)) = config (st h) /\
  main_lock_state_ts (st (complete_job now_nanos h)) = main_lock_state_ts (st h).
Proof using Type.
  unfold complete_job, upd. cbn. unfold const. destruct (active_job (st h)) as [job|]; [|done]. cbn zeta.
  unfold persist_recovery_deficits_from_samples, retain_current_effective_targets. cbn. by case_bool_decide.
Qed.

Lemma stop_active_job_run_step now_nanos h :
  run_step true h (stop_active_job_for_ledger_fee_change now_nanos h).
Proof using Type.
  split; [intros _; apply stop_active_job_ok|].
  assert (config (st (stop_active_job_for_ledger_fee_change now_nanos h)) = config (st h) /\
    main_lock_state_ts (st (stop_active_job_for_ledger_fee_change now_nanos h)) = main_lock_state_ts (st h))
    as [Ec Em].
  { unfold stop_active_job_for_ledger_fee_change. destruct (active_job (st h)); [|done].
    lazymatch goal with |- context [complete_job ?n ?x] => destruct (complete_job_keeps n x) as [-> ->] end.
    done. }
  split; [done|]. unfold lease_is_current. rewrite Em, stop_active_job_none. auto.
Qed.

Lemma record_bad_fee_run_step ends fee h : run_step ends h (record_bad_fee fee h).
Proof using Type. unfold record_bad_fee. destruct (_ <=? _); exact (run_step_refl ends h). Qed.

(** A step of the run that settles the staged transfer. *)
Definition settles (h h' : Heap) : Prop := run_step true h h' /\ nothing_staged h'.

Lemma mark_settles id p f h :
  Transfer.pending_matches id p h = true ->
  (state_ok h -> state_ok (Transfer.with_matching_job id p f h)) ->
  (forall q job, left_of (f q job) = left_of job /\ j_pending_transfer (f q job) = None) ->
  settles h (Transfer.with_matching_job id p f h).
Proof using Type.
  intros Hm Hok Hf. split; [apply with_matching_run_step; [done|]|apply with_matching_settles; [done|]];
    intros q job; by destruct (Hf q job).
Qed.

Lemma mark_pending_failed_settles id p h :
  Transfer.pending_matches id p h = true -> pt_phase p = AwaitingTransfer ->
  settles h (Transfer.mark_pending_failed id p h).
Proof using Type. intros Hm Hp. apply mark_settles; [done|by apply mark_pending_failed_ok|done]. Qed.

Lemma mark_pending_ambiguous_settles id p h :
  Transfer.pending_matches id p h = true -> settles h (Transfer.mark_pending_ambiguous id p h).
Proof using Type. intros Hm. apply mark_settles; [done|by apply mark_pending_ambiguous_ok|done]. Qed.

Lemma stop_settles now_nanos h h1 :
  run_step true h h1 -> settles h (stop_active_job_for_ledger_fee_change now_nanos h1).
Proof using Type.
  intros Hs. split; [by eapply run_step_trans, stop_active_job_run_step|].
  intros _. by rewrite stop_active_job_none.
Qed.

Lemma bad_fee_matches id p fee h :
  Transfer.pending_matches id p (record_bad_fee fee h) = Transfer.pending_matches id p h.
Proof using Type. unfold record_bad_fee. by destruct (fee <=? u64_max). Qed.

(** *** The attempts *)

Context (e : env Heap SuiteCall) (Hrely : rely relay_rely e).

Definition attempt_post (h0 : Heap) (base : list (event Heap SuiteCall)) (r : bool + Z) w : Prop :=
  traced relay_event base w /\
  match r with
  | inl true => settles h0 (w_state w)
  | _ => run_step false h0 (w_state w)
  end.

Lemma await_run_step {X} (c : SuiteCall X) w : run_step false (w_state w) (w_state (after_call e c w)).
Proof using Hrely. apply run_step_rely, Hrely. Qed.

Lemma run_step_weaken h h' : run_step false h h' -> run_step true h h'.
Proof using Type.
  intros (S & C & J). split; [done|]. split; [done|]. intros Hl. destruct (J Hl) as [? Hj]. split; [done|].
  destruct (active_job (st h')); [done|]. destruct Hj; auto.
Qed.

Lemma settles_trans h h1 h2 : run_step false h h1 -> settles h1 h2 -> settles h h2.
Proof using Type. intros H1 [H2 H3]. split; [|done]. by eapply run_step_trans; [apply run_step_weaken|]. Qed.

Lemma after_first_settles id p now_nanos o h r h' :
  pt_phase p = AwaitingTransfer ->
  Transfer.after_first_attempt id p now_nanos o h = (r, h') ->
  match r with
  | inl true => settles h h'
  | inl false => h' = h
  | inr None => h' = h /\ Transfer.pending_matches id p h = true
  | inr (Some _) => h' = h
  end.
Proof using Type.
  intros Hp. unfold Transfer.after_first_attempt. destruct o as [b| |expected|].
  - by intros [= <- <-].
  - destruct (Transfer.pending_matches id p h) eqn:Hm; by intros [= <- <-].
  - destruct (Transfer.pending_matches id p h) eqn:Hm; cbn [negb]; intros [= <- <-]; [|done].
    apply stop_settles. eapply run_step_trans; [apply record_bad_fee_run_step|].
    apply mark_pending_failed_settles; [by rewrite bad_fee_matches|done].
  - destruct (Transfer.pending_matches id p h) eqn:Hm; cbn [negb]; intros [= <- <-]; [|done].
    by apply mark_pending_failed_settles.
Qed.

Lemma after_second_settles id p now_nanos o h r h' :
  Transfer.after_second_attempt id p now_nanos o h = (r, h') ->
  match r with inl true => settles h h' | _ => h' = h end.
Proof using Type.
  unfold Transfer.after_second_attempt. destruct o as [b| |expected|].
  - by intros [= <- <-].
  - destruct (Transfer.pending_matches id p h) eqn:Hm; cbn [negb]; intros [= <- <-]; [|done].
    by apply mark_pending_ambiguous_settles.
  - destruct (Transfer.pending_matches id p h) eqn:Hm; cbn [negb]; intros [= <- <-]; [|done].
    apply stop_settles. eapply run_step_trans; [apply record_bad_fee_run_step|].
    apply mark_pending_ambiguous_settles. by rewrite bad_fee_matches.
  - destruct (Transfer.pending_matches id p h) eqn:Hm; cbn [negb]; intros [= <- <-]; [|done].
    by apply mark_pending_ambiguous_settles.
Qed.

Lemma transfer_event id fee p w :
  state_ok (w_state w) ->
  Transfer.pending_matches id p (w_state w) = true -> pt_phase p = AwaitingTransfer -> pending_ok fee p ->
  relay_event (Dispatch (IcrcTransfer ledger
    (Transfer.staged_arg (cmc_canister_id (config (st (w_state w)))) fee p)) (w_state w)).
Proof using Type.
  intros Hw Hm Hp Hok. split; [by apply state_ok_within|]. split; [done|]. by exists id, fee, p.
Qed.

Lemma attempt_transfer_run id fee p now_nanos base w :
  let arg := Transfer.staged_arg (cmc_canister_id (config (st (w_state w)))) fee p in
  state_ok (w_state w) ->
  Transfer.pending_matches id p (w_state w) = true -> pt_phase p = AwaitingTransfer -> pending_ok fee p ->
  traced relay_event base w ->
  wp e (Transfer.attempt_transfer ledger arg id p now_nanos) (attempt_post (w_state w) base) w.
Proof using Hrely.
  cbn zeta. intros Hw Hm Hp Hok Ht. unfold Transfer.attempt_transfer, Transfer.transfer_once.
  wp_step. wp_step. apply wp_transfer. intros r1. wp_step. wp_step. wp_step.
  pose proof (await_run_step (IcrcTransfer ledger
    (Transfer.staged_arg (cmc_canister_id (config (st (w_state w)))) fee p)) w) as H1.
  set (w1 := after_call e _ w) in *.
  assert (traced relay_event base w1) as Ht1
    by (apply (traced_cons _ _ _ (w_state w)); [by eapply transfer_event|by destruct w]).
  destruct (Transfer.after_first_attempt id p now_nanos _ (w_state w1)) as [r h'] eqn:E1.
  pose proof (after_first_settles _ _ _ _ _ _ _ Hp E1) as Hs1. cbn [fst snd].
  destruct r as [[]|[block|]].
  - wp_step. split; [done|]. by eapply settles_trans.
  - wp_step. subst h'. by split.
  - wp_step. subst h'. by split.
  - destruct Hs1 as [-> Hm1]. unfold Transfer.transfer_once. wp_step. wp_step. apply wp_transfer. intros r2.
    wp_step. wp_step.
    set (w2 := World (w_state w1) (w_trace w1)).
    pose proof (await_run_step (IcrcTransfer ledger
      (Transfer.staged_arg (cmc_canister_id (config (st (w_state w)))) fee p)) w2) as H2.
    set (w3 := after_call e _ w2) in *.
    assert (run_step false (w_state w) (w_state w3)) as H3 by (eapply run_step_trans; [exact H1|exact H2]).
    assert (traced relay_event base w3) as Ht3.
    { apply (traced_cons _ _ _ (w_state w1)); [|done].
      rewrite <- (proj1 (proj2 H1)). apply (transfer_event id fee p w1); [by apply H1|done..]. }
    destruct (Transfer.after_second_attempt id p now_nanos _ (w_state w3)) as [r h''] eqn:E2.
    pose proof (after_second_settles _ _ _ _ _ _ _ E2) as Hs2. cbn [fst snd].
    split; [done|]. destruct r as [[]|block]; [by eapply settles_trans|by subst h''|by subst h''].
Qed.

(** *** The accepted transfer *)

Definition send_post (id : Z) (p : PendingTransfer) (h0 : Heap) (base : list (event Heap SuiteCall))
    (r : bool + PendingTransfer) w : Prop :=
  traced relay_event base w /\
  match r with
  | inl true => settles h0 (w_state w)
  | inl false => run_step false h0 (w_state w)
  | inr accepted =>
      run_step false h0 (w_state w) /\ Transfer.pending_matches id accepted (w_state w) = true /\
      exists block, pt_phase accepted = TransferAccepted block
  end.

Lemma ledger_accepted_run id p block h a h' :
  pt_phase p = AwaitingTransfer -> Transfer.mark_pending_ledger_accepted id p block h = (a, h') ->
  run_step false h h' /\
  match a with
  | Some accepted => Transfer.pending_matches id accepted h' = true /\
                     pt_phase accepted = TransferAccepted block
  | None => h' = h
  end.
Proof using L.
  intros Hp E. pose proof (mark_pending_ledger_accepted_ok id p block h Hp) as Hok. rewrite E in Hok. cbn in Hok.
  unfold Transfer.mark_pending_ledger_accepted in E.
  destruct (Transfer.pending_matches id p h) eqn:Hm; [|injection E as <- <-; by split; [apply run_step_refl|]].
  injection E as Ea <-. split.
  - apply with_matching_run_step; [done|]. intros q job. unfold left_of, Transfer.accept_pending.
    assert (forall (X : Type) sel (f : X -> X) l, length (update_first sel f l) = length l) as Hlen.
    { intros X sel f l. induction l as [|x l IH]; cbn; [done|]. destruct (sel x); cbn; by rewrite ?IH. }
    destruct (pt_kind q); cbn; unfold const; by rewrite ?Hlen.
  - apply pending_matches_inv in Hm as (job & q & Ha & Hq & Hj).
    unfold Transfer.with_matching_job in *. rewrite Ha, Hq, Hj in *.
    set (job' := Transfer.accept_pending block q job) in *.
    change (j_pending_transfer job' = a) in Ea.
    assert (j_pending_transfer job' = Some (q <| pt_phase := TransferAccepted block |>) /\ j_id job' = j_id job)
      as [Ep Eid] by (unfold job', Transfer.accept_pending; by destruct (pt_kind q)).
    rewrite Ep in Ea. subst a. split; [|done].
    assert (j_id job = id) as <-.
    { unfold Transfer.job_matches in Hj. apply andb_true_iff in Hj as [Hj _]. by apply Z.eqb_eq. }
    rewrite <- Eid. by apply pending_matches_staged.
Qed.

Lemma send_staged_run id fee p now_nanos base w :
  let arg := Transfer.staged_arg (cmc_canister_id (config (st (w_state w)))) fee p in
  state_ok (w_state w) ->
  Transfer.pending_matches id p (w_state w) = true -> pt_phase p = AwaitingTransfer -> pending_ok fee p ->
  traced relay_event base w ->
  wp e (Transfer.send_staged ledger arg id p now_nanos) (send_post id p (w_state w) base) w.
Proof using Hrely L.
  cbn zeta. intros Hw Hm Hp Hok Ht. unfold Transfer.send_staged. wp_step.
  eapply wp_mono; [by apply attempt_transfer_run|]. intros r w1 [Ht1 Hs]. destruct r as [b|block]; wp_step.
  - by destruct b.
  - wp_step. destruct (Transfer.mark_pending_ledger_accepted id p block (w_state w1)) as [a h'] eqn:E.
    destruct (ledger_accepted_run _ _ _ _ _ _ Hp E) as [H1 H2]. cbn [fst snd]. wp_step. split; [done|].
    assert (run_step false (w_state w) h') as H3 by (by eapply run_step_trans).
    destruct a as [accepted|]; [|done]. destruct H2. split; [done|]. split; [done|]. by exists block.
Qed.

(** *** The notification *)

Lemma update_first_length {X} sel (f : X -> X) l : length (update_first sel f l) = length l.
Proof using Type. induction l as [|x l IH]; cbn; [done|]. destruct (sel x); cbn; by rewrite ?IH. Qed.

Lemma completed_settles id p notified minted h :
  Transfer.pending_matches id p h = true -> settles h (Transfer.mark_pending_completed id p notified minted h).
Proof using Type.
  intros Hm. unfold Transfer.mark_pending_completed. rewrite Hm.
  assert (settles h (Transfer.with_matching_job id p (Transfer.complete_pending notified minted) h)) as Hs.
  { apply mark_settles; [done|apply complete_pending_ok|]. intros q job. unfold left_of.
    destruct minted as [[c m]|]; cbn; unfold const; by rewrite ?update_first_length. }
  destruct minted as [[c cycles]|]; exact Hs.
Qed.

Lemma after_second_notify_settles id p canister first second h b h' :
  Transfer.after_second_notify id p canister first second h = (b, h') ->
  if b then settles h h' else h' = h.
Proof using Type.
  unfold Transfer.after_second_notify. destruct (Transfer.pending_matches id p h) eqn:Hm; cbn [negb];
    intros [= <- <-]; [|done].
  assert (settles h (Transfer.mark_pending_ambiguous_after_acceptance id p h)) as Ha
    by (apply mark_settles; [done|apply mark_pending_ambiguous_after_acceptance_ok|done]).
  assert (settles h (Transfer.mark_pending_failed_after_acceptance id p h)) as Hf
    by (apply mark_settles; [done|apply mark_pending_failed_after_acceptance_ok|done]).
  destruct second; [by apply completed_settles|done|by destruct first].
Qed.

Definition settle_post (h0 : Heap) (base : list (event Heap SuiteCall)) (b : bool) w : Prop :=
  traced relay_event base w /\ (if b then settles h0 (w_state w) else run_step true h0 (w_state w)).

Lemma notify_event id p canister block w :
  state_ok (w_state w) ->
  Transfer.pending_matches id p (w_state w) = true -> pt_kind p = CmcTopUp canister ->
  pt_phase p = TransferAccepted block ->
  relay_event (Dispatch (NotifyTopUp cmc canister block) (w_state w)).
Proof using Type.
  intros Hw Hm Hk Hp. split; [by apply state_ok_within|]. split; [done|]. by exists id, p.
Qed.

Lemma second_notify_run id p canister block first h0 base w :
  state_ok h0 ->
  run_step false h0 (w_state w) ->
  Transfer.pending_matches id p (w_state w) = true -> pt_kind p = CmcTopUp canister ->
  pt_phase p = TransferAccepted block -> traced relay_event base w ->
  wp e (second ← Transfer.notify_once cmc canister block;
        with_state_mut (Transfer.after_second_notify id p canister first second)) (settle_post h0 base) w.
Proof using Hrely.
  intros Hw H0 Hm Hk Hp Ht. unfold Transfer.notify_once.
  wp_step. wp_step. apply wp_notify_top_up. intros r2. wp_step. wp_step.
  pose proof (await_run_step (NotifyTopUp cmc canister block) w) as H1.
  set (w1 := after_call e _ w) in *.
  destruct (Transfer.after_second_notify id p canister first _ (w_state w1)) as [b h'] eqn:E.
  pose proof (after_second_notify_settles _ _ _ _ _ _ _ _ E) as Hs. cbn [fst snd].
  split; [apply (traced_cons _ _ _ (w_state w)); [eapply notify_event; [by apply H0|done..]|by destruct w]|].
  assert (run_step false h0 (w_state w1)) as H2 by (by eapply run_step_trans).
  destruct b; [by eapply settles_trans|]. cbn. rewrite Hs. by apply run_step_weaken.
Qed.

Lemma notify_accepted_run id p canister block h0 base w :
  state_ok h0 ->
  run_step false h0 (w_state w) ->
  Transfer.pending_matches id p (w_state w) = true -> pt_kind p = CmcTopUp canister ->
  pt_phase p = TransferAccepted block -> traced relay_event base w ->
  wp e (Transfer.notify_accepted cmc canister id p block) (settle_post h0 base) w.
Proof using Hrely.
  intros Hw H0 Hm Hk Hp Ht. unfold Transfer.notify_accepted. unfold Transfer.notify_once.
  wp_step. wp_step. apply wp_notify_top_up. intros r1. wp_step. wp_step. wp_step.
  pose proof (await_run_step (NotifyTopUp cmc canister block) w) as H1.
  set (w1 := after_call e _ w) in *.
  assert (traced relay_event base w1) as Ht1
    by (apply (traced_cons _ _ _ (w_state w)); [eapply notify_event; [by apply H0|done..]|by destruct w]).
  assert (run_step false h0 (w_state w1)) as H2 by (by eapply run_step_trans).
  destruct (Transfer.pending_matches id p (w_state w1)) eqn:Hm1; cbn [negb];
    [|wp_step; split; [done|by apply run_step_weaken]].
  set (first := match r1 with Ok _ => _ | Err _ => _ end).
  destruct first as [minted| |].
  - wp_step. wp_step. wp_step. split; [done|]. eapply settles_trans; [exact H2|]. by apply completed_settles.
  - by apply second_notify_run.
  - by apply second_notify_run.
Qed.

Lemma settle_accepted_run id p block h0 base w :
  state_ok h0 ->
  run_step false h0 (w_state w) -> Transfer.pending_matches id p (w_state w) = true ->
  pt_phase p = TransferAccepted block -> traced relay_event base w ->
  wp e (Transfer.settle_accepted cmc id p) (settle_post h0 base) w.
Proof using Hrely.
  intros Hw H0 Hm Hp Ht. unfold Transfer.settle_accepted. rewrite Hp.
  assert (settles h0 (Transfer.complete_raw id p (w_state w))) as Hs.
  { eapply settles_trans; [exact H0|]. unfold Transfer.complete_raw. cbn zeta.
    pose proof (completed_settles id p false None _ Hm) as Hc.
    destruct (pt_kind p) as [c|[c|n] acct memo|n acct src memo]; exact Hc. }
  destruct (pt_kind p) as [canister|t acct memo|n acct src memo] eqn:Hk.
  - by apply notify_accepted_run.
  - wp_step. wp_step. wp_step. by split.
  - wp_step. wp_step. wp_step. by split.
Qed.

(** ** [drive_pending_transfer] *)

Lemma drive_pending_run now_nanos base w :
  state_ok (w_state w) -> traced relay_event base w ->
  wp e (Transfer.drive_pending_transfer ledger cmc (cmc_canister_id (config (st (w_state w)))) now_nanos)
    (settle_post (w_state w) base) w.
Proof using Hrely L.
  intros Hok Ht. unfold Transfer.drive_pending_transfer. wp_step. wp_step.
  unfold Transfer.staged_transfer. destruct (active_job (st (w_state w))) as [job|] eqn:Ha.
  2: { wp_step. split; [done|]. split; [apply run_step_refl|]. intros _. by rewrite Ha. }
  destruct (j_pending_transfer job) as [p|] eqn:Hp.
  2: { wp_step. split; [done|]. split; [apply run_step_refl|]. intros _. by rewrite Ha. }
  pose proof (pending_matches_staged _ _ _ Ha Hp) as Hm.
  pose proof (ok_pending _ (Hok _ Ha)) as Hpok. rewrite Hp in Hpok.
  destruct (pt_phase p) as [|block] eqn:Hph.
  - destruct (negb _).
    + wp_step. wp_step. wp_step. split; [done|]. by apply mark_pending_ambiguous_settles.
    + wp_step. eapply wp_mono; [by eapply send_staged_run|]. intros r w1 [Ht1 Hs].
      destruct r as [b|accepted].
      * wp_step. split; [done|]. destruct b; [done|by apply run_step_weaken].
      * destruct Hs as (H1 & Hm1 & block & Hb). by eapply settle_accepted_run.
  - eapply settle_accepted_run; try done. apply run_step_refl.
Qed.

(** ** The surplus phase *)

Lemma relay_rely_refl h : relay_rely h h.
Proof using Type. split; [done|]. split; [done|]. intros ?. by split. Qed.

Lemma relay_rely_trans h1 h2 h3 : relay_rely h1 h2 -> relay_rely h2 h3 -> relay_rely h1 h3.
Proof using Type.
  intros (S1 & C1 & J1) (S2 & C2 & J2). split; [auto|]. split; [congruence|]. intros Hl.
  destruct (J2 Hl) as [Hl2 E2]. destruct (J1 Hl2) as [? E1]. split; [done|congruence].
Qed.

Lemma resolve_recipients_run governance_id base l h0 w :
  state_ok h0 ->
  relay_rely h0 (w_state w) -> traced relay_event base w ->
  wp e (resolve_recipients governance governance_id l)
    (fun r w' => relay_rely h0 (w_state w') /\ traced relay_event base w' /\
       match r with Some l' => (length l' <= length l)%nat | None => True end) w.
Proof using Hrely.
  intros Hw. revert w. induction l as [|x l IH]; intros w H0 Ht; cbn [resolve_recipients]; [by wp_step|].
  destruct (target x) as [c|n] eqn:Ex.
  - wp_step. eapply wp_mono; [by apply IH|]. intros r w1 (H1 & Ht1 & Hlen). wp_step.
    split; [done|]. split; [done|]. destruct r as [tail|]; [|done].
    destruct (resolve_canister_surplus_recipient x); cbn; lia.
  - wp_step. apply wp_neuron_staking_subaccount. intros sub.
    set (w1 := after_call e _ w).
    assert (relay_rely h0 (w_state w1)) as H1 by (eapply relay_rely_trans; [exact H0|apply Hrely]).
    assert (traced relay_event base w1) as Ht1
      by (apply (traced_cons _ _ _ (w_state w)); [split; [by apply state_ok_within, H0|done]|by destruct w]).
    destruct sub as [sub|er]; [|by wp_step].
    wp_step. eapply wp_mono; [by apply IH|]. intros r w2 (H2 & Ht2 & Hlen). wp_step.
    split; [done|]. split; [done|]. destruct r as [tail|]; [cbn; lia|done].
Qed.

Lemma resolve_surplus_run cfg base h0 w :
  state_ok h0 ->
  relay_rely h0 (w_state w) -> traced relay_event base w ->
  wp e (resolve_surplus_recipients cfg governance)
    (fun r w' => relay_rely h0 (w_state w') /\ traced relay_event base w' /\
       match r with Some l' => (length l' <= length (surplus_recipients cfg))%nat | None => True end) w.
Proof using Hrely.
  intros Hw H0 Ht. unfold resolve_surplus_recipients. wp_step.
  eapply wp_mono; [by eapply resolve_recipients_run|]. intros r w1 (H1 & Ht1 & Hlen). wp_step.
  split; [done|]. split; [done|]. destruct r as [l|]; [|done]. by destruct (reject_duplicate_resolved_destinations l).
Qed.

(** The surplus of [job] is planned, with at most [n] transfers. *)
Definition surplus_planned (n : nat) (h : Heap) (job : ActiveRelayJob) (h' : Heap) : Prop :=
  (state_ok h -> state_ok h') /\ config (st h') = config (st h) /\
  (lease_is_current lease (st h') = true ->
   lease_is_current lease (st h) = true /\
   exists job', active_job (st h') = Some job' /\ j_surplus_phase_planned job' = true /\
     j_canisters job' = j_canisters job /\ j_next_transfer_index job' = j_next_transfer_index job /\
     (length (j_surplus_transfers job') <= n)%nat /\ j_pending_transfer job' = None).

Lemma with_unplanned_run h0 h job surplus memos before why n :
  relay_rely h0 h -> state_ok h0 -> active_job (st h0) = Some job ->
  j_surplus_phase_planned job = false -> j_pending_transfer job = None ->
  (length surplus <= n)%nat -> Z.of_nat n <= u32_max ->
  Forall (share_fits sx_amount_e8s sx_gross_share_e8s (j_fee_e8s job)) surplus ->
  gross_of cb_amount_e8s cb_gross_share_e8s (j_canisters job)
    + gross_of sx_amount_e8s sx_gross_share_e8s surplus <= j_balance_start_e8s job ->
  surplus_planned n h0 job (with_unplanned_job lease (j_id job) (plan_surplus surplus memos before why) h).
Proof using Type.
  intros (S & C & J) Hok Ha Hpl Hp Hn Hlen Hs Hle. unfold with_unplanned_job.
  destruct (lease_is_current lease (st h)) eqn:El; cbn [negb].
  2: { split; [done|]. split; [done|]. by rewrite El. }
  destruct (J eq_refl) as [Hl0 E]. rewrite E, Ha, Z.eqb_refl, Hpl. cbn [negb andb].
  split; [|split; [done|]].
  - intros _ job'. cbn. unfold const. intros [= <-]. apply plan_surplus_ok; try done; [by apply Hok|lia].
  - intros _. split; [done|]. eexists. split; [reflexivity|]. repeat (split; [done|]). done.
Qed.

Lemma zero_gross {X} (amount gross : X -> Z) : gross_of amount gross [] = 0.
Proof using Type. done. Qed.

Lemma plan_surplus_phase_run now_nanos base job w :
  let n := length (surplus_recipients (config (st (w_state w)))) in
  Z.of_nat n <= u32_max ->
  state_ok (w_state w) -> active_job (st (w_state w)) = Some job ->
  j_surplus_phase_planned job = false -> j_pending_transfer job = None ->
  traced relay_event base w ->
  wp e (plan_surplus_phase now_nanos governance lease)
    (fun _ w' => surplus_planned n (w_state w) job (w_state w') /\ traced relay_event base w') w.
Proof using Hrely.
  cbn zeta. intros Hn Hok Ha Hpl Hp Ht. unfold plan_surplus_phase. wp_step. wp_step. rewrite Ha, Hpl.
  pose proof (Hok _ Ha) as Hjob. pose proof (left_bounds _ Hjob) as ((_ & Hg) & _).
  pose proof (gross_of_nonneg _ _ _ (ok_fee _ Hjob) _ (ok_topups _ Hjob)) as Hg0.
  assert (forall why h, relay_rely (w_state w) h ->
    surplus_planned (length (surplus_recipients (config (st (w_state w))))) (w_state w) job
      (disable_surplus (j_id job) lease why h)) as Hdis.
  { intros why h Hh. apply with_unplanned_run; try done; [cbn; lia|].
    rewrite zero_gross. pose proof (ok_planned _ Hjob).
    pose proof (gross_of_nonneg _ _ _ (ok_fee _ Hjob) _ (ok_surplus _ Hjob)). lia. }
  destruct (surplus_allowed_after_topups job) as [u|why] eqn:Eall.
  - wp_step. eapply wp_mono; [apply (resolve_surplus_run _ base (w_state w)); [done|apply relay_rely_refl|done]|].
    intros r w1 (H1 & Ht1 & Hlen). destruct r as [recipients|].
    + wp_step. split; [|done].
      destruct (build_surplus_plan _ _ _ _ _) as [[surplus before] why] eqn:Eb.
      assert (rs_failed_transfers (j_summary job) = 0) as Hfail.
      { unfold surplus_allowed_after_topups in Eall.
        destruct (rs_failed_transfers (j_summary job) =? 0) eqn:E0; [by apply Z.eqb_eq|done]. }
      destruct (ok_unplanned _ Hjob Hpl) as (_ & _ & Hu). specialize (Hu Hfail).
      pose proof (proj1 (proj2 (proj2 (ok_counters _ Hjob)))) as Hu0.
      unfold build_surplus_plan in Eb. destruct (usable_estimate _ _).
      * injection Eb as <- _ _.
        destruct (surplus_within_balance recipients (rs_known_unspent_e8s (j_summary job)) (j_fee_e8s job)
          Hu0 (ok_fee _ Hjob) ltac:(lia)) as (Hb & Hl & Hall).
        apply with_unplanned_run; try done; [by rewrite Hl| |].
        -- eapply Forall_impl; [exact Hall|]. intros x [?|[? ?]]; [by left|right].
           unfold MIN_RAW_ICP_RECIPIENT_AMOUNT_E8S in *. lia.
        -- unfold unspent in *. change (gross_of sx_amount_e8s sx_gross_share_e8s ?l) with (surplus_gross l). lia.
      * injection Eb as <- _ _. apply with_unplanned_run; try done; [cbn; lia|].
        rewrite zero_gross. pose proof (ok_planned _ Hjob).
        pose proof (gross_of_nonneg _ _ _ (ok_fee _ Hjob) _ (ok_surplus _ Hjob)). lia.
    + wp_step. split; [by apply Hdis|done].
  - wp_step. split; [|done]. apply Hdis, relay_rely_refl.
Qed.

(** ** The rounds that are left *)

Definition job_rounds (n : nat) (job : ActiveRelayJob) : nat :=
  (if j_pending_transfer job then 1 else 0)
  + 2 * (length (j_canisters job) - Z.to_nat (j_next_transfer_index job))
  + (if j_surplus_phase_planned job
     then 2 * (length (j_surplus_transfers job) - Z.to_nat (j_surplus_transfer_index job)) else 2 * n + 1) + 1.

Definition rounds_needed (n : nat) (h : Heap) : nat :=
  match active_job (st h) with None => 1 | Some job => job_rounds n job end.

Lemma next_topup_index now_nanos job staged job' :
  job_ok job -> j_pending_transfer job = None -> next_topup_pending now_nanos job = (staged, job') ->
  (j_canisters job', j_surplus_transfers job', j_surplus_transfer_index job', j_surplus_phase_planned job')
  = (j_canisters job, j_surplus_transfers job, j_surplus_transfer_index job, j_surplus_phase_planned job) /\
  j_next_transfer_index job <= j_next_transfer_index job' <= Z.of_nat (length (j_canisters job)) /\
  (if staged then j_next_transfer_index job < j_next_transfer_index job'
   else j_next_transfer_index job' = Z.of_nat (length (j_canisters job)) /\ j_pending_transfer job' = None).
Proof using Type.
  intros H Hp. unfold next_topup_pending. destruct H.
  destruct (next_payable _ _ _) as [index' found] eqn:E.
  apply (next_payable_left _ cb_gross_share_e8s (j_fee_e8s job)) in E as [Hi Hspec]; try done;
    [|by destruct ok_lengths].
  destruct found as [[i sample]|]; intros [= <- <-]; (split; [reflexivity|]); (split; [exact Hi|]);
    [apply Hspec|split; [apply Hspec|exact Hp]].
Qed.

Lemma next_surplus_index now_nanos job staged job' :
  job_ok job -> j_pending_transfer job = None -> next_surplus_pending now_nanos job = (staged, job') ->
  (j_canisters job', j_next_transfer_index job', j_surplus_phase_planned job')
  = (j_canisters job, j_next_transfer_index job, j_surplus_phase_planned job) /\
  if staged
  then j_surplus_transfers job' = j_surplus_transfers job /\ j_surplus_transfers job <> [] /\
       j_surplus_transfer_index job < j_surplus_transfer_index job' <= Z.of_nat (length (j_surplus_transfers job))
  else j_pending_transfer job' = None.
Proof using Type.
  intros H Hp. unfold next_surplus_pending. destruct (Nat.eqb_spec (length (j_surplus_transfers job)) 0) as [|Hne];
    [by intros [= <- <-]|].
  destruct (surplus_allowed_after_topups job) as [u|why]; [|by intros [= <- <-]].
  destruct H. destruct (next_payable _ _ _) as [index' found] eqn:E.
  apply (next_payable_left _ sx_gross_share_e8s (j_fee_e8s job)) in E as [Hi Hspec]; try done;
    [|by destruct ok_lengths].
  destruct found as [[i sample]|]; intros [= <- <-]; (split; [reflexivity|]); [|exact Hp].
  split; [reflexivity|]. split; [by intros E0; rewrite E0 in Hne|]. cbn. unfold const. lia.
Qed.

Lemma plan_next_rounds n limit started now_nanos job step started' job' :
  job_ok job -> j_pending_transfer job = None ->
  plan_next_transfer limit started now_nanos job = (step, started', job') ->
  match step with
  | Planned => (job_rounds n job' + 1 <= job_rounds n job)%nat
  | Paused => True
  | Done => j_surplus_phase_planned job' = j_surplus_phase_planned job /\
            j_next_transfer_index job' = Z.of_nat (length (j_canisters job')) /\
            j_canisters job' = j_canisters job /\ j_pending_transfer job' = None
  end.
Proof using Type.
  intros H Hp. unfold plan_next_transfer. destruct (negb _ && negb _).
  { intros [= <- _ <-]. split; [done|]. split; [|done]. cbn. unfold const, as_u32.
    pose proof (proj1 (ok_lengths _ H)). apply Z.mod_small. lia. }
  destruct (is_some_and limit _); [by intros [= <- _ <-]|].
  destruct (next_topup_pending now_nanos job) as [staged job1] eqn:E1.
  destruct (next_topup_index _ _ _ _ H Hp E1) as ([= Ec Es Esi Ep] & Hi & Hst).
  pose proof (ok_index _ H) as Hidx. destruct staged.
  { intros [= <- _ <-]. unfold job_rounds. rewrite Ec, Es, Esi, Ep, Hp.
    destruct (j_pending_transfer job1); lia. }
  destruct Hst as [Hend Hp1]. destruct (next_topup_ok _ _ _ _ H Hp E1) as [H1 _].
  destruct (next_surplus_pending now_nanos job1) as [staged job2] eqn:E2.
  destruct (next_surplus_index _ _ _ _ H1 Hp1 E2) as ([= Ec2 Ei2 Ep2] & Hst).
  destruct staged; intros [= <- _ <-].
  - destruct Hst as (Es2 & Hne & Hsi). unfold job_rounds. rewrite Ec2, Ei2, Ep2, Es2, Ec, Ep, Es, Hp.
    pose proof (ok_surplus_index _ H1) as Hs1. rewrite Es, Esi in *.
    destruct (j_surplus_phase_planned job) eqn:Epl.
    + destruct (j_pending_transfer job2); lia.
    + exfalso. apply Hne. by apply (ok_unplanned _ H).
  - rewrite Ep2, Ei2, Ec2, Ec. by split; [|split].
Qed.

(** ** [drive_active_job] *)

(** A round that plans a transfer; [k] is the rest of the loop. *)
Lemma plan_transfer_round now_nanos limit base n fuel started job w (k : Z -> async Heap SuiteCall bool) :
  let Q (_ : bool) w2 := state_ok (w_state w2) /\ config (st (w_state w2)) = config (st (w_state w)) /\
                         traced relay_event base w2 in
  state_ok (w_state w) -> active_job (st (w_state w)) = Some job -> j_pending_transfer job = None ->
  (job_rounds n job <= S fuel)%nat -> traced relay_event base w ->
  (forall started' w', config (st (w_state w')) = config (st (w_state w)) -> state_ok (w_state w') ->
     (rounds_needed n (w_state w') <= fuel)%nat -> traced relay_event base w' -> wp e (k started') Q w') ->
  j_surplus_phase_planned job = true \/
  j_next_transfer_index job < Z.of_nat (length (j_canisters job)) ->
  wp e (t ← now;
        step ← with_state_mut (plan_step limit started t);
        match step with
        | None => trap
        | Some (Planned, started) => k started
        | Some (Paused, _) => mret true
        | Some (Done, started) =>
            unplanned ← with_state topup_phase_done_and_surplus_unplanned;
            if unplanned : bool then k started
            else
              current ← with_state (fun h => lease_is_current lease (st h));
              if negb (current : bool) then mret true
              else modify (complete_job now_nanos);; mret true
        end) Q w.
Proof using Type.
  cbn zeta. intros Hok Ha Hp Hr Ht Hk Hopen. wp_step. wp_step. wp_step. wp_step.
  unfold plan_step. rewrite Ha.
  destruct (plan_next_transfer limit started _ job) as [[step started'] job'] eqn:E. cbn [fst snd].
  pose proof (plan_next_ok _ _ _ _ _ _ _ (Hok _ Ha) Hp E) as Hok'.
  pose proof (plan_next_rounds n _ _ _ _ _ _ _ (Hok _ Ha) Hp E) as Hrounds.
  set (h' := upd _ (w_state w)).
  assert (state_ok h') as Hokh by (intros j; cbn; unfold const; by intros [= <-]).
  assert (active_job (st h') = Some job') as Ha' by done.
  destruct step.
  - apply Hk; try done. unfold rounds_needed. cbn. unfold const. lia.
  - by wp_step.
  - destruct Hrounds as (Hpl & Hi & Hc & Hp'). wp_step. wp_step.
    unfold topup_phase_done_and_surplus_unplanned. cbn [w_state]. rewrite Ha', Hi, Z.leb_refl. cbn [andb].
    destruct (negb (j_surplus_phase_planned job')) eqn:Eu.
    + apply Hk; try done. unfold rounds_needed. cbn [w_state]. rewrite Ha'.
      apply negb_true_iff in Eu. unfold job_rounds in *.
      rewrite Hpl in Eu. rewrite Hp', Hpl, Eu, Hi, Hc in *. rewrite Hp in Hr.
      destruct Hopen as [?|Hlt]; [congruence|]. pose proof (ok_index _ (Hok _ Ha)). lia.
    + cbn [negb]. wp_step. wp_step. wp_step; [by wp_step|]. wp_step. wp_step. wp_step.
      split; [apply complete_job_ok|]. split; [exact (proj1 (complete_job_keeps now_nanos h'))|done].
Qed.

Lemma drive_rounds_run now_nanos limit base n fuel started w :
  Z.of_nat n <= u32_max -> length (surplus_recipients (config (st (w_state w)))) = n ->
  state_ok (w_state w) -> (1 <= fuel)%nat ->
  (lease_is_current lease (st (w_state w)) = true -> (rounds_needed n (w_state w) <= fuel)%nat) ->
  traced relay_event base w ->
  wp e (drive_rounds ledger cmc governance now_nanos lease limit fuel started)
    (fun _ w' => state_ok (w_state w') /\ config (st (w_state w')) = config (st (w_state w)) /\
                 traced relay_event base w') w.
Proof using Hrely L.
  intros Hn. revert started w. induction fuel as [|fuel IH]; intros started w Hcfg Hok Hfuel Hr Ht; [lia|].
  cbn [drive_rounds]. wp_step. wp_step. unfold focus.
  destruct (lease_is_current lease (st (w_state w))) eqn:Hl; cbn [negb]; [|by wp_step].
  specialize (Hr eq_refl). unfold rounds_needed in Hr.
  destruct (active_job (st (w_state w))) as [job|] eqn:Ha; [|by wp_step].
  pose proof (Hok _ Ha) as Hjob.
  destruct (j_pending_transfer job) as [p|] eqn:Hp; cbn [is_some].
  - wp_step. wp_step. wp_step. eapply wp_mono; [by apply drive_pending_run|].
    intros b w1 [Ht1 Hs]. destruct b; cbn [negb].
    + destruct Hs as [(S & C & J) Hns]. rewrite <- C. eapply wp_mono.
      * apply IH; [by rewrite C|by apply S| | |done].
        -- unfold job_rounds in Hr. rewrite Hp in Hr. lia.
        -- intros Hl1. unfold rounds_needed. destruct (J Hl1) as [_ J']. specialize (Hns Hl1).
           unfold job_rounds in Hr. rewrite Hp in Hr. destruct (active_job (st (w_state w1))) as [job'|]; [|lia].
           destruct J' as (job0 & E0 & [= E1 E2 E3 E4 E5]). assert (job0 = job) as -> by congruence.
           unfold job_rounds. apply Nat2Z.inj in E1, E3. rewrite Hns, E1, E2, E3, E4, E5. lia.
      * intros ? w2 (? & ? & ?). done.
    + wp_step. destruct Hs as (S & C & _). split; [by apply S|done].
  - pose proof (plan_transfer_round now_nanos limit base n fuel started job w
      (drive_rounds ledger cmc governance now_nanos lease limit fuel) Hok Ha Hp Hr Ht) as Hplan.
    assert (forall started' w', config (st (w_state w')) = config (st (w_state w)) ->
      state_ok (w_state w') -> (rounds_needed n (w_state w') <= fuel)%nat ->
      traced relay_event base w' ->
      wp e (drive_rounds ledger cmc governance now_nanos lease limit fuel started')
        (fun _ w2 => state_ok (w_state w2) /\ config (st (w_state w2)) = config (st (w_state w)) /\
                     traced relay_event base w2) w') as Hk.
    { intros started' w' C S R T'. rewrite <- C. apply IH; [by rewrite C|done| |done|done].
      unfold rounds_needed, job_rounds in R. destruct (active_job (st (w_state w'))); lia. }
    specialize (Hplan Hk).
    unfold topup_phase_done_and_surplus_unplanned at 1. rewrite Ha.
    destruct (Z.of_nat (length (j_canisters job)) <=? j_next_transfer_index job) eqn:Hdone,
      (j_surplus_phase_planned job) eqn:Hpl; cbn [negb andb].
    + apply Hplan. by left.
    + wp_step. eapply wp_mono; [apply (plan_surplus_phase_run now_nanos base job); try done; by rewrite Hcfg|].
      intros _ w1 [(S & C & J) Ht1]. rewrite <- C. apply IH; [by rewrite C|by apply S| | |done].
      * unfold job_rounds in Hr. rewrite Hpl in Hr. lia.
      * intros Hl1. unfold rounds_needed. destruct (J Hl1) as [_ (job' & -> & E1 & E2 & E3 & E4 & E5)].
        unfold job_rounds in *. rewrite E1, E2, E3, E5, Hpl in *. rewrite Hp in Hr. rewrite Hcfg in E4. lia.
    + apply Hplan. by left.
    + apply Hplan. right. zify_bool. lia.
Qed.

Lemma drive_fuel_enough n h :
  length (surplus_recipients (config (st h))) = n -> (rounds_needed n h <= drive_fuel h)%nat.
Proof using Type.
  intros Hn. unfold rounds_needed, drive_fuel. destruct (active_job (st h)) as [job|]; [|lia].
  unfold job_rounds. rewrite Hn. destruct (j_pending_transfer job), (j_surplus_phase_planned job); lia.
Qed.

(** C7: The job loop of the relay returns, whatever the ledger, the CMC and
    governance answer, as long as other messages leave the job alone while its
    lease is stored.  In the state committed with every call it dispatches, and
    in the state it returns in, the debits the ledger accepted, the transfer in
    flight, the transfers still planned and the amount reported as unspent add
    up to at most the balance the job started with, so it never spends or
    reports more than the account held.  It sends only the transfer
    that the journal stages, and notifies the CMC only of a top-up that the
    journal records as accepted. *)
Theorem relay_job_returns now_nanos w :
  state_ok (w_state w) ->
  Z.of_nat (length (surplus_recipients (config (st (w_state w))))) <= u32_max ->
  exists b w',
    drive_active_job ledger cmc governance now_nanos lease e w = (Returned b, w') /\
    within_balance (w_state w') /\
    config (st (w_state w')) = config (st (w_state w)) /\
    traced relay_event (w_trace w) w'.
Proof using Hrely L.
  intros Hok Hn.
  destruct (wp_returns e (drive_active_job ledger cmc governance now_nanos lease)
    (fun _ w' => state_ok (w_state w') /\ config (st (w_state w')) = config (st (w_state w)) /\
                 traced relay_event (w_trace w) w') w) as (b & w' & E & Hok' & Hc & Ht).
  - unfold drive_active_job. wp_step. wp_step. unfold id.
    eapply drive_rounds_run; try done; [|by intros _; apply drive_fuel_enough|apply traced_refl].
    unfold drive_fuel. destruct (active_job (st (w_state w))); lia.
  - exists b, w'. split; [done|]. split; [by apply state_ok_within|done].
Qed.

End drive.

(** ** The start of a job *)

Section start.
Context `{P : PrincipalSpec} `{O : !OrdSpec Principal}.

(** The job that starts from a plan accounts for its balance: with a ledger
    balance and fee in range, and requests whose total does not overflow, the
    planned top-ups and the retained amount are exactly the balance, each
    payable top-up takes its amount and the fee, and the surplus waits for the
    top-ups. *)
Theorem started_job_accounts (id now_nanos : Z) (managed : list Principal) (balance fee : Z) (raw : bool)
    (estimate : option ConversionEstimate) (current : btree_map Principal CyclesSnapshot)
    (u : ProbeUpdate) (s : State) :
  u64 balance -> u64 fee -> Forall (fun kv => 0 <= kv.2) (recovery_deficit_cycles s) ->
  Z.of_nat (length current) <= u32_max ->
  (if raw
   then sumZ (map snd (asked_topups current (last_completed_cycles s) (relay_minted_cycles_since_sample s)
                         (recovery_deficit_cycles s) fee estimate now_nanos)) <= u64_max
   else sumZ (map bp_target_topup_cycles (burn_plans current (last_completed_cycles s)
                (relay_minted_cycles_since_sample s) (recovery_deficit_cycles s) false)) <= u128_max) ->
  let job := new_job id now_nanos managed balance fee raw estimate current u
               (plan_allocation raw s current balance fee estimate now_nanos) in
  job_ok job /\ unspent job + topups_left job = balance.
Proof using Type.
  intros Hb Hf Hr Hlen Hsum job.
  assert (payable_gross (topups (plan_allocation raw s current balance fee estimate now_nanos)) <= balance /\
          Forall (share_ok fee) (topups (plan_allocation raw s current balance fee estimate now_nanos)) /\
          map bp_canister_id (topups (plan_allocation raw s current balance fee estimate now_nanos))
          = btree_keys current) as (Hle & Hs & Hids).
  { unfold plan_allocation. destruct raw.
    - destruct (allocation_within_balance current (last_completed_cycles s)
        (relay_minted_cycles_since_sample s) (recovery_deficit_cycles s) balance fee now_nanos estimate
        Hb Hf Hr Hsum) as (? & ? & ? & _). done.
    - by apply spend_all_within. }
  assert (Z.of_nat (length (topups (plan_allocation raw s current balance fee estimate now_nanos)))
          <= u32_max) as Hlt.
  { apply (f_equal length) in Hids. rewrite length_map in Hids. unfold btree_keys in Hids.
    rewrite length_map in Hids. by rewrite Hids. }
  assert (job_ok job) as Hok by (apply relay_new_job_ok; try done; apply Hf).
  split; [done|]. pose proof (gross_of_nonneg _ _ _ (ok_fee _ Hok) _ (ok_topups _ Hok)) as Hn.
  change (unspent job) with (retained_e8s balance (j_canisters job) []).
  pose proof (ok_planned _ Hok) as Hp. change (j_surplus_transfers job) with (@nil SurplusTransferSample) in Hp.
  change (j_balance_start_e8s job) with balance in Hp.
  rewrite retained_spec; try done; rewrite zero_gross in *; try lia.
  change (topups_left job) with (gross_of cb_amount_e8s cb_gross_share_e8s (j_canisters job)). lia.
Qed.

End start.

Section witnesses.
Import Concrete ConcreteTexts ConcreteRelay.
Local Abbreviation PS := concrete_principal.

Let state0 : State (P:=PS) := (State_new cfg0 0) <| last_completed_cycles := previous0 |>.
Let job0 : ActiveRelayJob (P:=PS) :=
  new_job 1 5 [] 1000000 10 false None current0 (MkProbeUpdate [] [])
    (plan_allocation false state0 current0 1000000 10 None 5).

Lemma job0_plan_in_range :
  Forall (fun kv => 0 <= kv.2) (recovery_deficit_cycles state0) /\
  Z.of_nat (length current0) <= u32_max /\
  sumZ (map bp_target_topup_cycles (burn_plans current0 (last_completed_cycles state0)
          (relay_minted_cycles_since_sample state0) (recovery_deficit_cycles state0) false)) <= u128_max.
Proof. repeat split; [constructor|by vm_compute|by vm_compute]. Qed.

Lemma job0_ok : job_ok job0.
Proof.
  destruct job0_plan_in_range as (Hr & Hlen & Hs).
  destruct (spend_all_within current0 (last_completed_cycles state0) (relay_minted_cycles_since_sample state0)
    (recovery_deficit_cycles state0) 1000000 10 ltac:(unfold u64; lia) ltac:(unfold u64; lia) Hr Hs)
    as (Hle & Hok & _).
  apply relay_new_job_ok; [unfold u64; lia|lia|exact Hok|exact Hle|by vm_compute].
Qed.

Lemma started_job_accounts_witness :
  job_ok job0 /\ unspent job0 + topups_left job0 = 1000000 /\
  map cb_amount_e8s (j_canisters job0) = [833323; 166656].
Proof.
  destruct job0_plan_in_range as (Hr & Hlen & Hs).
  destruct (started_job_accounts (P:=PS) 1 5 [] 1000000 10 false None current0 (MkProbeUpdate [] []) state0
    ltac:(unfold u64; lia) ltac:(unfold u64; lia) Hr Hlen Hs) as [Hok Hu].
  split; [exact Hok|]. split; [exact Hu|]. by vm_compute.
Defined.

Let heap1 : Heap (P:=PS) :=
  heap0 <| st := state0 <| active_job := Some job0 |> <| main_lock_state_ts := Some 900 |> |>.

Lemma heap1_ok : state_ok heap1.
Proof. intros job [= <-]. apply job0_ok. Qed.

Lemma quiet_relay_rely : rely (relay_rely (P:=PS) 900) (quiet_env 1000 1000000 10).
Proof. by intros n h. Qed.

(** Both top-ups are sent and notified, and the job is over; the job is there,
    with its balance, in the state committed with each of the four calls. *)
Let committed_job (ev : event (Heap (P:=PS)) SuiteCall) : option Z :=
  match ev with Dispatch _ h => j_balance_start_e8s <$> active_job (st h) end.

Lemma relay_job_returns_witness :
  exists w', drive_active_job (P:=PS) 5 6 7 1000 900 (quiet_env 1000 1000000 10) (World heap1 [])
             = (Returned true, w') /\ length (w_trace w') = 4%nat /\
    map committed_job (w_trace w') = replicate 4 (Some 1000000) /\
    active_job (st (w_state w')) = None /\
    traced (relay_event (P:=PS) 5 6 7) [] w'.
Proof.
  destruct (relay_job_returns (P:=PS) 5 6 7 900 (quiet_env 1000 1000000 10) quiet_relay_rely 1000 (World heap1 [])
              heap1_ok ltac:(by vm_compute)) as (r & w' & E & _ & _ & Ht).
  exists (drive_active_job (P:=PS) 5 6 7 1000 900 (quiet_env 1000 1000000 10) (World heap1 [])).2.
  split; [by vm_compute|]. split; [by vm_compute|]. split; [by vm_compute|]. split; [by vm_compute|].
  rewrite E. exact Ht.
Defined.

(** A failed top-up is credited to [known_unspent_e8s], and the step that then
    disables the surplus phase overwrites the credit with the planned amount. *)
Let job_with_surplus : ActiveRelayJob (P:=PS) :=
  new_job 1 5 [] 1000000 10 true (Some (MkEstimate 1000 5)) current0 (MkProbeUpdate [] [])
    (plan_allocation true state0 current0 1000000 10 (Some (MkEstimate 1000 5)) 5).
Let job1 : ActiveRelayJob (P:=PS) := (next_topup_pending 1000 job_with_surplus).2.
Let failing : Heap (P:=PS) -> Heap :=
  match j_pending_transfer job1 with Some p => Transfer.mark_pending_failed 1 p | None => id end.
Let heap_unspent (h : Heap (P:=PS)) : option Z := unspent <$> active_job (st h).

Lemma disabled_surplus_drops_failed_topup :
  let h0 := heap1 <| st ::= fun s => s <| active_job := Some job1 |> |> in
  heap_unspent h0 = Some 393980 /\
  heap_unspent (failing h0) = Some 898990 /\
  heap_unspent (disable_surplus 1 900 "topup_transfer_failed" (failing h0)) = Some 393980.
Proof. cbn zeta. repeat split; vm_compute; reflexivity. Qed.
End witnesses.
