(* ===== verification/RewardSplitter.v ===== *)
(** * Relay rewards: provenance of splitter credits ([scheduler/reward_splitter.rs])

    A credit that a splitter paid into subaccount 1 is attributed to those who
    funded the splitter: its history is replayed, each pinned job consumes whole
    funding credits, and the amount that reached subaccount 1 is allocated to them
    proportionally. *)

From S2P Require Import Prelude BTree Async Ic Accounts Clients CyclesProbe TimerGuard RelayState RelayLogic RelaySplitter RewardBudget RewardHistory.

(** [sort_by_key(|tx| tx.id)], stable. *)
Fixpoint insert_by_id (tx : IndexTransactionWithId) (l : list IndexTransactionWithId) :
    list IndexTransactionWithId :=
  match l with
  | [] => [tx]
  | tx' :: l' => if tx_id tx <=? tx_id tx' then tx :: l else tx' :: insert_by_id tx l'
  end.
Definition sort_by_id (l : list IndexTransactionWithId) : list IndexTransactionWithId :=
  foldr insert_by_id [] l.

(** [len.saturating_mul(1 + len.max(1).ilog2())] *)
Definition sort_work (n : nat) : Z :=
  Z.min (Z.of_nat n * (1 + Z.log2 (Z.max (Z.of_nat n) 1))) u32_max.

Record SplitterFundingCredit := MkFundingCredit {
  credit_splitter_number : Z;
  credit_tx_id : Z;
  credit_amount_e8s : Z;
}.

Record ExpandedSplitterProvenance := MkProvenance {
  sources : btree_map (list Z) Z;
  ineligible_e8s : Z;
  scanned_transactions : Z;
  splitters_scanned : Z;
}.
Definition ExpandedSplitterProvenance_default : ExpandedSplitterProvenance := MkProvenance [] 0 0 0.

Record UpstreamCredit := MkUpstream {
  upstream_tx_id : Z;
  upstream_source : option (list Z);
  upstream_amount_e8s : Z;
}.

Record OutgoingLeg := MkOutgoing {
  leg_tx_id : Z;
  leg_amount_e8s : Z;
  leg_fee_e8s : Z;
  funding_credits_at_pin : nat;
}.

(** ** Proportional allocation *)

Fixpoint allocate_credits (balance subaccount_one_amount prefix previous_floor : Z) (credits : list Z) :
    result (list Z * Z) string :=
  match credits with
  | [] => Ok ([], previous_floor)
  | credit :: credits' =>
      match checked_add prefix credit with
      | None => Err "splitter_allocation_overflow"%string
      | Some prefix =>
          let floor := prefix * subaccount_one_amount / balance in
          if u64_max <? floor then Err "splitter_allocation_overflow"%string
          else
            match checked_sub floor previous_floor with
            | None => Err "splitter_allocation_underflow"%string
            | Some allocated =>
                if credit <? allocated then Err "splitter_allocation_exceeds_credit"%string
                else
                  match allocate_credits balance subaccount_one_amount prefix floor credits' with
                  | Ok (allocations, last_floor) => Ok (allocated :: allocations, last_floor)
                  | Err e => Err e
                  end
            end
      end
  end.

(** [try_fold] with [checked_add] *)
Fixpoint checked_sum (total : Z) (l : list Z) : option Z :=
  match l with
  | [] => Some total
  | x :: l' => match checked_add total x with Some t => checked_sum t l' | None => None end
  end.

Definition proportional_allocations (credits : list Z) (subaccount_one_amount : Z) :
    result (list Z) string :=
  match checked_sum 0 credits with
  | None => Err "splitter_allocation_overflow"%string
  | Some balance =>
      if (balance =? 0) || (balance <? subaccount_one_amount)
      then Err "splitter_allocation_invalid_total"%string
      else
        match allocate_credits balance subaccount_one_amount 0 0 credits with
        | Err e => Err e
        | Ok (allocations, last_floor) =>
            if negb (last_floor =? subaccount_one_amount)
            then Err "splitter_allocation_not_conserved"%string
            else Ok allocations
        end
  end.

(** ** One pinned job *)

(** The whole credits at the front of the queue that make up [remaining]. *)
Fixpoint take_credits (limit consumed : nat) (remaining : Z) (funding : list UpstreamCredit) :
    metered (list UpstreamCredit * list UpstreamCredit) :=
  if remaining <=? 0 then mret ([], funding)
  else
    handle (work 1) (fun _ => fail EXHAUSTED) (fun _ =>
      if Nat.eqb consumed limit then fail "missing_funding_credit"
      else
        match funding with
        | [] => fail "missing_funding_credit"
        | credit :: funding' =>
            if remaining <? upstream_amount_e8s credit
            then fail "funding_credit_exceeds_pinned_remainder"
            else
              r ← take_credits limit (S consumed) (remaining - upstream_amount_e8s credit) funding';
              mret (credit :: r.1, r.2)
        end).

(** Allocated amounts are added to the sources they came from. *)
Definition attribute_credit (ca : UpstreamCredit * Z) (acc : btree_map (list Z) Z * Z) :
    option (btree_map (list Z) Z * Z) :=
  let '(sources, ineligible) := acc in
  if ca.2 =? 0 then Some acc
  else
    match upstream_source ca.1 with
    | Some source => m ← btree_add_checked source ca.2 sources; Some (m, ineligible)
    | None => i ← checked_add ineligible ca.2; Some (sources, i)
    end.

Fixpoint attribute_credits (cas : list (UpstreamCredit * Z)) (acc : btree_map (list Z) Z * Z) :
    option (btree_map (list Z) Z * Z) :=
  match cas with
  | [] => Some acc
  | ca :: cas' => acc ← attribute_credit ca acc; attribute_credits cas' acc
  end.

(** The remaining queue and the attributed amounts. *)
Definition consume_job_funding (balance_e8s subaccount_one_amount : Z) (credits_at_pin : nat)
    (funding : list UpstreamCredit) (acc : btree_map (list Z) Z * Z) :
    metered (list UpstreamCredit * (btree_map (list Z) Z * Z)) :=
  r ← take_credits credits_at_pin 0 balance_e8s funding;
  match proportional_allocations (map upstream_amount_e8s r.1) subaccount_one_amount with
  | Err _ => fail "splitter_allocation_failed"
  | Ok allocations =>
      acc ← checked (attribute_credits (combine r.1 allocations) acc) "contribution_overflow";
      mret (r.2, acc)
  end.

Section splitter.
Context `{P : PrincipalSpec} `{T : TextSpec} `{H : HashSpec} `{C : !CandidSpec}.

Definition provenance_error (splitter : Z) (tx : option Z) (class : string) : string :=
  ("splitter_provenance_failed:splitter=" ++ nat_to_string splitter ++ ":tx="
   ++ match tx with Some t => nat_to_string t | None => "null" end ++ ":class=" ++ class)%string.

Definition intrinsic_splitter_accounts (relay : Principal) : btree_map (list Z) Z :=
  btree_extend (map (fun number =>
    (account_identifier_bytes relay (Some (relay_numbered_subaccount number)), number))
    SPLITTER_PERCENTAGES) [].

Definition decode_account_identifier (text : list Z) : option (list Z) :=
  bytes ← hex_decode text;
  if Nat.eqb (length bytes) 32 then Some bytes else None.

(** The credit of an incoming transaction. *)
Definition incoming_credit (splitter_account : list Z) (entry : IndexTransactionWithId) :
    option UpstreamCredit :=
  match tx_operation (transaction entry) with
  | IndexTransfer from to amount _ _ =>
      if bool_decide (to = splitter_account) && negb (bool_decide (from = splitter_account))
      then Some (MkUpstream (tx_id entry) (decode_account_identifier from) amount) else None
  | IndexMint to amount =>
      if bool_decide (to = splitter_account) then Some (MkUpstream (tx_id entry) None amount) else None
  | _ => None
  end.
Definition push_incoming_credit (splitter_account : list Z) (entry : IndexTransactionWithId)
    (funding : list UpstreamCredit) : list UpstreamCredit :=
  match incoming_credit splitter_account entry with Some c => funding ++ [c] | None => funding end.

(** ** The replay of a splitter's history *)

Record ReplayState := MkReplay {
  funding : list UpstreamCredit;
  pending_default : option OutgoingLeg;
  required : btree_map Z Z;
  found : btree_map (list Z) Z * Z;
}.

(** The pinned balance of a pair of legs, or the class of the error and the
    transaction it names. *)
Definition pinned_balance (splitter_number : Z) (default_leg leg : OutgoingLeg) : result Z (Z * string) :=
  match checked_add (leg_amount_e8s default_leg) (leg_fee_e8s default_leg) with
  | None => Err (leg_tx_id default_leg, "default_gross_overflow"%string)
  | Some default_gross =>
      match checked_add (leg_amount_e8s leg) (leg_fee_e8s leg) with
      | None => Err (leg_tx_id leg, "subaccount_one_gross_overflow"%string)
      | Some subaccount_one_gross =>
          match checked_add default_gross subaccount_one_gross with
          | None => Err (leg_tx_id leg, "pinned_balance_overflow"%string)
          | Some balance =>
              let expected_default := as_u64 (balance * splitter_number / 100) in
              if negb (default_gross =? expected_default)
                 || negb (subaccount_one_gross =? balance - expected_default)
              then Err (leg_tx_id leg, "split_percentage_mismatch"%string)
              else Ok balance
          end
      end
  end.

(** The leg into subaccount 1 closes the pair. *)
Definition close_pair (splitter_number : Z) (leg : OutgoingLeg) (s : ReplayState) : metered ReplayState :=
  let malformed tx class := fail (provenance_error splitter_number (Some tx) class) in
  match pending_default s with
  | None => malformed (leg_tx_id leg) "subaccount_one_leg_without_default"%string
  | Some default_leg =>
      let expected_amount := btree_get (leg_tx_id leg) (required s) in
      if is_some_and expected_amount (fun expected => negb (expected =? leg_amount_e8s leg))
      then malformed (leg_tx_id leg) "subaccount_one_anchor_amount_mismatch"%string
      else if (leg_tx_id leg <=? leg_tx_id default_leg) || (leg_amount_e8s default_leg =? 0)
              || (leg_amount_e8s leg =? 0)
      then malformed (leg_tx_id leg) "invalid_splitter_leg_pair"%string
      else
        match pinned_balance splitter_number default_leg leg with
        | Err (tx, class) => malformed tx class
        | Ok balance =>
            let selected := is_some expected_amount in
            handle (consume_job_funding balance (leg_amount_e8s leg) (funding_credits_at_pin default_leg)
                      (funding s) (if selected then found s else ([], 0)))
              (malformed (leg_tx_id leg))
              (fun r => mret (MkReplay r.1 None
                 (if selected then btree_remove (leg_tx_id leg) (required s) else required s)
                 (if selected then r.2 else found s)))
        end
  end.

(** The accounts of a replay. *)
Record ReplayAccounts := MkReplayAccounts {
  splitter_account : list Z;
  default_account_text : list Z;
  subaccount_one_text : list Z;
}.

(** An outgoing transfer of the splitter. *)
Definition outgoing_transfer (splitter_number : Z) (a : ReplayAccounts) (entry : IndexTransactionWithId)
    (to : list Z) (amount fee : Z) (delegated : bool) (s : ReplayState) : metered ReplayState :=
  let malformed class := fail (provenance_error splitter_number (Some (tx_id entry)) class) in
  if delegated then malformed "unsupported_delegated_debit"%string
  else if negb (tx_memo (transaction entry) =? 0) || is_some (tx_icrc1_memo (transaction entry))
  then malformed "unsupported_outgoing_memo"%string
  else
    let leg := MkOutgoing (tx_id entry) amount fee (length (funding s)) in
    if bool_decide (to = default_account_text a) then
      if is_some (pending_default s) then malformed "default_leg_while_pair_incomplete"%string
      else mret (s <| pending_default := Some leg |>)
    else if bool_decide (to = subaccount_one_text a) then close_pair splitter_number leg s
    else malformed "unexpected_transfer_destination"%string.

Definition replay_entry (splitter_number last_anchor : Z) (a : ReplayAccounts)
    (entry : IndexTransactionWithId) (s : ReplayState) : metered ReplayState :=
  work 1;;
  if last_anchor <? tx_id entry then mret s
  else
    let malformed class := fail (provenance_error splitter_number (Some (tx_id entry)) class) in
    let incoming := mret (s <| funding ::= push_incoming_credit (splitter_account a) entry |>) in
    match tx_operation (transaction entry) with
    | IndexTransfer from to amount fee spender =>
        if bool_decide (from = splitter_account a)
        then outgoing_transfer splitter_number a entry to amount fee (is_some spender) s
        else incoming
    | IndexBurn from _ _ =>
        if bool_decide (from = splitter_account a) then malformed "unsupported_burn_debit"%string
        else incoming
    | IndexApprove from _ _ fee _ _ =>
        if bool_decide (from = splitter_account a) && (0 <? fee)
        then malformed "unsupported_approve_fee_debit"%string else incoming
    | IndexMint _ _ => incoming
    end.

Definition require_credit (splitter_number : Z) (credit : SplitterFundingCredit) (required : btree_map Z Z) :
    metered (btree_map Z Z) :=
  work 1;;
  if contains_key (credit_tx_id credit) required
  then fail (provenance_error splitter_number (Some (credit_tx_id credit)) "duplicate_subaccount_one_anchor")
  else mret (btree_insert (credit_tx_id credit) (credit_amount_e8s credit) required).

(** What the replay proves; [NeedOlderHistory] when an anchor is older than the
    collected transactions. *)
Definition replay_outcome (splitter_number : Z) (transactions : list IndexTransactionWithId) (s : ReplayState) :
    metered (HistoricalReconstruction ExpandedSplitterProvenance) :=
  match pending_default s with
  | Some leg => fail (provenance_error splitter_number (Some (leg_tx_id leg)) "incomplete_splitter_pair")
  | None =>
      match required s with
      | (missing, _) :: _ =>
          match map tx_id transactions with
          | id :: ids =>
              if missing <? foldr Z.min id ids then mret NeedOlderHistory
              else fail (provenance_error splitter_number (Some missing) "subaccount_one_anchor_not_found")
          | [] => fail (provenance_error splitter_number (Some missing) "subaccount_one_anchor_not_found")
          end
      | [] => mret (Complete (MkProvenance (found s).1 (found s).2 0 0))
      end
  end.

Definition replay_accounts (relay : Principal) (splitter_number : Z) : ReplayAccounts :=
  MkReplayAccounts (account_identifier_text relay (Some (relay_numbered_subaccount splitter_number)))
                   (account_identifier_text relay None)
                   (account_identifier_text relay (Some relay_subaccount_one)).

Definition reconstruct_splitter_history_bounded (relay : Principal) (splitter_number : Z)
    (transactions : list IndexTransactionWithId) (required_credits : list SplitterFundingCredit)
    (history_authoritative : bool) : metered (HistoricalReconstruction ExpandedSplitterProvenance) :=
  reconstruction (
    work (Z.min (sort_work (length transactions) + Z.of_nat (length required_credits)) u32_max);;
    if negb history_authoritative then mret NeedOlderHistory
    else if is_none (splitter_percentage splitter_number)
            || existsb (fun c => negb (credit_splitter_number c =? splitter_number)) required_credits
    then fail (provenance_error splitter_number None "invalid_splitter_number")
    else
      required ← fold_metered (require_credit splitter_number) required_credits [];
      match last (btree_keys required) with
      | None => mret (Complete ExpandedSplitterProvenance_default)
      | Some last_anchor =>
          s ← fold_metered (replay_entry splitter_number last_anchor (replay_accounts relay splitter_number))
                (sort_by_id transactions) (MkReplay [] None required ([], 0));
          replay_outcome splitter_number transactions s
      end).

(** ** The histories of the splitters *)

Record SplitterHistoryCache := MkCache {
  histories : btree_map Z BackwardHistory;
  counted_splitters : btree_set Z;
}.
Definition SplitterHistoryCache_new : SplitterHistoryCache := MkCache [] [].

(** [map_err] on the result of an attempt. *)
Definition map_error {A} (f : string -> string) (m : attempt A) : attempt A := fun b u =>
  r ← m b u;
  mret match r with (Ok a, u') => (Ok a, u') | (Err e, u') => (Err (f e), u') end.

(** A read of older transactions is charged as a call, so [MAX_CALLS] bounds the
    rounds that do not end the loop. *)
Definition loop_fuel : nat := 66.

Fixpoint provenance_loop (fuel : nat) (index relay : Principal) (splitter_number : Z)
    (required : list SplitterFundingCredit) (h : BackwardHistory) :
    attempt (ExpandedSplitterProvenance * BackwardHistory) :=
  match fuel with
  | 0%nat => lift out_of_fuel
  | S fuel =>
      let extend h := map_error (provenance_error splitter_number None) (extend index h) in
      h ← (if Nat.eqb (length (collected h)) 0 && negb (exhausted h) then extend h else mret h);
      r ← meter (reconstruct_splitter_history_bounded relay splitter_number (authoritative_transactions h)
                   required (authoritative h));
      match r with
      | Complete provenance => mret (provenance, h)
      | NeedOlderHistory =>
          if exhausted h
          then throw (provenance_error splitter_number (credit_tx_id <$> head required)
                        "history_exhausted_before_provenance")
          else h ← extend h; provenance_loop fuel index relay splitter_number required h
      | Malformed e => throw e
      end
  end.

Definition of_option {A} (o : option A) (e : string) : attempt A :=
  match o with Some a => mret a | None => throw e end.

(** [usize] additions *)
Definition checked_add32 (a b : Z) : option Z := if a + b <=? u32_max then Some (a + b) else None.

Fixpoint add_sources (l : btree_map (list Z) Z) (m : btree_map (list Z) Z) : option (btree_map (list Z) Z) :=
  match l with
  | [] => Some m
  | (source, amount) :: l' => m ← btree_add_checked source amount m; add_sources l' m
  end.

Definition merge_provenance (scanned : nat) (first_use : bool) (one expanded : ExpandedSplitterProvenance) :
    attempt ExpandedSplitterProvenance :=
  scanned ← of_option (checked_add32 (scanned_transactions expanded) (Z.of_nat scanned))
              "splitter_history_count_overflow";
  sources ← of_option (add_sources (sources one) (sources expanded)) "contribution_overflow";
  ineligible ← of_option (checked_add (ineligible_e8s expanded) (ineligible_e8s one)) "contribution_overflow";
  mret (MkProvenance sources ineligible scanned
          (splitters_scanned expanded + (if first_use then 1 else 0))).

Definition expand_splitter (index relay : Principal) (credits : list SplitterFundingCredit)
    (splitter_number : Z) (s : SplitterHistoryCache * ExpandedSplitterProvenance) :
    attempt (SplitterHistoryCache * ExpandedSplitterProvenance) :=
  meter (work 1);;
  let '(cache, expanded) := s in
  let first_use := negb (set_contains splitter_number (counted_splitters cache)) in
  let h := default (backward_history (account_identifier_text relay
                      (Some (relay_numbered_subaccount splitter_number))))
             (btree_get splitter_number (histories cache)) in
  r ← provenance_loop loop_fuel index relay splitter_number
        (List.filter (fun c => credit_splitter_number c =? splitter_number) credits) h;
  let '(one, h') := r in
  expanded ← merge_provenance (length (collected h') - length (collected h)) first_use one expanded;
  mret (MkCache (btree_insert splitter_number h' (histories cache))
                (set_insert splitter_number (counted_splitters cache)), expanded).

Fixpoint fold_attempt {A S} (f : A -> S -> attempt S) (l : list A) (s : S) : attempt S :=
  match l with
  | [] => mret s
  | a :: l' => s ← f a s; fold_attempt f l' s
  end.

Definition expand (index relay : Principal) (credits : list SplitterFundingCredit)
    (cache : SplitterHistoryCache) : attempt (SplitterHistoryCache * ExpandedSplitterProvenance) :=
  meter (work (Z.of_nat (length credits)));;
  let referenced := set_of_list (map credit_splitter_number credits) in
  if existsb (fun number => is_none (splitter_percentage number)) referenced
  then throw "splitter_provenance_invalid_splitter"
  else fold_attempt (expand_splitter index relay credits) referenced
         (cache, ExpandedSplitterProvenance_default).

End splitter.

(** ** Allocations are exact *)

(** The share of each credit: the growth of the floor over its prefix. *)
Fixpoint floor_shares (balance amount prefix : Z) (credits : list Z) : list Z :=
  match credits with
  | [] => []
  | c :: credits' =>
      ((prefix + c) * amount / balance - prefix * amount / balance)
      :: floor_shares balance amount (prefix + c) credits'
  end.

Lemma floor_share_bounds balance amount prefix c :
  0 < balance -> 0 <= amount <= balance -> 0 <= prefix -> 0 <= c ->
  0 <= (prefix + c) * amount / balance - prefix * amount / balance <= c.
Proof.
  intros Hb Ha Hp Hc. split.
  - pose proof (Z.div_le_mono (prefix * amount) ((prefix + c) * amount) balance ltac:(lia) ltac:(nia)). lia.
  - pose proof (Z.div_le_mono ((prefix + c) * amount) (prefix * amount + c * balance) balance
      ltac:(lia) ltac:(nia)) as Hm.
    rewrite Z.div_add in Hm by lia. lia.
Qed.

Lemma floor_shares_spec balance amount prefix credits :
  0 < balance -> 0 <= amount <= balance -> 0 <= prefix -> Forall (fun c => 0 <= c) credits ->
  sumZ (floor_shares balance amount prefix credits)
  = (prefix + sumZ credits) * amount / balance - prefix * amount / balance /\
  Forall2 (fun a c => 0 <= a <= c) (floor_shares balance amount prefix credits) credits.
Proof.
  intros Hb Ha Hp Hc. revert prefix Hp. induction Hc as [|c credits Hc Hcs IH]; intros prefix Hp; cbn [floor_shares].
  - split; [|constructor]. unfold sumZ. cbn. rewrite Z.add_0_r. lia.
  - destruct (IH (prefix + c) ltac:(lia)) as [Hs Hf]. rewrite !sumZ_cons, Hs.
    split; [rewrite <- !Z.add_assoc; lia|]. constructor; [by apply floor_share_bounds|done].
Qed.

Lemma allocate_credits_ok balance amount prefix credits :
  0 < balance <= u64_max -> 0 <= amount <= balance -> 0 <= prefix ->
  Forall (fun c => 0 <= c) credits -> prefix + sumZ credits = balance ->
  allocate_credits balance amount prefix (prefix * amount / balance) credits
  = Ok (floor_shares balance amount prefix credits, amount).
Proof.
  intros Hb Ha Hp Hc. revert prefix Hp. induction Hc as [|c credits Hc Hcs IH]; intros prefix Hp Hsum;
    cbn [allocate_credits floor_shares].
  - unfold sumZ in Hsum. cbn in Hsum. replace prefix with balance by lia.
    by rewrite Z.mul_comm, Z.div_mul by lia.
  - rewrite sumZ_cons in Hsum. assert (0 <= sumZ credits) by (by apply sumZ_nonneg).
    rewrite (proj2 (checked_add_Some prefix c (prefix + c))) by lia.
    pose proof (floor_share_bounds balance amount prefix c ltac:(lia) Ha Hp Hc) as [Hs1 Hs2].
    assert (0 <= prefix * amount / balance) by (apply Z.div_pos; nia).
    assert ((prefix + c) * amount / balance <= amount).
    { rewrite <- (Z.div_mul amount balance) at 2 by lia. apply Z.div_le_mono; nia. }
    cbn zeta. rewrite (proj2 (Z.ltb_ge _ _)) by lia.
    rewrite (proj2 (checked_sub_Some _ _ _)) by (split; [reflexivity|lia]).
    rewrite (proj2 (Z.ltb_ge _ _)) by lia. by rewrite IH by lia.
Qed.

Lemma checked_sum_spec total l :
  Forall (fun c => 0 <= c) l -> total <= u64_max ->
  checked_sum total l = if total + sumZ l <=? u64_max then Some (total + sumZ l) else None.
Proof.
  intros Hl. revert total. induction Hl as [|x l Hx Hl IH]; intros total Ht; cbn [checked_sum].
  - unfold sumZ. cbn. rewrite Z.add_0_r. by rewrite (proj2 (Z.leb_le _ _)).
  - rewrite sumZ_cons. assert (0 <= sumZ l) by (by apply sumZ_nonneg).
    destruct (checked_add total x) as [t|] eqn:E.
    + apply checked_add_Some in E as [-> Ht']. rewrite IH by done. by rewrite !Z.add_assoc.
    + unfold checked_add in E. rewrite (proj2 (Z.leb_gt _ _)); [done|]. case_match; [done|]. zify_bool. lia.
Qed.

Lemma proportional_allocations_spec credits amount :
  Forall (fun c => 0 <= c) credits -> 0 <= amount -> 0 < sumZ credits <= u64_max -> amount <= sumZ credits ->
  proportional_allocations credits amount = Ok (floor_shares (sumZ credits) amount 0 credits).
Proof.
  intros Hc Ha Hs Hle. unfold proportional_allocations. rewrite checked_sum_spec by (done || lia).
  rewrite Z.add_0_l, (proj2 (Z.leb_le _ _)) by lia.
  rewrite (proj2 (Z.eqb_neq _ _)), (proj2 (Z.ltb_ge _ _)) by lia. cbn [orb].
  pose proof (allocate_credits_ok (sumZ credits) amount 0 credits ltac:(lia) ltac:(lia) ltac:(lia) Hc
                ltac:(lia)) as E.
  rewrite Z.mul_0_l, Z.div_0_l in E by lia. rewrite E. by rewrite Z.eqb_refl.
Qed.

Lemma proportional_allocations_ok credits amount allocations :
  Forall u64 credits -> u64 amount -> proportional_allocations credits amount = Ok allocations ->
  sumZ allocations = amount /\ Forall2 (fun a c => 0 <= a <= c) allocations credits /\
  allocations = floor_shares (sumZ credits) amount 0 credits.
Proof.
  intros Hc Ha E. assert (Forall (fun c => 0 <= c) credits) as Hc0.
  { eapply Forall_impl; [exact Hc|]. unfold u64. lia. }
  assert (0 <= sumZ credits) by (by apply sumZ_nonneg). unfold u64 in Ha.
  assert (0 < sumZ credits <= u64_max /\ amount <= sumZ credits) as [Hs Hle].
  { unfold proportional_allocations in E. rewrite checked_sum_spec in E by (done || lia).
    rewrite Z.add_0_l in E. destruct (_ <=? _) eqn:E1; [|done]. destruct (_ || _) eqn:E2; [done|].
    apply orb_false_iff in E2 as [E2 E3]. zify_bool. lia. }
  rewrite proportional_allocations_spec in E by (done || lia). injection E as <-.
  destruct (floor_shares_spec (sumZ credits) amount 0 credits ltac:(lia) ltac:(lia) ltac:(lia) Hc0) as [E Hf].
  rewrite E, Z.add_0_l, Z.mul_0_l, Z.div_0_l, (Z.mul_comm (sumZ credits)), Z.div_mul by lia.
  split; [lia|done].
Qed.

(** The allocation of the amount that reached subaccount 1 to the credits
    that funded it fails only when their total overflows, is zero, or is less than
    that amount.  Otherwise none of its internal checks can fail: the allocations
    add up to the amount exactly, none exceeds its credit, and each is the growth
    of the rounded-down share over its prefix. *)
Theorem proportional_allocations_exact (credits : list Z) (amount : Z) :
  Forall u64 credits -> u64 amount ->
  match proportional_allocations credits amount with
  | Ok allocations =>
      sumZ allocations = amount /\ Forall2 (fun a c => 0 <= a <= c) allocations credits /\
      allocations = floor_shares (sumZ credits) amount 0 credits
  | Err e =>
      u64_max < sumZ credits /\ e = "splitter_allocation_overflow"%string \/
      (sumZ credits = 0 \/ sumZ credits < amount) /\ e = "splitter_allocation_invalid_total"%string
  end.
Proof.
  intros Hc Ha. destruct (proportional_allocations credits amount) as [allocations|e] eqn:E;
    [by apply proportional_allocations_ok|].
  assert (Forall (fun c => 0 <= c) credits) as Hc0 by (eapply Forall_impl; [exact Hc|]; unfold u64; lia).
  assert (0 <= sumZ credits) by (by apply sumZ_nonneg).
  unfold u64 in Ha. destruct (decide (0 < sumZ credits <= u64_max /\ amount <= sumZ credits)) as [[Hs Hle]|Hn];
    [by rewrite proportional_allocations_spec in E by (done || lia)|].
  unfold proportional_allocations in E. rewrite checked_sum_spec, Z.add_0_l in E by (done || lia).
  destruct (sumZ credits <=? u64_max) eqn:E1; zify_bool; [|left; split; [lia|congruence]].
  assert ((sumZ credits =? 0) || (sumZ credits <? amount) = true) as E2
    by (apply orb_true_iff; rewrite Z.eqb_eq, Z.ltb_lt; lia).
  rewrite E2 in E. right. split; [lia|congruence].
Qed.

Lemma proportional_allocations_exact_witness :
  proportional_allocations [3; 5; 2] 7 = Ok [2; 3; 2] /\ sumZ [2; 3; 2] = 7.
Proof.
  pose proof (proportional_allocations_exact [3; 5; 2] 7
    ltac:(repeat constructor; unfold u64; lia) ltac:(unfold u64; lia)) as Hp.
  change (proportional_allocations [3; 5; 2] 7) with (@Ok (list Z) string [2; 3; 2]) in *.
  split; [reflexivity|exact (proj1 Hp)].
Defined.

(** ** The attribution conserves the credited amount *)

Abbreviation credits_ok l := (Forall (fun c => u64 (upstream_amount_e8s c)) l).
Definition attributed (acc : btree_map (list Z) Z * Z) : Z := total_of acc.1 + acc.2.

Lemma take_credits_ok limit n remaining funding live u consumed rest u' :
  credits_ok funding -> 0 <= remaining ->
  take_credits limit n remaining funding live u = (Ok (consumed, rest), u') ->
  funding = consumed ++ rest /\ sumZ (map upstream_amount_e8s consumed) = remaining.
Proof.
  intros Hf. revert n remaining u consumed rest.
  induction Hf as [|c funding Hc Hf IH]; intros n remaining u consumed rest Hr; cbn [take_credits];
    destruct (remaining <=? 0) eqn:E; zify_bool; try (intros [= <- <- <-]; split; [done|unfold sumZ; cbn; lia]).
  - unfold handle. destruct (work 1 live u) as [[] ?]; [|done]. by destruct (n =? limit)%nat.
  - unfold handle. destruct (work 1 live u) as [[] u1]; [|done]. destruct (n =? limit)%nat; [done|].
    destruct (remaining <? _) eqn:Ec; [done|]. zify_bool.
    intros ((consumed', rest') & u2 & Ht & [= <- <- <-])%metered_bind_ok. unfold u64 in Hc.
    apply IH in Ht as [-> Hs]; [|lia]. cbn [map]. rewrite sumZ_cons, Hs. split; [done|lia].
Qed.

Lemma attribute_credits_ok cas acc acc' :
  btree_wf acc.1 -> attribute_credits cas acc = Some acc' ->
  btree_wf acc'.1 /\ attributed acc' = attributed acc + sumZ (map snd cas).
Proof.
  revert acc. induction cas as [|[c a] cas IH]; intros acc Hwf; cbn [attribute_credits].
  { intros [= <-]. split; [done|]. unfold sumZ. cbn. lia. }
  destruct (attribute_credit (c, a) acc) as [acc1|] eqn:E; cbn; [|done]. intros Hr.
  assert (btree_wf acc1.1 /\ attributed acc1 = attributed acc + a) as [Hwf1 Ht1].
  { destruct acc as [m i]. unfold attribute_credit in E. cbn [fst snd] in E, Hwf.
    destruct (Z.eqb_spec a 0) as [->|]; [injection E as <-; split; [done|lia]|].
    destruct (upstream_source c) as [source|].
    - destruct (btree_add_checked source a m) as [m'|] eqn:Em; [|done]. injection E as <-.
      destruct (btree_add_checked_total _ _ _ _ Hwf Em) as [Hw Ht]. split; [done|].
      unfold attributed. cbn [fst snd]. lia.
    - destruct (checked_add i a) as [i'|] eqn:Ei; [|done]. injection E as <-.
      apply checked_add_Some in Ei as [-> _]. split; [done|]. unfold attributed. cbn [fst snd]. lia. }
  apply IH in Hr as [Hwf2 Ht2]; [|done]. split; [done|]. rewrite Ht2, Ht1, sumZ_cons. cbn [snd]. lia.
Qed.

Lemma map_snd_combine {A} (l : list A) (k : list Z) : length l = length k -> map snd (combine l k) = k.
Proof. revert k; induction l as [|a l IH]; intros [|b k] E; cbn in *; try done. f_equal. apply IH. lia. Qed.

(** A job attributes exactly what it sent to subaccount 1, and takes exactly its
    pinned balance off the queue. *)
Lemma consume_job_funding_ok balance amount pin funding acc live u rest acc' u' :
  credits_ok funding -> 0 <= balance -> u64 amount -> btree_wf acc.1 ->
  consume_job_funding balance amount pin funding acc live u = (Ok (rest, acc'), u') ->
  btree_wf acc'.1 /\ attributed acc' = attributed acc + amount /\
  exists consumed, funding = consumed ++ rest /\ sumZ (map upstream_amount_e8s consumed) = balance.
Proof.
  intros Hf Hb Ha Hwf. unfold consume_job_funding.
  intros ((consumed, rest') & u1 & Ht & Hr)%metered_bind_ok.
  destruct (take_credits_ok _ _ _ _ _ _ _ _ _ Hf Hb Ht) as [Ef Es]. cbn [fst snd] in Hr.
  assert (Forall u64 (map upstream_amount_e8s consumed)) as Hc.
  { apply Forall_map. rewrite Ef in Hf. by apply Forall_app in Hf as [? _]. }
  destruct (proportional_allocations _ amount) as [allocations|err] eqn:Ep; [|done].
  destruct (proportional_allocations_ok _ _ _ Hc Ha Ep) as (Hsum & Hf2 & _).
  apply Forall2_length in Hf2. rewrite length_map in Hf2.
  apply metered_bind_ok in Hr as (acc1 & u2 & Hacc & [= <- <- <-]). unfold checked in Hacc.
  destruct (attribute_credits _ acc) as [acc2|] eqn:Eacc; [|done]. injection Hacc as <- <-.
  apply attribute_credits_ok in Eacc as [Hwf' Ht']; [|done]. rewrite map_snd_combine in Ht' by done.
  split; [done|]. split; [lia|]. by exists consumed.
Qed.

Definition amounts_ok (entry : IndexTransactionWithId) : Prop :=
  match tx_operation (transaction entry) with
  | IndexTransfer _ _ amount fee _ => u64 amount /\ u64 fee
  | IndexMint _ amount => u64 amount
  | _ => True
  end.

Definition leg_ok (leg : OutgoingLeg) : Prop := u64 (leg_amount_e8s leg) /\ u64 (leg_fee_e8s leg).

(** What a replay has attributed and has still to attribute. *)
Record replay_ok (total : Z) (s : ReplayState) : Prop := {
  replay_funding : credits_ok (funding s);
  replay_default : from_option leg_ok True (pending_default s);
  replay_found : btree_wf (found s).1;
  replay_required : btree_wf (required s);
  replay_total : attributed (found s) + total_of (required s) = total;
}.

Lemma insert_by_id_perm tx l : insert_by_id tx l ≡ₚ tx :: l.
Proof.
  induction l as [|tx' l IH]; cbn; [done|]. destruct (_ <=? _); [done|]. rewrite IH. apply Permutation_swap.
Qed.
Lemma sort_by_id_perm l : sort_by_id l ≡ₚ l.
Proof. induction l as [|tx l IH]; cbn; [done|]. by rewrite insert_by_id_perm, IH. Qed.

Section conservation.
Context `{P : PrincipalSpec} `{T : TextSpec} `{H : HashSpec} `{C : !CandidSpec}.

Lemma close_pair_ok n leg s s' total live u u' :
  leg_ok leg -> replay_ok total s -> close_pair n leg s live u = (Ok s', u') -> replay_ok total s'.
Proof using Type.
  intros [Ha Hf] [Hfund Hdef Hfound Hreq Htot]. unfold close_pair.
  destruct (pending_default s) as [d|]; [|done]. destruct Hdef as [Hda Hdf].
  destruct (is_some_and _ _) eqn:Eam; [done|]. destruct (_ || _); [done|].
  destruct (pinned_balance n d leg) as [balance|[]] eqn:Eb; [|done].
  assert (0 <= balance) as Hb.
  { unfold pinned_balance in Eb. destruct (checked_add _ _) as [x|] eqn:E1; [|done].
    destruct (checked_add (leg_amount_e8s leg) _) as [y|] eqn:E2; [|done].
    destruct (checked_add x y) as [z|] eqn:E3; [|done]. cbn zeta in Eb. destruct (_ || _); [done|].
    injection Eb as <-. rewrite checked_add_Some in *. unfold u64 in *. lia. }
  unfold handle. destruct (consume_job_funding _ _ _ _ _ live u) as [[[rest acc]|] u1] eqn:Ec; [|done].
  intros [= <- <-]. cbn [fst snd].
  apply consume_job_funding_ok in Ec as (Hwf & Ht & consumed & Ec & _); try done;
    [|by destruct (is_some _); [|constructor]].
  rewrite Ec in Hfund. apply Forall_app in Hfund as [_ Hrest].
  destruct (btree_get (leg_tx_id leg) (required s)) as [expected|] eqn:Eg; cbn [is_some] in *.
  - cbn in Eam. apply negb_false_iff, Z.eqb_eq in Eam. subst expected.
    constructor; cbn; try done; [by apply filter_wf|]. rewrite total_of_remove, Eg by done. cbn. lia.
  - constructor; cbn; done.
Qed.

Lemma replay_entry_ok n last_anchor a entry s s' total live u u' :
  amounts_ok entry -> replay_ok total s -> replay_entry n last_anchor a entry s live u = (Ok s', u') ->
  replay_ok total s'.
Proof using Type.
  intros Ha Hs Hr. unfold replay_entry in Hr. apply metered_bind_ok in Hr as ([] & u1 & _ & Hr).
  destruct (_ <? _); [by injection Hr as <- <-|].
  assert (replay_ok total (s <| funding ::= push_incoming_credit (splitter_account a) entry |>)) as Hin.
  { destruct Hs. constructor; try done. cbn. unfold push_incoming_credit.
    destruct (incoming_credit _ entry) as [c|] eqn:Ec; [|done]. apply Forall_app. split; [done|].
    constructor; [|constructor]. unfold incoming_credit, amounts_ok in *.
    destruct (tx_operation _); repeat case_match; try done; injection Ec as <-; cbn; tauto. }
  unfold amounts_ok in Ha. destruct (tx_operation (transaction entry)) as [from to amount fee sp|to am|from am sp|from];
    try (destruct (_ && _) || destruct (bool_decide _)); try (by injection Hr as <- <-); try done.
  unfold outgoing_transfer in Hr. destruct (is_some sp); [done|]. destruct (_ || _); [done|].
  destruct (bool_decide (to = default_account_text a)).
  - destruct (is_some (pending_default s)); [done|]. injection Hr as <- <-. destruct Hs. by constructor.
  - destruct (bool_decide _); [|done]. eapply close_pair_ok; [|exact Hs|exact Hr]. exact Ha.
Qed.

Lemma replay_entries_ok n last_anchor a l s s' total live u u' :
  Forall amounts_ok l -> replay_ok total s ->
  fold_metered (replay_entry n last_anchor a) l s live u = (Ok s', u') -> replay_ok total s'.
Proof using Type.
  intros Hl. revert s u. induction Hl as [|entry l He Hl IH]; intros s u Hs Hr; cbn [fold_metered] in Hr.
  { by injection Hr as <- <-. }
  apply metered_bind_ok in Hr as (s1 & u1 & H1 & H2). by eapply IH; [eapply replay_entry_ok|].
Qed.

Lemma require_credits_ok n credits req req' live u u' :
  btree_wf req -> fold_metered (require_credit n) credits req live u = (Ok req', u') ->
  btree_wf req' /\ total_of req' = total_of req + sumZ (map credit_amount_e8s credits).
Proof using Type.
  revert req u. induction credits as [|c credits IH]; intros req u Hwf Hr; cbn [fold_metered] in Hr.
  { injection Hr as <- <-. split; [done|]. unfold sumZ. cbn. lia. }
  apply metered_bind_ok in Hr as (req1 & u1 & H1 & H2). unfold require_credit in H1.
  apply metered_bind_ok in H1 as ([] & u2 & _ & H1). destruct (contains_key _ _) eqn:Ek; [done|].
  injection H1 as <- <-. apply IH in H2 as [Hwf' Ht]; [|by apply btree_insert_wf]. split; [done|].
  rewrite Ht, total_of_insert by done. cbn [map]. rewrite sumZ_cons. unfold contains_key in Ek.
  destruct (btree_get _ req); [done|]. cbn. lia.
Qed.

(** A reconstruction attributes exactly the credits it was asked for. *)
Lemma reconstruct_splitter_conserves relay n txs credits auth live u p u' :
  Forall amounts_ok txs ->
  reconstruct_splitter_history_bounded relay n txs credits auth live u = (Ok (Complete p), u') ->
  btree_wf (sources p) /\ total_of (sources p) + ineligible_e8s p = sumZ (map credit_amount_e8s credits).
Proof using Type.
  intros Htx. unfold reconstruct_splitter_history_bounded, reconstruction.
  match goal with |- context [match ?m live u with _ => _ end] => destruct (m live u) as [[r|e] u1] eqn:Er end; [|done].
  intros [= -> <-]. apply metered_bind_ok in Er as ([] & u2 & _ & Er).
  destruct (negb auth); [done|]. destruct (_ || _); [done|].
  apply metered_bind_ok in Er as (req & u3 & Hreq & Er).
  apply require_credits_ok in Hreq as [Hwf Ht]; [|constructor].
  change (total_of []) with 0 in Ht. destruct (last (btree_keys req)) as [anchor|] eqn:El.
  - apply metered_bind_ok in Er as (s & u4 & Hs & Er).
    apply (replay_entries_ok _ _ _ _ _ _ (total_of req)) in Hs.
    + unfold replay_outcome in Er. destruct (pending_default s); [done|].
      destruct Hs as [_ _ Hfound _ Htot]. destruct (required s) as [|[missing ?] ?].
      * injection Er as <- <-. cbn [sources ineligible_e8s]. split; [done|]. unfold attributed in Htot.
        change (total_of []) with 0 in Htot. lia.
      * destruct (map tx_id txs); [done|]. by destruct (_ <? _).
    + by rewrite sort_by_id_perm.
    + constructor; cbn; try done; constructor.
  - injection Er as <- <-. cbn. split; [constructor|]. apply last_None in El.
    unfold btree_keys in El. apply map_eq_nil in El. subst req. change (total_of []) with 0 in *. lia.
Qed.

End conservation.

(** ** The sources of an attribution are those of the history *)

Section known.
Context `{P : PrincipalSpec} `{T : TextSpec} `{H : HashSpec} `{C : !CandidSpec}.
Context (known : list Z -> Prop).

Definition keys_known (m : btree_map (list Z) Z) : Prop := Forall (fun kv => known kv.1) m.
(** The account that a transaction credits from is known. *)
Definition sender_known (entry : IndexTransactionWithId) : Prop :=
  match tx_operation (transaction entry) with
  | IndexTransfer from _ _ _ _ => forall source, decode_account_identifier from = Some source -> known source
  | _ => True
  end.
Definition credit_known (c : UpstreamCredit) : Prop := forall source, upstream_source c = Some source -> known source.
Record replay_known (s : ReplayState) : Prop := {
  known_funding : Forall credit_known (funding s);
  known_found : keys_known (found s).1;
}.

Lemma add_checked_known source a m m' :
  known source -> keys_known m -> btree_add_checked source a m = Some m' -> keys_known m'.
Proof using Type.
  intros Hs Hm. unfold btree_add_checked. destruct (checked_add _ _) as [v|]; [|done]. intros [= <-].
  apply Forall_forall. intros kv [->|Hkv]%elem_insert; [done|]. unfold keys_known in Hm. rewrite Forall_forall in Hm. by apply Hm.
Qed.
Lemma add_sources_known l m m' : keys_known l -> keys_known m -> add_sources l m = Some m' -> keys_known m'.
Proof using Type.
  revert m. induction l as [|[source amount] l IH]; intros m Hl Hm; cbn [add_sources]; [by intros [= <-]|].
  apply Forall_cons in Hl as [Hs Hl]. destruct (btree_add_checked source amount m) as [m1|] eqn:E; [|done]. cbn.
  apply IH; [done|]. by eapply add_checked_known.
Qed.
Lemma attribute_credits_known cas acc acc' :
  Forall (fun ca => credit_known ca.1) cas -> keys_known acc.1 -> attribute_credits cas acc = Some acc' -> keys_known acc'.1.
Proof using Type.
  intros Hcas. revert acc. induction Hcas as [|[c a] cas Hc Hcas IH]; intros [m i] Hm; cbn [attribute_credits]; [by intros [= <-]|].
  unfold attribute_credit. cbn [fst snd] in *. destruct (a =? 0); [by apply IH|].
  destruct (upstream_source c) as [source|] eqn:Es.
  - destruct (btree_add_checked source a m) as [m'|] eqn:E; [|done]. apply IH. cbn. eapply add_checked_known, E; [by apply Hc|done].
  - destruct (checked_add i a); [|done]. by apply IH.
Qed.
Lemma take_credits_split limit n remaining funding live u consumed rest u' :
  take_credits limit n remaining funding live u = (Ok (consumed, rest), u') -> funding = consumed ++ rest.
Proof using Type.
  revert n remaining u consumed rest. induction funding as [|c funding IH]; intros n remaining u consumed rest; cbn [take_credits];
    destruct (remaining <=? 0); try (by intros [= <- <- <-]); unfold handle; destruct (work 1 live u) as [[] u1]; try done;
    destruct (n =? limit)%nat; try done.
  destruct (remaining <? _); [done|]. intros ((consumed', rest') & u2 & Ht & [= <- <- <-])%metered_bind_ok. apply IH in Ht as ->. done.
Qed.
Lemma combine_known (l : list UpstreamCredit) (k : list Z) : Forall credit_known l -> Forall (fun ca => credit_known ca.1) (combine l k).
Proof using Type. intros Hl. revert k. induction Hl as [|c l Hc Hl IH]; intros [|a k]; constructor; [done|apply IH]. Qed.
Lemma consume_job_funding_known balance amount pin funding acc live u rest acc' u' :
  Forall credit_known funding -> keys_known acc.1 ->
  consume_job_funding balance amount pin funding acc live u = (Ok (rest, acc'), u') -> Forall credit_known rest /\ keys_known acc'.1.
Proof using Type.
  intros Hf Hk. unfold consume_job_funding. intros ((consumed, rest') & u1 & Ht & Hr)%metered_bind_ok. cbn [fst snd] in Hr.
  apply take_credits_split in Ht as ->. apply Forall_app in Hf as [Hc Hrest].
  destruct (proportional_allocations _ amount) as [allocations|err]; [|done].
  apply metered_bind_ok in Hr as (acc1 & u2 & Hacc & [= <- <- <-]). split; [done|]. unfold checked in Hacc.
  destruct (attribute_credits _ acc) as [acc2|] eqn:E; [|done]. injection Hacc as <- <-.
  eapply attribute_credits_known; [|exact Hk|exact E]. by apply combine_known.
Qed.

Lemma close_pair_known n leg s s' live u u' : replay_known s -> close_pair n leg s live u = (Ok s', u') -> replay_known s'.
Proof using Type.
  intros [Hf Hk]. unfold close_pair. destruct (pending_default s) as [d|]; [|done]. destruct (is_some_and _ _); [done|].
  destruct (_ || _); [done|]. destruct (pinned_balance n d leg) as [balance|[]]; [|done].
  unfold handle. destruct (consume_job_funding _ _ _ _ _ live u) as [[[rest acc]|] u1] eqn:Ec; [|done].
  intros [= <- <-]. apply consume_job_funding_known in Ec as [Hr Ha]; [|done|by destruct (is_some _); [|constructor]].
  split; cbn; [done|]. by destruct (is_some _).
Qed.
Lemma replay_entry_known n last_anchor a entry s s' live u u' :
  sender_known entry -> replay_known s -> replay_entry n last_anchor a entry s live u = (Ok s', u') -> replay_known s'.
Proof using Type.
  intros Ha Hs Hr. unfold replay_entry in Hr. apply metered_bind_ok in Hr as ([] & u1 & _ & Hr).
  destruct (_ <? _); [by injection Hr as <- <-|].
  assert (replay_known (s <| funding ::= push_incoming_credit (splitter_account a) entry |>)) as Hin.
  { destruct Hs. split; [|done]. cbn. unfold push_incoming_credit.
    destruct (incoming_credit _ entry) as [c|] eqn:Ec; [|done]. apply Forall_app. split; [done|].
    constructor; [|constructor]. unfold incoming_credit, sender_known, credit_known in *.
    destruct (tx_operation _); repeat case_match; try done; injection Ec as <-; cbn; done. }
  destruct (tx_operation (transaction entry)) as [from to amount fee sp|to am|from am sp|from];
    try (destruct (_ && _) || destruct (bool_decide _)); try (by injection Hr as <- <-); try done.
  unfold outgoing_transfer in Hr. destruct (is_some sp); [done|]. destruct (_ || _); [done|].
  destruct (bool_decide (to = default_account_text a)).
  - destruct (is_some (pending_default s)); [done|]. injection Hr as <- <-. destruct Hs. by constructor.
  - destruct (bool_decide _); [|done]. eapply close_pair_known; [exact Hs|exact Hr].
Qed.
Lemma replay_entries_known n last_anchor a l s s' live u u' :
  Forall sender_known l -> replay_known s -> fold_metered (replay_entry n last_anchor a) l s live u = (Ok s', u') -> replay_known s'.
Proof using Type.
  intros Hl. revert s u. induction Hl as [|entry l He Hl IH]; intros s u Hs Hr; cbn [fold_metered] in Hr; [by injection Hr as <- <-|].
  apply metered_bind_ok in Hr as (s1 & u1 & H1 & H2). by eapply IH; [eapply replay_entry_known|].
Qed.
Lemma reconstruct_splitter_known relay n txs credits auth live u p u' :
  Forall sender_known txs ->
  reconstruct_splitter_history_bounded relay n txs credits auth live u = (Ok (Complete p), u') -> keys_known (sources p).
Proof using Type.
  intros Htx. unfold reconstruct_splitter_history_bounded, reconstruction.
  match goal with |- context [match ?m live u with _ => _ end] => destruct (m live u) as [[r|e] u1] eqn:Er end; [|done].
  intros [= -> <-]. apply metered_bind_ok in Er as ([] & u2 & _ & Er).
  destruct (negb auth); [done|]. destruct (_ || _); [done|].
  apply metered_bind_ok in Er as (req & u3 & _ & Er). destruct (last (btree_keys req)) as [anchor|].
  - apply metered_bind_ok in Er as (s & u4 & Hs & Er).
    apply replay_entries_known in Hs as [_ Hk]; [|by rewrite sort_by_id_perm|by repeat constructor].
    unfold replay_outcome in Er. destruct (pending_default s); [done|]. destruct (required s) as [|[missing ?] ?].
    + by injection Er as <- <-.
    + destruct (map tx_id txs); [done|]. by destruct (_ <? _).
  - injection Er as <- <-. constructor.
Qed.
End known.

