(* ===== verification/RewardTokenHistory.v ===== *)
(** * Relay rewards: the age of the reward pot ([scheduler/reward_token_history.rs])

    The reward token's index is read backwards until the balance before the
    oldest collected transaction is zero.  Replaying forward first-in first-out
    gives the credits that make up the live balance; their block times are the
    cutoffs of the attribution. *)

From S2P Require Import Prelude BTree Async Ic Accounts Clients CyclesProbe TimerGuard RelayState RelayLogic RelaySplitter RewardBudget RewardHistory RewardSplitter.

Definition REWARD_HISTORY_PAGE_SIZE : Z := 1000.

Record RewardCredit := MkRewardCredit {
  remaining_amount : Z;
  ledger_block_timestamp_nanos : Z;
}.

Inductive BalanceEffect := Credit (amount timestamp_nanos : Z) | Debit (amount : Z).

Definition malformed {A} : result A string := Err "reward_history_malformed"%string.

Definition nat_to_u64 (value : Z) : result Z string :=
  if value <=? u64_max then Ok value else malformed.

Definition res {A} (r : result A string) : metered A :=
  match r with Ok a => mret a | Err e => fail e end.

Section effect.
Context `{P : PrincipalSpec} `{A : !AccountSpec} `{C : !CandidSpec}.

Definition populated (t : IcrcTransaction) : nat :=
  let one {X} (o : option X) := if is_some o then 1%nat else 0%nat in
  (one (mint t) + one (burn t) + one (icrc_transfer t) + one (approve t)
   + (if fee_collector t then 1 else 0) + one (authorized_mint t) + one (authorized_burn t))%nat.

Definition transfer_effect (t : IcrcTransaction) (x : IcrcTransferRecord) (account : Account) :
    result BalanceEffect string :=
  if negb (bool_decide (kind t = TRANSACTION_TRANSFER)) then malformed
  else
    let from_relay := account_eqb (transfer_from x) account in
    let to_relay := account_eqb (transfer_to x) account in
    if Bool.eqb from_relay to_relay then malformed
    else if to_relay then Ok (Credit (transfer_amount x) (icrc_timestamp t))
    else if is_some (transfer_spender x) then malformed
    else
      match transfer_fee x with
      | None => malformed
      | Some fee => Ok (Debit (transfer_amount x + fee))
      end.

(** The three tests of the source that end in the same error are its last case. *)
Definition transaction_effect (t : IcrcTransaction) (account : Account) : result BalanceEffect string :=
  if negb (Nat.eqb (populated t) 1) then malformed
  else
    match mint t with
    | Some m =>
        if negb (bool_decide (kind t = TRANSACTION_MINT)) || negb (account_eqb (mint_to m) account) then malformed
        else
          let fee := default 0 (mint_fee m) in
          if mint_amount m <? fee then malformed
          else Ok (Credit (mint_amount m - fee) (icrc_timestamp t))
    | None =>
        match icrc_transfer t with
        | Some x => transfer_effect t x account
        | None =>
            match authorized_mint t with
            | Some (amount, to) =>
                if negb (bool_decide (kind t = TRANSACTION_AUTHORIZED_MINT)) || negb (account_eqb to account)
                then malformed else Ok (Credit amount (icrc_timestamp t))
            | None => malformed
            end
        end
    end.

End effect.

(** ** The backward read *)

Record BackwardRewardHistory `{PrincipalSpec} := MkRewardHistory {
  rh_account : Account;
  live_balance : Z;
  balance_after : Z;
  rh_next_start : option Z;
  rh_seen_starts : btree_set Z;
  rh_previous_tx_id : option Z;
  rh_transactions : list TransactionWithId;
  boundary_found : bool;
  rh_exhausted : bool;
}.

Section history.
Context `{P : PrincipalSpec} `{A : !AccountSpec} `{T : TextSpec} `{C : !CandidSpec}.

Definition reward_history_new (account : Account) (balance : Z) : BackwardRewardHistory :=
  MkRewardHistory _ account balance balance None [] None [] false false.

(** The ids of a page, checked against the read so far: the last one. *)
Definition check_id (requested_start : option Z) (entry : TransactionWithId) (previous : option Z) :
    metered (option Z) :=
  work 1;;
  id ← res (nat_to_u64 (icrc_id entry));
  if is_some_and requested_start (fun start => start <=? id)
     || is_some_and previous (fun previous_id => previous_id <=? id)
  then fail "reward_history_pagination_non_progressing"
  else mret (Some id).

Definition apply_effect (effect : BalanceEffect) (after : Z) : result Z string :=
  match effect with
  | Credit amount _ => if after <? amount then malformed else Ok (after - amount)
  | Debit amount => Ok (after + amount)
  end.

(** One transaction is inverted. *)
Definition invert_entry (entry : TransactionWithId) (h : BackwardRewardHistory) : metered BackwardRewardHistory :=
  work 1;;
  effect ← res (transaction_effect (icrc_transaction entry) (rh_account h));
  after ← res (apply_effect effect (balance_after h));
  id ← res (nat_to_u64 (icrc_id entry));
  mret (h <| balance_after := after |> <| rh_previous_tx_id := Some id |>
          <| rh_transactions ::= (fun l => l ++ [entry]) |>).

(** Until the balance before the transaction is zero. *)
Fixpoint invert_entries (l : list TransactionWithId) (h : BackwardRewardHistory) : metered BackwardRewardHistory :=
  match l with
  | [] => mret h
  | entry :: l' =>
      h ← invert_entry entry h;
      if balance_after h =? 0 then mret (h <| boundary_found := true |>) else invert_entries l' h
  end.

Definition opt_u64 (o : option Z) : metered (option Z) :=
  match o with None => mret None | Some n => id ← res (nat_to_u64 n); mret (Some id) end.

(** After a page that holds no boundary. *)
Definition finish_reward_page (requested_start documented_oldest : option Z) (oldest_in_page : Z)
    (h : BackwardRewardHistory) : metered BackwardRewardHistory :=
  if boundary_found h then mret h
  else if bool_decide (documented_oldest = Some oldest_in_page) then fail "reward_history_not_caught_up"
  else if bool_decide (requested_start = Some oldest_in_page)
          || set_contains oldest_in_page (rh_seen_starts h)
  then fail "reward_history_pagination_non_progressing"
  else mret (h <| rh_seen_starts ::= set_insert oldest_in_page |>
               <| rh_next_start := Some oldest_in_page |>).

Definition absorb_reward_page (page : GetAccountTransactionsResponse) (h : BackwardRewardHistory) :
    metered BackwardRewardHistory :=
  let txs := icrc_transactions page in
  if REWARD_HISTORY_PAGE_SIZE <? Z.of_nat (length txs) then fail "reward_history_oversized_page"
  else
    match encode_icrc_page page with
    | None => fail "reward_history_encoding_failed"
    | Some encoded =>
        retain (Z.of_nat (length txs)) (Z.of_nat (length encoded));;
        if negb (icrc_balance page =? live_balance h) then fail "reward_history_not_caught_up"
        else if Nat.eqb (length txs) 0 then
          if balance_after h =? 0 then mret (h <| rh_exhausted := true |>)
          else fail "reward_history_not_caught_up"
        else
          start ← opt_u64 (rh_next_start h);
          oldest ← fold_metered (check_id start) txs (rh_previous_tx_id h);
          let oldest_in_page := default 0 oldest in
          documented ← opt_u64 (icrc_oldest_tx_id page);
          if is_some_and documented (fun o => oldest_in_page <? o)
          then fail "reward_history_pagination_inconsistent_oldest"
          else
            h ← invert_entries txs h;
            finish_reward_page start documented oldest_in_page h
    end.

Definition extend_reward (index : Principal) (h : BackwardRewardHistory) : attempt BackwardRewardHistory :=
  if boundary_found h || rh_exhausted h then mret h
  else
    page ← call_or (get_account_transactions index (rh_account h) (rh_next_start h) REWARD_HISTORY_PAGE_SIZE)
             "reward_index_unavailable";
    meter (absorb_reward_page page h).

(** ** The credits that are left *)

(** A debit takes the oldest credits first. *)
Fixpoint spend_credits (remaining : Z) (credits : list RewardCredit) : metered (list RewardCredit) :=
  if remaining <=? 0 then mret credits
  else
    work 1;;
    match credits with
    | [] => fail "reward_history_malformed"
    | front :: credits' =>
        if remaining_amount front <=? remaining
        then spend_credits (remaining - remaining_amount front) credits'
        else mret (front <| remaining_amount := remaining_amount front - remaining |> :: credits')
    end.

Definition replay_credit (account : Account) (entry : TransactionWithId) (credits : list RewardCredit) :
    metered (list RewardCredit) :=
  work 1;;
  effect ← res (transaction_effect (icrc_transaction entry) account);
  match effect with
  | Credit amount timestamp =>
      mret (if amount =? 0 then credits else credits ++ [MkRewardCredit amount timestamp])
  | Debit amount => spend_credits amount credits
  end.

(** [sort_unstable] then [dedup]: the ordered set of the times. *)
Definition cutoffs (h : BackwardRewardHistory) : metered (list Z) :=
  if negb (boundary_found h) && negb (rh_exhausted h) then fail "reward_history_not_caught_up"
  else
    credits ← fold_metered (replay_credit (rh_account h)) (reverse (rh_transactions h)) [];
    if negb (sumZ (map remaining_amount credits) =? live_balance h) then fail "reward_history_not_caught_up"
    else
      let times := map ledger_block_timestamp_nanos credits in
      if Nat.eqb (length times) 0 then fail "reward_history_not_caught_up"
      else
        let n := Z.of_nat (length times) in
        work (Z.min (n * (1 + Z.log2 n)) u32_max);;
        mret (set_of_list times).

Fixpoint reward_history_loop (fuel : nat) (index : Principal) (h : BackwardRewardHistory) :
    attempt BackwardRewardHistory :=
  match fuel with
  | 0%nat => lift out_of_fuel
  | S fuel =>
      if boundary_found h || rh_exhausted h then mret h
      else h ← extend_reward index h; reward_history_loop fuel index h
  end.

Definition reward_pot_cutoffs_bounded (index : Principal) (account : Account) (balance : Z) :
    attempt (list Z) :=
  h ← reward_history_loop loop_fuel index (reward_history_new account balance);
  meter (cutoffs h).

End history.
