(* ===== verification/RewardProvenance.v ===== *)
(** * Relay rewards: the expansion of splitter credits conserves them

    [SplitterHistoryCache::expand] of [scheduler/reward_splitter.rs] under every
    reply of the index: it returns within the allowance of the attempt, and a
    success attributes exactly the amounts of the credits it was asked for. *)

From S2P Require Import Prelude BTree Async Ic Accounts Clients CyclesProbe TimerGuard RelayState RelayLogic RelaySplitter RewardBudget RewardHistory RewardSplitter.

(** The sum over all credits, by the numbers they name. *)
Lemma sum_by_number (credits : list SplitterFundingCredit) numbers :
  NoDup numbers -> (forall c, c ∈ credits -> credit_splitter_number c ∈ numbers) ->
  sumZ (map (fun n => sumZ (map credit_amount_e8s
          (List.filter (fun c => credit_splitter_number c =? n) credits))) numbers)
  = sumZ (map credit_amount_e8s credits).
Proof.
  intros Hnd. induction credits as [|c credits IH]; intros Hin.
  { cbn. clear. induction numbers as [|n numbers IH]; [done|]. cbn [map]. rewrite sumZ_cons, IH. done. }
  assert (credit_splitter_number c ∈ numbers) as Hc by (apply Hin; left).
  cbn [map]. rewrite sumZ_cons, <- IH by (intros c' H; apply Hin; by right). clear IH Hin.
  induction Hnd as [|n numbers Hn Hnd IHn]; [by apply not_elem_of_nil in Hc|].
  cbn [map]. rewrite !sumZ_cons. cbn [List.filter] in *.
  destruct (Z.eqb_spec (credit_splitter_number c) n) as [E|E].
  - cbn [map]. rewrite sumZ_cons.
    assert (forall l, n ∉ l ->
      map (fun m => sumZ (map credit_amount_e8s (if credit_splitter_number c =? m
         then c :: List.filter (fun c => credit_splitter_number c =? m) credits
         else List.filter (fun c => credit_splitter_number c =? m) credits))) l
      = map (fun m => sumZ (map credit_amount_e8s
               (List.filter (fun c => credit_splitter_number c =? m) credits))) l) as ->; [|lia|done].
    clear -E. intros l Hl. induction l as [|m l IH]; [done|]. cbn [map].
    apply not_elem_of_cons in Hl as [Hm Hl]. rewrite IH by done.
    by rewrite (proj2 (Z.eqb_neq (credit_splitter_number c) m)) by congruence.
  - apply elem_of_cons in Hc as [?|Hc]; [congruence|]. rewrite IHn by done. lia.
Qed.

(** ** What the reconstruction spends *)

Lemma spends_reconstruction {A} (m : metered (HistoricalReconstruction A)) :
  spends m -> spends (reconstruction m).
Proof.
  intros Hm live u Hu. unfold reconstruction. destruct (Hm live u Hu) as [H1 H2].
  by destruct (m live u) as [[r|e] u'].
Qed.

Lemma take_credits_spends limit n remaining funding : spends (take_credits limit n remaining funding).
Proof.
  revert n remaining. induction funding as [|c funding IH]; intros n remaining; cbn [take_credits];
    repeat spends_step; try lia; apply IH.
Qed.
#[export] Hint Resolve take_credits_spends spends_reconstruction : jupiter.

Section spending.
Context `{P : PrincipalSpec} `{T : TextSpec} `{H : HashSpec} `{C : !CandidSpec}.

Lemma close_pair_spends n leg s : spends (close_pair n leg s).
Proof using Type.
  unfold close_pair, consume_job_funding. repeat first [spends_step | apply take_credits_spends].
Qed.

Lemma sort_work_nonneg n : 0 <= sort_work n.
Proof using Type.
  unfold sort_work. pose proof (Z.log2_nonneg (Z.max (Z.of_nat n) 1)). nia.
Qed.

Lemma replay_entry_spends n last_anchor a entry s : spends (replay_entry n last_anchor a entry s).
Proof using Type.
  unfold replay_entry, outgoing_transfer. repeat first [spends_step | apply close_pair_spends]; lia.
Qed.

Lemma reconstruct_splitter_spends relay n txs credits auth :
  spends (reconstruct_splitter_history_bounded relay n txs credits auth).
Proof using Type.
  apply spends_reconstruction. pose proof (sort_work_nonneg (length txs)).
  unfold require_credit, replay_outcome.
  repeat first [spends_step | apply replay_entry_spends]; lia.
Qed.

End spending.

(** ** The expansion *)

Section expansion.
Context `{P : PrincipalSpec} `{T : TextSpec} `{H : HashSpec} `{C : !CandidSpec}.
Context (e : env Heap SuiteCall) (Inv : Heap -> Prop) (ev_ok : event Heap SuiteCall -> Prop).
Hypothesis rely_inv : forall n h, Inv h -> Inv (env_interleave e n h).
Hypothesis reads_ok : forall index account start n h, ev_ok (Dispatch (GetTransactions index account start n) h).
(** What is known of every transaction that the index returns, and of their senders. *)
Context (tx_ok : IndexTransactionWithId -> Prop) (known : list Z -> Prop).
Hypothesis tx_amounts : forall entry, tx_ok entry -> amounts_ok entry.
Hypothesis tx_sender : forall entry, tx_ok entry -> sender_known known entry.
Hypothesis typed : forall n index account start k page,
  env_reply e n _ (GetTransactions index account start k) = Ok (Ok page) -> Forall tx_ok (transactions page).

(** A history of the account, of transactions that the index returned. *)
Definition sound_history (account : list Z) (h : BackwardHistory) : Prop :=
  history_ok h /\ account_identifier h = account /\ Forall tx_ok (collected h).

Lemma sound_new account : sound_history account (backward_history account).
Proof using Type. split; [apply backward_history_ok|]. split; [done|constructor]. Qed.

Lemma sound_authoritative account h : sound_history account h -> Forall tx_ok (authoritative_transactions h).
Proof using Type. intros (_ & _ & Hc). by apply Forall_take. Qed.

Lemma attempts_map_error {X} u f (m : attempt X) R :
  attempts e Inv ev_ok u m R -> attempts e Inv ev_ok u (map_error f m) R.
Proof using Type.
  intros Hm b w Hu Hi. unfold awp, map_error. apply wp_bind. eapply wp_mono; [by apply Hm|].
  intros [[x|err] u'] w' [Hr Hx]; apply wp_ret; [done|]. by split.
Qed.

Lemma attempts_of_option {X} u (o : option X) err (R : X -> Usage -> Prop) :
  (forall x, o = Some x -> R x u) -> attempts e Inv ev_ok u (of_option o err) R.
Proof using Type.
  intros HR. destruct o; [by apply attempts_ret, HR|apply attempts_throw].
Qed.

(** An older read of a history that is not exhausted. *)
Lemma attempts_older u index account h :
  sound_history account h -> exhausted h = false ->
  attempts e Inv ev_ok u (extend index h) (fun h' u' => sound_history account h' /\ calls u + 1 <= calls u').
Proof using rely_inv reads_ok typed tx_amounts tx_sender.
  intros (Hh & Ha & Hc) He. eapply attempts_mono; [by apply (attempts_extend e Inv ev_ok rely_inv tx_ok)|].
  intros h' u' (Hh' & (Ea & _) & Hc' & Hcalls). split; [|done]. split; [done|]. split; [congruence|done].
Qed.

Definition provenance_of (amount : Z) (p : ExpandedSplitterProvenance) : Prop :=
  btree_wf (sources p) /\ total_of (sources p) + ineligible_e8s p = amount /\ keys_known known (sources p).

(** Every round that goes on has read a page, which is charged as a call. *)
Lemma attempts_provenance_loop fuel index relay n required account u h :
  sound_history account h -> usage_ok u -> MAX_CALLS - calls u < Z.of_nat fuel ->
  attempts e Inv ev_ok u (provenance_loop fuel index relay n required h) (fun r u' =>
    sound_history account r.2 /\ provenance_of (sumZ (map credit_amount_e8s required)) r.1 /\
    calls u <= calls u').
Proof using rely_inv reads_ok typed tx_amounts tx_sender.
  revert u h. induction fuel as [|fuel IH]; intros u h Hh Hu Hf; cbn [provenance_loop].
  { destruct Hu as ([? ?] & _). lia. }
  eapply attempts_bind with (R := fun h' u' => sound_history account h' /\ calls u <= calls u').
  { destruct (_ && _) eqn:En; [|by apply attempts_ret].
    apply andb_true_iff in En as [_ He%negb_true_iff].
    eapply attempts_map_error, attempts_mono; [by eapply attempts_older|]. intros h' u' [? ?]. split; [done|lia]. }
  intros h1 u1 Hu1 Hle1 [Hh1 Hc1].
  eapply attempts_bind with (R := fun r u' => calls u1 <= calls u' /\
    forall p, r = Complete p -> provenance_of (sumZ (map credit_amount_e8s required)) p).
  { apply attempts_meter; [apply reconstruct_splitter_spends|]. intros live r u' Hr. split.
    - pose proof (reconstruct_splitter_spends relay n (authoritative_transactions h1) required
        (authoritative h1) live u1 Hu1) as [_ [Hcu _]]. by rewrite Hr in Hcu.
    - intros p ->. pose proof (sound_authoritative _ _ Hh1) as Htx.
      edestruct reconstruct_splitter_conserves as [Hw Ht]; [|exact Hr|split; [exact Hw|split; [exact Ht|]]].
      + by eapply Forall_impl.
      + eapply reconstruct_splitter_known; [|exact Hr]. by eapply Forall_impl. }
  intros r u2 Hu2 Hle2 [Hc2 Hp]. destruct r as [p| |err].
  - apply attempts_ret. cbn [fst snd]. split; [done|]. split; [by apply Hp|lia].
  - destruct (exhausted h1) eqn:Hx; [apply attempts_throw|].
    eapply attempts_bind; [by eapply attempts_map_error, attempts_older|].
    intros h3 u3 Hu3 Hle3 [Hh3 Hc3]. eapply attempts_mono; [apply IH; [done..|lia]|].
    intros [p h4] u4 (? & ? & ?). split; [done|]. split; [done|lia].
  - apply attempts_throw.
Qed.

(** The histories that the cache keeps. *)
Definition cache_ok (relay : Principal) (cache : SplitterHistoryCache) : Prop :=
  Forall (fun kv => sound_history (account_identifier_text relay (Some (relay_numbered_subaccount kv.1))) kv.2)
    (histories cache).

Lemma add_sources_ok l m m' :
  btree_wf m -> add_sources l m = Some m' -> btree_wf m' /\ total_of m' = total_of m + total_of l.
Proof using Type.
  revert m. induction l as [|[source amount] l IH]; intros m Hwf; cbn [add_sources].
  { intros [= <-]. split; [done|]. change (total_of []) with 0. lia. }
  destruct (btree_add_checked source amount m) as [m1|] eqn:E; [|done]. cbn.
  destruct (btree_add_checked_total _ _ _ _ Hwf E) as [Hwf1 Ht1]. intros Hr.
  destruct (IH _ Hwf1 Hr) as [Hwf2 Ht2]. split; [done|]. rewrite Ht2, Ht1.
  unfold total_of, btree_values. cbn [map snd]. rewrite sumZ_cons. lia.
Qed.

Lemma attempts_merge u scanned first_use one expanded a b :
  provenance_of a one -> provenance_of b expanded ->
  attempts e Inv ev_ok u (merge_provenance scanned first_use one expanded)
    (fun p u' => provenance_of (b + a) p /\ u' = u).
Proof using Type.
  intros (Hw1 & Ht1 & Hk1) (Hw2 & Ht2 & Hk2). unfold merge_provenance.
  eapply attempts_bind with (R := fun _ u' => u' = u); [by apply attempts_of_option|]. intros n ? _ _ ->.
  eapply attempts_bind with (R := fun m u' => u' = u /\ btree_wf m /\
    total_of m = total_of (sources expanded) + total_of (sources one) /\ keys_known known m).
  { apply attempts_of_option. intros m Hm. split; [done|]. pose proof (add_sources_known known _ _ _ Hk1 Hk2 Hm).
    apply add_sources_ok in Hm as [? ?]; done. }
  intros m ? _ _ (-> & Hwf & Ht & Hk).
  eapply attempts_bind with (R := fun i u' => u' = u /\ i = ineligible_e8s expanded + ineligible_e8s one).
  { apply attempts_of_option. intros i Hi. apply checked_add_Some in Hi as [-> _]. done. }
  intros i ? _ _ [-> ->]. apply attempts_ret. split; [|done]. split; cbn [sources ineligible_e8s]; [done|]. split; [lia|done].
Qed.

Abbreviation numbered n credits :=
  (sumZ (map credit_amount_e8s (List.filter (fun c => credit_splitter_number c =? n) credits))).

Lemma attempts_expand_splitter u index relay credits n cache expanded a :
  usage_ok u -> cache_ok relay cache -> provenance_of a expanded ->
  attempts e Inv ev_ok u (expand_splitter index relay credits n (cache, expanded)) (fun s u' =>
    cache_ok relay s.1 /\ provenance_of (a + numbered n credits) s.2 /\ calls u <= calls u').
Proof using rely_inv reads_ok typed tx_amounts tx_sender.
  intros Hu Hcache Ha. unfold expand_splitter.
  eapply attempts_bind with (R := fun _ u' => calls u <= calls u').
  { apply attempts_meter; [apply spends_work; lia|]. intros live [] u' Hr.
    pose proof (spends_work 1 ltac:(lia) live u Hu) as [_ [Hc _]]. by rewrite Hr in Hc. }
  intros _ u1 Hu1 Hle1 Hc1. cbn zeta.
  set (account := account_identifier_text relay (Some (relay_numbered_subaccount n))).
  assert (sound_history account (default (backward_history account) (btree_get n (histories cache)))) as Hh.
  { destruct (btree_get n (histories cache)) as [h|] eqn:E; [|apply sound_new]. apply btree_get_elem in E.
    unfold cache_ok in Hcache. rewrite Forall_forall in Hcache. apply (Hcache _ E). }
  eapply attempts_bind; [apply (attempts_provenance_loop loop_fuel _ _ _ _ account); [done..|]|].
  { destruct Hu1 as ([? ?] & _). unfold loop_fuel, MAX_CALLS. lia. }
  intros [one h'] u2 Hu2 Hle2 (Hh' & Hone & Hc2). cbn [fst snd] in *.
  eapply attempts_bind; [by apply (attempts_merge _ _ _ _ _ (numbered n credits) a)|].
  intros p u3 Hu3 Hle3 [Hp ->]. apply attempts_ret. cbn [fst snd]. split; [|split; [done|lia]].
  unfold cache_ok. cbn [histories]. apply Forall_forall. intros [k h] [[= -> ->]|Hin]%elem_insert; [done|].
  unfold cache_ok in Hcache. rewrite Forall_forall in Hcache. by apply Hcache.
Qed.

Lemma attempts_expand_all index relay credits numbers u cache expanded a :
  usage_ok u -> cache_ok relay cache -> provenance_of a expanded ->
  attempts e Inv ev_ok u (fold_attempt (expand_splitter index relay credits) numbers (cache, expanded))
    (fun s u' => cache_ok relay s.1 /\
       provenance_of (a + sumZ (map (fun n => numbered n credits) numbers)) s.2 /\ calls u <= calls u').
Proof using rely_inv reads_ok typed tx_amounts tx_sender.
  revert u cache expanded a. induction numbers as [|n numbers IH]; intros u cache expanded a Hu Hcache Ha;
    cbn [fold_attempt map].
  { apply attempts_ret. cbn [fst snd]. rewrite sumZ_nil, Z.add_0_r. split; [done|]. split; [done|lia]. }
  eapply attempts_bind; [by apply (attempts_expand_splitter _ _ _ _ _ _ _ a)|].
  intros [cache1 expanded1] u1 Hu1 Hle1 (Hcache1 & H1 & Hc1).
  eapply attempts_mono; [by apply IH|]. intros s u2 (? & Hs & ?). split; [done|].
  rewrite sumZ_cons, Z.add_assoc. split; [done|lia].
Qed.

(** The expansion of the credits of a batch. *)
Lemma attempts_expand u index relay credits cache :
  usage_ok u -> cache_ok relay cache ->
  attempts e Inv ev_ok u (expand index relay credits cache) (fun s u' =>
    cache_ok relay s.1 /\ provenance_of (sumZ (map credit_amount_e8s credits)) s.2 /\ calls u <= calls u').
Proof using rely_inv reads_ok typed tx_amounts tx_sender.
  intros Hu Hcache. unfold expand.
  eapply attempts_bind with (R := fun _ u' => calls u <= calls u').
  { apply attempts_meter; [apply spends_work; lia|]. intros live [] u' Hr.
    pose proof (spends_work (Z.of_nat (length credits)) ltac:(lia) live u Hu) as [_ [Hc _]].
    by rewrite Hr in Hc. }
  intros _ u1 Hu1 Hle1 Hc1. destruct (existsb _ _); [apply attempts_throw|].
  eapply attempts_mono; [apply (attempts_expand_all _ _ _ _ _ _ _ 0); [done..|]|].
  { split; [constructor|]. split; [done|constructor]. }
  intros s u2 (? & Hs & ?). split; [done|]. split; [|lia].
  rewrite sum_by_number, Z.add_0_l in Hs; [done|apply set_of_list_NoDup|].
  intros c Hc. apply elem_of_set_of_list. by apply list_elem_of_fmap_2.
Qed.

End expansion.
