(* ===== verification/RewardSweep.v ===== *)
(** * Relay rewards: the sweep ([scheduler/reward_sweep.rs])

    Once a week the relay divides the SNS tokens it holds among the owners of the
    ICP accounts that funded a commitment.  The commitment is the oldest one that
    the tokens can belong to; its funding is read from the ICP index, expanded
    through the splitters, and resolved to owners by the SNS rewards canister.
    The payout is pinned in stable memory before the first transfer.  [RewardLog]
    is printed only; of it the counters that can overflow are modelled. *)

From S2P Require Import Prelude BTree Async Ic Accounts Clients CyclesProbe TimerGuard RelayState RelayLogic RelaySplitter RewardBudget RewardHistory RewardSplitter RewardTokenHistory.

Definition REWARD_SWEEP_INTERVAL_SECONDS : Z := 7 * 24 * 60 * 60.
Definition REWARD_CONTEXT_MAX_AGE_NANOS : Z := 48 * 60 * 60 * 1000000000.
Definition OWNER_RESOLUTION_CHUNK_SIZE : nat := 128.
(** [JRS1] *)
Definition REWARD_MEMO_PREFIX : list Z := [74; 82; 83; 49].

Record RewardLog := MkRewardLog {
  log_scanned_transactions : Z;
  log_splitters_scanned : Z;
  log_distinct_sources : Z;
}.
Definition RewardLog_default : RewardLog := MkRewardLog 0 0 0.

Inductive SweepDisposition := SweepCompleted | RetryNextDailyTick.
#[export] Instance SweepDisposition_eq_dec : EqDecision SweepDisposition.
Proof. solve_decision. Defined.

Record SweepGeneration := MkGeneration {
  generation_lease : MainLeaseToken;
  last_completed_sweep_secs : Z;
}.

Definition sweep_is_due (last_completed_sweep_secs now_secs : Z) (force : bool) : bool :=
  force || (last_completed_sweep_secs =? 0)
  || (REWARD_SWEEP_INTERVAL_SECONDS <=? sat_sub now_secs last_completed_sweep_secs).

Definition effective_attribution_cutoff (snapshot_cutoff reward_pot_cutoff : Z) : Z :=
  Z.min snapshot_cutoff reward_pot_cutoff.

Definition validate_icp_index_tip (ledger_chain_length index_blocks_synced : Z) : result unit string :=
  if index_blocks_synced <? ledger_chain_length then Err "icp_index_not_caught_up"%string else Ok tt.

(** ** Attribution *)

Inductive FundingOrigin := External (source : list Z) | FromSplitter (number : Z) | MintOrInvalid.

Record FundingCredit := MkFunding {
  funding_tx_id : Z;
  origin : FundingOrigin;
  funding_amount_e8s : Z;
}.

Record ContributionBatch := MkBatch {
  commitment_tx_id : Z;
  batch_timestamp_nanos : Z;
  batch_sources : btree_map (list Z) Z;
  splitter_credits : list SplitterFundingCredit;
  batch_ineligible_e8s : Z;
}.

(** What the credits of a batch add up to, by origin. *)
Record BatchParts := MkParts {
  part_sources : btree_map (list Z) Z;
  part_splitters : list SplitterFundingCredit;
  part_ineligible : Z;
}.

Definition add_credit (credit : FundingCredit) (p : BatchParts) : metered BatchParts :=
  match origin credit with
  | External source =>
      m ← checked (btree_add_checked source (funding_amount_e8s credit) (part_sources p)) "contribution_overflow";
      mret (p <| part_sources := m |>)
  | FromSplitter number =>
      mret (p <| part_splitters ::= (fun l =>
        l ++ [MkFundingCredit number (funding_tx_id credit) (funding_amount_e8s credit)]) |>)
  | MintOrInvalid =>
      i ← checked (checked_add (part_ineligible p) (funding_amount_e8s credit)) "contribution_overflow";
      mret (p <| part_ineligible := i |>)
  end.

(** A commitment consumes whole credits from the front of the queue. *)
Fixpoint consume_funding (remaining : Z) (funding : list FundingCredit) (p : BatchParts) :
    metered (list FundingCredit * BatchParts) :=
  if remaining <=? 0 then mret (funding, p)
  else
    work 1;;
    match funding with
    | [] => fail "commitment_reconciliation_failed"
    | credit :: funding' =>
        if remaining <? funding_amount_e8s credit then fail "commitment_reconciliation_failed"
        else
          p ← add_credit credit p;
          consume_funding (remaining - funding_amount_e8s credit) funding' p
    end.

(** The accounts and the memo that a commitment of the relay has. *)
Record CommitmentSpec := MkCommitmentSpec {
  relay_account : list Z;
  faucet_account : list Z;
  commitment_memo : list Z;
  intrinsic_splitters : btree_map (list Z) Z;
}.

(** A debit of subaccount 1 that is a commitment. *)
Definition expected_commitment (c : CommitmentSpec) (entry : IndexTransactionWithId) (to : list Z)
    (amount : Z) (spender : option (list Z)) : bool :=
  is_none spender && bool_decide (to = faucet_account c)
  && bool_decide (tx_icrc1_memo (transaction entry) = Some (commitment_memo c))
  && (MIN_RAW_ICP_RECIPIENT_AMOUNT_E8S <=? amount).

Section attribution.
Context `{P : PrincipalSpec} `{O : !OrdSpec Principal} `{T : TextSpec} `{H : HashSpec} `{C : !CandidSpec}.
#[local] Existing Instance Principal_eq_dec.

Definition credit_origin (c : CommitmentSpec) (from : list Z) : FundingOrigin :=
  match decode_account_identifier from with
  | None => MintOrInvalid
  | Some source =>
      match btree_get source (intrinsic_splitters c) with
      | Some number => FromSplitter number
      | None => External source
      end
  end.

(** The queue and the batches, newest last. *)
Definition reconstruct_entry (c : CommitmentSpec) (cutoff_nanos : Z) (entry : IndexTransactionWithId)
    (s : list FundingCredit * list ContributionBatch) : metered (list FundingCredit * list ContributionBatch) :=
  work 1;;
  let '(funding, batches) := s in
  match tx_timestamp (transaction entry) with
  | None => fail "history_timestamp_missing"
  | Some timestamp =>
      if cutoff_nanos <=? timestamp then mret s
      else
        match tx_operation (transaction entry) with
        | IndexTransfer from to amount fee spender =>
            if bool_decide (from = relay_account c) then
              if negb (expected_commitment c entry to amount spender) then fail "unexpected_subaccount_debit"
              else
                gross ← checked (checked_add amount fee) "commitment_reconciliation_failed";
                r ← consume_funding gross funding (MkParts [] [] 0);
                let '(funding, p) := r in
                mret (funding, batches ++ [MkBatch (tx_id entry) timestamp (part_sources p)
                                             (part_splitters p) (part_ineligible p)])
            else if bool_decide (to = relay_account c) then
              mret (funding ++ [MkFunding (tx_id entry) (credit_origin c from) amount], batches)
            else mret s
        | IndexMint to amount =>
            mret (if bool_decide (to = relay_account c)
                  then (funding ++ [MkFunding (tx_id entry) MintOrInvalid amount], batches) else s)
        | IndexBurn from _ _ =>
            if bool_decide (from = relay_account c) then fail "unexpected_subaccount_debit" else mret s
        | IndexApprove from _ _ fee _ _ =>
            if bool_decide (from = relay_account c) && (0 <? fee)
            then fail "unexpected_subaccount_debit" else mret s
        end
  end.

Definition reconstruct_batches_bounded (transactions : list IndexTransactionWithId)
    (history_authoritative : bool) (cutoff_nanos : Z) (c : CommitmentSpec) :
    metered (HistoricalReconstruction (list ContributionBatch)) :=
  reconstruction (
    work (sort_work (length transactions));;
    if negb history_authoritative then mret NeedOlderHistory
    else
      s ← fold_metered (reconstruct_entry c cutoff_nanos) (sort_by_id transactions) ([], []);
      mret (Complete s.2)).

Definition merge_attribution (direct_sources : btree_map (list Z) Z) (ineligible : Z)
    (expanded : ExpandedSplitterProvenance) : option (btree_map (list Z) Z * Z) :=
  m ← add_sources (sources expanded) direct_sources;
  i ← checked_add ineligible (ineligible_e8s expanded);
  Some (m, i).

(** Eligible weights, the ineligible total, and the number of mismatches. *)
Definition classify_source (s : (list Z * Z) * option Principal)
    (acc : btree_map Principal Z * Z * Z) : option (btree_map Principal Z * Z * Z) :=
  let '(eligible, ineligible, mismatches) := acc in
  let '((account, value), o) := s in
  if value =? 0 then Some acc
  else
    match o with
    | Some principal =>
        if bool_decide (account_identifier_bytes principal None = account)
        then m ← btree_add_checked principal value eligible; Some (m, ineligible, mismatches)
        else i ← checked_add ineligible value; Some (eligible, i, mismatches + 1)
    | None => i ← checked_add ineligible value; Some (eligible, i, mismatches)
    end.

Fixpoint classify_all (l : list ((list Z * Z) * option Principal)) (acc : btree_map Principal Z * Z * Z) :
    option (btree_map Principal Z * Z * Z) :=
  match l with
  | [] => Some acc
  | s :: l' => acc ← classify_source s acc; classify_all l' acc
  end.

Definition classify_sources (srcs : btree_map (list Z) Z) (initial_ineligible : Z)
    (owners : list (option Principal)) : result (btree_map Principal Z * Z * Z) string :=
  if negb (Nat.eqb (length owners) (length srcs)) then Err "owner_lookup_length_mismatch"%string
  else
    match classify_all (combine srcs owners) ([], initial_ineligible, 0) with
    | Some r => Ok r
    | None => Err "contribution_overflow"%string
    end.

Definition sum_eligible_weight (eligible : btree_map Principal Z) : result Z string :=
  match checked_sum 0 (btree_values eligible) with
  | Some total => Ok total
  | None => Err "contribution_overflow"%string
  end.

(** ** The allocation of the pot *)

Definition terminal_reward_pot_hold_reason (balance fee : Z) : option string :=
  if balance =? 0 then Some "zero_reward_balance"%string
  else if balance <=? fee then Some "balance_not_above_plan_fees"%string
  else if balance - fee <? fee * 10 then Some "plan_fees_over_10_percent"%string
  else None.

(** The entitlements that cover their fee ten times over. *)
Fixpoint reward_shares (balance fee total_weight prefix previous_floor : Z)
    (eligible : btree_map Principal Z) : list (Principal * Z) :=
  match eligible with
  | [] => []
  | (principal, weight) :: eligible' =>
      let prefix := prefix + weight in
      let floor := prefix * balance / total_weight in
      let gross_entitlement := floor - previous_floor in
      let rest := reward_shares balance fee total_weight prefix floor eligible' in
      if (fee <? gross_entitlement) && (fee * 10 <=? gross_entitlement - fee)
      then (principal, gross_entitlement - fee) :: rest else rest
  end.

(** [try_fold] with [u128::checked_add].  [reward_shares] repeats the same prefix
    sums, so its own checked additions cannot fail once this one succeeded. *)
Fixpoint checked_sum128 (total : Z) (l : list Z) : option Z :=
  match l with
  | [] => Some total
  | x :: l' => if total + x <=? u128_max then checked_sum128 (total + x) l' else None
  end.

Definition proportional_reward_allocations (balance fee : Z) (eligible : btree_map Principal Z) :
    result (list (Principal * Z)) string :=
  if Nat.eqb (length eligible) 0 then Err "no_eligible_owner"%string
  else
    match checked_sum128 0 (btree_values eligible) with
    | None => Err "contribution_overflow"%string
    | Some total_weight =>
        if total_weight =? 0 then Err "no_eligible_owner"%string
        else
          match reward_shares balance fee total_weight 0 0 eligible with
          | [] => Err "no_economical_reward_recipient"%string
          | allocations => Ok allocations
          end
    end.

Definition reward_memo (commitment_tx_id : Z) (recipient_index : nat) : result (list Z) string :=
  if Z.of_nat recipient_index <=? u32_max
  then Ok (REWARD_MEMO_PREFIX ++ be_bytes 8 commitment_tx_id ++ be_bytes 4 (Z.of_nat recipient_index))
  else Err "reward_recipient_index_overflow"%string.

Fixpoint reward_recipients (commitment_tx_id now_nanos : Z) (index : nat)
    (allocations : list (Principal * Z)) : result (list PendingRewardRecipient) string :=
  match allocations with
  | [] => Ok []
  | (principal, amount) :: allocations' =>
      match reward_memo commitment_tx_id index with
      | Err e => Err e
      | Ok memo =>
          match reward_recipients commitment_tx_id now_nanos (S index) allocations' with
          | Err e => Err e
          | Ok l => Ok (MkRewardRecipient (MkAccount _ principal None) amount memo now_nanos :: l)
          end
      end
  end.

Definition build_pending_payout (context : RelayRewardContext) (commitment_tx_id fee : Z)
    (allocations : list (Principal * Z)) (now_nanos : Z) : result PendingRewardPayout string :=
  match reward_recipients commitment_tx_id now_nanos 0 allocations with
  | Err e => Err e
  | Ok [] => Err "reward_plan_has_no_transferable_recipient"%string
  | Ok recipients =>
      Ok (MkRewardPayout (ctx_sns_ledger_canister_id context) commitment_tx_id fee recipients 0)
  end.

End attribution.

(** ** The search for a commitment *)

Record EligibleBatch `{PrincipalSpec} := MkEligible {
  eligible_commitment_tx_id : Z;
  eligible_cutoff : Z;
  eligible : btree_map Principal Z;
  eligible_ineligible_e8s : Z;
  owner_mismatch_count : Z;
  distinct_sources : Z;
}.

(** What the loops of the search carry. *)
Record Search `{PrincipalSpec} := MkSearch {
  history : BackwardHistory;
  orphan_search : bool;
  best : option EligibleBatch;
  examined_commitments : btree_set Z;
  splitter_cache : SplitterHistoryCache;
  splitter_transactions_scanned : Z;
  log : RewardLog;
}.

Section search.
Context `{P : PrincipalSpec} `{O : !OrdSpec Principal} `{T : TextSpec} `{H : HashSpec} `{C : !CandidSpec}.
#[local] Existing Instance Principal_eq_dec.
Local Abbreviation async := (async Heap SuiteCall).

Definition resolve_accounts (sns_rewards : Principal) (snapshot : Z) (accounts : list (list Z)) :
    async (result ResolveDefaultIcpAccountsResult ClientError) :=
  r ← await (ResolveDefaultIcpAccounts sns_rewards snapshot accounts);
  mret match r with
       | Ok v => Ok v
       | Err (NotDelivered d) => Err (CallFailed ("owner lookup call failed: " ++ d)%string)
       | Err (Undecodable d) => Err (CallFailed ("owner lookup decode failed: " ++ d)%string)
       end.

(** [chunks(n)]; the fuel is the length of the list. *)
Fixpoint chunks {X} (fuel n : nat) (l : list X) : list (list X) :=
  match fuel, l with
  | _, [] | 0%nat, _ => []
  | S fuel, _ => take n l :: chunks fuel n (drop n l)
  end.

Definition resolve_chunk (resolver : Principal) (snapshot : Z) (chunk : list (list Z))
    (owners : list (option Principal)) : attempt (list (option Principal)) :=
  response ← call_or (resolve_accounts resolver snapshot chunk) "owner_lookup_failed";
  match response with
  | Resolved resolved =>
      if negb (Nat.eqb (length resolved) (length chunk)) then throw "owner_lookup_length_mismatch"
      else mret (owners ++ resolved)
  | SnapshotChanged => throw "reward_context_changed"
  | TooManyAccounts => throw "owner_lookup_chunk_rejected"
  | InvalidAccountIdentifier index =>
      throw ("invalid_source_account_identifier_" ++ nat_to_string index)%string
  end.

Definition resolve_accounts_bounded (resolver : Principal) (snapshot : Z) (accounts : btree_map (list Z) Z) :
    attempt (list (option Principal)) :=
  meter (work (Z.of_nat (length accounts)));;
  fold_attempt (resolve_chunk resolver snapshot)
    (chunks (length accounts) OWNER_RESOLUTION_CHUNK_SIZE (btree_keys accounts)) [].

(** [partition_point(|cutoff| cutoff <= t)] of an ascending list. *)
Fixpoint partition_point (t : Z) (cutoffs : list Z) : nat :=
  match cutoffs with
  | c :: cutoffs' => if c <=? t then S (partition_point t cutoffs') else 0%nat
  | [] => 0%nat
  end.

(** The parameters of the search. *)
Record SearchSpec := MkSearchSpec {
  index : Principal;
  resolver : Principal;
  spec_snapshot_id : Z;
  relay : Principal;
  commitment : CommitmentSpec;
  spec_cutoffs : list Z;
}.

Definition count_scanned (n : Z) (l : RewardLog) : attempt RewardLog :=
  scanned ← of_option (checked_add32 (log_scanned_transactions l) n) "history_count_overflow";
  mret (l <| log_scanned_transactions := scanned |>).

(** A batch whose cutoff is [candidate_cutoff]: its eligible owners.  [inr] ends
    the search. *)
Definition examine_batch (sp : SearchSpec) (first_cutoff candidate_cutoff : Z) (batch : ContributionBatch)
    (s : Search) : attempt (Search + EligibleBatch) :=
  r ← expand (index sp) (relay sp) (splitter_credits batch) (splitter_cache s);
  let '(cache, expanded) := r in
  scanned ← of_option (checked_add32 (splitter_transactions_scanned s) (scanned_transactions expanded))
              "history_count_overflow";
  l ← count_scanned (scanned_transactions expanded) (log s);
  splitters ← of_option (checked_add32 (log_splitters_scanned l) (splitters_scanned expanded))
                "splitter_count_overflow";
  meter (work (Z.min ((Z.of_nat (length (batch_sources batch)) + Z.of_nat (length (sources expanded))) * 8)
                 u32_max));;
  merged ← of_option (merge_attribution (batch_sources batch) (batch_ineligible_e8s batch) expanded)
             "contribution_overflow";
  let '(final_sources, final_ineligible) := merged in
  let n := Z.of_nat (length final_sources) in
  let s := s <| splitter_cache := cache |> <| splitter_transactions_scanned := scanned |>
             <| log := l <| log_splitters_scanned := splitters |> <| log_distinct_sources := n |> |> in
  owners ← resolve_accounts_bounded (resolver sp) (spec_snapshot_id sp) final_sources;
  match classify_sources final_sources final_ineligible owners with
  | Err e => throw e
  | Ok (owned, ineligible, mismatches) =>
      if Nat.eqb (length owned) 0 then mret (inl s)
      else
        let candidate := MkEligible _ (commitment_tx_id batch) candidate_cutoff owned ineligible mismatches n in
        mret (if candidate_cutoff =? first_cutoff then inr candidate else inl (s <| best := Some candidate |>))
  end.

(** The batches of a reconstruction, newest first. *)
Fixpoint examine_batches (sp : SearchSpec) (first_cutoff : Z) (batches : list ContributionBatch) (s : Search) :
    attempt (Search + EligibleBatch) :=
  match batches with
  | [] => mret (inl s)
  | batch :: batches' =>
      meter (work 1);;
      if set_contains (commitment_tx_id batch) (examined_commitments s)
      then examine_batches sp first_cutoff batches' s
      else
        let s := s <| examined_commitments ::= set_insert (commitment_tx_id batch) |> in
        meter (work (1 + Z.log2 (Z.of_nat (length (spec_cutoffs sp)))));;
        match spec_cutoffs sp !! partition_point (batch_timestamp_nanos batch) (spec_cutoffs sp) with
        | None => examine_batches sp first_cutoff batches' s
        | Some candidate_cutoff =>
            if is_some_and (best s) (fun c => eligible_cutoff c <=? candidate_cutoff)
            then examine_batches sp first_cutoff batches' s
            else
              r ← examine_batch sp first_cutoff candidate_cutoff batch s;
              match r with
              | inl s => examine_batches sp first_cutoff batches' s
              | inr candidate => mret (inr candidate)
              end
        end
  end.

(** Older transactions, and the count of those read so far. *)
Definition read_older (sp : SearchSpec) (s : Search) : attempt Search :=
  h ← extend (index sp) (history s);
  scanned ← of_option (checked_add32 (Z.of_nat (length (collected h))) (splitter_transactions_scanned s))
              "history_count_overflow";
  mret (s <| history := h |> <| log := (log s) <| log_scanned_transactions := scanned |> |>).

(** The first page. *)
Definition read_first (sp : SearchSpec) (s : Search) : attempt Search :=
  if Nat.eqb (length (collected (history s))) 0 && negb (exhausted (history s)) then
    h ← extend (index sp) (history s);
    mret (s <| history := h |>
            <| log := (log s) <| log_scanned_transactions := Z.of_nat (length (collected h)) |> |>)
  else mret s.

(** Every round but two reads a page, which [MAX_CALLS] bounds. *)
Fixpoint search_loop (fuel : nat) (sp : SearchSpec) (first_cutoff last_cutoff : Z) (s : Search) :
    attempt (option EligibleBatch) :=
  match fuel with
  | 0%nat => lift out_of_fuel
  | S fuel =>
      meter (work 1);;
      s ← read_first sp s;
      r ← meter (reconstruct_batches_bounded (authoritative_transactions (history s)) (authoritative (history s))
                   (if orphan_search s then last_cutoff else first_cutoff) (commitment sp));
      match r with
      | Malformed e => throw e
      | NeedOlderHistory =>
          if exhausted (history s) then throw "commitment_reconciliation_failed"
          else s ← read_older sp s; search_loop fuel sp first_cutoff last_cutoff s
      | Complete batches =>
          r ← examine_batches sp first_cutoff (reverse batches) s;
          match r with
          | inr candidate => mret (Some candidate)
          | inl s =>
              if exhausted (history s) then
                if negb (orphan_search s) && (first_cutoff <? last_cutoff)
                then search_loop fuel sp first_cutoff last_cutoff (s <| orphan_search := true |>)
                else mret (best s)
              else s ← read_older sp s; search_loop fuel sp first_cutoff last_cutoff s
          end
      end
  end.

Definition find_eligible_batch (sp : SearchSpec) : attempt (option EligibleBatch) :=
  match head (spec_cutoffs sp), last (spec_cutoffs sp) with
  | Some first_cutoff, Some last_cutoff =>
      search_loop (S loop_fuel) sp first_cutoff last_cutoff
        (MkSearch _ (backward_history (relay_account (commitment sp))) false None [] SplitterHistoryCache_new 0
           RewardLog_default)
  | _, _ => throw "reward_history_not_caught_up"
  end.

End search.

(** ** The pinned payout *)

Inductive AttemptOutcome :=
| RewardAccepted | RewardRetryable | RecipientRejected (reason : string) | PlanRejected (reason : string)
| RewardUncertain.

Inductive AdvanceResult := More | Cleared | AdvanceStale.
#[export] Instance AdvanceResult_eq_dec : EqDecision AdvanceResult.
Proof. solve_decision. Defined.

Inductive PendingDriveResult :=
| DrivenCompleted | CompletedWithAbandonment (reason : string) | DriveStale | Held.
#[export] Instance PendingDriveResult_eq_dec : EqDecision PendingDriveResult.
Proof. solve_decision. Defined.

Definition sweep_disposition (r : PendingDriveResult) : SweepDisposition :=
  match r with
  | DrivenCompleted | CompletedWithAbandonment _ => SweepCompleted
  | DriveStale | Held => RetryNextDailyTick
  end.

Section payout.
Context `{P : PrincipalSpec} `{A : !AccountSpec} `{T : TextSpec}.
#[local] Existing Instance Principal_eq_dec.
Local Abbreviation async := (async Heap SuiteCall).

Definition reward_transfer_arg (r : PendingRewardRecipient) (fee : Z) : TransferArg :=
  MkTransferArg _ None (recipient r) (Some fee) (Some (reward_created_at_time_nanos r))
    (Some (reward_recipient_memo r)) (reward_amount r).

Definition reward_outcome (r : result (result Z TransferError) ClientError) : AttemptOutcome :=
  match r with
  | Ok (Ok _) | Ok (Err (Duplicate _)) => RewardAccepted
  | Ok (Err (BadFee _)) => PlanRejected "bad_fee"
  | Ok (Err (InsufficientFunds _)) => PlanRejected "insufficient_funds"
  | Ok (Err (TemporarilyUnavailable | CreatedInFuture _ | GenericError _ _)) => RewardRetryable
  | Ok (Err (BadBurn _)) => RecipientRejected "bad_burn"
  | Ok (Err TooOld) => RecipientRejected "identity_expired"
  | Err _ => RewardUncertain
  end.

Definition reward_transfer_once (ledger : Principal) (r : PendingRewardRecipient) (fee : Z) :
    async AttemptOutcome :=
  res ← transfer ledger (reward_transfer_arg r fee);
  mret (reward_outcome res).

(** The derived [PartialEq], on the accounts' own equality. *)
Definition recipient_eqb (a b : PendingRewardRecipient) : bool :=
  account_eqb (recipient a) (recipient b) && (reward_amount a =? reward_amount b)
  && bool_decide (reward_recipient_memo a = reward_recipient_memo b)
  && (reward_created_at_time_nanos a =? reward_created_at_time_nanos b).
Fixpoint recipients_eqb (a b : list PendingRewardRecipient) : bool :=
  match a, b with
  | [], [] => true
  | x :: a', y :: b' => recipient_eqb x y && recipients_eqb a' b'
  | _, _ => false
  end.
Definition payout_eqb (a b : PendingRewardPayout) : bool :=
  bool_decide (reward_ledger_canister_id a = reward_ledger_canister_id b)
  && (attribution_commitment_tx_id a =? attribution_commitment_tx_id b)
  && (reward_fee a =? reward_fee b) && recipients_eqb (recipients a) (recipients b)
  && (next_recipient_index a =? next_recipient_index b).

Definition pending_is (expected : PendingRewardPayout) (s : RewardState) : bool :=
  is_some_and (pending_payout s) (fun p => payout_eqb p expected).

Definition advance_state (expected : PendingRewardPayout) (s : RewardState) : AdvanceResult * RewardState :=
  match pending_payout s with
  | Some payout =>
      if negb (payout_eqb payout expected) then (AdvanceStale, s)
      else
        let next := next_recipient_index payout + 1 in
        if next =? Z.of_nat (length (recipients payout))
        then (Cleared, s <| pending_payout := None |>)
        else (More, s <| pending_payout := Some (payout <| next_recipient_index := next |>) |>)
  | None => (AdvanceStale, s)
  end.
Definition advance_expected_payout (expected : PendingRewardPayout) : async AdvanceResult :=
  reward_mutate (advance_state expected).

Definition clear_state (expected : PendingRewardPayout) (s : RewardState) : bool * RewardState :=
  if pending_is expected s then (true, s <| pending_payout := None |>) else (false, s).
Definition clear_expected_payout (expected : PendingRewardPayout) : async bool :=
  reward_mutate (clear_state expected).

(** An attempt whose error is a case of its own ([let Ok(..) else]). *)
Definition or_else {X} (m : attempt X) (b : WorkBudget) (u : Usage) : async (option X * Usage) :=
  r ← m b u;
  mret match r with (Ok x, u') => (Some x, u') | (Err _, u') => (None, u') end.

(** A transfer and its retry: [inl] ends the drive. *)
Definition attempt_reward (ledger : Principal) (payout : PendingRewardPayout) (r : PendingRewardRecipient)
    (b : WorkBudget) (u : Usage) : async ((PendingDriveResult + AttemptOutcome) * Usage) :=
  first ← or_else (call (reward_transfer_once ledger r (reward_fee payout))) b u;
  match first with
  | (None, u) => mret (inl Held, u)
  | (Some first, u) =>
      same ← with_state (fun h => pending_is payout (reward h));
      if negb (same : bool) then mret (inl DriveStale, u)
      else
        match first with
        | RewardRetryable | RewardUncertain =>
            second ← or_else (call (reward_transfer_once ledger r (reward_fee payout))) b u;
            match second with
            | (None, u) => mret (inl Held, u)
            | (Some second, u) =>
                same ← with_state (fun h => pending_is payout (reward h));
                mret (if negb (same : bool) then inl DriveStale else inr second, u)
            end
        | outcome => mret (inr outcome, u)
        end
  end.

(** The outcome is recorded: [inl] ends the drive, [inr] is the abandonment so far. *)
Definition settle_reward (payout : PendingRewardPayout) (o : AttemptOutcome) (last_abandonment : option string) :
    async (PendingDriveResult + option string) :=
  let advance abandonment :=
    a ← advance_expected_payout payout;
    mret match a with AdvanceStale => inl DriveStale | _ => inr abandonment end in
  match o with
  | RewardAccepted => advance last_abandonment
  | PlanRejected reason =>
      cleared ← clear_expected_payout payout;
      mret (inl (if cleared : bool then CompletedWithAbandonment reason else DriveStale))
  | RecipientRejected reason => advance (Some reason)
  | RewardRetryable | RewardUncertain =>
      advance (Some "reward_transfer_uncertain_after_bounded_retry"%string)
  end.

(** The loop.  A recipient index out of range is the panic of the source. *)
Fixpoint drive_pending_loop (fuel : nat) (now_nanos : Z) (ledger : Principal)
    (last_abandonment : option string) (b : WorkBudget) (u : Usage) : async (PendingDriveResult * Usage) :=
  match fuel with
  | 0%nat => out_of_fuel
  | S fuel =>
      n ← with_state (fun h => pending_recipient_count (reward h));
      w ← or_else (meter (work (Z.min (1 + Z.min (n * 4) u32_max) u32_max))) b u;
      match w with
      | (None, u) => mret (Held, u)
      | (Some _, u) =>
          p ← with_state (fun h => pending_payout (reward h));
          match p with
          | None => mret (match last_abandonment with
                          | None => DrivenCompleted | Some reason => CompletedWithAbandonment reason end, u)
          | Some payout =>
              match recipients payout !! Z.to_nat (next_recipient_index payout) with
              | None => trap
              | Some r =>
                  if negb (created_at_time_is_valid (reward_created_at_time_nanos r) now_nanos) then
                    a ← advance_expected_payout payout;
                    match a with
                    | AdvanceStale => mret (DriveStale, u)
                    | _ => drive_pending_loop fuel now_nanos ledger (Some "reward_identity_expired"%string) b u
                    end
                  else
                    a ← attempt_reward ledger payout r b u;
                    match a with
                    | (inl result, u) => mret (result, u)
                    | (inr outcome, u) =>
                        next ← settle_reward payout outcome last_abandonment;
                        match next with
                        | inl result => mret (result, u)
                        | inr abandonment => drive_pending_loop fuel now_nanos ledger abandonment b u
                        end
                    end
              end
          end
      end
  end.

(** Every round ends the drive or advances the payout that the last one left. *)
Definition drive_rounds_needed (s : RewardState) : nat :=
  match pending_payout s with
  | Some p => S (length (recipients p) - Z.to_nat (next_recipient_index p))
  | None => 1
  end.

Definition drive_pending_bounded (now_nanos : Z) (ledger : Principal) (b : WorkBudget) (u : Usage) :
    async (PendingDriveResult * Usage) :=
  n ← with_state (fun h => drive_rounds_needed (reward h));
  drive_pending_loop n now_nanos ledger None b u.

Definition drive_pending (now_nanos : Z) (b : WorkBudget) (u : Usage) : async (PendingDriveResult * Usage) :=
  l ← with_state (fun h => (scheduler_status (reward h)).2);
  match l with
  | None => mret (DrivenCompleted, u)
  | Some ledger => drive_pending_bounded now_nanos ledger b u
  end.

(** ** The cadence *)

Definition record_completed_payout_cadence (now_secs : Z) : async unit :=
  reward_mutate (fun s => (tt, s <| last_sweep_attempt_timestamp_seconds ::= Z.max now_secs |>)).

Definition record_pinned_payout_result (r : PendingDriveResult) (now_secs : Z) : async unit :=
  match sweep_disposition r with
  | SweepCompleted => record_completed_payout_cadence now_secs
  | RetryNextDailyTick => mret tt
  end.

Definition record_sweep_disposition_if_current (d : SweepDisposition) (now_secs : Z) (g : SweepGeneration) :
    async unit :=
  current ← with_state (fun h => lease_is_current (generation_lease g) (st h));
  if bool_decide (d = SweepCompleted) && (current : bool) then
    reward_mutate (fun s => (tt,
      if last_sweep_attempt_timestamp_seconds s =? last_completed_sweep_secs g
      then s <| last_sweep_attempt_timestamp_seconds ::= Z.max now_secs |> else s))
  else mret tt.

Definition install_pending_if_current (g : SweepGeneration) (pending : PendingRewardPayout) : async bool :=
  current ← with_state (fun h => lease_is_current (generation_lease g) (st h));
  if negb (current : bool) then mret false
  else
    reward_mutate (fun s =>
      if is_some (pending_payout s)
         || negb (last_sweep_attempt_timestamp_seconds s =? last_completed_sweep_secs g)
      then (false, s) else (true, s <| pending_payout := Some pending |>)).

End payout.

(** ** One adjudication *)

Section sweep.
Context `{P : PrincipalSpec} `{O : !OrdSpec Principal} `{A : !AccountSpec} `{T : TextSpec} `{H : HashSpec}
  `{C : !CandidSpec}.
(** [canister_self] *)
Context (relay_id : Principal).
#[local] Existing Instance Principal_eq_dec.
Local Abbreviation async := (async Heap SuiteCall).

Definition reward_context (sns_rewards : Principal) : async (result (option RelayRewardContext) ClientError) :=
  r ← await (GetRelayRewardContext sns_rewards);
  mret match r with
       | Ok v => Ok v
       | Err (NotDelivered d) => Err (CallFailed ("reward context call failed: " ++ d)%string)
       | Err (Undecodable d) => Err (CallFailed ("reward context decode failed: " ++ d)%string)
       end.

Definition validate_reward_index_components (context : RelayRewardContext)
    (components : ListSnsCanistersResponse) : result Principal string :=
  if negb (bool_decide (sns_root components = Some (ctx_sns_root_canister_id context)))
     || negb (bool_decide (sns_ledger components = Some (ctx_sns_ledger_canister_id context)))
  then Err "reward_index_component_mismatch"%string
  else
    match sns_index components with
    | Some index => Ok index
    | None => Err "reward_index_unavailable"%string
    end.

Definition of_result {X} (r : result X string) : attempt X :=
  match r with Ok x => mret x | Err e => throw e end.

Definition resolve_reward_index (context : RelayRewardContext) : attempt Principal :=
  components ← call_or (Clients.list_sns_canisters (ctx_sns_root_canister_id context)) "reward_index_unavailable";
  index ← of_result (validate_reward_index_components context components);
  indexed_ledger ← call_or (ledger_id index) "reward_index_unavailable";
  if negb (bool_decide (indexed_ledger = ctx_sns_ledger_canister_id context))
  then throw "reward_index_component_mismatch"
  else mret index.

(** [dedup] of adjacent equal cutoffs. *)
Fixpoint dedup_cutoffs (l : list Z) : list Z :=
  match l with
  | c :: ((c' :: _) as l') => if c =? c' then dedup_cutoffs l' else c :: dedup_cutoffs l'
  | _ => l
  end.

(** The commitment of the pot: [None] when no funder is eligible. *)
Definition attribute_pot (cfg : Config) (context : RelayRewardContext) (balance : Z) :
    attempt (option EligibleBatch) :=
  reward_index ← resolve_reward_index context;
  pot_cutoffs ← reward_pot_cutoffs_bounded reward_index (MkAccount _ relay_id None) balance;
  let cutoffs := dedup_cutoffs (map (effective_attribution_cutoff (scan_started_at_timestamp_nanos context))
                                  pot_cutoffs) in
  chain_length ← call_or (chain_length (ledger_canister_id cfg)) "icp_history_sync_unavailable";
  synced ← call_or (index_status (icp_index_canister_id cfg)) "icp_history_sync_unavailable";
  of_result (validate_icp_index_tip chain_length synced);;
  staking ← call_or (neuron_staking_subaccount (governance_canister_id cfg) faucet_neuron_id)
              "faucet_staking_account_unavailable";
  memo ← of_option (relay_faucet_commitment_memo relay_id) "commitment_memo_invalid";
  find_eligible_batch (MkSearchSpec (icp_index_canister_id cfg) (sns_rewards_canister_id cfg)
    (snapshot_id context) relay_id
    (MkCommitmentSpec (account_identifier_text relay_id (Some relay_subaccount_one))
       (account_identifier_text (governance_canister_id cfg) (Some staking)) memo
       (intrinsic_splitter_accounts relay_id)) cutoffs).

(** The reward context and the pot: [None] when the pot is held. *)
Definition read_pot (cfg : Config) (now_nanos : Z) : attempt (RelayRewardContext * option (Z * Z)) :=
  context ← call_or (reward_context (sns_rewards_canister_id cfg)) "reward_context_unavailable";
  context ← of_option context "reward_context_unavailable";
  if REWARD_CONTEXT_MAX_AGE_NANOS <? sat_sub now_nanos (scan_completed_at_timestamp_nanos context)
  then throw "reward_context_stale"
  else
    balance ← call_or (balance_of (ctx_sns_ledger_canister_id context) (MkAccount _ relay_id None))
                "reward_balance_read_failed";
    fee ← call_or (ledger_fee (ctx_sns_ledger_canister_id context)) "reward_fee_read_failed";
    mret (context, if is_some (terminal_reward_pot_hold_reason balance fee) then None else Some (balance, fee)).

(** The plan of the pot: [None] when the week ends without one. *)
Definition plan_payout (now_nanos : Z) : attempt (option PendingRewardPayout) :=
  cfg ← lift (with_state (fun h => config (st h)));
  r ← read_pot cfg now_nanos;
  let '(context, pot) := r in
  match pot with
  | None => mret None
  | Some (balance, fee) =>
      candidate ← attribute_pot cfg context balance;
      match candidate with
      | None => mret None
      | Some candidate =>
          of_result (sum_eligible_weight (eligible candidate));;
          match proportional_reward_allocations balance fee (eligible candidate) with
          | Err _ => mret None
          | Ok allocations =>
              pending ← of_result (build_pending_payout context (eligible_commitment_tx_id candidate) fee
                                     allocations now_nanos);
              mret (Some pending)
          end
      end
  end.

(** The drive of the payout that was just pinned. *)
Definition drive_installed (now_nanos now_secs : Z) : attempt SweepDisposition := fun b u =>
  r ← drive_pending now_nanos b u;
  record_pinned_payout_result r.1 now_secs;;
  mret (Ok (sweep_disposition r.1), r.2).

Definition adjudicate (now_nanos now_secs : Z) (g : SweepGeneration) : attempt SweepDisposition :=
  pending ← plan_payout now_nanos;
  match pending with
  | None => mret SweepCompleted
  | Some pending =>
      installed ← lift (install_pending_if_current g pending);
      if negb (installed : bool) then mret RetryNextDailyTick else drive_installed now_nanos now_secs
  end.

(** [process]: whether a pinned payout continues. *)
Definition process (now_nanos now_secs : Z) (force : bool) (lease : MainLeaseToken) : async bool :=
  t ← now;
  let b := budget_new t lease in
  status ← with_state (fun h => scheduler_status (reward h));
  if is_some status.2 then
    r ← drive_pending now_nanos b Usage_default;
    record_pinned_payout_result r.1 now_secs;;
    current ← with_state (fun h => lease_is_current lease (st h));
    mret (bool_decide (r.1 = Held) && (current : bool))
  else
    let g := MkGeneration lease status.1 in
    if negb (sweep_is_due status.1 now_secs force) then mret false
    else
      r ← adjudicate now_nanos now_secs g b Usage_default;
      record_sweep_disposition_if_current
        (match r.1 with Ok d => d | Err _ => RetryNextDailyTick end) now_secs g;;
      with_state (fun h => lease_is_current lease (st h) && is_some (pending_payout (reward h))).

(** [after > before] on options *)
Definition option_gt (after before : option Z) : bool :=
  match after, before with
  | Some a, Some b => b <? a
  | Some _, None => true
  | None, _ => false
  end.

(** The callback of [RewardContinuation]; the guard is released when it is
    dropped. *)
Definition pinned_continuation_fires (guard : MainGuard) : async unit :=
  t ← now;
  let seconds := t / 1000000000 in
  current ← with_state (main_is_current guard);
  if negb (current : bool) || (Timer.lease_expires_at_ts (main_inner guard) <=? seconds)
  then modify (main_release guard)
  else
    before ← with_state (fun h => next_recipient_index <$> pending_payout (reward h));
    r ← drive_pending t (budget_new t (main_lease_token guard)) Usage_default;
    record_pinned_payout_result r.1 seconds;;
    after ← with_state (fun h => next_recipient_index <$> pending_payout (reward h));
    current ← with_state (main_is_current guard);
    if bool_decide (r.1 = Held) && option_gt after before && (current : bool)
    then modify (set_timer (RewardContinuation 1 (main_inner guard)))
    else modify (main_release guard).

End sweep.
