(* ===== verification/RewardAttribution.v ===== *)
(** * Relay rewards: a commitment is attributed completely

    The search of [scheduler/reward_sweep.rs] under every reply of the index and
    of the owner resolver: it returns within the allowance of the attempt, and the
    candidate it finds attributes every e8s of one commitment of the relay. *)

From S2P Require Import Prelude BTree Async Ic Accounts Clients CyclesProbe TimerGuard RelayState RelayLogic RelaySplitter RewardBudget RewardHistory RewardSplitter RewardTokenHistory RewardProvenance RewardSweep.

(** ** A batch holds what its commitment debited *)

Definition credits_total (l : list SplitterFundingCredit) : Z := sumZ (map credit_amount_e8s l).
Definition parts_total (p : BatchParts) : Z :=
  total_of (part_sources p) + credits_total (part_splitters p) + part_ineligible p.
Definition batch_total (b : ContributionBatch) : Z :=
  total_of (batch_sources b) + credits_total (splitter_credits b) + batch_ineligible_e8s b.

Lemma add_credit_ok c p p' live u u' :
  btree_wf (part_sources p) -> add_credit c p live u = (Ok p', u') ->
  btree_wf (part_sources p') /\ parts_total p' = parts_total p + funding_amount_e8s c.
Proof.
  intros Hwf. unfold add_credit, parts_total. destruct (origin c) as [source|number|].
  - intros (m & u1 & Hm & [= <- <-])%metered_bind_ok. unfold checked in Hm.
    destruct (btree_add_checked _ _ _) as [m'|] eqn:E; [|done]. injection Hm as <- <-.
    apply btree_add_checked_total in E as [Hw Ht]; [|done]. cbn. unfold const. split; [done|lia].
  - intros [= <- <-]. cbn. split; [done|]. unfold credits_total. rewrite map_app, sumZ_app.
    cbn [map]. rewrite sumZ_cons, sumZ_nil. cbn. lia.
  - intros (i & u1 & Hi & [= <- <-])%metered_bind_ok. unfold checked in Hi.
    destruct (checked_add _ _) as [i'|] eqn:E; [|done]. injection Hi as <- <-.
    apply checked_add_Some in E as [-> _]. cbn. unfold const. split; [done|lia].
Qed.

(** The queued credits, and the sources that a batch names, come from known accounts. *)
Definition funding_known (known : list Z -> Prop) (c : FundingCredit) : Prop :=
  match origin c with External source => known source | _ => True end.
Lemma consume_funding_known known remaining funding p rest p' live u u' :
  Forall (funding_known known) funding -> keys_known known (part_sources p) ->
  consume_funding remaining funding p live u = (Ok (rest, p'), u') ->
  Forall (funding_known known) rest /\ keys_known known (part_sources p').
Proof.
  intros Hf. revert remaining p u. induction Hf as [|c funding Hc Hf IH]; intros remaining p u Hk; cbn [consume_funding];
    destruct (remaining <=? 0); try (by intros [= <- <- <-]; split; [try constructor|]); intros ([] & u1 & _ & Hr)%metered_bind_ok; [done|].
  destruct (remaining <? _); [done|]. apply metered_bind_ok in Hr as (p1 & u2 & H1 & H2). eapply IH; [|exact H2].
  unfold add_credit, funding_known in *. destruct (origin c) as [source|number|].
  - apply metered_bind_ok in H1 as (m & u3 & Hm & [= <- <-]). unfold checked in Hm.
    destruct (btree_add_checked _ _ _) as [m'|] eqn:E; [|done]. injection Hm as <- <-. cbn. by eapply add_checked_known.
  - by injection H1 as <- <-.
  - apply metered_bind_ok in H1 as (i & u3 & Hi & [= <- <-]). done.
Qed.

Lemma consume_funding_ok remaining funding p rest p' live u u' :
  0 <= remaining -> btree_wf (part_sources p) ->
  consume_funding remaining funding p live u = (Ok (rest, p'), u') ->
  btree_wf (part_sources p') /\ parts_total p' = parts_total p + remaining.
Proof.
  revert remaining p u. induction funding as [|c funding IH]; intros remaining p u Hr Hwf; cbn [consume_funding];
    destruct (remaining <=? 0) eqn:E; zify_bool; try (intros [= <- <- <-]; split; [done|lia]);
    intros ([] & u1 & _ & Hc)%metered_bind_ok; [done|].
  destruct (remaining <? _) eqn:Ea; [done|]. zify_bool.
  apply metered_bind_ok in Hc as (p1 & u2 & H1 & H2). apply add_credit_ok in H1 as [Hwf1 Ht1]; [|done].
  apply IH in H2 as [Hwf2 Ht2]; [|lia|done]. split; [done|lia].
Qed.

(** [b] holds the amount and the fee of a commitment among [txs], from known accounts. *)
Definition commits (known : list Z -> Prop) (c : CommitmentSpec) (txs : list IndexTransactionWithId) (b : ContributionBatch) : Prop :=
  btree_wf (batch_sources b) /\ keys_known known (batch_sources b) /\
  exists tx amount fee, tx ∈ txs /\ tx_id tx = commitment_tx_id b /\ 0 <= fee /\ amount + fee <= u64_max /\
    tx_operation (transaction tx) = IndexTransfer (relay_account c) (faucet_account c) amount fee None /\
    tx_icrc1_memo (transaction tx) = Some (commitment_memo c) /\
    MIN_RAW_ICP_RECIPIENT_AMOUNT_E8S <= amount /\ batch_total b = amount + fee.

Lemma commits_mono known c txs txs' b : txs ⊆ txs' -> commits known c txs b -> commits known c txs' b.
Proof. intros Hs (Hw & Hk & tx & a & f & Hin & Hrest). split; [done|]. split; [done|]. exists tx, a, f. split; [by apply Hs|done]. Qed.

Section reconstruct.
Context `{P : PrincipalSpec} `{O : !OrdSpec Principal} `{T : TextSpec} `{H : HashSpec} `{C : !CandidSpec}.
#[local] Existing Instance Principal_eq_dec.
Context (known : list Z -> Prop).

(** What the replay holds: a queue of known credits, and commitments. *)
Definition reconstructs (c : CommitmentSpec) (txs : list IndexTransactionWithId) (s : list FundingCredit * list ContributionBatch) : Prop :=
  Forall (funding_known known) s.1 /\ Forall (commits known c txs) s.2.

Lemma origin_known c from to amount fee sp entry : sender_known known entry -> tx_operation (transaction entry) = IndexTransfer from to amount fee sp ->
  funding_known known (MkFunding (tx_id entry) (credit_origin c from) amount).
Proof using Type.
  unfold sender_known, funding_known, credit_origin. intros Hs E. rewrite E in Hs. cbn.
  destruct (decode_account_identifier from) as [source|]; [|done]. destruct (btree_get source _); [done|]. by apply Hs.
Qed.
Lemma reconstruct_entry_ok c cutoff txs entry s s' live u u' :
  entry ∈ txs -> amounts_ok entry -> sender_known known entry -> reconstructs c txs s ->
  reconstruct_entry c cutoff entry s live u = (Ok s', u') -> reconstructs c txs s'.
Proof using Type.
  intros Hin Ha Hsend Hs. unfold reconstruct_entry. intros ([] & u1 & _ & Hr)%metered_bind_ok.
  destruct s as [funding batches]. destruct Hs as [Hf Hs]. cbn [fst snd] in Hf, Hs. destruct (tx_timestamp _) as [t|]; [|done].
  destruct (cutoff <=? t); [by injection Hr as <- <-|].
  unfold amounts_ok in Ha.
  destruct (tx_operation (transaction entry)) as [from to amount fee sp|to am|from am sp|from sp al fe ex] eqn:Eo.
  - case_bool_decide as Ef; [|destruct (bool_decide _); injection Hr as <- <-; [|done]; split; [|done]; cbn [fst];
      apply Forall_app; split; [done|]; constructor; [by eapply origin_known|constructor]].
    unfold expected_commitment in Hr. destruct (_ && (_ <=? amount)) eqn:Ee; [|done].
    rewrite !andb_true_iff, !bool_decide_eq_true in Ee. destruct Ee as [[[Esp Eto] Ememo] Emin]. zify_bool.
    cbn [negb] in Hr. apply metered_bind_ok in Hr as (gross & u2 & Hg & Hr). unfold checked in Hg.
    destruct (checked_add amount fee) as [g|] eqn:Eg; [|done]. injection Hg as <- <-.
    apply checked_add_Some in Eg as [-> Hle]. apply metered_bind_ok in Hr as ([rest p] & u3 & Hc & Hr).
    injection Hr as <- <-. pose proof Hc as [Hrest Hk]%(consume_funding_known known); [|done|constructor].
    unfold u64 in Ha. apply consume_funding_ok in Hc as [Hwf Ht]; [|lia|constructor].
    split; [done|]. cbn [snd]. apply Forall_app. split; [done|]. constructor; [|constructor]. split; [done|]. split; [done|].
    exists entry, amount, fee. destruct sp; [done|]. subst. split; [done|]. split; [done|]. split; [lia|]. split; [lia|].
    split; [by rewrite Eo|]. split; [done|]. split; [done|]. unfold batch_total, parts_total in *.
    cbn in *. unfold credits_total in *. cbn in Ht. change (total_of []) with 0 in Ht. rewrite sumZ_nil in Ht. lia.
  - destruct (bool_decide _); injection Hr as <- <-; [|done]. split; [|done]. cbn [fst]. apply Forall_app. by repeat constructor.
  - destruct (bool_decide _); [done|by injection Hr as <- <-].
  - destruct (_ && _); [done|by injection Hr as <- <-].
Qed.

Lemma reconstruct_entries_ok c cutoff txs l s s' live u u' :
  l ⊆ txs -> Forall amounts_ok txs -> Forall (sender_known known) txs -> reconstructs c txs s ->
  fold_metered (reconstruct_entry c cutoff) l s live u = (Ok s', u') -> reconstructs c txs s'.
Proof using Type.
  intros Hl Ha Hk. revert s u. induction l as [|entry l IH]; intros s u Hs Hr; cbn [fold_metered] in Hr.
  { by injection Hr as <- <-. }
  apply metered_bind_ok in Hr as (s1 & u1 & H1 & H2).
  assert (entry ∈ txs) by set_solver. eapply IH; [set_solver| |exact H2].
  rewrite Forall_forall in Ha, Hk. eapply reconstruct_entry_ok; [done|by apply Ha|by apply Hk|exact Hs|exact H1].
Qed.

Lemma reconstruct_batches_ok txs auth cutoff c batches live u u' :
  Forall amounts_ok txs -> Forall (sender_known known) txs ->
  reconstruct_batches_bounded txs auth cutoff c live u = (Ok (Complete batches), u') ->
  Forall (commits known c txs) batches.
Proof using Type.
  intros Ha Hk. unfold reconstruct_batches_bounded, reconstruction.
  match goal with |- context [match ?m live u with _ => _ end] => destruct (m live u) as [[r|err] u1] eqn:Er end;
    [|done].
  intros [= -> <-]. apply metered_bind_ok in Er as ([] & u2 & _ & Er). destruct (negb auth); [done|].
  apply metered_bind_ok in Er as (s & u3 & Hs & Er). injection Er as <- <-.
  eapply reconstruct_entries_ok; [|exact Ha|exact Hk| |exact Hs]; [|by split].
  intros x Hx. by rewrite sort_by_id_perm in Hx.
Qed.

Lemma consume_funding_spends remaining funding p : spends (consume_funding remaining funding p).
Proof using Type.
  revert remaining p. induction funding as [|c funding IH]; intros remaining p; cbn [consume_funding];
    unfold add_credit; repeat spends_step; try lia; apply IH.
Qed.

Lemma reconstruct_batches_spends txs auth cutoff c : spends (reconstruct_batches_bounded txs auth cutoff c).
Proof using Type.
  apply spends_reconstruction. pose proof (sort_work_nonneg (length txs)). unfold reconstruct_entry.
  repeat first [spends_step | apply consume_funding_spends]; lia.
Qed.

End reconstruct.

(** ** Owners *)

Section owners.
Context `{P : PrincipalSpec} `{O : !OrdSpec Principal} `{L : !OrdLaws Principal} `{T : TextSpec} `{H : HashSpec}
  `{C : !CandidSpec}.
#[local] Existing Instance Principal_eq_dec.

(** Every eligible owner's default account is among [accounts]. *)
Definition owners_of (accounts : list (list Z)) (m : btree_map Principal Z) : Prop :=
  Forall (fun kv => account_identifier_bytes kv.1 None ∈ accounts) m.

Lemma classify_all_ok accounts l acc acc' :
  map (fun s => s.1.1) l ⊆ accounts -> btree_wf acc.1.1 -> owners_of accounts acc.1.1 ->
  classify_all l acc = Some acc' ->
  btree_wf acc'.1.1 /\ owners_of accounts acc'.1.1 /\
  total_of acc'.1.1 + acc'.1.2 = total_of acc.1.1 + acc.1.2 + sumZ (map (fun s => s.1.2) l).
Proof using Type*.
  revert acc. induction l as [|[[account value] o] l IH]; intros acc Hin Hwf Ho; cbn [classify_all].
  { intros [= <-]. split; [done|]. split; [done|]. cbn [map]. rewrite sumZ_nil. lia. }
  destruct (classify_source _ acc) as [acc1|] eqn:E; cbn; [|done]. intros Hr.
  assert (btree_wf acc1.1.1 /\ owners_of accounts acc1.1.1 /\
    total_of acc1.1.1 + acc1.1.2 = total_of acc.1.1 + acc.1.2 + value) as (Hwf1 & Ho1 & Ht1).
  { destruct acc as [[m i] n]. cbn in Hwf, Ho |- *. unfold classify_source in E. cbn in Hin.
    destruct (Z.eqb_spec value 0) as [->|_]; [injection E as <-; cbn; by rewrite Z.add_0_r|].
    destruct o as [p|]; [case_bool_decide as Ep|].
    - destruct (btree_add_checked p value m) as [m'|] eqn:Em; [|done]. injection E as <-. cbn.
      destruct (btree_add_checked_total _ _ _ _ Hwf Em) as [Hw Ht]. split; [done|]. split; [|lia].
      unfold btree_add_checked in Em. destruct (checked_add _ _) as [v|]; [|done]. injection Em as <-.
      apply Forall_forall. intros kv [->|Hkv]%elem_insert; [cbn; set_solver|].
      unfold owners_of in Ho. rewrite Forall_forall in Ho. by apply Ho.
    - destruct (checked_add i value) as [i'|] eqn:Ei; [|done]. injection E as <-.
      apply checked_add_Some in Ei as [-> _]. cbn. split; [done|]. split; [done|lia].
    - destruct (checked_add i value) as [i'|] eqn:Ei; [|done]. injection E as <-.
      apply checked_add_Some in Ei as [-> _]. cbn. split; [done|]. split; [done|lia]. }
  cbn [map] in Hin. apply IH in Hr as (Hwf2 & Ho2 & Ht2); [|set_solver|done|done]. split; [done|]. split; [done|].
  cbn [map fst snd]. rewrite sumZ_cons. lia.
Qed.

Lemma classify_sources_ok srcs initial owners eligible ineligible n :
  classify_sources srcs initial owners = Ok (eligible, ineligible, n) ->
  btree_wf eligible /\ owners_of (btree_keys srcs) eligible /\
  total_of eligible + ineligible = total_of srcs + initial.
Proof using Type*.
  unfold classify_sources. destruct (negb _) eqn:El; [done|].
  apply negb_false_iff, Nat.eqb_eq in El. destruct (classify_all _ _) as [acc|] eqn:E; [|done].
  intros [= ->].
  assert (forall (l : list (list Z * Z)) (k : list (option Principal)), length k = length l ->
            map (fun s => s.1.1) (combine l k) = map fst l /\ map (fun s => s.1.2) (combine l k) = map snd l) as Hc.
  { induction l as [|[a v] l IH]; intros [|x k]; cbn; try done. intros [= Hlen].
    destruct (IH _ Hlen) as [-> ->]. done. }
  destruct (Hc _ _ El) as [E1 E2].
  apply (classify_all_ok (btree_keys srcs)) in E as (Hwf & Ho & Ht); cbn [fst snd] in *;
    [|by rewrite E1|constructor|constructor].
  split; [done|]. split; [done|]. rewrite E2 in Ht. change (total_of []) with 0 in Ht.
  unfold total_of at 2, btree_values. lia.
Qed.

Lemma merge_attribution_ok known direct ineligible expanded m i amount :
  btree_wf direct -> keys_known known direct -> provenance_of known amount expanded -> merge_attribution direct ineligible expanded = Some (m, i) ->
  btree_wf m /\ keys_known known m /\ total_of m + i = total_of direct + ineligible + amount.
Proof using Type.
  intros Hwf Hd (_ & Ha & Hk). unfold merge_attribution.
  destruct (add_sources _ _) as [m'|] eqn:E; cbn; [|done]. destruct (checked_add _ _) as [i'|] eqn:Ei; cbn; [|done].
  intros [= <- <-]. pose proof (add_sources_known known _ _ _ Hk Hd E).
  apply add_sources_ok in E as [Hw Ht]; [|done]. apply checked_add_Some in Ei as [-> _]. split; [done|]. split; [done|lia].
Qed.

End owners.

(** ** The search *)

(** A call that moves no tokens. *)
Definition is_read {P : PrincipalSpec} {X} (c : SuiteCall X) : bool :=
  match c with IcrcTransfer _ _ => false | _ => true end.

Section search.
Context `{P : PrincipalSpec} `{O : !OrdSpec Principal} `{L : !OrdLaws Principal} `{T : TextSpec} `{H : HashSpec}
  `{C : !CandidSpec}.
#[local] Existing Instance Principal_eq_dec.
Context (e : env Heap SuiteCall) (Inv : Heap -> Prop) (ev_ok : event Heap SuiteCall -> Prop).
Hypothesis rely_inv : forall n h, Inv h -> Inv (env_interleave e n h).
Hypothesis reads_ok : forall X (c : SuiteCall X) h, is_read c = true -> ev_ok (Dispatch c h).
(** What is known of every transaction that the index returns, and of their senders. *)
Context (tx_ok : IndexTransactionWithId -> Prop) (known : list Z -> Prop).
Hypothesis tx_amounts : forall entry, tx_ok entry -> amounts_ok entry.
Hypothesis tx_sender : forall entry, tx_ok entry -> sender_known known entry.
Hypothesis typed : forall n index account start k page,
  env_reply e n _ (GetTransactions index account start k) = Ok (Ok page) -> Forall tx_ok (transactions page).

Lemma pages_read index account start n h : ev_ok (Dispatch (GetTransactions index account start n) h).
Proof using reads_ok. by apply reads_ok. Qed.

(** A candidate attributes a whole commitment among [txs]: every e8s that the
    relay's subaccount 1 debited belongs to an owner of a known account or is ineligible. *)
Definition candidate_ok (c : CommitmentSpec) (txs : list IndexTransactionWithId) (b : EligibleBatch) : Prop :=
  Forall (fun kv => known (account_identifier_bytes kv.1 None)) (eligible b) /\
  exists tx amount fee, tx ∈ txs /\ tx_id tx = eligible_commitment_tx_id b /\ 0 <= fee /\ amount + fee <= u64_max /\
    tx_operation (transaction tx) = IndexTransfer (relay_account c) (faucet_account c) amount fee None /\
    tx_icrc1_memo (transaction tx) = Some (commitment_memo c) /\
    MIN_RAW_ICP_RECIPIENT_AMOUNT_E8S <= amount /\
    total_of (eligible b) + eligible_ineligible_e8s b = amount + fee.

Lemma candidate_mono c txs txs' b : txs ⊆ txs' -> candidate_ok c txs b -> candidate_ok c txs' b.
Proof using Type. intros Hs (Ho & tx & a & f & Hin & Hrest). split; [done|]. exists tx, a, f. split; [by apply Hs|done]. Qed.

Record search_ok (sp : SearchSpec) (s : Search) : Prop := {
  search_history : sound_history tx_ok (relay_account (commitment sp)) (history s);
  search_cache : cache_ok tx_ok (relay sp) (splitter_cache s);
  search_best : forall b, best s = Some b -> candidate_ok (commitment sp) (collected (history s)) b;
}.

Lemma attempts_call_read {X} u (m : async Heap SuiteCall (result X ClientError)) err RX :
  one_call e Inv ev_ok m RX ->
  attempts e Inv ev_ok u (call_or m err) (fun _ u' => calls u <= calls u').
Proof using Type.
  intros Hm. eapply attempts_mono; [apply (attempts_call_or e Inv ev_ok u m err (fun _ => True))|].
  - intros w Hi. eapply wp_mono; [by apply Hm|]. intros r w' (? & ? & ? & _). done.
  - intros x u' [_ ->]. lia.
Qed.

Lemma attempts_work u n : usage_ok u -> 0 <= n ->
  attempts e Inv ev_ok u (meter (work n)) (fun _ u' => calls u <= calls u').
Proof using Type.
  intros Hu Hn. apply attempts_meter; [by apply spends_work|]. intros live [] u' Hr.
  pose proof (spends_work n Hn live u Hu) as [_ [Hc _]]. by rewrite Hr in Hc.
Qed.

Lemma one_resolve resolver snapshot accounts :
  one_call e Inv ev_ok (resolve_accounts resolver snapshot accounts) (fun _ => True).
Proof using rely_inv reads_ok.
  unfold resolve_accounts. eapply one_call_map; [apply one_call_await; [done|by intros; apply reads_ok]|done].
Qed.

Lemma attempts_resolve u resolver snapshot accounts :
  usage_ok u ->
  attempts e Inv ev_ok u (resolve_accounts_bounded resolver snapshot accounts) (fun _ u' => calls u <= calls u').
Proof using rely_inv reads_ok.
  intros Hu. unfold resolve_accounts_bounded.
  eapply attempts_bind; [apply attempts_work; [done|lia]|]. intros [] u1 Hu1 _ Hc1.
  assert (forall l owners u2, usage_ok u2 -> calls u1 <= calls u2 ->
    attempts e Inv ev_ok u2 (fold_attempt (resolve_chunk resolver snapshot) l owners)
      (fun _ u' => calls u <= calls u')) as Hfold.
  { induction l as [|chunk l IH]; intros owners u2 Hu2 Hc2; cbn [fold_attempt]; [apply attempts_ret; lia|].
    eapply attempts_bind with (R := fun _ u' => calls u2 <= calls u').
    - unfold resolve_chunk. eapply attempts_bind; [eapply attempts_call_read, one_resolve|].
      intros r u3 _ _ Hc3. destruct r; try apply attempts_throw.
      destruct (negb _); [apply attempts_throw|by apply attempts_ret].
    - intros owners' u3 Hu3 _ Hc3. apply IH; [done|lia]. }
  apply Hfold; [done|lia].
Qed.

(** The batch becomes a candidate, or the search goes on with the same history. *)
Lemma attempts_examine_batch sp first_cutoff candidate_cutoff b s u :
  usage_ok u -> search_ok sp s -> commits known (commitment sp) (collected (history s)) b ->
  attempts e Inv ev_ok u (examine_batch sp first_cutoff candidate_cutoff b s) (fun r u' =>
    calls u <= calls u' /\
    match r with
    | inl s' => search_ok sp s' /\ history s' = history s /\ orphan_search s' = orphan_search s
    | inr c => candidate_ok (commitment sp) (collected (history s)) c
    end).
Proof using rely_inv reads_ok typed tx_amounts tx_sender L.
  intros Hu [Hh Hcache Hbest] (Hwf & Hk & tx & amount & fee & Hin & Hid & Hfee & Hle & Hop & Hmemo & Hmin & Htot).
  unfold examine_batch.
  eapply attempts_bind; [apply (attempts_expand e Inv ev_ok rely_inv pages_read tx_ok known tx_amounts tx_sender typed); done|].
  intros [cache expanded] u1 Hu1 _ (Hcache1 & Hexp & Hc1). cbn [fst snd] in *.
  eapply attempts_bind with (R := fun _ u' => u' = u1); [by apply attempts_of_option|]. intros scanned ? _ _ ->.
  eapply attempts_bind with (R := fun _ u' => u' = u1).
  { unfold count_scanned. eapply attempts_bind with (R := fun _ u' => u' = u1); [by apply attempts_of_option|].
    intros ? ? _ _ ->. by apply attempts_ret. }
  intros l ? _ _ ->.
  eapply attempts_bind with (R := fun _ u' => u' = u1); [by apply attempts_of_option|]. intros n ? _ _ ->.
  eapply attempts_bind; [apply attempts_work; [done|lia]|]. intros [] u2 Hu2 _ Hc2.
  eapply attempts_bind with (R := fun m u' => u' = u2 /\ btree_wf m.1 /\ keys_known known m.1 /\ total_of m.1 + m.2 = amount + fee).
  { apply attempts_of_option. intros [m i] Hm. split; [done|]. eapply merge_attribution_ok in Hm; [|done..].
    cbn [fst snd]. destruct Hm as (? & ? & Hm). split; [done|]. split; [done|]. unfold batch_total, credits_total in *. lia. }
  intros [m i] ? _ _ (-> & Hwfm & Hkm & Hm). cbn [fst snd] in *. cbn zeta.
  eapply attempts_bind; [by apply attempts_resolve|]. intros owners u3 Hu3 _ Hc3.
  destruct (classify_sources m i owners) as [[[owned ineligible] mismatches]|err] eqn:Ec; [|apply attempts_throw].
  apply classify_sources_ok in Ec as (_ & Ho & Ht).
  match goal with |- context [examine_batches] => idtac | |- context [mret (inl ?x)] => set (s1 := x) end.
  assert (search_ok sp s1) as Hs1 by (constructor; [exact Hh|exact Hcache1|exact Hbest]).
  cbn beta in Hc3. destruct (Nat.eqb _ 0); [apply attempts_ret; split; [lia|done]|].
  match goal with |- context [inr ?x] => set (c := x) end.
  assert (candidate_ok (commitment sp) (collected (history s)) c) as Hcand.
  { split; [|exists tx, amount, fee; do 7 (split; [done|]); cbn; lia]. cbn. eapply Forall_impl; [exact Ho|]. cbn.
    intros kv (a & -> & Ha)%list_elem_of_fmap. unfold keys_known in Hkm. rewrite Forall_forall in Hkm. by apply Hkm. }
  apply attempts_ret. destruct (_ =? _); [split; [lia|done]|]. split; [lia|]. split; [|done].
  destruct Hs1. constructor; [done|done|]. intros b'. cbn. unfold const. by intros [= <-].
Qed.

Lemma attempts_examine_batches sp first_cutoff batches s u :
  usage_ok u -> search_ok sp s -> Forall (commits known (commitment sp) (collected (history s))) batches ->
  attempts e Inv ev_ok u (examine_batches sp first_cutoff batches s) (fun r u' =>
    calls u <= calls u' /\
    match r with
    | inl s' => search_ok sp s' /\ history s' = history s /\ orphan_search s' = orphan_search s
    | inr c => candidate_ok (commitment sp) (collected (history s)) c
    end).
Proof using rely_inv reads_ok typed tx_amounts tx_sender L.
  intros Hu Hs Hb. revert s u Hu Hs Hb. induction batches as [|b batches IH]; intros s u Hu Hs Hb;
    cbn [examine_batches]; [by apply attempts_ret|].
  apply Forall_cons in Hb as [Hb Hbs].
  assert (forall s1 u1, usage_ok u1 -> calls u <= calls u1 -> search_ok sp s1 -> history s1 = history s ->
    orphan_search s1 = orphan_search s ->
    attempts e Inv ev_ok u1 (examine_batches sp first_cutoff batches s1) (fun r u' =>
      calls u <= calls u' /\
      match r with
      | inl s' => search_ok sp s' /\ history s' = history s /\ orphan_search s' = orphan_search s
      | inr c => candidate_ok (commitment sp) (collected (history s)) c
      end)) as Hnext.
  { intros s1 u1 Hu1 Hc1 Hs1 Eh Eo. eapply attempts_mono; [apply IH; [done|done|by rewrite Eh]|].
    intros r u' [Hc Hr]. split; [lia|]. destruct r as [s'|c]; [|by rewrite <- Eh].
    destruct Hr as (? & ? & ?). split; [done|]. split; congruence. }
  eapply attempts_bind; [apply attempts_work; [done|lia]|]. intros [] u1 Hu1 _ Hc1.
  destruct (set_contains _ _); [by apply Hnext|].
  set (s0 := s <| examined_commitments ::= _ |>).
  assert (search_ok sp s0) as Hs0 by (destruct Hs; by constructor).
  eapply attempts_bind; [apply attempts_work; [done|]|].
  { pose proof (Z.log2_nonneg (Z.of_nat (length (spec_cutoffs sp)))). lia. }
  intros [] u2 Hu2 _ Hc2. destruct (spec_cutoffs sp !! _) as [cut|]; [|apply Hnext; [done|lia|done..]].
  destruct (is_some_and _ _); [apply Hnext; [done|lia|done..]|].
  eapply attempts_bind; [by apply (attempts_examine_batch _ _ _ b s0)|].
  intros [s1|c] u3 Hu3 _ [Hc3 Hr]; [|apply attempts_ret; split; [lia|done]].
  destruct Hr as (Hs1 & Eh & Eo). apply Hnext; [done|lia|done..].
Qed.

(** A page was read; [fresh] when the history had to grow. *)
Lemma attempts_read_older sp s u :
  usage_ok u -> search_ok sp s -> exhausted (history s) = false ->
  attempts e Inv ev_ok u (read_older sp s) (fun s' u' =>
    search_ok sp s' /\ orphan_search s' = orphan_search s /\ calls u + 1 <= calls u').
Proof using L rely_inv reads_ok typed tx_amounts tx_sender.
  intros Hu [(Hh & Ha & Hc) Hcache Hbest] He. unfold read_older.
  eapply attempts_bind; [by apply (attempts_extend e Inv ev_ok rely_inv tx_ok pages_read typed)|].
  intros h1 u1 Hu1 _ (Hh1 & (Ea & [more Em] & _) & Hc1 & Hcalls).
  eapply attempts_bind with (R := fun _ u' => u' = u1); [by apply attempts_of_option|]. intros n ? _ _ ->.
  apply attempts_ret. split; [|done]. constructor; cbn; unfold const; [|done|].
  - split; [done|]. split; [congruence|done].
  - intros b Hb. eapply candidate_mono; [|by apply Hbest]. rewrite Em. set_solver.
Qed.

Lemma attempts_read_first sp s u :
  usage_ok u -> search_ok sp s ->
  attempts e Inv ev_ok u (read_first sp s) (fun s' u' =>
    search_ok sp s' /\ orphan_search s' = orphan_search s /\ calls u <= calls u').
Proof using L rely_inv reads_ok typed tx_amounts tx_sender.
  intros Hu Hs. unfold read_first. destruct (_ && _) eqn:En; [|apply attempts_ret; split; [done|split; [done|lia]]].
  apply andb_true_iff in En as [_ He%negb_true_iff]. destruct Hs as [(Hh & Ha & Hc) Hcache Hbest].
  eapply attempts_bind; [by apply (attempts_extend e Inv ev_ok rely_inv tx_ok pages_read typed)|].
  intros h1 u1 Hu1 _ (Hh1 & (Ea & [more Em] & _) & Hc1 & Hcalls).
  apply attempts_ret. split; [|split; [done|lia]]. constructor; cbn; unfold const; [|done|].
  - split; [done|]. split; [congruence|done].
  - intros b Hb. eapply candidate_mono; [|by apply Hbest]. rewrite Em. set_solver.
Qed.

(** A round that goes on has read a page or begun the orphan search. *)
Lemma attempts_search_loop sp first_cutoff last_cutoff fuel s u :
  usage_ok u -> search_ok sp s ->
  MAX_CALLS - calls u + (if orphan_search s then 0 else 1) < Z.of_nat fuel ->
  attempts e Inv ev_ok u (search_loop fuel sp first_cutoff last_cutoff s) (fun r _ =>
    forall c, r = Some c -> exists h, sound_history tx_ok (relay_account (commitment sp)) h /\
      candidate_ok (commitment sp) (collected h) c).
Proof using rely_inv reads_ok typed tx_amounts tx_sender L.
  revert s u. induction fuel as [|fuel IH]; intros s u Hu Hs Hf; cbn [search_loop].
  { destruct Hu as ([? ?] & _). destruct (orphan_search s); lia. }
  eapply attempts_bind; [apply attempts_work; [done|lia]|]. intros [] u1 Hu1 _ Hc1.
  eapply attempts_bind; [by apply attempts_read_first|]. intros s1 u2 Hu2 _ (Hs1 & Eo1 & Hc2).
  eapply attempts_bind with (R := fun r u' => calls u2 <= calls u' /\
    forall batches, r = Complete batches -> Forall (commits known (commitment sp) (collected (history s1))) batches).
  { apply attempts_meter; [apply reconstruct_batches_spends|]. intros live r u' Hr. split.
    - match type of Hr with ?m live u2 = _ => assert (spends m) as Hsp by apply reconstruct_batches_spends end.
      destruct (Hsp live u2 Hu2) as [_ [Hcu _]]. by rewrite Hr in Hcu.
    - intros batches ->. pose proof (sound_authoritative _ _ _ (search_history _ _ Hs1)) as Htx.
      apply (reconstruct_batches_ok known) in Hr; [|by eapply Forall_impl..].
      eapply Forall_impl; [exact Hr|]. intros b Hb. eapply commits_mono; [|exact Hb].
      unfold authoritative_transactions. intros x Hx. by apply (subseteq_take (authoritative_len (history s1))). }
  intros r u3 Hu3 _ [Hc3 Hb]. destruct r as [batches| |err]; [| |apply attempts_throw].
  - eapply attempts_bind.
    { apply (attempts_examine_batches _ _ (reverse batches) s1); [done..|].
      apply Forall_reverse. by apply Hb. }
    intros [s2|c] u4 Hu4 _ [Hc4 Hr].
    + destruct Hr as (Hs2 & Eh & Eo). destruct (exhausted (history s2)) eqn:He.
      * destruct (orphan_search s2) eqn:Eos; cbn [negb andb].
        -- apply attempts_ret. intros c Hbest. exists (history s2). split; [apply Hs2|by apply Hs2].
        -- destruct (first_cutoff <? last_cutoff).
           ++ apply IH; [done|by destruct Hs2|]. cbn. unfold const.
              assert (orphan_search s = false) as Eo' by congruence. rewrite Eo' in Hf. lia.
           ++ apply attempts_ret. intros c Hbest. exists (history s2). split; [apply Hs2|by apply Hs2].
      * eapply attempts_bind; [by apply attempts_read_older|]. intros s3 u5 Hu5 _ (Hs3 & Eo3 & Hc5).
        apply IH; [done..|]. rewrite Eo3, Eo, Eo1. lia.
    + apply attempts_ret. intros c' [= <-]. exists (history s1). split; [apply Hs1|done].
  - destruct (exhausted (history s1)) eqn:He; [apply attempts_throw|].
    eapply attempts_bind; [by apply attempts_read_older|]. intros s3 u5 Hu5 _ (Hs3 & Eo3 & Hc5).
    apply IH; [done..|]. rewrite Eo3, Eo1. lia.
Qed.

Lemma attempts_find sp u :
  usage_ok u ->
  attempts e Inv ev_ok u (find_eligible_batch sp) (fun r _ =>
    forall c, r = Some c -> exists h, sound_history tx_ok (relay_account (commitment sp)) h /\
      candidate_ok (commitment sp) (collected h) c).
Proof using rely_inv reads_ok typed tx_amounts tx_sender L.
  intros Hu. unfold find_eligible_batch. destruct (head _); [|apply attempts_throw].
  destruct (last _); [|apply attempts_throw]. apply attempts_search_loop; [done| |].
  - constructor; cbn; [apply sound_new|constructor|done].
  - destruct Hu as ([? ?] & _). unfold loop_fuel, MAX_CALLS. cbn. lia.
Qed.

End search.

(** A transaction of a page that the index returned; the sender of such a transfer, decoded. *)
Definition index_returned `{P : PrincipalSpec} (e : env Heap SuiteCall) (entry : IndexTransactionWithId) : Prop :=
  exists n index account start k page,
    env_reply e n _ (GetTransactions index account start k) = Ok (Ok page) /\ entry ∈ transactions page.
Definition transferred_from `{P : PrincipalSpec} `{T : TextSpec} `{H : HashSpec} `{C : !CandidSpec} (e : env Heap SuiteCall) (source : list Z) : Prop :=
  exists entry from to amount fee spender, index_returned e entry /\
    tx_operation (transaction entry) = IndexTransfer from to amount fee spender /\ decode_account_identifier from = Some source.

(** C31: The search for an eligible commitment returns, whatever the index and the owner
    resolver answer, and attributes a commitment completely: a candidate names a transfer of
    at least one ICP with the expected memo from the relay's account to the faucet's, in a
    history whose debits and credits replay to the reported balance and of which every
    transaction was in a page that the index returned; the weights of its owners with the
    amount that nobody owns add up to exactly what that transfer debited, its amount and its
    fee, which do not overflow; and every owner that has a weight owns, by its default
    account, the sender of a transfer that the index returned. *)
Theorem commitment_fully_attributed `{P : PrincipalSpec} `{O : !OrdSpec Principal} `{L : !OrdLaws Principal}
    `{T : TextSpec} `{H : HashSpec} `{C : !CandidSpec} (e : env Heap SuiteCall) (sp : SearchSpec) (b : WorkBudget)
    (u : Usage) (w : world Heap SuiteCall)
    (Htyped : forall n index account start k page,
      env_reply e n _ (GetTransactions index account start k) = Ok (Ok page) ->
      Forall amounts_ok (transactions page))
    (Hu : usage_ok u) :
  exists r u' w', find_eligible_batch sp b u e w = (Returned (r, u'), w') /\ usage_ok u' /\
    forall c, r = Ok (Some c) ->
      exists h tx amount fee, history_ok h /\ account_identifier h = relay_account (commitment sp) /\
        Forall (index_returned e) (collected h) /\
        tx ∈ collected h /\ tx_id tx = eligible_commitment_tx_id c /\
        tx_operation (transaction tx)
        = IndexTransfer (relay_account (commitment sp)) (faucet_account (commitment sp)) amount fee None /\
        tx_icrc1_memo (transaction tx) = Some (commitment_memo (commitment sp)) /\
        MIN_RAW_ICP_RECIPIENT_AMOUNT_E8S <= amount /\ 0 <= fee /\ amount + fee <= u64_max /\
        sumZ (btree_values (eligible c)) + eligible_ineligible_e8s c = amount + fee /\
        forall owner weight, (owner, weight) ∈ eligible c -> transferred_from e (account_identifier_bytes owner None).
Proof.
  set (tx_ok := fun entry => amounts_ok entry /\ index_returned e entry).
  assert (forall n index account start k page, env_reply e n _ (GetTransactions index account start k) = Ok (Ok page) ->
    Forall tx_ok (transactions page)) as Hpages.
  { intros n index a start k page E. pose proof (Htyped _ _ _ _ _ _ E) as Ht. rewrite Forall_forall in Ht.
    apply Forall_forall. intros entry Hin. split; [by apply Ht|]. by exists n, index, a, start, k, page. }
  assert (forall entry, tx_ok entry -> sender_known (transferred_from e) entry) as Hsend.
  { intros entry [_ Hret]. unfold sender_known. destruct (tx_operation (transaction entry)) as [from to amount fee spender| | |] eqn:Eo; try done.
    intros source Es. by exists entry, from, to, amount, fee, spender. }
  pose proof (attempts_find e (fun _ => True) (fun _ => True) ltac:(done) ltac:(done) tx_ok (transferred_from e) ltac:(by intros entry [? _])
    Hsend Hpages sp u Hu b w Hu ltac:(done)) as Hw.
  unfold awp, wp in Hw. destruct (find_eligible_batch sp b u e w) as [[[r u']| |] w'] eqn:E; [|done..].
  cbn in Hw. destruct Hw as [[Hu' _ _ _ _] Hr].
  exists r, u', w'. split; [done|]. split; [done|]. intros c ->.
  destruct (Hr _ eq_refl c eq_refl) as (h & (Hh & Ha & Hcol) & Howners & tx & amount & fee & Hin & Hid & Hfee & Hle & Hop & Hmemo & Hmin & Hsum).
  exists h, tx, amount, fee. split; [done|]. split; [done|]. split; [by eapply Forall_impl; [exact Hcol|intros entry [_ ?]]|].
  repeat (split; [done|]). intros owner weight Hown. rewrite Forall_forall in Howners. exact (Howners _ Hown).
Qed.

(** ** Witness *)

Section witness.
Import Concrete ConcreteTexts ConcreteRelay ConcreteCandid ConcreteHash.
Local Abbreviation PS := concrete_principal.

Let sp0 : SearchSpec (P:=PS) :=
  MkSearchSpec (P:=PS) 10 8 1 7 (MkCommitmentSpec [1] [2] [3] []) [1000; 2000].
Let heap1 : Heap (P:=PS) := heap0 <| st ::= fun s => s <| main_lock_state_ts := Some 900 |> |>.
Let env1 : env (Heap (P:=PS)) SuiteCall := reward_env (account_identifier_text (P:=PS) 42 None) (Some 42).

Lemma env1_typed n index account start k page :
  env_reply env1 n _ (GetTransactions index account start k) = Ok (Ok page) -> Forall amounts_ok (transactions page).
Proof. intros [= <-]. repeat constructor; unfold u64; cbn; lia. Qed.

Abbreviation candidate0 := (MkEligible PS 2 1000 [(42, 100010000)] 0 0 1).
(** The candidate that is found weighs the owner 42, whose account sent what was committed. *)
Lemma commitment_fully_attributed_witness :
  (exists u', (find_eligible_batch sp0 (budget_new 1000 900) Usage_default env1 (World heap1 [])).1 =
    Returned (Ok (Some candidate0), u')) /\
  exists r u' w', find_eligible_batch sp0 (budget_new 1000 900) Usage_default env1 (World heap1 [])
    = (Returned (r, u'), w') /\ usage_ok u' /\ (r = Ok (Some candidate0) -> transferred_from env1 (account_identifier_bytes 42 None)).
Proof.
  split; [eexists; by vm_compute|].
  destruct (commitment_fully_attributed env1 sp0 (budget_new 1000 900) Usage_default (World heap1 [])
    env1_typed usage_default_ok) as (r & u' & w' & E & Hu & Hc).
  exists r, u', w'. split; [exact E|]. split; [exact Hu|]. intros Er.
  destruct (Hc _ Er) as (h & tx & amount & fee & _ & _ & _ & _ & _ & _ & _ & _ & _ & _ & _ & Howners).
  exact (Howners _ _ (list_elem_of_here _ _)).
Defined.
End witness.
