(* ===== verification/RewardPot.v ===== *)
(** * Relay rewards: the age of the reward pot is first-in first-out

    The cutoffs of [scheduler/reward_token_history.rs] under every reply of the
    reward token's index: the read returns, and its cutoffs are the block times of
    the credits that a closed-form first-in first-out account still holds. *)

From stdpp Require Import sorting.
From S2P Require Import Prelude BTree Async Ic Clients CyclesProbe TimerGuard RelayState RelayLogic RelaySplitter RewardBudget RewardHistory RewardSplitter RewardTokenHistory RewardProvenance.

(** ** The reference account *)

(** What [spent] first-in first-out units leave of each credit, when [before]
    units were credited before the first. *)
Fixpoint remaining_after (spent before : Z) (credits : list RewardCredit) : list RewardCredit :=
  match credits with
  | [] => []
  | c :: credits' =>
      MkRewardCredit (Z.min (remaining_amount c) (Z.max 0 (before + remaining_amount c - spent)))
        (ledger_block_timestamp_nanos c)
      :: remaining_after spent (before + remaining_amount c) credits'
  end.
Definition positive (c : RewardCredit) : bool := 0 <? remaining_amount c.
Definition left_of (spent before : Z) (credits : list RewardCredit) : list RewardCredit :=
  List.filter positive (remaining_after spent before credits).
Abbreviation nonneg l := (Forall (fun c => 0 <= remaining_amount c) l).
Abbreviation credit_sum l := (sumZ (map remaining_amount l)).

Lemma remaining_after_all spent before l :
  nonneg l -> spent <= before -> remaining_after spent before l = l.
Proof.
  intros Hl. revert before. induction Hl as [|[a t] l Ha Hl IH]; intros before Hs; cbn in *; [done|].
  f_equal; [f_equal; lia|]. apply IH. lia.
Qed.

Lemma remaining_after_snoc spent before l c :
  nonneg l -> 0 <= remaining_amount c -> spent <= before + credit_sum l ->
  remaining_after spent before (l ++ [c]) = remaining_after spent before l ++ [c].
Proof.
  intros Hl Hc. revert before. induction Hl as [|[a t] l Ha Hl IH]; intros before Hs; cbn in *.
  - unfold sumZ in Hs. cbn in Hs. destruct c as [a t]. cbn in *. do 2 f_equal. lia.
  - rewrite sumZ_cons in Hs. f_equal. apply IH. lia.
Qed.

Lemma left_of_snoc spent l c :
  nonneg l -> 0 <= remaining_amount c -> spent <= credit_sum l ->
  left_of spent 0 (l ++ [c]) = left_of spent 0 l ++ (if remaining_amount c =? 0 then [] else [c]).
Proof.
  intros Hl Hc Hs. unfold left_of. rewrite remaining_after_snoc; [|done..].
  rewrite List.filter_app. f_equal. cbn. unfold positive. destruct (_ <? _) eqn:E, (_ =? _) eqn:E'; zify_bool; lia || done.
Qed.

Lemma left_of_sum spent before l :
  nonneg l -> before <= spent <= before + credit_sum l ->
  credit_sum (left_of spent before l) = before + credit_sum l - spent.
Proof.
  intros Hl. revert before. unfold left_of.
  induction Hl as [|[a t] l Ha Hl IH]; intros before Hs; cbn [remaining_after List.filter map] in *.
  { rewrite sumZ_nil in *. lia. }
  rewrite sumZ_cons in *. unfold positive at 1. cbn [remaining_amount] in *. cbn.
  destruct (_ <? _) eqn:E; zify_bool.
  - cbn [map remaining_amount]. rewrite sumZ_cons. cbn.
    destruct (Z.le_gt_cases (before + a) spent); [lia|].
    rewrite remaining_after_all; [|done|lia].
    assert (List.filter positive l = List.filter positive l) as _ by done.
    assert (forall k, nonneg k -> credit_sum (List.filter positive k) = credit_sum k) as Hf.
    { intros k. induction 1 as [|[b s] k Hb Hk IHk]; [done|]. cbn. unfold positive at 1. cbn in *.
      destruct (0 <? b) eqn:Eb; cbn [map]; rewrite ?sumZ_cons, IHk; zify_bool; cbn; lia. }
    rewrite (Hf _ Hl). lia.
  - rewrite IH; lia.
Qed.

(** ** The queue of the source is that account *)

Lemma spend_credits_ok a l l' live u u' :
  nonneg l -> 0 <= a -> spend_credits a l live u = (Ok l', u') -> a <= credit_sum l.
Proof.
  revert a u. induction l as [|[x t] l IH]; intros a u Hl Ha; cbn [spend_credits map];
    rewrite ?sumZ_nil, ?sumZ_cons; apply Forall_cons in Hl || idtac; destruct (a <=? 0) eqn:E; zify_bool.
  - lia.
  - by intros ([] & u1 & _ & ?)%metered_bind_ok.
  - intros _. destruct Hl as [Hx Hl]. cbn in *.
    assert (0 <= credit_sum l) by (apply sumZ_nonneg, Forall_map, Hl). lia.
  - destruct Hl as [Hx Hl]. intros ([] & u1 & _ & Hr)%metered_bind_ok. cbn in *.
    assert (0 <= credit_sum l) by (apply sumZ_nonneg, Forall_map, Hl).
    destruct (x <=? a) eqn:Ex; zify_bool; [|lia]. apply IH in Hr; [lia|done|lia].
Qed.

(** From a queue whose credits are all whole. *)
Lemma spend_whole a before l l' live u u' :
  nonneg l -> 0 <= a -> spend_credits a (List.filter positive l) live u = (Ok l', u') ->
  l' = left_of (before + a) before l.
Proof.
  intros Hl. revert a before u. unfold left_of.
  induction Hl as [|[x t] l Hx Hl IH]; intros a before u Ha; cbn [remaining_after List.filter].
  - cbn [spend_credits]. destruct (a <=? 0); [by intros [= <- <-]|]. by intros ([] & u1 & _ & ?)%metered_bind_ok.
  - unfold positive at 1 4. cbn [remaining_amount] in *. cbn.
    destruct (0 <? x) eqn:Ex; zify_bool; cycle 1.
    { assert (x = 0) as -> by lia. rewrite (proj2 (Z.ltb_ge _ _)) by lia. rewrite Z.add_0_r. by apply IH. }
    cbn [spend_credits remaining_amount]. destruct (a <=? 0) eqn:Ea; zify_bool.
    + assert (a = 0) as -> by lia. intros [= <- <-]. rewrite (proj2 (Z.ltb_lt _ _)) by lia.
      rewrite remaining_after_all; [|done|lia]. do 2 f_equal. lia.
    + intros ([] & u1 & _ & Hr)%metered_bind_ok. destruct (x <=? a) eqn:Exa; zify_bool.
      * rewrite (proj2 (Z.ltb_ge _ _)) by lia. replace (before + a) with ((before + x) + (a - x)) by lia.
        apply (IH (a - x) (before + x) u1); [lia|exact Hr].
      * injection Hr as <- <-. rewrite (proj2 (Z.ltb_lt _ _)) by lia.
        rewrite remaining_after_all; [|done|lia]. unfold set; cbn; unfold const; do 2 f_equal; lia.
Qed.

Lemma spend_left a spent before l l' live u u' :
  nonneg l -> 0 <= a -> before <= spent ->
  spend_credits a (left_of spent before l) live u = (Ok l', u') -> l' = left_of (spent + a) before l.
Proof.
  intros Hl. revert a before u. unfold left_of.
  induction Hl as [|[x t] l Hx Hl IH]; intros a before u Ha Hs; cbn [remaining_after List.filter].
  - cbn [spend_credits]. destruct (a <=? 0); [by intros [= <- <-]|]. by intros ([] & u1 & _ & ?)%metered_bind_ok.
  - unfold positive at 1 4. cbn [remaining_amount] in *. cbn.
    destruct (0 <? Z.min x _) eqn:Ex; zify_bool; cycle 1.
    { rewrite (proj2 (Z.ltb_ge _ _)) by lia. apply IH; lia. }
    rewrite (remaining_after_all spent); [|done|lia].
    cbn [spend_credits remaining_amount]. destruct (a <=? 0) eqn:Ea; zify_bool.
    + assert (a = 0) as -> by lia. intros [= <- <-]. rewrite (proj2 (Z.ltb_lt _ _)) by lia.
      rewrite remaining_after_all; [|done|lia]. do 2 f_equal. lia.
    + intros ([] & u1 & _ & Hr)%metered_bind_ok. destruct (_ <=? a) eqn:Exa; zify_bool.
      * rewrite (proj2 (Z.ltb_ge _ _)) by lia.
        eapply (spend_whole _ (before + x)) in Hr; [|done|lia]. rewrite Hr. unfold left_of. do 2 f_equal. lia.
      * injection Hr as <- <-. rewrite (proj2 (Z.ltb_lt _ _)) by lia.
        rewrite remaining_after_all; [|done|lia]. unfold set; cbn; unfold const; do 2 f_equal; lia.
Qed.

(** ** The replay of a history *)

(** The [Nat]s of a page. *)
Definition icrc_amounts_ok `{P : PrincipalSpec} (entry : TransactionWithId) : Prop :=
  let t := icrc_transaction entry in
  (forall m, mint t = Some m -> 0 <= mint_amount m) /\
  (forall x, icrc_transfer t = Some x -> 0 <= transfer_amount x /\ forall fee, transfer_fee x = Some fee -> 0 <= fee) /\
  (forall x, authorized_mint t = Some x -> 0 <= x.1).

Section replay.
Context `{P : PrincipalSpec} `{A : !AccountSpec} `{T : TextSpec} `{C : !CandidSpec}.

(** The credits and the debits of an account, in the order of [txs]. *)
Fixpoint credits_of (account : Account) (txs : list TransactionWithId) : list RewardCredit :=
  match txs with
  | [] => []
  | entry :: txs' =>
      match transaction_effect (icrc_transaction entry) account with
      | Ok (Credit amount timestamp) => MkRewardCredit amount timestamp :: credits_of account txs'
      | _ => credits_of account txs'
      end
  end.
Fixpoint debited (account : Account) (txs : list TransactionWithId) : Z :=
  match txs with
  | [] => 0
  | entry :: txs' =>
      match transaction_effect (icrc_transaction entry) account with
      | Ok (Debit amount) => amount + debited account txs'
      | _ => debited account txs'
      end
  end.

Lemma effect_nonneg entry account effect :
  icrc_amounts_ok entry -> transaction_effect (icrc_transaction entry) account = Ok effect ->
  match effect with Credit amount _ | Debit amount => 0 <= amount end.
Proof using Type.
  intros (Hm & Hx & Ha). unfold transaction_effect, transfer_effect. destruct (negb _); [done|].
  destruct (mint _) as [m|].
  { destruct (_ || _); [done|]. destruct (mint_amount m <? _) eqn:E; [done|]. intros [= <-]. zify_bool. lia. }
  destruct (icrc_transfer _) as [x|].
  - destruct (Hx _ eq_refl) as [Hamount Hfee]. destruct (negb _); [done|]. destruct (Bool.eqb _ _); [done|].
    destruct (account_eqb (transfer_to x) account); [by intros [= <-]|]. destruct (is_some _); [done|].
    destruct (transfer_fee x) as [fee|]; [|done]. intros [= <-]. specialize (Hfee _ eq_refl). lia.
  - destruct (authorized_mint _) as [[amount to]|]; [|done]. destruct (_ || _); [done|].
    intros [= <-]. apply (Ha _ eq_refl).
Qed.

Lemma replay_credits_ok account txs cs spent l live u u' :
  Forall icrc_amounts_ok txs -> nonneg cs -> 0 <= spent <= credit_sum cs ->
  fold_metered (replay_credit account) txs (left_of spent 0 cs) live u = (Ok l, u') ->
  l = left_of (spent + debited account txs) 0 (cs ++ credits_of account txs) /\
  spent + debited account txs <= credit_sum (cs ++ credits_of account txs) /\
  0 <= debited account txs /\ nonneg (credits_of account txs).
Proof using Type.
  intros Htxs. revert cs spent u. induction Htxs as [|entry txs He Htxs IH]; intros cs spent u Hcs Hs;
    cbn [fold_metered credits_of debited].
  { intros [= <- <-]. rewrite app_nil_r, Z.add_0_r. split; [done|]. split; [lia|]. split; [lia|constructor]. }
  intros (l1 & u1 & H1 & H2)%metered_bind_ok. unfold replay_credit in H1.
  apply metered_bind_ok in H1 as ([] & u2 & _ & H1). apply metered_bind_ok in H1 as (effect & u3 & Heff & H1).
  destruct (transaction_effect _ account) as [effect'|] eqn:E; [|done]. injection Heff as <- <-.
  pose proof (effect_nonneg _ _ _ He E) as Hn. destruct effect' as [amount t|amount].
  - assert (l1 = left_of spent 0 (cs ++ [MkRewardCredit amount t])) as ->.
    { rewrite left_of_snoc by (done || lia). cbn [remaining_amount].
      destruct (amount =? 0); injection H1 as <- <-; [by rewrite app_nil_r|done]. }
    apply IH in H2 as (-> & Hle & Hd & Hc).
    + rewrite <- app_assoc in *. split; [done|]. split; [done|]. split; [done|by constructor].
    + apply Forall_app. split; [done|by repeat constructor].
    + rewrite map_app, sumZ_app. cbn [map remaining_amount]. rewrite sumZ_cons, sumZ_nil. lia.
  - pose proof H1 as Hle1. apply spend_left in H1 as ->; [|done..|lia].
    assert (nonneg (left_of spent 0 cs)) as Hl.
    { unfold left_of. apply Forall_forall. intros c Hc. apply list_elem_of_In, List.filter_In in Hc as [_ Hc].
      unfold positive in Hc. zify_bool. lia. }
    apply spend_credits_ok in Hle1; [|done|lia]. rewrite left_of_sum in Hle1 by (done || lia).
    apply IH in H2 as (-> & Hle & Hd & Hc); [|done|lia]. rewrite Z.add_assoc.
    split; [done|]. split; [done|]. split; [lia|done].
Qed.

(** What the pot of an account holds after a history, oldest first. *)
Definition pot_credits (account : Account) (txs : list TransactionWithId) : list RewardCredit :=
  left_of (debited account txs) 0 (credits_of account txs).

Lemma cutoffs_ok h live u times u' :
  Forall icrc_amounts_ok (rh_transactions h) -> cutoffs h live u = (Ok times, u') ->
  let pot := pot_credits (rh_account h) (reverse (rh_transactions h)) in
  credit_sum pot = live_balance h /\ times = set_of_list (map ledger_block_timestamp_nanos pot) /\ pot <> [].
Proof using Type.
  intros Htxs. unfold cutoffs. destruct (_ && _); [done|].
  intros (l & u1 & Hl & Hr)%metered_bind_ok.
  destruct (replay_credits_ok (rh_account h) (reverse (rh_transactions h)) [] 0 l live u u1) as (-> & _); [|done| |done|].
  { by apply Forall_reverse. }
  { cbn. unfold sumZ. cbn. lia. }
  rewrite Z.add_0_l in Hr. cbn [app] in Hr. unfold pot_credits. cbn zeta.
  destruct (_ =? _) eqn:Eb; cbn [negb] in Hr; [|done]. zify_bool.
  destruct (Nat.eqb _ 0) eqn:En; [done|]. apply metered_bind_ok in Hr as ([] & u2 & _ & [= <- <-]).
  split; [done|]. split; [done|]. intros Hnil. rewrite Hnil in En. done.
Qed.

(** ** The read *)

Lemma spends_res {X} (r : result X string) : spends (res r).
Proof using Type. destruct r; [apply spends_ret|apply spends_fail]. Qed.

Lemma invert_entry_spends entry h : spends (invert_entry entry h).
Proof using Type. unfold invert_entry. repeat first [spends_step | apply spends_res]; lia. Qed.

Lemma invert_entries_spends l h : spends (invert_entries l h).
Proof using Type.
  revert h. induction l as [|entry l IH]; intros h; cbn [invert_entries]; [apply spends_ret|].
  apply spends_bind; [apply invert_entry_spends|]. intros h1. destruct (_ =? _); [apply spends_ret|apply IH].
Qed.

Lemma absorb_reward_page_spends page h : spends (absorb_reward_page page h).
Proof using Type.
  unfold absorb_reward_page, opt_u64, check_id, finish_reward_page.
  repeat first [spends_step | apply spends_res | apply spends_retain | apply invert_entries_spends]; lia.
Qed.

Lemma spend_credits_spends a l : spends (spend_credits a l).
Proof using Type.
  revert a. induction l as [|c l IH]; intros a; cbn [spend_credits]; repeat first [apply IH | spends_step]; lia.
Qed.

Lemma cutoffs_spends h : spends (cutoffs h).
Proof using Type.
  unfold cutoffs, replay_credit.
  repeat first [spends_step | apply spends_res | apply spend_credits_spends]; try lia.
  match goal with |- 0 <= Z.min (?n * _) _ => pose proof (Z.log2_nonneg n) end. nia.
Qed.

(** What a read keeps: the transactions are newest first, each once, and all of
    them satisfy [tx_ok]. *)
Section kept.
Context (tx_ok : TransactionWithId -> Prop).
Abbreviation newest_first l := (StronglySorted (fun a b => icrc_id b < icrc_id a) l).

Record pot_history (account : Account) (balance : Z) (h : BackwardRewardHistory) : Prop := {
  pot_account : rh_account h = account;
  pot_balance : live_balance h = balance;
  pot_typed : Forall tx_ok (rh_transactions h);
  pot_newest_first : newest_first (rh_transactions h);
  pot_previous : rh_previous_tx_id h = icrc_id <$> last (rh_transactions h);
}.

Lemma check_ids_ok start txs previous oldest live u u' :
  fold_metered (check_id start) txs previous live u = (Ok oldest, u') ->
  newest_first txs /\ (forall p, previous = Some p -> Forall (fun t => icrc_id t < p) txs).
Proof using Type.
  revert previous u. induction txs as [|t txs IH]; intros previous u; cbn [fold_metered].
  { intros _. split; [constructor|by constructor]. }
  intros (o & u1 & H1 & H2)%metered_bind_ok. unfold check_id in H1.
  apply metered_bind_ok in H1 as ([] & u2 & _ & H1). apply metered_bind_ok in H1 as (id & u3 & Hid & H1).
  unfold nat_to_u64 in Hid. destruct (icrc_id t <=? u64_max); [|done]. injection Hid as <- <-.
  destruct (_ || _) eqn:Ep; [done|]. injection H1 as <- <-. apply orb_false_iff in Ep as [_ Ep].
  destruct (IH _ _ H2) as [Hs Hf]. specialize (Hf _ eq_refl). split; [by constructor|].
  intros p ->. cbn in Ep. zify_bool. constructor; [lia|]. eapply Forall_impl; [exact Hf|]. cbn. intros. lia.
Qed.

Lemma invert_entries_ok l h h' live u u' :
  invert_entries l h live u = (Ok h', u') ->
  exists k, rh_account h' = rh_account h /\ live_balance h' = live_balance h /\
    rh_transactions h' = rh_transactions h ++ take k l /\
    (rh_previous_tx_id h = icrc_id <$> last (rh_transactions h) ->
     rh_previous_tx_id h' = icrc_id <$> last (rh_transactions h')).
Proof using Type.
  revert h u. induction l as [|entry l IH]; intros h u; cbn [invert_entries].
  { intros [= <- <-]. exists 0%nat. by rewrite app_nil_r. }
  intros (h1 & u1 & H1 & H2)%metered_bind_ok. unfold invert_entry in H1.
  apply metered_bind_ok in H1 as ([] & u2 & _ & H1). apply metered_bind_ok in H1 as (eff & u3 & _ & H1).
  apply metered_bind_ok in H1 as (after & u4 & _ & H1). apply metered_bind_ok in H1 as (id & u5 & Hid & H1).
  unfold nat_to_u64 in Hid. destruct (icrc_id entry <=? u64_max); [|done]. injection Hid as <- <-.
  injection H1 as <- <-. destruct (balance_after _ =? 0) in H2.
  - injection H2 as <- <-. exists 1%nat. cbn. unfold const. do 3 (split; [done|]). intros _. by rewrite last_snoc.
  - destruct (IH _ _ H2) as (k & Ea & El & Et & Ep). cbn in *. unfold const in *.
    exists (S k). split; [done|]. split; [done|]. split; [by rewrite Et, <- app_assoc|].
    intros _. apply Ep. by rewrite last_snoc.
Qed.

Lemma absorb_reward_page_ok account balance page h h' live u u' :
  pot_history account balance h -> Forall tx_ok (icrc_transactions page) ->
  absorb_reward_page page h live u = (Ok h', u') -> pot_history account balance h'.
Proof using Type.
  intros Hh Hp. unfold absorb_reward_page. destruct (_ <? _); [done|]. destruct (encode_icrc_page _); [|done].
  intros ([] & u1 & _ & Hr)%metered_bind_ok. destruct (negb _); [done|].
  destruct (Nat.eqb _ 0).
  { destruct (_ =? 0); [|done]. injection Hr as <- <-. destruct Hh. by constructor. }
  apply metered_bind_ok in Hr as (start & u2 & _ & Hr). apply metered_bind_ok in Hr as (oldest & u3 & Hids & Hr).
  cbn zeta in Hr. apply metered_bind_ok in Hr as (documented & u4 & _ & Hr). destruct (is_some_and _ _); [done|].
  apply metered_bind_ok in Hr as (h1 & u5 & H1 & H2). apply invert_entries_ok in H1 as (k & Ea & El & Et & Ep).
  apply check_ids_ok in Hids as [Hs Hf].
  assert (pot_history account balance h1) as Hh1.
  { destruct Hh as [? ? ? Hn Hprev]. rewrite Hprev in Hf. rewrite <- (take_drop k (icrc_transactions page)) in Hs, Hf, Hp.
    constructor; [congruence|congruence| | |by apply Ep]; rewrite Et.
    - apply Forall_app. split; [done|]. by apply Forall_app in Hp as [Hp _].
    - apply sorted_app_last; [cbn; lia|done|by eapply StronglySorted_app_1_l|].
      intros t Hlast. specialize (Hf (icrc_id t)). rewrite Hlast in Hf. by apply Forall_app in Hf as [Hf _]. }
  unfold finish_reward_page in H2. destruct (boundary_found h1); [by injection H2 as <- <-|].
  destruct (bool_decide _); [done|]. destruct (_ || _); [done|]. injection H2 as <- <-.
  destruct Hh1. by constructor.
Qed.

Context (e : env Heap SuiteCall) (Inv : Heap -> Prop) (ev_ok : event Heap SuiteCall -> Prop).
Hypothesis rely_inv : forall n h, Inv h -> Inv (env_interleave e n h).
Hypothesis pages_ok : forall index account start n h, ev_ok (Dispatch (GetAccountTransactions index account start n) h).
Hypothesis typed : forall n index account start k page,
  env_reply e n _ (GetAccountTransactions index account start k) = Ok (Ok page) ->
  Forall tx_ok (icrc_transactions page).

Lemma one_reward_page index account start n :
  one_call e Inv ev_ok (get_account_transactions index account start n)
    (fun r => forall page, r = Ok page -> Forall tx_ok (icrc_transactions page)).
Proof using rely_inv pages_ok typed.
  unfold get_account_transactions.
  eapply one_call_map; [apply one_call_await; [done|apply pages_ok]|].
  intros r [k ->] page Hp. destruct (env_reply e k _ _) as [[p|m]|[d|d]] eqn:E; try done.
  injection Hp as ->. by eapply typed.
Qed.

Lemma attempts_extend_reward u index account balance h :
  pot_history account balance h -> boundary_found h || rh_exhausted h = false ->
  attempts e Inv ev_ok u (extend_reward index h) (fun h' u' =>
    pot_history account balance h' /\ calls u + 1 <= calls u').
Proof using rely_inv pages_ok typed.
  intros Hh He. unfold extend_reward. rewrite He.
  eapply attempts_bind; [apply attempts_call_or, one_reward_page|].
  intros page u1 Hu1 Hle [Hp Hcalls]. apply attempts_meter; [apply absorb_reward_page_spends|].
  intros live h' u' Hr. pose proof (absorb_reward_page_spends page h live u1 Hu1) as [_ [Hcu _]]. rewrite Hr in Hcu.
  cbn in Hcu. split; [|lia]. by eapply absorb_reward_page_ok.
Qed.

Lemma attempts_reward_loop fuel index account balance u h :
  pot_history account balance h -> usage_ok u -> MAX_CALLS - calls u < Z.of_nat fuel ->
  attempts e Inv ev_ok u (reward_history_loop fuel index h) (fun h' _ => pot_history account balance h').
Proof using rely_inv pages_ok typed.
  revert u h. induction fuel as [|fuel IH]; intros u h Hh Hu Hf; cbn [reward_history_loop].
  { destruct Hu as ([? ?] & _). lia. }
  destruct (_ || _) eqn:Eb; [by apply attempts_ret|].
  eapply attempts_bind; [by apply (attempts_extend_reward _ _ account balance)|].
  intros h1 u1 Hu1 Hle [Hh1 Hc1]. apply IH; [done..|lia].
Qed.

(** The times are those of the pot of such a history. *)
Lemma attempts_pot_cutoffs u index account balance :
  usage_ok u -> (forall entry, tx_ok entry -> icrc_amounts_ok entry) ->
  attempts e Inv ev_ok u (reward_pot_cutoffs_bounded index account balance) (fun times _ =>
    exists txs, Forall tx_ok txs /\ newest_first txs /\
      let pot := pot_credits account (reverse txs) in
      credit_sum pot = balance /\ times = set_of_list (map ledger_block_timestamp_nanos pot) /\ pot <> []).
Proof using rely_inv pages_ok typed.
  intros Hu Htx. unfold reward_pot_cutoffs_bounded. eapply attempts_bind.
  { apply (attempts_reward_loop _ _ account balance); [|done|].
    - constructor; [done|done|constructor|constructor|done].
    - destruct Hu as ([? ?] & _). unfold loop_fuel, MAX_CALLS. cbn. lia. }
  intros h u1 Hu1 Hle [<- <- Ht Hn _]. apply attempts_meter; [apply cutoffs_spends|].
  intros live times u' Hr. exists (rh_transactions h). split; [done|]. split; [done|].
  eapply cutoffs_ok; [|done]. by eapply Forall_impl.
Qed.

End kept.
End replay.

(** C32: The age of the pot is first-in first-out, whatever the index answers.
    The read returns; and cutoffs that it returns are, in ascending order and each
    once, the block times of the credits that are left when the total of the
    debits of a history is taken from its credits oldest first, by the closed form
    of [remaining_after].  The history is newest first without repetition, every
    transaction of it was in a page that the index returned, and what is left
    adds up to the balance of the pot. *)
Theorem pot_cutoffs_fifo `{P : PrincipalSpec} `{A : !AccountSpec} `{T : TextSpec} `{C : !CandidSpec}
    (e : env Heap SuiteCall) (index : Principal) (account : Account) (balance : Z) (b : WorkBudget) (u : Usage)
    (w : world Heap SuiteCall)
    (Htyped : forall n index account start k page,
      env_reply e n _ (GetAccountTransactions index account start k) = Ok (Ok page) ->
      Forall icrc_amounts_ok (icrc_transactions page))
    (Hu : usage_ok u) :
  exists r u' w', reward_pot_cutoffs_bounded index account balance b u e w = (Returned (r, u'), w') /\ usage_ok u' /\
    forall times, r = Ok times ->
      exists txs, StronglySorted (fun x y => icrc_id y < icrc_id x) txs /\
        Forall (fun entry => exists n index account start k page,
          env_reply e n _ (GetAccountTransactions index account start k) = Ok (Ok page) /\
          entry ∈ icrc_transactions page) txs /\
        sumZ (map remaining_amount (pot_credits account (reverse txs))) = balance /\
        StronglySorted Z.lt times /\
        forall t, t ∈ times <->
          exists c, c ∈ pot_credits account (reverse txs) /\ ledger_block_timestamp_nanos c = t.
Proof.
  set (tx_ok := fun entry => icrc_amounts_ok entry /\ exists n index account start k page,
          env_reply e n _ (GetAccountTransactions index account start k) = Ok (Ok page) /\
          entry ∈ icrc_transactions page).
  assert (forall n index account start k page,
    env_reply e n _ (GetAccountTransactions index account start k) = Ok (Ok page) ->
    Forall tx_ok (icrc_transactions page)) as Hpages.
  { intros n i a s k page E. pose proof (Htyped _ _ _ _ _ _ E) as Ht. rewrite Forall_forall in Ht.
    apply Forall_forall. intros entry Hin. split; [by apply Ht|]. by exists n, i, a, s, k, page. }
  pose proof (attempts_pot_cutoffs tx_ok e (fun _ => True) (fun _ => True) ltac:(done) ltac:(done) Hpages u index
    account balance Hu ltac:(by intros entry [? _]) b w Hu ltac:(done)) as Hw.
  unfold awp, wp in Hw.
  destruct (reward_pot_cutoffs_bounded index account balance b u e w) as [[[r u']| |] w'] eqn:E; [|done..].
  destruct Hw as [[Hu' _ _ _ _] Hr]. cbn in Hu'. exists r, u', w'. split; [done|]. split; [done|]. intros times ->.
  destruct (Hr _ eq_refl) as (txs & Htx & Hn & Hsum & -> & _). exists txs. split; [done|].
  split; [eapply Forall_impl; [exact Htx|by intros entry [_ ?]]|]. split; [done|]. split.
  - match goal with |- StronglySorted _ ?l => rewrite <- (list_fmap_id l) end.
    eapply StronglySorted_fmap; [|apply set_of_list_sorted]. intros x y Hxy. by apply Z.ltb_lt in Hxy.
  - intros t. rewrite elem_of_set_of_list. setoid_rewrite list_elem_of_fmap. naive_solver.
Qed.

(** ** Witness *)

Section witness.
Import Concrete ConcreteTexts ConcreteRelay ConcreteCandid.
Local Abbreviation PS := concrete_principal.

Let pot0 : Account := MkAccount PS 7 None.
Let tx0 (id : Z) (m : option Z) (x : option Z) (at_ : Z) : TransactionWithId :=
  MkIcrcTxWithId PS id (MkIcrcTransaction PS (if is_some m then "1mint" else "1xfer")
    ((fun n => MkIcrcMint PS n pot0 None) <$> m) None
    ((fun n => MkIcrcTransferRecord PS n pot0 (MkAccount PS 9 None) None (Some 10)) <$> x) None false None None at_).
(** Two mints, and a debit that takes the first and a part of the second. *)
Let reward_page : GetAccountTransactionsResponse :=
  MkIcrcPage PS 90 [tx0 3 None (Some 60) 30; tx0 2 (Some 100) None 20; tx0 1 (Some 60) None 10] (Some 1).
Let env0 : env (Heap (P:=PS)) SuiteCall := {|
  env_reply := fun _ X c => match c in SuiteCall Y return Y -> Y with
                            | GetAccountTransactions _ _ _ _ => fun _ => Ok (Ok reward_page)
                            | _ => fun r => r
                            end (reply_ok 0 10000 c);
  env_interleave := fun _ h => h;
  env_clock := fun _ => 1000;
|}.
Let heap1 : Heap (P:=PS) := heap0 <| st ::= fun s => s <| main_lock_state_ts := Some 900 |> |>.

Lemma pot_env_typed n index account start k page :
  env_reply env0 n _ (GetAccountTransactions index account start k) = Ok (Ok page) ->
  Forall icrc_amounts_ok (icrc_transactions page).
Proof.
  intros [= <-]. apply Forall_forall. intros entry Hin.
  repeat (apply elem_of_cons in Hin as [->|Hin]; [split; [|split]; cbn; intros; simplify_eq; cbn; try lia|]).
  - split; [lia|]. intros fee [= <-]. lia.
  - by apply elem_of_nil in Hin.
Qed.

Lemma pot_cutoffs_fifo_witness :
  (exists u', (reward_pot_cutoffs_bounded 11 pot0 90 (budget_new 1000 900) Usage_default env0 (World heap1 [])).1 =
    Returned (Ok [20], u')) /\
  exists r u' w', reward_pot_cutoffs_bounded 11 pot0 90 (budget_new 1000 900) Usage_default env0 (World heap1 [])
    = (Returned (r, u'), w') /\ usage_ok u'.
Proof.
  split; [eexists; by vm_compute|].
  destruct (pot_cutoffs_fifo env0 11 pot0 90 (budget_new 1000 900) Usage_default (World heap1 [])
    pot_env_typed usage_default_ok) as (r & u' & w' & E & Hu & _).
  exists r, u', w'. split; [exact E|exact Hu].
Defined.
End witness.
