(* ===== verification/RewardPayout.v ===== *)
(** * Relay rewards: the pinned payout

    The allocation of the pot and the drive of a pinned payout
    ([scheduler/reward_sweep.rs]): shares are proportional and covered by the
    pot, and every reward transfer pays the recipient that is pinned next. *)

From S2P Require Import Prelude BTree Async Ic Accounts Clients CyclesProbe TimerGuard RelayState RelayLogic RelaySplitter RewardBudget RewardHistory RewardSplitter RewardTokenHistory RewardSweep.

(** ** The shares of the pot *)

Section allocation.
Context `{P : PrincipalSpec} `{O : !OrdSpec Principal}.

(** The exact share of [weight] is [weight * balance / total]; a payout with its
    fee is less than one unit away. *)
Definition fair_share (balance fee total : Z) (eligible : btree_map Principal Z) (a : Principal * Z) : Prop :=
  fee * 10 <= a.2 /\
  exists weight, (a.1, weight) ∈ eligible /\ Z.abs ((a.2 + fee) * total - weight * balance) < total.

Lemma fair_share_cons balance fee total kv eligible a :
  fair_share balance fee total eligible a -> fair_share balance fee total (kv :: eligible) a.
Proof. intros (Hf & w & Hin & Hw). split; [done|]. exists w. split; [by right|done]. Qed.

Lemma floor_share balance total prefix weight :
  0 < total -> 0 <= balance -> 0 <= weight ->
  let gross := (prefix + weight) * balance / total - prefix * balance / total in
  0 <= gross /\ Z.abs (gross * total - weight * balance) < total.
Proof.
  intros Ht Hb Hw. cbn zeta.
  pose proof (Z.div_mod ((prefix + weight) * balance) total ltac:(lia)).
  pose proof (Z.mod_pos_bound ((prefix + weight) * balance) total Ht).
  pose proof (Z.div_mod (prefix * balance) total ltac:(lia)).
  pose proof (Z.mod_pos_bound (prefix * balance) total Ht).
  split; [|lia]. enough (prefix * balance / total <= (prefix + weight) * balance / total) by lia.
  apply Z.div_le_mono; nia.
Qed.

Lemma reward_shares_ok balance fee total prefix eligible :
  0 < total -> 0 <= balance -> Forall (fun kv => 0 <= kv.2) eligible ->
  let l := reward_shares balance fee total prefix (prefix * balance / total) eligible in
  map fst l `sublist_of` map fst eligible /\
  sumZ (map (fun a => a.2 + fee) l)
  <= (prefix + sumZ (map snd eligible)) * balance / total - prefix * balance / total /\
  Forall (fair_share balance fee total eligible) l.
Proof.
  intros Ht Hb He. revert prefix.
  induction He as [|[p weight] eligible Hw He IH]; intros prefix; cbn [reward_shares map fst snd]; cbn zeta in *.
  { rewrite sumZ_nil, Z.add_0_r. split; [done|]. split; [unfold sumZ; cbn; lia|done]. }
  cbn [snd] in Hw. specialize (IH (prefix + weight)). destruct IH as (Hs & Hsum & Hf).
  destruct (floor_share balance total prefix weight Ht Hb Hw) as [Hg Habs]. cbn zeta in *.
  rewrite sumZ_cons, Z.add_assoc.
  assert (Forall (fair_share balance fee total ((p, weight) :: eligible))
    (reward_shares balance fee total (prefix + weight) ((prefix + weight) * balance / total) eligible)) as Hf'.
  { eapply Forall_impl; [exact Hf|]. intros a. apply fair_share_cons. }
  destruct (_ && _) eqn:Ec; cbn [map fst snd].
  - zify_bool. split; [by apply sublist_skip|]. split; [rewrite sumZ_cons; cbn [fst snd]; lia|].
    constructor; [|done]. split; cbn [fst snd]; [lia|]. exists weight. split; [by left|].
    by rewrite Z.sub_add.
  - split; [by apply sublist_cons|]. split; [lia|done].
Qed.

Lemma checked_sum128_ok total l n : checked_sum128 total l = Some n -> n = total + sumZ l.
Proof.
  revert total. induction l as [|x l IH]; intros total; cbn [checked_sum128].
  - intros [= <-]. unfold sumZ. cbn. lia.
  - destruct (_ <=? _); [|done]. intros ->%IH. rewrite sumZ_cons. lia.
Qed.

End allocation.

(** C37: The pot is shared in proportion to the weights and never overdrawn: the
    payouts go to eligible owners, in their order and each at most once; every
    payout with its fee is less than one unit away from the exact share of its
    owner, covers ten times the fee, and all of them with their fees together are
    at most the balance of the pot. *)
Theorem reward_allocations_fair `{P : PrincipalSpec} `{O : !OrdSpec Principal} (balance fee : Z)
    (eligible : btree_map Principal Z) (l : list (Principal * Z))
    (Hbalance : u64 balance) (Hfee : u64 fee) (Hweights : Forall (fun kv => u64 kv.2) eligible)
    (Hl : proportional_reward_allocations balance fee eligible = Ok l) :
  l <> [] /\ map fst l `sublist_of` map fst eligible /\
  sumZ (map (fun a => a.2 + fee) l) <= balance /\
  forall principal amount, (principal, amount) ∈ l ->
    fee * 10 <= amount /\
    exists weight, (principal, weight) ∈ eligible /\
      Z.abs ((amount + fee) * sumZ (btree_values eligible) - weight * balance) < sumZ (btree_values eligible).
Proof.
  unfold proportional_reward_allocations in Hl. destruct (Nat.eqb _ 0); [done|].
  destruct (checked_sum128 0 (btree_values eligible)) as [total|] eqn:Es; [|done].
  apply checked_sum128_ok in Es. rewrite Z.add_0_l in Es. subst total.
  assert (Forall (fun kv => 0 <= kv.2) eligible) as Hw by (eapply Forall_impl; [exact Hweights|]; intros kv [? _]; lia).
  assert (0 <= sumZ (btree_values eligible)) as Hs by (apply sumZ_nonneg, Forall_map, Hw).
  destruct (_ =? 0) eqn:E0; [done|]. zify_bool.
  destruct (reward_shares_ok balance fee (sumZ (btree_values eligible)) 0 eligible
    ltac:(lia) ltac:(destruct Hbalance; lia) Hw) as (Hsub & Hsum & Hf). cbn zeta in *.
  rewrite Z.mul_0_l, Z.div_0_l in Hsub, Hsum, Hf by lia.
  rewrite Z.add_0_l, Z.sub_0_r, (Z.mul_comm _ balance), Z.div_mul in Hsum; [|lia].
  destruct (reward_shares _ _ _ _ _ _) as [|a l'] eqn:E; [done|]. injection Hl as <-.
  split; [done|]. split; [done|]. split; [done|]. intros principal amount Hin.
  rewrite Forall_forall in Hf. apply (Hf _ Hin).
Qed.

Lemma reward_allocations_fair_witness :
  proportional_reward_allocations (P:=Concrete.concrete_principal) 100000 10 [(1, 3); (2, 5); (3, 0)]
  = Ok [(1, 37490); (2, 62490)] /\
  sumZ (map (fun a => a.2 + 10) [(1, 37490); (2, 62490)]) <= 100000.
Proof.
  split; [reflexivity|].
  assert (Forall (fun kv : Z * Z => u64 kv.2) [(1, 3); (2, 5); (3, 0)]) as Hw.
  { repeat constructor; unfold u64; cbn; lia. }
  exact (proj1 (proj2 (proj2 (reward_allocations_fair (P:=Concrete.concrete_principal) 100000 10
    [(1, 3); (2, 5); (3, 0)] [(1, 37490); (2, 62490)] ltac:(unfold u64; lia) ltac:(unfold u64; lia) Hw
    eq_refl)))).
Defined.

(** ** The drive *)

(** The transfer [arg] to [ledger] pays the recipient that is pinned next in [h]. *)
Definition pays `{P : PrincipalSpec} `{A : !AccountSpec} (h : Heap) (ledger : Principal) (arg : TransferArg) : Prop :=
  exists p r r', pending_payout (reward h) = Some p /\ reward_ledger_canister_id p = ledger /\
    recipients p !! Z.to_nat (next_recipient_index p) = Some r /\ recipient_eqb r r' = true /\
    arg = reward_transfer_arg r' (reward_fee p).
Definition reward_event `{P : PrincipalSpec} `{A : !AccountSpec} (ev : event Heap SuiteCall) : Prop :=
  match ev with
  | Dispatch c h => match c with IcrcTransfer ledger arg => pays h ledger arg | _ => True end
  end.
(** The assertions of the stored state, and its unsigned index. *)
Definition reward_ok `{P : PrincipalSpec} (s : RewardState) : Prop :=
  reward_state_valid s = true /\ forall p, pending_payout s = Some p -> 0 <= next_recipient_index p.
Definition reward_valid `{P : PrincipalSpec} (h : Heap) : Prop := reward_ok (reward h).
Definition completed (r : PendingDriveResult) : bool :=
  match r with DrivenCompleted | CompletedWithAbandonment _ => true | DriveStale | Held => false end.

Section drive.
Context `{P : PrincipalSpec} `{A : !AccountSpec} `{LA : !AccountLaws} `{T : TextSpec}.
Context (e : env Heap SuiteCall).
Hypothesis rely_valid : forall n h, reward_valid h -> reward_valid (env_interleave e n h).
Implicit Types w : world Heap SuiteCall.
Abbreviation run := (run_ok reward_valid reward_event).

Lemma recipient_eqb_refl r : recipient_eqb r r = true.
Proof using LA. unfold recipient_eqb. rewrite account_eqb_refl, !Z.eqb_refl, bool_decide_eq_true_2; done. Qed.

Lemma recipients_eqb_lookup a b i r' :
  recipients_eqb a b = true -> b !! i = Some r' -> exists r, a !! i = Some r /\ recipient_eqb r r' = true.
Proof using Type.
  revert b i. induction a as [|x a IH]; intros [|y b] i; cbn; try done.
  intros [Hr Hl]%andb_true_iff. destruct i as [|i]; cbn; [|by apply IH]. intros [= <-]. by exists x.
Qed.

Lemma recipients_eqb_length a b : recipients_eqb a b = true -> length a = length b.
Proof using Type. revert b. induction a as [|x a IH]; intros [|y b]; cbn; try done. intros [_ ?]%andb_true_iff. by f_equal; apply IH. Qed.

Lemma payout_eqb_ok a b : payout_eqb a b = true ->
  reward_ledger_canister_id a = reward_ledger_canister_id b /\ reward_fee a = reward_fee b /\
  recipients_eqb (recipients a) (recipients b) = true /\ next_recipient_index a = next_recipient_index b.
Proof using Type.
  unfold payout_eqb. rewrite !andb_true_iff. intros [[[[H1 _] H3] H4] H5].
  apply bool_decide_eq_true in H1. zify_bool. done.
Qed.

Lemma pending_is_Some payout s : pending_is payout s = true ->
  exists p, pending_payout s = Some p /\ payout_eqb p payout = true.
Proof using Type. unfold pending_is, is_some_and. destruct (pending_payout s) as [p|]; [|done]. eauto. Qed.

(** The payout that the drive read still pays its recipient. *)
Lemma pending_is_pays h payout r :
  pending_is payout (reward h) = true -> recipients payout !! Z.to_nat (next_recipient_index payout) = Some r ->
  pays h (reward_ledger_canister_id payout) (reward_transfer_arg r (reward_fee payout)).
Proof using Type.
  intros (p & Hp & (E1 & E2 & E3 & E4)%payout_eqb_ok)%pending_is_Some Hr. rewrite <- E4 in Hr.
  destruct (recipients_eqb_lookup _ _ _ _ E3 Hr) as (r0 & Hr0 & He).
  exists p, r0, r. rewrite E2. done.
Qed.

Lemma pinned_is payout s : pending_payout s = Some payout -> pending_is payout s = true.
Proof using LA.
  intros E. unfold pending_is. rewrite E. cbn. unfold payout_eqb. rewrite !Z.eqb_refl, bool_decide_eq_true_2, andb_true_r by done. cbn.
  induction (recipients payout) as [|r l IH]; [done|]. cbn. by rewrite recipient_eqb_refl.
Qed.

Lemma wp_or_else {X} (m : attempt X) b u Q w :
  awp e b m u (fun r u' w' => Q (match r with Ok x => Some x | Err _ => None end, u') w') w ->
  wp e (or_else m b u) Q w.
Proof using Type.
  intros H. unfold or_else. apply wp_bind. eapply wp_mono; [exact H|].
  intros [[x|err] u'] w' HQ; by apply wp_ret.
Qed.

Lemma wp_pay b ledger r fee u w :
  usage_ok u -> reward_valid (w_state w) -> pays (w_state w) ledger (reward_transfer_arg r fee) ->
  wp e (or_else (call (reward_transfer_once ledger r fee)) b u) (fun x w' => run u w x.2 w') w.
Proof using rely_valid.
  intros Hu Hi Hp. apply wp_or_else, awp_call; [done|by intros; apply run_ok_refl|].
  intros u' Hu' Hle Hc _. unfold reward_transfer_once. apply wp_bind. unfold transfer.
  destruct w as [s0 t0]. cbn in Hi, Hp. apply wp_bind, wp_await. intros a s -> ->.
  apply wp_ret, wp_ret. intros res _. constructor; cbn [w_state w_trace snd]; [done|done| |by apply rely_valid|].
  - cbn [length]. lia.
  - by apply (traced_cons _ _ _ s0); [|apply traced_refl].
Qed.

Lemma wp_attempt_reward b payout r u w :
  usage_ok u -> reward_valid (w_state w) -> pending_payout (reward (w_state w)) = Some payout ->
  recipients payout !! Z.to_nat (next_recipient_index payout) = Some r ->
  wp e (attempt_reward (reward_ledger_canister_id payout) payout r b u) (fun x w' => run u w x.2 w' /\
    match x.1 with
    | inl d => completed d = false
    | inr _ => pending_is payout (reward (w_state w')) = true
    end) w.
Proof using rely_valid LA.
  intros Hu Hi Hp Hr. unfold attempt_reward. apply wp_bind.
  eapply wp_mono; [apply wp_pay; [done|done|]; apply pending_is_pays; [by apply pinned_is|done]|].
  intros [[first|] u1] w1 H1; [|by apply wp_ret]. cbn in H1. apply wp_bind, wp_with_state.
  destruct (pending_is payout (reward (w_state w1))) eqn:Es; cbn [negb]; [|by apply wp_ret].
  assert (wp e (second ← or_else (call (reward_transfer_once (reward_ledger_canister_id payout) r
                                            (reward_fee payout))) b u1;
                match second with
                | (None, u) => mret (inl Held, u)
                | (Some second, u) =>
                    same ← with_state (fun h => pending_is payout (reward h));
                    mret (if negb (same : bool) then inl DriveStale else inr second, u)
                end) (fun x w' => run u w x.2 w' /\
      match x.1 with
      | inl d => completed d = false
      | inr _ => pending_is payout (reward (w_state w')) = true
      end) w1) as Hsecond.
  { apply wp_bind. destruct H1. eapply wp_mono; [apply wp_pay; [done|done|by apply pending_is_pays]|].
    intros [second u2] w2 H2. cbn in H2. assert (run u w u2 w2) by (by eapply run_ok_trans).
    destruct second as [second|]; [|by apply wp_ret]. apply wp_bind, wp_with_state, wp_ret.
    cbn. split; [done|]. by destruct (pending_is payout (reward (w_state w2))) eqn:E2. }
  destruct first; try exact Hsecond; by apply wp_ret.
Qed.

Lemma wp_mutate {R} (f : RewardState -> R * RewardState) (Q : R -> world Heap SuiteCall -> Prop) w :
  reward_state_valid (f (reward (w_state w))).2 = true ->
  Q (f (reward (w_state w))).1
    (World ((w_state w) <| reward := (f (reward (w_state w))).2 |>) (w_trace w)) ->
  wp e (reward_mutate f) Q w.
Proof using Type.
  intros Hv HQ. unfold reward_mutate. apply wp_bind, wp_with_state. cbn. rewrite Hv.
  apply wp_bind, wp_modify, wp_ret. exact HQ.
Qed.

(** What a step of the drive without calls leaves: a valid state, and a payout on
    the same ledger with fewer recipients to go. *)
Definition stepped (ledger : Principal) (s s' : RewardState) : Prop :=
  reward_ok s' /\
  (forall p, pending_payout s' = Some p -> reward_ledger_canister_id p = ledger) /\
  (drive_rounds_needed s' < drive_rounds_needed s)%nat.

Lemma advance_state_ok expected s :
  reward_ok s ->
  (advance_state expected s = (AdvanceStale, s) \/
   (exists a s', advance_state expected s = (a, s') /\ a <> AdvanceStale /\
      stepped (reward_ledger_canister_id expected) s s')).
Proof using Type.
  unfold reward_ok, reward_state_valid, advance_state, stepped, drive_rounds_needed. intros [Hv H0].
  destruct (pending_payout s) as [p|]; [|by left]. specialize (H0 _ eq_refl).
  destruct (payout_eqb p expected) eqn:E; cbn [negb]; [|by left]. right.
  apply payout_eqb_ok in E as (El & _). apply andb_true_iff in Hv as [Hn Hi]. apply Z.ltb_lt in Hi.
  destruct (_ =? Z.of_nat _) eqn:Ee; eexists _, _; (split; [reflexivity|]); (split; [done|]); cbn; unfold const.
  - split; [done|]. split; [done|]. lia.
  - apply Z.eqb_neq in Ee. unfold set. cbn -[Nat.eqb]. unfold const. cbn -[Nat.eqb].
    split; [split; [apply andb_true_iff; split; [exact Hn|apply Z.ltb_lt; cbn [next_recipient_index recipients]; lia]|]|]; [intros ? [= <-]; cbn; lia|].
    split; [by intros ? [= <-]|]. lia.
Qed.

Lemma wp_advance expected (Q : AdvanceResult -> world Heap SuiteCall -> Prop) w :
  reward_valid (w_state w) ->
  Q AdvanceStale w ->
  (forall a s', a <> AdvanceStale -> stepped (reward_ledger_canister_id expected) (reward (w_state w)) s' ->
     Q a (World ((w_state w) <| reward := s' |>) (w_trace w))) ->
  wp e (advance_expected_payout expected) Q w.
Proof using Type.
  intros Hv Hs Ha. unfold advance_expected_payout. apply wp_mutate.
  - destruct (advance_state_ok expected _ Hv) as [->|(a & s' & -> & _ & Hst)]; [apply Hv|apply Hst].
  - destruct (advance_state_ok expected _ Hv) as [E|(a & s' & E & Hne & Hst)]; rewrite E; cbn.
    + by destruct w as [[] t].
    + by apply Ha.
Qed.

Lemma run_state u w h : usage_ok u -> reward_valid h -> run u w u (World h (w_trace w)).
Proof using Type.
  intros Hu Hh. constructor; cbn; [done|done|lia|done|]. destruct w. eapply traced_state, traced_refl.
Qed.

Lemma pending_is_rounds payout s s' :
  pending_payout s = Some payout -> pending_is payout s' = true -> drive_rounds_needed s' = drive_rounds_needed s.
Proof using Type.
  intros Hs (p & Hp & (_ & _ & He & Ei)%payout_eqb_ok)%pending_is_Some. unfold drive_rounds_needed.
  rewrite Hs, Hp, Ei. by rewrite (recipients_eqb_length _ _ He).
Qed.

(** The end of a round: the drive ends, or goes on with a smaller payout. *)
Definition settled (payout : PendingRewardPayout) (w : world Heap SuiteCall)
    (x : PendingDriveResult + option string) (w' : world Heap SuiteCall) : Prop :=
  w_trace w' = w_trace w /\ reward_valid (w_state w') /\
  match x with
  | inl d => completed d = true -> pending_payout (reward (w_state w')) = None
  | inr _ => stepped (reward_ledger_canister_id payout) (reward (w_state w)) (reward (w_state w'))
  end.

Lemma wp_settle_advance payout abandonment w :
  reward_valid (w_state w) ->
  wp e (a ← advance_expected_payout payout;
        mret match a with AdvanceStale => inl DriveStale | _ => inr abandonment end) (settled payout w) w.
Proof using Type.
  intros Hv. apply wp_bind, wp_advance; [done| |].
  - by apply wp_ret.
  - intros a s' Ha Hst. apply wp_ret. unfold settled. cbn. split; [done|].
    split; [apply Hst|]. by destruct a.
Qed.

Lemma wp_settle payout o abandonment w :
  reward_valid (w_state w) -> wp e (settle_reward payout o abandonment) (settled payout w) w.
Proof using Type.
  intros Hv. unfold settle_reward. cbn zeta. destruct o; try by apply wp_settle_advance.
  apply wp_bind. unfold clear_expected_payout. apply wp_mutate; unfold clear_state.
  - destruct (pending_is _ _); [done|apply Hv].
  - destruct (pending_is _ _); apply wp_ret; unfold settled; cbn; [|done]. split; [done|]. by split.
Qed.

(** The whole drive. *)
Definition driven u w (x : PendingDriveResult * Usage) (w' : world Heap SuiteCall) : Prop :=
  run u w x.2 w' /\ (completed x.1 = true -> pending_payout (reward (w_state w')) = None).

Lemma driven_after u w u1 w1 x w' : run u w u1 w1 -> driven u1 w1 x w' -> driven u w x w'.
Proof using Type. intros H [H1 H2]. split; [by eapply run_ok_trans|done]. Qed.

Lemma wp_drive_loop fuel now_nanos ledger abandonment b u w :
  usage_ok u -> reward_valid (w_state w) ->
  (forall p, pending_payout (reward (w_state w)) = Some p -> reward_ledger_canister_id p = ledger) ->
  (drive_rounds_needed (reward (w_state w)) <= fuel)%nat ->
  wp e (drive_pending_loop fuel now_nanos ledger abandonment b u) (driven u w) w.
Proof using rely_valid LA.
  revert abandonment u w. induction fuel as [|fuel IH]; intros abandonment u w Hu Hv Hl Hf; cbn [drive_pending_loop].
  { unfold drive_rounds_needed in Hf. destruct (pending_payout _); lia. }
  apply wp_bind, wp_with_state, wp_bind, wp_or_else, awp_meter. intros live.
  match goal with |- context [work ?k] => set (n := k) end. assert (0 <= n) as Hn.
  { unfold n, pending_recipient_count. destruct (pending_payout _); lia. }
  destruct (spends_work n Hn live u Hu) as [Hu1 Hle]. destruct (work n live u) as [[[]|err] u1]; cbn in Hu1, Hle.
  2:{ apply wp_ret. split; [|done]. split; try done; [destruct Hle; cbn; lia|apply traced_refl]. }
  assert (run u w u1 w) as H1 by (split; try done; [destruct Hle; lia|apply traced_refl]).
  cbn [fst snd]. apply wp_bind, wp_with_state. destruct (pending_payout _) as [payout|] eqn:Ep.
  2:{ apply wp_ret. by destruct abandonment. }
  assert (exists r, recipients payout !! Z.to_nat (next_recipient_index payout) = Some r) as [r Hr].
  { apply lookup_lt_is_Some. destruct Hv as [Hv _]. unfold reward_state_valid in Hv. rewrite Ep in Hv.
    apply andb_true_iff in Hv as [Hn0 Hv]. apply negb_true_iff, Nat.eqb_neq in Hn0. zify_bool. lia. }
  rewrite Hr. specialize (Hl _ eq_refl). subst ledger.
  assert (forall a u2 w2, run u w u2 w2 ->
    stepped (reward_ledger_canister_id payout) (reward (w_state w)) (reward (w_state w2)) ->
    wp e (drive_pending_loop fuel now_nanos (reward_ledger_canister_id payout) a b u2) (driven u w) w2) as Hnext.
  { intros a u2 w2 H2 (_ & Hl2 & Hf2). eapply wp_mono; [apply IH; [by destruct H2|by destruct H2|done|lia]|].
    intros x w3. by apply driven_after. }
  destruct (created_at_time_is_valid _ _); cbn [negb].
  - apply wp_bind. eapply wp_mono; [by apply wp_attempt_reward|].
    intros [[d|o] u2] w2 [H2 Ho]; cbn in H2, Ho.
    + apply wp_ret. split; [by eapply run_ok_trans|]. cbn. by rewrite Ho.
    + assert (run u w u2 w2) as H2' by (by eapply run_ok_trans). apply wp_bind.
      eapply wp_mono; [apply wp_settle; by destruct H2|]. intros x w3 (Et & Hv3 & Hx).
      assert (run u w u2 w3) as H3.
      { eapply run_ok_trans; [exact H2'|]. destruct w3 as [h3 t3]. cbn in Et. subst t3.
        apply run_state; [by destruct H2|done]. }
      destruct x as [d|a]; [apply wp_ret; by split|].
      eapply Hnext; [done|]. destruct Hx as (? & ? & Hlt). rewrite (pending_is_rounds _ _ _ Ep Ho) in Hlt. done.
  - apply wp_bind, wp_advance; [done|by apply wp_ret|].
    intros a s' Ha Hst. destruct a; [| |done]; (eapply Hnext; [|exact Hst]);
      (eapply run_ok_trans; [exact H1|]); apply run_state; try done; apply Hst.
Qed.

Lemma wp_drive_pending now_nanos b u w :
  usage_ok u -> reward_valid (w_state w) -> wp e (drive_pending now_nanos b u) (driven u w) w.
Proof using rely_valid LA.
  intros Hu Hv. unfold drive_pending. apply wp_bind, wp_with_state. unfold scheduler_status. cbn [snd].
  destruct (pending_payout (reward (w_state w))) as [p|] eqn:Ep; cbn [fmap option_fmap option_map].
  - unfold drive_pending_bounded. apply wp_bind, wp_with_state, wp_drive_loop; [done..| |done].
    rewrite Ep. by intros ? [= <-].
  - apply wp_ret. unfold driven. cbn [fst snd]. split; [apply run_ok_refl; done|done].
Qed.

End drive.

(** C33: The drive of a pinned payout returns, whatever the ledger answers and
    whatever other messages do to the pinned payout while a transfer is
    outstanding, and it is safe: every transfer that it sends pays the recipient
    that is pinned next at that moment, with the pinned amount, memo, time and fee;
    it sends no more calls than its allowance is charged for; the state that is
    stored stays valid; and it reports completion only when no payout is left. *)
Theorem pinned_drive_safe `{P : PrincipalSpec} `{A : !AccountSpec} `{LA : !AccountLaws} `{T : TextSpec}
    (e : env Heap SuiteCall) (now_nanos : Z) (b : WorkBudget) (u : Usage) (w : world Heap SuiteCall)
    (Hrely : forall n h, reward_valid h -> reward_valid (env_interleave e n h))
    (Hu : usage_ok u) (Hvalid : reward_valid (w_state w)) :
  exists r u' w', drive_pending now_nanos b u e w = (Returned (r, u'), w') /\
    usage_ok u' /\ reward_valid (w_state w') /\ traced reward_event (w_trace w) w' /\
    Z.of_nat (length (w_trace w')) - Z.of_nat (length (w_trace w)) <= calls u' - calls u /\
    (completed r = true -> pending_payout (reward (w_state w')) = None).
Proof.
  pose proof (wp_drive_pending e Hrely now_nanos b u w Hu Hvalid) as Hw. unfold wp in Hw.
  destruct (drive_pending now_nanos b u e w) as [[[r u']| |] w'] eqn:E; [|done..].
  destruct Hw as [[H1 _ H3 H4 H5] Hc]. by exists r, u', w'.
Qed.

(** ** Witness *)

Section witness.
Import Concrete ConcreteTexts ConcreteRelay.
Local Abbreviation PS := concrete_principal.

Definition payout0 : PendingRewardPayout (P:=PS) :=
  MkRewardPayout (P:=PS) 12 2 10
    [MkRewardRecipient (MkAccount PS 42 None) 500 [1] 900; MkRewardRecipient (MkAccount PS 43 None) 700 [2] 900] 0.
Definition pinned_heap : Heap (P:=PS) :=
  (heap0 <| st ::= fun s => s <| main_lock_state_ts := Some 900 |> |>)
    <| reward := MkRewardState 0 (Some payout0) |>.

Lemma pinned_heap_valid : reward_valid pinned_heap.
Proof. split; [reflexivity|]. intros p [= <-]. cbn. lia. Qed.

(** Both recipients are paid. *)
Lemma pinned_drive_safe_witness :
  (let run := drive_pending 1000 (budget_new 1000 900) Usage_default (quiet_env 1000 0 10) (World pinned_heap []) in
   run.2.(w_trace) !! 0%nat
   = Some (Dispatch (IcrcTransfer (12 : Principal (PrincipalSpec:=PS))
             (MkTransferArg PS None (MkAccount PS 43 None) (Some 10) (Some 900) (Some [2]) 700))
             (pinned_heap <| reward := MkRewardState 0 (Some (payout0 <| next_recipient_index := 1 |>)) |>)) /\
   length run.2.(w_trace) = 2%nat) /\
  exists r u' w', drive_pending 1000 (budget_new 1000 900) Usage_default (quiet_env 1000 0 10) (World pinned_heap [])
    = (Returned (r, u'), w') /\ usage_ok u'.
Proof.
  split; [by vm_compute|].
  destruct (pinned_drive_safe (quiet_env 1000 0 10) 1000 (budget_new 1000 900) Usage_default (World pinned_heap [])
    ltac:(done) usage_default_ok pinned_heap_valid) as (r & u' & w' & E & Hu & _).
  exists r, u', w'. split; [exact E|exact Hu].
Defined.
End witness.
