(* ===== verification/RewardRun.v ===== *)
(** * Relay rewards: one run of the sweep

    The composition of [scheduler/reward_sweep.rs]: the run that the relay's tick
    and its timer start reads the reward context, the pot, its age and the relay's
    commitments, pins a payout and drives it. *)

From S2P Require Import Prelude BTree Async Ic Accounts Clients CyclesProbe TimerGuard RelayState RelayLogic RelaySplitter RewardBudget RewardHistory RewardSplitter RewardTokenHistory RewardProvenance RewardSweep RewardAttribution RewardPot RewardPayout.

Section run.
Context `{P : PrincipalSpec} `{O : !OrdSpec Principal} `{L : !OrdLaws Principal} `{A : !AccountSpec}
  `{LA : !AccountLaws} `{T : TextSpec} `{H : HashSpec} `{C : !CandidSpec}.
#[local] Existing Instance Principal_eq_dec.
Context (relay_id : Principal) (e : env Heap SuiteCall).
Hypothesis rely_valid : forall n h, reward_valid h -> reward_valid (env_interleave e n h).
Hypothesis typed : forall n index account start k page,
  env_reply e n _ (GetTransactions index account start k) = Ok (Ok page) -> Forall amounts_ok (transactions page).
Hypothesis typed_icrc : forall n index account start k page,
  env_reply e n _ (GetAccountTransactions index account start k) = Ok (Ok page) ->
  Forall icrc_amounts_ok (icrc_transactions page).
Implicit Types w : world Heap SuiteCall.
Abbreviation run := (run_ok reward_valid reward_event).
Abbreviation attempts := (attempts e reward_valid reward_event).
Abbreviation one_call := (one_call e reward_valid reward_event).

Lemma reads_allowed X (c : SuiteCall X) h : is_read c = true -> reward_event (Dispatch c h).
Proof using Type. by destruct c. Qed.

(** *** The reads *)

Lemma one_read {X Y} (c : SuiteCall X) (f : X -> Y) :
  is_read c = true -> one_call (r ← await c; mret (f r)) (fun _ => True).
Proof using rely_valid.
  intros Hc. eapply one_call_map; [|done]. apply one_call_await; [done|]. intros h. by apply reads_allowed.
Qed.

Lemma attempts_read {X Y} u (c : SuiteCall X) (f : X -> result Y ClientError) err :
  is_read c = true -> attempts u (call_or (r ← await c; mret (f r)) err) (fun _ _ => True).
Proof using rely_valid.
  intros Hc. eapply attempts_mono; [apply (attempts_call_or _ _ _ _ _ _ (fun _ => True))|done].
  intros w Hi. eapply wp_mono; [by apply one_read|]. intros r w' (? & ? & ? & _). done.
Qed.

Lemma attempts_of_result {X} u (r : result X string) (R : X -> Usage -> Prop) :
  (forall x, r = Ok x -> R x u) -> attempts u (of_result r) R.
Proof using Type. intros HR. destruct r; [by apply attempts_ret, HR|apply attempts_throw]. Qed.

Lemma attempts_lift {X} u (m : async Heap SuiteCall X) (R : X -> Usage -> Prop) :
  (forall w, reward_valid (w_state w) ->
     wp e m (fun x w' => w_trace w' = w_trace w /\ reward_valid (w_state w') /\ R x u) w) ->
  attempts u (lift m) R.
Proof using Type.
  intros Hm b w Hu Hi. apply awp_lift. eapply wp_mono; [by apply Hm|].
  intros x [h t] (Et & Hv & HR). cbn in Et, Hv. subst t.
  split; [by apply run_state|]. by intros ? [= <-].
Qed.

Lemma attempts_resolve_reward_index u context :
  attempts u (resolve_reward_index context) (fun _ _ => True).
Proof using rely_valid.
  unfold resolve_reward_index. eapply attempts_bind; [by apply attempts_read|]. intros components u1 _ _ _.
  eapply attempts_bind with (R := fun _ _ => True); [by apply attempts_of_result|]. intros index u2 _ _ _.
  eapply attempts_bind; [by apply attempts_read|]. intros ledger u3 _ _ _.
  destruct (negb _); [apply attempts_throw|by apply attempts_ret].
Qed.

(** The candidate attributes a commitment of the relay to its owners. *)
Lemma attempts_attribute_pot u cfg context balance :
  attempts u (attribute_pot relay_id cfg context balance) (fun _ _ => True).
Proof using rely_valid typed typed_icrc L.
  unfold attribute_pot. eapply attempts_bind; [apply attempts_resolve_reward_index|]. intros index u1 Hu1 _ _.
  eapply attempts_bind.
  { apply (attempts_pot_cutoffs icrc_amounts_ok e _ _ rely_valid); [|apply typed_icrc|done|done].
    intros. by apply reads_allowed. }
  intros cutoffs u2 _ _ _. cbn zeta. eapply attempts_bind; [by apply attempts_read|]. intros len u3 _ _ _.
  eapply attempts_bind; [by apply attempts_read|]. intros synced u4 _ _ _.
  eapply attempts_bind with (R := fun _ _ => True); [by apply attempts_of_result|]. intros [] u5 _ _ _.
  eapply attempts_bind; [by apply attempts_read|]. intros staking u6 _ _ _.
  eapply attempts_bind with (R := fun _ _ => True); [by apply attempts_of_option|]. intros memo u7 Hu7 _ _.
  eapply attempts_mono; [|done].
  apply (attempts_find e _ _ rely_valid) with (tx_ok := amounts_ok) (known := fun _ => True); [|done| |apply typed|done].
  - intros X c h. apply reads_allowed.
  - intros entry _. unfold sender_known. by destruct (tx_operation _).
Qed.

Lemma attempts_read_pot u cfg now_nanos : attempts u (read_pot relay_id cfg now_nanos) (fun _ _ => True).
Proof using rely_valid.
  unfold read_pot. eapply attempts_bind; [by apply attempts_read|]. intros context u1 _ _ _.
  eapply attempts_bind with (R := fun _ _ => True); [by apply attempts_of_option|]. intros context' u2 _ _ _.
  destruct (_ <? _); [apply attempts_throw|].
  eapply attempts_bind; [by apply attempts_read|]. intros balance u3 _ _ _.
  eapply attempts_bind; [by apply attempts_read|]. intros fee u4 _ _ _.
  by apply attempts_ret.
Qed.

(** *** The plan *)

Lemma build_pending_payout_ok context id fee allocations now_nanos p s :
  build_pending_payout context id fee allocations now_nanos = Ok p ->
  reward_ok (s <| pending_payout := Some p |>).
Proof using Type.
  unfold build_pending_payout. destruct (reward_recipients _ _ _ _) as [[|r l]|]; [done| |done].
  intros [= <-]. split; [reflexivity|]. intros ? [= <-]. done.
Qed.

Lemma attempts_plan u now_nanos :
  attempts u (plan_payout relay_id now_nanos) (fun pending _ =>
    forall p s, pending = Some p -> reward_ok (s <| pending_payout := Some p |>)).
Proof using rely_valid typed typed_icrc L.
  unfold plan_payout. eapply attempts_bind with (R := fun _ _ => True).
  { apply attempts_lift. intros w Hv. by apply wp_with_state. }
  intros cfg u1 _ _ _. eapply attempts_bind; [apply attempts_read_pot|].
  intros [context pot] u2 _ _ _. destruct pot as [[balance fee]|]; [|by apply attempts_ret].
  eapply attempts_bind; [apply attempts_attribute_pot|]. intros candidate u3 _ _ _.
  destruct candidate as [candidate|]; [|by apply attempts_ret].
  eapply attempts_bind with (R := fun _ _ => True); [by apply attempts_of_result|]. intros total u4 _ _ _.
  destruct (proportional_reward_allocations _ _ _) as [allocations|]; [|by apply attempts_ret].
  eapply attempts_bind with (R := fun p _ => forall s, reward_ok (s <| pending_payout := Some p |>)).
  { apply attempts_of_result. intros p Hp s. by eapply build_pending_payout_ok. }
  intros p u5 _ _ Hp. apply attempts_ret. intros ? s [= <-]. apply Hp.
Qed.

(** *** The cadence and the pinning *)

(** A step without calls that keeps the stored state valid. *)
Definition keeps {X} (m : async Heap SuiteCall X) : Prop :=
  forall w, reward_valid (w_state w) ->
    wp e m (fun _ w' => w_trace w' = w_trace w /\ reward_valid (w_state w')) w.

Lemma keeps_mutate {X} (f : RewardState -> X * RewardState) :
  (forall s, reward_ok s -> reward_ok (f s).2) -> keeps (reward_mutate f).
Proof using Type. intros Hf w Hv. apply wp_mutate; [by apply Hf|]. split; [done|]. by apply Hf. Qed.

Lemma keeps_ret {X} (x : X) : keeps (mret x).
Proof using Type. by intros w Hv. Qed.

Lemma keeps_record_pinned r now_secs : keeps (record_pinned_payout_result r now_secs).
Proof using Type.
  unfold record_pinned_payout_result. destruct (sweep_disposition r); [|apply keeps_ret].
  apply keeps_mutate. by intros s [Hv Hi].
Qed.

Lemma keeps_record_disposition d now_secs g : keeps (record_sweep_disposition_if_current d now_secs g).
Proof using Type.
  intros w Hv. unfold record_sweep_disposition_if_current. apply wp_bind, wp_with_state.
  destruct (_ && _); [|by apply keeps_ret]. apply keeps_mutate; [|done].
  intros s [Hs Hi]. by destruct (_ =? _).
Qed.

Lemma keeps_install g p :
  (forall s, reward_ok (s <| pending_payout := Some p |>)) -> keeps (install_pending_if_current g p).
Proof using Type.
  intros Hp w Hv. unfold install_pending_if_current. apply wp_bind, wp_with_state.
  destruct (negb _); [by apply keeps_ret|]. apply keeps_mutate; [|done].
  intros s Hs. destruct (_ || _); [done|apply Hp].
Qed.

Lemma run_keeps u w w' : usage_ok u -> w_trace w' = w_trace w -> reward_valid (w_state w') -> run u w u w'.
Proof using Type. destruct w' as [h t]. cbn. intros Hu -> Hv. by apply run_state. Qed.

(** The drive with its cadence. *)
Lemma wp_drive_recorded {X} now_nanos now_secs b u (k : PendingDriveResult * Usage -> async Heap SuiteCall X) Q w :
  usage_ok u -> reward_valid (w_state w) ->
  (forall r w', run u w r.2 w' -> wp e (k r) Q w') ->
  wp e (r ← drive_pending now_nanos b u; record_pinned_payout_result r.1 now_secs;; k r) Q w.
Proof using rely_valid LA.
  intros Hu Hv Hk. apply wp_bind. eapply wp_mono; [by apply wp_drive_pending|]. intros r w1 [H1 _].
  apply wp_bind. eapply wp_mono; [apply keeps_record_pinned; by destruct H1|]. intros [] w2 [Et Hv2].
  apply Hk. eapply run_ok_trans; [exact H1|]. apply run_keeps; [by destruct H1|done|done].
Qed.

Lemma attempts_adjudicate u now_nanos now_secs g :
  attempts u (adjudicate relay_id now_nanos now_secs g) (fun _ _ => True).
Proof using rely_valid typed typed_icrc L LA.
  unfold adjudicate. eapply attempts_bind; [apply attempts_plan|]. intros [p|] u1 _ _ Hp; [|by apply attempts_ret].
  eapply attempts_bind with (R := fun _ _ => True).
  { apply attempts_lift. intros w Hv. eapply wp_mono; [apply keeps_install; [by intros s; apply Hp|done]|].
    intros x w' [? ?]. done. }
  intros installed u2 _ _ _. destruct (negb _); [by apply attempts_ret|].
  intros b w Hu Hv. unfold awp, drive_installed. apply wp_drive_recorded; [done|done|].
  intros r w' Hr. apply wp_ret. by split.
Qed.

(** *** The run and its continuation *)

Lemma wp_process now_nanos now_secs force lease w :
  reward_valid (w_state w) ->
  wp e (process relay_id now_nanos now_secs force lease) (fun r w' =>
    exists u', run Usage_default w u' w') w.
Proof using rely_valid typed typed_icrc L LA.
  intros Hv. unfold process. apply wp_bind, wp_now. apply wp_bind, wp_with_state. cbn zeta.
  pose proof usage_default_ok as Hu. destruct (is_some _).
  - apply wp_drive_recorded; [done|done|]. intros r w' Hr. apply wp_bind, wp_with_state, wp_ret. by exists r.2.
  - destruct (negb _); [apply wp_ret; exists Usage_default; by apply run_ok_refl|].
    apply wp_bind. eapply wp_mono; [by apply attempts_adjudicate|]. intros r w1 [H1 _].
    apply wp_bind. eapply wp_mono; [apply keeps_record_disposition; by destruct H1|]. intros [] w2 [Et Hv2].
    apply wp_with_state. exists r.2. eapply run_ok_trans; [exact H1|].
    apply run_keeps; [by destruct H1|done|done].
Qed.

End run.

(** C8: One run of the reward sweep returns, whatever the ledgers, the indexes, the
    governance and the rewards canister answer and whatever other messages do to
    the relay's state meanwhile; it makes at most 64 calls; the only tokens it
    moves are the rewards of the payout that is pinned at that moment, to the
    recipient whose turn it is; and it keeps the stored state valid. *)
Theorem reward_run_safe `{P : PrincipalSpec} `{O : !OrdSpec Principal} `{L : !OrdLaws Principal}
    `{A : !AccountSpec} `{LA : !AccountLaws} `{T : TextSpec} `{H : HashSpec} `{C : !CandidSpec}
    (relay_id : Principal) (e : env Heap SuiteCall) (now_nanos now_secs : Z) (force : bool) (lease : MainLeaseToken)
    (w : world Heap SuiteCall)
    (Hrely : forall n h, reward_valid h -> reward_valid (env_interleave e n h))
    (Htyped : forall n index account start k page,
      env_reply e n _ (GetTransactions index account start k) = Ok (Ok page) ->
      Forall amounts_ok (transactions page))
    (Htyped_icrc : forall n index account start k page,
      env_reply e n _ (GetAccountTransactions index account start k) = Ok (Ok page) ->
      Forall icrc_amounts_ok (icrc_transactions page))
    (Hvalid : reward_valid (w_state w)) :
  exists continues w', process relay_id now_nanos now_secs force lease e w = (Returned continues, w') /\
    Z.of_nat (length (w_trace w')) <= Z.of_nat (length (w_trace w)) + 64 /\
    traced reward_event (w_trace w) w' /\ reward_valid (w_state w').
Proof.
  pose proof (wp_process relay_id e Hrely Htyped Htyped_icrc now_nanos now_secs force lease w Hvalid) as Hw.
  unfold wp in Hw. destruct (process relay_id now_nanos now_secs force lease e w) as [[c| |] w'] eqn:E; [|done..].
  destruct Hw as (u' & [H1 _ H3 H4 H5]). exists c, w'. split; [done|]. split; [|done].
  destruct H1 as ([_ Hc] & _). unfold MAX_CALLS in Hc. cbn in H3. lia.
Qed.

(** ** Witness *)

Section witness.
Import Concrete ConcreteTexts ConcreteRelay ConcreteCandid ConcreteHash.
Local Abbreviation PS := concrete_principal.

(** Principal 42 funded a commitment of relay 7 before the pot was credited. *)
Let relay_text : list Z := account_identifier_text (P:=PS) 7 (Some relay_subaccount_one).
Let commitment_page : IndexPage :=
  MkIndexPage 0 (Some 1)
    [MkTxWithId 2 (MkIndexTransaction 0 (relay_faucet_commitment_memo (P:=PS) 7)
       (IndexTransfer relay_text (account_identifier_text (P:=PS) 7 (Some (replicate 32 1))) 100000000 10000 None)
       (Some 200) None);
     MkTxWithId 1 (MkIndexTransaction 0 None
       (IndexTransfer (account_identifier_text (P:=PS) 42 None) relay_text 100010000 10000 None) (Some 100) None)].
Let pot_page : GetAccountTransactionsResponse :=
  MkIcrcPage PS 100000 [MkIcrcTxWithId PS 1 (MkIcrcTransaction PS "1mint"
    (Some (MkIcrcMint PS 100000 (MkAccount PS 7 None) None)) None None None false None None 500)] (Some 1).
Let run_env : env (Heap (P:=PS)) SuiteCall := {|
  env_reply := fun _ X c => match c in SuiteCall Y return Y -> Y with
    | GetTransactions _ _ _ _ => fun _ => Ok (Ok commitment_page)
    | GetAccountTransactions _ _ _ _ => fun _ => Ok (Ok pot_page)
    | GetRelayRewardContext _ => fun _ => Ok (Some (MkRewardContext PS 20 21 12 1 600 700))
    | ListSnsCanisters _ => fun _ => Ok (MkSnsCanisters PS (Some 20) (Some 21) (Some 12) None (Some 11) [] [] None)
    | IcrcIndexLedgerId _ => fun _ => Ok (12 : Principal (PrincipalSpec:=PS))
    | ResolveDefaultIcpAccounts _ _ accounts =>
        fun _ => Ok (Resolved (map (fun _ => Some (42 : Principal (PrincipalSpec:=PS))) accounts))
    | _ => fun r => r
    end (reply_ok 100000 10 c);
  env_interleave := fun _ h => h;
  env_clock := fun _ => 1000;
|}.
Let heap1 : Heap (P:=PS) := heap0 <| st ::= fun s => s <| main_lock_state_ts := Some 900 |> |>.
Let run0 := process (7 : Principal (PrincipalSpec:=PS)) 1000 1 true 900 run_env (World heap1 []).
Let sent : option (event (Heap (P:=PS)) SuiteCall) := head (w_trace run0.2).
Definition last_transfer (ev : option (event (Heap (P:=PS)) SuiteCall)) : option (Principal (PrincipalSpec:=PS) * Z) :=
  match ev with
  | Some (Dispatch c h) => match c with IcrcTransfer ledger arg => Some (ledger, amount arg) | _ => None end
  | None => None
  end.

Lemma run_env_typed n index account start k page :
  env_reply run_env n _ (GetTransactions index account start k) = Ok (Ok page) -> Forall amounts_ok (transactions page).
Proof. intros [= <-]. repeat constructor; unfold u64; cbn; lia. Qed.

Lemma run_env_typed_icrc n index account start k page :
  env_reply run_env n _ (GetAccountTransactions index account start k) = Ok (Ok page) ->
  Forall icrc_amounts_ok (icrc_transactions page).
Proof.
  intros [= <-]. constructor; [|constructor]. split; [intros m [= <-]; cbn; lia|]. split; by intros x [=].
Qed.

Lemma heap1_valid : reward_valid heap1.
Proof. split; [reflexivity|]. by intros p [=]. Qed.

(** The run finds the commitment, pins its only owner and pays the pot less the fee. *)
Lemma reward_run_safe_witness :
  (run0.1, last_transfer sent) = (Returned false, Some (12, 99990)) /\
  exists continues w', process (7 : Principal (PrincipalSpec:=PS)) 1000 1 true 900 run_env (World heap1 [])
    = (Returned continues, w') /\ reward_valid (w_state w').
Proof.
  split; [by vm_compute|].
  destruct (reward_run_safe (7 : Principal (PrincipalSpec:=PS)) run_env 1000 1 true 900 (World heap1 [])
    ltac:(done) run_env_typed run_env_typed_icrc heap1_valid) as (c & w' & E & _ & _ & Hv).
  exists c, w'. split; [exact E|exact Hv].
Defined.
End witness.
