(* ===== verification/RelayTick.v ===== *)
(** * Relay: the main tick and pokes

    [canisters/relay/src/scheduler/tick.rs] (main tick, funding pipeline, faucet
    commitment plan, timers) and [scheduler/poke.rs].  The stages of a
    tick run in order under the main lease: splitters, faucet commitment, job,
    and the optional reward sweep.  Log lines, Candid and the debug API are not
    modelled. *)

From S2P Require Import Prelude BTree Async Ic Accounts Clients TimerGuard CyclesProbe RelayState RelayLogic RelaySplitter RelayTransfer RelayJob RewardBudget RewardHistory RewardSplitter RewardTokenHistory RewardSweep.

Section tick.
Context `{P : PrincipalSpec} `{O : !OrdSpec Principal} `{I : !ProbeIds} `{A : !AccountSpec} `{T : TextSpec}
  `{H : HashSpec} `{C : !CandidSpec}.
(** [canister_self], [canister_cycle_balance], and the constants of the build. *)
Context (relay_id : Principal) (relay_cycles : Z) (sns_wasm_id : Principal)
  (configured_root : option Principal).
#[local] Existing Instance Principal_eq_dec.
Local Abbreviation async := (async Heap SuiteCall).

Definition SCHEDULED_MAIN_RETRY_SECONDS : Z := 60.
Definition SPLITTER_MAIN_CONTINUATION_BUSY_RETRY_SECONDS : Z := 60.

Inductive MainTickOutcome :=
| TickCompleted | MainGuardBusy | SplitterGuardBusy | SplitterPaused | NotDue (retry_after_seconds : Z).
#[export] Instance MainTickOutcome_eq_dec : EqDecision MainTickOutcome.
Proof. solve_decision. Defined.

Inductive FundingPipelineOutcome :=
| PipelineCompleted | MainLeaseLost | PipelineSplitterBusy | SplitterUnresolved | SplitterQuarantined
| DebugStopped.

(** The remote canisters of a tick. *)
Record Remotes := MkRemotes { ledger : Principal; cmc : Principal; governance : Principal }.
Definition remotes (cfg : Config) : Remotes :=
  MkRemotes (ledger_canister_id cfg) (cmc_canister_id cfg) (governance_canister_id cfg).

(** ** The faucet commitment *)

Definition store_commitment (lease : MainLeaseToken) (expected_next_job_id now_nanos : Z)
    (p : FaucetCommitmentPlan) (h : Heap) : Heap :=
  if negb (lease_is_current lease (st h))
     || is_some (active_faucet_commitment_transfer (st h))
     || negb (next_job_id (st h) =? expected_next_job_id)
  then h
  else upd (fun s => s <| active_faucet_commitment_transfer := Some
    (MkFaucetCommitment
       (MkPending
          (FaucetCommitment faucet_neuron_id (cp_destination_account p) relay_subaccount_one (cp_memo p))
          (cp_balance_start_e8s p) (cp_amount_e8s p) now_nanos AwaitingTransfer)
       (cp_fee_e8s p) (cp_balance_start_e8s p)) |>) h.

Definition plan_faucet_commitment_with_self_with_lease (r : Remotes) (now_nanos : Z)
    (lease : MainLeaseToken) : async unit :=
  s ← with_state st;
  if is_some (active_faucet_commitment_transfer s) then mret tt
  else
    fee ← resolve_icp_ledger_fee_e8s (ledger r);
    balance ← balance_of_e8s (ledger r) (relay_subaccount_one_account relay_id);
    match balance with
    | Err _ => mret tt
    | Ok balance =>
        let build sub :=
          build_faucet_commitment_plan relay_id (governance_canister_id (config s)) sub balance fee in
        match build (replicate 32 0) with
        | Err _ => mret tt
        | Ok _ =>
            sub ← neuron_staking_subaccount (governance r) faucet_neuron_id;
            match sub with
            | Err _ => mret tt
            | Ok sub =>
                match build sub with
                | Err _ => mret tt
                | Ok p => modify (store_commitment lease (next_job_id s) now_nanos p)
                end
            end
        end
    end.

Definition resume_or_start_faucet_commitment_with_self (r : Remotes) (now_nanos : Z)
    (lease : MainLeaseToken) : async bool :=
  none ← with_state (fun h => is_none (active_faucet_commitment_transfer (st h)));
  (if none : bool then plan_faucet_commitment_with_self_with_lease r now_nanos lease else mret tt);;
  current ← with_state (fun h => lease_is_current lease (st h));
  if negb (current : bool) then mret true
  else Transfer.drive_pending_faucet_commitment_transfer (ledger r) now_nanos.

(** ** The funding pipeline *)

Definition pipeline_of_stage (r : MainStageResult) : option FundingPipelineOutcome :=
  match r with
  | StageReady => None
  | GuardBusy => Some PipelineSplitterBusy
  | StageUnresolved => Some SplitterUnresolved
  | StageQuarantined => Some SplitterQuarantined
  end.

Definition run_reactive_funding_stages_with_clients (r : Remotes) (now_nanos now_secs : Z)
    (lease : MainLeaseToken) : async FundingPipelineOutcome :=
  stage ← process_main_stage relay_id (ledger r) now_nanos now_secs;
  current ← with_state (fun h => lease_is_current lease (st h));
  if negb (current : bool) then mret MainLeaseLost
  else
    match pipeline_of_stage stage with
    | Some outcome => mret outcome
    | None =>
        ok ← resume_or_start_faucet_commitment_with_self r now_nanos lease;
        if negb (ok : bool) then mret DebugStopped
        else
          current ← with_state (fun h => lease_is_current lease (st h));
          mret (if current : bool then PipelineCompleted else MainLeaseLost)
    end.

Definition resume_existing_job_with_self (r : Remotes) (now_nanos : Z) (lease : MainLeaseToken) :
    async FundingPipelineOutcome :=
  none ← with_state (fun h => is_none (active_job (st h)));
  if none : bool then mret PipelineCompleted
  else
    ok ← RelayJob.drive_active_job (ledger r) (cmc r) (governance r) now_nanos lease;
    if negb (ok : bool) then mret DebugStopped
    else
      current ← with_state (fun h => lease_is_current lease (st h));
      mret (if current : bool then PipelineCompleted else MainLeaseLost).

(** The probe client of a tick. *)
Definition tick_probe : CyclesProbeClient Heap :=
  IcCyclesProbeClient configured_root sns_wasm_id relay_id relay_cycles.

Definition resume_or_start_job_with_self (r : Remotes) (now_nanos : Z) (lease : MainLeaseToken) :
    async bool :=
  none ← with_state (fun h => is_none (active_job (st h)));
  (if none : bool
   then start_job_with_self_with_lease tick_probe (ledger r) (cmc r) relay_id relay_cycles now_nanos lease
   else mret tt);;
  current ← with_state (fun h => lease_is_current lease (st h));
  if negb (current : bool) then mret true
  else RelayJob.drive_active_job (ledger r) (cmc r) (governance r) now_nanos lease.

Definition is_completed (o : FundingPipelineOutcome) : bool :=
  match o with PipelineCompleted => true | _ => false end.

Definition run_funding_pipeline_with_clients (r : Remotes) (now_nanos now_secs : Z)
    (lease : MainLeaseToken) : async FundingPipelineOutcome :=
  reactive ← run_reactive_funding_stages_with_clients r now_nanos now_secs lease;
  if negb (is_completed reactive) then mret reactive
  else
    ok ← resume_or_start_job_with_self r now_nanos lease;
    if negb (ok : bool) then mret DebugStopped
    else
      current ← with_state (fun h => lease_is_current lease (st h));
      if negb (current : bool) then mret MainLeaseLost
      else modify clear_splitter_main_continuation_request;; mret PipelineCompleted.

Definition run_poke_funding_with_clients (r : Remotes) (now_nanos now_secs : Z) :
    async FundingPipelineOutcome :=
  g ← with_state_mut (main_acquire now_secs);
  match g with
  | None => mret MainLeaseLost
  | Some guard =>
      let lease := main_lease_token guard in
      reactive ← run_reactive_funding_stages_with_clients r now_nanos now_secs lease;
      outcome ← (if is_completed reactive then resume_existing_job_with_self r now_nanos lease
                 else mret reactive);
      (if is_completed outcome then modify clear_splitter_main_continuation_request else mret tt);;
      modify (main_release guard);;
      mret outcome
  end.

(** ** The main tick *)

(** Whether the tick waits, and for how long. *)
Definition not_due (force : bool) (now_secs : Z) (s : State) : option Z :=
  let min_gap := sat_sub (main_interval_seconds (config s)) 60 in
  let elapsed := sat_sub now_secs (last_main_run_ts s) in
  if negb force && (elapsed <? min_gap) then Some (min_gap - elapsed) else None.

(** The end of a completed pipeline: progress is recorded before the rewards. *)
Definition finish_tick (guard : MainGuard) (now_secs : Z) : async MainTickOutcome :=
  modify (record_core_progress guard now_secs);;
  reward_now ← now;
  continues ← process relay_id reward_now (reward_now / 1000000000) false (main_lease_token guard);
  if continues : bool then
    modify (set_timer (RewardContinuation 1 (main_inner guard)));; mret TickCompleted
  else modify (main_finish guard now_secs);; mret TickCompleted.

Definition run_main_tick_with_clients_for_relay (force : bool) (r : Remotes) (now_nanos now_secs : Z) :
    async MainTickOutcome :=
  g ← with_state_mut (main_acquire now_secs);
  match g with
  | None => mret MainGuardBusy
  | Some guard =>
      wait ← with_state (fun h => not_due force now_secs (st h));
      match wait with
      | Some seconds => modify (main_release guard);; mret (NotDue seconds)
      | None =>
          current ← with_state (main_is_current guard);
          if negb (current : bool) then modify (main_release guard);; mret TickCompleted
          else
            outcome ← run_funding_pipeline_with_clients r now_nanos now_secs (main_lease_token guard);
            match outcome with
            | PipelineCompleted => finish_tick guard now_secs
            | MainLeaseLost => modify (main_release guard);; mret TickCompleted
            | PipelineSplitterBusy =>
                modify request_splitter_main_continuation;;
                modify (main_release guard);; mret SplitterGuardBusy
            | SplitterUnresolved =>
                modify request_splitter_main_continuation;;
                modify (main_release guard);; mret SplitterPaused
            | SplitterQuarantined =>
                modify request_splitter_main_continuation;;
                modify (main_release guard);;
                modify schedule_splitter_main_continuation_if_requested;;
                mret SplitterPaused
            | DebugStopped => modify (main_finish guard now_secs);; mret TickCompleted
            end
      end
  end.

Definition main_tick (force : bool) (splitter_busy_retry_delay : option Z) : async MainTickOutcome :=
  now_nanos ← now;
  cfg ← with_state (fun h => config (st h));
  outcome ← run_main_tick_with_clients_for_relay force (remotes cfg) now_nanos (now_nanos / 1000000000);
  match outcome, splitter_busy_retry_delay with
  | SplitterGuardBusy, Some delay => modify (schedule_splitter_main_continuation_after delay)
  | _, _ => mret tt
  end;;
  mret outcome.

(** ** Timers *)

Definition schedule_scheduled_main_retry (delay_seconds : Z) (h : Heap) : Heap :=
  if scheduled_main_retry_pending h then h
  else set_timer (MainRetry (Z.max delay_seconds 1)) (h <| scheduled_main_retry_pending := true |>).

Definition clear_scheduled_main_retry (h : Heap) : Heap := h <| scheduled_main_retry_pending := false |>.

Definition scheduled_main_tick : async unit :=
  outcome ← main_tick false (Some SPLITTER_MAIN_CONTINUATION_DELAY_SECONDS);
  match outcome with
  | MainGuardBusy => modify (schedule_scheduled_main_retry SCHEDULED_MAIN_RETRY_SECONDS)
  | NotDue seconds => modify (schedule_scheduled_main_retry seconds)
  | _ => mret tt
  end.

(** The callbacks of [MainRetry] and [SplitterContinuation]. *)
Definition main_retry_fires : async unit :=
  modify clear_scheduled_main_retry;;
  scheduled_main_tick.

Definition continuation_fires : async unit :=
  should_run ← with_state_mut (fun h =>
    (splitter_main_continuation_requested (st h),
     upd (fun s => s <| splitter_main_continuation_timer_pending := false |>) h));
  if negb (should_run : bool) then mret tt
  else
    outcome ← main_tick false None;
    match outcome with
    | MainGuardBusy | SplitterGuardBusy =>
        modify (schedule_splitter_main_continuation_after SPLITTER_MAIN_CONTINUATION_BUSY_RETRY_SECONDS)
    | _ => mret tt
    end.

Definition retry_active_splitter : async unit :=
  active ← with_state get_active_job;
  match active with
  | None => mret tt
  | Some _ =>
      now_nanos ← now;
      l ← with_state (fun h => ledger_canister_id (config (st h)));
      retry_active_splitter_with_client relay_id l now_nanos (now_nanos / 1000000000);;
      mret tt
  end.

Definition install_timers (h : Heap) : Heap :=
  set_timer (SplitterRetryInterval SPLITTER_RETRY_INTERVAL_SECONDS)
    (set_timer (MainInterval (Z.max (main_interval_seconds (config (st h))) 60)) h).

Definition schedule_startup_liveness_tick : Heap -> Heap := set_timer (StartupMainTick 1).

(** ** Pokes ([poke.rs]) *)

Definition EVENT_HORIZON_POKE_INTERVAL_SECONDS : Z := 10.
Definition NANOS_PER_SECOND : Z := 1000000000.

Definition record_hint (now_ns : Z) (h : Heap) : bool * Heap :=
  let p := poke_runtime h in
  (negb (timer_pending p),
   h <| poke_runtime := p <| due_at_ns := Some (sat_add now_ns
                                 (EVENT_HORIZON_POKE_INTERVAL_SECONDS * NANOS_PER_SECOND)) |>
                          <| timer_pending := true |> |>).

Definition admit_attempt (now_ns : Z) (h : Heap) : bool * Heap :=
  let p := poke_runtime h in
  if now_ns <? next_attempt_allowed_at_ns p then (false, h)
  else (true, h <| poke_runtime := p <| next_attempt_allowed_at_ns :=
                     sat_add now_ns (EVENT_HORIZON_POKE_INTERVAL_SECONDS * NANOS_PER_SECOND) |> |>).

Inductive DeferredTimerAction := TimerStop | TimerReschedule (remaining_ns : Z) | TimerAttempt.

Definition deferred_timer_action (now_ns : Z) (h : Heap) : DeferredTimerAction * Heap :=
  let p := poke_runtime h in
  match due_at_ns p with
  | Some due =>
      if now_ns <? due then (TimerReschedule (due - now_ns), h)
      else (TimerAttempt, h <| poke_runtime := p <| due_at_ns := None |> <| timer_pending := false |> |>)
  | None => (TimerStop, h <| poke_runtime := p <| timer_pending := false |> |>)
  end.

Definition run_worker : async unit :=
  now_nanos ← now;
  cfg ← with_state (fun h => config (st h));
  run_poke_funding_with_clients (remotes cfg) now_nanos (now_nanos / NANOS_PER_SECOND);;
  mret tt.

Definition attempt_poke (now_ns : Z) : async unit :=
  admitted ← with_state_mut (admit_attempt now_ns);
  if admitted : bool then run_worker else mret tt.

(** The callback of [DeferredPoke]. *)
Definition deferred_poke_fires : async unit :=
  t ← now;
  action ← with_state_mut (deferred_timer_action t);
  match action with
  | TimerStop => mret tt
  | TimerReschedule remaining => modify (set_timer (DeferredPoke remaining))
  | TimerAttempt => t ← now; attempt_poke t
  end.

Definition handle_event_horizon_poke : async unit :=
  t ← now;
  first ← with_state_mut (record_hint t);
  (if first : bool
   then modify (set_timer (DeferredPoke (EVENT_HORIZON_POKE_INTERVAL_SECONDS * NANOS_PER_SECOND)))
   else mret tt);;
  attempt_poke t.

End tick.
