(* ===== verification/SnsRewards.v ===== *)
(** * The SNS rewards canister ([canisters/sns-rewards])

    Once a day the canister reads all neurons of the configured SNS, page by page,
    and indexes their owners by the default ICP account of each.  A scan writes to
    the index slot that is not published; when its last page was read, the slot
    becomes the published snapshot, under a new id.  The relay asks for the
    context of the snapshot and resolves accounts against its id ([lib.rs],
    [policy.rs], [state.rs], [clients.rs], [scheduler.rs]).

    The stable cell holds a copy of the state, which every mutation writes; the
    slots are stable maps.  The tracked scan timer is the one of
    [NEXT_SCAN_TIMER].  Log lines, Candid and the debug API are not modelled. *)

From S2P Require Import Prelude BTree Async Ic Accounts Clients TimerGuard.

(** ** [policy.rs] *)

Definition SNS_OWNER_SCAN_INTERVAL_SECONDS : Z := 86400.
Definition SNS_NEURON_PAGE_SIZE : Z := 100.
Definition SNS_OWNER_SCAN_MAX_PAGES : Z := 10000.
Definition MAX_ACCOUNT_LOOKUPS_PER_CALL : Z := 128.
Definition SCAN_LEASE_SECONDS : Z := 30 * 60.

Section policy.
Context `{P : PrincipalSpec}.

Definition effective_stake_is_positive (neuron : SnsNeuron) : bool :=
  0 <? sat_sub (cached_neuron_stake_e8s neuron) (neuron_fees_e8s neuron).

(** A principal by its bytes, with the set of its permissions. *)
Definition PermissionMap : Type := btree_map (list Z) (Principal * btree_set Z).

Definition add_permission (permission : NeuronPermission) (by_principal : PermissionMap) : PermissionMap :=
  match permission_principal permission with
  | None => by_principal
  | Some principal =>
      let '(first, types) := default (principal, []) (btree_get (principal_as_slice principal) by_principal) in
      btree_insert (principal_as_slice principal)
        (first, fold_left (fun s t => set_insert t s) (permission_type permission) types) by_principal
  end.

(** [max_by]: the order of two candidates; the later one wins a tie. *)
Definition owner_greater (a b : Principal * btree_set Z) : bool :=
  (length b.2 <? length a.2)%nat
  || (length a.2 =? length b.2)%nat && ltb (principal_as_slice a.1) (principal_as_slice b.1).

Definition select_owner (permissions : list NeuronPermission) : option Principal :=
  let by_principal := fold_left (fun m p => add_permission p m) permissions [] in
  match btree_values by_principal with
  | [] => None
  | first :: rest =>
      Some (fold_left (fun best c => if owner_greater best c then best else c) rest first).1
  end.

Definition owner_for_neuron (neuron : SnsNeuron) : option Principal :=
  if effective_stake_is_positive neuron then select_owner (permissions neuron) else None.

End policy.

(** ** [state.rs] *)

Inductive OwnerIndexSlot := SlotA | SlotB.
#[export] Instance OwnerIndexSlot_eq_dec : EqDecision OwnerIndexSlot.
Proof. solve_decision. Defined.
Definition other (slot : OwnerIndexSlot) : OwnerIndexSlot :=
  match slot with SlotA => SlotB | SlotB => SlotA end.

Section state.
Context `{P : PrincipalSpec}.
#[local] Existing Instance Principal_eq_dec.

Record Config := MkConfig { reward_sns_root_canister_id : option Principal }.

Record OwnerSnapshot := MkSnapshot {
  snap_id : Z;
  active_slot : OwnerIndexSlot;
  snap_root : Principal;
  snap_governance : Principal;
  snap_ledger : Principal;
  snap_started_at_nanos : Z;
  snap_completed_at_nanos : Z;
  neuron_count : Z;
  owner_count : Z;
}.

Record OwnerScan := MkScan {
  staging_slot : OwnerIndexSlot;
  scan_root : Principal;
  scan_governance : Principal;
  scan_ledger : Principal;
  scan_started_at_nanos : Z;
  start_page_at : option (list Z);
  pages_processed : Z;
  neurons_processed : Z;
}.
#[export] Instance OwnerScan_eq_dec : EqDecision OwnerScan.
Proof. solve_decision. Defined.

Record SnsRewardsState := MkState {
  config : Config;
  next_snapshot_id : Z;
  active_snapshot : option OwnerSnapshot;
  scan : option OwnerScan;
  last_scan_started_at_nanos : Z;
  scan_lock_state_ts : option Z;
}.
Definition SnsRewardsState_new (c : Config) : SnsRewardsState :=
  MkState c 1 None None 0 (Some 0).

Record ScanCheck := MkScanCheck { check_delay_nanos : Z; check_force : bool }.

(** The stable cell and the stable maps, the state in memory and the timers. *)
Record Heap := MkHeap {
  st : SnsRewardsState;
  stable_state : option SnsRewardsState;
  owners_a : btree_map (list Z) Principal;
  owners_b : btree_map (list Z) Principal;
  next_scan_timer : option ScanCheck;
  continuations : Z;
  config_log_timers : Z;
}.

Definition set_state (s : SnsRewardsState) (h : Heap) : Heap :=
  h <| st := s |> <| stable_state := Some s |>.
(** [with_state_mut]: the result is persisted. *)
Definition upd (f : SnsRewardsState -> SnsRewardsState) (h : Heap) : Heap := set_state (f (st h)) h.

Definition owners (slot : OwnerIndexSlot) (h : Heap) : btree_map (list Z) Principal :=
  match slot with SlotA => owners_a h | SlotB => owners_b h end.
Definition set_owners (slot : OwnerIndexSlot) (m : btree_map (list Z) Principal) (h : Heap) : Heap :=
  match slot with SlotA => h <| owners_a := m |> | SlotB => h <| owners_b := m |> end.

Definition clear_slot (slot : OwnerIndexSlot) : Heap -> Heap := set_owners slot [].
Definition clear_all_owners (h : Heap) : Heap := clear_slot SlotB (clear_slot SlotA h).
Definition lookup_owner (slot : OwnerIndexSlot) (account_identifier : list Z) (h : Heap) : option Principal :=
  btree_get account_identifier (owners slot h).
Definition slot_len (slot : OwnerIndexSlot) (h : Heap) : Z := Z.of_nat (length (owners slot h)).

Definition initialize (c : Config) : Heap -> Heap := set_state (SnsRewardsState_new c).

(** [None] is the panic. *)
Definition restore (h : Heap) : option SnsRewardsState := stable_state h.

Definition invalidate_for_root (root : option Principal) (h : Heap) : Heap :=
  upd (fun s => s <| config := MkConfig root |> <| active_snapshot := None |> <| scan := None |>
                  <| last_scan_started_at_nanos := 0 |> <| scan_lock_state_ts := Some 0 |>)
    (clear_all_owners h).

End state.

Section owner_index.
Context `{P : PrincipalSpec} `{H : HashSpec}.

Definition insert_owner (slot : OwnerIndexSlot) (owner : Principal) (h : Heap) : Heap :=
  set_owners slot (btree_insert (account_identifier_bytes owner None) owner (owners slot h)) h.

End owner_index.

(** ** [clients.rs] and [scheduler.rs] *)

Definition SCAN_START_RETRY_SECONDS : Z := 60.
Definition SCAN_BUSY_RECHECK_SECONDS : Z := 60.
Definition SCAN_PAGE_FAILURE_RECHECK_SECONDS : Z := 5 * 60.

Inductive StartScanResult := Started (at_nanos : Z) | NotConfigured | StartStale | StartFailed.
Inductive PageResult := InProgress | PageStale | Completed | PageFailed.
#[export] Instance PageResult_eq_dec : EqDecision PageResult.
Proof. solve_decision. Defined.

Definition secs (n : Z) : Z := n * 1000000000.

Section scheduler.
Context `{P : PrincipalSpec} `{H : HashSpec}.
#[local] Existing Instance Principal_eq_dec.
#[local] Existing Instance OwnerScan_eq_dec.
Local Abbreviation async := (async Heap SuiteCall).

Definition list_neurons (governance : Principal) (start_page_at : option (list Z)) :
    async (result (list SnsNeuron) string) :=
  r ← await (ListSnsNeurons governance start_page_at);
  mret match r with
       | Ok neurons => Ok neurons
       | Err (NotDelivered d) => Err ("list_neurons failed: " ++ d)%string
       | Err (Undecodable d) => Err ("decode list_neurons failed: " ++ d)%string
       end.

(** *** [ScanGuard] *)

Definition owns_scan (g : Timer.TimerLeaseGuard) (root : Principal) (expected : option OwnerScan) (h : Heap) :
    bool :=
  Timer.is_active g && bool_decide (scan_lock_state_ts (st h) = Some (Timer.lease_expires_at_ts g))
  && bool_decide (reward_sns_root_canister_id (config (st h)) = Some root)
  && bool_decide (scan (st h) = expected).

Definition scan_acquire (now_secs : Z) (h : Heap) : option Timer.TimerLeaseGuard * Heap :=
  match Timer.acquire now_secs SCAN_LEASE_SECONDS (scan_lock_state_ts (st h)) with
  | None => (None, upd (fun s => s) h)
  | Some g => (Some g, upd (fun s => s <| scan_lock_state_ts := Some (Timer.lease_expires_at_ts g) |>) h)
  end.

Definition scan_drop (g : Timer.TimerLeaseGuard) (h : Heap) : Heap :=
  if negb (Timer.is_active g) then h
  else
    match (Timer.release g (scan_lock_state_ts (st h))).1 with
    | Released => upd (fun s => s <| scan_lock_state_ts := Some 0 |>) h
    | Unchanged => upd (fun s => s) h
    end.

(** *** Timers *)

(** The new timer replaces the tracked one, which is cleared. *)
Definition schedule_scan_check (delay_nanos : Z) (force : bool) (h : Heap) : Heap :=
  h <| next_scan_timer := Some (MkScanCheck delay_nanos force) |>.

(** [debug_api] is off, so the first check is not forced. *)
Definition install_timers (h : Heap) : Heap :=
  schedule_scan_check 0 false (h <| config_log_timers ::= Z.add 1 |>).

Definition next_due_delay (last_started_at_nanos now_nanos : Z) : Z :=
  if last_started_at_nanos =? 0 then 0
  else sat_sub (sat_add last_started_at_nanos (secs SNS_OWNER_SCAN_INTERVAL_SECONDS)) now_nanos.

Definition schedule_next_due_check (now_nanos : Z) (h : Heap) : Heap :=
  schedule_scan_check (next_due_delay (last_scan_started_at_nanos (st h)) now_nanos) false h.
Definition schedule_start_retry : Heap -> Heap := schedule_scan_check (secs SCAN_START_RETRY_SECONDS) false.
Definition schedule_continuation (h : Heap) : Heap := h <| continuations ::= Z.add 1 |>.

(** *** The start of a scan *)

Definition resolve_components (configured_root : Principal) (resolved : ListSnsCanistersResponse) :
    result (Principal * Principal) string :=
  if negb (bool_decide (sns_root resolved = Some configured_root)) then Err "resolved_root_mismatch"%string
  else
    match sns_governance resolved with
    | None => Err "missing_governance"%string
    | Some governance =>
        match sns_ledger resolved with
        | None => Err "missing_ledger"%string
        | Some ledger => Ok (governance, ledger)
        end
    end.

Definition finish_start_scan (g : Timer.TimerLeaseGuard) (root : Principal)
    (response : result ListSnsCanistersResponse ClientError) (now_nanos : Z) (h : Heap) : StartScanResult * Heap :=
  if negb (owns_scan g root None h) then (StartStale, h)
  else
    match response with
    | Err _ => (StartFailed, h)
    | Ok resolved =>
        match resolve_components root resolved with
        | Err _ => (StartFailed, h)
        | Ok (governance, ledger) =>
            let slot := match active_snapshot (st h) with Some s => other (active_slot s) | None => SlotA end in
            let h := clear_slot slot h in
            (Started now_nanos,
             upd (fun s => s <| last_scan_started_at_nanos := now_nanos |>
                             <| scan := Some (MkScan slot root governance ledger now_nanos None 0 0) |>) h)
        end
    end.

Definition start_scan (g : Timer.TimerLeaseGuard) : async StartScanResult :=
  root ← with_state (fun h => reward_sns_root_canister_id (config (st h)));
  match root with
  | None => mret NotConfigured
  | Some root =>
      response ← list_sns_canisters root;
      t ← now;
      with_state_mut (finish_start_scan g root response t)
  end.

(** *** One page *)

Fixpoint validate_ids (previous : option (list Z)) (neurons : list SnsNeuron) : result (option (list Z)) string :=
  match neurons with
  | [] => Ok previous
  | neuron :: rest =>
      match neuron_id_bytes neuron with
      | None => Err "missing_neuron_id"%string
      | Some id =>
          if negb (Nat.eqb (length id) 32) then Err "malformed_neuron_id"%string
          else if is_some_and previous (fun cursor => negb (ltb cursor id)) then Err "non_progressing_cursor"%string
          else validate_ids (Some id) rest
      end
  end.

Definition validate_page (s : OwnerScan) (neurons : list SnsNeuron) : result (option (list Z)) string :=
  match validate_ids (start_page_at s) neurons with
  | Err e => Err e
  | Ok _ => Ok (neuron ← last neurons; neuron_id_bytes neuron)
  end.

Definition fail_scan : Heap -> Heap := upd (fun s => s <| scan := None |>).

Definition insert_owners (slot : OwnerIndexSlot) (neurons : list SnsNeuron) (h : Heap) : Heap :=
  fold_left (fun h neuron =>
    match owner_for_neuron neuron with Some owner => insert_owner slot owner h | None => h end) neurons h.

(** The fields of the scan after a page. *)
Definition advance_scan (neurons : list SnsNeuron) (next_cursor : option (list Z)) (current : OwnerScan) : OwnerScan :=
  current <| pages_processed ::= Z.add 1 |>
          <| neurons_processed ::= fun n => sat_add n (Z.of_nat (length neurons)) |>
          <| start_page_at := next_cursor |>.

(** The scan becomes the published snapshot. *)
Definition publish (now_nanos : Z) (completed : OwnerScan) (h : Heap) : Heap :=
  upd (fun s =>
    let snapshot := {|
      snap_id := next_snapshot_id s;
      active_slot := staging_slot completed;
      snap_root := scan_root completed;
      snap_governance := scan_governance completed;
      snap_ledger := scan_ledger completed;
      snap_started_at_nanos := scan_started_at_nanos completed;
      snap_completed_at_nanos := now_nanos;
      neuron_count := neurons_processed completed;
      owner_count := slot_len (staging_slot completed) h |} in
    s <| scan := None |> <| active_snapshot := Some snapshot |>
      <| next_snapshot_id := sat_add (next_snapshot_id s) 1 |>) h.

Definition finish_page (g : Timer.TimerLeaseGuard) (s : OwnerScan) (response : result (list SnsNeuron) string)
    (now_nanos : Z) (schedule_next_page : bool) (h : Heap) : PageResult * Heap :=
  if negb (owns_scan g (scan_root s) (Some s) h) then (PageStale, h)
  else
    match response with
    | Err _ => (PageFailed, fail_scan h)
    | Ok neurons =>
        match validate_page s neurons with
        | Err _ => (PageFailed, fail_scan h)
        | Ok next_cursor =>
            let h := insert_owners (staging_slot s) neurons h in
            let updated := advance_scan neurons next_cursor s in
            let h := upd (fun st => st <| scan := Some updated |>) h in
            if negb (Z.of_nat (length neurons) <? SNS_NEURON_PAGE_SIZE) then
              if SNS_OWNER_SCAN_MAX_PAGES <=? pages_processed updated then (PageFailed, fail_scan h)
              else (InProgress, if schedule_next_page then schedule_continuation h else h)
            else (Completed, publish now_nanos updated h)
        end
    end.

Definition process_one_page (g : Timer.TimerLeaseGuard) (now_nanos : Z) (schedule_next_page : bool) :
    async PageResult :=
  s ← with_state (fun h => scan (st h));
  match s with
  | None => mret PageFailed
  | Some s =>
      if SNS_OWNER_SCAN_MAX_PAGES <=? pages_processed s then modify fail_scan;; mret PageFailed
      else
        response ← list_neurons (scan_governance s) (start_page_at s);
        with_state_mut (finish_page g s response now_nanos schedule_next_page)
  end.

(** *** The tick *)

Definition scan_due (force : bool) (now_nanos : Z) (s : SnsRewardsState) : bool :=
  force || (last_scan_started_at_nanos s =? 0)
  || (secs SNS_OWNER_SCAN_INTERVAL_SECONDS <=? sat_sub now_nanos (last_scan_started_at_nanos s)).

(** Whether a scan is under way, or was started. *)
Definition begin_scan (g : Timer.TimerLeaseGuard) (force : bool) (now_nanos : Z) : async bool :=
  idle ← with_state (fun h => negb (is_some (scan (st h))));
  if negb (idle : bool) then mret true
  else
    due ← with_state (fun h => scan_due force now_nanos (st h));
    if negb (due : bool) then modify (schedule_next_due_check now_nanos);; mret false
    else
      r ← start_scan g;
      match r with
      | Started at_nanos => modify (schedule_next_due_check at_nanos);; mret true
      | NotConfigured | StartStale => mret false
      | StartFailed => modify schedule_start_retry;; mret false
      end.

Definition scan_body (g : Timer.TimerLeaseGuard) (force : bool) (now_nanos : Z) : async unit :=
  active ← begin_scan g force now_nanos;
  if negb (active : bool) then mret tt
  else
    t ← now;
    r ← process_one_page g t (negb force);
    match r with
    | InProgress | PageStale => mret tt
    | Completed => t ← now; modify (schedule_next_due_check t)
    | PageFailed => modify (schedule_scan_check (secs SCAN_PAGE_FAILURE_RECHECK_SECONDS) false)
    end.

(** The guard is dropped on every return. *)
Definition scan_tick (force : bool) : async unit :=
  now_nanos ← now;
  g ← with_state_mut (scan_acquire (now_nanos / 1000000000));
  match g with
  | None =>
      if force then mret tt else modify (schedule_scan_check (secs SCAN_BUSY_RECHECK_SECONDS) false)
  | Some g => scan_body g force now_nanos;; modify (scan_drop g)
  end.

(** The timers. *)
Definition scan_timer_fires : async unit :=
  c ← with_state next_scan_timer;
  match c with
  | None => mret tt
  | Some c => modify (fun h => h <| next_scan_timer := None |>);; scan_tick (check_force c)
  end.
Definition continuation_fires : async unit :=
  modify (fun h => h <| continuations ::= fun n => n - 1 |>);; scan_tick false.

End scheduler.

(** ** [lib.rs] *)

Section lib.
Context `{P : PrincipalSpec}.
#[local] Existing Instance Principal_eq_dec.

Record InitArgs := MkInitArgs { init_root : option Principal }.
Record UpgradeArgs := MkUpgradeArgs { upgrade_root : option (option Principal) }.

Definition get_relay_reward_context (h : Heap) : option RelayRewardContext :=
  configured_root ← reward_sns_root_canister_id (config (st h));
  snapshot ← active_snapshot (st h);
  if negb (bool_decide (snap_root snapshot = configured_root)) then None
  else Some (MkRewardContext _ (snap_root snapshot) (snap_governance snapshot) (snap_ledger snapshot)
               (snap_id snapshot) (snap_started_at_nanos snapshot) (snap_completed_at_nanos snapshot)).

(** The first identifier that is not 32 bytes long. *)
Definition malformed_identifier (identifiers : list (list Z)) : option Z :=
  match list_find (fun identifier => length identifier <> 32%nat) identifiers with
  | Some (index, _) => Some (Z.of_nat index)
  | None => None
  end.

Definition resolve_default_icp_accounts (requested : Z) (identifiers : list (list Z)) (h : Heap) :
    ResolveDefaultIcpAccountsResult :=
  if MAX_ACCOUNT_LOOKUPS_PER_CALL <? Z.of_nat (length identifiers) then TooManyAccounts
  else
    match malformed_identifier identifiers with
    | Some index => InvalidAccountIdentifier index
    | None =>
        match active_snapshot (st h) with
        | None => SnapshotChanged
        | Some snapshot =>
            if negb (snap_id snapshot =? requested) then SnapshotChanged
            else Resolved (map (fun identifier => lookup_owner (active_slot snapshot) identifier h) identifiers)
        end
    end.

(** Fresh memory. *)
Definition init (args : InitArgs) : Heap :=
  install_timers (initialize (MkConfig (init_root args))
    (MkHeap (SnsRewardsState_new (MkConfig None)) None [] [] None 0 0)).

(** The Wasm memory and the timers are gone: what is left is the stable memory.
    [None] is the panic of [restore]. *)
Definition post_upgrade (args : option UpgradeArgs) (h : Heap) : option Heap :=
  restored ← restore h;
  let fresh := MkHeap restored (stable_state h) (owners_a h) (owners_b h) None 0 0 in
  let h := set_state (restored <| scan_lock_state_ts := Some 0 |>) fresh in
  let h :=
    match args ≫= upgrade_root with
    | Some new_root =>
        if bool_decide (reward_sns_root_canister_id (config (st h)) = new_root) then h
        else invalidate_for_root new_root h
    | None => h
    end in
  Some (install_timers h).

End lib.
