(* ===== verification/SnsRewardsIndex.v ===== *)
(** * SNS rewards: the owner index

    What the canister promises to the relay, however scans, stale replies,
    timers and upgrades interleave: the published index is that of one complete
    scan, and the answers for a snapshot id never change.  The atomic steps are
    those of [SnsRewards.scan_tick] between two awaits, with any guard and any
    late reply. *)

From stdpp Require Import sorting relations.
From S2P Require Import Prelude BTree Async Ic Accounts Clients TimerGuard SnsRewards.

(** ** The owner of a neuron *)

Section owner.
Context `{P : PrincipalSpec}.
#[local] Existing Instance Principal_eq_dec.

(** The permissions that the entries of [permissions] grant to [key]. *)
Fixpoint granted (key : list Z) (permissions : list NeuronPermission) : list Z :=
  match permissions with
  | [] => []
  | permission :: rest =>
      match permission_principal permission with
      | Some principal =>
          if decide (principal_as_slice principal = key) then permission_type permission ++ granted key rest
          else granted key rest
      | None => granted key rest
      end
  end.
Definition listed (principal : Principal) (permissions : list NeuronPermission) : Prop :=
  exists permission, permission ∈ permissions /\ permission_principal permission = Some principal.
(** How many distinct permissions a principal has. *)
Definition permission_count (principal : Principal) (permissions : list NeuronPermission) : nat :=
  length (remove_dups (granted (principal_as_slice principal) permissions)).

(** [m] is the map of the entries of [permissions]. *)
Record permission_map (permissions : list NeuronPermission) (m : PermissionMap) : Prop := {
  map_wf : btree_wf m;
  map_sound : forall key p types, btree_get key m = Some (p, types) ->
    principal_as_slice p = key /\ listed p permissions /\ StronglySorted (fun a b => ltb a b = true) types /\
    forall t, t ∈ types <-> t ∈ granted key permissions;
  map_complete : forall p, listed p permissions -> exists v, btree_get (principal_as_slice p) m = Some v;
}.

Lemma granted_app key l1 l2 : granted key (l1 ++ l2) = granted key l1 ++ granted key l2.
Proof.
  induction l1 as [|x l1 IH]; cbn; [done|]. destruct (permission_principal x); [|done].
  case_decide; [by rewrite IH, app_assoc|done].
Qed.

Lemma not_listed_granted p permissions :
  (forall q, listed q permissions -> principal_as_slice q <> principal_as_slice p) ->
  granted (principal_as_slice p) permissions = [].
Proof.
  induction permissions as [|x l IH]; intros Hn; cbn; [done|].
  assert (forall q, listed q l -> principal_as_slice q <> principal_as_slice p) as Hl.
  { intros q (y & Hy & Hq). apply Hn. exists y. split; [by right|done]. }
  destruct (permission_principal x) as [q|] eqn:E; [|by apply IH].
  rewrite decide_False; [by apply IH|]. apply Hn. exists x. split; [by left|done].
Qed.

Lemma permission_map_add permissions x m :
  permission_map permissions m -> permission_map (permissions ++ [x]) (add_permission x m).
Proof.
  intros [Hwf Hs Hc]. unfold add_permission. destruct (permission_principal x) as [p|] eqn:Ex.
  2:{ constructor; [done| |].
      - intros key p types Hg. destruct (Hs _ _ _ Hg) as (? & (y & Hy & ?) & ? & Ht). split; [done|].
        split; [exists y; set_solver|]. split; [done|]. intros t. rewrite granted_app. cbn. rewrite Ex, app_nil_r. apply Ht.
      - intros q (y & Hy & Hq). apply elem_of_app in Hy as [Hy| ->%list_elem_of_singleton]; [|congruence].
        apply Hc. by exists y. }
  set (key0 := principal_as_slice p).
  destruct (default (p, []) (btree_get key0 m)) as [first types] eqn:Ed.
  assert (principal_as_slice first = key0 /\ listed first (permissions ++ [x]) /\
          StronglySorted (fun a b => ltb a b = true) types /\ forall t, t ∈ types <-> t ∈ granted key0 permissions)
    as (Hk & Hl & Hnd & Ht).
  { destruct (btree_get key0 m) as [[q s]|] eqn:Eg; cbn in Ed; injection Ed as <- <-.
    - destruct (Hs _ _ _ Eg) as (? & (y & Hy & ?) & ? & ?). split; [done|]. split; [exists y; set_solver|done].
    - split; [done|]. split; [exists x; set_solver|]. split; [constructor|]. intros t.
      unfold key0; rewrite not_listed_granted; [done|]. intros q Hq Eq. apply Hc in Hq as [v Hv].
      unfold key0 in Eg. rewrite <- Eq in Eg. congruence. }
  constructor.
  - by apply btree_insert_wf.
  - intros key q ts Hg. destruct (decide (key0 = key)) as [<-|Hne].
    + rewrite btree_get_insert in Hg. injection Hg as <- <-. split; [done|]. split; [done|].
      split; [by apply set_fold_sorted|]. intros t. rewrite elem_of_set_fold, granted_app. cbn. rewrite Ex.
      fold key0. rewrite decide_True by done. rewrite app_nil_r, elem_of_app, Ht. naive_solver.
    + rewrite btree_get_insert_ne in Hg by done. destruct (Hs _ _ _ Hg) as (? & (y & Hy & ?) & ? & Ht').
      split; [done|]. split; [exists y; set_solver|]. split; [done|]. intros t. rewrite granted_app. cbn. rewrite Ex.
      fold key0. rewrite decide_False by done. rewrite app_nil_r. apply Ht'.
  - intros q (y & Hy & Hq). destruct (decide (key0 = principal_as_slice q)) as [<-|Hne].
    + rewrite btree_get_insert. eauto.
    + rewrite btree_get_insert_ne by done. apply elem_of_app in Hy as [Hy| ->%list_elem_of_singleton].
      * apply Hc. by exists y.
      * rewrite Ex in Hq. injection Hq as <-. done.
Qed.

Lemma permission_map_fold permissions :
  permission_map permissions (fold_left (fun m p => add_permission p m) permissions []).
Proof.
  induction permissions as [|x l IH] using rev_ind; cbn.
  - constructor; [constructor|done|]. by intros p (x & Hx%elem_of_nil & _).
  - rewrite fold_left_app. cbn. by apply permission_map_add.
Qed.

(** [owner_greater] is a strict total order on entries with different keys. *)
Lemma owner_greater_trans a b c : owner_greater a b = true -> owner_greater b c = true -> owner_greater a c = true.
Proof.
  unfold owner_greater. rewrite !orb_true_iff, !andb_true_iff, !Nat.ltb_lt, !Nat.eqb_eq.
  intros [?|[? H1]] [?|[? H2]]; [left; lia..|]. right. split; [lia|]. by eapply ltb_trans.
Qed.

Lemma owner_greater_total a b :
  principal_as_slice a.1 <> principal_as_slice b.1 -> owner_greater a b = false -> owner_greater b a = true.
Proof.
  unfold owner_greater. rewrite orb_false_iff, andb_false_iff, !orb_true_iff, !andb_true_iff, !Nat.ltb_lt, !Nat.eqb_eq.
  rewrite Nat.ltb_ge, Nat.eqb_neq. intros Hne [H1 H2].
  destruct (ltb_total (principal_as_slice a.1) (principal_as_slice b.1)) as [Hlt|[?|Hlt]]; [|done|].
  - destruct H2 as [?|?]; [left; lia|congruence].
  - destruct (decide (length a.2 = length b.2)); [right; split; [lia|done]|left; lia].
Qed.

Lemma max_by_spec first rest :
  NoDup (map (fun c => principal_as_slice c.1) (first :: rest)) ->
  let best := fold_left (fun best c => if owner_greater best c then best else c) rest first in
  best ∈ first :: rest /\
  forall c, c ∈ first :: rest -> c = best \/ owner_greater best c = true.
Proof.
  induction rest as [|x rest IH] using rev_ind; intros Hnd; cbn zeta.
  { split; [by left|]. intros c ->%list_elem_of_singleton. by left. }
  rewrite fold_left_app. cbn. rewrite app_comm_cons, map_app in Hnd. apply NoDup_app in Hnd as (Hnd & Hx & _).
  destruct (IH Hnd) as [Hin Hall]. cbn zeta in *.
  set (best := fold_left _ rest first) in *.
  assert (principal_as_slice best.1 <> principal_as_slice x.1) as Hne.
  { intros E. apply (Hx (principal_as_slice best.1)); 
      [by apply (list_elem_of_fmap_2 (fun c : Principal * btree_set Z => principal_as_slice c.1))|].
    rewrite E. cbn. by left. }
  destruct (owner_greater best x) eqn:Eg; rewrite app_comm_cons.
  - split; [apply elem_of_app; by left|]. intros c [Hc| ->%list_elem_of_singleton]%elem_of_app; [by apply Hall|by right].
  - split; [apply elem_of_app; right; by left|].
    intros c [Hc| ->%list_elem_of_singleton]%elem_of_app; [|by left]. right.
    pose proof (owner_greater_total _ _ Hne Eg) as Hxb. destruct (Hall _ Hc) as [->|Hb]; [done|].
    by eapply owner_greater_trans.
Qed.

(** The candidates are the values of the map. *)
Lemma permission_map_keys permissions m :
  permission_map permissions m ->
  NoDup (map (fun c => principal_as_slice c.1) (btree_values m)) /\
  forall p types, (p, types) ∈ btree_values m <-> btree_get (principal_as_slice p) m = Some (p, types).
Proof.
  intros [Hwf Hs Hc].
  assert (forall kv, kv ∈ m -> btree_get kv.1 m = Some kv.2) as Hget by (intros [k v]; by apply btree_wf_get).
  assert (map (fun c => principal_as_slice c.1) (btree_values m) = btree_keys m) as E.
  { unfold btree_values, btree_keys. rewrite map_map. apply map_ext_in. intros [k [p types]] Hin.
    apply list_elem_of_In, Hget in Hin. cbn in *. by apply Hs in Hin as [? _]. }
  split; [rewrite E; by apply btree_wf_NoDup|]. intros p types. split.
  - intros ([k v] & Ev & Hin)%list_elem_of_fmap. cbn in Ev. subst v. apply Hget in Hin. cbn in Hin.
    by destruct (Hs _ _ _ Hin) as [<- _].
  - intros Hg. apply btree_get_elem in Hg. by apply (list_elem_of_fmap_2 snd) in Hg.
Qed.

Lemma count_granted p permissions (types : btree_set Z) :
  StronglySorted (fun a b => ltb a b = true) types ->
  (forall t, t ∈ types <-> t ∈ granted (principal_as_slice p) permissions) ->
  length types = permission_count p permissions.
Proof.
  intros Hs%sorted_set_NoDup Ht. unfold permission_count. apply Permutation_length, NoDup_Permutation;
    [done|apply NoDup_remove_dups|]. intros t. by rewrite elem_of_remove_dups.
Qed.

(** A principal that beats every other listed one. *)
Definition best_owner (p : Principal) (permissions : list NeuronPermission) : Prop :=
  listed p permissions /\
  forall q, listed q permissions -> q <> p ->
    (permission_count q permissions < permission_count p permissions)%nat \/
    permission_count q permissions = permission_count p permissions /\
    ltb (principal_as_slice p) (principal_as_slice q) = true.

Lemma best_owner_unique p q permissions : best_owner p permissions -> best_owner q permissions -> p = q.
Proof.
  intros [Hp Hmp] [Hq Hmq]. destruct (decide (p = q)) as [|Hne]; [done|].
  destruct (Hmp q Hq ltac:(congruence)) as [?|[? H1]], (Hmq p Hp Hne) as [?|[? H2]]; try lia.
  pose proof (ltb_trans _ _ _ H1 H2). by rewrite ltb_irrefl in *.
Qed.

Lemma select_owner_ok permissions :
  (forall p q : Principal, principal_as_slice p = principal_as_slice q -> p = q) ->
  match select_owner permissions with
  | Some p => best_owner p permissions
  | None => forall p, ~ listed p permissions
  end.
Proof.
  intros Hinj. unfold select_owner. pose proof (permission_map_fold permissions) as Hm.
  match type of Hm with permission_map _ ?x => set (m := x) in * end. cbn zeta.
  destruct (permission_map_keys _ _ Hm) as [Hnd Hval]. destruct Hm as [Hwf Hs Hc].
  assert (forall p, listed p permissions -> exists types, (p, types) ∈ btree_values m) as Hcand.
  { intros p Hp. destruct (Hc _ Hp) as [[q types] Hg]. destruct (Hs _ _ _ Hg) as (E%Hinj & _). subst q.
    exists types. by apply Hval. }
  destruct (btree_values m) as [|first rest] eqn:Ev.
  - intros p (types & Hp%elem_of_nil)%Hcand. done.
  - destruct (max_by_spec first rest Hnd) as [Hin Hall]. cbn zeta in *.
    destruct (fold_left _ rest first) as [p types]. cbn.
    apply Hval in Hin. destruct (Hs _ _ _ Hin) as (_ & Hl & Hsort & Ht).
    split; [done|]. intros q Hq Hne. destruct (Hcand _ Hq) as [qtypes Hqv].
    pose proof (proj1 (Hval _ _) Hqv) as Hqg. destruct (Hs _ _ _ Hqg) as (_ & _ & Hqsort & Hqt).
    destruct (Hall _ Hqv) as [[= -> ->]|Hg]; [done|]. unfold owner_greater in Hg. cbn in Hg.
    rewrite <- (count_granted _ _ _ Hsort Ht), <- (count_granted _ _ _ Hqsort Hqt).
    apply orb_true_iff in Hg as [?%Nat.ltb_lt|[?%Nat.eqb_eq ?]%andb_true_iff]; [by left|by right].
Qed.

End owner.

(** The owner of a neuron is the listed principal with the most distinct
    permissions over all of its entries, the least in the order of the bytes when
    several have as many; there is one exactly when a principal is listed at all.
    ([Hinj]: the bytes of a principal determine it.) *)
Theorem owner_selection_exact `{P : PrincipalSpec} (permissions : list NeuronPermission)
    (Hinj : forall p q : Principal, principal_as_slice p = principal_as_slice q -> p = q) :
  (forall p, select_owner permissions = Some p <-> best_owner p permissions) /\
  (select_owner permissions = None <-> forall p, ~ listed p permissions).
Proof.
  pose proof (select_owner_ok permissions Hinj) as Hok. split.
  - intros p. destruct (select_owner permissions) as [q|].
    + split; [by intros [= <-]|]. intros Hp. f_equal. by eapply best_owner_unique.
    + split; [done|]. intros [Hl _]. by destruct (Hok p).
  - destruct (select_owner permissions) as [q|]; [|done]. split; [done|]. intros Hn. destruct Hok as [Hl _].
    by destruct (Hn q).
Qed.

Lemma owner_selection_exact_witness :
  let entry p types := MkNeuronPermission Concrete.concrete_principal (Some p) types in
  select_owner (P:=Concrete.concrete_principal) [entry 2 [1; 1; 2]; entry 3 [4; 5]; entry 2 [2; 1]] = Some 2 /\
  best_owner (P:=Concrete.concrete_principal) 2 [entry 2 [1; 1; 2]; entry 3 [4; 5]; entry 2 [2; 1]].
Proof.
  cbn zeta. split; [reflexivity|].
  apply (owner_selection_exact (P:=Concrete.concrete_principal)); [by intros p q [= ->]|reflexivity].
Defined.

(** ** The index of a complete scan *)

Section index.
Context `{P : PrincipalSpec} `{H : HashSpec}.
#[local] Existing Instance Principal_eq_dec.
(** [answered governance cursor neurons]: the governance canister has answered the
    page after [cursor] with [neurons]. *)
Context (answered : Principal -> option (list Z) -> list SnsNeuron -> Prop).

Definition account_of (owner : Principal) : list Z := account_identifier_bytes owner None.

Fixpoint index_of (neurons : list SnsNeuron) (m : btree_map (list Z) Principal) : btree_map (list Z) Principal :=
  match neurons with
  | [] => m
  | neuron :: rest =>
      index_of rest (match owner_for_neuron neuron with Some p => btree_insert (account_of p) p m | None => m end)
  end.

(** The full pages that a scan has read, from the first one on. *)
Inductive scanned (governance : Principal) : nat -> option (list Z) -> list SnsNeuron -> Prop :=
| scanned_nothing : scanned governance 0 None []
| scanned_page pages cursor neurons page next :
    scanned governance pages cursor neurons -> answered governance cursor page ->
    validate_ids cursor page = Ok next -> SNS_NEURON_PAGE_SIZE <= Z.of_nat (length page) ->
    scanned governance (S pages) next (neurons ++ page).

(** A scan whose last page was not full. *)
Definition complete_scan (governance : Principal) (neurons : list SnsNeuron) : Prop :=
  exists pages cursor before page next, scanned governance pages cursor before /\
    answered governance cursor page /\ validate_ids cursor page = Ok next /\
    Z.of_nat (length page) < SNS_NEURON_PAGE_SIZE /\ neurons = before ++ page.

(** Strictly ascending ids of 32 bytes. *)
Definition ascending (neurons : list SnsNeuron) : Prop :=
  exists ids, map neuron_id_bytes neurons = map Some ids /\ Forall (fun id => length id = 32%nat) ids /\
    StronglySorted (fun a b => ltb a b = true) ids.

Lemma validate_ids_ok previous neurons next :
  validate_ids previous neurons = Ok next ->
  exists ids, map neuron_id_bytes neurons = map Some ids /\ Forall (fun id => length id = 32%nat) ids /\
    StronglySorted (fun a b => ltb a b = true) ids /\
    (forall cursor, previous = Some cursor -> Forall (fun id => ltb cursor id = true) ids) /\
    next = match last ids with Some id => Some id | None => previous end.
Proof.
  revert previous. induction neurons as [|n rest IH]; intros previous; cbn [validate_ids].
  { intros [= ->]. exists []. split; [done|]. split; [done|]. split; [constructor|]. by split. }
  destruct (neuron_id_bytes n) as [id|] eqn:En; [|done].
  destruct (Nat.eqb_spec (length id) 32) as [Hlen|]; cbn [negb]; [|done].
  destruct (is_some_and _ _) eqn:Ep; [done|]. intros Hr.
  destruct (IH _ Hr) as (ids & E & Hl & Hs & Hc & ->). specialize (Hc _ eq_refl).
  exists (id :: ids). split; [cbn; by rewrite En, E|]. split; [by constructor|]. split; [by constructor|]. split.
  - intros cursor ->. cbn in Ep. apply negb_false_iff in Ep. constructor; [done|].
    eapply Forall_impl; [exact Hc|]. cbn. intros x Hx. by eapply ltb_trans.
  - destruct ids as [|x ids]; [done|]. cbn. destruct (last (x :: ids)) eqn:El; [done|]. by apply last_None in El.
Qed.

Lemma scanned_ascending governance pages cursor neurons :
  scanned governance pages cursor neurons ->
  exists ids, map neuron_id_bytes neurons = map Some ids /\ Forall (fun id => length id = 32%nat) ids /\
    StronglySorted (fun a b => ltb a b = true) ids /\ cursor = last ids.
Proof.
  induction 1 as [|pages cursor neurons page next Hsc (ids & E & Hl & Hs & ->) Ha Hv Hfull].
  { exists []. split; [done|]. split; [done|]. by split; [constructor|]. }
  apply validate_ids_ok in Hv as (new & E' & Hl' & Hs' & Hc & ->).
  exists (ids ++ new). rewrite !map_app, E, E'. split; [done|]. split; [by apply Forall_app|].
  split; [by apply sorted_app_last; [apply ltb_trans|..]|]. rewrite last_app. by destruct (last new).
Qed.

(** *** The steps of the canister *)

(** What one message does between two awaits.  The guard, the scan and the reply of
    a step are arbitrary: they may be those of a tick that lost its lease long ago. *)
Inductive canister_step : Heap -> Heap -> Prop :=
| step_acquire now_secs h : canister_step h (scan_acquire now_secs h).2
| step_drop g h : canister_step h (scan_drop g h)
| step_start g root response now_nanos h :
    canister_step h (finish_start_scan g root response now_nanos h).2
| step_page g s response now_nanos schedule h :
    (forall neurons, response = Ok neurons -> answered (scan_governance s) (start_page_at s) neurons) ->
    canister_step h (finish_page g s response now_nanos schedule h).2
| step_cap h : canister_step h (fail_scan h)
| step_timers timer n h : canister_step h (h <| next_scan_timer := timer |> <| continuations := n |>)
| step_upgrade args h h' : post_upgrade args h = Some h' -> canister_step h h'.

(** *** The invariant *)

Record snapshot_ok (h : Heap) (s : OwnerSnapshot) : Prop := {
  snapshot_older : snap_id s < next_snapshot_id (st h) \/ u64_max <= next_snapshot_id (st h);
  snapshot_scan : exists neurons, complete_scan (snap_governance s) neurons /\
    owners (active_slot s) h = index_of neurons [] /\
    neuron_count s = Z.min (Z.of_nat (length neurons)) u64_max /\
    owner_count s = Z.of_nat (length (owners (active_slot s) h));
}.

Record scan_ok (h : Heap) (s : OwnerScan) : Prop := {
  scan_apart : forall snapshot, active_snapshot (st h) = Some snapshot ->
    staging_slot s = other (active_slot snapshot);
  scan_read : exists pages neurons, scanned (scan_governance s) pages (start_page_at s) neurons /\
    pages_processed s = Z.of_nat pages /\
    owners (staging_slot s) h = index_of neurons [] /\
    neurons_processed s = Z.min (Z.of_nat (length neurons)) u64_max;
  scan_pages : pages_processed s < SNS_OWNER_SCAN_MAX_PAGES;
}.

Record index_ok (h : Heap) : Prop := {
  persisted : stable_state h = Some (st h);
  snapshot_sound : forall s, active_snapshot (st h) = Some s -> snapshot_ok h s;
  scan_sound : forall s, scan (st h) = Some s -> scan_ok h s;
}.

(** The owners and the state without its lease: what the invariant is about. *)
Lemma index_ok_frame h h' :
  index_ok h -> owners_a h' = owners_a h -> owners_b h' = owners_b h -> stable_state h' = Some (st h') ->
  active_snapshot (st h') = active_snapshot (st h) -> next_snapshot_id (st h') = next_snapshot_id (st h) ->
  (scan (st h') = scan (st h) \/ scan (st h') = None) -> index_ok h'.
Proof.
  intros [Hp Hs Hc] Ea Eb Est Esn En Esc.
  assert (forall slot, owners slot h' = owners slot h) as Eo by (intros []; cbn; congruence).
  constructor; [done| |].
  - intros s Hsn. rewrite Esn in Hsn. destruct (Hs _ Hsn) as [Ho Hn]. constructor; [by rewrite En|]. by rewrite Eo.
  - intros s Hsc. destruct Esc as [Esc|Esc]; rewrite Esc in Hsc; [|done]. destruct (Hc _ Hsc) as [H1 H2 H3].
    constructor; [by rewrite Esn| |done]. by rewrite Eo.
Qed.

Lemma other_involutive slot : other (other slot) = slot.
Proof. by destruct slot. Qed.
Lemma other_ne slot : other slot <> slot.
Proof. by destruct slot. Qed.

Lemma owners_set slot m h : owners slot (set_owners slot m h) = m.
Proof. by destruct slot. Qed.
Lemma owners_set_ne slot slot' m h : slot' <> slot -> owners slot' (set_owners slot m h) = owners slot' h.
Proof. by destruct slot, slot'. Qed.
Lemma owners_upd slot f h : owners slot (upd f h) = owners slot h.
Proof. by destruct slot. Qed.
Lemma st_set_owners slot m h : st (set_owners slot m h) = st h.
Proof. by destruct slot. Qed.

Lemma insert_owners_spec slot neurons h :
  insert_owners slot neurons h = set_owners slot (index_of neurons (owners slot h)) h.
Proof.
  revert h. induction neurons as [|n rest IH]; intros h; cbn [insert_owners index_of].
  - by destruct slot, h.
  - unfold insert_owners in *. cbn [fold_left]. rewrite IH.
    destruct (owner_for_neuron n); [|done]. unfold insert_owner. by destruct slot.
Qed.

Lemma index_of_app l1 l2 m : index_of (l1 ++ l2) m = index_of l2 (index_of l1 m).
Proof. revert m. induction l1 as [|n l1 IH]; intros m; cbn; [done|]. apply IH. Qed.

Lemma owns_scan_true g root expected h :
  owns_scan g root expected h = true ->
  reward_sns_root_canister_id (config (st h)) = Some root /\ scan (st h) = expected.
Proof.
  unfold owns_scan. rewrite !andb_true_iff. intros [[[_ _] H2] H3].
  by apply bool_decide_eq_true in H2, H3.
Qed.

Lemma index_ok_start g root response now_nanos h :
  index_ok h -> index_ok (finish_start_scan g root response now_nanos h).2.
Proof.
  intros Hok. unfold finish_start_scan. destruct (owns_scan _ _ _ _) eqn:Eo; cbn [negb]; [|done].
  destruct response as [resolved|]; [|done]. destruct (resolve_components _ _) as [[governance ledger]|]; [|done].
  cbn zeta. apply owns_scan_true in Eo as [Hr Hnone]. destruct Hok as [Hp Hs Hc].
  set (slot := match active_snapshot (st h) with Some s => other (active_slot s) | None => SlotA end).
  constructor.
  - done.
  - cbn -[clear_slot]. intros s Hsn. unfold clear_slot in *. rewrite st_set_owners in Hsn.
    pose proof (Hs _ Hsn) as [Ho (neurons & Hn)].
    assert (active_slot s <> slot) as Hne by (unfold slot; rewrite Hsn; intros E; by apply (other_ne (active_slot s))).
    constructor; [cbn; by rewrite st_set_owners|]. exists neurons. by rewrite owners_upd, owners_set_ne.
  - intros s [= <-]. constructor; cbn -[clear_slot].
    + intros s Hsn. unfold clear_slot in Hsn. rewrite st_set_owners in Hsn. unfold slot. by rewrite Hsn.
    + exists 0%nat, []. split; [constructor|]. split; [done|]. unfold clear_slot. rewrite owners_upd, owners_set.
      by split.
    + done.
Qed.

(** The invariant sees the slot of the scan and the state. *)
Lemma snapshot_ok_other h h' s :
  snapshot_ok h s -> owners (active_slot s) h' = owners (active_slot s) h ->
  next_snapshot_id (st h) <= next_snapshot_id (st h') -> snapshot_ok h' s.
Proof.
  intros [Ho Hn] E Hle. constructor; [lia|]. by rewrite E.
Qed.

Lemma scan_next h s neurons next :
  scan_ok h s -> answered (scan_governance s) (start_page_at s) neurons ->
  validate_page s neurons = Ok next -> SNS_NEURON_PAGE_SIZE <= Z.of_nat (length neurons) ->
  exists pages before, scanned (scan_governance s) (S pages) next (before ++ neurons) /\
    pages_processed s = Z.of_nat pages /\ owners (staging_slot s) h = index_of before [] /\
    neurons_processed s = Z.min (Z.of_nat (length before)) u64_max.
Proof.
  intros [_ (pages & before & Hsc & Hpg & Ho & Hn) _] Ha Hv Hfull. unfold validate_page in Hv.
  destruct (validate_ids _ _) as [last_id|] eqn:Ev; [|done]. injection Hv as <-.
  exists pages, before. split; [|done]. econstructor; [done|done| |done]. rewrite Ev. f_equal.
  apply validate_ids_ok in Ev as (ids & E & _ & _ & _ & ->).
  assert (last ids <> None) as Hne.
  { intros El%last_None. subst ids. destruct neurons; [cbn in Hfull; unfold SNS_NEURON_PAGE_SIZE in Hfull; lia|done]. }
  destruct (last ids) as [id|] eqn:El; [|done].
  assert (last (map neuron_id_bytes neurons) = Some (Some id)) as Elast.
  { rewrite E. change (map Some ids) with (Some <$> ids). by rewrite fmap_last, El. }
  change (map neuron_id_bytes neurons) with (neuron_id_bytes <$> neurons) in Elast. rewrite fmap_last in Elast.
  destruct (last neurons); cbn in *; [by injection Elast|done].
Qed.

Lemma neurons_total before neurons :
  sat_add (Z.min (Z.of_nat (length (A:=SnsNeuron) before)) u64_max) (Z.of_nat (length (A:=SnsNeuron) neurons))
  = Z.min (Z.of_nat (length (before ++ neurons))) u64_max.
Proof. rewrite length_app. unfold sat_add. lia. Qed.

Lemma index_ok_page g s response now_nanos schedule h :
  (forall neurons, response = Ok neurons -> answered (scan_governance s) (start_page_at s) neurons) ->
  index_ok h -> index_ok (finish_page g s response now_nanos schedule h).2.
Proof.
  intros Ha Hok. unfold finish_page. destruct (owns_scan _ _ _ _) eqn:Eo; cbn [negb]; [|done].
  assert (index_ok (fail_scan h)) as Hfail by (eapply index_ok_frame; eauto; by right).
  destruct response as [neurons|]; [|done]. specialize (Ha _ eq_refl).
  destruct (validate_page _ _) as [next|] eqn:Ev; [|done]. cbn zeta.
  apply owns_scan_true in Eo as [_ Hscan]. pose proof Hok as [Hp Hs Hc]. pose proof (Hc _ Hscan) as Hsc.
  rewrite insert_owners_spec. set (m := index_of neurons _). set (slot := staging_slot s).
  set (updated := advance_scan neurons next s).
  set (h1 := upd _ _).
  assert (owners slot h1 = m) as Em by (unfold h1; by rewrite owners_upd, owners_set).
  assert (forall s', active_snapshot (st h) = Some s' -> snapshot_ok h1 s') as Hs1.
  { intros s' Hs'. apply (snapshot_ok_other h); [by apply Hs| |].
    - unfold h1. rewrite owners_upd, owners_set_ne; [done|]. unfold slot. rewrite (scan_apart _ _ Hsc _ Hs').
      apply not_eq_sym, other_ne.
    - unfold h1. cbn. rewrite st_set_owners. lia. }
  assert (active_snapshot (st h1) = active_snapshot (st h)) as Ea1 by (unfold h1; cbn; by rewrite st_set_owners).
  assert (stable_state h1 = Some (st h1)) as Ep1 by done.
  destruct (Z.ltb_spec (Z.of_nat (length neurons)) SNS_NEURON_PAGE_SIZE) as [Hshort|Hfull]; cbn [negb].
  - (* the last page *)
    unfold publish. rewrite <- Ea1 in Hs1. constructor; [done| |done].
    intros s' [= <-]. constructor; cbn [next_snapshot_id snap_id active_slot snap_governance neuron_count owner_count].
    + cbn. unfold sat_add. rewrite st_set_owners. unfold const. lia.
    + destruct Hsc as [_ (pages & before & Hr & _ & Ho & Hn) _]. exists (before ++ neurons).
      cbn [snd]. rewrite owners_upd. change (staging_slot s) with slot. rewrite Em.
      split; [|split; [|split]].
      * exists pages, (start_page_at s), before, neurons. unfold validate_page in Ev.
        destruct (validate_ids _ _); [|done]. eexists. done.
      * unfold m. by rewrite Ho, index_of_app.
      * by rewrite Hn, neurons_total.
      * by rewrite <- Em.
  - destruct (scan_next _ _ _ _ Hsc Ha Ev Hfull) as (pages & before & Hr & Hpg & Ho & Hn).
    assert (stable_state (fail_scan h1) = Some (st (fail_scan h1))) as Ef1 by done.
    destruct (Z.leb_spec SNS_OWNER_SCAN_MAX_PAGES (pages_processed updated)) as [|Hcap].
    { constructor; [done| |done]. intros s' Hs'. change (active_snapshot (st h1) = Some s') in Hs'. rewrite Ea1 in Hs'.
      apply (snapshot_ok_other h1); [by apply Hs1|by destruct (active_slot s')|]. cbn; rewrite st_set_owners; unfold const; lia. }
    assert (index_ok h1) as Hok1.
    { constructor; [done| |].
      - intros s' Hs'. rewrite Ea1 in Hs'. by apply Hs1.
      - intros s' [= <-]. constructor; [|exists (S pages), (before ++ neurons)|done].
        + intros s' Hs'. rewrite Ea1 in Hs'. by apply (scan_apart _ _ Hsc).
        + change (staging_slot updated) with slot. split; [done|]. split; [|split].
          * change (pages_processed updated) with (1 + pages_processed s). lia.
          * rewrite Em. unfold m. by rewrite Ho, index_of_app.
          * change (neurons_processed updated) with (sat_add (neurons_processed s) (Z.of_nat (length neurons))).
            by rewrite Hn, neurons_total. }
    destruct schedule; [|done]. eapply index_ok_frame; eauto.
Qed.

Lemma index_ok_upgrade args h h' : index_ok h -> post_upgrade args h = Some h' -> index_ok h'.
Proof.
  intros Hok. pose proof Hok as [Hp _ _]. unfold post_upgrade, restore. rewrite Hp. cbn zeta beta. intros [= <-].
  destruct (args ≫= upgrade_root) as [root|]; [|by eapply index_ok_frame; eauto].
  case_bool_decide; [by eapply index_ok_frame; eauto|]. by constructor.
Qed.

Lemma index_ok_step h h' : canister_step h h' -> index_ok h -> index_ok h'.
Proof.
  intros Hstep Hok. pose proof Hok as [Hp _ _].
  destruct Hstep as [now_secs h|g h|g root response now_nanos h|g s response now_nanos schedule h Ha|h|timer n h|args h h' Hu].
  - unfold scan_acquire. destruct (Timer.acquire _ _ _); eapply index_ok_frame; eauto.
  - unfold scan_drop. destruct (negb _); [done|]. destruct (Timer.release _ _).1; eapply index_ok_frame; eauto.
  - by apply index_ok_start.
  - by apply index_ok_page.
  - eapply index_ok_frame; eauto.
  - eapply index_ok_frame; eauto.
  - by eapply index_ok_upgrade.
Qed.

Lemma index_ok_init args : index_ok (init args).
Proof. by constructor. Qed.

Definition reachable (h : Heap) : Prop := exists args, rtc canister_step (init args) h.

Lemma reachable_ok h : reachable h -> index_ok h.
Proof.
  intros [args Hr]. revert Hr. generalize (index_ok_init args). generalize (init args). intros h0 Hok Hr.
  induction Hr; [done|]. eauto using index_ok_step.
Qed.

(** *** What is in the index *)

Lemma last_filter_snoc {A} (Q : A -> Prop) `{!forall x, Decision (Q x)} l x :
  last (filter Q (l ++ [x])) = if decide (Q x) then Some x else last (filter Q l).
Proof.
  rewrite filter_app, last_app. destruct (decide (Q x)).
  - by rewrite filter_cons_True.
  - rewrite filter_cons_False by done. by rewrite filter_nil.
Qed.

Definition owners_of (neurons : list SnsNeuron) : list Principal := omap owner_for_neuron neurons.

Lemma index_of_get account neurons :
  btree_get account (index_of neurons []) = last (filter (fun p => account_of p = account) (owners_of neurons)).
Proof.
  induction neurons as [|n l IH] using rev_ind; [done|].
  unfold owners_of in *. rewrite index_of_app, omap_app. cbn.
  destruct (owner_for_neuron n) as [p|]; [|by rewrite app_nil_r].
  rewrite last_filter_snoc. case_decide as E.
  - rewrite <- E. apply btree_get_insert.
  - by rewrite btree_get_insert_ne.
Qed.

Lemma index_of_wf neurons m : btree_wf m -> btree_wf (index_of neurons m).
Proof.
  revert m. induction neurons as [|n l IH]; intros m Hm; cbn; [done|]. apply IH.
  destruct (owner_for_neuron n); [by apply btree_insert_wf|done].
Qed.

(** One entry per account. *)
Lemma index_of_count neurons :
  length (index_of neurons []) = length (remove_dups (map account_of (owners_of neurons))).
Proof.
  pose proof (index_of_wf neurons [] ltac:(constructor)) as Hwf.
  transitivity (length (btree_keys (index_of neurons []))); [by unfold btree_keys; rewrite length_map|].
  apply Permutation_length, NoDup_Permutation; [by apply btree_wf_NoDup|apply NoDup_remove_dups|].
  intros account. rewrite elem_of_remove_dups, list_elem_of_fmap. split.
  - intros ([k p] & -> & Hin)%list_elem_of_fmap. apply btree_wf_get in Hin; [|done]. cbn.
    rewrite index_of_get in Hin. apply last_Some_elem_of, list_elem_of_filter in Hin as [<- Hp]. by exists p.
  - intros (p & -> & Hp).
    destruct (btree_get (account_of p) (index_of neurons [])) as [q|] eqn:Eg.
    + apply btree_get_elem in Eg. by apply (list_elem_of_fmap_2 fst) in Eg.
    + rewrite index_of_get in Eg. apply last_None in Eg.
      assert (p ∈ filter (fun q => account_of q = account_of p) (owners_of neurons)) as Hin
        by by apply list_elem_of_filter.
      rewrite Eg in Hin. by apply elem_of_nil in Hin.
Qed.

Lemma complete_scan_ascending governance neurons : complete_scan governance neurons -> ascending neurons.
Proof.
  intros (pages & cursor & before & page & next & Hsc & _ & Hv & _ & ->).
  apply scanned_ascending in Hsc as (ids & E & Hl & Hs & ->).
  apply validate_ids_ok in Hv as (new & E' & Hl' & Hs' & Hc & _).
  exists (ids ++ new). rewrite !map_app, E, E'. split; [done|]. split; [by apply Forall_app|].
  by apply sorted_app_last; [apply ltb_trans|..].
Qed.

(** *** What a step does to the published index *)

Inductive published_step (h h' : Heap) : Prop :=
| published_kept : active_snapshot (st h') = active_snapshot (st h) ->
    next_snapshot_id (st h') = next_snapshot_id (st h) ->
    (forall s, active_snapshot (st h) = Some s -> owners (active_slot s) h' = owners (active_slot s) h) ->
    published_step h h'
| published_gone : active_snapshot (st h') = None -> next_snapshot_id (st h') = next_snapshot_id (st h) ->
    published_step h h'
| published_new s : active_snapshot (st h') = Some s -> snap_id s = next_snapshot_id (st h) ->
    next_snapshot_id (st h') = sat_add (next_snapshot_id (st h)) 1 -> published_step h h'.

Lemma published_frame h h' :
  active_snapshot (st h') = active_snapshot (st h) -> next_snapshot_id (st h') = next_snapshot_id (st h) ->
  owners_a h' = owners_a h -> owners_b h' = owners_b h -> published_step h h'.
Proof. intros. apply published_kept; [done|done|]. intros s _. destruct (active_slot s); cbn; congruence. Qed.

Lemma canister_step_published h h' : index_ok h -> canister_step h h' -> published_step h h'.
Proof.
  intros Hok Hstep. pose proof Hok as [Hp _ Hc].
  destruct Hstep as [now_secs h|g h|g root response now_nanos h|g s response now_nanos schedule h Ha|h|timer n h|args h h' Hu].
  - unfold scan_acquire. destruct (Timer.acquire _ _ _); by apply published_frame.
  - unfold scan_drop. destruct (negb _); [by apply published_frame|].
    destruct (Timer.release _ _).1; by apply published_frame.
  - unfold finish_start_scan. destruct (negb _); [by apply published_frame|].
    destruct response as [resolved|]; [|by apply published_frame].
    destruct (resolve_components _ _) as [[governance ledger]|]; [|by apply published_frame]. cbn zeta.
    unfold clear_slot. apply published_kept; cbn [snd]; [cbn; by rewrite st_set_owners..|]. intros s Hs. rewrite Hs.
    rewrite owners_upd, owners_set_ne; [done|]. apply not_eq_sym, other_ne.
  - unfold finish_page. destruct (owns_scan _ _ _ _) eqn:Eo; cbn [negb]; [|by apply published_frame].
    destruct response as [neurons|]; [|by apply published_frame].
    destruct (validate_page _ _) as [next|]; [|by apply published_frame]. cbn zeta.
    apply owns_scan_true in Eo as [_ Hscan]. pose proof (scan_apart _ _ (Hc _ Hscan)) as Hapart.
    rewrite insert_owners_spec. set (m := index_of neurons _). set (updated := advance_scan neurons next s).
    assert (forall s' f, active_snapshot (st h) = Some s' ->
              owners (active_slot s') (upd f (set_owners (staging_slot s) m h)) = owners (active_slot s') h) as Hkept.
    { intros s' f Hs'. rewrite owners_upd, owners_set_ne; [done|]. rewrite (Hapart _ Hs'). apply not_eq_sym, other_ne. }
    destruct (negb _).
    + destruct (_ <=? _); [|destruct schedule]; (apply published_kept; cbn [snd]; [cbn; by rewrite st_set_owners..|]);
        intros s' Hs'; [unfold fail_scan; rewrite owners_upd|change (owners (active_slot s') (schedule_continuation ?x))
          with (owners (active_slot s') x)|]; by rewrite Hkept.
    + eapply published_new; cbn; rewrite ?st_set_owners; done.
  - by apply published_frame.
  - by apply published_frame.
  - unfold post_upgrade, restore in Hu. rewrite Hp in Hu. cbn zeta beta in Hu. injection Hu as <-.
    destruct (args ≫= upgrade_root) as [root|]; [|by apply published_frame].
    case_bool_decide; [by apply published_frame|by apply published_gone].
Qed.

Lemma snapshot_ids_grow h h' :
  index_ok h -> rtc canister_step h h' -> Z.min (next_snapshot_id (st h)) u64_max <= next_snapshot_id (st h').
Proof.
  intros Hok Hr.
  enough (index_ok h' /\ Z.min (next_snapshot_id (st h)) u64_max <= next_snapshot_id (st h')) by tauto.
  revert h' Hr. apply (rtc_ind_r _ h); [split; [done|lia]|]. intros h1 h2 Hr Hstep [Hok1 Hle].
  split; [by eapply index_ok_step|].
  destruct (canister_step_published _ _ Hok1 Hstep) as [_ En _|_ En|s _ _ En]; rewrite En; unfold sat_add; lia.
Qed.

(** The index [m] was published under [id]: what is published under [id] later is it. *)
Definition answers_kept (id : Z) (m : btree_map (list Z) Principal) (h : Heap) : Prop :=
  id < next_snapshot_id (st h) /\
  forall s, active_snapshot (st h) = Some s -> snap_id s = id -> owners (active_slot s) h = m.

Lemma answers_kept_steps id m h h' :
  index_ok h -> rtc canister_step h h' -> next_snapshot_id (st h') < u64_max ->
  answers_kept id m h -> answers_kept id m h'.
Proof.
  intros Hok Hr Hlt Hk.
  enough (index_ok h' /\ (next_snapshot_id (st h') < u64_max -> answers_kept id m h')) by tauto. clear Hlt.
  revert h' Hr. apply (rtc_ind_r _ h); [done|]. intros h1 h2 Hr Hstep [Hok1 Hk1].
  split; [by eapply index_ok_step|]. intros Hlt.
  destruct (canister_step_published _ _ Hok1 Hstep) as [Ea En Ho|Ea En|s Ea Eid En]; rewrite En in Hlt.
  - destruct (Hk1 Hlt) as [Hid Hs]. split; [by rewrite En|]. intros s Hs'. rewrite Ea in Hs'. rewrite (Ho _ Hs').
    by apply Hs.
  - destruct (Hk1 Hlt) as [Hid Hs]. split; [by rewrite En|]. intros s Hs'. congruence.
  - unfold sat_add in *. destruct Hk1 as [Hid Hs]; [lia|]. split; [rewrite En; lia|].
    intros s' Hs' Eid'. rewrite Ea in Hs'. injection Hs' as <-. lia.
Qed.

End index.

(** A scan of three neurons. *)
Module ConcreteSns.
Import Concrete ConcreteHash.
Definition neuron (id : Z) (owner : Z) : SnsNeuron (H:=concrete_principal) :=
  MkSnsNeuron concrete_principal (Some (replicate 31 0 ++ [id]))
    [MkNeuronPermission concrete_principal (Some owner) [1]] 100 10.
Definition all : list (SnsNeuron (H:=concrete_principal)) := [neuron 1 5; neuron 2 6; neuron 3 5].
Definition deployed : ListSnsCanistersResponse (H:=concrete_principal) :=
  MkSnsCanisters concrete_principal (Some 20) (Some 21) (Some 12) None None [] [] None.
Definition answered (governance : Z) (cursor : option (list Z)) (l : list (SnsNeuron (H:=concrete_principal))) : Prop :=
  l = all.
Definition g : Timer.TimerLeaseGuard := Timer.MkGuard true 1900.
Definition acquired : Heap (P:=concrete_principal) :=
  (scan_acquire 100 (init (P:=concrete_principal) (MkInitArgs (P:=concrete_principal) (Some 20)))).2.
Definition started : Heap (P:=concrete_principal) := (finish_start_scan g 20 (Ok deployed) 100000000000 acquired).2.
Definition scan0 : OwnerScan (P:=concrete_principal) :=
  MkScan (P:=concrete_principal) SlotA 20 21 12 100000000000 None 0 0.
Definition done_scan : Heap (P:=concrete_principal) := (finish_page g scan0 (Ok all) 100000000000 true started).2.
Definition rescanned : Heap (P:=concrete_principal) :=
  (finish_page g (scan0 <| staging_slot := SlotB |>) (Ok all) 100000000000 true
    (finish_start_scan g 20 (Ok deployed) 100000000000 done_scan).2).2.

Lemma done_reachable : reachable (P:=concrete_principal) answered done_scan.
Proof.
  exists (MkInitArgs (P:=concrete_principal) (Some 20)).
  eapply rtc_l; [apply step_acquire with (now_secs := 100)|].
  eapply rtc_l; [apply step_start with (g := g) (root := 20) (response := Ok deployed) (now_nanos := 100000000000)|].
  eapply rtc_l; [|apply rtc_refl]. apply step_page. by intros neurons [= <-].
Qed.
End ConcreteSns.

(** C25: At every reachable state the published index is exactly that of one complete
    scan of the governance canister it names: the neurons of successive pages, each
    after the last id of the one before, ascending without a repetition, and the last
    page not full.  An account is answered by the owner of the last neuron that it
    belongs to, and the counts are those of the neurons and of the accounts. *)
Theorem published_index_exact `{P : PrincipalSpec} `{H : HashSpec}
    (answered : Principal -> option (list Z) -> list SnsNeuron -> Prop) (h : Heap) (s : OwnerSnapshot)
    (Hreach : reachable answered h) (Hsnap : active_snapshot (st h) = Some s) :
  exists neurons, complete_scan answered (snap_governance s) neurons /\ ascending neurons /\
    (forall account, lookup_owner (active_slot s) account h =
      last (filter (fun p => account_of p = account) (owners_of neurons))) /\
    neuron_count s = Z.min (Z.of_nat (length neurons)) u64_max /\
    owner_count s = Z.of_nat (length (remove_dups (map account_of (owners_of neurons)))).
Proof.
  destruct (snapshot_sound _ _ (reachable_ok _ _ Hreach) _ Hsnap) as [_ (neurons & Hc & Ho & Hn & Hcount)].
  exists neurons. split; [done|]. split; [by eapply complete_scan_ascending|]. unfold lookup_owner. rewrite Ho in *.
  split; [intros account; apply index_of_get|]. split; [done|]. by rewrite Hcount, index_of_count.
Qed.

Lemma published_index_exact_witness :
  reachable (P:=Concrete.concrete_principal) (H:=ConcreteHash.concrete_hash) ConcreteSns.answered ConcreteSns.done_scan /\
  exists s neurons, complete_scan (P:=Concrete.concrete_principal) ConcreteSns.answered (snap_governance s) neurons /\
    neuron_count s = Z.min (Z.of_nat (length neurons)) u64_max.
Proof.
  pose proof ConcreteSns.done_reachable as Hr.
  split; [exact Hr|].
  destruct (published_index_exact (P:=Concrete.concrete_principal) (H:=ConcreteHash.concrete_hash)
    ConcreteSns.answered ConcreteSns.done_scan _ Hr eq_refl) as (neurons & H1 & _ & _ & H2 & _).
  eexists _, neurons. split; [exact H1|exact H2].
Defined.

(** C26: The answers for a snapshot id never change: whatever scans, late replies and
    upgrades happen in between, a later query for the same id gives the same owners
    or says that the snapshot changed (until the ids are exhausted). *)
Theorem snapshot_answers_stable `{P : PrincipalSpec} `{H : HashSpec}
    (answered : Principal -> option (list Z) -> list SnsNeuron -> Prop) (h h' : Heap)
    (id : Z) (identifiers : list (list Z)) (found : list (option Principal))
    (Hreach : reachable answered h) (Hlater : rtc (canister_step answered) h h')
    (Hids : next_snapshot_id (st h') < u64_max)
    (Hfound : resolve_default_icp_accounts id identifiers h = Resolved found) :
  resolve_default_icp_accounts id identifiers h' = Resolved found \/
  resolve_default_icp_accounts id identifiers h' = SnapshotChanged.
Proof.
  pose proof (reachable_ok _ _ Hreach) as Hok. unfold resolve_default_icp_accounts in *.
  destruct (_ <? _); [done|]. destruct (malformed_identifier _); [done|].
  destruct (active_snapshot (st h)) as [s|] eqn:Es; [|done].
  destruct (Z.eqb_spec (snap_id s) id) as [<-|]; cbn [negb] in Hfound; [|done]. injection Hfound as <-.
  assert (answers_kept (snap_id s) (owners (active_slot s) h) h') as [_ Hk].
  { eapply answers_kept_steps; [done|done|done|]. split; [|by intros s' Hs' _; rewrite Es in Hs'; injection Hs' as <-].
    destruct (snapshot_older _ _ _ (snapshot_sound _ _ Hok _ Es)) as [|Hmax]; [done|].
    pose proof (snapshot_ids_grow _ _ _ Hok Hlater). lia. }
  destruct (active_snapshot (st h')) as [s'|] eqn:Es'; [|by right].
  destruct (Z.eqb_spec (snap_id s') (snap_id s)) as [E|]; cbn [negb]; [|by right]. left. f_equal.
  apply map_ext. intros account. unfold lookup_owner. by rewrite (Hk _ eq_refl E).
Qed.

Lemma snapshot_answers_stable_witness :
  let account := account_of (P:=Concrete.concrete_principal) (H:=ConcreteHash.concrete_hash) 6 in
  rtc (canister_step (P:=Concrete.concrete_principal) (H:=ConcreteHash.concrete_hash) ConcreteSns.answered)
    ConcreteSns.done_scan ConcreteSns.rescanned /\
  (resolve_default_icp_accounts 1 [account] ConcreteSns.rescanned = Resolved [Some (6 : Principal (PrincipalSpec:=Concrete.concrete_principal))] \/
   resolve_default_icp_accounts 1 [account] ConcreteSns.rescanned = SnapshotChanged).
Proof.
  cbn zeta. assert (rtc (canister_step (P:=Concrete.concrete_principal) (H:=ConcreteHash.concrete_hash)
    ConcreteSns.answered) ConcreteSns.done_scan ConcreteSns.rescanned) as Hr.
  { eapply rtc_l; [apply step_start with (g := ConcreteSns.g) (root := 20) (response := Ok ConcreteSns.deployed)
                     (now_nanos := 100000000000)|].
    eapply rtc_l; [|apply rtc_refl]. apply step_page. by intros neurons [= <-]. }
  split; [exact Hr|].
  apply (snapshot_answers_stable (P:=Concrete.concrete_principal) (H:=ConcreteHash.concrete_hash)
    ConcreteSns.answered ConcreteSns.done_scan);
    [exact ConcreteSns.done_reachable|exact Hr|vm_compute; reflexivity|vm_compute; reflexivity].
Defined.
