(* ===== verification/SnsRewardsRun.v ===== *)
(** * SNS rewards: the runs of the scan tick

    A tick refines the atomic steps of [SnsRewardsIndex.canister_step] and asks only
    for what its scan needs; and without interference the ticks complete a scan. *)

From stdpp Require Import sorting relations.
From S2P Require Import Prelude BTree Async Ic Accounts Clients TimerGuard SnsRewards SnsRewardsIndex.

Section refinement.
Context `{P : PrincipalSpec} `{H : HashSpec}.
#[local] Existing Instance Principal_eq_dec.
Context (answered : Principal -> option (list Z) -> list SnsNeuron -> Prop).
Abbreviation step := (canister_step answered).
Abbreviation world := (world Heap SuiteCall).

(** The calls of a tick: the components of the configured root, when no scan is under
    way, or the next page of the scan. *)
Definition scan_call (ev : event Heap SuiteCall) : Prop :=
  match ev with
  | Dispatch c h =>
      match c with
      | ListSnsCanisters root => reward_sns_root_canister_id (config (st h)) = Some root
      | ListSnsNeurons governance cursor =>
          exists s, scan (st h) = Some s /\ governance = scan_governance s /\ cursor = start_page_at s
      | _ => False
      end
  end.

(** From [w] to [w']: steps of the canister and at most [n] calls. *)
Record refines (n : nat) (w w' : world) : Prop := {
  refines_steps : rtc step (w_state w) (w_state w');
  refines_calls : traced scan_call (w_trace w) w';
  refines_length : (length (w_trace w') <= length (w_trace w) + n)%nat;
}.

Lemma refines_refl w : refines 0 w w.
Proof. constructor; [done|apply traced_refl|lia]. Qed.

Lemma refines_trans n m w1 w2 w3 : refines n w1 w2 -> refines m w2 w3 -> refines (n + m) w1 w3.
Proof.
  intros [S1 C1 L1] [S2 C2 L2]. constructor; [by etrans|by eapply traced_trans|lia].
Qed.

Lemma refines_more n m w w' : (n <= m)%nat -> refines n w w' -> refines m w w'.
Proof. intros ? []. constructor; [done|done|lia]. Qed.

Lemma refines_step n w h h' t : refines n w (World h t) -> step h h' -> refines n w (World h' t).
Proof. intros [S C L] Hs. constructor; [by eapply rtc_r|done|done]. Qed.

Lemma refines_call {A} n w h h' (c : SuiteCall A) t :
  refines n w (World h t) -> rtc step h h' -> scan_call (Dispatch c h) ->
  refines (S n) w (World h' (Dispatch c h :: t)).
Proof.
  intros [S C L] Hs Hc. constructor; [by etrans|by eapply traced_cons|cbn in *; lia].
Qed.

Context (e : env Heap SuiteCall) (Hrely : rely (rtc step) e).
Context (Hreplies : forall n governance cursor neurons,
  env_reply e n _ (ListSnsNeurons governance cursor) = Ok neurons -> answered governance cursor neurons).

Lemma step_schedule d force h : step h (schedule_scan_check d force h).
Proof. exact (step_timers _ (Some (MkScanCheck d force)) (continuations h) h). Qed.

Lemma start_scan_refines n g w w1 :
  refines n w w1 -> wp e (start_scan g) (fun _ w' => refines (S n) w w') w1.
Proof using Hrely.
  intros Hw. unfold start_scan. wp_step. wp_step. destruct (reward_sns_root_canister_id _) as [root|] eqn:Er;
    [|apply wp_ret; by eapply refines_more; [|exact Hw]; lia].
  apply wp_bind. unfold list_sns_canisters. apply wp_bind, wp_await. intros a s _ ->. apply wp_ret.
  apply wp_bind, wp_now, wp_with_state_mut. destruct w1 as [h t]. cbn [w_state w_trace] in *.
  eapply refines_step; [|apply step_start]. by apply refines_call; [done|apply Hrely|].
Qed.

Lemma process_one_page_refines n g now_nanos schedule w w1 :
  refines n w w1 -> wp e (process_one_page g now_nanos schedule) (fun _ w' => refines (S n) w w') w1.
Proof using Hrely Hreplies.
  intros Hw. assert (refines (S n) w w1) as Hw' by (eapply refines_more; [|exact Hw]; lia).
  unfold process_one_page. wp_step. wp_step. destruct (scan _) as [s|] eqn:Es; [|by apply wp_ret].
  destruct w1 as [h t]. cbn [w_state w_trace] in *. destruct (_ <=? _).
  - apply wp_bind, wp_modify, wp_ret. by eapply refines_step; [|apply step_cap].
  - apply wp_bind. unfold list_neurons. apply wp_bind, wp_await. intros a h' Ha ->. apply wp_ret, wp_with_state_mut.
    eapply refines_step.
    + apply refines_call; [done|apply Hrely|]. by exists s.
    + apply step_page. intros neurons E. apply (Hreplies (length t)).
      destruct a as [l|[]]; [injection E as <-; by symmetry|done..].
Qed.

Lemma begin_scan_refines n g force now_nanos w w1 :
  refines n w w1 -> wp e (begin_scan g force now_nanos) (fun _ w' => refines (S n) w w') w1.
Proof using Hrely.
  intros Hw. assert (refines (S n) w w1) as Hw' by (eapply refines_more; [|exact Hw]; lia).
  unfold begin_scan. wp_step. wp_step. destruct (negb _); [by apply wp_ret|]. wp_step. wp_step.
  destruct (negb _).
  - apply wp_bind, wp_modify, wp_ret. destruct w1. by eapply refines_step; [|apply step_schedule].
  - apply wp_bind. eapply wp_mono; [exact (start_scan_refines _ g _ _ Hw)|]. intros r [h t] Hr.
    destruct r; [|by apply wp_ret..|]; apply wp_bind, wp_modify, wp_ret;
      (eapply refines_step; [done|apply step_schedule]).
Qed.

Lemma scan_body_refines n g force now_nanos w w1 :
  refines n w w1 -> wp e (scan_body g force now_nanos) (fun _ w' => refines (2 + n) w w') w1.
Proof using Hrely Hreplies.
  intros Hw. unfold scan_body. apply wp_bind. eapply wp_mono; [exact (begin_scan_refines _ g force now_nanos _ _ Hw)|].
  intros active w2 H2. destruct (negb _); [apply wp_ret; eapply refines_more; [|exact H2]; lia|].
  apply wp_bind, wp_now, wp_bind. eapply wp_mono; [exact (process_one_page_refines _ g _ _ _ _ H2)|]. intros r [h t] H3.
  destruct r; [by apply wp_ret..| |]; [apply wp_bind, wp_now|]; apply wp_modify;
    (eapply refines_step; [done|apply step_schedule]).
Qed.

Lemma scan_tick_refines force w : wp e (scan_tick force) (fun _ w' => refines 2 w w') w.
Proof using Hrely Hreplies.
  unfold scan_tick. wp_step. wp_step. wp_step. apply wp_with_state_mut.
  set (now_secs := _ / _). destruct w as [h t]. cbn [w_state w_trace].
  pose proof (step_acquire answered now_secs h) as Hstep. destruct (scan_acquire now_secs h) as [[g|] h1]; cbn [fst snd] in *.
  - apply wp_bind. eapply wp_mono.
    + apply scan_body_refines. eapply refines_step; [apply refines_refl|exact Hstep].
    + intros [] [h2 t2] H2. apply wp_modify. eapply refines_step; [exact H2|apply step_drop].
  - assert (refines 2 (World h t) (World h1 t)) as H1.
    { eapply refines_more; [|by eapply refines_step; [apply refines_refl|exact Hstep]]. lia. }
    destruct force; [by apply wp_ret|]. apply wp_modify. eapply refines_step; [exact H1|apply step_schedule].
Qed.

End refinement.

(** ** A scan without interference *)

Section completion.
Context `{P : PrincipalSpec} `{H : HashSpec}.
#[local] Existing Instance Principal_eq_dec.
Abbreviation world := (world Heap SuiteCall).

(** The page of the governance canister: the first hundred neurons after the cursor. *)
Definition page_after (all : list SnsNeuron) (cursor : option (list Z)) : list SnsNeuron :=
  take (Z.to_nat SNS_NEURON_PAGE_SIZE)
    match cursor with
    | None => all
    | Some c => filter (fun n => is_some_and (neuron_id_bytes n) (ltb c) = true) all
    end.

Context (all : list SnsNeuron) (Hall : ascending all).
Context (root governance ledger : Principal) (id : Z).

(** The position after [n] neurons. *)
Definition cursor_at (n : nat) : option (list Z) := last (take n all) ≫= neuron_id_bytes.

Lemma ascending_split l1 l2 : ascending (l1 ++ l2) ->
  exists ids1 ids2, map neuron_id_bytes l1 = map Some ids1 /\ map neuron_id_bytes l2 = map Some ids2 /\
    Forall (fun i => length i = 32%nat) ids2 /\ StronglySorted (fun a b => ltb a b = true) ids2 /\
    forall c, last ids1 = Some c -> Forall (fun i => ltb c i = false) ids1 /\ Forall (fun i => ltb c i = true) ids2.
Proof.
  intros (ids & E & Hl & Hs). rewrite map_app in E. symmetry in E.
  change (map Some ids) with (Some <$> ids) in E. apply fmap_app_inv in E as (ids1 & ids2 & E1 & E2 & ->).
  apply Forall_app in Hl as [_ Hl]. apply StronglySorted_app in Hs as (Hc & Hs1 & Hs2).
  exists ids1, ids2. split; [done|]. split; [done|]. split; [done|]. split; [done|]. intros c Hlast.
  apply last_Some in Hlast as [l ->]. split.
  - apply StronglySorted_app in Hs1 as (Hc1 & _ & _). apply Forall_forall. intros i Hi.
    destruct (ltb c i) eqn:E; [|done]. apply elem_of_app in Hi as [Hi| ->%list_elem_of_singleton].
    + pose proof (ltb_trans _ _ _ E (Hc1 i c Hi ltac:(by left))) as Hirr. by rewrite ltb_irrefl in Hirr.
    + by rewrite ltb_irrefl in E.
  - apply Forall_forall. intros i Hi. apply Hc; [|done]. apply elem_of_app. right. by left.
Qed.

Lemma filter_above c l ids (b : bool) :
  map neuron_id_bytes l = map Some ids -> Forall (fun i => ltb c i = b) ids ->
  filter (fun n => is_some_and (neuron_id_bytes n) (ltb c) = true) l = if b then l else [].
Proof.
  revert l. induction ids as [|i ids IH]; intros [|n l]; try done; [by destruct b|]. intros [= En E] [Hi Hf]%Forall_cons.
  rewrite filter_cons, (IH l E Hf), En. cbn [is_some_and]. rewrite Hi. by destruct b.
Qed.

(** The page after the first [n] neurons is the next hundred. *)
Lemma page_at n :
  page_after all (cursor_at n) = take (Z.to_nat SNS_NEURON_PAGE_SIZE) (drop n all).
Proof using Hall.
  unfold page_after. f_equal. pose proof (take_drop n all) as Esplit.
  destruct (ascending_split (take n all) (drop n all)) as (ids1 & ids2 & E1 & E2 & _ & _ & Hc); [by rewrite Esplit|].
  unfold cursor_at. assert (last (map neuron_id_bytes (take n all)) = Some <$> last ids1) as El
    by (rewrite E1; change (map Some ids1) with (Some <$> ids1); by rewrite fmap_last).
  change (map neuron_id_bytes (take n all)) with (neuron_id_bytes <$> take n all) in El. rewrite fmap_last in El.
  destruct (last ids1) as [c|] eqn:Ec.
  - destruct (last (take n all)) as [x|]; cbn in *; [|done]. injection El as ->.
    destruct (Hc _ eq_refl) as [H1 H2]. rewrite <- Esplit at 1. rewrite filter_app.
    by rewrite (filter_above _ _ _ _ E1 H1), (filter_above _ _ _ _ E2 H2).
  - apply last_None in Ec. subst ids1. destruct (take n all) eqn:Et; [|done]. cbn in Esplit. by rewrite Esplit.
Qed.

Lemma validate_ids_complete previous l ids :
  map neuron_id_bytes l = map Some ids -> Forall (fun i => length i = 32%nat) ids ->
  StronglySorted (fun a b => ltb a b = true) ids ->
  (forall c, previous = Some c -> Forall (fun i => ltb c i = true) ids) ->
  exists next, validate_ids previous l = Ok next.
Proof.
  revert previous l. induction ids as [|i ids IH]; intros previous [|n l]; cbn [map]; try done; [by eauto|].
  intros [= En E] [Hi Hl]%Forall_cons [Hs Hall']%StronglySorted_inv Hc. cbn [validate_ids]. rewrite En, Hi. cbn [negb Nat.eqb].
  destruct (is_some_and previous _) eqn:Ep.
  { destruct previous as [c|]; [|done]. cbn in Ep. pose proof (Hc _ eq_refl) as [Hci _]%Forall_cons. by rewrite Hci in Ep. }
  apply IH; [done|done|done|]. by intros c [= <-].
Qed.

(** *** The states between two ticks *)

Definition page_size : nat := Z.to_nat SNS_NEURON_PAGE_SIZE.

(** [k] full pages were read; the lock is that of [lease]. *)
Record scanning (lease : Z) (k : nat) (h : Heap) : Prop := {
  scanning_root : reward_sns_root_canister_id (config (st h)) = Some root;
  scanning_lock : scan_lock_state_ts (st h) = Some lease;
  scanning_id : next_snapshot_id (st h) = id;
  scanning_scan : exists s, scan (st h) = Some s /\ scan_root s = root /\ scan_governance s = governance /\
    scan_ledger s = ledger /\ start_page_at s = cursor_at (k * page_size) /\ pages_processed s = Z.of_nat k /\
    owners (staging_slot s) h = index_of (take (k * page_size) all) [];
}.

(** The snapshot of all the neurons. *)
Record published (h : Heap) : Prop := {
  published_root : reward_sns_root_canister_id (config (st h)) = Some root;
  published_idle : scan (st h) = None;
  published_snapshot : exists s, active_snapshot (st h) = Some s /\ snap_id s = id /\ snap_root s = root /\
    snap_governance s = governance /\ snap_ledger s = ledger /\ owners (active_slot s) h = index_of all [];
}.

(** After the page that follows [k] full ones. *)
Definition advanced (lease : Z) (k : nat) (h : Heap) : Prop :=
  if decide (S k * page_size <= length all)%nat then scanning lease (S k) h else published h.

Lemma page_valid k s : start_page_at s = cursor_at (k * page_size) ->
  validate_page s (take page_size (drop (k * page_size) all)) =
  Ok (last (take page_size (drop (k * page_size) all)) ≫= neuron_id_bytes).
Proof using Hall.
  intros Es. set (n := (k * page_size)%nat) in *. set (page := take page_size (drop n all)).
  assert (ascending (take n all ++ page)) as Hp.
  { destruct Hall as (ids & E & Hl & Hs). unfold page. rewrite take_take_drop. set (m := (n + page_size)%nat).
    rewrite <- (take_drop m ids) in Hs, Hl. apply StronglySorted_app in Hs as (_ & Hs & _). apply Forall_app in Hl as [Hl _].
    exists (take m ids). split; [|done]. change (neuron_id_bytes <$> take m all = Some <$> take m ids).
    rewrite !fmap_take. f_equal. exact E. }
  destruct (ascending_split _ _ Hp) as (ids1 & ids2 & E1 & E2 & Hl & Hs & Hc).
  unfold validate_page. rewrite Es. destruct (validate_ids_complete (cursor_at n) page ids2) as [next ->]; [done..| |done].
  intros c Hcur. apply Hc. unfold cursor_at in Hcur. destruct (last (take n all)) as [x|] eqn:El; [|done]. cbn in Hcur.
  assert (last (neuron_id_bytes <$> take n all) = Some <$> last ids1) as E.
  { change (neuron_id_bytes <$> take n all) with (map neuron_id_bytes (take n all)). rewrite E1. 
    change (map Some ids1) with (Some <$> ids1). by rewrite fmap_last. }
  rewrite fmap_last, El in E. cbn in E. rewrite Hcur in E. by destruct (last ids1); [injection E as <-|].
Qed.

Context (e : env Heap SuiteCall) (quiet : forall n h, env_interleave e n h = h).
Context (pages : forall n cursor, env_reply e n _ (ListSnsNeurons governance cursor) = Ok (page_after all cursor)).
Context (clock : forall n, 0 <= env_clock e n).
Context (fits : (length all < Z.to_nat SNS_OWNER_SCAN_MAX_PAGES * page_size)%nat).

(** The guard of the tick owns the lock. *)
Definition guard_of (lease : Z) : Timer.TimerLeaseGuard := Timer.MkGuard true lease.

Lemma owns_scan_guard lease expected h :
  scan_lock_state_ts (st h) = Some lease -> reward_sns_root_canister_id (config (st h)) = Some root ->
  scan (st h) = expected -> owns_scan (guard_of lease) root expected h = true.
Proof.
  intros E1 E2 E3. unfold owns_scan. cbn. rewrite E1, E2, E3. by rewrite !bool_decide_eq_true_2.
Qed.

Lemma finish_page_advances lease k s now_nanos h :
  scanning lease k h -> scan (st h) = Some s -> (k * page_size <= length all)%nat ->
  let r := finish_page (guard_of lease) s (Ok (page_after all (start_page_at s))) now_nanos true h in
  scan_lock_state_ts (st r.2) = Some lease /\
  if decide (S k * page_size <= length all)%nat then r.1 = InProgress /\ scanning lease (S k) r.2
  else r.1 = Completed /\ published r.2.
Proof using Hall fits.
  intros [Hr Hlock Hid (s' & Es & Hroot & Hgov & Hled & Hcur & Hpg & Hown)] Hs Hk. rewrite Hs in Es. injection Es as <-.
  unfold finish_page. rewrite Hroot, owns_scan_guard by done. cbn [negb].
  rewrite Hcur, page_at. change (Z.to_nat SNS_NEURON_PAGE_SIZE) with page_size. rewrite page_valid by done.
  set (page := take page_size (drop (k * page_size) all)). cbn zeta.
  rewrite insert_owners_spec, Hown, <- index_of_app. set (m := index_of _ []). set (updated := advance_scan _ _ s).
  set (h1 := upd _ _).
  assert (length page = Nat.min page_size (length all - k * page_size)) as Hlen
    by (unfold page; by rewrite length_take, length_drop).
  assert (take (k * page_size) all ++ page = take (S k * page_size) all) as Epage.
  { unfold page. rewrite take_take_drop. f_equal. lia. }
  assert (owners (staging_slot s) h1 = m) as Em by (unfold h1; by rewrite owners_upd, owners_set).
  assert (st h1 = (st h) <| scan := Some updated |>) as Est by (unfold h1; cbn; by rewrite st_set_owners).
  assert (page_size = 100%nat) as Hsize by reflexivity.
  assert (Z.to_nat SNS_OWNER_SCAN_MAX_PAGES * page_size = Z.to_nat (SNS_OWNER_SCAN_MAX_PAGES * 100))%nat as Hcap
    by (rewrite Hsize; unfold SNS_OWNER_SCAN_MAX_PAGES; lia).
  destruct (decide _) as [Hfull|Hshort].
  - rewrite (proj2 (Z.ltb_ge _ _)) by (unfold SNS_NEURON_PAGE_SIZE; lia). cbn [negb].
    assert (pages_processed updated = Z.of_nat (S k)) as Epg by (unfold updated; cbn; rewrite Hpg; lia).
    rewrite (proj2 (Z.leb_gt _ _)) by (rewrite Epg; unfold SNS_OWNER_SCAN_MAX_PAGES in *; lia). cbn [fst snd].
    split; [cbn; by rewrite st_set_owners|]. split; [done|].
    change (scanning lease (S k) (schedule_continuation h1)). constructor.
    1-3: change (st (schedule_continuation h1)) with (st h1); by rewrite Est.
    exists updated. change (st (schedule_continuation h1)) with (st h1). rewrite Est. split; [done|].
    split; [done|]. split; [done|]. split; [done|]. split; [|split; [done|]].
    + change (last page ≫= neuron_id_bytes = cursor_at (S k * page_size)). unfold cursor_at. rewrite <- Epage, last_app.
      destruct (last page) eqn:El; [done|]. apply last_None in El. rewrite El in Hlen. cbn [length] in Hlen. lia.
    + change (owners (staging_slot s) h1 = index_of (take (S k * page_size) all) []). rewrite Em. unfold m. by rewrite Epage.
  - rewrite (proj2 (Z.ltb_lt _ _)) by (unfold SNS_NEURON_PAGE_SIZE; lia). cbn [negb fst snd]. unfold publish.
    split; [cbn; by rewrite st_set_owners|]. split; [done|].
    constructor; [change (reward_sns_root_canister_id (config (st h1)) = Some root); by rewrite Est|done|].
    eexists. split; [reflexivity|]. split; [change (next_snapshot_id (st h1) = id); by rewrite Est|].
    split; [done|]. split; [done|]. split; [done|].
    cbn [active_slot]. rewrite owners_upd. change (owners (staging_slot s) h1 = index_of all []). rewrite Em. unfold m.
    rewrite Epage, take_ge by lia. done.
Qed.

(** The lock and the timers are no part of the progress. *)
Lemma scanning_frame lease lease' k h h' :
  scanning lease k h -> st h' = (st h) <| scan_lock_state_ts := Some lease' |> ->
  owners_a h' = owners_a h -> owners_b h' = owners_b h -> scanning lease' k h'.
Proof.
  intros [Hr Hlock Hid (s & Hs)] E Ea Eb. constructor; try by rewrite E.
  exists s. rewrite E. assert (forall slot, owners slot h' = owners slot h) as -> by (intros []; cbn; congruence). done.
Qed.

Lemma lease_published_frame h h' lease :
  published h -> st h' = (st h) <| scan_lock_state_ts := lease |> ->
  owners_a h' = owners_a h -> owners_b h' = owners_b h -> published h'.
Proof.
  intros [Hr Hidle (s & Hs)] E Ea Eb. constructor; try by rewrite E.
  exists s. rewrite E. assert (forall slot, owners slot h' = owners slot h) as -> by (intros []; cbn; congruence). done.
Qed.

Lemma state_eta (s : SnsRewardsState) l : scan_lock_state_ts s = l -> s = s <| scan_lock_state_ts := l |>.
Proof. intros <-. by destruct s. Qed.

(** What a tick leaves when its guard is dropped. *)
Lemma drop_advanced lease k h h' :
  scan_lock_state_ts (st h) = Some lease ->
  (if decide (S k * page_size <= length all)%nat then scanning lease (S k) h else published h) ->
  st h' = st h -> owners_a h' = owners_a h -> owners_b h' = owners_b h ->
  advanced 0 k (scan_drop (guard_of lease) h').
Proof.
  intros Hlock Hadv Est Ea Eb. unfold scan_drop, guard_of. cbn [Timer.is_active Timer.active negb].
  unfold Timer.release. cbn. rewrite Est, Hlock, decide_True by done. unfold advanced. case_decide.
  - eapply scanning_frame; [done|..]; [unfold upd, set_state; cbn; by rewrite ?Est|done..].
  - eapply lease_published_frame; [done|..]; [unfold upd, set_state; cbn; by rewrite ?Est|done..].
Qed.

Lemma page_cap k : (k * page_size <= length all)%nat -> Z.of_nat k < SNS_OWNER_SCAN_MAX_PAGES.
Proof using fits.
  intros Hk. destruct (Nat.lt_ge_cases k (Z.to_nat SNS_OWNER_SCAN_MAX_PAGES)) as [|Hge];
    [unfold SNS_OWNER_SCAN_MAX_PAGES in *; lia|].
  pose proof (Nat.mul_le_mono_r _ _ page_size Hge). lia.
Qed.

Lemma page_run lease k h t now_nanos :
  scanning lease k h -> (k * page_size <= length all)%nat ->
  wp e (t ← now; r ← process_one_page (guard_of lease) t true;
        match r with
        | InProgress | PageStale => mret tt
        | Completed => t ← now; modify (schedule_next_due_check t)
        | PageFailed => modify (schedule_scan_check now_nanos false)
        end)
    (fun _ w' => advanced 0 k (scan_drop (guard_of lease) (w_state w'))) (World h t).
Proof using Hall quiet pages fits.
  intros Hsc Hk. apply wp_bind, wp_now, wp_bind. unfold process_one_page. wp_step. wp_step. cbn [w_state w_trace].
  pose proof Hsc as [_ _ _ (s & Es & _ & Hgov & _ & Hcur & Hpg & _)]. rewrite Es.
  rewrite (proj2 (Z.leb_gt _ _)) by (rewrite Hpg; by apply page_cap).
  apply wp_bind. unfold list_neurons. apply wp_bind, wp_await. intros a h' -> ->. cbn [w_state w_trace].
  rewrite quiet, Hgov, pages. apply wp_ret, wp_with_state_mut. cbn [w_state w_trace].
  match goal with |- context [finish_page _ _ _ ?n _ _] =>
    pose proof (finish_page_advances lease k s n h Hsc Es Hk) as [Hlock Hadv] end.
  cbn zeta in Hadv. match goal with |- context [finish_page ?a ?b ?c ?d ?e ?f] => set (r := finish_page a b c d e f) in * end.
  assert (if decide (S k * page_size <= length all)%nat then scanning lease (S k) r.2 else published r.2) as Hpost
    by (case_decide; by destruct Hadv).
  assert (r.1 = InProgress \/ r.1 = Completed) as [->| ->] by (case_decide; destruct Hadv; auto).
  - apply wp_ret. by eapply drop_advanced.
  - apply wp_bind, wp_now, wp_modify. by eapply drop_advanced.
Qed.

Lemma tick_acquires h : scan_lock_state_ts (st h) = Some 0 ->
  forall now_secs, 0 <= now_secs ->
  scan_acquire now_secs h =
    (Some (guard_of (sat_add now_secs SCAN_LEASE_SECONDS)),
     upd (fun s => s <| scan_lock_state_ts := Some (sat_add now_secs SCAN_LEASE_SECONDS) |>) h).
Proof.
  intros E n Hn. unfold scan_acquire, Timer.acquire. rewrite E. change (default 0 (Some 0)) with 0.
  by rewrite (proj2 (Z.ltb_ge n 0)).
Qed.

(** The ticks one after the other. *)
Fixpoint ticks (n : nat) : async Heap SuiteCall unit :=
  match n with
  | 0%nat => mret tt
  | S n => scan_tick false;; ticks n
  end.

Lemma tick_continues k h t :
  scanning 0 k h -> (k * page_size <= length all)%nat ->
  wp e (scan_tick false) (fun _ w' => advanced 0 k (w_state w')) (World h t).
Proof using Hall quiet pages clock fits.
  intros Hsc Hk. unfold scan_tick. wp_step. wp_step. wp_step. apply wp_with_state_mut. cbn [w_state w_trace].
  rewrite tick_acquires by first [apply Hsc | apply Z.div_pos; [apply clock|lia]]. cbn [fst snd].
  set (lease := sat_add _ _). set (h1 := upd _ h).
  assert (scanning lease k h1) as Hsc1 by (by eapply scanning_frame).
  apply wp_bind. unfold scan_body. apply wp_bind. unfold begin_scan. wp_step. wp_step. cbn [w_state].
  pose proof Hsc1 as [_ _ _ (s & Es & _)]. rewrite Es. cbn [is_some negb]. apply wp_ret. cbn [negb].
  eapply wp_mono; [by apply page_run|]. intros [] w2 H2. by apply wp_modify.
Qed.

Lemma ticks_complete n : forall k h t,
  scanning 0 k h -> (k * page_size <= length all)%nat -> n = (length all / page_size - k + 1)%nat ->
  wp e (ticks n) (fun _ w' => published (w_state w')) (World h t).
Proof using Hall quiet pages clock fits.
  assert (page_size = 100%nat) as Hsize by reflexivity.
  induction n as [|n IH]; intros k h t Hsc Hk En; [lia|]. cbn [ticks]. apply wp_bind.
  eapply wp_mono; [by eapply tick_continues|]. intros [] [h2 t2] H2. unfold advanced in H2. cbn [w_state] in H2.
  pose proof (Nat.div_mod (length all) page_size ltac:(lia)) as Hdiv.
  pose proof (Nat.mod_upper_bound (length all) page_size ltac:(lia)) as Hmod.
  case_decide as Hfull; rewrite Hsize in *.
  - eapply IH; [exact H2|done|lia].
  - assert (n = 0%nat) as -> by lia. by apply wp_ret.
Qed.

Context (deployed : ListSnsCanistersResponse) (Hdeployed : resolve_components root deployed = Ok (governance, ledger)).
Context (components : forall n, env_reply e n _ (ListSnsCanisters root) = Ok deployed).

(** Nothing is scanned and a scan is due at [now_nanos]. *)
Record idle (now_nanos : Z) (h : Heap) : Prop := {
  idle_root : reward_sns_root_canister_id (config (st h)) = Some root;
  idle_lock : scan_lock_state_ts (st h) = Some 0;
  idle_scan : scan (st h) = None;
  idle_id : next_snapshot_id (st h) = id;
  idle_due : scan_due false now_nanos (st h) = true;
}.

Lemma finish_start_scanning lease h now_nanos :
  reward_sns_root_canister_id (config (st h)) = Some root -> scan_lock_state_ts (st h) = Some lease ->
  scan (st h) = None -> next_snapshot_id (st h) = id ->
  let r := finish_start_scan (guard_of lease) root (Ok deployed) now_nanos h in
  r.1 = Started now_nanos /\ scanning lease 0 r.2.
Proof using Hdeployed.
  intros Hr Hl Hs Hi. unfold finish_start_scan. rewrite owns_scan_guard by done. cbn [negb]. rewrite Hdeployed.
  cbn [fst snd]. split; [done|]. unfold clear_slot.
  constructor; [cbn; rewrite ?st_set_owners; unfold const; done..|]. eexists. split; [reflexivity|]. split; [done|]. split; [done|].
  split; [done|]. split; [done|]. split; [done|]. cbn [staging_slot]. by rewrite owners_upd, owners_set.
Qed.

Lemma first_tick h t : idle (env_clock e (length t)) h ->
  wp e (scan_tick false) (fun _ w' => advanced 0 0 (w_state w')) (World h t).
Proof using Hall quiet pages clock fits Hdeployed components.
  intros [Hr Hl Hs Hi Hd]. unfold scan_tick. wp_step. wp_step. wp_step. apply wp_with_state_mut. cbn [w_state w_trace].
  rewrite tick_acquires by first [exact Hl | apply Z.div_pos; [apply clock|lia]]. cbn [fst snd].
  set (lease := sat_add _ _). set (h1 := upd _ h).
  apply wp_bind. unfold scan_body. apply wp_bind. unfold begin_scan. wp_step. wp_step. cbn [w_state].
  change (scan (st h1)) with (scan (st h)). rewrite Hs. cbn [is_some negb]. apply wp_bind, wp_with_state. cbn [w_state].
  change (scan_due false (env_clock e (length t)) (st h1)) with (scan_due false (env_clock e (length t)) (st h)).
  rewrite Hd. cbn [negb]. apply wp_bind. unfold start_scan. wp_step. wp_step. cbn [w_state].
  change (config (st h1)) with (config (st h)). rewrite Hr. apply wp_bind. unfold list_sns_canisters.
  apply wp_bind, wp_await. intros a h2 -> ->. rewrite components, quiet. apply wp_ret, wp_bind, wp_now, wp_with_state_mut.
  cbn [w_state w_trace].
  match goal with |- context [finish_start_scan _ _ _ ?n _] =>
    destruct (finish_start_scanning lease h1 n Hr eq_refl Hs Hi) as [E Hsc]; cbn zeta in E, Hsc; rewrite E end.
  apply wp_bind, wp_modify, wp_ret. cbn [negb w_state w_trace].
  eapply wp_mono; [apply page_run|intros [] w2 H2; by apply wp_modify]; [|lia].
  eapply scanning_frame; [exact Hsc| |done|done]. apply state_eta. apply (scanning_lock _ _ _ Hsc).
Qed.

End completion.

Module ConcreteSnsRun.
Import Concrete ConcreteHash ConcreteTexts ConcreteSns.
Definition reply (n : nat) (X : Type) (c : SuiteCall (H:=concrete_principal) X) : X :=
  match c in SuiteCall X return X with
  | ListSnsCanisters _ => Ok deployed
  | ListSnsNeurons _ cursor => Ok (page_after (P:=concrete_principal) all cursor)
  | c => reply_ok 0 0 c
  end.
Definition sns_env : env (Heap (P:=concrete_principal)) (SuiteCall (H:=concrete_principal)) := {|
  env_reply := reply;
  env_interleave := fun _ h => h;
  env_clock := fun _ => 100000000000;
|}.
Definition fresh : Heap (P:=concrete_principal) := init (P:=concrete_principal) (MkInitArgs (P:=concrete_principal) (Some 20)).
Definition fresh_world : world (Heap (P:=concrete_principal)) (SuiteCall (H:=concrete_principal)) := World fresh [].
Definition pages (governance : Z) (cursor : option (list Z)) (l : list (SnsNeuron (H:=concrete_principal))) : Prop :=
  l = page_after (P:=concrete_principal) all cursor.
End ConcreteSnsRun.

(** C36: A tick returns, whatever the replies and however the other messages of the
    canister interleave with it: what it does to the state is a sequence of atomic
    steps, and it asks at most for the components of the configured root and for one
    page, the next one of the scan that is under way when it asks. *)
Theorem sns_tick_refines_steps `{P : PrincipalSpec} `{H : HashSpec}
    (answered : Principal -> option (list Z) -> list SnsNeuron -> Prop) (e : env Heap SuiteCall)
    (Hrely : rely (rtc (canister_step answered)) e)
    (Hreplies : forall n governance cursor neurons,
      env_reply e n _ (ListSnsNeurons governance cursor) = Ok neurons -> answered governance cursor neurons)
    (force : bool) (w : world Heap SuiteCall) :
  exists w', scan_tick force e w = (Returned tt, w') /\
    rtc (canister_step answered) (w_state w) (w_state w') /\ traced scan_call (w_trace w) w' /\
    (length (w_trace w') <= length (w_trace w) + 2)%nat.
Proof.
  destruct (wp_returns _ _ _ _ (scan_tick_refines answered e Hrely Hreplies force w)) as ([] & w' & Hrun & [Hs Hc Hl]).
  by exists w'.
Qed.

Lemma sns_tick_refines_steps_witness :
  exists w', scan_tick (P:=Concrete.concrete_principal) (H:=ConcreteHash.concrete_hash)
    false ConcreteSnsRun.sns_env ConcreteSnsRun.fresh_world = (Returned tt, w') /\ (length (w_trace w') <= 2)%nat.
Proof.
  destruct (sns_tick_refines_steps (P:=Concrete.concrete_principal)
    (H:=ConcreteHash.concrete_hash) ConcreteSnsRun.pages ConcreteSnsRun.sns_env) with
    (force := false) (w := ConcreteSnsRun.fresh_world) as (w' & Hr & _ & _ & Hl).
  - intros n h. apply rtc_refl.
  - intros n governance cursor neurons. cbn. by intros [= <-].
  - exists w'. split; [exact Hr|exact Hl].
Defined.

(** C35: A scan completes: when the governance canister answers every page with the
    next hundred neurons in the order of their ids, fewer than a million in all, and
    nothing interferes, then the tick that starts the scan and one more tick per
    hundred neurons publish, under the next id, an index that answers every account
    by the owner of the last neuron that it belongs to. *)
Theorem scan_completes `{P : PrincipalSpec} `{H : HashSpec}
    (all : list SnsNeuron) (root governance ledger : Principal) (id : Z) (deployed : ListSnsCanistersResponse)
    (e : env Heap SuiteCall) (h : Heap) (t : list (event Heap SuiteCall))
    (Hall : ascending all) (Hfits : (length all < Z.to_nat SNS_OWNER_SCAN_MAX_PAGES * page_size)%nat)
    (Hdeployed : resolve_components root deployed = Ok (governance, ledger))
    (Hquiet : forall n h, env_interleave e n h = h) (Hclock : forall n, 0 <= env_clock e n)
    (Hcomponents : forall n, env_reply e n _ (ListSnsCanisters root) = Ok deployed)
    (Hpages : forall n cursor, env_reply e n _ (ListSnsNeurons governance cursor) = Ok (page_after all cursor))
    (Hidle : idle root id (env_clock e (length t)) h) :
  exists w' started completed, ticks (length all / page_size + 1) e (World h t) = (Returned tt, w') /\
    get_relay_reward_context (w_state w') = Some (MkRewardContext _ root governance ledger id started completed) /\
    forall identifiers, Z.of_nat (length identifiers) <= MAX_ACCOUNT_LOOKUPS_PER_CALL ->
      Forall (fun i => length i = 32%nat) identifiers ->
      resolve_default_icp_accounts id identifiers (w_state w') =
      Resolved (map (fun account => last (filter (fun p => account_of p = account) (owners_of all))) identifiers).
Proof.
  assert (wp e (ticks (length all / page_size + 1)) (fun _ w' => published all root governance ledger id (w_state w'))
            (World h t)) as Hwp.
  { rewrite Nat.add_1_r. cbn [ticks]. apply wp_bind.
    eapply wp_mono; [by eapply (first_tick all Hall root governance ledger id)|]. intros [] [h1 t1] H1.
    unfold advanced in H1. cbn [w_state] in H1. assert (page_size = 100%nat) as Hsize by reflexivity.
    case_decide as Hlen; rewrite Hsize in *.
    - eapply ticks_complete; [done|done|done|done|rewrite Hsize; lia|exact H1|rewrite Hsize; lia|].
      rewrite Hsize. pose proof (Nat.div_le_lower_bound (length all) 100 1 ltac:(lia) ltac:(lia)). lia.
    - rewrite Nat.div_small by lia. by apply wp_ret. }
  destruct (wp_returns _ _ _ _ Hwp) as ([] & w' & Hrun & [Hr _ (s & Es & Hid & Hroot & Hgov & Hled & Ho)]).
  exists w', (snap_started_at_nanos s), (snap_completed_at_nanos s). split; [done|]. split.
  - unfold get_relay_reward_context. rewrite Hr, Es. cbn. rewrite bool_decide_eq_true_2 by done. cbn. by subst.
  - intros identifiers Hlen Hall32. unfold resolve_default_icp_accounts. rewrite (proj2 (Z.ltb_ge _ _)) by done.
    replace (malformed_identifier identifiers) with (@None Z).
    + rewrite Es, Hid, Z.eqb_refl. cbn [negb]. f_equal. apply map_ext. intros account. unfold lookup_owner.
      rewrite Ho. apply index_of_get.
    + unfold malformed_identifier. destruct (list_find _ identifiers) as [[i x]|] eqn:Ef; [|done].
      apply list_find_Some in Ef as (Hx & Hne & _). destruct Hne. rewrite Forall_lookup in Hall32. by eapply Hall32.
Qed.

Lemma scan_completes_witness :
  exists w', ticks (P:=Concrete.concrete_principal) (H:=ConcreteHash.concrete_hash)
    1 ConcreteSnsRun.sns_env ConcreteSnsRun.fresh_world = (Returned tt, w') /\
  resolve_default_icp_accounts 1 [account_of (P:=Concrete.concrete_principal) (H:=ConcreteHash.concrete_hash) 6]
    (w_state w') = Resolved [Some (6 : Principal (PrincipalSpec:=Concrete.concrete_principal))].
Proof.
  destruct (scan_completes (P:=Concrete.concrete_principal)
    (H:=ConcreteHash.concrete_hash) ConcreteSns.all 20 21 12 1 ConcreteSns.deployed ConcreteSnsRun.sns_env
    ConcreteSnsRun.fresh []) as (w' & _ & _ & Hr & _ & Hres).
  - exists (map (fun i => replicate 31 0 ++ [i]) [1; 2; 3]). split; [reflexivity|]. split; [by repeat constructor|].
    repeat constructor.
  - apply Nat.ltb_lt. vm_compute. reflexivity.
  - reflexivity.
  - reflexivity.
  - intros n. cbn. lia.
  - reflexivity.
  - reflexivity.
  - by constructor.
  - exists w'. split; [exact Hr|]. rewrite Hres; [vm_compute; reflexivity|vm_compute; discriminate|by repeat constructor].
Defined.
