(* ===== verification/HistorianTypes.v ===== *)
(** * Historian: data ([state/types.rs], [state/conversions.rs], [state/snapshots.rs], [state/restore.rs])

    The configuration, the state in memory and the root section that the stable
    cell holds.  The bulk histories live in stable maps ([HistorianState]). *)

From S2P Require Import Prelude BTree Async Ic Clients CyclesProbe.

Inductive CanisterTrackingReason := MemoCommitment | SnsDiscovery | RelayTarget | RelayInstance.
#[export] Instance CanisterTrackingReason_eq_dec : EqDecision CanisterTrackingReason.
Proof. solve_decision. Defined.
(** The derived order of the constructors. *)
Definition reason_index (r : CanisterTrackingReason) : Z :=
  match r with MemoCommitment => 0 | SnsDiscovery => 1 | RelayTarget => 2 | RelayInstance => 3 end.
#[export] Instance CanisterTrackingReason_ord : OrdSpec CanisterTrackingReason :=
  fun a b => reason_index a <? reason_index b.

Inductive CyclesSampleSource :=
| SelfCanister | FromDirectCanisterStatus | BlackholeStatus | NnsRootStatus | SnsRootStatus | SnsSwapStatus
| SnsRootSummary.
Inductive CyclesProbeResult := ProbeOk (source : CyclesSampleSource) | NotAvailable | ProbeError (message : string).

Record CommitmentSample := MkCommitmentSample {
  sample_tx_id : Z;
  sample_timestamp_nanos : option Z;
  sample_amount_e8s : Z;
  sample_counts_toward_faucet : bool;
  sample_raw_icp_destination_subaccount : option (list Z);
}.
#[export] Instance CommitmentSample_eq_dec : EqDecision CommitmentSample.
Proof. solve_decision. Defined.

Record InvalidCommitment := MkInvalidCommitment {
  invalid_tx_id : Z;
  invalid_timestamp_nanos : option Z;
  invalid_amount_e8s : Z;
  invalid_memo_text : list Z;
}.

Record RecentNeuronCommitment := MkRecentNeuron {
  rn_neuron_id : Z;
  rn_memo_text : option (list Z);
  rn_tx_id : Z;
  rn_timestamp_nanos : option Z;
  rn_amount_e8s : Z;
  rn_counts_toward_faucet : bool;
}.

Record CommitmentIndexFault := MkIndexFault {
  fault_observed_at_ts : Z;
  fault_last_cursor_tx_id : option Z;
  fault_offending_tx_id : Z;
  fault_message : string;
}.
Record IcpXdrRateSnapshot := MkRateSnapshot {
  snapshot_rate : Z; snapshot_decimals : Z; snapshot_timestamp : Z; fetched_at_ts : Z }.

Record CyclesSample := MkCyclesSample { cycles_timestamp_nanos : Z; sample_cycles : Z; sample_source : CyclesSampleSource }.

Record CanisterMeta := MkCanisterMeta {
  first_seen_ts : option Z;
  last_commitment_ts : option Z;
  last_cycles_probe_ts : option Z;
  last_cycles_probe_result : option CyclesProbeResult;
}.
Definition CanisterMeta_default : CanisterMeta := MkCanisterMeta None None None None.

Record ActiveRouteSweep := MkRouteSweep { route_started_at_ts_nanos : Z; route_next_index : Z }.
Record DescendingIndexCatchUp := MkCatchUp {
  boundary_tx_id : Z; observed_head_tx_id : Z; next_start_tx_id : option Z }.
Inductive CommitmentIndexLeaseOwner := Scheduled | EndowmentRefresh.
#[export] Instance CommitmentIndexLeaseOwner_eq_dec : EqDecision CommitmentIndexLeaseOwner.
Proof. solve_decision. Defined.

Section types.
Context `{P : PrincipalSpec}.

Record RecentCommitment := MkRecent {
  rc_canister_id : Principal;
  rc_raw_icp_memo_text : option (list Z);
  rc_raw_icp_destination_subaccount : option (list Z);
  rc_tx_id : Z;
  rc_timestamp_nanos : option Z;
  rc_amount_e8s : Z;
  rc_counts_toward_faucet : bool;
}.
Record ActiveSnsDiscovery := MkSnsDiscovery {
  discovery_started_at_ts_nanos : Z; root_canister_ids : list Principal; discovery_next_index : Z }.
Record ActiveCyclesSweep := MkCyclesSweep {
  sweep_started_at_ts_nanos : Z; sweep_canisters : list Principal; sweep_next_index : Z }.
Record MemoRegisteredCanisterSummary := MkSummary {
  summary_canister_id : Principal;
  summary_tracking_reasons : list CanisterTrackingReason;
  summary_qualifying_commitment_count : Z;
  summary_total_qualifying_committed_e8s : Z;
  summary_last_commitment_ts : option Z;
  summary_latest_cycles : option Z;
  summary_last_cycles_probe_ts : option Z;
}.
Record CanisterModuleHash := MkModuleHash {
  hash_canister_id : Principal;
  module_hash_hex : option (list Z);
  hash_controllers : option (list Principal);
  hash_heap_memory_bytes : option Z;
  hash_stable_memory_bytes : option Z;
  hash_total_memory_bytes : option Z;
}.

Record Config := MkConfig {
  staking_account : Account;
  output_source_account : Account;
  output_account : Account;
  rewards_account : Account;
  ledger_canister_id : Principal;
  index_canister_id : Principal;
  cmc_canister_id : option Principal;
  faucet_canister_id : option Principal;
  sns_wasm_canister_id : Principal;
  xrc_canister_id : Principal;
  enable_sns_tracking : bool;
  scan_interval_seconds : Z;
  cycles_interval_seconds : Z;
  min_tx_e8s : Z;
  max_cycles_entries_per_canister : Z;
  max_commitment_entries_per_canister : Z;
  max_index_pages_per_tick : Z;
  max_canisters_per_cycles_tick : Z;
  relay_factory_enabled : bool;
  relay_setup_min_e8s : Z;
  relay_initial_cycles : Z;
  relay_cycle_safety_margin_e8s : Z;
  relay_min_subaccount_one_seed_e8s : Z;
  self_service_relay_interval_seconds : Z;
  canonical_relay_canister_id : option Principal;
  canonical_relay_targets : list Principal;
}.

Record StableConfig := MkStableConfig {
  sc_staking_account : Account;
  sc_output_source_account : option Account;
  sc_output_account : option Account;
  sc_rewards_account : option Account;
  sc_ledger_canister_id : Principal;
  sc_index_canister_id : Principal;
  sc_cmc_canister_id : option Principal;
  sc_faucet_canister_id : option Principal;
  sc_sns_wasm_canister_id : Principal;
  sc_xrc_canister_id : option Principal;
  sc_enable_sns_tracking : bool;
  sc_scan_interval_seconds : Z;
  sc_cycles_interval_seconds : Z;
  sc_min_tx_e8s : Z;
  sc_max_cycles_entries_per_canister : Z;
  sc_max_commitment_entries_per_canister : Z;
  sc_max_index_pages_per_tick : Z;
  sc_max_canisters_per_cycles_tick : Z;
  sc_relay_factory_enabled : option bool;
  sc_relay_setup_min_e8s : option Z;
  sc_relay_initial_cycles : option Z;
  sc_relay_cycle_safety_margin_e8s : option Z;
  sc_relay_min_subaccount_one_seed_e8s : option Z;
  sc_self_service_relay_interval_seconds : option Z;
  sc_canonical_relay_canister_id : option (option Principal);
  sc_canonical_relay_targets : option (list Principal);
}.

Record State := MkState {
  config : Config;
  distinct_canisters : btree_set Principal;
  canister_tracking_reasons : btree_map Principal (btree_set CanisterTrackingReason);
  commitment_history : btree_map Principal (list CommitmentSample);
  cycles_history : btree_map Principal (list CyclesSample);
  per_canister_meta : btree_map Principal CanisterMeta;
  cached_cycles_probe_routes : btree_map Principal CyclesProbeRoute;
  memo_registered_canister_summaries_cache : option (btree_map Principal MemoRegisteredCanisterSummary);
  memo_registered_canister_summaries_total_desc_index : option (list Principal);
  last_indexed_staking_tx_id : option Z;
  oldest_indexed_staking_tx_id : option Z;
  staking_index_descending : option bool;
  staking_backfill_complete : option bool;
  commitment_route_rollups_complete_from_genesis : option bool;
  last_indexed_output_tx_id : option Z;
  oldest_indexed_output_tx_id : option Z;
  output_route_index_descending : option bool;
  output_route_backfill_complete : option bool;
  last_indexed_rewards_tx_id : option Z;
  oldest_indexed_rewards_tx_id : option Z;
  rewards_route_index_descending : option bool;
  rewards_route_backfill_complete : option bool;
  last_sns_discovery_ts : Z;
  last_completed_cycles_sweep_ts : Z;
  last_completed_route_sweep_ts : option Z;
  active_cycles_sweep : option ActiveCyclesSweep;
  initial_cycles_probe_queue : list Principal;
  active_route_sweep : option ActiveRouteSweep;
  active_sns_discovery : option ActiveSnsDiscovery;
  main_lock_state_ts : option Z;
  last_main_run_ts : Z;
  qualifying_commitment_count : option Z;
  raw_icp_commitment_history : btree_map Principal (list CommitmentSample);
  neuron_commitment_history : btree_map Z (list CommitmentSample);
  total_output_e8s : option Z;
  total_rewards_e8s : option Z;
  recent_commitments : option (list RecentCommitment);
  recent_under_threshold_commitments : option (list RecentCommitment);
  recent_neuron_commitments : option (list RecentNeuronCommitment);
  recent_under_threshold_neuron_commitments : option (list RecentNeuronCommitment);
  recent_invalid_commitments : option (list InvalidCommitment);
  last_index_run_ts : option Z;
  commitment_index_fault : option CommitmentIndexFault;
  icp_xdr_rate : option IcpXdrRateSnapshot;
  last_icp_xdr_rate_attempt_ts : option Z;
  last_icp_xdr_rate_error : option string;
  active_staking_catch_up : option DescendingIndexCatchUp;
  active_output_catch_up : option DescendingIndexCatchUp;
  active_rewards_catch_up : option DescendingIndexCatchUp;
  commitment_index_lock_expires_at_ts : option Z;
  commitment_index_lock_generation : Z;
  commitment_index_lock_owner : option CommitmentIndexLeaseOwner;
  endowment_refresh_next_allowed_ts : Z;
  commitment_index_revision : Z;
  canister_module_hash_cache : list CanisterModuleHash;
  canister_module_hash_cache_updated_ts : option Z;
  canister_module_hash_refresh_lock_ts : option Z;
}.

Record StableRootState := MkStableRoot {
  root_config : StableConfig;
  root_last_indexed_staking_tx_id : option Z;
  root_oldest_indexed_staking_tx_id : option Z;
  root_staking_index_descending : option bool;
  root_staking_backfill_complete : option bool;
  root_commitment_route_rollups_complete_from_genesis : option bool;
  root_last_indexed_output_tx_id : option Z;
  root_oldest_indexed_output_tx_id : option Z;
  root_output_route_index_descending : option bool;
  root_output_route_backfill_complete : option bool;
  root_last_indexed_rewards_tx_id : option Z;
  root_oldest_indexed_rewards_tx_id : option Z;
  root_rewards_route_index_descending : option bool;
  root_rewards_route_backfill_complete : option bool;
  root_last_sns_discovery_ts : Z;
  root_last_completed_cycles_sweep_ts : Z;
  root_last_completed_route_sweep_ts : option Z;
  root_active_cycles_sweep : option ActiveCyclesSweep;
  root_initial_cycles_probe_queue : list Principal;
  root_active_route_sweep : option ActiveRouteSweep;
  root_active_sns_discovery : option ActiveSnsDiscovery;
  root_main_lock_state_ts : option Z;
  root_last_main_run_ts : Z;
  root_qualifying_commitment_count : option Z;
  root_total_output_e8s : option Z;
  root_total_rewards_e8s : option Z;
  root_recent_commitments : option (list RecentCommitment);
  root_recent_under_threshold_commitments : option (list RecentCommitment);
  root_recent_neuron_commitments : option (list RecentNeuronCommitment);
  root_recent_under_threshold_neuron_commitments : option (list RecentNeuronCommitment);
  root_recent_invalid_commitments : option (list InvalidCommitment);
  root_last_index_run_ts : option Z;
  root_commitment_index_fault : option CommitmentIndexFault;
  root_icp_xdr_rate : option IcpXdrRateSnapshot;
  root_last_icp_xdr_rate_attempt_ts : option Z;
  root_last_icp_xdr_rate_error : option string;
  root_active_staking_catch_up : option DescendingIndexCatchUp;
  root_active_output_catch_up : option DescendingIndexCatchUp;
  root_active_rewards_catch_up : option DescendingIndexCatchUp;
  root_commitment_index_lock_expires_at_ts : option Z;
  root_commitment_index_lock_generation : option Z;
  root_commitment_index_lock_owner : option CommitmentIndexLeaseOwner;
  root_endowment_refresh_next_allowed_ts : option Z;
  root_commitment_index_revision : option Z;
}.

Definition State_new (cfg : Config) (now_secs : Z) : State := {|
  config := cfg;
  distinct_canisters := [];
  canister_tracking_reasons := [];
  commitment_history := [];
  cycles_history := [];
  per_canister_meta := [];
  cached_cycles_probe_routes := [];
  memo_registered_canister_summaries_cache := Some [];
  memo_registered_canister_summaries_total_desc_index := Some [];
  last_indexed_staking_tx_id := None;
  oldest_indexed_staking_tx_id := None;
  staking_index_descending := None;
  staking_backfill_complete := Some false;
  commitment_route_rollups_complete_from_genesis := Some false;
  last_indexed_output_tx_id := None;
  oldest_indexed_output_tx_id := None;
  output_route_index_descending := None;
  output_route_backfill_complete := Some false;
  last_indexed_rewards_tx_id := None;
  oldest_indexed_rewards_tx_id := None;
  rewards_route_index_descending := None;
  rewards_route_backfill_complete := Some false;
  last_sns_discovery_ts := 0;
  last_completed_cycles_sweep_ts := 0;
  last_completed_route_sweep_ts := Some 0;
  active_cycles_sweep := None;
  initial_cycles_probe_queue := [];
  active_route_sweep := None;
  active_sns_discovery := None;
  main_lock_state_ts := Some 0;
  last_main_run_ts := sat_sub now_secs (10 * 365 * 24 * 60 * 60);
  qualifying_commitment_count := Some 0;
  raw_icp_commitment_history := [];
  neuron_commitment_history := [];
  total_output_e8s := Some 0;
  total_rewards_e8s := Some 0;
  recent_commitments := Some [];
  recent_under_threshold_commitments := Some [];
  recent_neuron_commitments := Some [];
  recent_under_threshold_neuron_commitments := Some [];
  recent_invalid_commitments := Some [];
  last_index_run_ts := Some 0;
  commitment_index_fault := None;
  icp_xdr_rate := None;
  last_icp_xdr_rate_attempt_ts := None;
  last_icp_xdr_rate_error := None;
  active_staking_catch_up := None;
  active_output_catch_up := None;
  active_rewards_catch_up := None;
  commitment_index_lock_expires_at_ts := None;
  commitment_index_lock_generation := 0;
  commitment_index_lock_owner := None;
  endowment_refresh_next_allowed_ts := 0;
  commitment_index_revision := 0;
  canister_module_hash_cache := [];
  canister_module_hash_cache_updated_ts := None;
  canister_module_hash_refresh_lock_ts := None;
|}.

(** ** [conversions.rs] *)

Definition stable_config (value : Config) : StableConfig := {|
  sc_staking_account := staking_account value;
  sc_output_source_account := Some (output_source_account value);
  sc_output_account := Some (output_account value);
  sc_rewards_account := Some (rewards_account value);
  sc_ledger_canister_id := ledger_canister_id value;
  sc_index_canister_id := index_canister_id value;
  sc_cmc_canister_id := cmc_canister_id value;
  sc_faucet_canister_id := faucet_canister_id value;
  sc_sns_wasm_canister_id := sns_wasm_canister_id value;
  sc_xrc_canister_id := Some (xrc_canister_id value);
  sc_enable_sns_tracking := enable_sns_tracking value;
  sc_scan_interval_seconds := scan_interval_seconds value;
  sc_cycles_interval_seconds := cycles_interval_seconds value;
  sc_min_tx_e8s := min_tx_e8s value;
  sc_max_cycles_entries_per_canister := max_cycles_entries_per_canister value;
  sc_max_commitment_entries_per_canister := max_commitment_entries_per_canister value;
  sc_max_index_pages_per_tick := max_index_pages_per_tick value;
  sc_max_canisters_per_cycles_tick := max_canisters_per_cycles_tick value;
  sc_relay_factory_enabled := Some (relay_factory_enabled value);
  sc_relay_setup_min_e8s := Some (relay_setup_min_e8s value);
  sc_relay_initial_cycles := Some (relay_initial_cycles value);
  sc_relay_cycle_safety_margin_e8s := Some (relay_cycle_safety_margin_e8s value);
  sc_relay_min_subaccount_one_seed_e8s := Some (relay_min_subaccount_one_seed_e8s value);
  sc_self_service_relay_interval_seconds := Some (self_service_relay_interval_seconds value);
  sc_canonical_relay_canister_id := Some (canonical_relay_canister_id value);
  sc_canonical_relay_targets := Some (canonical_relay_targets value);
|}.

(** [Config::try_from]; the interval is checked first. *)
Definition missing (field : string) : string :=
  ("historian restoration invariant: missing config." ++ field)%string.
Definition fallible (A : Type) : Type := result A string.
#[local] Instance fallible_bind : MBind fallible := fun A B f m =>
  match m with Ok a => f a | Err e => Err e end.
Definition required {A} (field : string) (o : option A) : fallible A :=
  match o with Some a => Ok a | None => Err (missing field) end.
Definition config_try_from (value : StableConfig) : fallible Config :=
  interval ← required "self_service_relay_interval_seconds" (sc_self_service_relay_interval_seconds value);
  if interval <? 60 then
    Err "historian restoration invariant: config.self_service_relay_interval_seconds must be at least 60"%string
  else
    output_source_account_ ← required "output_source_account" (sc_output_source_account value);
    output_account_ ← required "output_account" (sc_output_account value);
    rewards_account_ ← required "rewards_account" (sc_rewards_account value);
    cmc_canister_id_ ← required "cmc_canister_id" (sc_cmc_canister_id value);
    faucet_canister_id_ ← required "faucet_canister_id" (sc_faucet_canister_id value);
    xrc_canister_id_ ← required "xrc_canister_id" (sc_xrc_canister_id value);
    relay_factory_enabled_ ← required "relay_factory_enabled" (sc_relay_factory_enabled value);
    relay_setup_min_e8s_ ← required "relay_setup_min_e8s" (sc_relay_setup_min_e8s value);
    relay_initial_cycles_ ← required "relay_initial_cycles" (sc_relay_initial_cycles value);
    relay_cycle_safety_margin_e8s_ ← required "relay_cycle_safety_margin_e8s" (sc_relay_cycle_safety_margin_e8s value);
    relay_min_subaccount_one_seed_e8s_ ← required "relay_min_subaccount_one_seed_e8s" (sc_relay_min_subaccount_one_seed_e8s value);
    canonical_relay_canister_id_ ← required "canonical_relay_canister_id" (sc_canonical_relay_canister_id value);
    canonical_relay_targets_ ← required "canonical_relay_targets" (sc_canonical_relay_targets value);
    Ok {|
      staking_account := sc_staking_account value;
      output_source_account := output_source_account_;
      output_account := output_account_;
      rewards_account := rewards_account_;
      ledger_canister_id := sc_ledger_canister_id value;
      index_canister_id := sc_index_canister_id value;
      cmc_canister_id := Some cmc_canister_id_;
      faucet_canister_id := Some faucet_canister_id_;
      sns_wasm_canister_id := sc_sns_wasm_canister_id value;
      xrc_canister_id := xrc_canister_id_;
      enable_sns_tracking := sc_enable_sns_tracking value;
      scan_interval_seconds := sc_scan_interval_seconds value;
      cycles_interval_seconds := sc_cycles_interval_seconds value;
      min_tx_e8s := sc_min_tx_e8s value;
      max_cycles_entries_per_canister := sc_max_cycles_entries_per_canister value;
      max_commitment_entries_per_canister := sc_max_commitment_entries_per_canister value;
      max_index_pages_per_tick := sc_max_index_pages_per_tick value;
      max_canisters_per_cycles_tick := sc_max_canisters_per_cycles_tick value;
      relay_factory_enabled := relay_factory_enabled_;
      relay_setup_min_e8s := relay_setup_min_e8s_;
      relay_initial_cycles := relay_initial_cycles_;
      relay_cycle_safety_margin_e8s := relay_cycle_safety_margin_e8s_;
      relay_min_subaccount_one_seed_e8s := relay_min_subaccount_one_seed_e8s_;
      self_service_relay_interval_seconds := interval;
      canonical_relay_canister_id := canonical_relay_canister_id_;
      canonical_relay_targets := canonical_relay_targets_;
    |}.

(** ** [snapshots.rs] and [restore.rs] *)

Definition build_root_snapshot (s : State) : StableRootState := {|
  root_config := stable_config (config s);
  root_last_indexed_staking_tx_id := last_indexed_staking_tx_id s;
  root_oldest_indexed_staking_tx_id := oldest_indexed_staking_tx_id s;
  root_staking_index_descending := staking_index_descending s;
  root_staking_backfill_complete := staking_backfill_complete s;
  root_commitment_route_rollups_complete_from_genesis := commitment_route_rollups_complete_from_genesis s;
  root_last_indexed_output_tx_id := last_indexed_output_tx_id s;
  root_oldest_indexed_output_tx_id := oldest_indexed_output_tx_id s;
  root_output_route_index_descending := output_route_index_descending s;
  root_output_route_backfill_complete := output_route_backfill_complete s;
  root_last_indexed_rewards_tx_id := last_indexed_rewards_tx_id s;
  root_oldest_indexed_rewards_tx_id := oldest_indexed_rewards_tx_id s;
  root_rewards_route_index_descending := rewards_route_index_descending s;
  root_rewards_route_backfill_complete := rewards_route_backfill_complete s;
  root_last_sns_discovery_ts := last_sns_discovery_ts s;
  root_last_completed_cycles_sweep_ts := last_completed_cycles_sweep_ts s;
  root_last_completed_route_sweep_ts := last_completed_route_sweep_ts s;
  root_active_cycles_sweep := active_cycles_sweep s;
  root_initial_cycles_probe_queue := initial_cycles_probe_queue s;
  root_active_route_sweep := active_route_sweep s;
  root_active_sns_discovery := active_sns_discovery s;
  root_main_lock_state_ts := main_lock_state_ts s;
  root_last_main_run_ts := last_main_run_ts s;
  root_qualifying_commitment_count := qualifying_commitment_count s;
  root_total_output_e8s := total_output_e8s s;
  root_total_rewards_e8s := total_rewards_e8s s;
  root_recent_commitments := recent_commitments s;
  root_recent_under_threshold_commitments := recent_under_threshold_commitments s;
  root_recent_neuron_commitments := recent_neuron_commitments s;
  root_recent_under_threshold_neuron_commitments := recent_under_threshold_neuron_commitments s;
  root_recent_invalid_commitments := recent_invalid_commitments s;
  root_last_index_run_ts := last_index_run_ts s;
  root_commitment_index_fault := commitment_index_fault s;
  root_icp_xdr_rate := icp_xdr_rate s;
  root_last_icp_xdr_rate_attempt_ts := last_icp_xdr_rate_attempt_ts s;
  root_last_icp_xdr_rate_error := last_icp_xdr_rate_error s;
  root_active_staking_catch_up := active_staking_catch_up s;
  root_active_output_catch_up := active_output_catch_up s;
  root_active_rewards_catch_up := active_rewards_catch_up s;
  root_commitment_index_lock_expires_at_ts := commitment_index_lock_expires_at_ts s;
  root_commitment_index_lock_generation := Some (commitment_index_lock_generation s);
  root_commitment_index_lock_owner := commitment_index_lock_owner s;
  root_endowment_refresh_next_allowed_ts := Some (endowment_refresh_next_allowed_ts s);
  root_commitment_index_revision := Some (commitment_index_revision s);
|}.

(** The fields that a restored root must have. *)
Definition root_complete (root : StableRootState) : bool :=
  is_some (root_qualifying_commitment_count root)
  && is_some (root_total_output_e8s root)
  && is_some (root_total_rewards_e8s root)
  && is_some (root_recent_commitments root)
  && is_some (root_recent_under_threshold_commitments root)
  && is_some (root_recent_neuron_commitments root)
  && is_some (root_recent_under_threshold_neuron_commitments root)
  && is_some (root_recent_invalid_commitments root)
  && is_some (root_last_index_run_ts root)
  && is_some (root_last_completed_route_sweep_ts root).

(** The restored state; the histories stay in the stable maps.  [distinct_canisters]
    is rebuilt by the caller. *)
Definition restored_state (root : StableRootState) (cfg : Config)
    (reasons : btree_map Principal (btree_set CanisterTrackingReason)) (meta : btree_map Principal CanisterMeta) :
    State := {|
  config := cfg;
  distinct_canisters := [];
  canister_tracking_reasons := reasons;
  commitment_history := [];
  cycles_history := [];
  per_canister_meta := meta;
  cached_cycles_probe_routes := [];
  memo_registered_canister_summaries_cache := None;
  memo_registered_canister_summaries_total_desc_index := None;
  last_indexed_staking_tx_id := root_last_indexed_staking_tx_id root;
  oldest_indexed_staking_tx_id := root_oldest_indexed_staking_tx_id root;
  staking_index_descending := root_staking_index_descending root;
  staking_backfill_complete := match root_staking_backfill_complete root with Some b => Some b | None => Some false end;
  commitment_route_rollups_complete_from_genesis := root_commitment_route_rollups_complete_from_genesis root;
  last_indexed_output_tx_id := root_last_indexed_output_tx_id root;
  oldest_indexed_output_tx_id := root_oldest_indexed_output_tx_id root;
  output_route_index_descending := root_output_route_index_descending root;
  output_route_backfill_complete := match root_output_route_backfill_complete root with Some b => Some b | None => Some false end;
  last_indexed_rewards_tx_id := root_last_indexed_rewards_tx_id root;
  oldest_indexed_rewards_tx_id := root_oldest_indexed_rewards_tx_id root;
  rewards_route_index_descending := root_rewards_route_index_descending root;
  rewards_route_backfill_complete := match root_rewards_route_backfill_complete root with Some b => Some b | None => Some false end;
  last_sns_discovery_ts := root_last_sns_discovery_ts root;
  last_completed_cycles_sweep_ts := root_last_completed_cycles_sweep_ts root;
  last_completed_route_sweep_ts := root_last_completed_route_sweep_ts root;
  active_cycles_sweep := root_active_cycles_sweep root;
  initial_cycles_probe_queue := root_initial_cycles_probe_queue root;
  active_route_sweep := root_active_route_sweep root;
  active_sns_discovery := root_active_sns_discovery root;
  main_lock_state_ts := root_main_lock_state_ts root;
  last_main_run_ts := root_last_main_run_ts root;
  qualifying_commitment_count := root_qualifying_commitment_count root;
  raw_icp_commitment_history := [];
  neuron_commitment_history := [];
  total_output_e8s := root_total_output_e8s root;
  total_rewards_e8s := root_total_rewards_e8s root;
  recent_commitments := root_recent_commitments root;
  recent_under_threshold_commitments := root_recent_under_threshold_commitments root;
  recent_neuron_commitments := root_recent_neuron_commitments root;
  recent_under_threshold_neuron_commitments := root_recent_under_threshold_neuron_commitments root;
  recent_invalid_commitments := root_recent_invalid_commitments root;
  last_index_run_ts := root_last_index_run_ts root;
  commitment_index_fault := root_commitment_index_fault root;
  icp_xdr_rate := root_icp_xdr_rate root;
  last_icp_xdr_rate_attempt_ts := root_last_icp_xdr_rate_attempt_ts root;
  last_icp_xdr_rate_error := root_last_icp_xdr_rate_error root;
  active_staking_catch_up := root_active_staking_catch_up root;
  active_output_catch_up := root_active_output_catch_up root;
  active_rewards_catch_up := root_active_rewards_catch_up root;
  commitment_index_lock_expires_at_ts := root_commitment_index_lock_expires_at_ts root;
  commitment_index_lock_generation := default 0 (root_commitment_index_lock_generation root);
  commitment_index_lock_owner := root_commitment_index_lock_owner root;
  endowment_refresh_next_allowed_ts := default 0 (root_endowment_refresh_next_allowed_ts root);
  commitment_index_revision := default 0 (root_commitment_index_revision root);
  canister_module_hash_cache := [];
  canister_module_hash_cache_updated_ts := None;
  canister_module_hash_refresh_lock_ts := None;
|}.

End types.

(** ** The clients of the historian: one error constructor *)

Definition collapse {A} (r : result A ClientError) : result A ClientError :=
  match r with Ok a => Ok a | Err (CallFailed m) | Err (Convert m) => Err (CallFailed m) end.
Definition display_error (e : ClientError) : string :=
  ("inter-canister call failed: " ++ match e with CallFailed m | Convert m => m end)%string.
