(* ===== verification/HistorianKeys.v ===== *)
(** * Historian: the keys of the stable maps ([state/types.rs])

    [PrincipalKey], the entry keys and [CommitmentRouteKey] with their byte forms.
    The stable maps order keys with the derived [Ord]; the bytes are what is stored. *)

From S2P Require Import Prelude BTree Ic MemoPolicy.

(** [Principal::from_slice] inverts [as_slice], on at most 29 bytes. *)
Class SliceSpec `{PrincipalSpec} := principal_from_slice : list Z -> Principal.
Class SliceLaws `{P : PrincipalSpec} {S : SliceSpec} : Prop := {
  from_slice_as_slice : forall p, principal_from_slice (principal_as_slice p) = p;
  length_as_slice : forall p, (length (principal_as_slice p) <= 29)%nat;
}.

Definition PrincipalKey : Type := list Z.

Section keys.
Context `{P : PrincipalSpec}.
#[local] Existing Instance Principal_eq_dec.

Definition principal_key (p : Principal) : PrincipalKey := principal_as_slice p.
Definition to_principal `{!SliceSpec} (k : PrincipalKey) : Principal := principal_from_slice k.

(** [None] is a panic. *)
Definition assert_ (b : bool) : option unit := if b then Some tt else None.

(** ** [CommitmentEntryKey], [CyclesEntryKey], [NeuronCommitmentEntryKey] *)

Definition entry_key_bytes (canister : PrincipalKey) (id : Z) : list Z :=
  Z.of_nat (length canister) mod 256 :: canister ++ to_be_bytes id.
Definition entry_key_from_bytes (bytes : list Z) : option (PrincipalKey * Z) :=
  let len := Z.to_nat (default 0 (head bytes)) in
  _ ← assert_ (length bytes =? 1 + len + 8)%nat;
  Some (take len (drop 1 bytes), from_be (drop (1 + len) bytes)).
Definition neuron_entry_key_bytes (neuron_id id : Z) : list Z := to_be_bytes neuron_id ++ to_be_bytes id.
Definition neuron_entry_key_from_bytes (bytes : list Z) : option (Z * Z) :=
  _ ← assert_ (length bytes =? 16)%nat;
  Some (from_be (take 8 bytes), from_be (drop 8 bytes)).

(** ** [CommitmentRouteKey] *)

Inductive CommitmentRouteKey :=
| KeyCyclesTopUp (canister : PrincipalKey)
| KeyRawIcp (destination_canister : PrincipalKey) (memo : list Z)
| KeyNeuronStake (neuron_id : Z) (memo : option (list Z))
| KeyRawIcpSubaccount (destination_canister : PrincipalKey) (subaccount_number : Z) (memo : list Z).
#[export] Instance CommitmentRouteKey_eq_dec : EqDecision CommitmentRouteKey.
Proof. solve_decision. Defined.

(** The derived order: the variants in order, then their fields. *)
Definition lex (eq lt rest : bool) : bool := lt || (eq && rest).
Definition option_ltb {A} (lt : A -> A -> bool) (a b : option A) : bool :=
  match a, b with None, Some _ => true | Some a, Some b => lt a b | _, None => false end.
Definition variant (k : CommitmentRouteKey) : Z :=
  match k with KeyCyclesTopUp _ => 0 | KeyRawIcp _ _ => 1 | KeyNeuronStake _ _ => 2 | KeyRawIcpSubaccount _ _ _ => 3 end.
#[export] Instance CommitmentRouteKey_ord : OrdSpec CommitmentRouteKey := fun a b =>
  match a, b with
  | KeyCyclesTopUp a, KeyCyclesTopUp b => bytes_ltb a b
  | KeyRawIcp a m, KeyRawIcp b n => lex (bool_decide (a = b)) (bytes_ltb a b) (bytes_ltb m n)
  | KeyNeuronStake a m, KeyNeuronStake b n => lex (a =? b) (a <? b) (option_ltb bytes_ltb m n)
  | KeyRawIcpSubaccount a i m, KeyRawIcpSubaccount b j n =>
      lex (bool_decide (a = b)) (bytes_ltb a b) (lex (i =? j) (i <? j) (bytes_ltb m n))
  | _, _ => variant a <? variant b
  end.

Definition valid_route_principal (p : Principal) : bool :=
  negb (bool_decide (p = anonymous)) && negb (bool_decide (p = management_canister))
  && (length (principal_as_slice p) <=? 29)%nat.
Definition memo_fits (memo : list Z) : bool := Z.of_nat (length memo) <=? MAX_TARGET_CANISTER_MEMO_BYTES.

Definition raw_icp (destination : Principal) (destination_subaccount : option (list Z)) (memo : list Z) :
    option CommitmentRouteKey :=
  if negb (valid_route_principal destination) || negb (memo_fits memo) then None
  else
    let destination_canister := principal_key destination in
    match destination_subaccount with
    | None => Some (KeyRawIcp destination_canister memo)
    | Some subaccount =>
        match numbered_subaccount_number subaccount with
        | Err _ => None
        | Ok None => Some (KeyRawIcp destination_canister memo)
        | Ok (Some subaccount_number) =>
            then_some (11 + length destination_canister + length memo <=? 64)%nat
              (KeyRawIcpSubaccount destination_canister subaccount_number memo)
        end
    end.

(** [api.rs] [CommitmentRoute]. *)
Inductive CommitmentRoute :=
| RouteCyclesTopUp (canister_id : Principal)
| RouteRawIcp (destination_canister_id : Principal) (destination_subaccount : option (list Z)) (memo : list Z)
| RouteNeuronStake (neuron_id : Z) (memo : option (list Z)).

(** [<[u8; 32]>::try_from]: a subaccount of another length has no key. *)
Definition from_public (route : CommitmentRoute) : option CommitmentRouteKey :=
  match route with
  | RouteCyclesTopUp canister_id =>
      then_some (valid_route_principal canister_id) (KeyCyclesTopUp (principal_key canister_id))
  | RouteRawIcp destination subaccount memo =>
      match subaccount with
      | None => raw_icp destination None memo
      | Some bytes => if (length bytes =? 32)%nat then raw_icp destination (Some bytes) memo else None
      end
  | RouteNeuronStake neuron_id memo =>
      then_some (negb (neuron_id =? 0) && memo_fits (default [] memo)) (KeyNeuronStake neuron_id memo)
  end.

(** [logic.rs] [IndexedCommitmentTarget]; the memo texts as bytes. *)
Inductive IndexedCommitmentTarget :=
| IndexedCyclesTopUp (canister_id : Principal)
| IndexedRawIcp (canister_id : Principal) (destination_subaccount : option (list Z)) (memo_text : list Z)
| IndexedNeuronStake (neuron_id : Z) (memo_text : option (list Z)).
Definition from_indexed (target : IndexedCommitmentTarget) : option CommitmentRouteKey :=
  match target with
  | IndexedCyclesTopUp canister_id =>
      then_some (valid_route_principal canister_id) (KeyCyclesTopUp (principal_key canister_id))
  | IndexedRawIcp canister_id subaccount memo_text => raw_icp canister_id subaccount memo_text
  | IndexedNeuronStake neuron_id memo_text =>
      then_some (negb (neuron_id =? 0) && memo_fits (default [] memo_text)) (KeyNeuronStake neuron_id memo_text)
  end.

Definition byte_len (l : list Z) : Z := Z.of_nat (length l) mod 256.
Definition principal_fits (p : PrincipalKey) : bool := (length p <=? 29)%nat.
Definition route_into_bytes (k : CommitmentRouteKey) : option (list Z) :=
  match k with
  | KeyCyclesTopUp canister =>
      _ ← assert_ (principal_fits canister);
      Some (0 :: byte_len canister :: canister)
  | KeyRawIcp destination memo =>
      _ ← assert_ (principal_fits destination);
      _ ← assert_ (memo_fits memo);
      Some (1 :: byte_len destination :: destination ++ byte_len memo :: memo)
  | KeyNeuronStake neuron_id memo =>
      _ ← assert_ (negb (neuron_id =? 0));
      match memo with
      | None => Some (2 :: to_be_bytes neuron_id ++ [0])
      | Some memo =>
          _ ← assert_ (memo_fits memo);
          Some (2 :: to_be_bytes neuron_id ++ 1 :: byte_len memo :: memo)
      end
  | KeyRawIcpSubaccount destination subaccount_number memo =>
      _ ← assert_ (principal_fits destination);
      _ ← assert_ (negb (subaccount_number =? 0));
      _ ← assert_ (memo_fits memo);
      _ ← assert_ (11 + length destination + length memo <=? 64)%nat;
      Some (3 :: byte_len destination :: destination ++ to_be_bytes subaccount_number ++ byte_len memo :: memo)
  end.

Context `{!SliceSpec}.

Definition route_from_bytes (bytes : list Z) : option CommitmentRouteKey :=
  tag ← head bytes;
  if (tag =? 0) || (tag =? 1) then
    principal_len ← bytes !! 1%nat;
    _ ← assert_ (principal_len <=? 29);
    let principal_end := (2 + Z.to_nat principal_len)%nat in
    _ ← assert_ (principal_end <=? length bytes)%nat;
    let principal := take (Z.to_nat principal_len) (drop 2 bytes) in
    _ ← assert_ (valid_route_principal (to_principal principal));
    if tag =? 0 then
      _ ← assert_ (length bytes =? principal_end)%nat;
      Some (KeyCyclesTopUp principal)
    else
      memo_len ← bytes !! principal_end;
      _ ← assert_ (memo_len <=? MAX_TARGET_CANISTER_MEMO_BYTES);
      let memo_start := (principal_end + 1)%nat in
      _ ← assert_ (length bytes =? memo_start + Z.to_nat memo_len)%nat;
      Some (KeyRawIcp principal (drop memo_start bytes))
  else if tag =? 2 then
    _ ← assert_ (10 <=? length bytes)%nat;
    let neuron_id := from_be (take 8 (drop 1 bytes)) in
    _ ← assert_ (negb (neuron_id =? 0));
    presence ← bytes !! 9%nat;
    if presence =? 0 then
      _ ← assert_ (length bytes =? 10)%nat;
      Some (KeyNeuronStake neuron_id None)
    else if presence =? 1 then
      memo_len ← bytes !! 10%nat;
      _ ← assert_ (memo_len <=? MAX_TARGET_CANISTER_MEMO_BYTES);
      _ ← assert_ (length bytes =? 11 + Z.to_nat memo_len)%nat;
      Some (KeyNeuronStake neuron_id (Some (drop 11 bytes)))
    else None
  else if tag =? 3 then
    principal_len ← bytes !! 1%nat;
    _ ← assert_ (principal_len <=? 29);
    let principal_end := (2 + Z.to_nat principal_len)%nat in
    let number_end := (principal_end + 8)%nat in
    _ ← assert_ (number_end <? length bytes)%nat;
    let destination := take (Z.to_nat principal_len) (drop 2 bytes) in
    _ ← assert_ (valid_route_principal (to_principal destination));
    let subaccount_number := from_be (take 8 (drop principal_end bytes)) in
    _ ← assert_ (negb (subaccount_number =? 0));
    memo_len ← bytes !! number_end;
    _ ← assert_ (memo_len <=? MAX_TARGET_CANISTER_MEMO_BYTES);
    let memo_start := (number_end + 1)%nat in
    _ ← assert_ (length bytes =? memo_start + Z.to_nat memo_len)%nat;
    Some (KeyRawIcpSubaccount destination subaccount_number (drop memo_start bytes))
  else None.

(** ** [CommitmentRouteRollup] *)

Record CommitmentRouteRollup := MkRollup {
  rollup_qualifying_commitment_count : Z;
  rollup_total_qualifying_committed_e8s : Z;
}.
Definition CommitmentRouteRollup_default : CommitmentRouteRollup := MkRollup 0 0.
Definition rollup_to_bytes (r : CommitmentRouteRollup) : list Z :=
  to_be_bytes (rollup_qualifying_commitment_count r) ++ to_be_bytes (rollup_total_qualifying_committed_e8s r).
Definition rollup_from_bytes (bytes : list Z) : option CommitmentRouteRollup :=
  _ ← assert_ (length bytes =? 16)%nat;
  Some (MkRollup (from_be (take 8 bytes)) (from_be (drop 8 bytes))).

End keys.

Section codec.
Context `{P : PrincipalSpec} `{SS : !SliceSpec} `{SL : !SliceLaws}.
#[local] Existing Instance Principal_eq_dec.

(** What [from_public] and [from_indexed] build: a valid destination, a memo within the
    policy bound and numbers of 64 bits. *)
Definition valid_key (k : CommitmentRouteKey) : Prop :=
  match k with
  | KeyCyclesTopUp c => exists p, c = principal_key p /\ valid_route_principal p = true
  | KeyRawIcp c memo => (exists p, c = principal_key p /\ valid_route_principal p = true) /\ memo_fits memo = true
  | KeyNeuronStake neuron memo => 0 < neuron <= u64_max /\ memo_fits (default [] memo) = true
  | KeyRawIcpSubaccount c number memo =>
      (exists p, c = principal_key p /\ valid_route_principal p = true) /\ 0 < number <= u64_max
      /\ memo_fits memo = true /\ (11 + length c + length memo <= 64)%nat
  end.

Lemma byte_len_small l : (length l < 256)%nat -> byte_len l = Z.of_nat (length l).
Proof. intros H. unfold byte_len. apply Z.mod_small. lia. Qed.

Lemma memo_fits_length memo : memo_fits memo = true -> (length memo <= 32)%nat.
Proof. unfold memo_fits, MAX_TARGET_CANISTER_MEMO_BYTES. lia. Qed.

Lemma valid_principal_length p : valid_route_principal p = true -> (length (principal_key p) <= 29)%nat.
Proof. unfold valid_route_principal, principal_key. intros [_ H]%andb_true_iff. by apply Nat.leb_le. Qed.

Lemma to_be_length x : length (to_be_bytes x) = 8%nat.
Proof. apply length_be_bytes. Qed.

Lemma from_to_be x : 0 <= x <= u64_max -> from_be (to_be_bytes x) = x.
Proof. intros H. apply from_be_bytes. cbn. lia. Qed.

Lemma to_from_be l : Forall byte_ok l -> length l = 8%nat -> to_be_bytes (from_be l) = l /\ 0 <= from_be l <= u64_max.
Proof.
  intros Hb Hl. split.
  - unfold to_be_bytes. rewrite <- Hl. by apply be_from_bytes.
  - pose proof (from_be_bound l Hb) as B. rewrite Hl in B. cbn in B. lia.
Qed.

End codec.

(** The eight bytes of a number, [E : to_be_bytes n = bs]. *)
Ltac eight bs :=
  match goal with
  | E : to_be_bytes ?n = bs |- _ =>
      let H := fresh in
      pose proof (to_be_length n) as H; rewrite E in H; clear E;
      do 8 (destruct bs as [|? bs]; [done|]); destruct bs; [|done]; clear H
  end.

Section codec_proofs.
Context `{P : PrincipalSpec} `{SS : !SliceSpec} `{SL : !SliceLaws}.
#[local] Existing Instance Principal_eq_dec.

#[local] Arguments to_be_bytes : simpl never.

Lemma number_bytes n : 0 <= n <= u64_max -> exists bs, to_be_bytes n = bs /\ from_be bs = n.
Proof. intros H. eexists; split; [done|]. by apply from_to_be. Qed.

Lemma lookup_piece {A} (l k : list A) x i : i = length l -> (l ++ x :: k) !! i = Some x.
Proof. intros ->. by apply list_lookup_middle. Qed.

Lemma route_bytes_fit k : valid_key k ->
  exists bytes, route_into_bytes k = Some bytes /\ (length bytes <= 64)%nat.
Proof.
  destruct k as [c|c memo|n [memo|]|c n memo]; cbn.
  - intros (p & -> & Hp). pose proof (valid_principal_length _ Hp). unfold principal_fits.
    rewrite (proj2 (Nat.leb_le _ _)) by done. cbn. eexists; split; [done|cbn; lia].
  - intros ((p & -> & Hp) & Hm). pose proof (valid_principal_length _ Hp). unfold principal_fits.
    rewrite (proj2 (Nat.leb_le _ _)), Hm by done. cbn. eexists; split; [done|]. apply memo_fits_length in Hm.
    cbn. rewrite !length_app. cbn. lia.
  - intros [Hn Hm]. rewrite (proj2 (Z.eqb_neq _ _)), Hm by lia. cbn. eexists; split; [done|].
    apply memo_fits_length in Hm. cbn. rewrite length_app, to_be_length. cbn. lia.
  - intros [Hn _]. rewrite (proj2 (Z.eqb_neq _ _)) by lia. cbn. eexists; split; [done|].
    cbn. rewrite length_app, to_be_length. cbn. lia.
  - intros ((p & -> & Hp) & Hn & Hm & Hl). pose proof (valid_principal_length _ Hp). unfold principal_fits.
    rewrite (proj2 (Nat.leb_le _ _)), (proj2 (Z.eqb_neq _ _)), Hm by (done || lia). cbn.
    rewrite (proj2 (Nat.leb_le _ _)) by (cbn in Hl; lia). cbn. eexists; split; [done|].
    repeat (cbn; rewrite ?length_app, ?to_be_length). cbn in Hl. lia.
Qed.

Lemma route_decodes k bytes : valid_key k -> route_into_bytes k = Some bytes -> route_from_bytes bytes = Some k.
Proof.
  intros Hv. destruct k as [c|c memo|n [memo|]|c n memo]; cbn in Hv |- *.
  - destruct Hv as (p & -> & Hp). pose proof (valid_principal_length _ Hp) as Hl. unfold principal_fits.
    rewrite (proj2 (Nat.leb_le _ _)) by done. cbn. intros [= <-].
    unfold route_from_bytes. cbn -[take drop]. rewrite byte_len_small by lia. rewrite Nat2Z.id.
    rewrite (proj2 (Z.leb_le _ _)) by lia. cbn -[take drop].
    rewrite (proj2 (Nat.leb_le _ _)) by lia. cbn -[take drop].
    change (drop 2 (?a :: ?b :: ?l)) with l. rewrite firstn_all. unfold to_principal, principal_key.
    rewrite from_slice_as_slice, Hp. cbn. by rewrite Nat.eqb_refl.
  - destruct Hv as ((p & -> & Hp) & Hm). pose proof (valid_principal_length _ Hp) as Hl. unfold principal_fits.
    rewrite (proj2 (Nat.leb_le _ _)), Hm by done. cbn. intros [= <-]. apply memo_fits_length in Hm.
    unfold route_from_bytes. cbn -[take drop]. rewrite !byte_len_small by lia. rewrite !Nat2Z.id.
    rewrite (proj2 (Z.leb_le _ _)) by lia. cbn -[take drop]. rewrite length_app. cbn [length].
    rewrite (proj2 (Nat.leb_le _ _)) by lia. cbn -[take drop].
    change (drop 2 (?a :: ?b :: ?l)) with l. rewrite take_app_length. unfold to_principal, principal_key.
    rewrite from_slice_as_slice, Hp. cbn -[take drop].
    assert (E : forall l : list Z, (principal_as_slice p ++ Z.of_nat (length memo) :: l) !! length (principal_as_slice p) = Some (Z.of_nat (length memo))) by (intros; by apply list_lookup_middle).
    unfold lookup in E |- *. rewrite E.  cbn -[take drop]. rewrite !Nat2Z.id.
    unfold MAX_TARGET_CANISTER_MEMO_BYTES. rewrite (proj2 (Z.leb_le _ _)) by lia. cbn -[take drop].
    rewrite (proj2 (Nat.eqb_eq _ _)) by lia. cbn [mbind option_bind assert_].
    do 2 f_equal.
    replace (length (principal_as_slice p) + 1)%nat with (S (length (principal_as_slice p))) by lia.
    cbn. rewrite drop_app. rewrite drop_ge by lia. cbn.
    by replace (S (length (principal_as_slice p)) - length (principal_as_slice p))%nat with 1%nat by lia.
  - destruct Hv as [Hn Hm]. rewrite (proj2 (Z.eqb_neq _ _)), Hm by lia. cbn. apply memo_fits_length in Hm.
    destruct (number_bytes n) as (bs & E & Hbs); [lia|]. rewrite E. eight bs. intros [= <-]. rewrite byte_len_small by lia. unfold route_from_bytes. cbn -[from_be].
    rewrite Hbs, (proj2 (Z.eqb_neq n 0)) by lia. cbn -[from_be]. rewrite Nat2Z.id. unfold MAX_TARGET_CANISTER_MEMO_BYTES.
    rewrite (proj2 (Z.leb_le _ _)) by lia. cbn. by rewrite Nat.eqb_refl.
  - destruct Hv as [Hn _]. rewrite (proj2 (Z.eqb_neq _ _)) by lia. cbn.
    destruct (number_bytes n) as (bs & E & Hbs); [lia|]. rewrite E. eight bs. intros [= <-].
    unfold route_from_bytes. cbn -[from_be]. by rewrite Hbs, (proj2 (Z.eqb_neq n 0)) by lia.
  - destruct Hv as ((p & -> & Hp) & Hn & Hm & Hfit). pose proof (valid_principal_length _ Hp) as Hl. unfold principal_fits.
    rewrite (proj2 (Nat.leb_le _ _)), (proj2 (Z.eqb_neq _ _)), Hm by (done || lia). cbn.
    rewrite (proj2 (Nat.leb_le _ _)) by (cbn in Hfit; lia). cbn. apply memo_fits_length in Hm.
    destruct (number_bytes n) as (bs & E & Hbs); [lia|]. rewrite E. intros [= <-].
    assert (Hbl : length bs = 8%nat) by (rewrite <- E; apply to_be_length). clear Hfit E.
    unfold principal_key in *. set (c := principal_as_slice p) in *.
    rewrite !byte_len_small by lia. unfold route_from_bytes. cbn -[take drop lookup length Nat.ltb Nat.eqb].
    change ((?a :: ?b :: ?l) !! 1%nat) with (Some b). cbn -[take drop lookup length Nat.ltb Nat.eqb Nat.add].
    rewrite Nat2Z.id, (proj2 (Z.leb_le _ _)) by lia. cbn -[take drop lookup length Nat.ltb Nat.eqb Nat.add].
    assert (Hbytes : length (3 :: Z.of_nat (length c) :: c ++ bs ++ Z.of_nat (length memo) :: memo)
      = (2 + length c + 8 + 1 + length memo)%nat) by (cbn; rewrite !length_app, Hbl; cbn; lia).
    rewrite Hbytes, (proj2 (Nat.ltb_lt _ _)) by lia. cbn -[take drop lookup length Nat.eqb Nat.add].
    change (drop 2 (?a :: ?b :: ?l)) with l. rewrite take_app_length. unfold to_principal.
    assert (Hc : principal_from_slice c = p) by apply from_slice_as_slice. rewrite Hc, Hp.
    cbn -[take drop lookup length Nat.eqb Nat.add].
    change (drop (S (S (length c))) (?a :: ?b :: ?l)) with (drop (length c) l).
    rewrite drop_app_length, take_app_length' by done. rewrite Hbs, (proj2 (Z.eqb_neq n 0)) by lia.
    cbn -[take drop lookup length Nat.eqb].
    change ((?a :: ?b :: ?l) !! S (S (length c + 8))) with (l !! (length c + 8)%nat).
    rewrite app_assoc, (list_lookup_middle (c ++ bs)) by (rewrite length_app; lia).
    cbn -[take drop lookup length Nat.eqb]. unfold MAX_TARGET_CANISTER_MEMO_BYTES.
    rewrite Nat2Z.id, (proj2 (Z.leb_le _ _)), (proj2 (Nat.eqb_eq _ _)) by lia.
    cbn -[take drop lookup length]. do 2 f_equal.
    change (drop (S (S (length c + 8 + 1))) (?a :: ?b :: ?l)) with (drop (length c + 8 + 1)%nat l).
    replace (length c + 8 + 1)%nat with (length ((c ++ bs) ++ [Z.of_nat (length memo)])) by (rewrite !length_app; cbn; lia).
    change (?x :: memo) with ([x] ++ memo). rewrite app_assoc. apply drop_app_length.
Qed.

(** A subaccount is 32 bytes, a neuron id 64 bits. *)
Definition subaccount_ok (o : option (list Z)) : Prop :=
  forall s, o = Some s -> length s = 32%nat /\ Forall byte_ok s.
Definition target_ok (t : IndexedCommitmentTarget) : Prop :=
  match t with
  | IndexedCyclesTopUp _ => True
  | IndexedRawIcp _ subaccount _ => subaccount_ok subaccount
  | IndexedNeuronStake neuron _ => u64 neuron
  end.
(** The public route of an indexed target. *)
Definition public_route (t : IndexedCommitmentTarget) : CommitmentRoute :=
  match t with
  | IndexedCyclesTopUp c => RouteCyclesTopUp c
  | IndexedRawIcp c subaccount memo => RouteRawIcp c subaccount memo
  | IndexedNeuronStake neuron memo => RouteNeuronStake neuron memo
  end.

Lemma raw_icp_valid p subaccount memo k : subaccount_ok subaccount -> raw_icp p subaccount memo = Some k -> valid_key k.
Proof.
  intros Hs. unfold raw_icp. destruct (valid_route_principal p) eqn:Hp; [|done]. destruct (memo_fits memo) eqn:Hm; [|done].
  cbn. assert (Hraw : valid_key (KeyRawIcp (principal_key p) memo)) by (cbn; eauto).
  destruct subaccount as [s|]; [|by intros [= <-]]. destruct (Hs s eq_refl) as [Hl Hb].
  unfold numbered_subaccount_number. destruct (existsb _ _); [done|].
  cbn.
  destruct (negb _) eqn:Hn; cbn; [|by intros [= <-]]. unfold then_some. destruct (Nat.leb _ _) eqn:Hfit; [|done].
  intros [= <-]. cbn. split; [eauto|]. apply Nat.leb_le in Hfit. cbn in Hfit.
  assert (Hd : Forall byte_ok (drop 24 s)) by by apply Forall_drop.
  apply to_from_be in Hd as [_ B]; [|by rewrite length_drop, Hl]. repeat split; try done; ulia.
Qed.

Lemma indexed_key_valid t k : target_ok t -> from_indexed t = Some k -> valid_key k.
Proof.
  destruct t as [c|c s memo|n memo]; cbn; unfold then_some.
  - intros _. destruct (valid_route_principal c) eqn:?; [|done]. intros [= <-]. cbn. eauto.
  - apply raw_icp_valid.
  - intros Hn. destruct (negb _ && _) eqn:E; [|done]. intros [= <-]. apply andb_true_iff in E as [E1 E2]. cbn.
    split; [|done]. ulia.
Qed.

(** An entry key is read back as it was written, and the two parts of the key with it. *)
Lemma entry_key_roundtrip (c : PrincipalKey) id : (length c <= 29)%nat -> u64 id ->
  entry_key_from_bytes (entry_key_bytes c id) = Some (c, id).
Proof.
  intros Hc Hid. unfold entry_key_from_bytes, entry_key_bytes. cbn -[take drop Nat.eqb].
  rewrite Z.mod_small, Nat2Z.id, length_app, to_be_length by lia.
  rewrite (proj2 (Nat.eqb_eq _ _)) by lia. cbn -[take drop].
  change (drop 1 (?a :: ?l)) with l. change (drop (S ?n) (?a :: ?l)) with (drop n l).
  rewrite take_app_length, drop_app_length, from_to_be; [done|]. apply Hid.
Qed.
Lemma neuron_entry_key_roundtrip neuron id : u64 neuron -> u64 id ->
  neuron_entry_key_from_bytes (neuron_entry_key_bytes neuron id) = Some (neuron, id).
Proof.
  intros Hn Hid. unfold neuron_entry_key_from_bytes, neuron_entry_key_bytes.
  rewrite length_app, !to_be_length. cbn -[take drop].
  rewrite take_app_length', drop_app_length' by (by rewrite to_be_length). by rewrite (from_to_be neuron Hn), (from_to_be id Hid).
Qed.
Lemma rollup_roundtrip (r : CommitmentRouteRollup) :
  u64 (rollup_qualifying_commitment_count r) -> u64 (rollup_total_qualifying_committed_e8s r) ->
  rollup_from_bytes (rollup_to_bytes r) = Some r.
Proof.
  intros Hc Ht. unfold rollup_from_bytes, rollup_to_bytes. rewrite length_app, !to_be_length. cbn -[take drop].
  rewrite take_app_length', drop_app_length' by (by rewrite to_be_length).
  rewrite (from_to_be _ Hc), (from_to_be _ Ht). by destruct r.
Qed.

(** C40: The key under which the indexer accumulates a commitment route is stored in at
    most 64 bytes and read back as it was, so two routes share a stored key only when
    they share the key, and the public query of the same route asks for the same key.  The
    entry keys of the histories too: the key of a sample of a canister takes at most 38 bytes,
    the one of a neuron 16, and both are read back with their two parts. *)
Theorem route_key_storable (t : IndexedCommitmentTarget) :
  target_ok t ->
  from_public (public_route t) = from_indexed t /\
  (forall k, from_indexed t = Some k ->
    exists bytes, route_into_bytes k = Some bytes /\ (length bytes <= 64)%nat /\ route_from_bytes bytes = Some k /\
      forall t' k', target_ok t' -> from_indexed t' = Some k' -> route_into_bytes k' = Some bytes -> k' = k) /\
  forall id, u64 id ->
    (forall canister, let bytes := entry_key_bytes (principal_key canister) id in
       (length bytes <= 38)%nat /\ entry_key_from_bytes bytes = Some (principal_key canister, id)) /\
    (forall neuron_id, u64 neuron_id -> let bytes := neuron_entry_key_bytes neuron_id id in
       length bytes = 16%nat /\ neuron_entry_key_from_bytes bytes = Some (neuron_id, id)).
Proof.
  intros Ht. split; [|split].
  - destruct t as [c|c [s|] memo|n memo]; try done. destruct (Ht s eq_refl) as [Hl _].
    unfold public_route, from_public. by rewrite Hl.
  - intros k Hk. pose proof (indexed_key_valid _ _ Ht Hk) as Hv.
    destruct (route_bytes_fit k Hv) as (bytes & Hb & Hl). pose proof (route_decodes k bytes Hv Hb) as Hd.
    exists bytes. repeat split; try done. intros t' k' Ht' Hk' Hb'.
    pose proof (route_decodes k' bytes (indexed_key_valid _ _ Ht' Hk') Hb') as Hd'. congruence.
  - intros id Hid. split; [intros canister|intros neuron Hn].
    + pose proof (length_as_slice canister) as Hl. split; [|by apply entry_key_roundtrip].
      unfold entry_key_bytes, principal_key. cbn [length]. rewrite length_app, to_be_length. lia.
    + split; [|by apply neuron_entry_key_roundtrip]. unfold neuron_entry_key_bytes. by rewrite length_app, !to_be_length.
Qed.

End codec_proofs.

Module ConcreteKeys.
#[export] Instance concrete_slices : SliceSpec (H:=Concrete.concrete_principal) := fun bytes => default 0 (head bytes).
#[export] Instance concrete_slice_laws : SliceLaws (P:=Concrete.concrete_principal).
Proof. split; intros p; [done|cbn; lia]. Qed.

Definition sample_target : IndexedCommitmentTarget (P:=Concrete.concrete_principal) :=
  IndexedRawIcp (P:=Concrete.concrete_principal) 7 (Some (replicate 31 0 ++ [5])) [65; 66].

Lemma route_key_storable_witness :
  exists bytes, route_into_bytes (KeyRawIcpSubaccount [7] 5 [65; 66]) = Some bytes
    /\ route_from_bytes (P:=Concrete.concrete_principal) bytes = Some (KeyRawIcpSubaccount [7] 5 [65; 66])
    /\ neuron_entry_key_from_bytes (neuron_entry_key_bytes 42 9) = Some (42, 9).
Proof.
  assert (Ht : target_ok sample_target).
  { intros s [= <-]. split; [done|]. repeat constructor; unfold byte_ok; lia. }
  destruct (route_key_storable sample_target Ht) as (_ & Hroutes & Hentries).
  destruct (Hroutes (KeyRawIcpSubaccount [7] 5 [65; 66])) as (bytes & Hb & _ & Hd & _); [reflexivity|].
  exists bytes. split; [exact Hb|]. split; [exact Hd|]. apply (Hentries 9); split; lia.
Defined.

End ConcreteKeys.
