(* ===== verification/HistorianState.v ===== *)
(** * Historian: stable maps, scoped persistence and restoration

    [state/{stable,commitments,cycles,routes,snapshots,access,restore}.rs] and
    [crates/persistence-batch].  The bulk histories are loaded into memory on demand; a
    mutation names the sections and keys it touches, and what it touched is written to
    the stable maps at once or, inside a batch, when the outermost batch ends. *)

From Stdlib Require Import Sorted.
From S2P Require Import Prelude BTree Ic CyclesProbe HistorianTypes HistorianKeys.

(** ** A history: the ids of each key in order, and the sample of each id *)

Section history.
Context {K IK S : Type} `{EqDecision K} `{EqDecision IK} `{OrdSpec IK} `{OrdSpec (IK * Z)} `{EqDecision S}.
(** How a key is stored, and the id of a sample. *)
Context (stored : K -> IK) (id_of : S -> Z).

Record History := MkHistory {
  history_index : btree_map IK (list Z);
  history_entries : btree_map (IK * Z) S;
}.
Definition History_empty : History := MkHistory [] [].

Definition load_history (h : History) (k : K) : list S :=
  match btree_get (stored k) (history_index h) with
  | Some ids => omap (fun id => btree_get (stored k, id) (history_entries h)) ids
  | None => []
  end.

(** [sync_all_*_maps] *)
Definition insert_samples (k : K) (samples : list S) (entries : btree_map (IK * Z) S) : btree_map (IK * Z) S :=
  fold_left (fun m sample => btree_insert (stored k, id_of sample) sample m) samples entries.
Definition sync_all (current : btree_map K (list S)) : History :=
  fold_left (fun h (e : K * list S) =>
    let (k, samples) := e in
    match map id_of samples with
    | [] => h
    | ids => MkHistory (btree_insert (stored k) ids (history_index h)) (insert_samples k samples (history_entries h))
    end) current History_empty.

(** [sync_*_principals]: one key; a key that is not in memory is removed. *)
Definition remove_stale (k : K) (existing current_ids : list Z) (entries : btree_map (IK * Z) S) :
    btree_map (IK * Z) S :=
  fold_left (fun m id => if bool_decide (id ∈ current_ids) then m else btree_remove (stored k, id) m) existing entries.
Definition update_samples (k : K) (samples : list S) (entries : btree_map (IK * Z) S) : btree_map (IK * Z) S :=
  fold_left (fun m sample =>
    if bool_decide (btree_get (stored k, id_of sample) m = Some sample) then m
    else btree_insert (stored k, id_of sample) sample m) samples entries.
Definition update_index (k : K) (ids : list Z) (index : btree_map IK (list Z)) : btree_map IK (list Z) :=
  match ids with
  | [] => btree_remove (stored k) index
  | _ => if bool_decide (btree_get (stored k) index = Some ids) then index else btree_insert (stored k) ids index
  end.
Definition sync_key (current : btree_map K (list S)) (h : History) (k : K) : History :=
  let existing := default [] (btree_get (stored k) (history_index h)) in
  let samples := default [] (btree_get k current) in
  let ids := map id_of samples in
  MkHistory (update_index k ids (history_index h))
    (update_samples k samples (remove_stale k existing ids (history_entries h))).
Definition sync_keys (current : btree_map K (list S)) (keys : btree_set K) (h : History) : History :=
  fold_left (sync_key current) keys h.

(** What the canister sees: the history in memory, or the stored one. *)
Definition history_view (current : btree_map K (list S)) (h : History) (k : K) : list S :=
  match btree_get k current with Some l => l | None => load_history h k end.
(** [ensure_*_loaded] *)
Definition ensure_loaded `{OrdSpec K} (h : History) (k : K) (current : btree_map K (list S)) : btree_map K (list S) :=
  if contains_key k current then current
  else match load_history h k with [] => current | l => btree_insert k l current end.

(** *** What a synchronised key holds *)

Lemma remove_stale_get k existing ids m k' id' :
  (k', id') = (stored k, id') /\ id' ∈ existing /\ id' ∉ ids \/
  btree_get (k', id') (remove_stale k existing ids m) = btree_get (k', id') m.
Proof.
  unfold remove_stale. revert m. induction existing as [|x l IH]; intros m; cbn; [by right|].
  destruct (IH (if bool_decide (x ∈ ids) then m else btree_remove (stored k, x) m)) as [(E & Hin & Hn)|E].
  - left. set_solver.
  - case_bool_decide as Hx; [by right|]. rewrite E. destruct (decide ((k', id') = (stored k, x))) as [[= -> ->]|Hne].
    + left. set_solver.
    + right. apply btree_get_remove_ne. congruence.
Qed.

Lemma update_samples_other k samples m kid :
  (forall s, s ∈ samples -> kid <> (stored k, id_of s)) ->
  btree_get kid (update_samples k samples m) = btree_get kid m.
Proof.
  unfold update_samples. revert m. induction samples as [|s l IH]; intros m Hne; cbn; [done|].
  rewrite IH by set_solver. case_bool_decide; [done|]. apply btree_get_insert_ne.
  intros <-. by apply (Hne s); [left|].
Qed.

Lemma update_samples_get k samples m s :
  NoDup (map id_of samples) -> s ∈ samples ->
  btree_get (stored k, id_of s) (update_samples k samples m) = Some s.
Proof.
  revert m. induction samples as [|x l IH]; intros m Hnd Hs; [set_solver|]. cbn in Hnd |- *.
  apply NoDup_cons in Hnd as [Hx Hnd]. apply elem_of_cons in Hs as [->|Hs]; [|by apply IH].
  fold (update_samples k l). change (btree_get (stored k, id_of x) (update_samples k l
    (if bool_decide (btree_get (stored k, id_of x) m = Some x) then m else btree_insert (stored k, id_of x) x m)) = Some x).
  rewrite update_samples_other.
  - case_bool_decide; [done|]. apply btree_get_insert.
  - intros y Hy [= E]. apply Hx. rewrite E. by apply list_elem_of_fmap_2.
Qed.

Lemma omap_ids (f : Z -> option S) (samples : list S) :
  (forall s, s ∈ samples -> f (id_of s) = Some s) -> omap f (map id_of samples) = samples.
Proof.
  induction samples as [|s l IH]; intros H'; [done|]. cbn. rewrite H' by set_solver. f_equal. apply IH. set_solver.
Qed.

Lemma load_sync_key current h k :
  NoDup (map id_of (default [] (btree_get k current))) ->
  load_history (sync_key current h k) k = default [] (btree_get k current).
Proof.
  intros Hnd. unfold load_history, sync_key. cbn. set (samples := default [] (btree_get k current)) in *.
  unfold update_index. destruct (map id_of samples) as [|i l] eqn:E.
  - rewrite btree_get_remove. symmetry. by apply map_eq_nil in E.
  - assert (Hget : btree_get (stored k) (if bool_decide (btree_get (stored k) (history_index h) = Some (i :: l))
        then history_index h else btree_insert (stored k) (i :: l) (history_index h)) = Some (i :: l)).
    { case_bool_decide; [done|]. apply btree_get_insert. }
    rewrite Hget, <- E. apply omap_ids. intros s Hs. apply update_samples_get; [by rewrite E|done].
Qed.

Context `{!Inj (=) (=) stored}.

Lemma load_sync_key_ne current h k k' : k <> k' -> load_history (sync_key current h k) k' = load_history h k'.
Proof.
  intros Hne. assert (Hs : stored k <> stored k') by (intros E; by apply (inj stored) in E).
  unfold load_history, sync_key. cbn.
  assert (E : forall ids, btree_get (stored k') (update_index k ids (history_index h)) = btree_get (stored k') (history_index h)).
  { intros [|i l]; cbn; [by apply btree_get_remove_ne|]. case_bool_decide; [done|]. by apply btree_get_insert_ne. }
  rewrite E. destruct (btree_get _ _) as [ids|]; [|done]. apply list_omap_ext, Forall_Forall2_diag, Forall_forall.
  intros id _. rewrite update_samples_other by (intros ? _ [= ? _]; congruence).
  by destruct (remove_stale_get k (default [] (btree_get (stored k) (history_index h)))
    (map id_of (default [] (btree_get k current))) (history_entries h) (stored k') id) as [([= ?] & _)|E'].
Qed.

(** The keys named by a scope become what memory holds, the others stay. *)
Lemma load_sync_keys current keys h k :
  (k ∈ keys -> NoDup (map id_of (default [] (btree_get k current)))) ->
  load_history (sync_keys current keys h) k
    = if bool_decide (k ∈ keys) then default [] (btree_get k current) else load_history h k.
Proof.
  unfold sync_keys. revert h. induction keys as [|x l IH]; intros h Hnd; [done|]. cbn.
  rewrite IH by (intros; apply Hnd; by right). destruct (decide (k ∈ l)) as [Hin|Hin].
  - rewrite !bool_decide_eq_true_2; [done|by right|done].
  - rewrite (bool_decide_eq_false_2 (k ∈ l)) by done. destruct (decide (k = x)) as [->|Hne].
    + rewrite bool_decide_eq_true_2 by left. apply load_sync_key, Hnd. left.
    + rewrite bool_decide_eq_false_2 by set_solver. by apply load_sync_key_ne.
Qed.

End history.

Arguments History : clear implicits.

(** ** A registry map: one value per principal *)

Section registry.
Context {K IK V : Type} `{EqDecision K} `{EqDecision IK} `{OrdSpec IK} (stored : K -> IK) (unstored : IK -> K).
(** [existing != desired] *)
Context `{EqDecision V}.

Definition sync_one (current : btree_map K V) (m : btree_map IK V) (k : K) : btree_map IK V :=
  match btree_get k current with
  | Some desired =>
      if bool_decide (btree_get (stored k) m = Some desired) then m else btree_insert (stored k) desired m
  | None => btree_remove (stored k) m
  end.
Definition sync_registry (current : btree_map K V) (scope : option (btree_set K)) (m : btree_map IK V) : btree_map IK V :=
  match scope with
  | Some keys => fold_left (sync_one current) keys m
  | None =>
      let kept := btree_retain (fun key => contains_key (unstored key) current) m in
      fold_left (fun m (e : K * V) =>
        if bool_decide (btree_get (stored e.1) m = Some e.2) then m else btree_insert (stored e.1) e.2 m) current kept
  end.

Lemma sync_one_get current m k : btree_get (stored k) (sync_one current m k) = btree_get k current.
Proof.
  unfold sync_one. destruct (btree_get k current) as [v|]; [|by rewrite btree_get_remove].
  case_bool_decide; [done|]. apply btree_get_insert.
Qed.

Context `{!Inj (=) (=) stored}.

Lemma sync_one_get_ne current m k k' : k <> k' ->
  btree_get (stored k') (sync_one current m k) = btree_get (stored k') m.
Proof.
  intros Hne. assert (stored k <> stored k') by (intros E; by apply (inj stored) in E).
  unfold sync_one. destruct (btree_get k current) as [v|]; [|by apply btree_get_remove_ne].
  case_bool_decide; [done|]. by apply btree_get_insert_ne.
Qed.

Lemma sync_registry_get current keys m k :
  btree_get (stored k) (sync_registry current (Some keys) m)
    = if bool_decide (k ∈ keys) then btree_get k current else btree_get (stored k) m.
Proof.
  cbn. revert m. induction keys as [|x l IH]; intros m; [done|]. cbn. rewrite IH. destruct (decide (k ∈ l)) as [Hin|Hin].
  - rewrite !bool_decide_eq_true_2; [done|by right|done].
  - rewrite (bool_decide_eq_false_2 (k ∈ l)) by done. destruct (decide (k = x)) as [->|Hne].
    + rewrite bool_decide_eq_true_2 by left. apply sync_one_get.
    + rewrite bool_decide_eq_false_2 by set_solver. by apply sync_one_get_ne.
Qed.

End registry.

(** ** Sections ([state/stable.rs]) and batches ([crates/persistence-batch]) *)

Definition DIRTY_ROOT : Z := 1.
Definition DIRTY_REGISTRY : Z := 2.
Definition DIRTY_COMMITMENTS : Z := 4.
Definition DIRTY_CYCLES : Z := 8.
Definition DIRTY_RAW_ICP_COMMITMENTS : Z := 16.
Definition DIRTY_NEURON_COMMITMENTS : Z := 32.
Definition DIRTY_ALL : Z := 63.
(** [dirty & section != 0] *)
Definition has (dirty section : Z) : bool := negb (Z.land dirty section =? 0).

Definition is_active (depth : Z) : bool := 0 <? depth.
Definition begin_depth (depth : Z) : Z := Z.min (depth + 1) 4294967295.
(** [None]: the assertion fails. *)
Definition finish_depth (depth : Z) (dirty : bool) : option (Z * bool) :=
  if 0 <? depth then Some (depth - 1, (depth - 1 =? 0) && dirty) else None.

Section storage.
Context `{P : PrincipalSpec} `{O : !OrdSpec Principal} `{SS : !SliceSpec}.
#[local] Existing Instance Principal_eq_dec.

#[export] Instance entry_key_ord : OrdSpec (PrincipalKey * Z) :=
  fun a b => lex (bool_decide (a.1 = b.1)) (bytes_ltb a.1 b.1) (a.2 <? b.2).
#[export] Instance neuron_entry_key_ord : OrdSpec (Z * Z) := fun a b => lex (a.1 =? b.1) (a.1 <? b.1) (a.2 <? b.2).

#[export] Instance CyclesSampleSource_eq_dec : EqDecision CyclesSampleSource.
Proof. solve_decision. Defined.
#[export] Instance CyclesSample_eq_dec : EqDecision CyclesSample.
Proof. solve_decision. Defined.
#[export] Instance CyclesProbeResult_eq_dec : EqDecision CyclesProbeResult.
Proof. solve_decision. Defined.
#[export] Instance CanisterMeta_eq_dec : EqDecision CanisterMeta.
Proof. solve_decision. Defined.

(** The stable memories; [VersionedStableState::Uninitialized] is [None], and
    [StableCanisterMeta] has the fields of [CanisterMeta]. *)
Record Storage := MkStorage {
  stable_root : option StableRootState;
  canister_sources_map : btree_map PrincipalKey (btree_set CanisterTrackingReason);
  canister_meta_map : btree_map PrincipalKey CanisterMeta;
  stable_commitments : History PrincipalKey CommitmentSample;
  stable_cycles : History PrincipalKey CyclesSample;
  stable_raw_icp : History PrincipalKey CommitmentSample;
  stable_neurons : History Z CommitmentSample;
  commitment_route_rollup_map : btree_map CommitmentRouteKey CommitmentRouteRollup;
}.
Definition Storage_empty : Storage :=
  MkStorage None [] [] History_empty History_empty History_empty History_empty [].

(** What one write covers: the sections and, per section, the keys. *)
Record Scope := MkScope {
  scope_sections : Z;
  registry_scope : option (btree_set Principal);
  commitment_scope : option (btree_set Principal);
  cycles_scope : option (btree_set Principal);
  raw_icp_commitment_scope : option (btree_set Principal);
  neuron_commitment_scope : option (btree_set Z);
}.

Definition sync_history {K IK S} `{EqDecision K} `{EqDecision IK} `{OrdSpec IK} `{OrdSpec (IK * Z)} `{EqDecision S}
    (stored : K -> IK) (id_of : S -> Z) (current : btree_map K (list S)) (scope : option (btree_set K))
    (h : History IK S) : History IK S :=
  match scope with
  | Some keys => sync_keys stored id_of current keys h
  | None => sync_all stored id_of current
  end.

Definition sync_commitment_history := sync_history principal_key sample_tx_id.
Definition sync_raw_icp_commitment_history := sync_history principal_key sample_tx_id.
Definition sync_cycles_history := sync_history principal_key cycles_timestamp_nanos.
Definition sync_neuron_commitment_history := sync_history (fun n : Z => n) sample_tx_id.

(** [persist_snapshot_sections_scoped]: the root last. *)
Definition persist_snapshot_sections_scoped (st : State) (sc : Scope) (s : Storage) : Storage :=
  let dirty := scope_sections sc in
  let s := if has dirty DIRTY_REGISTRY then
      s <| canister_sources_map ::= sync_registry principal_key to_principal (canister_tracking_reasons st) (registry_scope sc) |>
        <| canister_meta_map ::= sync_registry principal_key to_principal (per_canister_meta st) (registry_scope sc) |>
    else s in
  let s := if has dirty DIRTY_COMMITMENTS then
      s <| stable_commitments ::= sync_commitment_history (commitment_history st) (commitment_scope sc) |> else s in
  let s := if has dirty DIRTY_CYCLES then
      s <| stable_cycles ::= sync_cycles_history (cycles_history st) (cycles_scope sc) |> else s in
  let s := if has dirty DIRTY_RAW_ICP_COMMITMENTS then
      s <| stable_raw_icp ::= sync_raw_icp_commitment_history (raw_icp_commitment_history st) (raw_icp_commitment_scope sc) |>
    else s in
  let s := if has dirty DIRTY_NEURON_COMMITMENTS then
      s <| stable_neurons ::= sync_neuron_commitment_history (neuron_commitment_history st) (neuron_commitment_scope sc) |>
    else s in
  if has dirty DIRTY_ROOT then s <| stable_root := Some (build_root_snapshot st) |> else s.
Definition persist_snapshot (st : State) (s : Storage) : Storage :=
  persist_snapshot_sections_scoped st (MkScope DIRTY_ALL None None None None None) s.

(** ** The canister's memory: the state, the stable maps and the batch *)

Record Mem := MkMem {
  st : State;
  storage : Storage;
  persistence_batch_depth : Z;
  persistence_dirty_sections : Z;
  dirty_registry_principals : btree_set Principal;
  dirty_commitment_principals : btree_set Principal;
  dirty_cycles_principals : btree_set Principal;
  dirty_raw_icp_commitment_principals : btree_set Principal;
  dirty_neuron_commitment_ids : btree_set Z;
}.

Definition persistence_batch_active (m : Mem) : bool := is_active (persistence_batch_depth m).
Definition clear_persistence_dirty (m : Mem) : Mem :=
  m <| persistence_dirty_sections := 0 |>
    <| dirty_registry_principals := [] |> <| dirty_commitment_principals := [] |>
    <| dirty_cycles_principals := [] |> <| dirty_raw_icp_commitment_principals := [] |>
    <| dirty_neuron_commitment_ids := [] |>.
Definition mark_persistence_dirty (dirty : Z) (m : Mem) : Mem :=
  m <| persistence_dirty_sections ::= fun d => Z.lor d dirty |>.

(** [(!scope.is_empty()).then_some(&scope)] *)
Definition nonempty_scope {K} (s : btree_set K) : option (btree_set K) := match s with [] => None | _ => Some s end.
Definition dirty_scope (m : Mem) : Scope := MkScope (persistence_dirty_sections m)
  (nonempty_scope (dirty_registry_principals m)) (nonempty_scope (dirty_commitment_principals m))
  (nonempty_scope (dirty_cycles_principals m)) (nonempty_scope (dirty_raw_icp_commitment_principals m))
  (nonempty_scope (dirty_neuron_commitment_ids m)).

Definition persist_dirty_state (m : Mem) : Mem :=
  if persistence_dirty_sections m =? 0 then m
  else clear_persistence_dirty (m <| storage ::= persist_snapshot_sections_scoped (st m) (dirty_scope m) |>).

Definition set_state (s : State) (m : Mem) : Mem :=
  (clear_persistence_dirty (m <| storage ::= persist_snapshot s |>)) <| st := s |>.

Definition set_state_after_upgrade (s : State) (registry_principals : btree_set Principal) (m : Mem) : Mem :=
  (clear_persistence_dirty (m <| storage ::= persist_snapshot_sections_scoped s
    (MkScope (Z.lor DIRTY_ROOT DIRTY_REGISTRY) (nonempty_scope registry_principals) None None None None) |>))
    <| st := s |>.

(** The guard of a batch: its creation, and its drop ([None]: the depth underflows). *)
Definition begin_persistence_batch (m : Mem) : Mem := m <| persistence_batch_depth ::= begin_depth |>.
Definition drop_persistence_batch (m : Mem) : option Mem :=
  match finish_depth (persistence_batch_depth m) (negb (persistence_dirty_sections m =? 0)) with
  | Some (next_depth, should_flush) =>
      let m := m <| persistence_batch_depth := next_depth |> in
      Some (if should_flush then persist_dirty_state m else m)
  | None => None
  end.

(** The keys of one scoped mutation. *)
Record Touched := MkTouched {
  registry_principal : option Principal;
  commitment_principal : option Principal;
  cycles_principal : option Principal;
  raw_icp_commitment_principal : option Principal;
  neuron_commitment_id : option Z;
}.
Definition opt_set {K} (o : option K) : btree_set K := match o with Some k => [k] | None => [] end.
Definition touched_scope (dirty : Z) (t : Touched) : Scope := MkScope dirty
  (nonempty_scope (opt_set (registry_principal t))) (nonempty_scope (opt_set (commitment_principal t)))
  (nonempty_scope (opt_set (cycles_principal t))) (nonempty_scope (opt_set (raw_icp_commitment_principal t)))
  (nonempty_scope (opt_set (neuron_commitment_id t))).
Definition opt_insert {K} `{EqDecision K} `{OrdSpec K} (o : option K) (s : btree_set K) : btree_set K :=
  match o with Some k => set_insert k s | None => s end.

Definition with_state_mut_sections_scoped (dirty : Z) (t : Touched) (f : State -> State) (m : Mem) : Mem :=
  let immediate_persist := negb (persistence_batch_active m) in
  let m := m <| st ::= f |> in
  if immediate_persist then m <| storage ::= persist_snapshot_sections_scoped (st m) (touched_scope dirty t) |>
  else mark_persistence_dirty dirty
    (m <| dirty_registry_principals ::= opt_insert (registry_principal t) |>
       <| dirty_commitment_principals ::= opt_insert (commitment_principal t) |>
       <| dirty_cycles_principals ::= opt_insert (cycles_principal t) |>
       <| dirty_raw_icp_commitment_principals ::= opt_insert (raw_icp_commitment_principal t) |>
       <| dirty_neuron_commitment_ids ::= opt_insert (neuron_commitment_id t) |>).

Definition with_root_state_mut := with_state_mut_sections_scoped DIRTY_ROOT (MkTouched None None None None None).
Definition with_root_and_registry_canister_state_mut (p : Principal) :=
  with_state_mut_sections_scoped (Z.lor DIRTY_ROOT DIRTY_REGISTRY) (MkTouched (Some p) None None None None).
Definition with_root_and_raw_icp_commitments_state_mut (p : Principal) :=
  with_state_mut_sections_scoped (Z.lor DIRTY_ROOT DIRTY_RAW_ICP_COMMITMENTS) (MkTouched None None None (Some p) None).
Definition with_root_and_neuron_commitments_state_mut (n : Z) :=
  with_state_mut_sections_scoped (Z.lor DIRTY_ROOT DIRTY_NEURON_COMMITMENTS) (MkTouched None None None None (Some n)).
Definition with_root_registry_and_commitments_canister_state_mut (p : Principal) :=
  with_state_mut_sections_scoped (Z.lor (Z.lor DIRTY_ROOT DIRTY_REGISTRY) DIRTY_COMMITMENTS)
    (MkTouched (Some p) (Some p) None None None).
Definition with_root_registry_and_cycles_canister_state_mut (p : Principal) :=
  with_state_mut_sections_scoped (Z.lor (Z.lor DIRTY_ROOT DIRTY_REGISTRY) DIRTY_CYCLES)
    (MkTouched (Some p) None (Some p) None None).

(** [None]: called inside a batch. *)
Definition with_factory_tracking_state_mut (canisters : btree_set Principal) (f : State -> State) (m : Mem) : option Mem :=
  if persistence_batch_active m then None
  else
    let m := m <| st ::= f |> in
    Some (m <| storage ::= persist_snapshot_sections_scoped (st m)
      (MkScope (Z.lor DIRTY_ROOT DIRTY_REGISTRY) (Some canisters) None None None None) |>).

(** [None]: inside a batch, or with sections still to write. *)
Definition clear_loaded_history_caches_after_flush (m : Mem) : option Mem :=
  if negb (persistence_batch_depth m =? 0) then None
  else if negb (persistence_dirty_sections m =? 0) then None
  else Some (with_root_state_mut (fun s =>
    s <| commitment_history := [] |> <| cycles_history := [] |>
      <| raw_icp_commitment_history := [] |> <| neuron_commitment_history := [] |>) m).

(** ** Stored histories ([state/commitments.rs]) and restoration *)

Definition load_stable_commitment_history (s : Storage) (p : Principal) := load_history principal_key (stable_commitments s) p.
Definition load_stable_raw_icp_commitment_history (s : Storage) (p : Principal) := load_history principal_key (stable_raw_icp s) p.
Definition load_stable_cycles_history (s : Storage) (p : Principal) := load_history principal_key (stable_cycles s) p.
Definition load_stable_neuron_commitment_history (s : Storage) (n : Z) := load_history (fun n : Z => n) (stable_neurons s) n.
Definition has_stable_cycles_history (s : Storage) (p : Principal) : bool :=
  match btree_get (principal_key p) (history_index (stable_cycles s)) with Some (_ :: _) => true | _ => false end.

Definition stable_keys {S} (h : History PrincipalKey S) : btree_set Principal :=
  set_of_list (map to_principal (btree_keys (history_index h))).
Definition rebuild_distinct_canisters (s : Storage) (st : State) : State :=
  st <| distinct_canisters := set_of_list
    (btree_keys (canister_tracking_reasons st) ++ btree_keys (commitment_history st)
     ++ stable_keys (stable_commitments s) ++ btree_keys (cycles_history st)
     ++ stable_keys (stable_cycles s) ++ btree_keys (per_canister_meta st)) |>.

Definition collect_principals {V} (m : btree_map PrincipalKey V) : btree_map Principal V :=
  btree_extend (map (fun e => (to_principal e.1, e.2)) m) [].

(** [Ok None]: never initialised; [Err]: the restoration panics. *)
Definition restore_state_current (root : StableRootState) (s : Storage) : result State string :=
  if root_complete root then
    match config_try_from (root_config root) with
    | Err e => Err e
    | Ok config =>
        Ok (rebuild_distinct_canisters s (restored_state root config
          (collect_principals (canister_sources_map s)) (collect_principals (canister_meta_map s))))
    end
  else Err "historian restoration invariant: missing field"%string.
Definition restore_state_from_stable (s : Storage) : result (option State) string :=
  match stable_root s with
  | None => Ok None
  | Some root => match restore_state_current root s with Ok st => Ok (Some st) | Err e => Err e end
  end.

Definition get_commitment_route_rollup (key : CommitmentRouteKey) (s : Storage) : CommitmentRouteRollup :=
  default CommitmentRouteRollup_default (btree_get key (commitment_route_rollup_map s)).
Definition increment_commitment_route_rollup (key : CommitmentRouteKey) (amount_e8s : Z) (s : Storage) : Storage :=
  let rollup := get_commitment_route_rollup key s in
  s <| commitment_route_rollup_map ::= btree_insert key
    (MkRollup (sat_add (rollup_qualifying_commitment_count rollup) 1)
              (sat_add (rollup_total_qualifying_committed_e8s rollup) amount_e8s)) |>.

End storage.
