(* ===== verification/HistorianDurable.v ===== *)
(** * Historian: no update is lost across an upgrade

    Every mutation of the state names the sections and keys it touches; the invariant
    says that what memory and the stable maps disagree on is exactly what is marked
    dirty, so that outside a batch a restored canister sees what the running one saw. *)

From Stdlib Require Import Sorted.
From stdpp Require Import relations.
From S2P Require Import Prelude BTree Ic CyclesProbe HistorianTypes HistorianKeys HistorianState.

Section durable.
Context `{P : PrincipalSpec} `{O : !OrdSpec Principal} `{L : !OrdLaws Principal} `{SS : !SliceSpec} `{SL : !SliceLaws}.
#[local] Existing Instance Principal_eq_dec.

#[export] Instance principal_key_inj : Inj (=) (=) principal_key.
Proof.
  intros p q E. rewrite <- (from_slice_as_slice p), <- (from_slice_as_slice q). unfold principal_key in E. by rewrite E.
Qed.
Lemma to_principal_key p : to_principal (principal_key p) = p.
Proof. apply from_slice_as_slice. Qed.

(** ** Sections *)

Lemma has_lor a b s : 0 <= a -> 0 <= b -> 0 <= s -> has (Z.lor a b) s = has a s || has b s.
Proof.
  intros Ha Hb Hs. unfold has. rewrite Z.land_lor_distr_l.
  destruct (Z.eqb_spec (Z.land a s) 0) as [->|Ha'], (Z.eqb_spec (Z.land b s) 0) as [->|Hb']; cbn; try done.
  - by rewrite (proj2 (Z.eqb_neq _ _)).
  - apply negb_true_iff, Z.eqb_neq. intros E. by apply Z.lor_eq_0_iff in E as [? _].
  - apply negb_true_iff, Z.eqb_neq. intros E. by apply Z.lor_eq_0_iff in E as [? _].
Qed.
Lemma has_none s : has 0 s = false.
Proof. unfold has. by rewrite Z.land_0_l. Qed.

(** ** What a stored registry may hold *)

Definition stored_ok {V} (m : btree_map PrincipalKey V) : Prop :=
  btree_wf m /\ Forall (fun e : PrincipalKey * V => exists p, e.1 = principal_key p) m.

Lemma stored_insert {V} p (v : V) m : stored_ok m -> stored_ok (btree_insert (principal_key p) v m).
Proof.
  intros [Hw Hk]. split; [by apply btree_insert_wf|]. apply Forall_forall. intros [k w] Hin.
  apply elem_insert in Hin as [[= -> ->]|Hin]; [by exists p|]. rewrite Forall_forall in Hk. by apply (Hk (k, w)).
Qed.
Lemma stored_filter {V} (f : PrincipalKey * V -> bool) m : stored_ok m -> stored_ok (List.filter f m).
Proof.
  intros [Hw Hk]. split; [by apply filter_wf|]. rewrite Forall_forall in Hk |- *. intros e He. apply Hk.
  apply list_elem_of_In, filter_In in He as [He _]. by apply list_elem_of_In.
Qed.
Lemma stored_sync {V} `{EqDecision V} (current : btree_map Principal V) scope m :
  stored_ok m -> stored_ok (sync_registry principal_key to_principal current scope m).
Proof.
  intros Hm. destruct scope as [keys|]; cbn.
  - revert m Hm. induction keys as [|k l IH]; intros m Hm; [done|]. cbn. apply IH. unfold sync_one.
    destruct (btree_get k current); [|by apply stored_filter]. case_bool_decide; [done|]. by apply stored_insert.
  - assert (Hk : stored_ok (btree_retain (fun key => contains_key (to_principal key) current) m)) by by apply stored_filter.
    revert Hk. generalize (btree_retain (fun key => contains_key (to_principal key) current) m). clear Hm m.
    induction current as [|[k v] l IH]; intros m Hm; [done|]. cbn. specialize (IH m).
    assert (G : forall m, stored_ok m -> stored_ok (fold_left (fun m (e : Principal * V) =>
      if bool_decide (btree_get (principal_key e.1) m = Some e.2) then m else btree_insert (principal_key e.1) e.2 m) l m)).
    { clear. induction l as [|[k v] l IH]; intros m Hm; [done|]. cbn. apply IH. case_bool_decide; [done|]. by apply stored_insert. }
    apply G. case_bool_decide; [done|]. by apply stored_insert.
Qed.

(** Everything: the stored value of every principal is that of memory. *)
Lemma sync_registry_all {V} `{EqDecision V} (current : btree_map Principal V) m p :
  NoDup (btree_keys current) ->
  btree_get (principal_key p) (sync_registry principal_key to_principal current None m) = btree_get p current.
Proof.
  intros Hnd. cbn. set (kept := btree_retain _ m).
  assert (Hkept : btree_get p current = None -> btree_get (principal_key p) kept = None).
  { intros E. unfold kept. rewrite btree_get_retain, to_principal_key. unfold contains_key. by rewrite E. }
  revert Hkept Hnd. generalize kept. clear kept. induction current as [|[k v] l IH]; intros kept Hkept Hnd; cbn; [by apply Hkept|].
  cbn in Hnd, Hkept. apply NoDup_cons in Hnd as [Hk Hnd].
  assert (Hl : btree_get k l = None).
  { destruct (btree_get k l) eqn:E; [|done]. apply btree_get_elem in E. destruct Hk. by apply (list_elem_of_fmap_2 fst) in E. }
  set (next := if bool_decide _ then kept else _).
  assert (Hnext : btree_get (principal_key k) next = Some v).
  { unfold next. case_bool_decide; [done|]. apply btree_get_insert. }
  assert (Hrest : forall q, q <> k -> btree_get (principal_key q) next = btree_get (principal_key q) kept).
  { intros q Hq. unfold next. case_bool_decide; [done|]. apply btree_get_insert_ne. intros E. by apply (inj principal_key) in E. }
  assert (Hover : forall l kept, NoDup (btree_keys l) -> btree_get k l = None ->
    btree_get (principal_key k) (fold_left (fun m (e : Principal * V) =>
      if bool_decide (btree_get (principal_key e.1) m = Some e.2) then m else btree_insert (principal_key e.1) e.2 m) l kept)
    = btree_get (principal_key k) kept).
  { clear -SL. induction l as [|[q w] l IH]; intros kept Hnd Hl; [done|]. cbn in Hnd, Hl |- *.
    apply NoDup_cons in Hnd as [_ Hnd]. case_decide as Hq; [done|]. rewrite IH by done.
    case_bool_decide; [done|]. apply btree_get_insert_ne. intros E. by apply (inj principal_key) in E. }
  destruct (decide (p = k)) as [->|Hne].
  - by rewrite Hover.
  - apply IH; [|done]. intros E. rewrite Hrest by done. apply Hkept. 
    exact E.
Qed.

(** Collecting the stored registry gives the principals back. *)
Lemma collect_get {V} (m : btree_map PrincipalKey V) p :
  stored_ok m -> btree_get p (collect_principals m) = btree_get (principal_key p) m.
Proof.
  intros [Hw Hk]. apply btree_wf_NoDup in Hw. unfold collect_principals, btree_extend.
  assert (G : forall (acc : btree_map Principal V), btree_get p (fold_left (fun m kv => btree_insert kv.1 kv.2 m)
      (map (fun e : PrincipalKey * V => (to_principal e.1, e.2)) m) acc)
    = match btree_get (principal_key p) m with Some v => Some v | None => btree_get p acc end); [|by rewrite G; destruct (btree_get _ m)].
  induction m as [|[k v] l IH]; intros acc; [done|]. cbn in Hw, Hk |- *.
  apply NoDup_cons in Hw as [Hnk Hw]. apply Forall_cons in Hk as [[q Eq] Hk]. cbn in Eq |- *. subst k. rewrite IH by done. cbn.
  rewrite to_principal_key. case_decide as E.
  - apply (inj principal_key) in E as ->. rewrite btree_get_insert. destruct (btree_get (principal_key q) l) eqn:El; [|done].
    apply btree_get_elem in El. destruct Hnk. by apply (list_elem_of_fmap_2 fst) in El.
  - destruct (btree_get (principal_key p) l); [done|]. apply btree_get_insert_ne. congruence.
Qed.

(** ** One history against its stored form *)

Section one_history.
Context {K IK S : Type} `{EqDecision K} `{EqDecision IK} `{OrdSpec IK} `{OrdSpec (IK * Z)} `{EqDecision S} `{OrdSpec K}.
Context (stored : K -> IK) (id_of : S -> Z) `{!Inj (=) (=) stored}.
Abbreviation load := (load_history stored).

(** What memory holds for [k] is what is stored. *)
Definition synced (cur : btree_map K (list S)) (h : History IK S) (k : K) : Prop :=
  forall l, btree_get k cur = Some l -> load h k = l.
(** [k] may be written: it is in memory with distinct ids, or nothing is stored for it. *)
Definition ready (cur : btree_map K (list S)) (h : History IK S) (k : K) : Prop :=
  match btree_get k cur with Some l => NoDup (map id_of l) | None => load h k = [] end.
Definition history_ok (cur : btree_map K (list S)) (h : History IK S) (bit : bool) (keys : list K) : Prop :=
  forall k, (bit = true /\ k ∈ keys /\ ready cur h k) \/ ((bit = true -> k ∉ keys) /\ synced cur h k).

Lemma history_mark cur cur' h bit keys b (k : option K) :
  history_ok cur h bit keys -> (bit = false -> keys = []) ->
  (forall k', k' ∉ opt_set k -> btree_get k' cur' = btree_get k' cur) ->
  (forall k', k = Some k' -> ready cur' h k') -> b = is_some k ->
  history_ok cur' h (bit || b) (opt_insert k keys).
Proof.
  intros Hok Hempty Hf Hr -> k'. destruct (decide (k' ∈ opt_set k)) as [Hin|Hn].
  - destruct k as [k|]; cbn in *; [|set_solver]. apply list_elem_of_singleton in Hin as ->. left.
    rewrite orb_true_r, elem_of_set_insert. auto.
  - specialize (Hf k' Hn). unfold ready, synced in *. rewrite Hf. destruct (Hok k') as [(-> & Hk & Hready)|[Hk Hs]].
    + left. split; [done|]. split; [|done]. destruct k; cbn; [|done]. rewrite elem_of_set_insert. by right.
    + right. split; [|done]. intros _. assert (Hk' : k' ∉ keys).
      { destruct bit; [by apply Hk|]. rewrite Hempty by done. by apply not_elem_of_nil. }
      destruct k; cbn in *; [|done]. rewrite elem_of_set_insert. set_solver.
Qed.

Definition flushed (cur : btree_map K (list S)) (bit : bool) (scope : option (list K)) (h : History IK S) : History IK S :=
  if bit then sync_history stored id_of cur scope h else h.

Lemma history_flush cur h bit keys : history_ok cur h bit keys -> (bit = true -> keys <> []) ->
  history_ok cur (flushed cur bit (nonempty_scope keys) h) false [] /\
  forall k, (bit = true -> k ∈ keys -> ready cur h k) ->
    history_view stored cur (flushed cur bit (nonempty_scope keys) h) k = history_view stored cur h k.
Proof.
  intros Hok Hne. destruct bit; cbn [flushed].
  - specialize (Hne eq_refl). destruct keys as [|x keys]; [done|]. cbn [nonempty_scope sync_history].
    assert (Hload : forall k, (k ∈ x :: keys -> ready cur h k) -> load (sync_keys stored id_of cur (x :: keys) h) k
      = if bool_decide (k ∈ x :: keys) then default [] (btree_get k cur) else load h k).
    { intros k Hr. apply load_sync_keys; [done|]. intros Hin. specialize (Hr Hin). unfold ready in Hr.
      destruct (btree_get k cur); [done|]. constructor. }
    split.
    + intros k. right. split; [done|]. intros l Hl. destruct (Hok k) as [(_ & Hin & Hr)|[Hin Hs]].
      * rewrite Hload, bool_decide_eq_true_2 by done. by rewrite Hl.
      * specialize (Hin eq_refl). rewrite Hload, bool_decide_eq_false_2 by done. by apply Hs.
    + intros k Hr. unfold history_view. rewrite Hload by auto. unfold ready in Hr.
      destruct (btree_get k cur); [done|]. case_bool_decide; [|done]. cbn. symmetry. by apply Hr.
  - split; [|done]. intros k. right. by destruct (Hok k) as [[]|[]].
Qed.

End one_history.

(** ** One registry map *)

Section one_registry.
Context {V : Type} `{EqDecision V}.

Definition registry_ok (cur : btree_map Principal V) (m : btree_map PrincipalKey V) (bit : bool) (keys : list Principal) : Prop :=
  stored_ok m /\ forall p, (bit = true /\ p ∈ keys) \/ btree_get (principal_key p) m = btree_get p cur.

Lemma registry_mark cur cur' m bit keys b (k : option Principal) :
  registry_ok cur m bit keys -> (forall p, p ∉ opt_set k -> btree_get p cur' = btree_get p cur) -> b = is_some k ->
  registry_ok cur' m (bit || b) (opt_insert k keys).
Proof.
  intros [Hw Hok] Hf ->. split; [done|]. intros p. destruct (decide (p ∈ opt_set k)) as [Hin|Hn].
  - destruct k as [k|]; cbn in *; [|set_solver]. apply list_elem_of_singleton in Hin as ->. left.
    split; [by rewrite orb_true_r|]. apply elem_of_set_insert. by left.
  - rewrite (Hf p Hn). destruct (Hok p) as [[-> Hk]|]; [|by right]. left. split; [done|].
    destruct k; cbn; [|done]. rewrite elem_of_set_insert. by right.
Qed.

Definition registry_flushed (cur : btree_map Principal V) (bit : bool) (scope : option (list Principal))
    (m : btree_map PrincipalKey V) : btree_map PrincipalKey V :=
  if bit then sync_registry principal_key to_principal cur scope m else m.

Lemma registry_flush cur m bit keys : registry_ok cur m bit keys -> (bit = true -> keys <> []) ->
  registry_ok cur (registry_flushed cur bit (nonempty_scope keys) m) false [].
Proof.
  intros [Hw Hok] Hne. unfold registry_flushed. destruct bit.
  - specialize (Hne eq_refl). destruct keys as [|x keys]; [done|]. cbn [nonempty_scope]. split; [by apply stored_sync|].
    intros p. right. rewrite sync_registry_get by apply _. case_bool_decide; [done|]. by destruct (Hok p) as [[]|].
  - split; [done|]. intros p. right. by destruct (Hok p) as [[]|].
Qed.

(** A write of the whole registry, when no key is named. *)
Lemma registry_flush_all cur m : stored_ok m -> NoDup (btree_keys cur) -> registry_ok cur (registry_flushed cur true None m) false [].
Proof.
  intros Hw Hnd. split; [by apply stored_sync|]. intros p. right. by apply sync_registry_all.
Qed.

End one_registry.

(** ** The canister *)

(** A state whose root section can be read back. *)
Definition restorable (s : State) : Prop :=
  root_complete (build_root_snapshot s) = true /\
  is_some (cmc_canister_id (config s)) = true /\ is_some (faucet_canister_id (config s)) = true /\
  60 <= self_service_relay_interval_seconds (config s) /\
  is_some (staking_backfill_complete s) = true /\ is_some (output_route_backfill_complete s) = true /\
  is_some (rewards_route_backfill_complete s) = true /\
  NoDup (btree_keys (canister_tracking_reasons s)) /\ NoDup (btree_keys (per_canister_meta s)).

Abbreviation commitments_ok := (history_ok principal_key sample_tx_id).
Abbreviation neurons_ok := (history_ok (fun n : Z => n) sample_tx_id).
Abbreviation cycles_ok := (history_ok principal_key cycles_timestamp_nanos).

(** The keys marked in each section: none exactly when the section is clean. *)
Record Keys := MkKeys {
  registry_keys : list Principal;
  commitment_keys : list Principal;
  cycles_keys : list Principal;
  raw_keys : list Principal;
  neuron_keys : list Z;
}.
Definition no_keys : Keys := MkKeys [] [] [] [] [].
Definition bits_keys {K} (b : bool) (keys : list K) : Prop := (b = true -> keys <> []) /\ (b = false -> keys = []).
Definition scope_of (dirty : Z) (k : Keys) : Scope :=
  MkScope dirty (nonempty_scope (registry_keys k)) (nonempty_scope (commitment_keys k)) (nonempty_scope (cycles_keys k))
    (nonempty_scope (raw_keys k)) (nonempty_scope (neuron_keys k)).

Record keys_ok (d : Z) (k : Keys) : Prop := {
  keys_registry : bits_keys (has d DIRTY_REGISTRY) (registry_keys k);
  keys_commitments : bits_keys (has d DIRTY_COMMITMENTS) (commitment_keys k);
  keys_cycles : bits_keys (has d DIRTY_CYCLES) (cycles_keys k);
  keys_raw : bits_keys (has d DIRTY_RAW_ICP_COMMITMENTS) (raw_keys k);
  keys_neurons : bits_keys (has d DIRTY_NEURON_COMMITMENTS) (neuron_keys k);
}.

(** Memory and the stable maps, with what is still to be written. *)
Record sections_ok (s : State) (g : Storage) (d : Z) (k : Keys) : Prop := {
  ok_root : has d DIRTY_ROOT = true \/ stable_root g = Some (build_root_snapshot s);
  ok_sources : registry_ok (canister_tracking_reasons s) (canister_sources_map g) (has d DIRTY_REGISTRY) (registry_keys k);
  ok_meta : registry_ok (per_canister_meta s) (canister_meta_map g) (has d DIRTY_REGISTRY) (registry_keys k);
  ok_commitments : commitments_ok (commitment_history s) (stable_commitments g) (has d DIRTY_COMMITMENTS) (commitment_keys k);
  ok_cycles : cycles_ok (cycles_history s) (stable_cycles g) (has d DIRTY_CYCLES) (cycles_keys k);
  ok_raw : commitments_ok (raw_icp_commitment_history s) (stable_raw_icp g) (has d DIRTY_RAW_ICP_COMMITMENTS) (raw_keys k);
  ok_neurons : neurons_ok (neuron_commitment_history s) (stable_neurons g) (has d DIRTY_NEURON_COMMITMENTS) (neuron_keys k);
  ok_keys : keys_ok d k;
}.

(** *** A write *)

Ltac persist_unfold :=
  unfold persist_snapshot_sections_scoped, registry_flushed, flushed, sync_commitment_history,
    sync_raw_icp_commitment_history, sync_cycles_history, sync_neuron_commitment_history;
  repeat match goal with |- context [has ?d ?s] => destruct (has d s) end; reflexivity.

Lemma persist_root s sc g : stable_root (persist_snapshot_sections_scoped s sc g)
  = if has (scope_sections sc) DIRTY_ROOT then Some (build_root_snapshot s) else stable_root g.
Proof. persist_unfold. Qed.
Lemma persist_sources s sc g : canister_sources_map (persist_snapshot_sections_scoped s sc g)
  = registry_flushed (canister_tracking_reasons s) (has (scope_sections sc) DIRTY_REGISTRY) (registry_scope sc) (canister_sources_map g).
Proof. persist_unfold. Qed.
Lemma persist_meta s sc g : canister_meta_map (persist_snapshot_sections_scoped s sc g)
  = registry_flushed (per_canister_meta s) (has (scope_sections sc) DIRTY_REGISTRY) (registry_scope sc) (canister_meta_map g).
Proof. persist_unfold. Qed.
Lemma persist_commitments s sc g : stable_commitments (persist_snapshot_sections_scoped s sc g)
  = flushed principal_key sample_tx_id (commitment_history s) (has (scope_sections sc) DIRTY_COMMITMENTS) (commitment_scope sc) (stable_commitments g).
Proof. persist_unfold. Qed.
Lemma persist_cycles s sc g : stable_cycles (persist_snapshot_sections_scoped s sc g)
  = flushed principal_key cycles_timestamp_nanos (cycles_history s) (has (scope_sections sc) DIRTY_CYCLES) (cycles_scope sc) (stable_cycles g).
Proof. persist_unfold. Qed.
Lemma persist_raw s sc g : stable_raw_icp (persist_snapshot_sections_scoped s sc g)
  = flushed principal_key sample_tx_id (raw_icp_commitment_history s) (has (scope_sections sc) DIRTY_RAW_ICP_COMMITMENTS) (raw_icp_commitment_scope sc) (stable_raw_icp g).
Proof. persist_unfold. Qed.
Lemma persist_neurons s sc g : stable_neurons (persist_snapshot_sections_scoped s sc g)
  = flushed (fun n : Z => n) sample_tx_id (neuron_commitment_history s) (has (scope_sections sc) DIRTY_NEURON_COMMITMENTS) (neuron_commitment_scope sc) (stable_neurons g).
Proof. persist_unfold. Qed.

Lemma persist_rollups s sc g : commitment_route_rollup_map (persist_snapshot_sections_scoped s sc g) = commitment_route_rollup_map g.
Proof. persist_unfold. Qed.

Lemma keys_ok_none : keys_ok 0 no_keys.
Proof. constructor; rewrite has_none; done. Qed.

(** Writing what is marked leaves nothing to write. *)
Lemma sections_flush s g d k : sections_ok s g d k ->
  sections_ok s (persist_snapshot_sections_scoped s (scope_of d k) g) 0 no_keys.
Proof.
  intros [Hroot Hsrc Hmeta Hc Hy Hw Hn [Kr Kc Ky Kw Kn]]. constructor; rewrite ?has_none.
  - right. rewrite persist_root. cbn. destruct (has d DIRTY_ROOT); [done|]. by destruct Hroot.
  - rewrite persist_sources. apply registry_flush, Kr. done.
  - rewrite persist_meta. apply registry_flush, Kr. done.
  - rewrite persist_commitments. by apply (history_flush _ _ _ _ _ _ Hc), Kc.
  - rewrite persist_cycles. by apply (history_flush _ _ _ _ _ _ Hy), Ky.
  - rewrite persist_raw. by apply (history_flush _ _ _ _ _ _ Hw), Kw.
  - rewrite persist_neurons. by apply (history_flush _ _ _ _ _ _ Hn), Kn.
  - apply keys_ok_none.
Qed.

(** *** A mutation *)

(** The sections of a mutation are the root and those with a key. *)
Record touches (dirty : Z) (t : Touched) : Prop := {
  touches_root : has dirty DIRTY_ROOT = true;
  touches_registry : has dirty DIRTY_REGISTRY = is_some (registry_principal t);
  touches_commitments : has dirty DIRTY_COMMITMENTS = is_some (commitment_principal t);
  touches_cycles : has dirty DIRTY_CYCLES = is_some (cycles_principal t);
  touches_raw : has dirty DIRTY_RAW_ICP_COMMITMENTS = is_some (raw_icp_commitment_principal t);
  touches_neurons : has dirty DIRTY_NEURON_COMMITMENTS = is_some (neuron_commitment_id t);
  touches_pos : 0 <= dirty;
}.

(** From [s] to [s'], outside [keys] the registry and the histories stay, and the
    histories of [keys] are loaded (or nothing is stored for them). *)
Definition history_changes {K IK S} `{EqDecision K} `{EqDecision IK} `{OrdSpec IK} `{OrdSpec (IK * Z)}
    (stored : K -> IK) (id_of : S -> Z) (cur cur' : btree_map K (list S)) (h : History IK S) (keys : list K) : Prop :=
  (forall k, k ∉ keys -> btree_get k cur' = btree_get k cur) /\
  (forall k, k ∈ keys -> ready stored id_of cur' h k).
Definition registry_changes {V} (cur cur' : btree_map Principal V) (keys : list Principal) : Prop :=
  forall p, p ∉ keys -> btree_get p cur' = btree_get p cur.
Record changes (s s' : State) (g : Storage) (k : Keys) : Prop := {
  changes_sources : registry_changes (canister_tracking_reasons s) (canister_tracking_reasons s') (registry_keys k);
  changes_meta : registry_changes (per_canister_meta s) (per_canister_meta s') (registry_keys k);
  changes_commitments : history_changes principal_key sample_tx_id (commitment_history s) (commitment_history s')
    (stable_commitments g) (commitment_keys k);
  changes_cycles : history_changes principal_key cycles_timestamp_nanos (cycles_history s) (cycles_history s')
    (stable_cycles g) (cycles_keys k);
  changes_raw : history_changes principal_key sample_tx_id (raw_icp_commitment_history s) (raw_icp_commitment_history s')
    (stable_raw_icp g) (raw_keys k);
  changes_neurons : history_changes (fun n : Z => n) sample_tx_id (neuron_commitment_history s) (neuron_commitment_history s')
    (stable_neurons g) (neuron_keys k);
  changes_restorable : restorable s';
}.

Definition touched_keys (t : Touched) : Keys :=
  MkKeys (opt_set (registry_principal t)) (opt_set (commitment_principal t)) (opt_set (cycles_principal t))
    (opt_set (raw_icp_commitment_principal t)) (opt_set (neuron_commitment_id t)).
Definition mark_keys (t : Touched) (k : Keys) : Keys :=
  MkKeys (opt_insert (registry_principal t) (registry_keys k)) (opt_insert (commitment_principal t) (commitment_keys k))
    (opt_insert (cycles_principal t) (cycles_keys k)) (opt_insert (raw_icp_commitment_principal t) (raw_keys k))
    (opt_insert (neuron_commitment_id t) (neuron_keys k)).

Lemma bits_keys_mark {K} `{EqDecision K} `{OrdSpec K} b (keys : list K) b' (k : option K) :
  bits_keys b keys -> b' = is_some k -> bits_keys (b || b') (opt_insert k keys).
Proof.
  intros [H1 H2] ->. destruct k as [k|]; cbn; [|by rewrite orb_false_r]. rewrite orb_true_r. split; [|done]. intros _ E.
  assert (Hin : k ∈ set_insert k keys) by (apply elem_of_set_insert; by left). rewrite E in Hin. by apply not_elem_of_nil in Hin.
Qed.

Lemma sections_mark s s' g d k dirty t : sections_ok s g d k -> 0 <= d -> touches dirty t -> changes s s' g (touched_keys t) ->
  sections_ok s' g (Z.lor d dirty) (mark_keys t k).
Proof.
  intros [Hroot Hsrc Hmeta Hc Hy Hw Hn [Kr Kc Ky Kw Kn]] Hd [Tr Tg Tc Ty Tw Tn Tp] [Cs Cm [Cc1 Cc2] [Cy1 Cy2] [Cw1 Cw2] [Cn1 Cn2] _].
  cbn in *. assert (Hin : forall K (o : option K) k, o = Some k -> k ∈ opt_set o) by (intros ? ? ? ->; by left).
  constructor; rewrite ?has_lor by (done || cbn; lia).
  - left. by rewrite Tr, orb_true_r.
  - by apply (registry_mark (canister_tracking_reasons s)).
  - by apply (registry_mark (per_canister_meta s)).
  - apply (history_mark _ _ (commitment_history s)); [done|apply Kc|done| |done]. intros ? E. by apply Cc2, Hin.
  - apply (history_mark _ _ (cycles_history s)); [done|apply Ky|done| |done]. intros ? E. by apply Cy2, Hin.
  - apply (history_mark _ _ (raw_icp_commitment_history s)); [done|apply Kw|done| |done]. intros ? E. by apply Cw2, Hin.
  - apply (history_mark _ _ (neuron_commitment_history s)); [done|apply Kn|done| |done]. intros ? E. by apply Cn2, Hin.
  - constructor; rewrite has_lor by (done || cbn; lia); by apply bits_keys_mark.
Qed.

(** ** The canister *)

Definition dirty_keys (m : Mem) : Keys :=
  MkKeys (dirty_registry_principals m) (dirty_commitment_principals m) (dirty_cycles_principals m)
    (dirty_raw_icp_commitment_principals m) (dirty_neuron_commitment_ids m).
Record durable (m : Mem) : Prop := {
  durable_restorable : restorable (st m);
  durable_sections : sections_ok (st m) (storage m) (persistence_dirty_sections m) (dirty_keys m);
  durable_idle : persistence_batch_depth m = 0 -> persistence_dirty_sections m = 0 /\ dirty_keys m = no_keys;
  durable_range : 0 <= persistence_batch_depth m /\ 0 <= persistence_dirty_sections m;
}.

(** After an upgrade the volatile memory is what was restored, changed by
    [post_upgrade] within the registry keys that it writes. *)
Definition restarted (g : Storage) (s : State) : Mem := MkMem s g 0 0 [] [] [] [] [].

(** What one message, or an upgrade, does to the state, piece by piece. *)
Inductive persistence_step : Mem -> Mem -> Prop :=
| step_begin m : persistence_step m (begin_persistence_batch m)
| step_drop m m' : drop_persistence_batch m = Some m' -> persistence_step m m'
| step_mutate m dirty t f :
    touches dirty t -> changes (st m) (f (st m)) (storage m) (touched_keys t) ->
    persistence_step m (with_state_mut_sections_scoped dirty t f m)
| step_factory m m' canisters f :
    canisters <> [] -> changes (st m) (f (st m)) (storage m) (MkKeys canisters [] [] [] []) ->
    with_factory_tracking_state_mut canisters f m = Some m' -> persistence_step m m'
| step_persist m : persistence_step m (persist_dirty_state m)
| step_clear m m' : clear_loaded_history_caches_after_flush m = Some m' -> persistence_step m m'
| step_upgrade m s f principals :
    persistence_batch_depth m = 0 -> restore_state_from_stable (storage m) = Ok (Some s) ->
    changes s (f s) (storage m) (MkKeys principals [] [] [] []) ->
    persistence_step m (set_state_after_upgrade (f s) principals (restarted (storage m) s)).

Lemma history_same {K IK S} `{EqDecision K} `{EqDecision IK} `{OrdSpec IK} `{OrdSpec (IK * Z)}
    (stored : K -> IK) (id_of : S -> Z) (cur cur' : btree_map K (list S)) (h : History IK S) :
  history_ok stored id_of cur h false [] -> history_changes stored id_of cur cur' h [] ->
  history_ok stored id_of cur' h false [].
Proof.
  intros Hok [Hf _] q. right. split; [done|]. intros l Hl. rewrite (Hf q) in Hl by apply not_elem_of_nil.
  destruct (Hok q) as [[]|[_ Hs]]; [done|by apply Hs].
Qed.

Lemma sections_root s g d k dirty canisters s' :
  sections_ok s g d k -> d = 0 -> k = no_keys -> canisters <> [] -> dirty = Z.lor DIRTY_ROOT DIRTY_REGISTRY ->
  changes s s' g (MkKeys canisters [] [] [] []) -> sections_ok s' g dirty (MkKeys canisters [] [] [] []).
Proof.
  intros [Hroot [Ws Hsrc] [Wm Hmeta] Hc Hy Hw Hn _] -> -> Hne -> [Cs Cm Cc Cy Cw Cn _].
  rewrite !has_none in *.
  constructor; cbn -[Z.lor] in *.
  - by left.
  - split; [done|]. intros p. destruct (decide (p ∈ canisters)) as [|Hp]; [by left|]. right. rewrite (Cs p Hp). by destruct (Hsrc p) as [[]|].
  - split; [done|]. intros p. destruct (decide (p ∈ canisters)) as [|Hp]; [by left|]. right. rewrite (Cm p Hp). by destruct (Hmeta p) as [[]|].
  - by eapply history_same.
  - by eapply history_same.
  - by eapply history_same.
  - by eapply history_same.
  - constructor; done.
Qed.

Lemma persist_durable m : restorable (st m) -> sections_ok (st m) (storage m) (persistence_dirty_sections m) (dirty_keys m) ->
  0 <= persistence_batch_depth m -> durable (persist_dirty_state m).
Proof.
  intros Hr Hs Hd. unfold persist_dirty_state. destruct (persistence_dirty_sections m =? 0) eqn:E; zify_bool.
  - constructor; [done|done| |lia]. intros _. split; [done|]. destruct (ok_keys _ _ _ _ Hs) as [[_ K1] [_ K2] [_ K3] [_ K4] [_ K5]].
    rewrite E, has_none in *. unfold dirty_keys, no_keys in *. cbn in *. by rewrite K1, K2, K3, K4, K5.
  - constructor; cbn; [done| |done|done]. exact (sections_flush _ _ _ _ Hs).
Qed.

(** *** Restoration *)

Lemma config_roundtrip (c : Config) :
  is_some (cmc_canister_id c) = true -> is_some (faucet_canister_id c) = true ->
  60 <= self_service_relay_interval_seconds c -> config_try_from (stable_config c) = Ok c.
Proof.
  destruct c as [? ? ? ? ? ? [?|] [?|]]; try done. cbn. intros _ _ Hi. unfold config_try_from, stable_config. cbn.
  by rewrite (proj2 (Z.ltb_ge _ _)).
Qed.

Lemma root_roundtrip (s : State) cfg reasons meta :
  restorable s -> cfg = config s -> build_root_snapshot (restored_state (build_root_snapshot s) cfg reasons meta) = build_root_snapshot s.
Proof.
  intros (_ & _ & _ & _ & H1 & H2 & H3 & _) ->. destruct s; cbn in *.
  destruct staking_backfill_complete, output_route_backfill_complete, rewards_route_backfill_complete; done.
Qed.

(** The canisters that [s'] lists: those with a registry entry in [s] or with a stored
    history; so none with a commitment or a cycles sample that [s] sees is missing. *)
Record same_canisters (s s' : State) (g : Storage) : Prop := {
  listed_exactly : forall p, p ∈ (distinct_canisters s' : list Principal) <->
    is_some (btree_get p (canister_tracking_reasons s)) = true \/ is_some (btree_get p (per_canister_meta s)) = true \/
    p ∈ (stable_keys (stable_commitments g) : list Principal) \/ p ∈ (stable_keys (stable_cycles g) : list Principal);
  listed_histories : forall p, history_view principal_key (commitment_history s) (stable_commitments g) p <> [] \/
    history_view principal_key (cycles_history s) (stable_cycles g) p <> [] -> p ∈ (distinct_canisters s' : list Principal);
}.

(** What the canister sees, without its volatile caches. *)
Record same_view (s : State) (s' : State) (g : Storage) : Prop := {
  same_root : build_root_snapshot s' = build_root_snapshot s;
  same_reasons : forall p, btree_get p (canister_tracking_reasons s') = btree_get p (canister_tracking_reasons s);
  same_meta : forall p, btree_get p (per_canister_meta s') = btree_get p (per_canister_meta s);
  same_commitments : forall p, history_view principal_key (commitment_history s') (stable_commitments g) p
    = history_view principal_key (commitment_history s) (stable_commitments g) p;
  same_cycles : forall p, history_view principal_key (cycles_history s') (stable_cycles g) p
    = history_view principal_key (cycles_history s) (stable_cycles g) p;
  same_raw : forall p, history_view principal_key (raw_icp_commitment_history s') (stable_raw_icp g) p
    = history_view principal_key (raw_icp_commitment_history s) (stable_raw_icp g) p;
  same_neurons : forall n, history_view (fun n : Z => n) (neuron_commitment_history s') (stable_neurons g) n
    = history_view (fun n : Z => n) (neuron_commitment_history s) (stable_neurons g) n;
  same_listed : same_canisters s s' g;
}.

Lemma btree_keys_get {K V} `{EqDecision K} (m : btree_map K V) k : k ∈ btree_keys m <-> is_some (btree_get k m) = true.
Proof.
  induction m as [|[k' v] m IH]; cbn; [split; [by intros ?%not_elem_of_nil|done]|]. rewrite elem_of_cons.
  destruct (decide (k = k')) as [->|Hne]; [tauto|]. rewrite <- IH. split; [by intros [?|?]|by right].
Qed.

Lemma loaded_stable_key {S} (h : History PrincipalKey S) p : load_history principal_key h p <> [] -> p ∈ stable_keys h.
Proof.
  intros Hl. unfold stable_keys. apply elem_of_set_of_list, list_elem_of_fmap. exists (principal_key p).
  split; [by rewrite to_principal_key|]. apply btree_keys_get. unfold load_history in Hl.
  by destruct (btree_get (principal_key p) (history_index h)).
Qed.

(** The rebuilt set of a restored state, from what memory and the stable maps agree on. *)
Lemma rebuilt_same_canisters s s0 g :
  (forall p, btree_get p (canister_tracking_reasons s0) = btree_get p (canister_tracking_reasons s)) ->
  (forall p, btree_get p (per_canister_meta s0) = btree_get p (per_canister_meta s)) ->
  commitment_history s0 = [] -> cycles_history s0 = [] ->
  (forall p, synced principal_key (commitment_history s) (stable_commitments g) p) ->
  (forall p, synced principal_key (cycles_history s) (stable_cycles g) p) ->
  same_canisters s (rebuild_distinct_canisters g s0) g.
Proof.
  intros Hr Hm E1 E2 Hc Hy.
  assert (forall p, p ∈ (distinct_canisters (rebuild_distinct_canisters g s0) : list Principal) <->
    is_some (btree_get p (canister_tracking_reasons s)) = true \/ is_some (btree_get p (per_canister_meta s)) = true \/
    p ∈ (stable_keys (stable_commitments g) : list Principal) \/ p ∈ (stable_keys (stable_cycles g) : list Principal)) as Hl.
  { intros p. unfold rebuild_distinct_canisters. cbn. unfold const. rewrite elem_of_set_of_list, E1, E2, !elem_of_app, !btree_keys_get, Hr, Hm.
    cbn. intuition discriminate. }
  split; [exact Hl|]. intros p Hp. apply Hl. right; right.
  assert (forall S (cur : btree_map Principal (list S)) h, synced principal_key cur h p -> history_view principal_key cur h p <> [] ->
    p ∈ (stable_keys h : list Principal)) as Hv.
  { intros S cur h Hs Hne. apply loaded_stable_key. unfold history_view in Hne. destruct (btree_get p cur) as [l|] eqn:E; [|done].
    by rewrite (Hs l E). }
  destruct Hp as [Hp|Hp]; [left|right]; by eapply Hv.
Qed.

Lemma restore_same_view s g : restorable s -> sections_ok s g 0 no_keys ->
  exists s', restore_state_from_stable g = Ok (Some s') /\ same_view s s' g /\ sections_ok s' g 0 no_keys.
Proof.
  intros Hr [Hroot [Ws Hsrc] [Wm Hmeta] Hc Hy Hw Hn _]. rewrite !has_none in *.
  destruct Hroot as [|Hroot]; [done|]. unfold restore_state_from_stable, restore_state_current. rewrite Hroot.
  pose proof Hr as (Hcomplete & H1 & H2 & H3 & _). rewrite Hcomplete. cbn [root_config build_root_snapshot].
  rewrite config_roundtrip by done. eexists; split; [done|].
  set (s' := rebuild_distinct_canisters _ _).
  assert (Esrc : forall p, btree_get p (canister_tracking_reasons s') = btree_get (principal_key p) (canister_sources_map g))
    by (intros p; by apply (collect_get (canister_sources_map g))).
  assert (Emeta : forall p, btree_get p (per_canister_meta s') = btree_get (principal_key p) (canister_meta_map g))
    by (intros p; by apply (collect_get (canister_meta_map g))).
  assert (Eroot : build_root_snapshot s' = build_root_snapshot s) by (by apply root_roundtrip).
  assert (V : forall K IK S (E : EqDecision K) (E' : EqDecision IK) (stored : K -> IK) (cur : btree_map K (list S)) (h : History IK S),
    (forall k, synced stored cur h k) -> forall k, history_view stored [] h k = history_view stored cur h k).
  { intros K IK S E E' stored cur h Hs k. unfold history_view. cbn. destruct (btree_get k cur) eqn:El; [|done]. by apply Hs. }
  assert (F : forall K IK S (E : EqDecision K) (E' : EqDecision IK) (stored : K -> IK) (id_of : S -> Z) (cur : btree_map K (list S)) (h : History IK S),
    history_ok stored id_of cur h false [] -> (forall k, synced stored cur h k) /\ history_ok stored id_of [] h false []).
  { intros K IK S E E' stored id_of cur h Hok. split; intros k; destruct (Hok k) as [[]|[_ Hs]]; done || (right; done). }
  apply F in Hc as [Hc Hc'], Hy as [Hy Hy'], Hw as [Hw Hw'], Hn as [Hn Hn'].
  split; [|constructor; rewrite ?has_none].
  - assert (forall p, btree_get p (canister_tracking_reasons s') = btree_get p (canister_tracking_reasons s)) as Hs'
      by (intros p; rewrite Esrc; by destruct (Hsrc p) as [[]|]).
    assert (forall p, btree_get p (per_canister_meta s') = btree_get p (per_canister_meta s)) as Hm'
      by (intros p; rewrite Emeta; by destruct (Hmeta p) as [[]|]).
    constructor; [done..| | | | |by apply rebuilt_same_canisters]; by apply V.
  - right. by rewrite Eroot.
  - split; [done|]. intros p. right. by rewrite Esrc.
  - split; [done|]. intros p. right. by rewrite Emeta.
  - exact Hc'.
  - exact Hy'.
  - exact Hw'.
  - exact Hn'.
  - apply keys_ok_none.
Qed.

(** *** Every step keeps the invariant *)

Lemma drop_durable m m' : durable m -> drop_persistence_batch m = Some m' -> durable m'.
Proof.
  intros [Hr Hs Hi Hd]. unfold drop_persistence_batch, finish_depth. destruct (0 <? persistence_batch_depth m) eqn:E; [|done].
  zify_bool. destruct (_ && _) eqn:Hf; intros [= <-].
  - apply persist_durable; cbn; [done|done|]. unfold const. lia.
  - constructor; cbn; unfold const; [done|done| |lia]. intros Hz. apply andb_false_iff in Hf as [Hf|Hf]; [lia|].
    apply negb_false_iff in Hf. apply Z.eqb_eq in Hf. split; [done|].
    destruct (ok_keys _ _ _ _ Hs) as [[_ K1] [_ K2] [_ K3] [_ K4] [_ K5]]. rewrite Hf, has_none in *.
    unfold dirty_keys, no_keys in *. cbn in *. by rewrite K1, K2, K3, K4, K5.
Qed.

Lemma mutate_durable m dirty t f : durable m -> touches dirty t -> changes (st m) (f (st m)) (storage m) (touched_keys t) ->
  durable (with_state_mut_sections_scoped dirty t f m).
Proof.
  intros [Hr Hs Hi [Hd Hd']] Ht Hc. pose proof (sections_mark _ _ _ _ _ _ _ Hs Hd' Ht Hc) as Hm.
  pose proof (changes_restorable _ _ _ _ Hc) as Hr'.
  unfold with_state_mut_sections_scoped, persistence_batch_active, is_active.
  destruct (0 <? persistence_batch_depth m) eqn:E; zify_bool; cbn [negb].
  - constructor; cbn; [done|done|lia|]. split; [done|]. apply Z.lor_nonneg. split; [done|apply Ht].
  - destruct Hi as [Hz Hk]; [lia|]. constructor; cbn; [done| |done|done]. rewrite Hz, Hk in *.
    rewrite Z.lor_0_l in Hm. apply sections_flush in Hm.
    assert (Esc : scope_of dirty (mark_keys t no_keys) = touched_scope dirty t) by (by destruct t as [[] [] [] [] []]).
    rewrite Esc in Hm.
    change (dirty_keys (m <| st ::= f |> <| storage ::= persist_snapshot_sections_scoped (f (st m)) (touched_scope dirty t) |>))
      with (dirty_keys m). rewrite Hk. exact Hm.
Qed.

Lemma root_touches : touches DIRTY_ROOT (MkTouched None None None None None).
Proof. by constructor. Qed.

Lemma factory_durable m m' canisters f : durable m -> canisters <> [] ->
  changes (st m) (f (st m)) (storage m) (MkKeys canisters [] [] [] []) ->
  with_factory_tracking_state_mut canisters f m = Some m' -> durable m'.
Proof.
  intros [Hr Hs Hi [Hd Hd']] Hne Hc. unfold with_factory_tracking_state_mut, persistence_batch_active, is_active.
  destruct (0 <? persistence_batch_depth m) eqn:E; zify_bool; [done|]. intros [= <-].
  destruct Hi as [Hz Hk]; [lia|].
  pose proof (sections_root _ _ _ _ _ _ _ Hs Hz Hk Hne eq_refl Hc) as Hm. apply sections_flush in Hm.
  constructor; cbn; [by apply Hc| |done|done].
  change (sections_ok (f (st m)) (persist_snapshot_sections_scoped (f (st m))
    (MkScope (Z.lor DIRTY_ROOT DIRTY_REGISTRY) (Some canisters) None None None None) (storage m))
    (persistence_dirty_sections m) (dirty_keys m)). rewrite Hz, Hk.
  unfold scope_of in Hm. cbn [registry_keys commitment_keys cycles_keys raw_keys neuron_keys nonempty_scope] in Hm.
  destruct canisters; [done|]. exact Hm.
Qed.

Definition cleared (s : State) : State :=
  s <| commitment_history := [] |> <| cycles_history := [] |> <| raw_icp_commitment_history := [] |>
    <| neuron_commitment_history := [] |>.

Lemma clear_sections s g : sections_ok s g 0 no_keys -> sections_ok (cleared s) g DIRTY_ROOT no_keys.
Proof.
  intros [Hroot [Ws Hsrc] [Wm Hmeta] _ _ _ _ _]. rewrite !has_none in *.
  constructor; cbn.
  - by left.
  - split; [done|]. intros p. right. by destruct (Hsrc p) as [[]|].
  - split; [done|]. intros p. right. by destruct (Hmeta p) as [[]|].
  - intros k. by right.
  - intros k. by right.
  - intros k. by right.
  - intros k. by right.
  - by constructor.
Qed.

Lemma clear_durable m m' : durable m -> clear_loaded_history_caches_after_flush m = Some m' -> durable m'.
Proof.
  intros [Hr Hs Hi [Hd Hd']]. unfold clear_loaded_history_caches_after_flush, with_root_state_mut, with_state_mut_sections_scoped,
    persistence_batch_active, is_active.
  destruct (persistence_batch_depth m =? 0) eqn:E; [|done]. destruct (persistence_dirty_sections m =? 0) eqn:Ez; [|done].
  zify_bool. cbn [negb]. rewrite E. cbn. intros [= <-]. destruct Hi as [Hz Hk]; [done|].
  constructor; cbn; [done| |done|by rewrite E].
  rewrite Hz, Hk in Hs. pose proof (sections_flush _ _ _ _ (clear_sections _ _ Hs)) as Hm.
  change (sections_ok (cleared (st m)) (persist_snapshot_sections_scoped (cleared (st m))
    (MkScope DIRTY_ROOT None None None None None) (storage m)) (persistence_dirty_sections m) (dirty_keys m)).
  rewrite Hz, Hk. exact Hm.
Qed.

Lemma upgrade_durable m s f principals : durable m -> persistence_batch_depth m = 0 ->
  restore_state_from_stable (storage m) = Ok (Some s) -> changes s (f s) (storage m) (MkKeys principals [] [] [] []) ->
  durable (set_state_after_upgrade (f s) principals (restarted (storage m) s)).
Proof.
  intros [Hr Hs Hi [Hd Hd']] H0 Hrestore Hc. destruct Hi as [Hz Hk]; [done|]. rewrite Hz, Hk in Hs.
  destruct (restore_same_view _ _ Hr Hs) as (s' & E & _ & Hok). rewrite Hrestore in E. injection E as <-.
  constructor; cbn; [by apply Hc| |done|done].
  change (sections_ok (f s) (persist_snapshot_sections_scoped (f s)
    (MkScope (Z.lor DIRTY_ROOT DIRTY_REGISTRY) (nonempty_scope principals) None None None None) (storage m)) 0 no_keys).
  destruct principals as [|p principals].
  - destruct Hok as [Hroot [Ws Hsrc] [Wm Hmeta] Hcm Hcy Hw Hn _]. destruct Hc as [Cs Cm Cc Cy Cw Cn Cr].
    pose proof Cr as (_ & _ & _ & _ & _ & _ & _ & Nd1 & Nd2). rewrite !has_none in *.
    constructor; rewrite ?has_none.
    + right. by rewrite persist_root.
    + rewrite persist_sources. by apply registry_flush_all.
    + rewrite persist_meta. by apply registry_flush_all.
    + rewrite persist_commitments. by eapply history_same.
    + rewrite persist_cycles. by eapply history_same.
    + rewrite persist_raw. by eapply history_same.
    + rewrite persist_neurons. by eapply history_same.
    + apply keys_ok_none.
  - exact (sections_flush _ _ _ _ (sections_root s _ 0 no_keys _ (p :: principals) _ Hok eq_refl eq_refl ltac:(done) eq_refl Hc)).
Qed.

Lemma step_durable m m' : durable m -> persistence_step m m' -> durable m'.
Proof.
  intros Hm Hs. destruct Hs.
  - destruct Hm as [Hr Hs Hi Hd]. constructor; cbn; unfold begin_depth; [done|done|lia|lia].
  - by eapply drop_durable.
  - by apply mutate_durable.
  - by eapply factory_durable.
  - destruct Hm as [Hr Hs Hi Hd]. apply persist_durable; [done|done|apply Hd].
  - by eapply clear_durable.
  - by apply upgrade_durable.
Qed.

(** The state that [init] stores. *)
Lemma init_durable (s : State) :
  restorable s -> commitment_history s = [] -> cycles_history s = [] -> raw_icp_commitment_history s = [] ->
  neuron_commitment_history s = [] -> durable (set_state s (restarted Storage_empty s)).
Proof.
  intros Hr H1 H2 H3 H4. pose proof Hr as (_ & _ & _ & _ & _ & _ & _ & Nd1 & Nd2).
  constructor; cbn; [done| |done|done].
  change (sections_ok s (persist_snapshot s Storage_empty) 0 no_keys). unfold persist_snapshot.
  assert (W : forall V, stored_ok (V:=V) []) by (split; constructor).
  constructor; rewrite ?has_none.
  - right. by rewrite persist_root.
  - rewrite persist_sources. by apply registry_flush_all.
  - rewrite persist_meta. by apply registry_flush_all.
  - rewrite H1. intros k. by right.
  - rewrite H2. intros k. by right.
  - rewrite H3. intros k. by right.
  - rewrite H4. intros k. by right.
  - apply keys_ok_none.
Qed.

(** The wrappers of [state/access.rs] are such mutations. *)
Lemma wrapper_steps (p : Principal) (n : Z) (f : State -> State) m :
  (changes (st m) (f (st m)) (storage m) no_keys -> persistence_step m (with_root_state_mut f m)) /\
  (changes (st m) (f (st m)) (storage m) (MkKeys [p] [] [] [] []) ->
   persistence_step m (with_root_and_registry_canister_state_mut p f m)) /\
  (changes (st m) (f (st m)) (storage m) (MkKeys [] [] [] [p] []) ->
   persistence_step m (with_root_and_raw_icp_commitments_state_mut p f m)) /\
  (changes (st m) (f (st m)) (storage m) (MkKeys [] [] [] [] [n]) ->
   persistence_step m (with_root_and_neuron_commitments_state_mut n f m)) /\
  (changes (st m) (f (st m)) (storage m) (MkKeys [p] [p] [] [] []) ->
   persistence_step m (with_root_registry_and_commitments_canister_state_mut p f m)) /\
  (changes (st m) (f (st m)) (storage m) (MkKeys [p] [] [p] [] []) ->
   persistence_step m (with_root_registry_and_cycles_canister_state_mut p f m)).
Proof. repeat split; intros Hc; (apply step_mutate; [by constructor|done]). Qed.

(** C11: whatever batches, scoped mutations, flushes, cache evictions, activations and
    upgrades have been made since [init], provided that each of them changes only the
    sections and the keys that it names ([changes], which an upgrade whose normalization
    drops a stale registry entry does not satisfy), outside a batch the stable maps hold
    everything: the restored canister has the same root section, the same registry and,
    for every key, the same four histories as the running one, and it lists exactly the
    canisters that have a registry entry or a stored history there, so none with a
    commitment or a cycles sample is missing. *)
Theorem no_update_lost (s : State) (m : Mem) :
  restorable s -> commitment_history s = [] -> cycles_history s = [] -> raw_icp_commitment_history s = [] ->
  neuron_commitment_history s = [] ->
  rtc persistence_step (set_state s (restarted Storage_empty s)) m -> persistence_batch_depth m = 0 ->
  exists s', restore_state_from_stable (storage m) = Ok (Some s') /\ same_view (st m) s' (storage m).
Proof.
  intros Hr H1 H2 H3 H4 Hrun H0. pose proof (init_durable s Hr H1 H2 H3 H4) as Hd.
  assert (Hm : durable m) by (clear -Hrun Hd SL L; induction Hrun; [done|]; eauto using step_durable).
  destruct Hm as [Hr' Hs Hi _]. destruct Hi as [Hz Hk]; [done|]. rewrite Hz, Hk in Hs.
  destruct (restore_same_view _ _ Hr' Hs) as (s' & E & V & _). eauto.
Qed.

End durable.

(** A batch that records the first commitment of a canister, with concrete principals. *)
Module ConcreteDurable.
Import Concrete ConcreteKeys.
Abbreviation state := (State (P:=concrete_principal)).

Definition account7 : Account (H:=concrete_principal) := MkAccount concrete_principal 7 None.
Definition config0 : Config (P:=concrete_principal) :=
  MkConfig (P:=concrete_principal) account7 account7 account7 account7 1 2 (Some 3) (Some 5) 6 8 false 600 604800 100000000 100 100 10
    25 true 300000000 2000000000000 5000000 100020000 86400 None [].
Definition state0 : state := State_new config0 1000.
Definition sample0 : CommitmentSample := MkCommitmentSample 41 (Some 5) 100000000 true None.
Definition record_commitment (s : state) : state :=
  s <| canister_tracking_reasons ::= btree_insert (9 : Principal (PrincipalSpec:=concrete_principal)) [MemoCommitment] |>
    <| commitment_history ::= btree_insert (9 : Principal (PrincipalSpec:=concrete_principal)) [sample0] |>.
Definition mem0 : Mem (P:=concrete_principal) := set_state state0 (restarted Storage_empty state0).
Definition mem1 : Mem (P:=concrete_principal) :=
  with_root_registry_and_commitments_canister_state_mut (9 : Principal (PrincipalSpec:=concrete_principal)) record_commitment
    (begin_persistence_batch mem0).
Definition mem2 : Mem (P:=concrete_principal) := default mem1 (drop_persistence_batch mem1).

Lemma restorable0 : restorable state0.
Proof. repeat split; try done; constructor. Qed.
Lemma run0 : rtc persistence_step mem0 mem2.
Proof.
  eapply rtc_l; [apply step_begin|]. eapply rtc_l; [|eapply rtc_l; [by apply (step_drop mem1)|apply rtc_refl]].
  destruct (wrapper_steps (9 : Principal (PrincipalSpec:=concrete_principal)) 0 record_commitment (begin_persistence_batch mem0))
    as (_ & _ & _ & _ & W & _). apply W. clear W. constructor; cbn.
  - intros p Hp. apply not_elem_of_cons in Hp as [Hp _]. by apply decide_False.
  - done.
  - split.
    + intros p Hp. apply not_elem_of_cons in Hp as [Hp _]. by apply decide_False.
    + intros p ->%list_elem_of_singleton. unfold ready. cbn. apply NoDup_singleton.
  - split; [done|]. intros ? []%elem_of_nil.
  - split; [done|]. intros ? []%elem_of_nil.
  - split; [done|]. intros ? []%elem_of_nil.
  - repeat split; try done; [apply NoDup_singleton|constructor].
Qed.

Lemma no_update_lost_witness :
  persistence_batch_depth mem2 = 0 /\
  exists s', restore_state_from_stable (storage mem2) = Ok (Some s') /\ same_view (st mem2) s' (storage mem2)
    /\ load_stable_commitment_history (storage mem2) (9 : Principal (PrincipalSpec:=concrete_principal)) = [sample0].
Proof.
  split; [reflexivity|].
  destruct (no_update_lost state0 mem2 restorable0 eq_refl eq_refl eq_refl eq_refl run0 eq_refl) as (s' & E & V).
  exists s'. split; [exact E|]. split; [exact V|]. vm_compute. reflexivity.
Defined.

End ConcreteDurable.
