(* ===== verification/HistorianTracking.v ===== *)
(** * Historian: tracked canisters and the ranked summary cache

    [lifecycle.rs] (histories as seen, [mark_active_relay_tracked], the summaries of
    memo-registered canisters and their index by committed total), [normalization.rs]
    (visible tracking reasons) and [scheduler/cycles_probe_planning.rs]. *)

From Stdlib Require Import Sorted.
From stdpp Require Import sorting.
From S2P Require Import Prelude BTree Ic CyclesProbe HistorianTypes HistorianKeys HistorianState.

Definition MAX_INITIAL_CYCLES_PROBE_QUEUE : nat := 256.

(** [slice::binary_search_by] of the standard library, on the comparison of an element
    with the target: [inl] for [Ok], [inr] for [Err]. *)
Section binary_search.
Context {A : Type} (compare_at : A -> comparison).

Fixpoint search_base (fuel : nat) (l : list A) (base size : nat) : nat :=
  match fuel with
  | O => base
  | S fuel =>
      if (1 <? size)%nat then
        let half := (size / 2)%nat in
        let mid := (base + half)%nat in
        match l !! mid with
        | Some x => search_base fuel l (match compare_at x with Gt => base | _ => mid end) (size - half)
        | None => base
        end
      else base
  end.
Definition binary_search_by (l : list A) : nat + nat :=
  match l with
  | [] => inr 0%nat
  | _ =>
      let base := search_base (length l) l 0 (length l) in
      match l !! base with
      | Some x => match compare_at x with Eq => inl base | Lt => inr (base + 1)%nat | Gt => inr base end
      | None => inr base
      end
  end.

(** In a list whose elements are below, then above the target, the search finds where
    the target goes. *)
Lemma search_base_spec l p fuel base size :
  (forall i x, l !! i = Some x -> compare_at x = if (i <? p)%nat then Lt else Gt) ->
  (size <= fuel)%nat -> (0 < size)%nat -> (base + size <= length l)%nat ->
  ((base < p)%nat \/ base = 0%nat) -> (p <= base + size)%nat ->
  let b := search_base fuel l base size in
  (b < length l)%nat /\ ((b < p)%nat \/ b = 0%nat) /\ (p <= b + 1)%nat.
Proof.
  intros Hl. revert base size. induction fuel as [|fuel IH]; intros base size Hf Hs Hlen Hb Hp; [lia|]. cbn [search_base].
  destruct (1 <? size)%nat eqn:E; [|apply Nat.ltb_ge in E; lia]. apply Nat.ltb_lt in E.
  assert (Hhalf : (0 < size / 2 /\ size / 2 < size)%nat) by (split; [apply Nat.div_str_pos; lia|apply Nat.div_lt; lia]).
  assert (Hge : (size / 2 <= size - size / 2)%nat) by (pose proof (Nat.Div0.mul_div_le size 2); lia).
  destruct (lookup_lt_is_Some_2 l (base + size / 2)) as [x Hx]; [lia|]. rewrite Hx. rewrite (Hl _ _ Hx).
  destruct (base + size / 2 <? p)%nat eqn:Ep; [apply Nat.ltb_lt in Ep|apply Nat.ltb_ge in Ep]; apply IH; lia.
Qed.

Lemma binary_search_point l p :
  (p <= length l)%nat -> (forall i x, l !! i = Some x -> compare_at x = if (i <? p)%nat then Lt else Gt) ->
  binary_search_by l = inr p.
Proof.
  intros Hp Hl. unfold binary_search_by. destruct l as [|a l']; [cbn in Hp; by replace p with 0%nat by lia|].
  set (l := a :: l') in *.
  destruct (search_base_spec l p (length l) 0 (length l) Hl) as (Hb & Hlo & Hhi); [lia|cbn; lia|lia|by right|lia|].
  destruct (lookup_lt_is_Some_2 _ _ Hb) as [x Hx]. rewrite Hx, (Hl _ _ Hx).
  destruct (search_base (length l) l 0 (length l) <? p)%nat eqn:E; [apply Nat.ltb_lt in E|apply Nat.ltb_ge in E]; f_equal; lia.
Qed.

End binary_search.

Section tracking.
Context `{P : PrincipalSpec} `{O : !OrdSpec Principal} `{SS : !SliceSpec}.
#[local] Existing Instance Principal_eq_dec.

(** ** Histories as the canister sees them *)

Definition tx_id_le (a b : CommitmentSample) : Prop := sample_tx_id a <= sample_tx_id b.
#[export] Instance tx_id_le_dec a b : Decision (tx_id_le a b).
Proof. unfold tx_id_le. apply _. Defined.
(** [sort_unstable_by_key(tx_id)]; the ids of a history are distinct. *)
Definition commitment_history_snapshot (s : Storage) (st : State) (p : Principal) : list CommitmentSample :=
  merge_sort tx_id_le (match btree_get p (commitment_history st) with
    | Some l => l | None => load_stable_commitment_history s p end).
Definition cycles_history_snapshot (s : Storage) (st : State) (p : Principal) : list CyclesSample :=
  match btree_get p (cycles_history st) with Some l => l | None => load_stable_cycles_history s p end.
Definition raw_icp_commitment_history_snapshot (s : Storage) (st : State) (p : Principal) : list CommitmentSample :=
  merge_sort tx_id_le (match btree_get p (raw_icp_commitment_history st) with
    | Some l => l | None => load_stable_raw_icp_commitment_history s p end).
Definition neuron_commitment_history_snapshot (s : Storage) (st : State) (n : Z) : list CommitmentSample :=
  merge_sort tx_id_le (match btree_get n (neuron_commitment_history st) with
    | Some l => l | None => load_stable_neuron_commitment_history s n end).

(** [max_by_key]: the last of the greatest timestamps. *)
Definition latest_cycles (history : list CyclesSample) : option Z :=
  sample_cycles <$> fold_left (fun best item =>
    match best with
    | Some b => if cycles_timestamp_nanos item <? cycles_timestamp_nanos b then best else Some item
    | None => Some item
    end) history None.

(** ** Visible tracking reasons *)

Definition memo_source_is_registered (s : Storage) (st : State) (p : Principal) (sources : btree_set CanisterTrackingReason) : bool :=
  set_contains MemoCommitment sources && existsb sample_counts_toward_faucet (commitment_history_snapshot s st p).
Definition set_remove (r : CanisterTrackingReason) (l : btree_set CanisterTrackingReason) : btree_set CanisterTrackingReason :=
  List.filter (fun x => negb (bool_decide (x = r))) l.
Definition visible_tracking_reasons_for_canister (s : Storage) (st : State) (p : Principal) :
    option (btree_set CanisterTrackingReason) :=
  sources ← btree_get p (canister_tracking_reasons st);
  let sources := if memo_source_is_registered s st p sources then sources else set_remove MemoCommitment sources in
  match sources with [] => None | _ => Some sources end.

(** ** Cycles probe planning *)

Definition enqueue_initial_cycles_probe (p : Principal) (st : State) : State :=
  if bool_decide (p ∈ initial_cycles_probe_queue st) then st
  else if (MAX_INITIAL_CYCLES_PROBE_QUEUE <=? length (initial_cycles_probe_queue st))%nat then st
  else st <| initial_cycles_probe_queue ::= fun q => q ++ [p] |>.

Definition should_probe_tracked_canister (s : Storage) (st : State) (p : Principal) : bool :=
  is_some (visible_tracking_reasons_for_canister s st p).
Definition should_refresh_staking_neuron_for_canister (s : Storage) (st : State) (p : Principal) : bool :=
  is_some_and (visible_tracking_reasons_for_canister s st p) (set_contains MemoCommitment).
Definition ordinary_cycles_sweep_eligible (s : Storage) (st : State) (p : Principal) (now_secs : Z) : bool :=
  is_some (visible_tracking_reasons_for_canister s st p)
  && negb (bool_decide ((meta ← btree_get p (per_canister_meta st); last_cycles_probe_ts meta) = Some now_secs)).
Definition build_cycles_sweep_canisters (s : Storage) (st : State) (self_id : Principal) (now_secs : Z) : list Principal :=
  (fold_left (fun (acc : list Principal * btree_set Principal) p =>
    let (canisters, seen) := acc in
    if ordinary_cycles_sweep_eligible s st p now_secs then
      if set_contains p seen then acc else (canisters ++ [p], set_insert p seen)
    else acc) (distinct_canisters st) ([self_id], [self_id])).1.

(** ** The summaries of memo-registered canisters *)

Definition max_opt (a b : option Z) : option Z :=
  match a, b with Some x, Some y => Some (Z.max x y) | None, y => y | x, None => x end.
Definition counted_seconds (history : list CommitmentSample) : list Z :=
  omap (fun item => if sample_counts_toward_faucet item
    then (fun ts => ts / 1000000000) <$> sample_timestamp_nanos item else None) history.
Definition memo_registered_canister_summary_for (s : Storage) (st : State) (p : Principal) :
    option MemoRegisteredCanisterSummary :=
  tracking_reasons ← visible_tracking_reasons_for_canister s st p;
  match commitment_history_snapshot s st p with
  | [] => None
  | history =>
      key ← from_public (RouteCyclesTopUp p);
      let rollup := get_commitment_route_rollup key s in
      let retained_last_ts := fold_left (fun m ts => max_opt m (Some ts)) (counted_seconds history) None in
      let meta := default CanisterMeta_default (btree_get p (per_canister_meta st)) in
      Some {|
        summary_canister_id := p;
        summary_tracking_reasons := tracking_reasons;
        summary_qualifying_commitment_count := rollup_qualifying_commitment_count rollup;
        summary_total_qualifying_committed_e8s := rollup_total_qualifying_committed_e8s rollup;
        summary_last_commitment_ts := match last_commitment_ts meta with Some t => Some t | None => retained_last_ts end;
        summary_latest_cycles := latest_cycles (cycles_history_snapshot s st p);
        summary_last_cycles_probe_ts := last_cycles_probe_ts meta;
      |}
  end.

Definition Cache : Type := btree_map Principal MemoRegisteredCanisterSummary.
(** The order of [(Reverse(total), canister)]. *)
Definition rank (a b : MemoRegisteredCanisterSummary) : comparison :=
  match Z.compare (summary_total_qualifying_committed_e8s b) (summary_total_qualifying_committed_e8s a) with
  | Eq => if ltb (summary_canister_id a) (summary_canister_id b) then Lt
          else if decide (summary_canister_id a = summary_canister_id b) then Eq else Gt
  | c => c
  end.
Definition remove_registered_canister_from_total_desc_index (index : list Principal) (p : Principal) : list Principal :=
  List.filter (fun e => negb (bool_decide (e = p))) index.
(** Every ranked canister has a summary after the retain, so the [expect] holds. *)
Definition insert_registered_canister_into_total_desc_index (cache : Cache) (index : list Principal) (p : Principal) :
    list Principal :=
  match btree_get p cache with
  | None => index
  | Some summary =>
      let index := List.filter (fun e => negb (bool_decide (e = p)) && contains_key e cache) index in
      let at_ := match binary_search_by (fun e => match btree_get e cache with
          | Some existing => rank existing summary | None => Lt end) index with inl i | inr i => i end in
      take at_ index ++ p :: drop at_ index
  end.

Definition refresh_memo_registered_canister_summary (s : Storage) (p : Principal) (st : State) : State :=
  let summary := memo_registered_canister_summary_for s st p in
  let cache := default [] (memo_registered_canister_summaries_cache st) in
  let index := remove_registered_canister_from_total_desc_index
    (default [] (memo_registered_canister_summaries_total_desc_index st)) p in
  match summary with
  | Some summary =>
      let cache := btree_insert p summary cache in
      st <| memo_registered_canister_summaries_cache := Some cache |>
         <| memo_registered_canister_summaries_total_desc_index :=
              Some (insert_registered_canister_into_total_desc_index cache index p) |>
  | None =>
      st <| memo_registered_canister_summaries_cache := Some (btree_remove p cache) |>
         <| memo_registered_canister_summaries_total_desc_index := Some index |>
  end.

(** The keys of the listed canisters strictly ascend after [previous]. *)
Fixpoint ascending (cache : Cache) (previous : option MemoRegisteredCanisterSummary) (l : list Principal) : bool :=
  match l with
  | [] => true
  | p :: rest =>
      match btree_get p cache with
      | None => false
      | Some summary =>
          bool_decide (summary_canister_id summary = p)
          && match previous with Some q => match rank q summary with Lt => true | _ => false end | None => true end
          && ascending cache (Some summary) rest
      end
  end.
Definition memo_registered_canister_summary_index_is_valid (st : State) : bool :=
  match memo_registered_canister_summaries_cache st, memo_registered_canister_summaries_total_desc_index st with
  | Some cache, Some index => (length index =? length cache)%nat && ascending cache None index
  | _, _ => false
  end.

Definition rebuild_memo_registered_canister_summaries_cache (s : Storage) (st : State) : State :=
  fold_left (fun st p => refresh_memo_registered_canister_summary s p st) (btree_keys (canister_tracking_reasons st))
    (st <| memo_registered_canister_summaries_cache := Some [] |>
        <| memo_registered_canister_summaries_total_desc_index := Some [] |>).
Definition repair_memo_registered_canister_summaries_if_invalid (s : Storage) (st : State) : State :=
  if memo_registered_canister_summary_index_is_valid st then st
  else rebuild_memo_registered_canister_summaries_cache s st.

(** *** A page of the ranking; [None]: the cache is not usable *)

Record SummariesPage := MkSummariesPage {
  page_items : list MemoRegisteredCanisterSummary;
  page_number : Z;
  page_size : Z;
  page_total : Z;
}.
Definition sat_u32 (x : Z) : Z := Z.min x 4294967295.
Fixpoint page_items_from (cache : Cache) (start end_ position : nat) (previous : option MemoRegisteredCanisterSummary)
    (l : list Principal) : option (list MemoRegisteredCanisterSummary) :=
  match l with
  | [] => Some []
  | p :: rest =>
      summary ← btree_get p cache;
      if negb (bool_decide (summary_canister_id summary = p)) then None
      else if match previous with Some q => match rank q summary with Lt => false | _ => true end | None => false end then None
      else
        items ← page_items_from cache start end_ (S position) (Some summary) rest;
        Some (if (start <=? position)%nat && (position <? end_)%nat then summary :: items else items)
  end.
Definition memo_registered_canister_summaries_total_desc_page (st : State) (page size : Z) : option SummariesPage :=
  cache ← memo_registered_canister_summaries_cache st;
  index ← memo_registered_canister_summaries_total_desc_index st;
  if negb (length cache =? length index)%nat then None
  else
    let total := Z.of_nat (length index) in
    let start := Z.to_nat (sat_u32 (page * size)) in
    let end_ := Nat.min (start + Z.to_nat size) (length index) in
    if (length index <=? start)%nat then Some (MkSummariesPage [] page size total)
    else
      let inspected_start := (start - 1)%nat in
      let inspected_end := Nat.min (end_ + 1) (length index) in
      items ← page_items_from cache start end_ inspected_start None (drop inspected_start (take inspected_end index));
      Some (MkSummariesPage items page size total).

(** ** A relay that became active *)

Definition track_canister (s : Storage) (now_secs : option Z) (p : Principal) (reason : CanisterTrackingReason) (st : State) : State :=
  let st := st <| distinct_canisters ::= set_insert p |>
    <| canister_tracking_reasons ::= fun m => btree_insert p (set_insert reason (default [] (btree_get p m))) m |> in
  let meta := default CanisterMeta_default (btree_get p (per_canister_meta st)) in
  let meta := if is_none (first_seen_ts meta) then meta <| first_seen_ts := now_secs |> else meta in
  let st := st <| per_canister_meta ::= btree_insert p meta |> in
  let has_cycles_history :=
    match btree_get p (cycles_history st) with Some (_ :: _) => true | _ => false end
    || has_stable_cycles_history s p in
  if negb has_cycles_history && is_none (last_cycles_probe_ts meta) then enqueue_initial_cycles_probe p st else st.
Definition mark_active_relay_tracked (s : Storage) (target relay_id : Principal) (now_secs : option Z) (st : State) : State :=
  let st := track_canister s now_secs target RelayTarget st in
  let st := track_canister s now_secs relay_id RelayInstance st in
  let st := refresh_memo_registered_canister_summary s target st in
  refresh_memo_registered_canister_summary s relay_id st.
Definition ensure_canonical_relay_tracking (s : Storage) (st : State) : State :=
  match canonical_relay_canister_id (config st) with
  | None => st
  | Some relay => fold_left (fun st target => mark_active_relay_tracked s target relay None st)
      (canonical_relay_targets (config st)) st
  end.

End tracking.
