(* ===== verification/HistorianRanking.v ===== *)
(** * Historian: the ranked summary cache stays consistent

    Refreshing a canister keeps the index by committed total exactly the ranking of the
    cache, so a page of the public query is a slice of the ranking. *)

From Stdlib Require Import Sorted.
From stdpp Require Import sorting.
From S2P Require Import Prelude BTree Ic CyclesProbe HistorianTypes HistorianKeys HistorianState HistorianTracking.

Section ranking.
Context `{P : PrincipalSpec} `{O : !OrdSpec Principal} `{L : !OrdLaws Principal} `{SS : !SliceSpec}.
#[local] Existing Instance Principal_eq_dec.
Abbreviation Summary := MemoRegisteredCanisterSummary.
Abbreviation total := summary_total_qualifying_committed_e8s.
Abbreviation id := summary_canister_id.

(** ** The order of the ranking *)

Lemma rank_Lt (a b : Summary) : rank a b = Lt <-> total b < total a \/ total a = total b /\ ltb (id a) (id b) = true.
Proof.
  unfold rank. destruct (Z.compare_spec (total b) (total a)) as [E|E|E].
  - destruct (ltb (id a) (id b)) eqn:El; [split; [auto|done]|]. split; [by destruct (decide _)|]. intros [|[_ ?]]; [lia|done].
  - split; [auto|done].
  - split; [done|]. intros [|[]]; lia.
Qed.
Lemma rank_Gt (a b : Summary) : rank a b = Gt <-> rank b a = Lt.
Proof.
  rewrite rank_Lt. unfold rank. destruct (Z.compare_spec (total b) (total a)) as [E|E|E].
  - destruct (ltb (id a) (id b)) eqn:El.
    + split; [done|]. intros [|[_ ?]]; [lia|]. pose proof (ltb_trans _ _ _ El H). by rewrite ltb_irrefl in H0.
    + destruct (decide (id a = id b)) as [Eid|Hne].
      * split; [done|]. intros [|[_ ?]]; [lia|]. by rewrite Eid, ltb_irrefl in H.
      * split; [|done]. intros _. right. split; [done|]. destruct (ltb_total (id a) (id b)) as [|[|]]; congruence.
  - split; [done|]. intros [|[]]; lia.
  - split; [auto|done].
Qed.
Lemma rank_trans (a b c : Summary) : rank a b = Lt -> rank b c = Lt -> rank a c = Lt.
Proof.
  rewrite !rank_Lt. intros [|[E1 H1]] [|[E2 H2]]; try (left; lia). right. split; [lia|]. by eapply ltb_trans.
Qed.
Lemma rank_Eq (a b : Summary) : rank a b = Eq -> id a = id b.
Proof. unfold rank. destruct (Z.compare _ _); [|done|done]. destruct (ltb _ _); [done|]. by destruct (decide _). Qed.

(** ** The index as a sorted list *)

Definition listed (c : Cache) (p : Principal) : Prop := exists s, btree_get p c = Some s /\ id s = p.
Definition below (c : Cache) (p q : Principal) : Prop :=
  exists s t, btree_get p c = Some s /\ btree_get q c = Some t /\ rank s t = Lt.
Definition ranked (c : Cache) (l : list Principal) : Prop := Forall (listed c) l /\ StronglySorted (below c) l.

Lemma below_trans c p q r : below c p q -> below c q r -> below c p r.
Proof.
  intros (s & t & Hs & Ht & H1) (t' & u & Ht' & Hu & H2). rewrite Ht in Ht'. simplify_eq.
  exists s, u. eauto using rank_trans.
Qed.

Lemma ascending_ranked c l : ascending c None l = true <-> ranked c l.
Proof.
  assert (G : forall prev, ascending c prev l = true <-> ranked c l
      /\ forall q p s, prev = Some q -> head l = Some p -> btree_get p c = Some s -> rank q s = Lt).
  { induction l as [|p l IH]; intros prev; cbn.
    - split; [|done]. intros _. split; [by repeat constructor|]. done.
    - destruct (btree_get p c) as [s|] eqn:Hs; [|split; [done|]; intros [[Hf _] _]; inversion Hf as [|? ? (? & ? & ?)]; congruence].
      rewrite !andb_true_iff, (IH (Some s)), bool_decide_eq_true. unfold ranked. rewrite Forall_cons. split.
      + intros [[Hid Hprev] [[Hf Hsort] Hnext]]. repeat split.
        * by exists s.
        * done.
        * constructor; [done|]. destruct l as [|q l]; [constructor|].
          assert (below c p q) as Hpq.
          { apply Forall_cons in Hf as [(t & Ht & _) _]. exists s, t. split; [done|]. split; [done|]. by apply (Hnext s q t). }
          constructor; [done|]. inversion Hsort as [|? ? ? Hq]; subst. eapply Forall_impl; [exact Hq|]. intros r. by apply below_trans.
        * intros q p' s' -> [= <-] Hs'. rewrite Hs in Hs'. injection Hs' as <-. by destruct (rank q s).
      + intros [[[Hp Hf] Hsort] Hprev]. inversion Hsort as [|? ? Hsort' Hall]; subst. destruct Hp as (s' & Hs' & Hid).
        rewrite Hs in Hs'. injection Hs' as <-. repeat split; try done.
        * destruct prev as [q|]; [|done]. by rewrite (Hprev q p s).
        * intros ? q t [= <-] Hq Ht. destruct l as [|q' l]; [done|]. cbn in Hq. injection Hq as ->.
          apply Forall_cons in Hall as [(s1 & t1 & H1 & H2 & H3) _]. congruence. }
  rewrite G. split; [by intros []|]. intros H. by split.
Qed.

Lemma ranked_NoDup c l : ranked c l -> NoDup l.
Proof.
  intros [_ Hs]. induction Hs as [|p l Hs IH Hall]; constructor; [|done]. intros Hin.
  rewrite Forall_forall in Hall. destruct (Hall p Hin) as (s & t & Hs' & Ht & Hr). rewrite Hs' in Ht. simplify_eq.
  apply rank_Lt in Hr as [|[_ Hr]]; [lia|]. by rewrite ltb_irrefl in Hr.
Qed.

Lemma ranked_filter c f l : ranked c l -> ranked c (List.filter f l).
Proof.
  intros [Hf Hs]. induction Hs as [|p l Hs IH Hall]; [by repeat constructor|]. apply Forall_cons in Hf as [Hp Hf].
  specialize (IH Hf) as [IH1 IH2]. cbn. destruct (f p); [|by split]. split; [by constructor|]. constructor; [done|].
  rewrite Forall_forall in Hall |- *. intros q Hq. apply Hall. apply list_elem_of_In, filter_In in Hq as [Hq _].
  by apply list_elem_of_In.
Qed.

Lemma ranked_frame c c' l : (forall p, p ∈ l -> btree_get p c' = btree_get p c) -> ranked c l -> ranked c' l.
Proof.
  intros Hf [Hl Hs]. split.
  - rewrite Forall_forall in Hl |- *. intros p Hp. destruct (Hl p Hp) as (s & ? & ?). exists s. by rewrite Hf.
  - clear Hl. induction Hs as [|p l Hs IH Hall]; constructor; [apply IH; intros; apply Hf; by right|].
    rewrite Forall_forall in Hall |- *. intros q Hq. destruct (Hall q Hq) as (s & t & ? & ? & ?). exists s, t.
    rewrite !Hf by (by left || by right). done.
Qed.

(** The elements ranked before a new one are a prefix. *)
Lemma partition_point c (s : Summary) l :
  ranked c l -> (forall p, p ∈ l -> p <> id s) ->
  exists k, (k <= length l)%nat /\
    (forall i p, l !! i = Some p -> match btree_get p c with Some e => rank e s | None => Lt end = if (i <? k)%nat then Lt else Gt).
Proof.
  intros [Hl Hs] Hne. induction Hs as [|p l Hs IH Hall]; [by exists 0%nat|]. apply Forall_cons in Hl as [(e & He & Hid) Hl].
  destruct IH as (k & Hk & Hpart); [done|intros; apply Hne; by right|].
  destruct (rank e s) eqn:Er.
  - apply rank_Eq in Er. destruct (Hne p); [by left|congruence].
  - exists (S k). split; [cbn; lia|]. intros [|i] q Hq; [injection Hq as <-; by rewrite He|]. by apply Hpart.
  - exists 0%nat. split; [lia|]. intros i q Hq. assert (q = p \/ q ∈ l) as [->|Hin].
    { apply list_elem_of_lookup_2, elem_of_cons in Hq. done. }
    + by rewrite He.
    + rewrite Forall_forall in Hall. destruct (Hall q Hin) as (e' & t & He' & Ht & Hr). rewrite He in He'. simplify_eq.
      rewrite Ht. apply rank_Gt in Er. apply rank_Gt. by eapply rank_trans.
Qed.

Lemma ranked_insert c (s : Summary) l k :
  ranked c l -> (forall p, p ∈ l -> p <> id s) -> btree_get (id s) c = Some s -> (k <= length l)%nat ->
  (forall i p, l !! i = Some p -> match btree_get p c with Some e => rank e s | None => Lt end = if (i <? k)%nat then Lt else Gt) ->
  ranked c (take k l ++ id s :: drop k l).
Proof.
  intros [Hl Hs] Hne Hget Hk Hpart. split.
  - rewrite <- (take_drop k l) in Hl. apply Forall_app in Hl as [H1 H2]. apply Forall_app. split; [done|].
    constructor; [by exists s|done].
  - rewrite <- (take_drop k l) in Hs.
    assert (Hbefore : forall p, p ∈ take k l -> below c p (id s)).
    { intros p Hp. apply list_elem_of_lookup in Hp as [i Hi]. pose proof (lookup_lt_Some _ _ _ Hi) as Hlt. rewrite length_take in Hlt.
      rewrite lookup_take_lt in Hi by lia. pose proof (Hpart _ _ Hi) as Hr. rewrite (proj2 (Nat.ltb_lt _ _)) in Hr by lia.
      rewrite Forall_forall in Hl. destruct (Hl p) as (e & He & _); [by eapply list_elem_of_lookup_2|].
      rewrite He in Hr. by exists e, s. }
    assert (Hafter : forall p, p ∈ drop k l -> below c (id s) p).
    { intros p Hp. apply list_elem_of_lookup in Hp as [i Hi]. rewrite lookup_drop in Hi. pose proof (Hpart _ _ Hi) as Hr.
      rewrite (proj2 (Nat.ltb_ge _ _)) in Hr by lia.
      rewrite Forall_forall in Hl. destruct (Hl p) as (e & He & _); [by eapply list_elem_of_lookup_2|].
      rewrite He in Hr. exists s, e. by rewrite <- rank_Gt. }
    clear Hl Hpart. revert Hs Hbefore. generalize (take k l) (drop k l) Hafter. clear.
    intros a b Hafter Hs Hbefore. induction a as [|x a IH]; cbn in *.
    + constructor; [done|]. by apply Forall_forall.
    + inversion Hs as [|? ? Hs' Hall]; subst. constructor; [apply IH; [done|]; intros; apply Hbefore; by right|].
      apply Forall_app in Hall as [Ha Hb]. apply Forall_app. split; [done|]. constructor; [apply Hbefore; by left|done].
Qed.

(** ** The cache and its index *)

Lemma keys_get {V} (m : btree_map Principal V) p : p ∈ btree_keys m <-> is_Some (btree_get p m).
Proof.
  split.
  - induction m as [|[q v] m IH]; cbn; [by intros []%elem_of_nil|]. intros [->|Hin]%elem_of_cons.
    + rewrite decide_True by done. by eexists.
    + case_decide; [by eexists|by apply IH].
  - intros [v Hv]. apply btree_get_elem in Hv. by apply (list_elem_of_fmap_2 fst) in Hv.
Qed.

Definition consistent (c : Cache) (l : list Principal) : Prop := btree_wf c /\ ranked c l /\ length l = length c.
Definition summaries_ok (st : State) : Prop :=
  match memo_registered_canister_summaries_cache st, memo_registered_canister_summaries_total_desc_index st with
  | Some c, Some l => consistent c l
  | None, None => True
  | _, _ => False
  end.

Lemma consistent_keys c l p : consistent c l -> p ∈ l <-> is_Some (btree_get p c).
Proof.
  intros (Hw & Hr & Hlen). rewrite <- keys_get. pose proof (ranked_NoDup _ _ Hr) as Hnd. apply btree_wf_NoDup in Hw.
  assert (Hsub : l ⊆+ btree_keys c).
  { apply NoDup_submseteq; [done|]. intros q Hq. apply keys_get. destruct Hr as [Hr _]. rewrite Forall_forall in Hr.
    destruct (Hr q Hq) as (v & Hv & _). by eexists. }
  apply submseteq_length_Permutation in Hsub; [by rewrite Hsub|]. unfold btree_keys. rewrite length_map. lia.
Qed.

Lemma consistent_intro c l : btree_wf c -> ranked c l -> (forall p, p ∈ l <-> is_Some (btree_get p c)) -> consistent c l.
Proof.
  intros Hw Hr Heq. split; [done|]. split; [done|]. pose proof (ranked_NoDup _ _ Hr) as Hnd.
  assert (Hp : l ≡ₚ btree_keys c).
  { apply NoDup_Permutation; [done|by apply btree_wf_NoDup|]. intros p. by rewrite Heq, keys_get. }
  apply Permutation_length in Hp. unfold btree_keys in Hp. by rewrite length_map in Hp.
Qed.

Lemma filter_elem {A} (f : A -> bool) (l : list A) x : x ∈ List.filter f l <-> x ∈ l /\ f x = true.
Proof. by rewrite !list_elem_of_In, filter_In. Qed.

Lemma filter_all {A} (f : A -> bool) (l : list A) : (forall x, x ∈ l -> f x = true) -> List.filter f l = l.
Proof.
  induction l as [|x l IH]; intros H; [done|]. cbn. rewrite (H x) by by left. f_equal. apply IH. intros; apply H. by right.
Qed.

Lemma consistent_remove c l p : consistent c l ->
  consistent (btree_remove p c) (remove_registered_canister_from_total_desc_index l p).
Proof.
  intros Hc. pose proof Hc as (Hw & Hr & _). apply consistent_intro; [by apply filter_wf| |].
  - unfold remove_registered_canister_from_total_desc_index. apply (ranked_frame c); [|by apply ranked_filter].
    intros q Hq. apply filter_elem in Hq as [_ Hq]. apply btree_get_remove_ne.
    apply negb_true_iff, bool_decide_eq_false in Hq. congruence.
  - intros q. unfold remove_registered_canister_from_total_desc_index. rewrite filter_elem, (consistent_keys _ _ _ Hc).
    case_bool_decide as E; cbn.
    + subst q. rewrite btree_get_remove. split; [by intros []|by intros [? ?]].
    + rewrite btree_get_remove_ne by congruence. by split; [intros []|].
Qed.

Lemma consistent_insert c l (s : Summary) : consistent c l ->
  consistent (btree_insert (id s) s c)
    (insert_registered_canister_into_total_desc_index (btree_insert (id s) s c)
       (remove_registered_canister_from_total_desc_index l (id s)) (id s)).
Proof.
  intros Hc. pose proof Hc as (Hw & Hr & _). set (p := id s). set (c' := btree_insert p s c).
  unfold insert_registered_canister_into_total_desc_index, remove_registered_canister_from_total_desc_index.
  assert (Hget : btree_get p c' = Some s) by apply btree_get_insert. rewrite Hget.
  set (l1 := List.filter _ l).
  assert (Hl1 : forall q, q ∈ l1 <-> q ∈ l /\ q <> p).
  { intros q. unfold l1. rewrite filter_elem, negb_true_iff, bool_decide_eq_false. done. }
  assert (Hother : forall q, q ∈ l1 -> btree_get q c' = btree_get q c).
  { intros q [_ Hq]%Hl1. apply btree_get_insert_ne. congruence. }
  assert (Hr1 : ranked c' l1) by (apply (ranked_frame c); [done|by apply ranked_filter]).
  assert (E : List.filter (fun e => negb (bool_decide (e = p)) && contains_key e c') l1 = l1).
  { apply filter_all. intros q Hq. rewrite andb_true_iff. pose proof (proj1 (Hl1 q) Hq) as [Hin Hne].
    split; [by rewrite bool_decide_eq_false_2|]. unfold contains_key. rewrite Hother by done.
    apply (consistent_keys _ _ _ Hc) in Hin as [v ->]. done. }
  rewrite E. destruct (partition_point c' s l1 Hr1) as (k & Hk & Hpart); [by intros q [_ ?]%Hl1|].
  rewrite (binary_search_point _ _ k Hk Hpart).
  apply consistent_intro; [by apply btree_insert_wf| |].
  - apply ranked_insert; [done|by intros q [_ ?]%Hl1|done|done|done].
  - intros q. rewrite elem_of_app, elem_of_cons.
    assert (Hq : q ∈ take k l1 \/ q = p \/ q ∈ drop k l1 <-> q = p \/ q ∈ l1).
    { rewrite <- (take_drop k l1) at 3. rewrite elem_of_app. tauto. }
    rewrite Hq, Hl1. destruct (decide (q = p)) as [->|Hne].
    + rewrite Hget. split; [by eexists|by left].
    + unfold c'. rewrite btree_get_insert_ne by congruence. rewrite (consistent_keys _ _ _ Hc). naive_solver.
Qed.

Lemma summary_id s st p x : memo_registered_canister_summary_for s st p = Some x -> id x = p.
Proof.
  unfold memo_registered_canister_summary_for. intros H.
  destruct (visible_tracking_reasons_for_canister s st p); [|done]. cbn in H. destruct (commitment_history_snapshot s st p); [done|].
  destruct (then_some _ _); [|done]. cbn in H. by injection H as <-.
Qed.

Lemma refresh_ok s p st : summaries_ok st -> summaries_ok (refresh_memo_registered_canister_summary s p st).
Proof.
  intros Hok. assert (Hc : consistent (default [] (memo_registered_canister_summaries_cache st))
    (default [] (memo_registered_canister_summaries_total_desc_index st))).
  { unfold summaries_ok in Hok. destruct (memo_registered_canister_summaries_cache st),
      (memo_registered_canister_summaries_total_desc_index st); try done. split; [constructor|]. split; [by repeat constructor|done]. }
  unfold refresh_memo_registered_canister_summary. destruct (memo_registered_canister_summary_for s st p) as [x|] eqn:Hx.
  - apply summary_id in Hx as <-. by apply consistent_insert.
  - by apply consistent_remove.
Qed.

Lemma valid_ok st : memo_registered_canister_summary_index_is_valid st = true <->
  exists c l, memo_registered_canister_summaries_cache st = Some c /\ memo_registered_canister_summaries_total_desc_index st = Some l
    /\ ranked c l /\ length l = length c.
Proof.
  unfold memo_registered_canister_summary_index_is_valid.
  destruct (memo_registered_canister_summaries_cache st) as [c|], (memo_registered_canister_summaries_total_desc_index st) as [l|];
    try (split; [done|]; by intros (? & ? & ? & ? & _)).
  rewrite andb_true_iff, Nat.eqb_eq, ascending_ranked. split; [intros [? ?]; eauto 8|]. intros (? & ? & ? & ? & ? & ?). by simplify_eq.
Qed.

(** ** A page *)

Lemma page_items_exact c start end_ : forall l position prev,
  ranked c l -> (forall q p s, prev = Some q -> head l = Some p -> btree_get p c = Some s -> rank q s = Lt) ->
  page_items_from c start end_ position prev l
    = Some (omap (fun p => btree_get p c) (drop (start - position) (take (end_ - position) l))).
Proof.
  induction l as [|p l IH]; intros position prev [Hf Hs] Hprev; cbn [page_items_from]; [by rewrite take_nil, drop_nil|].
  apply Forall_cons in Hf as [(e & He & Hid) Hf]. inversion Hs as [|? ? Hs' Hall]; subst.
  rewrite He. cbn [mbind option_bind]. rewrite bool_decide_eq_true_2 by done. cbn [negb].
  assert (Ep : match prev with Some q => match rank q e with Lt => false | _ => true end | None => false end = false).
  { destruct prev as [q|]; [|done]. by rewrite (Hprev q (id e) e). }
  rewrite Ep, IH; [|by split|].
  - cbn [mbind option_bind]. f_equal. destruct (start <=? position)%nat eqn:E1, (position <? end_)%nat eqn:E2;
      rewrite ?Nat.leb_le, ?Nat.leb_gt, ?Nat.ltb_lt, ?Nat.ltb_ge in *; cbn [andb].
    + replace (start - position)%nat with 0%nat by lia. replace (start - S position)%nat with 0%nat by lia.
      replace (end_ - position)%nat with (S (end_ - S position)) by lia. cbn. by rewrite He.
    + replace (end_ - position)%nat with 0%nat by lia. replace (end_ - S position)%nat with 0%nat by lia. by rewrite !take_0, !drop_nil.
    + replace (start - position)%nat with (S (start - S position)) by lia.
      by replace (end_ - position)%nat with (S (end_ - S position)) by lia.
    + replace (end_ - position)%nat with 0%nat by lia. replace (end_ - S position)%nat with 0%nat by lia. by rewrite !take_0, !drop_nil.
  - intros q p s [= <-] Hh Hp. destruct l as [|r l]; [done|]. injection Hh as ->.
    apply Forall_cons in Hall as [(e1 & s1 & H1 & H2 & H3) _]. congruence.
Qed.

Lemma ranked_drop_take c l i j : ranked c l -> ranked c (drop i (take j l)).
Proof.
  intros [Hf Hs]. split; [by apply Forall_drop, Forall_take|].
  rewrite <- (take_drop j l) in Hs. apply StronglySorted_app_1_l in Hs. rewrite <- (take_drop i (take j l)) in Hs.
  by apply StronglySorted_app_1_r in Hs.
Qed.

(** C39: from any consistent (or absent) cache, refreshing a canister leaves its summary,
    and only its, as recomputed, in a cache whose index passes the validity check: exactly
    the cached canisters, by descending committed total and then by id; and on a valid
    index a page is the corresponding slice of that ranking. *)
Theorem summary_ranking_maintained (s : Storage) (st : State) (p : Principal) :
  summaries_ok st ->
  let st' := refresh_memo_registered_canister_summary s p st in
  memo_registered_canister_summary_index_is_valid st' = true /\
  (exists c l, memo_registered_canister_summaries_cache st' = Some c /\
    memo_registered_canister_summaries_total_desc_index st' = Some l /\ consistent c l /\
    btree_get p c = memo_registered_canister_summary_for s st p /\
    (forall q, q <> p -> btree_get q c = btree_get q (default [] (memo_registered_canister_summaries_cache st))) /\
    forall page size, 0 <= page -> 0 < size -> page * size <= 4294967295 ->
      exists r, memo_registered_canister_summaries_total_desc_page st' page size = Some r /\
        page_items r = omap (fun q => btree_get q c) (take (Z.to_nat size) (drop (Z.to_nat (page * size)) l)) /\
        page_total r = Z.of_nat (length c)).
Proof.
  intros Hok. cbn zeta. pose proof (refresh_ok s p st Hok) as Hok'. set (st' := refresh_memo_registered_canister_summary s p st) in *.
  assert (E : exists c l, memo_registered_canister_summaries_cache st' = Some c /\
    memo_registered_canister_summaries_total_desc_index st' = Some l /\ btree_get p c = memo_registered_canister_summary_for s st p /\
    forall q, q <> p -> btree_get q c = btree_get q (default [] (memo_registered_canister_summaries_cache st))).
  { unfold st', refresh_memo_registered_canister_summary. destruct (memo_registered_canister_summary_for s st p) as [x|].
    - do 2 eexists. split; [done|]. split; [done|]. split; [apply btree_get_insert|]. intros q Hq. apply btree_get_insert_ne. congruence.
    - do 2 eexists. split; [done|]. split; [done|]. split; [apply btree_get_remove|]. intros q Hq. apply btree_get_remove_ne. congruence. }
  destruct E as (c & l & Hc & Hl & Hp & Hq). unfold summaries_ok in Hok'. rewrite Hc, Hl in Hok'.
  split; [apply valid_ok; exists c, l; by repeat split; try apply Hok'|].
  exists c, l. do 5 (split; [done|]). intros page size Hpage Hsize Hbound. destruct Hok' as (_ & Hr & Hlen).
  unfold memo_registered_canister_summaries_total_desc_page. rewrite Hc, Hl. cbn [mbind option_bind].
  rewrite (proj2 (Nat.eqb_eq _ _)) by done. cbn [negb]. unfold sat_u32. rewrite Z.min_l by done.
  set (start := Z.to_nat (page * size)). set (n := Z.to_nat size).
  assert (Hn : (0 < n)%nat) by (unfold n; lia).
  destruct (length l <=? start)%nat eqn:E.
  - apply Nat.leb_le in E. eexists. split; [done|]. cbn. rewrite drop_ge, take_nil by done. split; [done|lia].
  - apply Nat.leb_gt in E. set (end_ := Nat.min (start + n) (length l)).
    rewrite page_items_exact; [|by apply ranked_drop_take|done]. cbn [mbind option_bind]. eexists. split; [done|]. cbn.
    split; [|lia]. f_equal.
    assert (Hend : (start < end_ /\ end_ <= length l /\ end_ <= start + n)%nat) by (unfold end_; lia).
    rewrite take_drop_commute, drop_drop, take_take. rewrite (take_drop_commute _ n start).
    replace (start - 1 + (end_ - (start - 1)))%nat with end_ by lia.
    replace (end_ `min` (end_ + 1) `min` length l)%nat with end_ by lia.
    replace (Nat.min end_ (Nat.min (end_ + 1) (length l))) with end_ by lia.
    replace (start - 1 + (start - (start - 1)))%nat with start by lia.
    destruct (decide (start + n <= length l)%nat).
    + by replace end_ with (start + n)%nat by (unfold end_; lia).
    + rewrite (take_ge _ (start + n)) by lia. by rewrite take_ge by (unfold end_; lia).
Qed.

End ranking.

(** Canister 9 with one commitment of 3 e8s stored, ranked behind canister 7. *)
Module ConcreteRanking.
Import Concrete ConcreteKeys.
Abbreviation principal := (Principal (PrincipalSpec:=concrete_principal)).
Definition account7 : Account (H:=concrete_principal) := MkAccount concrete_principal 7 None.
Definition config0 : Config (P:=concrete_principal) :=
  MkConfig (P:=concrete_principal) account7 account7 account7 account7 1 2 (Some 3) (Some 5) 6 8 false 600 604800 100000000 100 100 10
    25 true 300000000 2000000000000 5000000 100020000 86400 None [].
Definition summary7 : MemoRegisteredCanisterSummary (P:=concrete_principal) :=
  MkSummary (P:=concrete_principal) 7 [MemoCommitment] 1 5 None None None.
Definition state0 : State (P:=concrete_principal) :=
  (State_new config0 1000)
    <| canister_tracking_reasons := [((9 : principal), [MemoCommitment])] |>
    <| commitment_history := [((9 : principal), [MkCommitmentSample 41 (Some 5) 3 true None])] |>
    <| memo_registered_canister_summaries_cache := Some [((7 : principal), summary7)] |>
    <| memo_registered_canister_summaries_total_desc_index := Some [(7 : principal)] |>.
Definition storage0 : Storage (P:=concrete_principal) :=
  increment_commitment_route_rollup (KeyCyclesTopUp [9]) 3 Storage_empty.

Lemma summary_ranking_maintained_witness :
  memo_registered_canister_summaries_total_desc_index
    (refresh_memo_registered_canister_summary storage0 (9 : principal) state0) = Some [(7 : principal); (9 : principal)] /\
  memo_registered_canister_summary_index_is_valid
    (refresh_memo_registered_canister_summary storage0 (9 : principal) state0) = true.
Proof.
  split; [vm_compute; reflexivity|].
  assert (Hok : summaries_ok state0).
  { split; [by repeat constructor|]. split; [|done]. split.
    - repeat constructor. exists summary7. done.
    - repeat constructor. }
  exact (proj1 (summary_ranking_maintained storage0 state0 (9 : principal) Hok)).
Defined.

End ConcreteRanking.
