(* ===== verification/HistorianCommitments.v ===== *)
(** * Historian: one indexed commitment

    [logic.rs] (what a transaction of the staking account declares, the retained
    histories), [scheduler/commitment_lists.rs] and
    [scheduler/commitment_indexer_apply.rs] up to
    [apply_commitment_transactions_in_chronological_order]. *)

From stdpp Require Import sorting.
From S2P Require Import Prelude BTree Ic Accounts Clients MemoPolicy HistorianTypes HistorianKeys HistorianState HistorianTracking.

Definition MAX_RECENT_QUALIFYING_COMMITMENTS : nat := 500.
Definition MAX_RECENT_UNDER_THRESHOLD_COMMITMENTS : nat := 100.
Definition MAX_RECENT_INVALID_COMMITMENTS : nat := 100.

(** ** [logic.rs] *)

Definition INVALID_MEMO_PLACEHOLDER : list Z := bytes_of_string "invalid declared memo".

Definition prune_vec {A} (history : list A) (max_entries : Z) : list A :=
  if max_entries =? 0 then []
  else if max_entries <? Z.of_nat (length history) then drop (length history - Z.to_nat max_entries) history
  else history.

Definition make_cycles_sample (timestamp_nanos cycles : Z) (source : CyclesSampleSource) : CyclesSample :=
  MkCyclesSample timestamp_nanos cycles source.
Definition push_cycles_sample (history : list CyclesSample) (sample : CyclesSample) (max_entries : Z) : bool * list CyclesSample :=
  if is_some_and (last history) (fun existing => cycles_timestamp_nanos existing =? cycles_timestamp_nanos sample)
  then (false, history)
  else (true, prune_vec (history ++ [sample]) max_entries).

Definition apply_cycles_probe_result (meta : CanisterMeta) (timestamp_nanos : Z) (res : CyclesProbeResult) : CanisterMeta :=
  meta <| last_cycles_probe_ts := Some (timestamp_nanos / 1000000000) |> <| last_cycles_probe_result := Some res |>.

Definition apply_commitment_seen (meta : CanisterMeta) (timestamp_nanos : option Z) (now_secs : Z) : CanisterMeta :=
  let meta := if is_none (first_seen_ts meta) then meta <| first_seen_ts := Some now_secs |> else meta in
  let observed_ts := default now_secs ((fun ts => ts / 1000000000) <$> timestamp_nanos) in
  meta <| last_commitment_ts := Some (match last_commitment_ts meta with
                                      | Some existing => Z.max existing observed_ts | None => observed_ts end) |>.

(** The history is sorted first; the insertion point is the one the search returns. *)
Definition push_commitment (history : list CommitmentSample) (sample : CommitmentSample) (max_entries : Z) :
    bool * list CommitmentSample :=
  let history := merge_sort tx_id_le history in
  match binary_search_by (fun item => Z.compare (sample_tx_id item) (sample_tx_id sample)) history with
  | inl _ => (false, history)
  | inr at_ => (true, prune_vec (take at_ history ++ sample :: drop at_ history) max_entries)
  end.

Section commitments.
Context `{P : PrincipalSpec} `{O : !OrdSpec Principal} `{SS : !SliceSpec} {EH : EventHorizon}.
#[local] Existing Instance Principal_eq_dec.

Record IndexedCommitment := MkIndexed {
  ic_tx_id : Z;
  ic_target : IndexedCommitmentTarget;
  ic_amount_e8s : Z;
  ic_timestamp_nanos : option Z;
  ic_counts_toward_faucet : bool;
}.
Record IndexedInvalidCommitment := MkIndexedInvalid {
  ii_tx_id : Z;
  ii_amount_e8s : Z;
  ii_timestamp_nanos : option Z;
  ii_memo_text : list Z;
}.
Inductive IndexedCommitmentEntry := EntryValid (c : IndexedCommitment) | EntryInvalid (c : IndexedInvalidCommitment).

(** [(tx id, memo, amount, timestamp)] of a transfer to the staking account. *)
Definition memo_bytes_from_index_tx (tx : IndexTransactionWithId) (staking_account_id : list Z) :
    option (Z * option (list Z) * Z * option Z) :=
  match tx_operation (transaction tx) with
  | IndexTransfer _ to_ amount _ _ =>
      if bool_decide (to_ = staking_account_id) then
        let memo := match tx_icrc1_memo (transaction tx) with Some (b :: m) => Some (b :: m) | _ => None end in
        let ts := match tx_timestamp (transaction tx) with
                  | Some ts => Some ts | None => Clients.tx_created_at_time (transaction tx) end in
        Some (tx_id tx, memo, amount, ts)
      else None
  | _ => None
  end.

(** A memo that the policy accepts is ASCII, so its text has the same bytes. *)
Definition indexed_target (memo : list Z) : option IndexedCommitmentTarget :=
  match parse_memo_directive memo with
  | Some (TopUp canister_id) => Some (IndexedCyclesTopUp canister_id)
  | Some (RawIcp canister_id destination_subaccount memo) => Some (IndexedRawIcp canister_id destination_subaccount memo)
  | Some (NeuronStake neuron_id memo) => Some (IndexedNeuronStake neuron_id memo)
  | None => None
  end.
Definition indexed_commitment_from_tx (tx : IndexTransactionWithId) (staking_account_id : list Z) (min_tx_e8s : Z) :
    option IndexedCommitmentEntry :=
  match memo_bytes_from_index_tx tx staking_account_id with
  | Some (tx_id_, Some memo, amount, ts) =>
      Some (match indexed_target memo with
            | Some target => EntryValid (MkIndexed tx_id_ target amount ts (min_tx_e8s <=? amount))
            | None => EntryInvalid (MkIndexedInvalid tx_id_ amount ts INVALID_MEMO_PLACEHOLDER)
            end)
  | _ => None
  end.

Definition merge_tracking_reasons (existing : option (btree_set CanisterTrackingReason)) (add : CanisterTrackingReason) :
    btree_set CanisterTrackingReason := set_insert add (default [] existing).

(** ** [commitment_lists.rs]: newest first by [(timestamp, id)]; the ids are distinct, so
    the order of equal keys does not arise *)

Section recent.
Context {A : Type} (id_of : A -> Z) (timestamp_of : A -> option Z).

Definition sort_key (item : A) : Z * Z := (default 0 (timestamp_of item), id_of item).
(** [Reverse(key(a)) <= Reverse(key(b))]. *)
Definition newer_first (a b : A) : Prop :=
  let '(ts, id) := sort_key a in let '(ts', id') := sort_key b in ts' < ts \/ (ts' = ts /\ id' <= id).
#[export] Instance newer_first_dec a b : Decision (newer_first a b).
Proof. unfold newer_first, sort_key. apply _. Defined.

Definition push_recent (recent : list A) (item : A) (max_entries : nat) : bool * list A :=
  if existsb (fun existing => id_of existing =? id_of item) recent then (false, recent)
  else (true, take max_entries (merge_sort newer_first (recent ++ [item]))).
End recent.

Definition push_recent_commitment := push_recent rc_tx_id rc_timestamp_nanos.
Definition push_recent_neuron_commitment := push_recent rn_tx_id rn_timestamp_nanos.
Definition push_recent_invalid_commitment (recent : list InvalidCommitment) (item : InvalidCommitment) : list InvalidCommitment :=
  (push_recent invalid_tx_id invalid_timestamp_nanos recent item MAX_RECENT_INVALID_COMMITMENTS).2.

(** ** [commitment_indexer_apply.rs] *)

(** The heap state and the stable maps, which the route totals are part of; [None] is
    the panic of an [expect]. *)
Definition Parts : Type := State * Storage.

Definition sample_of (c : IndexedCommitment) (subaccount : option (list Z)) : CommitmentSample :=
  MkCommitmentSample (ic_tx_id c) (ic_timestamp_nanos c) (ic_amount_e8s c) true subaccount.
Definition recent_of (c : IndexedCommitment) (p : Principal) (memo : option (list Z)) (subaccount : option (list Z))
    (counts : bool) : RecentCommitment :=
  MkRecent p memo subaccount (ic_tx_id c) (ic_timestamp_nanos c) (ic_amount_e8s c) counts.
Definition recent_neuron_of (c : IndexedCommitment) (n : Z) (memo : option (list Z)) (counts : bool) : RecentNeuronCommitment :=
  MkRecentNeuron n memo (ic_tx_id c) (ic_timestamp_nanos c) (ic_amount_e8s c) counts.

Definition increment_if_routed (route_key : option CommitmentRouteKey) (amount_e8s : Z) (g : Storage) : Storage :=
  match route_key with Some key => increment_commitment_route_rollup key amount_e8s g | None => g end.
Definition count_qualifying (s : State) : option State :=
  n ← qualifying_commitment_count s; Some (s <| qualifying_commitment_count := Some (sat_add n 1) |>).
Definition push_qualifying (item : RecentCommitment) (max_entries : nat) (s : State) : option State :=
  recent ← recent_commitments s;
  Some (s <| recent_commitments := Some (push_recent_commitment recent item max_entries).2 |>).
Definition push_qualifying_neuron (item : RecentNeuronCommitment) (max_entries : nat) (s : State) : option State :=
  recent ← recent_neuron_commitments s;
  Some (s <| recent_neuron_commitments := Some (push_recent_neuron_commitment recent item max_entries).2 |>).
Definition push_under_threshold (item : RecentCommitment) (max_entries : nat) (s : State) : option State :=
  recent ← recent_under_threshold_commitments s;
  Some (s <| recent_under_threshold_commitments := Some (push_recent_commitment recent item max_entries).2 |>).
Definition push_under_threshold_neuron (item : RecentNeuronCommitment) (max_entries : nat) (s : State) : option State :=
  recent ← recent_under_threshold_neuron_commitments s;
  Some (s <| recent_under_threshold_neuron_commitments := Some (push_recent_neuron_commitment recent item max_entries).2 |>).
Definition push_invalid (item : InvalidCommitment) (s : State) : option State :=
  recent ← recent_invalid_commitments s;
  Some (s <| recent_invalid_commitments := Some (push_recent_invalid_commitment recent item) |>).

Definition track_memo_commitment (p : Principal) (s : State) : State :=
  s <| distinct_canisters ::= set_insert p |>
    <| canister_tracking_reasons ::= fun m => btree_insert p (merge_tracking_reasons (btree_get p m) MemoCommitment) m |>.
(** What an inserted sample brings with it. *)
Definition count_top_up (c : IndexedCommitment) (p : Principal) (now_secs : Z) (s : State) : option State :=
  let meta := default CanisterMeta_default (btree_get p (per_canister_meta s)) in
  let needs_initial_cycles_probe := is_none (last_cycles_probe_ts meta) in
  let s := s <| per_canister_meta ::= btree_insert p (apply_commitment_seen meta (ic_timestamp_nanos c) now_secs) |> in
  s ← push_qualifying (recent_of c p None None true) MAX_RECENT_QUALIFYING_COMMITMENTS s;
  s ← count_qualifying s;
  Some (if needs_initial_cycles_probe then enqueue_initial_cycles_probe p s else s).
Definition apply_verified_qualifying_commitment (c : IndexedCommitment) (now_secs : Z) (sg : Parts) : option Parts :=
  let '(s, g) := sg in
  match ic_target c with
  | IndexedCyclesTopUp canister_id =>
      let s := track_memo_commitment canister_id s in
      let loaded := ensure_loaded principal_key (stable_commitments g) canister_id (commitment_history s) in
      let (inserted, history) := push_commitment (default [] (btree_get canister_id loaded)) (sample_of c None)
        (max_commitment_entries_per_canister (config s)) in
      let s := s <| commitment_history := btree_insert canister_id history loaded |> in
      '(s, g) ←
        (if inserted : bool then
           s ← count_top_up c canister_id now_secs s;
           Some (s, increment_if_routed (from_indexed (ic_target c)) (ic_amount_e8s c) g)
         else Some (s, g));
      Some (if inserted || contains_key canister_id (canister_tracking_reasons s)
            then refresh_memo_registered_canister_summary g canister_id s else s, g)
  | _ => Some (s, g)
  end.

Definition apply_recent_raw_or_neuron_commitment (c : IndexedCommitment) (max_entries : nat) (sg : Parts) : option Parts :=
  let '(s, g) := sg in
  match ic_target c with
  | IndexedRawIcp canister_id destination_subaccount memo_text =>
      if ic_counts_toward_faucet c then
        let loaded := ensure_loaded principal_key (stable_raw_icp g) canister_id (raw_icp_commitment_history s) in
        let (inserted, history) := push_commitment (default [] (btree_get canister_id loaded))
          (sample_of c destination_subaccount) (max_commitment_entries_per_canister (config s)) in
        let s := s <| raw_icp_commitment_history := btree_insert canister_id history loaded |> in
        if inserted : bool then
          s ← push_qualifying (recent_of c canister_id (Some memo_text) destination_subaccount true) max_entries s;
          s ← count_qualifying s;
          Some (s, increment_if_routed (from_indexed (ic_target c)) (ic_amount_e8s c) g)
        else Some (s, g)
      else
        s ← push_under_threshold (recent_of c canister_id (Some memo_text) destination_subaccount false) max_entries s;
        Some (s, g)
  | IndexedNeuronStake neuron_id memo_text =>
      if ic_counts_toward_faucet c then
        let loaded := ensure_loaded (fun n : Z => n) (stable_neurons g) neuron_id (neuron_commitment_history s) in
        let (inserted, history) := push_commitment (default [] (btree_get neuron_id loaded)) (sample_of c None)
          (max_commitment_entries_per_canister (config s)) in
        let s := s <| neuron_commitment_history := btree_insert neuron_id history loaded |> in
        if inserted : bool then
          s ← push_qualifying_neuron (recent_neuron_of c neuron_id memo_text true) max_entries s;
          s ← count_qualifying s;
          Some (s, increment_if_routed (from_indexed (ic_target c)) (ic_amount_e8s c) g)
        else Some (s, g)
      else
        s ← push_under_threshold_neuron (recent_neuron_of c neuron_id memo_text false) max_entries s;
        Some (s, g)
  | IndexedCyclesTopUp _ => Some (s, g)
  end.

(** A scoped mutation whose closure also writes the route totals. *)
Definition with_parts (wrapper : (State -> State) -> Mem -> Mem) (f : Parts -> option Parts) (m : Mem) : option Mem :=
  '(s, g) ← f (st m, storage m); Some (wrapper (fun _ => s) (m <| storage := g |>)).
Definition on_state (f : State -> option State) (sg : Parts) : option Parts := s ← f sg.1; Some (s, sg.2).

Definition apply_valid_commitment (c : IndexedCommitment) (now_secs : Z) (m : Mem) : option Mem :=
  match ic_target c with
  | IndexedCyclesTopUp canister_id =>
      if ic_counts_toward_faucet c then
        with_parts (with_root_registry_and_commitments_canister_state_mut canister_id)
          (apply_verified_qualifying_commitment c now_secs) m
      else
        with_parts with_root_state_mut (on_state
          (push_under_threshold (recent_of c canister_id None None false) MAX_RECENT_UNDER_THRESHOLD_COMMITMENTS)) m
  | IndexedRawIcp canister_id _ _ =>
      if ic_counts_toward_faucet c then
        with_parts (with_root_and_raw_icp_commitments_state_mut canister_id)
          (apply_recent_raw_or_neuron_commitment c MAX_RECENT_QUALIFYING_COMMITMENTS) m
      else
        with_parts with_root_state_mut
          (apply_recent_raw_or_neuron_commitment c MAX_RECENT_UNDER_THRESHOLD_COMMITMENTS) m
  | IndexedNeuronStake neuron_id _ =>
      if ic_counts_toward_faucet c then
        with_parts (with_root_and_neuron_commitments_state_mut neuron_id)
          (apply_recent_raw_or_neuron_commitment c MAX_RECENT_QUALIFYING_COMMITMENTS) m
      else
        with_parts with_root_state_mut
          (apply_recent_raw_or_neuron_commitment c MAX_RECENT_UNDER_THRESHOLD_COMMITMENTS) m
  end.
Definition apply_indexed_commitment_tx (staking_id : list Z) (min_tx_e8s now_secs : Z) (tx : IndexTransactionWithId) (m : Mem) :
    option Mem :=
  match indexed_commitment_from_tx tx staking_id min_tx_e8s with
  | Some (EntryValid c) => apply_valid_commitment c now_secs m
  | Some (EntryInvalid c) =>
      with_parts with_root_state_mut (on_state (push_invalid
        (MkInvalidCommitment (ii_tx_id c) (ii_timestamp_nanos c) (ii_amount_e8s c) (ii_memo_text c)))) m
  | None => Some m
  end.
Fixpoint apply_transactions (staking_id : list Z) (min_tx_e8s now_secs : Z) (txs : list IndexTransactionWithId) (m : Mem) :
    option Mem :=
  match txs with
  | [] => Some m
  | tx :: txs => m ← apply_indexed_commitment_tx staking_id min_tx_e8s now_secs tx m;
                 apply_transactions staking_id min_tx_e8s now_secs txs m
  end.
(** The page is newest first. *)
Definition apply_commitment_transactions_in_chronological_order (staking_id : list Z) (min_tx_e8s now_secs : Z)
    (txs : list IndexTransactionWithId) (m : Mem) : option Mem :=
  apply_transactions staking_id min_tx_e8s now_secs (rev txs) m.

End commitments.
