(* ===== verification/HistorianIndexer.v ===== *)
(** * Historian: the indexer of the staking account

    [scheduler/commitment_index_guard.rs], the loops of
    [scheduler/commitment_indexer_apply.rs], [scheduler/commitment_indexer.rs] and
    [latch_commitment_index_fault] of [scheduler/logging.rs].  The index serves the
    account newest first; two cursors and a catch-up record say what is indexed. *)

From S2P Require Import Prelude BTree Async Ic Accounts Clients MemoPolicy TimerGuard HistorianTypes HistorianKeys HistorianState HistorianCommitments.

Definition PAGE_SIZE : Z := 500.
Definition COMMITMENT_INDEX_LEASE_SECONDS : Z := 75.

(** The continuation of a fallible step ([?]). *)
Definition and_then {St} {Call : Type -> Type} {A B} (m : async St Call (result A string))
    (f : A -> async St Call (result B string)) : async St Call (result B string) :=
  r ← m; match r with Ok a => f a | Err e => mret (Err e) end.

(** ** [logging.rs] *)

Section fault.
Context `{P : PrincipalSpec}.
Definition latch_commitment_index_fault (now_secs : Z) (last_cursor_tx_id : option Z) (offending_tx_id : Z)
    (message : string) (s : State) : State :=
  s <| commitment_index_fault := Some (match commitment_index_fault s with
    | Some existing => MkIndexFault (fault_observed_at_ts existing) last_cursor_tx_id offending_tx_id message
    | None => MkIndexFault now_secs last_cursor_tx_id offending_tx_id message end) |>.
End fault.

Section indexer.
Context `{P : PrincipalSpec} `{O : !OrdSpec Principal} `{SS : !SliceSpec} `{T : TextSpec} `{H : HashSpec} {EH : EventHorizon}.
#[local] Existing Instance Principal_eq_dec.
Local Abbreviation async := (async Mem SuiteCall).

(** ** Mutations of the memory *)

Definition read {A} (f : State -> A) : async A := with_state (fun m => f (st m)).
(** [with_root_state_mut] with a closure that returns a value, or returns nothing. *)
Definition root_result {A} (f : State -> A * State) : async A :=
  with_state_mut (fun m => ((f (st m)).1, with_root_state_mut (fun s => (f s).2) m)).
Definition root (f : State -> State) : async unit := modify (with_root_state_mut f).
(** Writes between two calls that may panic. *)
Definition commit (f : Mem -> option Mem) : async unit := fun _ w =>
  match f (w_state w) with Some m => (Returned tt, World m (w_trace w)) | None => (Trapped, w) end.
(** The scope of a [begin_persistence_batch]. *)
Definition batched (f : Mem -> option Mem) (m : Mem) : option Mem :=
  m ← f (begin_persistence_batch m); drop_persistence_batch m.

(** ** The lease *)

Record CommitmentIndexLeaseToken := MkIndexToken { token_expires_at_ts : Z; token_generation : Z }.

Definition is_current_in (t : CommitmentIndexLeaseToken) (s : State) : bool :=
  bool_decide (commitment_index_lock_expires_at_ts s = Some (token_expires_at_ts t))
  && (commitment_index_lock_generation s =? token_generation t).
Definition is_current (t : CommitmentIndexLeaseToken) : async bool := read (is_current_in t).

Definition superseded : string := "commitment index lease was superseded".
Definition renew_in (t : CommitmentIndexLeaseToken) (now_secs : Z) (s : State) :
    result CommitmentIndexLeaseToken string * State :=
  if is_current_in t s then
    let renewed := MkIndexToken (sat_add now_secs COMMITMENT_INDEX_LEASE_SECONDS) (token_generation t) in
    (Ok renewed, s <| commitment_index_lock_expires_at_ts := Some (token_expires_at_ts renewed) |>)
  else (Err superseded, s).
Definition renew_current_commitment_index_lease (token : option CommitmentIndexLeaseToken) (now_secs : Z) :
    async (result (option CommitmentIndexLeaseToken) string) :=
  match token with
  | None => mret (Ok None)
  | Some t => r ← root_result (renew_in t now_secs);
              mret (match r with Ok t => Ok (Some t) | Err e => Err e end)
  end.
Definition require_current_commitment_index_lease (token : option CommitmentIndexLeaseToken) : async (result unit string) :=
  match token with
  | None => mret (Ok tt)
  | Some t => b ← is_current t; mret (if b : bool then Ok tt else Err superseded)
  end.

(** [CommitmentIndexGuard]: its acquisition and its release. *)
Definition acquire_in (now_secs : Z) (lease_owner : CommitmentIndexLeaseOwner) (s : State) :
    option Fenced.FencedTimerLeaseGuard * State :=
  let timer_preempts_poke := bool_decide (lease_owner = Scheduled)
    && bool_decide (commitment_index_lock_owner s = Some EndowmentRefresh) in
  match Fenced.acquire now_secs COMMITMENT_INDEX_LEASE_SECONDS (commitment_index_lock_expires_at_ts s)
          (commitment_index_lock_generation s) timer_preempts_poke with
  | None => (None, s)
  | Some inner => (Some inner,
      s <| commitment_index_lock_expires_at_ts := Some (Fenced.lease_expires_at_ts inner) |>
        <| commitment_index_lock_generation := Fenced.generation inner |>
        <| commitment_index_lock_owner := Some lease_owner |>)
  end.
Definition acquire_index_guard (now_secs : Z) (lease_owner : CommitmentIndexLeaseOwner) :
    async (option Fenced.FencedTimerLeaseGuard) := root_result (acquire_in now_secs lease_owner).
Definition token_of (guard : Fenced.FencedTimerLeaseGuard) : CommitmentIndexLeaseToken :=
  MkIndexToken (Fenced.lease_expires_at_ts guard) (Fenced.generation guard).
(** By generation: a renewed lease is released, a successor's is not. *)
Definition release_in (guard : Fenced.FencedTimerLeaseGuard) (s : State) : State :=
  if commitment_index_lock_generation s =? Fenced.generation guard then
    s <| commitment_index_lock_expires_at_ts := Some 0 |> <| commitment_index_lock_owner := None |>
  else s.
Definition drop_index_guard (guard : Fenced.FencedTimerLeaseGuard) : async unit := root (release_in guard).

(** ** Pages *)

Context (index : Principal) (lease_now_secs : async Z).

(** A page that is at hand, or a fresh one under a renewed lease; then the lease is
    checked again. *)
Definition call_index (staking_id : list Z) (start : option Z) (lease : option CommitmentIndexLeaseToken) :
    async (result (IndexPage * option CommitmentIndexLeaseToken) string) :=
  now ← lease_now_secs;
  and_then (renew_current_commitment_index_lease lease now) (fun lease =>
    r ← get_account_identifier_transactions index staking_id start PAGE_SIZE;
    mret (match collapse r with
          | Ok page => Ok (page, lease)
          | Err e => Err ("index call failed: " ++ display_error e)%string
          end)).
Definition next_page (staking_id : list Z) (first_page : option IndexPage) (start : option Z)
    (lease : option CommitmentIndexLeaseToken) : async (result (IndexPage * option CommitmentIndexLeaseToken) string) :=
  and_then (match first_page with
            | Some page => mret (Ok (page, lease))
            | None => call_index staking_id start lease
            end)
    (fun got => and_then (require_current_commitment_index_lease got.2) (fun _ => mret (Ok got))).

Definition advance_revision (s : State) : State := s <| commitment_index_revision ::= fun r => sat_add r 1 |>.
Definition advance_commitment_index_revision (m : Mem) : Mem := with_root_state_mut advance_revision m.

Definition max_id (txs : list IndexTransactionWithId) : option Z :=
  fold_left (fun best tx => Some (match best with Some b => Z.max b (tx_id tx) | None => tx_id tx end)) txs None.
Definition min_id (txs : list IndexTransactionWithId) : option Z :=
  fold_left (fun best tx => Some (match best with Some b => Z.min b (tx_id tx) | None => tx_id tx end)) txs None.
Definition is_short (page : IndexPage) : bool := Z.of_nat (length (transactions page)) <? PAGE_SIZE.
Definition raise (cursor seen : option Z) : option Z :=
  match seen with Some s => Some (match cursor with Some c => Z.max c s | None => s end) | None => cursor end.
Definition lower (cursor seen : option Z) : option Z :=
  match seen with Some s => Some (match cursor with Some c => Z.min c s | None => s end) | None => cursor end.

(** *** New arrivals *)

(** The leading items above the boundary, and whether the boundary was reached. *)
Fixpoint above (boundary : Z) (txs : list IndexTransactionWithId) : list IndexTransactionWithId * bool :=
  match txs with
  | [] => ([], false)
  | tx :: txs =>
      if boundary <? tx_id tx then let (items, reached) := above boundary txs in (tx :: items, reached)
      else ([], true)
  end.
(** The progress after a page, and whether the page ends the catch-up. *)
Definition catch_up_after (progress : DescendingIndexCatchUp) (page : IndexPage) : DescendingIndexCatchUp * bool :=
  let (new_items, reached_boundary) := above (boundary_tx_id progress) (transactions page) in
  (progress <| observed_head_tx_id ::= fun head =>
               match max_id new_items with Some m => Z.max head m | None => head end |>
            <| next_start_tx_id := tx_id <$> last (transactions page) |>,
   reached_boundary || is_short page).

Definition finish_catch_up (progress : DescendingIndexCatchUp) (m : Mem) : option Mem :=
  batched (fun m => Some (advance_commitment_index_revision (with_root_state_mut (fun s =>
    s <| last_indexed_staking_tx_id := Some (observed_head_tx_id progress) |> <| active_staking_catch_up := None |>) m))) m.
Definition commit_catch_up (staking_id : list Z) (min_tx_e8s now_secs : Z) (progress : DescendingIndexCatchUp)
    (page : IndexPage) (m : Mem) : option Mem :=
  batched (fun m =>
    m ← apply_commitment_transactions_in_chronological_order staking_id min_tx_e8s now_secs
          (above (boundary_tx_id progress) (transactions page)).1 m;
    let (progress, page_is_terminal) := catch_up_after progress page in
    Some (advance_commitment_index_revision (with_root_state_mut (fun s =>
      if page_is_terminal : bool then
        s <| active_staking_catch_up := None |> <| last_indexed_staking_tx_id := Some (observed_head_tx_id progress) |>
      else s <| active_staking_catch_up := Some progress |>) m))) m.

Definition seeded : Type := nat * option Z * option IndexPage * option CommitmentIndexLeaseToken.

(** The remaining pages, the newest cursor, the unused first page and the lease. *)
Fixpoint catch_up_loop (staking_id : list Z) (min_tx_e8s now_secs : Z) (remaining_pages : nat)
    (catch_up : option DescendingIndexCatchUp) (latest_cursor : option Z) (first_page : option IndexPage)
    (lease : option CommitmentIndexLeaseToken) : async (result seeded string) :=
  match remaining_pages, catch_up with
  | S remaining_pages, Some progress =>
      and_then (next_page staking_id first_page (next_start_tx_id progress) lease) (fun got =>
        let (page, lease) := got in
        match transactions page with
        | [] =>
            _ ← commit (finish_catch_up progress);
            mret (Ok (remaining_pages, Some (observed_head_tx_id progress), None, lease))
        | _ =>
            _ ← commit (commit_catch_up staking_id min_tx_e8s now_secs progress page);
            let (progress, page_is_terminal) := catch_up_after progress page in
            if page_is_terminal : bool then mret (Ok (remaining_pages, Some (observed_head_tx_id progress), None, lease))
            else catch_up_loop staking_id min_tx_e8s now_secs remaining_pages (Some progress) latest_cursor None lease
        end)
  | _, _ => mret (Ok (remaining_pages, latest_cursor, first_page, lease))
  end.

(** *** History *)

Definition older_items (oldest_cursor : option Z) (page : IndexPage) : list IndexTransactionWithId :=
  match oldest_cursor with
  | Some oldest => List.filter (fun tx => tx_id tx <? oldest) (transactions page)
  | None => transactions page
  end.
Definition commit_backfill (staking_id : list Z) (min_tx_e8s now_secs : Z) (items : list IndexTransactionWithId)
    (latest_cursor oldest_cursor : option Z) (m : Mem) : option Mem :=
  batched (fun m =>
    m ← apply_commitment_transactions_in_chronological_order staking_id min_tx_e8s now_secs items m;
    Some (advance_commitment_index_revision (with_root_state_mut (fun s =>
      s <| last_indexed_staking_tx_id := latest_cursor |> <| oldest_indexed_staking_tx_id := oldest_cursor |>
        <| staking_index_descending := Some true |> <| staking_backfill_complete := Some false |>) m))) m.

(** The cursors and whether the history is complete. *)
Fixpoint backfill_loop (staking_id : list Z) (min_tx_e8s now_secs : Z) (remaining_pages : nat)
    (latest_cursor oldest_cursor : option Z) (first_page : option IndexPage) (lease : option CommitmentIndexLeaseToken) :
    async (result (option Z * option Z * bool) string) :=
  match remaining_pages with
  | 0%nat => mret (Ok (latest_cursor, oldest_cursor, false))
  | S remaining_pages =>
      and_then (next_page staking_id first_page oldest_cursor lease) (fun got =>
        let (page, lease) := got in
        match transactions page, older_items oldest_cursor page with
        | [], _ =>
            _ ← modify advance_commitment_index_revision;
            mret (Ok (latest_cursor, oldest_cursor, true))
        | _, [] => mret (Ok (latest_cursor, oldest_cursor, true))
        | _, items =>
            let latest_cursor := raise latest_cursor (max_id items) in
            let oldest_cursor := lower oldest_cursor (min_id items) in
            _ ← commit (commit_backfill staking_id min_tx_e8s now_secs items latest_cursor oldest_cursor);
            if is_short page then mret (Ok (latest_cursor, oldest_cursor, true))
            else backfill_loop staking_id min_tx_e8s now_secs remaining_pages latest_cursor oldest_cursor None lease
        end)
  end.

Definition finish_indexing (now_secs : Z) (latest_cursor oldest_cursor : option Z) (backfill_complete : bool) (s : State) : State :=
  let s := s <| last_indexed_staking_tx_id := latest_cursor |> <| oldest_indexed_staking_tx_id := oldest_cursor |>
             <| staking_index_descending := Some true |> <| staking_backfill_complete := Some backfill_complete |> in
  let s := if backfill_complete && bool_decide (commitment_route_rollups_complete_from_genesis s = Some false)
           then s <| commitment_route_rollups_complete_from_genesis := Some true |> else s in
  s <| last_index_run_ts := Some now_secs |>.

(** Without an oldest cursor the walk starts at the newest one. *)
Definition seed_oldest (latest_cursor oldest_cursor : option Z) : option Z :=
  match oldest_cursor with None => latest_cursor | Some oldest => Some oldest end.
(** A catch-up that was interrupted, or a new one above the newest cursor. *)
Definition seed_catch_up (catch_up : option DescendingIndexCatchUp) (latest_cursor : option Z) : option DescendingIndexCatchUp :=
  match catch_up with
  | Some progress => Some progress
  | None => (fun latest => MkCatchUp latest latest None) <$> latest_cursor
  end.
Definition page_budget (max_pages : Z) : nat := Z.to_nat (Z.max max_pages 1).
Definition process_commitment_indexing_descending_seeded (now_secs : Z) (cfg : Config) (staking_id : list Z)
    (latest_cursor oldest_cursor : option Z) (backfill_complete : bool) (first_page : option IndexPage)
    (lease : option CommitmentIndexLeaseToken) : async (result unit string) :=
  let remaining_pages := page_budget (max_index_pages_per_tick cfg) in
  let oldest_cursor := seed_oldest latest_cursor oldest_cursor in
  let reopened := backfill_complete && is_none latest_cursor in
  _ ← (if reopened then
         root (fun s => s <| staking_backfill_complete := Some false |>
                          <| commitment_route_rollups_complete_from_genesis := Some false |>)
       else mret tt);
  let backfill_complete := backfill_complete && negb reopened in
  and_then
    (if backfill_complete then
       catch_up ← read active_staking_catch_up;
       catch_up_loop staking_id (min_tx_e8s cfg) now_secs remaining_pages (seed_catch_up catch_up latest_cursor) latest_cursor
         first_page lease
     else mret (Ok (remaining_pages, latest_cursor, first_page, lease)))
    (fun seed => let '(remaining_pages, latest_cursor, first_page, lease) := seed in
      and_then
        (if backfill_complete then mret (Ok (latest_cursor, oldest_cursor, true))
         else backfill_loop staking_id (min_tx_e8s cfg) now_secs remaining_pages latest_cursor oldest_cursor first_page lease)
        (fun final => let '(latest_cursor, oldest_cursor, backfill_complete) := final in
          _ ← root (finish_indexing now_secs latest_cursor oldest_cursor backfill_complete);
          mret (Ok tt))).

Definition unsupported_ascending : string :=
  "unsupported persisted ascending staking-index pagination state; historical coverage cannot be proven under the configured newest-first ICP Index contract".
Definition process_commitment_indexing_bounded (now_secs max_pages : Z) (lease : option CommitmentIndexLeaseToken) :
    async (result unit string) :=
  cfg ← read config;
  let cfg := cfg <| max_index_pages_per_tick := Z.max max_pages 1 |> in
  s ← read (fun s => s);
  let latest_cursor := last_indexed_staking_tx_id s in
  let staking_id := account_identifier_text_for_account (staking_account cfg) in
  if bool_decide (staking_index_descending s = Some false) then
    _ ← root (fun s => s <| commitment_route_rollups_complete_from_genesis := Some false |>);
    _ ← root (latch_commitment_index_fault now_secs latest_cursor (default 0 latest_cursor) unsupported_ascending);
    mret (Err unsupported_ascending)
  else
    and_then
      (if is_none (staking_index_descending s) then
         and_then (call_index staking_id None lease) (fun got =>
           and_then (require_current_commitment_index_lease got.2) (fun _ =>
             _ ← root (fun s => s <| staking_index_descending := Some true |>);
             mret (Ok (Some got.1, got.2))))
       else mret (Ok (None, lease)))
      (fun first => process_commitment_indexing_descending_seeded now_secs cfg staking_id latest_cursor
        (oldest_indexed_staking_tx_id s) (default false (staking_backfill_complete s)) first.1 first.2).

Lemma commit_ok e (f : Mem -> option Mem) (Q : unit -> world Mem SuiteCall -> Prop) w :
  (exists m', f (w_state w) = Some m' /\ Q tt (World m' (w_trace w))) -> wp e (commit f) Q w.
Proof. clear. intros (m' & E & HQ). unfold wp, commit. by rewrite E. Qed.

End indexer.
