(* ===== verification/HistorianWalk.v ===== *)
(** * Historian: walking an account newest first

    The list theory behind the two cursors and the catch-up record of the indexers: what
    the index serves, which transactions a walk has covered, and that every page extends
    what is covered by exactly its new items. *)

From Stdlib Require Import Sorted.
From S2P Require Import Prelude BTree Clients HistorianTypes HistorianIndexer.

Definition newer (a b : IndexTransactionWithId) : Prop := tx_id b < tx_id a.
Definition descending (txs : list IndexTransactionWithId) : Prop := StronglySorted newer txs.

(** The page that an index which knows the transactions [visible] serves: the newest
    ones below [start]. *)
Definition below (start : option Z) (tx : IndexTransactionWithId) : bool :=
  match start with Some s => tx_id tx <? s | None => true end.
Definition serve (visible : list IndexTransactionWithId) (start : option Z) : list IndexTransactionWithId :=
  take (Z.to_nat PAGE_SIZE) (List.filter (below start) visible).

(** The progress of an indexer. *)
Record Walk := MkWalk {
  walk_latest : option Z;
  walk_oldest : option Z;
  walk_complete : bool;
  walk_catch_up : option DescendingIndexCatchUp;
}.

(** What the cursors claim: from the oldest to the newest, and the part of an unfinished
    catch-up that was read. *)
Definition between (lo hi : option Z) (tx : IndexTransactionWithId) : bool :=
  match lo, hi with Some lo, Some hi => (lo <=? tx_id tx) && (tx_id tx <=? hi) | _, _ => false end.
Definition covered (w : Walk) (tx : IndexTransactionWithId) : bool :=
  between (walk_oldest w) (walk_latest w) tx
  || is_some_and (walk_catch_up w) (fun c => between (next_start_tx_id c) (Some (observed_head_tx_id c)) tx).

(** ** Descending lists *)

Lemma newest_first_app l k : descending (l ++ k) -> descending l /\ descending k /\ forall x y, x ∈ l -> y ∈ k -> newer x y.
Proof.
  unfold descending. induction l as [|a l IH]; cbn; [split; [constructor|split; [done|set_solver]]|].
  intros [Hl Ha]%StronglySorted_inv. destruct (IH Hl) as (Hs & Hk & Hx). apply Forall_app in Ha as [Ha1 Ha2].
  split; [by constructor|split; [done|]]. intros x y [->|Hin]%elem_of_cons Hy; [|by apply Hx].
  rewrite Forall_forall in Ha2. by apply Ha2.
Qed.

Lemma descending_filter f l : descending l -> descending (List.filter f l).
Proof.
  unfold descending. induction 1 as [|a l Hl IH Ha]; cbn; [constructor|]. destruct (f a); [|done]. constructor; [done|].
  rewrite Forall_forall in *. intros x Hx%list_elem_of_In%filter_In. apply Ha. apply list_elem_of_In. tauto.
Qed.

Lemma descending_NoDup l : descending l -> NoDup l.
Proof.
  unfold descending. induction 1 as [|a l Hl IH Ha]; constructor; [|done]. intros Hin. rewrite Forall_forall in Ha.
  specialize (Ha _ Hin). unfold newer in Ha. lia.
Qed.

Lemma descending_inj l x y : descending l -> x ∈ l -> y ∈ l -> tx_id x = tx_id y -> x = y.
Proof.
  unfold descending. induction 1 as [|a l Hl IH Ha]; [by intros ?%not_elem_of_nil|].
  rewrite Forall_forall in Ha. unfold newer in Ha.
  intros [->|Hx]%elem_of_cons [->|Hy]%elem_of_cons E; [done|specialize (Ha _ Hy); lia|specialize (Ha _ Hx); lia|by apply IH].
Qed.

Lemma descending_last l x : descending l -> last l = Some x -> x ∈ l /\ forall y, y ∈ l -> tx_id x <= tx_id y.
Proof.
  intros Hd Hl. split; [by apply last_Some_elem_of|]. apply last_Some in Hl as [k ->].
  apply newest_first_app in Hd as (_ & _ & Hx). intros y [Hy| ->%list_elem_of_singleton]%elem_of_app; [|lia].
  specialize (Hx y x Hy ltac:(set_solver)). unfold newer in Hx. lia.
Qed.

Lemma list_filter_elem {A} (f : A -> bool) l x : x ∈ List.filter f l <-> x ∈ l /\ f x = true.
Proof. rewrite !list_elem_of_In. apply filter_In. Qed.

(** The whole account, and what the index knows at some moment. *)
Section account.
Context (U V : list IndexTransactionWithId) (HU : descending U) (HV : V `suffix_of` U).

Lemma visible_descending : descending V.
Proof using HU HV. destruct HV as [k E]. rewrite E in HU. by apply newest_first_app in HU as (_ & Hd & _). Qed.

Lemma visible_sub x : x ∈ V -> x ∈ U.
Proof using HU HV. destruct HV as [k E]. rewrite E. set_solver. Qed.

Lemma visible_down x y : x ∈ U -> y ∈ V -> tx_id x <= tx_id y -> x ∈ V.
Proof using HU HV.
  destruct HV as [k E]. rewrite E in HU |- *. intros [Hx|Hx]%elem_of_app Hy Hle; [|done].
  apply newest_first_app in HU as (_ & _ & Hn). specialize (Hn _ _ Hx Hy). unfold newer in Hn. lia.
Qed.

(** ** Pages *)

Lemma serve_descending start : descending (serve V start).
Proof using HU HV.
  unfold serve. pose proof (descending_filter (below start) _ visible_descending) as Hd.
  rewrite <-(take_drop (Z.to_nat PAGE_SIZE)) in Hd. by apply newest_first_app in Hd as (Hd & _ & _).
Qed.

Lemma serve_sub start x : x ∈ serve V start -> x ∈ V /\ below start x = true.
Proof using. clear HU HV. unfold serve. intros Hx. apply list_filter_elem. rewrite <-(take_drop (Z.to_nat PAGE_SIZE)). set_solver. Qed.

Lemma serve_upto start x y : x ∈ V -> below start x = true -> y ∈ serve V start -> tx_id y <= tx_id x -> x ∈ serve V start.
Proof using HU HV.
  intros Hx Hb Hy Hle. unfold serve in *. pose proof (descending_filter (below start) _ visible_descending) as Hd.
  assert (Hin : x ∈ List.filter (below start) V) by (by apply list_filter_elem).
  rewrite <-(take_drop (Z.to_nat PAGE_SIZE) (List.filter (below start) V)) in Hd, Hin.
  apply elem_of_app in Hin as [Hin|Hin]; [done|]. apply newest_first_app in Hd as (_ & _ & Hn).
  specialize (Hn _ _ Hy Hin). unfold newer in Hn. lia.
Qed.

Lemma serve_short start x : Z.of_nat (length (serve V start)) < PAGE_SIZE -> x ∈ V -> below start x = true -> x ∈ serve V start.
Proof using.
  clear HU HV. intros Hs Hx Hb. assert (Hin : x ∈ List.filter (below start) V) by (by apply list_filter_elem). unfold serve in *.
  rewrite length_take in Hs. rewrite take_ge; [done|]. lia.
Qed.

End account.

(** ** Extremes of a page *)

Lemma max_id_app l x : max_id (l ++ [x]) = Some (match max_id l with Some b => Z.max b (tx_id x) | None => tx_id x end).
Proof. unfold max_id. by rewrite fold_left_app. Qed.
Lemma min_id_app l x : min_id (l ++ [x]) = Some (match min_id l with Some b => Z.min b (tx_id x) | None => tx_id x end).
Proof. unfold min_id. by rewrite fold_left_app. Qed.

Lemma max_id_spec l : l <> [] -> exists x, x ∈ l /\ max_id l = Some (tx_id x) /\ forall y, y ∈ l -> tx_id y <= tx_id x.
Proof.
  induction l as [|a l IH] using rev_ind; [done|]. intros _. rewrite max_id_app. destruct l as [|b l].
  - exists a. cbn. split; [set_solver|]. split; [done|]. intros y ->%list_elem_of_singleton. lia.
  - destruct IH as (x & Hx & -> & Hmax); [done|]. destruct (Z.le_gt_cases (tx_id x) (tx_id a)) as [Hle|Hlt].
    + exists a. split; [set_solver|]. split; [by rewrite Z.max_r|]. intros y [Hy| ->%list_elem_of_singleton]%elem_of_app; [|lia].
      specialize (Hmax _ Hy). lia.
    + exists x. split; [set_solver|]. split; [by rewrite Z.max_l by lia|].
      intros y [Hy| ->%list_elem_of_singleton]%elem_of_app; [by apply Hmax|lia].
Qed.
Lemma min_id_spec l : l <> [] -> exists x, x ∈ l /\ min_id l = Some (tx_id x) /\ forall y, y ∈ l -> tx_id x <= tx_id y.
Proof.
  induction l as [|a l IH] using rev_ind; [done|]. intros _. rewrite min_id_app. destruct l as [|b l].
  - exists a. cbn. split; [set_solver|]. split; [done|]. intros y ->%list_elem_of_singleton. lia.
  - destruct IH as (x & Hx & -> & Hmin); [done|]. destruct (Z.le_gt_cases (tx_id a) (tx_id x)) as [Hle|Hlt].
    + exists a. split; [set_solver|]. split; [by rewrite Z.min_r|]. intros y [Hy| ->%list_elem_of_singleton]%elem_of_app; [|lia].
      specialize (Hmin _ Hy). lia.
    + exists x. split; [set_solver|]. split; [by rewrite Z.min_l by lia|].
      intros y [Hy| ->%list_elem_of_singleton]%elem_of_app; [by apply Hmin|lia].
Qed.

Lemma above_spec b l : descending l ->
  (above b l).1 = List.filter (fun tx => b <? tx_id tx) l /\ (above b l).2 = existsb (fun tx => tx_id tx <=? b) l.
Proof.
  unfold descending. induction 1 as [|a l Hl IH Ha]; [done|]. cbn [above List.filter existsb]. destruct IH as [E1 E2].
  destruct (b <? tx_id a) eqn:Eb.
  - destruct (above b l) as [items reached]. cbn in *. rewrite E1, E2. split; [done|]. apply Z.ltb_lt in Eb.
    by replace (tx_id a <=? b) with false by lia.
  - apply Z.ltb_ge in Eb. cbn. replace (tx_id a <=? b) with true by lia. split; [|done].
    symmetry. clear -Ha Eb. induction Ha as [|x l Hx Ha IH]; [done|]. cbn.
    unfold newer in Hx. by replace (b <? tx_id x) with false by lia.
Qed.

(** ** The invariant of a walk *)

Definition at_id (l : list IndexTransactionWithId) (id : Z) : Prop := exists x, x ∈ l /\ tx_id x = id.

(** [U] is the whole account, [V] what the index knows: the cursors are ids that were
    served, a complete walk has nothing below its oldest cursor, and an unfinished
    catch-up is above the newest one. *)
Definition catch_up_ok (V : list IndexTransactionWithId) (latest : Z) (c : DescendingIndexCatchUp) : Prop :=
  boundary_tx_id c = latest /\ at_id V (observed_head_tx_id c) /\
  exists s, next_start_tx_id c = Some s /\ latest < s <= observed_head_tx_id c.
Definition walk_ok (U V : list IndexTransactionWithId) (w : Walk) : Prop :=
  match walk_latest w, walk_oldest w with
  | None, None => walk_catch_up w = None
  | Some latest, Some oldest =>
      oldest <= latest /\ at_id V latest /\ at_id V oldest /\
      (walk_complete w = true -> forall x, x ∈ U -> oldest <= tx_id x) /\
      match walk_catch_up w with
      | None => True
      | Some c => walk_complete w = true /\ catch_up_ok V latest c
      end
  | _, _ => False
  end.

Lemma walk_ok_mono U V V' w : V ⊆ V' -> walk_ok U V w -> walk_ok U V' w.
Proof.
  intros Hsub. assert (Hat : forall id, at_id V id -> at_id V' id) by (intros id (x & Hx & E); exists x; split; [by apply Hsub|done]).
  unfold walk_ok, catch_up_ok. destruct (walk_latest w), (walk_oldest w); try done.
  destruct (walk_catch_up w); naive_solver.
Qed.

Section steps.
Context (U V : list IndexTransactionWithId) (HU : descending U) (HV : V `suffix_of` U).

(** What is covered afterwards is what was covered before and the new items. *)
Definition extends (w w' : Walk) (items : list IndexTransactionWithId) : Prop :=
  List.filter (covered w') U ≡ₚ List.filter (covered w) U ++ items.

Lemma extends_members w w' items : NoDup items ->
  (forall x, x ∈ items -> x ∈ U /\ covered w x = false) ->
  (forall x, x ∈ U -> covered w' x = true <-> covered w x = true \/ x ∈ items) ->
  extends w w' items.
Proof using HU.
  intros Hnd Hi Hc. unfold extends. apply NoDup_Permutation.
  - apply descending_NoDup, descending_filter, HU.
  - apply NoDup_app. split; [apply descending_NoDup, descending_filter, HU|]. split; [|done].
    intros x Hx Hin. apply list_filter_elem in Hx as [_ Hx]. destruct (Hi _ Hin) as [_ Hn]. congruence.
  - intros x. rewrite elem_of_app, !list_filter_elem. split.
    + intros [Hx Hw]. apply Hc in Hw as [Hw|Hw]; auto.
    + intros [[Hx Hw]|Hx]; [split; [done|]; apply Hc; auto|]. destruct (Hi _ Hx) as [HU' _]. split; [done|]. apply Hc; auto.
Qed.

Lemma between_true lo hi x : between lo hi x = true <-> exists a b, lo = Some a /\ hi = Some b /\ a <= tx_id x <= b.
Proof using.
  clear HU HV. unfold between. destruct lo as [a|], hi as [b|]; split; try naive_solver.
  - intros [?%Z.leb_le ?%Z.leb_le]%andb_true_iff. exists a, b. auto.
  - intros (? & ? & [= <-] & [= <-] & ? & ?). apply andb_true_iff. split; by apply Z.leb_le.
Qed.

(** *** A page of history *)

Lemma older_items_serve start page : transactions page = serve V start -> older_items start page = transactions page.
Proof using.
  clear HU HV. intros E. unfold older_items. destruct start as [s|]; [|done]. rewrite E.
  assert (Hall : Forall (fun x => below (Some s) x = true) (serve V (Some s))).
  { apply Forall_forall. intros x Hx. by apply serve_sub in Hx as [_ Hx]. }
  clear E. induction Hall as [|x l Hx Hl IH]; [done|]. cbn [List.filter]. cbn in Hx. rewrite Hx. by f_equal.
Qed.

Definition backfilled (w : Walk) (page : list IndexTransactionWithId) (complete : bool) : Walk :=
  MkWalk (raise (walk_latest w) (max_id page)) (lower (walk_oldest w) (min_id page)) complete None.

Lemma backfill_step w page :
  walk_ok U V w -> walk_complete w = false -> page = serve V (walk_oldest w) -> page <> [] ->
  walk_ok U V (backfilled w page false) /\ extends w (backfilled w page false) page.
Proof using HU HV.
  intros Hw Hinc Hp Hne. destruct (max_id_spec _ Hne) as (hi & Hhi & Emax & Hmax).
  destruct (min_id_spec _ Hne) as (lo & Hlo & Emin & Hmin).
  assert (Hpage : forall x, x ∈ page -> x ∈ V /\ below (walk_oldest w) x = true) by (intros x Hx; subst page; by apply serve_sub in Hx).
  assert (Hin : forall x, x ∈ U -> below (walk_oldest w) x = true -> tx_id lo <= tx_id x <= tx_id hi -> x ∈ page).
  { intros x Hx Hb [Hl Hh]. assert (HxV : x ∈ V) by (eapply visible_down; [done..|apply Hpage, Hhi|done]).
    subst page. by eapply serve_upto. }
  assert (Hnd : NoDup page) by (subst page; by eapply descending_NoDup, serve_descending).
  unfold walk_ok, extends, backfilled in *. rewrite Emax, Emin. cbn [walk_latest walk_oldest walk_catch_up walk_complete raise lower].
  destruct (walk_latest w) as [l|] eqn:El, (walk_oldest w) as [o|] eqn:Eo; try done.
  - destruct Hw as (Hol & Hl & Ho & _ & Hc).
    assert (Ec : walk_catch_up w = None) by (destruct (walk_catch_up w); [destruct Hc as [Hc _]; congruence|done]).
    assert (Hhio : tx_id hi < o) by (destruct (Hpage _ Hhi) as [_ Hb]; cbn in Hb; lia).
    assert (Hloo : tx_id lo < o) by (destruct (Hpage _ Hlo) as [_ Hb]; cbn in Hb; lia).
    rewrite Z.max_l, Z.min_r by lia. split.
    + split; [lia|]. split; [done|]. split; [exists lo; split; [by apply Hpage|done]|]. done.
    + apply extends_members; [done|..].
      * intros x Hx. destruct (Hpage _ Hx) as [HxV Hb]. split; [by eapply visible_sub|].
        unfold covered. rewrite El, Eo, Ec. cbn in *. lia.
      * intros x Hx. unfold covered. rewrite El, Eo, Ec. cbn. rewrite !orb_false_r. split.
        -- intros Hb. destruct (Z.le_gt_cases o (tx_id x)) as [Hge|Hlt]; [left; lia|right].
           apply Hin; [done|cbn; lia|]. destruct (Z.le_gt_cases (tx_id x) (tx_id hi)); [lia|]. exfalso.
           (* between the page and the cursor nothing is left *)
           assert (Hxp : x ∈ page); [|specialize (Hmax _ Hxp); lia].
           destruct Ho as (y & Hy & Ey). assert (HxV : x ∈ V) by (eapply (visible_down U V HU HV x y); [done|done|lia]).
           subst page. eapply (serve_upto U V HU HV); [done|cbn; lia|exact Hlo|lia].
        -- intros [Hb|Hx']; [lia|]. specialize (Hmin _ Hx'). destruct (Hpage _ Hx') as [_ Hb]. cbn in Hb. lia.
  - split.
    + split; [by apply Hmin|]. split; [exists hi; split; [by apply Hpage|done]|]. split; [exists lo; split; [by apply Hpage|done]|]. done.
    + apply extends_members; [done|..].
      * intros x Hx. split; [by eapply visible_sub, Hpage|]. unfold covered. by rewrite El, Eo, Hw.
      * intros x Hx. unfold covered. rewrite El, Eo, Hw. cbn. rewrite !orb_false_r. split.
        -- intros Hb. right. apply Hin; [done|done|lia].
        -- intros [?|Hx']; [done|]. specialize (Hmin _ Hx'). specialize (Hmax _ Hx'). lia.
Qed.

(** After an empty or short page nothing older is left. *)
Definition completed (w : Walk) : Walk := MkWalk (walk_latest w) (walk_oldest w) true (walk_catch_up w).

Lemma backfill_end w : walk_ok U V w ->
  (forall o x, walk_oldest w = Some o -> x ∈ V -> o <= tx_id x) -> walk_ok U V (completed w).
Proof using HU HV.
  unfold walk_ok. cbn. destruct (walk_latest w) as [l|], (walk_oldest w) as [o|]; try done.
  intros (Hol & Hl & Ho & _ & Hc) Hend. split; [done|]. split; [done|]. split; [done|]. split; [|destruct (walk_catch_up w); naive_solver].
  intros _ x Hx. destruct (Z.le_gt_cases o (tx_id x)) as [|Hlt]; [done|]. apply (Hend o x); [done|].
  destruct Ho as (y & Hy & Ey). eapply visible_down; [done..|exact Hy|lia].
Qed.

Lemma serve_empty start x : serve V start = [] -> x ∈ V -> below start x = false.
Proof using.
  clear HU HV. intros E Hx. destruct (below start x) eqn:Eb; [|done]. exfalso.
  assert (Hin : x ∈ serve V start) by (apply serve_short; [rewrite E; cbn; unfold PAGE_SIZE; lia|done|done]).
  rewrite E in Hin. by apply not_elem_of_nil in Hin.
Qed.

Lemma backfill_empty w : walk_ok U V w -> serve V (walk_oldest w) = [] -> walk_ok U V (completed w).
Proof using HU HV.
  intros Hw E. apply backfill_end; [done|]. intros o x Eo Hx. pose proof (serve_empty _ _ E Hx) as Hb. rewrite Eo in Hb. cbn in Hb. lia.
Qed.

Lemma backfill_short w page :
  walk_ok U V w -> walk_complete w = false -> page = serve V (walk_oldest w) -> page <> [] ->
  Z.of_nat (length page) < PAGE_SIZE -> walk_ok U V (backfilled w page true).
Proof using HU HV.
  intros Hw Hinc Hp Hne Hs. destruct (backfill_step w page Hw Hinc Hp Hne) as [Hok _].
  change (backfilled w page true) with (completed (backfilled w page false)). apply backfill_end; [done|].
  destruct (min_id_spec _ Hne) as (lo & Hlo & Emin & Hmin). cbn. rewrite Emin. cbn. intros o x [= <-] Hx.
  assert (Hle : x ∈ page -> match walk_oldest w with Some c => Z.min c (tx_id lo) | None => tx_id lo end <= tx_id x)
    by (intros Hxp; specialize (Hmin _ Hxp); destruct (walk_oldest w); lia).
  destruct (below (walk_oldest w) x) eqn:Eb; [apply Hle; subst page; by apply serve_short|].
  destruct (walk_oldest w); [cbn in Eb; lia|done].
Qed.

(** *** A page of new arrivals *)

Definition begun (w : Walk) : option DescendingIndexCatchUp :=
  seed_catch_up (walk_catch_up w) (walk_latest w).
Definition caught_up (w : Walk) (after : DescendingIndexCatchUp * bool) : Walk :=
  if after.2 then MkWalk (Some (observed_head_tx_id after.1)) (walk_oldest w) (walk_complete w) None
  else MkWalk (walk_latest w) (walk_oldest w) (walk_complete w) (Some after.1).

(** The catch-up that a page continues: above the newest cursor, read down to the start. *)
Lemma begun_ok w c : walk_ok U V w -> walk_complete w = true -> begun w = Some c ->
  exists l o, walk_latest w = Some l /\ walk_oldest w = Some o /\ boundary_tx_id c = l /\ o <= l /\
    at_id V l /\ at_id V o /\ at_id V (observed_head_tx_id c) /\ (forall x, x ∈ U -> o <= tx_id x) /\
    l <= observed_head_tx_id c /\
    (forall x, covered w x = true <-> o <= tx_id x <= l \/ (below (next_start_tx_id c) x = false /\ tx_id x <= observed_head_tx_id c)) /\
    (forall s, next_start_tx_id c = Some s -> l < s <= observed_head_tx_id c) /\
    (next_start_tx_id c = None -> observed_head_tx_id c = l).
Proof using.
  clear HU HV. unfold walk_ok, begun, seed_catch_up, covered. destruct w as [[l|] [o|] complete catch_up]; cbn; try done; intros Hw Hcomp Hb;
    [|by rewrite Hw in Hb].
  destruct Hw as (Hol & Hl & Ho & Hall & Hc). exists l, o. destruct catch_up as [c'|]; injection Hb as <-; cbn.
  - destruct Hc as (_ & Eb & Hh & s & Es & Hs). rewrite Es. cbn.
    split_and!; auto; [lia| |by intros ? [= <-]|done]. intros x. rewrite orb_true_iff, !andb_true_iff, !Z.leb_le, Z.ltb_ge. lia.
  - split_and!; auto; [lia| |done]. intros x. rewrite orb_false_r, !andb_true_iff, !Z.leb_le. split; [by left|]. by intros [?|[? _]].
Qed.

(** The part of a page above the boundary. *)
Section page.
Context (start : option Z) (boundary : Z) (page : IndexPage) (Hp : transactions page = serve V start).

Lemma above_serve : (above boundary (transactions page)).1 = List.filter (fun tx => boundary <? tx_id tx) (transactions page) /\
  (above boundary (transactions page)).2 = existsb (fun tx => tx_id tx <=? boundary) (transactions page).
Proof using HU HV Hp. apply above_spec. rewrite Hp. by eapply serve_descending. Qed.

Lemma new_item x : x ∈ (above boundary (transactions page)).1 <-> x ∈ transactions page /\ boundary < tx_id x.
Proof using HU HV Hp. rewrite (proj1 above_serve), list_filter_elem. by rewrite Z.ltb_lt. Qed.

Lemma page_visible x : x ∈ transactions page -> x ∈ V /\ below start x = true.
Proof using Hp. rewrite Hp. apply serve_sub. Qed.

(** A page that is the last one holds everything above the boundary. *)
Lemma terminal_items x : (above boundary (transactions page)).2 || is_short page = true ->
  x ∈ V -> below start x = true -> boundary < tx_id x -> x ∈ (above boundary (transactions page)).1.
Proof using HU HV Hp.
  intros Ht Hx Hb Hlt. apply new_item. split; [|done]. rewrite (proj2 above_serve) in Ht. unfold is_short in Ht. rewrite Hp in *.
  apply orb_true_iff in Ht as [(y & Hy & Hle)%existsb_exists|Hs%Z.ltb_lt]; [|by apply serve_short].
  apply list_elem_of_In in Hy. eapply (serve_upto U V HU HV); [done..|lia].
Qed.

(** A page that is not the last one is new throughout. *)
Lemma inner_items last_tx : (above boundary (transactions page)).2 || is_short page = false -> last (transactions page) = Some last_tx ->
  boundary < tx_id last_tx /\
  forall x, x ∈ V -> below start x = true -> tx_id last_tx <= tx_id x -> x ∈ (above boundary (transactions page)).1.
Proof using HU HV Hp.
  intros [Hr Hs]%orb_false_iff Hl. assert (Hd : descending (transactions page)) by (rewrite Hp; by eapply serve_descending).
  destruct (descending_last _ _ Hd Hl) as [Hin Hmin]. rewrite (proj2 above_serve) in Hr.
  assert (Hall : forall x, x ∈ transactions page -> boundary < tx_id x).
  { intros x Hx. destruct (Z.le_gt_cases (tx_id x) boundary) as [Hle|]; [|done].
    rewrite (proj2 (existsb_exists _ _)) in Hr; [done|]. exists x. split; [by apply list_elem_of_In|by apply Z.leb_le]. }
  split; [by apply Hall|]. intros x Hx Hb Hle. apply new_item. split; [|specialize (Hall _ Hin); lia].
  rewrite Hp in *. by eapply (serve_upto U V HU HV).
Qed.
End page.

Lemma catch_up_step w c page :
  walk_ok U V w -> walk_complete w = true -> begun w = Some c ->
  transactions page = serve V (next_start_tx_id c) -> transactions page <> [] ->
  walk_ok U V (caught_up w (catch_up_after c page)) /\
  extends w (caught_up w (catch_up_after c page)) (above (boundary_tx_id c) (transactions page)).1.
Proof using HU HV.
  intros Hw Hcomp Hbeg Hp Hne. destruct (begun_ok _ _ Hw Hcomp Hbeg) as (l & o & El & Eo & Eb & Hol & Hl & Ho & Hh & Hall & Hlh & Hcov & Hs & Hn).
  rewrite Eb. pose proof (new_item _ l _ Hp) as Hitem. pose proof (terminal_items _ l _ Hp) as Hterm. pose proof (inner_items _ l _ Hp) as Hinner.
  pose proof (page_visible _ _ Hp) as Hvis.
  assert (Hnd : NoDup (above l (transactions page)).1).
  { rewrite (proj1 (above_serve _ l _ Hp)). apply descending_NoDup, descending_filter. rewrite Hp. by eapply serve_descending. }
  unfold catch_up_after, caught_up. rewrite Eb. destruct (above l (transactions page)) as [items reached]. cbn [fst snd] in *.
  set (head := match max_id items with Some m => Z.max (observed_head_tx_id c) m | None => observed_head_tx_id c end).
  assert (Hhead : at_id V head /\ observed_head_tx_id c <= head /\ (forall x, x ∈ items -> tx_id x <= head)
    /\ (forall s, next_start_tx_id c = Some s -> head = observed_head_tx_id c)).
  { unfold head. destruct items as [|i items']; [cbn; split_and!; [done|lia|by intros x ?%not_elem_of_nil|done]|].
    destruct (max_id_spec (i :: items')) as (m & Hm & -> & Hmax); [done|]. split_and!.
    - destruct (Z.max_spec (observed_head_tx_id c) (tx_id m)) as [[_ ->]|[_ ->]]; [|done]. exists m. split; [|done]. apply Hvis, Hitem, Hm.
    - lia.
    - intros x Hx. specialize (Hmax _ Hx). lia.
    - intros s Es. specialize (Hs _ Es). apply Hitem in Hm as [Hm _]. destruct (Hvis _ Hm) as [_ Hb]. rewrite Es in Hb. cbn in Hb. lia. }
  destruct Hhead as (HheadV & Hheadle & Hitemle & Hheadeq).
  assert (Hnew : forall x, x ∈ items -> x ∈ U /\ covered w x = false).
  { intros x Hx. apply Hitem in Hx as [Hx Hlt]. destruct (Hvis _ Hx) as [HxV Hxb]. split; [by eapply visible_sub|].
    destruct (covered w x) eqn:E; [|done]. apply Hcov in E as [?|[E _]]; [lia|congruence]. }
  assert (Hdown : forall x, x ∈ U -> tx_id x <= head -> x ∈ V).
  { intros x Hx Hle. destruct HheadV as (y & Hy & Ey). eapply (visible_down U V HU HV x y); [done|done|lia]. }
  assert (Hread : forall x, x ∈ U -> tx_id x <= head -> below (next_start_tx_id c) x = false -> covered w x = true).
  { intros x Hx Hle Hb. apply Hcov. right. split; [done|]. destruct (next_start_tx_id c) as [s|] eqn:Es; [|done]. by rewrite (Hheadeq s eq_refl) in Hle. }
  assert (Hkeep : forall x, covered w x = true -> o <= tx_id x <= l \/ (l < tx_id x <= head)).
  { intros x Hx. apply Hcov in Hx as [?|[Hb Hle]]; [by left|right]. destruct (next_start_tx_id c) as [s|] eqn:Es; [|done].
    specialize (Hs s eq_refl). cbn in Hb. lia. }
  destruct (reached || is_short page) eqn:Et; cbn [fst snd].
  - split.
    + unfold walk_ok. cbn. rewrite Eo. split_and!; [lia|done|done|done|done].
    + apply extends_members; [done|done|]. intros x Hx. unfold covered at 1. cbn. rewrite Eo, orb_false_r, between_true. split.
      * intros (? & ? & [= <-] & [= <-] & Hge & Hle). destruct (Z.le_gt_cases (tx_id x) l); [left; apply Hcov; by left|].
        destruct (below (next_start_tx_id c) x) eqn:Exb; [right; apply Hterm; auto; lia|left; by apply Hread].
      * intros Hx'. exists o, head. split_and!; [done|done|by apply Hall|].
        destruct Hx' as [Hx'|Hx']; [apply Hkeep in Hx'; lia|by apply Hitemle].
  - destruct (last (transactions page)) as [z|] eqn:Elast; [|by apply last_None in Elast].
    destruct (Hinner z eq_refl eq_refl) as [Hlz Hup]. cbn [fmap option_fmap option_map].
    assert (Hz : z ∈ transactions page) by (by apply last_Some_elem_of).
    assert (Hmin : forall x, x ∈ transactions page -> tx_id z <= tx_id x).
    { eapply descending_last; [|done]. rewrite Hp. by eapply serve_descending. }
    assert (Hzi : z ∈ items) by (by apply Hitem).
    split.
    + unfold walk_ok. cbn. rewrite El, Eo. split_and!; [done|done|done|done|done|]. split_and!; [done|done|].
      exists (tx_id z). split; [done|]. split; [done|by apply Hitemle].
    + apply extends_members; [done|done|]. intros x Hx. unfold covered at 1.
      cbn [walk_oldest walk_latest walk_catch_up is_some_and next_start_tx_id observed_head_tx_id]. rewrite El, Eo, orb_true_iff, !between_true. split.
      * intros [(? & ? & [= <-] & [= <-] & Hb)|(? & ? & [= <-] & [= <-] & Hge & Hle)]; [left; apply Hcov; by left|].
        destruct (below (next_start_tx_id c) x) eqn:Exb; [right; apply Hup; auto|left; by apply Hread].
      * intros [Hx'|Hx'].
        -- pose proof (Hkeep _ Hx') as [?|?]; [left; by exists o, l|]. apply Hcov in Hx' as [?|[Hb Hle]]; [left; by exists o, l|].
           right. exists (tx_id z), head. split_and!; [done|done| |lia]. destruct (next_start_tx_id c) as [s|]; [|done].
           destruct (Hvis _ Hz) as [_ Hzb]. cbn in *. lia.
        -- right. exists (tx_id z), head. split_and!; [done|done| |by apply Hitemle]. apply Hitem in Hx' as [Hx' _]. by apply Hmin.
Qed.

Lemma catch_up_nonempty w c : walk_ok U V w -> walk_complete w = true -> begun w = Some c -> serve V (next_start_tx_id c) <> [].
Proof using HU HV.
  intros Hw Hcomp Hbeg E. destruct (begun_ok _ _ Hw Hcomp Hbeg) as (l & o & _ & _ & _ & _ & (x & Hx & Ex) & _ & _ & _ & _ & _ & Hs & _).
  pose proof (serve_empty _ _ E Hx) as Hb. destruct (next_start_tx_id c) as [s|]; [|done]. specialize (Hs s eq_refl). cbn in Hb. lia.
Qed.

End steps.
