(* ===== verification/HistorianIndexed.v ===== *)
(** * Historian: every commitment is counted once

    The totals, counters and histories that one commitment changes, as the sum over the
    transactions of the account; then the runs of the indexer. *)

From Stdlib Require Import Sorted.
From stdpp Require Import sorting.
From S2P Require Import Prelude BTree Async Ic Accounts Clients MemoPolicy CyclesProbe TimerGuard HistorianTypes HistorianKeys HistorianState HistorianDurable HistorianTracking HistorianCommitments HistorianIndexer HistorianWalk.

(** ** The samples of a history *)

Section history.
Context {K IK S : Type} `{EqDecision K} `{EqDecision IK} `{OrdSpec IK} `{OrdSpec (IK * Z)} `{OrdSpec K} `{EqDecision S}.
Context (stored : K -> IK) (id_of : S -> Z) (known : IK -> S -> Prop).

(** Every sample, in memory or stored, is one that its key may have. *)
Definition samples_known (cur : btree_map K (list S)) (h : History IK S) : Prop :=
  (forall k l x, (k, l) ∈ cur -> x ∈ l -> known (stored k) x) /\
  (forall k x, (k, x) ∈ history_entries h -> known k.1 x).

Lemma load_known cur h k x : samples_known cur h -> x ∈ load_history stored h k -> known (stored k) x.
Proof.
  intros [_ Hh]. unfold load_history. destruct (btree_get _ _) as [ids|]; [|by intros ?%not_elem_of_nil].
  intros (id & _ & Hx)%list_elem_of_omap. by apply btree_get_elem, Hh in Hx.
Qed.

Lemma insert_known cur h k l : samples_known cur h -> (forall x, x ∈ l -> known (stored k) x) -> samples_known (btree_insert k l cur) h.
Proof.
  intros [Hc Hh] Hl. split; [|done]. intros k' l' x Hin Hx. apply elem_insert in Hin as [[= -> ->]|Hin]; [by apply Hl|by eapply Hc].
Qed.

Lemma get_known cur h k x : samples_known cur h -> x ∈ default [] (btree_get k cur) -> known (stored k) x.
Proof.
  intros [Hc _]. destruct (btree_get k cur) as [l|] eqn:E; [|by intros ?%not_elem_of_nil]. apply btree_get_elem in E. cbn. by apply Hc.
Qed.

Lemma ensure_known cur h k : samples_known cur h -> samples_known (ensure_loaded stored h k cur) h.
Proof.
  intros Hs. unfold ensure_loaded. destruct (contains_key k cur); [done|].
  destruct (load_history stored h k) as [|x l] eqn:E; [done|]. apply insert_known; [done|]. intros y Hy. rewrite <-E in Hy. by eapply load_known.
Qed.

Definition entries_known (m : btree_map (IK * Z) S) : Prop := forall k x, (k, x) ∈ m -> known k.1 x.

Lemma insert_samples_known k samples m : (forall x, x ∈ samples -> known (stored k) x) -> entries_known m ->
  entries_known (insert_samples stored id_of k samples m).
Proof.
  unfold insert_samples. revert m. induction samples as [|s samples IH]; intros m Hs Hm; [done|]. cbn. apply IH; [set_solver|].
  intros k' x Hin. apply elem_insert in Hin as [[= -> ->]|Hin]; [apply Hs; set_solver|by eapply Hm].
Qed.
Lemma update_samples_known k samples m : (forall x, x ∈ samples -> known (stored k) x) -> entries_known m ->
  entries_known (update_samples stored id_of k samples m).
Proof.
  unfold update_samples. revert m. induction samples as [|s samples IH]; intros m Hs Hm; [done|]. cbn. apply IH; [set_solver|].
  case_bool_decide; [done|]. intros k' x Hin. apply elem_insert in Hin as [[= -> ->]|Hin]; [apply Hs; set_solver|by eapply Hm].
Qed.
Lemma remove_stale_known k existing current m : entries_known m -> entries_known (remove_stale stored k existing current m).
Proof.
  unfold remove_stale. revert m. induction existing as [|id existing IH]; intros m Hm; [done|]. cbn. apply IH.
  case_bool_decide; [done|]. intros k' x Hin. unfold btree_remove in Hin. apply list_elem_of_In, filter_In in Hin as [Hin _].
  eapply Hm, list_elem_of_In, Hin.
Qed.

Lemma sync_known cur scope h : samples_known cur h -> samples_known cur (sync_history stored id_of cur scope h).
Proof.
  intros [Hc Hh]. split; [done|]. change (entries_known (history_entries (sync_history stored id_of cur scope h))).
  unfold sync_history. destruct scope as [keys|].
  - unfold sync_keys. revert h Hh. induction keys as [|k keys IH]; intros h Hh; [done|]. cbn. apply IH. cbn.
    apply update_samples_known; [|by apply remove_stale_known]. intros x Hx. by eapply (get_known cur h).
  - unfold sync_all. assert (Hall : forall e, e ∈ cur -> forall x, x ∈ e.2 -> known (stored e.1) x) by (intros [k l] Hin x Hx; by eapply Hc).
    clear Hc Hh. assert (Hh : entries_known (history_entries (History_empty (IK:=IK) (S:=S)))) by (intros ? ? ?%not_elem_of_nil; done).
    revert Hh. generalize (History_empty (IK:=IK) (S:=S)). induction cur as [|[k l] cur IH]; intros g Hg; [done|]. cbn. apply IH; [set_solver|].
    destruct (map id_of l) as [|i ids]; [done|]. cbn. apply insert_samples_known; [|done]. apply (Hall (k, l)). set_solver.
Qed.

End history.

Lemma samples_known_mono {K IK S} (stored : K -> IK) (known known' : IK -> S -> Prop) (cur : btree_map K (list S)) (h : History IK S) :
  (forall k x, known k x -> known' k x) -> samples_known stored known cur h -> samples_known stored known' cur h.
Proof. intros Hk [Hc Hh]. split; eauto. Qed.

(** ** A retained history *)

Lemma binary_search_inl {A} (compare_at : A -> comparison) l i : binary_search_by compare_at l = inl i ->
  exists x, x ∈ l /\ compare_at x = Eq.
Proof.
  unfold binary_search_by. destruct l as [|a l]; [done|]. set (base := search_base _ _ _ _ _).
  destruct ((a :: l) !! base) as [x|] eqn:E; [|done]. destruct (compare_at x) eqn:Ec; [|done..]. intros _.
  exists x. split; [by eapply list_elem_of_lookup_2|done].
Qed.

Lemma prune_sub {A} (l : list A) n x : x ∈ prune_vec l n -> x ∈ l.
Proof.
  unfold prune_vec. destruct (n =? 0); [by intros ?%not_elem_of_nil|]. destruct (n <? _); [|done].
  intros Hx. rewrite <-(take_drop (length l - Z.to_nat n) l). set_solver.
Qed.

Lemma push_commitment_new history sample n : (forall x, x ∈ history -> sample_tx_id x <> sample_tx_id sample) ->
  (push_commitment history sample n).1 = true /\
  forall x, x ∈ (push_commitment history sample n).2 -> x = sample \/ x ∈ history.
Proof.
  intros Hnew. unfold push_commitment. pose proof (merge_sort_Permutation tx_id_le history) as Hp.
  destruct (binary_search_by _ _) as [i|i] eqn:E.
  - apply binary_search_inl in E as (x & Hx & Hc%Z.compare_eq). rewrite Hp in Hx. by destruct (Hnew _ Hx).
  - split; [done|]. cbn [snd]. intros x Hx%prune_sub. rewrite <-Hp. rewrite <-(take_drop i (merge_sort tx_id_le history)). set_solver.
Qed.

(** ** What a set of transactions adds up to *)

Section indexed.
Context `{P : PrincipalSpec} `{O : !OrdSpec Principal} `{SS : !SliceSpec} {EH : EventHorizon}.
#[local] Existing Instance Principal_eq_dec.
Context (staking_id : list Z) (min_tx_e8s : Z).

(** The commitment that counts towards the faucet, if the transaction is one. *)
Definition qualifying (tx : IndexTransactionWithId) : option IndexedCommitment :=
  match indexed_commitment_from_tx tx staking_id min_tx_e8s with
  | Some (EntryValid c) => if ic_counts_toward_faucet c then Some c else None
  | _ => None
  end.
Definition routed (key : CommitmentRouteKey) (c : IndexedCommitment) : option Z :=
  if decide (from_indexed (ic_target c) = Some key) then Some (ic_amount_e8s c) else None.
Definition amounts_for (key : CommitmentRouteKey) (txs : list IndexTransactionWithId) : list Z :=
  omap (fun tx => c ← qualifying tx; routed key c) txs.
Definition rollup_of (txs : list IndexTransactionWithId) (key : CommitmentRouteKey) : CommitmentRouteRollup :=
  MkRollup (Z.min (Z.of_nat (length (amounts_for key txs))) u64_max) (Z.min (sumZ (amounts_for key txs)) u64_max).
Definition qualifying_total (txs : list IndexTransactionWithId) : Z :=
  Z.min (Z.of_nat (length (omap qualifying txs))) u64_max.
Definition amount_ok (tx : IndexTransactionWithId) : Prop :=
  match tx_operation (transaction tx) with IndexTransfer _ _ amount _ _ => 0 <= amount | _ => True end.

Definition known_id (txs : list IndexTransactionWithId) (id : Z) : Prop := id ∈ map tx_id txs.

(** The history that a commitment belongs to, and the subaccount that its sample keeps. *)
Definition top_up_slot (t : IndexedCommitmentTarget) : option (PrincipalKey * option (list Z)) :=
  match t with IndexedCyclesTopUp p => Some (principal_key p, None) | _ => None end.
Definition raw_icp_slot (t : IndexedCommitmentTarget) : option (PrincipalKey * option (list Z)) :=
  match t with IndexedRawIcp p subaccount _ => Some (principal_key p, subaccount) | _ => None end.
Definition neuron_slot (t : IndexedCommitmentTarget) : option (Z * option (list Z)) :=
  match t with IndexedNeuronStake n _ => Some (n, None) | _ => None end.
(** [x] is the sample (id, time, amount, subaccount) of a commitment that counts, to the
    canister or neuron of [k]. *)
Definition sample_among {IK} (slot : IndexedCommitmentTarget -> option (IK * option (list Z)))
    (txs : list IndexTransactionWithId) (k : IK) (x : CommitmentSample) : Prop :=
  exists tx c subaccount, tx ∈ txs /\ qualifying tx = Some c /\ slot (ic_target c) = Some (k, subaccount) /\
    x = sample_of c subaccount.

(** The indexed part of the memory holds exactly these transactions. *)
Record indexed (txs : list IndexTransactionWithId) (s : State) (g : Storage) : Prop := {
  ix_rollups : forall key, get_commitment_route_rollup key g = rollup_of txs key;
  ix_count : qualifying_commitment_count s = Some (qualifying_total txs);
  ix_recent : is_some (recent_commitments s) = true;
  ix_recent_neurons : is_some (recent_neuron_commitments s) = true;
  ix_under_threshold : is_some (recent_under_threshold_commitments s) = true;
  ix_under_threshold_neurons : is_some (recent_under_threshold_neuron_commitments s) = true;
  ix_invalid : is_some (recent_invalid_commitments s) = true;
  ix_commitments : samples_known principal_key (sample_among top_up_slot txs) (commitment_history s) (stable_commitments g);
  ix_raw_icp : samples_known principal_key (sample_among raw_icp_slot txs) (raw_icp_commitment_history s) (stable_raw_icp g);
  ix_neurons : samples_known (fun n : Z => n) (sample_among neuron_slot txs) (neuron_commitment_history s) (stable_neurons g);
}.

Lemma omap_snoc {A B} (f : A -> option B) l x : omap f (l ++ [x]) = omap f l ++ match f x with Some y => [y] | None => [] end.
Proof. rewrite omap_app. f_equal. Qed.
Lemma omap_Permutation {A B} (f : A -> option B) (l k : list A) : l ≡ₚ k -> omap f l ≡ₚ omap f k.
Proof. clear staking_id min_tx_e8s. induction 1; csimpl; repeat case_match; eauto using Permutation_trans. apply Permutation_swap. Qed.
Lemma sumZ_Permutation (l k : list Z) : l ≡ₚ k -> sumZ l = sumZ k.
Proof. clear. induction 1; rewrite ?sumZ_cons; try lia; congruence. Qed.

Lemma indexed_Permutation txs txs' s g : txs ≡ₚ txs' -> indexed txs s g -> indexed txs' s g.
Proof.
  intros Hp []. assert (Hk : forall IK slot k x, sample_among (IK:=IK) slot txs k x -> sample_among slot txs' k x)
    by (intros IK slot k x (tx & c & sub & Hin & Hc); exists tx, c, sub; by rewrite <-Hp).
  split; try done; try (eapply samples_known_mono; [apply Hk|done]).
  - intros key. rewrite ix_rollups0. unfold rollup_of, amounts_for.
    rewrite (omap_Permutation _ _ _ Hp) at 1. f_equal. f_equal. by apply sumZ_Permutation, omap_Permutation.
  - rewrite ix_count0. unfold qualifying_total. by rewrite (omap_Permutation _ _ _ Hp).
Qed.

(** *** One more commitment *)

Lemma amounts_nonneg key txs : Forall amount_ok txs -> Forall (fun a => 0 <= a) (amounts_for key txs).
Proof.
  intros Ha. apply Forall_forall. intros a (tx & Hin & Hc)%list_elem_of_omap. rewrite Forall_forall in Ha. specialize (Ha _ Hin).
  unfold qualifying, indexed_commitment_from_tx, memo_bytes_from_index_tx, routed, amount_ok in *.
  repeat case_match; simplify_eq/=; try done; repeat case_match; simplify_eq/=; done.
Qed.

Lemma qualifying_amount tx c : amount_ok tx -> qualifying tx = Some c -> 0 <= ic_amount_e8s c /\ ic_tx_id c = tx_id tx.
Proof.
  unfold qualifying, indexed_commitment_from_tx, memo_bytes_from_index_tx, amount_ok. intros Ha Hq.
  repeat case_match; simplify_eq/=; try done; repeat case_match; simplify_eq/=; done.
Qed.

Lemma rollup_same txs tx key : (c ← qualifying tx; routed key c) = None -> rollup_of (txs ++ [tx]) key = rollup_of txs key.
Proof.
  intros Hn. unfold rollup_of, amounts_for. rewrite omap_snoc, Hn. by rewrite app_nil_r.
Qed.

Lemma rollup_more txs tx key amount : Forall amount_ok txs -> 0 <= amount -> (c ← qualifying tx; routed key c) = Some amount ->
  rollup_of (txs ++ [tx]) key =
    MkRollup (sat_add (rollup_qualifying_commitment_count (rollup_of txs key)) 1)
             (sat_add (rollup_total_qualifying_committed_e8s (rollup_of txs key)) amount).
Proof.
  intros Ha Hpos Hs. pose proof (sumZ_nonneg _ (amounts_nonneg key _ Ha)). unfold rollup_of, amounts_for, sat_add in *.
  rewrite omap_snoc, Hs, length_app, sumZ_app. cbn. unfold sumZ at 2. cbn. f_equal; lia.
Qed.

Lemma get_increment key key' amount (g : Storage) :
  get_commitment_route_rollup key (increment_commitment_route_rollup key' amount g) =
    if decide (key' = key) then
      MkRollup (sat_add (rollup_qualifying_commitment_count (get_commitment_route_rollup key g)) 1)
               (sat_add (rollup_total_qualifying_committed_e8s (get_commitment_route_rollup key g)) amount)
    else get_commitment_route_rollup key g.
Proof.
  clear staking_id min_tx_e8s EH.
  transitivity (default CommitmentRouteRollup_default (btree_get key (btree_insert key'
    (MkRollup (sat_add (rollup_qualifying_commitment_count (get_commitment_route_rollup key' g)) 1)
              (sat_add (rollup_total_qualifying_committed_e8s (get_commitment_route_rollup key' g)) amount))
    (commitment_route_rollup_map g)))); [done|].
  destruct (decide (key' = key)) as [->|Hne]; [by rewrite btree_get_insert|by rewrite btree_get_insert_ne].
Qed.

Lemma increment_indexed txs tx c g : Forall amount_ok txs -> amount_ok tx -> qualifying tx = Some c ->
  (forall key, get_commitment_route_rollup key g = rollup_of txs key) ->
  forall key, get_commitment_route_rollup key (increment_if_routed (from_indexed (ic_target c)) (ic_amount_e8s c) g) = rollup_of (txs ++ [tx]) key.
Proof.
  intros Ha Hatx Hq Hg key. destruct (qualifying_amount _ _ Hatx Hq) as [Hpos _].
  unfold increment_if_routed. destruct (from_indexed (ic_target c)) as [key'|] eqn:Ek.
  - rewrite get_increment. destruct (decide (key' = key)) as [->|Hne].
    + rewrite !Hg. symmetry. apply rollup_more; [done..|]. rewrite Hq. csimpl. unfold routed. by rewrite Ek, decide_True.
    + rewrite Hg. symmetry. apply rollup_same. rewrite Hq. csimpl. unfold routed. rewrite Ek, decide_False; congruence.
  - rewrite Hg. symmetry. apply rollup_same. rewrite Hq. csimpl. unfold routed. rewrite Ek. by rewrite decide_False.
Qed.

Lemma total_more txs tx c : qualifying tx = Some c -> qualifying_total (txs ++ [tx]) = sat_add (qualifying_total txs) 1.
Proof. intros Hq. unfold qualifying_total, sat_add. rewrite omap_snoc, Hq, length_app. cbn. lia. Qed.

Lemma known_app txs tx id : known_id (txs ++ [tx]) id <-> known_id txs id \/ id = tx_id tx.
Proof. unfold known_id. rewrite map_app, elem_of_app. cbn. by rewrite list_elem_of_singleton. Qed.

Lemma sample_among_grown txs tx IK slot k x : sample_among (IK:=IK) slot txs k x -> sample_among slot (txs ++ [tx]) k x.
Proof. intros (tx' & c & sub & Hin & Hc). exists tx', c, sub. split; [by apply elem_of_app; left|done]. Qed.
Lemma sample_among_id txs IK slot k x : sample_among (IK:=IK) slot txs k x -> Forall amount_ok txs -> known_id txs (sample_tx_id x).
Proof.
  intros (tx & c & sub & Hin & Hq & _ & ->) Ha. rewrite Forall_forall in Ha. destruct (qualifying_amount _ _ (Ha _ Hin) Hq) as [_ E].
  cbn. rewrite E. by apply list_elem_of_fmap_2.
Qed.

(** A transaction that is no qualifying commitment changes no total. *)
Lemma indexed_other txs tx s g : qualifying tx = None -> indexed txs s g -> indexed (txs ++ [tx]) s g.
Proof.
  intros Hq []. pose proof (sample_among_grown txs tx) as Hk.
  split; try done; try (eapply samples_known_mono; [apply Hk|done]).
  - intros key. rewrite ix_rollups0. symmetry. apply rollup_same. by rewrite Hq.
  - rewrite ix_count0. unfold qualifying_total. rewrite omap_snoc, Hq. by rewrite app_nil_r.
Qed.

(** *** The state changes of one commitment *)

(** What an indexer reads again after a call. *)
Definition walk_of (s : State) : Walk :=
  MkWalk (last_indexed_staking_tx_id s) (oldest_indexed_staking_tx_id s)
    (default false (staking_backfill_complete s)) (active_staking_catch_up s).
Definition index_view (s : State) : Config * Walk * option bool * (option Z * Z) :=
  (config s, walk_of s, staking_index_descending s,
   (commitment_index_lock_expires_at_ts s, commitment_index_lock_generation s)).

Lemma refresh_fields g p (s : State) : exists cache index, refresh_memo_registered_canister_summary g p s =
  s <| memo_registered_canister_summaries_cache := cache |> <| memo_registered_canister_summaries_total_desc_index := index |>.
Proof. unfold refresh_memo_registered_canister_summary. cbn zeta. destruct (memo_registered_canister_summary_for g s p); eauto. Qed.
Lemma enqueue_fields p (s : State) : exists queue, enqueue_initial_cycles_probe p s = s <| initial_cycles_probe_queue := queue |>.
Proof.
  unfold enqueue_initial_cycles_probe. destruct s. case_bool_decide; [by eexists|]. destruct (_ <=? _)%nat; by eexists.
Qed.

Lemma track_fields p (s : State) : exists canisters reasons, track_memo_commitment p s =
  s <| distinct_canisters := canisters |> <| canister_tracking_reasons := reasons |>.
Proof. by eexists _, _. Qed.
Lemma refresh_indexed txs g g' p s : indexed txs s g -> indexed txs (refresh_memo_registered_canister_summary g' p s) g.
Proof. intros []. destruct (refresh_fields g' p s) as (cache & i & ->). by split. Qed.
Lemma refresh_view g p s : index_view (refresh_memo_registered_canister_summary g p s) = index_view s.
Proof. by destruct (refresh_fields g p s) as (cache & i & ->). Qed.
Lemma enqueue_indexed txs g p s : indexed txs s g -> indexed txs (enqueue_initial_cycles_probe p s) g.
Proof. intros []. destruct (enqueue_fields p s) as (queue & ->). by split. Qed.
Lemma enqueue_view p s : index_view (enqueue_initial_cycles_probe p s) = index_view s.
Proof. by destruct (enqueue_fields p s) as (queue & ->). Qed.

Lemma is_some_Some {A} (o : option A) : is_some o = true -> exists x, o = Some x.
Proof. clear. destruct o; [by eexists|done]. Qed.

Lemma count_top_up_fields c p now_secs (s : State) n : is_some (recent_commitments s) = true -> qualifying_commitment_count s = Some n ->
  exists meta recent queue, count_top_up c p now_secs s = Some (s <| per_canister_meta := meta |>
    <| recent_commitments := Some recent |> <| qualifying_commitment_count := Some (sat_add n 1) |> <| initial_cycles_probe_queue := queue |>).
Proof.
  intros Hr Hn. destruct (is_some_Some _ Hr) as [recent Er]. unfold count_top_up, push_qualifying. lazy zeta beta.
  set (s1 := s <| per_canister_meta ::= _ |>). change (recent_commitments s1) with (recent_commitments s). rewrite Er. cbn [mbind option_bind].
  set (s2 := s1 <| recent_commitments := _ |>). unfold count_qualifying.
  change (qualifying_commitment_count s2) with (qualifying_commitment_count s). rewrite Hn. cbn [mbind option_bind].
  destruct (is_none _); [destruct (enqueue_fields p (s2 <| qualifying_commitment_count := Some (sat_add n 1) |>)) as (queue & ->)|];
    [exists (per_canister_meta s1), (push_recent_commitment recent (recent_of c p None None true) MAX_RECENT_QUALIFYING_COMMITMENTS).2, queue|
     exists (per_canister_meta s1), (push_recent_commitment recent (recent_of c p None None true) MAX_RECENT_QUALIFYING_COMMITMENTS).2, (initial_cycles_probe_queue s)];
    reflexivity.
Qed.

(** The result of one application: the totals of one more transaction, the cursors
    untouched. *)
Definition applied (txs : list IndexTransactionWithId) (tx : IndexTransactionWithId) (s : State) (r : option Parts) : Prop :=
  exists s' g', r = Some (s', g') /\ indexed (txs ++ [tx]) s' g' /\ index_view s' = index_view s.

Section one.
Context (txs : list IndexTransactionWithId) (tx : IndexTransactionWithId) (c : IndexedCommitment).
Context (Ha : Forall amount_ok txs) (Hatx : amount_ok tx) (Hq : qualifying tx = Some c) (Hnew : ~ known_id txs (tx_id tx)).

Lemma increment_histories key amount (g : Storage) :
  stable_commitments (increment_if_routed key amount g) = stable_commitments g /\
  stable_raw_icp (increment_if_routed key amount g) = stable_raw_icp g /\
  stable_neurons (increment_if_routed key amount g) = stable_neurons g.
Proof using. clear. by destruct key. Qed.
Local Ltac samples :=
  rewrite ?(proj1 (increment_histories _ _ _)), ?(proj1 (proj2 (increment_histories _ _ _))), ?(proj2 (proj2 (increment_histories _ _ _)));
  first [done|by eapply samples_known_mono; [apply sample_among_grown|]].

(** A retained history that receives the sample. *)
Lemma pushed {K IK} `{EqDecision K} `{EqDecision IK} `{OrdSpec IK} `{OrdSpec (IK * Z)} `{OrdSpec K}
    (stored : K -> IK) slot (cur : btree_map K (list CommitmentSample)) (h : History IK CommitmentSample) k subaccount n :
  samples_known stored (sample_among slot txs) cur h -> slot (ic_target c) = Some (stored k, subaccount) ->
  exists history,
    push_commitment (default [] (btree_get k (ensure_loaded stored h k cur))) (sample_of c subaccount) n = (true, history) /\
    samples_known stored (sample_among slot (txs ++ [tx])) (btree_insert k history (ensure_loaded stored h k cur)) h.
Proof using Ha Hatx Hq Hnew.
  intros Hk Hslot. destruct (qualifying_amount _ _ Hatx Hq) as [_ Hid].
  pose proof (ensure_known stored (sample_among slot txs) cur h k Hk) as Hl.
  destruct (push_commitment_new (default [] (btree_get k (ensure_loaded stored h k cur))) (sample_of c subaccount) n) as [Hi Hs].
  { intros x Hx Ex. apply (get_known stored (sample_among slot txs) _ h k x Hl) in Hx. apply sample_among_id in Hx; [|done].
    rewrite Ex in Hx. cbn in Hx. by rewrite Hid in Hx. }
  destruct (push_commitment _ _ _) as [b history]. cbn in Hi, Hs. subst b. exists history. split; [done|].
  apply insert_known; [by eapply samples_known_mono, Hl; apply sample_among_grown|].
  intros x Hx. apply Hs in Hx as [->|Hx]; [|apply sample_among_grown; by eapply (get_known stored (sample_among slot txs) _ h k)].
  exists tx, c, subaccount. split; [apply elem_of_app; right; by apply list_elem_of_singleton|done].
Qed.

Lemma apply_top_up now_secs p s g : ic_target c = IndexedCyclesTopUp p -> indexed txs s g ->
  applied txs tx s (apply_verified_qualifying_commitment c now_secs (s, g)).
Proof using Ha Hatx Hq Hnew.
  intros Et Hs. pose proof (increment_indexed _ _ _ _ Ha Hatx Hq (ix_rollups _ _ _ Hs)) as Hroll.
  destruct (qualifying_amount _ _ Hatx Hq) as [_ Hid]. pose proof (total_more txs _ _ Hq) as Htot.
  rewrite Et in *. unfold apply_verified_qualifying_commitment. rewrite Et.
  destruct (track_fields p s) as (canisters & reasons & Es). rewrite Es. lazy zeta beta.
  destruct (pushed principal_key top_up_slot _ _ p None (max_commitment_entries_per_canister (config s)) (ix_commitments _ _ _ Hs) ltac:(by rewrite Et))
    as (history & Epush & Hknown).
  change (ensure_loaded principal_key (stable_commitments g) p (commitment_history (s <| distinct_canisters := canisters |> <| canister_tracking_reasons := reasons |>)))
    with (ensure_loaded principal_key (stable_commitments g) p (commitment_history s)).
  change (max_commitment_entries_per_canister (config (s <| distinct_canisters := canisters |> <| canister_tracking_reasons := reasons |>)))
    with (max_commitment_entries_per_canister (config s)).
  rewrite Epush. lazy zeta beta iota.
  destruct Hs as [_ Hcount Hr Hrn Hu Hun Hi Hc Hri Hn].
  match goal with |- context [count_top_up c p now_secs ?x] =>
    destruct (count_top_up_fields c p now_secs x _ Hr Hcount) as (meta & recent & queue & Ec) end.
  rewrite Ec. cbn [mbind option_bind orb]. eexists _, _. split; [reflexivity|].
  rewrite refresh_view. split; [apply refresh_indexed|reflexivity].
  rewrite <-Htot. split; try done; samples.
Qed.
Lemma apply_raw_icp n p subaccount memo s g : ic_target c = IndexedRawIcp p subaccount memo -> ic_counts_toward_faucet c = true ->
  indexed txs s g -> applied txs tx s (apply_recent_raw_or_neuron_commitment c n (s, g)).
Proof using Ha Hatx Hq Hnew.
  intros Et Eb Hs. pose proof (increment_indexed _ _ _ _ Ha Hatx Hq (ix_rollups _ _ _ Hs)) as Hroll.
  destruct (qualifying_amount _ _ Hatx Hq) as [_ Hid]. pose proof (total_more txs _ _ Hq) as Htot.
  unfold apply_recent_raw_or_neuron_commitment. rewrite Et in *. rewrite Eb.
  destruct (pushed principal_key raw_icp_slot _ _ p subaccount (max_commitment_entries_per_canister (config s)) (ix_raw_icp _ _ _ Hs) ltac:(by rewrite Et))
    as (history & Epush & Hknown).
  cbn -[push_commitment ensure_loaded from_indexed]. rewrite Epush.
  destruct Hs as [_ Hcount Hr Hrn Hu Hun Hi Hc Hri Hn]. destruct (is_some_Some _ Hr) as [recent Er].
  unfold push_qualifying, count_qualifying. cbn. rewrite Er. cbn. rewrite Hcount. cbn [mbind option_bind]. eexists _, _. split; [reflexivity|].
  split; [|reflexivity]. rewrite <-Htot. split; try done; samples.
Qed.

Lemma apply_neuron n neuron memo s g : ic_target c = IndexedNeuronStake neuron memo -> ic_counts_toward_faucet c = true ->
  indexed txs s g -> applied txs tx s (apply_recent_raw_or_neuron_commitment c n (s, g)).
Proof using Ha Hatx Hq Hnew.
  intros Et Eb Hs. pose proof (increment_indexed _ _ _ _ Ha Hatx Hq (ix_rollups _ _ _ Hs)) as Hroll.
  destruct (qualifying_amount _ _ Hatx Hq) as [_ Hid]. pose proof (total_more txs _ _ Hq) as Htot.
  unfold apply_recent_raw_or_neuron_commitment. rewrite Et in *. rewrite Eb.
  destruct (pushed (fun n : Z => n) neuron_slot _ _ neuron None (max_commitment_entries_per_canister (config s)) (ix_neurons _ _ _ Hs) ltac:(by rewrite Et))
    as (history & Epush & Hknown).
  cbn -[push_commitment ensure_loaded from_indexed]. rewrite Epush.
  destruct Hs as [_ Hcount Hr Hrn Hu Hun Hi Hc Hri Hn]. destruct (is_some_Some _ Hrn) as [recent Er].
  unfold push_qualifying_neuron, count_qualifying. cbn. rewrite Er. cbn. rewrite Hcount. cbn [mbind option_bind]. eexists _, _. split; [reflexivity|].
  split; [|reflexivity]. rewrite <-Htot. split; try done; samples.
Qed.
End one.

(** *** In memory and in the stable maps *)

Lemma persist_indexed txs s sc g : indexed txs s g -> indexed txs s (persist_snapshot_sections_scoped s sc g).
Proof.
  intros []. split; try done.
  - intros key. rewrite <-ix_rollups0. unfold get_commitment_route_rollup. by rewrite persist_rollups.
  - rewrite persist_commitments. unfold flushed. destruct (has _ _); [|done]. by apply sync_known.
  - rewrite persist_raw. unfold flushed. destruct (has _ _); [|done]. by apply sync_known.
  - rewrite persist_neurons. unfold flushed. destruct (has _ _); [|done]. by apply sync_known.
Qed.

Record index_mem (txs : list IndexTransactionWithId) (m : Mem) : Prop := {
  im_indexed : indexed txs (st m) (storage m);
  im_depth : 0 <= persistence_batch_depth m;
}.

Lemma scoped_mem dirty t f txs m :
  indexed txs (f (st m)) (storage m) -> 0 <= persistence_batch_depth m ->
  let m' := with_state_mut_sections_scoped dirty t f m in
  index_mem txs m' /\ st m' = f (st m) /\ persistence_batch_depth m' = persistence_batch_depth m.
Proof.
  intros Hi Hd. unfold with_state_mut_sections_scoped. destruct (persistence_batch_active m); cbn [negb].
  - split; [split; done|done].
  - split; [split; [by apply persist_indexed|done]|done].
Qed.

(** A change of the root section that leaves what is indexed alone. *)
Lemma indexed_root txs s s' g : indexed txs s g ->
  qualifying_commitment_count s' = qualifying_commitment_count s -> recent_commitments s' = recent_commitments s ->
  recent_neuron_commitments s' = recent_neuron_commitments s ->
  recent_under_threshold_commitments s' = recent_under_threshold_commitments s ->
  recent_under_threshold_neuron_commitments s' = recent_under_threshold_neuron_commitments s ->
  recent_invalid_commitments s' = recent_invalid_commitments s -> commitment_history s' = commitment_history s ->
  raw_icp_commitment_history s' = raw_icp_commitment_history s -> neuron_commitment_history s' = neuron_commitment_history s ->
  indexed txs s' g.
Proof. intros [] E1 E2 E3 E4 E5 E6 E7 E8 E9. split; by rewrite ?E1, ?E2, ?E3, ?E4, ?E5, ?E6, ?E7, ?E8, ?E9. Qed.

Definition grows (txs txs' : list IndexTransactionWithId) (m : Mem) (r : option Mem) : Prop :=
  exists m', r = Some m' /\ index_mem (txs ++ txs') m' /\ index_view (st m') = index_view (st m)
    /\ persistence_batch_depth m' = persistence_batch_depth m.

Lemma with_parts_mem dirty t f txs tx m : applied txs tx (st m) (f (st m, storage m)) -> 0 <= persistence_batch_depth m ->
  grows txs [tx] m (with_parts (with_state_mut_sections_scoped dirty t) f m).
Proof.
  intros (s' & g' & E & Hi & Hv) Hd. unfold with_parts, grows. rewrite E. cbn [mbind option_bind].
  assert (Hi' : indexed (txs ++ [tx]) s' (storage (m <| storage := g' |>))) by exact Hi.
  destruct (scoped_mem dirty t (fun _ => s') (txs ++ [tx]) (m <| storage := g' |>) Hi' Hd) as (Hm & Es & Ed).
  eexists. split; [reflexivity|]. split; [done|]. split; [by rewrite Es|done].
Qed.

Lemma under_applied (f : State -> option State) txs tx s g : qualifying tx = None -> indexed txs s g ->
  (exists s', f s = Some s' /\ indexed txs s' g /\ index_view s' = index_view s) -> applied txs tx s (on_state f (s, g)).
Proof.
  intros Hq Hi (s' & E & Hi' & Hv). exists s', g. unfold on_state. cbn [fst snd]. rewrite E. split; [done|].
  split; [by apply indexed_other|done].
Qed.

Lemma push_under_fields item n (s : State) g txs : indexed txs s g ->
  exists s', push_under_threshold item n s = Some s' /\ indexed txs s' g /\ index_view s' = index_view s.
Proof.
  intros Hi. destruct (is_some_Some _ (ix_under_threshold _ _ _ Hi)) as [recent E]. unfold push_under_threshold. rewrite E.
  eexists. split; [reflexivity|]. split; [|done]. destruct Hi. by split.
Qed.
Lemma push_under_neuron_fields item n (s : State) g txs : indexed txs s g ->
  exists s', push_under_threshold_neuron item n s = Some s' /\ indexed txs s' g /\ index_view s' = index_view s.
Proof.
  intros Hi. destruct (is_some_Some _ (ix_under_threshold_neurons _ _ _ Hi)) as [recent E]. unfold push_under_threshold_neuron. rewrite E.
  eexists. split; [reflexivity|]. split; [|done]. destruct Hi. by split.
Qed.
Lemma push_invalid_fields item (s : State) g txs : indexed txs s g ->
  exists s', push_invalid item s = Some s' /\ indexed txs s' g /\ index_view s' = index_view s.
Proof.
  intros Hi. destruct (is_some_Some _ (ix_invalid _ _ _ Hi)) as [recent E]. unfold push_invalid. rewrite E.
  eexists. split; [reflexivity|]. split; [|done]. destruct Hi. by split.
Qed.

Lemma apply_under n (c : IndexedCommitment) txs tx s g : qualifying tx = None -> ic_counts_toward_faucet c = false -> indexed txs s g ->
  applied txs tx s (apply_recent_raw_or_neuron_commitment c n (s, g)).
Proof.
  intros Hq Eb Hi. unfold apply_recent_raw_or_neuron_commitment. destruct (ic_target c).
  - exists s, g. split; [done|]. split; [by apply indexed_other|done].
  - rewrite Eb. by apply (under_applied _ txs tx s g Hq Hi), push_under_fields.
  - rewrite Eb. by apply (under_applied _ txs tx s g Hq Hi), push_under_neuron_fields.
Qed.

Lemma apply_tx now_secs txs tx m : Forall amount_ok txs -> amount_ok tx -> ~ known_id txs (tx_id tx) -> index_mem txs m ->
  grows txs [tx] m (apply_indexed_commitment_tx staking_id min_tx_e8s now_secs tx m).
Proof.
  intros Ha Hatx Hnew [Hi Hd]. unfold apply_indexed_commitment_tx.
  destruct (indexed_commitment_from_tx tx staking_id min_tx_e8s) as [[c|c]|] eqn:Ec.
  - destruct (ic_counts_toward_faucet c) eqn:Eb.
    + assert (Hq : qualifying tx = Some c) by (unfold qualifying; by rewrite Ec, Eb).
      unfold apply_valid_commitment. rewrite Eb. destruct (ic_target c) eqn:Et; apply with_parts_mem; try done.
      * by eapply apply_top_up.
      * by eapply apply_raw_icp.
      * by eapply apply_neuron.
    + assert (Hq : qualifying tx = None) by (unfold qualifying; by rewrite Ec, Eb).
      unfold apply_valid_commitment. rewrite Eb. destruct (ic_target c) eqn:Et; apply with_parts_mem; try done; try by apply apply_under.
      apply (under_applied _ txs tx _ _ Hq Hi). by apply push_under_fields.
  - assert (Hq : qualifying tx = None) by (unfold qualifying; by rewrite Ec).
    apply with_parts_mem; [|done]. apply (under_applied _ txs tx _ _ Hq Hi). by apply push_invalid_fields.
  - assert (Hq : qualifying tx = None) by (unfold qualifying; by rewrite Ec).
    exists m. split; [done|]. split; [|done]. split; [by apply indexed_other|done].
Qed.

Lemma apply_all now_secs new txs m : Forall amount_ok (txs ++ new) -> NoDup (map tx_id (txs ++ new)) -> index_mem txs m ->
  grows txs new m (apply_transactions staking_id min_tx_e8s now_secs new m).
Proof.
  revert txs m. induction new as [|tx new IH]; intros txs m Ha Hn Hm.
  - exists m. rewrite app_nil_r. done.
  - cbn [apply_transactions]. assert (Hnew : ~ known_id txs (tx_id tx)).
    { unfold known_id. rewrite map_app in Hn. apply NoDup_app in Hn as (_ & Hn & _). intros Hin. apply (Hn _ Hin). cbn. set_solver. }
    replace (txs ++ tx :: new) with ((txs ++ [tx]) ++ new) in * by (by rewrite <-app_assoc).
    assert (Ha' : Forall amount_ok txs /\ amount_ok tx).
    { apply Forall_app in Ha as [Ha _]. apply Forall_app in Ha as [Ha Htx]. split; [done|]. by inversion Htx. }
    destruct (apply_tx now_secs txs tx m (proj1 Ha') (proj2 Ha') Hnew Hm) as (m1 & -> & Hm1 & Hv1 & Hd1). cbn [mbind option_bind].
    destruct (IH _ m1 Ha Hn Hm1) as (m2 & E2 & Hm2 & Hv2 & Hd2). exists m2. split; [done|]. rewrite <-app_assoc in Hm2. split; [done|].
    split; congruence.
Qed.

(** A batch around writes that keep the depth. *)
Lemma batched_mem f txs m (Q : State -> Prop) :
  0 <= persistence_batch_depth m ->
  (exists m', f (begin_persistence_batch m) = Some m' /\ index_mem txs m' /\ Q (st m') /\
     persistence_batch_depth m' = persistence_batch_depth (begin_persistence_batch m)) ->
  exists m', batched f m = Some m' /\ index_mem txs m' /\ Q (st m').
Proof.
  intros Hd (m' & E & [Hi Hd'] & HQ & Ed). unfold batched. rewrite E. cbn [mbind option_bind]. unfold drop_persistence_batch, finish_depth.
  rewrite Ed. change (persistence_batch_depth (begin_persistence_batch m)) with (begin_depth (persistence_batch_depth m)).
  unfold begin_depth. destruct (0 <? _) eqn:E0; [|apply Z.ltb_ge in E0; lia]. apply Z.ltb_lt in E0. eexists. split; [reflexivity|].
  destruct (_ && _); cbn zeta; [unfold persist_dirty_state; destruct (_ =? 0)|]; (split; [|exact HQ]); split; cbn; unfold const; try done; try lia.
  by apply persist_indexed.
Qed.

End indexed.
