(* ===== verification/HistorianRoutes.v ===== *)
(** * Historian: the indexer of the output and rewards routes

    [scheduler/route_transfer_indexer.rs], [scheduler/route_transfer_indexer_header.rs] and
    the main lease of [scheduler/tick.rs].  Two cursors per route as in [HistorianIndexer];
    a sweep record says which route is next. *)

From S2P Require Import Prelude BTree Async Ic Accounts Clients TimerGuard HistorianTypes HistorianKeys HistorianState HistorianIndexer HistorianWalk.

Definition MAIN_TICK_LEASE_SECONDS : Z := 15 * 60.

Inductive IndexedRouteKind := RouteOutput | RouteRewards.
#[export] Instance IndexedRouteKind_eq_dec : EqDecision IndexedRouteKind.
Proof. solve_decision. Defined.
Definition indexed_route_kinds : list IndexedRouteKind := [RouteOutput; RouteRewards].
Definition indexed_route_name (kind : IndexedRouteKind) : string :=
  match kind with RouteOutput => "output" | RouteRewards => "rewards" end.
Definition indexed_route_amount_from_tx (expected_from expected_to : list Z) (tx : IndexTransactionWithId) : option Z :=
  match tx_operation (transaction tx) with
  | IndexTransfer from_ to_ amount _ _ => then_some (bool_decide (from_ = expected_from) && bool_decide (to_ = expected_to)) amount
  | _ => None
  end.

Section routes.
Context `{P : PrincipalSpec} `{O : !OrdSpec Principal} `{SS : !SliceSpec} `{T : TextSpec} `{H : HashSpec}.
#[local] Existing Instance Principal_eq_dec.
Local Abbreviation async := (async Mem SuiteCall).

(** ** The main lease *)

Definition MainLeaseToken : Type := Z.
Definition main_is_current_in (lease : MainLeaseToken) (s : State) : bool := bool_decide (main_lock_state_ts s = Some lease).
Definition main_is_current (lease : MainLeaseToken) : async bool := read (main_is_current_in lease).
Definition acquire_main_in (now_secs : Z) (s : State) : option Timer.TimerLeaseGuard * State :=
  match Timer.acquire now_secs MAIN_TICK_LEASE_SECONDS (main_lock_state_ts s) with
  | None => (None, s)
  | Some inner => (Some inner, s <| main_lock_state_ts := Some (Timer.lease_expires_at_ts inner) |>)
  end.
(** [MainGuard::finish]; the released guard does nothing when it is dropped. *)
Definition finish_main_in (guard : Timer.TimerLeaseGuard) (now_secs : Z) (s : State) : bool * State :=
  match (Timer.release guard (main_lock_state_ts s)).1 with
  | Released => (true, s <| last_main_run_ts := now_secs |> <| main_lock_state_ts := Some 0 |>)
  | Unchanged => (false, s)
  end.
(** The drop of a guard that was not finished. *)
Definition drop_main_in (guard : Timer.TimerLeaseGuard) (s : State) : State :=
  match (Timer.release guard (main_lock_state_ts s)).1 with
  | Released => s <| main_lock_state_ts := Some 0 |>
  | Unchanged => s
  end.

(** ** The state of a route *)

Definition indexed_route_account (cfg : Config) (kind : IndexedRouteKind) : Account :=
  match kind with RouteOutput => output_account cfg | RouteRewards => rewards_account cfg end.
Definition indexed_route_cursor (s : State) (kind : IndexedRouteKind) : option Z :=
  match kind with RouteOutput => last_indexed_output_tx_id s | RouteRewards => last_indexed_rewards_tx_id s end.
Definition indexed_route_oldest_cursor (s : State) (kind : IndexedRouteKind) : option Z :=
  match kind with RouteOutput => oldest_indexed_output_tx_id s | RouteRewards => oldest_indexed_rewards_tx_id s end.
Definition indexed_route_order_descending (s : State) (kind : IndexedRouteKind) : option bool :=
  match kind with RouteOutput => output_route_index_descending s | RouteRewards => rewards_route_index_descending s end.
Definition indexed_route_backfill_complete (s : State) (kind : IndexedRouteKind) : bool :=
  default false (match kind with RouteOutput => output_route_backfill_complete s | RouteRewards => rewards_route_backfill_complete s end).
Definition indexed_route_catch_up (s : State) (kind : IndexedRouteKind) : option DescendingIndexCatchUp :=
  match kind with RouteOutput => active_output_catch_up s | RouteRewards => active_rewards_catch_up s end.
Definition set_indexed_route_catch_up (kind : IndexedRouteKind) (catch_up : option DescendingIndexCatchUp) (s : State) : State :=
  match kind with
  | RouteOutput => s <| active_output_catch_up := catch_up |>
  | RouteRewards => s <| active_rewards_catch_up := catch_up |>
  end.
Definition set_indexed_route_descending_progress (kind : IndexedRouteKind) (latest oldest : option Z) (backfill_complete : bool)
    (s : State) : State :=
  match kind with
  | RouteOutput =>
      s <| last_indexed_output_tx_id := latest |> <| oldest_indexed_output_tx_id := oldest |>
        <| output_route_index_descending := Some true |> <| output_route_backfill_complete := Some backfill_complete |>
  | RouteRewards =>
      s <| last_indexed_rewards_tx_id := latest |> <| oldest_indexed_rewards_tx_id := oldest |>
        <| rewards_route_index_descending := Some true |> <| rewards_route_backfill_complete := Some backfill_complete |>
  end.
(** [None]: the total is missing, a panic. *)
Definition route_total (s : State) (kind : IndexedRouteKind) : option Z :=
  match kind with RouteOutput => total_output_e8s s | RouteRewards => total_rewards_e8s s end.
Definition add_indexed_route_amount (kind : IndexedRouteKind) (amount_e8s : Z) (s : State) : option State :=
  total ← route_total s kind;
  Some (match kind with
        | RouteOutput => s <| total_output_e8s := Some (sat_add total amount_e8s) |>
        | RouteRewards => s <| total_rewards_e8s := Some (sat_add total amount_e8s) |>
        end).

(** ** The sweep *)

Definition sweep_eqb (a b : ActiveRouteSweep) : bool :=
  (route_started_at_ts_nanos a =? route_started_at_ts_nanos b) && (route_next_index a =? route_next_index b).
Definition route_work_is_current (lease : MainLeaseToken) (expected : ActiveRouteSweep) (s : State) : bool :=
  main_is_current_in lease s && is_some_and (active_route_sweep s) (fun current => sweep_eqb current expected).

Context (index : Principal).

(** A page that is at hand, or a fresh one: [None] when the work is no longer current. *)
Definition route_page (kind : IndexedRouteKind) (route_id : list Z) (first_page : option IndexPage) (start : option Z)
    (lease : MainLeaseToken) (active : ActiveRouteSweep) : async (option (result IndexPage string)) :=
  match first_page with
  | Some page => mret (Some (Ok page))
  | None =>
      r ← get_account_identifier_transactions index route_id start PAGE_SIZE;
      current ← read (route_work_is_current lease active);
      mret (if current : bool then Some (match collapse r with
        | Ok page => Ok page
        | Err e => Err (indexed_route_name kind ++ " route index call failed: " ++ display_error e)%string end)
      else None)
  end.

(** Each amount is a write of the root section. *)
Fixpoint add_amounts (kind : IndexedRouteKind) (source_id route_id : list Z) (txs : list IndexTransactionWithId) (m : Mem) : option Mem :=
  match txs with
  | [] => Some m
  | tx :: txs =>
      m ← (match indexed_route_amount_from_tx source_id route_id tx with
           | Some amount => s ← add_indexed_route_amount kind amount (st m); Some (with_root_state_mut (fun _ => s) m)
           | None => Some m
           end);
      add_amounts kind source_id route_id txs m
  end.

Definition commit_route_catch_up (kind : IndexedRouteKind) (source_id route_id : list Z) (oldest_cursor : option Z)
    (progress : DescendingIndexCatchUp) (page : IndexPage) (m : Mem) : option Mem :=
  batched (fun m =>
    m ← add_amounts kind source_id route_id (rev (above (boundary_tx_id progress) (transactions page)).1) m;
    let (progress, page_is_terminal) := catch_up_after progress page in
    Some (with_root_state_mut (fun s =>
      if page_is_terminal : bool then
        set_indexed_route_descending_progress kind (Some (observed_head_tx_id progress)) oldest_cursor true
          (set_indexed_route_catch_up kind None s)
      else set_indexed_route_catch_up kind (Some progress) s) m)) m.
Definition finish_route_catch_up (kind : IndexedRouteKind) (oldest_cursor : option Z) (progress : DescendingIndexCatchUp) (m : Mem) :
    option Mem :=
  batched (fun m => Some (with_root_state_mut (fun s =>
    set_indexed_route_descending_progress kind (Some (observed_head_tx_id progress)) oldest_cursor true
      (set_indexed_route_catch_up kind None s)) m)) m.
Definition commit_route_backfill (kind : IndexedRouteKind) (source_id route_id : list Z) (items : list IndexTransactionWithId)
    (latest_cursor oldest_cursor : option Z) (m : Mem) : option Mem :=
  batched (fun m =>
    m ← add_amounts kind source_id route_id (rev items) m;
    Some (with_root_state_mut (set_indexed_route_descending_progress kind latest_cursor oldest_cursor false) m)) m.

(** What a loop hands on: the run is over, or the route was completed or not. *)
Inductive Flow := Done (r : result unit string) | Continue (completed : bool).

Fixpoint route_catch_up_loop (kind : IndexedRouteKind) (source_id route_id : list Z) (oldest_cursor : option Z) (lease : MainLeaseToken)
    (active : ActiveRouteSweep) (remaining_pages : nat) (catch_up : option DescendingIndexCatchUp) (first_page : option IndexPage) :
    async Flow :=
  match remaining_pages, catch_up with
  | S remaining_pages, Some progress =>
      r ← route_page kind route_id first_page (next_start_tx_id progress) lease active;
      match r with
      | None => mret (Done (Ok tt))
      | Some (Err e) => mret (Done (Err e))
      | Some (Ok page) =>
          match transactions page with
          | [] => _ ← commit (finish_route_catch_up kind oldest_cursor progress); mret (Continue true)
          | _ =>
              _ ← commit (commit_route_catch_up kind source_id route_id oldest_cursor progress page);
              let (progress, page_is_terminal) := catch_up_after progress page in
              if page_is_terminal : bool then mret (Continue true)
              else route_catch_up_loop kind source_id route_id oldest_cursor lease active remaining_pages (Some progress) None
          end
      end
  | _, _ => mret (Continue false)
  end.

(** The cursors and the two flags after the loop; [inl]: the run is over. *)
Fixpoint route_backfill_loop (kind : IndexedRouteKind) (source_id route_id : list Z) (lease : MainLeaseToken) (active : ActiveRouteSweep)
    (remaining_pages : nat) (latest_cursor oldest_cursor : option Z) (first_page : option IndexPage) :
    async (result unit string + option Z * option Z * bool) :=
  match remaining_pages with
  | 0%nat => mret (inr (latest_cursor, oldest_cursor, false))
  | S remaining_pages =>
      r ← route_page kind route_id first_page oldest_cursor lease active;
      match r with
      | None => mret (inl (Ok tt))
      | Some (Err e) => mret (inl (Err e))
      | Some (Ok page) =>
          match transactions page, older_items oldest_cursor page with
          | [], _ | _, [] => mret (inr (latest_cursor, oldest_cursor, true))
          | _, items =>
              let latest_cursor := raise latest_cursor (max_id items) in
              let oldest_cursor := lower oldest_cursor (min_id items) in
              _ ← commit (commit_route_backfill kind source_id route_id items latest_cursor oldest_cursor);
              if is_short page then mret (inr (latest_cursor, oldest_cursor, true))
              else route_backfill_loop kind source_id route_id lease active remaining_pages latest_cursor oldest_cursor None
          end
      end
  end.

Definition begin_route_sweep (lease : MainLeaseToken) (started_at_ts_nanos : Z) (s : State) : option ActiveRouteSweep * State :=
  if main_is_current_in lease s then
    match active_route_sweep s with
    | Some active => (Some active, s)
    | None => let active := MkRouteSweep started_at_ts_nanos 0 in (Some active, s <| active_route_sweep := Some active |>)
    end
  else (None, s).
Definition end_route_sweep (now_secs : Z) (s : State) : State :=
  s <| active_route_sweep := None |> <| last_completed_route_sweep_ts := Some now_secs |>.
Definition advance_route_sweep (lease : MainLeaseToken) (active : ActiveRouteSweep) (now_secs : Z) (s : State) : State :=
  if route_work_is_current lease active s then
    let next := sat_add (route_next_index active) 1 in
    if Z.of_nat (length indexed_route_kinds) <=? next then end_route_sweep now_secs s
    else s <| active_route_sweep := Some (MkRouteSweep (route_started_at_ts_nanos active) next) |>
  else s.

Definition unsupported_route_order (kind : IndexedRouteKind) : string :=
  ("unsupported persisted ascending " ++ indexed_route_name kind ++ " route-index pagination state; historical coverage cannot be proven under the configured newest-first ICP Index contract")%string.

(** The page that establishes the order of a route; none is needed afterwards. *)
Definition first_route_page (cfg : Config) (kind : IndexedRouteKind) (order_descending : option bool) (lease : MainLeaseToken)
    (active : ActiveRouteSweep) : async (option (result (option IndexPage) string)) :=
  if is_none order_descending then
    r ← route_page kind (account_identifier_text_for_account (indexed_route_account cfg kind)) None None lease active;
    mret (match r with
          | None => None
          | Some (Ok page) => Some (Ok (Some page))
          | Some (Err e) => Some (Err e)
          end)
  else mret (Some (Ok None)).

(** The walk of one route, from its cursors on. *)
Definition walk_route (cfg : Config) (kind : IndexedRouteKind) (lease : MainLeaseToken) (active : ActiveRouteSweep)
    (latest_cursor oldest_cursor : option Z) (backfill_complete : bool) (first_page : option IndexPage) : async Flow :=
  let source_id := account_identifier_text_for_account (output_source_account cfg) in
  let route_id := account_identifier_text_for_account (indexed_route_account cfg kind) in
  let remaining_pages := page_budget (max_index_pages_per_tick cfg) in
  if is_some latest_cursor && backfill_complete then
    catch_up ← read (fun s => indexed_route_catch_up s kind);
    route_catch_up_loop kind source_id route_id oldest_cursor lease active remaining_pages
      (seed_catch_up catch_up latest_cursor) first_page
  else
    r ← (if backfill_complete then mret (inr (latest_cursor, oldest_cursor, true))
         else route_backfill_loop kind source_id route_id lease active remaining_pages latest_cursor oldest_cursor first_page);
    match r with
    | inl r => mret (Done r)
    | inr (latest_cursor, oldest_cursor, complete) =>
        _ ← root (fun s => if route_work_is_current lease active s
                           then set_indexed_route_descending_progress kind latest_cursor oldest_cursor complete s else s);
        mret (Continue (complete && negb backfill_complete))
    end.

Definition process_route_indexing (started_at_ts_nanos now_secs : Z) (lease : MainLeaseToken) : async (result unit string) :=
  cfg ← read config;
  active ← root_result (begin_route_sweep lease started_at_ts_nanos);
  match active with
  | None => mret (Ok tt)
  | Some active =>
      match indexed_route_kinds !! Z.to_nat (route_next_index active) with
      | None =>
          _ ← root (fun s => if route_work_is_current lease active s then end_route_sweep now_secs s else s);
          mret (Ok tt)
      | Some kind =>
          s ← read (fun s => s);
          let latest_cursor := indexed_route_cursor s kind in
          let oldest_cursor := seed_oldest latest_cursor (indexed_route_oldest_cursor s kind) in
          let reopened := indexed_route_backfill_complete s kind && is_none latest_cursor in
          let backfill_complete := indexed_route_backfill_complete s kind && negb reopened in
          _ ← (if reopened then
                 root (fun s => if route_work_is_current lease active s
                                then set_indexed_route_descending_progress kind None None false s else s)
               else mret tt);
          if bool_decide (indexed_route_order_descending s kind = Some false) then mret (Err (unsupported_route_order kind))
          else
            first ← first_route_page cfg kind (indexed_route_order_descending s kind) lease active;
            match first with
            | None => mret (Ok tt)
            | Some (Err e) => mret (Err e)
            | Some (Ok first_page) =>
                flow ← walk_route cfg kind lease active latest_cursor oldest_cursor backfill_complete first_page;
                match flow with
                | Done r => mret r
                | Continue completed =>
                    _ ← (if completed : bool then root (advance_route_sweep lease active now_secs) else mret tt);
                    mret (Ok tt)
                end
            end
      end
  end.

End routes.
