(* ===== verification/HistorianReturns.v ===== *)
(** * Historian: the indexers return

    Whatever the index answers (errors, pages out of order, pages that contradict earlier
    ones), a run of either indexer returns: its batches close, its loops end within the page
    budget and the counters it unwraps stay there. *)

From S2P Require Import Prelude BTree Async Ic Accounts Clients MemoPolicy CyclesProbe Quiet TimerGuard HistorianTypes HistorianKeys HistorianState HistorianDurable HistorianTracking HistorianCommitments HistorianIndexer HistorianWalk HistorianIndexed HistorianRoutes.

Section returns.
Context `{P : PrincipalSpec} `{O : !OrdSpec Principal} `{SS : !SliceSpec} `{T : TextSpec} `{H : HashSpec} {EH : EventHorizon}.
#[local] Existing Instance Principal_eq_dec.

(** ** What the code unwraps *)

Definition flags (s : State) : list bool :=
  [is_some (qualifying_commitment_count s); is_some (recent_commitments s); is_some (recent_neuron_commitments s);
   is_some (recent_under_threshold_commitments s); is_some (recent_under_threshold_neuron_commitments s);
   is_some (recent_invalid_commitments s); is_some (total_output_e8s s); is_some (total_rewards_e8s s)].
Definition present (s : State) : Prop := flags s = replicate 8 true.
Definition sweeps (s : State) := (active_cycles_sweep s, active_sns_discovery s).
(** Between two messages: the counters are there and no batch is open. *)
Definition usable (m : Mem) : Prop := present (st m) /\ persistence_batch_depth m = 0.

(** The counters, the sweeps and the configuration stay. *)
Definition rest (s : State) := (flags s, sweeps s, config s).
Record rest_kept (m m' : Mem) : Prop := {
  rk_rest : rest (st m') = rest (st m);
  rk_depth : persistence_batch_depth m' = persistence_batch_depth m;
}.
Lemma rest_kept_refl m : rest_kept m m.
Proof using. by split. Qed.
Lemma rest_kept_trans m1 m2 m3 : rest_kept m1 m2 -> rest_kept m2 m3 -> rest_kept m1 m3.
Proof using. intros [] []. split; congruence. Qed.
Lemma rest_present s s' : rest s' = rest s -> present s -> present s'.
Proof using. unfold present. intros E <-. exact (f_equal (fun r => r.1.1) E). Qed.
Lemma rest_kept_usable m m' : rest_kept m m' -> usable m -> usable m'.
Proof using. intros [Er Ed] [Hp Hd]. split; [by eapply rest_present|by rewrite Ed]. Qed.

Lemma scoped_rest dirty t f m : rest (f (st m)) = rest (st m) -> rest_kept m (with_state_mut_sections_scoped dirty t f m).
Proof using. intros Hf. unfold with_state_mut_sections_scoped. by destruct (persistence_batch_active m); cbn [negb]; split. Qed.
Lemma root_rest f m : rest (f (st m)) = rest (st m) -> rest_kept m (with_root_state_mut f m).
Proof using. apply scoped_rest. Qed.

(** ** Writes that cannot panic *)

Definition total {A} (state : A -> State) (f : A -> option A) : Prop :=
  forall a, present (state a) -> exists a', f a = Some a' /\ rest (state a') = rest (state a).
Abbreviation total_state := (total (fun s : State => s)).
Abbreviation total_parts := (total (fun sg : Parts => sg.1)).
Definition total_mem (f : Mem -> option Mem) : Prop :=
  forall m, present (st m) -> exists m', f m = Some m' /\ rest_kept m m'.

Lemma total_bind {A} (state : A -> State) (f g : A -> option A) :
  total state f -> total state g -> total state (fun a => a ← f a; g a).
Proof using.
  intros Hf Hg a Ha. destruct (Hf a Ha) as (a1 & -> & E1). cbn. destruct (Hg a1) as (a2 & -> & E2); [by eapply rest_present|].
  exists a2. split; [done|congruence].
Qed.
Lemma total_some {A} (state : A -> State) (f : A -> A) : (forall a, rest (state (f a)) = rest (state a)) -> total state (fun a => Some (f a)).
Proof using. intros Hf a _. by exists (f a). Qed.

Local Ltac push :=
  intros s Hs; injection Hs as ? ? ? ? ? ? ? ?;
  match goal with |- context [?o ≫= _] => let E := fresh in
    destruct o eqn:E; [|done]; eexists; split; [reflexivity|]; unfold rest, flags, sweeps; cbn; rewrite ?E; reflexivity end.
Lemma total_qualifying item n : total_state (push_qualifying item n).
Proof using. unfold push_qualifying. push. Qed.
Lemma total_qualifying_neuron item n : total_state (push_qualifying_neuron item n).
Proof using. unfold push_qualifying_neuron. push. Qed.
Lemma total_under item n : total_state (push_under_threshold item n).
Proof using. unfold push_under_threshold. push. Qed.
Lemma total_under_neuron item n : total_state (push_under_threshold_neuron item n).
Proof using. unfold push_under_threshold_neuron. push. Qed.
Lemma total_invalid item : total_state (push_invalid item).
Proof using. unfold push_invalid. push. Qed.
Lemma total_count : total_state count_qualifying.
Proof using. unfold count_qualifying. push. Qed.

Lemma rest_refresh g p s : rest (refresh_memo_registered_canister_summary g p s) = rest s.
Proof using. by destruct (refresh_fields g p s) as (cache & i & ->). Qed.
Lemma rest_enqueue p s : rest (enqueue_initial_cycles_probe p s) = rest s.
Proof using. by destruct (enqueue_fields p s) as (queue & ->). Qed.

Lemma total_top_up c p now_secs : total_state (count_top_up c p now_secs).
Proof using.
  intros s Hs. unfold count_top_up. cbv zeta. set (s0 := s <| per_canister_meta ::= _ |>).
  destruct (total_qualifying (recent_of c p None None true) MAX_RECENT_QUALIFYING_COMMITMENTS s0 Hs) as (s1 & -> & E1). cbn [mbind option_bind].
  destruct (total_count s1) as (s2 & -> & E2); [by eapply rest_present, Hs|]. cbn [mbind option_bind]. eexists. split; [reflexivity|].
  destruct (is_none _); rewrite ?rest_enqueue, E2, E1; done.
Qed.
Lemma total_verified c now_secs : total_parts (apply_verified_qualifying_commitment c now_secs).
Proof using.
  intros [s g] Hs. unfold apply_verified_qualifying_commitment. destruct (ic_target c) as [p| |]; [|by eexists..]. cbv zeta.
  destruct (push_commitment _ _ _) as [inserted history]. destruct inserted; cbn [orb].
  - match goal with |- context [count_top_up c p now_secs ?s1] => destruct (total_top_up c p now_secs s1 Hs) as (s2 & -> & E2) end.
    cbn [mbind option_bind]. eexists. split; [reflexivity|]. cbn [fst]. by rewrite rest_refresh.
  - cbn [mbind option_bind]. eexists. split; [reflexivity|]. cbn [fst]. destruct (contains_key _ _); [by rewrite rest_refresh|done].
Qed.
Lemma total_recent c n : total_parts (apply_recent_raw_or_neuron_commitment c n).
Proof using.
  assert (Hboth : forall f g s, total_state f -> total_state g -> present s -> exists s1, f s = Some s1 /\ rest s1 = rest s /\
    exists s2, g s1 = Some s2 /\ rest s2 = rest s).
  { intros f g s Hf Hg Hs. destruct (Hf s Hs) as (s1 & E1 & R1). exists s1. split; [done|]. split; [done|].
    destruct (Hg s1) as (s2 & E2 & R2); [by eapply rest_present|]. exists s2. split; [done|congruence]. }
  intros [s g] Hs. unfold apply_recent_raw_or_neuron_commitment. destruct (ic_target c) as [p|p sub memo|n' memo]; [by eexists|..]; cbv zeta;
    (destruct (ic_counts_toward_faucet c); [destruct (push_commitment _ _ _) as [[|] history]|]); try by eexists.
  - match goal with |- context [push_qualifying ?item ?n ?s1] =>
      destruct (Hboth _ _ s1 (total_qualifying item n) total_count Hs) as (s2 & -> & _ & s3 & E3 & R3) end.
    cbn [mbind option_bind]. rewrite E3. by eexists.
  - destruct (total_under (recent_of c p (Some memo) sub false) n s Hs) as (s1 & -> & E1). by eexists.
  - match goal with |- context [push_qualifying_neuron ?item ?n ?s1] =>
      destruct (Hboth _ _ s1 (total_qualifying_neuron item n) total_count Hs) as (s2 & -> & _ & s3 & E3 & R3) end.
    cbn [mbind option_bind]. rewrite E3. by eexists.
  - destruct (total_under_neuron (recent_neuron_of c n' memo false) n s Hs) as (s1 & -> & E1). by eexists.
Qed.
Lemma total_on_state f : total_state f -> total_parts (on_state f).
Proof using. intros Hf [s g] Hs. unfold on_state. cbn [fst snd]. destruct (Hf s Hs) as (s1 & -> & E1). by eexists. Qed.
Lemma total_with_parts dirty t f : total_parts f -> total_mem (with_parts (with_state_mut_sections_scoped dirty t) f).
Proof using.
  intros Hf m Hm. unfold with_parts. destruct (Hf (st m, storage m) Hm) as ([s g] & -> & E). cbn [mbind option_bind]. eexists.
  split; [reflexivity|]. set (m1 := m <| storage := g |>). destruct (scoped_rest dirty t (fun _ => s) m1 E) as [Er Ed]. by split.
Qed.

Lemma total_apply_tx staking_id min now_secs tx : total_mem (apply_indexed_commitment_tx staking_id min now_secs tx).
Proof using.
  unfold apply_indexed_commitment_tx. intros m Hm. destruct (indexed_commitment_from_tx tx staking_id min) as [[c|c]|].
  - unfold apply_valid_commitment. destruct (ic_target c), (ic_counts_toward_faucet c); apply total_with_parts;
      auto using total_verified, total_recent, total_on_state, total_under.
  - apply total_with_parts; [apply total_on_state, total_invalid|done].
  - exists m. split; [done|apply rest_kept_refl].
Qed.
Lemma total_apply_txs staking_id min now_secs txs : total_mem (apply_transactions staking_id min now_secs txs).
Proof using.
  induction txs as [|tx txs IH]; intros m Hm; cbn [apply_transactions]; [exists m; split; [done|apply rest_kept_refl]|].
  destruct (total_apply_tx staking_id min now_secs tx m Hm) as (m1 & -> & K1). cbn [mbind option_bind].
  destruct (IH m1) as (m2 & -> & K2); [by eapply rest_present, Hm; apply K1|]. exists m2. split; [done|by eapply rest_kept_trans].
Qed.

(** The writes of the route indexer. *)
Lemma total_add_amounts kind source route txs : total_mem (add_amounts kind source route txs).
Proof using.
  induction txs as [|tx txs IH]; intros m Hm; cbn [add_amounts]; [exists m; split; [done|apply rest_kept_refl]|].
  destruct (indexed_route_amount_from_tx source route tx) as [amount|]; cbn [mbind option_bind]; [|by apply IH].
  assert (Ha : exists s, add_indexed_route_amount kind amount (st m) = Some s /\ rest s = rest (st m)).
  { clear IH. unfold add_indexed_route_amount, route_total. injection Hm as ? ? ? ? ? ? ? ?.
    destruct kind; [destruct (total_output_e8s (st m)) eqn:E|destruct (total_rewards_e8s (st m)) eqn:E]; try done;
      eexists; (split; [reflexivity|]); unfold rest, flags, sweeps; cbn; by rewrite E. }
  destruct Ha as (s & -> & Er). cbn [mbind option_bind]. pose proof (root_rest (fun _ => s) m Er) as K1.
  destruct (IH (with_root_state_mut (fun _ => s) m)) as (m2 & -> & K2); [by eapply rest_present, Hm; apply K1|].
  exists m2. split; [done|by eapply rest_kept_trans].
Qed.

(** A batch outside any other closes. *)
Lemma total_batched f m : total_mem f -> usable m -> exists m', batched f m = Some m' /\ rest_kept m m'.
Proof using.
  intros Hf [Hp Hd]. unfold batched. destruct (Hf (begin_persistence_batch m) Hp) as (m1 & -> & [Er Ed]). cbn [mbind option_bind].
  change (persistence_batch_depth (begin_persistence_batch m)) with (begin_depth (persistence_batch_depth m)) in Ed. rewrite Hd in Ed.
  change (begin_depth 0) with 1 in Ed. unfold drop_persistence_batch, finish_depth. rewrite Ed.
  change (0 <? 1) with true. cbv iota. eexists. split; [reflexivity|]. set (m2 := m1 <| persistence_batch_depth := 1 - 1 |>).
  assert (K : rest_kept m m2) by (split; [exact Er|by rewrite Hd]).
  destruct (_ && _); [|exact K]. unfold persist_dirty_state. by destruct (_ =? 0).
Qed.
End returns.

Lemma keeps_and_then {St} {Call : Type -> Type} (e : env St Call) I {A B} (m : async St Call (result A string)) (f : A -> async St Call (result B string)) :
  keeps e I m -> (forall a, keeps e I (f a)) -> keeps e I (and_then m f).
Proof. intros Hm Hf. unfold and_then. apply keeps_bind; [done|]. intros [a|msg]; [apply Hf|apply quiet_ret]. Qed.

(** One step through the indexers. *)
Ltac returns_step :=
  lazymatch goal with
  | |- keeps _ _ (and_then _ _) => apply keeps_and_then
  | |- keeps _ _ (let _ := _ in _) => cbv zeta
  | _ => keeps_step
  end.
Ltac returns := repeat returns_step.

(** ** The runs of both indexers *)

Section runs.
Context `{P : PrincipalSpec} `{O : !OrdSpec Principal} `{SS : !SliceSpec} `{T : TextSpec} `{H : HashSpec} {EH : EventHorizon}.
#[local] Existing Instance Principal_eq_dec.

(** Code whose invariant survives the calls and the writes that keep the counters. *)
Context (e : env Mem SuiteCall) (I : world Mem SuiteCall -> Prop).
Context (Hcall : forall X (c : SuiteCall X) w, I w -> I (after_call e c w)).
Context (Husable : forall w, I w -> usable (w_state w)).
Context (Hwrite : forall w m', I w -> rest_kept (w_state w) m' -> I (World m' (w_trace w))).

Lemma returns_read {A} (f : State -> A) : keeps e I (read f).
Proof using. apply keeps_with_state. Qed.
Lemma returns_root f : (forall s, rest (f s) = rest s) -> keeps e I (root f).
Proof using Hwrite. intros Hf w Hw. apply wp_modify, (Hwrite w); [done|]. by apply root_rest. Qed.
Lemma returns_root_result {A} (f : State -> A * State) : (forall s, rest (f s).2 = rest s) -> keeps e I (root_result f).
Proof using Hwrite. intros Hf w Hw. apply wp_with_state_mut, (Hwrite w); [done|]. by apply (root_rest (fun s => (f s).2)). Qed.
Lemma returns_commit f : total_mem f -> keeps e I (commit (batched f)).
Proof using Hwrite Husable.
  intros Hf w Hw. apply commit_ok. destruct (total_batched f _ Hf (Husable _ Hw)) as (m' & E & K). exists m'. split; [done|]. by apply (Hwrite w).
Qed.
Lemma returns_transactions index a start n : keeps e I (get_account_identifier_transactions index a start n).
Proof using Hcall.
  unfold get_account_identifier_transactions. apply keeps_bind; [|keeps]. intros w Hw. apply wp_await. intros r s _ ->.
  exact (Hcall _ (GetTransactions index a start n) w Hw).
Qed.
#[local] Hint Resolve returns_read returns_transactions : keeps.

(** *** The staking account *)

Context (index : Principal).
Section staking.
Context (lease_now_secs : async Mem SuiteCall Z) (Hclock : keeps e I lease_now_secs).

Lemma returns_call_index staking_id start lease : keeps e I (call_index index lease_now_secs staking_id start lease).
Proof using Hcall Hwrite Hclock.
  unfold call_index, renew_current_commitment_index_lease. returns. apply returns_root_result. intros s. unfold renew_in. by destruct (is_current_in _ _).
Qed.
Lemma returns_require lease : keeps e I (require_current_commitment_index_lease lease).
Proof using. unfold require_current_commitment_index_lease, is_current. returns. Qed.
#[local] Hint Resolve returns_call_index returns_require : keeps.
Lemma returns_next_page staking_id first start lease : keeps e I (next_page index lease_now_secs staking_id first start lease).
Proof using Hcall Hwrite Hclock. unfold next_page. returns. Qed.
Lemma returns_advance : keeps e I (modify advance_commitment_index_revision).
Proof using Hwrite. intros w Hw. apply wp_modify, (Hwrite w); [done|]. by apply root_rest. Qed.
Lemma returns_finish_catch_up progress : keeps e I (commit (finish_catch_up progress)).
Proof using Hwrite Husable.
  apply returns_commit. intros m Hm. eexists. split; [reflexivity|]. eapply rest_kept_trans; by apply root_rest.
Qed.
Lemma returns_commit_catch_up staking_id min now_secs progress page : keeps e I (commit (commit_catch_up staking_id min now_secs progress page)).
Proof using Hwrite Husable.
  apply returns_commit. intros m Hm.
  destruct (total_apply_txs staking_id min now_secs (rev (above (boundary_tx_id progress) (transactions page)).1) m Hm) as (m1 & E & K1).
  unfold apply_commitment_transactions_in_chronological_order. rewrite E. cbn [mbind option_bind]. destruct (catch_up_after progress page) as [p b].
  eexists. split; [reflexivity|]. eapply rest_kept_trans; [exact K1|]. eapply rest_kept_trans; [|by apply root_rest]. apply root_rest. by destruct b.
Qed.
Lemma returns_commit_backfill staking_id min now_secs items l o : keeps e I (commit (commit_backfill staking_id min now_secs items l o)).
Proof using Hwrite Husable.
  apply returns_commit. intros m Hm. destruct (total_apply_txs staking_id min now_secs (rev items) m Hm) as (m1 & E & K1).
  unfold apply_commitment_transactions_in_chronological_order. rewrite E. cbn [mbind option_bind].
  eexists. split; [reflexivity|]. eapply rest_kept_trans; [exact K1|]. eapply rest_kept_trans; by apply root_rest.
Qed.
#[local] Hint Resolve returns_next_page returns_advance returns_finish_catch_up returns_commit_catch_up returns_commit_backfill : keeps.

Lemma returns_catch_up_loop staking_id min now_secs n : forall c latest first lease,
  keeps e I (catch_up_loop index lease_now_secs staking_id min now_secs n c latest first lease).
Proof using Hcall Hwrite Husable Hclock. induction n as [|n IH]; intros; cbn [catch_up_loop]; returns; apply IH. Qed.
Lemma returns_backfill_loop staking_id min now_secs n : forall l o first lease,
  keeps e I (backfill_loop index lease_now_secs staking_id min now_secs n l o first lease).
Proof using Hcall Hwrite Husable Hclock. induction n as [|n IH]; intros; cbn [backfill_loop]; returns; apply IH. Qed.
#[local] Hint Resolve returns_catch_up_loop returns_backfill_loop : keeps.

Lemma returns_seeded now_secs cfg staking_id l o complete first lease :
  keeps e I (process_commitment_indexing_descending_seeded index lease_now_secs now_secs cfg staking_id l o complete first lease).
Proof using Hcall Hwrite Husable Hclock.
  unfold process_commitment_indexing_descending_seeded. returns; apply returns_root; intros s'; [done|].
  unfold finish_indexing. by destruct (_ && _).
Qed.
Lemma returns_staking now_secs max_pages lease :
  keeps e I (process_commitment_indexing_bounded index lease_now_secs now_secs max_pages lease).
Proof using Hcall Hwrite Husable Hclock.
  unfold process_commitment_indexing_bounded. returns; try (by apply returns_root; intros). apply returns_seeded.
Qed.
End staking.

(** *** The routes *)

Lemma returns_route_page kind route first start lease active : keeps e I (route_page index kind route first start lease active).
Proof using Hcall. unfold route_page. returns. Qed.
Lemma returns_finish_route_catch_up kind o progress : keeps e I (commit (finish_route_catch_up kind o progress)).
Proof using Hwrite Husable.
  apply returns_commit. intros m Hm. eexists. split; [reflexivity|]. apply root_rest. by destruct kind.
Qed.
Lemma returns_commit_route_catch_up kind source route o progress page :
  keeps e I (commit (commit_route_catch_up kind source route o progress page)).
Proof using Hwrite Husable.
  apply returns_commit. intros m Hm.
  destruct (total_add_amounts kind source route (rev (above (boundary_tx_id progress) (transactions page)).1) m Hm) as (m1 & -> & K1).
  cbn [mbind option_bind]. destruct (catch_up_after progress page) as [p b].
  eexists. split; [reflexivity|]. eapply rest_kept_trans; [exact K1|]. apply root_rest. by destruct b, kind.
Qed.
Lemma returns_commit_route_backfill kind source route items l o :
  keeps e I (commit (commit_route_backfill kind source route items l o)).
Proof using Hwrite Husable.
  apply returns_commit. intros m Hm. destruct (total_add_amounts kind source route (rev items) m Hm) as (m1 & -> & K1).
  cbn [mbind option_bind]. eexists. split; [reflexivity|]. eapply rest_kept_trans; [exact K1|]. apply root_rest. by destruct kind.
Qed.
#[local] Hint Resolve returns_route_page returns_finish_route_catch_up returns_commit_route_catch_up returns_commit_route_backfill : keeps.

Lemma returns_route_catch_up_loop kind source route o lease active n : forall c first,
  keeps e I (route_catch_up_loop index kind source route o lease active n c first).
Proof using Hcall Hwrite Husable. induction n as [|n IH]; intros; cbn [route_catch_up_loop]; returns; apply IH. Qed.
Lemma returns_route_backfill_loop kind source route lease active n : forall l o first,
  keeps e I (route_backfill_loop index kind source route lease active n l o first).
Proof using Hcall Hwrite Husable. induction n as [|n IH]; intros; cbn [route_backfill_loop]; returns; apply IH. Qed.
#[local] Hint Resolve returns_route_catch_up_loop returns_route_backfill_loop : keeps.

Lemma returns_walk_route cfg kind lease active l o complete first :
  keeps e I (walk_route index cfg kind lease active l o complete first).
Proof using Hcall Hwrite Husable.
  unfold walk_route. returns. apply returns_root. intros s. destruct (route_work_is_current _ _ _); [by destruct kind|done].
Qed.
Lemma returns_routes started_at_ts_nanos now_secs lease : keeps e I (process_route_indexing index started_at_ts_nanos now_secs lease).
Proof using Hcall Hwrite Husable.
  unfold process_route_indexing, first_route_page. returns.
  - apply returns_root_result. intros s. unfold begin_route_sweep. destruct (main_is_current_in _ _); [by destruct (active_route_sweep s)|done].
  - apply returns_root. intros s. destruct (route_work_is_current _ _ _); [by destruct i|done].
  - apply returns_walk_route.
  - apply returns_root. intros s. unfold advance_route_sweep. cbv zeta. destruct (route_work_is_current _ _ _); [|done]. by destruct (_ <=? _).
  - apply returns_root. intros s. by destruct (route_work_is_current _ _ _).
Qed.
End runs.

(** Between two messages of a run, the counters are there and no batch is open. *)
Lemma committed_usable_call `{P : PrincipalSpec} (e : env Mem SuiteCall) (Hothers : forall n m, usable m -> usable (env_interleave e n m)) X (c : SuiteCall X) w :
  committed usable w -> committed usable (after_call e c w).
Proof. by apply committed_call. Qed.
Lemma committed_usable_write `{P : PrincipalSpec} (w : world Mem SuiteCall) m' :
  committed usable w -> rest_kept (w_state w) m' -> committed usable (World m' (w_trace w)).
Proof. intros Hw Hk. apply committed_update; [done|]. by eapply rest_kept_usable, Hw. Qed.

Lemma keeps_returns {St Call A} (e : env St Call) I (m : async St Call A) w : keeps e I m -> I w ->
  exists a w', m e w = (Returned a, w') /\ I w'.
Proof. intros Hm Hw. exact (wp_returns e m _ w (Hm w Hw)). Qed.
