(* ===== verification/HistorianIndexRun.v ===== *)
(** * Historian: runs of the staking indexer

    A run returns whatever the index answers.  Against an index that serves the account
    newest first and never forgets, under any interleaving that respects the lease: at every
    call and at the end the totals are exactly those of the transactions that the cursors
    cover. *)

From Stdlib Require Import Sorted.
From S2P Require Import Prelude BTree Async Ic Accounts Clients MemoPolicy Quiet TimerGuard HistorianTypes HistorianKeys HistorianState HistorianDurable HistorianCommitments HistorianIndexer HistorianWalk HistorianIndexed HistorianReturns.

Section run.
Context `{P : PrincipalSpec} `{O : !OrdSpec Principal} `{SS : !SliceSpec} `{T : TextSpec} `{H : HashSpec} {EH : EventHorizon}.
#[local] Existing Instance Principal_eq_dec.
(** The account: its index, its identifier and the least amount; all its transactions. *)
Context (index : Principal) (staking_id : list Z) (min_amount : Z) (U : list IndexTransactionWithId).
(** What the index knows at each call. *)
Context (visible : nat -> list IndexTransactionWithId).

Abbreviation counted w := (List.filter (covered w) U).
Abbreviation index_mem := (index_mem staking_id min_amount).

(** The memory when the index knows [V]. *)
Record exact_with (V : list IndexTransactionWithId) (m : Mem) : Prop := {
  ex_min : min_tx_e8s (config (st m)) = min_amount;
  ex_account : account_identifier_text_for_account (staking_account (config (st m))) = staking_id;
  ex_fresh : staking_index_descending (st m) = None -> walk_latest (walk_of (st m)) = None;
  ex_walk : walk_ok U V (walk_of (st m));
  ex_mem : index_mem (counted (walk_of (st m))) m;
}.
Definition exact (n : nat) : Mem -> Prop := exact_with (visible n).

(** *** Writes *)

Context (HU : descending U) (Hamounts : Forall amount_ok U).

Lemma descending_ids l : descending l -> NoDup (map tx_id l).
Proof using.
  clear. unfold descending. induction 1 as [|a l Hl IH Ha]; cbn; [constructor|]. constructor; [|done].
  intros (x & E & Hx)%list_elem_of_fmap. rewrite Forall_forall in Ha. specialize (Ha _ Hx). unfold newer in Ha. lia.
Qed.

(** Applying the new items of a page, oldest first. *)
Lemma apply_page now_secs w w' items m : extends U w w' items -> index_mem (counted w) m ->
  exists m', apply_commitment_transactions_in_chronological_order staking_id min_amount now_secs items m = Some m' /\
    index_mem (counted w') m' /\ index_view (st m') = index_view (st m) /\ persistence_batch_depth m' = persistence_batch_depth m.
Proof using HU Hamounts.
  intros He Hm. assert (Hp : counted w ++ rev items ≡ₚ counted w').
  { rewrite He. f_equiv. symmetry. apply Permutation_rev. }
  destruct (apply_all staking_id min_amount now_secs (rev items) (counted w) m) as (m' & E & [Hi Hd] & Hv & Ed).
  - rewrite Hp. apply Forall_forall. intros x Hx. apply list_filter_elem in Hx as [Hx _]. rewrite Forall_forall in Hamounts. by apply Hamounts.
  - rewrite Hp. apply descending_ids, descending_filter, HU.
  - done.
  - exists m'. split; [done|]. split; [|done]. split; [by eapply indexed_Permutation|done].
Qed.

(** What a write leaves: the walk it wrote, the account's configuration. *)
Definition wrote (w : Walk) (s s' : State) : Prop :=
  walk_of s' = w /\ config s' = config s /\
  (staking_index_descending s' = staking_index_descending s \/ staking_index_descending s' = Some true).

Lemma root_mem (f : State -> State) txs m :
  (forall s g, indexed staking_id min_amount txs s g -> indexed staking_id min_amount txs (f s) g) -> index_mem txs m ->
  index_mem txs (with_root_state_mut f m) /\ st (with_root_state_mut f m) = f (st m) /\
  persistence_batch_depth (with_root_state_mut f m) = persistence_batch_depth m.
Proof using. intros Hf [Hi Hd]. apply scoped_mem; [by apply Hf|done]. Qed.

Lemma revision_mem txs m : index_mem txs m ->
  index_mem txs (advance_commitment_index_revision m) /\ index_view (st (advance_commitment_index_revision m)) = index_view (st m) /\
  persistence_batch_depth (advance_commitment_index_revision m) = persistence_batch_depth m.
Proof using.
  intros Hm. destruct (root_mem advance_revision txs m) as (Hm' & Es & Ed); [|done|].
  - intros s g Hi. by eapply indexed_root.
  - unfold advance_commitment_index_revision. by rewrite Es.
Qed.

(** A write of the root section and the next revision. *)
Lemma cursor_write (f : State -> State) txs m :
  (forall s g, indexed staking_id min_amount txs s g -> indexed staking_id min_amount txs (f s) g) -> index_mem txs m ->
  let m' := advance_commitment_index_revision (with_root_state_mut f m) in
  index_mem txs m' /\ index_view (st m') = index_view (f (st m)) /\ persistence_batch_depth m' = persistence_batch_depth m.
Proof using.
  intros Hf Hm. destruct (root_mem f txs m Hf Hm) as (Hm1 & Es1 & Ed1). destruct (revision_mem _ _ Hm1) as (Hm2 & Ev2 & Ed2).
  cbn zeta. split; [done|]. split; [by rewrite Ev2, Es1|by rewrite Ed2].
Qed.

Lemma view_wrote w s1 s2 s' : index_view s' = index_view s2 -> walk_of s2 = w -> config s2 = config s1 ->
  (staking_index_descending s2 = staking_index_descending s1 \/ staking_index_descending s2 = Some true) ->
  wrote w s1 s'.
Proof using. unfold index_view, wrote. intros [= Hc Hl Ho Hb Ha Hd _ _] Hw Ec Ed. rewrite Hc, Hd. split; [|done]. rewrite <-Hw. unfold walk_of. congruence. Qed.

Lemma view_fields s s' : index_view s' = index_view s -> walk_of s' = walk_of s /\ config s' = config s /\
  staking_index_descending s' = staking_index_descending s.
Proof using. clear. unfold index_view. intros E. split; [exact (f_equal (fun v => v.1.1.2) E)|]. split; [exact (f_equal (fun v => v.1.1.1) E)|exact (f_equal (fun v => v.1.2) E)]. Qed.

Lemma begin_mem txs m : index_mem txs m -> index_mem txs (begin_persistence_batch m).
Proof using. intros [Hi Hd]. split; [done|]. cbn. unfold begin_depth. lia. Qed.

Section pages.
Context (V : list IndexTransactionWithId) (HV : V `suffix_of` U) (m : Mem).
Abbreviation w := (walk_of (st m)).
Context (Hm : index_mem (counted w) m) (Hw : walk_ok U V w).

Lemma commit_catch_up_ok now_secs c page :
  walk_complete w = true -> begun w = Some c -> transactions page = serve V (next_start_tx_id c) -> transactions page <> [] ->
  let w' := caught_up w (catch_up_after c page) in
  walk_ok U V w' /\ exists m', commit_catch_up staking_id min_amount now_secs c page m = Some m' /\
    index_mem (counted w') m' /\ wrote w' (st m) (st m').
Proof using HU Hamounts HV Hm Hw.
  intros Hcomp Hbeg Hp Hne w'. destruct (catch_up_step U V HU HV w c page Hw Hcomp Hbeg Hp Hne) as [Hok He].
  split; [done|]. apply (batched_mem _ _ _ _ _ (wrote w' (st m))); [by destruct Hm|].
  destruct (apply_page now_secs _ _ _ _ He (begin_mem _ _ Hm)) as (m1 & -> & Hm1 & Ev1 & Ed1). cbn [mbind option_bind].
  apply view_fields in Ev1 as (Ewalk & Econf & Edesc). cbn in Ewalk, Econf, Edesc.
  set (after := catch_up_after c page) in *. rewrite (surjective_pairing after).
  eexists. split; [reflexivity|].
  match goal with |- context [with_root_state_mut ?g m1] => destruct (cursor_write g (counted w') m1) as (Hm2 & Ev2 & Ed2) end; [|done|].
  - intros s g Hi. destruct after.2; by eapply indexed_root.
  - split; [done|]. split; [|congruence]. eapply view_wrote; [exact Ev2|..].
    + transitivity (caught_up (walk_of (st m1)) after); [unfold caught_up; destruct after.2; reflexivity|]. by rewrite Ewalk.
    + transitivity (config (st m1)); [destruct after.2; reflexivity|exact Econf].
    + left. transitivity (staking_index_descending (st m1)); [destruct after.2; reflexivity|exact Edesc].
Qed.

Lemma commit_backfill_ok now_secs page :
  walk_complete w = false -> transactions page = serve V (walk_oldest w) -> transactions page <> [] ->
  let w' := backfilled w (transactions page) false in
  walk_ok U V w' /\ exists m', commit_backfill staking_id min_amount now_secs (transactions page) (walk_latest w') (walk_oldest w') m = Some m' /\
    index_mem (counted w') m' /\ wrote w' (st m) (st m').
Proof using HU Hamounts HV Hm Hw.
  intros Hinc Hp Hne w'. destruct (backfill_step U V HU HV w (transactions page) Hw Hinc Hp Hne) as [Hok He].
  split; [done|]. apply (batched_mem _ _ _ _ _ (wrote w' (st m))); [by destruct Hm|].
  destruct (apply_page now_secs _ _ _ _ He (begin_mem _ _ Hm)) as (m1 & -> & Hm1 & Ev1 & Ed1). cbn [mbind option_bind].
  apply view_fields in Ev1 as (Ewalk & Econf & Edesc). cbn in Ewalk, Econf, Edesc.
  eexists. split; [reflexivity|].
  match goal with |- context [with_root_state_mut ?g m1] => destruct (cursor_write g (counted w') m1) as (Hm2 & Ev2 & Ed2) end; [|done|].
  - intros s g Hi. by eapply indexed_root.
  - split; [done|]. split; [|congruence]. assert (Ec : active_staking_catch_up (st m) = None).
    { unfold walk_ok in Hw. cbn in Hw, Hinc. destruct (last_indexed_staking_tx_id _), (oldest_indexed_staking_tx_id _); try done.
      destruct (active_staking_catch_up _); [|done]. destruct Hw as (_ & _ & _ & _ & Hc & _). congruence. }
    eapply view_wrote; [exact Ev2|..].
    + transitivity (MkWalk (walk_latest w') (walk_oldest w') false (walk_catch_up (walk_of (st m1)))); [done|].
      rewrite Ewalk. unfold w', backfilled. cbn. by rewrite Ec.
    + exact Econf.
    + by right.
Qed.
End pages.

(** ** The environment *)

(** The index serves what it knows at the call, knows part of the account without gaps,
    and forgets nothing. *)
Record served (e : env Mem SuiteCall) : Prop := {
  sv_suffix : forall n, visible n `suffix_of` U;
  sv_grows : forall n, visible n `suffix_of` visible (S n);
  sv_pages : forall n start page, env_reply e n _ (GetTransactions index staking_id start PAGE_SIZE) = Ok (Ok page) ->
    transactions page = serve (visible n) start;
}.
(** The other messages keep the invariant, and none moves the cursors under a lease
    that it has not superseded. *)
Record respects_lease (e : env Mem SuiteCall) : Prop := {
  rl_exact : forall n m, exact n m -> exact (S n) (env_interleave e n m);
  rl_fenced : forall n m,
    commitment_index_lock_generation (st (env_interleave e n m)) = commitment_index_lock_generation (st m) ->
    walk_of (st (env_interleave e n m)) = walk_of (st m) /\
    staking_index_descending (st (env_interleave e n m)) = staking_index_descending (st m);
}.

Section environment.
Context (e : env Mem SuiteCall) (Hserved : served e) (Hrely : respects_lease e).
Context (lease_now_secs : async Mem SuiteCall Z) (Hclock : forall w, exists t, lease_now_secs e w = (Returned t, w)).

Abbreviation walk w := (walk_of (st (w_state w))).
Abbreviation order w := (staking_index_descending (st (w_state w))).

(** The invariant holds now and in every state that a call left behind. *)
Definition good (w : world Mem SuiteCall) : Prop :=
  exact (length (w_trace w)) (w_state w) /\
  Forall (fun ev => match ev with Dispatch _ m => exists n, exact n m end) (w_trace w).
(** A page for [start] that the cursors have not moved past. *)
Definition fits (start : option Z) (page : IndexPage) (w : world Mem SuiteCall) : Prop :=
  exists k, (forall x, x ∈ visible k -> x ∈ visible (length (w_trace w))) /\
    transactions page = serve (visible k) start /\ walk_ok U (visible k) (walk w).

Lemma visible_grows n x : x ∈ visible n -> x ∈ visible (S n).
Proof using Hserved. destruct (sv_grows e Hserved n) as [k ->]. intros Hx. apply elem_of_app. by right. Qed.

Lemma good_write w m' : good w -> exact (length (w_trace w)) m' -> good (World m' (w_trace w)).
Proof using. intros [_ Ht] Hm. by split. Qed.

(** A write of the root section that moves no cursor. *)
Lemma root_exact n (f : State -> State) m : exact n m ->
  (forall txs s g, indexed staking_id min_amount txs s g -> indexed staking_id min_amount txs (f s) g) ->
  walk_of (f (st m)) = walk_of (st m) -> config (f (st m)) = config (st m) ->
  (staking_index_descending (f (st m)) = staking_index_descending (st m) \/ staking_index_descending (f (st m)) = Some true) ->
  exact n (with_root_state_mut f m).
Proof using.
  intros [E1 E2 E3 E4 E5] Hf Hw Hc Hd. destruct (root_mem f _ m (Hf _) E5) as (Hm & Es & _).
  split; rewrite ?Es, ?Hw, ?Hc; try done. destruct Hd as [-> | ->]; [done|done].
Qed.

(** *** A call to the index *)

Lemma renew_indexed txs t now s g : indexed staking_id min_amount txs s g -> indexed staking_id min_amount txs (renew_in t now s).2 g.
Proof using. clear. intros Hi. unfold renew_in. destruct (is_current_in t s); [|done]. by eapply indexed_root. Qed.

Lemma call_index_ok start t (Q : _ -> world Mem SuiteCall -> Prop) w : good w ->
  (forall msg w', good w' -> Q (Err msg) w') ->
  (forall page t' w', good w' -> (is_current_in t' (st (w_state w')) = true -> walk w' = walk w /\ order w' = order w /\ fits start page w') ->
    Q (Ok (page, Some t')) w') ->
  wp e (call_index index lease_now_secs staking_id start (Some t)) Q w.
Proof using Hserved Hrely Hclock.
  intros Hg Herr Hok. unfold call_index. apply wp_bind. destruct (Hclock w) as [now En]. unfold wp at 1. rewrite En.
  unfold and_then. apply wp_bind. unfold renew_current_commitment_index_lease. apply wp_bind.
  unfold root_result. apply wp_with_state_mut. set (f := fun s => (renew_in t now s).2).
  set (w1 := World (with_root_state_mut f (w_state w)) (w_trace w)).
  assert (Es1 : st (w_state w1) = f (st (w_state w))) by exact (proj1 (proj2 (root_mem f _ _ (fun s g => renew_indexed _ t now s g) (ex_mem _ _ (proj1 Hg))))).
  assert (Hview : walk w1 = walk w /\ order w1 = order w /\ commitment_index_lock_generation (st (w_state w1)) = commitment_index_lock_generation (st (w_state w))).
  { rewrite Es1. unfold f, renew_in. by destruct (is_current_in t (st (w_state w))). }
  assert (Hg1 : good w1).
  { apply good_write; [done|]. apply root_exact; [by destruct Hg|intros; by apply renew_indexed|..];
      unfold f, renew_in; destruct (is_current_in t (st (w_state w))); auto. }
  apply wp_ret. cbn [fst]. destruct (renew_in t now (st (w_state w))).1 as [t1|msg] eqn:Er; [|apply wp_ret; by apply Herr].
  assert (Et : token_generation t1 = commitment_index_lock_generation (st (w_state w))).
  { unfold renew_in in Er. destruct (is_current_in t (st (w_state w))) eqn:Ec; [|done]. injection Er as <-. cbn.
    unfold is_current_in in Ec. apply andb_true_iff in Ec as [_ Ec%Z.eqb_eq]. done. }
  apply wp_bind. unfold get_account_identifier_transactions. apply wp_bind. apply wp_await. intros reply m2 Ereply Em2.
  change (m2 = env_interleave e (length (w_trace w1)) (w_state w1)) in Em2.
  apply wp_ret. apply wp_ret.
  set (w2 := World m2 (Dispatch (GetTransactions index staking_id start PAGE_SIZE) (w_state w1) :: w_trace w1)).
  assert (Hg2 : good w2).
  { split; [|constructor; [by eexists; apply Hg1|apply Hg1]]. cbn. rewrite Em2. apply (rl_exact _ Hrely), Hg1. }
  destruct reply as [[page|msg]|[d|d]]; cbn [collapse]; try by apply Herr.
  apply Hok; [done|]. intros Hcur. destruct Hview as (Hwalk & Horder & Hgen).
  unfold is_current_in in Hcur. apply andb_true_iff in Hcur as [_ Hcur%Z.eqb_eq]. cbn in Hcur.
  destruct (rl_fenced _ Hrely (length (w_trace w1)) (w_state w1)) as [Hw2 Ho2]; [rewrite <-Em2; congruence|]. rewrite <-Em2 in Hw2, Ho2.
  cbn [w2 w_state]. rewrite Hw2, Ho2. split; [done|split; [done|]]. exists (length (w_trace w1)). split; [|split].
  - intros x Hx. cbn [w2 w_trace length]. by apply visible_grows.
  - symmetry in Ereply. by apply (sv_pages _ Hserved) in Ereply.
  - cbn [w2 w_state]. rewrite Hw2. apply Hg1.
Qed.

Lemma next_page_ok first_page start t (Q : _ -> world Mem SuiteCall -> Prop) w : good w ->
  (forall page, first_page = Some page -> fits start page w) ->
  (forall msg w', good w' -> Q (Err msg) w') ->
  (forall page t' w', good w' -> walk w' = walk w -> order w' = order w -> fits start page w' -> Q (Ok (page, Some t')) w') ->
  wp e (next_page index lease_now_secs staking_id first_page start (Some t)) Q w.
Proof using Hserved Hrely Hclock.
  intros Hg Hfirst Herr Hok. unfold next_page, and_then at 1. apply wp_bind.
  assert (Hrequire : forall page t1 w1, good w1 -> (is_current_in t1 (st (w_state w1)) = true -> walk w1 = walk w /\ order w1 = order w /\ fits start page w1) ->
    wp e (and_then (require_current_commitment_index_lease (Some t1)) (fun _ => mret (Ok (page, Some t1)))) Q w1).
  { intros page t1 w1 Hg1 Hfit. unfold and_then, require_current_commitment_index_lease, is_current, read. apply wp_bind, wp_bind.
    apply wp_with_state. apply wp_ret. destruct (is_current_in t1 (st (w_state w1))) eqn:Ec; apply wp_ret; [|by apply Herr].
    destruct Hfit as (? & ? & ?); [done|]. by apply Hok. }
  destruct first_page as [page|].
  - apply wp_ret. apply Hrequire; [done|]. intros _. auto.
  - apply call_index_ok; [done|intros msg w' Hg'; apply wp_ret; by apply Herr|]. intros page t' w' Hg' Hfit. by apply Hrequire.
Qed.

(** *** The loops *)

Lemma wrote_exact n w m m' : exact n m -> walk_ok U (visible n) w -> index_mem (counted w) m' -> wrote w (st m) (st m') ->
  (staking_index_descending (st m) = None -> walk_latest w = None \/ staking_index_descending (st m') = Some true) -> exact n m'.
Proof using.
  intros [E1 E2 E3 E4 E5] Hok Hm (Ew & Ec & Ed) Hf. split; rewrite ?Ec, ?Ew; try done.
  intros Hn. destruct Ed as [Ed|Ed]; [|congruence]. rewrite Ed in Hn. destruct (Hf Hn); [done|congruence].
Qed.

Lemma fits_now start page w : good w -> fits start page w -> exists k,
  visible k `suffix_of` U /\ transactions page = serve (visible k) start /\ walk_ok U (visible k) (walk w) /\
  (forall walk', walk_ok U (visible k) walk' -> walk_ok U (visible (length (w_trace w))) walk').
Proof using Hserved.
  intros _ (k & Hsub & Hp & Hw). exists k. split; [apply (sv_suffix _ Hserved)|]. split; [done|]. split; [done|].
  intros walk'. apply walk_ok_mono. exact Hsub.
Qed.

Lemma catch_up_loop_ok now_secs remaining (Q : result seeded string -> world Mem SuiteCall -> Prop) : forall c latest first_page t w,
  good w -> walk_complete (walk w) = true -> begun (walk w) = c -> latest = walk_latest (walk w) ->
  (forall progress page, c = Some progress -> first_page = Some page -> fits (next_start_tx_id progress) page w) ->
  (forall msg w', good w' -> Q (Err msg) w') ->
  (forall n latest' first' t' w', good w' -> walk_complete (walk w') = true -> latest' = walk_latest (walk w') ->
    walk_oldest (walk w') = walk_oldest (walk w) -> Q (Ok (n, latest', first', Some t')) w') ->
  wp e (catch_up_loop index lease_now_secs staking_id min_amount now_secs remaining c latest first_page (Some t)) Q w.
Proof using Hserved Hrely Hclock HU Hamounts.
  induction remaining as [|remaining IH]; intros c latest first_page t w Hg Hcomp Hbeg Hlatest Hfirst Herr Hok;
    [destruct c; apply wp_ret; by apply Hok|]. destruct c as [c|]; [|apply wp_ret; by apply Hok].
  cbn [catch_up_loop]. unfold and_then. apply wp_bind. apply next_page_ok; [done|intros page E; by eapply Hfirst|done|].
  intros page t' w' Hg' Hwalk Horder Hfit. destruct (fits_now _ _ _ Hg' Hfit) as (k & Hk & Hp & Hok' & Hmono).
  rewrite <-Hwalk in *. destruct (transactions page) as [|tx txs] eqn:Et.
  { exfalso. by apply (catch_up_nonempty U (visible k) HU Hk (walk w') c Hok' Hcomp Hbeg). }
  destruct (commit_catch_up_ok (visible k) Hk (w_state w') (ex_mem _ _ (proj1 Hg')) Hok' now_secs c page Hcomp Hbeg) as (Hnext & m' & Em & Hm & Hw);
    [congruence|congruence|].
  apply wp_bind, commit_ok. exists m'. split; [done|]. set (w1 := World m' (w_trace w')).
  assert (Hlast : staking_index_descending (st (w_state w')) <> None).
  { intros En. pose proof (ex_fresh _ _ (proj1 Hg') En) as El. unfold begun, seed_catch_up in Hbeg. rewrite El in Hbeg.
    destruct (walk_catch_up (walk w')) as [c'|] eqn:Ec; [|done]. unfold walk_ok in Hok'. rewrite El in Hok'.
    destruct (walk_oldest (walk w')); [done|]. congruence. }
  assert (Hg1 : good w1).
  { apply good_write; [done|]. eapply wrote_exact; [apply Hg'|apply Hmono, Hnext|exact Hm|exact Hw|done]. }
  destruct Hw as (Hw1 & _ & _). change (walk_of (st m')) with (walk w1) in Hw1.
  assert (Ho1 : walk_oldest (walk w1) = walk_oldest (walk w')) by (rewrite Hw1; unfold caught_up; by destruct (catch_up_after c page).2).
  rewrite (surjective_pairing (catch_up_after c page)). unfold caught_up in Hw1. destruct (catch_up_after c page).2.
  - apply wp_ret. apply Hok; [done|by rewrite Hw1|by rewrite Hw1|by rewrite Ho1, Hwalk].
  - apply IH; [done|by rewrite Hw1|by rewrite Hw1|by rewrite Hlatest, Hw1|done|done|].
    intros n latest' first' t'' w2 Hg2 Hc2 Hl2 Ho2. apply Hok; [done..|]. congruence.
Qed.

Lemma backfill_loop_ok now_secs remaining (Q : result (option Z * option Z * bool) string -> world Mem SuiteCall -> Prop) :
  forall first_page t w, good w -> walk_complete (walk w) = false ->
  (forall page, first_page = Some page -> fits (walk_oldest (walk w)) page w) ->
  (staking_index_descending (st (w_state w)) <> None) ->
  (forall msg w', good w' -> Q (Err msg) w') ->
  (forall complete w', good w' -> walk_complete (walk w') = false -> staking_index_descending (st (w_state w')) <> None ->
    walk_ok U (visible (length (w_trace w'))) (MkWalk (walk_latest (walk w')) (walk_oldest (walk w')) complete (walk_catch_up (walk w'))) ->
    Q (Ok (walk_latest (walk w'), walk_oldest (walk w'), complete)) w') ->
  wp e (backfill_loop index lease_now_secs staking_id min_amount now_secs remaining (walk_latest (walk w)) (walk_oldest (walk w)) first_page (Some t)) Q w.
Proof using Hserved Hrely Hclock HU Hamounts.
  induction remaining as [|remaining IH]; intros first_page t w Hg Hinc Hfirst Hord Herr Hok.
  { apply wp_ret. apply Hok; [done..|]. rewrite <-Hinc. apply Hg. }
  cbn [backfill_loop]. unfold and_then. apply wp_bind. apply next_page_ok; [done|done|done|].
  intros page t' w' Hg' Hwalk Horder Hfit. destruct (fits_now _ _ _ Hg' Hfit) as (k & Hk & Hp & Hok' & Hmono).
  rewrite <-Hwalk in *. rewrite <-Horder in Hord. rewrite (older_items_serve _ _ _ Hp).
  destruct (transactions page) as [|tx txs] eqn:Et.
  { apply wp_bind, wp_modify. set (w1 := World _ (w_trace w')).
    destruct (revision_mem _ _ (ex_mem _ _ (proj1 Hg'))) as (Hm & Hv & _). apply view_fields in Hv as (Ew & Ec & Ed).
    assert (Hg1 : good w1). { apply good_write; [done|]. eapply wrote_exact; [apply Hg'|apply Hg'|done|split; [done|split; [done|by left]]|by left]. }
    apply wp_ret. change (walk w1 = walk w') in Ew. change (order w1 = order w') in Ed. rewrite <-Ew. apply Hok; [done|congruence|congruence|].
    rewrite Ew. apply Hmono. by apply (backfill_empty U (visible k) HU Hk). }
  assert (Hne : transactions page <> []) by congruence. rewrite <-Et in Hp.
  destruct (commit_backfill_ok (visible k) Hk (w_state w') (ex_mem _ _ (proj1 Hg')) Hok' now_secs page Hinc Hp Hne) as (Hnext & m' & Em & Hm & Hw).
  assert (Hend : is_short page = true -> walk_ok U (visible k) (backfilled (walk w') (transactions page) true)).
  { intros Es. apply (backfill_short U (visible k) HU Hk (walk w') _ Hok' Hinc Hp Hne). unfold is_short in Es. lia. }
  rewrite Et in Hnext, Em, Hm, Hw, Hend. cbv zeta.
  apply wp_bind, commit_ok. exists m'. split; [exact Em|]. set (w1 := World m' (w_trace w')).
  assert (Hg1 : good w1).
  { apply good_write; [done|]. eapply wrote_exact; [apply Hg'|apply Hmono, Hnext|exact Hm|exact Hw|done]. }
  assert (Hord1 : staking_index_descending (st m') <> None) by (destruct Hw as (_ & _ & [-> | ->]); congruence).
  destruct Hw as (Hw1 & _ & _). set (next := backfilled (walk w') (tx :: txs) false) in *. change (walk w1 = next) in Hw1.
  change (raise (walk_latest (walk w')) (max_id (tx :: txs))) with (walk_latest next).
  change (lower (walk_oldest (walk w')) (min_id (tx :: txs))) with (walk_oldest next).
  rewrite <-Hw1. destruct (is_short page) eqn:Es.
  - apply wp_ret. apply Hok; [done|by rewrite Hw1|done|]. rewrite Hw1. by apply Hmono, Hend.
  - apply IH; [done|by rewrite Hw1|done|done|done|done].
Qed.

(** *** The whole run *)

Lemma finish_ok now_secs complete w (Q : unit -> world Mem SuiteCall -> Prop) : good w -> staking_index_descending (st (w_state w)) <> None ->
  walk_ok U (visible (length (w_trace w))) (MkWalk (walk_latest (walk w)) (walk_oldest (walk w)) complete (walk_catch_up (walk w))) ->
  (forall w', good w' -> Q tt w') ->
  wp e (root (finish_indexing now_secs (walk_latest (walk w)) (walk_oldest (walk w)) complete)) Q w.
Proof using.
  intros Hg Hord Hw HQ. apply wp_modify, HQ, good_write; [done|].
  destruct Hg as [[E1 E2 E3 E4 E5] _]. set (f := finish_indexing _ _ _ _). set (m := w_state w) in *.
  assert (Hf : forall txs s g, indexed staking_id min_amount txs s g -> indexed staking_id min_amount txs (f s) g).
  { intros txs s g Hi. unfold f, finish_indexing. cbv zeta. destruct (complete && _); by eapply indexed_root. }
  assert (Ewalk : walk_of (f (st m)) = MkWalk (walk_latest (walk_of (st m))) (walk_oldest (walk_of (st m))) complete (walk_catch_up (walk_of (st m)))).
  { unfold f, finish_indexing. cbv zeta. by destruct (complete && _). }
  assert (Econf : config (f (st m)) = config (st m)) by (unfold f, finish_indexing; cbv zeta; by destruct (complete && _)).
  assert (Eord : staking_index_descending (f (st m)) = Some true) by (unfold f, finish_indexing; cbv zeta; by destruct (complete && _)).
  destruct (root_mem f _ m (Hf _) E5) as (Hm & Es & _).
  split; rewrite ?Es, ?Ewalk, ?Econf, ?Eord; try done.
Qed.

Lemma seeded_ok now_secs cfg complete first_page t (Q : result unit string -> world Mem SuiteCall -> Prop) w : good w ->
  min_tx_e8s cfg = min_amount -> complete = walk_complete (walk w) -> staking_index_descending (st (w_state w)) <> None ->
  (forall page, first_page = Some page -> walk_latest (walk w) = None /\ fits None page w) ->
  (forall r w', good w' -> Q r w') ->
  wp e (process_commitment_indexing_descending_seeded index lease_now_secs now_secs cfg staking_id
          (walk_latest (walk w)) (walk_oldest (walk w)) complete first_page (Some t)) Q w.
Proof using Hserved Hrely Hclock HU Hamounts.
  intros Hg Emin -> Hord Hfirst HQ. unfold process_commitment_indexing_descending_seeded. cbv zeta. rewrite Emin.
  pose proof (ex_walk _ _ (proj1 Hg)) as Hok.
  assert (Eold : seed_oldest (walk_latest (walk w)) (walk_oldest (walk w)) = walk_oldest (walk w))
    by (unfold walk_ok in Hok; destruct (walk_latest (walk w)), (walk_oldest (walk w)); done).
  rewrite Eold. set (budget := page_budget _). clearbody budget.
  assert (Hrun : forall w0, good w0 -> staking_index_descending (st (w_state w0)) <> None ->
    (forall page, first_page = Some page -> walk_latest (walk w0) = None /\ fits None page w0) ->
    (walk_latest (walk w0) = None -> walk_complete (walk w0) = false) ->
    wp e (and_then
      (if walk_complete (walk w0) then
         catch_up ← read active_staking_catch_up;
         catch_up_loop index lease_now_secs staking_id min_amount now_secs budget
           (seed_catch_up catch_up (walk_latest (walk w0))) (walk_latest (walk w0)) first_page (Some t)
       else mret (Ok (budget, walk_latest (walk w0), first_page, Some t)))
      (fun seed => let '(remaining_pages, latest_cursor, first_page, lease) := seed in
        and_then (if walk_complete (walk w0) then mret (Ok (latest_cursor, walk_oldest (walk w0), true))
                  else backfill_loop index lease_now_secs staking_id min_amount now_secs remaining_pages latest_cursor (walk_oldest (walk w0)) first_page lease)
          (fun final => let '(latest_cursor, oldest_cursor, backfill_complete) := final in
            _ ← root (finish_indexing now_secs latest_cursor oldest_cursor backfill_complete); mret (Ok tt)))) Q w0).
  { intros w0 Hg0 Hord0 Hfirst0 Hopen. unfold and_then at 1. apply wp_bind. destruct (walk_complete (walk w0)) eqn:Ec.
    - apply wp_bind, wp_with_state. apply catch_up_loop_ok; [done|done|done|done| |intros msg w' Hg'; apply wp_ret; by apply HQ|].
      { intros progress page _ Ep. destruct (Hfirst0 _ Ep) as [El _]. by specialize (Hopen El). }
      intros n latest' first' t' w' Hg' Hc' -> Ho'. unfold and_then. apply wp_bind, wp_ret. rewrite <-Ho'.
      apply wp_bind, finish_ok; [done| | |intros w2 Hg2; apply wp_ret; by apply HQ].
      + intros En. pose proof (ex_fresh _ _ (proj1 Hg') En) as El. pose proof (ex_walk _ _ (proj1 Hg')) as Hok'.
        unfold walk_ok in *. rewrite El in Hok'. rewrite Ho' in Hok'. pose proof (ex_walk _ _ (proj1 Hg0)) as Hok0. unfold walk_ok in Hok0.
        destruct (walk_latest (walk w0)), (walk_oldest (walk w0)); try done. by specialize (Hopen eq_refl).
      + rewrite <-Hc'. apply Hg'.
    - apply wp_ret. unfold and_then. apply wp_bind. apply backfill_loop_ok; [done|done| |done|intros msg w' Hg'; apply wp_ret; by apply HQ|].
      { intros page Ep. destruct (Hfirst0 _ Ep) as [El Hfit]. pose proof (ex_walk _ _ (proj1 Hg0)) as Hok0. unfold walk_ok in Hok0.
        rewrite El in Hok0. destruct (walk_oldest (walk w0)); done. }
      intros complete w' Hg' Hc' Hord' Hok'. apply wp_bind, finish_ok; [done..|]. intros w2 Hg2. apply wp_ret. by apply HQ. }
  destruct (walk_complete (walk w) && is_none (walk_latest (walk w))) eqn:Er.
  - apply andb_true_iff in Er as [Ec En]. destruct (walk_latest (walk w)) as [l|] eqn:El; [done|]. rewrite Ec. cbn [negb andb].
    apply wp_bind, wp_modify. set (f := fun s : State => _). set (w1 := World (with_root_state_mut f (w_state w)) (w_trace w)).
    assert (Es : st (w_state w1) = f (st (w_state w))).
    { exact (proj1 (proj2 (root_mem f _ _ (fun s g Hi => indexed_root _ _ _ s (f s) g Hi eq_refl eq_refl eq_refl eq_refl eq_refl eq_refl eq_refl eq_refl eq_refl) (ex_mem _ _ (proj1 Hg))))). }
    assert (Ew : walk w1 = MkWalk None (walk_oldest (walk w)) false (walk_catch_up (walk w))) by (rewrite <-El, Es; done).
    assert (Hg1 : good w1).
    { apply good_write; [done|]. eapply wrote_exact with (w := walk w1); [apply Hg| | | |].
      - rewrite Ew. unfold walk_ok in *. cbn in *. by rewrite El in Hok.
      - assert (Ecov : counted (walk w1) = counted (walk w)) by (rewrite Ew; unfold covered; cbn [walk_oldest walk_latest walk_catch_up]; by rewrite El).
        rewrite Ecov. apply (root_mem f); [intros; by eapply indexed_root|apply Hg].
      - change (st (with_root_state_mut f (w_state w))) with (st (w_state w1)). rewrite Es. split; [by rewrite <-Es|]. split; [done|by left].
      - left. by rewrite Ew. }
    specialize (Hrun w1 Hg1). rewrite Ew in Hrun. cbn [walk_latest walk_oldest walk_complete] in Hrun. apply Hrun; [by rewrite Es| |done].
    intros page Ep. split; [done|]. destruct (Hfirst _ Ep) as [_ (k & Hsub & Hp & Hwk)]. exists k. split; [done|]. split; [done|].
    rewrite Ew. unfold walk_ok in *. cbn in *. by rewrite El in Hwk.
  - apply wp_bind, wp_ret. assert (Eb : walk_complete (walk w) && negb false = walk_complete (walk w)) by (by rewrite andb_true_r).
    rewrite Eb. apply Hrun; [done..|]. intros El. rewrite El in Er. by rewrite andb_true_r in Er.
Qed.

Lemma bounded_ok now_secs max_pages t w : good w ->
  wp e (process_commitment_indexing_bounded index lease_now_secs now_secs max_pages (Some t)) (fun _ w' => good w') w.
Proof using Hserved Hrely Hclock HU Hamounts.
  intros Hg. unfold process_commitment_indexing_bounded. apply wp_bind, wp_with_state, wp_bind, wp_with_state. cbv zeta.
  set (s := st (w_state w)). set (cfg := (config s) <| max_index_pages_per_tick := Z.max max_pages 1 |>).
  change (account_identifier_text_for_account (staking_account cfg)) with (account_identifier_text_for_account (staking_account (config s))).
  rewrite (ex_account _ _ (proj1 Hg) : account_identifier_text_for_account (staking_account (config s)) = staking_id).
  assert (Hroot : forall (f : State -> State) w0, good w0 ->
    (forall txs s g, indexed staking_id min_amount txs s g -> indexed staking_id min_amount txs (f s) g) ->
    (forall s, walk_of (f s) = walk_of s /\ config (f s) = config s /\ (staking_index_descending (f s) = staking_index_descending s \/ staking_index_descending (f s) = Some true)) ->
    good (World (with_root_state_mut f (w_state w0)) (w_trace w0))).
  { intros f w0 Hg0 Hf Hv. destruct (Hv (st (w_state w0))) as (? & ? & ?). apply good_write; [done|]. apply root_exact; auto. apply Hg0. }
  case_bool_decide as Eo.
  - apply wp_bind, wp_modify, wp_bind, wp_modify, wp_ret. apply Hroot; [apply Hroot; [done|..]|..].
    + intros. by eapply indexed_root.
    + intros s'. split; [done|]. split; [done|by left].
    + intros. by eapply indexed_root.
    + intros s'. split; [done|]. split; [done|by left].
  - unfold and_then at 1. apply wp_bind. destruct (is_none (staking_index_descending s)) eqn:En.
    + assert (Ed : staking_index_descending s = None) by (by destruct (staking_index_descending s)).
      unfold and_then at 1. apply wp_bind. apply call_index_ok; [done|intros msg w' Hg'; apply wp_ret; by apply wp_ret|].
      intros page t' w' Hg' Hfit. unfold and_then, require_current_commitment_index_lease, is_current, read. cbn [snd fst].
      apply wp_bind, wp_bind, wp_with_state, wp_ret. destruct (is_current_in t' (st (w_state w'))); [|apply wp_ret; by apply wp_ret].
      destruct (Hfit eq_refl) as (Ew & _ & Hf). apply wp_bind, wp_modify. set (f := fun s : State => _). set (w1 := World (with_root_state_mut f (w_state w')) (w_trace w')).
      assert (Hg1 : good w1). { apply Hroot; [done|intros; by eapply indexed_root|]. intros s'. split; [done|]. split; [done|by right]. }
      assert (Es : st (w_state w1) = f (st (w_state w'))).
      { exact (proj1 (proj2 (root_mem f _ _ (fun s g Hi => indexed_root _ _ _ s (f s) g Hi eq_refl eq_refl eq_refl eq_refl eq_refl eq_refl eq_refl eq_refl eq_refl) (ex_mem _ _ (proj1 Hg'))))). }
      assert (Ew1 : walk w1 = walk w) by (rewrite Es; exact Ew). apply wp_ret.
      change (last_indexed_staking_tx_id s) with (walk_latest (walk w)). change (oldest_indexed_staking_tx_id s) with (walk_oldest (walk w)).
      rewrite <-Ew1. apply seeded_ok; [done|apply Hg|by rewrite Ew1|by rewrite Es| |done].
      intros page' [= <-]. rewrite Ew1. split; [apply (ex_fresh _ _ (proj1 Hg)); exact Ed|].
      destruct Hf as (k & Hsub & Hp & Hwk). exists k. split; [done|]. split; [done|]. by rewrite Ew1, <-Ew.
    + apply wp_ret. change (last_indexed_staking_tx_id s) with (walk_latest (walk w)). change (oldest_indexed_staking_tx_id s) with (walk_oldest (walk w)).
      apply seeded_ok; [done|apply Hg|done|by intros Ed; unfold s in En; rewrite Ed in En|done|done].
Qed.

End environment.

End run.

(** What a run of the indexer of the staking account owes to the account: the totals and
    the counter are those of the transactions that the cursors cover, each counted once, and
    every retained sample, in memory or stored, is that of one of them. *)
Record accounted `{P : PrincipalSpec} `{T : TextSpec} `{EH : EventHorizon} (staking_id : list Z) (min_amount : Z)
    (account : list IndexTransactionWithId) (m : Mem) : Prop := {
  acc_totals : forall key, get_commitment_route_rollup key (storage m) =
    rollup_of staking_id min_amount (List.filter (covered (walk_of (st m))) account) key;
  acc_count : qualifying_commitment_count (st m) =
    Some (qualifying_total staking_id min_amount (List.filter (covered (walk_of (st m))) account));
  acc_top_ups : samples_known principal_key
    (sample_among staking_id min_amount top_up_slot (List.filter (covered (walk_of (st m))) account))
    (commitment_history (st m)) (stable_commitments (storage m));
  acc_raw_icp : samples_known principal_key
    (sample_among staking_id min_amount raw_icp_slot (List.filter (covered (walk_of (st m))) account))
    (raw_icp_commitment_history (st m)) (stable_raw_icp (storage m));
  acc_neurons : samples_known (fun n : Z => n)
    (sample_among staking_id min_amount neuron_slot (List.filter (covered (walk_of (st m))) account))
    (neuron_commitment_history (st m)) (stable_neurons (storage m));
}.

Lemma exact_accounted `{P : PrincipalSpec} `{T : TextSpec} `{H : HashSpec} `{EH : EventHorizon} staking_id min_amount account visible n m :
  exact staking_id min_amount account visible n m -> accounted staking_id min_amount account m.
Proof. intros [_ _ _ _ [[] _]]. by split. Qed.

(** C12: Whatever the index answers, in whatever order, and whatever other messages do that
    close their batches and keep the counters, a run of the indexer of the staking account
    returns, and so it leaves the memory at every call.  When, besides, the index serves the
    account newest first and forgets nothing and no other message moves the cursors under
    the lease, then at every call and at the end the route totals and the counter are
    exactly those of the transactions that the cursors cover, each counted once, and every
    retained sample is the sample (id, time, amount) of a covered commitment that counts, to
    the canister or neuron whose history it is in. *)
Theorem commitments_indexed_once `{P : PrincipalSpec} `{O : !OrdSpec Principal} `{SS : !SliceSpec} `{T : TextSpec} `{H : HashSpec} {EH : EventHorizon}
    (index : Principal) (e : env Mem SuiteCall) (now_secs max_pages : Z) (lease : CommitmentIndexLeaseToken) (w : world Mem SuiteCall)
    (Hothers : forall n m, usable m -> usable (env_interleave e n m)) (Husable : committed usable w) :
  exists r w', process_commitment_indexing_bounded index (fun e w => (Returned (env_clock e (length (w_trace w)) / 1000000000), w))
      now_secs max_pages (Some lease) e w = (Returned r, w') /\
    committed usable w' /\
    forall (staking_id : list Z) (min_amount : Z) (account : list IndexTransactionWithId)
      (visible : nat -> list IndexTransactionWithId),
      descending account -> Forall amount_ok account -> served index staking_id account visible e ->
      respects_lease staking_id min_amount account visible e -> good staking_id min_amount account visible w ->
      good staking_id min_amount account visible w' /\
      committed (accounted staking_id min_amount account) w'.
Proof.
  set (clock := fun e w => _). destruct (keeps_returns e _ _ w (returns_staking e (committed usable) (committed_usable_call e Hothers)
    (fun w Hw => proj1 Hw) committed_usable_write index clock (fun w Hw => Hw) now_secs max_pages (Some lease)) Husable) as (r & w' & E & Hw').
  exists r, w'. split; [done|]. split; [done|]. intros staking_id min_amount account visible Ha Hm Hs Hl Hg.
  assert (Hg' : good staking_id min_amount account visible w').
  { eapply (wp_run e _ (fun _ w' => good staking_id min_amount account visible w')); [exact E|]. eapply bounded_ok; eauto. }
  split; [done|]. split; [eapply exact_accounted, Hg'|].
  eapply Forall_impl; [apply Hg'|]. intros [X c m] [n Hn]. by eapply exact_accounted.
Qed.

(** An account of four transfers, two pages of one call each: a cycles top-up, two
    neuron stakes (one below the threshold) and an invalid memo. *)
Module ConcreteIndex.
Import Concrete ConcreteKeys ConcreteTexts ConcreteHash ConcreteDurable.
#[export] Instance concrete_event_horizon : EventHorizon := { event_horizon := 1000; event_horizon_text := eq_refl }.
Abbreviation principal := (Principal (PrincipalSpec:=concrete_principal)).

Definition staking0 : list Z := account_identifier_text_for_account (staking_account config0).
Definition staked (id : Z) (memo : string) (amount : Z) : IndexTransactionWithId :=
  MkTxWithId id (MkIndexTransaction 0 (Some (bytes_of_string memo)) (IndexTransfer [1] staking0 amount 10000 None)
    (Some (id * 1000000000)) None).
Definition account0 : list IndexTransactionWithId :=
  [staked 9 "p5" 300000000; staked 7 "42" 5; staked 4 "42" 200000000; staked 2 "?" 100000000].
Definition env0 : env (Mem (P:=concrete_principal)) SuiteCall := {|
  env_reply := fun n X c =>
    match c in SuiteCall Y return Y -> Y with
    | GetTransactions _ _ start _ => fun _ => Ok (Ok (MkIndexPage 0 (Some 2) (serve account0 start)))
    | _ => fun r => r
    end (reply_ok 0 0 c);
  env_interleave := fun _ m => m;
  env_clock := fun _ => 2000000000000;
|}.
Definition lease0 : CommitmentIndexLeaseToken := MkIndexToken 2075 1.
Definition locked0 : Mem (P:=concrete_principal) :=
  mem0 <| st ::= fun s => (acquire_in 2000 Scheduled s).2 |>.
Definition world0 : world (Mem (P:=concrete_principal)) SuiteCall := World locked0 [].

Definition indexed0 := process_commitment_indexing_bounded (2 : principal)
  (fun e w => (Returned (env_clock e (length (w_trace w)) / 1000000000), w)) 2000 10 (Some lease0) env0 world0.
Example indexed0_returns : indexed0.1 = Returned (Ok tt).
Proof. vm_compute. reflexivity. Qed.
Example indexed0_totals :
  get_commitment_route_rollup (KeyCyclesTopUp [5]) (storage (w_state indexed0.2)) = MkRollup 1 300000000 /\
  get_commitment_route_rollup (KeyNeuronStake 42 None) (storage (w_state indexed0.2)) = MkRollup 1 200000000 /\
  qualifying_commitment_count (st (w_state indexed0.2)) = Some 2 /\
  walk_of (st (w_state indexed0.2)) = MkWalk (Some 9) (Some 2) true None.
Proof. vm_compute. done. Qed.

Lemma served0 : served (2 : principal) staking0 account0 (fun _ => account0) env0.
Proof. split; [reflexivity|reflexivity|]. intros n start page E. change (Ok (Ok (MkIndexPage 0 (Some 2) (serve account0 start))) = Ok (Ok page) :> result (result IndexPage string) TransportError) in E. by injection E as <-. Qed.
Lemma lease0_respected : respects_lease staking0 100000000 account0 (fun _ => account0) env0.
Proof. split; [intros n m Hm; exact Hm|done]. Qed.
Lemma descending0 : descending account0.
Proof. repeat constructor. Qed.
Lemma amounts0 : Forall amount_ok account0.
Proof. repeat constructor; cbn; lia. Qed.
Lemma good0 : good staking0 100000000 account0 (fun _ => account0) world0.
Proof.
  split; [|constructor]. split; [reflexivity|reflexivity|done|reflexivity|]. split; [|done].
  split; try reflexivity; split; by intros ? ? ?%not_elem_of_nil || (intros ? ? ? ?%not_elem_of_nil; done).
Qed.

Lemma usable0 : committed usable world0.
Proof. split; [by split|constructor]. Qed.
Lemma commitments_indexed_once_witness :
  exists r w', indexed0 = (Returned r, w') /\ accounted staking0 100000000 account0 (w_state w') /\
    btree_get (5 : principal) (commitment_history (st (w_state indexed0.2))) =
      Some [MkCommitmentSample 9 (Some 9000000000) 300000000 true None].
Proof.
  destruct (commitments_indexed_once (2 : principal) env0 2000 10 lease0 world0 (fun n m Hm => Hm) usable0) as (r & w' & E & _ & Hbooks).
  destruct (Hbooks staking0 100000000 account0 (fun _ => account0) descending0 amounts0 served0 lease0_respected good0) as [_ [Ha _]].
  exists r, w'. split; [exact E|]. split; [exact Ha|]. vm_compute. reflexivity.
Defined.

End ConcreteIndex.
