(* ===== verification/HistorianRoutesRun.v ===== *)
(** * Historian: runs of the route indexer

    As [HistorianIndexRun]: the totals of the output and rewards routes are exactly those of
    the transfers that the cursors of the route cover. *)

From Stdlib Require Import Sorted.
From S2P Require Import Prelude BTree Async Ic Accounts Clients Quiet TimerGuard HistorianTypes HistorianKeys HistorianState HistorianDurable HistorianIndexer HistorianWalk HistorianIndexed HistorianRoutes HistorianReturns.

Section run.
Context `{P : PrincipalSpec} `{O : !OrdSpec Principal} `{SS : !SliceSpec} `{T : TextSpec} `{H : HashSpec}.
#[local] Existing Instance Principal_eq_dec.
(** The accounts as texts, all the transactions of each route account, and what the
    index knows of them at each call. *)
Context (index : Principal) (source_id : list Z) (route_id : IndexedRouteKind -> list Z).
Context (U : IndexedRouteKind -> list IndexTransactionWithId) (visible : IndexedRouteKind -> nat -> list IndexTransactionWithId).

Definition route_walk (s : State) (kind : IndexedRouteKind) : Walk :=
  MkWalk (indexed_route_cursor s kind) (indexed_route_oldest_cursor s kind) (indexed_route_backfill_complete s kind)
    (indexed_route_catch_up s kind).
Definition routed_amounts (kind : IndexedRouteKind) (txs : list IndexTransactionWithId) : list Z :=
  omap (indexed_route_amount_from_tx source_id (route_id kind)) txs.
Definition routed_total (kind : IndexedRouteKind) (txs : list IndexTransactionWithId) : Z :=
  Z.min (sumZ (routed_amounts kind txs)) u64_max.
Abbreviation counted kind w := (List.filter (covered w) (U kind)).

(** One route when the index knows [V]. *)
Record route_exact_with (V : list IndexTransactionWithId) (kind : IndexedRouteKind) (s : State) : Prop := {
  re_source : account_identifier_text_for_account (output_source_account (config s)) = source_id;
  re_route : account_identifier_text_for_account (indexed_route_account (config s) kind) = route_id kind;
  re_fresh : indexed_route_order_descending s kind = None -> walk_latest (route_walk s kind) = None;
  re_walk : walk_ok (U kind) V (route_walk s kind);
  re_total : route_total s kind = Some (routed_total kind (counted kind (route_walk s kind)));
}.
Definition routes_exact (n : nat) (m : Mem) : Prop :=
  (forall kind, route_exact_with (visible kind n) kind (st m)) /\ 0 <= persistence_batch_depth m.

Context (HU : forall kind, descending (U kind)) (Hamounts : forall kind, Forall amount_ok (U kind)).

(** *** Writes *)

(** Everything an indexer reads but one total. *)
Definition same_cursors (s s' : State) : Prop :=
  config s' = config s /\ main_lock_state_ts s' = main_lock_state_ts s /\ active_route_sweep s' = active_route_sweep s /\
  forall kind, route_walk s' kind = route_walk s kind /\ indexed_route_order_descending s' kind = indexed_route_order_descending s kind.
Definition same_other_totals (kind : IndexedRouteKind) (s s' : State) : Prop :=
  forall kind', kind' <> kind -> route_total s' kind' = route_total s kind'.

Lemma routed_nonneg kind txs : Forall amount_ok txs -> Forall (fun a => 0 <= a) (routed_amounts kind txs).
Proof using.
  clear. intros Ha. apply Forall_forall. intros a (tx & Hin & Hc)%list_elem_of_omap. rewrite Forall_forall in Ha. specialize (Ha _ Hin).
  unfold indexed_route_amount_from_tx, amount_ok, then_some in *. repeat case_match; simplify_eq/=; done.
Qed.

Lemma scoped_st dirty t f (m : Mem) : st (with_state_mut_sections_scoped dirty t f m) = f (st m) /\
  persistence_batch_depth (with_state_mut_sections_scoped dirty t f m) = persistence_batch_depth m.
Proof using. clear. unfold with_state_mut_sections_scoped. by destruct (persistence_batch_active m). Qed.
Lemma root_st f (m : Mem) : st (with_root_state_mut f m) = f (st m) /\
  persistence_batch_depth (with_root_state_mut f m) = persistence_batch_depth m.
Proof using. clear. apply scoped_st. Qed.

Lemma add_amount_ok kind amount (s : State) t : route_total s kind = Some t ->
  exists s', add_indexed_route_amount kind amount s = Some s' /\ route_total s' kind = Some (sat_add t amount) /\
    same_cursors s s' /\ same_other_totals kind s s'.
Proof using.
  clear. intros E. unfold add_indexed_route_amount. rewrite E. eexists. split; [reflexivity|].
  destruct kind; (split; [done|split; [repeat split; by destruct kind|]]); intros [] Hne; done.
Qed.

Lemma same_cursors_refl s : same_cursors s s.
Proof using. clear. done. Qed.
Lemma same_cursors_trans s1 s2 s3 : same_cursors s1 s2 -> same_cursors s2 s3 -> same_cursors s1 s3.
Proof using.
  clear. intros (A1 & B1 & C1 & D1) (A2 & B2 & C2 & D2). repeat split; try congruence; intros; destruct (D1 kind), (D2 kind); congruence.
Qed.

Lemma add_amounts_ok kind txs : forall (m : Mem) done, Forall amount_ok (done ++ txs) -> route_total (st m) kind = Some (routed_total kind done) ->
  exists m', add_amounts kind source_id (route_id kind) txs m = Some m' /\ route_total (st m') kind = Some (routed_total kind (done ++ txs)) /\
    same_cursors (st m) (st m') /\ same_other_totals kind (st m) (st m') /\ persistence_batch_depth m' = persistence_batch_depth m.
Proof using.
  clear HU Hamounts. induction txs as [|tx txs IH]; intros m don Ha Et.
  { exists m. rewrite app_nil_r. split; [done|]. split; [done|]. split; [apply same_cursors_refl|]. done. }
  cbn [add_amounts]. replace (don ++ tx :: txs) with ((don ++ [tx]) ++ txs) in * by (by rewrite <-app_assoc).
  destruct (indexed_route_amount_from_tx source_id (route_id kind) tx) as [amount|] eqn:Ex.
  - destruct (add_amount_ok kind amount _ _ Et) as (s1 & -> & Et1 & Hc1 & Ho1). cbn [mbind option_bind].
    destruct (root_st (fun _ => s1) m) as [Es1 Ed1].
    assert (Et2 : route_total (st (with_root_state_mut (fun _ => s1) m)) kind = Some (routed_total kind (don ++ [tx]))).
    { rewrite Es1, Et1. f_equal. unfold routed_total, routed_amounts, sat_add. rewrite omap_snoc, Ex, sumZ_app.
      apply Forall_app in Ha as [Ha _]. pose proof (sumZ_nonneg _ (routed_nonneg kind _ Ha)) as Hn.
      unfold routed_amounts in Hn. rewrite omap_snoc, Ex, sumZ_app in Hn. apply Forall_app in Ha as [Hd Hx].
      pose proof (sumZ_nonneg _ (routed_nonneg kind _ Hd)). pose proof (sumZ_nonneg _ (routed_nonneg kind _ Hx)) as Hx'.
      unfold routed_amounts in *. cbn [omap list_omap] in Hx'. rewrite Ex in Hx'. assert (E1 : sumZ [amount] = amount) by (unfold sumZ; cbn; lia). rewrite E1 in *. lia. }
    destruct (IH _ _ Ha Et2) as (m' & -> & Et' & Hc' & Ho' & Ed'). exists m'. split; [done|]. split; [done|]. rewrite Es1 in Hc', Ho'.
    split; [by eapply same_cursors_trans|]. split; [|congruence]. intros k Hk. rewrite Ho', Ho1; done.
  - cbn [mbind option_bind]. apply (IH m (don ++ [tx])); [done|]. rewrite Et. unfold routed_total, routed_amounts. rewrite omap_snoc, Ex. by rewrite app_nil_r.
Qed.

Lemma routed_total_Permutation kind txs txs' : txs ≡ₚ txs' -> routed_total kind txs = routed_total kind txs'.
Proof using. clear. intros Hp. unfold routed_total, routed_amounts. f_equal. by apply sumZ_Permutation, omap_Permutation. Qed.

Lemma batched_st (f : Mem -> option Mem) m (Q : State -> Prop) : 0 <= persistence_batch_depth m ->
  (exists m', f (begin_persistence_batch m) = Some m' /\ Q (st m') /\ persistence_batch_depth m' = persistence_batch_depth (begin_persistence_batch m)) ->
  exists m', batched f m = Some m' /\ Q (st m') /\ 0 <= persistence_batch_depth m'.
Proof using.
  clear. intros Hd (m' & E & HQ & Ed). unfold batched. rewrite E. cbn [mbind option_bind]. unfold drop_persistence_batch, finish_depth.
  rewrite Ed. change (persistence_batch_depth (begin_persistence_batch m)) with (begin_depth (persistence_batch_depth m)).
  unfold begin_depth. destruct (0 <? _) eqn:E0; [|apply Z.ltb_ge in E0; lia]. apply Z.ltb_lt in E0. eexists. split; [reflexivity|].
  destruct (_ && _); cbn zeta; [unfold persist_dirty_state; destruct (_ =? 0)|]; (split; [exact HQ|]); cbn; unfold const; lia.
Qed.

(** A commit of a page: the walk of the route it writes, everything else as it was. *)
Record route_wrote (kind : IndexedRouteKind) (w : Walk) (s s' : State) : Prop := {
  rw_walk : route_walk s' kind = w;
  rw_total : route_total s' kind = Some (routed_total kind (counted kind w));
  rw_order : indexed_route_order_descending s' kind = indexed_route_order_descending s kind \/ indexed_route_order_descending s' kind = Some true;
  rw_config : config s' = config s;
  rw_lock : main_lock_state_ts s' = main_lock_state_ts s;
  rw_sweep : active_route_sweep s' = active_route_sweep s;
  rw_other : forall kind', kind' <> kind -> route_walk s' kind' = route_walk s kind' /\
    indexed_route_order_descending s' kind' = indexed_route_order_descending s kind' /\ route_total s' kind' = route_total s kind';
}.

Lemma page_write kind w w' items f (m : Mem) : extends (U kind) w w' items -> route_total (st m) kind = Some (routed_total kind (counted kind w)) ->
  0 <= persistence_batch_depth m ->
  (forall s, same_cursors (st m) s -> same_other_totals kind (st m) s ->
    route_total s kind = Some (routed_total kind (counted kind w')) -> route_wrote kind w' (st m) (f s)) ->
  exists m', batched (fun m => m ← add_amounts kind source_id (route_id kind) (rev items) m; Some (with_root_state_mut f m)) m = Some m' /\
    route_wrote kind w' (st m) (st m') /\ 0 <= persistence_batch_depth m'.
Proof using Hamounts.
  intros He Ht Hd Hf. apply batched_st; [done|].
  assert (Hp : counted kind w ++ rev items ≡ₚ counted kind w') by (rewrite He; f_equiv; symmetry; apply Permutation_rev).
  destruct (add_amounts_ok kind (rev items) (begin_persistence_batch m) (counted kind w)) as (m1 & -> & Et1 & Hc1 & Ho1 & Ed1); [|done|].
  { rewrite Hp. apply Forall_forall. intros x Hx. apply list_filter_elem in Hx as [Hx _]. pose proof (Hamounts kind) as Ha. rewrite Forall_forall in Ha. by apply Ha. }
  cbn [mbind option_bind]. eexists. split; [reflexivity|]. destruct (root_st f m1) as [Es Ed]. rewrite Es. split; [|congruence].
  apply Hf; [exact Hc1|exact Ho1|]. rewrite Et1. f_equal. by apply routed_total_Permutation.
Qed.

(** The three writes of the cursors. *)
Lemma write_progress kind latest oldest complete s0 s w' :
  same_cursors s0 s -> same_other_totals kind s0 s -> route_total s kind = Some (routed_total kind (counted kind w')) ->
  w' = MkWalk latest oldest complete (walk_catch_up (route_walk s0 kind)) ->
  route_wrote kind w' s0 (set_indexed_route_descending_progress kind latest oldest complete s).
Proof using.
  clear. intros (Hc & Hl & Hs & Hr) Ho Ht ->. destruct (Hr kind) as [Hw Hd]. split.
  - rewrite <-Hw. by destruct kind.
  - by destruct kind.
  - right. by destruct kind.
  - by destruct kind.
  - by destruct kind.
  - by destruct kind.
  - intros k Hk. destruct (Hr k) as [<- <-]. rewrite <-(Ho k Hk). by destruct kind, k.
Qed.
Lemma write_finish kind latest oldest complete s0 s w' :
  same_cursors s0 s -> same_other_totals kind s0 s -> route_total s kind = Some (routed_total kind (counted kind w')) ->
  w' = MkWalk latest oldest complete None ->
  route_wrote kind w' s0 (set_indexed_route_descending_progress kind latest oldest complete (set_indexed_route_catch_up kind None s)).
Proof using.
  clear. intros (Hc & Hl & Hs & Hr) Ho Ht ->. destruct (Hr kind) as [Hw Hd]. split.
  - by destruct kind.
  - by destruct kind.
  - right. by destruct kind.
  - by destruct kind.
  - by destruct kind.
  - by destruct kind.
  - intros k Hk. destruct (Hr k) as [<- <-]. rewrite <-(Ho k Hk). by destruct kind, k.
Qed.
Lemma write_catch_up kind catch_up s0 s w' :
  same_cursors s0 s -> same_other_totals kind s0 s -> route_total s kind = Some (routed_total kind (counted kind w')) ->
  w' = MkWalk (walk_latest (route_walk s0 kind)) (walk_oldest (route_walk s0 kind)) (walk_complete (route_walk s0 kind)) catch_up ->
  route_wrote kind w' s0 (set_indexed_route_catch_up kind catch_up s).
Proof using.
  clear. intros (Hc & Hl & Hs & Hr) Ho Ht ->. destruct (Hr kind) as [Hw Hd]. split.
  - rewrite <-Hw. by destruct kind.
  - by destruct kind.
  - left. rewrite <-Hd. by destruct kind.
  - by destruct kind.
  - by destruct kind.
  - by destruct kind.
  - intros k Hk. destruct (Hr k) as [<- <-]. rewrite <-(Ho k Hk). by destruct kind, k.
Qed.

(** A page of history also records the order. *)
Lemma commit_backfill_order kind items latest oldest (m m' : Mem) :
  commit_route_backfill kind source_id (route_id kind) items latest oldest m = Some m' -> indexed_route_order_descending (st m') kind = Some true.
Proof using.
  clear. unfold commit_route_backfill, batched. destruct (add_amounts _ _ _ _ _) as [m1|]; [|done]. cbn [mbind option_bind].
  destruct (root_st (set_indexed_route_descending_progress kind latest oldest false) m1) as [Es _].
  unfold drop_persistence_batch. destruct (finish_depth _ _) as [[d flush]|]; [|done]. intros [= <-].
  assert (Eo : indexed_route_order_descending (st (with_root_state_mut (set_indexed_route_descending_progress kind latest oldest false) m1)) kind = Some true)
    by (rewrite Es; by destruct kind).
  destruct flush; [unfold persist_dirty_state; destruct (_ =? 0)|]; exact Eo.
Qed.

Section pages.
Context (V : list IndexTransactionWithId) (kind : IndexedRouteKind) (HV : V `suffix_of` U kind) (m : Mem).
Abbreviation w := (route_walk (st m) kind).
Context (Hm : route_exact_with V kind (st m)) (Hd : 0 <= persistence_batch_depth m).

Lemma route_catch_up_ok c page : walk_complete w = true -> begun w = Some c -> transactions page = serve V (next_start_tx_id c) ->
  transactions page <> [] ->
  let w' := caught_up w (catch_up_after c page) in
  walk_ok (U kind) V w' /\ exists m', commit_route_catch_up kind source_id (route_id kind) (walk_oldest w) c page m = Some m' /\
    route_wrote kind w' (st m) (st m') /\ 0 <= persistence_batch_depth m'.
Proof using HU Hamounts HV Hm Hd.
  intros Hcomp Hbeg Hp Hne w'. destruct (catch_up_step (U kind) V (HU kind) HV w c page (re_walk _ _ _ Hm) Hcomp Hbeg Hp Hne) as [Hok He].
  split; [done|]. unfold commit_route_catch_up. rewrite (surjective_pairing (catch_up_after c page)).
  apply (page_write kind w w' _ _ m He (re_total _ _ _ Hm) Hd). intros s Hc Ho Ht.
  assert (Ew : w' = if (catch_up_after c page).2
    then MkWalk (Some (observed_head_tx_id (catch_up_after c page).1)) (walk_oldest w) true None
    else MkWalk (walk_latest w) (walk_oldest w) (walk_complete w) (Some (catch_up_after c page).1))
    by (unfold w', caught_up; by rewrite Hcomp).
  destruct (catch_up_after c page).2; [by apply write_finish|by apply write_catch_up].
Qed.

Lemma route_backfill_ok page : walk_complete w = false -> transactions page = serve V (walk_oldest w) -> transactions page <> [] ->
  let w' := backfilled w (transactions page) false in
  walk_ok (U kind) V w' /\ exists m',
    commit_route_backfill kind source_id (route_id kind) (transactions page) (walk_latest w') (walk_oldest w') m = Some m' /\
    route_wrote kind w' (st m) (st m') /\ 0 <= persistence_batch_depth m'.
Proof using HU Hamounts HV Hm Hd.
  intros Hinc Hp Hne w'. pose proof (re_walk _ _ _ Hm) as Hw.
  destruct (backfill_step (U kind) V (HU kind) HV w (transactions page) Hw Hinc Hp Hne) as [Hok He].
  split; [done|]. apply (page_write kind w w' _ _ m He (re_total _ _ _ Hm) Hd). intros s Hc Ho Ht.
  apply write_progress; [done..|]. unfold w', backfilled. f_equal. unfold walk_ok in Hw. symmetry.
  destruct (walk_latest w), (walk_oldest w); try done.
  destruct (walk_catch_up w); [|done]. destruct Hw as (_ & _ & _ & _ & Hcc & _). congruence.
Qed.
End pages.

(** ** The environment *)

(** As [HistorianIndexRun.served], for both accounts. *)
Record routes_served (e : env Mem SuiteCall) : Prop := {
  rs_suffix : forall kind n, visible kind n `suffix_of` U kind;
  rs_grows : forall kind n, visible kind n `suffix_of` visible kind (S n);
  rs_pages : forall kind n start page, env_reply e n _ (GetTransactions index (route_id kind) start PAGE_SIZE) = Ok (Ok page) ->
    transactions page = serve (visible kind n) start;
}.
(** The other messages keep the invariant, and move no route cursor while the main lease
    and the sweep are what they were. *)
Record respects_main_lease (e : env Mem SuiteCall) : Prop := {
  rm_exact : forall n m, routes_exact n m -> routes_exact (S n) (env_interleave e n m);
  rm_fenced : forall n m lease active,
    route_work_is_current lease active (st m) = true -> route_work_is_current lease active (st (env_interleave e n m)) = true ->
    config (st (env_interleave e n m)) = config (st m) /\
    forall kind, route_walk (st (env_interleave e n m)) kind = route_walk (st m) kind /\
      indexed_route_order_descending (st (env_interleave e n m)) kind = indexed_route_order_descending (st m) kind;
}.

Section environment.
Context (e : env Mem SuiteCall) (Hserved : routes_served e) (Hrely : respects_main_lease e).

Abbreviation walk kind w := (route_walk (st (w_state w)) kind).
Abbreviation order kind w := (indexed_route_order_descending (st (w_state w)) kind).

Definition routes_good (w : world Mem SuiteCall) : Prop :=
  routes_exact (length (w_trace w)) (w_state w) /\
  Forall (fun ev => match ev with Dispatch _ m => exists n, routes_exact n m end) (w_trace w).
Definition working (lease : MainLeaseToken) (active : ActiveRouteSweep) (w : world Mem SuiteCall) : Prop :=
  routes_good w /\ route_work_is_current lease active (st (w_state w)) = true.
Definition route_fits (kind : IndexedRouteKind) (start : option Z) (page : IndexPage) (w : world Mem SuiteCall) : Prop :=
  exists k, visible kind k `suffix_of` U kind /\ (forall x, x ∈ visible kind k -> x ∈ visible kind (length (w_trace w))) /\
    transactions page = serve (visible kind k) start /\ walk_ok (U kind) (visible kind k) (walk kind w).

Lemma route_write kind w' w m' : routes_good w -> route_wrote kind w' (st (w_state w)) (st m') -> 0 <= persistence_batch_depth m' ->
  walk_ok (U kind) (visible kind (length (w_trace w))) w' ->
  (order kind w = None -> walk_latest w' = None \/ indexed_route_order_descending (st m') kind = Some true) ->
  routes_good (World m' (w_trace w)).
Proof using.
  intros [[Hx _] Ht] [Hw Htot Hord Hc _ _ Hother] Hd Hok Hf. split; [|done]. split; [|done]. intros k. cbn [w_state w_trace].
  destruct (decide (k = kind)) as [->|Hne].
  - destruct (Hx kind). split; rewrite ?Hc, ?Hw; try done. intros En. destruct Hord as [Ho|Ho]; [|congruence].
    rewrite Ho in En. destruct (Hf En); [done|congruence].
  - destruct (Hx k), (Hother k Hne) as (Ew & Eo & Et). split; rewrite ?Hc, ?Ew, ?Eo, ?Et; done.
Qed.

Lemma wrote_current kind w' s s' lease active : route_wrote kind w' s s' -> route_work_is_current lease active s' = route_work_is_current lease active s.
Proof using. intros [_ _ _ _ Hl Hs _]. unfold route_work_is_current, main_is_current_in. by rewrite Hl, Hs. Qed.

Lemma route_page_ok kind first_page start lease active (Q : option (result IndexPage string) -> world Mem SuiteCall -> Prop) w :
  working lease active w ->
  (forall page, first_page = Some page -> route_fits kind start page w) ->
  (forall w', routes_good w' -> Q None w') ->
  (forall msg w', working lease active w' -> Q (Some (Err msg)) w') ->
  (forall page w', working lease active w' -> (forall k, walk k w' = walk k w /\ order k w' = order k w) -> config (st (w_state w')) = config (st (w_state w)) ->
    route_fits kind start page w' -> Q (Some (Ok page)) w') ->
  wp e (route_page index kind (route_id kind) first_page start lease active) Q w.
Proof using Hserved Hrely.
  intros [Hg Hcur] Hfirst Hstop Herr Hok. unfold route_page. destruct first_page as [page|].
  { apply wp_ret, Hok; [done|done|done|by apply Hfirst]. }
  apply wp_bind. unfold get_account_identifier_transactions. apply wp_bind, wp_await. intros reply m2 Ereply Em2. apply wp_ret.
  apply wp_bind, wp_with_state, wp_ret. set (w2 := World m2 _).
  assert (Hg2 : routes_good w2).
  { split; [|constructor; [by eexists; apply Hg|apply Hg]]. cbn. rewrite Em2. apply (rm_exact _ Hrely), Hg. }
  destruct (route_work_is_current lease active (st (w_state w2))) eqn:Ecur; [|by apply Hstop].
  destruct (rm_fenced _ Hrely (length (w_trace w)) (w_state w) lease active Hcur) as [Hconf Hwalk]; [by rewrite <-Em2|].
  rewrite <-Em2 in Hconf, Hwalk.
  destruct reply as [[page|msg]|[d|d]]; cbn [collapse]; try by apply Herr.
  apply Hok; [done|exact Hwalk|exact Hconf|]. exists (length (w_trace w)). split; [apply (rs_suffix _ Hserved)|]. split; [|split].
  - intros x Hx. cbn [w2 w_trace length]. destruct (rs_grows e Hserved kind (length (w_trace w))) as [k ->]. apply elem_of_app. by right.
  - symmetry in Ereply. by apply (rs_pages _ Hserved) in Ereply.
  - destruct (Hwalk kind) as [Ew _]. change (walk kind w2) with (route_walk (st m2) kind). rewrite Ew. exact (re_walk _ _ _ (proj1 (proj1 Hg) kind)).
Qed.

(** *** The loops *)

Lemma route_catch_up_loop_ok kind lease active remaining (Q : Flow -> world Mem SuiteCall -> Prop) : forall c oldest first_page w,
  working lease active w -> walk_complete (walk kind w) = true -> begun (walk kind w) = Some c -> oldest = walk_oldest (walk kind w) ->
  order kind w <> None ->
  (forall page, first_page = Some page -> route_fits kind (next_start_tx_id c) page w) ->
  (forall flow w', routes_good w' -> Q flow w') ->
  wp e (route_catch_up_loop index kind source_id (route_id kind) oldest lease active remaining (Some c) first_page) Q w.
Proof using Hserved Hrely HU Hamounts.
  induction remaining as [|remaining IH]; intros c oldest first_page w Hg Hcomp Hbeg Eold Hord Hfirst HQ;
    [apply wp_ret; apply HQ, Hg|].
  cbn [route_catch_up_loop]. apply wp_bind. apply (route_page_ok kind first_page (next_start_tx_id c) lease active); [done|done| | |].
  { intros w' Hg'. apply wp_ret. by apply HQ. }
  { intros msg w' [Hg' _]. apply wp_ret. by apply HQ. }
  intros page w' [Hg' Hcur'] Hwalk Hconf (k & Hk & Hsub & Hp & Hok'). destruct (Hwalk kind) as [Ewalk Eord]. rewrite <-Ewalk in *. rewrite <-Eord in Hord.
  destruct (transactions page) as [|tx txs] eqn:Et.
  { exfalso. by apply (catch_up_nonempty (U kind) (visible kind k) (HU kind) Hk (walk kind w') c Hok' Hcomp Hbeg). }
  assert (Hexact : route_exact_with (visible kind k) kind (st (w_state w'))) by (destruct (proj1 (proj1 Hg') kind); by split).
  rewrite <-Et in Hp.
  destruct (route_catch_up_ok (visible kind k) kind Hk (w_state w') Hexact (proj2 (proj1 Hg')) c page Hcomp Hbeg Hp) as (Hnext & m' & Em & Hw & Hd); [congruence|].
  rewrite Eold. apply wp_bind, commit_ok. exists m'. split; [done|]. set (w1 := World m' (w_trace w')).
  assert (Hg1 : working lease active w1).
  { split; [|cbn; by rewrite (wrote_current _ _ _ _ _ _ Hw)]. eapply route_write; [done|exact Hw|done| |done]. eapply walk_ok_mono; [|exact Hnext]. exact Hsub. }
  pose proof (rw_walk _ _ _ _ Hw) as Hw1. change (walk kind w1 = caught_up (walk kind w') (catch_up_after c page)) in Hw1.
  assert (Hord1 : order kind w1 <> None) by (destruct (rw_order _ _ _ _ Hw) as [Eo|Eo]; unfold w1; cbn [w_state]; rewrite Eo; done).
  rewrite (surjective_pairing (catch_up_after c page)). unfold caught_up in Hw1. destruct (catch_up_after c page).2.
  - apply wp_ret. apply HQ, Hg1.
  - apply IH; [done|by rewrite Hw1|by rewrite Hw1|by rewrite Hw1|done|done|done].
Qed.

Lemma route_backfill_loop_ok kind lease active remaining (Q : result unit string + option Z * option Z * bool -> world Mem SuiteCall -> Prop) :
  forall first_page w, working lease active w -> walk_complete (walk kind w) = false ->
  (forall page, first_page = Some page -> route_fits kind (walk_oldest (walk kind w)) page w) ->
  (forall r w', routes_good w' -> Q (inl r) w') ->
  (forall complete w', working lease active w' -> walk_complete (walk kind w') = false ->
    (order kind w' = None -> walk_latest (walk kind w') = None) ->
    walk_ok (U kind) (visible kind (length (w_trace w'))) (MkWalk (walk_latest (walk kind w')) (walk_oldest (walk kind w')) complete (walk_catch_up (walk kind w'))) ->
    Q (inr (walk_latest (walk kind w'), walk_oldest (walk kind w'), complete)) w') ->
  wp e (route_backfill_loop index kind source_id (route_id kind) lease active remaining (walk_latest (walk kind w)) (walk_oldest (walk kind w)) first_page) Q w.
Proof using Hserved Hrely HU Hamounts.
  induction remaining as [|remaining IH]; intros first_page w Hg Hinc Hfirst Hstop Hok.
  { apply wp_ret. destruct (proj1 (proj1 (proj1 Hg)) kind). apply Hok; [done|done|done|]. rewrite <-Hinc. done. }
  cbn [route_backfill_loop]. apply wp_bind. apply (route_page_ok kind first_page (walk_oldest (walk kind w)) lease active); [done|done| | |].
  { intros w' Hg'. apply wp_ret. by apply Hstop. }
  { intros msg w' [Hg' _]. apply wp_ret. by apply Hstop. }
  intros page w' [Hg' Hcur'] Hwalk Hconf (k & Hk & Hsub & Hp & Hok'). destruct (Hwalk kind) as [Ewalk Eord]. rewrite <-Ewalk in *.
  assert (Hmono : forall walk', walk_ok (U kind) (visible kind k) walk' -> walk_ok (U kind) (visible kind (length (w_trace w'))) walk')
    by (intros walk'; apply walk_ok_mono; exact Hsub).
  rewrite (older_items_serve _ _ _ Hp). destruct (transactions page) as [|tx txs] eqn:Et.
  { apply wp_ret. apply Hok; [done|done|apply (proj1 (proj1 Hg') kind)|]. apply Hmono. by apply (backfill_empty (U kind) (visible kind k) (HU kind) Hk). }
  assert (Hexact : route_exact_with (visible kind k) kind (st (w_state w'))) by (destruct (proj1 (proj1 Hg') kind); by split).
  rewrite <-Et in Hp. assert (Hne : transactions page <> []) by congruence.
  destruct (route_backfill_ok (visible kind k) kind Hk (w_state w') Hexact (proj2 (proj1 Hg')) page Hinc Hp Hne) as (Hnext & m' & Em & Hw & Hd).
  assert (Hend : is_short page = true -> walk_ok (U kind) (visible kind k) (backfilled (walk kind w') (transactions page) true)).
  { intros Es. apply (backfill_short (U kind) (visible kind k) (HU kind) Hk (walk kind w') _ Hok' Hinc Hp Hne). unfold is_short in Es. lia. }
  rewrite Et in Hnext, Em, Hw, Hend. cbv zeta.
  apply wp_bind, commit_ok. exists m'. split; [exact Em|]. set (w1 := World m' (w_trace w')).
  pose proof (rw_walk _ _ _ _ Hw) as Hw1. set (next := backfilled (walk kind w') (tx :: txs) false) in *. change (walk kind w1 = next) in Hw1.
  assert (Hord1 : order kind w1 = Some true) by (unfold w1; cbn; apply (commit_backfill_order kind _ _ _ _ _ Em)).
  assert (Hg1 : working lease active w1).
  { split; [|cbn; by rewrite (wrote_current _ _ _ _ _ _ Hw)]. eapply route_write; [done|exact Hw|done|by apply Hmono|by right]. }
  change (raise (walk_latest (walk kind w')) (max_id (tx :: txs))) with (walk_latest next).
  change (lower (walk_oldest (walk kind w')) (min_id (tx :: txs))) with (walk_oldest next).
  rewrite <-Hw1. destruct (is_short page) eqn:Es.
  - apply wp_ret. apply Hok; [done|by rewrite Hw1|by rewrite Hord1|]. rewrite Hw1. by apply Hmono, Hend.
  - apply IH; [done|by rewrite Hw1|done|done|done].
Qed.

(** *** The whole run *)

(** A write of the root section that touches no route. *)
Lemma routes_root (f : State -> State) w : routes_good w ->
  config (f (st (w_state w))) = config (st (w_state w)) ->
  (forall kind, route_walk (f (st (w_state w))) kind = walk kind w /\ indexed_route_order_descending (f (st (w_state w))) kind = order kind w /\
     route_total (f (st (w_state w))) kind = route_total (st (w_state w)) kind) ->
  routes_good (World (with_root_state_mut f (w_state w)) (w_trace w)).
Proof using.
  intros [[Hx Hd] Ht] Hc Hr. destruct (root_st f (w_state w)) as [Es Ed]. split; [|done]. split; cbn [w_state w_trace]; [|by rewrite Ed].
  intros kind. destruct (Hx kind), (Hr kind) as (Ew & Eo & Et). rewrite Es. split; rewrite ?Hc, ?Ew, ?Eo, ?Et; done.
Qed.

Lemma progress_good kind latest oldest complete lease active w :
  working lease active w -> latest = walk_latest (walk kind w) -> oldest = walk_oldest (walk kind w) ->
  (forall x, covered (MkWalk latest oldest complete (walk_catch_up (walk kind w))) x = covered (walk kind w) x) ->
  walk_ok (U kind) (visible kind (length (w_trace w))) (MkWalk latest oldest complete (walk_catch_up (walk kind w))) ->
  let f := fun s => if route_work_is_current lease active s then set_indexed_route_descending_progress kind latest oldest complete s else s in
  let w' := World (with_root_state_mut f (w_state w)) (w_trace w) in
  working lease active w' /\ order kind w' = Some true /\ walk kind w' = MkWalk latest oldest complete (walk_catch_up (walk kind w)).
Proof using.
  intros [Hg Hcur] El Eo Hcov Hok f w'. destruct (root_st f (w_state w)) as [Es Ed].
  assert (Ef : f (st (w_state w)) = set_indexed_route_descending_progress kind latest oldest complete (st (w_state w))) by (unfold f; by rewrite Hcur).
  assert (Hwrote : route_wrote kind (MkWalk latest oldest complete (walk_catch_up (walk kind w))) (st (w_state w)) (st (w_state w'))).
  { unfold w'. cbn [w_state]. rewrite Es, Ef. apply write_progress; [apply same_cursors_refl|done| |done].
    rewrite (re_total _ _ _ (proj1 (proj1 Hg) kind)). do 2 f_equal. symmetry. by apply filter_ext. }
  split; [split|split].
  - eapply route_write; [done|exact Hwrote|by rewrite Ed; apply Hg|exact Hok|]. intros _. right. unfold w'. rewrite Es, Ef. by destruct kind.
  - by rewrite (wrote_current _ _ _ _ _ _ Hwrote).
  - unfold w'. cbn [w_state]. rewrite Es, Ef. by destruct kind.
  - apply (rw_walk _ _ _ _ Hwrote).
Qed.

Lemma walk_route_ok cfg kind lease active complete first_page (Q : Flow -> world Mem SuiteCall -> Prop) w :
  working lease active w -> account_identifier_text_for_account (output_source_account cfg) = source_id ->
  account_identifier_text_for_account (indexed_route_account cfg kind) = route_id kind ->
  complete = walk_complete (walk kind w) -> (walk_latest (walk kind w) = None -> complete = false) ->
  (forall page, first_page = Some page -> walk_latest (walk kind w) = None /\ route_fits kind None page w) ->
  (forall flow w', routes_good w' -> Q flow w') ->
  wp e (walk_route index cfg kind lease active (walk_latest (walk kind w)) (walk_oldest (walk kind w)) complete first_page) Q w.
Proof using Hserved Hrely HU Hamounts.
  intros Hg Esource Eroute -> Hopen Hfirst HQ. unfold walk_route. cbv zeta. rewrite Esource, Eroute. set (budget := page_budget _). clearbody budget.
  pose proof (proj1 (proj1 (proj1 Hg)) kind) as Hexact. pose proof (re_walk _ _ _ Hexact) as Hok.
  destruct (walk_latest (walk kind w)) as [latest|] eqn:El; cbn [is_some andb].
  - destruct (walk_complete (walk kind w)) eqn:Ec.
    + apply wp_bind, wp_with_state. assert (Hbeg : begun (walk kind w) = seed_catch_up (indexed_route_catch_up (st (w_state w)) kind) (Some latest))
        by (unfold begun; by rewrite El).
      destruct (seed_catch_up _ (Some latest)) as [c|] eqn:Es; [|unfold seed_catch_up in Es; by destruct (indexed_route_catch_up _ _)].
      apply route_catch_up_loop_ok; [done|done|done|done| | |done].
      * intros En. by rewrite (re_fresh _ _ _ Hexact En) in El.
      * intros page Ep. by destruct (Hfirst _ Ep).
    + rewrite <-El. apply wp_bind, route_backfill_loop_ok; [done|done| |intros r w' Hg'; apply wp_ret; by apply HQ|].
      { intros page Ep. by destruct (Hfirst _ Ep). }
      intros complete w' Hg' Hc' Hf' Hok'. apply wp_bind, wp_modify, wp_ret, HQ.
      apply (progress_good kind _ _ complete lease active w'); done.
  - assert (Hinc : walk_complete (walk kind w) = false) by (by apply Hopen). rewrite Hinc, <-El.
    apply wp_bind, route_backfill_loop_ok; [done|done| |intros r w' Hg'; apply wp_ret; by apply HQ|].
    { intros page Ep. destruct (Hfirst _ Ep) as [_ Hfit]. unfold walk_ok in Hok. rewrite El in Hok. destruct (walk_oldest (walk kind w)); [done|exact Hfit]. }
    intros complete w' Hg' Hc' Hf' Hok'. apply wp_bind, wp_modify, wp_ret, HQ. apply (progress_good kind _ _ complete lease active w'); done.
Qed.

(** The order is only missing before the first page. *)
Lemma first_route_page_ok cfg kind lease active (Q : option (result (option IndexPage) string) -> world Mem SuiteCall -> Prop) order_seen w :
  working lease active w -> account_identifier_text_for_account (indexed_route_account cfg kind) = route_id kind ->
  (order_seen = None -> walk_latest (walk kind w) = None) ->
  (forall w', routes_good w' -> Q None w') -> (forall msg w', routes_good w' -> Q (Some (Err msg)) w') ->
  (forall first_page w', working lease active w' -> walk kind w' = walk kind w ->
    (forall page, first_page = Some page -> walk_latest (walk kind w') = None /\ route_fits kind None page w') -> Q (Some (Ok first_page)) w') ->
  wp e (first_route_page index cfg kind order_seen lease active) Q w.
Proof using Hserved Hrely.
  intros Hg Eroute Hfresh Hstop Herr HQ. unfold first_route_page. destruct (is_none order_seen) eqn:En; [|apply wp_ret; by apply HQ].
  destruct order_seen as [b|]; [done|]. rewrite Eroute.
  apply wp_bind, (route_page_ok kind None None lease active); [done|done|intros w' Hg'; apply wp_ret; by apply Hstop| |].
  - intros msg w' [Hg' _]. apply wp_ret. by apply Herr.
  - intros page w' Hg' Hwalk _ Hfit. destruct (Hwalk kind) as [Ew _]. apply wp_ret, HQ; [done|done|]. intros page' [= <-].
    rewrite Ew. split; [by apply Hfresh|done].
Qed.

Lemma routes_ok started_at_ts_nanos now_secs lease w : routes_good w ->
  wp e (process_route_indexing index started_at_ts_nanos now_secs lease) (fun _ w' => routes_good w') w.
Proof using Hserved Hrely HU Hamounts.
  intros Hg. unfold process_route_indexing. apply wp_bind, wp_with_state, wp_bind. set (cfg := config (st (w_state w))).
  unfold root_result. apply wp_with_state_mut. set (s0 := st (w_state w)). set (w1 := World _ (w_trace w)).
  assert (Hg1 : routes_good w1 /\ config (st (w_state w1)) = cfg /\
    forall active, (begin_route_sweep lease started_at_ts_nanos s0).1 = Some active -> route_work_is_current lease active (st (w_state w1)) = true).
  { unfold w1. cbn [w_state fst snd]. destruct (root_st (fun s => (begin_route_sweep lease started_at_ts_nanos s).2) (w_state w)) as [Es _].
    split; [apply routes_root; [done|..]; unfold begin_route_sweep; cbv beta; fold s0;
      destruct (main_is_current_in lease s0); [destruct (active_route_sweep s0)| |destruct (active_route_sweep s0)|]; done|].
    rewrite Es. fold s0. unfold begin_route_sweep. destruct (main_is_current_in lease s0) eqn:Ec; [|done].
    destruct (active_route_sweep s0) as [a|] eqn:Ea; (split; [done|]); intros active [= <-]; unfold route_work_is_current, sweep_eqb.
    - cbn [snd]. rewrite Ec, Ea. cbn. by rewrite !Z.eqb_refl.
    - change (main_is_current_in lease s0 && ((started_at_ts_nanos =? started_at_ts_nanos) && (0 =? 0)) = true). by rewrite Ec, !Z.eqb_refl. }
  destruct Hg1 as (Hg1 & Econf1 & Hcur1). clearbody w1. destruct (begin_route_sweep lease started_at_ts_nanos s0).1 as [active|]; cbn [fst snd]; [|by apply wp_ret].
  specialize (Hcur1 _ eq_refl). destruct (indexed_route_kinds !! Z.to_nat (route_next_index active)) as [kind|].
  2: { apply wp_bind, wp_modify, wp_ret. apply routes_root; [done|..]; destruct (route_work_is_current _ _ _); done. }
  apply wp_bind, wp_with_state. cbv zeta. set (s1 := st (w_state w1)) in *. pose proof (proj1 (proj1 Hg1) kind) as Hexact.
  pose proof (re_walk _ _ _ Hexact) as Hok.
  assert (Eold : seed_oldest (indexed_route_cursor s1 kind) (indexed_route_oldest_cursor s1 kind) = walk_oldest (walk kind w1)).
  { unfold walk_ok in Hok. cbn in Hok |- *. fold s1 in Hok |- *.
    destruct (indexed_route_cursor s1 kind), (indexed_route_oldest_cursor s1 kind); done. }
  rewrite Eold. change (indexed_route_cursor s1 kind) with (walk_latest (walk kind w1)).
  change (indexed_route_backfill_complete s1 kind) with (walk_complete (walk kind w1)).
  set (reopened := walk_complete (walk kind w1) && is_none (walk_latest (walk kind w1))).
  set (complete := walk_complete (walk kind w1) && negb reopened).
  assert (Hrest : forall w2, working lease active w2 -> walk_latest (walk kind w2) = walk_latest (walk kind w1) ->
    walk_oldest (walk kind w2) = walk_oldest (walk kind w1) -> walk_complete (walk kind w2) = complete ->
    wp e (if bool_decide (indexed_route_order_descending s1 kind = Some false) then mret (Err (unsupported_route_order kind))
      else first ← first_route_page index cfg kind (indexed_route_order_descending s1 kind) lease active;
        match first with
        | None => mret (Ok tt)
        | Some (Err err) => mret (Err err)
        | Some (Ok first_page) =>
            flow ← walk_route index cfg kind lease active (walk_latest (walk kind w1)) (walk_oldest (walk kind w1)) complete first_page;
            match flow with
            | Done r => mret r
            | Continue completed =>
                _ ← (if completed : bool then root (advance_route_sweep lease active now_secs) else mret tt); mret (Ok tt)
            end
        end) (fun _ w' => routes_good w') w2).
  { intros w2 Hg2 El Eo Ec. case_bool_decide; [apply wp_ret, Hg2|].
    assert (Ecfg : account_identifier_text_for_account (output_source_account cfg) = source_id /\ account_identifier_text_for_account (indexed_route_account cfg kind) = route_id kind).
    { rewrite <-Econf1. split; [exact (re_source _ _ _ Hexact)|exact (re_route _ _ _ Hexact)]. }
    apply wp_bind, first_route_page_ok; [done|apply Ecfg| |intros; by apply wp_ret|intros; by apply wp_ret|].
    { intros En. rewrite El. apply (re_fresh _ _ _ Hexact). exact En. }
    intros first_page w3 Hg3 Ew Hfirst. rewrite <-El, <-Eo, <-Ew. apply wp_bind, walk_route_ok; [done|apply Ecfg|apply Ecfg|by rewrite Ew| |done|].
    { rewrite Ew, El. unfold complete, reopened. intros En. rewrite En. cbn [is_none]. rewrite andb_true_r. apply andb_negb_r. }
    intros flow w4 Hg4. destruct flow as [r|[|]]; [by apply wp_ret| |by apply wp_bind, wp_ret, wp_ret].
    apply wp_bind, wp_modify, wp_ret. apply routes_root; [done|..]; unfold advance_route_sweep; cbv beta; destruct (route_work_is_current lease active (st (w_state w4))); try done;
      cbv zeta; destruct (Z.of_nat (length indexed_route_kinds) <=? _); try done. }
  destruct reopened eqn:Er.
  - apply andb_true_iff in Er as [Eb En]. apply wp_bind, wp_modify.
    assert (El : walk_latest (walk kind w1) = None) by (by destruct (walk_latest (walk kind w1))).
    assert (Eo : walk_oldest (walk kind w1) = None) by (unfold walk_ok in Hok; rewrite El in Hok; by destruct (walk_oldest (walk kind w1))).
    destruct (progress_good kind None None false lease active w1) as (Hg2 & _ & Ew2); [done|done|done|..].
    + intros x. unfold covered. cbn [walk_latest walk_oldest walk_catch_up]. by rewrite El, Eo.
    + unfold walk_ok in *. cbn [walk_latest walk_oldest walk_catch_up]. by rewrite El, Eo in Hok.
    + apply Hrest; [done|by rewrite Ew2, El|by rewrite Ew2, Eo|]. rewrite Ew2. unfold complete. by rewrite andb_false_r.
  - apply wp_bind, wp_ret. apply Hrest; [done|done|done|]. unfold complete. by rewrite andb_true_r.
Qed.

End environment.

End run.

(** The totals of both routes are those of the transfers that their cursors cover. *)
Definition totals_exact `{P : PrincipalSpec} (source_id : list Z) (route_id : IndexedRouteKind -> list Z)
    (account : IndexedRouteKind -> list IndexTransactionWithId) (m : Mem) : Prop :=
  forall kind, route_total (st m) kind =
    Some (routed_total source_id route_id kind (List.filter (covered (route_walk (st m) kind)) (account kind))).

(** C13: Whatever the index answers, in whatever order, and whatever other messages do that
    close their batches and keep the counters, a run of the route indexer returns, and so
    it leaves the memory at every call.  When, besides, the index serves both accounts
    newest first and forgets nothing and the other messages respect the main lease, then at
    every call and at the end the output and rewards totals are exactly the sums of the
    transfers that the cursors of their route cover. *)
Theorem routed_totals_exact `{P : PrincipalSpec} `{O : !OrdSpec Principal} `{SS : !SliceSpec} `{T : TextSpec} `{H : HashSpec}
    (index : Principal) (e : env Mem SuiteCall) (started_at_ts_nanos now_secs : Z) (lease : MainLeaseToken) (w : world Mem SuiteCall)
    (Hothers : forall n m, usable m -> usable (env_interleave e n m)) (Husable : committed usable w) :
  exists r w', process_route_indexing index started_at_ts_nanos now_secs lease e w = (Returned r, w') /\
    committed usable w' /\
    forall (source_id : list Z) (route_id : IndexedRouteKind -> list Z) (account : IndexedRouteKind -> list IndexTransactionWithId)
      (visible : IndexedRouteKind -> nat -> list IndexTransactionWithId),
      (forall kind, descending (account kind)) -> (forall kind, Forall amount_ok (account kind)) ->
      routes_served index route_id account visible e -> respects_main_lease source_id route_id account visible e ->
      routes_good source_id route_id account visible w ->
      routes_good source_id route_id account visible w' /\ committed (totals_exact source_id route_id account) w'.
Proof.
  destruct (keeps_returns e _ _ w (returns_routes e (committed usable) (committed_usable_call e Hothers)
    (fun w Hw => proj1 Hw) committed_usable_write index started_at_ts_nanos now_secs lease) Husable) as (r & w' & E & Hw').
  exists r, w'. split; [done|]. split; [done|]. intros source_id route_id account visible Ha Hm Hs Hl Hg.
  assert (Hg' : routes_good source_id route_id account visible w').
  { eapply (wp_run e _ (fun _ w' => routes_good source_id route_id account visible w')); [exact E|]. eapply routes_ok; eauto. }
  split; [done|]. split; [intros kind; apply (proj1 Hg')|]. eapply Forall_impl; [apply Hg'|].
  intros [X c m] [n Hn] kind. apply Hn.
Qed.

(** * A run over two accounts *)

Module ConcreteRoutes.
Import Concrete ConcreteKeys ConcreteTexts ConcreteHash ConcreteDurable.
Abbreviation principal := (Principal (PrincipalSpec:=concrete_principal)).

Definition account8 : Account (H:=concrete_principal) := MkAccount concrete_principal 8 None.
Definition config1 : Config (P:=concrete_principal) := config0 <| output_account := account8 |>.
Definition source0 : list Z := account_identifier_text_for_account (output_source_account config1).
Definition route0 (kind : IndexedRouteKind) : list Z := account_identifier_text_for_account (indexed_route_account config1 kind).
Definition routed (id : Z) (from_ to_ : list Z) (amount : Z) : IndexTransactionWithId :=
  MkTxWithId id (MkIndexTransaction 0 None (IndexTransfer from_ to_ amount 10000 None) (Some (id * 1000000000)) None).
Definition accounts0 (kind : IndexedRouteKind) : list IndexTransactionWithId :=
  match kind with
  | RouteOutput => [routed 12 source0 (route0 RouteOutput) 40; routed 8 [1] (route0 RouteOutput) 7; routed 3 source0 (route0 RouteOutput) 2]
  | RouteRewards => [routed 5 source0 (route0 RouteRewards) 9]
  end.
Definition account_of (id : list Z) : list IndexTransactionWithId :=
  accounts0 (if bool_decide (id = route0 RouteOutput) then RouteOutput else RouteRewards).
Definition env1 : env (Mem (P:=concrete_principal)) SuiteCall := {|
  env_reply := fun n X c =>
    match c in SuiteCall Y return Y -> Y with
    | GetTransactions _ id start _ => fun _ => Ok (Ok (MkIndexPage 0 None (serve (account_of id) start)))
    | _ => fun r => r
    end (reply_ok 0 0 c);
  env_interleave := fun _ m => m;
  env_clock := fun _ => 2000000000000;
|}.
Definition state1 : state := State_new config1 1000.
Definition leased1 : Mem (P:=concrete_principal) :=
  (set_state state1 (restarted Storage_empty state1)) <| st ::= fun s => (acquire_main_in 2000 s).2 |>.
Definition world1 : world (Mem (P:=concrete_principal)) SuiteCall := World leased1 [].
Definition routed1 := process_route_indexing (2 : principal) 2000000000000 2000 2900 env1 world1.

Example routed1_first : routed1.1 = Returned (Ok tt) /\
  route_total (st (w_state routed1.2)) RouteOutput = Some 42 /\ route_total (st (w_state routed1.2)) RouteRewards = Some 0 /\
  route_walk (st (w_state routed1.2)) RouteOutput = MkWalk (Some 12) (Some 3) true None.
Proof. vm_compute. done. Qed.

Lemma route0_ne : bool_decide (route0 RouteRewards = route0 RouteOutput) = false.
Proof. vm_compute. reflexivity. Qed.
Lemma served1 : routes_served (2 : principal) route0 accounts0 (fun kind _ => accounts0 kind) env1.
Proof.
  split; [reflexivity|reflexivity|]. intros kind n start page E.
  change (Ok (Ok (MkIndexPage 0 None (serve (account_of (route0 kind)) start))) = Ok (Ok page) :> result (result IndexPage string) TransportError) in E.
  injection E as <-. cbn [transactions]. f_equal. unfold account_of. destruct kind; [by rewrite bool_decide_true|by rewrite route0_ne].
Qed.
Lemma lease1_respected : respects_main_lease source0 route0 accounts0 (fun kind _ => accounts0 kind) env1.
Proof. split; [intros n m Hm; exact Hm|done]. Qed.
Lemma descending1 kind : descending (accounts0 kind).
Proof. destruct kind; repeat constructor. Qed.
Lemma amounts1 kind : Forall amount_ok (accounts0 kind).
Proof. destruct kind; repeat constructor; cbn; lia. Qed.
Lemma good1 : routes_good source0 route0 accounts0 (fun kind _ => accounts0 kind) world1.
Proof.
  split; [|constructor]. split; [|done]. intros []; (split; [reflexivity|reflexivity|reflexivity| |reflexivity]); by split.
Qed.

Lemma usable1 : committed usable world1.
Proof. split; [by split|constructor]. Qed.
Lemma routed_totals_exact_witness : exists r w', routed1 = (Returned r, w') /\ totals_exact source0 route0 accounts0 (w_state w') /\
  route_total (st (w_state routed1.2)) RouteOutput = Some 42.
Proof.
  destruct (routed_totals_exact (2 : principal) env1 2000000000000 2000 (2900 : MainLeaseToken) world1 (fun n m Hm => Hm) usable1)
    as (r & w' & E & _ & Hbooks).
  destruct (Hbooks source0 route0 accounts0 (fun kind _ => accounts0 kind) descending1 amounts1 served1 lease1_respected good1) as [_ [Ht _]].
  exists r, w'. split; [exact E|]. split; [exact Ht|]. vm_compute. reflexivity.
Defined.

End ConcreteRoutes.
