(* ===== verification/HistorianProbe.v ===== *)
(** * Historian: probing cycles ([scheduler/cycles_probe.rs])

    One probe and what it records, the queue of first probes and the periodic sweep.  A
    probe writes only while its fence is current: the main lease and, in a sweep, the
    record of the sweep. *)

From S2P Require Import Prelude BTree Async Ic Accounts Clients CyclesProbe TimerGuard HistorianTypes HistorianKeys HistorianState HistorianTracking HistorianCommitments HistorianIndexer HistorianRoutes.

(** [l[next..end]]; [None]: the range is not one, a panic. *)
Definition slice_end {A} (next max : Z) (l : list A) : Z := Z.min (next + max) (Z.of_nat (length l)).
Definition slice {A} (next end_ : Z) (l : list A) : option (list A) :=
  if next <=? end_ then Some (take (Z.to_nat (end_ - next)) (drop (Z.to_nat next) l)) else None.

Section probe.
Context `{P : PrincipalSpec} `{O : !OrdSpec Principal} `{SS : !SliceSpec} `{T : TextSpec} `{Ids : !ProbeIds}.
#[local] Existing Instance Principal_eq_dec.
Local Abbreviation async := (async Mem SuiteCall).

#[export] Instance ActiveCyclesSweep_eq_dec : EqDecision ActiveCyclesSweep.
Proof. solve_decision. Defined.

(** ** The fence *)

Inductive CyclesProbeFence :=
| FenceInitial (lease : MainLeaseToken)
| FenceSweep (lease : MainLeaseToken) (expected : ActiveCyclesSweep) (target : Principal) (target_index : Z).
Definition fence_is_current_in (fence : CyclesProbeFence) (p : Principal) (s : State) : bool :=
  match fence with
  | FenceInitial lease => main_is_current_in lease s
  | FenceSweep lease expected target target_index =>
      main_is_current_in lease s && bool_decide (target = p) && bool_decide (active_cycles_sweep s = Some expected)
      && bool_decide (sweep_canisters expected !! Z.to_nat target_index = Some target)
  end.

Definition cycles_sample_source_for_route (route : option CyclesProbeRoute) : CyclesSampleSource :=
  match route with
  | None => SelfCanister
  | Some DirectCanisterStatus => FromDirectCanisterStatus
  | Some (Blackhole _) => BlackholeStatus
  | Some NnsRoot => NnsRootStatus
  | Some (SnsRoot _) => SnsRootStatus
  | Some (SnsSwap _ _) => SnsSwapStatus
  end.

(** ** One probe *)

(** [or_insert_with(CanisterMeta::default)], first seen now. *)
Definition seen_meta (p : Principal) (now_secs : Z) (s : State) : CanisterMeta :=
  let meta := default CanisterMeta_default (btree_get p (per_canister_meta s)) in
  if is_none (first_seen_ts meta) then meta <| first_seen_ts := Some now_secs |> else meta.
Definition record_cycles (fence : CyclesProbeFence) (timestamp_nanos now_secs : Z) (p : Principal) (max_entries cycles : Z)
    (route : option CyclesProbeRoute) (g : Storage) (s : State) : State :=
  if negb (fence_is_current_in fence p s) then s
  else
    let source := cycles_sample_source_for_route route in
    let s := s <| cached_cycles_probe_routes ::= match route with Some r => btree_insert p r | None => btree_remove p end |> in
    let loaded := ensure_loaded principal_key (stable_cycles g) p (cycles_history s) in
    let (inserted, history) := push_cycles_sample (default [] (btree_get p loaded))
      (make_cycles_sample timestamp_nanos cycles source) max_entries in
    let meta := seen_meta p now_secs s in
    let meta := if inserted : bool then apply_cycles_probe_result meta timestamp_nanos (ProbeOk source) else meta in
    refresh_memo_registered_canister_summary g p
      (s <| cycles_history := btree_insert p history loaded |> <| per_canister_meta ::= btree_insert p meta |>).
Definition record_failure (fence : CyclesProbeFence) (timestamp_nanos now_secs : Z) (p : Principal) (message : string) (g : Storage)
    (s : State) : State :=
  if negb (fence_is_current_in fence p s) then s
  else
    let meta := apply_cycles_probe_result (seen_meta p now_secs s) timestamp_nanos (ProbeError message) in
    refresh_memo_registered_canister_summary g p
      (s <| cached_cycles_probe_routes ::= btree_remove p |> <| per_canister_meta ::= btree_insert p meta |>).

Context (C : CyclesProbeClient Mem).

Definition probe_and_record_cycles_with_fence (timestamp_nanos now_secs : Z) (p : Principal) (max_entries : Z)
    (fence : CyclesProbeFence) : async (result unit string) :=
  cached_route ← read (fun s => btree_get p (cached_cycles_probe_routes s));
  outcome ← probe_cycles (C:=C) Auto p cached_route;
  current ← read (fence_is_current_in fence p);
  if negb current then mret (Ok tt)
  else
    _ ← modify (fun m =>
      match outcome with
      | Ok success =>
          with_root_registry_and_cycles_canister_state_mut p
            (record_cycles fence timestamp_nanos now_secs p max_entries (cycles success) (route success) (storage m)) m
      | Err failure =>
          with_root_and_registry_canister_state_mut p
            (record_failure fence timestamp_nanos now_secs p (message failure) (storage m)) m
      end);
    mret (Ok tt).

(** ** The queue of first probes *)

Definition begin_initial_probes (lease : MainLeaseToken) (g : Storage) (s : State) : option (list Principal * Z * bool) * State :=
  if negb (main_is_current_in lease s) then (None, s)
  else
    let max_per_tick := Z.to_nat (Z.max (max_canisters_per_cycles_tick (config s)) 1) in
    let s := s <| initial_cycles_probe_queue ::= List.filter (fun p =>
      negb (is_some (meta ← btree_get p (per_canister_meta s); last_cycles_probe_ts meta)) && should_probe_tracked_canister g s p) |> in
    let selected := take max_per_tick (initial_cycles_probe_queue s) in
    (Some (selected, max_cycles_entries_per_canister (config s), existsb (should_refresh_staking_neuron_for_canister g s) selected), s).

(** [position] and [remove]: the first occurrence. *)
Fixpoint remove_first (p : Principal) (queue : list Principal) : list Principal :=
  match queue with
  | [] => []
  | q :: queue => if decide (q = p) then queue else q :: remove_first p queue
  end.
Definition dequeue_initial_probe (lease : MainLeaseToken) (p : Principal) (s : State) : State :=
  if main_is_current_in lease s then s <| initial_cycles_probe_queue ::= remove_first p |> else s.

(** [false]: the lease was lost. *)
Fixpoint initial_probe_loop (timestamp_nanos now_secs max_entries : Z) (lease : MainLeaseToken) (targets : list Principal) : async bool :=
  match targets with
  | [] => mret true
  | p :: targets =>
      _ ← probe_and_record_cycles_with_fence timestamp_nanos now_secs p max_entries (FenceInitial lease);
      current ← main_is_current lease;
      if negb current then mret false
      else
        _ ← root (dequeue_initial_probe lease p);
        initial_probe_loop timestamp_nanos now_secs max_entries lease targets
  end.

(** [NnsGovernanceCanister::claim_or_refresh_neuron_by_subaccount] *)
Definition claim_or_refresh_neuron_by_subaccount (governance : Principal) (subaccount : list Z) : async (result unit ClientError) :=
  r ← await (RefreshNeuronBySubaccount governance subaccount);
  mret match r with
       | Err (NotDelivered d) => Err (CallFailed ("claim_or_refresh call failed: " ++ d))
       | Err (Undecodable d) => Err (CallFailed ("decode claim_or_refresh failed: " ++ d))
       | Ok (Some RespClaimOrRefresh) => Ok tt
       | Ok (Some (RespError e)) =>
           Err (CallFailed ("claim_or_refresh rejected: type=" ++ display_i32 (error_type e) ++ " message=" ++ error_message e))
       | Ok other => Err (CallFailed ("unexpected claim_or_refresh response: " ++ debug_response other))
       end.
(** A failure is only logged. *)
Definition refresh_staking_neuron_after_registration (governance : Principal) : async unit :=
  subaccount ← read (fun s => subaccount (staking_account (config s)));
  match subaccount with
  | None => mret tt
  | Some subaccount => _ ← claim_or_refresh_neuron_by_subaccount governance subaccount; mret tt
  end.

Definition process_initial_cycles_probe_queue (timestamp_nanos now_secs : Z) (governance : Principal) (lease : MainLeaseToken) :
    async (result unit string) :=
  begun ← with_state_mut (fun m =>
    ((begin_initial_probes lease (storage m) (st m)).1,
     with_root_state_mut (fun s => (begin_initial_probes lease (storage m) s).2) m));
  match begun with
  | None => mret (Ok tt)
  | Some (targets, max_entries, should_refresh_stake) =>
      finished ← initial_probe_loop timestamp_nanos now_secs max_entries lease targets;
      if negb finished then mret (Ok tt)
      else
        current ← main_is_current lease;
        _ ← (if should_refresh_stake && current then refresh_staking_neuron_after_registration governance else mret tt);
        mret (Ok tt)
  end.

(** ** The sweep *)

Context (canister_self : Principal).

Definition begin_cycles_sweep (lease : MainLeaseToken) (timestamp_nanos now_secs : Z) (g : Storage) (s : State) :
    option (ActiveCyclesSweep * Z * Z) * State :=
  if negb (main_is_current_in lease s) then (None, s)
  else
    let '(active, s) :=
      match active_cycles_sweep s with
      | Some active => (active, s)
      | None =>
          let active := MkCyclesSweep timestamp_nanos (build_cycles_sweep_canisters g s canister_self now_secs) 0 in
          (active, s <| active_cycles_sweep := Some active |>)
      end in
    (Some (active, Z.max (max_canisters_per_cycles_tick (config s)) 1, max_cycles_entries_per_canister (config s)), s).

Definition sweep_is_current (lease : MainLeaseToken) (snapshot : ActiveCyclesSweep) (s : State) : bool :=
  main_is_current_in lease s && bool_decide (active_cycles_sweep s = Some snapshot).
Definition probed_since (started_at_secs : Z) (p : Principal) (s : State) : bool :=
  is_some_and (meta ← btree_get p (per_canister_meta s); last_cycles_probe_ts meta) (fun last => started_at_secs <=? last).

(** [false]: the lease or the sweep was lost. *)
Fixpoint sweep_loop (now_secs max_entries : Z) (lease : MainLeaseToken) (snapshot : ActiveCyclesSweep) (target_index : Z)
    (targets : list Principal) : async bool :=
  match targets with
  | [] => mret true
  | p :: targets =>
      probed ← read (probed_since (sweep_started_at_ts_nanos snapshot / 1000000000) p);
      if probed : bool then sweep_loop now_secs max_entries lease snapshot (target_index + 1) targets
      else
        _ ← probe_and_record_cycles_with_fence (sweep_started_at_ts_nanos snapshot) now_secs p max_entries
              (FenceSweep lease snapshot p target_index);
        current ← read (sweep_is_current lease snapshot);
        if negb current then mret false
        else sweep_loop now_secs max_entries lease snapshot (target_index + 1) targets
  end.

Definition end_cycles_sweep (lease : MainLeaseToken) (snapshot : ActiveCyclesSweep) (end_ now_secs : Z) (s : State) : State :=
  if sweep_is_current lease snapshot s then
    if Z.of_nat (length (sweep_canisters snapshot)) <=? end_
    then s <| active_cycles_sweep := None |> <| last_completed_cycles_sweep_ts := now_secs |>
    else s <| active_cycles_sweep := Some (MkCyclesSweep (sweep_started_at_ts_nanos snapshot) (sweep_canisters snapshot) end_) |>
  else s.

Definition process_cycles_sweep (timestamp_nanos now_secs : Z) (lease : MainLeaseToken) : async (result unit string) :=
  begun ← with_state_mut (fun m =>
    ((begin_cycles_sweep lease timestamp_nanos now_secs (storage m) (st m)).1,
     with_root_state_mut (fun s => (begin_cycles_sweep lease timestamp_nanos now_secs (storage m) s).2) m));
  match begun with
  | None => mret (Ok tt)
  | Some (snapshot, max_per_tick, max_entries) =>
      let end_ := slice_end (sweep_next_index snapshot) max_per_tick (sweep_canisters snapshot) in
      match slice (sweep_next_index snapshot) end_ (sweep_canisters snapshot) with
      | None => trap
      | Some targets =>
          finished ← sweep_loop now_secs max_entries lease snapshot (sweep_next_index snapshot) targets;
          if negb finished then mret (Ok tt)
          else
            _ ← root (end_cycles_sweep lease snapshot end_ now_secs);
            mret (Ok tt)
      end
  end.

End probe.
