(* ===== verification/HistorianDiscovery.v ===== *)
(** * Historian: discovering the canisters of SNSes ([scheduler/sns_discovery.rs])

    A discovery lists the deployed SNSes, then asks the root of each for its members, a
    bounded number of roots per tick. *)

From S2P Require Import Prelude BTree Async Ic Accounts Clients TimerGuard HistorianTypes HistorianKeys HistorianState HistorianTracking HistorianCommitments HistorianIndexer HistorianRoutes CyclesProbe HistorianProbe.

Section discovery.
Context `{P : PrincipalSpec} `{O : !OrdSpec Principal} `{SS : !SliceSpec} `{T : TextSpec}.
#[local] Existing Instance Principal_eq_dec.
Local Abbreviation async := (async Mem SuiteCall).

#[export] Instance ActiveSnsDiscovery_eq_dec : EqDecision ActiveSnsDiscovery.
Proof. solve_decision. Defined.

Definition register_sns_member (now_secs : Z) (p : Principal) (g : Storage) (s : State) : State :=
  let s := s <| distinct_canisters ::= set_insert p |>
    <| canister_tracking_reasons ::= fun m => btree_insert p (merge_tracking_reasons (btree_get p m) SnsDiscovery) m |> in
  let meta := seen_meta p now_secs s in
  let s := s <| per_canister_meta ::= btree_insert p meta |> in
  let s := if is_none (last_cycles_probe_ts meta) then enqueue_initial_cycles_probe p s else s in
  refresh_memo_registered_canister_summary g p s.
Fixpoint register_sns_membership (now_secs : Z) (canister_ids : btree_set Principal) (m : Mem) : Mem :=
  match canister_ids with
  | [] => m
  | p :: canister_ids =>
      register_sns_membership now_secs canister_ids
        (with_root_and_registry_canister_state_mut p (register_sns_member now_secs p (storage m)) m)
  end.

Definition extend_set (s : btree_set Principal) (l : list Principal) : btree_set Principal := fold_left (fun s p => set_insert p s) l s.
Definition authoritative_membership (requested_root : Principal) (response : ListSnsCanistersResponse) :
    result (btree_set Principal) string :=
  if is_some_and (sns_root response) (fun returned => negb (bool_decide (returned = requested_root))) then
    Err ("SNS Root " ++ text_of requested_root ++ " returned a conflicting root principal")%string
  else
    let ids := extend_set [requested_root] (@omap list _ _ _ id [sns_governance response; sns_ledger response; sns_swap response; sns_index response]) in
    Ok (extend_set (extend_set (extend_set ids (sns_dapps response)) (sns_archives response)) (default [] (sns_extensions response))).

(** The build-configured SNS root. *)
Context (configured_root : option Principal).

Definition begin_sns_discovery (lease : MainLeaseToken) (timestamp_nanos : Z) (s : State) : option (ActiveSnsDiscovery * Z) * State :=
  if negb (main_is_current_in lease s) then (None, s)
  else
    let '(active, s) :=
      match active_sns_discovery s with
      | Some active => (active, s)
      | None => let active := MkSnsDiscovery timestamp_nanos [] 0 in (active, s <| active_sns_discovery := Some active |>)
      end in
    (Some (active, Z.max (max_canisters_per_cycles_tick (config s)) 1), s).

Definition sns_work_is_current (lease : MainLeaseToken) (expected : ActiveSnsDiscovery) (s : State) : bool :=
  main_is_current_in lease s && bool_decide (active_sns_discovery s = Some expected).

(** [SnsWasmCanister::list_deployed_snses]; only the roots are read. *)
Definition list_deployed_roots (sns_wasm : Principal) : async (result (list Principal) ClientError) :=
  r ← await (ListDeployedSnses sns_wasm);
  mret match r with
       | Ok instances => Ok (@omap list _ _ _ root_canister_id instances)
       | Err (NotDelivered d) => Err (CallFailed d)
       | Err (Undecodable d) => Err (CallFailed ("decode list_deployed_snses failed: " ++ d))
       end.

(** The roots of a discovery: those of SNS-W and the configured one, sorted, each once. *)
Definition sorted_roots (roots : list Principal) : list Principal :=
  extend_set [] (roots ++ match configured_root with Some r => [r] | None => [] end).
Definition install_roots (lease : MainLeaseToken) (snapshot : ActiveSnsDiscovery) (roots : list Principal) (s : State) : bool * State :=
  if sns_work_is_current lease snapshot s then
    (true, s <| active_sns_discovery := Some (MkSnsDiscovery (discovery_started_at_ts_nanos snapshot) roots (discovery_next_index snapshot)) |>)
  else (false, s).

(** [inl]: the run is over. *)
Definition discovered_roots (sns_wasm : Principal) (lease : MainLeaseToken) (snapshot : ActiveSnsDiscovery) :
    async (result unit string + ActiveSnsDiscovery) :=
  if bool_decide (root_canister_ids snapshot = []) && (discovery_next_index snapshot =? 0) then
    r ← list_deployed_roots sns_wasm;
    current ← read (sns_work_is_current lease snapshot);
    if negb current then mret (inl (Ok tt))
    else
      match r, configured_root with
      | Err e, None => mret (inl (Err ("list_deployed_snses failed: " ++ display_error e)%string))
      | _, _ =>
          let roots := sorted_roots (match r with Ok roots => roots | Err _ => [] end) in
          installed ← root_result (install_roots lease snapshot roots);
          mret (if installed : bool then inr (MkSnsDiscovery (discovery_started_at_ts_nanos snapshot) roots 0) else inl (Ok tt))
      end
  else mret (inr snapshot).

(** What the reply of a root registers: [None], nothing. *)
Definition membership (root_id : Principal) (configured : bool) (response : ListSnsCanistersResponse) : option (btree_set Principal) :=
  if configured && (negb (bool_decide (sns_root response = Some root_id)) || is_none (sns_governance response) || is_none (sns_ledger response))
  then None
  else match authoritative_membership root_id response with Ok ids => Some ids | Err _ => None end.

(** [false]: the lease or the discovery was lost. *)
Fixpoint discovery_loop (now_secs : Z) (lease : MainLeaseToken) (snapshot : ActiveSnsDiscovery) (roots : list Principal) : async bool :=
  match roots with
  | [] => mret true
  | root_id :: roots =>
      current ← read (sns_work_is_current lease snapshot);
      if negb current then mret false
      else
        let configured := bool_decide (Some root_id = configured_root) in
        _ ← modify (fun m => if configured then m else register_sns_membership now_secs [root_id] m);
        r ← Clients.list_sns_canisters root_id;
        current ← read (sns_work_is_current lease snapshot);
        if negb current then mret false
        else
          _ ← modify (fun m =>
            match r with
            | Ok response =>
                match membership root_id configured response with
                | Some ids => register_sns_membership now_secs ids m
                | None => m
                end
            | Err _ => m
            end);
          discovery_loop now_secs lease snapshot roots
  end.

Definition end_sns_discovery (lease : MainLeaseToken) (snapshot : ActiveSnsDiscovery) (end_ now_secs : Z) (s : State) : State :=
  if sns_work_is_current lease snapshot s then
    if Z.of_nat (length (root_canister_ids snapshot)) <=? end_
    then s <| active_sns_discovery := None |> <| last_sns_discovery_ts := now_secs |>
    else s <| active_sns_discovery := Some (MkSnsDiscovery (discovery_started_at_ts_nanos snapshot) (root_canister_ids snapshot) end_) |>
  else s.

Definition process_sns_discovery (timestamp_nanos now_secs : Z) (sns_wasm : Principal) (lease : MainLeaseToken) :
    async (result unit string) :=
  begun ← root_result (begin_sns_discovery lease timestamp_nanos);
  match begun with
  | None => mret (Ok tt)
  | Some (snapshot, max_per_tick) =>
      found ← discovered_roots sns_wasm lease snapshot;
      match found with
      | inl r => mret r
      | inr snapshot =>
          let end_ := slice_end (discovery_next_index snapshot) max_per_tick (root_canister_ids snapshot) in
          match slice (discovery_next_index snapshot) end_ (root_canister_ids snapshot) with
          | None => trap
          | Some roots =>
              finished ← discovery_loop now_secs lease snapshot roots;
              if negb finished then mret (Ok tt)
              else
                _ ← root (end_sns_discovery lease snapshot end_ now_secs);
                mret (Ok tt)
          end
      end
  end.

End discovery.
