(* ===== verification/HistorianTick.v ===== *)
(** * Historian: the tick ([scheduler/tick.rs]) and the endowment poke ([scheduler/endowment_poke.rs])

    One tick refreshes the exchange rate, indexes the staking account under its own lease,
    one route under the main lease, then discovers SNSes and probes cycles. *)

From S2P Require Import Prelude BTree Async Ic Accounts Clients MemoPolicy CyclesProbe TimerGuard HistorianTypes HistorianKeys HistorianState HistorianTracking HistorianCommitments HistorianIndexer HistorianRoutes HistorianProbe HistorianDiscovery.

Definition ICP_XDR_RATE_CACHE_TTL_SECONDS : Z := 24 * 60 * 60.
Definition ENDOWMENT_POKE_MIN_INTERVAL_SECONDS : Z := 10.
Definition ENDOWMENT_POKE_MAX_PAGES : Z := 1.
Definition NANOS_PER_SECOND : Z := 1000000000.

Section tick.
Context `{P : PrincipalSpec} `{O : !OrdSpec Principal} `{SS : !SliceSpec} `{T : TextSpec} `{H : HashSpec} {EH : EventHorizon}
  `{Ids : !ProbeIds}.
#[local] Existing Instance Principal_eq_dec.
Local Abbreviation async := (async Mem SuiteCall).

(** ** The exchange rate *)

Definition refresh_icp_xdr_rate (now_secs : Z) (xrc : Principal) : async (result unit string) :=
  _ ← root (fun s => s <| last_icp_xdr_rate_attempt_ts := Some now_secs |>);
  r ← get_icp_xdr_rate xrc;
  match collapse r with
  | Ok rate =>
      _ ← root (fun s =>
        s <| icp_xdr_rate := Some (MkRateSnapshot (xr_rate rate) (xr_decimals rate) (xr_timestamp rate) now_secs) |>
          <| last_icp_xdr_rate_attempt_ts := Some now_secs |> <| last_icp_xdr_rate_error := None |>);
      mret (Ok tt)
  | Err err =>
      let message := display_error err in
      _ ← root (fun s => s <| last_icp_xdr_rate_attempt_ts := Some now_secs |> <| last_icp_xdr_rate_error := Some message |>);
      mret (Err message)
  end.
Definition icp_xdr_rate_due (now_secs : Z) (s : State) : bool :=
  match last_icp_xdr_rate_attempt_ts s with
  | Some last_attempt_ts => ICP_XDR_RATE_CACHE_TTL_SECONDS <=? sat_sub now_secs last_attempt_ts
  | None =>
      match icp_xdr_rate s with
      | Some snapshot => ICP_XDR_RATE_CACHE_TTL_SECONDS <=? sat_sub now_secs (fetched_at_ts snapshot)
      | None => true
      end
  end.
Definition refresh_icp_xdr_rate_if_due (now_secs : Z) (xrc : Principal) : async (result unit string) :=
  due ← read (icp_xdr_rate_due now_secs);
  if negb due then mret (Ok tt) else refresh_icp_xdr_rate now_secs xrc.

(** ** The tick *)

(** The clock in seconds; the identity of the canister, its probe client and the
    build-configured SNS root. *)
Definition time_secs : async Z := fun e w => (Returned (env_clock e (length (w_trace w)) / NANOS_PER_SECOND), w).
Context (canister_self : Principal) (probe_client : Principal -> CyclesProbeClient Mem) (configured_root : option Principal).

Definition repair_summaries : async unit :=
  valid ← read memo_registered_canister_summary_index_is_valid;
  if negb valid then
    modify (fun m => with_root_state_mut (repair_memo_registered_canister_summaries_if_invalid (storage m)) m)
  else mret tt.

(** The staking account, under the scheduled lease of its index; errors are logged. *)
Definition index_commitments (index : Principal) (now_secs : Z) (lease_now_secs : async Z) : async unit :=
  lease_now ← lease_now_secs;
  guard ← acquire_index_guard lease_now Scheduled;
  match guard with
  | None => mret tt
  | Some guard =>
      max_pages ← read (fun s => max_index_pages_per_tick (config s));
      _ ← process_commitment_indexing_bounded index lease_now_secs now_secs max_pages (Some (token_of guard));
      drop_index_guard guard
  end.

Definition sns_due (now_secs : Z) (s : State) : bool :=
  enable_sns_tracking (config s)
  && (is_some (active_sns_discovery s) || (cycles_interval_seconds (config s) <=? sat_sub now_secs (last_sns_discovery_ts s))).
(** What the tick reads before the discovery. *)
Definition cycles_due (now_secs : Z) (s : State) : bool :=
  is_some (active_cycles_sweep s)
  || (cycles_interval_seconds (config s) <=? sat_sub now_secs (last_completed_cycles_sweep_ts s)).

(** [return Ok(())] when the lease was lost. *)
Definition while_current (lease : MainLeaseToken) (k : async (result unit string)) : async (result unit string) :=
  current ← main_is_current lease;
  if negb current then mret (Ok tt) else k.

Definition run_main_tick_with_clients (now_nanos now_secs : Z) (index sns_wasm governance xrc : Principal) (lease : MainLeaseToken)
    (lease_now_secs : async Z) : async (result unit string) :=
  while_current lease (
  _ ← repair_summaries;
  _ ← refresh_icp_xdr_rate_if_due now_secs xrc;
  while_current lease (
  _ ← index_commitments index now_secs lease_now_secs;
  while_current lease (
  _ ← process_route_indexing index now_nanos now_secs lease;
  while_current lease (
  s ← read (fun s => s);
  _ ← (if sns_due now_secs s then process_sns_discovery configured_root now_nanos now_secs sns_wasm lease else mret (Ok tt));
  while_current lease (
  queued ← read (fun s => negb (bool_decide (initial_cycles_probe_queue s = [])));
  and_then
    (if queued : bool then process_initial_cycles_probe_queue (probe_client sns_wasm) now_nanos now_secs governance lease
     else mret (Ok tt)) (fun _ =>
  while_current lease (
  if cycles_due now_secs s then process_cycles_sweep (probe_client sns_wasm) canister_self now_nanos now_secs lease
  else mret (Ok tt)))))))).

Definition recently_ran (now_secs : Z) (s : State) : bool :=
  sat_sub now_secs (last_main_run_ts s) <? sat_sub (scan_interval_seconds (config s)) 5.
Definition finish_main (guard : Timer.TimerLeaseGuard) (now_secs : Z) : async bool := root_result (finish_main_in guard now_secs).
(** What follows a run: everything is stored and the loaded histories are dropped. *)
Definition flush : async unit :=
  _ ← modify persist_dirty_state;
  commit clear_loaded_history_caches_after_flush.

Definition main_tick (force : bool) : async unit :=
  now_nanos ← now;
  let now_secs := now_nanos / NANOS_PER_SECOND in
  guard ← root_result (acquire_main_in now_secs);
  match guard with
  | None => mret tt
  | Some guard =>
      let lease : MainLeaseToken := Timer.lease_expires_at_ts guard in
      recent ← read (recently_ran now_secs);
      if negb force && recent then _ ← finish_main guard now_secs; mret tt
      else
        cfg ← read config;
        r ← run_main_tick_with_clients now_nanos now_secs (index_canister_id cfg) (sns_wasm_canister_id cfg)
              (owner (staking_account cfg)) (xrc_canister_id cfg) lease time_secs;
        match r with
        | Err _ => _ ← finish_main guard now_secs; mret tt
        | Ok _ =>
            finished ← finish_main guard now_secs;
            if finished : bool then flush else mret tt
        end
  end.

(** ** The endowment poke *)

Inductive PokeAdmission := Available | Busy | PokeRateLimited.
Inductive PokeAttempt := Skipped | Indexed.
Definition poke_admission (now_secs : Z) (s : State) : PokeAdmission :=
  if now_secs <? endowment_refresh_next_allowed_ts s then PokeRateLimited
  else if now_secs <? default 0 (commitment_index_lock_expires_at_ts s) then Busy
  else Available.

(** The acquisition, in a batch of its own. *)
Definition acquire_for_poke (now_secs : Z) : async (option Fenced.FencedTimerLeaseGuard) :=
  _ ← modify begin_persistence_batch;
  guard ← acquire_index_guard now_secs EndowmentRefresh;
  _ ← commit drop_persistence_batch;
  mret guard.

Definition handle_endowment_poke_with_client (index : Principal) (now_secs : Z) : async PokeAttempt :=
  admission ← read (poke_admission now_secs);
  match admission with
  | Available =>
      guard ← acquire_for_poke now_secs;
      match guard with
      | None => mret Skipped
      | Some guard =>
          _ ← process_commitment_indexing_bounded index (mret now_secs) now_secs ENDOWMENT_POKE_MAX_PAGES (Some (token_of guard));
          current ← is_current (token_of guard);
          if negb current then _ ← drop_index_guard guard; _ ← flush; mret Skipped
          else
            _ ← root (fun s => s <| endowment_refresh_next_allowed_ts := sat_add now_secs ENDOWMENT_POKE_MIN_INTERVAL_SECONDS |>);
            _ ← drop_index_guard guard;
            _ ← flush;
            mret Indexed
      end
  | _ => mret Skipped
  end.

End tick.

(** ** The deferred check of a poke

    A thread-local record beside the state: the first hint sets the deadline, the later
    ones are coalesced with it, and the timer clears it before it checks. *)

Record PokeDeferredState := MkPokeDeferred { due_at_ns : option Z; timer_pending : bool }.
Definition PokeDeferredState_default : PokeDeferredState := MkPokeDeferred None false.
Inductive DeferredTimerAction := Stop | Reschedule (remaining_ns : Z) | CheckNow.

(** [true]: a timer has to be set. *)
Definition record_poke_hint (now_ns : Z) (d : PokeDeferredState) : bool * PokeDeferredState :=
  if timer_pending d then (false, d)
  else (true, MkPokeDeferred (Some (sat_add now_ns (sat_mul ENDOWMENT_POKE_MIN_INTERVAL_SECONDS NANOS_PER_SECOND))) true).
Definition deferred_timer_action (now_ns : Z) (d : PokeDeferredState) : DeferredTimerAction * PokeDeferredState :=
  match due_at_ns d with
  | Some due => if now_ns <? due then (Reschedule (due - now_ns), d) else (CheckNow, MkPokeDeferred None false)
  | None => (Stop, MkPokeDeferred (due_at_ns d) false)
  end.
