(* ===== verification/HistorianFrame.v ===== *)
(** * Historian: what the discovery and the probes leave alone

    The discovery and the probes of a tick change no part of the accounting: neither the
    cursors of an indexer nor anything they count.  They write only while the main lease is
    theirs, and keep the records of their sweeps in range. *)

From S2P Require Import Prelude BTree Async Ic Accounts Clients MemoPolicy CyclesProbe Quiet TimerGuard HistorianTypes HistorianKeys HistorianState HistorianDurable HistorianTracking HistorianCommitments HistorianIndexer HistorianWalk HistorianIndexed HistorianRoutes HistorianReturns HistorianIndexRun HistorianRoutesRun HistorianProbe HistorianDiscovery HistorianTick.

(** ** The accounting of a state *)

Section frame.
Context `{P : PrincipalSpec} `{O : !OrdSpec Principal} `{SS : !SliceSpec} `{T : TextSpec} `{H : HashSpec} {EH : EventHorizon}
  `{Ids : !ProbeIds}.
#[local] Existing Instance Principal_eq_dec.

Definition route_books (s : State) (kind : IndexedRouteKind) : Walk * option bool * option Z :=
  (route_walk s kind, indexed_route_order_descending s kind, route_total s kind).
Definition retained (s : State) :=
  (qualifying_commitment_count s, recent_commitments s, recent_neuron_commitments s, recent_under_threshold_commitments s,
   recent_under_threshold_neuron_commitments s, recent_invalid_commitments s,
   (commitment_history s, raw_icp_commitment_history s, neuron_commitment_history s)).
Definition accounting (s : State) :=
  (config s, walk_of s, staking_index_descending s, route_books s RouteOutput, route_books s RouteRewards, retained s).

(** The positions of the two sweeps are within their lists. *)
Definition sweeps_ok (s : State) : Prop :=
  (forall a, active_cycles_sweep s = Some a -> 0 <= sweep_next_index a <= Z.of_nat (length (sweep_canisters a))) /\
  (forall d, active_sns_discovery s = Some d -> 0 <= discovery_next_index d <= Z.of_nat (length (root_canister_ids d))).

Record same_books (m m' : Mem) : Prop := {
  sb_config : config (st m') = config (st m);
  sb_walk : walk_of (st m') = walk_of (st m);
  sb_order : staking_index_descending (st m') = staking_index_descending (st m);
  sb_routes : forall kind, route_books (st m') kind = route_books (st m) kind;
  sb_mem : forall staking_id min_amount txs, index_mem staking_id min_amount txs m -> index_mem staking_id min_amount txs m';
  sb_flags : flags (st m') = flags (st m);
  sb_depth : persistence_batch_depth m' = persistence_batch_depth m;
  sb_sweeps : sweeps_ok (st m) -> sweeps_ok (st m');
}.

Lemma same_books_refl m : same_books m m.
Proof using. by split. Qed.
Lemma same_books_trans m1 m2 m3 : same_books m1 m2 -> same_books m2 m3 -> same_books m1 m3.
Proof using. intros [] []. split; try congruence; auto. Qed.

Lemma indexed_retained staking_id min_amount txs s s' g : retained s' = retained s ->
  indexed staking_id min_amount txs s g -> indexed staking_id min_amount txs s' g.
Proof using. intros [=] Hi. by eapply indexed_root. Qed.

Lemma accounting_flags s s' : accounting s' = accounting s -> flags s' = flags s.
Proof using.
  intros E. pose proof (f_equal (fun a => a.2) E) as Er. pose proof (f_equal (fun a => a.1.1.2.2) E) as Eo.
  pose proof (f_equal (fun a => a.1.2.2) E) as Ew. cbn in Er, Eo, Ew. unfold retained in Er. injection Er as E1 E2 E3 E4 E5 E6 _ _ _.
  unfold flags. unfold route_total in *. by rewrite E1, E2, E3, E4, E5, E6, Eo, Ew.
Qed.

(** A scoped mutation whose closure leaves the accounting alone. *)
Lemma scoped_books dirty t f (m : Mem) : accounting (f (st m)) = accounting (st m) -> (sweeps_ok (st m) -> sweeps_ok (f (st m))) ->
  same_books m (with_state_mut_sections_scoped dirty t f m).
Proof using.
  intros Ha Hs. destruct (scoped_st dirty t f m) as [Es Ed]. split; rewrite ?Es; [..|by apply accounting_flags|done|done].
  - exact (f_equal (fun a => a.1.1.1.1.1) Ha).
  - exact (f_equal (fun a => a.1.1.1.1.2) Ha).
  - exact (f_equal (fun a => a.1.1.1.2) Ha).
  - intros []; [exact (f_equal (fun a => a.1.1.2) Ha)|exact (f_equal (fun a => a.1.2) Ha)].
  - intros staking_id min_amount txs [Hi Hd]. apply scoped_mem; [|done]. eapply indexed_retained; [|exact Hi].
    exact (f_equal (fun a => a.2) Ha).
Qed.

Lemma accounting_refresh g p s : accounting (refresh_memo_registered_canister_summary g p s) = accounting s.
Proof using. by destruct (refresh_fields g p s) as (cache & i & ->). Qed.
Lemma accounting_enqueue p s : accounting (enqueue_initial_cycles_probe p s) = accounting s.
Proof using. by destruct (enqueue_fields p s) as (queue & ->). Qed.

(** ** Supervised writes *)

(** A write under the main lease [lease]: it leaves the accounting alone, and the whole
    state when the lease is another's. *)
Definition supervised (lease : MainLeaseToken) (m m' : Mem) : Prop :=
  same_books m m' /\ (main_is_current_in lease (st m) = false -> st m' = st m).

Lemma supervised_refl lease m : supervised lease m m.
Proof using. split; [apply same_books_refl|done]. Qed.
Lemma scoped_supervised lease dirty t f (m : Mem) :
  (main_is_current_in lease (st m) = false -> f (st m) = st m) ->
  (main_is_current_in lease (st m) = true -> accounting (f (st m)) = accounting (st m) /\ (sweeps_ok (st m) -> sweeps_ok (f (st m)))) ->
  supervised lease m (with_state_mut_sections_scoped dirty t f m).
Proof using.
  intros Hf Hk. split.
  - destruct (main_is_current_in lease (st m)); [by apply scoped_books; apply Hk|]. by apply scoped_books; rewrite Hf.
  - intros Hc. destruct (scoped_st dirty t f m) as [-> _]. by apply Hf.
Qed.

Lemma sweeps_ok_eq s s' : sweeps s' = sweeps s -> sweeps_ok s -> sweeps_ok s'.
Proof using. intros [= E1 E2] [H1 H2]. split; [by rewrite E1|by rewrite E2]. Qed.
Lemma sweeps_refresh g p s : sweeps (refresh_memo_registered_canister_summary g p s) = sweeps s.
Proof using. by destruct (refresh_fields g p s) as (cache & i & ->). Qed.
Lemma sweeps_enqueue p s : sweeps (enqueue_initial_cycles_probe p s) = sweeps s.
Proof using. by destruct (enqueue_fields p s) as (queue & ->). Qed.
Lemma current_refresh lease g p s : main_is_current_in lease (refresh_memo_registered_canister_summary g p s) = main_is_current_in lease s.
Proof using. by destruct (refresh_fields g p s) as (cache & i & ->). Qed.
Lemma current_enqueue lease p s : main_is_current_in lease (enqueue_initial_cycles_probe p s) = main_is_current_in lease s.
Proof using. by destruct (enqueue_fields p s) as (queue & ->). Qed.

(** A probe's record. *)
Definition fence_lease (fence : CyclesProbeFence) : MainLeaseToken :=
  match fence with FenceInitial lease => lease | FenceSweep lease _ _ _ => lease end.
Lemma fence_lease_current fence p s : main_is_current_in (fence_lease fence) s = false -> fence_is_current_in fence p s = false.
Proof using. destruct fence; cbn; intros E; rewrite E; done. Qed.
Lemma record_cycles_supervised fence t now_secs p n c r g m :
  supervised (fence_lease fence) m (with_root_registry_and_cycles_canister_state_mut p (record_cycles fence t now_secs p n c r g) m).
Proof using.
  apply scoped_supervised; unfold record_cycles.
  - intros E. by rewrite (fence_lease_current fence p _ E).
  - intros _. destruct (negb _); [done|]. cbv zeta. destruct (push_cycles_sample _ _ _) as [inserted history].
    split; [by rewrite accounting_refresh|]. apply sweeps_ok_eq. by rewrite sweeps_refresh.
Qed.
Lemma record_failure_supervised fence t now_secs p msg g m :
  supervised (fence_lease fence) m (with_root_and_registry_canister_state_mut p (record_failure fence t now_secs p msg g) m).
Proof using.
  apply scoped_supervised; unfold record_failure.
  - intros E. by rewrite (fence_lease_current fence p _ E).
  - intros _. destruct (negb _); [done|]. cbv zeta. split; [by rewrite accounting_refresh|]. apply sweeps_ok_eq. by rewrite sweeps_refresh.
Qed.

Lemma root_supervised lease f m :
  (main_is_current_in lease (st m) = false -> f (st m) = st m) ->
  (main_is_current_in lease (st m) = true -> accounting (f (st m)) = accounting (st m) /\ (sweeps_ok (st m) -> sweeps_ok (f (st m)))) ->
  supervised lease m (with_root_state_mut f m).
Proof using. apply scoped_supervised. Qed.

(** The members of an SNS: one write for each. *)
Lemma register_member_same now_secs p g s :
  accounting (register_sns_member now_secs p g s) = accounting s /\ sweeps (register_sns_member now_secs p g s) = sweeps s /\
  forall lease, main_is_current_in lease (register_sns_member now_secs p g s) = main_is_current_in lease s.
Proof using.
  unfold register_sns_member. cbv zeta. rewrite accounting_refresh, sweeps_refresh. destruct (is_none _).
  - rewrite accounting_enqueue, sweeps_enqueue. split; [done|]. split; [done|]. intros lease. by rewrite current_refresh, current_enqueue.
  - split; [done|]. split; [done|]. intros lease. by rewrite current_refresh.
Qed.
Lemma register_supervised lease now_secs ids : forall m, main_is_current_in lease (st m) = true ->
  supervised lease m (register_sns_membership now_secs ids m) /\ main_is_current_in lease (st (register_sns_membership now_secs ids m)) = true.
Proof using.
  induction ids as [|p ids IH]; intros m Hm; cbn [register_sns_membership]; [split; [apply supervised_refl|done]|].
  set (f := register_sns_member now_secs p (storage m)). destruct (register_member_same now_secs p (storage m) (st m)) as (Ea & Es & Ec).
  set (m1 := with_root_and_registry_canister_state_mut p f m).
  assert (E1 : st m1 = f (st m)) by apply scoped_st.
  destruct (IH m1) as [[Hs _] Hc]; [by rewrite E1, Ec|].
  split; [split|done]; [|by rewrite Hm]. eapply same_books_trans; [|exact Hs].
  apply scoped_books; [exact Ea|]. by apply sweeps_ok_eq.
Qed.

(** ** The code that writes so *)

Section phases.
Context (e : env Mem SuiteCall) (I : world Mem SuiteCall -> Prop) (lease : MainLeaseToken).
Context (Hcall : forall X (c : SuiteCall X) w, I w -> I (after_call e c w)).
Context (Hwrite : forall w m', I w -> supervised lease (w_state w) m' -> I (World m' (w_trace w))).
Context (Hsweeps : forall w, I w -> sweeps_ok (st (w_state w))).

Lemma quiet_await {X} (c : SuiteCall X) : keeps e I (await c).
Proof using Hcall. intros w Hw. exact (Hcall X c w Hw). Qed.
Lemma quiet_write f : (forall m, supervised lease m (f m)) -> keeps e I (modify f).
Proof using Hwrite. intros Hf w Hw. apply wp_modify. by apply Hwrite. Qed.
Lemma quiet_result {A} (f : State -> A * State) :
  (forall m, supervised lease m (with_root_state_mut (fun s => (f s).2) m)) -> keeps e I (root_result f).
Proof using Hwrite. intros Hf w Hw. apply wp_with_state_mut. by apply Hwrite. Qed.
#[local] Hint Resolve quiet_await : keeps.

#[export] Instance ic_quiet root sns_wasm self_id balance :
  QuietProbe e I (IcCyclesProbeClient root sns_wasm self_id balance).
Proof using Hcall. split; intros; cbn; keeps. Qed.

Context (C : CyclesProbeClient Mem) {Q : QuietProbe e I C}.

Lemma keeps_probe_and_record t now_secs p n fence : fence_lease fence = lease ->
  keeps e I (probe_and_record_cycles_with_fence C t now_secs p n fence).
Proof using Hcall Hwrite Q.
  intros El. unfold probe_and_record_cycles_with_fence. apply keeps_bind; [apply keeps_with_state|]. intros cached.
  apply keeps_bind; [by apply keeps_probe|]. intros outcome. apply keeps_bind; [apply keeps_with_state|]. intros current.
  destruct (negb current); [keeps|]. apply keeps_bind; [|keeps]. apply quiet_write. intros m. rewrite <-El.
  destruct outcome; [apply record_cycles_supervised|apply record_failure_supervised].
Qed.

Lemma keeps_initial_loop t now_secs n targets : keeps e I (initial_probe_loop C t now_secs n lease targets).
Proof using Hcall Hwrite Q.
  induction targets as [|p targets IH]; cbn [initial_probe_loop]; [keeps|].
  apply keeps_bind; [by apply keeps_probe_and_record|]. intros _. apply keeps_bind; [apply keeps_with_state|]. intros current.
  destruct (negb current); [keeps|]. apply keeps_bind; [|intros _; exact IH]. apply quiet_write. intros m.
  apply root_supervised; unfold dequeue_initial_probe; intros ->; [done|]. split; [done|]. by apply sweeps_ok_eq.
Qed.

Lemma keeps_initial_queue t now_secs governance : keeps e I (process_initial_cycles_probe_queue C t now_secs governance lease).
Proof using Hcall Hwrite Q.
  unfold process_initial_cycles_probe_queue. apply keeps_bind.
  - intros w Hw. apply wp_with_state_mut, Hwrite; [done|]. apply root_supervised; unfold begin_initial_probes; intros ->; [done|].
    split; [done|]. by apply sweeps_ok_eq.
  - intros begun. destruct begun as [[[targets n] refresh]|]; [|keeps]. apply keeps_bind; [apply keeps_initial_loop|]. intros finished.
    destruct (negb finished); [keeps|]. apply keeps_bind; [apply keeps_with_state|]. intros current. apply keeps_bind; [|keeps].
    destruct (refresh && current); [|keeps]. unfold refresh_staking_neuron_after_registration, claim_or_refresh_neuron_by_subaccount.
    apply keeps_bind; [apply keeps_with_state|]. intros sub. destruct sub; [|keeps]. apply keeps_bind; [keeps|keeps].
Qed.

(** The slice of a tick. *)
Lemma slice_in_range {A} next max (l : list A) : 0 <= next <= Z.of_nat (length l) -> 1 <= max ->
  exists targets, slice next (slice_end next max l) l = Some targets /\ next <= slice_end next max l <= Z.of_nat (length l).
Proof using.
  clear. intros Hn Hm. unfold slice, slice_end. destruct (Z.leb_spec next (Z.min (next + max) (Z.of_nat (length l)))); [|lia].
  eexists. split; [reflexivity|lia].
Qed.

Lemma begin_sweep_ok self t now_secs g s : sweeps_ok s ->
  let r := begin_cycles_sweep self lease t now_secs g s in
  sweeps_ok r.2 /\ forall snapshot max n, r.1 = Some (snapshot, max, n) ->
    0 <= sweep_next_index snapshot <= Z.of_nat (length (sweep_canisters snapshot)) /\ 1 <= max.
Proof using.
  intros Hs r. unfold r, begin_cycles_sweep. destruct (main_is_current_in lease s); cbn [negb]; [|by split].
  destruct (active_cycles_sweep s) as [a|] eqn:Ea.
  - split; [done|]. intros snapshot max n [= <- <- <-]. split; [by apply Hs|lia].
  - split.
    + split; [|apply Hs]. intros a [= <-]. cbn [sweep_next_index sweep_canisters]. lia.
    + intros snapshot max n [= <- <- <-]. cbn [sweep_next_index sweep_canisters]. lia.
Qed.
Lemma begin_sweep_supervised self t now_secs g m :
  supervised lease m (with_root_state_mut (fun s => (begin_cycles_sweep self lease t now_secs g s).2) m).
Proof using.
  apply root_supervised.
  - unfold begin_cycles_sweep. by intros ->.
  - intros Hc. split; [|intros Hs; by apply (begin_sweep_ok self t now_secs g (st m))].
    unfold begin_cycles_sweep. rewrite Hc. cbn [negb]. by destruct (active_cycles_sweep (st m)).
Qed.
Lemma end_sweep_supervised snapshot end_ now_secs m :
  0 <= end_ <= Z.of_nat (length (sweep_canisters snapshot)) ->
  supervised lease m (with_root_state_mut (end_cycles_sweep lease snapshot end_ now_secs) m).
Proof using.
  intros Hr. apply root_supervised; unfold end_cycles_sweep, sweep_is_current; intros ->; [done|]. cbn [andb].
  case_bool_decide; [|done]. destruct (_ <=? end_); (split; [done|]); intros [_ Hd]; (split; [|exact Hd]); [done|].
  by intros a [= <-].
Qed.

Lemma keeps_sweep_loop now_secs n snapshot targets : forall i, keeps e I (sweep_loop C now_secs n lease snapshot i targets).
Proof using Hcall Hwrite Q.
  induction targets as [|p targets IH]; intros i; cbn [sweep_loop]; [keeps|].
  apply keeps_bind; [apply keeps_with_state|]. intros probed. destruct probed; [apply IH|].
  apply keeps_bind; [by apply keeps_probe_and_record|]. intros _. apply keeps_bind; [apply keeps_with_state|]. intros current.
  destruct (negb current); [keeps|apply IH].
Qed.

Lemma keeps_cycles_sweep self t now_secs : keeps e I (process_cycles_sweep C self t now_secs lease).
Proof using Hcall Hwrite Hsweeps Q.
  intros w Hw. unfold process_cycles_sweep. apply wp_bind, wp_with_state_mut.
  pose proof (Hwrite w _ Hw (begin_sweep_supervised self t now_secs (storage (w_state w)) (w_state w))) as Hw1.
  destruct (begin_sweep_ok self t now_secs (storage (w_state w)) _ (Hsweeps _ Hw)) as [_ Hr]. cbn zeta in Hr. cbn [fst snd].
  destruct (begin_cycles_sweep self lease t now_secs _ _).1 as [[[snapshot max] n]|]; [|by apply wp_ret].
  destruct (Hr _ _ _ eq_refl) as [Hrange Hmax]. destruct (slice_in_range _ _ _ Hrange Hmax) as (targets & -> & Hend).
  revert Hw1. generalize (World (with_root_state_mut (fun s => (begin_cycles_sweep self lease t now_secs (storage (w_state w)) s).2) (w_state w)) (w_trace w)).
  refine (_ : keeps e I _). apply keeps_bind; [apply keeps_sweep_loop|]. intros finished. destruct (negb finished); [keeps|].
  apply keeps_bind; [|keeps]. apply quiet_write. intros m. apply end_sweep_supervised. lia.
Qed.

(** *** The discovery *)

Context (configured_root : option Principal).

Lemma begin_discovery_ok t s : sweeps_ok s ->
  let r := begin_sns_discovery lease t s in
  sweeps_ok r.2 /\ forall snapshot max, r.1 = Some (snapshot, max) ->
    0 <= discovery_next_index snapshot <= Z.of_nat (length (root_canister_ids snapshot)) /\ 1 <= max.
Proof using.
  intros Hs r. unfold r, begin_sns_discovery. destruct (main_is_current_in lease s); cbn [negb]; [|by split].
  destruct (active_sns_discovery s) as [a|] eqn:Ea.
  - split; [done|]. intros snapshot max [= <- <-]. split; [by apply Hs|lia].
  - split.
    + split; [apply Hs|]. intros a [= <-]. cbn. lia.
    + intros snapshot max [= <- <-]. cbn [discovery_next_index root_canister_ids length]. lia.
Qed.
Lemma begin_discovery_supervised t m : supervised lease m (with_root_state_mut (fun s => (begin_sns_discovery lease t s).2) m).
Proof using.
  apply root_supervised.
  - unfold begin_sns_discovery. by intros ->.
  - intros Hc. split; [|intros Hs; by apply (begin_discovery_ok t (st m))].
    unfold begin_sns_discovery. rewrite Hc. cbn [negb]. by destruct (active_sns_discovery (st m)).
Qed.
Lemma install_supervised snapshot roots m : discovery_next_index snapshot = 0 ->
  supervised lease m (with_root_state_mut (fun s => (install_roots lease snapshot roots s).2) m).
Proof using.
  intros E0. apply root_supervised; unfold install_roots, sns_work_is_current; intros ->; [done|]. cbn [andb].
  case_bool_decide; [|done]. split; [done|]. intros [Hc _]. split; [exact Hc|]. intros d [= <-]. cbn [discovery_next_index root_canister_ids]. lia.
Qed.
Lemma end_discovery_supervised snapshot end_ now_secs m :
  0 <= end_ <= Z.of_nat (length (root_canister_ids snapshot)) ->
  supervised lease m (with_root_state_mut (end_sns_discovery lease snapshot end_ now_secs) m).
Proof using.
  intros Hr. apply root_supervised; unfold end_sns_discovery, sns_work_is_current; intros ->; [done|]. cbn [andb].
  case_bool_decide; [|done]. destruct (_ <=? end_); (split; [done|]); intros [Hc _]; (split; [exact Hc|]); [done|].
  by intros a [= <-].
Qed.

Lemma keeps_list_roots sns_wasm : keeps e I (list_deployed_roots sns_wasm).
Proof using Hcall. unfold list_deployed_roots. keeps. Qed.

Lemma keeps_list_members root_id : keeps e I (Clients.list_sns_canisters root_id).
Proof using Hcall. unfold Clients.list_sns_canisters. keeps. Qed.

Definition in_range (snapshot : ActiveSnsDiscovery) : Prop :=
  0 <= discovery_next_index snapshot <= Z.of_nat (length (root_canister_ids snapshot)).
Lemma discovered_roots_ok sns_wasm snapshot w : I w -> in_range snapshot ->
  wp e (discovered_roots configured_root sns_wasm lease snapshot)
    (fun r w' => I w' /\ match r with inl _ => True | inr snapshot => in_range snapshot end) w.
Proof using Hcall Hwrite.
  intros Hw Hr. unfold discovered_roots. case_bool_decide as Er; cbn [andb]; [|by apply wp_ret].
  destruct (Z.eqb_spec (discovery_next_index snapshot) 0) as [E0|]; [|by apply wp_ret].
  apply wp_bind. eapply wp_mono; [by apply keeps_list_roots|]. intros r w1 Hw1.
  apply wp_bind, wp_with_state. destruct (negb _); [by apply wp_ret|].
  assert (Hinstall : forall roots, wp e (installed ← root_result (install_roots lease snapshot roots);
    mret (if installed : bool then inr (MkSnsDiscovery (discovery_started_at_ts_nanos snapshot) roots 0) else inl (Ok tt : result unit string)))
    (fun r w' => I w' /\ match r with inl _ => True | inr snapshot => in_range snapshot end) w1).
  { intros roots. apply wp_bind, wp_with_state_mut, wp_ret. split; [by apply Hwrite, install_supervised|].
    cbn [fst]. destruct (install_roots _ _ _ _).1; [|done]. unfold in_range. cbn [fst discovery_next_index root_canister_ids]. lia. }
  destruct r as [roots|er]; [apply Hinstall|]. destruct configured_root; [apply Hinstall|by apply wp_ret].
Qed.

Lemma keeps_discovery_loop now_secs snapshot roots : keeps e I (discovery_loop configured_root now_secs lease snapshot roots).
Proof using Hcall Hwrite.
  induction roots as [|root_id roots IH]; cbn [discovery_loop]; [keeps|].
  assert (Hreg : forall (k : Mem -> Mem) w, (forall m, k m = m \/ exists ids, k m = register_sns_membership now_secs ids m) ->
    main_is_current_in lease (st (w_state w)) = true -> I w -> wp e (modify k) (fun _ w' => I w') w).
  { intros k w Hk Hc Hw. apply wp_modify, Hwrite; [done|]. destruct (Hk (w_state w)) as [-> |[ids ->]]; [apply supervised_refl|by apply register_supervised]. }
  assert (Hcur : forall s, negb (sns_work_is_current lease snapshot s) = false -> main_is_current_in lease s = true)
    by (intros s [Hs _]%negb_false_iff%andb_true_iff; done).
  intros w Hw. apply wp_bind, wp_with_state. destruct (negb _) eqn:Ec; [by apply wp_ret|]. cbv zeta. apply wp_bind.
  eapply wp_mono; [apply Hreg; [|by apply Hcur|done]; intros m; case_bool_decide; [by left|right; by exists [root_id]]|]. cbv beta. intros _ w1 Hw1.
  apply wp_bind. eapply wp_mono; [by apply keeps_list_members|].
  cbv beta. intros r w2 Hw2. apply wp_bind, wp_with_state. destruct (negb (sns_work_is_current lease snapshot (st (w_state w2)))) eqn:Ec2; [by apply wp_ret|]. apply wp_bind.
  eapply wp_mono; [apply Hreg; [|by apply Hcur|done]; intros m; destruct r as [response|]; [destruct (membership _ _ response) as [ids|]; [right; by exists ids|by left]|by left]|].
  cbv beta. intros _ w3 Hw3. by apply IH.
Qed.

Lemma keeps_sns_discovery t now_secs sns_wasm : keeps e I (process_sns_discovery configured_root t now_secs sns_wasm lease).
Proof using Hcall Hwrite Hsweeps.
  intros w Hw. unfold process_sns_discovery. apply wp_bind, wp_with_state_mut.
  pose proof (Hwrite w _ Hw (begin_discovery_supervised t (w_state w))) as Hw1.
  destruct (begin_discovery_ok t _ (Hsweeps _ Hw)) as [_ Hr]. cbn zeta in Hr. cbn [fst snd].
  destruct (begin_sns_discovery lease t _).1 as [[snapshot max]|]; [|by apply wp_ret].
  destruct (Hr _ _ eq_refl) as [Hrange Hmax]. apply wp_bind. eapply wp_mono; [by apply discovered_roots_ok|].
  cbv beta. intros found w1 [Hw2 Hin]. destruct found as [r|snapshot']; [by apply wp_ret|].
  destruct (slice_in_range _ _ _ Hin Hmax) as (roots & -> & Hend). revert Hw2. generalize w1.
  refine (_ : keeps e I _). apply keeps_bind; [apply keeps_discovery_loop|]. intros finished. destruct (negb finished); [keeps|].
  apply keeps_bind; [|keeps]. apply quiet_write. intros m. apply end_discovery_supervised. unfold in_range in Hin. lia.
Qed.

End phases.
End frame.
