(* ===== verification/HistorianStays.v ===== *)
(** * Historian: what each indexer leaves alone

    Each indexer writes only its own part of the accounting: the indexer of the staking
    account leaves the routes alone, the indexer of the routes the staking account.  The
    rules are for code that may panic ([wlp]). *)

From S2P Require Import Prelude BTree Async Ic Accounts Clients MemoPolicy CyclesProbe TimerGuard HistorianTypes HistorianKeys HistorianState HistorianDurable HistorianTracking HistorianCommitments HistorianIndexer HistorianWalk HistorianIndexed HistorianRoutes HistorianReturns HistorianRoutesRun HistorianFrame.

(** ** The rules *)

Section stays.
Context {St : Type} {Call : Type -> Type} (e : env St Call) (I : world St Call -> Prop).

Definition stays {A} (m : async St Call A) : Prop := forall w, I w -> wlp e m (fun _ w' => I w') w.

Lemma stays_ret {A} (a : A) : stays (mret a).
Proof. intros w Hw. exact Hw. Qed.
Lemma stays_bind {A B} (m : async St Call A) (f : A -> async St Call B) :
  stays m -> (forall a, stays (f a)) -> stays (m ≫= f).
Proof. intros Hm Hf w Hw. apply wlp_bind. eapply wlp_mono; [by apply Hm|]. intros a w' Hw'. by apply Hf. Qed.
Lemma stays_with_state {A} (f : St -> A) : stays (with_state f).
Proof. intros w Hw. exact Hw. Qed.
Lemma stays_and_then {A B} (m : async St Call (result A string)) (f : A -> async St Call (result B string)) :
  stays m -> (forall a, stays (f a)) -> stays (and_then m f).
Proof. intros Hm Hf. unfold and_then. apply stays_bind; [done|]. intros [a|msg]; [apply Hf|apply stays_ret]. Qed.
End stays.

Create HintDb stays.
#[export] Hint Resolve stays_ret stays_with_state : stays.
Ltac stays_step :=
  lazymatch goal with
  | |- forall _, _ => intros ?
  | |- stays _ _ (and_then _ _) => apply stays_and_then
  | |- stays _ _ (_ ≫= _) => apply stays_bind
  | |- stays _ _ (if ?b then _ else _) => destruct b eqn:?
  | |- stays _ _ (match ?x with _ => _ end) => destruct x eqn:?
  | |- stays _ _ (let _ := _ in _) => cbv zeta
  | |- stays _ _ _ => first [assumption | solve [auto with stays]]
  end.
Ltac stays := repeat stays_step.

Lemma stays_read `{P : PrincipalSpec} e I {A} (f : State -> A) : stays e I (read f).
Proof. apply stays_with_state. Qed.
#[export] Hint Resolve stays_read : stays.

(** ** Writes that leave a view of the state alone *)

Section writes.
Context `{P : PrincipalSpec} `{O : !OrdSpec Principal} `{SS : !SliceSpec} `{T : TextSpec} `{H : HashSpec} {EH : EventHorizon}.
#[local] Existing Instance Principal_eq_dec.
Context {V : Type} (view : State -> V).

Definition leaves (m m' : Mem) : Prop :=
  view (st m') = view (st m) /\ persistence_batch_depth m' = persistence_batch_depth m.
Definition leaves_parts (f : State * Storage -> option (State * Storage)) : Prop :=
  forall s g s' g', f (s, g) = Some (s', g') -> view s' = view s.

Lemma leaves_refl m : leaves m m.
Proof using. done. Qed.
Lemma leaves_trans m1 m2 m3 : leaves m1 m2 -> leaves m2 m3 -> leaves m1 m3.
Proof using. intros [] []. split; congruence. Qed.
Lemma leaves_scoped dirty t f m : view (f (st m)) = view (st m) -> leaves m (with_state_mut_sections_scoped dirty t f m).
Proof using. intros Hf. destruct (scoped_st dirty t f m) as [Es Ed]. split; [by rewrite Es|done]. Qed.
Lemma leaves_root f m : view (f (st m)) = view (st m) -> leaves m (with_root_state_mut f m).
Proof using. apply leaves_scoped. Qed.
Lemma leaves_with_parts dirty t f m m' : leaves_parts f -> with_parts (with_state_mut_sections_scoped dirty t) f m = Some m' -> leaves m m'.
Proof using.
  intros Hf. unfold with_parts. destruct (f (st m, storage m)) as [[s g]|] eqn:E; cbn [mbind option_bind]; [|done].
  intros [= <-]. destruct (scoped_st dirty t (fun _ => s) (m <| storage := g |>)) as [Es Ed]. split; [|done].
  rewrite Es. by apply (Hf _ _ _ _ E).
Qed.

(** A batch outside any other. *)
Lemma batched_leaves f m m' : (forall m1, f (begin_persistence_batch m) = Some m1 -> leaves (begin_persistence_batch m) m1) ->
  batched f m = Some m' -> persistence_batch_depth m = 0 -> leaves m m'.
Proof using.
  intros Hf E Hd. unfold batched in E. destruct (f (begin_persistence_batch m)) as [m1|]; [|done].
  destruct (Hf _ eq_refl) as [Hv Hd1]. change (persistence_batch_depth (begin_persistence_batch m)) with (begin_depth (persistence_batch_depth m)) in Hd1.
  change (view (st (begin_persistence_batch m))) with (view (st m)) in Hv. rewrite Hd in Hd1.
  change (begin_depth 0) with 1 in Hd1. cbn [mbind option_bind] in E. unfold drop_persistence_batch, finish_depth in E. rewrite Hd1 in E.
  unfold leaves. rewrite Hd.
  destruct (_ && _); cbn in E; injection E as <-; [|done]. unfold persist_dirty_state. by destruct (_ =? 0).
Qed.
End writes.

(** ** The indexer of the staking account *)

Section staking.
Context `{P : PrincipalSpec} `{O : !OrdSpec Principal} `{SS : !SliceSpec} `{T : TextSpec} `{H : HashSpec} {EH : EventHorizon}.
#[local] Existing Instance Principal_eq_dec.

(** All but the part of the staking account. *)
Definition routes_view (s : State) := (config s, route_books s RouteOutput, route_books s RouteRewards, sweeps s).

Lemma routes_refresh g p s : routes_view (refresh_memo_registered_canister_summary g p s) = routes_view s.
Proof using. by destruct (refresh_fields g p s) as (cache & i & ->). Qed.
Lemma routes_enqueue p s : routes_view (enqueue_initial_cycles_probe p s) = routes_view s.
Proof using. by destruct (enqueue_fields p s) as (queue & ->). Qed.

Lemma qualifying_leaves item n s s' : push_qualifying item n s = Some s' -> routes_view s' = routes_view s.
Proof using. unfold push_qualifying. destruct (recent_commitments s); [|done]. by intros [= <-]. Qed.
Lemma qualifying_neuron_leaves item n s s' : push_qualifying_neuron item n s = Some s' -> routes_view s' = routes_view s.
Proof using. unfold push_qualifying_neuron. destruct (recent_neuron_commitments s); [|done]. by intros [= <-]. Qed.
Lemma under_leaves item n s s' : push_under_threshold item n s = Some s' -> routes_view s' = routes_view s.
Proof using. unfold push_under_threshold. destruct (recent_under_threshold_commitments s); [|done]. by intros [= <-]. Qed.
Lemma under_neuron_leaves item n s s' : push_under_threshold_neuron item n s = Some s' -> routes_view s' = routes_view s.
Proof using. unfold push_under_threshold_neuron. destruct (recent_under_threshold_neuron_commitments s); [|done]. by intros [= <-]. Qed.
Lemma invalid_leaves item s s' : push_invalid item s = Some s' -> routes_view s' = routes_view s.
Proof using. unfold push_invalid. destruct (recent_invalid_commitments s); [|done]. by intros [= <-]. Qed.
Lemma count_leaves s s' : count_qualifying s = Some s' -> routes_view s' = routes_view s.
Proof using. unfold count_qualifying. destruct (qualifying_commitment_count s); [|done]. by intros [= <-]. Qed.

Lemma top_up_leaves c p now_secs s s' : count_top_up c p now_secs s = Some s' -> routes_view s' = routes_view s.
Proof using.
  unfold count_top_up. cbv zeta. intros (s1 & E1%qualifying_leaves & (s2 & E2%count_leaves & [= <-])%bind_Some)%bind_Some.
  destruct (is_none _); rewrite ?routes_enqueue, E2; exact E1.
Qed.
Lemma verified_leaves c now_secs : leaves_parts routes_view (apply_verified_qualifying_commitment c now_secs).
Proof using.
  intros s g s' g'. unfold apply_verified_qualifying_commitment. destruct (ic_target c) as [p| |]; [|by intros [= <- _]..]. cbv zeta.
  destruct (push_commitment _ _ _) as [inserted history]. intros ([s1 g1] & E1 & [= <- _])%bind_Some.
  assert (Hv : routes_view s1 = routes_view s).
  { destruct inserted; [|by injection E1 as <- _]. apply bind_Some in E1 as (s2 & E2%top_up_leaves & [= <- _]). exact E2. }
  destruct (_ || _); by rewrite ?routes_refresh.
Qed.
Lemma recent_leaves c n : leaves_parts routes_view (apply_recent_raw_or_neuron_commitment c n).
Proof using.
  intros s g s' g'. unfold apply_recent_raw_or_neuron_commitment. destruct (ic_target c); [by intros [= <- _]|..]; cbv zeta;
    (destruct (ic_counts_toward_faucet c); [destruct (push_commitment _ _ _) as [[|] history]|]).
  - intros (s1 & E1%qualifying_leaves & (s2 & E2%count_leaves & [= <- _])%bind_Some)%bind_Some. rewrite E2. exact E1.
  - by intros [= <- _].
  - by intros (s1 & E1%under_leaves & [= <- _])%bind_Some.
  - intros (s1 & E1%qualifying_neuron_leaves & (s2 & E2%count_leaves & [= <- _])%bind_Some)%bind_Some. rewrite E2. exact E1.
  - by intros [= <- _].
  - by intros (s1 & E1%under_neuron_leaves & [= <- _])%bind_Some.
Qed.
Lemma on_state_leaves (f : State -> option State) : (forall s s', f s = Some s' -> routes_view s' = routes_view s) -> leaves_parts routes_view (on_state f).
Proof using. intros Hf s g s' g'. unfold on_state. intros (s1 & E & [= <- _])%bind_Some. by apply Hf. Qed.

Lemma apply_tx_leaves staking_id min now_secs tx m m' : apply_indexed_commitment_tx staking_id min now_secs tx m = Some m' -> leaves routes_view m m'.
Proof using.
  unfold apply_indexed_commitment_tx. destruct (indexed_commitment_from_tx tx staking_id min) as [[c|c]|]; [|..].
  - unfold apply_valid_commitment. destruct (ic_target c), (ic_counts_toward_faucet c); apply leaves_with_parts;
      auto using verified_leaves, recent_leaves; apply on_state_leaves; intros; by eapply under_leaves.
  - apply leaves_with_parts, on_state_leaves. intros; by eapply invalid_leaves.
  - intros [= <-]. apply leaves_refl.
Qed.
Lemma apply_txs_leaves staking_id min now_secs txs : forall m m', apply_transactions staking_id min now_secs txs m = Some m' -> leaves routes_view m m'.
Proof using.
  induction txs as [|tx txs IH]; intros m m'; cbn [apply_transactions]; [intros [= <-]; apply leaves_refl|].
  intros (m1 & E1%apply_tx_leaves & E2%IH)%bind_Some. by eapply leaves_trans.
Qed.

(** Code whose invariant survives calls and such writes. *)
Context (e : env Mem SuiteCall) (I : world Mem SuiteCall -> Prop).
Context (Hcall : forall X (c : SuiteCall X) w, I w -> I (after_call e c w)).
Context (Hdepth : forall w, I w -> persistence_batch_depth (w_state w) = 0).
Context (Hwrite : forall w m', I w -> leaves routes_view (w_state w) m' -> I (World m' (w_trace w))).
Context (index : Principal) (lease_now_secs : async Mem SuiteCall Z) (Hclock : stays e I lease_now_secs).

Lemma stays_root f : (forall s, routes_view (f s) = routes_view s) -> stays e I (root f).
Proof using Hwrite. intros Hf w Hw. apply (Hwrite w (with_root_state_mut f (w_state w)) Hw). by apply leaves_root. Qed.
Lemma stays_root_result {A} (f : State -> A * State) : (forall s, routes_view (f s).2 = routes_view s) -> stays e I (root_result f).
Proof using Hwrite. intros Hf w Hw. apply (Hwrite w (with_root_state_mut (fun s => (f s).2) (w_state w)) Hw). by apply leaves_root. Qed.
Lemma stays_commit f : (forall m m', f (begin_persistence_batch m) = Some m' -> leaves routes_view (begin_persistence_batch m) m') ->
  stays e I (commit (batched f)).
Proof using Hwrite Hdepth.
  intros Hf w Hw. unfold wlp, commit. destruct (batched f (w_state w)) as [m'|] eqn:E; [|done]. apply Hwrite; [done|].
  eapply batched_leaves; [intros m1; apply Hf|exact E|by apply Hdepth].
Qed.
Lemma stays_transactions a start n : stays e I (get_account_identifier_transactions index a start n).
Proof using Hcall. intros w Hw. exact (Hcall _ (GetTransactions index a start n) w Hw). Qed.
#[local] Hint Resolve stays_transactions : stays.

Lemma stays_call_index staking_id start lease : stays e I (call_index index lease_now_secs staking_id start lease).
Proof using Hcall Hwrite Hclock.
  unfold call_index, renew_current_commitment_index_lease. stays. apply stays_root_result. intros s. unfold renew_in. by destruct (is_current_in _ _).
Qed.
Lemma stays_next_page staking_id first start lease : stays e I (next_page index lease_now_secs staking_id first start lease).
Proof using Hcall Hwrite Hclock.
  unfold next_page, require_current_commitment_index_lease, is_current. stays. apply stays_call_index.
Qed.

Lemma advance_leaves m : leaves routes_view m (advance_commitment_index_revision m).
Proof using. by apply leaves_root. Qed.
Lemma stays_advance : stays e I (modify advance_commitment_index_revision).
Proof using Hwrite. intros w Hw. apply (Hwrite w _ Hw). apply advance_leaves. Qed.

Lemma stays_finish_catch_up progress : stays e I (commit (finish_catch_up progress)).
Proof using Hwrite Hdepth.
  apply stays_commit. intros m m' [= <-]. eapply leaves_trans; [|apply advance_leaves]. by apply leaves_root.
Qed.
Lemma stays_commit_catch_up staking_id min now_secs progress page : stays e I (commit (commit_catch_up staking_id min now_secs progress page)).
Proof using Hwrite Hdepth.
  apply stays_commit. intros m m' (m1 & E1%apply_txs_leaves & E2)%bind_Some. eapply leaves_trans; [exact E1|].
  destruct (catch_up_after progress page) as [p b]. injection E2 as <-. eapply leaves_trans; [|apply advance_leaves].
  apply leaves_root. by destruct b.
Qed.
Lemma stays_commit_backfill staking_id min now_secs items l o : stays e I (commit (commit_backfill staking_id min now_secs items l o)).
Proof using Hwrite Hdepth.
  apply stays_commit. intros m m' (m1 & E1%apply_txs_leaves & [= <-])%bind_Some. eapply leaves_trans; [exact E1|].
  eapply leaves_trans; [|apply advance_leaves]. by apply leaves_root.
Qed.
#[local] Hint Resolve stays_next_page stays_call_index stays_advance stays_finish_catch_up stays_commit_catch_up stays_commit_backfill : stays.

Lemma stays_catch_up_loop staking_id min now_secs n : forall c latest first lease,
  stays e I (catch_up_loop index lease_now_secs staking_id min now_secs n c latest first lease).
Proof using Hcall Hwrite Hdepth Hclock. induction n as [|n IH]; intros; cbn [catch_up_loop]; stays; apply IH. Qed.
Lemma stays_backfill_loop staking_id min now_secs n : forall l o first lease,
  stays e I (backfill_loop index lease_now_secs staking_id min now_secs n l o first lease).
Proof using Hcall Hwrite Hdepth Hclock. induction n as [|n IH]; intros; cbn [backfill_loop]; stays; apply IH. Qed.
#[local] Hint Resolve stays_catch_up_loop stays_backfill_loop : stays.

Lemma stays_seeded now_secs cfg staking_id l o complete first lease :
  stays e I (process_commitment_indexing_descending_seeded index lease_now_secs now_secs cfg staking_id l o complete first lease).
Proof using Hcall Hwrite Hdepth Hclock.
  unfold process_commitment_indexing_descending_seeded. stays; apply stays_root; intros s'; [done|].
  unfold finish_indexing. by destruct (_ && _).
Qed.
Lemma stays_staking now_secs max_pages lease :
  stays e I (process_commitment_indexing_bounded index lease_now_secs now_secs max_pages lease).
Proof using Hcall Hwrite Hdepth Hclock.
  unfold process_commitment_indexing_bounded, require_current_commitment_index_lease, is_current. stays;
    try (by apply stays_root; intros). apply stays_seeded.
Qed.
End staking.

(** ** The indexer of the routes *)

Section routes.
Context `{P : PrincipalSpec} `{O : !OrdSpec Principal} `{SS : !SliceSpec} `{T : TextSpec} `{H : HashSpec} {EH : EventHorizon}.
#[local] Existing Instance Principal_eq_dec.

(** All but the part of the routes. *)
Definition staking_view (s : State) := (config s, walk_of s, staking_index_descending s, retained s, sweeps s).
Definition spares (m m' : Mem) : Prop :=
  leaves staking_view m m' /\
  forall staking_id min txs, indexed staking_id min txs (st m) (storage m) -> indexed staking_id min txs (st m') (storage m').

Lemma spares_refl m : spares m m.
Proof using. by split. Qed.
Lemma spares_trans m1 m2 m3 : spares m1 m2 -> spares m2 m3 -> spares m1 m3.
Proof using. intros [? ?] [? ?]. split; [by eapply leaves_trans|auto]. Qed.
Lemma staking_retained s s' : staking_view s' = staking_view s -> retained s' = retained s.
Proof using. intros E. exact (f_equal (fun v => v.1.2) E). Qed.
Lemma spares_root f m : staking_view (f (st m)) = staking_view (st m) -> spares m (with_root_state_mut f m).
Proof using.
  intros Hf. split; [by apply leaves_root|]. intros staking_id min txs Hi.
  apply (indexed_retained _ _ _ _ (f (st m))) in Hi; [|by apply staking_retained].
  unfold with_root_state_mut, with_state_mut_sections_scoped. destruct (persistence_batch_active m); cbn; [exact Hi|by apply persist_indexed].
Qed.
Lemma spares_begin m : persistence_batch_depth m = 0 -> forall m1, spares (begin_persistence_batch m) m1 ->
  forall m', drop_persistence_batch m1 = Some m' -> spares m m'.
Proof using.
  intros Hd m1 [Hl Hi] m' E. split.
  - apply (batched_leaves staking_view (fun _ => Some m1) m m'); [by intros ? [= <-]|exact E|done].
  - intros staking_id min txs Hm. specialize (Hi staking_id min txs Hm). unfold drop_persistence_batch in E.
    destruct (finish_depth _ _) as [[d flush]|]; [|done]. injection E as <-. destruct flush; [|exact Hi].
    unfold persist_dirty_state. destruct (_ =? 0); [exact Hi|]. by apply persist_indexed.
Qed.

Lemma add_amounts_spares kind source route txs : forall m m', add_amounts kind source route txs m = Some m' -> spares m m'.
Proof using.
  induction txs as [|tx txs IH]; intros m m'; cbn [add_amounts]; [intros [= <-]; apply spares_refl|].
  intros (m1 & E1 & E2%IH)%bind_Some. eapply spares_trans; [|exact E2]. clear E2 IH.
  destruct (indexed_route_amount_from_tx _ _ _) as [amount|]; [|injection E1 as <-; apply spares_refl].
  apply bind_Some in E1 as (s & E & [= <-]). apply spares_root. unfold add_indexed_route_amount in E.
  apply bind_Some in E as (t & _ & [= <-]). by destruct kind.
Qed.

Context (e : env Mem SuiteCall) (I : world Mem SuiteCall -> Prop).
Context (Hcall : forall X (c : SuiteCall X) w, I w -> I (after_call e c w)).
Context (Hdepth : forall w, I w -> persistence_batch_depth (w_state w) = 0).
Context (Hwrite : forall w m', I w -> spares (w_state w) m' -> I (World m' (w_trace w))).
Context (index : Principal).

Lemma stays_spare_root f : (forall s, staking_view (f s) = staking_view s) -> stays e I (root f).
Proof using Hwrite. intros Hf w Hw. apply (Hwrite w (with_root_state_mut f (w_state w)) Hw). by apply spares_root. Qed.
Lemma stays_spare_result {A} (f : State -> A * State) : (forall s, staking_view (f s).2 = staking_view s) -> stays e I (root_result f).
Proof using Hwrite. intros Hf w Hw. apply (Hwrite w (with_root_state_mut (fun s => (f s).2) (w_state w)) Hw). by apply spares_root. Qed.
Lemma stays_spare_commit f : (forall m m', f (begin_persistence_batch m) = Some m' -> spares (begin_persistence_batch m) m') ->
  stays e I (commit (batched f)).
Proof using Hwrite Hdepth.
  intros Hf w Hw. unfold wlp, commit, batched. destruct (f (begin_persistence_batch (w_state w))) as [m1|] eqn:E; [|done].
  cbn [mbind option_bind]. destruct (drop_persistence_batch m1) as [m'|] eqn:Ed; [|done]. apply Hwrite; [done|].
  eapply spares_begin; [by apply Hdepth|by apply Hf|exact Ed].
Qed.

Lemma stays_route_page kind route first start lease active : stays e I (route_page index kind route first start lease active).
Proof using Hcall.
  unfold route_page. stays. intros w Hw. exact (Hcall _ (GetTransactions index route start PAGE_SIZE) w Hw).
Qed.
Lemma stays_finish_route_catch_up kind o progress : stays e I (commit (finish_route_catch_up kind o progress)).
Proof using Hwrite Hdepth. apply stays_spare_commit. intros m m' [= <-]. apply spares_root. by destruct kind. Qed.
Lemma stays_commit_route_catch_up kind source route o progress page :
  stays e I (commit (commit_route_catch_up kind source route o progress page)).
Proof using Hwrite Hdepth.
  apply stays_spare_commit. intros m m' (m1 & E1%add_amounts_spares & E2)%bind_Some. eapply spares_trans; [exact E1|].
  destruct (catch_up_after progress page) as [p b]. injection E2 as <-. apply spares_root. by destruct b, kind.
Qed.
Lemma stays_commit_route_backfill kind source route items l o :
  stays e I (commit (commit_route_backfill kind source route items l o)).
Proof using Hwrite Hdepth.
  apply stays_spare_commit. intros m m' (m1 & E1%add_amounts_spares & [= <-])%bind_Some. eapply spares_trans; [exact E1|].
  apply spares_root. by destruct kind.
Qed.
#[local] Hint Resolve stays_route_page stays_finish_route_catch_up stays_commit_route_catch_up stays_commit_route_backfill : stays.

Lemma stays_route_catch_up_loop kind source route o lease active n : forall c first,
  stays e I (route_catch_up_loop index kind source route o lease active n c first).
Proof using Hcall Hwrite Hdepth. induction n as [|n IH]; intros; cbn [route_catch_up_loop]; stays; apply IH. Qed.
Lemma stays_route_backfill_loop kind source route lease active n : forall l o first,
  stays e I (route_backfill_loop index kind source route lease active n l o first).
Proof using Hcall Hwrite Hdepth. induction n as [|n IH]; intros; cbn [route_backfill_loop]; stays; apply IH. Qed.
#[local] Hint Resolve stays_route_catch_up_loop stays_route_backfill_loop : stays.

Lemma stays_walk_route cfg kind lease active l o complete first :
  stays e I (walk_route index cfg kind lease active l o complete first).
Proof using Hcall Hwrite Hdepth.
  unfold walk_route. stays. apply stays_spare_root. intros s. destruct (route_work_is_current _ _ _); [by destruct kind|done].
Qed.
Lemma stays_routes started_at_ts_nanos now_secs lease : stays e I (process_route_indexing index started_at_ts_nanos now_secs lease).
Proof using Hcall Hwrite Hdepth.
  unfold process_route_indexing, first_route_page. stays.
  - apply stays_spare_result. intros s. unfold begin_route_sweep. destruct (main_is_current_in _ _); [by destruct (active_route_sweep s)|done].
  - apply stays_spare_root. intros s. destruct (route_work_is_current _ _ _); [by destruct i|done].
  - apply stays_walk_route.
  - apply stays_spare_root. intros s. unfold advance_route_sweep. cbv zeta. destruct (route_work_is_current _ _ _); [|done]. by destruct (_ <=? _).
  - apply stays_spare_root. intros s. by destruct (route_work_is_current _ _ _).
Qed.
End routes.
