(* ===== verification/HistorianTickRun.v ===== *)
(** * Historian: a whole tick

    Composition: the indexers, the discovery and the probes of one tick, and a poke, always
    return and, with an honest index, each keep the accounting of the staking account and of
    both routes exact, at every call and at the end. *)

From S2P Require Import Prelude BTree Async Ic Accounts Clients MemoPolicy CyclesProbe Quiet TimerGuard HistorianTypes HistorianKeys HistorianState HistorianDurable HistorianTracking HistorianCommitments HistorianIndexer HistorianWalk HistorianIndexed HistorianRoutes HistorianReturns HistorianIndexRun HistorianRoutesRun HistorianProbe HistorianDiscovery HistorianTick HistorianFrame HistorianStays.

(** ** The rest of a tick

    What a tick does around the indexers keeps any invariant that the calls, the writes
    outside the accounting and both indexers keep. *)

Section tick.
Context `{P : PrincipalSpec} `{O : !OrdSpec Principal} `{SS : !SliceSpec} `{T : TextSpec} `{H : HashSpec} {EH : EventHorizon}
  `{Ids : !ProbeIds}.
#[local] Existing Instance Principal_eq_dec.
Context (e : env Mem SuiteCall) (I : world Mem SuiteCall -> Prop) (ix : Principal -> Prop).
Context (Hcall : forall X (c : SuiteCall X) w, I w -> I (after_call e c w)).
Context (Hsame : forall w m', I w -> same_books (w_state w) m' -> I (World m' (w_trace w))).
Context (Hsettled : forall w, I w -> sweeps_ok (st (w_state w)) /\ persistence_batch_depth (w_state w) = 0).
Context (Hindex : forall w, I w -> ix (index_canister_id (config (st (w_state w))))).
Context (Hstaking : forall index lease_now_secs now_secs max_pages t, ix index ->
  (forall w, exists now, lease_now_secs e w = (Returned now, w)) ->
  keeps e I (process_commitment_indexing_bounded index lease_now_secs now_secs max_pages (Some t))).
Context (Hroutes : forall index now_nanos now_secs lease, ix index -> keeps e I (process_route_indexing index now_nanos now_secs lease)).

Lemma tick_root f w : I w -> accounting (f (st (w_state w))) = accounting (st (w_state w)) ->
  sweeps (f (st (w_state w))) = sweeps (st (w_state w)) -> I (World (with_root_state_mut f (w_state w)) (w_trace w)).
Proof. intros Hw Ha Hs. apply Hsame; [done|]. apply scoped_books; [done|]. by apply sweeps_ok_eq. Qed.

Lemma keeps_books_root f : (forall s, accounting (f s) = accounting s) -> (forall s, sweeps (f s) = sweeps s) -> keeps e I (root f).
Proof. intros Ha Hs w Hw. apply wp_modify. by apply tick_root. Qed.
Lemma keeps_books_result {A} (f : State -> A * State) : (forall s, accounting (f s).2 = accounting s) -> (forall s, sweeps (f s).2 = sweeps s) ->
  keeps e I (root_result f).
Proof. intros Ha Hs w Hw. apply wp_with_state_mut. by apply (tick_root (fun s => (f s).2)). Qed.
Lemma keeps_books_read {A} (f : State -> A) : keeps e I (read f).
Proof. apply keeps_with_state. Qed.
#[local] Hint Resolve keeps_books_read : keeps.

Lemma accounting_rebuild g l : forall s, accounting (fold_left (fun s p => refresh_memo_registered_canister_summary g p s) l s) = accounting s /\
  sweeps (fold_left (fun s p => refresh_memo_registered_canister_summary g p s) l s) = sweeps s.
Proof.
  induction l as [|p l IH]; intros s; cbn [fold_left]; [done|]. destruct (IH (refresh_memo_registered_canister_summary g p s)) as [-> ->].
  by rewrite accounting_refresh, sweeps_refresh.
Qed.
Lemma books_repair : keeps e I repair_summaries.
Proof.
  unfold repair_summaries. keeps. intros w Hw. apply wp_modify.
  assert (Hf : forall s, accounting (repair_memo_registered_canister_summaries_if_invalid (storage (w_state w)) s) = accounting s /\
    sweeps (repair_memo_registered_canister_summaries_if_invalid (storage (w_state w)) s) = sweeps s).
  { intros s. unfold repair_memo_registered_canister_summaries_if_invalid, rebuild_memo_registered_canister_summaries_cache.
    destruct (memo_registered_canister_summary_index_is_valid s); [done|]. exact (accounting_rebuild _ _ _). }
  apply (tick_root _ _ Hw); apply Hf.
Qed.

Lemma books_rate now_secs xrc : keeps e I (refresh_icp_xdr_rate_if_due now_secs xrc).
Proof.
  unfold refresh_icp_xdr_rate_if_due, refresh_icp_xdr_rate, get_icp_xdr_rate. keeps; try by apply keeps_books_root.
  intros w Hw. exact (Hcall _ _ _ Hw).
Qed.

Lemma books_guard now_secs o : keeps e I (acquire_index_guard now_secs o).
Proof.
  apply keeps_books_result; intros s; unfold acquire_in; cbv zeta; by destruct (Fenced.acquire _ _ _ _ _).
Qed.
Lemma books_release guard : keeps e I (drop_index_guard guard).
Proof. apply keeps_books_root; intros s; unfold release_in; by destruct (_ =? _). Qed.
#[local] Hint Resolve books_guard books_release books_repair books_rate : keeps.

Lemma books_index_commitments index now_secs lease_now_secs : (forall w, exists now, lease_now_secs e w = (Returned now, w)) ->
  ix index -> keeps e I (index_commitments index now_secs lease_now_secs).
Proof.
  intros Hclock Hi. unfold index_commitments. apply keeps_bind.
  - intros w Hw. destruct (Hclock w) as [now E]. unfold wp. by rewrite E.
  - intros lease_now. keeps.
Qed.

Context (canister_self : Principal) (probe_client : Principal -> CyclesProbeClient Mem) (configured_root : option Principal).
Context (Hquiet : forall I : world Mem SuiteCall -> Prop, (forall X (c : SuiteCall X) w, I w -> I (after_call e c w)) ->
  forall sns_wasm, QuietProbe e I (probe_client sns_wasm)).

Lemma tick_supervised lease w m' : I w -> supervised lease (w_state w) m' -> I (World m' (w_trace w)).
Proof. intros Hw [Hs _]. by apply Hsame. Qed.
Lemma tick_sweeps w : I w -> sweeps_ok (st (w_state w)).
Proof. intros Hw. by apply Hsettled. Qed.

Lemma books_while_current lease k : keeps e I k -> keeps e I (while_current lease k).
Proof. intros Hk. unfold while_current, main_is_current. keeps. Qed.

Lemma books_run index now_nanos now_secs sns_wasm governance xrc lease lease_now_secs :
  (forall w, exists now, lease_now_secs e w = (Returned now, w)) -> ix index ->
  keeps e I (run_main_tick_with_clients canister_self probe_client configured_root now_nanos now_secs index sns_wasm governance xrc lease lease_now_secs).
Proof.
  intros Hclock Hi. unfold run_main_tick_with_clients.
  apply books_while_current, keeps_bind; [apply books_repair|]. intros _. apply keeps_bind; [apply books_rate|]. intros _.
  apply books_while_current, keeps_bind; [by apply books_index_commitments|]. intros _.
  apply books_while_current, keeps_bind; [by apply Hroutes|]. intros _.
  apply books_while_current, keeps_bind; [apply keeps_books_read|]. intros s. apply keeps_bind.
  { destruct (sns_due now_secs s); [|keeps]. apply keeps_sns_discovery; [exact Hcall|exact (tick_supervised lease)|exact tick_sweeps]. }
  intros _. apply books_while_current, keeps_bind; [apply keeps_books_read|]. intros queued. unfold and_then. apply keeps_bind.
  { destruct queued; [|keeps]. apply (keeps_initial_queue e I lease Hcall (tick_supervised lease) _ (Q:=Hquiet I Hcall sns_wasm)). }
  intros [u|msg]; [|keeps]. apply books_while_current. destruct (cycles_due now_secs s); [|keeps].
  apply (keeps_cycles_sweep e I lease Hcall (tick_supervised lease) tick_sweeps _ (Q:=Hquiet I Hcall sns_wasm)).
Qed.

(** *** The flush *)

Lemma persist_books m : persistence_batch_depth m = 0 -> same_books m (persist_dirty_state m).
Proof.
  intros Hd. unfold persist_dirty_state. destruct (_ =? 0); [apply same_books_refl|]. split; try done.
  intros sid min txs [Hi Hdm]. split; [|done]. by apply persist_indexed.
Qed.
Lemma cleared_indexed sid min txs s g : indexed sid min txs s g ->
  indexed sid min txs (s <| commitment_history := [] |> <| cycles_history := [] |> <| raw_icp_commitment_history := [] |>
    <| neuron_commitment_history := [] |>) g.
Proof.
  assert (Hnil : forall K IK S (stored : K -> IK) known cur (h : History IK S), samples_known stored known cur h -> samples_known stored known [] h)
    by (intros K IK S stored known cur h [_ Hh]; split; [by intros ? ? ? ?%not_elem_of_nil|exact Hh]).
  intros []. split; try done; [exact (Hnil _ _ _ _ _ _ _ ix_commitments)|exact (Hnil _ _ _ _ _ _ _ ix_raw_icp)|exact (Hnil _ _ _ _ _ _ _ ix_neurons)].
Qed.
Lemma books_flush : keeps e I flush.
Proof.
  intros w Hw. unfold flush. apply wp_bind, wp_modify. destruct (Hsettled _ Hw) as [Hsw Hd].
  pose proof (Hsame _ _ Hw (persist_books _ Hd)) as Hw1. apply commit_ok.
  unfold clear_loaded_history_caches_after_flush. cbn [w_state].
  assert (Hd1 : persistence_batch_depth (persist_dirty_state (w_state w)) = 0) by (unfold persist_dirty_state; by destruct (_ =? 0)).
  assert (Hs1 : persistence_dirty_sections (persist_dirty_state (w_state w)) = 0).
  { unfold persist_dirty_state. by destruct (Z.eqb_spec (persistence_dirty_sections (w_state w)) 0). }
  rewrite Hd1, Hs1. cbn [negb Z.eqb]. eexists. split; [reflexivity|].
  set (f := fun s : State => _). apply (Hsame _ _ Hw1). cbn [w_state].
  destruct (scoped_st DIRTY_ROOT (MkTouched None None None None None) f (persist_dirty_state (w_state w))) as [Es Ed].
  change (with_state_mut_sections_scoped DIRTY_ROOT (MkTouched None None None None None)) with (@with_root_state_mut P O SS) in Es, Ed.
  split; rewrite ?Es; try done. intros sid min txs [Hi Hdm].
  unfold with_root_state_mut. apply scoped_mem; [|done]. by apply cleared_indexed.
Qed.

Lemma books_tick force : keeps e I (main_tick canister_self probe_client configured_root force).
Proof.
  unfold main_tick. apply keeps_bind; [apply keeps_now|]. intros now_nanos. cbv zeta.
  assert (Hfinish : forall guard now, keeps e I (finish_main guard now)).
  { intros guard now. apply keeps_books_result; intros s; unfold finish_main_in; by destruct (Timer.release _ _).1. }
  apply keeps_bind; [apply keeps_books_result; intros s; unfold acquire_main_in; by destruct (Timer.acquire _ _ _)|]. intros guard.
  destruct guard as [guard|]; [|keeps]. apply keeps_bind; [apply keeps_books_read|]. intros recent.
  destruct (negb force && recent); [apply keeps_bind; [apply Hfinish|keeps]|].
  intros w Hw. apply wp_bind, wp_with_state. pose proof (Hindex _ Hw) as Hi. revert Hi.
  generalize (config (st (w_state w))). intros cfg Hi. revert w Hw. refine (_ : keeps e I _).
  apply keeps_bind; [apply books_run; [intros w; by eexists|done]|]. intros [u|msg].
  - apply keeps_bind; [apply Hfinish|]. intros finished. destruct finished; [apply books_flush|keeps].
  - apply keeps_bind; [apply Hfinish|keeps].
Qed.

(** ** The poke *)

Lemma books_acquire_for_poke now_secs : keeps e I (acquire_for_poke now_secs).
Proof.
  intros w Hw. unfold acquire_for_poke. apply wp_bind, wp_modify, wp_bind. unfold acquire_index_guard, root_result. apply wp_with_state_mut.
  cbn [w_state w_trace fst snd]. set (f := fun s => _ : State). set (m := w_state w) in *. apply wp_bind, commit_ok. cbn [w_state w_trace].
  destruct (Hsettled _ Hw) as [Hsw Hd]. fold m in Hd, Hsw.
  assert (Ha : accounting (f (st m)) = accounting (st m) /\ sweeps (f (st m)) = sweeps (st m)).
  { unfold f, acquire_in. cbv zeta. by destruct (Fenced.acquire _ _ _ _ _). }
  set (m1 := with_root_state_mut f (begin_persistence_batch m)).
  destruct (scoped_books DIRTY_ROOT (MkTouched None None None None None) f (begin_persistence_batch m)) as [H1 H2 H3 H4 H5 Hflags H6 H7];
    [apply Ha|by apply sweeps_ok_eq, Ha|].
  change (with_state_mut_sections_scoped DIRTY_ROOT (MkTouched None None None None None) f (begin_persistence_batch m)) with m1 in *.
  assert (Ed1 : persistence_batch_depth m1 = 1).
  { rewrite H6. change (begin_depth (persistence_batch_depth m) = 1). by rewrite Hd. }
  unfold drop_persistence_batch, finish_depth. rewrite Ed1. cbn [Z.ltb Z.compare Z.sub Z.eqb andb]. eexists. split; [reflexivity|].
  apply wp_ret. apply (Hsame _ _ Hw). set (m2 := m1 <| persistence_batch_depth := 1 - 1 |>).
  assert (Hm2 : same_books m m2).
  { split; try assumption; try done. intros sid min txs Hm. destruct (H5 sid min txs) as [Hi _]; [|split; [exact Hi|done]].
    destruct Hm as [Hi _]. split; [exact Hi|]. change (0 <= begin_depth (persistence_batch_depth m)). by rewrite Hd. }
  destruct (_ && _); [|exact Hm2]. eapply same_books_trans; [exact Hm2|]. by apply persist_books.
Qed.

Lemma books_poke index now_secs : ix index -> keeps e I (handle_endowment_poke_with_client index now_secs).
Proof.
  intros Hi. unfold handle_endowment_poke_with_client. apply keeps_bind; [apply keeps_books_read|]. intros admission.
  destruct admission; [|keeps..]. apply keeps_bind; [apply books_acquire_for_poke|]. intros guard. destruct guard as [guard|]; [|keeps].
  apply keeps_bind; [apply Hstaking; [done|intros w; by eexists]|]. intros _. apply keeps_bind; [apply keeps_books_read|]. intros current.
  destruct (negb current); repeat (apply keeps_bind; [first [apply books_release|apply books_flush|by apply keeps_books_root]|]; intros _); keeps.
Qed.
End tick.

Section books.
Context `{P : PrincipalSpec} `{O : !OrdSpec Principal} `{SS : !SliceSpec} `{T : TextSpec} `{H : HashSpec} {EH : EventHorizon}
  `{Ids : !ProbeIds}.
#[local] Existing Instance Principal_eq_dec.
(** The staking account and the route accounts: their texts, their transactions and what
    the index knows of them at each call. *)
Context (index : Principal) (staking_id : list Z) (min_amount : Z) (U : list IndexTransactionWithId).
Context (visible : nat -> list IndexTransactionWithId).
Context (source_id : list Z) (route_id : IndexedRouteKind -> list Z) (RU : IndexedRouteKind -> list IndexTransactionWithId).
Context (rvisible : IndexedRouteKind -> nat -> list IndexTransactionWithId).

Abbreviation exact := (exact staking_id min_amount U visible).
Abbreviation good := (good staking_id min_amount U visible).
Abbreviation routes_exact := (routes_exact source_id route_id RU rvisible).
Abbreviation routes_good := (routes_good source_id route_id RU rvisible).

(** The sweeps are in range, no batch is open and the index is the configured one. *)
Definition settled (m : Mem) : Prop :=
  sweeps_ok (st m) /\ persistence_batch_depth m = 0 /\ index_canister_id (config (st m)) = index.
(** The books are in order now and in every state that a call left behind. *)
Definition booked (w : world Mem SuiteCall) : Prop := good w /\ routes_good w /\ committed settled w.

(** ** Writes that keep the books *)

Lemma exact_kept n m m' : config (st m') = config (st m) -> walk_of (st m') = walk_of (st m) ->
  staking_index_descending (st m') = staking_index_descending (st m) ->
  (forall txs, index_mem staking_id min_amount txs m -> index_mem staking_id min_amount txs m') -> exact n m -> exact n m'.
Proof using. intros Ec Ew Eo Hm []. split; rewrite ?Ec, ?Ew, ?Eo; auto. Qed.
Lemma routes_kept n m m' : config (st m') = config (st m) -> (forall kind, route_books (st m') kind = route_books (st m) kind) ->
  persistence_batch_depth m' = persistence_batch_depth m -> routes_exact n m -> routes_exact n m'.
Proof using.
  intros Ec Er Ed [Hx Hd]. split; [|by rewrite Ed]. intros kind. specialize (Er kind).
  pose proof (f_equal (fun b => b.1.1) Er) as Ew. pose proof (f_equal (fun b => b.1.2) Er) as E2. pose proof (f_equal snd Er) as E3.
  cbn in Ew, E2, E3.
  destruct (Hx kind). split; rewrite ?Ec, ?Ew, ?E2, ?E3; done.
Qed.
Lemma good_kept w m' : (forall n, exact n (w_state w) -> exact n m') -> good w -> good (World m' (w_trace w)).
Proof using. intros Hk [Hx Ht]. split; [by apply Hk|done]. Qed.
Lemma routes_good_kept w m' : (forall n, routes_exact n (w_state w) -> routes_exact n m') -> routes_good w -> routes_good (World m' (w_trace w)).
Proof using. intros Hk [Hx Ht]. split; [by apply Hk|done]. Qed.
Lemma settled_kept m m' : config (st m') = config (st m) -> persistence_batch_depth m' = persistence_batch_depth m ->
  (sweeps_ok (st m) -> sweeps_ok (st m')) -> settled m -> settled m'.
Proof using. intros Ec Ed Hs (H1 & H2 & H3). split; [auto|]. by rewrite Ec, Ed. Qed.

Lemma booked_same w m' : booked w -> same_books (w_state w) m' -> booked (World m' (w_trace w)).
Proof using.
  intros (Hg & Hr & Hs) []. split; [|split].
  - apply good_kept; [|done]. intros n Hx. eapply exact_kept; eauto.
  - apply routes_good_kept; [|done]. intros n Hx. by eapply routes_kept.
  - apply committed_update; [done|]. by eapply settled_kept; [..|apply Hs].
Qed.

(** ** The environment *)

Context (e : env Mem SuiteCall).
Context (HU : descending U) (Hamounts : Forall amount_ok U) (Hserved : served index staking_id U visible e).
Context (Hrely : respects_lease staking_id min_amount U visible e).
Context (HRU : forall kind, descending (RU kind)) (Hramounts : forall kind, Forall amount_ok (RU kind)).
Context (Hrserved : routes_served index route_id RU rvisible e) (Hrrely : respects_main_lease source_id route_id RU rvisible e).
Context (Hsettled : forall n m, settled m -> settled (env_interleave e n m)).

Lemma books_good_call {X} (c : SuiteCall X) w : good w -> good (after_call e c w).
Proof using Hrely. intros [Hx Ht]. split; [by apply (rl_exact _ _ _ _ _ Hrely)|]. constructor; [by eexists|done]. Qed.
Lemma routes_good_call {X} (c : SuiteCall X) w : routes_good w -> routes_good (after_call e c w).
Proof using Hrrely. intros [Hx Ht]. split; [by apply (rm_exact _ _ _ _ _ Hrrely)|]. constructor; [by eexists|done]. Qed.
Lemma books_settled_call {X} (c : SuiteCall X) w : committed settled w -> committed settled (after_call e c w).
Proof using Hsettled. by apply committed_call. Qed.
Lemma booked_call {X} (c : SuiteCall X) w : booked w -> booked (after_call e c w).
Proof using Hrely Hrrely Hsettled.
  intros (Hg & Hr & Hs). split; [by apply books_good_call|]. split; [by apply routes_good_call|by apply books_settled_call].
Qed.

Lemma wp_with_wlp {A} (m : async Mem SuiteCall A) (Q Q' : A -> world Mem SuiteCall -> Prop) w :
  wp e m Q w -> wlp e m Q' w -> wp e m (fun a w' => Q a w' /\ Q' a w') w.
Proof using. unfold wp, wlp. destruct (m e w) as [[a| |] w']; auto. Qed.

(** ** The indexers *)

Lemma books_staking lease_now_secs now_secs max_pages t :
  (forall w, exists now, lease_now_secs e w = (Returned now, w)) ->
  keeps e booked (process_commitment_indexing_bounded index lease_now_secs now_secs max_pages (Some t)).
Proof using HU Hamounts Hserved Hrely Hrrely Hsettled.
  intros Hclock w (Hg & Hr & Hs). set (I := fun w => routes_good w /\ committed settled w).
  eapply wp_mono; [apply wp_with_wlp|].
  - by apply (bounded_ok index staking_id min_amount U visible HU Hamounts e Hserved Hrely lease_now_secs Hclock).
  - apply (stays_staking e I); [..|done].
    + intros X c w1 [H1 H2]. split; [by apply routes_good_call|by apply books_settled_call].
    + intros w1 [_ H2]. apply H2.
    + intros w1 m' [H1 H2] [Hv Hd]. pose proof (f_equal (fun v => v.1.1.1) Hv) as Ec. pose proof (f_equal (fun v => v.1.1.2) Hv) as Eo.
      pose proof (f_equal (fun v => v.1.2) Hv) as Er. pose proof (f_equal snd Hv) as Esw. cbn in Ec, Eo, Er, Esw. split.
      * apply routes_good_kept; [|done]. intros n Hx. eapply routes_kept; [done|by intros []|done|done].
      * apply committed_update; [done|]. eapply settled_kept; [exact Ec|exact Hd| |apply H2]. by apply sweeps_ok_eq.
    + intros w1 H1. unfold wlp. destruct (Hclock w1) as [now ->]. exact H1.
  - intros r w' [Hg' [Hr' Hs']]. by split.
Qed.

Lemma books_routes now_nanos now_secs lease : keeps e booked (process_route_indexing index now_nanos now_secs lease).
Proof using HRU Hramounts Hrserved Hrely Hrrely Hsettled.
  intros w (Hg & Hr & Hs). set (I := fun w => good w /\ committed settled w).
  eapply wp_mono; [apply wp_with_wlp|].
  - by apply (routes_ok index source_id route_id RU rvisible HRU Hramounts e Hrserved Hrrely).
  - apply (stays_routes e I); [..|done].
    + intros X c w1 [H1 H2]. split; [by apply books_good_call|by apply books_settled_call].
    + intros w1 [_ H2]. apply H2.
    + intros w1 m' [H1 H2] [[Hv Hd] Hi].
      pose proof (f_equal (fun v => v.1.1.1.1) Hv) as Ec. pose proof (f_equal (fun v => v.1.1.1.2) Hv) as Ew.
      pose proof (f_equal (fun v => v.1.1.2) Hv) as Eo. pose proof (f_equal (fun v => v.2) Hv) as Esw. cbn in Ec, Ew, Eo, Esw. split.
      * apply good_kept; [|done]. intros n Hx. eapply exact_kept; [done|done|done| |done]. intros txs [Hm Hmd]. split; [auto|by rewrite Hd].
      * apply committed_update; [done|]. eapply settled_kept; [exact Ec|exact Hd| |apply H2]. by apply sweeps_ok_eq.
  - intros r w' [Hr' [Hg' Hs']]. by split.
Qed.

(** ** The tick *)

Context (canister_self : Principal) (probe_client : Principal -> CyclesProbeClient Mem) (configured_root : option Principal).
Context (Hquiet : forall I : world Mem SuiteCall -> Prop, (forall X (c : SuiteCall X) w, I w -> I (after_call e c w)) ->
  forall sns_wasm, QuietProbe e I (probe_client sns_wasm)).

Lemma booked_settled w : booked w -> sweeps_ok (st (w_state w)) /\ persistence_batch_depth (w_state w) = 0.
Proof using. intros (_ & _ & (Hs & Hd & _) & _). by split. Qed.
Lemma booked_index w : booked w -> index_canister_id (config (st (w_state w))) = index.
Proof using. intros (_ & _ & (_ & _ & Hi) & _). exact Hi. Qed.

Lemma booked_tick force : keeps e booked (main_tick canister_self probe_client configured_root force).
Proof using HU Hamounts Hserved Hrely HRU Hramounts Hrserved Hrrely Hsettled Hquiet.
  apply (books_tick e booked (fun i => i = index) (@booked_call) booked_same booked_settled booked_index); [|intros i t n l ->; apply books_routes|done].
  intros i clock n p t -> Hclock. by apply books_staking.
Qed.
Lemma booked_poke now_secs : keeps e booked (handle_endowment_poke_with_client index now_secs).
Proof using HU Hamounts Hserved Hrely Hrrely Hsettled.
  apply (books_poke e booked (fun i => i = index) booked_same booked_settled); [|done].
  intros i clock n p t -> Hclock. by apply books_staking.
Qed.
End books.

(** ** The theorem *)

Section theorem.
Context `{P : PrincipalSpec} `{O : !OrdSpec Principal} `{SS : !SliceSpec} `{T : TextSpec} `{H : HashSpec} {EH : EventHorizon}
  `{Ids : !ProbeIds}.
#[local] Existing Instance Principal_eq_dec.

(** What every message keeps, whatever the index answers: the counters are there, the
    sweeps are in range and no batch is open. *)
Definition steady (m : Mem) : Prop := usable m /\ sweeps_ok (st m).

Lemma steady_rest m m' : rest_kept m m' -> steady m -> steady m'.
Proof using. intros Hk [Hu Hs]. split; [by eapply rest_kept_usable|]. eapply sweeps_ok_eq, Hs. exact (f_equal (fun r => r.1.2) (rk_rest _ _ Hk)). Qed.
Lemma steady_same m m' : same_books m m' -> steady m -> steady m'.
Proof using.
  intros Hb [[Hp Hd] Hs]. split; [split|by apply (sb_sweeps _ _ Hb)].
  - unfold present. by rewrite (sb_flags _ _ Hb).
  - by rewrite (sb_depth _ _ Hb).
Qed.

Context (e : env Mem SuiteCall) (Hothers : forall n m, steady m -> steady (env_interleave e n m)).
Abbreviation I := (committed (Call:=SuiteCall) steady).
Lemma steady_call X (c : SuiteCall X) w : I w -> I (after_call e c w).
Proof using Hothers. by apply committed_call. Qed.
Lemma steady_kept w m' : I w -> rest_kept (w_state w) m' -> I (World m' (w_trace w)).
Proof using. intros Hw Hk. apply committed_update; [done|]. by eapply steady_rest, Hw. Qed.
Lemma steady_books w m' : I w -> same_books (w_state w) m' -> I (World m' (w_trace w)).
Proof using. intros Hw Hk. apply committed_update; [done|]. by eapply steady_same, Hw. Qed.
Lemma steady_usable w : I w -> usable (w_state w).
Proof using. intros [[Hu _] _]. exact Hu. Qed.
Lemma steady_settled w : I w -> sweeps_ok (st (w_state w)) /\ persistence_batch_depth (w_state w) = 0.
Proof using. intros [[[_ Hd] Hs] _]. by split. Qed.
Lemma steady_staking index lease_now_secs now_secs max_pages t : True ->
  (forall w, exists now, lease_now_secs e w = (Returned now, w)) ->
  keeps e I (process_commitment_indexing_bounded index lease_now_secs now_secs max_pages (Some t)).
Proof using Hothers.
  intros _ Hclock. apply (returns_staking e I steady_call steady_usable steady_kept). intros w Hw. unfold wp. by destruct (Hclock w) as [now ->].
Qed.

Lemma steady_tick canister_self balance configured_root force :
  keeps e I (main_tick canister_self (fun sns_wasm => IcCyclesProbeClient configured_root sns_wasm canister_self balance) configured_root force).
Proof using Hothers.
  apply (books_tick e I (fun _ => True) steady_call steady_books steady_settled (fun _ _ => Logic.I) steady_staking).
  - intros index t n lease _. apply (returns_routes e I steady_call steady_usable steady_kept).
  - intros I' HI sns_wasm. exact (ic_quiet e I' HI configured_root sns_wasm canister_self balance).
Qed.
Lemma steady_poke index now_secs : keeps e I (handle_endowment_poke_with_client index now_secs).
Proof using Hothers. by apply (books_poke e I (fun _ => True) steady_books steady_settled steady_staking). Qed.
End theorem.

(** The index serves the staking account and both routes newest first and forgets nothing,
    and the other messages respect the leases. *)
Record served_honestly `{P : PrincipalSpec} `{O : !OrdSpec Principal} `{SS : !SliceSpec} `{T : TextSpec} `{H : HashSpec} {EH : EventHorizon}
    (index : Principal) (staking_id : list Z) (min_amount : Z) (account : list IndexTransactionWithId)
    (visible : nat -> list IndexTransactionWithId) (source_id : list Z) (route_id : IndexedRouteKind -> list Z)
    (routed : IndexedRouteKind -> list IndexTransactionWithId) (rvisible : IndexedRouteKind -> nat -> list IndexTransactionWithId)
    (e : env Mem SuiteCall) : Prop := {
  sh_account : descending account /\ Forall amount_ok account;
  sh_routed : forall kind, descending (routed kind) /\ Forall amount_ok (routed kind);
  sh_served : served index staking_id account visible e;
  sh_routes_served : routes_served index route_id routed rvisible e;
  sh_lease : respects_lease staking_id min_amount account visible e;
  sh_main_lease : respects_main_lease source_id route_id routed rvisible e;
  sh_settled : forall n m, settled index m -> settled index (env_interleave e n m);
}.

(** C14: A tick and a poke of the historian always return, whatever the calls answer and
    whatever other messages do that close their batches and keep the counters and the
    sweeps in range.  When, besides, the index serves every account newest first and forgets
    nothing and the other messages respect the leases, then at every call and at the end
    the totals, the counter and the retained samples are those of the staking transactions
    that its cursors cover, and the output and rewards totals are those of the transfers
    that the cursors of their route cover: the discovery, the probes and each indexer leave
    the other books alone. *)
Theorem historian_tick_keeps_books `{P : PrincipalSpec} `{O : !OrdSpec Principal} `{SS : !SliceSpec} `{T : TextSpec} `{H : HashSpec}
    {EH : EventHorizon} `{Ids : !ProbeIds}
    (e : env Mem SuiteCall) (canister_self : Principal) (balance : Z) (configured_root : option Principal) (w : world Mem SuiteCall)
    (Hothers : forall n m, steady m -> steady (env_interleave e n m)) (Hsteady : committed steady w) :
  let kept_at index w' := committed steady w' /\
    forall staking_id min_amount account visible source_id route_id routed rvisible,
      served_honestly index staking_id min_amount account visible source_id route_id routed rvisible e ->
      booked index staking_id min_amount account visible source_id route_id routed rvisible w ->
      booked index staking_id min_amount account visible source_id route_id routed rvisible w' /\
      committed (accounted staking_id min_amount account) w' /\ committed (totals_exact source_id route_id routed) w' in
  (forall force, exists w', main_tick canister_self (fun sns_wasm => IcCyclesProbeClient configured_root sns_wasm canister_self balance)
     configured_root force e w = (Returned tt, w') /\ forall index, kept_at index w') /\
  (forall index now_secs, exists attempt w', handle_endowment_poke_with_client index now_secs e w = (Returned attempt, w') /\ kept_at index w').
Proof.
  intros kept_at. assert (Hkept : forall A (m : async Mem SuiteCall A) r w' index, m e w = (Returned r, w') -> committed steady w' ->
    (forall staking_id min_amount account visible source_id route_id routed rvisible,
      served_honestly index staking_id min_amount account visible source_id route_id routed rvisible e ->
      keeps e (booked index staking_id min_amount account visible source_id route_id routed rvisible) m) -> kept_at index w').
  { intros A m r w' index E Hw' Hk. split; [done|]. intros staking_id min_amount account visible source_id route_id routed rvisible Hh Hw.
    pose proof (wp_run e m _ w r w' E (Hk _ _ _ _ _ _ _ _ Hh w Hw)) as Hb. split; [done|]. destruct Hb as (Hg & Hr & _).
    split; split.
    - eapply exact_accounted, Hg.
    - eapply Forall_impl; [apply Hg|]. intros [X c m'] [n Hn]. by eapply exact_accounted.
    - intros kind. apply (proj1 Hr).
    - eapply Forall_impl; [apply Hr|]. intros [X c m'] [n Hn] kind. apply Hn. }
  split.
  - intros force. destruct (keeps_returns e _ _ w (steady_tick e Hothers canister_self balance configured_root force) Hsteady) as ([] & w' & E & Hw').
    exists w'. split; [done|]. intros index. eapply Hkept; [exact E|done|]. intros staking_id min_amount account visible source_id route_id routed rvisible [[] Hrt].
    apply booked_tick; try done; [by intros kind; apply Hrt..|].
    intros I HI sns_wasm. exact (ic_quiet e I HI configured_root sns_wasm canister_self balance).
  - intros index now_secs. destruct (keeps_returns e _ _ w (steady_poke e Hothers index now_secs) Hsteady) as (attempt & w' & E & Hw').
    exists attempt, w'. split; [done|]. eapply Hkept; [exact E|done|].
    intros staking_id min_amount account visible source_id route_id routed rvisible [[] Hrt]. by apply booked_poke.
Qed.

(** ** The fence of the discovery and the probes *)

Section fence.
Context `{P : PrincipalSpec} `{O : !OrdSpec Principal} `{SS : !SliceSpec} `{T : TextSpec} `{H : HashSpec} {EH : EventHorizon}
  `{Ids : !ProbeIds}.
#[local] Existing Instance Principal_eq_dec.

(** How the memory changes during a run of a phase under [lease]: another message runs, or
    the phase itself writes. *)
Inductive phase_step (e : env Mem SuiteCall) (lease : MainLeaseToken) : Mem -> Mem -> Prop :=
| OtherMessage n m : phase_step e lease m (env_interleave e n m)
| OwnWrite m m' : supervised lease m m' -> phase_step e lease m m'.
Definition phase_reached e lease (start m : Mem) : Prop := rtc (phase_step e lease) start m /\ sweeps_ok (st m).

Lemma reached_call e lease start : (forall n m, sweeps_ok (st m) -> sweeps_ok (st (env_interleave e n m))) ->
  forall X (c : SuiteCall X) (w : world Mem SuiteCall), committed (phase_reached e lease start) w -> committed (phase_reached e lease start) (after_call e c w).
Proof.
  intros Hs X c w Hw. apply committed_call; [|done]. intros n m [Hr Hm]. split; [|by apply Hs]. eapply rtc_r; [exact Hr|apply OtherMessage].
Qed.
Lemma reached_write e lease start (w : world Mem SuiteCall) m' : committed (phase_reached e lease start) w -> supervised lease (w_state w) m' ->
  committed (phase_reached e lease start) (World m' (w_trace w)).
Proof.
  intros Hw Hs. apply committed_update; [done|]. destruct (proj1 Hw) as [Hr Hm]. split.
  - eapply rtc_r; [exact Hr|by apply OwnWrite].
  - by apply (sb_sweeps _ _ (proj1 Hs)).
Qed.
End fence.

(** C15: The discovery, the queue of first probes and the sweep return whatever the calls
    answer; all they write is written while the main lease is theirs, so a run that was
    superseded during a call changes nothing more, and none of it touches the accounting or
    leaves a sweep out of range. *)
Theorem phases_supervised `{P : PrincipalSpec} `{O : !OrdSpec Principal} `{SS : !SliceSpec} `{T : TextSpec} `{H : HashSpec}
    {EH : EventHorizon} `{Ids : !ProbeIds} (e : env Mem SuiteCall) (lease : MainLeaseToken) (canister_self : Principal) (balance : Z)
    (configured_root : option Principal) (sns_wasm governance : Principal) (now_nanos now_secs : Z) (m : Mem)
    (Hothers : forall n m, sweeps_ok (st m) -> sweeps_ok (st (env_interleave e n m))) (Hm : sweeps_ok (st m)) :
  let C := IcCyclesProbeClient configured_root sns_wasm canister_self balance in
  let supervised_run phase := exists r w', phase e (World m []) = (Returned r, w') /\ committed (phase_reached e lease m) w' in
  supervised_run (process_sns_discovery configured_root now_nanos now_secs sns_wasm lease) /\
  supervised_run (process_initial_cycles_probe_queue C now_nanos now_secs governance lease) /\
  supervised_run (process_cycles_sweep C canister_self now_nanos now_secs lease).
Proof.
  intros C run. set (I := committed (Call:=SuiteCall) (phase_reached e lease m)).
  assert (Hw : I (World m [])) by (split; [split; [apply rtc_refl|done]|constructor]).
  pose proof (reached_call e lease m Hothers : forall X (c : SuiteCall X) w, I w -> I (after_call e c w)) as Hcall.
  pose proof (reached_write e lease m : forall w m', I w -> supervised lease (w_state w) m' -> I (World m' (w_trace w))) as Hwrite.
  assert (Hsweeps : forall w, I w -> sweeps_ok (st (w_state w))) by (intros w [[_ Hs] _]; exact Hs).
  pose proof (ic_quiet e I Hcall configured_root sns_wasm canister_self balance) as Q.
  split; [|split]; (apply keeps_returns; [|exact Hw]).
  - by apply keeps_sns_discovery.
  - by apply (keeps_initial_queue e I lease Hcall Hwrite).
  - by apply (keeps_cycles_sweep e I lease Hcall Hwrite Hsweeps).
Qed.

(** * A tick over three accounts *)

Module ConcreteTick.
Import Concrete ConcreteKeys ConcreteTexts ConcreteHash ConcreteDurable ConcreteIndex ConcreteRoutes.
Abbreviation principal := (Principal (PrincipalSpec:=concrete_principal)).
#[local] Instance probe_ids : ProbeIds := {|
  thirteen_node_blackhole_canister_id := 100; fiduciary_blackhole_canister_id := 101; nns_root_id := 102 |}.

Definition account9 : Account (H:=concrete_principal) := MkAccount concrete_principal 9 None.
Definition config2 : Config (P:=concrete_principal) :=
  (config0 <| output_account := account8 |> <| rewards_account := account9 |>) <| enable_sns_tracking := true |>.
Definition route2 (kind : IndexedRouteKind) : list Z := account_identifier_text_for_account (indexed_route_account config2 kind).
Definition accounts2 (kind : IndexedRouteKind) : list IndexTransactionWithId :=
  match kind with
  | RouteOutput => [routed 12 source0 (route2 RouteOutput) 40; routed 3 source0 (route2 RouteOutput) 2]
  | RouteRewards => [routed 5 source0 (route2 RouteRewards) 9]
  end.
Definition account_of2 (id : list Z) : list IndexTransactionWithId :=
  if bool_decide (id = route2 RouteOutput) then accounts2 RouteOutput
  else if bool_decide (id = route2 RouteRewards) then accounts2 RouteRewards else account0.
Definition env2 : env (Mem (P:=concrete_principal)) SuiteCall := {|
  env_reply := fun n X c =>
    match c in SuiteCall Y return Y -> Y with
    | GetTransactions _ id start _ => fun _ => Ok (Ok (MkIndexPage 0 None (serve (account_of2 id) start)))
    | _ => fun r => r
    end (reply_ok 0 0 c);
  env_interleave := fun _ m => m;
  env_clock := fun _ => 700000000000000;
|}.
Definition state2 : state := State_new config2 1000.
Definition mem3 : Mem (P:=concrete_principal) := set_state state2 (restarted Storage_empty state2).
Definition world2 : world (Mem (P:=concrete_principal)) SuiteCall := World mem3 [].
Definition tick2 (force : bool) :=
  main_tick (7 : principal) (fun sns_wasm => IcCyclesProbeClient None sns_wasm (7 : principal) 5000) None force env2 world2.

Example tick2_books : (tick2 true).1 = Returned tt /\
  get_commitment_route_rollup (KeyCyclesTopUp [5]) (storage (w_state (tick2 true).2)) = MkRollup 1 300000000 /\
  route_total (st (w_state (tick2 true).2)) RouteOutput = Some 42 /\
  last_main_run_ts (st (w_state (tick2 true).2)) = 700000 /\ last_completed_cycles_sweep_ts (st (w_state (tick2 true).2)) = 700000 /\
  main_lock_state_ts (st (w_state (tick2 true).2)) = Some 0.
Proof. vm_compute. done. Qed.

Lemma route2_ne : bool_decide (route2 RouteRewards = route2 RouteOutput) = false.
Proof. vm_compute. reflexivity. Qed.
Lemma staking2_ne : bool_decide (staking0 = route2 RouteOutput) = false /\ bool_decide (staking0 = route2 RouteRewards) = false.
Proof. vm_compute. done. Qed.
Lemma page2 n id start page : env_reply env2 n _ (GetTransactions (2 : principal) id start 500) = Ok (Ok page) ->
  transactions page = serve (account_of2 id) start.
Proof.
  intros E. change (Ok (Ok (MkIndexPage 0 None (serve (account_of2 id) start))) = Ok (Ok page) :> result (result IndexPage string) TransportError) in E.
  by injection E as <-.
Qed.
Lemma served2 : served (2 : principal) staking0 account0 (fun _ => account0) env2.
Proof.
  split; [reflexivity|reflexivity|]. intros n start page ->%page2. unfold account_of2. by destruct staking2_ne as [-> ->].
Qed.
Lemma routes_served2 : routes_served (2 : principal) route2 accounts2 (fun kind _ => accounts2 kind) env2.
Proof.
  split; [reflexivity|reflexivity|]. intros kind n start page ->%page2. unfold account_of2.
  destruct kind; [by rewrite bool_decide_true|by rewrite route2_ne, bool_decide_true].
Qed.
Lemma lease2_respected : respects_lease staking0 100000000 account0 (fun _ => account0) env2.
Proof. split; [intros n m Hm; exact Hm|done]. Qed.
Lemma main_lease2_respected : respects_main_lease source0 route2 accounts2 (fun kind _ => accounts2 kind) env2.
Proof. split; [intros n m Hm; exact Hm|done]. Qed.
Lemma descending2 kind : descending (accounts2 kind).
Proof. destruct kind; repeat constructor. Qed.
Lemma amounts2 kind : Forall amount_ok (accounts2 kind).
Proof. destruct kind; repeat constructor; cbn; lia. Qed.
Lemma booked2 : booked (2 : principal) staking0 100000000 account0 (fun _ => account0) source0 route2 accounts2 (fun kind _ => accounts2 kind) world2.
Proof.
  split; [|split].
  - split; [|constructor]. split; [reflexivity|reflexivity|done|reflexivity|]. split; [|done].
    split; try reflexivity; split; by intros ? ? ?%not_elem_of_nil || (intros ? ? ? ?%not_elem_of_nil; done).
  - split; [|constructor]. split; [|done]. intros []; (split; [reflexivity|reflexivity|reflexivity| |reflexivity]); by split.
  - split; [|constructor]. split; [by split|done].
Qed.

Lemma steady2 : committed steady world2.
Proof. split; [split; [by split|by split]|constructor]. Qed.
Lemma honest2 : served_honestly (2 : principal) staking0 100000000 account0 (fun _ => account0) source0 route2 accounts2 (fun kind _ => accounts2 kind) env2.
Proof.
  split; [split; [exact descending0|exact amounts0]|intros kind; split; [apply descending2|apply amounts2]|exact served2|exact routes_served2
    |exact lease2_respected|exact main_lease2_respected|exact (fun n m Hm => Hm)].
Qed.
Lemma historian_tick_keeps_books_witness : exists w', tick2 true = (Returned tt, w') /\
  accounted staking0 100000000 account0 (w_state w') /\ totals_exact source0 route2 accounts2 (w_state w').
Proof.
  destruct (historian_tick_keeps_books env2 (7 : principal) 5000 None world2 (fun n m Hm => Hm) steady2) as [Htick _].
  destruct (Htick true) as (w' & E & Hk).
  destruct (proj2 (Hk (2 : principal)) staking0 100000000 account0 (fun _ => account0) source0 route2 accounts2 (fun kind _ => accounts2 kind)
    honest2 booked2) as (_ & [Ha _] & [Ht _]).
  exists w'. split; [exact E|]. split; [exact Ha|exact Ht].
Defined.

Lemma sweeps2 : sweeps_ok (st mem3).
Proof. by split. Qed.
Lemma phases_supervised_witness : exists r w',
  process_cycles_sweep (IcCyclesProbeClient None (3 : principal) (7 : principal) 5000) (7 : principal) 700000000000000 700000 (900 : MainLeaseToken)
    env2 world2 = (Returned r, w') /\ committed (phase_reached env2 (900 : MainLeaseToken) mem3) w'.
Proof.
  destruct (phases_supervised env2 (900 : MainLeaseToken) (7 : principal) 5000 None (3 : principal) (4 : principal) 700000000000000 700000 mem3
    (fun n m Hm => Hm) sweeps2) as (_ & _ & r & w' & E & Hw).
  exists r, w'. split; [exact E|exact Hw].
Defined.

End ConcreteTick.
