(* ===== verification/RelaySetup.v ===== *)
(** * Historian: the self-service relay factory, its data and pure functions

    [relay_setup.rs] and [relay_setup/{target_set,recipient_set,setup_key,setup_spec,admission}.rs]:
    the canonical configuration and its key, prices, the journal entry of a setup,
    what an observed relay says about its finalization, and the admission limiter. *)

From stdpp Require Import sorting.
From S2P Require Import Prelude BTree Async Ic Accounts Clients CyclesProbe MemoPolicy HistorianTypes.

(** ** What comes from outside: the digest, the wasm built into the canister, Candid
    and the [Debug] of the errors that are put into messages. *)

Definition MAX_SURPLUS_RECIPIENTS : nat := 5.
Definition MAX_RELAY_TARGETS : nat := 20.
Definition EXTRA_TARGET_CHARGE_E8S : Z := 25000000.
Definition MAX_CONCURRENT_FUNDED_RELAY_SETUPS : nat := 4.
Definition RELAY_SUBACCOUNT_ONE : list Z := replicate 31 0 ++ [1].
Definition TOP_UP_CANISTER_MEMO : Z := 1347768404.
Definition MAX_DIAGNOSTIC_BYTES : nat := 1024.
(** [crates/memo-policy/src/lib.rs] *)
Definition MAX_RELAY_SURPLUS_MEMO_BYTES : Z := 32.

Section data.
Context `{P : PrincipalSpec}.

Inductive RelaySurplusRecipient :=
| PrincipalRecipient (principal : Principal) (memo : list Z)
| NeuronRecipient (neuron_id : Z) (memo : list Z).

(** The arguments of the relay that is installed. *)
Record RelayInitArgs := MkRelayInit {
  init_managed_canisters : list Principal;
  init_ledger_canister_id : option Principal;
  init_cmc_canister_id : option Principal;
  init_governance_canister_id : option Principal;
  init_blackhole_canister_id : option Principal;
  init_sns_rewards_canister_id : option Principal;
  init_icp_index_canister_id : option Principal;
  init_main_interval_seconds : option Z;
  init_max_transfers_per_tick : option Z;
  init_surplus_canister_recipients : option (list (Principal * list Z));
  init_surplus_neuron_recipients : list (Z * list Z);
}.

End data.

Class FactorySpec `{PrincipalSpec} := {
  sha256 : list Z -> list Z;
  self_service_relay_install_payload : list Z;
  encode_relay_init : RelayInitArgs -> list Z;
  nns_governance_id : Principal;
  debug_transfer_error : TransferError -> string;
  debug_notify_error : NotifyTopUpError -> string;
}.

Section canonical.
Context `{P : PrincipalSpec} `{T : TextSpec} `{I : !ProbeIds} `{F : !FactorySpec} `{H : HashSpec}.
#[local] Existing Instance Principal_eq_dec.

(** ** [target_set.rs] *)

(** [a.as_slice() <= b.as_slice()] *)
Definition slice_le (a b : Principal) : Prop := ltb (principal_as_slice b) (principal_as_slice a) = false.
#[export] Instance slice_le_dec a b : Decision (slice_le a b).
Proof. unfold slice_le. apply _. Defined.

Fixpoint adjacent {A} (eqb : A -> A -> bool) (l : list A) : bool :=
  match l with
  | a :: ((b :: _) as rest) => eqb a b || adjacent eqb rest
  | _ => false
  end.

Fixpoint reserved_target (targets : list Principal) : option string :=
  match targets with
  | [] => None
  | target :: rest =>
      if decide (target = anonymous) then Some "target must not be anonymous"%string
      else if decide (target = management_canister) then
        Some "target must not be the management canister"%string
      else reserved_target rest
  end.

Definition canonicalize_targets (targets : list Principal) : result (list Principal) string :=
  match targets with
  | [] => Err "at least one target canister is required"%string
  | _ =>
      if (MAX_RELAY_TARGETS <? length targets)%nat then
        Err ("at most " ++ nat_to_string (Z.of_nat MAX_RELAY_TARGETS) ++ " target canisters are allowed")%string
      else
        match reserved_target targets with
        | Some e => Err e
        | None =>
            let sorted := merge_sort slice_le targets in
            if adjacent (fun a b => bool_decide (a = b)) sorted
            then Err "duplicate target canisters are not allowed"%string else Ok sorted
        end
  end.

Definition validate_target (target : Principal) (config : Config) (historian : Principal) : result unit string :=
  if decide (target = anonymous) then Err "target must not be anonymous"%string
  else if decide (target = management_canister) then Err "target must not be the management canister"%string
  else if decide (target = historian) then Err "target must not be the historian canister"%string
  else if bool_decide (target = fiduciary_blackhole_canister_id)
          || bool_decide (target = ledger_canister_id config) || bool_decide (target = index_canister_id config)
          || bool_decide (Some target = cmc_canister_id config)
  then Err "target must not be a configured protocol dependency"%string
  else Ok tt.

Fixpoint validate_targets (targets : list Principal) (config : Config) (historian : Principal) : result unit string :=
  match targets with
  | [] => Ok tt
  | target :: rest =>
      match validate_target target config historian with
      | Err e => Err e
      | Ok _ => validate_targets rest config historian
      end
  end.

(** ** [recipient_set.rs] *)

Definition destination_le (left right : RelaySurplusRecipient) : Prop :=
  match left, right with
  | PrincipalRecipient l _, PrincipalRecipient r _ => slice_le l r
  | PrincipalRecipient _ _, NeuronRecipient _ _ => True
  | NeuronRecipient _ _, PrincipalRecipient _ _ => False
  | NeuronRecipient l _, NeuronRecipient r _ => l <= r
  end.
#[export] Instance destination_le_dec a b : Decision (destination_le a b).
Proof. destruct a, b; cbn; apply _. Defined.
(** [destination_cmp(..) == Ordering::Equal] *)
Definition same_destination (left right : RelaySurplusRecipient) : bool :=
  bool_decide (destination_le left right) && bool_decide (destination_le right left).

Definition text_of (p : Principal) : string := CyclesProbe.text_of p.
Definition invalid_recipient (r : RelaySurplusRecipient) : option string :=
  let long (memo : list Z) := (Z.to_nat MAX_RELAY_SURPLUS_MEMO_BYTES <? length memo)%nat in
  let too_long (what : string) (memo : list Z) :=
    ("surplus recipient " ++ what ++ " memo is " ++ nat_to_string (Z.of_nat (length memo)) ++ " bytes; maximum is "
     ++ nat_to_string MAX_RELAY_SURPLUS_MEMO_BYTES)%string in
  match r with
  | PrincipalRecipient p memo =>
      if decide (p = anonymous) then Some "surplus recipient principal must not be anonymous"%string
      else if decide (p = management_canister) then
        Some "surplus recipient principal must not be the management canister"%string
      else then_some (long memo) (too_long ("principal " ++ text_of p)%string memo)
  | NeuronRecipient neuron memo =>
      if neuron =? 0 then Some "surplus recipient neuron ID must be greater than zero"%string
      else then_some (long memo) (too_long ("neuron " ++ nat_to_string neuron)%string memo)
  end.
Fixpoint invalid_recipients (l : list RelaySurplusRecipient) : option string :=
  match l with
  | [] => None
  | r :: rest => match invalid_recipient r with Some e => Some e | None => invalid_recipients rest end
  end.

Definition canonicalize_recipients (recipients : list RelaySurplusRecipient) :
    result (list RelaySurplusRecipient) string :=
  if (MAX_SURPLUS_RECIPIENTS <? length recipients)%nat then
    Err ("at most " ++ nat_to_string (Z.of_nat MAX_SURPLUS_RECIPIENTS) ++ " surplus recipients are allowed")%string
  else
    match invalid_recipients recipients with
    | Some e => Err e
    | None =>
        let sorted := merge_sort destination_le recipients in
        if adjacent same_destination sorted
        then Err "duplicate surplus recipient destinations are not allowed"%string else Ok sorted
    end.

(** ** [setup_key.rs] *)

Definition RelaySetupKey : Type := list Z.
Definition RELAY_CONFIGURATION_DOMAIN : list Z := bytes_of_string "jupiter-relay-configuration-v1" ++ [0].
Definition TARGET_SECTION_TAG : Z := 1.
Definition RECIPIENT_SECTION_TAG : Z := 2.
Definition PRINCIPAL_RECIPIENT_TAG : Z := 1.
Definition NEURON_RECIPIENT_TAG : Z := 2.

(** A count of one byte, and the bytes; [u8::try_from(..).expect] of a longer list panics. *)
Definition counted (bytes : list Z) : list Z := Z.of_nat (length bytes) :: bytes.
Definition recipient_preimage (r : RelaySurplusRecipient) : list Z :=
  match r with
  | PrincipalRecipient p memo => PRINCIPAL_RECIPIENT_TAG :: counted (principal_as_slice p) ++ counted memo
  | NeuronRecipient neuron memo => NEURON_RECIPIENT_TAG :: to_be_bytes neuron ++ counted memo
  end.
Definition configuration_preimage (targets : list Principal) (recipients : list RelaySurplusRecipient) : list Z :=
  RELAY_CONFIGURATION_DOMAIN
  ++ TARGET_SECTION_TAG :: Z.of_nat (length targets) :: concat (map (fun p => counted (principal_as_slice p)) targets)
  ++ RECIPIENT_SECTION_TAG :: Z.of_nat (length recipients) :: concat (map recipient_preimage recipients).
Definition from_canonical_configuration (targets : list Principal) (recipients : list RelaySurplusRecipient) :
    RelaySetupKey := sha256 (configuration_preimage targets recipients).
Definition identifier (key : RelaySetupKey) : list Z := hex_encode key.

(** ** [setup_spec.rs] *)

Record CanonicalRelaySetup := MkSetup {
  setup_targets : list Principal;
  setup_surplus_recipients : list RelaySurplusRecipient;
}.
Definition canonicalize (targets : list Principal) (recipients : list RelaySurplusRecipient) :
    result CanonicalRelaySetup string :=
  match canonicalize_targets targets with
  | Err e => Err e
  | Ok targets =>
      match canonicalize_recipients recipients with
      | Err e => Err e
      | Ok recipients => Ok (MkSetup targets recipients)
      end
  end.
Definition validate_new_target_eligibility (s : CanonicalRelaySetup) (config : Config) (historian : Principal) :
    result unit string := validate_targets (setup_targets s) config historian.
Definition target_count (s : CanonicalRelaySetup) : Z := Z.of_nat (length (setup_targets s)).
Definition setup_key (s : CanonicalRelaySetup) : RelaySetupKey :=
  from_canonical_configuration (setup_targets s) (setup_surplus_recipients s).

(** ** Prices ([relay_setup.rs]) *)

Definition extra_target_charge_e8s (target_count : Z) : result Z string :=
  if target_count <? 1 then Err "target count must be positive"%string
  else
    match checked_mul (target_count - 1) EXTRA_TARGET_CHARGE_E8S with
    | Some charge => Ok charge
    | None => Err "target-count pricing overflow"%string
    end.

Definition nominal_minimum_e8s (config : Config) (target_count : Z) : result Z string :=
  match extra_target_charge_e8s target_count with
  | Err e => Err e
  | Ok extra =>
      match checked_add (relay_setup_min_e8s config) extra with
      | Some n => Ok n
      | None => Err "nominal relay setup minimum overflow"%string
      end
  end.

(** [None] when the denominator is zero or the sum overflows [u128]. *)
Definition ceil_div (numerator denominator : Z) : option Z :=
  if denominator =? 0 then None
  else if numerator + (denominator - 1) <=? u128_max then Some ((numerator + (denominator - 1)) / denominator) else None.

Definition cmc_conversion_e8s (config : Config) (rate : IcpXdrConversionRate) : result Z string :=
  match ceil_div (relay_initial_cycles config) (xdr_permyriad_per_icp rate) with
  | Some value =>
      if value <=? u64_max then
        match checked_add value (relay_cycle_safety_margin_e8s config) with
        | Some n => Ok n
        | None => Err "CMC conversion including safety margin overflow"%string
        end
      else Err "CMC returned an invalid ICP/XDR conversion rate"%string
  | None => Err "CMC returned an invalid ICP/XDR conversion rate"%string
  end.

Definition current_requirement_e8s (config : Config) (target_count fee_e8s : Z) (rate : IcpXdrConversionRate) :
    result Z string :=
  match extra_target_charge_e8s target_count with
  | Err e => Err e
  | Ok extra =>
      match cmc_conversion_e8s config rate with
      | Err e => Err e
      | Ok conversion =>
          let live :=
            value ← checked_add conversion (relay_cycle_safety_margin_e8s config);
            value ← checked_add value (relay_min_subaccount_one_seed_e8s config);
            fees ← checked_mul fee_e8s 2;
            checked_add value fees in
          match live with
          | None => Err "live relay setup requirement overflow"%string
          | Some live =>
              match checked_add (Z.max (relay_setup_min_e8s config) live) extra with
              | Some n => Ok n
              | None => Err "relay setup requirement overflow"%string
              end
          end
      end
  end.

Definition minimum_final_relay_funding_e8s (config : Config) (target_count : Z) : result Z string :=
  match extra_target_charge_e8s target_count with
  | Err e => Err e
  | Ok extra =>
      match (value ← checked_add (relay_min_subaccount_one_seed_e8s config) (relay_cycle_safety_margin_e8s config);
             checked_add value extra) with
      | Some n => Ok n
      | None => Err "minimum final Relay funding overflow"%string
      end
  end.

(** ** Configuration *)

Definition validate_canonical_relay_config (config : Config) : result unit string :=
  match canonical_relay_canister_id config, canonical_relay_targets config with
  | None, [] => Ok tt
  | None, _ => Err "canonical Relay targets require a configured canonical Relay canister"%string
  | Some _, [] => Err "configured canonical Relay requires at least one target"%string
  | Some relay, targets =>
      if decide (relay = anonymous) then Err "canonical Relay canister must not be anonymous"%string
      else if decide (relay = management_canister) then
        Err "canonical Relay canister must not be the management canister"%string
      else
        match canonicalize_targets targets with
        | Ok _ => Ok tt
        | Err e => Err ("configured canonical Relay target set is invalid: " ++ e)%string
        end
  end.

Definition reject_reserved_canonical_target_set (config : Config) (setup : CanonicalRelaySetup) : result unit string :=
  match canonical_relay_targets config with
  | [] => Ok tt
  | targets =>
      match canonicalize_targets targets with
      | Err e => Err ("configured canonical Relay target set is invalid: " ++ e)%string
      | Ok canonical =>
          if decide (canonical = setup_targets setup) then
            Err "the canonical Jupiter Relay target set is reserved and cannot be created through self-service"%string
          else Ok tt
      end
  end.

Definition approved_self_service_relay_wasm : option (list Z) :=
  match self_service_relay_install_payload with [] => None | bytes => Some bytes end.
Definition approved_relay_onchain_module_hash : option (list Z) := sha256 <$> approved_self_service_relay_wasm.

Definition factory_blocked_reason (config : Config) : option string :=
  if negb (relay_factory_enabled config) then Some "relay factory is disabled"%string
  else if is_none (cmc_canister_id config) then Some "CMC canister is not configured"%string
  else if is_none approved_self_service_relay_wasm then Some "approved Relay Wasm is not embedded"%string
  else if is_none approved_relay_onchain_module_hash then Some "approved Relay module hash is unavailable"%string
  else if relay_initial_cycles config =? 0 then Some "Relay create cycles must be positive"%string
  else if relay_setup_min_e8s config =? 0 then Some "Relay singleton minimum must be positive"%string
  else None.

(** ** The journal entry *)

Inductive RelayCreationPhase :=
| Reserved | ProbingTargets | CmcTransferPrepared | CmcTransferAccepted | CmcNotifySucceeded | CreateDispatched
| ChildCreated | CodeInstalled | RelayFundingPrepared | RelayFunded | FinalizationAttempted.
#[export] Instance RelayCreationPhase_eq_dec : EqDecision RelayCreationPhase.
Proof. solve_decision. Defined.

Record RelayTransferRecord := MkTransferRecord {
  record_amount_e8s : Z;
  record_fee_e8s : Z;
  record_created_at_time_nanos : Z;
  block_index : option Z;
}.
Record RelayCreationProgress := MkProgress {
  phase : RelayCreationPhase;
  cmc_transfer : option RelayTransferRecord;
  cycles_minted : option Z;
  create_dispatched_at_ts : option Z;
  relay_canister_id : option Principal;
  relay_funding_transfer : option RelayTransferRecord;
  last_error : option string;
}.
Definition RelayCreationProgress_reserved : RelayCreationProgress := MkProgress Reserved None None None None None None.
Inductive RelaySetupEntry :=
| Creating (progress : RelayCreationProgress)
| Active (relay : Principal)
| ManualRecoveryRequired (progress : RelayCreationProgress).

Inductive RelaySetupNotifyResult :=
| NotifyBelowMinimum (balance required shortfall : Z)
| NotifyBelowCurrentRequirement (balance required shortfall : Z)
| NotifyBusy
| NotifyInProgress (p : RelayCreationPhase) (relay : option Principal)
| NotifyActive (relay : Principal)
| NotifyFailedPreSpend (message : string)
| NotifyManualRecovery (p : RelayCreationPhase) (relay : option Principal) (message : string).

Definition notify_for_entry (entry : RelaySetupEntry) : RelaySetupNotifyResult :=
  match entry with
  | Creating progress => NotifyInProgress (phase progress) (relay_canister_id progress)
  | Active relay => NotifyActive relay
  | ManualRecoveryRequired progress =>
      NotifyManualRecovery (phase progress) (relay_canister_id progress)
        (default "operator investigation is required"%string (last_error progress))
  end.

(** [String::truncate] at the last character boundary; a continuation byte of
    UTF-8 is [10xxxxxx]. *)
Fixpoint char_boundary (s : string) (at_ : nat) : nat :=
  match at_ with
  | O => O
  | S n =>
      match String.get at_ s with
      | Some c => if bool_decide (128 <= Z.of_N (Ascii.N_of_ascii c) < 192) then char_boundary s n else at_
      | None => at_
      end
  end.
Definition bounded_message (message : string) : string :=
  if (String.length message <=? MAX_DIAGNOSTIC_BYTES)%nat then message
  else String.substring 0 (char_boundary message MAX_DIAGNOSTIC_BYTES) message.

(** ** Accounts and transfers *)

Definition setup_account_for (historian : Principal) (key : RelaySetupKey) : Account := MkAccount _ historian (Some key).
Definition cmc_deposit_account (cmc_id historian : Principal) : Account :=
  MkAccount _ cmc_id (Some (principal_to_subaccount historian)).
Definition relay_subaccount_one (relay : Principal) : Account := MkAccount _ relay (Some RELAY_SUBACCOUNT_ONE).

Definition transfer_arg (key : RelaySetupKey) (to_account : Account) (record : RelayTransferRecord)
    (memo_bytes : option (list Z)) : TransferArg := {|
  from_subaccount := Some key;
  to := to_account;
  fee := Some (record_fee_e8s record);
  created_at_time := Some (record_created_at_time_nanos record);
  memo := memo_bytes;
  amount := record_amount_e8s record;
|}.

(** [Err (inl e)]: rejected by the ledger; [Err (inr e)]: unknown outcome. *)
Definition accepted_transfer (r : result (result Z TransferError) ClientError) :
    result Z (TransferError + ClientError) :=
  match r with
  | Ok (Ok block) =>
      if block <=? u64_max then Ok block else Err (inr (CallFailed "ledger block index exceeds u64"))
  | Ok (Err (Duplicate block)) =>
      if block <=? u64_max then Ok block else Err (inr (CallFailed "duplicate block index exceeds u64"))
  | Ok (Err e) => Err (inl e)
  | Err e => Err (inr e)
  end.

(** ** Finalization *)

Inductive ObservedRelayFinalizationState := PreFinalization | Finalized.

Definition classify_relay_finalization_state (status : CanisterStatusResult) (expected_hash : list Z)
    (historian : Principal) : result ObservedRelayFinalizationState string :=
  if negb (bool_decide (status_kind status = Running)) then
    Err "Relay is not running during finalization audit"%string
  else if negb (bool_decide (status_module_hash status = Some expected_hash)) then
    Err "Relay module hash does not match the approved module"%string
  else if negb (is_public (status_log_visibility status)) then
    Err "Relay logs are not public during finalization audit"%string
  else if negb (is_public (status_visibility status)) then
    Err "Relay status is not public during finalization audit"%string
  else
    match status_controllers status with
    | [controller] =>
        if decide (controller = historian) then Ok PreFinalization
        else Err "Relay controllers are neither exactly [Historian] nor exactly empty"%string
    | [] => Ok Finalized
    | _ => Err "Relay controllers are neither exactly [Historian] nor exactly empty"%string
    end.

Definition relay_init_arg (config : Config) (setup : CanonicalRelaySetup) : list Z :=
  let principal_recipients := omap (fun r =>
    match r with PrincipalRecipient p memo => Some (p, memo) | NeuronRecipient _ _ => None end)
    (setup_surplus_recipients setup) in
  let neuron_recipients := omap (fun r =>
    match r with NeuronRecipient neuron memo => Some (neuron, memo) | PrincipalRecipient _ _ => None end)
    (setup_surplus_recipients setup) in
  encode_relay_init {|
    init_managed_canisters := setup_targets setup;
    init_ledger_canister_id := Some (ledger_canister_id config);
    init_cmc_canister_id := cmc_canister_id config;
    init_governance_canister_id := Some nns_governance_id;
    init_blackhole_canister_id := None;
    init_sns_rewards_canister_id := Some (owner (rewards_account config));
    init_icp_index_canister_id := Some (index_canister_id config);
    init_main_interval_seconds := Some (self_service_relay_interval_seconds config);
    init_max_transfers_per_tick := Some 50;
    init_surplus_canister_recipients := match principal_recipients with [] => None | l => Some l end;
    init_surplus_neuron_recipients := neuron_recipients;
  |}.

Definition relay_id_with_complete_activation_evidence (progress : RelayCreationProgress) : result Principal string :=
  match relay_canister_id progress with
  | None => Err "activation prerequisites are incomplete: Relay ID is missing"%string
  | Some relay =>
      if is_none (r ← cmc_transfer progress; block_index r) then
        Err "activation prerequisites are incomplete: accepted CMC transfer is missing"%string
      else if is_none (cycles_minted progress) then
        Err "activation prerequisites are incomplete: minted cycles evidence is missing"%string
      else if is_none (r ← relay_funding_transfer progress; block_index r) then
        Err "activation prerequisites are incomplete: accepted Relay-funding transfer is missing"%string
      else Ok relay
  end.

End canonical.

(** ** [admission.rs] *)

Definition NEW_SLOTS : nat := 4.
Definition COMPLETION_SLOTS : nat := 2.
Definition WINDOW_SECONDS : Z := 60.
Definition ATTEMPTS_PER_WINDOW : Z := 8.
Definition LEASE_SECONDS : Z := 300.
Definition CALLS_PER_ATTEMPT : Z := 512.

Inductive Lane := LaneNew | LaneCompletion.
#[export] Instance Lane_eq_dec : EqDecision Lane.
Proof. solve_decision. Defined.
Record Window := MkWindow { window_number : Z; window_used : Z }.
Record Slot := MkSlot { slot_key : RelaySetupKey; slot_token : Z; slot_lane : Lane; slot_expires : Z; slot_calls : Z }.
Record Limiter := MkLimiter {
  next_token : Z;
  slots : list Slot;
  window_new : Window;
  window_completion : Window;
}.
Definition Limiter_default : Limiter := MkLimiter 0 [] (MkWindow 0 0) (MkWindow 0 0).
Record Ticket := MkTicket { ticket_key : RelaySetupKey; ticket_token : Z }.

Definition has_live_attempt (key : RelaySetupKey) (now_secs : Z) (l : Limiter) : bool :=
  existsb (fun s => bool_decide (slot_key s = key) && (now_secs <? slot_expires s)) (slots l).

Definition lane_cap (lane : Lane) : nat := match lane with LaneNew => NEW_SLOTS | LaneCompletion => COMPLETION_SLOTS end.
Definition lane_window (lane : Lane) (l : Limiter) : Window :=
  match lane with LaneNew => window_new l | LaneCompletion => window_completion l end.
Definition set_lane_window (lane : Lane) (w : Window) (l : Limiter) : Limiter :=
  match lane with LaneNew => l <| window_new := w |> | LaneCompletion => l <| window_completion := w |> end.

(** [None] for a panic: the tokens are exhausted. *)
Definition guard_acquire (key : RelaySetupKey) (lane : Lane) (now_secs : Z) (l : Limiter) :
    option (option Ticket * Limiter) :=
  let l := l <| slots ::= List.filter (fun s => now_secs <? slot_expires s) |> in
  if existsb (fun s => bool_decide (slot_key s = key)) (slots l)
     || (lane_cap lane <=? length (List.filter (fun s => bool_decide (slot_lane s = lane)) (slots l)))%nat
  then Some (None, l)
  else
    let window := lane_window lane l in
    let number := now_secs / WINDOW_SECONDS in
    if number <? window_number window then Some (None, l)
    else
      let window := if window_number window <? number then MkWindow number 0 else window in
      let l := set_lane_window lane window l in
      if ATTEMPTS_PER_WINDOW <=? window_used window then Some (None, l)
      else
        let l := set_lane_window lane (window <| window_used ::= Z.add 1 |>) l in
        match checked_add (next_token l) 1 with
        | None => None
        | Some token =>
            Some (Some (MkTicket key token),
              l <| next_token := token |>
                <| slots ::= fun s => s ++ [MkSlot key token lane (sat_add now_secs LEASE_SECONDS) 0] |>)
        end.

Definition holds (t : Ticket) (s : Slot) : bool :=
  bool_decide (slot_key s = ticket_key t) && (slot_token s =? ticket_token t).
Definition guard_drop (t : Ticket) (l : Limiter) : Limiter := l <| slots ::= List.filter (fun s => negb (holds t s)) |>.

Definition owns_slot (t : Ticket) (key : RelaySetupKey) (l : Limiter) : bool :=
  bool_decide (ticket_key t = key) && existsb (fun s => bool_decide (slot_key s = key) && (slot_token s =? ticket_token t)) (slots l).

(** The first slot of the ticket, charged when [charge_call]; [None] is [Err(Busy)]. *)
Fixpoint visit_slots (t : Ticket) (charge_call : bool) (now_secs : Z) (l : list Slot) : option (list Slot) :=
  match l with
  | [] => None
  | s :: rest =>
      if holds t s then
        if negb (now_secs <? slot_expires s) then None
        else if charge_call then
          if CALLS_PER_ATTEMPT <=? slot_calls s then None else Some (s <| slot_calls ::= Z.add 1 |> :: rest)
        else Some l
      else
        match visit_slots t charge_call now_secs rest with Some rest => Some (s :: rest) | None => None end
  end.
Definition visit (t : Ticket) (charge_call : bool) (now_secs : Z) (l : Limiter) : bool * Limiter :=
  match visit_slots t charge_call now_secs (slots l) with
  | Some s => (true, l <| slots := s |>)
  | None => (false, l)
  end.
