(* ===== verification/RelaySetupKeys.v ===== *)
(** * Historian: the key of a relay configuration, and what a setup is charged

    Two requests that list the same targets and the same recipients in some order have the
    same key, two others only by a collision of the digest; and a request that is funded
    covers the cycles of its relay and the balance promised to it. *)

From Stdlib Require Import Sorted.
From stdpp Require Import sorting.
From S2P Require Import Prelude BTree Async Ic Accounts Clients CyclesProbe MemoPolicy HistorianTypes HistorianKeys RelaySetup.

(** ** Prefix codes: an encoding that can be told apart whatever follows it *)

Section prefix_code.
Context {A : Type} (f : A -> list Z).
Definition prefix_free : Prop := forall a b r r', f a ++ r = f b ++ r' -> a = b /\ r = r'.

Lemma prefix_free_concat : prefix_free -> forall l l' r r',
  length l = length l' -> concat (map f l) ++ r = concat (map f l') ++ r' -> l = l' /\ r = r'.
Proof.
  intros Hf l. induction l as [|a l IH]; intros [|b l'] r r' Hlen E; try done. cbn in E. rewrite <- !app_assoc in E.
  apply Hf in E as [-> E]. apply IH in E as [-> ->]; [done|]. by injection Hlen.
Qed.
End prefix_code.

Section counted.
Lemma counted_inj (a b r r' : list Z) : counted a ++ r = counted b ++ r' -> a = b /\ r = r'.
Proof. intros [= Hl E]. apply app_inj_1; [lia|done]. Qed.
End counted.

Section keys.
Context `{P : PrincipalSpec} `{T : TextSpec} `{F : !FactorySpec} `{SS : !SliceSpec} `{SL : !SliceLaws}.
#[local] Existing Instance Principal_eq_dec.

Lemma slice_inj p q : principal_as_slice p = principal_as_slice q -> p = q.
Proof. intros E. by rewrite <- (from_slice_as_slice p), <- (from_slice_as_slice q), E. Qed.

Definition recipient_ok (r : RelaySurplusRecipient) : Prop :=
  match r with NeuronRecipient neuron _ => u64 neuron | PrincipalRecipient _ _ => True end.

Lemma recipient_inj a b r r' : recipient_ok a -> recipient_ok b ->
  recipient_preimage a ++ r = recipient_preimage b ++ r' -> a = b /\ r = r'.
Proof.
  destruct a as [p m|n m], b as [q m'|n' m']; cbn -[counted to_be_bytes]; intros Ha Hb; [|by intros [=]|by intros [=]|].
  - rewrite <- !app_assoc. intros E. apply (f_equal tail) in E. cbn [tail] in E. apply counted_inj in E as [E1 E]. apply counted_inj in E as [-> ->].
    by apply slice_inj in E1 as ->.
  - rewrite <- !app_assoc. intros E. apply (f_equal tail) in E. cbn [tail] in E. apply app_inj_1 in E as [E1 E]; [|by rewrite !to_be_length].
    apply counted_inj in E as [-> ->]. apply (f_equal from_be) in E1. rewrite !from_to_be in E1 by done. by subst.
Qed.

Lemma recipients_concat l l' r r' : Forall recipient_ok l -> Forall recipient_ok l' -> length l = length l' ->
  concat (map recipient_preimage l) ++ r = concat (map recipient_preimage l') ++ r' -> l = l' /\ r = r'.
Proof.
  revert l'. induction l as [|a l IH]; intros [|b l'] Ha Hb Hlen E; try done. cbn in E. rewrite <- !app_assoc in E.
  apply Forall_cons in Ha as [Ha Hal], Hb as [Hb Hbl]. apply recipient_inj in E as [-> E]; [|done|done].
  apply IH in E as [-> ->]; try done. by injection Hlen.
Qed.

Lemma preimage_inj ts rs ts' rs' : Forall recipient_ok rs -> Forall recipient_ok rs' ->
  configuration_preimage ts rs = configuration_preimage ts' rs' -> ts = ts' /\ rs = rs'.
Proof.
  intros Hr Hr' E. unfold configuration_preimage in E. apply app_inv_head in E. injection E as Hn E.
  apply (prefix_free_concat (fun p => counted (principal_as_slice p))) in E as [-> E]; [| |lia].
  - injection E as Hm E. rewrite <- (app_nil_r (concat (map recipient_preimage rs))), <- (app_nil_r (concat (map recipient_preimage rs'))) in E.
    apply recipients_concat in E as [-> _]; [done|done|done|lia].
  - intros a b r r' E'. apply counted_inj in E' as [E' ->]. by apply slice_inj in E' as ->.
Qed.

(** ** Sorting *)

#[export] Instance slice_le_trans : Transitive slice_le.
Proof.
  unfold slice_le. intros a b c Hab Hbc. destruct (ltb (principal_as_slice c) (principal_as_slice a)) eqn:E; [|done].
  destruct (ltb_total (principal_as_slice a) (principal_as_slice b)) as [H|[H|H]].
  - pose proof (ltb_trans _ _ _ E H). congruence.
  - congruence.
  - congruence.
Qed.
#[export] Instance slice_le_total : Total slice_le.
Proof.
  intros a b. unfold slice_le. destruct (ltb (principal_as_slice b) (principal_as_slice a)) eqn:E; [right|by left].
  destruct (ltb (principal_as_slice a) (principal_as_slice b)) eqn:E'; [|done]. pose proof (ltb_trans _ _ _ E E') as H.
  by rewrite ltb_irrefl in H.
Qed.
Lemma slice_le_antisym a b : slice_le a b -> slice_le b a -> a = b.
Proof.
  unfold slice_le. intros H1 H2. apply slice_inj. destruct (ltb_total (principal_as_slice a) (principal_as_slice b)) as [|[|]]; congruence.
Qed.

#[export] Instance destination_le_trans : Transitive destination_le.
Proof. intros [a ?|a ?] [b ?|b ?] [c ?|c ?]; cbn; try done; [apply slice_le_trans|lia]. Qed.
#[export] Instance destination_le_total : Total destination_le.
Proof. intros [a ?|a ?] [b ?|b ?]; cbn; auto; [apply slice_le_total|]. destruct (Z.le_ge_cases a b); auto. Qed.

Lemma adjacent_free {A} (eqb : A -> A -> bool) (R : A -> A -> Prop) l :
  StronglySorted R l -> adjacent eqb l = false ->
  (forall a b c, R a b -> R b c -> R a c) -> (forall a b, R a b -> R b a -> eqb a b = true) ->
  (forall a b c, R a b -> R b c -> eqb a c = true -> eqb a b = true) ->
  StronglySorted (fun a b => R a b /\ eqb a b = false) l.
Proof.
  intros Hs Hadj Ht Ha Hc. induction Hs as [|a l Hs IH Hall]; constructor.
  - apply IH. destruct l; [done|]. cbn in Hadj. by apply orb_false_iff in Hadj as [_ ?].
  - destruct l as [|b l]; [constructor|]. cbn in Hadj. apply orb_false_iff in Hadj as [Hab _].
    pose proof (Forall_inv Hall) as Rab. inversion Hs as [|? ? Hs' Hb]; subst.
    apply Forall_cons. split; [done|]. rewrite Forall_forall in Hb |- *. intros c Hc'. split; [eapply Ht; [exact Rab|by apply Hb]|].
    destruct (eqb a c) eqn:E; [|done]. rewrite (Hc a b c) in Hab; [done|done|by apply Hb|done].
Qed.

Lemma reserved_target_none ts : reserved_target ts = None -> Forall (fun p => p <> anonymous /\ p <> management_canister) ts.
Proof.
  induction ts as [|t ts IH]; cbn; [constructor|]. repeat case_decide; try done. intros Hr. constructor; [done|by apply IH].
Qed.

Lemma sorted_NoDup {A} (R : A -> A -> Prop) (eqb : A -> A -> bool) l :
  StronglySorted (fun a b => R a b /\ eqb a b = false) l -> (forall a, eqb a a = true) -> NoDup l.
Proof.
  intros Hs Hr. induction Hs as [|a l Hs IH Hall]; constructor; [|done]. intros Hin. rewrite Forall_forall in Hall.
  destruct (Hall a Hin) as [_ E]. by rewrite Hr in E.
Qed.

Lemma targets_canonical ts l : canonicalize_targets ts = Ok l ->
  l ≡ₚ ts /\ StronglySorted slice_le l /\ NoDup l /\ (0 < length l <= MAX_RELAY_TARGETS)%nat
  /\ Forall (fun p => p <> anonymous /\ p <> management_canister) l.
Proof.
  unfold canonicalize_targets. destruct ts as [|t0 ts0] eqn:Ets; [done|]. rewrite <- Ets.
  assert (Hpos : (0 < length ts)%nat) by (subst; cbn; lia). clear t0 ts0 Ets.
  destruct (Nat.ltb _ _) eqn:Hlen; [done|]. destruct (reserved_target ts) eqn:Hres; [done|].
  destruct (adjacent _ _) eqn:Hadj; [done|]. intros [= <-].
  assert (Hp : merge_sort slice_le ts ≡ₚ ts) by apply merge_sort_Permutation.
  assert (Hs : StronglySorted slice_le (merge_sort slice_le ts)) by (apply StronglySorted_merge_sort; apply _).
  split; [done|]. split; [done|]. split; [|split].
  - apply (sorted_NoDup slice_le (fun a b => bool_decide (a = b))); [|intros; by apply bool_decide_eq_true].
    apply adjacent_free; [done|done|apply slice_le_trans|intros; apply bool_decide_eq_true; by apply slice_le_antisym|].
    intros a b c Hab Hbc E%bool_decide_eq_true. subst c. apply bool_decide_eq_true. by apply slice_le_antisym.
  - rewrite (Permutation_length Hp). apply Nat.ltb_ge in Hlen. lia.
  - rewrite Hp. by apply reserved_target_none.
Qed.

Lemma same_destination_refl r : same_destination r r = true.
Proof.
  unfold same_destination. assert (H : destination_le r r) by (destruct r; cbn; [unfold slice_le; apply ltb_irrefl|lia]).
  by rewrite bool_decide_eq_true_2.
Qed.

Lemma recipients_canonical rs l : canonicalize_recipients rs = Ok l ->
  l ≡ₚ rs /\ StronglySorted (fun a b => destination_le a b /\ same_destination a b = false) l
  /\ (length l <= MAX_SURPLUS_RECIPIENTS)%nat /\ invalid_recipients rs = None.
Proof.
  unfold canonicalize_recipients. destruct (Nat.ltb _ _) eqn:Hlen; [done|]. destruct (invalid_recipients rs) eqn:Hinv; [done|].
  destruct (adjacent _ _) eqn:Hadj; [done|]. intros [= <-].
  assert (Hp : merge_sort destination_le rs ≡ₚ rs) by apply merge_sort_Permutation.
  assert (Hs : StronglySorted destination_le (merge_sort destination_le rs)) by (apply StronglySorted_merge_sort; apply _).
  split; [done|]. split; [|split; [|done]].
  - apply adjacent_free; [done|done|apply destination_le_trans| |].
    + intros a b Hab Hba. unfold same_destination. by rewrite !bool_decide_eq_true_2.
    + intros a b c Hab Hbc E. unfold same_destination in *. apply andb_true_iff in E as [_ E%bool_decide_eq_true].
      assert (destination_le b a) by (by etrans). by rewrite !bool_decide_eq_true_2.
  - rewrite (Permutation_length Hp). by apply Nat.ltb_ge in Hlen.
Qed.

(** The order of the request is irrelevant. *)
Lemma targets_unique ts ts' l l' : canonicalize_targets ts = Ok l -> canonicalize_targets ts' = Ok l' -> ts ≡ₚ ts' -> l = l'.
Proof.
  intros H H' Hp. apply targets_canonical in H as (Hl & Hs & _), H' as (Hl' & Hs' & _).
  apply (StronglySorted_unique_strong slice_le); [intros; by apply slice_le_antisym|done|done|]. by rewrite Hl, Hl'.
Qed.

Lemma recipients_unique rs rs' l l' : canonicalize_recipients rs = Ok l -> canonicalize_recipients rs' = Ok l' -> rs ≡ₚ rs' -> l = l'.
Proof.
  intros H H' Hp. apply recipients_canonical in H as (Hl & Hs & _), H' as (Hl' & Hs' & _).
  assert (Hll : l ≡ₚ l') by (by rewrite Hl, Hl').
  apply (StronglySorted_unique_strong (fun a b => destination_le a b /\ same_destination a b = false)); [|done|done|done].
  intros a b _ _ [Hab Hne] [Hba _]. unfold same_destination in Hne. by rewrite !bool_decide_eq_true_2 in Hne.
Qed.

(** C28: A configuration has one setup key whatever the order of the request: two accepted
    requests that list the same targets and the same recipients, memos included, have the same
    canonical form and the same [setup_key].  Two accepted requests with the same key list the
    same targets and recipients, or their keys are a collision of SHA-256: the bytes that are
    hashed are equal exactly when the requests are permutations of each other.  The canonical
    form is sorted, without duplicates, within the limits, and never contains the anonymous or
    the management principal. *)
Theorem configuration_key_canonical ts rs ts' rs' (s s' : CanonicalRelaySetup) :
  Forall recipient_ok rs -> Forall recipient_ok rs' ->
  canonicalize ts rs = Ok s -> canonicalize ts' rs' = Ok s' ->
  (configuration_preimage (setup_targets s) (setup_surplus_recipients s)
     = configuration_preimage (setup_targets s') (setup_surplus_recipients s') <-> ts ≡ₚ ts' /\ rs ≡ₚ rs') /\
  (ts ≡ₚ ts' /\ rs ≡ₚ rs' -> s = s') /\
  (ts ≡ₚ ts' /\ rs ≡ₚ rs' -> setup_key s = setup_key s') /\
  (setup_key s = setup_key s' -> (ts ≡ₚ ts' /\ rs ≡ₚ rs') \/
     let bytes := configuration_preimage (setup_targets s) (setup_surplus_recipients s) in
     let bytes' := configuration_preimage (setup_targets s') (setup_surplus_recipients s') in bytes <> bytes' /\ sha256 bytes = sha256 bytes') /\
  StronglySorted slice_le (setup_targets s) /\
  StronglySorted (fun a b => destination_le a b /\ same_destination a b = false) (setup_surplus_recipients s) /\
  setup_targets s ≡ₚ ts /\ NoDup (setup_targets s) /\ (0 < length (setup_targets s) <= MAX_RELAY_TARGETS)%nat /\
  Forall (fun p => p <> anonymous /\ p <> management_canister) (setup_targets s) /\
  setup_surplus_recipients s ≡ₚ rs /\ (length (setup_surplus_recipients s) <= MAX_SURPLUS_RECIPIENTS)%nat.
Proof.
  intros Hr Hr'. unfold canonicalize.
  destruct (canonicalize_targets ts) as [l|] eqn:Ht; [|done]. destruct (canonicalize_recipients rs) as [k|] eqn:Hk; [|done]. intros [= <-].
  destruct (canonicalize_targets ts') as [l'|] eqn:Ht'; [|done]. destruct (canonicalize_recipients rs') as [k'|] eqn:Hk'; [|done]. intros [= <-].
  unfold setup_key, from_canonical_configuration. cbn [setup_targets setup_surplus_recipients].
  pose proof (targets_canonical _ _ Ht) as (Hl & Hls & Hnd & Hlen & Hres). pose proof (recipients_canonical _ _ Hk) as (Hkp & Hks & Hklen & _).
  pose proof (targets_canonical _ _ Ht') as (Hl' & _). pose proof (recipients_canonical _ _ Hk') as (Hkp' & _).
  assert (Hsame : ts ≡ₚ ts' /\ rs ≡ₚ rs' -> l = l' /\ k = k').
  { intros [Hpt Hpr]. split; [by eapply targets_unique|by eapply recipients_unique]. }
  assert (Hbytes : configuration_preimage l k = configuration_preimage l' k' <-> ts ≡ₚ ts' /\ rs ≡ₚ rs').
  { split; [|intros Hp; by destruct (Hsame Hp) as [-> ->]].
    intros E. apply preimage_inj in E as [-> ->]; [by rewrite <- Hl, <- Hkp|by rewrite Hkp|by rewrite Hkp']. }
  split; [exact Hbytes|]. split; [intros Hp; by destruct (Hsame Hp) as [-> ->]|]. split; [intros Hp; by destruct (Hsame Hp) as [-> ->]|].
  split; [|done].
  intros E. destruct (decide (configuration_preimage l k = configuration_preimage l' k')) as [Eb|Ne]; [left; by apply Hbytes|by right].
Qed.

(** ** Prices *)

Lemma ceil_div_spec n d v : 0 < d -> 0 <= n -> ceil_div n d = Some v -> n <= v * d < n + d.
Proof.
  unfold ceil_div. intros Hd Hn. destruct (d =? 0) eqn:E; [lia|]. destruct (_ <=? _); [|done]. intros [= <-].
  pose proof (Z.div_mod (n + (d - 1)) d). pose proof (Z.mod_pos_bound (n + (d - 1)) d). lia.
Qed.

Definition prices_ok (config : Config) : Prop :=
  u64 (relay_setup_min_e8s config) /\ u128 (relay_initial_cycles config) /\ u64 (relay_cycle_safety_margin_e8s config)
  /\ u64 (relay_min_subaccount_one_seed_e8s config).

(** C29: a balance that meets the live requirement pays for the whole setup: the amount
    sent to the cycles minting canister buys the configured cycles at the given rate, with
    the safety margin on top; after it and two ledger fees the balance still covers the
    promised minimum funding of the relay; the nominal minimum is never above the live
    requirement; and none of the three sums overflows. *)
Theorem funded_setup_covers_relay (config : Config) (n fee_e8s req balance : Z) (rate : IcpXdrConversionRate) :
  prices_ok config -> u64 fee_e8s -> u64 (xdr_permyriad_per_icp rate) ->
  current_requirement_e8s config n fee_e8s rate = Ok req -> req <= balance ->
  exists conversion minimum nominal,
    cmc_conversion_e8s config rate = Ok conversion /\ minimum_final_relay_funding_e8s config n = Ok minimum /\
    nominal_minimum_e8s config n = Ok nominal /\
    relay_initial_cycles config <= (conversion - relay_cycle_safety_margin_e8s config) * xdr_permyriad_per_icp rate /\
    0 <= conversion /\ minimum <= balance - (conversion + fee_e8s) - fee_e8s /\ nominal <= req <= u64_max /\
    1 <= n /\ minimum = relay_min_subaccount_one_seed_e8s config + relay_cycle_safety_margin_e8s config + (n - 1) * EXTRA_TARGET_CHARGE_E8S.
Proof.
  intros (Hmin & Hc & Hm & Hseed) Hfee Hrate Hreq Hbal. unfold current_requirement_e8s in Hreq.
  destruct (extra_target_charge_e8s n) as [extra|] eqn:He; [|done]. destruct (cmc_conversion_e8s config rate) as [conv|] eqn:Hconv; [|done].
  unfold extra_target_charge_e8s in He. destruct (n <? 1) eqn:Hn; [done|]. apply Z.ltb_ge in Hn.
  destruct (checked_mul (n - 1) EXTRA_TARGET_CHARGE_E8S) as [extra'|] eqn:Hextra; [|done]. injection He as <-.
  apply checked_mul_Some in Hextra as [Hextra Hextra_u].
  (* the conversion *)
  pose proof Hconv as Hconv0. unfold cmc_conversion_e8s in Hconv. destruct (ceil_div _ _) as [value|] eqn:Hceil; [|done].
  destruct (value <=? u64_max) eqn:Hv; [|done]. destruct (checked_add value _) as [conv'|] eqn:Hadd; [|done]. injection Hconv as <-.
  apply checked_add_Some in Hadd as [Hadd Hadd_u].
  assert (Hd : 0 < xdr_permyriad_per_icp rate).
  { unfold ceil_div in Hceil. destruct (xdr_permyriad_per_icp rate =? 0) eqn:E; [done|]. ulia. }
  apply ceil_div_spec in Hceil; [|done|apply Hc].
  (* the live sum *)
  destruct (checked_add conv' _) as [a|] eqn:Ha; cbn in Hreq; [|done]. destruct (checked_add a _) as [b|] eqn:Hb; cbn in Hreq; [|done].
  destruct (checked_mul fee_e8s 2) as [fees|] eqn:Hfees; cbn in Hreq; [|done]. destruct (checked_add b fees) as [live|] eqn:Hlive; [|done].
  destruct (checked_add (Z.max _ _) _) as [req'|] eqn:Hr; [|done]. injection Hreq as <-.
  apply checked_add_Some in Ha as [Ha _], Hb as [Hb _], Hlive as [Hlive _], Hr as [Hr Hr_u]. apply checked_mul_Some in Hfees as [Hfees _].
  destruct Hmin, Hc, Hm, Hseed, Hfee. subst extra' a b fees live req'.
  assert (Hv0 : 0 <= value) by nia.
  assert (Hex : 0 <= (n - 1) * EXTRA_TARGET_CHARGE_E8S) by (unfold EXTRA_TARGET_CHARGE_E8S; lia).
  set (x := (n - 1) * EXTRA_TARGET_CHARGE_E8S) in *.
  assert (Eextra : extra_target_charge_e8s n = Ok x).
  { unfold extra_target_charge_e8s. rewrite (proj2 (Z.ltb_ge _ _)) by done.
    by rewrite (proj2 (checked_mul_Some (n - 1) EXTRA_TARGET_CHARGE_E8S x)). }
  exists conv', (relay_min_subaccount_one_seed_e8s config + relay_cycle_safety_margin_e8s config + x), (relay_setup_min_e8s config + x).
  split; [done|]. split.
  { unfold minimum_final_relay_funding_e8s. rewrite Eextra.
    rewrite (proj2 (checked_add_Some _ _ _)) by (split; [done|lia]). cbn.
    by rewrite (proj2 (checked_add_Some _ _ _)) by (split; [done|lia]). }
  split.
  { unfold nominal_minimum_e8s. rewrite Eextra. by rewrite (proj2 (checked_add_Some _ _ _)) by (split; [done|lia]). }
  subst conv'. repeat split; lia.
Qed.

End keys.

(** Two targets, one recipient, at a rate of 5 XDR per ICP. *)
Module ConcreteSetup.
Import Concrete ConcreteKeys.
Abbreviation principal := (Principal (PrincipalSpec:=concrete_principal)).
Definition account7 : Account (H:=concrete_principal) := MkAccount concrete_principal 7 None.
Definition config0 : Config (P:=concrete_principal) :=
  MkConfig (P:=concrete_principal) account7 account7 account7 account7 1 2 (Some 3) (Some 5) 6 8 false 600 604800 100000000 100 100 10
    25 true 300000000 2000000000000 5000000 100020000 86400 None [].
Definition rate0 : IcpXdrConversionRate := MkRate 0 50000.

Lemma funded_setup_covers_relay_witness :
  current_requirement_e8s config0 2 10000 rate0 = Ok 325000000 /\
  exists conversion minimum nominal,
    cmc_conversion_e8s config0 rate0 = Ok conversion /\ minimum_final_relay_funding_e8s config0 2 = Ok minimum /\
    nominal_minimum_e8s config0 2 = Ok nominal /\
    relay_initial_cycles config0 <= (conversion - relay_cycle_safety_margin_e8s config0) * xdr_permyriad_per_icp rate0 /\
    0 <= conversion /\ minimum <= 330000000 - (conversion + 10000) - 10000 /\ nominal <= 325000000 <= u64_max /\
    1 <= 2 /\ minimum = relay_min_subaccount_one_seed_e8s config0 + relay_cycle_safety_margin_e8s config0 + (2 - 1) * EXTRA_TARGET_CHARGE_E8S.
Proof.
  split; [vm_compute; reflexivity|].
  apply (funded_setup_covers_relay config0 2 10000 325000000 330000000 rate0);
    [repeat split; cbn; lia|split; lia|split; cbn; lia|vm_compute; reflexivity|lia].
Defined.

Import ConcreteTexts.
Abbreviation r1 := (PrincipalRecipient (P:=concrete_principal) 12 [1]).
Abbreviation r2 := (NeuronRecipient (P:=concrete_principal) 77 [2]).
#[local] Instance byte_sum : FactorySpec (H:=concrete_principal) := {|
  sha256 := fun bytes => [fold_right Z.add 0 bytes];
  self_service_relay_install_payload := [];
  encode_relay_init := fun _ => [];
  nns_governance_id := 4 : principal;
  debug_transfer_error := fun _ => "transfer"%string;
  debug_notify_error := fun _ => "notify"%string |}.
Lemma configuration_key_canonical_witness :
  exists s s', canonicalize (P:=concrete_principal) [9; 8] [r2; r1] = Ok s /\ canonicalize (P:=concrete_principal) [8; 9] [r1; r2] = Ok s'
    /\ setup_key s = setup_key s' /\ setup_targets s = [(8 : principal); (9 : principal)].
Proof.
  eexists _, _. split; [vm_compute; reflexivity|]. split; [vm_compute; reflexivity|]. split; [|reflexivity].
  refine (proj1 (proj2 (proj2 (configuration_key_canonical (P:=concrete_principal) [9; 8] [r2; r1] [8; 9] [r1; r2] _ _ _ _ _ _))) _).
  - repeat constructor; cbn; lia.
  - repeat constructor; cbn; lia.
  - vm_compute; reflexivity.
  - vm_compute; reflexivity.
  - split; constructor.
Defined.

End ConcreteSetup.
