(* ===== verification/RelayFactory.v ===== *)
(** * Historian: the relay factory ([relay_setup.rs], [relay_setup/admission.rs], [state/stable.rs])

    A funded setup is turned into a relay: the cycles are bought, the canister is created
    and installed, its first funding is sent and its controllers are removed.  The journal
    entry of the configuration is written before every call that moves value; the
    admission limiter bounds the attempts.  An operation of the model that panics in the
    code returns [None], and the handler traps. *)

From stdpp Require Import sorting.
From S2P Require Import Prelude BTree Async Ic Accounts Clients CyclesProbe HistorianTypes HistorianKeys HistorianState HistorianTracking RelaySetup.

Section factory.
Context `{P : PrincipalSpec} `{O : !OrdSpec Principal} `{SS : !SliceSpec} `{T : TextSpec} `{I : !ProbeIds} `{F : !FactorySpec} `{H : HashSpec}.
#[local] Existing Instance Principal_eq_dec.

(** ** The heap of the canister *)

Record Heap := MkHeap {
  mem : Mem;
  relay_setup_entries : btree_map RelaySetupKey RelaySetupEntry;
  creating_keys_cell : option (list RelaySetupKey);
  limiter : Limiter;
}.
Local Abbreviation async := (async Heap SuiteCall).
Abbreviation state_of h := (st (mem h)).
Abbreviation stored h := (storage (mem h)).

(** *** The index of the keys that are being created *)

Definition valid_creating_keys (keys : list RelaySetupKey) : bool :=
  (length keys <=? MAX_CONCURRENT_FUNDED_RELAY_SETUPS)%nat && bool_decide (NoDup keys).
Definition relay_creating_keys (h : Heap) : option (list RelaySetupKey * Heap) :=
  match creating_keys_cell h with
  | None =>
      match relay_setup_entries h with
      | [] => Some ([], h <| creating_keys_cell := Some [] |>)
      | _ => None
      end
  | Some keys => if valid_creating_keys keys then Some (keys, h) else None
  end.
Definition set_relay_creating_keys (keys : list RelaySetupKey) (h : Heap) : option Heap :=
  if valid_creating_keys keys then Some (h <| creating_keys_cell := Some keys |>) else None.

(** *** The journal *)

Definition get_entry (key : RelaySetupKey) (h : Heap) : option RelaySetupEntry := btree_get key (relay_setup_entries h).
Definition without (key : RelaySetupKey) (keys : list RelaySetupKey) : list RelaySetupKey :=
  List.filter (fun existing => negb (bool_decide (existing = key))) keys.
Definition insert_entry (key : RelaySetupKey) (entry : RelaySetupEntry) (h : Heap) : option Heap :=
  '(creating, h) ← relay_creating_keys h;
  creating ← match entry with
    | Creating _ =>
        if bool_decide (key ∈ creating) then Some creating
        else if (length creating <? MAX_CONCURRENT_FUNDED_RELAY_SETUPS)%nat then Some (creating ++ [key]) else None
    | _ => Some (without key creating)
    end;
  set_relay_creating_keys creating (h <| relay_setup_entries ::= btree_insert key entry |>).
Definition remove_entry (key : RelaySetupKey) (h : Heap) : option Heap :=
  '(creating, h) ← relay_creating_keys h;
  set_relay_creating_keys (without key creating) (h <| relay_setup_entries ::= btree_remove key |>).

(** [panic!]: the index names a key without a [Creating] entry. *)
Definition reconcile_key (key : RelaySetupKey) (h : Heap) : option Heap :=
  match get_entry key h with
  | Some (Creating progress) =>
      match phase progress with
      | Reserved | ProbingTargets => remove_entry key h
      | CmcTransferAccepted | CmcNotifySucceeded => Some h
      | _ => insert_entry key (ManualRecoveryRequired (progress <| last_error := Some "HistorianUpgradeInterrupted"%string |>)) h
      end
  | _ => None
  end.
Fixpoint reconcile_keys (keys : list RelaySetupKey) (h : Heap) : option Heap :=
  match keys with
  | [] => Some h
  | key :: rest => h ← reconcile_key key h; reconcile_keys rest h
  end.
Definition reconcile_interrupted_creating_entries_after_upgrade (h : Heap) : option Heap :=
  '(keys, h) ← relay_creating_keys h;
  reconcile_keys keys h.

Definition missing_reservation : RelaySetupNotifyResult :=
  NotifyFailedPreSpend "relay setup reservation no longer exists"%string.
Definition require_phase (key : RelaySetupKey) (expected : RelayCreationPhase) (h : Heap) :
    result RelayCreationProgress RelaySetupNotifyResult :=
  match get_entry key h with
  | Some (Creating progress) =>
      if decide (phase progress = expected) then Ok progress else Err (notify_for_entry (Creating progress))
  | Some entry => Err (notify_for_entry entry)
  | None => Err missing_reservation
  end.

(** An update of the heap that may panic. *)
Definition atomically {A} (f : Heap -> option (A * Heap)) : async A := fun _ w =>
  match f (w_state w) with
  | Some (a, h) => (Returned a, World h (w_trace w))
  | None => (Trapped, w)
  end.

Definition update_progress_now (key : RelaySetupKey) (expected : RelayCreationPhase)
    (update : RelayCreationProgress -> RelayCreationProgress) (h : Heap) :
    option (result RelayCreationProgress RelaySetupNotifyResult * Heap) :=
  match require_phase key expected h with
  | Err r => Some (Err r, h)
  | Ok progress =>
      h ← insert_entry key (Creating (update progress)) h;
      Some (Ok (update progress), h)
  end.
Definition update_progress key expected update : async (result RelayCreationProgress RelaySetupNotifyResult) :=
  atomically (update_progress_now key expected update).

Definition manual_recovery_now (key : RelaySetupKey) (expected : RelayCreationPhase) (message : string) (h : Heap) :
    option (RelaySetupNotifyResult * Heap) :=
  let message := bounded_message message in
  match require_phase key expected h with
  | Err r => Some (r, h)
  | Ok progress =>
      let progress := progress <| last_error := Some message |> in
      h ← insert_entry key (ManualRecoveryRequired progress) h;
      Some (NotifyManualRecovery (phase progress) (relay_canister_id progress) message, h)
  end.
Definition manual_recovery key expected message : async RelaySetupNotifyResult :=
  atomically (manual_recovery_now key expected message).

(** *** Reservations *)

Definition reserve_now (key : RelaySetupKey) (h : Heap) :
    option (result RelayCreationProgress RelaySetupNotifyResult * Heap) :=
  match get_entry key h with
  | Some entry => Some (Err (notify_for_entry entry), h)
  | None =>
      '(keys, h) ← relay_creating_keys h;
      if (MAX_CONCURRENT_FUNDED_RELAY_SETUPS <=? length keys)%nat then Some (Err NotifyBusy, h)
      else
        h ← insert_entry key (Creating RelayCreationProgress_reserved) h;
        Some (Ok RelayCreationProgress_reserved, h)
  end.

Definition pre_spend (p : RelayCreationPhase) : bool := match p with Reserved | ProbingTargets => true | _ => false end.
Definition abandoned (progress : RelayCreationProgress) : bool :=
  pre_spend (phase progress) && is_none (cmc_transfer progress) && is_none (cycles_minted progress)
  && is_none (create_dispatched_at_ts progress) && is_none (relay_canister_id progress)
  && is_none (relay_funding_transfer progress).
Fixpoint reclaim_keys (now_secs : Z) (keys : list RelaySetupKey) (h : Heap) : option Heap :=
  match keys with
  | [] => Some h
  | key :: rest =>
      if has_live_attempt key now_secs (limiter h) then reclaim_keys now_secs rest h
      else
        match get_entry key h with
        | Some (Creating progress) =>
            if abandoned progress then h ← remove_entry key h; reclaim_keys now_secs rest h
            else reclaim_keys now_secs rest h
        | _ => reclaim_keys now_secs rest h
        end
  end.
Definition reclaim_abandoned_pre_spend_reservations_now (now_secs : Z) (h : Heap) : option (unit * Heap) :=
  '(keys, h) ← relay_creating_keys h;
  h ← reclaim_keys now_secs keys h;
  Some (tt, h).

Definition remove_reservation_now (key : RelaySetupKey) (expected : RelayCreationPhase) (h : Heap) : option (unit * Heap) :=
  match get_entry key h with
  | Some (Creating progress) =>
      if decide (phase progress = expected) then h ← remove_entry key h; Some (tt, h) else Some (tt, h)
  | _ => Some (tt, h)
  end.
Definition remove_reservation key expected : async unit := atomically (remove_reservation_now key expected).
Definition remove_owned_reservation (key : RelaySetupKey) (expected : RelayCreationPhase) (ticket : Ticket) : async unit :=
  atomically (fun h => if owns_slot ticket key (limiter h) then remove_reservation_now key expected h else Some (tt, h)).

(** ** Admission *)

Definition now_secs : async Z := n ← now; mret (n / 1000000000).
Definition visit_ticket (ticket : Ticket) (charge_call : bool) : async (result unit RelaySetupNotifyResult) :=
  now ← now_secs;
  ok ← with_state_mut (fun h =>
    let (ok, l) := visit ticket charge_call now (limiter h) in (ok, h <| limiter := l |>));
  mret (if ok : bool then Ok tt else Err NotifyBusy).
Definition check (ticket : Ticket) : async (result unit RelaySetupNotifyResult) := visit_ticket ticket false.
Definition ticket_call {A} (ticket : Ticket) (future : async A) : async (result A RelaySetupNotifyResult) :=
  admitted ← visit_ticket ticket true;
  match admitted with
  | Err r => mret (Err r)
  | Ok _ =>
      value ← future;
      checked ← check ticket;
      mret match checked with Ok _ => Ok value | Err r => Err r end
  end.

(** [Guard::acquire], the body and the drop of the guard. *)
Definition with_guard (key : RelaySetupKey) (lane : Lane) (body : Ticket -> async RelaySetupNotifyResult) :
    async RelaySetupNotifyResult :=
  now ← now_secs;
  guard ← atomically (fun h => '(t, l) ← guard_acquire key lane now (limiter h); Some (t, h <| limiter := l |>));
  match guard with
  | None => mret NotifyBusy
  | Some ticket =>
      r ← body ticket;
      _ ← modify (fun h => h <| limiter ::= guard_drop ticket |>);
      mret r
  end.

(** The nested calls of the discovery are charged, too. *)
Definition admission_probe (inner : CyclesProbeClient Heap) (ticket : Ticket) : CyclesProbeClient Heap :=
  let call {A} (future : async (result A ClientError)) : async (result A ClientError) :=
    r ← ticket_call ticket future;
    mret match r with Ok v => v | Err _ => Err (CallFailed "factory admission expired or exhausted") end in
  {|
    configured_sns_root := None;
    self_cycles := fun target =>
      before ← check ticket;
      match before with
      | Err _ => mret None
      | Ok _ =>
          value ← @self_cycles _ _ inner target;
          after ← check ticket;
          mret match after with Ok _ => value | Err _ => None end
      end;
    direct_canister_status := fun target => call (@direct_canister_status _ _ inner target);
    blackhole_cycles := fun probe target => call (@blackhole_cycles _ _ inner probe target);
    nns_root_cycles := fun target => call (@nns_root_cycles _ _ inner target);
    list_deployed_snses := call (@list_deployed_snses _ _ inner);
    canister_info_controllers := fun target => call (@canister_info_controllers _ _ inner target);
    list_sns_canisters := fun root => call (@list_sns_canisters _ _ inner root);
    sns_root_cycles := fun root target => call (@sns_root_cycles _ _ inner root target);
    sns_swap_cycles := fun swap => call (@sns_swap_cycles _ _ inner swap);
  |}.

(** ** The errors of the management canister *)

Definition show_management {A} (r : result A TransportError) : result A string :=
  match r with Ok a => Ok a | Err e => Err (transport_text e) end.

(** ** Finalization *)

Definition keep_finalization_in_progress (key : RelaySetupKey) (p : RelayCreationPhase) (message : string) :
    async RelaySetupNotifyResult :=
  let message := bounded_message message in
  r ← update_progress key p (fun progress => progress <| last_error := Some message |>);
  mret match r with
       | Ok progress => NotifyInProgress (phase progress) (relay_canister_id progress)
       | Err r => r
       end.

(** The entry becomes [Active], and the targets and the relay are tracked and written to
    the stable registry, in one message. *)
Definition activate_now (key : RelaySetupKey) (expected : RelayCreationPhase) (setup : CanonicalRelaySetup)
    (expected_relay : Principal) (now_secs : Z) (h : Heap) : option (RelaySetupNotifyResult * Heap) :=
  match require_phase key expected h with
  | Err r => Some (r, h)
  | Ok progress =>
      match relay_id_with_complete_activation_evidence progress with
      | Err message => manual_recovery_now key expected message h
      | Ok relay =>
          if decide (relay = expected_relay) then
            h ← insert_entry key (Active relay) h;
            let tracked := set_of_list (setup_targets setup ++ [relay]) in
            m ← with_factory_tracking_state_mut tracked (fun s =>
                fold_left (fun s target => mark_active_relay_tracked (stored h) target relay (Some now_secs) s)
                  (setup_targets setup) s) (mem h);
            Some (NotifyActive relay, h <| mem := m |>)
          else manual_recovery_now key expected "activation prerequisites are inconsistent: Relay ID changed" h
      end
  end.
Definition activate_relay_setup key expected setup expected_relay : async RelaySetupNotifyResult :=
  now ← now_secs;
  atomically (activate_now key expected setup expected_relay now).

(** The evidence of the entry still names [relay] ([Ok]), or what is answered instead. *)
Definition same_relay (key : RelaySetupKey) (p : RelayCreationPhase) (relay : Principal) (progress : RelayCreationProgress) :
    async (option RelaySetupNotifyResult) :=
  match relay_id_with_complete_activation_evidence progress with
  | Ok current =>
      if decide (current = relay) then mret None
      else r ← manual_recovery key p "activation prerequisites are inconsistent: Relay ID changed"; mret (Some r)
  | Err message => r ← manual_recovery key p message; mret (Some r)
  end.

Definition final_settings (relay : Principal) : UpdateSettingsArgs := {|
  settings_canister_id := relay;
  settings_controllers := Some [];
  settings_log_visibility := Some LogPublic;
  settings_status_visibility := Some LogPublic;
|}.

(** From the [require_phase] after the settings update to the end. *)
Definition finish_finalization (key : RelaySetupKey) (setup : CanonicalRelaySetup) (historian relay : Principal)
    (expected_hash : list Z) (ticket : Ticket) (update_error : option string) : async RelaySetupNotifyResult :=
  phase_ok ← with_state (require_phase key FinalizationAttempted);
  match phase_ok with
  | Err r => mret r
  | Ok _ =>
      finalized ← ticket_call ticket (canister_status relay);
      match finalized with
      | Err r => mret r
      | Ok finalized =>
          current ← with_state (require_phase key FinalizationAttempted);
          match current with
          | Err r => mret r
          | Ok progress =>
              changed ← same_relay key FinalizationAttempted relay progress;
              match changed with
              | Some r => mret r
              | None =>
                  let prefix := match update_error with
                    | Some e => ("update_settings reported " ++ e ++ "; ")%string | None => ""%string end in
                  match show_management finalized with
                  | Err audit_error => keep_finalization_in_progress key FinalizationAttempted
                      (prefix ++ "post-finalization management audit could not be completed: " ++ audit_error
                       ++ "; explicit finalization resumption is safe")
                  | Ok status =>
                      match classify_relay_finalization_state status expected_hash historian with
                      | Ok Finalized => activate_relay_setup key FinalizationAttempted setup relay
                      | Ok PreFinalization => keep_finalization_in_progress key FinalizationAttempted
                          (prefix ++ "Relay remains in the exact safe Historian-controlled pre-finalization state; explicit finalization resumption may retry the settings update")
                      | Err message => manual_recovery key FinalizationAttempted (prefix ++ message)
                      end
                  end
              end
          end
      end
  end.

(** From the first classification to the end. *)
Definition attempt_finalization (key : RelaySetupKey) (setup : CanonicalRelaySetup) (historian relay : Principal)
    (expected_hash : list Z) (ticket : Ticket) (initial_phase : RelayCreationPhase) : async RelaySetupNotifyResult :=
  updated ← (if decide (initial_phase = RelayFunded)
    then update_progress key RelayFunded (fun p => p <| phase := FinalizationAttempted |> <| last_error := None |>)
    else update_progress key FinalizationAttempted (fun p => p <| last_error := None |>));
  match updated with
  | Err r => mret r
  | Ok _ =>
      finalization ← ticket_call ticket (update_settings (final_settings relay));
      match finalization with
      | Err r => mret r
      | Ok finalization =>
          finish_finalization key setup historian relay expected_hash ticket
            (match show_management finalization with Err e => Some e | Ok _ => None end)
      end
  end.

Definition drive_relay_finalization (key : RelaySetupKey) (setup : CanonicalRelaySetup) (historian : Principal)
    (ticket : Ticket) : async RelaySetupNotifyResult :=
  entry ← with_state (get_entry key);
  match entry with
  | None => mret missing_reservation
  | Some (Creating initial) =>
      let initial_phase := phase initial in
      if negb (bool_decide (initial_phase = RelayFunded) || bool_decide (initial_phase = FinalizationAttempted))
      then mret (notify_for_entry (Creating initial))
      else
        match relay_id_with_complete_activation_evidence initial with
        | Err message => manual_recovery key initial_phase message
        | Ok relay =>
            match approved_relay_onchain_module_hash with
            | None => manual_recovery key initial_phase
                "approved Relay module hash is unavailable; finalization cannot be audited safely"
            | Some expected_hash =>
                observed ← ticket_call ticket (canister_status relay);
                match observed with
                | Err r => mret r
                | Ok observed =>
                    current ← with_state (require_phase key initial_phase);
                    match current with
                    | Err r => mret r
                    | Ok progress =>
                        changed ← same_relay key initial_phase relay progress;
                        match changed with
                        | Some r => mret r
                        | None =>
                            match show_management observed with
                            | Err error => keep_finalization_in_progress key initial_phase
                                ((if decide (initial_phase = RelayFunded) then "pre-finalization" else "finalization reconciliation")
                                 ++ " management audit could not be completed: " ++ error
                                 ++ "; explicit finalization resumption is safe")
                            | Ok status =>
                                match classify_relay_finalization_state status expected_hash historian with
                                | Ok Finalized => activate_relay_setup key initial_phase setup relay
                                | Ok PreFinalization =>
                                    attempt_finalization key setup historian relay expected_hash ticket initial_phase
                                | Err message => manual_recovery key initial_phase message
                                end
                            end
                        end
                    end
                end
            end
        end
  | Some entry => mret (notify_for_entry entry)
  end.

(** ** The paid creation *)

Definition public_settings (historian : Principal) : CanisterSettings :=
  MkCanisterSettings _ (Some [historian]) (Some LogPublic) (Some LogPublic).
Definition retryable_notification (e : NotifyTopUpError) : bool :=
  match e with Retryable _ | NotifyTransport _ => true | _ => false end.

(** [let .. = client(..).await; require_phase(..)?], then the branches on the result. *)
Definition guarded {A} (key : RelaySetupKey) (expected : RelayCreationPhase) (call : async A)
    (k : A -> async RelaySetupNotifyResult) : async RelaySetupNotifyResult :=
  a ← call;
  phase_ok ← with_state (require_phase key expected);
  match phase_ok with Err r => mret r | Ok _ => k a end.
(** [if let Err(result) = update_progress(..) { return result; }] *)
Definition updating (key : RelaySetupKey) (expected : RelayCreationPhase) (update : RelayCreationProgress -> RelayCreationProgress)
    (k : async RelaySetupNotifyResult) : async RelaySetupNotifyResult :=
  r ← update_progress key expected update;
  match r with Err r => mret r | Ok _ => k end.

(** *** From the funding of the relay to the end *)

Definition send_relay_funding (key : RelaySetupKey) (setup : CanonicalRelaySetup) (config : Config) (historian relay : Principal)
    (ticket : Ticket) (funding_amount funding_fee : Z) : async RelaySetupNotifyResult :=
  created_at ← now;
  let funding_record := MkTransferRecord funding_amount funding_fee created_at None in
  updating key CodeInstalled (fun p => p <| phase := RelayFundingPrepared |> <| relay_funding_transfer := Some funding_record |>)
  (guarded key RelayFundingPrepared
    (r ← transfer (ledger_canister_id config) (transfer_arg key (relay_subaccount_one relay) funding_record None); mret (collapse r))
    (fun funding_result =>
      match accepted_transfer funding_result with
      | Err (inl error) => manual_recovery key RelayFundingPrepared
          ("Relay funding transfer was rejected: " ++ debug_transfer_error error)
      | Err (inr error) => manual_recovery key RelayFundingPrepared
          ("Relay funding transfer outcome is ambiguous: " ++ display_error error)
      | Ok funding_block =>
          updating key RelayFundingPrepared (fun p => p <| phase := RelayFunded |>
            <| relay_funding_transfer ::= fmap (fun r => r <| block_index := Some funding_block |>) |>)
          (drive_relay_finalization key setup historian ticket)
      end)).

Definition fund_relay (key : RelaySetupKey) (setup : CanonicalRelaySetup) (config : Config) (historian relay : Principal)
    (ticket : Ticket) : async RelaySetupNotifyResult :=
  guarded key CodeInstalled
    (r ← balance_of_e8s (ledger_canister_id config) (setup_account_for historian key); mret (collapse r))
    (fun remaining_balance =>
      match remaining_balance with
      | Err error => manual_recovery key CodeInstalled
          ("cannot read setup balance before Relay funding: " ++ display_error error)
      | Ok remaining_balance =>
          guarded key CodeInstalled (r ← fee_e8s (ledger_canister_id config); mret (collapse r)) (fun funding_fee =>
            match funding_fee with
            | Err error => manual_recovery key CodeInstalled
                ("cannot read ledger fee before Relay funding: " ++ display_error error)
            | Ok funding_fee =>
                match minimum_final_relay_funding_e8s config (target_count setup) with
                | Err message => manual_recovery key CodeInstalled message
                | Ok minimum_final_relay_funding =>
                    match checked_sub remaining_balance funding_fee with
                    | Some amount =>
                        if minimum_final_relay_funding <=? amount
                        then send_relay_funding key setup config historian relay ticket amount funding_fee
                        else manual_recovery key CodeInstalled
                          "post-conversion balance is below the promised minimum Relay funding"
                    | None => manual_recovery key CodeInstalled
                        "post-conversion balance cannot cover the current ledger fee"
                    end
                end
            end)
      end).

(** *** From the installation to the end; [expect] traps without an embedded relay *)

Definition installed (key : RelaySetupKey) (setup : CanonicalRelaySetup) (config : Config) (historian relay : Principal)
    (ticket : Ticket) : async RelaySetupNotifyResult :=
  updating key ChildCreated (fun p => p <| phase := CodeInstalled |>)
    (fund_relay key setup config historian relay ticket).
Definition install_relay (key : RelaySetupKey) (setup : CanonicalRelaySetup) (config : Config) (historian relay : Principal)
    (ticket : Ticket) : async RelaySetupNotifyResult :=
  match approved_self_service_relay_wasm, approved_relay_onchain_module_hash with
  | Some wasm, Some expected_hash =>
      guarded key ChildCreated (install_code (MkInstallCode _ relay wasm (relay_init_arg config setup))) (fun install_result =>
        match show_management install_result with
        | Ok _ => installed key setup config historian relay ticket
        | Err install_error =>
            guarded key ChildCreated (canister_status relay) (fun observed =>
              match show_management observed with
              | Ok status =>
                  if bool_decide (status_module_hash status = Some expected_hash)
                  then installed key setup config historian relay ticket
                  else manual_recovery key ChildCreated
                    ("install_code failed and the approved module is not installed: " ++ install_error)
              | Err status_error => manual_recovery key ChildCreated
                  ("install_code failed (" ++ install_error ++ ") and module status could not be reconciled ("
                   ++ status_error ++ ")")
              end)
        end)
  | _, _ => trap
  end.

(** *** From the creation of the canister to the end *)

Definition create_relay (key : RelaySetupKey) (setup : CanonicalRelaySetup) (config : Config) (historian : Principal)
    (ticket : Ticket) : async RelaySetupNotifyResult :=
  dispatched_at ← now_secs;
  updating key CmcNotifySucceeded (fun p => p <| phase := CreateDispatched |> <| create_dispatched_at_ts := Some dispatched_at |>)
  (guarded key CreateDispatched (create_canister (Some (public_settings historian)) (relay_initial_cycles config)) (fun create_result =>
    match show_management create_result with
    | Err error => manual_recovery key CreateDispatched
        ("create_canister was dispatched but did not return a child ID: " ++ error)
    | Ok relay =>
        updating key CreateDispatched (fun p => p <| relay_canister_id := Some relay |> <| phase := ChildCreated |>)
          (install_relay key setup config historian relay ticket)
    end)).

(** The evidence of a setup whose top-up was notified. *)
Definition paid_evidence (config : Config) (p : RelayCreationProgress) : bool :=
  is_some_and (cycles_minted p) (fun cycles => relay_initial_cycles config <=? cycles)
  && is_some (r ← cmc_transfer p; block_index r) && is_none (create_dispatched_at_ts p) && is_none (relay_canister_id p).
Definition continue_notified (key : RelaySetupKey) (setup : CanonicalRelaySetup) (config : Config) (historian : Principal)
    (ticket : Ticket) : async RelaySetupNotifyResult :=
  phase_ok ← with_state (require_phase key CmcNotifySucceeded);
  match phase_ok with
  | Err r => mret r
  | Ok progress =>
      if paid_evidence config progress then create_relay key setup config historian ticket
      else manual_recovery key CmcNotifySucceeded "inconsistent paid creation evidence"
  end.

(** *** The notification of the top-up *)

Definition notification_pending (key : RelaySetupKey) (error : NotifyTopUpError) : async RelaySetupNotifyResult :=
  r ← update_progress key CmcTransferAccepted (fun p =>
    p <| last_error := Some (bounded_message ("CMC notification pending: " ++ debug_notify_error error)) |>);
  mret match r with Ok progress => notify_for_entry (Creating progress) | Err r => r end.

Definition notify_cmc (key : RelaySetupKey) (setup : CanonicalRelaySetup) (config : Config) (cmc historian : Principal)
    (ticket : Ticket) : async RelaySetupNotifyResult :=
  phase_ok ← with_state (require_phase key CmcTransferAccepted);
  match phase_ok with
  | Err r => mret r
  | Ok progress =>
      match (r ← cmc_transfer progress; block_index r) with
      | None => manual_recovery key CmcTransferAccepted "missing accepted CMC block"
      | Some cmc_block =>
          guarded key CmcTransferAccepted (notify_top_up cmc historian cmc_block) (fun minted =>
            match minted with
            | Err error =>
                if retryable_notification error then notification_pending key error
                else manual_recovery key CmcTransferAccepted ("CMC notification failed: " ++ debug_notify_error error)
            | Ok minted_cycles =>
                updating key CmcTransferAccepted (fun p => p <| cycles_minted := Some minted_cycles |>)
                (if minted_cycles <? relay_initial_cycles config then
                   manual_recovery key CmcTransferAccepted
                     ("CMC minted " ++ nat_to_string minted_cycles ++ " cycles, below the configured "
                      ++ nat_to_string (relay_initial_cycles config) ++ " cycles required for child creation")
                 else
                   updating key CmcTransferAccepted (fun p => p <| phase := CmcNotifySucceeded |> <| cycles_minted := Some minted_cycles |>)
                   (continue_notified key setup config historian ticket))
            end)
      end
  end.

Definition continue_paid_creation (key : RelaySetupKey) (setup : CanonicalRelaySetup) (config : Config) (cmc historian : Principal)
    (ticket : Ticket) : async RelaySetupNotifyResult :=
  entry ← with_state (get_entry key);
  match entry with
  | None => mret (NotifyFailedPreSpend "missing paid setup")
  | Some (Creating progress) =>
      if decide (phase progress = CmcTransferAccepted) then notify_cmc key setup config cmc historian ticket
      else continue_notified key setup config historian ticket
  | Some entry => mret (notify_for_entry entry)
  end.

(** ** The checks before anything is spent *)

Fixpoint validate_neuron_recipients (key : RelaySetupKey) (recipients : list RelaySurplusRecipient) (ticket : Ticket) :
    async (result unit RelaySetupNotifyResult) :=
  match recipients with
  | [] => mret (Ok tt)
  | PrincipalRecipient _ _ :: rest => validate_neuron_recipients key rest ticket
  | NeuronRecipient neuron_id _ :: rest =>
      resolution ← ticket_call ticket (neuron_staking_subaccount nns_governance_id neuron_id);
      match resolution with
      | Err r => _ ← remove_owned_reservation key Reserved ticket; mret (Err r)
      | Ok resolution =>
          phase_ok ← with_state (require_phase key Reserved);
          match phase_ok with
          | Err r => mret (Err r)
          | Ok _ =>
              match resolution with
              | Err _ =>
                  _ ← remove_owned_reservation key Reserved ticket;
                  mret (Err (NotifyFailedPreSpend (bounded_message
                    ("Could not verify neuron " ++ nat_to_string neuron_id
                     ++ " as publicly readable by NNS Governance. Check the neuron ID and try again."))))
              | Ok _ => validate_neuron_recipients key rest ticket
              end
          end
      end
  end.

Context {C : CyclesProbeClient Heap}.

Definition set_probe_route (target : Principal) (route : option CyclesProbeRoute) (h : Heap) : Heap :=
  h <| mem ::= with_root_state_mut (fun s => s <| cached_cycles_probe_routes ::= match route with
    | Some route => btree_insert target route | None => btree_remove target end |>) |>.

(** [Err]: returned to the caller. *)
Fixpoint probe_targets (key : RelaySetupKey) (targets : list Principal) (ticket : Ticket) :
    async (result unit RelaySetupNotifyResult) :=
  match targets with
  | [] => mret (Ok tt)
  | target :: rest =>
      checked ← check ticket;
      match checked with
      | Err r => _ ← remove_owned_reservation key ProbingTargets ticket; mret (Err r)
      | Ok _ =>
          cached_route ← with_state (fun h => btree_get target (cached_cycles_probe_routes (state_of h)));
          result ← probe_cycles_for_audience (C:=admission_probe C ticket) Auto target cached_route AnyCanister;
          checked ← check ticket;
          match checked with
          | Err r => _ ← remove_owned_reservation key ProbingTargets ticket; mret (Err r)
          | Ok _ =>
              phase_ok ← with_state (require_phase key ProbingTargets);
              match phase_ok with
              | Err r => mret (Err r)
              | Ok _ =>
                  match result with
                  | Ok success =>
                      _ ← modify (set_probe_route target (route success));
                      probe_targets key rest ticket
                  | Err error =>
                      _ ← remove_owned_reservation key ProbingTargets ticket;
                      mret (Err (NotifyFailedPreSpend (bounded_message
                        ("target " ++ text_of target ++ " cannot be observed by the Auto cycles probe: " ++ message error))))
                  end
              end
          end
      end
  end.

(** From the last admission fence: the transfer to the cycles minting canister. *)
Definition pay_cmc (key : RelaySetupKey) (setup : CanonicalRelaySetup) (config : Config) (cmc historian : Principal)
    (ticket : Ticket) (conversion_e8s fee_e8s : Z) : async RelaySetupNotifyResult :=
  created_at ← now;
  let cmc_record := MkTransferRecord conversion_e8s fee_e8s created_at None in
  checked ← check ticket;
  match checked with
  | Err r => _ ← remove_owned_reservation key ProbingTargets ticket; mret r
  | Ok _ =>
      updating key ProbingTargets (fun p => p <| phase := CmcTransferPrepared |> <| cmc_transfer := Some cmc_record |>)
      (match cmc_canister_id config with
       | None => trap
       | Some cmc_id =>
           guarded key CmcTransferPrepared
             (r ← transfer (ledger_canister_id config) (transfer_arg key (cmc_deposit_account cmc_id historian) cmc_record
                (Some (to_le_bytes TOP_UP_CANISTER_MEMO))); mret (collapse r))
             (fun transfer_result =>
               match accepted_transfer transfer_result with
               | Err (inl error) =>
                   _ ← remove_reservation key CmcTransferPrepared;
                   mret (NotifyFailedPreSpend (bounded_message ("CMC ledger transfer was rejected: " ++ debug_transfer_error error)))
               | Err (inr error) => manual_recovery key CmcTransferPrepared
                   ("CMC ledger transfer outcome is ambiguous: " ++ display_error error)
               | Ok cmc_block =>
                   updating key CmcTransferPrepared (fun p => p <| phase := CmcTransferAccepted |>
                     <| cmc_transfer ::= fmap (fun r => r <| block_index := Some cmc_block |>) |>)
                   (continue_paid_creation key setup config cmc historian ticket)
               end)
       end)
  end.

(** From the reservation to the end. *)
Definition create_reserved (key : RelaySetupKey) (setup : CanonicalRelaySetup) (config : Config) (cmc historian : Principal)
    (ticket : Ticket) (fee_e8s : Z) (rate : IcpXdrConversionRate) : async RelaySetupNotifyResult :=
  reserved ← atomically (reserve_now key);
  match reserved with
  | Err r => mret r
  | Ok _ =>
      validated ← validate_neuron_recipients key (setup_surplus_recipients setup) ticket;
      match validated with
      | Err r => mret r
      | Ok _ =>
          updating key Reserved (fun p => p <| phase := ProbingTargets |>)
          (probed ← probe_targets key (setup_targets setup) ticket;
           match probed with
           | Err r => mret r
           | Ok _ =>
               match cmc_conversion_e8s config rate with
               | Err message =>
                   _ ← remove_owned_reservation key ProbingTargets ticket;
                   mret (NotifyFailedPreSpend message)
               | Ok conversion_e8s => pay_cmc key setup config cmc historian ticket conversion_e8s fee_e8s
               end
           end)
      end
  end.

(** [admitted_call!], then the error branch of the client. *)
Definition admitted {A} (ticket : Ticket) (call : async (result A ClientError)) (context : string)
    (k : A -> async RelaySetupNotifyResult) : async RelaySetupNotifyResult :=
  r ← ticket_call ticket (r ← call; mret (collapse r));
  match r with
  | Err r => mret r
  | Ok (Err error) => mret (NotifyFailedPreSpend (context ++ display_error error))
  | Ok (Ok a) => k a
  end.

(** From the admission of a new setup to the end. *)
Definition new_setup (key : RelaySetupKey) (setup : CanonicalRelaySetup) (config : Config) (cmc historian : Principal)
    (ticket : Ticket) : async RelaySetupNotifyResult :=
  admitted ticket (balance_of_e8s (ledger_canister_id config) (setup_account_for historian key))
    "cannot read Relay setup balance: " (fun balance_e8s =>
  match nominal_minimum_e8s config (target_count setup) with
  | Err message => mret (NotifyFailedPreSpend message)
  | Ok nominal =>
      if balance_e8s <? nominal then mret (NotifyBelowMinimum balance_e8s nominal (nominal - balance_e8s))
      else
        admitted ticket (Clients.fee_e8s (ledger_canister_id config)) "cannot read the current ICP ledger fee: " (fun fee =>
        admitted ticket (get_icp_xdr_conversion_rate cmc) "cannot read the current CMC conversion rate: " (fun rate =>
        match current_requirement_e8s config (target_count setup) fee rate with
        | Err message => mret (NotifyFailedPreSpend message)
        | Ok required_e8s =>
            if balance_e8s <? required_e8s
            then mret (NotifyBelowCurrentRequirement balance_e8s required_e8s (required_e8s - balance_e8s))
            else create_reserved key setup config cmc historian ticket fee rate
        end))
  end).

(** What is done for a key that has an entry. *)
Definition resume_entry (key : RelaySetupKey) (setup : CanonicalRelaySetup) (config : Config) (cmc historian : Principal)
    (entry : RelaySetupEntry) : async RelaySetupNotifyResult :=
  match entry with
  | Creating progress =>
      match phase progress with
      | CmcTransferAccepted | CmcNotifySucceeded =>
          with_guard key LaneCompletion (continue_paid_creation key setup config cmc historian)
      | RelayFunded | FinalizationAttempted =>
          with_guard key LaneCompletion (drive_relay_finalization key setup historian)
      | _ => mret (notify_for_entry entry)
      end
  | _ => mret (notify_for_entry entry)
  end.

(** What is done for a key without an entry. *)
Definition start_setup (key : RelaySetupKey) (setup : CanonicalRelaySetup) (config : Config) (cmc historian : Principal) :
    async RelaySetupNotifyResult :=
  match reject_reserved_canonical_target_set config setup with
  | Err message => mret (NotifyFailedPreSpend message)
  | Ok _ =>
      match validate_new_target_eligibility setup config historian with
      | Err message => mret (NotifyFailedPreSpend message)
      | Ok _ =>
          match factory_blocked_reason config with
          | Some message => mret (NotifyFailedPreSpend message)
          | None =>
              keys ← atomically relay_creating_keys;
              if (MAX_CONCURRENT_FUNDED_RELAY_SETUPS <=? length keys)%nat then mret NotifyBusy
              else with_guard key LaneNew (new_setup key setup config cmc historian)
          end
      end
  end.

(** [notify_relay_configuration]; without a configured CMC the placeholder is the
    management canister. *)
Definition notify_relay_configuration (targets : list Principal) (recipients : list RelaySurplusRecipient)
    (historian : Principal) : async RelaySetupNotifyResult :=
  config ← with_state (fun h => config (state_of h));
  let cmc := default management_canister (cmc_canister_id config) in
  match canonicalize targets recipients with
  | Err message => mret (NotifyFailedPreSpend message)
  | Ok setup =>
      let key := setup_key setup in
      now ← now_secs;
      _ ← atomically (reclaim_abandoned_pre_spend_reservations_now now);
      entry ← with_state (get_entry key);
      match entry with
      | Some entry => resume_entry key setup config cmc historian entry
      | None => start_setup key setup config cmc historian
      end
  end.

(** ** The query of a setup *)

Inductive RelaySetupState :=
| SetupNotFunded
| SetupInProgress (p : RelayCreationPhase) (relay : option Principal)
| SetupActive (relay : Principal)
| SetupManualRecovery (p : RelayCreationPhase) (relay : option Principal) (message : string).
Definition setup_state (entry : option RelaySetupEntry) : RelaySetupState :=
  match entry with
  | None => SetupNotFunded
  | Some (Creating progress) => SetupInProgress (phase progress) (relay_canister_id progress)
  | Some (Active relay) => SetupActive relay
  | Some (ManualRecoveryRequired progress) =>
      SetupManualRecovery (phase progress) (relay_canister_id progress)
        (default "operator investigation is required"%string (last_error progress))
  end.
Record RelaySetupView := MkSetupView {
  view_targets : list Principal;
  view_recipients : list RelaySurplusRecipient;
  view_key_identifier : list Z;
  view_setup_account : option Account;
  view_setup_account_identifier : option (list Z);
  view_target_count : Z;
  view_recipient_count : Z;
  view_singleton_minimum_e8s : Z;
  view_extra_target_count : Z;
  view_extra_target_unit_charge_e8s : Z;
  view_total_extra_target_charge_e8s : Z;
  view_nominal_minimum_e8s : Z;
  view_factory_available : bool;
  view_state : RelaySetupState;
}.
Definition view_of (setup : CanonicalRelaySetup) (config : Config) (historian : Principal) (entry : option RelaySetupEntry) :
    result RelaySetupView string :=
  let key := setup_key setup in
  let available := is_none (factory_blocked_reason config) in
  let account := then_some (is_none entry && available) (setup_account_for historian key) in
  let count := target_count setup in
  match extra_target_charge_e8s count with
  | Err message => Err (if count <? 1 then "target-count pricing overflow"%string else message)
  | Ok charge =>
      match nominal_minimum_e8s config count with
      | Err message => Err message
      | Ok nominal => Ok {|
          view_targets := setup_targets setup;
          view_recipients := setup_surplus_recipients setup;
          view_key_identifier := identifier key;
          view_setup_account := account;
          view_setup_account_identifier := account_identifier_text_for_account <$> account;
          view_target_count := sat_u32 count;
          view_recipient_count := sat_u32 (Z.of_nat (length (setup_surplus_recipients setup)));
          view_singleton_minimum_e8s := relay_setup_min_e8s config;
          view_extra_target_count := count - 1;
          view_extra_target_unit_charge_e8s := EXTRA_TARGET_CHARGE_E8S;
          view_total_extra_target_charge_e8s := charge;
          view_nominal_minimum_e8s := nominal;
          view_factory_available := available;
          view_state := setup_state entry;
        |}
      end
  end.
Definition setup_view (targets : list Principal) (recipients : list RelaySurplusRecipient) (historian : Principal) (h : Heap) :
    result RelaySetupView string :=
  let config := config (state_of h) in
  match canonicalize targets recipients with
  | Err message => Err message
  | Ok setup =>
      match reject_reserved_canonical_target_set config setup with
      | Err message => Err message
      | Ok _ =>
          match get_entry (setup_key setup) h with
          | None =>
              match validate_new_target_eligibility setup config historian with
              | Err message => Err message
              | Ok _ => view_of setup config historian None
              end
          | entry => view_of setup config historian entry
          end
      end
  end.

End factory.
