(* ===== verification/RelayFactoryProtocol.v ===== *)
(** * Historian: the journal of the relay factory as a protocol

    The atomic steps of the journal, with the calls that move value as their labels; the
    operations of the code as such steps; and the order in which a setup is paid for, created
    and funded on every interleaving of the operations. *)

From S2P Require Import Prelude BTree Async Ic Accounts Clients CyclesProbe HistorianTypes HistorianKeys HistorianState HistorianDurable HistorianTracking RelaySetup RelayFactory.

(** Case analysis on everything a conclusion matches on. *)
Ltac split_matches := repeat (case_match; simplify_eq).

Section journal.
Context `{P : PrincipalSpec} `{O : !OrdSpec Principal} `{SS : !SliceSpec} `{T : TextSpec} `{I : !ProbeIds} `{F : !FactorySpec} `{H : HashSpec}.
#[local] Existing Instance Principal_eq_dec.

(** ** What a journal satisfies between two messages *)

Definition keys_of (h : Heap) : list RelaySetupKey := default [] (creating_keys_cell h).
Definition is_creating (o : option RelaySetupEntry) : Prop := exists p, o = Some (Creating p).

(** The index lists the keys of the [Creating] entries, and no batch is open. *)
Record journal_ok (h : Heap) : Prop := {
  journal_cell : creating_keys_cell h = None -> relay_setup_entries h = [];
  journal_nodup : NoDup (keys_of h);
  journal_bound : (length (keys_of h) <= MAX_CONCURRENT_FUNDED_RELAY_SETUPS)%nat;
  journal_index : forall key, key ∈ keys_of h <-> is_creating (get_entry key h);
  journal_batch : persistence_batch_depth (mem h) = 0;
}.

(** Everything outside the journal may change, and the index may be initialised. *)
Record frame (h h' : Heap) : Prop := {
  frame_entries : relay_setup_entries h' = relay_setup_entries h;
  frame_cell : creating_keys_cell h' = creating_keys_cell h \/
    creating_keys_cell h = None /\ creating_keys_cell h' = Some [];
  frame_batch : persistence_batch_depth (mem h') = persistence_batch_depth (mem h);
}.

Lemma frame_refl h : frame h h.
Proof. constructor; auto. Qed.

Lemma frame_get h h' key : frame h h' -> get_entry key h' = get_entry key h.
Proof. intros [E _ _]. unfold get_entry. by rewrite E. Qed.

Lemma frame_keys h h' : frame h h' -> keys_of h' = keys_of h.
Proof. intros [_ [E|[E1 E2]] _]; unfold keys_of; [by rewrite E|by rewrite E1, E2]. Qed.

Lemma frame_ok h h' : journal_ok h -> frame h h' -> journal_ok h'.
Proof.
  intros [Hc Hn Hb Hi Hd] Hf. pose proof (frame_keys _ _ Hf) as Ek. pose proof Hf as [Ee Ec Eb]. constructor.
  - rewrite Ee. destruct Ec as [->|[_ ->]]; [exact Hc|done].
  - by rewrite Ek.
  - by rewrite Ek.
  - intros key. rewrite Ek, (frame_get _ _ key Hf). apply Hi.
  - by rewrite Eb.
Qed.

(** *** The operations of the journal succeed and keep it *)

Lemma valid_keys keys : NoDup keys -> (length keys <= MAX_CONCURRENT_FUNDED_RELAY_SETUPS)%nat -> valid_creating_keys keys = true.
Proof. intros ??. unfold valid_creating_keys. apply andb_true_intro. split; [by apply Nat.leb_le|by apply bool_decide_eq_true]. Qed.

Lemma creating_keys_ok h : journal_ok h ->
  exists h1, relay_creating_keys h = Some (keys_of h, h1) /\ frame h h1 /\ mem h1 = mem h /\ limiter h1 = limiter h.
Proof.
  intros [Hc Hn Hb _ _]. unfold relay_creating_keys, keys_of in *. destruct (creating_keys_cell h) as [keys|] eqn:E.
  - cbn in *. rewrite valid_keys by done. exists h. split; [done|]. split; [apply frame_refl|done].
  - rewrite Hc by done. eexists. split; [reflexivity|]. split; [constructor; cbn; auto|done].
Qed.

(** [h'] is [h] with the entry of [key] replaced. *)
Record entry_set (key : RelaySetupKey) (o : option RelaySetupEntry) (h h' : Heap) : Prop := {
  set_ok : journal_ok h';
  set_get : forall k, get_entry k h' = if decide (k = key) then o else get_entry k h;
  set_mem : mem h' = mem h;
  set_limiter : limiter h' = limiter h;
}.

Lemma elem_without key k keys : k ∈ without key keys <-> k ∈ keys /\ k <> key.
Proof.
  unfold without. rewrite !list_elem_of_In, filter_In, negb_true_iff, bool_decide_eq_false. done.
Qed.

Lemma without_NoDup key keys : NoDup keys -> NoDup (without key keys).
Proof. unfold without. rewrite !NoDup_ListNoDup. apply List.NoDup_filter. Qed.

Lemma without_length key keys : (length (without key keys) <= length keys)%nat.
Proof. apply List.filter_length_le. Qed.

Lemma journal_written key o h h' keys :
  journal_ok h -> creating_keys_cell h' = Some keys -> mem h' = mem h -> limiter h' = limiter h ->
  (forall k, get_entry k h' = if decide (k = key) then o else get_entry k h) ->
  NoDup keys -> (length keys <= MAX_CONCURRENT_FUNDED_RELAY_SETUPS)%nat ->
  (key ∈ keys <-> is_creating o) -> (forall k, k <> key -> k ∈ keys <-> k ∈ keys_of h) ->
  entry_set key o h h'.
Proof.
  intros [_ _ _ Hi Hd] Ec Em El Hget Hn Hb Hkey Hrest. split; [|done..].
  assert (keys_of h' = keys) as Ek by (unfold keys_of; by rewrite Ec).
  constructor; [by rewrite Ec|by rewrite Ek..| |by rewrite Em]. intros k. rewrite Ek, Hget.
  destruct (decide (k = key)) as [->|Hne]; [done|]. rewrite Hrest by done. apply Hi.
Qed.

Lemma insert_entry_ok key entry h : journal_ok h ->
  (is_creating (Some entry) -> key ∈ keys_of h \/ (length (keys_of h) < MAX_CONCURRENT_FUNDED_RELAY_SETUPS)%nat) ->
  exists h', insert_entry key entry h = Some h' /\ entry_set key (Some entry) h h'.
Proof.
  intros Hok Hcap. unfold insert_entry. destruct (creating_keys_ok h Hok) as (h1 & -> & Hf & Em & El). cbn [mbind option_bind].
  pose proof Hok as [_ Hn Hb Hi _].
  set (keys := match entry with
    | Creating _ => if bool_decide (key ∈ keys_of h) then keys_of h else keys_of h ++ [key]
    | _ => without key (keys_of h) end).
  assert (NoDup keys /\ (length keys <= MAX_CONCURRENT_FUNDED_RELAY_SETUPS)%nat /\
    (key ∈ keys <-> is_creating (Some entry)) /\ (forall k, k <> key -> k ∈ keys <-> k ∈ keys_of h)) as (Kn & Kb & Kk & Kr).
  { pose proof (without_length key (keys_of h)). unfold keys, is_creating in *. destruct entry as [p|r|p].
    - case_bool_decide as Hin; [split; [done|]; split; [done|]; split; [split; eauto|done]|]. destruct (Hcap ltac:(eauto)) as [|Hlt]; [done|]. split; [|split; [|split]].
      + apply NoDup_app. split; [done|]. split; [by intros x Hx ->%list_elem_of_singleton|apply NoDup_singleton].
      + rewrite length_app. cbn. lia.
      + split; [by eauto|]. intros _. apply elem_of_app. right. by left.
      + intros k Hk. rewrite elem_of_app, list_elem_of_singleton. tauto.
    - split; [by apply without_NoDup|]. split; [lia|]. split; [|intros k Hk; rewrite elem_without; tauto].
      rewrite elem_without. split; [tauto|]. by intros [? [=]].
    - split; [by apply without_NoDup|]. split; [lia|]. split; [|intros k Hk; rewrite elem_without; tauto].
      rewrite elem_without. split; [tauto|]. by intros [? [=]]. }
  match goal with |- context [?x ≫= _] => replace x with (Some keys) end.
  2: { unfold keys. destruct entry; try done. case_bool_decide; [done|]. destruct (Hcap ltac:(unfold is_creating; eauto)) as [|Hlt]; [done|].
       by rewrite (proj2 (Nat.ltb_lt _ _) Hlt). }
  cbn [mbind option_bind]. unfold set_relay_creating_keys. rewrite valid_keys by done. eexists. split; [reflexivity|].
  pose proof Hf as [Ee _ _]. apply (journal_written _ _ _ _ keys); try done.
  intros k. unfold get_entry. cbn. rewrite Ee. case_decide as Hk; [subst; apply btree_get_insert|by apply btree_get_insert_ne].
Qed.

Lemma remove_entry_ok key h : journal_ok h -> exists h', remove_entry key h = Some h' /\ entry_set key None h h'.
Proof.
  intros Hok. unfold remove_entry. destruct (creating_keys_ok h Hok) as (h1 & -> & Hf & Em & El). cbn [mbind option_bind].
  pose proof Hok as [_ Hn Hb Hi _]. pose proof (without_length key (keys_of h)).
  unfold set_relay_creating_keys. rewrite valid_keys by (try apply without_NoDup; done || lia).
  eexists. split; [reflexivity|]. pose proof Hf as [Ee _ _]. apply (journal_written _ _ _ _ (without key (keys_of h))); try done.
  - intros k. unfold get_entry. cbn. rewrite Ee. case_decide as Hk; [subst; apply btree_get_remove|by apply btree_get_remove_ne].
  - by apply without_NoDup.
  - lia.
  - rewrite elem_without. split; [tauto|]. by intros [? [=]].
  - intros k Hk. rewrite elem_without. tauto.
Qed.

(** ** The steps *)

(** The calls that move value: the purchase of cycles, the creation of the relay and its
    funding, each with the record that was written before; and a definite rejection. *)
Inductive label :=
| LPay (key : RelaySetupKey) (record : RelayTransferRecord)
| LRejected (key : RelaySetupKey)
| LCreate (key : RelaySetupKey)
| LFund (key : RelaySetupKey) (record : RelayTransferRecord).
Definition label_key (l : label) : RelaySetupKey :=
  match l with LPay key _ | LRejected key | LCreate key | LFund key _ => key end.

(** What the progress of a setup becomes; the records of its calls are kept. *)
Inductive advance (key : RelaySetupKey) (p : RelayCreationProgress) : list label -> RelayCreationProgress -> Prop :=
| adv_note m : advance key p [] (p <| last_error := m |>)
| adv_probe : phase p = Reserved -> advance key p [] (p <| phase := ProbingTargets |>)
| adv_pay record : phase p = ProbingTargets -> block_index record = None ->
    advance key p [LPay key record] (p <| phase := CmcTransferPrepared |> <| cmc_transfer := Some record |>)
| adv_accepted block : phase p = CmcTransferPrepared ->
    advance key p [] (p <| phase := CmcTransferAccepted |> <| cmc_transfer ::= fmap (fun r => r <| block_index := Some block |>) |>)
| adv_minted n : phase p = CmcTransferAccepted -> advance key p [] (p <| cycles_minted := Some n |>)
| adv_notified n : phase p = CmcTransferAccepted ->
    advance key p [] (p <| phase := CmcNotifySucceeded |> <| cycles_minted := Some n |>)
| adv_create ts : phase p = CmcNotifySucceeded ->
    advance key p [LCreate key] (p <| phase := CreateDispatched |> <| create_dispatched_at_ts := Some ts |>)
| adv_child relay : phase p = CreateDispatched ->
    advance key p [] (p <| relay_canister_id := Some relay |> <| phase := ChildCreated |>)
| adv_installed : phase p = ChildCreated -> advance key p [] (p <| phase := CodeInstalled |>)
| adv_fund record : phase p = CodeInstalled -> block_index record = None ->
    advance key p [LFund key record] (p <| phase := RelayFundingPrepared |> <| relay_funding_transfer := Some record |>)
| adv_funded block : phase p = RelayFundingPrepared ->
    advance key p [] (p <| phase := RelayFunded |> <| relay_funding_transfer ::= fmap (fun r => r <| block_index := Some block |>) |>)
| adv_attempted : phase p = RelayFunded ->
    advance key p [] (p <| phase := FinalizationAttempted |> <| last_error := None |>).

Definition finalizing (p : RelayCreationPhase) : bool :=
  match p with RelayFunded | FinalizationAttempted => true | _ => false end.

Inductive factory_step : Heap -> list label -> Heap -> Prop :=
| step_frame h h' : frame h h' -> factory_step h [] h'
| step_reserve key h h' : get_entry key h = None -> (length (keys_of h) < MAX_CONCURRENT_FUNDED_RELAY_SETUPS)%nat ->
    insert_entry key (Creating RelayCreationProgress_reserved) h = Some h' -> factory_step h [] h'
| step_release key p h h' : get_entry key h = Some (Creating p) -> pre_spend (phase p) = true ->
    remove_entry key h = Some h' -> factory_step h [] h'
| step_rejected key p h h' : get_entry key h = Some (Creating p) -> phase p = CmcTransferPrepared ->
    remove_entry key h = Some h' -> factory_step h [LRejected key] h'
| step_advance key p l q h h' : get_entry key h = Some (Creating p) -> advance key p l q ->
    insert_entry key (Creating q) h = Some h' -> factory_step h l h'
| step_recovery key p m h h' : get_entry key h = Some (Creating p) ->
    insert_entry key (ManualRecoveryRequired (p <| last_error := Some m |>)) h = Some h' -> factory_step h [] h'
| step_activate key p relay h h' : get_entry key h = Some (Creating p) -> finalizing (phase p) = true ->
    relay_id_with_complete_activation_evidence p = Ok relay ->
    insert_entry key (Active relay) h = Some h' -> factory_step h [] h'.

Inductive path : Heap -> list label -> Heap -> Prop :=
| path_nil h : path h [] h
| path_cons h1 l1 h2 l2 h3 : factory_step h1 l1 h2 -> path h2 l2 h3 -> path h1 (l1 ++ l2) h3.

Lemma path_one h l h' : factory_step h l h' -> path h l h'.
Proof. intros Hs. rewrite <- (app_nil_r l). by eapply path_cons; [|constructor]. Qed.

Lemma path_trans h1 l1 h2 l2 h3 : path h1 l1 h2 -> path h2 l2 h3 -> path h1 (l1 ++ l2) h3.
Proof.
  induction 1 as [|h1 a h2 b h3' Hs _ IH]; [done|]. intros H3. rewrite <- app_assoc. by eapply path_cons; [|apply IH].
Qed.

Lemma path_quiet h1 h2 h3 : path h1 [] h2 -> path h2 [] h3 -> path h1 [] h3.
Proof. exact (path_trans h1 [] h2 [] h3). Qed.

(** A step that writes an entry. *)
Lemma insert_written key entry h h' : journal_ok h -> insert_entry key entry h = Some h' ->
  (is_creating (Some entry) -> key ∈ keys_of h \/ (length (keys_of h) < MAX_CONCURRENT_FUNDED_RELAY_SETUPS)%nat) ->
  entry_set key (Some entry) h h'.
Proof. intros Hok E Hc. destruct (insert_entry_ok key entry h Hok Hc) as (h2 & E2 & Hs). congruence. Qed.

Lemma remove_written key h h' : journal_ok h -> remove_entry key h = Some h' -> entry_set key None h h'.
Proof. intros Hok E. destruct (remove_entry_ok key h Hok) as (h2 & E2 & Hs). congruence. Qed.

Lemma creating_listed h key p : journal_ok h -> get_entry key h = Some (Creating p) -> key ∈ keys_of h.
Proof. intros Hok E. apply (journal_index _ Hok). by exists p. Qed.

Lemma creating_written key q p h h' : journal_ok h -> get_entry key h = Some (Creating p) ->
  insert_entry key q h = Some h' -> entry_set key (Some q) h h'.
Proof. intros Hok Ep E. apply (insert_written _ _ _ _ Hok E). intros _. left. by eapply creating_listed. Qed.

(** ** The order of the calls of one setup *)

Inductive spending := Unpaid | Paid | Created | Funded.
Definition stage_of_phase (p : RelayCreationPhase) : spending :=
  match p with
  | Reserved | ProbingTargets => Unpaid
  | CmcTransferPrepared | CmcTransferAccepted | CmcNotifySucceeded => Paid
  | CreateDispatched | ChildCreated | CodeInstalled => Created
  | RelayFundingPrepared | RelayFunded | FinalizationAttempted => Funded
  end.
Definition spending_of (o : option RelaySetupEntry) : spending :=
  match o with
  | None => Unpaid
  | Some (Creating p) | Some (ManualRecoveryRequired p) => stage_of_phase (phase p)
  | Some (Active _) => Funded
  end.
Definition next_stage (s : spending) (l : label) : option spending :=
  match s, l with
  | Unpaid, LPay _ _ => Some Paid
  | Paid, LRejected _ => Some Unpaid
  | Paid, LCreate _ => Some Created
  | Created, LFund _ _ => Some Funded
  | _, _ => None
  end.
Fixpoint stages (s : spending) (l : list label) : option spending :=
  match l with
  | [] => Some s
  | a :: l => match next_stage s a with Some s => stages s l | None => None end
  end.
Definition labels_of (key : RelaySetupKey) (l : list label) : list label := filter (fun a => label_key a = key) l.

Lemma stages_app s l1 l2 : stages s (l1 ++ l2) = match stages s l1 with Some s => stages s l2 | None => None end.
Proof. revert s. induction l1 as [|a l1 IH]; intros s; cbn; [done|]. destruct (next_stage s a); [apply IH|done]. Qed.

Lemma labels_of_app key l1 l2 : labels_of key (l1 ++ l2) = labels_of key l1 ++ labels_of key l2.
Proof. apply filter_app. Qed.

Lemma labels_other key k l : Forall (fun a => label_key a = key) l -> k <> key -> labels_of k l = [].
Proof.
  induction 1 as [|a l Ha _ IH]; intros Hk; [done|]. unfold labels_of. rewrite filter_cons_False; [by apply IH|congruence].
Qed.

(** What a step does to the entry of one key. *)
Inductive step_effect (h : Heap) (l : list label) (h' : Heap) : Prop :=
| effect_frame : l = [] -> frame h h' -> step_effect h l h'
| effect_set key o : entry_set key o h h' -> Forall (fun a => label_key a = key) l ->
    stages (spending_of (get_entry key h)) l = Some (spending_of o) -> step_effect h l h'.

Lemma advance_stage key p l q : advance key p l q ->
  Forall (fun a => label_key a = key) l /\ stages (stage_of_phase (phase p)) l = Some (stage_of_phase (phase q)).
Proof.
  intros Ha. split; [destruct Ha; by repeat constructor|].
  destruct Ha as [?|E|? E|? E|? E|? E|? E|? E|E|? E|? E|E]; cbn; try rewrite E; reflexivity.
Qed.

Lemma step_effects h l h' : journal_ok h -> factory_step h l h' -> step_effect h l h'.
Proof.
  intros Hok Hs. revert Hok. destruct Hs as [h h' Hf|key h h' E Hlen Ei|key p h h' E Hp Er|key p h h' E Hp Er
    |key p l q h h' E Ha Ei|key p m h h' E Ei|key p r h h' E Hp Hev Ei]; intros Hok.
  - by apply effect_frame.
  - eapply effect_set; [apply (insert_written _ _ _ _ Hok Ei); by right|done|by rewrite E].
  - eapply effect_set; [by eapply remove_written|done|]. rewrite E. cbn. by destruct (phase p).
  - eapply effect_set; [by eapply remove_written|by repeat constructor|]. rewrite E. cbn. by rewrite Hp.
  - destruct (advance_stage _ _ _ _ Ha). eapply effect_set; [by eapply creating_written|done|by rewrite E].
  - eapply effect_set; [by eapply creating_written|done|by rewrite E].
  - eapply effect_set; [by eapply creating_written|done|]. rewrite E. cbn. by destruct (phase p).
Qed.

Lemma step_ok h l h' : journal_ok h -> factory_step h l h' -> journal_ok h'.
Proof. intros Hok Hs. destruct (step_effects _ _ _ Hok Hs) as [_ Hf|key o Hw _ _]; [by eapply frame_ok|apply Hw]. Qed.

Lemma path_ok h l h' : path h l h' -> journal_ok h -> journal_ok h'.
Proof. induction 1; eauto using step_ok. Qed.

Lemma labels_same key l : Forall (fun a => label_key a = key) l -> labels_of key l = l.
Proof. induction 1 as [|a l Ha _ IH]; [done|]. unfold labels_of in *. by rewrite filter_cons_True, IH. Qed.

Lemma step_stages key h l h' : journal_ok h -> factory_step h l h' ->
  stages (spending_of (get_entry key h)) (labels_of key l) = Some (spending_of (get_entry key h')).
Proof.
  intros Hok Hs. destruct (step_effects _ _ _ Hok Hs) as [-> Hf|k o Hw Hl Hst]; [by rewrite (frame_get _ _ _ Hf)|].
  rewrite (set_get _ _ _ _ Hw). case_decide as E; [subst; by rewrite labels_same|]. by rewrite (labels_other k).
Qed.

(** The entry of a setup knows how far its calls have come. *)
Lemma path_stages key h l h' : path h l h' -> journal_ok h ->
  stages (spending_of (get_entry key h)) (labels_of key l) = Some (spending_of (get_entry key h')).
Proof.
  induction 1 as [h|h1 l1 h2 l2 h3 Hs _ IH]; intros Hok; [done|]. rewrite labels_of_app, stages_app.
  rewrite (step_stages key _ _ _ Hok Hs). eauto using step_ok.
Qed.

(** *** Counting the calls *)

Definition is_pay (l : label) : bool := match l with LPay _ _ => true | _ => false end.
Definition is_rejected (l : label) : bool := match l with LRejected _ => true | _ => false end.
Definition is_create (l : label) : bool := match l with LCreate _ => true | _ => false end.
Definition is_fund (l : label) : bool := match l with LFund _ _ => true | _ => false end.
Definition count (f : label -> bool) (l : list label) : nat := length (List.filter f l).

(** The calls that a stage stands for: payments that were not rejected, creations, fundings. *)
Definition done_by (s : spending) : nat * nat * nat :=
  match s with Unpaid => (0, 0, 0) | Paid => (1, 0, 0) | Created => (1, 1, 0) | Funded => (1, 1, 1) end%nat.

Lemma stages_count l : forall s s', stages s l = Some s' ->
  ((done_by s).1.1 + count is_pay l = (done_by s').1.1 + count is_rejected l)%nat /\
  ((done_by s).1.2 + count is_create l = (done_by s').1.2)%nat /\
  ((done_by s).2 + count is_fund l = (done_by s').2)%nat.
Proof.
  induction l as [|a l IH]; intros s s' E; cbn in E; [injection E as ->; cbn; lia|].
  destruct (next_stage s a) as [s1|] eqn:En; [|done]. specialize (IH _ _ E).
  unfold count in *. destruct s, a; cbn in En; simplify_eq; cbn in *; lia.
Qed.

(** ** The operations of the handler as paths *)

Lemma frame_path h h' : frame h h' -> path h [] h'.
Proof. intros Hf. by apply path_one, step_frame. Qed.

Lemma update_progress_path key expected update l h :
  journal_ok h -> (forall p, phase p = expected -> advance key p l (update p)) ->
  exists r h', update_progress_now key expected update h = Some (r, h') /\
    match r with Ok _ => path h l h' | Err _ => h' = h end.
Proof.
  intros Hok Ha. unfold update_progress_now, require_phase. destruct (get_entry key h) as [[p|r|p]|] eqn:E; try (by eexists _, h).
  destruct (decide _) as [Ep|]; [|by eexists _, h].
  destruct (insert_entry_ok key (Creating (update p)) h Hok) as (h' & Ei & _); [intros _; left; by eapply creating_listed|].
  rewrite Ei. cbn. eexists _, h'. split; [reflexivity|]. by eapply path_one, step_advance; [|apply Ha|].
Qed.

Lemma manual_recovery_path key expected m h :
  journal_ok h -> exists r h', manual_recovery_now key expected m h = Some (r, h') /\ path h [] h'.
Proof.
  intros Hok. unfold manual_recovery_now, require_phase.
  destruct (get_entry key h) as [[p|r|p]|] eqn:E; try (eexists _, h; split; [reflexivity|constructor]).
  destruct (decide _) as [Ep|]; [|eexists _, h; split; [reflexivity|constructor]].
  edestruct (insert_entry_ok key (ManualRecoveryRequired (p <| last_error := Some (bounded_message m) |>)) h Hok)
    as (h' & Ei & _); [by intros [? [=]]|].
  rewrite Ei. cbn. eexists _, h'. split; [reflexivity|]. by eapply path_one, step_recovery.
Qed.

Lemma remove_path key p h : journal_ok h -> get_entry key h = Some (Creating p) -> pre_spend (phase p) = true ->
  exists h', remove_entry key h = Some h' /\ path h [] h' /\ entry_set key None h h'.
Proof.
  intros Hok E Hp. destruct (remove_entry_ok key h Hok) as (h' & Er & Hs). exists h'. split; [done|].
  split; [|done]. by eapply path_one, step_release.
Qed.

Lemma remove_reservation_path key expected h : journal_ok h -> pre_spend expected = true ->
  exists h', remove_reservation_now key expected h = Some (tt, h') /\ path h [] h'.
Proof.
  intros Hok Hp. unfold remove_reservation_now.
  destruct (get_entry key h) as [[p|r|p]|] eqn:E; try (eexists; split; [reflexivity|constructor]).
  destruct (decide _) as [Ep|]; [|eexists; split; [reflexivity|constructor]].
  destruct (remove_path key p h Hok E) as (h' & -> & Hpath & _); [by rewrite Ep|]. cbn. by eauto.
Qed.

Lemma reject_path key h : journal_ok h ->
  exists l h', remove_reservation_now key CmcTransferPrepared h = Some (tt, h') /\ path h l h' /\
    (l = [] \/ l = [LRejected key]).
Proof.
  intros Hok. unfold remove_reservation_now.
  destruct (get_entry key h) as [[p|r|p]|] eqn:E; try (eexists [], h; split; [reflexivity|split; [constructor|by left]]).
  destruct (decide _) as [Ep|]; [|eexists [], h; split; [reflexivity|split; [constructor|by left]]].
  destruct (remove_entry_ok key h Hok) as (h' & Er & _). rewrite Er. cbn. exists [LRejected key], h'.
  split; [done|]. split; [by eapply path_one, step_rejected|by right].
Qed.

Lemma reserve_path key h : journal_ok h -> exists r h', reserve_now key h = Some (r, h') /\ path h [] h'.
Proof.
  intros Hok. unfold reserve_now. destruct (get_entry key h) eqn:E; [eexists _, h; split; [reflexivity|constructor]|].
  destruct (creating_keys_ok h Hok) as (h1 & -> & Hf & _). cbn [mbind option_bind].
  destruct (MAX_CONCURRENT_FUNDED_RELAY_SETUPS <=? length (keys_of h))%nat eqn:El;
    [eexists _, h1; split; [reflexivity|by apply frame_path]|]. apply Nat.leb_gt in El.
  destruct (insert_entry_ok key (Creating RelayCreationProgress_reserved) h1 (frame_ok _ _ Hok Hf)) as (h' & Ei & _).
  { intros _. right. by rewrite (frame_keys _ _ Hf). }
  rewrite Ei. cbn. eexists _, h'. split; [reflexivity|]. eapply path_quiet; [by apply frame_path|].
  eapply path_one, step_reserve; [by rewrite (frame_get _ _ key Hf)|by rewrite (frame_keys _ _ Hf)|done].
Qed.

Lemma reclaim_keys_path now_secs keys : forall h, journal_ok h ->
  exists h', reclaim_keys now_secs keys h = Some h' /\ path h [] h' /\ limiter h' = limiter h.
Proof.
  induction keys as [|key keys IH]; intros h Hok; cbn [reclaim_keys]; [exists h; by repeat constructor|].
  destruct (has_live_attempt _ _ _); [by apply IH|]. destruct (get_entry key h) as [[p|r|p]|] eqn:E; try by apply IH.
  destruct (abandoned p) eqn:Ea; [|by apply IH].
  destruct (remove_path key p h Hok E) as (h1 & -> & Hp & Hs).
  { unfold abandoned in Ea. by destruct (pre_spend (phase p)). }
  cbn. destruct (IH h1 (set_ok _ _ _ _ Hs)) as (h' & -> & Hp' & El). exists h'. split; [done|].
  split; [by eapply path_quiet|]. by rewrite El, (set_limiter _ _ _ _ Hs).
Qed.

Lemma reclaim_path now_secs h : journal_ok h ->
  exists h', reclaim_abandoned_pre_spend_reservations_now now_secs h = Some (tt, h') /\ path h [] h' /\ limiter h' = limiter h.
Proof.
  intros Hok. unfold reclaim_abandoned_pre_spend_reservations_now.
  destruct (creating_keys_ok h Hok) as (h1 & -> & Hf & _ & El). cbn.
  destruct (reclaim_keys_path now_secs (keys_of h) h1 (frame_ok _ _ Hok Hf)) as (h' & -> & Hp & El'). cbn.
  exists h'. split; [done|]. split; [by eapply path_quiet; [apply frame_path|]|congruence].
Qed.

Lemma tracking_path canisters f h : journal_ok h ->
  exists m, with_factory_tracking_state_mut canisters f (mem h) = Some m /\ frame h (h <| mem := m |>).
Proof.
  intros Hok. unfold with_factory_tracking_state_mut, persistence_batch_active, is_active.
  rewrite (journal_batch _ Hok). cbn. eexists. split; [reflexivity|]. constructor; cbn; auto.
Qed.

Lemma activate_path key expected setup relay now_secs h :
  journal_ok h -> finalizing expected = true ->
  exists r h', activate_now key expected setup relay now_secs h = Some (r, h') /\ path h [] h'.
Proof.
  intros Hok Hfin. unfold activate_now. destruct (require_phase key expected h) as [p|r] eqn:Er;
    [|eexists _, h; split; [reflexivity|constructor]].
  unfold require_phase in Er. destruct (get_entry key h) as [[q|?|?]|] eqn:E; try done.
  destruct (decide _) as [Ep|]; [|done]. injection Er as ->.
  destruct (relay_id_with_complete_activation_evidence p) as [relay'|message] eqn:Ev; [|by apply manual_recovery_path].
  destruct (decide _) as [->|]; [|by apply manual_recovery_path].
  destruct (insert_entry_ok key (Active relay) h Hok) as (h1 & Ei & Hs); [by intros [? [=]]|]. rewrite Ei. cbn.
  edestruct (tracking_path (set_of_list (setup_targets setup ++ [relay]))) as (m & -> & Hf); [exact (set_ok _ _ _ _ Hs)|].
  cbn. eexists _, _. split; [reflexivity|]. eapply path_quiet; [|by apply frame_path].
  eapply path_one, step_activate; [done|by rewrite Ep|done|done].
Qed.

(** ** The reconciliation after an upgrade *)

(** What an upgrade makes of an entry: a setup whose paid block can be notified again
    goes on, one that spent nothing is forgotten, and the others wait for an operator. *)
Definition reconciled (o : option RelaySetupEntry) : option RelaySetupEntry :=
  match o with
  | Some (Creating p) =>
      if pre_spend (phase p) then None
      else if bool_decide (phase p = CmcTransferAccepted \/ phase p = CmcNotifySucceeded) then o
      else Some (ManualRecoveryRequired (p <| last_error := Some "HistorianUpgradeInterrupted"%string |>))
  | _ => o
  end.

Lemma reconcile_key_path key h : journal_ok h -> is_creating (get_entry key h) ->
  exists h', reconcile_key key h = Some h' /\ path h [] h' /\ journal_ok h' /\
    forall k, get_entry k h' = if decide (k = key) then reconciled (get_entry key h) else get_entry k h.
Proof.
  intros Hok [p E]. unfold reconcile_key. rewrite E. cbn [reconciled].
  assert (exists h', Some h = Some h' /\ path h [] h' /\ journal_ok h' /\
    forall k, get_entry k h' = if decide (k = key) then Some (Creating p) else get_entry k h) as Hkept.
  { exists h. split; [done|]. split; [constructor|]. split; [done|]. intros k. by case_decide; subst. }
  edestruct (insert_entry_ok key (ManualRecoveryRequired (p <| last_error := Some "HistorianUpgradeInterrupted"%string |>)) h Hok)
    as (h2 & Ei & Hs); [by intros [? [=]]|].
  assert (exists h', insert_entry key (ManualRecoveryRequired (p <| last_error := Some "HistorianUpgradeInterrupted"%string |>)) h = Some h' /\
    path h [] h' /\ journal_ok h' /\
    forall k, get_entry k h' = if decide (k = key)
      then Some (ManualRecoveryRequired (p <| last_error := Some "HistorianUpgradeInterrupted"%string |>)) else get_entry k h) as Hman.
  { exists h2. split; [done|]. split; [by eapply path_one, step_recovery|]. split; apply Hs. }
  destruct (phase p) eqn:Ep; try exact Hkept; try exact Hman;
    (destruct (remove_path key p h Hok E) as (h1 & -> & Hp & Hs1); [by rewrite Ep|]; exists h1;
     split; [done|]; split; [done|]; split; apply Hs1).
Qed.

Lemma reconcile_keys_path keys : forall h, journal_ok h -> NoDup keys -> (forall k, k ∈ keys -> is_creating (get_entry k h)) ->
  exists h', reconcile_keys keys h = Some h' /\ path h [] h' /\ journal_ok h' /\
    forall k, get_entry k h' = if decide (k ∈ keys) then reconciled (get_entry k h) else get_entry k h.
Proof.
  induction keys as [|key keys IH]; intros h Hok Hn Hc; cbn [reconcile_keys].
  { exists h. split; [done|]. split; [constructor|]. split; [done|]. intros k. by rewrite decide_False by apply not_elem_of_nil. }
  apply NoDup_cons in Hn as [Hnot Hn]. destruct (reconcile_key_path key h Hok) as (h1 & -> & Hp & Hok1 & Hg); [by apply Hc; left|].
  cbn. destruct (IH h1 Hok1 Hn) as (h' & -> & Hp' & Hok' & Hg').
  { intros k Hk. rewrite Hg, decide_False by (intros ->; done). by apply Hc; right. }
  exists h'. split; [done|]. split; [by eapply path_quiet|]. split; [done|]. intros k. rewrite Hg', !Hg.
  destruct (decide (k = key)) as [->|Hne]; [by rewrite decide_False, decide_True by (done || by left)|].
  destruct (decide (k ∈ keys)); [rewrite decide_True by (by right)|rewrite decide_False by (by intros [?|?]%elem_of_cons)]; done.
Qed.

(** The whole reconciliation, whatever else is in the journal. *)
Lemma reconcile_path h : journal_ok h ->
  exists h', reconcile_interrupted_creating_entries_after_upgrade h = Some h' /\ journal_ok h' /\ path h [] h' /\
    forall key, get_entry key h' = reconciled (get_entry key h).
Proof.
  intros Hok. unfold reconcile_interrupted_creating_entries_after_upgrade.
  destruct (creating_keys_ok h Hok) as (h1 & -> & Hf & _). cbn [mbind option_bind].
  pose proof (frame_ok _ _ Hok Hf) as Hok1.
  destruct (reconcile_keys_path (keys_of h) h1 Hok1 (journal_nodup _ Hok)) as (h' & -> & Hp & Hok' & Hg).
  { intros k Hk. rewrite (frame_get _ _ k Hf). by apply (journal_index _ Hok). }
  exists h'. split; [done|]. split; [done|]. split; [by eapply path_quiet; [apply frame_path|]|]. intros key.
  rewrite Hg, (frame_get _ _ key Hf). case_decide as Hk; [done|].
  destruct (get_entry key h) as [[p|r|p]|] eqn:Eg; try done. destruct Hk. by eapply creating_listed.
Qed.

(** ** The operations of the code as steps *)

(** The updates that the handlers pass to [update_progress]: the phase that each
    expects, what it makes of the progress, and the call that the handler makes once the
    update is written. *)
Inductive journal_update (key : RelaySetupKey) :
  RelayCreationPhase -> (RelayCreationProgress -> RelayCreationProgress) -> list label -> Prop :=
| upd_note expected m : journal_update key expected (fun p => p <| last_error := m |>) []
| upd_probe : journal_update key Reserved (fun p => p <| phase := ProbingTargets |>) []
| upd_pay record : block_index record = None -> journal_update key ProbingTargets
    (fun p => p <| phase := CmcTransferPrepared |> <| cmc_transfer := Some record |>) [LPay key record]
| upd_accepted block : journal_update key CmcTransferPrepared (fun p => p <| phase := CmcTransferAccepted |>
    <| cmc_transfer ::= fmap (fun r => r <| block_index := Some block |>) |>) []
| upd_minted n : journal_update key CmcTransferAccepted (fun p => p <| cycles_minted := Some n |>) []
| upd_notified n : journal_update key CmcTransferAccepted
    (fun p => p <| phase := CmcNotifySucceeded |> <| cycles_minted := Some n |>) []
| upd_create ts : journal_update key CmcNotifySucceeded
    (fun p => p <| phase := CreateDispatched |> <| create_dispatched_at_ts := Some ts |>) [LCreate key]
| upd_child relay : journal_update key CreateDispatched
    (fun p => p <| relay_canister_id := Some relay |> <| phase := ChildCreated |>) []
| upd_installed : journal_update key ChildCreated (fun p => p <| phase := CodeInstalled |>) []
| upd_fund record : block_index record = None -> journal_update key CodeInstalled
    (fun p => p <| phase := RelayFundingPrepared |> <| relay_funding_transfer := Some record |>) [LFund key record]
| upd_funded block : journal_update key RelayFundingPrepared (fun p => p <| phase := RelayFunded |>
    <| relay_funding_transfer ::= fmap (fun r => r <| block_index := Some block |>) |>) []
| upd_attempted : journal_update key RelayFunded
    (fun p => p <| phase := FinalizationAttempted |> <| last_error := None |>) [].

Lemma journal_update_advance key expected update l : journal_update key expected update l ->
  forall p, phase p = expected -> advance key p l (update p).
Proof. intros Hu p Hp. destruct Hu; by constructor. Qed.

(** One atomic operation of the code: what the handlers and the upgrade do between two
    calls.  An update that is refused, because the entry is not in the phase that the
    handler expects, has no call. *)
Inductive code_step : Heap -> list label -> Heap -> Prop :=
| code_frame h h' : frame h h' -> code_step h [] h'
| code_reserve key h r h' : reserve_now key h = Some (r, h') -> code_step h [] h'
| code_update key expected update l h r h' : journal_update key expected update l ->
    update_progress_now key expected update h = Some (r, h') ->
    code_step h (match r with Ok _ => l | Err _ => [] end) h'
| code_release key expected h h' : expected = Reserved \/ expected = ProbingTargets ->
    remove_reservation_now key expected h = Some (tt, h') -> code_step h [] h'
| code_reject key h h' : remove_reservation_now key CmcTransferPrepared h = Some (tt, h') ->
    code_step h (match require_phase key CmcTransferPrepared h with Ok _ => [LRejected key] | Err _ => [] end) h'
| code_reclaim now_secs h h' : reclaim_abandoned_pre_spend_reservations_now now_secs h = Some (tt, h') ->
    code_step h [] h'
| code_recovery key expected m h r h' : manual_recovery_now key expected m h = Some (r, h') -> code_step h [] h'
| code_activate key expected setup relay now_secs h r h' : expected = RelayFunded \/ expected = FinalizationAttempted ->
    activate_now key expected setup relay now_secs h = Some (r, h') -> code_step h [] h'
| code_upgrade h h' : reconcile_interrupted_creating_entries_after_upgrade h = Some h' -> code_step h [] h'.

(** Any interleaving of them. *)
Inductive code_path : Heap -> list label -> Heap -> Prop :=
| code_nil h : code_path h [] h
| code_cons h1 l1 h2 l2 h3 : code_step h1 l1 h2 -> code_path h2 l2 h3 -> code_path h1 (l1 ++ l2) h3.

Lemma code_path_one h l h' : code_step h l h' -> code_path h l h'.
Proof. intros Hs. rewrite <- (app_nil_r l). by eapply code_cons; [|constructor]. Qed.

Lemma code_path_trans h1 l1 h2 l2 h3 : code_path h1 l1 h2 -> code_path h2 l2 h3 -> code_path h1 (l1 ++ l2) h3.
Proof.
  induction 1 as [|h1 a h2 b h3' Hs _ IH]; [done|]. intros H3. rewrite <- app_assoc. by eapply code_cons; [|apply IH].
Qed.

Lemma code_frame_path h h' : frame h h' -> code_path h [] h'.
Proof. intros Hf. by apply code_path_one, code_frame. Qed.

(** Each operation keeps the order of the protocol. *)
Lemma code_step_path h l h' : journal_ok h -> code_step h l h' -> path h l h'.
Proof.
  intros Hok Hs. revert Hok. destruct Hs as [h h' Hf|key h r h' E|key expected update l h r h' Hu E|key expected h h' He E
    |key h h' E|now_secs h h' E|key expected m h r h' E|key expected setup relay now_secs h r h' He E|h h' E]; intros Hok.
  - by apply frame_path.
  - destruct (reserve_path key h Hok) as (r2 & h2 & E2 & Hp). congruence.
  - destruct (update_progress_path key expected update l h Hok (journal_update_advance _ _ _ _ Hu)) as (r2 & h2 & E2 & Hp).
    assert (r = r2 /\ h' = h2) as [-> ->] by (split; congruence). destruct r2; [done|]. subst. constructor.
  - destruct (remove_reservation_path key expected h Hok) as (h2 & E2 & Hp); [by destruct He as [-> | ->]|]. congruence.
  - unfold remove_reservation_now, require_phase in *.
    destruct (get_entry key h) as [[p|r|p]|] eqn:Ek; try (simplify_eq; constructor).
    destruct (decide _) as [Ep|]; [|simplify_eq; constructor].
    destruct (remove_entry key h) as [h2|] eqn:Er; [|done]. cbn in E. simplify_eq. by eapply path_one, step_rejected.
  - destruct (reclaim_path now_secs h Hok) as (h2 & E2 & Hp & _). congruence.
  - destruct (manual_recovery_path key expected m h Hok) as (r2 & h2 & E2 & Hp). congruence.
  - destruct (activate_path key expected setup relay now_secs h Hok) as (r2 & h2 & E2 & Hp); [by destruct He as [-> | ->]|].
    congruence.
  - destruct (reconcile_path h Hok) as (h2 & E2 & _ & Hp & _). congruence.
Qed.

Lemma code_path_path h l h' : code_path h l h' -> journal_ok h -> path h l h'.
Proof.
  induction 1 as [h|h1 l1 h2 l2 h3 Hs _ IH]; intros Hok; [constructor|].
  pose proof (code_step_path _ _ _ Hok Hs) as Hp. eapply path_trans; [exact Hp|]. apply IH. by eapply path_ok.
Qed.

Lemma code_path_ok h l h' : code_path h l h' -> journal_ok h -> journal_ok h'.
Proof. intros Hp Hok. eapply path_ok; [by apply code_path_path|done]. Qed.

End journal.

(** A setup that is reserved, probed and paid for. *)
Module ConcreteFactory.
Import Concrete ConcreteTexts ConcreteHash ConcreteKeys.
Abbreviation principal := (Principal (PrincipalSpec:=concrete_principal)).
#[export] Instance factory_ids : ProbeIds (H:=concrete_principal) := {|
  thirteen_node_blackhole_canister_id := (91 : principal);
  fiduciary_blackhole_canister_id := (92 : principal);
  nns_root_id := (93 : principal);
|}.
#[export] Instance factory_spec : FactorySpec (H:=concrete_principal) := {|
  sha256 := fun bytes => [Z.of_nat (length bytes)];
  self_service_relay_install_payload := [7; 7; 7];
  encode_relay_init := fun _ => [1];
  nns_governance_id := (94 : principal);
  debug_transfer_error := fun _ => "rejected"%string;
  debug_notify_error := fun _ => "pending"%string;
|}.
Abbreviation heap := (Heap (P:=concrete_principal)).
Definition heap0 : heap := MkHeap HistorianDurable.ConcreteDurable.mem0 [] None Limiter_default.
Definition key0 : RelaySetupKey := [1].
Definition record0 : RelayTransferRecord := MkTransferRecord 40000000 10000 5 None.
Definition progress0 : RelayCreationProgress (P:=concrete_principal) := RelayCreationProgress_reserved.
Definition progress1 : RelayCreationProgress (P:=concrete_principal) := progress0 <| phase := ProbingTargets |>.
Definition progress2 : RelayCreationProgress (P:=concrete_principal) :=
  progress1 <| phase := CmcTransferPrepared |> <| cmc_transfer := Some record0 |>.
Definition write (p : RelayCreationProgress (P:=concrete_principal)) (h : heap) : heap :=
  default h (insert_entry key0 (Creating p) h).
Definition paid_heap : heap := write progress2 (write progress1 (write progress0 heap0)).

Lemma heap0_ok : journal_ok heap0.
Proof.
  constructor; [done|constructor|cbn; lia| |done]. intros key. split; [by intros ?%elem_of_nil|by intros [? [=]]].
Qed.

(** Reserved, probed, and paid; then a second request for the same key finds the entry. *)
Lemma paid_path : code_path heap0 [LPay key0 record0] paid_heap.
Proof.
  change [LPay key0 record0] with ([] ++ [] ++ [LPay key0 record0] ++ [] ++ []).
  eapply code_cons; [apply (code_reserve key0 heap0 (Ok progress0) (write progress0 heap0)); vm_compute; reflexivity|].
  eapply code_cons; [apply (code_update key0 Reserved _ _ _ (Ok progress1) (write progress1 (write progress0 heap0)) (upd_probe key0));
    vm_compute; reflexivity|].
  eapply code_cons; [apply (code_update key0 ProbingTargets _ _ _ (Ok progress2) paid_heap (upd_pay key0 record0 eq_refl));
    vm_compute; reflexivity|].
  eapply code_cons; [eapply (code_reserve key0 paid_heap); vm_compute; reflexivity|]. constructor.
Qed.

Lemma paid_heap_ok : journal_ok paid_heap.
Proof. exact (code_path_ok _ _ _ paid_path heap0_ok). Qed.
End ConcreteFactory.

Section theorems.
Context `{P : PrincipalSpec} `{O : !OrdSpec Principal} `{SS : !SliceSpec} `{T : TextSpec} `{I : !ProbeIds} `{F : !FactorySpec} `{H : HashSpec}.

(** C10: On every interleaving of the atomic operations of the handlers and of the
    upgrade ([reserve_now], [update_progress_now] with the updates that the handlers pass,
    [remove_reservation_now], the reclaim of abandoned reservations, [manual_recovery_now],
    [activate_now] and the reconciliation), in any order and for any keys, a setup is paid
    for once, apart from payments that the ledger definitely rejected, its relay is created
    at most once, after a payment, and funded at most once, after the creation; and an
    active entry stands for exactly one payment, one creation and one funding. *)
Theorem setup_paid_created_funded_once (h h' : Heap) (l : list label) (key : RelaySetupKey)
    (Hok : journal_ok h) (Hpath : code_path h l h') (Hnew : get_entry key h = None) :
  let n f := count f (labels_of key l) in
  stages Unpaid (labels_of key l) = Some (spending_of (get_entry key h')) /\
  (n is_fund <= n is_create)%nat /\ (n is_create + n is_rejected <= n is_pay)%nat /\
  (n is_pay <= S (n is_rejected))%nat /\
  (forall relay, get_entry key h' = Some (Active relay) ->
     n is_pay = S (n is_rejected) /\ n is_create = 1%nat /\ n is_fund = 1%nat).
Proof.
  pose proof (path_stages key _ _ _ (code_path_path _ _ _ Hpath Hok) Hok) as Hst. rewrite Hnew in Hst. cbn [spending_of] in Hst.
  pose proof (stages_count _ _ _ Hst) as (Hp & Hc & Hf). cbn zeta. split; [exact Hst|]. cbn [done_by fst snd Nat.add] in *.
  split; [|split; [|split]].
  - destruct (spending_of _); cbn in *; lia.
  - destruct (spending_of _); cbn in *; lia.
  - destruct (spending_of _); cbn in *; lia.
  - intros relay E. rewrite E in *. cbn in *. lia.
Qed.

(** C30: An upgrade never loses a setup that has spent something: the reconciliation
    succeeds on every journal, in steps that move no value, and makes of each entry what
    its phase asks for, whatever else is in the journal. *)
Theorem upgrade_reconciles_journal (h : Heap) (Hok : journal_ok h) :
  exists h', reconcile_interrupted_creating_entries_after_upgrade h = Some h' /\ journal_ok h' /\ path h [] h' /\
    forall key, get_entry key h' = reconciled (get_entry key h) /\
      (spending_of (get_entry key h) <> Unpaid -> is_some (get_entry key h') = true) /\
      spending_of (get_entry key h') = spending_of (get_entry key h).
Proof.
  destruct (reconcile_path h Hok) as (h' & Er & Hok' & Hp & Hg). exists h'. split; [done|]. split; [done|]. split; [done|].
  intros key. pose proof (Hg key) as E.
  split; [exact E|]. rewrite E. destruct (get_entry key h) as [[p|r|p]|]; cbn; [|done..].
  destruct (phase p) eqn:Ep; cbn [pre_spend]; try case_bool_decide; cbn; rewrite ?Ep; by split.
Qed.

End theorems.

Lemma setup_paid_created_funded_once_witness :
  get_entry ConcreteFactory.key0 ConcreteFactory.heap0 = None /\
  (count is_pay (labels_of ConcreteFactory.key0 [LPay ConcreteFactory.key0 ConcreteFactory.record0]) <= 1)%nat.
Proof.
  split; [reflexivity|].
  destruct (setup_paid_created_funded_once _ _ _ ConcreteFactory.key0 ConcreteFactory.heap0_ok ConcreteFactory.paid_path
    eq_refl) as (_ & _ & _ & Hpay & _). exact Hpay.
Defined.

Lemma upgrade_reconciles_journal_witness :
  journal_ok ConcreteFactory.paid_heap /\
  exists h', reconcile_interrupted_creating_entries_after_upgrade ConcreteFactory.paid_heap = Some h' /\
    get_entry ConcreteFactory.key0 h' = Some (ManualRecoveryRequired
      (ConcreteFactory.progress2 <| last_error := Some "HistorianUpgradeInterrupted"%string |>)).
Proof.
  split; [exact ConcreteFactory.paid_heap_ok|].
  destruct (upgrade_reconciles_journal ConcreteFactory.paid_heap
    ConcreteFactory.paid_heap_ok) as (h' & Hr & _ & _ & Hk).
  exists h'. split; [exact Hr|]. rewrite (proj1 (Hk ConcreteFactory.key0)). vm_compute. reflexivity.
Defined.
