(* ===== verification/RelayFactoryRun.v ===== *)
(** * Historian: the runs of the relay factory's handler

    Every run of [notify_relay_configuration] returns and is an interleaving of the
    journal's operations: between two calls the handler does only atomic steps of the
    journal, and each of its calls that moves value is dispatched from a heap whose entry
    already records it. *)

From S2P Require Import Prelude BTree Async Ic Accounts Clients CyclesProbe Quiet HistorianTypes HistorianKeys HistorianState HistorianDurable HistorianTracking RelaySetup RelayFactory RelayFactoryProtocol.

(** ** The handler *)

Section runs.
Context `{P : PrincipalSpec} `{O : !OrdSpec Principal} `{SS : !SliceSpec} `{T : TextSpec} `{Ids : !ProbeIds} `{F : !FactorySpec} `{H : HashSpec}.
#[local] Existing Instance Principal_eq_dec.
Abbreviation world := (world Heap SuiteCall).
Local Abbreviation async := (async Heap SuiteCall).

Definition is_value (l : label) : bool := negb (is_rejected l).
Definition values (l : list label) : list label := List.filter is_value l.

(** The label of a call that the handler of [key] makes: a transfer is named by the
    subaccount it debits and by its identity on the ledger. *)
Definition event_label (key : RelaySetupKey) (ev : event Heap SuiteCall) : option label :=
  match ev with
  | Dispatch c _ =>
      match c with
      | IcrcTransfer _ arg =>
          let record := MkTransferRecord (amount arg) (default 0 (fee arg)) (default 0 (created_at_time arg)) None in
          let from := default [] (from_subaccount arg) in
          Some (match Ic.memo arg with Some _ => LPay from record | None => LFund from record end)
      | CreateCanister _ _ => Some (LCreate key)
      | _ => None
      end
  end.
(** The labels of the calls of a run, oldest first. *)
Definition call_labels (key : RelaySetupKey) (new : list (event Heap SuiteCall)) : list label :=
  omap (event_label key) (reverse new).

(** The progress [p] records the call [l]: its phase says that the call was prepared, and
    the record of a transfer has the amount, the fee and the time of the call. *)
Definition records (p : RelayCreationProgress) (l : label) : Prop :=
  match l with
  | LPay _ record => phase p = CmcTransferPrepared /\ cmc_transfer p = Some record
  | LCreate _ => phase p = CreateDispatched
  | LFund _ record => phase p = RelayFundingPrepared /\ relay_funding_transfer p = Some record
  | LRejected _ => False
  end.
Definition journalled (h : Heap) (l : label) : Prop :=
  exists p, get_entry (label_key l) h = Some (Creating p) /\ records p l.
(** The heap that is committed with a call that moves value records the call. *)
Definition written_ahead (key : RelaySetupKey) (ev : event Heap SuiteCall) : Prop :=
  match ev with Dispatch c h => Forall (journalled h) (option_list (event_label key (Dispatch c h))) end.

(** From [w0] to [w] the canister did an interleaving of journal operations, among them
    those of the handler, all of its key; their value calls are those of the trace, each
    written ahead, but for [pending], which the journal already records. *)
Definition mine (key : RelaySetupKey) (l : list label) : Prop := Forall (fun a => label_key a = key) l.
Record refines (key : RelaySetupKey) (pending : list label) (w0 w : world) : Prop := {
  refines_ok : journal_ok (w_state w);
  refines_pending : Forall (journalled (w_state w)) pending;
  refines_path : exists own all new, code_path (w_state w0) all (w_state w) /\ own `sublist_of` all /\
    w_trace w = new ++ w_trace w0 /\ values own = call_labels key new ++ pending /\ mine key own /\
    Forall (written_ahead key) new;
}.

Lemma values_app l1 l2 : values (l1 ++ l2) = values l1 ++ values l2.
Proof. apply List.filter_app. Qed.

Lemma call_labels_cons key ev new : call_labels key (ev :: new) = call_labels key new ++ option_list (event_label key ev).
Proof. unfold call_labels. rewrite reverse_cons, omap_app. cbn. by destruct (event_label key ev). Qed.

Lemma factory_refines_refl key w : journal_ok (w_state w) -> refines key [] w w.
Proof. intros Hok. split; [done|constructor|]. exists [], [], []. repeat split; constructor. Qed.

(** Own steps without a value call, or with one that is dispatched next. *)
Lemma refines_own key w0 h h' t l : refines key [] w0 (World h t) -> code_path h l h' -> mine key l ->
  Forall (journalled h') (values l) -> refines key (values l) w0 (World h' t).
Proof.
  intros [Hok _ (own & all & new & Hp & Hs & Ht & Hv & Hm & Ha)] Hl Hml Hj. split; [by eapply code_path_ok|done|].
  exists (own ++ l), (all ++ l), new. split; [by eapply code_path_trans|]. split; [by apply sublist_app|]. split; [done|].
  split; [rewrite values_app, Hv; by rewrite app_nil_r|]. split; [by apply Forall_app|done].
Qed.

(** Own steps that the handler does outside the journal. *)
Lemma refines_frame key w0 h h' t : refines key [] w0 (World h t) -> frame h h' -> refines key [] w0 (World h' t).
Proof. intros Hw Hf. by apply (refines_own _ _ _ _ _ [] Hw); [apply code_frame_path|constructor..]. Qed.

(** A call, and what the other messages do until its reply. *)
Lemma factory_refines_call {A} key w0 h h' t (c : SuiteCall A) l :
  refines key (option_list (event_label key (Dispatch c h))) w0 (World h t) -> code_path h l h' ->
  refines key [] w0 (World h' (Dispatch c h :: t)).
Proof.
  intros [Hok Hj (own & all & new & Hp & Hs & Ht & Hv & Hm & Ha)] Hl. split; [by eapply code_path_ok|constructor|].
  exists own, (all ++ l), (Dispatch c h :: new). split; [by eapply code_path_trans|].
  split; [by apply sublist_inserts_r|]. cbn [w_trace w_state] in *. split; [by rewrite Ht|].
  split; [by rewrite Hv, call_labels_cons, app_nil_r|]. split; [done|]. by constructor.
Qed.

(** What an update writes records the call that follows it. *)
Lemma journal_update_records key expected update l p : journal_update key expected update l -> phase p = expected ->
  mine key l /\ Forall (records (update p)) (values l).
Proof. intros Hu Hp. destruct Hu; cbn; (split; [by repeat constructor|]); repeat constructor. Qed.

Lemma update_progress_journalled key expected update l h r h' : journal_ok h -> journal_update key expected update l ->
  update_progress_now key expected update h = Some (Ok r, h') -> mine key l /\ Forall (journalled h') (values l).
Proof.
  intros Hok Hu. unfold update_progress_now, require_phase. destruct (get_entry key h) as [[p|?|?]|] eqn:E; try done.
  destruct (decide (phase p = expected)) as [Ep|]; [|done].
  destruct (insert_entry key _ h) as [h1|] eqn:Ei; [|done]. cbn. intros [= _ <-].
  pose proof (set_get _ _ _ _ (creating_written _ _ _ _ _ Hok E Ei) key) as Hg. rewrite decide_True in Hg by done.
  destruct (journal_update_records _ _ _ _ _ Hu Ep) as [Hm Hr]. split; [done|].
  assert (mine key (values l)) as Hmv by exact (List.incl_Forall (List.incl_filter _ _) Hm).
  clear Hm. unfold mine in Hmv. induction Hr as [|a l' Ha _ IH]; [constructor|].
  apply Forall_cons in Hmv as [<- Hmv]. constructor; [by exists (update p)|]. by apply IH.
Qed.

Context (e : env Heap SuiteCall) (w0 : world) (key : RelaySetupKey).
Context (Hrely : forall n h, journal_ok h -> exists l, code_path h l (env_interleave e n h)).
Abbreviation inv := (refines key [] w0).
Abbreviation keeps := (keeps e inv).

Lemma keeps_await {A} (c : SuiteCall A) : (forall h, event_label key (Dispatch c h) = None) -> keeps (await c).
Proof using Hrely.
  intros Hc [h t] Hw. apply wp_await. intros a s _ ->. cbn [w_state w_trace].
  destruct (Hrely (length t) h) as [l Hl]; [apply Hw|]. eapply factory_refines_call; [by rewrite Hc|done].
Qed.

Lemma keeps_atomically {A} (f : Heap -> option (A * Heap)) :
  (forall h, journal_ok h -> exists l a h', f h = Some (a, h') /\ code_path h l h' /\ values l = [] /\ mine key l) -> keeps (atomically f).
Proof.
  intros Hf [h t] Hw. unfold wp, atomically. cbn [w_state w_trace]. destruct (Hf h) as (l & a & h' & -> & Hp & Hl & Hm); [apply Hw|].
  rewrite <- Hl. eapply refines_own; [done..|]. by rewrite Hl.
Qed.

Lemma keeps_quietly {A} (f : Heap -> option (A * Heap)) :
  (forall h, journal_ok h -> exists a h', f h = Some (a, h') /\ code_step h [] h') -> keeps (atomically f).
Proof. intros Hf. apply keeps_atomically. intros h Hok. destruct (Hf h Hok) as (a & h' & E & Hp). exists [], a, h'.
  split; [done|]. split; [by apply code_path_one|]. by repeat constructor. Qed.

Lemma keeps_with_state_mut {A} (f : Heap -> A * Heap) : (forall h, frame h (f h).2) -> keeps (with_state_mut f).
Proof.
  intros Hf [h t] Hw. apply wp_with_state_mut. cbn [w_state w_trace].
  apply (refines_frame _ _ _ _ _ Hw), Hf.
Qed.

Lemma keeps_modify (f : Heap -> Heap) : (forall h, frame h (f h)) -> keeps (modify f).
Proof.
  intros Hf [h t] Hw. apply wp_modify. cbn [w_state w_trace].
  apply (refines_frame _ _ _ _ _ Hw), Hf.
Qed.

(** *** A call that moves value *)

Definition dispatches (l : label) {A} (m : async A) : Prop :=
  forall w, refines key [l] w0 w -> wp e m (fun _ w' => inv w') w.

Lemma dispatches_await {A} l (c : SuiteCall A) : (forall h, event_label key (Dispatch c h) = Some l) -> dispatches l (await c).
Proof using Hrely.
  intros Hc [h t] Hw. apply wp_await. intros a s _ ->. cbn [w_state w_trace].
  destruct (Hrely (length t) h) as [l' Hl]; [apply Hw|]. eapply factory_refines_call; [by rewrite Hc|done].
Qed.

Lemma dispatches_bind {A B} l (m : async A) (f : A -> async B) :
  dispatches l m -> (forall a, keeps (f a)) -> dispatches l (m ≫= f).
Proof. intros Hm Hf w Hw. apply wp_bind. eapply wp_mono; [by apply Hm|]. intros a w' Hw'. by apply Hf. Qed.

Lemma keeps_updating expected update l k :
  journal_update key expected update l ->
  (forall w, refines key (values l) w0 w -> wp e k (fun _ w' => inv w') w) ->
  keeps (updating key expected update k).
Proof.
  intros Hu Hk [h t] Hw. unfold updating. apply wp_bind. unfold wp at 1, update_progress, atomically. cbn [w_state w_trace].
  destruct (update_progress_path key expected update l h (refines_ok _ _ _ _ Hw) (journal_update_advance _ _ _ _ Hu))
    as (r & h' & E & Hr). rewrite E. destruct r as [q|]; [|subst; by apply wp_ret].
  destruct (update_progress_journalled _ _ _ _ _ _ _ (refines_ok _ _ _ _ Hw) Hu E) as [Hm Hj].
  apply Hk. eapply refines_own; [done|exact (code_path_one _ _ _ (code_update _ _ _ _ _ _ _ Hu E))|done|done].
Qed.

Lemma keeps_updating_quiet expected update k :
  journal_update key expected update [] -> keeps k -> keeps (updating key expected update k).
Proof. intros Ha Hk. by eapply keeps_updating. Qed.

Lemma keeps_updating_value expected update l k : is_value l = true ->
  journal_update key expected update [l] -> dispatches l k -> keeps (updating key expected update k).
Proof. intros Hl Ha Hk. eapply keeps_updating; [exact Ha|]. unfold values. cbn. rewrite Hl. exact Hk. Qed.

Lemma keeps_guarded {A} expected (call : async A) k :
  keeps call -> (forall a, keeps (k a)) -> keeps (guarded key expected call k).
Proof. intros Hc Hk. unfold guarded. keeps. Qed.

Lemma dispatches_guarded {A} l expected (call : async A) k :
  dispatches l call -> (forall a, keeps (k a)) -> dispatches l (guarded key expected call k).
Proof. intros Hc Hk. unfold guarded. apply dispatches_bind; [done|]. keeps. Qed.

(** *** The clients of the handler *)

#[local] Hint Resolve keeps_await keeps_with_state_mut keeps_modify keeps_quietly : keeps.

Lemma limiter_frame h l : frame h (h <| limiter := l |>).
Proof. constructor; cbn; auto. Qed.

Lemma keeps_visit ticket charge : keeps (visit_ticket ticket charge).
Proof.
  unfold visit_ticket, now_secs. apply keeps_bind; [keeps|]. intros n. apply keeps_bind; [|intros ok; destruct ok; keeps].
  apply keeps_with_state_mut. intros h. destruct (visit _ _ _ _). apply limiter_frame.
Qed.

Lemma keeps_ticket_call {A} ticket (call : async A) : keeps call -> keeps (ticket_call ticket call).
Proof.
  intros Hc. unfold ticket_call, check. apply keeps_bind; [apply keeps_visit|]. intros r. destruct r; [|keeps].
  apply keeps_bind; [done|]. intros a. apply keeps_bind; [apply keeps_visit|keeps].
Qed.

Lemma keeps_update_progress expected update :
  journal_update key expected update [] -> keeps (update_progress key expected update).
Proof.
  intros Hu. apply keeps_quietly. intros h Hok.
  destruct (update_progress_path key expected update [] h Hok (journal_update_advance _ _ _ _ Hu)) as (r & h' & E & Hr).
  exists r, h'. split; [done|]. pose proof (code_update _ _ _ _ _ _ _ Hu E) as Hs. by destruct r.
Qed.

Lemma keeps_manual_recovery expected m : keeps (manual_recovery key expected m).
Proof.
  apply keeps_quietly. intros h Hok. destruct (manual_recovery_path key expected m h Hok) as (r & h' & E & _).
  exists r, h'. split; [done|]. by eapply code_recovery.
Qed.

Lemma keeps_note expected m : keeps (keep_finalization_in_progress key expected m).
Proof. unfold keep_finalization_in_progress. apply keeps_bind; [apply keeps_update_progress, upd_note|keeps]. Qed.

Lemma keeps_remove_owned expected ticket : expected = Reserved \/ expected = ProbingTargets ->
  keeps (remove_owned_reservation key expected ticket).
Proof.
  intros He. apply keeps_quietly. intros h Hok.
  destruct (owns_slot _ _ _); [|exists tt, h; split; [done|apply code_frame, frame_refl]].
  destruct (remove_reservation_path key expected h Hok) as (h' & E & _); [by destruct He as [-> | ->]|].
  exists tt, h'. split; [done|]. by eapply code_release.
Qed.

Lemma keeps_reject : keeps (remove_reservation key CmcTransferPrepared).
Proof.
  apply keeps_atomically. intros h Hok. destruct (reject_path key h Hok) as (_ & h' & E & _).
  eexists _, tt, h'. split; [done|]. split; [apply code_path_one; by eapply code_reject|].
  destruct (require_phase _ _ _); (split; [done|by repeat constructor]).
Qed.

Lemma keeps_reserve : keeps (atomically (reserve_now key)).
Proof.
  apply keeps_quietly. intros h Hok. destruct (reserve_path key h Hok) as (r & h' & E & _).
  exists r, h'. split; [done|]. by eapply code_reserve.
Qed.

Lemma keeps_activate expected setup relay : expected = RelayFunded \/ expected = FinalizationAttempted ->
  keeps (activate_relay_setup key expected setup relay).
Proof.
  intros He. unfold activate_relay_setup, now_secs. apply keeps_bind; [keeps|]. intros n. apply keeps_quietly. intros h Hok.
  destruct (activate_path key expected setup relay n h Hok) as (r & h' & E & _); [by destruct He as [-> | ->]|].
  exists r, h'. split; [done|]. by eapply code_activate.
Qed.

Lemma ends_left {A} (x y : A) : x = x \/ x = y. Proof. by left. Qed.
Lemma ends_right {A} (x y : A) : y = x \/ y = y. Proof. by right. Qed.
#[local] Hint Resolve ends_left ends_right : keeps.

#[local] Hint Resolve keeps_visit keeps_ticket_call keeps_manual_recovery keeps_note keeps_remove_owned keeps_reject
  keeps_reserve keeps_activate keeps_guarded : keeps.

(** *** Finalization *)

Lemma keeps_same_relay expected relay progress : keeps (same_relay key expected relay progress).
Proof. unfold same_relay. keeps. Qed.
#[local] Hint Resolve keeps_same_relay : keeps.

Lemma keeps_finish_finalization setup historian relay hash ticket error :
  keeps (finish_finalization key setup historian relay hash ticket error).
Proof using Hrely. unfold finish_finalization, canister_status. keeps. Qed.
#[local] Hint Resolve keeps_finish_finalization : keeps.

Lemma keeps_attempt_finalization setup historian relay hash ticket initial : initial = RelayFunded \/ initial = FinalizationAttempted ->
  keeps (attempt_finalization key setup historian relay hash ticket initial).
Proof using Hrely.
  intros Hi. unfold attempt_finalization, update_settings. apply keeps_bind; [|keeps].
  destruct (decide _); apply keeps_update_progress; [apply upd_attempted|apply upd_note].
Qed.

Lemma keeps_drive_finalization setup historian ticket : keeps (drive_relay_finalization key setup historian ticket).
Proof using Hrely.
  unfold drive_relay_finalization, canister_status. apply keeps_bind; [keeps|]. intros entry.
  destruct entry as [[initial|relay|progress]|]; [|keeps..]. destruct (negb _) eqn:En; [keeps|].
  assert (phase initial = RelayFunded \/ phase initial = FinalizationAttempted) as Hf.
  { apply negb_false_iff, orb_true_iff in En. by destruct En as [?%bool_decide_eq_true|?%bool_decide_eq_true]; [left|right]. }
  pose proof keeps_attempt_finalization. keeps.
Qed.
#[local] Hint Resolve keeps_drive_finalization : keeps.

(** *** The paid creation *)

Lemma keeps_balance ledger a : keeps (r ← balance_of_e8s ledger a; mret (collapse r)).
Proof using Hrely. unfold balance_of_e8s, balance_of. keeps. Qed.
Lemma keeps_fee ledger : keeps (r ← fee_e8s ledger; mret (collapse r)).
Proof using Hrely. unfold fee_e8s, ledger_fee. keeps. Qed.
#[local] Hint Resolve keeps_balance keeps_fee : keeps.

Lemma dispatches_transfer l ledger arg :
  (forall h, event_label key (Dispatch (IcrcTransfer ledger arg) h) = Some l) ->
  dispatches l (r ← transfer ledger arg; mret (collapse r)).
Proof using Hrely.
  intros Hl. apply dispatches_bind; [|keeps]. unfold transfer. apply dispatches_bind; [by apply dispatches_await|keeps].
Qed.

Lemma keeps_send_funding setup config historian relay ticket amount fee :
  keeps (send_relay_funding key setup config historian relay ticket amount fee).
Proof using Hrely.
  unfold send_relay_funding. apply keeps_bind; [keeps|]. intros created_at.
  apply keeps_updating_value with (l := LFund key (MkTransferRecord amount fee created_at None)); [done| |].
  { by apply upd_fund. }
  apply dispatches_guarded; [by apply dispatches_transfer|]. intros result. destruct (accepted_transfer result) as [block|[er|er]];
    [|keeps..]. apply keeps_updating_quiet; [apply upd_funded|keeps].
Qed.
#[local] Hint Resolve keeps_send_funding : keeps.

Lemma keeps_fund_relay setup config historian relay ticket : keeps (fund_relay key setup config historian relay ticket).
Proof using Hrely.
  unfold fund_relay. apply keeps_guarded; [apply keeps_balance|].
  intros b. destruct b as [b|er]; [|keeps]. apply keeps_guarded; keeps.
Qed.

Lemma keeps_installed setup config historian relay ticket : keeps (installed key setup config historian relay ticket).
Proof using Hrely. unfold installed. apply keeps_updating_quiet; [apply upd_installed|apply keeps_fund_relay]. Qed.
#[local] Hint Resolve keeps_installed : keeps.

Context (Hwasm : approved_self_service_relay_wasm <> None).

Lemma keeps_install_relay setup config historian relay ticket : keeps (install_relay key setup config historian relay ticket).
Proof using Hrely Hwasm.
  unfold install_relay, approved_relay_onchain_module_hash, install_code, canister_status.
  destruct approved_self_service_relay_wasm as [wasm|]; [|done]. cbn [fmap option_fmap option_map].
  apply keeps_guarded; [keeps|]. intros result. destruct (show_management result); [keeps|]. apply keeps_guarded; keeps.
Qed.
#[local] Hint Resolve keeps_install_relay : keeps.

Lemma keeps_create_relay setup config historian ticket : keeps (create_relay key setup config historian ticket).
Proof using Hrely Hwasm.
  unfold create_relay, now_secs. apply keeps_bind; [keeps|]. intros ts.
  apply keeps_updating_value with (l := LCreate key); [done|apply upd_create|].
  apply dispatches_guarded; [by apply dispatches_await|]. intros result. destruct (show_management result); [|keeps].
  apply keeps_updating_quiet; [apply upd_child|keeps].
Qed.
#[local] Hint Resolve keeps_create_relay : keeps.

Lemma keeps_continue_notified setup config historian ticket : keeps (continue_notified key setup config historian ticket).
Proof using Hrely Hwasm. unfold continue_notified. keeps. Qed.
#[local] Hint Resolve keeps_continue_notified : keeps.

Lemma keeps_notify_cmc setup config cmc historian ticket : keeps (notify_cmc key setup config cmc historian ticket).
Proof using Hrely Hwasm.
  unfold notify_cmc, notification_pending, notify_top_up. apply keeps_bind; [keeps|]. intros phase_ok.
  destruct phase_ok as [progress|]; [|keeps]. destruct (_ ≫= _) as [block|]; [|keeps].
  apply keeps_guarded; [keeps|]. intros minted. destruct minted as [n|er].
  - apply keeps_updating_quiet; [apply upd_minted|]. destruct (_ <? _); [keeps|].
    apply keeps_updating_quiet; [apply upd_notified|keeps].
  - destruct (retryable_notification er); [|keeps]. apply keeps_bind; [apply keeps_update_progress, upd_note|keeps].
Qed.
#[local] Hint Resolve keeps_notify_cmc : keeps.

Lemma keeps_paid_creation setup config cmc historian ticket : keeps (continue_paid_creation key setup config cmc historian ticket).
Proof using Hrely Hwasm. unfold continue_paid_creation. keeps. Qed.
#[local] Hint Resolve keeps_paid_creation : keeps.

(** *** The checks and the purchase of the cycles *)

Lemma keeps_validate_recipients recipients ticket : keeps (validate_neuron_recipients key recipients ticket).
Proof using Hrely.
  induction recipients as [|[p m|n m] recipients IH]; cbn [validate_neuron_recipients]; [keeps|done|].
  apply keeps_bind; [|keeps]. apply keeps_ticket_call. unfold neuron_staking_subaccount. keeps.
Qed.

Context (root : option Principal) (sns_wasm self_id : Principal) (self_balance : Z).
Abbreviation client := (IcCyclesProbeClient (St:=Heap) root sns_wasm self_id self_balance).

#[local] Instance ic_quiet : QuietProbe e inv client.
Proof using Hrely. constructor; cbn; keeps. Qed.

#[local] Instance admission_quiet C ticket : QuietProbe e inv C -> QuietProbe e inv (admission_probe C ticket).
Proof.
  intros [Hs Hd Hb Hn Hl Hc Hm Hr Hw]. constructor; cbn; unfold check; keeps.
Qed.

Lemma set_probe_route_frame target route h : frame h (set_probe_route target route h).
Proof.
  constructor; [done|by left|]. unfold set_probe_route, with_root_state_mut, with_state_mut_sections_scoped. cbn.
  by destruct (persistence_batch_active (mem h)).
Qed.

Lemma keeps_probe_targets targets ticket : keeps (probe_targets (C:=client) key targets ticket).
Proof using Hrely.
  induction targets as [|target targets IH]; cbn [probe_targets]; [keeps|]. unfold check.
  apply keeps_bind; [keeps|]. intros checked. destruct checked; [|keeps]. apply keeps_bind; [keeps|]. intros route.
  apply keeps_bind; [apply keeps_probe, admission_quiet, ic_quiet|]. intros result. apply keeps_bind; [keeps|]. intros checked.
  destruct checked; [|keeps]. apply keeps_bind; [keeps|]. intros phase_ok. destruct phase_ok; [|keeps].
  destruct result; [|keeps]. apply keeps_bind; [|by intros]. apply keeps_modify, set_probe_route_frame.
Qed.

Lemma keeps_pay_cmc setup config cmc historian ticket conversion fee : cmc_canister_id config <> None ->
  keeps (pay_cmc key setup config cmc historian ticket conversion fee).
Proof using Hrely Hwasm.
  intros Hcmc. unfold pay_cmc, check. apply keeps_bind; [keeps|]. intros created_at. apply keeps_bind; [keeps|].
  intros checked. destruct checked; [|keeps].
  apply keeps_updating_value with (l := LPay key (MkTransferRecord conversion fee created_at None)); [done| |].
  { by apply upd_pay. }
  destruct (cmc_canister_id config) as [cmc_id|]; [|done].
  apply dispatches_guarded; [by apply dispatches_transfer|]. intros result.
  pose proof keeps_reject. destruct (accepted_transfer result) as [block|[er|er]]; [|keeps..].
  apply keeps_updating_quiet; [apply upd_accepted|keeps].
Qed.

Lemma keeps_create_reserved setup config cmc historian ticket fee rate : cmc_canister_id config <> None ->
  keeps (create_reserved (C:=client) key setup config cmc historian ticket fee rate).
Proof using Hrely Hwasm.
  intros Hcmc. unfold create_reserved. apply keeps_bind; [apply keeps_reserve|]. intros reserved. destruct reserved; [|keeps].
  apply keeps_bind; [apply keeps_validate_recipients|]. intros validated. destruct validated; [|keeps].
  apply keeps_updating_quiet; [apply upd_probe|].
  apply keeps_bind; [apply keeps_probe_targets|]. intros probed. destruct probed; [|keeps].
  destruct (cmc_conversion_e8s config rate); [by apply keeps_pay_cmc|keeps].
Qed.

Lemma keeps_admitted {A} ticket (call : async (result A ClientError)) context k :
  keeps call -> (forall a, keeps (k a)) -> keeps (admitted ticket call context k).
Proof. intros Hc Hk. unfold admitted. apply keeps_bind; [apply keeps_ticket_call|]; keeps. Qed.

Lemma keeps_new_setup setup config cmc historian ticket : cmc_canister_id config <> None ->
  keeps (new_setup (C:=client) key setup config cmc historian ticket).
Proof using Hrely Hwasm.
  intros Hcmc. unfold new_setup, balance_of_e8s, balance_of. apply keeps_admitted; [keeps|]. intros balance.
  destruct (nominal_minimum_e8s _ _); [|keeps]. destruct (_ <? _); [keeps|].
  apply keeps_admitted; [unfold fee_e8s, ledger_fee; keeps|]. intros fee.
  apply keeps_admitted; [unfold get_icp_xdr_conversion_rate; keeps|]. intros rate.
  destruct (current_requirement_e8s _ _ _ _); [|keeps]. destruct (_ <? _); [keeps|]. by apply keeps_create_reserved.
Qed.

(** *** Admission and the handler *)

Lemma guard_acquire_total k lane now_secs l : next_token l < u64_max ->
  exists r, guard_acquire k lane now_secs l = Some r.
Proof.
  intros Hl. unfold guard_acquire. set (l1 := l <| slots ::= _ |>). destruct (_ || _); [by eauto|].
  destruct (_ <? _); [by eauto|]. match goal with |- context [if ?b then Some (None, ?x) else _] => destruct b end; [by eauto|].
  unfold checked_add. rewrite (proj2 (Z.leb_le _ _)); [by eauto|]. destruct lane; cbn; lia.
Qed.

Lemma wp_with_guard lane body w : inv w -> next_token (limiter (w_state w)) < u64_max ->
  (forall ticket, keeps (body ticket)) -> wp e (with_guard key lane body) (fun _ w' => inv w') w.
Proof.
  destruct w as [h t]. intros Hw Hl Hb. unfold with_guard, now_secs. apply wp_bind, wp_bind, wp_now, wp_ret, wp_bind.
  cbn [w_state w_trace] in *. unfold wp at 1, atomically. cbn [w_state w_trace].
  edestruct guard_acquire_total as ([ticket l] & ->); [exact Hl|]. cbn [mbind option_bind].
  assert (inv (World (h <| limiter := l |>) t)) as Hw' by (apply (refines_frame _ _ _ _ _ Hw), limiter_frame).
  destruct ticket as [ticket|]; [|by apply wp_ret]. apply keeps_bind; [apply Hb| |done]. intros r.
  apply keeps_bind; [|keeps]. apply keeps_modify. intros h1. constructor; cbn; auto.
Qed.

Lemma wp_resume setup config cmc historian entry w : inv w -> next_token (limiter (w_state w)) < u64_max ->
  wp e (resume_entry key setup config cmc historian entry) (fun _ w' => inv w') w.
Proof using Hrely Hwasm.
  intros Hw Hl. unfold resume_entry. destruct entry as [p|r|p]; [|by apply wp_ret..].
  destruct (phase p); try (by apply wp_ret); apply wp_with_guard; auto with keeps.
Qed.

Lemma wp_start setup config cmc historian w : inv w -> next_token (limiter (w_state w)) < u64_max ->
  wp e (start_setup (C:=client) key setup config cmc historian) (fun _ w' => inv w') w.
Proof using Hrely Hwasm.
  intros Hw Hl. unfold start_setup. destruct (reject_reserved_canonical_target_set _ _) as [[]|]; [|by apply wp_ret].
  destruct (validate_new_target_eligibility _ _ _) as [[]|]; [|by apply wp_ret]. destruct (factory_blocked_reason config) eqn:Eb; [by apply wp_ret|].
  assert (cmc_canister_id config <> None) as Hcmc.
  { unfold factory_blocked_reason in Eb. by destruct (negb _), (cmc_canister_id config). }
  destruct w as [h t]. cbn [w_state] in *. apply wp_bind. unfold wp at 1, atomically. cbn [w_state w_trace].
  destruct (creating_keys_ok h (refines_ok _ _ _ _ Hw)) as (h1 & -> & Hf & _ & El). cbn [mbind option_bind].
  assert (inv (World h1 t)) as Hw' by (by apply (refines_frame _ _ _ _ _ Hw)).
  destruct (_ <=? _)%nat; [by apply wp_ret|]. apply wp_with_guard; [done|cbn; by rewrite El|]. intros ticket. by apply keeps_new_setup.
Qed.

End runs.

(** The key of a request; a request that is not canonical has none. *)
Definition request_key `{P : PrincipalSpec} `{T : TextSpec} `{F : !FactorySpec}
    (targets : list Principal) (recipients : list RelaySurplusRecipient) : RelaySetupKey :=
  match canonicalize targets recipients with Ok setup => setup_key setup | Err _ => [] end.

Lemma wp_notify `{P : PrincipalSpec} `{O : !OrdSpec Principal} `{SS : !SliceSpec} `{T : TextSpec} `{Ids : !ProbeIds}
    `{F : !FactorySpec} `{H : HashSpec} (e : env Heap SuiteCall)
    (Hrely : forall n h, journal_ok h -> exists l, code_path h l (env_interleave e n h))
    (Hwasm : approved_self_service_relay_wasm <> None)
    (root : option Principal) (sns_wasm self_id : Principal) (self_balance : Z)
    (targets : list Principal) (recipients : list RelaySurplusRecipient) (historian : Principal) (w : world Heap SuiteCall) :
  journal_ok (w_state w) -> next_token (limiter (w_state w)) < u64_max ->
  wp e (notify_relay_configuration (C:=IcCyclesProbeClient root sns_wasm self_id self_balance) targets recipients historian)
    (fun _ w' => refines (request_key targets recipients) [] w w') w.
Proof.
  intros Hok Hl. unfold notify_relay_configuration, request_key. apply wp_bind, wp_with_state. cbn zeta.
  destruct (canonicalize targets recipients) as [setup|message]; [|by apply wp_ret, factory_refines_refl].
  unfold now_secs. apply wp_bind, wp_bind, wp_now, wp_ret, wp_bind. destruct w as [h t]. cbn [w_state w_trace] in *.
  unfold wp at 1, atomically. cbn [w_state w_trace].
  destruct (reclaim_path (env_clock e (length t) / 1000000000) h Hok) as (h1 & Er & _ & El). rewrite Er.
  assert (refines (setup_key setup) [] (World h t) (World h1 t)) as Hw.
  { apply (refines_own _ _ _ _ _ [] (factory_refines_refl _ (World h t) Hok)); [|constructor..].
    apply code_path_one. by eapply code_reclaim. }
  apply wp_bind, wp_with_state. cbn [w_state]. destruct (get_entry _ h1) as [entry|].
  - apply wp_resume; [done|done|done|cbn; by rewrite El].
  - apply wp_start; [done|done|done|cbn; by rewrite El].
Qed.

Lemma filter_sublist' {A} (f : A -> bool) (l : list A) : List.filter f l `sublist_of` l.
Proof. induction l as [|x l IH]; cbn; [done|]. destruct (f x); by constructor. Qed.

Lemma count_sublist `{P : PrincipalSpec} f (l1 l2 : list label) : l1 `sublist_of` l2 -> (count f l1 <= count f l2)%nat.
Proof. unfold count. induction 1; cbn; [done|..]; destruct (f x); cbn; lia. Qed.

Lemma labels_of_sublist `{P : PrincipalSpec} key (l1 l2 : list label) :
  l1 `sublist_of` l2 -> labels_of key l1 `sublist_of` labels_of key l2.
Proof.
  unfold labels_of. induction 1 as [|x l1 l2 _ IH|x l1 l2 _ IH]; [done|..]; rewrite !filter_cons; case_decide; try done; by constructor.
Qed.

(** A setup of one target, from the first request to the active relay. *)
Module ConcreteRun.
Import Concrete ConcreteTexts ConcreteHash ConcreteKeys ConcreteFactory.
Definition observed_status (controllers : list principal) : CanisterStatusResult :=
  MkCanisterStatus _ Running 5000 (Some [3]) controllers LogPublic LogPublic.
(** The relay is 77; it has the historian 10 as its controller until the settings update. *)
Definition reply (n : nat) (X : Type) (c : SuiteCall (H:=concrete_principal) X) : X :=
  match c in SuiteCall X return X with
  | NotifyTopUp _ _ _ => Ok (Ok 3000000000000)
  | CreateCanister _ _ => Ok (77 : principal)
  | CanisterStatus p => if p =? 77 then Ok (observed_status (if (n <? 13)%nat then [10 : principal] else [])) else Ok (observed_status [])
  | c => reply_ok 330000000 10000 c
  end.
Definition run_env : env heap (SuiteCall (H:=concrete_principal)) := {|
  env_reply := reply;
  env_interleave := fun _ h => h;
  env_clock := fun _ => 100000000000;
|}.
Definition run_world : world heap (SuiteCall (H:=concrete_principal)) := World heap0 [].
Definition targets : list principal := [9 : principal].
Definition recipients : list (RelaySurplusRecipient (P:=concrete_principal)) := [PrincipalRecipient (12 : principal) [1]].
Definition request : async heap (SuiteCall (H:=concrete_principal)) RelaySetupNotifyResult :=
  notify_relay_configuration (C:=IcCyclesProbeClient None (5 : principal) (10 : principal) 1000) targets recipients (10 : principal).
End ConcreteRun.

(** C9: A request returns, whatever the replies and however the other messages of the
    canister interleave their journal operations with it: what it does to the journal is
    the operations of its own key; each call that moves value is dispatched from a heap
    whose entry of that key already records it (the phase, and for a transfer the amount,
    fee and time of the call), and debits that key's subaccount; every update that
    prepares a call is followed by the call; and the request creates and funds at most one
    relay. *)
Theorem factory_run_refines_journal `{P : PrincipalSpec} `{O : !OrdSpec Principal} `{SS : !SliceSpec} `{T : TextSpec}
    `{Ids : !ProbeIds} `{F : !FactorySpec} `{H : HashSpec} (e : env Heap SuiteCall)
    (Hrely : forall n h, journal_ok h -> exists l, code_path h l (env_interleave e n h))
    (Hwasm : approved_self_service_relay_wasm <> None)
    (root : option Principal) (sns_wasm self_id : Principal) (self_balance : Z)
    (targets : list Principal) (recipients : list RelaySurplusRecipient) (historian : Principal) (w : world Heap SuiteCall)
    (Hok : journal_ok (w_state w)) (Htokens : next_token (limiter (w_state w)) < u64_max) :
  let key := request_key targets recipients in
  exists r w' own all new,
    notify_relay_configuration (C:=IcCyclesProbeClient root sns_wasm self_id self_balance) targets recipients historian e w
      = (Returned r, w') /\
    journal_ok (w_state w') /\ code_path (w_state w) all (w_state w') /\ own `sublist_of` all /\ mine key own /\
    w_trace w' = new ++ w_trace w /\ call_labels key new = values own /\ Forall (written_ahead key) new /\
    (count is_create (call_labels key new) <= 1)%nat /\ (count is_fund (call_labels key new) <= 1)%nat.
Proof.
  intros key. pose proof (wp_notify e Hrely Hwasm root sns_wasm self_id self_balance targets recipients historian w Hok Htokens) as Hwp.
  destruct (wp_returns _ _ _ _ Hwp) as (r & w' & Hrun & [Hok' _ (own & all & new & Hp & Hs & Ht & Hv & Hm & Ha)]).
  fold key in Hv, Hm. rewrite app_nil_r in Hv. exists r, w', own, all, new. split; [done|]. split; [done|]. split; [done|]. split; [done|].
  split; [done|]. split; [done|]. split; [done|]. split; [done|]. rewrite <- Hv.
  pose proof (stages_count _ _ _ (path_stages key _ _ _ (code_path_path _ _ _ Hp Hok) Hok)) as (_ & Hc & Hf).
  assert (forall f, (count f (values own) <= count f (labels_of key all))%nat) as Hle.
  { intros f. apply count_sublist. trans own; [apply filter_sublist'|].
    rewrite <- (labels_same key own Hm). by apply labels_of_sublist. }
  pose proof (Hle is_create). pose proof (Hle is_fund).
  destruct (spending_of (get_entry key (w_state w'))); cbn [done_by fst snd] in *; lia.
Qed.

Module ConcreteFactoryRun.
Import Concrete ConcreteTexts ConcreteHash ConcreteKeys ConcreteFactory ConcreteRun.
Lemma factory_run_refines_journal_witness :
  (ConcreteRun.request ConcreteRun.run_env ConcreteRun.run_world).1 = Returned (NotifyActive (77 : ConcreteFactory.principal)) /\
  length (call_labels (request_key (P:=Concrete.concrete_principal) (F:=ConcreteFactory.factory_spec)
      ConcreteRun.targets ConcreteRun.recipients)
    (w_trace (ConcreteRun.request ConcreteRun.run_env ConcreteRun.run_world).2)) = 3%nat /\
  exists r w', ConcreteRun.request ConcreteRun.run_env ConcreteRun.run_world = (Returned r, w') /\ journal_ok (w_state w').
Proof.
  split; [vm_compute; reflexivity|]. split; [vm_compute; reflexivity|].
  destruct (factory_run_refines_journal (P:=Concrete.concrete_principal) (F:=ConcreteFactory.factory_spec) ConcreteRun.run_env
    (fun n h _ => ex_intro _ [] (code_nil h)) ltac:(vm_compute; discriminate) None 5 10 1000
    ConcreteRun.targets ConcreteRun.recipients 10 ConcreteRun.run_world ConcreteFactory.heap0_ok ltac:(reflexivity))
    as (r & w' & _ & _ & _ & Hrun & Hok & _).
  exists r, w'. split; [exact Hrun|exact Hok].
Defined.

End ConcreteFactoryRun.
