(* ===== verification/HistorianLifecycle.v ===== *)
(** * Historian: configuration, normalization and lifecycle

    [normalization.rs], the arguments of [api.rs] and the entry points of [lifecycle.rs]:
    how a configuration is made and checked, how a restored state is normalized, [init] and
    [post_upgrade].  [None] stands for a panic, which aborts the installation. *)

From stdpp Require Import sorting.
From S2P Require Import Prelude BTree Async Ic Accounts Clients MemoPolicy CyclesProbe HistorianTypes HistorianKeys HistorianState HistorianDurable HistorianTracking HistorianCommitments RelaySetup RelayFactory.

Definition MAX_PUBLIC_QUERY_LIMIT : Z := 100.
Definition MAX_COMMITMENT_ENTRIES_PER_CANISTER_HARD_CAP : Z := 250.
Definition MAX_CYCLES_ENTRIES_PER_CANISTER_HARD_CAP : Z := 250.
Definition MAX_INDEX_PAGES_PER_TICK_HARD_CAP : Z := 100.
Definition MAX_CANISTERS_PER_CYCLES_TICK_HARD_CAP : Z := 500.
Definition MIN_MIN_TX_E8S : Z := 10000000.

Definition clamp (low high value : Z) : Z := Z.max low (Z.min high value).
Definition clamp_public_limit (limit : option Z) (default_ : Z) : nat := Z.to_nat (clamp 1 MAX_PUBLIC_QUERY_LIMIT (default default_ limit)).
Definition clamp_cycles_entries_per_canister : Z -> Z := clamp 1 MAX_CYCLES_ENTRIES_PER_CANISTER_HARD_CAP.
Definition clamp_commitment_entries_per_canister : Z -> Z := clamp 1 MAX_COMMITMENT_ENTRIES_PER_CANISTER_HARD_CAP.
Definition clamp_index_pages_per_tick : Z -> Z := clamp 1 MAX_INDEX_PAGES_PER_TICK_HARD_CAP.
Definition clamp_canisters_per_cycles_tick : Z -> Z := clamp 1 MAX_CANISTERS_PER_CYCLES_TICK_HARD_CAP.

(** What the build binds: the environment's canisters and the reviewed hashes. *)
Class BuildSpec `{PrincipalSpec} := {
  mainnet_ledger_id : Principal;
  mainnet_index_id : Principal;
  mainnet_disburser_id : Principal;
  mainnet_rewards_id : Principal;
  mainnet_cmc_id : Principal;
  mainnet_faucet_id : Principal;
  mainnet_relay_id : Principal;
  mainnet_sns_wasm_id : Principal;
  mainnet_xrc_id : Principal;
  mainnet_canonical_relay_targets : list Principal;
  source_module_hash_canister_ids : list Principal;
  relay_raw_wasm_sha256 : option (list Z);
  relay_gz_wasm_sha256 : option (list Z);
}.

Section lifecycle.
Context `{P : PrincipalSpec} `{O : !OrdSpec Principal} `{SS : !SliceSpec} `{T : TextSpec} `{I : !ProbeIds} `{F : !FactorySpec} `{H : HashSpec}
  `{A : !AccountSpec} `{B : !BuildSpec}.
#[local] Existing Instance Principal_eq_dec.

(** ** The checks of a configuration *)

Definition ascii_hexdigit (b : Z) : bool := (48 <=? b) && (b <=? 57) || (65 <=? b) && (b <=? 70) || (97 <=? b) && (b <=? 102).
Definition ascii_lowercase (b : Z) : Z := if (65 <=? b) && (b <=? 90) then b + 32 else b.
(** The two hashes are approved alike, each from its own variable. *)
Definition approved_hash_hex (variable : option (list Z)) : option (list Z) :=
  hash ← variable;
  _ ← approved_self_service_relay_wasm;
  if (length hash =? 64)%nat && forallb ascii_hexdigit hash then Some (map ascii_lowercase hash) else None.
Definition approved_relay_raw_wasm_hash_hex : option (list Z) := approved_hash_hex relay_raw_wasm_sha256.
Definition approved_relay_install_payload_hash_hex : option (list Z) := approved_hash_hex relay_gz_wasm_sha256.

Definition assert_non_anonymous_principal (p : Principal) : bool := negb (bool_decide (p = anonymous)).
Definition assert_non_anonymous_account (a : Account) : bool := assert_non_anonymous_principal (owner a).
Definition non_anonymous_option (o : option Principal) : bool :=
  match o with Some p => assert_non_anonymous_principal p | None => true end.
Definition validate_config (cfg : Config) : bool :=
  assert_non_anonymous_account (staking_account cfg)
  && assert_non_anonymous_account (output_source_account cfg)
  && assert_non_anonymous_account (output_account cfg)
  && assert_non_anonymous_account (rewards_account cfg)
  && assert_non_anonymous_principal (ledger_canister_id cfg)
  && assert_non_anonymous_principal (index_canister_id cfg)
  && assert_non_anonymous_principal (sns_wasm_canister_id cfg)
  && assert_non_anonymous_principal (xrc_canister_id cfg)
  && non_anonymous_option (cmc_canister_id cfg)
  && non_anonymous_option (faucet_canister_id cfg)
  && match validate_canonical_relay_config cfg with Ok _ => true | Err _ => false end
  && negb (account_eqb (output_source_account cfg) (output_account cfg))
  && negb (account_eqb (output_source_account cfg) (rewards_account cfg))
  && negb (account_eqb (output_account cfg) (rewards_account cfg))
  && (0 <? scan_interval_seconds cfg)
  && (0 <? cycles_interval_seconds cfg)
  && (60 <=? self_service_relay_interval_seconds cfg)
  && (MIN_MIN_TX_E8S <=? min_tx_e8s cfg)
  && (negb (relay_factory_enabled cfg)
      || is_some approved_self_service_relay_wasm && is_some approved_relay_raw_wasm_hash_hex
         && is_some approved_relay_install_payload_hash_hex).

(** ** The arguments *)

Record InitArgs := MkInitArgs {
  i_staking_account : Account;
  i_output_source_account : option Account;
  i_output_account : option Account;
  i_rewards_account : option Account;
  i_ledger_canister_id : option Principal;
  i_index_canister_id : option Principal;
  i_cmc_canister_id : option Principal;
  i_faucet_canister_id : option Principal;
  i_sns_wasm_canister_id : option Principal;
  i_xrc_canister_id : option Principal;
  i_enable_sns_tracking : option bool;
  i_scan_interval_seconds : option Z;
  i_cycles_interval_seconds : option Z;
  i_min_tx_e8s : option Z;
  i_max_cycles_entries_per_canister : option Z;
  i_max_commitment_entries_per_canister : option Z;
  i_max_index_pages_per_tick : option Z;
  i_max_canisters_per_cycles_tick : option Z;
  i_relay_factory_enabled : option bool;
  i_relay_setup_min_e8s : option Z;
  i_relay_initial_cycles : option Z;
  i_relay_cycle_safety_margin_e8s : option Z;
  i_relay_min_subaccount_one_seed_e8s : option Z;
  i_self_service_relay_interval_seconds : option Z;
  i_canonical_relay_canister_id : option Principal;
  i_canonical_relay_targets : option (list Principal);
}.

Record UpgradeArgs := MkUpgradeArgs {
  u_staking_account : option Account;
  u_ledger_canister_id : option Principal;
  u_index_canister_id : option Principal;
  u_enable_sns_tracking : option bool;
  u_clear_commitment_index_fault : option bool;
  u_output_source_account : option Account;
  u_output_account : option Account;
  u_rewards_account : option Account;
  u_scan_interval_seconds : option Z;
  u_cycles_interval_seconds : option Z;
  u_min_tx_e8s : option Z;
  u_max_cycles_entries_per_canister : option Z;
  u_max_commitment_entries_per_canister : option Z;
  u_max_index_pages_per_tick : option Z;
  u_max_canisters_per_cycles_tick : option Z;
  u_sns_wasm_canister_id : option Principal;
  u_cmc_canister_id : option Principal;
  u_faucet_canister_id : option Principal;
  u_xrc_canister_id : option Principal;
  u_relay_factory_enabled : option bool;
  u_relay_setup_min_e8s : option Z;
  u_relay_initial_cycles : option Z;
  u_relay_cycle_safety_margin_e8s : option Z;
  u_relay_min_subaccount_one_seed_e8s : option Z;
  u_self_service_relay_interval_seconds : option Z;
  u_canonical_relay_canister_id : option (option Principal);
  u_canonical_relay_targets : option (list Principal);
}.

Definition mainnet_disburser_staging_account : Account := MkAccount _ mainnet_disburser_id None.
Definition mainnet_output_account : Account := MkAccount _ mainnet_faucet_id None.
Definition mainnet_rewards_account : Account := MkAccount _ mainnet_rewards_id None.

Definition config_of_init_args (args : InitArgs) : Config := {|
  staking_account := i_staking_account args;
  output_source_account := default mainnet_disburser_staging_account (i_output_source_account args);
  output_account := default mainnet_output_account (i_output_account args);
  rewards_account := default mainnet_rewards_account (i_rewards_account args);
  ledger_canister_id := default mainnet_ledger_id (i_ledger_canister_id args);
  index_canister_id := default mainnet_index_id (i_index_canister_id args);
  cmc_canister_id := Some (default mainnet_cmc_id (i_cmc_canister_id args));
  faucet_canister_id := Some (default mainnet_faucet_id (i_faucet_canister_id args));
  sns_wasm_canister_id := default mainnet_sns_wasm_id (i_sns_wasm_canister_id args);
  xrc_canister_id := default mainnet_xrc_id (i_xrc_canister_id args);
  enable_sns_tracking := default false (i_enable_sns_tracking args);
  scan_interval_seconds := default (10 * 60) (i_scan_interval_seconds args);
  cycles_interval_seconds := default (7 * 24 * 60 * 60) (i_cycles_interval_seconds args);
  min_tx_e8s := default 100000000 (i_min_tx_e8s args);
  max_cycles_entries_per_canister := clamp_cycles_entries_per_canister (default 100 (i_max_cycles_entries_per_canister args));
  max_commitment_entries_per_canister := clamp_commitment_entries_per_canister (default 100 (i_max_commitment_entries_per_canister args));
  max_index_pages_per_tick := clamp_index_pages_per_tick (default 10 (i_max_index_pages_per_tick args));
  max_canisters_per_cycles_tick := clamp_canisters_per_cycles_tick (default 25 (i_max_canisters_per_cycles_tick args));
  relay_factory_enabled := default (is_some approved_self_service_relay_wasm) (i_relay_factory_enabled args);
  relay_setup_min_e8s := default 300000000 (i_relay_setup_min_e8s args);
  relay_initial_cycles := default 2000000000000 (i_relay_initial_cycles args);
  relay_cycle_safety_margin_e8s := default 5000000 (i_relay_cycle_safety_margin_e8s args);
  relay_min_subaccount_one_seed_e8s := default 100020000 (i_relay_min_subaccount_one_seed_e8s args);
  self_service_relay_interval_seconds := Z.max (default 86400 (i_self_service_relay_interval_seconds args)) 60;
  canonical_relay_canister_id :=
    match i_canonical_relay_canister_id args with
    | Some relay => Some relay
    | None => match i_canonical_relay_targets args with Some [] => None | _ => Some mainnet_relay_id end
    end;
  canonical_relay_targets := default mainnet_canonical_relay_targets (i_canonical_relay_targets args);
|}.
Definition config_from_init_args (args : InitArgs) : option Config :=
  let cfg := config_of_init_args args in
  if validate_config cfg then Some cfg else None.

(** ** Normalization *)

Fixpoint retain_new {X} (id_of : X -> Z) (seen : list Z) (l : list X) : list X :=
  match l with
  | [] => []
  | x :: l => if bool_decide (id_of x ∈ seen) then retain_new id_of seen l else x :: retain_new id_of (id_of x :: seen) l
  end.
(** Newest first, each transaction once, and no more than [max_entries]. *)
Definition normalize_recent {X} (id_of : X -> Z) (timestamp_of : X -> option Z) (max_entries : nat) (items : list X) : list X :=
  take max_entries (retain_new id_of [] (merge_sort (newer_first id_of timestamp_of) items)).
Definition normalize_recent_commitment_bucket (counts_toward_faucet : bool) (max_entries : nat) (items : list RecentCommitment) :
    list RecentCommitment :=
  normalize_recent rc_tx_id rc_timestamp_nanos max_entries
    (List.filter (fun item => Bool.eqb (rc_counts_toward_faucet item) counts_toward_faucet) items).
Definition normalize_recent_invalid_commitments (items : list InvalidCommitment) : list InvalidCommitment :=
  normalize_recent invalid_tx_id invalid_timestamp_nanos MAX_RECENT_INVALID_COMMITMENTS items.

Definition clamp_config (s : State) : State := s <| config ::= fun c =>
  c <| max_cycles_entries_per_canister ::= clamp_cycles_entries_per_canister |>
    <| max_commitment_entries_per_canister ::= clamp_commitment_entries_per_canister |>
    <| max_index_pages_per_tick ::= clamp_index_pages_per_tick |>
    <| max_canisters_per_cycles_tick ::= clamp_canisters_per_cycles_tick |> |>.

(** The counted samples by id, without the oldest beyond [max_entries]. *)
Definition normalize_history (max_entries : Z) (history : list CommitmentSample) : list CommitmentSample :=
  let history := merge_sort tx_id_le (List.filter sample_counts_toward_faucet history) in
  drop (length history - Z.to_nat max_entries) history.
Definition is_nil {X} (l : list X) : bool := match l with [] => true | _ => false end.
Definition normalize_histories {K} (max_entries : Z) (m : btree_map K (list CommitmentSample)) : btree_map K (list CommitmentSample) :=
  map (fun e => (e.1, normalize_history max_entries e.2)) m.
Definition without_empty {K} (m : btree_map K (list CommitmentSample)) : btree_map K (list CommitmentSample) :=
  List.filter (fun e => negb (is_nil e.2)) m.
(** The keys of the empty histories are collected and removed one by one. *)
Definition remove_empty {K} `{EqDecision K} (m : btree_map K (list CommitmentSample)) : btree_map K (list CommitmentSample) :=
  fold_left (fun m k => btree_remove k m) (map fst (List.filter (fun e => is_nil e.2) m)) m.
Definition normalize_commitment_histories (s : State) : State :=
  let max_entries := max_commitment_entries_per_canister (config s) in
  s <| commitment_history ::= fun m => remove_empty (normalize_histories max_entries m) |>
    <| raw_icp_commitment_history ::= fun m => without_empty (normalize_histories max_entries m) |>
    <| neuron_commitment_history ::= fun m => without_empty (normalize_histories max_entries m) |>.

Definition stale_memo_only_canisters (g : Storage) (s : State) : list Principal :=
  omap (fun e => if set_contains MemoCommitment e.2 && negb (memo_source_is_registered g s e.1 e.2) then Some e.1 else None)
    (canister_tracking_reasons s).
Definition forget_stale_memo (p : Principal) (s : State) : State :=
  match btree_get p (canister_tracking_reasons s) with
  | None => s
  | Some sources =>
      match set_remove MemoCommitment sources with
      | [] => s <| canister_tracking_reasons ::= btree_remove p |> <| cycles_history ::= btree_remove p |> <| per_canister_meta ::= btree_remove p |>
      | sources => s <| canister_tracking_reasons ::= btree_insert p sources |>
      end
  end.
Definition drop_stale_memo_reasons (g : Storage) (s : State) : State :=
  fold_left (fun s p => forget_stale_memo p s) (stale_memo_only_canisters g s) s.

Definition commitment_history_canister_ids (g : Storage) (s : State) : btree_set Principal :=
  set_of_list (btree_keys (commitment_history s) ++ stable_keys (stable_commitments g)).
Definition cycles_history_canister_ids (g : Storage) (s : State) : btree_set Principal :=
  set_of_list (btree_keys (cycles_history s) ++ stable_keys (stable_cycles g)).
Definition history_last_ts (g : Storage) (s : State) (p : Principal) : option Z :=
  if set_contains p (commitment_history_canister_ids g s) then
    fold_left (fun m ts => max_opt m (Some (ts / 1000000000))) (omap sample_timestamp_nanos (commitment_history_snapshot g s p)) None
  else None.
Definition raise_last_commitment_ts (g : Storage) (s : State) : State :=
  s <| per_canister_meta ::= map (fun e =>
    (e.1, match history_last_ts g s e.1 with
          | None => e.2
          | Some ts => e.2 <| last_commitment_ts ::= fun existing => Some (match existing with Some t => Z.max t ts | None => ts end) |>
          end)) |>.

Definition normalize_runtime_state (g : Storage) (s : State) : option State :=
  let s := clamp_config s in
  _ ← qualifying_commitment_count s;
  _ ← total_output_e8s s;
  _ ← total_rewards_e8s s;
  recent ← recent_commitments s;
  recent_under_threshold ← recent_under_threshold_commitments s;
  let s := drop_stale_memo_reasons g (normalize_commitment_histories s) in
  let s := s <| recent_commitments := Some (normalize_recent_commitment_bucket true MAX_RECENT_QUALIFYING_COMMITMENTS recent) |>
    <| recent_under_threshold_commitments :=
         Some (normalize_recent_commitment_bucket false MAX_RECENT_UNDER_THRESHOLD_COMMITMENTS recent_under_threshold) |> in
  recent_invalid ← recent_invalid_commitments s;
  let s := raise_last_commitment_ts g (s <| recent_invalid_commitments := Some (normalize_recent_invalid_commitments recent_invalid) |>) in
  let s := s <| distinct_canisters := set_of_list (btree_keys (canister_tracking_reasons s)
    ++ commitment_history_canister_ids g s ++ cycles_history_canister_ids g s) |> in
  Some (rebuild_memo_registered_canister_summaries_cache g s).

(** ** Upgrade arguments *)

Definition positive (o : option Z) : bool := 0 <? default 0 o.
Definition accounting_started (s : State) : bool :=
  positive (last_index_run_ts s)
  || is_some (last_indexed_staking_tx_id s) || is_some (oldest_indexed_staking_tx_id s)
  || is_some (last_indexed_output_tx_id s) || is_some (oldest_indexed_output_tx_id s)
  || is_some (last_indexed_rewards_tx_id s) || is_some (oldest_indexed_rewards_tx_id s)
  || is_some (active_staking_catch_up s) || is_some (active_output_catch_up s) || is_some (active_rewards_catch_up s)
  || positive (qualifying_commitment_count s) || positive (total_output_e8s s) || positive (total_rewards_e8s s)
  || (0 <? commitment_index_revision s)
  || negb (is_nil (commitment_history s)) || negb (is_nil (raw_icp_commitment_history s)) || negb (is_nil (neuron_commitment_history s)).
Definition same_account (left right : Account) : bool :=
  bool_decide (owner left = owner right)
  && bool_decide (default (replicate 32 0) (subaccount left) = default (replicate 32 0) (subaccount right)).
Definition is_none_or {X} (o : option X) (f : X -> bool) : bool := match o with Some x => f x | None => true end.
Definition same_accounting_identity (args : UpgradeArgs) (cfg : Config) : bool :=
  is_none_or (u_staking_account args) (fun v => same_account v (staking_account cfg))
  && is_none_or (u_output_source_account args) (fun v => same_account v (output_source_account cfg))
  && is_none_or (u_output_account args) (fun v => same_account v (output_account cfg))
  && is_none_or (u_rewards_account args) (fun v => same_account v (rewards_account cfg))
  && is_none_or (u_ledger_canister_id args) (fun v => bool_decide (v = ledger_canister_id cfg))
  && is_none_or (u_index_canister_id args) (fun v => bool_decide (v = index_canister_id cfg))
  && is_none_or (u_min_tx_e8s args) (fun v => v =? min_tx_e8s cfg).
Definition same_paid_creation (args : UpgradeArgs) (cfg : Config) : bool :=
  is_none_or (u_ledger_canister_id args) (fun v => bool_decide (v = ledger_canister_id cfg))
  && is_none_or (u_cmc_canister_id args) (fun v => bool_decide (Some v = cmc_canister_id cfg))
  && is_none_or (u_faucet_canister_id args) (fun v => bool_decide (Some v = faucet_canister_id cfg))
  && is_none_or (u_relay_initial_cycles args) (fun v => v =? relay_initial_cycles cfg)
  && is_none_or (u_relay_cycle_safety_margin_e8s args) (fun v => v =? relay_cycle_safety_margin_e8s cfg)
  && is_none_or (u_relay_min_subaccount_one_seed_e8s args) (fun v => v =? relay_min_subaccount_one_seed_e8s cfg)
  && is_none_or (u_self_service_relay_interval_seconds args) (fun v => Z.max v 60 =? self_service_relay_interval_seconds cfg).

Definition upgraded_config (args : UpgradeArgs) (c : Config) : Config := {|
  staking_account := default (staking_account c) (u_staking_account args);
  output_source_account := default (output_source_account c) (u_output_source_account args);
  output_account := default (output_account c) (u_output_account args);
  rewards_account := default (rewards_account c) (u_rewards_account args);
  ledger_canister_id := default (ledger_canister_id c) (u_ledger_canister_id args);
  index_canister_id := default (index_canister_id c) (u_index_canister_id args);
  cmc_canister_id := match u_cmc_canister_id args with Some v => Some v | None => cmc_canister_id c end;
  faucet_canister_id := match u_faucet_canister_id args with Some v => Some v | None => faucet_canister_id c end;
  sns_wasm_canister_id := default (sns_wasm_canister_id c) (u_sns_wasm_canister_id args);
  xrc_canister_id := default (xrc_canister_id c) (u_xrc_canister_id args);
  enable_sns_tracking := default (enable_sns_tracking c) (u_enable_sns_tracking args);
  scan_interval_seconds := default (scan_interval_seconds c) (u_scan_interval_seconds args);
  cycles_interval_seconds := default (cycles_interval_seconds c) (u_cycles_interval_seconds args);
  min_tx_e8s := default (min_tx_e8s c) (u_min_tx_e8s args);
  max_cycles_entries_per_canister :=
    default (max_cycles_entries_per_canister c) (clamp_cycles_entries_per_canister <$> u_max_cycles_entries_per_canister args);
  max_commitment_entries_per_canister :=
    default (max_commitment_entries_per_canister c) (clamp_commitment_entries_per_canister <$> u_max_commitment_entries_per_canister args);
  max_index_pages_per_tick := default (max_index_pages_per_tick c) (clamp_index_pages_per_tick <$> u_max_index_pages_per_tick args);
  max_canisters_per_cycles_tick :=
    default (max_canisters_per_cycles_tick c) (clamp_canisters_per_cycles_tick <$> u_max_canisters_per_cycles_tick args);
  relay_factory_enabled := default (relay_factory_enabled c) (u_relay_factory_enabled args);
  relay_setup_min_e8s := default (relay_setup_min_e8s c) (u_relay_setup_min_e8s args);
  relay_initial_cycles := default (relay_initial_cycles c) (u_relay_initial_cycles args);
  relay_cycle_safety_margin_e8s := default (relay_cycle_safety_margin_e8s c) (u_relay_cycle_safety_margin_e8s args);
  relay_min_subaccount_one_seed_e8s := default (relay_min_subaccount_one_seed_e8s c) (u_relay_min_subaccount_one_seed_e8s args);
  self_service_relay_interval_seconds :=
    default (self_service_relay_interval_seconds c) ((fun v => Z.max v 60) <$> u_self_service_relay_interval_seconds args);
  canonical_relay_canister_id := default (canonical_relay_canister_id c) (u_canonical_relay_canister_id args);
  canonical_relay_targets := default (canonical_relay_targets c) (u_canonical_relay_targets args);
|}.

(** [creating]: a relay is being created. *)
Definition apply_args (creating : bool) (args : UpgradeArgs) (s : State) : option State :=
  if accounting_started s && negb (same_accounting_identity args (config s)) then None
  else if creating && negb (same_paid_creation args (config s)) then None
  else
    let s := s <| config ::= upgraded_config args |> in
    Some (if default false (u_clear_commitment_index_fault args) then s <| commitment_index_fault := None |> else s).
Definition apply_upgrade_args (creating : bool) (g : Storage) (args : option UpgradeArgs) (s : State) : option State :=
  s ← match args with Some args => apply_args creating args s | None => Some s end;
  s ← normalize_runtime_state g (repair_memo_registered_canister_summaries_if_invalid g s);
  let s := ensure_canonical_relay_tracking g s in
  if validate_config (config s) then
    Some (s <| main_lock_state_ts := Some 0 |> <| commitment_index_lock_expires_at_ts := Some 0 |>
            <| commitment_index_lock_owner := None |> <| commitment_index_lock_generation ::= fun n => sat_add n 1 |>)
  else None.

(** ** Installation and upgrade *)

(** A timer: what it runs, after how many seconds, and whether it repeats. *)
Inductive TimerTask := ForcedTick | ScheduledTick | RefreshModuleHashes.
Record Timer := MkTimer { timer_task : TimerTask; timer_seconds : Z; timer_repeats : bool }.
Definition MODULE_HASH_REFRESH_INTERVAL_SECONDS : Z := 10 * 60.
Definition install_timers (s : State) : list Timer :=
  [MkTimer ForcedTick 1 false; MkTimer ScheduledTick (Z.max (scan_interval_seconds (config s)) 60) true;
   MkTimer RefreshModuleHashes 5 false; MkTimer RefreshModuleHashes MODULE_HASH_REFRESH_INTERVAL_SECONDS true].

(** Stable memory is empty, the thread-local state is fresh. *)
Definition init (now_nanos : Z) (args : InitArgs) : option (Heap * list Timer) :=
  cfg ← config_from_init_args args;
  s ← normalize_runtime_state Storage_empty (ensure_canonical_relay_tracking Storage_empty (State_new cfg (now_nanos / 1000000000)));
  let h := MkHeap (set_state s (restarted Storage_empty s)) [] None Limiter_default in
  '(_, h) ← relay_creating_keys h;
  Some (h, install_timers s).

(** The stable memory of [h] survives, its thread-local state does not. *)
Definition restore_post_upgrade_state (args : option UpgradeArgs) (h : Heap) : option Heap :=
  match restore_state_from_stable (storage (mem h)) with
  | Ok (Some s) =>
      let g := storage (mem h) in
      '(creating, h) ← relay_creating_keys (MkHeap (restarted g s) (relay_setup_entries h) (creating_keys_cell h) Limiter_default);
      s ← apply_upgrade_args (negb (is_nil creating)) g args s;
      let registry_principals := set_of_list (btree_keys (canister_tracking_reasons s)) in
      reconcile_interrupted_creating_entries_after_upgrade (h <| mem ::= set_state_after_upgrade s registry_principals |>)
  | _ => None
  end.
Definition post_upgrade (args : option UpgradeArgs) (h : Heap) : option (Heap * list Timer) :=
  h ← restore_post_upgrade_state args h;
  Some (h, install_timers (st (mem h))).

End lifecycle.
