(* ===== verification/HistorianUpgrade.v ===== *)
(** * Historian: upgrades keep the books

    What the normalization changes, what a restoration gives back, and the theorem of an
    upgrade with any arguments: the accounting of the staking account and of both routes is
    as exact after it as it was before. *)

From stdpp Require Import sorting.
From S2P Require Import Prelude BTree Async Ic Accounts Clients MemoPolicy CyclesProbe Quiet TimerGuard HistorianTypes HistorianKeys HistorianState HistorianDurable HistorianTracking HistorianRanking HistorianCommitments HistorianIndexer HistorianWalk HistorianIndexed HistorianRoutes HistorianReturns HistorianIndexRun HistorianRoutesRun HistorianProbe HistorianDiscovery HistorianTick HistorianFrame HistorianStays HistorianTickRun RelaySetup RelaySetupKeys RelayFactory RelayFactoryProtocol HistorianLifecycle.

Section upgrade.
Context `{P : PrincipalSpec} `{O : !OrdSpec Principal} `{SS : !SliceSpec} `{T : TextSpec} `{I : !ProbeIds} `{F : !FactorySpec} `{H : HashSpec}
  `{A : !AccountSpec} `{B : !BuildSpec} {EH : EventHorizon}.
#[local] Existing Instance Principal_eq_dec.

(** ** What the normalization leaves alone *)

(** Every sample of [m'] is one of [m]. *)
Definition sub_histories {K S} (m m' : btree_map K (list S)) : Prop :=
  forall k l' x, (k, l') ∈ m' -> x ∈ l' -> exists l, (k, l) ∈ m /\ x ∈ l.
Lemma sub_histories_refl {K S} (m : btree_map K (list S)) : sub_histories m m.
Proof. intros k l x Hk Hx. by exists l. Qed.
Lemma sub_histories_trans {K S} (m1 m2 m3 : btree_map K (list S)) : sub_histories m1 m2 -> sub_histories m2 m3 -> sub_histories m1 m3.
Proof. intros H1 H2 k l x Hk Hx. destruct (H2 k l x Hk Hx) as (l2 & Hk2 & Hx2). by apply (H1 k l2). Qed.
Lemma sub_histories_subseteq {K S} (m m' : btree_map K (list S)) : m' ⊆ m -> sub_histories m m'.
Proof. intros Hs k l x Hk Hx. exists l. split; [by apply Hs|done]. Qed.

Definition recents (s : State) : list bool :=
  [is_some (recent_commitments s); is_some (recent_neuron_commitments s); is_some (recent_under_threshold_commitments s);
   is_some (recent_under_threshold_neuron_commitments s); is_some (recent_invalid_commitments s)].
(** The part of the root section that the books are made of. *)
Definition root_books (s : State) :=
  (walk_of s, staking_index_descending s, route_books s RouteOutput, route_books s RouteRewards,
   (qualifying_commitment_count s, recents s), sweeps s).
(** The books of [s'] are those of [s], with no more samples retained. *)
Record carried (s s' : State) : Prop := {
  ca_root : root_books s' = root_books s;
  ca_commitments : sub_histories (commitment_history s) (commitment_history s');
  ca_raw_icp : sub_histories (raw_icp_commitment_history s) (raw_icp_commitment_history s');
  ca_neurons : sub_histories (neuron_commitment_history s) (neuron_commitment_history s');
}.
Definition generation (s : State) : Z := commitment_index_lock_generation s.
Definition normalized (s s' : State) : Prop := (config s', generation s') = (config s, generation s) /\ carried s s'.
Lemma carried_trans s1 s2 s3 : carried s1 s2 -> carried s2 s3 -> carried s1 s3.
Proof using. intros [] []. split; [congruence|by eapply sub_histories_trans..]. Qed.
Lemma carried_frame s s' : root_books s' = root_books s -> commitment_history s' = commitment_history s ->
  raw_icp_commitment_history s' = raw_icp_commitment_history s -> neuron_commitment_history s' = neuron_commitment_history s -> carried s s'.
Proof using. intros E2 E3 E4 E5. split; rewrite ?E3, ?E4, ?E5; done || apply sub_histories_refl. Qed.
Lemma normalized_trans s1 s2 s3 : normalized s1 s2 -> normalized s2 s3 -> normalized s1 s3.
Proof using. intros [E1 H1] [E2 H2]. split; [congruence|by eapply carried_trans]. Qed.
(** A write outside the accounting. *)
Lemma normalized_frame s s' : (config s', generation s') = (config s, generation s) -> root_books s' = root_books s -> commitment_history s' = commitment_history s ->
  raw_icp_commitment_history s' = raw_icp_commitment_history s -> neuron_commitment_history s' = neuron_commitment_history s -> normalized s s'.
Proof using. intros. split; [done|by apply carried_frame]. Qed.
Lemma normalized_refl s : normalized s s.
Proof using. by apply normalized_frame. Qed.
Lemma normalized_fold {X} (f : State -> X -> State) l s : (forall s x, normalized s (f s x)) -> normalized s (fold_left f l s).
Proof using. intros Hf. revert s. induction l as [|x l IH]; intros s; [apply normalized_refl|]. cbn. eapply normalized_trans; [apply Hf|apply IH]. Qed.

Lemma normalized_refresh g p s : normalized s (refresh_memo_registered_canister_summary g p s).
Proof using. destruct (refresh_fields g p s) as (cache & i & ->). by apply normalized_frame. Qed.
Lemma normalized_rebuild g s : normalized s (rebuild_memo_registered_canister_summaries_cache g s).
Proof using. unfold rebuild_memo_registered_canister_summaries_cache. eapply normalized_trans; [|apply normalized_fold; intros; apply normalized_refresh]. by apply normalized_frame. Qed.
Lemma normalized_repair g s : normalized s (repair_memo_registered_canister_summaries_if_invalid g s).
Proof using. unfold repair_memo_registered_canister_summaries_if_invalid. destruct (memo_registered_canister_summary_index_is_valid s); [apply normalized_refl|apply normalized_rebuild]. Qed.
Lemma normalized_stale g s : normalized s (drop_stale_memo_reasons g s).
Proof using.
  apply normalized_fold. intros s1 p. unfold forget_stale_memo. destruct (btree_get p (canister_tracking_reasons s1)) as [sources|]; [|apply normalized_refl].
  destruct (set_remove MemoCommitment sources); by apply normalized_frame.
Qed.
Lemma normalized_track g now p reason s : normalized s (track_canister g now p reason s).
Proof using.
  unfold track_canister. cbn zeta. match goal with |- context [if ?b then _ else _] => destruct b end; [|by apply normalized_frame].
  match goal with |- context [enqueue_initial_cycles_probe p ?s1] => destruct (enqueue_fields p s1) as (queue & ->) end. by apply normalized_frame.
Qed.
Lemma normalized_canonical g s : normalized s (ensure_canonical_relay_tracking g s).
Proof using.
  unfold ensure_canonical_relay_tracking. destruct (canonical_relay_canister_id (config s)) as [relay|]; [|apply normalized_refl].
  apply normalized_fold. intros s1 target. unfold mark_active_relay_tracked. cbn zeta.
  eapply normalized_trans; [apply normalized_track|]. eapply normalized_trans; [apply normalized_track|].
  eapply normalized_trans; apply normalized_refresh.
Qed.

Lemma elem_of_drop_inv {X} n (l : list X) x : x ∈ drop n l -> x ∈ l.
Proof using. intros Hx. rewrite <-(take_drop n l). set_solver. Qed.
Lemma normalize_history_sub max_entries l x : x ∈ normalize_history max_entries l -> x ∈ l.
Proof using.
  unfold normalize_history. intros Hx%elem_of_drop_inv. rewrite merge_sort_Permutation in Hx. by apply filter_elem in Hx as [Hx _].
Qed.
Lemma normalize_histories_sub {K} max_entries (m : btree_map K (list CommitmentSample)) : sub_histories m (normalize_histories max_entries m).
Proof using.
  intros k l' x Hk Hx. apply list_elem_of_fmap in Hk as ([k' l] & [= -> ->] & Hk). exists l. split; [done|]. by eapply normalize_history_sub.
Qed.
Lemma without_empty_sub {K} (m : btree_map K (list CommitmentSample)) : sub_histories m (without_empty m).
Proof using. apply sub_histories_subseteq. intros e [He _]%filter_elem. done. Qed.
Lemma remove_empty_sub {K} `{EqDecision K} (m : btree_map K (list CommitmentSample)) : sub_histories m (remove_empty m).
Proof using.
  unfold remove_empty. generalize (map fst (List.filter (fun e => is_nil e.2) m)). intros ks. revert m.
  induction ks as [|k ks IH]; intros m; [apply sub_histories_refl|]. cbn. eapply sub_histories_trans; [|apply IH].
  apply sub_histories_subseteq. unfold btree_remove. intros e [He _]%filter_elem. done.
Qed.
Lemma normalized_histories s : normalized s (normalize_commitment_histories s).
Proof using.
  split; [done|]. split; [done|..]; (eapply sub_histories_trans; [apply normalize_histories_sub|]); first [apply remove_empty_sub|apply without_empty_sub].
Qed.
Lemma normalized_recents s a b c : is_some (recent_commitments s) = true -> is_some (recent_under_threshold_commitments s) = true ->
  is_some (recent_invalid_commitments s) = true ->
  normalized s (s <| recent_commitments := Some a |> <| recent_under_threshold_commitments := Some b |> <| recent_invalid_commitments := Some c |>).
Proof using.
  intros E1 E2 E3. apply normalized_frame; try done. unfold root_books, recents. by rewrite E1, E2, E3.
Qed.

Lemma normalized_raise g s : normalized s (raise_last_commitment_ts g s).
Proof using. by apply normalized_frame. Qed.
Lemma normalized_distinct s l : normalized s (s <| distinct_canisters := l |>).
Proof using. by apply normalized_frame. Qed.

Lemma normalize_normalized g s s' : normalize_runtime_state g s = Some s' -> normalized (clamp_config s) s'.
Proof using.
  unfold normalize_runtime_state. set (s1 := clamp_config s). intros (n1 & _ & (n2 & _ & (n3 & _ & (recent & E1 & (under & E2 & Hs)
    %bind_Some)%bind_Some)%bind_Some)%bind_Some)%bind_Some. cbv zeta in Hs.
  set (s2 := drop_stale_memo_reasons g (normalize_commitment_histories s1)) in Hs. apply bind_Some in Hs as (invalid & E3 & [= <-]).
  assert (H2 : normalized s1 s2) by (eapply normalized_trans; [apply normalized_histories|apply normalized_stale]).
  assert (Er : recents s2 = recents s1) by exact (f_equal (fun b => b.1.2.2) (ca_root _ _ (proj2 H2))).
  eapply normalized_trans; [exact H2|]. eapply normalized_trans; [apply (normalized_recents s2 (normalize_recent_commitment_bucket true MAX_RECENT_QUALIFYING_COMMITMENTS recent)
    (normalize_recent_commitment_bucket false MAX_RECENT_UNDER_THRESHOLD_COMMITMENTS under) (normalize_recent_invalid_commitments invalid))|].
  - change (nth 0 (recents s2) false = true). rewrite Er. cbn [recents nth]. by rewrite E1.
  - change (nth 2 (recents s2) false = true). rewrite Er. cbn [recents nth]. by rewrite E2.
  - change (recent_invalid_commitments s2 = Some invalid) in E3. by rewrite E3.
  - eapply normalized_trans; [|apply normalized_rebuild]. eapply normalized_trans; [apply normalized_raise|apply normalized_distinct].
Qed.

(** ** Transport of the books *)

Lemma known_sub {K IK S} (stored : K -> IK) known (cur cur' : btree_map K (list S)) (h : History IK S) :
  sub_histories cur cur' -> samples_known stored known cur h -> samples_known stored known cur' h.
Proof using. intros Hs [H1 H2]. split; [|done]. intros k l' x Hk Hx. destruct (Hs k l' x Hk Hx) as (l & Hl & Hxl). by eapply H1. Qed.
Lemma indexed_carried sid min txs s s' g : carried s s' -> indexed sid min txs s g -> indexed sid min txs s' g.
Proof using.
  intros [Hr Hc Hw Hn] []. pose proof (f_equal (fun b => b.1.2.1) Hr) as Eq. cbn in Eq.
  assert (Er : recents s' = recents s) by exact (f_equal (fun b => b.1.2.2) Hr).
  split; [done|congruence|..|by eapply known_sub|by eapply known_sub|by eapply known_sub].
  - change (nth 0 (recents s') false = true). by rewrite Er.
  - change (nth 1 (recents s') false = true). by rewrite Er.
  - change (nth 2 (recents s') false = true). by rewrite Er.
  - change (nth 3 (recents s') false = true). by rewrite Er.
  - change (nth 4 (recents s') false = true). by rewrite Er.
Qed.
(** Before the first transaction the accounts do not matter. *)
Lemma indexed_nothing sid min sid' min' s g : indexed sid min [] s g -> indexed sid' min' [] s g.
Proof using.
  assert (Hnone : forall IK (slot : IndexedCommitmentTarget -> option (IK * option (list Z))) k x,
    sample_among sid min slot [] k x -> sample_among sid' min' slot [] k x) by (intros IK slot k x (tx & c & sub & ?%not_elem_of_nil & _); done).
  intros []. split; try done; by eapply samples_known_mono; [apply Hnone|].
Qed.

Definition staking_text (c : Config) : list Z := account_identifier_text_for_account (staking_account c).
Definition source_text (c : Config) : list Z := account_identifier_text_for_account (output_source_account c).
Definition route_text (c : Config) (kind : IndexedRouteKind) : list Z := account_identifier_text_for_account (indexed_route_account c kind).
(** The accounts that are counted, and what counts. *)
Definition counted_accounts (c : Config) :=
  (staking_text c, min_tx_e8s c, source_text c, route_text c RouteOutput, route_text c RouteRewards, index_canister_id c).
(** The books are in order, for the accounts that the configuration names. *)
Definition in_order U visible RU rvisible (m : Mem) : Prop :=
  let c := config (st m) in
  booked (index_canister_id c) (staking_text c) (min_tx_e8s c) U visible (source_text c) (route_text c) RU rvisible (World m []).
Definition anything_indexed (s : State) : Prop :=
  walk_latest (walk_of s) <> None \/ exists kind, walk_latest (route_walk s kind) <> None.

Lemma walk_empty U V w : walk_ok U V w -> walk_latest w = None -> w = MkWalk None None (walk_complete w) None.
Proof using. destruct w as [latest oldest complete catch]; cbn. intros Hw ->. unfold walk_ok in Hw. cbn in Hw. destruct oldest; [done|]. by rewrite Hw. Qed.
Lemma covered_empty b txs : List.filter (covered (MkWalk None None b None)) txs = [].
Proof using. by induction txs. Qed.

Lemma in_order_carried U visible RU rvisible m m' : in_order U visible RU rvisible m ->
  root_books (st m') = root_books (st m) ->
  (forall sid min txs, indexed sid min txs (st m) (storage m) -> indexed sid min txs (st m') (storage m')) ->
  (anything_indexed (st m) -> counted_accounts (config (st m')) = counted_accounts (config (st m))) ->
  persistence_batch_depth m' = 0 -> in_order U visible RU rvisible m'.
Proof using.
  intros ([Hx _] & [[Hr _] _] & [[Hsw _] _]) E Hi Hsame Hd. cbn [w_state w_trace length] in *.
  assert (Ew : walk_of (st m') = walk_of (st m)) by exact (f_equal (fun b => b.1.1.1.1.1) E).
  assert (Eo : staking_index_descending (st m') = staking_index_descending (st m)) by exact (f_equal (fun b => b.1.1.1.1.2) E).
  assert (Es : sweeps (st m') = sweeps (st m)) by exact (f_equal (fun b => b.2) E).
  assert (Er : forall kind, route_books (st m') kind = route_books (st m) kind)
    by (intros []; [exact (f_equal (fun b => b.1.1.1.2) E)|exact (f_equal (fun b => b.1.1.2) E)]).
  split; [|split].
  - split; [|constructor]. destruct Hx as [_ _ Hfresh Hw [Hm _]]. split; cbn [w_state w_trace length]; rewrite ?Ew, ?Eo; try done.
    split; [|by rewrite Hd]. apply Hi in Hm. destruct (walk_latest (walk_of (st m))) as [n|] eqn:El.
    + assert (Hc : anything_indexed (st m)) by (left; by rewrite El). apply Hsame in Hc.
      pose proof (f_equal (fun c => c.1.1.1.1.1) Hc) as Ec1. pose proof (f_equal (fun c => c.1.1.1.1.2) Hc) as Ec2.
      cbn [fst snd counted_accounts] in Ec1, Ec2. by rewrite Ec1, Ec2.
    + rewrite (walk_empty _ _ _ Hw El), covered_empty in Hm |- *. by eapply indexed_nothing.
  - split; [|constructor]. split; [|cbn [w_state]; by rewrite Hd]. intros kind. specialize (Hr kind). specialize (Er kind).
    pose proof (f_equal (fun b => b.1.1) Er) as E1. pose proof (f_equal (fun b => b.1.2) Er) as E2. pose proof (f_equal snd Er) as E3.
    cbn [fst snd route_books] in E1, E2, E3. destruct Hr as [_ _ Hfresh Hw Ht]. split; cbn [w_state w_trace length]; rewrite ?E1, ?E2, ?E3; try done.
    rewrite Ht. f_equal. destruct (walk_latest (route_walk (st m) kind)) as [n|] eqn:El.
    + assert (Hc : anything_indexed (st m)) by (right; exists kind; by rewrite El). apply Hsame in Hc.
      pose proof (f_equal (fun c => c.1.1.1.2) Hc) as Ec1. cbn [fst snd counted_accounts] in Ec1.
      assert (Ec2 : route_text (config (st m')) kind = route_text (config (st m)) kind)
        by (destruct kind; [exact (f_equal (fun c => c.1.1.2) Hc)|exact (f_equal (fun c => c.1.2) Hc)]).
      unfold routed_total, routed_amounts. by rewrite Ec1, Ec2.
    + by rewrite (walk_empty _ _ _ Hw El), covered_empty.
  - split; [|constructor]. cbn [w_state]. split; [|done]. by eapply sweeps_ok_eq.
Qed.

(** ** Restoration *)

Lemma restored_shape g s : restore_state_from_stable g = Ok (Some s) ->
  exists root, stable_root g = Some root /\ config_try_from (root_config root) = Ok (config s) /\
    commitment_history s = [] /\ raw_icp_commitment_history s = [] /\ neuron_commitment_history s = [].
Proof using.
  unfold restore_state_from_stable, restore_state_current. destruct (stable_root g) as [root|]; [|done]. destruct (root_complete root); [|done].
  destruct (config_try_from (root_config root)) as [cfg|e] eqn:E; [|done]. intros [= <-]. exists root. split; [done|]. split; [exact E|done].
Qed.

Context {L : OrdLaws Principal} {SL : SliceLaws}.
(** The books are in the root section. *)
Definition root_books_of (r : StableRootState) :=
  (MkWalk (root_last_indexed_staking_tx_id r) (root_oldest_indexed_staking_tx_id r) (default false (root_staking_backfill_complete r))
     (root_active_staking_catch_up r),
   root_staking_index_descending r,
   (MkWalk (root_last_indexed_output_tx_id r) (root_oldest_indexed_output_tx_id r)
      (default false (root_output_route_backfill_complete r)) (root_active_output_catch_up r),
    root_output_route_index_descending r, root_total_output_e8s r),
   (MkWalk (root_last_indexed_rewards_tx_id r) (root_oldest_indexed_rewards_tx_id r)
      (default false (root_rewards_route_backfill_complete r)) (root_active_rewards_catch_up r),
    root_rewards_route_index_descending r, root_total_rewards_e8s r),
   (root_qualifying_commitment_count r,
    [is_some (root_recent_commitments r); is_some (root_recent_neuron_commitments r); is_some (root_recent_under_threshold_commitments r);
     is_some (root_recent_under_threshold_neuron_commitments r); is_some (root_recent_invalid_commitments r)]),
   (root_active_cycles_sweep r, root_active_sns_discovery r)).
Lemma root_books_root s : root_books s = root_books_of (build_root_snapshot s).
Proof using. reflexivity. Qed.

Lemma restored_normalized m : durable m -> persistence_batch_depth m = 0 ->
  exists s, restore_state_from_stable (storage m) = Ok (Some s) /\ normalized (st m) s.
Proof.
  intros [Hr Hs Hi _] H0. destruct Hi as [Hz Hk]; [done|]. rewrite Hz, Hk in Hs. pose proof Hs as [Hroot _ _ _ _ _ _ _]. rewrite has_none in Hroot.
  destruct Hroot as [|Hroot]; [done|].
  destruct (restore_same_view _ _ Hr Hs) as (s & E & [Er _ _ _ _ _ _ _] & _). exists s. split; [done|].
  destruct (restored_shape _ _ E) as (root & Eroot & Ec & H1 & H2 & H3). rewrite Eroot in Hroot. injection Hroot as ->.
  pose proof Hr as (_ & Hr1 & Hr2 & Hr3 & _). cbn [root_config build_root_snapshot] in Ec. rewrite config_roundtrip in Ec by done. injection Ec as Ec.
  pose proof (f_equal root_commitment_index_lock_generation Er) as Eg. cbn [root_commitment_index_lock_generation build_root_snapshot] in Eg.
  injection Eg as Eg. split; [unfold generation; by rewrite <-Ec, Eg|]. split; [by rewrite !root_books_root, Er|..].
  - rewrite H1. by intros k l x ?%not_elem_of_nil.
  - rewrite H2. by intros k l x ?%not_elem_of_nil.
  - rewrite H3. by intros k l x ?%not_elem_of_nil.
Qed.

(** ** The arguments *)

Definition limits_ok (c : Config) : Prop :=
  1 <= max_cycles_entries_per_canister c <= 250 /\ 1 <= max_commitment_entries_per_canister c <= 250 /\
  1 <= max_index_pages_per_tick c <= 100 /\ 1 <= max_canisters_per_cycles_tick c <= 500.
Definition clamped_config (c : Config) : Config := config (clamp_config (State_new c 0)).
Lemma clamped_limits c : limits_ok (clamped_config c).
Proof using.
  unfold limits_ok. cbn -[Z.max Z.min]. unfold clamp_cycles_entries_per_canister, clamp_commitment_entries_per_canister,
    clamp_index_pages_per_tick, clamp_canisters_per_cycles_tick, clamp, MAX_CYCLES_ENTRIES_PER_CANISTER_HARD_CAP,
    MAX_COMMITMENT_ENTRIES_PER_CANISTER_HARD_CAP, MAX_INDEX_PAGES_PER_TICK_HARD_CAP, MAX_CANISTERS_PER_CYCLES_TICK_HARD_CAP. lia.
Qed.
Definition config_after (args : option UpgradeArgs) (c : Config) : Config :=
  clamped_config (match args with Some a => upgraded_config a c | None => c end).

Lemma same_account_text a b : same_account a b = true -> account_identifier_text_for_account a = account_identifier_text_for_account b.
Proof using.
  unfold same_account. intros [E1%bool_decide_eq_true E2%bool_decide_eq_true]%andb_true_iff.
  unfold account_identifier_text_for_account, account_identifier_text, account_identifier_bytes. by rewrite E1, E2.
Qed.
Lemma same_identity_accounts args c : same_accounting_identity args c = true -> counted_accounts (upgraded_config args c) = counted_accounts c.
Proof using.
  unfold same_accounting_identity. rewrite !andb_true_iff. intros ((((((H1 & H2) & H3) & H4) & _) & H6) & H7).
  assert (Ht : forall o a, is_none_or o (fun v => same_account v a) = true ->
    account_identifier_text_for_account (default a o) = account_identifier_text_for_account a)
    by (intros [v|] a Hv; [by apply same_account_text|done]).
  assert (Ei : default (index_canister_id c) (u_index_canister_id args) = index_canister_id c)
    by (destruct (u_index_canister_id args); [by apply bool_decide_eq_true in H6|done]).
  assert (Em : default (min_tx_e8s c) (u_min_tx_e8s args) = min_tx_e8s c)
    by (destruct (u_min_tx_e8s args); [by apply Z.eqb_eq in H7|done]).
  unfold counted_accounts, staking_text, source_text, route_text. cbn [staking_account output_source_account output_account rewards_account
    index_canister_id min_tx_e8s upgraded_config indexed_route_account]. by rewrite !Ht, Ei, Em.
Qed.
Lemma indexed_started s : anything_indexed s -> accounting_started s = true.
Proof using.
  unfold accounting_started. intros [Hw|[kind Hw]]; [|destruct kind]; cbn in Hw.
  - destruct (last_indexed_staking_tx_id s); [|done]. cbn [is_some]. by rewrite orb_true_r.
  - destruct (last_indexed_output_tx_id s); [|done]. cbn [is_some]. by rewrite !orb_true_r.
  - destruct (last_indexed_rewards_tx_id s); [|done]. cbn [is_some]. by rewrite !orb_true_r.
Qed.

Lemma args_applied creating args s s' : apply_args creating args s = Some s' ->
  carried s s' /\ config s' = upgraded_config args (config s) /\ generation s' = generation s /\
  (accounting_started s = true -> same_accounting_identity args (config s) = true) /\
  (creating = true -> same_paid_creation args (config s) = true).
Proof using.
  unfold apply_args. destruct (accounting_started s && _) eqn:E1; [done|]. destruct (creating && _) eqn:E2; [done|]. cbn zeta. intros [= <-].
  split; [destruct (default false _); by apply carried_frame|]. split; [by destruct (default false _)|]. split; [by destruct (default false _)|].
  split; intros Hs; rewrite Hs in *; [by destruct (same_accounting_identity args _)|by destruct (same_paid_creation args _)].
Qed.
Lemma upgrade_applied creating g args s s' : apply_upgrade_args creating g args s = Some s' ->
  carried s s' /\ config s' = config_after args (config s) /\ validate_config (config s') = true /\
  generation s' = sat_add (generation s) 1 /\ main_lock_state_ts s' = Some 0 /\ commitment_index_lock_expires_at_ts s' = Some 0 /\
  (accounting_started s = true -> counted_accounts (config s') = counted_accounts (config s)) /\
  (creating = true -> forall a, args = Some a -> same_paid_creation a (config s) = true).
Proof using.
  unfold apply_upgrade_args. intros (s1 & H1 & (s2 & H2 & H3)%bind_Some)%bind_Some. cbv zeta in H3.
  destruct (validate_config _) eqn:Hv; [|done]. injection H3 as <-.
  assert (Ha : carried s s1 /\ config s1 = match args with Some a => upgraded_config a (config s) | None => config s end /\
    generation s1 = generation s /\ (accounting_started s = true -> counted_accounts (config s1) = counted_accounts (config s)) /\
    (creating = true -> forall a, args = Some a -> same_paid_creation a (config s) = true)).
  { destruct args as [a|]; [|injection H1 as ->; split; [by apply carried_frame|done]].
    apply args_applied in H1 as (Hc & Ec & Eg & Hi & Hp). split; [done|]. split; [done|]. split; [done|].
    split; [intros Hs; rewrite Ec; by apply same_identity_accounts, Hi|]. intros Hcr a' [= <-]. by apply Hp. }
  destruct Ha as (Hc1 & Ec1 & Eg1 & Hi & Hp). apply normalize_normalized in H2.
  pose proof (normalized_repair g s1) as [Er Hr]. set (sr := repair_memo_registered_canister_summaries_if_invalid g s1) in *.
  pose proof (normalized_canonical g s2) as [Et Ht]. set (st2 := ensure_canonical_relay_tracking g s2) in *.
  destruct H2 as [En Hn]. injection Er as Erc Erg. injection En as Enc Eng. injection Et as Etc Etg.
  assert (Ec : config st2 = config_after args (config s)) by (rewrite Etc, Enc; unfold config_after; rewrite <-Ec1, <-Erc; reflexivity).
  split.
  { eapply carried_trans; [exact Hc1|]. eapply carried_trans; [exact Hr|]. eapply carried_trans; [|eapply carried_trans; [exact Hn|]].
    - by apply carried_frame.
    - eapply carried_trans; [exact Ht|]. by apply carried_frame. }
  split; [exact Ec|]. split; [exact Hv|]. split; [|split; [done|split; [done|split; [|exact Hp]]]].
  - change (sat_add (generation st2) 1 = sat_add (generation s) 1). f_equal.
    transitivity (generation s2); [exact Etg|]. transitivity (generation sr); [exact Eng|congruence].
  - intros Hs. change (counted_accounts (config st2) = counted_accounts (config s)). rewrite Ec. unfold config_after. rewrite <-Ec1.
    rewrite <-(Hi Hs). reflexivity.
Qed.

(** What a relay that is being created was paid for. *)
Definition paid_config (c : Config) :=
  (ledger_canister_id c, cmc_canister_id c, faucet_canister_id c, relay_initial_cycles c, relay_cycle_safety_margin_e8s c,
   relay_min_subaccount_one_seed_e8s c, self_service_relay_interval_seconds c).
Lemma same_paid_config a c : same_paid_creation a c = true -> paid_config (upgraded_config a c) = paid_config c.
Proof using.
  unfold same_paid_creation. rewrite !andb_true_iff. intros ((((((H1 & H2) & H3) & H4) & H5) & H6) & H7).
  assert (Hp : forall X (o : option X) (f : X -> bool) x, is_none_or o f = true -> (forall v, f v = true -> v = x) -> default x o = x)
    by (intros X [v|] f x Hf Hx; [by apply Hx|done]).
  unfold paid_config, upgraded_config. cbn [ledger_canister_id cmc_canister_id faucet_canister_id relay_initial_cycles relay_cycle_safety_margin_e8s
   relay_min_subaccount_one_seed_e8s self_service_relay_interval_seconds]. repeat f_equal.
  - eapply Hp; [exact H1|]. by intros v ?%bool_decide_eq_true.
  - destruct (u_cmc_canister_id a); [by apply bool_decide_eq_true in H2|done].
  - destruct (u_faucet_canister_id a); [by apply bool_decide_eq_true in H3|done].
  - eapply Hp; [exact H4|]. by intros v ?%Z.eqb_eq.
  - eapply Hp; [exact H5|]. by intros v ?%Z.eqb_eq.
  - eapply Hp; [exact H6|]. by intros v ?%Z.eqb_eq.
  - destruct (u_self_service_relay_interval_seconds a); [by apply Z.eqb_eq in H7|done].
Qed.

Lemma creating_keys_mem (h h' : Heap) keys : relay_creating_keys h = Some (keys, h') -> mem h' = mem h /\ (forall k, creating_keys_cell h = Some k -> keys = k).
Proof using.
  unfold relay_creating_keys. destruct (creating_keys_cell h) as [k|]; [destruct (valid_creating_keys k); intros [= <- <-]|]; [by split; [|intros ? [= ->]]|].
  destruct (relay_setup_entries h); intros [= <- <-]. done.
Qed.
Lemma set_keys_mem keys (h h' : Heap) : set_relay_creating_keys keys h = Some h' -> mem h' = mem h.
Proof using. unfold set_relay_creating_keys. destruct (valid_creating_keys keys); intros [= <-]. done. Qed.
Lemma insert_entry_mem key entry (h h' : Heap) : insert_entry key entry h = Some h' -> mem h' = mem h.
Proof using.
  unfold insert_entry. intros ([keys h1] & [Hk _]%creating_keys_mem & (keys' & _ & Hs%set_keys_mem)%bind_Some)%bind_Some. rewrite Hs. exact Hk.
Qed.
Lemma remove_entry_mem key (h h' : Heap) : remove_entry key h = Some h' -> mem h' = mem h.
Proof using. unfold remove_entry. intros ([keys h1] & [Hk _]%creating_keys_mem & Hs%set_keys_mem)%bind_Some. rewrite Hs. exact Hk. Qed.
Lemma reconcile_mem (h h' : Heap) : reconcile_interrupted_creating_entries_after_upgrade h = Some h' -> mem h' = mem h.
Proof using.
  unfold reconcile_interrupted_creating_entries_after_upgrade. intros ([keys h1] & [<- _]%creating_keys_mem & Hr)%bind_Some. revert h1 Hr.
  induction keys as [|key keys IH]; intros h1; cbn [reconcile_keys]; [by intros [= <-]|]. intros (h2 & H2 & ->%IH)%bind_Some.
  unfold reconcile_key in H2. destruct (get_entry key h1) as [[progress| |]|]; [|done..].
  destruct (phase progress); first [by injection H2 as <-|by apply remove_entry_mem in H2|by apply insert_entry_mem in H2].
Qed.


Lemma carried_anything s s' : carried s s' -> anything_indexed s -> anything_indexed s'.
Proof using.
  intros [E _ _ _] Hany. unfold anything_indexed. rewrite (f_equal (fun b => b.1.1.1.1.1) E : walk_of s' = walk_of s).
  destruct Hany as [Hany|[kind Hany]]; [by left|right]. exists kind. enough (E1 : route_walk s' kind = route_walk s kind) by (by rewrite E1).
  destruct kind; [exact (f_equal (fun b => b.1.1.1.2.1.1) E)|exact (f_equal (fun b => b.1.1.2.1.1) E)].
Qed.
Lemma upgrade_storage s principals m : storage (set_state_after_upgrade s principals m) =
  persist_snapshot_sections_scoped s (MkScope (Z.lor DIRTY_ROOT DIRTY_REGISTRY) (nonempty_scope principals) None None None None) (storage m).
Proof using. reflexivity. Qed.
(** What an upgrade that does not abort went through. *)
Lemma upgraded_parts args (h h' : Heap) timers r : restore_state_from_stable (storage (mem h)) = Ok (Some r) ->
  post_upgrade args h = Some (h', timers) ->
  exists s creating, apply_upgrade_args (negb (is_nil creating)) (storage (mem h)) args r = Some s /\
    (forall keys, creating_keys_cell h = Some keys -> creating = keys) /\
    mem h' = set_state_after_upgrade s (set_of_list (btree_keys (canister_tracking_reasons s))) (restarted (storage (mem h)) r) /\
    timers = install_timers (st (mem h')).
Proof using.
  intros Er Hup. unfold post_upgrade in Hup. apply bind_Some in Hup as (h1 & Hh & [= <- <-]).
  unfold restore_post_upgrade_state in Hh. rewrite Er in Hh. apply bind_Some in Hh as ([creating h2] & Hk & (s & Ha & Hj)%bind_Some).
  apply reconcile_mem in Hj. apply creating_keys_mem in Hk as [Em Hcell]. exists s, creating. split; [done|]. split; [exact Hcell|].
  split; [|done]. rewrite Hj. cbn. by rewrite Em.
Qed.

(** The journal of an upgraded heap: every entry is reconciled, whatever the arguments. *)
Lemma upgraded_setups args (h h' : Heap) timers : journal_ok h -> post_upgrade args h = Some (h', timers) ->
  journal_ok h' /\ forall key, get_entry key h' = reconciled (get_entry key h).
Proof using.
  intros Hok Hup. unfold post_upgrade in Hup. apply bind_Some in Hup as (h1 & Hh & [= <- <-]). unfold restore_post_upgrade_state in Hh.
  destruct (restore_state_from_stable (storage (mem h))) as [[r|]|]; [|done..].
  set (h0 := MkHeap (restarted (storage (mem h)) r) (relay_setup_entries h) (creating_keys_cell h) Limiter_default) in Hh.
  assert (Hok0 : journal_ok h0) by (destruct Hok; by constructor).
  destruct (creating_keys_ok h0 Hok0) as (h2 & E2 & Hf & Em & _). rewrite E2 in Hh. cbn [mbind option_bind] in Hh.
  apply bind_Some in Hh as (s1 & _ & Hr). set (h3 := h2 <| mem ::= _ |>) in Hr.
  assert (Hf3 : frame h0 h3) by (destruct Hf as [H1 H2 _]; split; [exact H1|exact H2|cbn; by rewrite Em]).
  destruct (reconcile_path h3 (frame_ok _ _ Hok0 Hf3)) as (h4 & E4 & Hok4 & _ & Hg). rewrite Hr in E4. injection E4 as <-.
  split; [done|]. intros key. rewrite Hg. by rewrite (frame_get _ _ key Hf3).
Qed.

(** C16: An upgrade with any arguments either aborts or keeps the books: the books of the
    restarted canister are in order if they were, for the accounts that its configuration
    names, and once anything was indexed those are the same accounts; every setup of the
    relay factory survives as its reconciliation leaves it; nothing that a relay in creation
    was paid for changes; the configuration is valid and its limits are clamped; no lease
    taken before the upgrade is current after it; the new root section is stored. *)
Theorem upgrade_keeps_books (args : option UpgradeArgs) (h h' : Heap) (timers : list Timer)
    (Hdurable : durable (mem h)) (Hidle : persistence_batch_depth (mem h) = 0) (Hup : post_upgrade args h = Some (h', timers)) :
  let s := st (mem h) in let s' := st (mem h') in
  (forall U visible RU rvisible, in_order U visible RU rvisible (mem h) -> in_order U visible RU rvisible (mem h')) /\
  (anything_indexed s -> counted_accounts (config s') = counted_accounts (config s)) /\
  (forall key, get_commitment_route_rollup key (storage (mem h')) = get_commitment_route_rollup key (storage (mem h))) /\
  (journal_ok h -> journal_ok h' /\ forall key, get_entry key h' = reconciled (get_entry key h)) /\
  (forall keys, creating_keys_cell h = Some keys -> keys <> [] -> paid_config (config s') = paid_config (config s)) /\
  (validate_config (config s') = true /\ limits_ok (config s')) /\
  ((forall lease, lease <> 0 -> main_is_current_in lease s' = false) /\
   (forall t, token_generation t <= generation s -> generation s < u64_max -> is_current_in t s' = false)) /\
  stable_root (storage (mem h')) = Some (build_root_snapshot s') /\ timers = install_timers s'.
Proof using L SL.
  intros s s'. destruct (restored_normalized _ Hdurable Hidle) as (r & Er & [Erc Hr]). injection Erc as Ec Eg. fold s in Ec, Eg.
  destruct (upgraded_parts _ _ _ _ _ Er Hup) as (s1 & creating & Ha & Hcell & Emem & Etimers).
  apply upgrade_applied in Ha as (Hc & Ecfg & Hv & Eg1 & Em0 & _ & Hid & Hpaid).
  assert (Es : s' = s1) by (unfold s'; by rewrite Emem).
  assert (Hsame : anything_indexed s -> counted_accounts (config s') = counted_accounts (config s))
    by (intros Hany; rewrite Es, <-Ec; by apply Hid, indexed_started, (carried_anything s)).
  split; [|split; [exact Hsame|split; [|split; [intros Hj; by eapply upgraded_setups|split; [|split; [|split; [|split; [|done]]]]]]]].
  - intros U visible RU rvisible Ho. eapply in_order_carried; [exact Ho|..].
    + fold s'. rewrite Es, (ca_root _ _ Hc). apply (ca_root _ _ Hr).
    + intros sid min txs Hi. fold s'. rewrite Es, Emem. apply persist_indexed. eapply indexed_carried; [exact Hc|]. by eapply indexed_carried.
    + exact Hsame.
    + by rewrite Emem.
  - intros key. rewrite Emem. unfold get_commitment_route_rollup. by rewrite upgrade_storage, persist_rollups.
  - intros keys Hkeys Hne. rewrite (Hcell _ Hkeys) in Hpaid. rewrite Es, Ecfg. rewrite <-Ec. unfold config_after.
    destruct args as [a|]; [|done]. transitivity (paid_config (upgraded_config a (config r))); [done|]. apply same_paid_config.
    apply Hpaid; [by destruct keys|done].
  - rewrite Es. split; [done|]. rewrite Ecfg. apply clamped_limits.
  - rewrite Es. split.
    + intros lease Hl. unfold main_is_current_in. rewrite Em0. apply bool_decide_eq_false. intros [= E]. done.
    + intros t Ht Hg. unfold is_current_in. apply andb_false_iff. right. apply Z.eqb_neq. change (generation s1 <> token_generation t).
      rewrite Eg1, Eg. unfold sat_add. change (generation s) with (generation (st (mem h))) in *. lia.
  - by rewrite Es, Emem, upgrade_storage, persist_root.
Qed.

Lemma persist_snapshot_rollups s g : commitment_route_rollup_map (persist_snapshot s g) = commitment_route_rollup_map g.
Proof using. apply persist_rollups. Qed.

Lemma fresh_in_order cfg now_secs U visible RU rvisible : in_order U visible RU rvisible (restarted Storage_empty (State_new cfg now_secs)).
Proof using.
  split; [|split; [|by split; [|constructor]]].
  - split; [|constructor]. split; [done|done|done|done|].
    refine (eq_ind_r (fun l => index_mem _ _ l _) _ (covered_empty false U)). split; [|done].
    split; try reflexivity; split; by intros ? ? ?%not_elem_of_nil || (intros ? ? ? ?%not_elem_of_nil; done).
  - split; [|constructor]. split; [|done]. intros [];
      [set (k := RouteOutput)|set (k := RouteRewards)]; (split; [done|done|done|done|]);
      exact (@eq_ind_r _ [] (fun l => Some 0 = Some (routed_total (source_text cfg) (route_text cfg) k l)) eq_refl _ (covered_empty false (RU k))).
Qed.
Lemma clamped_fix c : limits_ok c -> clamped_config c = c.
Proof using.
  intros Hl. unfold limits_ok in Hl. destruct c. cbn in Hl. destruct Hl as (H1 & H2 & H3 & H4).
  unfold clamped_config, clamp_config, clamp_cycles_entries_per_canister, clamp_commitment_entries_per_canister, clamp_index_pages_per_tick,
    clamp_canisters_per_cycles_tick, MAX_CYCLES_ENTRIES_PER_CANISTER_HARD_CAP, MAX_COMMITMENT_ENTRIES_PER_CANISTER_HARD_CAP,
    MAX_INDEX_PAGES_PER_TICK_HARD_CAP, MAX_CANISTERS_PER_CYCLES_TICK_HARD_CAP, clamp.
  assert (Hf : forall v hi, 1 <= v <= hi -> Z.max 1 (Z.min hi v) = v) by lia. lazy -[Z.max Z.min].
 by rewrite !Hf.
Qed.
Lemma init_limits args : limits_ok (config_of_init_args args).
Proof using.
  unfold limits_ok, config_of_init_args. cbn [max_cycles_entries_per_canister max_commitment_entries_per_canister max_index_pages_per_tick
    max_canisters_per_cycles_tick]. unfold clamp_cycles_entries_per_canister, clamp_commitment_entries_per_canister, clamp_index_pages_per_tick,
    clamp_canisters_per_cycles_tick, MAX_CYCLES_ENTRIES_PER_CANISTER_HARD_CAP, MAX_COMMITMENT_ENTRIES_PER_CANISTER_HARD_CAP,
    MAX_INDEX_PAGES_PER_TICK_HARD_CAP, MAX_CANISTERS_PER_CYCLES_TICK_HARD_CAP, clamp. lia.
Qed.

(** C17: An installation aborts or leaves books that are in order, whatever the accounts hold:
    nothing is counted yet; the configuration is valid, its limits are clamped, no
    setup is being created and everything is stored. *)
Theorem installation_in_order (now_nanos : Z) (args : InitArgs) (h : Heap) (timers : list Timer)
    (Hinit : init now_nanos args = Some (h, timers)) :
  let s := st (mem h) in
  (forall U visible RU rvisible, in_order U visible RU rvisible (mem h)) /\ ~ anything_indexed s /\
  (forall key, get_commitment_route_rollup key (storage (mem h)) = CommitmentRouteRollup_default) /\
  (validate_config (config s) = true /\ limits_ok (config s)) /\ journal_ok h /\
  stable_root (storage (mem h)) = Some (build_root_snapshot s) /\ timers = install_timers s.
Proof using.
  unfold init, config_from_init_args in Hinit. apply bind_Some in Hinit as (cfg & Hcfg & (s & Hs & Hh)%bind_Some).
  cbv zeta in Hcfg. destruct (validate_config (config_of_init_args args)) eqn:Hv; [|done]. injection Hcfg as <-.
  set (s0 := State_new _ _) in Hs. pose proof (normalized_canonical Storage_empty s0) as [Ec0 H0]. apply normalize_normalized in Hs as [Ec1 H1].
  injection Ec0 as Ec0 _. injection Ec1 as Ec1 _.
  assert (Hc : carried s0 s) by (eapply carried_trans; [exact H0|]; eapply carried_trans; [|exact H1]; by apply carried_frame).
  assert (Ec : config s = config_of_init_args args).
  { change (config s0) with (config_of_init_args args) in Ec0. rewrite Ec1, <-(clamped_fix _ (init_limits args)), <-Ec0. reflexivity. }
  unfold relay_creating_keys in Hh. cbn [creating_keys_cell relay_setup_entries mbind option_bind] in Hh. injection Hh as <- <-.
  cbn [mem]. change (st (mem (_ <| creating_keys_cell := _ |>))) with s. change (st (set_state s _)) with s.
  set (m := set_state s (restarted Storage_empty s)).
  split; [|split; [|split; [|split; [|split; [|done]]]]].
  - intros U visible RU rvisible. apply (in_order_carried _ _ _ _ (restarted Storage_empty s0)); [apply fresh_in_order|apply (ca_root _ _ Hc)| | |done].
    + intros sid min txs Hi. apply (persist_indexed sid min txs s). by eapply indexed_carried.
    + intros [Hany|[[] Hany]]; done.
  - intros Hany. unfold anything_indexed in Hany.
    rewrite (f_equal (fun b => b.1.1.1.1.1) (ca_root _ _ Hc) : walk_of s = walk_of s0) in Hany. destruct Hany as [Hany|[kind Hany]]; [done|].
    destruct kind.
    + by rewrite (f_equal (fun b => b.1.1.1.2.1.1) (ca_root _ _ Hc) : route_walk s RouteOutput = route_walk s0 RouteOutput) in Hany.
    + by rewrite (f_equal (fun b => b.1.1.2.1.1) (ca_root _ _ Hc) : route_walk s RouteRewards = route_walk s0 RouteRewards) in Hany.
  - intros key. change (storage (mem _)) with (persist_snapshot s Storage_empty). unfold get_commitment_route_rollup. by rewrite persist_snapshot_rollups.
  - rewrite Ec. split; [exact Hv|apply init_limits].
  - constructor; cbn; [done|constructor|unfold MAX_CONCURRENT_FUNDED_RELAY_SETUPS; cbn; lia| |done]. intros key. cbn.
    split; [by intros ?%not_elem_of_nil|by intros []].
Qed.
End upgrade.

(** * An installation and an upgrade *)

Module ConcreteUpgrade.
Import Concrete ConcreteKeys ConcreteTexts ConcreteHash ConcreteDurable ConcreteIndex ConcreteRoutes ConcreteTick ConcreteFactory.
Abbreviation principal := (Principal (PrincipalSpec:=concrete_principal)).

#[export] Instance concrete_build : BuildSpec (H:=concrete_principal) := {|
  mainnet_ledger_id := 1 : principal; mainnet_index_id := 2 : principal; mainnet_disburser_id := 20 : principal;
  mainnet_rewards_id := 21 : principal; mainnet_cmc_id := 3 : principal; mainnet_faucet_id := 5 : principal;
  mainnet_relay_id := 22 : principal; mainnet_sns_wasm_id := 6 : principal; mainnet_xrc_id := 8 : principal;
  mainnet_canonical_relay_targets := [20 : principal; 5 : principal]; source_module_hash_canister_ids := [20 : principal; 5 : principal];
  relay_raw_wasm_sha256 := Some (replicate 64 70); relay_gz_wasm_sha256 := Some (replicate 64 48) |}.
Definition default_args : InitArgs (P:=concrete_principal) :=
  MkInitArgs (P:=concrete_principal) account7 None None None None None None None None None None None None None (Some 7000) None (Some 0) None None None
    None None None (Some 5) None None.
Abbreviation first_install := (init 1000000000000 default_args).
Definition no_args : UpgradeArgs (P:=concrete_principal) :=
  MkUpgradeArgs (P:=concrete_principal) None None None None None None None None None None None None None None None None None None None None None None
    None None None None None.

Definition installed_heap : heap := match first_install with Some (h, _) => h | None => heap0 end.
Example installed_config : let c := config (st (mem installed_heap)) in
  max_cycles_entries_per_canister c = 250 /\ max_index_pages_per_tick c = 1 /\ self_service_relay_interval_seconds c = 60 /\
  canister_tracking_reasons (st (mem installed_heap)) =
    [(5 : principal, [RelayTarget]); (20 : principal, [RelayTarget]); (22 : principal, [RelayInstance])].
Proof. vm_compute. done. Qed.

Lemma installation_in_order_witness : first_install = Some (installed_heap, install_timers (st (mem installed_heap))) /\
  validate_config (config (st (mem installed_heap))) = true.
Proof.
  assert (E : first_install = Some (installed_heap, install_timers (st (mem installed_heap)))) by (vm_compute; reflexivity).
  split; [exact E|]. destruct (installation_in_order 1000000000000 default_args installed_heap _ E) as (_ & _ & _ & [Hv _] & _). exact Hv.
Defined.

(** The staking account is indexed down to transaction 4. *)
Definition state4 : state := state2 <| last_indexed_staking_tx_id := Some 9 |> <| oldest_indexed_staking_tx_id := Some 4 |>.
Definition heap4 : heap := MkHeap (set_state state4 (restarted Storage_empty state4)) [] None Limiter_default.
(** An equal account under another name is accepted, another account is not. *)
Definition renamed_args := no_args <| u_staking_account := Some (account7 <| subaccount := Some (replicate 32 0) |>) |> <| u_scan_interval_seconds := Some 30 |>.
Definition redefined_args := no_args <| u_output_account := Some account7 |>.
Example redefinition_aborts : post_upgrade (Some redefined_args) heap4 = None.
Proof. vm_compute. reflexivity. Qed.

(** [heap4] with a setup whose payment was dispatched. *)
Definition heap5 : heap := paid_heap <| mem := mem heap4 |>.
Lemma heap5_ok : journal_ok heap5.
Proof. destruct paid_heap_ok. by constructor. Qed.
Definition upgraded_heap : heap := match post_upgrade (Some renamed_args) heap5 with Some (h, _) => h | None => heap0 end.
Lemma durable4 : durable (mem heap4).
Proof. apply init_durable; [repeat split; try done; constructor|done..]. Qed.
Lemma upgrade_keeps_books_witness :
  post_upgrade (Some renamed_args) heap5 = Some (upgraded_heap, install_timers (st (mem upgraded_heap))) /\
  counted_accounts (config (st (mem upgraded_heap))) = counted_accounts config2 /\
  get_entry key0 upgraded_heap = Some (ManualRecoveryRequired (progress2 <| last_error := Some "HistorianUpgradeInterrupted"%string |>)) /\
  scan_interval_seconds (config (st (mem upgraded_heap))) = 30 /\ walk_latest (walk_of (st (mem upgraded_heap))) = Some 9.
Proof.
  assert (E : post_upgrade (Some renamed_args) heap5 = Some (upgraded_heap, install_timers (st (mem upgraded_heap)))) by (vm_compute; reflexivity).
  split; [exact E|].
  destruct (upgrade_keeps_books (Some renamed_args) heap5 upgraded_heap _ durable4 eq_refl E) as (_ & Hsame & _ & Hsetups & _).
  split; [apply Hsame; left; discriminate|]. split; [rewrite (proj2 (Hsetups heap5_ok)); vm_compute; reflexivity|]. split; vm_compute; reflexivity.
Defined.

(** A canister whose only reason is a memo commitment that no retained sample supports: the
    normalization forgets it, but the registry keys that an upgrade writes are those that
    are left, so its stored entry stays and the next upgrade restores it. *)
Definition stale_state : state := state2 <| canister_tracking_reasons := [(9 : principal, [MemoCommitment]); (11 : principal, [SnsDiscovery])] |>
  <| per_canister_meta := [(9 : principal, CanisterMeta_default)] |>.
Definition stale_heap : heap := MkHeap (set_state stale_state (restarted Storage_empty stale_state)) [] None Limiter_default.
Definition stale_upgraded : heap := match post_upgrade None stale_heap with Some (h, _) => h | None => heap0 end.
Lemma stale_registry_entry_survives : is_some (post_upgrade None stale_heap) = true /\
  canister_tracking_reasons (st (mem stale_upgraded)) = [(11 : principal, [SnsDiscovery])] /\
  (exists s, restore_state_from_stable (storage (mem stale_upgraded)) = Ok (Some s) /\
     canister_tracking_reasons s = [(9 : principal, [MemoCommitment]); (11 : principal, [SnsDiscovery])]).
Proof. split; [vm_compute; reflexivity|]. split; [vm_compute; reflexivity|]. eexists. split; [vm_compute; reflexivity|vm_compute; reflexivity]. Qed.

End ConcreteUpgrade.
