(* ===== verification/HistorianReadModel.v ===== *)
(** * Historian: the queries of the read model ([read_model.rs], [endowment_poke.rs])

    Every query is a function of the state and of the stable maps: the pages of the
    canister list, of the aliases and of the histories, the route summaries, the status and
    the counts, the search by prefix, the recent commitments, and what the index says of an
    expected transaction. *)

From stdpp Require Import sorting.
From S2P Require Import Prelude BTree Async Ic Accounts Clients MemoPolicy CyclesProbe HistorianTypes HistorianKeys HistorianState HistorianTracking HistorianCommitments RelaySetup HistorianLifecycle.

(** ** The page loop

    The items that [select] gives, [limit] of them; when there is one more, the cursor of
    the last item says where the next page starts. *)

Section pages.
Context {X A K : Type} (select : X -> option A) (cursor : A -> K) (limit : nat).
Fixpoint page_loop (items : list A) (l : list X) : list A * option K :=
  match l with
  | [] => (items, None)
  | x :: l =>
      match select x with
      | None => page_loop items l
      | Some a => if (limit <=? length items)%nat then (items, cursor <$> last items) else page_loop (items ++ [a]) l
      end
  end.
End pages.

(** [read_model.rs] keeps the items after the cursor, before it when they are read backwards. *)
Definition after_cursor {A} (key : A -> Z) (start_after : option Z) (descending : bool) (item : A) : option A :=
  match start_after with
  | Some k => if (if descending then key item <? k else k <? key item) then Some item else None
  | None => Some item
  end.
Definition history_page {A} (key : A -> Z) (history : list A) (start_after : option Z) (limit : option Z) (descending : option bool) :
    list A * option Z :=
  let descending := default false descending in
  page_loop (after_cursor key start_after descending) key (clamp_public_limit limit 100) []
    (if descending then rev history else history).

(** [normalize_raw_destination]: [Err] is a subaccount of another length. *)
Definition normalize_raw_destination (destination_subaccount : option (list Z)) : result (option (list Z)) unit :=
  match destination_subaccount with
  | None => Ok None
  | Some bytes =>
      if negb (length bytes =? 32)%nat then Err tt
      else Ok (if existsb (fun b => negb (b =? 0)) bytes then Some bytes else None)
  end.

Section queries.
Context `{P : PrincipalSpec} `{O : !OrdSpec Principal} `{SS : !SliceSpec} `{T : TextSpec} `{F : !FactorySpec} `{B : !BuildSpec}.
#[local] Existing Instance Principal_eq_dec.

(** ** Aliases *)

Record CanisterAlias := MkAlias { alias : list Z; alias_canister_id : Principal }.
Record AliasesPage := MkAliasesPage { alias_revision : list Z; alias_items : list CanisterAlias; alias_next_start_after : option (list Z) }.
Definition alias_le (a b : CanisterAlias) : Prop := ltb (alias b) (alias a) = false.
#[export] Instance alias_le_dec a b : Decision (alias_le a b).
Proof. unfold alias_le. apply _. Defined.
(** [Principal::from_text(..).expect(..)] of each binding. *)
Fixpoint alias_table (bindings : list (list Z * list Z)) : option (list CanisterAlias) :=
  match bindings with
  | [] => Some []
  | (a, principal) :: bindings => p ← principal_from_text principal; rest ← alias_table bindings; Some (MkAlias a p :: rest)
  end.
Definition alias_preimage (table : list CanisterAlias) : list Z :=
  bytes_of_string "JUPITER_CANISTER_ALIASES_V1" ++ [0] ++ be_bytes 4 (Z.of_nat (length table) mod 2 ^ 32)
  ++ concat (map (fun item => byte_len (alias item) :: alias item
       ++ byte_len (principal_as_slice (alias_canister_id item)) :: principal_as_slice (alias_canister_id item)) table).
Definition canister_aliases_page (bindings : list (list Z * list Z)) (start_after : option (list Z)) (limit : option Z) :
    option AliasesPage :=
  table ← alias_table bindings;
  let table := merge_sort alias_le table in
  let limit := Z.to_nat (clamp 1 128 (default 128 limit)) in
  let remaining := List.filter (fun item => match start_after with Some c => ltb c (alias item) | None => true end) table in
  let items := take limit remaining in
  Some (MkAliasesPage (sha256 (alias_preimage table)) items
    (match drop limit remaining with [] => None | _ => alias <$> last items end)).

(** ** Canisters and histories *)

Record CanisterListItem := MkListItem { item_canister_id : Principal; item_tracking_reasons : list CanisterTrackingReason }.
Definition listed_canister (g : Storage) (s : State) (filter : option CanisterTrackingReason) (p : Principal) : option CanisterListItem :=
  reasons ← visible_tracking_reasons_for_canister g s p;
  match filter with
  | Some r => if set_contains r reasons then Some (MkListItem p reasons) else None
  | None => Some (MkListItem p reasons)
  end.
Definition list_canisters (start_after : option Principal) (limit : option Z) (filter : option CanisterTrackingReason) (g : Storage) (s : State) :
    list CanisterListItem * option Principal :=
  page_loop (listed_canister g s filter) item_canister_id (clamp_public_limit limit 50) []
    (match start_after with
     | Some start => List.filter (fun p => ltb start p) (distinct_canisters s)
     | None => distinct_canisters s
     end).

Definition get_cycles_history (p : Principal) (start_after_ts limit : option Z) (descending : option bool) (g : Storage) (s : State) :
    list CyclesSample * option Z :=
  history_page cycles_timestamp_nanos (cycles_history_snapshot g s p) start_after_ts limit descending.
Definition get_commitment_history (p : Principal) (start_after_tx_id limit : option Z) (descending : option bool) (g : Storage) (s : State) :
    list CommitmentSample * option Z :=
  history_page sample_tx_id (commitment_history_snapshot g s p) start_after_tx_id limit descending.
Definition same_destination (destination : option (list Z)) (sample : CommitmentSample) : bool :=
  match normalize_raw_destination (sample_raw_icp_destination_subaccount sample) with
  | Ok d => bool_decide (d = destination)
  | Err _ => false
  end.
Definition get_raw_icp_commitment_history (p : Principal) (destination_subaccount : option (list Z)) (start_after_tx_id limit : option Z)
    (descending : option bool) (g : Storage) (s : State) : list CommitmentSample * option Z :=
  match normalize_raw_destination destination_subaccount with
  | Err _ => ([], None)
  | Ok destination =>
      history_page sample_tx_id (List.filter (same_destination destination) (raw_icp_commitment_history_snapshot g s p))
        start_after_tx_id limit descending
  end.
Definition get_neuron_commitment_history (neuron_id : Z) (start_after_tx_id limit : option Z) (descending : option bool) (g : Storage) (s : State) :
    list CommitmentSample * option Z :=
  history_page sample_tx_id (neuron_commitment_history_snapshot g s neuron_id) start_after_tx_id limit descending.

(** ** Route summaries and the completeness of the index *)

Definition commitment_index_is_complete (s : State) : bool :=
  bool_decide (commitment_route_rollups_complete_from_genesis s = Some true)
  && negb (bool_decide (staking_index_descending s = Some false))
  && is_none (active_staking_catch_up s) && is_none (commitment_index_fault s).
Record CommitmentRouteSummary := MkRouteSummary {
  summary_route : CommitmentRoute; route_qualifying_commitment_count : Z; route_total_qualifying_committed_e8s : Z }.
Record RouteSummaries := MkRouteSummaries {
  route_items : list CommitmentRouteSummary;
  route_truncated : bool;
  complete_from_genesis : bool;
  indexed_through_staking_tx_id : option Z;
  summaries_oldest_indexed_staking_tx_id : option Z;
  summaries_last_index_run_ts : option Z;
  summaries_commitment_index_fault : option CommitmentIndexFault;
  summaries_revision : option Z;
  observed_head_staking_tx_id : option Z;
  next_staking_start_tx_id : option Z;
}.
Definition route_summary (g : Storage) (route : CommitmentRoute) : CommitmentRouteSummary :=
  let rollup := match from_public route with Some key => get_commitment_route_rollup key g | None => CommitmentRouteRollup_default end in
  MkRouteSummary route (rollup_qualifying_commitment_count rollup) (rollup_total_qualifying_committed_e8s rollup).
Definition get_commitment_route_summaries (routes : list CommitmentRoute) (g : Storage) (s : State) : RouteSummaries := {|
  route_items := map (route_summary g) (take (Z.to_nat MAX_PUBLIC_QUERY_LIMIT) routes);
  route_truncated := (Z.to_nat MAX_PUBLIC_QUERY_LIMIT <? length routes)%nat;
  complete_from_genesis := commitment_index_is_complete s;
  indexed_through_staking_tx_id := last_indexed_staking_tx_id s;
  summaries_oldest_indexed_staking_tx_id := oldest_indexed_staking_tx_id s;
  summaries_last_index_run_ts := last_index_run_ts s;
  summaries_commitment_index_fault := commitment_index_fault s;
  summaries_revision := Some (commitment_index_revision s);
  observed_head_staking_tx_id :=
    match active_staking_catch_up s with Some progress => Some (observed_head_tx_id progress) | None => last_indexed_staking_tx_id s end;
  next_staking_start_tx_id := progress ← active_staking_catch_up s; next_start_tx_id progress;
|}.

(** *** What is known of a transaction *)

Inductive ExpectedEndowmentStatus := KnownIndexed | ObservedNotQualifying | NotYetObserved | NotFoundInRetainedEvidence.
Definition retained_in {A} (id_of : A -> Z) (id : Z) (recent : option (list A)) : bool :=
  existsb (fun item => id_of item =? id) (default [] recent).
(** What the cursors say. *)
Definition cursor_status (id : Z) (s : State) : ExpectedEndowmentStatus :=
  match active_staking_catch_up s with
  | Some progress =>
      if (observed_head_tx_id progress <? id)
         || (boundary_tx_id progress <? id) && is_some_and (next_start_tx_id progress) (fun next => id <? next)
      then NotYetObserved else NotFoundInRetainedEvidence
  | None =>
      if is_some_and (last_indexed_staking_tx_id s) (fun head => head <? id) then NotYetObserved
      else if is_some_and (oldest_indexed_staking_tx_id s)
                (fun oldest => negb (bool_decide (staking_backfill_complete s = Some true)) && (id <? oldest)) then NotYetObserved
      else if is_some (last_indexed_staking_tx_id s) then NotFoundInRetainedEvidence else NotYetObserved
  end.
Definition expected_transaction_status (id : Z) (s : State) : ExpectedEndowmentStatus :=
  if retained_in rc_tx_id id (recent_commitments s) || retained_in rn_tx_id id (recent_neuron_commitments s) then KnownIndexed
  else if retained_in rc_tx_id id (recent_under_threshold_commitments s)
          || retained_in rn_tx_id id (recent_under_threshold_neuron_commitments s)
          || retained_in invalid_tx_id id (recent_invalid_commitments s) then ObservedNotQualifying
  else cursor_status id s.
Record EndowmentTransactionStatus := MkTransactionStatus {
  status_transaction_id : Z; status : ExpectedEndowmentStatus; status_revision : Z; status_complete_from_genesis : bool;
  status_fault : option CommitmentIndexFault }.
Definition endowment_transaction_status (id : Z) (s : State) : EndowmentTransactionStatus :=
  MkTransactionStatus id (expected_transaction_status id s) (commitment_index_revision s) (commitment_index_is_complete s) (commitment_index_fault s).

(** ** Overview, counts and status *)

Record CanisterOverview := MkOverview {
  overview_canister_id : Principal; overview_tracking_reasons : list CanisterTrackingReason; overview_meta : CanisterMeta;
  cycles_points : Z; commitment_points : Z }.
Definition as_u32 (n : nat) : Z := Z.of_nat n mod 2 ^ 32.
Definition get_canister_overview (p : Principal) (g : Storage) (s : State) : option CanisterOverview :=
  reasons ← visible_tracking_reasons_for_canister g s p;
  Some (MkOverview p reasons (default CanisterMeta_default (btree_get p (per_canister_meta s)))
    (as_u32 (length (cycles_history_snapshot g s p))) (as_u32 (length (commitment_history_snapshot g s p)))).

Definition count_reasons (f : btree_set CanisterTrackingReason -> bool) (s : State) : Z :=
  Z.of_nat (length (List.filter f (btree_values (canister_tracking_reasons s)))).
Definition count_registered_canisters : State -> Z := count_reasons (set_contains MemoCommitment).
Definition count_tracked_canisters : State -> Z := count_reasons (fun sources => negb (is_nil sources)).
Definition count_sns_discovered_canisters : State -> Z := count_reasons (set_contains SnsDiscovery).
Definition count_relay_target_canisters : State -> Z := count_reasons (set_contains RelayTarget).
Definition count_relay_instance_canisters : State -> Z := count_reasons (set_contains RelayInstance).
Definition count_raw_icp_declared_canisters (g : Storage) (s : State) : Z :=
  Z.of_nat (length (set_of_list (btree_keys (raw_icp_commitment_history s) ++ stable_keys (stable_raw_icp g)))).
Definition count_declared_neurons (g : Storage) (s : State) : Z :=
  Z.of_nat (length (set_of_list (btree_keys (neuron_commitment_history s) ++ btree_keys (history_index (stable_neurons g))))).
Record PublicCounts := MkCounts {
  tracked_canister_count : Z; memo_registered_canister_count : Z; raw_icp_declared_canister_count : option Z;
  declared_neuron_count : option Z; public_qualifying_commitment_count : Z; sns_discovered_canister_count : Z;
  relay_target_canister_count : Z; relay_instance_canister_count : Z; public_total_output_e8s : Z; public_total_rewards_e8s : Z }.
(** [None]: one of the [expect]s fails. *)
Definition get_public_counts (g : Storage) (s : State) : option PublicCounts :=
  qualifying ← qualifying_commitment_count s;
  output ← total_output_e8s s;
  rewards ← total_rewards_e8s s;
  Some (MkCounts (count_tracked_canisters s) (count_registered_canisters s) (Some (count_raw_icp_declared_canisters g s))
    (Some (count_declared_neurons g s)) qualifying (count_sns_discovered_canisters s) (count_relay_target_canisters s)
    (count_relay_instance_canisters s) output rewards).

Definition route_index_fault (s : State) : option string :=
  let output_ascending := bool_decide (output_route_index_descending s = Some false) in
  let rewards_ascending := bool_decide (rewards_route_index_descending s = Some false) in
  let output_incomplete := negb (bool_decide (output_route_backfill_complete s = Some true)) in
  let rewards_incomplete := negb (bool_decide (rewards_route_backfill_complete s = Some true)) in
  match output_ascending, rewards_ascending with
  | true, true => Some "unsupported persisted ascending output and rewards pagination state"%string
  | true, false => Some "unsupported persisted ascending output pagination state"%string
  | false, true => Some "unsupported persisted ascending rewards pagination state"%string
  | false, false =>
      match output_incomplete, rewards_incomplete with
      | true, true => Some "output and rewards historical route backfills are incomplete"%string
      | true, false => Some "output historical route backfill is incomplete"%string
      | false, true => Some "rewards historical route backfill is incomplete"%string
      | false, false => None
      end
  end.

Definition effective_faucet_canister_id (s : State) : Principal := default mainnet_faucet_id (faucet_canister_id (config s)).
Record PublicStatus := MkPublicStatus {
  ps_staking_account : Account;
  ps_ledger_canister_id : Principal;
  ps_faucet_canister_id : Principal;
  ps_cmc_canister_id : option Principal;
  ps_output_source_account : option Account;
  ps_output_account : option Account;
  ps_rewards_account : option Account;
  ps_index_canister_id : option Principal;
  ps_last_index_run_ts : option Z;
  ps_index_interval_seconds : Z;
  ps_last_completed_cycles_sweep_ts : option Z;
  ps_cycles_interval_seconds : Z;
  ps_heap_memory_bytes : option Z;
  ps_stable_memory_bytes : option Z;
  ps_total_memory_bytes : option Z;
  ps_commitment_index_fault : option CommitmentIndexFault;
  ps_route_index_fault : option string;
  ps_icp_xdr_rate : option IcpXdrRateSnapshot;
  ps_last_icp_xdr_rate_error : option string;
  ps_relay_factory_enabled : option bool;
  ps_relay_setup_min_e8s : option Z;
}.
(** The two sizes are those of the memories of the canister. *)
Definition get_public_status (heap_memory_bytes stable_memory_bytes : Z) (s : State) : PublicStatus := {|
  ps_staking_account := staking_account (config s);
  ps_ledger_canister_id := ledger_canister_id (config s);
  ps_faucet_canister_id := effective_faucet_canister_id s;
  ps_cmc_canister_id := cmc_canister_id (config s);
  ps_output_source_account := Some (output_source_account (config s));
  ps_output_account := Some (output_account (config s));
  ps_rewards_account := Some (rewards_account (config s));
  ps_index_canister_id := Some (index_canister_id (config s));
  ps_last_index_run_ts := last_index_run_ts s;
  ps_index_interval_seconds := scan_interval_seconds (config s);
  ps_last_completed_cycles_sweep_ts :=
    if last_completed_cycles_sweep_ts s =? 0 then None else Some (last_completed_cycles_sweep_ts s);
  ps_cycles_interval_seconds := cycles_interval_seconds (config s);
  ps_heap_memory_bytes := Some heap_memory_bytes;
  ps_stable_memory_bytes := Some stable_memory_bytes;
  ps_total_memory_bytes := Some (sat_add heap_memory_bytes stable_memory_bytes);
  ps_commitment_index_fault := commitment_index_fault s;
  ps_route_index_fault := route_index_fault s;
  ps_icp_xdr_rate := icp_xdr_rate s;
  ps_last_icp_xdr_rate_error := last_icp_xdr_rate_error s;
  ps_relay_factory_enabled := Some (relay_factory_enabled (config s));
  ps_relay_setup_min_e8s := Some (relay_setup_min_e8s (config s));
|}.

(** ** Summaries and the search by prefix *)

Definition list_memo_registered_canister_summaries (page page_size : option Z) (s : State) : SummariesPage :=
  let page := default 0 page in
  let page_size := clamp 1 100 (default 25 page_size) in
  match memo_registered_canister_summaries_total_desc_page s page page_size with
  | Some response => response
  | None => MkSummariesPage [] page page_size 0
  end.

Definition DASH : Z := 45.
Definition compact (text : list Z) : list Z := List.filter (fun b => negb (b =? DASH)) text.
Fixpoint first_group (text : list Z) : list Z :=
  match text with
  | [] => []
  | b :: text => if b =? DASH then [] else b :: first_group text
  end.
Definition starts_with (text prefix : list Z) : bool := bool_decide (take (length prefix) text = prefix).
Fixpoint matches_chars (text expected : list Z) : bool :=
  match text, expected with
  | _, [] => true
  | [], _ :: _ => false
  | b :: text, e :: expected => (ascii_lowercase b =? e) && matches_chars text expected
  end.
Definition principal_matches_compact_prefix (p : Principal) (prefix : list Z) : bool :=
  let text := principal_to_text p in
  let group := first_group text in
  if (length prefix <=? length group)%nat then starts_with group prefix
  else starts_with prefix group && matches_chars (compact text) prefix.

Record CanisterPrefixMatch := MkPrefixMatch {
  match_canister_id : Principal; match_tracking_reasons : list CanisterTrackingReason; matched_prefix : list Z;
  match_qualifying_commitment_count : Z; match_total_qualifying_committed_e8s : Z; match_last_commitment_ts : option Z;
  match_latest_cycles : option Z; match_last_cycles_probe_ts : option Z }.
Definition ascii_alphanumeric (b : Z) : bool := (48 <=? b) && (b <=? 57) || (65 <=? b) && (b <=? 90) || (97 <=? b) && (b <=? 122).
(** The tracked canister [p], when it matches. *)
Definition prefix_match (g : Storage) (s : State) (prefix : list Z) (p : Principal) : option CanisterPrefixMatch :=
  if negb (principal_matches_compact_prefix p prefix) then None
  else
    reasons ← visible_tracking_reasons_for_canister g s p;
    if negb (set_contains MemoCommitment reasons) then None
    else
      summary ← memo_registered_canister_summary_for g s p;
      Some (MkPrefixMatch p (summary_tracking_reasons summary) prefix (summary_qualifying_commitment_count summary)
        (summary_total_qualifying_committed_e8s summary) (summary_last_commitment_ts summary) (summary_latest_cycles summary)
        (summary_last_cycles_probe_ts summary)).
Definition larger_first (a b : CanisterPrefixMatch) : Prop :=
  match_total_qualifying_committed_e8s b < match_total_qualifying_committed_e8s a \/
  match_total_qualifying_committed_e8s b = match_total_qualifying_committed_e8s a /\ ltb (match_canister_id b) (match_canister_id a) = false.
#[export] Instance larger_first_dec a b : Decision (larger_first a b).
Proof. unfold larger_first. apply _. Defined.
Definition find_canisters_by_memo_prefix (prefix : list Z) (limit : option Z) (g : Storage) (s : State) : list CanisterPrefixMatch * bool :=
  let prefix := map ascii_lowercase (compact prefix) in
  if (length prefix <? 4)%nat || negb (forallb ascii_alphanumeric prefix) then ([], false)
  else
    let limit := Nat.min (clamp_public_limit limit 20) 50 in
    let matched := omap (prefix_match g s prefix) (distinct_canisters s) in
    (merge_sort larger_first (take limit matched), (limit <? length matched)%nat).

(** ** Recent commitments *)

Inductive RecentCommitmentOutcomeCategory := QualifyingCommitment | UnderThresholdCommitment | InvalidTargetMemo.
Record RecentCommitmentListItem := MkRecentItem {
  ri_canister_id : option Principal;
  ri_neuron_id : option Z;
  ri_raw_icp_memo_text : option (list Z);
  ri_raw_icp_destination_subaccount : option (list Z);
  ri_neuron_memo_text : option (list Z);
  ri_memo_text : option (list Z);
  ri_tx_id : Z;
  ri_timestamp_nanos : option Z;
  ri_amount_e8s : Z;
  ri_counts_toward_faucet : bool;
  ri_outcome_category : RecentCommitmentOutcomeCategory;
}.
Definition recent_item (counts : bool) (category : RecentCommitmentOutcomeCategory) (item : RecentCommitment) : RecentCommitmentListItem :=
  MkRecentItem (Some (rc_canister_id item)) None (rc_raw_icp_memo_text item) (rc_raw_icp_destination_subaccount item) None
    (Some (principal_to_text (rc_canister_id item))) (rc_tx_id item) (rc_timestamp_nanos item) (rc_amount_e8s item) counts category.
Definition recent_neuron_item (counts : bool) (category : RecentCommitmentOutcomeCategory) (item : RecentNeuronCommitment) :
    RecentCommitmentListItem :=
  MkRecentItem None (Some (rn_neuron_id item)) None None (rn_memo_text item) (Some (bytes_of_string (nat_to_string (rn_neuron_id item))))
    (rn_tx_id item) (rn_timestamp_nanos item) (rn_amount_e8s item) counts category.
Definition recent_invalid_item (item : InvalidCommitment) : RecentCommitmentListItem :=
  MkRecentItem None None None None None (Some (invalid_memo_text item)) (invalid_tx_id item) (invalid_timestamp_nanos item)
    (invalid_amount_e8s item) false InvalidTargetMemo.
(** [None]: a list is missing, which the [expect]s turn into a trap. *)
Definition list_recent_commitments (limit : option Z) (qualifying_only : option bool) (s : State) : option (list RecentCommitmentListItem) :=
  recent ← recent_commitments s;
  low_value ← recent_under_threshold_commitments s;
  neurons ← recent_neuron_commitments s;
  low_value_neurons ← recent_under_threshold_neuron_commitments s;
  invalid ← recent_invalid_commitments s;
  let merged := merge_sort (newer_first ri_tx_id ri_timestamp_nanos)
    (map (recent_item true QualifyingCommitment) recent ++ map (recent_item false UnderThresholdCommitment) low_value
     ++ map (recent_neuron_item true QualifyingCommitment) neurons
     ++ map (recent_neuron_item false UnderThresholdCommitment) low_value_neurons ++ map recent_invalid_item invalid) in
  let items := if default false qualifying_only then List.filter ri_counts_toward_faucet merged else merged in
  Some (take (clamp_public_limit limit 20) items).

End queries.
