(* ===== verification/HistorianPages.v ===== *)
(** * Historian: what a client of the read model can rely on

    Following the cursors of a paged query gives every item once; the status of an expected
    transaction says whether the index has read it; a search by prefix finds the canisters
    whose text starts with it. *)

From Stdlib Require Import Sorted.
From stdpp Require Import sorting.
From S2P Require Import Prelude BTree Async Ic Accounts Clients MemoPolicy CyclesProbe HistorianTypes HistorianKeys HistorianState HistorianDurable HistorianTracking HistorianRanking HistorianCommitments HistorianIndexer HistorianWalk HistorianIndexed RelaySetup HistorianLifecycle HistorianReadModel.

Lemma sorted_impl {A} (R R' : A -> A -> Prop) l : (forall x y, R x y -> R' x y) -> StronglySorted R l -> StronglySorted R' l.
Proof. intros Hi. induction 1 as [|a l Hl IH Ha]; constructor; [done|]. eapply List.Forall_impl; [|exact Ha]. apply Hi. Qed.

Lemma sorted_filter {A} (R : A -> A -> Prop) f l : StronglySorted R l -> StronglySorted R (List.filter f l).
Proof.
  induction 1 as [|a l Hl IH Ha]; [constructor|]. cbn. destruct (f a); [|done]. constructor; [done|].
  rewrite List.Forall_forall in *. intros x [Hx _]%filter_In. by apply Ha.
Qed.

(** ** Following the cursors *)

Section follow.
Context {A K : Type} (cursor : A -> K).

(** A client that asks for the next page until there is none; [None]: after [fuel] pages
    there is still one. *)
Fixpoint follow (fuel : nat) (query : option K -> list A * option K) (start : option K) : option (list A) :=
  let '(items, next) := query start in
  match next, fuel with
  | None, _ => Some items
  | Some _, 0%nat => None
  | Some k, S fuel => rest ← follow fuel query (Some k); Some (items ++ rest)
  end.

Definition page_of (limit : nat) (items : list A) : list A * option K :=
  (take limit items, if (limit <? length items)%nat then cursor <$> last (take limit items) else None).

Lemma page_loop_page {X} (select : X -> option A) limit l : (0 < limit)%nat ->
  page_loop select cursor limit [] l = page_of limit (omap select l).
Proof.
  intros Hlimit. unfold page_of.
  assert (Hgen : forall items, (length items <= limit)%nat -> page_loop select cursor limit items l =
    (items ++ take (limit - length items) (omap select l),
     if (limit <? length items + length (omap select l))%nat then cursor <$> last (items ++ take (limit - length items) (omap select l)) else None)).
  { induction l as [|x l IH]; intros items Hi; cbn [page_loop].
    - cbn [omap list_omap length]. rewrite take_nil, app_nil_r, Nat.add_0_r. by destruct (Nat.ltb_spec limit (length items)); [lia|].
    - csimpl. destruct (select x) as [a|]; [|by apply IH]. destruct (Nat.leb_spec limit (length items)).
      + assert (limit - length items = 0)%nat as -> by lia. cbn [take]. rewrite app_nil_r.
        destruct (Nat.ltb_spec limit (length items + length (a :: omap select l))); [done|cbn in *; lia].
      + rewrite IH by (rewrite length_app; cbn; lia). rewrite length_app. cbn [length].
        assert (limit - length items = S (limit - (length items + 1)))%nat as -> by lia. cbn [take]. rewrite <-app_assoc.
        by assert (length items + S (length (omap select l)) = length items + 1 + length (omap select l))%nat as -> by lia. }
  rewrite Hgen by (cbn; lia). cbn [length app]. by rewrite Nat.sub_0_r.
Qed.

(** The items after each cursor, and that a page ends where the next one starts. *)
Lemma follow_complete (query : option K -> list A * option K) (items : option K -> list A) limit : (0 < limit)%nat ->
  (forall start, query start = page_of limit (items start)) ->
  (forall start a, last (take limit (items start)) = Some a -> items (Some (cursor a)) = drop limit (items start)) ->
  forall fuel start, (length (items start) <= fuel)%nat -> follow fuel query start = Some (items start).
Proof.
  intros Hlimit Hq Hnext. induction fuel as [|fuel IH]; intros start Hf; cbn [follow]; rewrite Hq; unfold page_of.
  - destruct (Nat.ltb_spec limit (length (items start))); [lia|]. by rewrite take_ge by lia.
  - destruct (Nat.ltb_spec limit (length (items start))); [|by rewrite take_ge by lia].
    destruct (last (take limit (items start))) as [a|] eqn:E.
    + cbn [fmap option_fmap option_map]. rewrite IH; rewrite (Hnext start a E); [|rewrite length_drop; lia].
      cbn [mbind option_bind]. by rewrite take_drop.
    + apply last_None in E. apply (f_equal length) in E. rewrite length_take in E. cbn in E. lia.
Qed.

(** *** Lists in the order of their cursors *)

Context (R : K -> K -> bool) (Htrans : forall a b c, R a b = true -> R b c = true -> R a c = true) (Hirrefl : forall a, R a a = false).
Definition after (start : option K) (a : A) : bool := match start with Some k => R k (cursor a) | None => true end.
Definition in_cursor_order (l : list A) : Prop := StronglySorted (fun a b => R (cursor a) (cursor b) = true) l.

Lemma order_app l k : in_cursor_order (l ++ k) -> in_cursor_order k /\ forall x y, x ∈ l -> y ∈ k -> R (cursor x) (cursor y) = true.
Proof.
  induction l as [|a l IH]; [intros H; split; [done|by intros x y ?%not_elem_of_nil]|]. intros [Hl Ha]%StronglySorted_inv.
  destruct (IH Hl) as [Hk Hlk]. split; [done|]. intros x y [->|Hx]%elem_of_cons Hy; [|by apply Hlk].
  rewrite List.Forall_forall in Ha. apply Ha. apply list_elem_of_In, elem_of_app. by right.
Qed.
Lemma order_filter f l : in_cursor_order l -> in_cursor_order (List.filter f l).
Proof. apply sorted_filter. Qed.
Lemma filter_none (f : A -> bool) l : (forall x, x ∈ l -> f x = false) -> List.filter f l = [].
Proof. induction l as [|a l IH]; intros Hf; [done|]. cbn. rewrite Hf by (by left). apply IH. intros x Hx. apply Hf. by right. Qed.
Lemma filter_filter (f h : A -> bool) l : (forall x, x ∈ l -> f x = true -> h x = true) -> List.filter f (List.filter h l) = List.filter f l.
Proof.
  induction l as [|a l IH]; intros Hf; [done|]. cbn. specialize (IH ltac:(set_solver)). pose proof (Hf a ltac:(set_solver)) as Ha.
  destruct (h a) eqn:Eh; cbn; destruct (f a) eqn:Ef; rewrite ?IH; try done. specialize (Ha eq_refl). done.
Qed.

Lemma page_end limit l start a : in_cursor_order l -> last (take limit (List.filter (after start) l)) = Some a ->
  List.filter (after (Some (cursor a))) l = drop limit (List.filter (after start) l).
Proof.
  intros Hl Ha. set (l1 := List.filter (after start) l) in *. apply last_Some in Ha as [l0 E].
  assert (Hin : a ∈ l1) by (rewrite <-(take_drop limit l1), E; set_solver).
  rewrite <-(filter_filter (after (Some (cursor a))) (after start)).
  - fold l1. pose proof (order_filter (after start) l Hl) as H1. fold l1 in H1. rewrite <-(take_drop limit l1), E in H1.
    rewrite <-(take_drop limit l1) at 1. rewrite E, List.filter_app, (filter_none _ (l0 ++ [a])); cbn [app].
    + apply filter_all. intros x Hx. cbn. apply (order_app _ _ H1); [set_solver|done].
    + intros x Hx. cbn. destruct (R (cursor a) (cursor x)) eqn:Er; [|done]. exfalso. apply elem_of_app in Hx as [Hx|Hx%list_elem_of_singleton].
      * rewrite <-app_assoc in H1. assert (Hxa : R (cursor x) (cursor a) = true) by (apply (order_app _ _ H1); [done|set_solver]).
        pose proof (Htrans _ _ _ Er Hxa) as Hc. by rewrite Hirrefl in Hc.
      * subst x. by rewrite Hirrefl in Er.
  - intros x _ Hx. cbn in Hx. subst l1. apply filter_elem in Hin as [_ Hin]. destruct start as [k|]; [|done]. cbn in *. by eapply Htrans.
Qed.
End follow.

(** ** The pages of the historian *)

Section pages.
Context `{P : PrincipalSpec} `{O : !OrdSpec Principal} `{SS : !SliceSpec} `{T : TextSpec} `{F : !FactorySpec} `{B : !BuildSpec}.
#[local] Existing Instance Principal_eq_dec.

Lemma clamp_public_limit_pos limit default_ : (0 < clamp_public_limit limit default_ <= 100)%nat.
Proof using. unfold clamp_public_limit, clamp, MAX_PUBLIC_QUERY_LIMIT. lia. Qed.

Definition in_time {A} (key : A -> Z) (h : list A) : Prop := StronglySorted (fun a b => key a < key b) h.
Definition as_read {A} (descending : option bool) (h : list A) : list A := if default false descending then rev h else h.

Lemma omap_after {A} (key : A -> Z) start descending l : omap (after_cursor key start descending) l =
  List.filter (after key (fun k x => if descending then x <? k else k <? x) start) l.
Proof using.
  induction l as [|a l IH]; [done|]. csimpl. rewrite IH. unfold after_cursor, after. destruct start as [k|]; [|done]. by destruct (if descending : bool then _ else _).
Qed.
Lemma in_time_rev {A} (key : A -> Z) h : in_time key h -> StronglySorted (fun a b => key b < key a) (rev h).
Proof using.
  induction 1 as [|a l Hl IH Ha]; [constructor|]. cbn [rev]. apply sorted_app_last; [lia|done|by repeat constructor|].
  intros x Hx%last_Some_elem_of. constructor; [|done]. rewrite List.Forall_forall in Ha. apply Ha, in_rev. by apply list_elem_of_In in Hx.
Qed.
Lemma history_pages {A} (key : A -> Z) (h : list A) limit descending : in_time key h ->
  follow (length h) (fun start => history_page key h start limit descending) None = Some (as_read descending h).
Proof using.
  intros Hh. set (d := default false descending). set (R := fun k x => if d then x <? k else k <? x).
  assert (Ho : in_cursor_order key R (as_read descending h)).
  { unfold as_read, in_cursor_order, R. fold d. destruct d; [apply in_time_rev in Hh|]; (eapply sorted_impl; [|exact Hh]); cbn; intros x y Hxy; by apply Z.ltb_lt. }
  pose proof (follow_complete key (fun start => history_page key h start limit descending)
    (fun start => List.filter (after key R start) (as_read descending h)) (clamp_public_limit limit 100)) as Hf.
  assert (Hall : List.filter (after key R None) (as_read descending h) = as_read descending h) by (apply filter_all; done).
  rewrite <-Hall. apply Hf.
  - apply clamp_public_limit_pos.
  - intros start. unfold history_page. cbv zeta. fold d. rewrite page_loop_page by apply clamp_public_limit_pos. by rewrite omap_after.
  - intros start a. apply page_end; [| |done].
    + unfold R. intros x y z. destruct d; intros; zify_bool; apply Z.ltb_lt; lia.
    + unfold R. intros x. destruct d; apply Z.ltb_irrefl.
  - rewrite Hall. unfold as_read. destruct (default false descending); [by rewrite length_rev|done].
Qed.

Lemma snapshot_in_time (l : list CommitmentSample) : NoDup (map sample_tx_id (merge_sort tx_id_le l)) -> in_time sample_tx_id (merge_sort tx_id_le l).
Proof using.
  assert (Hs : StronglySorted tx_id_le (merge_sort tx_id_le l)).
  { apply StronglySorted_merge_sort; [intros a b c; unfold tx_id_le; lia|intros a b; unfold tx_id_le; lia]. }
  revert Hs. generalize (merge_sort tx_id_le l). clear l. induction 1 as [|a l Hl IH Ha]; [constructor|]. cbn. intros [Hn Hd]%NoDup_cons.
  constructor; [by apply IH|]. rewrite List.Forall_forall in *. intros x Hx. specialize (Ha x Hx). unfold tx_id_le in Ha.
  assert (sample_tx_id x <> sample_tx_id a); [|lia]. intros E. apply Hn. rewrite <-E. apply list_elem_of_In, in_map, Hx.
Qed.

(** *** The list of canisters *)

Lemma omap_step {X Y} (f : X -> option Y) x l : omap f (x :: l) = match f x with Some y => y :: omap f l | None => omap f l end.
Proof using. reflexivity. Qed.
Lemma listed_pages filter limit g s `{L : !OrdLaws Principal} : StronglySorted (fun a b => ltb a b = true) (distinct_canisters s) ->
  follow (length (distinct_canisters s)) (fun start => list_canisters start limit filter g s) None =
    Some (omap (listed_canister g s filter) (distinct_canisters s : list Principal)).
Proof using.
  intros Hs. set (items := fun start => omap (listed_canister g s filter) (List.filter (after (fun p => p) ltb start) (distinct_canisters s))).
  assert (Hid : forall p x, listed_canister g s filter p = Some x -> item_canister_id x = p).
  { intros p x. unfold listed_canister. destruct (visible_tracking_reasons_for_canister g s p) as [r|]; [|done]. cbn [mbind option_bind].
    destruct filter as [f|]; [destruct (set_contains f r); [|done]|]; by intros [= <-]. }
  assert (Hitems : forall start, items start =
    List.filter (after item_canister_id ltb start) (omap (listed_canister g s filter) (distinct_canisters s : list Principal))).
  { intros start. unfold items. clear Hs items. induction (distinct_canisters s) as [|p l IH]; [done|]. rewrite omap_step.
    destruct (listed_canister g s filter p) as [x|] eqn:E.
    - cbn [List.filter]. rewrite <-IH. assert (after item_canister_id ltb start x = after (fun p => p) ltb start p) as ->
        by (unfold after; destruct start; [|done]; by rewrite (Hid p x E)).
      destruct (after (fun p => p) ltb start p); [|done]. by rewrite omap_step, E.
    - cbn [List.filter]. rewrite <-IH. destruct (after (fun p => p) ltb start p); [|done]. by rewrite omap_step, E. }
  assert (Ho : in_cursor_order item_canister_id ltb (omap (listed_canister g s filter) (distinct_canisters s : list Principal))).
  { clear Hitems items. induction Hs as [|p l Hl IH Hp]; [constructor|]. rewrite omap_step. destruct (listed_canister g s filter p) as [x|] eqn:E; [|done].
    constructor; [done|]. rewrite List.Forall_forall in *. intros y Hy. apply list_elem_of_In, list_elem_of_omap in Hy as (q & Hq & Ey).
    rewrite (Hid p x E), (Hid q y Ey). apply Hp. by apply list_elem_of_In. }
  rewrite (follow_complete item_canister_id _ items (clamp_public_limit limit 50)).
  - f_equal. rewrite Hitems. by apply filter_all.
  - apply clamp_public_limit_pos.
  - intros start. unfold list_canisters. rewrite page_loop_page by apply clamp_public_limit_pos. unfold items, after.
    destruct start as [k|]; [done|]. by rewrite (filter_all (fun _ => true)) by done.
  - intros start a. rewrite !Hitems. apply page_end; [apply ltb_trans|apply ltb_irrefl|done].
  - unfold items. rewrite filter_all by done. clear. induction (distinct_canisters s) as [|p l IH]; [cbn; lia|]. rewrite omap_step.
    destruct (listed_canister g s filter p); cbn [length]; lia.
Qed.

(** *** The aliases *)

Definition alias_query (bindings : list (list Z * list Z)) (limit : option Z) (start : option (list Z)) : list CanisterAlias * option (list Z) :=
  match canister_aliases_page bindings start limit with Some page => (alias_items page, alias_next_start_after page) | None => ([], None) end.
Lemma alias_pages bindings table limit : alias_table bindings = Some table -> NoDup (map alias table) ->
  follow (length table) (alias_query bindings limit) None = Some (merge_sort alias_le table).
Proof using.
  intros Ht Hn. set (sorted := merge_sort alias_le table).
  assert (Hs : StronglySorted alias_le sorted).
  { apply StronglySorted_merge_sort.
    - intros a b c H1 H2. unfold alias_le in *. destruct (ltb (alias c) (alias a)) eqn:E; [|done].
      destruct (ltb_total (alias a) (alias b)) as [Hab|[Hab|Hab]]; [|rewrite Hab in *; congruence|congruence].
      pose proof (ltb_trans _ _ _ E Hab). congruence.
    - intros a b. unfold alias_le. destruct (ltb (alias b) (alias a)) eqn:E1; [|by left]. right.
      destruct (ltb (alias a) (alias b)) eqn:E2; [|done]. pose proof (ltb_trans _ _ _ E1 E2) as Hc. by rewrite ltb_irrefl in Hc. }
  assert (Hd : NoDup (map alias sorted)).
  { assert (Hp : map alias sorted ≡ₚ map alias table) by (apply Permutation_map, merge_sort_Permutation). by rewrite Hp. }
  assert (Ho : in_cursor_order alias ltb sorted).
  { clear -Hs Hd. induction Hs as [|a l Hl IH Ha]; [constructor|]. cbn in Hd. apply NoDup_cons in Hd as [Hnot Hd].
    constructor; [by apply IH|]. rewrite List.Forall_forall in *. intros x Hx. specialize (Ha x Hx). unfold alias_le in Ha.
    destruct (ltb_total (alias a) (alias x)) as [Hlt|[Heq|Hgt]]; [done| |congruence]. exfalso. apply Hnot. rewrite Heq.
    apply list_elem_of_In, in_map, Hx. }
  rewrite (follow_complete alias _ (fun start => List.filter (after alias ltb start) sorted) (Z.to_nat (clamp 1 128 (default 128 limit)))).
  - f_equal. by apply filter_all.
  - unfold clamp. lia.
  - intros start. unfold alias_query, canister_aliases_page. rewrite Ht. cbn [mbind option_bind]. cbv zeta. fold sorted. unfold page_of.
    cbn [alias_items alias_next_start_after]. f_equal.
    set (n := Z.to_nat _). set (l := List.filter _ sorted). destruct (Nat.ltb_spec n (length l)).
    + destruct (drop n l) eqn:E; [|done]. apply (f_equal length) in E. rewrite length_drop in E. cbn in E. lia.
    + by rewrite drop_ge by lia.
  - intros start a. apply page_end; [apply ltb_trans|apply ltb_irrefl|done].
  - rewrite filter_all by done. unfold sorted. by rewrite merge_sort_Permutation.
Qed.

(** C18: Following the cursors of a paged query ends and gives every item once, in order:
    the histories of cycles, commitments, raw payments to a destination and neurons, from
    either end, whatever the page size asked for; the canisters of a tracking reason; the
    aliases.  No page holds more than a hundred items (128 aliases). *)
Theorem historian_pages_complete (g : Storage) (s : State) (limit : option Z) (descending : option bool) `{L : !OrdLaws Principal} :
  (forall p, let h := cycles_history_snapshot g s p in in_time cycles_timestamp_nanos h ->
     follow (length h) (fun start => get_cycles_history p start limit descending g s) None = Some (as_read descending h)) /\
  (forall p, let h := commitment_history_snapshot g s p in NoDup (map sample_tx_id h) ->
     follow (length h) (fun start => get_commitment_history p start limit descending g s) None = Some (as_read descending h)) /\
  (forall p d destination, let h := List.filter (same_destination destination) (raw_icp_commitment_history_snapshot g s p) in
     normalize_raw_destination d = Ok destination -> NoDup (map sample_tx_id (raw_icp_commitment_history_snapshot g s p)) ->
     follow (length h) (fun start => get_raw_icp_commitment_history p d start limit descending g s) None = Some (as_read descending h)) /\
  (forall n, let h := neuron_commitment_history_snapshot g s n in NoDup (map sample_tx_id h) ->
     follow (length h) (fun start => get_neuron_commitment_history n start limit descending g s) None = Some (as_read descending h)) /\
  (forall reason, StronglySorted (fun a b => ltb a b = true) (distinct_canisters s) ->
     follow (length (distinct_canisters s)) (fun start => list_canisters start limit reason g s) None =
       Some (omap (listed_canister g s reason) (distinct_canisters s : list Principal))) /\
  (forall bindings table, alias_table bindings = Some table -> NoDup (map alias table) ->
     follow (length table) (alias_query bindings limit) None = Some (merge_sort alias_le table)) /\
  (forall p start, (length (get_commitment_history p start limit descending g s).1 <= 100)%nat /\
     (length (get_cycles_history p start limit descending g s).1 <= 100)%nat).
Proof using.
  split; [|split; [|split; [|split; [|split; [|split]]]]].
  - intros p h. apply history_pages.
  - intros p h Hn. by apply history_pages, snapshot_in_time.
  - intros p d destination h Hd Hn. unfold get_raw_icp_commitment_history. rewrite Hd. apply history_pages.
    apply sorted_filter. by apply snapshot_in_time.
  - intros n h Hn. by apply history_pages, snapshot_in_time.
  - intros reason. by apply listed_pages.
  - intros bindings table. apply alias_pages.
  - intros p start. unfold get_commitment_history, get_cycles_history, history_page. cbv zeta.
    rewrite !page_loop_page by apply clamp_public_limit_pos. cbn [fst page_of]. rewrite !length_take.
    pose proof (clamp_public_limit_pos limit 100). lia.
Qed.
End pages.

(** ** The status of a transaction *)

Section status.
Context `{P : PrincipalSpec} `{O : !OrdSpec Principal} `{SS : !SliceSpec}.

(** Some list of recent commitments names the transaction. *)
Definition retained_evidence (id : Z) (s : State) : bool :=
  retained_in rc_tx_id id (recent_commitments s) || retained_in rn_tx_id id (recent_neuron_commitments s)
  || retained_in rc_tx_id id (recent_under_threshold_commitments s) || retained_in rn_tx_id id (recent_under_threshold_neuron_commitments s)
  || retained_in invalid_tx_id id (recent_invalid_commitments s).

Lemma cursor_status_covered account known s tx : walk_ok account known (walk_of s) -> tx ∈ account ->
  cursor_status (tx_id tx) s = if covered (walk_of s) tx then NotFoundInRetainedEvidence else NotYetObserved.
Proof using.
  unfold walk_ok, covered, cursor_status. cbn [walk_of walk_latest walk_oldest walk_complete walk_catch_up].
  destruct (last_indexed_staking_tx_id s) as [latest|], (oldest_indexed_staking_tx_id s) as [oldest|]; try done; cbn [is_some is_some_and between].
  - intros (Hol & _ & _ & Hall & Hc) Hin. specialize (fun H => Hall H tx Hin).
    destruct (active_staking_catch_up s) as [c|]; cbn [is_some_and].
    + destruct Hc as (Hcomplete & Hb & _ & next & En & Hn). specialize (Hall Hcomplete). rewrite En, Hb. cbn [is_some_and between].
      destruct (Z.ltb_spec (observed_head_tx_id c) (tx_id tx)), (Z.ltb_spec latest (tx_id tx)), (Z.ltb_spec (tx_id tx) next),
        (Z.leb_spec oldest (tx_id tx)), (Z.leb_spec (tx_id tx) latest), (Z.leb_spec next (tx_id tx)), (Z.leb_spec (tx_id tx) (observed_head_tx_id c));
        cbn; done || lia.
    + rewrite orb_false_r. destruct (Z.ltb_spec latest (tx_id tx)), (Z.leb_spec (tx_id tx) latest), (Z.leb_spec oldest (tx_id tx)),
        (Z.ltb_spec (tx_id tx) oldest); try lia; rewrite ?andb_false_r, ?andb_true_r; try done.
      case_bool_decide as Eb; [|done]. rewrite Eb in Hall. cbn in Hall. specialize (Hall eq_refl). lia.
  - intros -> _. done.
Qed.

(** C19: While the cursors of the indexer are those of a walk over the account, what the
    endowment status says of a transaction of the account is exact: it is known or not
    qualifying when a retained list says so; otherwise it is not yet observed exactly when
    the cursors do not cover it, also in the gap of an unfinished catch-up and below an
    unfinished backfill, and not found in the retained evidence exactly when they do. *)
Theorem endowment_status_exact (account known : list IndexTransactionWithId) (s : State) (tx : IndexTransactionWithId)
    (Hwalk : walk_ok account known (walk_of s)) (Hin : tx ∈ account) :
  let status := expected_transaction_status (tx_id tx) s in
  (status = KnownIndexed <-> retained_in rc_tx_id (tx_id tx) (recent_commitments s) || retained_in rn_tx_id (tx_id tx) (recent_neuron_commitments s) = true) /\
  (retained_evidence (tx_id tx) s = true -> status = KnownIndexed \/ status = ObservedNotQualifying) /\
  (retained_evidence (tx_id tx) s = false ->
     (status = NotYetObserved <-> covered (walk_of s) tx = false) /\
     (status = NotFoundInRetainedEvidence <-> covered (walk_of s) tx = true)).
Proof using.
  intros status. assert (Hc := cursor_status_covered account known s tx Hwalk Hin).
  unfold status, retained_evidence, expected_transaction_status.
  destruct (retained_in rc_tx_id _ (recent_commitments s)); [by intuition|]. destruct (retained_in rn_tx_id _ (recent_neuron_commitments s)); [by intuition|].
  cbn [orb]. rewrite <-!orb_assoc. destruct (retained_in rc_tx_id _ _ || _); [by intuition|].
  rewrite Hc. split; [by destruct (covered _ _)|]. split; [done|]. intros _. by destruct (covered _ _).
Qed.
End status.

(** ** The search by prefix *)

Section search.
Context `{P : PrincipalSpec} `{O : !OrdSpec Principal} `{SS : !SliceSpec} `{T : TextSpec} `{B : !BuildSpec}.
#[local] Existing Instance Principal_eq_dec.

Lemma matches_prefix text prefix : Forall (fun b => ascii_lowercase b = b) text -> matches_chars text prefix = true <-> prefix `prefix_of` text.
Proof using.
  revert prefix. induction text as [|b text IH]; intros [|e prefix] Ht; cbn [matches_chars].
  - split; [intros _; apply prefix_nil|done].
  - split; [done|]. by intros [k [=]].
  - split; [intros _; apply prefix_nil|done].
  - apply Forall_cons in Ht as [Hb Ht]. rewrite andb_true_iff, (IH prefix Ht), Hb, Z.eqb_eq. split.
    + intros [-> [k ->]]. by exists k.
    + intros [k [= -> ->]]. split; [done|by exists k].
Qed.
Lemma starts_prefix text prefix : starts_with text prefix = true <-> prefix `prefix_of` text.
Proof using.
  unfold starts_with. rewrite bool_decide_eq_true. split.
  - intros <-. exists (drop (length prefix) text). by rewrite take_drop.
  - intros [k ->]. by rewrite take_app_length.
Qed.
Lemma group_prefix text : first_group text `prefix_of` compact text.
Proof using.
  unfold compact, DASH. induction text as [|b text IH]; cbn; [apply prefix_nil|]. unfold DASH in *. destruct (b =? 45); cbn; [apply prefix_nil|by apply prefix_cons].
Qed.
Lemma prefix_shorter (l k text : list Z) : l `prefix_of` text -> k `prefix_of` text -> (length l <= length k)%nat -> l `prefix_of` k.
Proof using. intros Hl Hk Hlen. destruct (prefix_weak_total l k text Hl Hk) as [?|[r ->]]; [done|]. rewrite length_app in Hlen. assert (length r = 0)%nat by lia. destruct r; [|done]. by rewrite app_nil_r. Qed.

(** The two comparisons of [principal_matches_compact_prefix] are one. *)
Lemma compact_prefix p prefix : Forall (fun b => ascii_lowercase b = b) (principal_to_text p) ->
  principal_matches_compact_prefix p prefix = true <-> prefix `prefix_of` compact (principal_to_text p).
Proof using.
  intros Ht. unfold principal_matches_compact_prefix. cbv zeta. set (text := principal_to_text p) in *.
  assert (Hc : Forall (fun b => ascii_lowercase b = b) (compact text)).
  { rewrite List.Forall_forall in *. intros b [Hb _]%filter_In. by apply Ht. }
  destruct (Nat.leb_spec (length prefix) (length (first_group text))).
  - rewrite starts_prefix. split.
    + intros Hp. etrans; [exact Hp|apply group_prefix].
    + intros Hp. eapply prefix_shorter; [exact Hp|apply group_prefix|done].
  - rewrite andb_true_iff, starts_prefix, (matches_prefix _ _ Hc). split; [by intros [_ ?]|]. intros Hp. split; [|done].
    eapply prefix_shorter; [apply group_prefix|exact Hp|lia].
Qed.

(** The canisters that a search is about. *)
Definition searched (g : Storage) (s : State) (prefix : list Z) (p : Principal) : Prop :=
  prefix `prefix_of` compact (principal_to_text p) /\
  is_some_and (visible_tracking_reasons_for_canister g s p) (set_contains MemoCommitment) = true /\
  is_some (memo_registered_canister_summary_for g s p) = true.

Lemma larger_first_total `{L : !OrdLaws Principal} : Total larger_first.
Proof using.
  intros a b. unfold larger_first. destruct (Z.lt_trichotomy (match_total_qualifying_committed_e8s a) (match_total_qualifying_committed_e8s b)) as [|[E|]];
    [right; left; lia| |left; left; lia].
  destruct (ltb (match_canister_id b) (match_canister_id a)) eqn:E1; [|left; right; done]. right; right. split; [done|].
  destruct (ltb (match_canister_id a) (match_canister_id b)) eqn:E2; [|done]. pose proof (ltb_trans _ _ _ E1 E2) as Hc. by rewrite ltb_irrefl in Hc.
Qed.
Lemma prefix_match_some g s prefix p item : prefix_match g s prefix p = Some item ->
  match_canister_id item = p /\ principal_matches_compact_prefix p prefix = true /\
  is_some_and (visible_tracking_reasons_for_canister g s p) (set_contains MemoCommitment) = true /\
  exists summary, memo_registered_canister_summary_for g s p = Some summary /\
    match_total_qualifying_committed_e8s item = summary_total_qualifying_committed_e8s summary.
Proof using.
  unfold prefix_match. destruct (principal_matches_compact_prefix p prefix); [|done]. cbn [negb].
  destruct (visible_tracking_reasons_for_canister g s p) as [reasons|]; [|done]. cbn [mbind option_bind is_some_and].
  destruct (set_contains MemoCommitment reasons); [|done]. cbn [negb].
  destruct (memo_registered_canister_summary_for g s p) as [summary|]; [|done]. intros [= <-]. eauto 10.
Qed.
Lemma searched_match g s prefix p : principal_matches_compact_prefix p prefix = true ->
  is_some_and (visible_tracking_reasons_for_canister g s p) (set_contains MemoCommitment) = true ->
  is_some (memo_registered_canister_summary_for g s p) = true -> is_some (prefix_match g s prefix p) = true.
Proof using.
  unfold prefix_match. intros ->. destruct (visible_tracking_reasons_for_canister g s p) as [reasons|]; [|done]. cbn [is_some_and negb mbind option_bind].
  intros ->. by destruct (memo_registered_canister_summary_for g s p).
Qed.

(** C20: A search by prefix answers with canisters that are registered by a memo and whose
    text, without its dashes, starts with the prefix, each with the totals of its summary,
    the largest total first; at most fifty, or what was asked for; and when the answer is
    not marked as truncated it holds every such canister.  A prefix shorter than four
    characters, or with other characters, finds nothing. *)
Theorem prefix_search_exact (query : list Z) (limit : option Z) (g : Storage) (s : State)
    `{L : !OrdLaws Principal}
    (Htext : forall p, p ∈ (distinct_canisters s : list Principal) -> Forall (fun b => ascii_lowercase b = b) (principal_to_text p)) :
  let prefix := map ascii_lowercase (compact query) in
  let '(items, truncated) := find_canisters_by_memo_prefix query limit g s in
  (items <> [] -> (4 <= length prefix)%nat) /\ (length items <= Nat.min (clamp_public_limit limit 20) 50)%nat /\
  Sorted larger_first items /\
  (forall item, item ∈ items -> match_canister_id item ∈ (distinct_canisters s : list Principal) /\ searched g s prefix (match_canister_id item) /\
     exists summary, memo_registered_canister_summary_for g s (match_canister_id item) = Some summary /\
       match_total_qualifying_committed_e8s item = summary_total_qualifying_committed_e8s summary) /\
  (truncated = false -> (4 <= length prefix)%nat -> forallb ascii_alphanumeric prefix = true ->
     forall p, p ∈ (distinct_canisters s : list Principal) -> searched g s prefix p -> exists item, item ∈ items /\ match_canister_id item = p).
Proof using.
  intros prefix. unfold find_canisters_by_memo_prefix. cbv zeta. fold prefix.
  destruct ((length prefix <? 4)%nat || negb (forallb ascii_alphanumeric prefix)) eqn:Eg.
  - split; [done|]. split; [cbn; lia|]. split; [constructor|]. split; [by intros ? ?%not_elem_of_nil|]. intros _ Hlen Hall. rewrite Hall, orb_false_r in Eg.
    apply Nat.ltb_lt in Eg. lia.
  - apply orb_false_iff in Eg as [Hlen%Nat.ltb_ge _]. set (n := Nat.min _ 50). set (matched := omap _ _).
    pose proof larger_first_total as Htotal.
    split; [done|]. split; [rewrite merge_sort_Permutation, length_take; lia|]. split; [by apply Sorted_merge_sort|]. split.
    + intros item Hi. rewrite merge_sort_Permutation in Hi. assert (Hm : item ∈ matched) by (rewrite <-(take_drop n matched); set_solver).
      apply list_elem_of_omap in Hm as (p & Hp & Hitem). apply prefix_match_some in Hitem as (-> & Hpre & Hreasons & summary & Hsum & Htot).
      split; [done|]. split; [|eauto]. split; [by apply compact_prefix; [apply Htext|]|]. split; [done|]. by rewrite Hsum.
    + intros Ht _ _ p Hp (Hpre & Hreasons & Hsum). apply Nat.ltb_ge in Ht.
      assert (Hs : is_some (prefix_match g s prefix p) = true) by (apply searched_match; [by apply compact_prefix; [apply Htext|]|done..]).
      destruct (prefix_match g s prefix p) as [item|] eqn:E; [|done]. exists item. pose proof (prefix_match_some _ _ _ _ _ E) as (Hid & _).
      split; [|done]. rewrite merge_sort_Permutation, take_ge by done. apply list_elem_of_omap. eauto.
Qed.
End search.

(** * A state with three commitments *)

Module ConcretePages.
Import Concrete ConcreteKeys ConcreteTexts ConcreteDurable.
Abbreviation principal := (Principal (PrincipalSpec:=concrete_principal)).
#[local] Instance factory : FactorySpec (H:=concrete_principal) := {|
  sha256 := fun bytes => [Z.of_nat (length bytes)]; self_service_relay_install_payload := []; encode_relay_init := fun _ => [];
  nns_governance_id := 94 : principal; debug_transfer_error := fun _ => ""%string; debug_notify_error := fun _ => ""%string |}.
#[local] Instance build : BuildSpec (H:=concrete_principal) := {|
  mainnet_ledger_id := 1 : principal; mainnet_index_id := 2 : principal; mainnet_disburser_id := 20 : principal;
  mainnet_rewards_id := 21 : principal; mainnet_cmc_id := 3 : principal; mainnet_faucet_id := 5 : principal;
  mainnet_relay_id := 22 : principal; mainnet_sns_wasm_id := 6 : principal; mainnet_xrc_id := 8 : principal;
  mainnet_canonical_relay_targets := []; source_module_hash_canister_ids := []; relay_raw_wasm_sha256 := None; relay_gz_wasm_sha256 := None |}.
Definition sample_at (id : Z) : CommitmentSample := MkCommitmentSample id (Some (id * 1000000000)) 3 true None.
Definition history3 : list CommitmentSample := [sample_at 4; sample_at 7; sample_at 9].
Definition state6 : state := (State_new config0 1000) <| commitment_history := [(9 : principal, history3)] |>
  <| canister_tracking_reasons := [(9 : principal, [MemoCommitment])] |> <| distinct_canisters := [9 : principal] |>.

Example pages_of_one : get_commitment_history (9 : principal) None (Some 1) (Some true) Storage_empty state6 = ([sample_at 9], Some 9) /\
  get_commitment_history (9 : principal) (Some 4) (Some 1) (Some true) Storage_empty state6 = ([], None).
Proof. vm_compute. done. Qed.
Lemma historian_pages_complete_witness :
  follow 3 (fun start => get_commitment_history (9 : principal) start (Some 1) (Some true) Storage_empty state6) None = Some (rev history3).
Proof.
  destruct (historian_pages_complete Storage_empty state6 (Some 1) (Some true)) as (_ & Hcommitments & _).
  apply (Hcommitments (9 : principal)). vm_compute. repeat constructor; set_solver.
Defined.

(** The gap of a catch-up: 9 is the newest transaction that was indexed, 20 the head that
    was observed, and the pages down to 15 have been read. *)
Definition gap_tx (id : Z) : IndexTransactionWithId := MkTxWithId id (MkIndexTransaction 0 None (IndexMint [] 1) None None).
Definition gap_account : list IndexTransactionWithId := map gap_tx [20; 15; 12; 9; 4].
Definition gap_state : state := (State_new config0 1000) <| last_indexed_staking_tx_id := Some 9 |> <| oldest_indexed_staking_tx_id := Some 4 |>
  <| staking_backfill_complete := Some true |> <| active_staking_catch_up := Some (MkCatchUp 9 20 (Some 15)) |>.
Lemma endowment_status_exact_witness :
  expected_transaction_status 12 gap_state = NotYetObserved /\ covered (walk_of gap_state) (gap_tx 12) = false.
Proof.
  assert (Hat : forall id, id ∈ [20; 15; 12; 9; 4] -> at_id gap_account id)
    by (intros id Hid; exists (gap_tx id); split; [by apply (list_elem_of_fmap_2 gap_tx)|done]).
  destruct (endowment_status_exact gap_account gap_account gap_state (gap_tx 12)) as (_ & _ & Hexact).
  - split; [lia|]. split; [apply Hat; set_solver|]. split; [apply Hat; set_solver|]. split.
    + intros _ x (id & -> & Hid)%list_elem_of_fmap. cbn. repeat (apply elem_of_cons in Hid as [->|Hid]; [lia|]). by apply not_elem_of_nil in Hid.
    + split; [done|]. split; [done|]. split; [apply Hat; set_solver|]. exists 15. split; [done|]. cbn. lia.
  - apply (list_elem_of_fmap_2 gap_tx [20; 15; 12; 9; 4] 12). set_solver.
  - destruct Hexact as [Hnot _]; [reflexivity|]. split; [reflexivity|]. apply Hnot. reflexivity.
Defined.
End ConcretePages.

(** Principals with longer texts: [abc-d...]. *)
Module ConcreteSearch.
#[local] Instance worded : PrincipalSpec := {
  Principal := Z;
  anonymous := 4;
  management_canister := 0;
  principal_from_text := fun bytes => match bytes with [97; 98; 99; 45; c] => Some (c - 100) | _ => None end;
  principal_to_text := fun p => [97; 98; 99; 45; 100 + p];
  principal_as_slice := fun p => [p];
}.
#[local] Instance worded_slices : SliceSpec := fun bytes => default 0 (head bytes).
#[local] Instance worded_order : OrdSpec Principal := Z.ltb.
#[local] Instance worded_laws : OrdLaws (Principal (PrincipalSpec:=worded)).
Proof. split; unfold ltb, worded_order; cbn; intros; zify_bool; rewrite ?Z.ltb_lt, ?Z.ltb_ge; lia. Qed.
Abbreviation principal := (Principal (PrincipalSpec:=worded)).
Definition account_7 : Account (H:=worded) := MkAccount worded 7 None.
Definition config_7 : Config (P:=worded) :=
  MkConfig (P:=worded) account_7 account_7 account_7 account_7 1 2 (Some 3) (Some 5) 6 8 false 600 604800 100000000 100 100 10
    25 true 300000000 2000000000000 5000000 100020000 86400 None [].
Definition state_7 : State (P:=worded) := (State_new config_7 1000)
  <| commitment_history := [(9 : principal, [MkCommitmentSample 41 (Some 5) 3 true None])] |>
  <| canister_tracking_reasons := [(9 : principal, [MemoCommitment])] |> <| distinct_canisters := [9 : principal; 11 : principal] |>.
(** [ABC-m] *)
Definition query_ : list Z := [65; 66; 67; 45; 109].
Lemma prefix_search_exact_witness : exists item, find_canisters_by_memo_prefix query_ None Storage_empty state_7 = ([item], false) /\
  match_canister_id item = (9 : principal) /\ searched Storage_empty state_7 [97; 98; 99; 109] (match_canister_id item).
Proof.
  assert (Htext : forall p, p ∈ (distinct_canisters state_7 : list principal) -> Forall (fun b => ascii_lowercase b = b) (principal_to_text p)).
  { intros p Hp. apply elem_of_cons in Hp as [->|[->|Hp%not_elem_of_nil]%elem_of_cons]; [repeat constructor..|done]. }
  pose proof (prefix_search_exact query_ None Storage_empty state_7 Htext) as (_ & _ & _ & Hitems & _).
  eexists. split; [vm_compute; reflexivity|]. split; [reflexivity|]. apply Hitems. vm_compute. left.
Defined.
End ConcreteSearch.
