(* ===== verification/HistorianHashes.v ===== *)
(** * Historian: the cache of module hashes ([read_model.rs])

    A timer asks the management canister for the module hash, the controllers and the
    memory of each canister of the suite, and a query answers from the cache.  A lock with
    a lease keeps refreshes apart; what is published comes from replies that were entitled
    to say it. *)

From S2P Require Import Prelude BTree Async Ic Accounts Clients MemoPolicy CyclesProbe HistorianTypes HistorianKeys HistorianState HistorianDurable HistorianCommitments RelaySetup HistorianIndexer HistorianRoutes HistorianIndexRun HistorianRoutesRun HistorianTick HistorianTickRun RelayFactory HistorianLifecycle HistorianUpgrade.

Definition MODULE_HASH_CACHE_TTL_SECONDS : Z := 60 * 60.
Definition MODULE_HASH_REFRESH_LEASE_SECONDS : Z := 5 * 60.

Section hashes.
Context `{P : PrincipalSpec} `{O : !OrdSpec Principal} `{SS : !SliceSpec} `{T : TextSpec} `{H : HashSpec} {EH : EventHorizon}
  `{Ids : !ProbeIds} `{B : !BuildSpec}.
#[local] Existing Instance Principal_eq_dec.
Local Abbreviation async := (async Mem SuiteCall).

Definition format_module_hash_hex (bytes : list Z) : list Z := hex_encode bytes.
(** A Candid [Nat] that fits into 64 bits. *)
Definition nat_to_u64 (n : Z) : option Z := if n <=? u64_max then Some n else None.

(** The routes in turn, for the controllers that are production blackholes. *)
Fixpoint compatible_status (target : Principal) (controllers routes : list Principal) : async (option BlackholeCanisterStatus) :=
  match routes with
  | [] => mret None
  | route :: routes =>
      if bool_decide (route ∈ controllers) && is_production_blackhole_canister_id route then
        r ← await (MemoryStatus route target);
        match r with Ok status => mret (Some status) | Err _ => compatible_status target controllers routes end
      else compatible_status target controllers routes
  end.
Definition source_memory_status (target : Principal) (controllers : list Principal) : async (option BlackholeCanisterStatus) :=
  r ← await (MemoryStatus management_canister target);
  match r with
  | Ok status => mret (Some status)
  | Err _ => compatible_status target controllers ordered_production_blackhole_canister_ids
  end.
(** Heap, stable and total. *)
Definition source_memory_bytes (status : option BlackholeCanisterStatus) : option Z * option Z * option Z :=
  match status with
  | None => (None, None, None)
  | Some status => (m ← bs_memory_metrics status; nat_to_u64 m.1, m ← bs_memory_metrics status; nat_to_u64 m.2,
      n ← bs_memory_size status; nat_to_u64 n)
  end.

Definition hash_and_controllers (reply : result (option (list Z) * list Principal) TransportError) : option (list Z) * option (list Principal) :=
  match reply with
  | Ok (module_hash, controllers) => (format_module_hash_hex <$> module_hash, Some controllers)
  | Err _ => (None, None)
  end.
Definition load_canister_module_hash (canister : Principal) : async CanisterModuleHash :=
  reply ← await (CanisterInfoHash canister);
  let '(hex, controllers) := hash_and_controllers reply in
  status ← source_memory_status canister (default [] controllers);
  let '(heap_bytes, stable_bytes, total_bytes) := source_memory_bytes status in
  mret (MkModuleHash canister hex controllers heap_bytes stable_bytes total_bytes).
Fixpoint load_hashes (ids : list Principal) (hashes : list CanisterModuleHash) : async (list CanisterModuleHash) :=
  match ids with
  | [] => mret hashes
  | id :: ids => entry ← load_canister_module_hash id; load_hashes ids (hashes ++ [entry])
  end.
Definition load_canister_module_hashes : async (list CanisterModuleHash) := load_hashes source_module_hash_canister_ids [].

Definition canister_module_hash_has_any_success (h : CanisterModuleHash) : bool :=
  is_some (module_hash_hex h) || is_some (hash_controllers h) || is_some (hash_heap_memory_bytes h)
  || is_some (hash_stable_memory_bytes h) || is_some (hash_total_memory_bytes h).

(** ** The lock *)

Definition hash_cache_stale (now_secs : Z) (s : State) : bool :=
  match canister_module_hash_cache_updated_ts s with
  | Some updated => MODULE_HASH_CACHE_TTL_SECONDS <=? sat_sub now_secs updated
  | None => true
  end.
Definition hash_lock_held (now_secs : Z) (s : State) : bool :=
  is_some_and (canister_module_hash_refresh_lock_ts s) (fun lock => sat_sub now_secs lock <? MODULE_HASH_REFRESH_LEASE_SECONDS).
Definition acquire_canister_module_hash_refresh (now_secs : Z) (s : State) : bool * State :=
  if negb (hash_cache_stale now_secs s) then (false, s)
  else if hash_lock_held now_secs s then (false, s)
  else (true, s <| canister_module_hash_refresh_lock_ts := Some now_secs |>).
Definition finish_canister_module_hash_refresh (lock_ts completed_ts : Z) (hashes : list CanisterModuleHash) (s : State) : State :=
  if negb (bool_decide (canister_module_hash_refresh_lock_ts s = Some lock_ts)) then s
  else s <| canister_module_hash_cache := hashes |> <| canister_module_hash_cache_updated_ts := Some completed_ts |>
         <| canister_module_hash_refresh_lock_ts := None |>.
Definition release_canister_module_hash_refresh (now_secs : Z) (s : State) : State :=
  if bool_decide (canister_module_hash_refresh_lock_ts s = Some now_secs) then s <| canister_module_hash_refresh_lock_ts := None |> else s.

Definition refresh_canister_module_hash_cache_if_due (now_secs : Z) : async unit :=
  acquired ← root_result (acquire_canister_module_hash_refresh now_secs);
  if negb acquired then mret tt
  else
    hashes ← load_canister_module_hashes;
    if negb (existsb canister_module_hash_has_any_success hashes) then root (release_canister_module_hash_refresh now_secs)
    else
      t ← now;
      root (finish_canister_module_hash_refresh now_secs (t / 1000000000) hashes).
Definition get_canister_module_hashes (s : State) : list CanisterModuleHash := canister_module_hash_cache s.

(** ** What was said *)

(** The reply [r] to the call [c] during the run with the trace [t]. *)
Definition said (e : env Mem SuiteCall) (t : list (event Mem SuiteCall)) {R} (c : SuiteCall R) (r : R) : Prop :=
  exists newer s older, t = newer ++ Dispatch c s :: older /\ env_reply e (length older) _ c = r.
Lemma said_now e m t {R} (c : SuiteCall R) : said e (Dispatch c m :: t) c (env_reply e (length t) _ c).
Proof. by exists [], m, t. Qed.
Lemma said_later e t new {R} (c : SuiteCall R) r : said e t c r -> said e (new ++ t) c r.
Proof. intros (newer & s & older & -> & E). exists (new ++ newer), s, older. by rewrite <-app_assoc. Qed.

(** Who may speak of the memory of a canister with these controllers. *)
Definition may_vouch (controllers : list Principal) (via : Principal) : Prop :=
  via = management_canister \/ via ∈ controllers /\ is_production_blackhole_canister_id via = true.
Definition memory_vouched e t (target : Principal) (controllers : list Principal) (status : option BlackholeCanisterStatus) : Prop :=
  match status with
  | Some status => exists via, may_vouch controllers via /\ said e t (MemoryStatus via target) (Ok status)
  | None => forall via, via = management_canister \/
      via ∈ ordered_production_blackhole_canister_ids /\ via ∈ controllers -> exists err, said e t (MemoryStatus via target) (Err err)
  end.
(** Every figure of an entry was said about its canister. *)
Definition vouched e t (h : CanisterModuleHash) : Prop :=
  exists reply status, said e t (CanisterInfoHash (hash_canister_id h)) reply /\
    (module_hash_hex h, hash_controllers h) = hash_and_controllers reply /\
    memory_vouched e t (hash_canister_id h) (default [] (hash_controllers h)) status /\
    (hash_heap_memory_bytes h, hash_stable_memory_bytes h, hash_total_memory_bytes h) = source_memory_bytes status.
Lemma memory_vouched_later e t new target controllers status :
  memory_vouched e t target controllers status -> memory_vouched e (new ++ t) target controllers status.
Proof.
  destruct status as [status|]; cbn.
  - intros (via & Hv & Hs). exists via. split; [done|by apply said_later].
  - intros Hall via Hv. destruct (Hall via Hv) as (err & Hs). exists err. by apply said_later.
Qed.
Lemma vouched_later e t new h : vouched e t h -> vouched e (new ++ t) h.
Proof.
  intros (reply & status & H1 & H2 & H3 & H4). exists reply, status.
  split; [by apply said_later|]. split; [done|]. split; [by apply memory_vouched_later|done].
Qed.

(** ** The run *)

(** The calls of a refresh: only questions, about the canisters of the suite. *)
Definition hash_question (ev : event Mem SuiteCall) : Prop :=
  match ev with @Dispatch _ _ R c _ =>
    match c in SuiteCall R' with
    | CanisterInfoHash canister => canister ∈ source_module_hash_canister_ids
    | MemoryStatus via canister => canister ∈ source_module_hash_canister_ids /\ may_vouch ordered_production_blackhole_canister_ids via
    | _ => False
    end
  end.

Section run.
Context (e : env Mem SuiteCall) (J : Mem -> Prop).
Context (Hothers : forall n m, J m -> J (env_interleave e n m)).

(** A run that starts after [w0] and only asks. *)
Definition asking (w0 w : world Mem SuiteCall) : Prop := J (w_state w) /\ traced hash_question (w_trace w0) w.
Lemma asking_trace w0 w : asking w0 w -> exists new, w_trace w = new ++ w_trace w0.
Proof. intros [_ (new & E & _)]. by exists new. Qed.

Lemma ask_ok {R} (c : SuiteCall R) Q w0 w :
  asking w0 w -> (forall s, hash_question (Dispatch c s)) ->
  (forall r w', asking w0 w' -> (exists s, w_trace w' = Dispatch c s :: w_trace w) -> said e (w_trace w') c r -> Q r w') -> wp e (await c) Q w.
Proof using Hothers.
  intros [HJ Ht] Hq HQ. apply wp_await. intros r s -> ->. apply HQ.
  - split; [by apply Hothers|]. apply (traced_cons _ _ _ (w_state w)); [apply Hq|exact Ht].
  - eexists. done.
  - apply said_now.
Qed.

Definition silent t (target : Principal) (controllers asked : list Principal) : Prop :=
  forall via, via = management_canister \/ via ∈ asked /\ via ∈ controllers -> exists err, said e t (MemoryStatus via target) (Err err).
Lemma compatible_ok target controllers Q w0 routes asked w :
  asking w0 w -> target ∈ source_module_hash_canister_ids -> ordered_production_blackhole_canister_ids = asked ++ routes ->
  silent (w_trace w) target controllers asked ->
  (forall status w', asking w0 w' -> (exists new, w_trace w' = new ++ w_trace w) ->
     memory_vouched e (w_trace w') target controllers status -> Q status w') ->
  wp e (compatible_status target controllers routes) Q w.
Proof using Hothers.
  intros Hw Hin. revert asked w Hw. induction routes as [|route routes IH]; intros asked w Hw Hasked Hsilent HQ; cbn [compatible_status].
  { apply wp_ret, HQ; [done|by exists []|]. cbn. rewrite Hasked, app_nil_r. exact Hsilent. }
  assert (Hprod : is_production_blackhole_canister_id route = true).
  { unfold is_production_blackhole_canister_id. apply bool_decide_eq_true. rewrite Hasked. set_solver. }
  rewrite Hprod, andb_true_r. case_bool_decide as Hc.
  - apply wp_bind. eapply ask_ok; [done| |].
    { intros s. split; [done|]. right. split; [|done]. rewrite Hasked. set_solver. }
    intros r w1 Hw1 (s1 & E1) Hsaid. destruct r as [status|err].
    + apply wp_ret, HQ; [done|by exists [Dispatch (MemoryStatus route target) s1]|]. exists route. split; [by right|done].
    + apply (IH (asked ++ [route])); [done|by rewrite Hasked, <-app_assoc| |].
      * intros via Hv. assert (via = route \/ (via = management_canister \/ via ∈ asked /\ via ∈ controllers)) as [->|Hold] by set_solver; [by exists err|].
        destruct (Hsilent via Hold) as (err' & Hs). exists err'. rewrite E1. by apply (said_later e _ [_]).
      * intros status w' Hw' (new & E) Hv. apply HQ; [done| |done]. exists (new ++ [Dispatch (MemoryStatus route target) s1]). rewrite E, E1, <-app_assoc. done.
  - apply (IH (asked ++ [route])); [done|by rewrite Hasked, <-app_assoc| |done].
    intros via [->|[Hv1 Hv2]]; [apply Hsilent; by left|]. apply Hsilent. right. split; [|done]. set_solver.
Qed.
Lemma asked_later t new target controllers asked : silent t target controllers asked -> silent (new ++ t) target controllers asked.
Proof. intros Hs via Hv. destruct (Hs via Hv) as (err & Hsaid). exists err. by apply said_later. Qed.

Lemma status_ok target controllers Q w0 w :
  asking w0 w -> target ∈ source_module_hash_canister_ids ->
  (forall status w', asking w0 w' -> (exists new, w_trace w' = new ++ w_trace w) ->
     memory_vouched e (w_trace w') target controllers status -> Q status w') ->
  wp e (source_memory_status target controllers) Q w.
Proof using Hothers.
  intros Hw Hin HQ. apply wp_bind. eapply ask_ok; [done|intros s; split; [done|by left]|].
  intros r w1 Hw1 (s1 & E1) Hsaid. destruct r as [status|err].
  - apply wp_ret, HQ; [done|by exists [Dispatch (MemoryStatus management_canister target) s1]|]. exists management_canister. split; [by left|done].
  - apply (compatible_ok target controllers Q w0 _ []); [done..| |].
    + intros via [->|[Hv _]]; [by exists err|set_solver].
    + intros status w' Hw' (new & E) Hv. apply HQ; [done| |done]. exists (new ++ [Dispatch (MemoryStatus management_canister target) s1]).
      rewrite E, E1, <-app_assoc. done.
Qed.
Lemma entry_ok canister Q w0 w :
  asking w0 w -> canister ∈ source_module_hash_canister_ids ->
  (forall h w', asking w0 w' -> (exists new, w_trace w' = new ++ w_trace w) -> hash_canister_id h = canister ->
     vouched e (w_trace w') h -> Q h w') ->
  wp e (load_canister_module_hash canister) Q w.
Proof using Hothers.
  intros Hw Hin HQ. apply wp_bind. eapply ask_ok; [done|done|]. intros reply w1 Hw1 (s1 & E1) Hsaid.
  destruct (hash_and_controllers reply) as [hex controllers] eqn:Er. apply wp_bind, (status_ok _ _ _ w0); [done..|].
  intros status w2 Hw2 (new & E2) Hv. destruct (source_memory_bytes status) as [[hp sb] tb] eqn:Eb. apply wp_ret, HQ; [done| |done|].
  - exists (new ++ [Dispatch (CanisterInfoHash canister) s1]). rewrite E2, E1, <-app_assoc. done.
  - exists reply, status. cbn. split; [rewrite E2; by apply said_later|]. split; [done|]. by split.
Qed.
Lemma hashes_ok Q w0 ids w hashes :
  asking w0 w -> (forall id, id ∈ ids -> id ∈ source_module_hash_canister_ids) -> Forall (vouched e (w_trace w)) hashes ->
  (forall all w', asking w0 w' -> map hash_canister_id all = map hash_canister_id hashes ++ ids -> Forall (vouched e (w_trace w')) all -> Q all w') ->
  wp e (load_hashes ids hashes) Q w.
Proof using Hothers.
  revert w hashes. induction ids as [|id ids IH]; intros w hashes Hw Hin Hh HQ; cbn [load_hashes].
  { apply wp_ret, HQ; [done|by rewrite app_nil_r|done]. }
  apply wp_bind, (entry_ok _ _ w0); [done|set_solver|]. intros h w1 Hw1 (new & E1) Eid Hv. apply IH; [done|set_solver| |].
  - apply Forall_app. split; [|by repeat constructor]. eapply Forall_impl; [exact Hh|]. intros h' Hh'. rewrite E1. by apply vouched_later.
  - intros all w' Hw' Eids Hall. apply HQ; [done| |done]. rewrite Eids, map_app, <-app_assoc. cbn. by rewrite Eid.
Qed.
End run.

Lemma wp_unit (e : env Mem SuiteCall) (m : async unit) (Q : world Mem SuiteCall -> Prop) w :
  wp e m (fun _ => Q) w -> exists w', m e w = (Returned tt, w') /\ Q w'.
Proof. intros (r & w' & Er & HQ)%wp_returns. destruct r. by exists w'. Qed.

(** Whether a refresh that starts now has work to do. *)
Definition hash_refresh_due (now_secs : Z) (s : State) : bool := hash_cache_stale now_secs s && negb (hash_lock_held now_secs s).
Lemma acquire_due now_secs s : (acquire_canister_module_hash_refresh now_secs s) =
  (hash_refresh_due now_secs s, if hash_refresh_due now_secs s then s <| canister_module_hash_refresh_lock_ts := Some now_secs |> else s).
Proof. unfold acquire_canister_module_hash_refresh, hash_refresh_due. by destruct (hash_cache_stale now_secs s), (hash_lock_held now_secs s). Qed.
Lemma root_write_st f m : st (with_root_state_mut f m) = f (st m).
Proof. unfold with_root_state_mut, with_state_mut_sections_scoped. by destruct (persistence_batch_active m). Qed.

End hashes.

(** C22: A refresh of the module hashes returns whatever the canisters answer and whatever runs
    meanwhile, and while the cache is fresh or another refresh holds the lock it asks
    nothing and changes nothing.  Otherwise it only asks about the canisters of the suite,
    and what the last call left is changed only if the lock is still its own: then the lock
    is given back, and either nothing was learnt and the cache stays, or the cache becomes
    one entry for each canister, in order, whose every figure was said in this run by the
    management canister, or by a production blackhole that the management canister named
    among the controllers. *)
Theorem module_hashes_vouched `{P : PrincipalSpec} `{O : !OrdSpec Principal} `{SS : !SliceSpec} `{T : TextSpec} `{H : HashSpec}
    `{Ids : !ProbeIds} `{B : !BuildSpec}
    (e : env Mem SuiteCall) (J : Mem -> Prop) (now_secs : Z) (w : world Mem SuiteCall)
    (Hothers : forall n m, J m -> J (env_interleave e n m))
    (Hstart : J (with_root_state_mut (fun s => (acquire_canister_module_hash_refresh now_secs s).2) (w_state w))) :
  exists w', refresh_canister_module_hash_cache_if_due now_secs e w = (Returned tt, w') /\ traced hash_question (w_trace w) w' /\
  if hash_refresh_due now_secs (st (w_state w)) then
    exists left hashes, J left /\ map hash_canister_id hashes = source_module_hash_canister_ids /\ Forall (vouched e (w_trace w')) hashes /\
    let s := st left in
    st (w_state w') =
      if bool_decide (canister_module_hash_refresh_lock_ts s = Some now_secs) then
        (if existsb canister_module_hash_has_any_success hashes then
           s <| canister_module_hash_cache := hashes |>
             <| canister_module_hash_cache_updated_ts := Some (env_clock e (length (w_trace w')) / 1000000000) |>
         else s) <| canister_module_hash_refresh_lock_ts := None |>
      else s
  else w_trace w' = w_trace w /\ st (w_state w') = st (w_state w).
Proof.
  set (m0 := with_root_state_mut (fun s => (acquire_canister_module_hash_refresh now_secs s).2) (w_state w)) in *.
  apply wp_unit.
  apply wp_bind, wp_with_state_mut. fold m0. rewrite acquire_due. cbn [fst].
  destruct (hash_refresh_due now_secs (st (w_state w))) eqn:Ed; cbn [negb].
  2:{ apply wp_ret. split; [exact (traced_refl _ w)|]. split; [done|]. cbn. unfold m0. rewrite root_write_st, acquire_due, Ed. done. }
  apply wp_bind, (hashes_ok e J Hothers _ (World m0 (w_trace w))); [split; [done|exact (traced_refl _ w)]|done|constructor|].
  intros all w1 [HJ Ht] Eids Hv. assert (Hkeep : forall f, traced hash_question (w_trace w) (World (with_root_state_mut f (w_state w1)) (w_trace w1))) by (intros; by destruct w1).
  destruct (existsb canister_module_hash_has_any_success all) eqn:Ea; cbn [negb].
  - apply wp_bind, wp_now, wp_modify. split; [apply Hkeep|]. exists (w_state w1), all. split; [done|]. split; [done|]. split; [done|]. cbn [w_state w_trace].
    rewrite root_write_st, Ea. unfold finish_canister_module_hash_refresh. by case_bool_decide.
  - apply wp_modify. split; [apply Hkeep|]. exists (w_state w1), all. split; [done|]. split; [done|]. split; [done|]. cbn [w_state w_trace].
    rewrite root_write_st, Ea. unfold release_canister_module_hash_refresh. by case_bool_decide.
Qed.

Module ConcreteHashes.
Import Concrete ConcreteKeys ConcreteTexts ConcreteHash ConcreteDurable ConcreteIndex ConcreteRoutes ConcreteTick ConcreteUpgrade.
#[local] Existing Instance ConcreteTick.probe_ids.
Abbreviation principal := (Principal (PrincipalSpec:=concrete_principal)).
(** The management canister answers for the canister 20; for the canister 5 it refuses the
    status, and the blackhole 101, one of its controllers, gives it. *)
Definition env_hashes : env (Mem (P:=concrete_principal)) SuiteCall := {|
  env_reply := fun n X c =>
    match c in SuiteCall Y return Y -> Y with
    | CanisterInfoHash p => fun _ => Ok (Some [171; p], [7 : principal; 101 : principal])
    | MemoryStatus via p => fun r => if bool_decide (p = (5 : principal)) && bool_decide (via = (0 : principal)) then Err (NotDelivered "refused") else r
    | _ => fun r => r
    end (reply_ok 0 0 c);
  env_interleave := fun _ m => m;
  env_clock := fun _ => 700000000000000;
|}.
Definition refreshed := (refresh_canister_module_hash_cache_if_due 699999 env_hashes world2).2.
Lemma module_hashes_vouched_witness :
  get_canister_module_hashes (st (w_state refreshed)) =
    [MkModuleHash (20 : principal) (Some [171; 20]) (Some [7 : principal; 101 : principal]) (Some 5) (Some 4) (Some 9);
     MkModuleHash (5 : principal) (Some [171; 5]) (Some [7 : principal; 101 : principal]) (Some 5) (Some 4) (Some 9)] /\
  traced hash_question [] refreshed.
Proof.
  destruct (module_hashes_vouched env_hashes (fun _ => True) 699999 world2 (fun _ _ _ => I) I) as (w' & Er & Ht & _).
  split; [vm_compute; reflexivity|]. unfold refreshed. rewrite Er. exact Ht.
Defined.
End ConcreteHashes.
