(* ===== verification/HistorianPoke.v ===== *)
(** * Historian: pokes of the Event Horizon and the check that follows them

    [poke] of [read_model.rs] and [handle_staking_poke] with its deferred timer of
    [scheduler/endowment_poke.rs].  The messages and the timers share a thread-local record;
    the world below holds it with the clock, the timers that are set and what happened. *)

From S2P Require Import Prelude BTree Async Ic Accounts Clients MemoPolicy DisburserState CyclesProbe TimerGuard HistorianTypes HistorianKeys HistorianState HistorianCommitments RelaySetup HistorianIndexer HistorianRoutes HistorianProbe HistorianDiscovery HistorianTick HistorianLifecycle.

Section poke.
Context `{P : PrincipalSpec} `{O : !OrdSpec Principal} `{SS : !SliceSpec} `{T : TextSpec} `{H : HashSpec} {EH : EventHorizon} `{B : !BuildSpec}.
#[local] Existing Instance Principal_eq_dec.
Local Abbreviation async := (async Mem SuiteCall).

(** ** The message *)

Definition HISTORIAN_POKE_CALLER_WHITELIST : list (list Z) := [[0; 0; 0; 0; 2; 48; 17; 226; 1; 1]].
Definition historian_poke_caller_is_whitelisted (caller : Principal) : bool :=
  existsb (fun allowed => bool_decide (principal_as_slice caller = allowed)) HISTORIAN_POKE_CALLER_WHITELIST.
Definition guard_historian_poke_caller (caller : Principal) : result unit string :=
  if historian_poke_caller_is_whitelisted caller then Ok tt else Err "caller is not an authorized Historian poke source"%string.

Definition staking_match (item : EventHorizonPokeMatch) : bool :=
  bool_decide (subject item = mainnet_disburser_id) && match target item with NeuronNonce 0 => true | _ => false end.
Definition max_of (l : list Z) : option Z := match l with [] => None | x :: l => Some (fold_left Z.max l x) end.
Definition staking_max_amount (matches : list EventHorizonPokeMatch) : option Z := max_of (map max_amount (List.filter staking_match matches)).
Definition staking_poke_is_relevant (max_amount : Z) (s : State) : bool := min_tx_e8s (config s) <=? max_amount.

(** The index check that a message or a timer starts at [now_ns]. *)
Definition index_check (now_ns : Z) (s : State) : async PokeAttempt :=
  handle_endowment_poke_with_client (index_canister_id (config s)) (now_ns / NANOS_PER_SECOND).
Definition DEFERRED_DELAY_NS : Z := ENDOWMENT_POKE_MIN_INTERVAL_SECONDS * NANOS_PER_SECOND.

(** Up to the first call: the delay of the timer that is set, the record, and what is awaited. *)
Definition handle_staking_poke (now_ns : Z) (s : State) (d : PokeDeferredState) : option Z * PokeDeferredState * async PokeAttempt :=
  let '(first, d) := record_poke_hint now_ns d in
  (if first then Some DEFERRED_DELAY_NS else None, d, index_check now_ns s).

Inductive PokeOutcome := Rejected (message : string) | Ignored | Handled (timer : option Z) (d : PokeDeferredState) (check : async PokeAttempt).
Definition poke (caller : Principal) (now_ns : Z) (matches : list EventHorizonPokeMatch) (s : State) (d : PokeDeferredState) : PokeOutcome :=
  match guard_historian_poke_caller caller with
  | Err message => Rejected message
  | Ok _ =>
      match staking_max_amount matches with
      | None => Ignored
      | Some amount =>
          if staking_poke_is_relevant amount s then
            let '(timer, d, check) := handle_staking_poke now_ns s d in Handled timer d check
          else Ignored
      end
  end.

(** The closure of [schedule_poke_deferred_check]. *)
Definition poke_deferred_check (now_ns : Z) (s : State) (d : PokeDeferredState) : option Z * PokeDeferredState * option (async PokeAttempt) :=
  let '(action, d) := deferred_timer_action now_ns d in
  match action with
  | Stop => (None, d, None)
  | Reschedule remaining => (Some remaining, d, None)
  | CheckNow => (None, d, Some (index_check now_ns s))
  end.

(** ** What happens

    A timer fires at its time or later.  An upgrade loses the record and the timers of the
    pokes; [post_upgrade], like [init], installs the timers of [install_timers] for the state
    [s] that it leaves, the forced tick among them, which runs [main_tick true]. *)

Inductive PokeEvent := Hinted (at_ns : Z) | Checked (at_ns : Z) | Ticked (at_ns : Z) | Upgraded (at_ns : Z).
(** The poke timers and the forced ticks that are set, with their times. *)
Record PokeWorld := MkPokeWorld { pw_clock : Z; pw_deferred : PokeDeferredState; pw_timers : list Z; pw_forced : list Z; pw_log : list PokeEvent }.
Definition timer_at (clock : Z) (delay : option Z) : list Z := match delay with Some d => [clock + d] | None => [] end.
Definition forced_ticks (clock : Z) (timers : list Timer) : list Z :=
  omap (fun t => match timer_task t with
    | ForcedTick => if timer_repeats t then None else Some (clock + timer_seconds t * NANOS_PER_SECOND)
    | _ => None
    end) timers.
Inductive poke_step : PokeWorld -> PokeWorld -> Prop :=
| TimePasses t w : pw_clock w <= t -> poke_step w (MkPokeWorld t (pw_deferred w) (pw_timers w) (pw_forced w) (pw_log w))
| PokeArrives caller matches s timer d check w : poke caller (pw_clock w) matches s (pw_deferred w) = Handled timer d check ->
    poke_step w (MkPokeWorld (pw_clock w) d (timer_at (pw_clock w) timer ++ pw_timers w) (pw_forced w) (Hinted (pw_clock w) :: pw_log w))
| TimerFires s due before after w again d check : pw_timers w = before ++ due :: after -> due <= pw_clock w ->
    poke_deferred_check (pw_clock w) s (pw_deferred w) = (again, d, check) ->
    poke_step w (MkPokeWorld (pw_clock w) d (timer_at (pw_clock w) again ++ before ++ after) (pw_forced w)
      (match check with Some _ => Checked (pw_clock w) :: pw_log w | None => pw_log w end))
| ForcedTickFires due before after w : pw_forced w = before ++ due :: after -> due <= pw_clock w ->
    poke_step w (MkPokeWorld (pw_clock w) (pw_deferred w) (pw_timers w) (before ++ after) (Ticked (pw_clock w) :: pw_log w))
| CanisterUpgrade s w :
    poke_step w (MkPokeWorld (pw_clock w) PokeDeferredState_default [] (forced_ticks (pw_clock w) (install_timers s)) (Upgraded (pw_clock w) :: pw_log w)).
(** After an installation that left [s]. *)
Definition fresh_poke_world (clock : Z) (s : State) : PokeWorld :=
  MkPokeWorld clock PokeDeferredState_default [] (forced_ticks clock (install_timers s)) [].

Definition event_ns (ev : PokeEvent) : Z := match ev with Hinted t | Checked t | Ticked t | Upgraded t => t end.
(** The hints that neither a check nor a forced tick has followed; those among them that
    came after the last upgrade, and the last upgrade. *)
Fixpoint open_hints (log : list PokeEvent) : list Z :=
  match log with
  | Hinted t :: log => t :: open_hints log
  | Upgraded _ :: log => open_hints log
  | _ => []
  end.
Fixpoint recent_hints (log : list PokeEvent) : list Z :=
  match log with
  | Hinted t :: log => t :: recent_hints log
  | _ => []
  end.
Fixpoint last_upgrade (log : list PokeEvent) : option Z :=
  match log with
  | [] => None
  | Upgraded t :: _ => Some t
  | _ :: log => last_upgrade log
  end.
(** The checks that the timers started. *)
Fixpoint check_times (log : list PokeEvent) : list Z :=
  match log with
  | [] => []
  | Checked t :: log => t :: check_times log
  | _ :: log => check_times log
  end.
Fixpoint spaced (l : list Z) : Prop :=
  match l with
  | [] => True
  | t :: l => match l with [] => True | t' :: _ => t' + DEFERRED_DELAY_NS <= t end /\ spaced l
  end.

(** ** The invariant *)

Definition after_upgrade (w : PokeWorld) (hint : Z) : Prop :=
  exists at_ns fires, last_upgrade (pw_log w) = Some at_ns /\ hint <= at_ns /\ pw_forced w = [fires] /\ fires <= at_ns + NANOS_PER_SECOND.
Record poke_ok (w : PokeWorld) : Prop := {
  ok_past : Forall (fun ev => event_ns ev <= pw_clock w) (pw_log w);
  ok_spaced : spaced (check_times (pw_log w));
  ok_timer : (pw_timers w = [] /\ pw_deferred w = PokeDeferredState_default /\ recent_hints (pw_log w) = []) \/
    exists due fires, pw_timers w = [fires] /\ pw_deferred w = MkPokeDeferred (Some due) true /\ due <= fires <= pw_clock w + DEFERRED_DELAY_NS /\
      Forall (fun hint => fires <= hint + DEFERRED_DELAY_NS) (recent_hints (pw_log w)) /\
      match check_times (pw_log w) with [] => True | t :: _ => t + DEFERRED_DELAY_NS <= fires end;
  ok_forced : (length (pw_forced w) <= 1)%nat;
  ok_open : Forall (fun hint => hint ∈ recent_hints (pw_log w) \/ after_upgrade w hint) (open_hints (pw_log w));
}.

Lemma past_open clock log : Forall (fun ev => event_ns ev <= clock) log -> Forall (fun t => t <= clock) (open_hints log).
Proof. induction 1 as [|ev log Hev _ IH]; [constructor|]. destruct ev; cbn in *; try done; by constructor. Qed.
Lemma forced_ticks_installed clock s : forced_ticks clock (install_timers s) = [clock + NANOS_PER_SECOND].
Proof. reflexivity. Qed.
Lemma past_checks clock log : Forall (fun ev => event_ns ev <= clock) log -> Forall (fun t => t <= clock) (check_times log).
Proof. induction 1 as [|ev log Hev _ IH]; [constructor|]. destruct ev; cbn in *; try done. by constructor. Qed.
Lemma fold_max_ge (l : list Z) (x : Z) : x <= fold_left Z.max l x /\ forall y, y ∈ l -> y <= fold_left Z.max l x.
Proof.
  revert x. induction l as [|y l IH]; intros x; cbn [fold_left]; [split; [lia|set_solver]|].
  destruct (IH (Z.max x y)) as [H1 H2]. split; [lia|]. intros z [->|Hz]%elem_of_cons; [lia|auto].
Qed.
Lemma fold_max_in (l : list Z) (x : Z) : fold_left Z.max l x ∈ x :: l.
Proof.
  revert x. induction l as [|y l IH]; intros x; cbn [fold_left]; [set_solver|].
  specialize (IH (Z.max x y)). destruct (Z.max_spec x y) as [[_ E]|[_ E]]; rewrite E in *; set_solver.
Qed.
(** The maximum reaches a bound exactly when some element does. *)
Lemma max_of_ge (bound : Z) (l : list Z) : (exists m, max_of l = Some m /\ bound <= m) <-> exists x, x ∈ l /\ bound <= x.
Proof.
  destruct l as [|x l]; cbn; [split; [naive_solver|set_solver]|]. split.
  - intros (m & [= <-] & Hm). eexists. split; [apply fold_max_in|done].
  - intros (y & Hy & Hb). eexists. split; [done|]. destruct (fold_max_ge l x) as [H1 H2].
    apply elem_of_cons in Hy as [->|Hy]; [lia|]. specialize (H2 _ Hy). lia.
Qed.

(** A hint is taken only from the Event Horizon, for a qualifying amount that entered the
    stake of the disburser's first neuron; every such notification is taken. *)
Lemma poke_taken caller now_ns matches s d :
  (exists timer d' check, poke caller now_ns matches s d = Handled timer d' check) <->
  principal_as_slice caller = [0; 0; 0; 0; 2; 48; 17; 226; 1; 1] /\
  exists item, item ∈ matches /\ subject item = mainnet_disburser_id /\ target item = NeuronNonce 0 /\ min_tx_e8s (config s) <= max_amount item.
Proof.
  assert (Hw : historian_poke_caller_is_whitelisted caller = bool_decide (principal_as_slice caller = [0; 0; 0; 0; 2; 48; 17; 226; 1; 1]))
    by (cbn; apply orb_false_r).
  assert (Hm : (exists m, staking_max_amount matches = Some m /\ min_tx_e8s (config s) <= m) <->
    exists item, item ∈ matches /\ subject item = mainnet_disburser_id /\ target item = NeuronNonce 0 /\ min_tx_e8s (config s) <= max_amount item).
  { unfold staking_max_amount. rewrite max_of_ge. split.
    - intros (x & Hx & Hb). apply list_elem_of_fmap in Hx as (item & -> & Hi). apply list_elem_of_In, filter_In in Hi as [Hi Hs].
      unfold staking_match in Hs. apply andb_true_iff in Hs as [Hs1%bool_decide_eq_true Hs2].
      exists item. split; [by apply list_elem_of_In|]. split; [done|]. split; [|done]. by destruct (target item) as [|[]].
    - intros (item & Hi & Hs & Ht & Hb). exists (max_amount item). split; [|done]. apply list_elem_of_fmap. exists item. split; [done|].
      apply list_elem_of_In, filter_In. split; [by apply list_elem_of_In|]. unfold staking_match. rewrite Ht. by rewrite bool_decide_true. }
  unfold poke, guard_historian_poke_caller. rewrite Hw, <-Hm. case_bool_decide as Hc; [|split; [naive_solver|tauto]].
  destruct (staking_max_amount matches) as [m|]; [|split; [naive_solver|intros (_ & m & [=] & _)]].
  unfold staking_poke_is_relevant, handle_staking_poke. destruct (Z.leb_spec (min_tx_e8s (config s)) m) as [Hl|Hl].
  - destruct (record_poke_hint now_ns d). split; [|naive_solver]. intros _. split; [done|]. by exists m.
  - split; [naive_solver|]. intros (_ & m' & [= <-] & Hm'). lia.
Qed.
Lemma handled_hint caller now_ns matches s d timer d' check : poke caller now_ns matches s d = Handled timer d' check ->
  (timer, d') = (if timer_pending d then (None, d)
                 else (Some DEFERRED_DELAY_NS, MkPokeDeferred (Some (sat_add now_ns (sat_mul ENDOWMENT_POKE_MIN_INTERVAL_SECONDS NANOS_PER_SECOND))) true)).
Proof.
  unfold poke, handle_staking_poke, record_poke_hint. destruct (guard_historian_poke_caller caller); [|done].
  destruct (staking_max_amount matches); [|done]. destruct (staking_poke_is_relevant _ _); [|done]. by destruct (timer_pending d) eqn:E; intros [= <- <- <-].
Qed.

(** A timer that fires at its time checks, it is never set again. *)
Lemma fires_check now_ns s due : due <= now_ns ->
  poke_deferred_check now_ns s (MkPokeDeferred (Some due) true) = (None, MkPokeDeferred None false, Some (index_check now_ns s)).
Proof. intros Hd. unfold poke_deferred_check, deferred_timer_action. cbn. by destruct (Z.ltb_spec now_ns due); [lia|]. Qed.

Lemma poke_step_ok w w' : poke_ok w -> poke_step w w' -> poke_ok w'.
Proof.
  intros Hok Hstep.
  destruct Hstep as [t w0 Ht|caller matches s timer d check w0 Hp|s due before after w0 again d check Htm Hdue Hd|due before after w0 Hfo Hdue|s w0];
    destruct Hok as [Hpast Hspaced Htimer Hforced Hopen]; cbn in *.
  - split; cbn; [|done| |done|done].
    { eapply Forall_impl; [exact Hpast|]. cbn. lia. }
    destruct Htimer as [Hnone|(due & fires & Et & Ed & Hdf & Hrest)]; [by left|]. right. exists due, fires.
    split; [done|]. split; [done|]. split; [lia|done].
  - apply handled_hint in Hp. split; cbn; [constructor; [cbn; lia|done]|done| |done|].
    + destruct Htimer as [(Et & Ed & Eo)|(due & fires & Et & Ed & Hdf & Hhints & Hlast)]; rewrite Ed in Hp; injection Hp as -> ->; right.
      * eexists _, _. rewrite Et, Eo. cbn. split; [reflexivity|]. split; [reflexivity|]. unfold sat_add, sat_mul, DEFERRED_DELAY_NS in *.
        split; [lia|]. split; [repeat constructor; lia|]. pose proof (past_checks _ _ Hpast) as Hc. destruct (check_times (pw_log w0)); [done|].
        apply Forall_cons in Hc as [Hc _]. lia.
      * exists due, fires. rewrite Et. cbn. split; [done|]. split; [done|]. split; [done|]. split; [|done]. constructor; [lia|done].
    + constructor; [left; left|]. eapply Forall_impl; [exact Hopen|]. intros hint [Hh|Hh]; [left; by right|right; exact Hh].
  - destruct Htimer as [(Et & _)|(due' & fires & Et & Ed & Hdf & Hhints & Hlast)]; rewrite Et in Htm; [by destruct before|].
    destruct before as [|? [|]]; [|done|done]. injection Htm as <- <-. rewrite Ed, fires_check in Hd by lia. injection Hd as <- <- <-. cbn.
    split; cbn; [constructor; [cbn; lia|done]| |by left|done|constructor]. split; [|done]. destruct (check_times (pw_log w0)); [done|lia].
  - split; cbn; [constructor; [cbn; lia|done]|done| | |constructor].
    + destruct Htimer as [(Et & Ed & _)|(due' & fires & Et & Ed & Hdf & _ & Hlast)]; [by left|]. right. exists due', fires. done.
    + rewrite Hfo, !length_app in *. cbn in Hforced. lia.
  - split; cbn; [constructor; [cbn; lia|done]|done|by left|lia|]. eapply Forall_impl; [exact (past_open _ _ Hpast)|]. intros hint Hh.
    right. exists (pw_clock w0), (pw_clock w0 + NANOS_PER_SECOND). by split; [|split; [exact Hh|split]].
Qed.
Lemma poke_reachable_ok clock s w : rtc poke_step (fresh_poke_world clock s) w -> poke_ok w.
Proof.
  assert (Hkeep : forall w1 w2, rtc poke_step w1 w2 -> poke_ok w1 -> poke_ok w2).
  { induction 1 as [|w1 w2 w3 Hs _ IH]; [done|]. intros Hok. apply IH. by eapply poke_step_ok. }
  intros Hr. apply (Hkeep _ _ Hr). split; [constructor|done|by left|cbn; lia|constructor].
Qed.

End poke.

(** C21: The pokes of the Event Horizon are coalesced and none is forgotten: whatever messages,
    late timers and upgrades come, at most one timer of theirs is set; a hint that neither a
    check nor the forced tick of a restart has followed is due: that timer is due within ten
    seconds of the hint, and when it fires it checks the index at once instead of being set
    again, or an upgrade after the hint dropped that timer and the forced tick that the
    upgrade installed is due within a second of it; and the checks that these timers start
    (the check that each poke makes at once is not one of them) are ten seconds apart.  A hint
    is taken exactly from the Event Horizon, for a qualifying amount in the stake of the
    disburser's first neuron. *)
Theorem pokes_coalesced_none_lost `{P : PrincipalSpec} `{O : !OrdSpec Principal} `{SS : !SliceSpec} `{T : TextSpec} `{H : HashSpec} {EH : EventHorizon}
    `{B : !BuildSpec} (clock : Z) (installed : State) (w : PokeWorld) (Hreach : rtc poke_step (fresh_poke_world clock installed) w) :
  (length (pw_timers w) <= 1)%nat /\ (length (pw_forced w) <= 1)%nat /\
  (forall hint, hint ∈ open_hints (pw_log w) ->
     (exists fires, pw_timers w = [fires] /\ fires <= hint + 10000000000 /\
        forall now_ns s, fires <= now_ns -> poke_deferred_check now_ns s (pw_deferred w) = (None, PokeDeferredState_default, Some (index_check now_ns s))) \/
     (exists at_ns fires, last_upgrade (pw_log w) = Some at_ns /\ hint <= at_ns /\ pw_forced w = [fires] /\ fires <= at_ns + 1000000000)) /\
  spaced (check_times (pw_log w)) /\
  (forall caller matches s, (exists timer d check, poke caller (pw_clock w) matches s (pw_deferred w) = Handled timer d check) <->
     principal_as_slice caller = [0; 0; 0; 0; 2; 48; 17; 226; 1; 1] /\
     exists item, item ∈ matches /\ subject item = mainnet_disburser_id /\ target item = NeuronNonce 0 /\ min_tx_e8s (config s) <= max_amount item).
Proof.
  destruct (poke_reachable_ok _ _ _ Hreach) as [_ Hspaced Htimer Hforced Hopen].
  split; [|split; [exact Hforced|split; [|split; [exact Hspaced|intros; apply poke_taken]]]].
  - destruct Htimer as [(-> & _)|(due & fires & -> & _)]; cbn; lia.
  - intros hint Hh. destruct (proj1 (Forall_forall _ _) Hopen _ Hh) as [Hr|Hup]; [left|right; exact Hup].
    destruct Htimer as [(_ & _ & E)|(due & fires & Et & Ed & Hdf & Hhints & _)]; [rewrite E in Hr; set_solver|].
    exists fires. split; [done|]. split; [exact (proj1 (Forall_forall _ _) Hhints _ Hr)|]. intros now_ns s Hn. rewrite Ed. apply fires_check. lia.
Qed.

Module ConcretePoke.
(** The canister 1000 is the Event Horizon, the canister 20 the disburser. *)
#[local] Instance named : PrincipalSpec := {
  Principal := Z;
  anonymous := 4;
  management_canister := 0;
  principal_from_text := fun _ => Some 1000;
  principal_to_text := fun p => [112; p];
  principal_as_slice := fun p => if p =? 1000 then [0; 0; 0; 0; 2; 48; 17; 226; 1; 1] else [p];
}.
Abbreviation principal := (Principal (PrincipalSpec:=named)).
#[local] Instance named_slices : SliceSpec := fun bytes => default 0 (head bytes).
#[local] Instance named_order : OrdSpec principal := Z.ltb.
#[local] Instance named_event_horizon : EventHorizon (H:=named) := { event_horizon := 1000 : principal; event_horizon_text := eq_refl }.
#[local] Instance named_build : BuildSpec (H:=named) := {|
  mainnet_ledger_id := 1 : principal; mainnet_index_id := 2 : principal; mainnet_disburser_id := 20 : principal;
  mainnet_rewards_id := 21 : principal; mainnet_cmc_id := 3 : principal; mainnet_faucet_id := 5 : principal;
  mainnet_relay_id := 22 : principal; mainnet_sns_wasm_id := 6 : principal; mainnet_xrc_id := 8 : principal;
  mainnet_canonical_relay_targets := []; source_module_hash_canister_ids := [];
  relay_raw_wasm_sha256 := None; relay_gz_wasm_sha256 := None |}.
Import Concrete ConcreteTexts ConcreteHash.
Definition account_7 : Account (H:=named) := MkAccount named 7 None.
Definition config_7 : Config (P:=named) :=
  MkConfig (P:=named) account_7 account_7 account_7 account_7 1 2 (Some 3) (Some 5) 6 8 false 600 604800 100000000 100 100 10
    25 true 300000000 2000000000000 5000000 100020000 86400 None [].
Definition state_7 : State (P:=named) := State_new config_7 1000.
Definition stake : list (EventHorizonPokeMatch (P:=named)) :=
  [MkMatch (20 : principal) (NeuronNonce 0) 5 300000000; MkMatch (20 : principal) (NeuronNonce 1) 6 1].

Example strangers_are_rejected :
  poke (20 : principal) 5000 stake state_7 PokeDeferredState_default = Rejected "caller is not an authorized Historian poke source" /\
  poke (1000 : principal) 5000 (tail stake) state_7 PokeDeferredState_default = Ignored.
Proof. split; reflexivity. Qed.

(** A hint, an upgrade three seconds later and a second after that another hint. *)
Definition hint_1 : PokeWorld := MkPokeWorld 5000 (MkPokeDeferred (Some 10000005000) true) [10000005000] [1000005000] [Hinted 5000].
Definition upgraded_1 : PokeWorld := MkPokeWorld 3000005000 PokeDeferredState_default [] [4000005000] [Upgraded 3000005000; Hinted 5000].
Definition second_hint : PokeWorld :=
  MkPokeWorld 4000005000 (MkPokeDeferred (Some 14000005000) true) [14000005000] [4000005000] [Hinted 4000005000; Upgraded 3000005000; Hinted 5000].
Lemma second_hint_reached : rtc poke_step (fresh_poke_world 5000 state_7) second_hint.
Proof.
  eapply rtc_l; [exact (PokeArrives (1000 : principal) stake state_7 _ _ _ (fresh_poke_world 5000 state_7) eq_refl)|].
  eapply rtc_l; [eapply (TimePasses 3000005000); cbn; lia|].
  eapply rtc_l; [exact (CanisterUpgrade state_7 (MkPokeWorld 3000005000 (MkPokeDeferred (Some 10000005000) true) [10000005000] [1000005000] [Hinted 5000]))|].
  eapply rtc_l; [eapply (TimePasses 4000005000); cbn; lia|].
  eapply rtc_l; [exact (PokeArrives (1000 : principal) stake state_7 _ _ _
    (MkPokeWorld 4000005000 PokeDeferredState_default [] [4000005000] [Upgraded 3000005000; Hinted 5000]) eq_refl)|].
  apply rtc_refl.
Qed.
(** The first hint waits for the forced tick, the second one for its timer. *)
Lemma pokes_coalesced_none_lost_witness : rtc poke_step (fresh_poke_world 5000 state_7) second_hint /\
  (exists at_ns fires, last_upgrade (pw_log second_hint) = Some at_ns /\ 5000 <= at_ns /\ pw_forced second_hint = [fires] /\ fires <= at_ns + 1000000000) /\
  exists fires, pw_timers second_hint = [fires] /\ fires <= 4000005000 + 10000000000.
Proof.
  split; [exact second_hint_reached|].
  destruct (pokes_coalesced_none_lost 5000 state_7 second_hint second_hint_reached) as (_ & _ & Hopen & _). split.
  - destruct (Hopen 5000) as [(fires & [= <-] & Hf & _)|Hup]; [right; left| |exact Hup]. exfalso. revert Hf. vm_compute. intros Hf. by apply Hf.
  - destruct (Hopen 4000005000) as [(fires & Et & Hf & _)|(at_ns & fires & [= <-] & Hat & _)]; [left|by exists fires|].
    exfalso. revert Hat. vm_compute. intros Hat. by apply Hat.
Defined.
End ConcretePoke.
