(* ===== verification/RelayLifecycle.v ===== *)
(** * Relay: installation, upgrade and the admission of pokes ([canisters/relay/src/lib.rs])

    [init] and [post_upgrade] are the same: the arguments make a configuration, the two
    stable cells (the splitter journal and the reward state) are kept, and everything else
    starts anew.  [None] stands for a panic, which aborts the message. *)

From S2P Require Import Prelude BTree Async Ic Accounts Clients DisburserState TimerGuard CyclesProbe RelayState RelayLogic RelaySplitter RelayTransfer RelayJob RelayAccounting RelayDrive RewardPayout RelayTick.

(** The canisters that the build binds. *)
Class RelayBuild `{PrincipalSpec} := {
  mainnet_ledger_id : Principal;
  mainnet_cmc_id : Principal;
  mainnet_governance_id : Principal;
  mainnet_sns_rewards_id : Principal;
  mainnet_icp_index_id : Principal;
}.

Section lifecycle.
Context `{P : PrincipalSpec} `{B : !RelayBuild}.
#[local] Existing Instance Principal_eq_dec.

(** ** The arguments *)

Record SurplusCanisterRecipient := MkCanisterRecipient { rc_canister : Principal; rc_memo : list Z }.
Record SurplusNeuronRecipient := MkNeuronRecipient { rn_neuron : Z; rn_memo : list Z }.
Record InitArgs := MkInitArgs {
  i_managed_canisters : list Principal;
  i_ledger_canister_id : option Principal;
  i_cmc_canister_id : option Principal;
  i_governance_canister_id : option Principal;
  i_blackhole_canister_id : option Principal;
  i_sns_rewards_canister_id : option Principal;
  i_icp_index_canister_id : option Principal;
  i_main_interval_seconds : option Z;
  i_max_transfers_per_tick : option Z;
  i_surplus_canister_recipients : option (list SurplusCanisterRecipient);
  i_surplus_neuron_recipients : list SurplusNeuronRecipient;
}.

Definition validate_public_canister_target (p : Principal) : bool :=
  negb (bool_decide (p = anonymous)) && negb (bool_decide (p = management_canister)).
Definition public_memo_to_internal (memo : list Z) : option (list Z) := match memo with [] => None | _ => Some memo end.
Definition surplus_canister_recipient_from_public (r : SurplusCanisterRecipient) : option SurplusRecipient :=
  if validate_public_canister_target (rc_canister r)
  then Some (MkRecipient (SurplusCanister (rc_canister r)) (public_memo_to_internal (rc_memo r))) else None.
Definition surplus_neuron_recipient_from_public (r : SurplusNeuronRecipient) : SurplusRecipient :=
  MkRecipient (SurplusNeuron (rn_neuron r)) (public_memo_to_internal (rn_memo r)).
Definition public_surplus_recipients_from_args (canisters : option (list SurplusCanisterRecipient)) (neurons : list SurplusNeuronRecipient) :
    option (list SurplusRecipient) :=
  recipients ← mapM surplus_canister_recipient_from_public (default [] canisters);
  Some (recipients ++ map surplus_neuron_recipient_from_public neurons).

Definition config_from_init_args (args : InitArgs) : option Config :=
  recipients ← public_surplus_recipients_from_args (i_surplus_canister_recipients args) (i_surplus_neuron_recipients args);
  Some {|
    managed_canisters := i_managed_canisters args;
    ledger_canister_id := default mainnet_ledger_id (i_ledger_canister_id args);
    cmc_canister_id := default mainnet_cmc_id (i_cmc_canister_id args);
    governance_canister_id := default mainnet_governance_id (i_governance_canister_id args);
    sns_rewards_canister_id := default mainnet_sns_rewards_id (i_sns_rewards_canister_id args);
    icp_index_canister_id := default mainnet_icp_index_id (i_icp_index_canister_id args);
    cycles_probe_policy := match i_blackhole_canister_id args with Some id => FixedBlackhole id | None => Auto end;
    main_interval_seconds := Z.max (default (24 * 60 * 60) (i_main_interval_seconds args)) 60;
    max_transfers_per_tick := i_max_transfers_per_tick args;
    surplus_recipients := recipients;
  |}.

(** ** Initialization

    The cells are [None] while they are [Uninitialized]. *)

Record Cells := MkCells { splitter_cell : option SplitterState; reward_cell : option RewardState }.
Definition PokeRuntimeState_default : PokeRuntimeState := MkPoke None false 0.
Definition cells_of (h : Heap) : Cells := MkCells (Some (splitter h)) (Some (reward h)).

Definition initialize_from_config (now_nanos : Z) (cfg : Config) (cells : Cells) : option Heap :=
  if negb (validate_config cfg) then None
  else
    let splitter := default SplitterState_default (splitter_cell cells) in
    if negb (validate_active_ledger (ledger_canister_id cfg) splitter) then None
    else
      Some (schedule_startup_liveness_tick (install_timers
        (MkHeap (State_new cfg (now_nanos / 1000000000)) splitter (default RewardState_default (reward_cell cells)) false
           PokeRuntimeState_default []))).
Definition initialize_from_args (now_nanos : Z) (args : InitArgs) (cells : Cells) : option Heap :=
  cfg ← config_from_init_args args; initialize_from_config now_nanos cfg cells.
Definition init (now_nanos : Z) (args : InitArgs) : option Heap := initialize_from_args now_nanos args (MkCells None None).
Definition post_upgrade (now_nanos : Z) (args : InitArgs) (h : Heap) : option Heap := initialize_from_args now_nanos args (cells_of h).

(** ** The admission of a poke *)

Definition EVENT_HORIZON_FUNDING_SUBACCOUNTS : list Z := [0; 1; 10; 20; 30; 40; 50; 60; 70; 80; 90].
Definition has_relevant_event_horizon_match (matches : list EventHorizonPokeMatch) (self : Principal) : bool :=
  existsb (fun item => bool_decide (subject item = self)
    && match DisburserState.target item with
       | Subaccount id => bool_decide (id ∈ EVENT_HORIZON_FUNDING_SUBACCOUNTS)
       | NeuronNonce _ => false
       end) matches.
(** What [poke] does: an error of the guard, or whether the worker is called. *)
Definition poke_admitted (caller self : Principal) (matches : list EventHorizonPokeMatch) : result bool string :=
  match guard_event_horizon_caller caller with
  | Ok _ => Ok (has_relevant_event_horizon_match matches self)
  | Err e => Err e
  end.

(** ** Lemmas *)

Lemma recipients_converted canisters neurons :
  match public_surplus_recipients_from_args canisters neurons with
  | Some recipients =>
      map target recipients = map (fun r => SurplusCanister (rc_canister r)) (default [] canisters) ++ map (fun r => SurplusNeuron (rn_neuron r)) neurons /\
      map recipient_memo recipients = map (fun r => public_memo_to_internal (rc_memo r)) (default [] canisters)
        ++ map (fun r => public_memo_to_internal (rn_memo r)) neurons /\
      forallb (fun r => validate_public_canister_target (rc_canister r)) (default [] canisters) = true
  | None => forallb (fun r => validate_public_canister_target (rc_canister r)) (default [] canisters) = false
  end.
Proof.
  unfold public_surplus_recipients_from_args. set (l := default [] canisters). clearbody l.
  assert (Hl : match mapM surplus_canister_recipient_from_public l with
    | Some recipients => map target recipients = map (fun r => SurplusCanister (rc_canister r)) l /\
        map recipient_memo recipients = map (fun r => public_memo_to_internal (rc_memo r)) l /\
        forallb (fun r => validate_public_canister_target (rc_canister r)) l = true
    | None => forallb (fun r => validate_public_canister_target (rc_canister r)) l = false
    end).
  { induction l as [|r l IH]; [done|]. cbn. assert (Hc : surplus_canister_recipient_from_public r = if validate_public_canister_target (rc_canister r)
      then Some (MkRecipient (SurplusCanister (rc_canister r)) (public_memo_to_internal (rc_memo r))) else None) by done. rewrite Hc. clear Hc.
    destruct (validate_public_canister_target (rc_canister r)); [cbn|done].
    destruct (mapM surplus_canister_recipient_from_public l) as [recipients|]; cbn; [|exact IH].
    destruct IH as (-> & -> & ->). done. }
  destruct (mapM surplus_canister_recipient_from_public l) as [recipients|]; cbn; [|exact Hl].
  destruct Hl as (E1 & E2 & E3). rewrite !map_app, !map_map, E1, E2. done.
Qed.
Lemma forallb_false_witness {X} (f : X -> bool) (l : list X) : forallb f l = false -> exists x, x ∈ l /\ f x = false.
Proof.
  induction l as [|x l IH]; [done|]. cbn. intros Hf. destruct (f x) eqn:E; [|exists x; set_solver].
  destruct (IH Hf) as (y & Hy & Ef). exists y. set_solver.
Qed.
Lemma validate_interval cfg : validate_config cfg = true -> 60 <= main_interval_seconds cfg.
Proof. unfold validate_config. intros H. apply andb_true_iff in H as [_ H]. destruct (Z.ltb_spec (main_interval_seconds cfg) 60); [done|lia]. Qed.

Lemma forallb_targets (l : list SurplusCanisterRecipient) : forallb (fun r => validate_public_canister_target (rc_canister r)) l = true ->
  Forall (fun r => rc_canister r <> anonymous /\ rc_canister r <> management_canister) l.
Proof.
  intros Hl. apply Forall_forall. intros r Hin. apply list_elem_of_In, (proj1 (forallb_forall _ _) Hl), andb_true_iff in Hin as [H1 H2].
  apply negb_true_iff, bool_decide_eq_false in H1, H2. done.
Qed.
End lifecycle.

(** C23: A restart aborts exactly when a surplus canister is anonymous or the management canister,
    when the configuration is not valid, or when the splitter job in the journal was pinned
    to another ledger.  Otherwise the journal and the reward state are what they were, so a
    splitter in progress goes on with the ledger it was planned for and a pinned payout
    stays valid.  The rest is new: there is no relay job, no pending commitment transfer, no
    lease, no continuation or retry that is waited for, no measurement or summary is kept, and
    the record of the pokes is empty.  The recipients are those of the arguments, with empty
    memos left out; and the three timers of the main tick, the splitter retry and the startup
    are the only ones. *)
Theorem relay_restart_exact `{P : PrincipalSpec} `{B : !RelayBuild} (now_nanos : Z) (args : InitArgs) (h : Heap) :
  match post_upgrade now_nanos args h with
  | None => (exists r, r ∈ default [] (i_surplus_canister_recipients args) /\ (rc_canister r = anonymous \/ rc_canister r = management_canister)) \/
      exists cfg, config_from_init_args args = Some cfg /\
        (validate_config cfg = false \/ exists job, active_splitter_job (splitter h) = Some job /\ pinned_ledger_canister_id job <> ledger_canister_id cfg)
  | Some h' => splitter h' = splitter h /\ reward h' = reward h /\ (reward_valid h -> reward_valid h') /\ state_ok h' /\
      validate_config (config (st h')) = true /\ config_from_init_args args = Some (config (st h')) /\
      (forall job, active_splitter_job (splitter h') = Some job -> pinned_ledger_canister_id job = ledger_canister_id (config (st h'))) /\
      map target (surplus_recipients (config (st h'))) =
        map (fun r => SurplusCanister (rc_canister r)) (default [] (i_surplus_canister_recipients args))
        ++ map (fun r => SurplusNeuron (rn_neuron r)) (i_surplus_neuron_recipients args) /\
      map recipient_memo (surplus_recipients (config (st h'))) =
        map (fun r => public_memo_to_internal (rc_memo r)) (default [] (i_surplus_canister_recipients args))
        ++ map (fun r => public_memo_to_internal (rn_memo r)) (i_surplus_neuron_recipients args) /\
      Forall (fun r => rc_canister r <> anonymous /\ rc_canister r <> management_canister) (default [] (i_surplus_canister_recipients args)) /\
      (st h' = State_new (config (st h')) (now_nanos / 1000000000) /\ active_job (st h') = None /\
       active_faucet_commitment_transfer (st h') = None /\ main_lock_state_ts (st h') = Some 0 /\ splitter_lock_state_ts (st h') = Some 0 /\
       splitter_main_continuation_requested (st h') = false /\ splitter_main_continuation_timer_pending (st h') = false /\
       scheduled_main_retry_pending h' = false /\ poke_runtime h' = MkPoke None false 0 /\
       last_completed_cycles (st h') = [] /\ relay_minted_cycles_since_sample (st h') = [] /\ recovery_deficit_cycles (st h') = [] /\
       consecutive_probe_failures (st h') = [] /\ cached_cycles_probe_routes (st h') = [] /\ conversion_estimate (st h') = None /\
       last_known_ledger_fee_e8s (st h') = None /\ last_summary (st h') = None) /\
      timers h' = [StartupMainTick 1; SplitterRetryInterval SPLITTER_RETRY_INTERVAL_SECONDS; MainInterval (main_interval_seconds (config (st h')))]
  end.
Proof.
  unfold post_upgrade, initialize_from_args. destruct (config_from_init_args args) as [cfg|] eqn:Ec; cbn [mbind option_bind].
  - unfold initialize_from_config, cells_of. cbn [splitter_cell reward_cell]. change (default SplitterState_default (Some (splitter h))) with (splitter h).
    change (default RewardState_default (Some (reward h))) with (reward h). destruct (validate_config cfg) eqn:Ev; cbn [negb].
    2:{ right. exists cfg. split; [done|]. by left. }
    unfold validate_active_ledger. destruct (active_splitter_job (splitter h)) as [job|] eqn:Ej; cbn [negb].
    1: case_bool_decide as Hp; cbn [negb]; [|right; exists cfg; split; [done|]; right; by exists job].
    all: cbn; rewrite Ev; repeat (split; [done|]); split;
      [intros job' Hj; rewrite Ej in Hj; by simplify_eq|];
      pose proof (recipients_converted (i_surplus_canister_recipients args) (i_surplus_neuron_recipients args)) as Hr;
      unfold config_from_init_args in Ec; destruct (public_surplus_recipients_from_args _ _) as [recipients|]; [|done];
      pose proof (validate_interval cfg Ev) as Hi; injection Ec as <-; destruct Hr as (Ht & Hm & Hv); (split; [exact Ht|split; [exact Hm|split; [by apply forallb_targets|]]]);
      (split; [by repeat split|]); cbn in *; by rewrite Z.max_l by lia.
  - left. pose proof (recipients_converted (i_surplus_canister_recipients args) (i_surplus_neuron_recipients args)) as Hr.
    unfold config_from_init_args in Ec. destruct (public_surplus_recipients_from_args _ _) as [recipients|]; [done|].
    apply forallb_false_witness in Hr as (r & Hin & Hf). exists r. split; [done|]. unfold validate_public_canister_target in Hf.
    destruct (decide (rc_canister r = anonymous)); [by left|]. right. rewrite bool_decide_false in Hf by done. cbn in Hf.
    by apply negb_false_iff, bool_decide_eq_true in Hf.
Qed.

Module ConcreteLifecycle.
Import Concrete ConcreteTexts.
Abbreviation principal := (Principal (PrincipalSpec:=concrete_principal)).
#[local] Instance bound : RelayBuild (H:=concrete_principal) := {|
  mainnet_ledger_id := 1 : principal; mainnet_cmc_id := 3 : principal; mainnet_governance_id := 6 : principal;
  mainnet_sns_rewards_id := 21 : principal; mainnet_icp_index_id := 2 : principal |}.
Definition neuron_args (ledger : option principal) (canister : principal) : InitArgs (P:=concrete_principal) :=
  MkInitArgs (P:=concrete_principal) [9 : principal] ledger None None None None None (Some 12) (Some 3)
    (Some [MkCanisterRecipient (canister : principal) [1; 2]]) [MkNeuronRecipient 42 []].
Definition installed : Heap (P:=concrete_principal) := default (MkHeap (State_new (MkConfig (P:=concrete_principal) [] (1 : principal) (1 : principal) (1 : principal) (1 : principal) (1 : principal) Auto 60 None []) 0)
  SplitterState_default RewardState_default false PokeRuntimeState_default []) (init 5000000000000 (neuron_args None 7)).
Example restarted_relay_config : main_interval_seconds (config (st installed)) = 60 /\
  surplus_recipients (config (st installed)) = [MkRecipient (SurplusCanister (7 : principal)) (Some [1; 2]); MkRecipient (SurplusNeuron 42) None].
Proof. split; reflexivity. Qed.
(** The management canister is no recipient, and the anonymous principal no ledger. *)
Example bad_arguments_abort : post_upgrade 0 (neuron_args None 0) installed = None /\
  post_upgrade 0 (neuron_args (Some 4) 7) installed = None.
Proof. split; reflexivity. Qed.
Example payout_survives : reward <$> post_upgrade 0 (neuron_args (Some 8) 7) (installed <| reward := MkRewardState 5 None |>) = Some (MkRewardState 5 None).
Proof. reflexivity. Qed.
End ConcreteLifecycle.
