(* ===== verification/FaucetDurable.v ===== *)
(** * Faucet: the stable cell of the state and the admission of pokes

    The persistence functions of [canisters/faucet/src/state.rs], which the disburser's
    [state.rs] shares outside its tests but for the batches: the state is shown from the
    heap and stored in a cell, at once or when a batch closes.  Also the guard of [poke] in
    [canisters/faucet/src/lib.rs].  [None] stands for a panic. *)

From S2P Require Import Prelude BTree Async Ic Accounts Clients DisburserState FaucetState HistorianState.

Section cell.
Context {X : Type}.

(** ** The functions *)

Record Durable := MkDurable { shown : option X; cell : option X; depth : Z; dirty : bool }.

Definition persist_snapshot (x : X) (d : Durable) : Durable := d <| cell := Some x |>.
Definition set_state (x : X) (d : Durable) : Durable := persist_snapshot x d <| dirty := false |> <| shown := Some x |>.
Definition persist_dirty_state (d : Durable) : option Durable :=
  if negb (dirty d) then Some d else x ← shown d; Some (persist_snapshot x d <| dirty := false |>).
Definition begin_persistence_batch (d : Durable) : Durable := d <| depth ::= begin_depth |>.
Definition drop_persistence_batch (d : Durable) : option Durable :=
  match finish_depth (depth d) (dirty d) with
  | Some (next_depth, should_flush) =>
      let d := d <| depth := next_depth |> in
      if should_flush then persist_dirty_state d else Some d
  | None => None
  end.
Definition with_state_mut {R} (f : X -> R * X) (d : Durable) : option (R * Durable) :=
  x ← shown d;
  let immediate_persist := negb (is_active (depth d)) in
  let '(out, x) := f x in
  let d := d <| shown := Some x |> in
  Some (out, if immediate_persist then persist_snapshot x d else d <| dirty := true |>).
Definition restore_state_from_stable (d : Durable) : option X := cell d.
(** An upgrade: the cell is kept, the rest is new. *)
Definition restarted (d : Durable) : Durable := MkDurable None (cell d) 0 false.

(** ** Messages

    A message is a sequence of these calls whose batches are closed in the end; when one
    panics, the message leaves no trace. *)

Inductive op := Update (f : X -> X) | Begin | Close | Flush | Replace (x : X).
Definition run_op (o : op) (d : Durable) : option Durable :=
  match o with
  | Update f => snd <$> with_state_mut (fun x => (tt, f x)) d
  | Begin => Some (begin_persistence_batch d)
  | Close => drop_persistence_batch d
  | Flush => persist_dirty_state d
  | Replace x => Some (set_state x d)
  end.
Fixpoint run_ops (ops : list op) (d : Durable) : option Durable :=
  match ops with
  | [] => Some d
  | o :: ops => d ← run_op o d; run_ops ops d
  end.
(** The batches are nested, to a depth that the counter holds. *)
Fixpoint closes (open : Z) (ops : list op) : bool :=
  match ops with
  | [] => open =? 0
  | Begin :: ops => (open <? 4294967295) && closes (open + 1) ops
  | Close :: ops => (0 <? open) && closes (open - 1) ops
  | _ :: ops => closes open ops
  end.
Definition outcome (ops : list op) (x : X) : X :=
  fold_left (fun x o => match o with Update f => f x | Replace y => y | _ => x end) ops x.

Inductive life_step : Durable -> Durable -> Prop :=
| Message ops d : closes 0 ops = true -> life_step d (default d (run_ops ops d))
| Upgrade (migrate : X -> option X) d : life_step d
    (default d (x ← restore_state_from_stable (restarted d); x ← migrate x; Some (set_state x (restarted d)))).

(** ** The invariant *)

Record in_step (d : Durable) (x : X) : Prop := {
  step_shown : shown d = Some x;
  step_stored : dirty d = false -> cell d = Some x;
  step_open : dirty d = true -> 0 < depth d;
}.
Lemma run_op_ok o d x n : in_step d x -> depth d = n -> 0 <= n ->
  match o with Begin => n < 4294967295 | Close => 0 < n | _ => True end ->
  exists d', run_op o d = Some d' /\ in_step d' (match o with Update f => f x | Replace y => y | _ => x end) /\
    depth d' = match o with Begin => n + 1 | Close => n - 1 | _ => n end.
Proof.
  intros [Hs Hc Ho] Hn Hpos Hfit. subst n. destruct d as [sh c n dt]. cbn in *. subst sh.
  destruct o as [f| | | |y]; cbn in *.
  - unfold with_state_mut, is_active. cbn. destruct (Z.ltb_spec 0 n) as [H0|H0]; cbn; eexists; (split; [reflexivity|]); (split; [|done]); split; cbn; auto; done.
  - eexists. split; [reflexivity|]. cbn. split; [split; cbn; auto; unfold begin_depth; intros E; specialize (Ho E); lia|unfold begin_depth; lia].
  - unfold drop_persistence_batch, finish_depth. cbn. destruct (Z.ltb_spec 0 n); [|lia].
    destruct (Z.eqb_spec (n - 1) 0) as [E0|E0], dt; cbn; eexists; (split; [reflexivity|]); (split; [|done]); split; cbn; auto; try done. intros _. unfold const. lia.
  - unfold persist_dirty_state. destruct dt; cbn; eexists; (split; [reflexivity|]); (split; [|done]); split; cbn; auto; done.
  - eexists. split; [reflexivity|]. split; [|done]. by split.
Qed.

Lemma run_ops_ok ops : forall d x n, in_step d x -> depth d = n -> 0 <= n -> closes n ops = true ->
  exists d', run_ops ops d = Some d' /\ in_step d' (outcome ops x) /\ depth d' = 0.
Proof.
  induction ops as [|o ops IH]; intros d x n Hd Hn Hpos Hc; cbn in *.
  { exists d. split; [done|]. split; [done|]. zify_bool. lia. }
  assert (Ho : match o with Begin => n < 4294967295 | Close => 0 < n | _ => True end /\
    closes (match o with Begin => n + 1 | Close => n - 1 | _ => n end) ops = true).
  { destruct o; cbn in Hc; try done; apply andb_true_iff in Hc as [H1 H2]; split; try done; zify_bool; lia. }
  destruct Ho as [Hfit Hrest]. destruct (run_op_ok o d x n Hd Hn Hpos Hfit) as (d1 & -> & Hd1 & En). cbn.
  apply (IH d1 _ _ Hd1 En); [|done]. destruct o; lia.
Qed.

(** Between two messages: what is shown is stored, and no batch is open. *)
Definition settled (d : Durable) (x : X) : Prop := shown d = Some x /\ cell d = Some x /\ depth d = 0 /\ dirty d = false.
Lemma settled_in_step d x : settled d x <-> in_step d x /\ depth d = 0.
Proof.
  split.
  - intros (Hs & Hc & Hn & Hd). split; [|done]. split; [done|done|]. by rewrite Hd.
  - intros [[Hs Hc Ho] Hn]. destruct (dirty d) eqn:Ed; [specialize (Ho eq_refl); lia|]. split; [done|]. split; [auto|done].
Qed.
Lemma message_settled ops d x : settled d x -> closes 0 ops = true -> exists d', run_ops ops d = Some d' /\ settled d' (outcome ops x).
Proof.
  intros [Hd Hn]%settled_in_step Hc. destruct (run_ops_ok ops d x 0 Hd Hn ltac:(lia) Hc) as (d' & E & Hd' & Hn').
  exists d'. split; [done|]. by apply settled_in_step.
Qed.
Lemma step_settled d d' x : settled d x -> life_step d d' -> exists x', settled d' x'.
Proof.
  intros Hd Hstep. destruct Hstep as [ops d0 Hc|migrate d0].
  - destruct (message_settled ops d0 x Hd Hc) as (d1 & -> & Hd1). by exists (outcome ops x).
  - destruct Hd as (Hs & Hc & Hn & Hf). unfold restore_state_from_stable, restarted. cbn. rewrite Hc. cbn.
    destruct (migrate x) as [y|]; cbn; [|by exists x]. exists y. by repeat split.
Qed.

End cell.

(** ** The faucet *)

Section faucet.
Context `{P : PrincipalSpec}.
#[local] Existing Instance Principal_eq_dec.

Definition EVENT_HORIZON_POKE_MIN_AMOUNT_E8S : Z := 100000000.
Definition has_relevant_event_horizon_match (matches : list EventHorizonPokeMatch) (self : Principal) : bool :=
  existsb (fun item => bool_decide (subject item = self) && match target item with Subaccount 0 => true | _ => false end
    && (EVENT_HORIZON_POKE_MIN_AMOUNT_E8S <=? max_amount item)) matches.
(** What [poke] does: an error of the guard, or whether the worker is called. *)
Definition poke_admitted (caller self : Principal) (matches : list EventHorizonPokeMatch) : result bool string :=
  match guard_event_horizon_caller caller with
  | Ok _ => Ok (has_relevant_event_horizon_match matches self)
  | Err e => Err e
  end.
End faucet.

(** Whatever messages and upgrades the faucet goes through, no message panics in the
    persistence, and between two messages the cell holds exactly the state that the
    canister shows, the one that the updates of the messages made; so an upgrade resumes
    from it, and is refused exactly as it would be for that state. *)
Theorem faucet_state_survives `{P : PrincipalSpec} `{A : !AccountSpec} (x0 : FaucetState.State) (d : Durable)
    (Hreach : rtc life_step (set_state x0 (MkDurable None None 0 false)) d) :
  exists x, shown d = Some x /\
  (forall ops, closes 0 ops = true -> exists d', run_ops ops d = Some d' /\ shown d' = Some (outcome ops x) /\ cell d' = Some (outcome ops x)) /\
  (forall self_id dispatch now_nanos args,
     FaucetState.post_upgrade self_id (restore_state_from_stable (restarted d)) dispatch now_nanos args
     = FaucetState.post_upgrade self_id (Some x) dispatch now_nanos args).
Proof.
  assert (Hset : exists x, settled d x).
  { assert (Hkeep : forall d1 d2, rtc life_step d1 d2 -> (exists x, settled d1 x) -> exists x : FaucetState.State, settled d2 x).
    { induction 1 as [|d1 d2 d3 Hs _ IH]; [done|]. intros [x Hx]. apply IH. by eapply step_settled. }
    apply (Hkeep _ _ Hreach). exists x0. by repeat split. }
  destruct Hset as [x Hx]. exists x. split; [apply Hx|]. split.
  - intros ops Hc. destruct (message_settled ops d x Hx Hc) as (d' & E & H1 & H2 & _). by exists d'.
  - intros self_id dispatch now_nanos args. unfold restore_state_from_stable, restarted. cbn. by destruct Hx as (_ & -> & _).
Qed.

Module ConcreteDurableFaucet.
Import Concrete ConcreteFaucet.
Definition installed : Durable := set_state ConcreteFaucet.state (MkDurable None None 0 false).
(** Two nested batches: nothing is stored until the outer one closes. *)
Definition batch : list (op (X:=FaucetState.State (P:=concrete_principal))) :=
  [Begin; Begin; Update (fun s => s <| last_main_run_ts := 7 |>); Close; Update (fun s => s <| main_lock_state_ts := Some 9 |>)].
Example stored_at_the_end :
  (cell <$> run_ops batch installed) = Some (Some ConcreteFaucet.state) /\
  (cell <$> run_ops (batch ++ [Close]) installed) = Some (Some (ConcreteFaucet.state <| last_main_run_ts := 7 |> <| main_lock_state_ts := Some 9 |>)) /\
  closes 0 (batch ++ [Close]) = true.
Proof. split; [|split]; reflexivity. Qed.
Example too_many_closes : run_ops [Begin; Close; Close] installed = None.
Proof. reflexivity. Qed.
Example strangers_do_not_wake : poke_admitted (P:=concrete_principal) 7 9 [] = Err "caller is not Event Horizon"%string.
Proof. reflexivity. Qed.
End ConcreteDurableFaucet.
